(* ===== verification/_CoqProject ===== *)
-Q . S2P
Prelude.v
Heap.v
TimeRange.v
IntCodec.v
NearestDelta.v
Float64.v
Compress.v
ArrayCodec.v
Tsid.v
BlockHeader.v
Decimal.v
Dedup.v
Block.v
BlockStream.v
BlockMerge.v
StreamMerge.v
PartMerge.v
Uint64Set.v
Uint64SetBucket.v
Uint64SetWalk.v
Uint64SetOps.v
Uint64SetSpec.v
ItemBlock.v
ItemBlockSpec.v
ItemHeader.v
ItemStream.v
ItemMerge.v
ItemMergeSpec.v
ItemPartMerge.v
MetricName.v
IndexRow.v
IndexRowSpec.v
BlockCache.v
BlockCacheSpec.v
SearchBase.v
ItemSearch.v
ItemSearchSpec.v
ItemPartSearch.v
ItemTableSearch.v
ItemTable.v
PartSelect.v
RawItems.v
PartWrite.v
PartDisk.v
ItemTableOps.v
ItemTableSteps.v
ItemTableStore.v
ItemTableInv.v
ItemTableSafe.v
ItemTableOpen.v
ItemTableClose.v
ItemTableClaims.v
ItemTableIndex.v
IndexCaches.v
IndexDb.v
IndexDbSpec.v
IndexDbTable.v
TagFilter.v
IndexPlanner.v
IndexScanSpec.v
IndexPlannerSpec.v
IndexPlannerExact.v
IndexComposite.v
IndexQuery.v
IndexQuerySpec.v
IndexResults.v
IndexSort.v
IndexAnswers.v
PoolSearch.v
DataSearch.v
DataSearchSpec.v
DataTableSearch.v
