(* ===== verification/Prelude.v ===== *)
(** * EsMetrics: a verified model of the storage engine

    EsMetrics is a time series database in Rust, a port of VictoriaMetrics.
    Samples arrive with labels; the labels become a metric name, the name is
    registered in an inverted index and gets a series identifier, and the
    samples of a series are packed into blocks, collected in immutable parts,
    and merged in the background.  This library models the code that decides
    what is on disk and in the index, and proves that nothing is lost or
    changed on the way.

    ** The program and the files that model it

    The encodings ([crates/esm-encoding/src], [crates/esm-common/src]):
    - [IntCodec] is [int.rs]: big-endian integers, zig-zag, LEB128 varints,
      the word-at-a-time batch reader, length-prefixed byte strings;
    - [NearestDelta] is [nearest_delta.rs] and [nearest_delta2.rs];
    - [Float64] is the arithmetic on doubles that the encodings use;
    - [Compress] is [compress.rs]; the zstd crate is the class [Zstd], its
      documented behaviour the class [ZstdLaws];
    - [ArrayCodec] is [encoding.rs] and the tests of [fastnum.rs];
    - [Decimal] is the integer half of [decimal.rs].

    The storage of samples ([crates/esm-storage/src]):
    - [TimeRange] is [time_range.rs] and [util.rs]: civil dates, time ranges,
      monthly partitions, with the wrap-around of the machine integers;
    - [Tsid] is [tsid.rs]; [BlockHeader] is [block_header.rs] and
      [metaindex_row.rs]; [Dedup] is [dedup.rs]; [Block] is [block.rs];
    - [BlockStream] is [block_stream/writer.rs], [block_stream/reader.rs] and
      [part/header.rs]: a part is four streams, written block by block and
      read back with every offset and count checked again;
    - [BlockMerge] and [StreamMerge] are [block_stream/merger.rs]: the merge of
      two blocks of a series, the heap of streams, and the loop of
      [merge_block_streams]; [Heap] is the heap, which the merge set has too;
    - [PartMerge] puts the readers and the writer of [BlockStream] under the
      merge of [StreamMerge];
    - [DataSearch] is [part/mod.rs], [part/inmemory.rs], [part/search.rs],
      [partition/search.rs] and [table_search.rs]: the search for blocks of
      given series and times in a part, a partition and a table.
      [PoolSearch] is the heap of searches that the last two have in common;
      [DataSearchSpec] proves the search in a part, [DataTableSearch] the
      search in a table of written parts.

    The sets of metric IDs ([crates/esm-common/src/uint64set.rs]):
    - [Uint64Set] has every operation; [Uint64SetBucket], [Uint64SetWalk],
      [Uint64SetOps] and [Uint64SetSpec] prove them level by level.

    The merge set, the sorted item store under the index
    ([crates/esm-mergeset/src]):
    - [ItemBlock] is [inmemory_block.rs], with its proofs in [ItemBlockSpec];
    - [ItemHeader] is [block_header.rs] and [metaindex_row.rs];
    - [ItemStream] is [block_stream_writer.rs], [block_stream_reader.rs],
      [inmemory_part.rs] and [part_header.rs];
    - [ItemMerge] is [merge.rs], with its proofs in [ItemMergeSpec];
      [ItemPartMerge] is the same on real parts;
    - [BlockCache] is [blockcache.rs], the sharded cache of decoded blocks,
      with its proofs in [BlockCacheSpec]; [SearchBase] is what the searches
      share: the files of a part and the lookup through a cache;
    - [ItemSearch] is [part.rs] and [part_search.rs], with its proofs in
      [ItemSearchSpec] and [ItemPartSearch]; [ItemTableSearch] is
      [table_search.rs]; [ItemTable] is what the index asks of a table: the
      class [ItemTable] of its cursors and the class [ItemTableLaws] of their
      laws, which [ItemTableSearch] discharges;
    - [PartSelect] is the choice of parts to merge in [part_wrapper.rs],
      [RawItems] is [raw_items.rs], [PartDisk] the directories of
      [table_parts.rs], [part_header.rs] and the file variants of parts;
    - [ItemTableOps] is the work of [table.rs], [table_merge.rs] and
      [part_wrapper.rs], [ItemTableSteps] the same as steps of concurrent
      threads, with the events of a running table and [must_open];
      [ItemTableClose] is [must_close], with the count of references to file
      parts and the wait for the removal of directories;
    - [PartWrite] says what parts the table writes, [ItemTableStore] ties the
      wrappers of a table to the items and directories of their parts,
      [ItemTableInv] has the invariant of a table and its threads and that every
      step keeps it, [ItemTableSafe] that every event does, [ItemTableOpen]
      opening and recovery; [ItemTableClaims] has the theorems on tables and
      [ItemTableIndex] those on the table of the index.

    The inverted index ([crates/esm-storage/src]):
    - [MetricName] is [metric_name.rs]: tag values and their escaping, the
      canonical order of tags, the canonical and the raw form of a name;
    - [IndexRow] is the key helpers of [index/mod.rs] and [index/row_merge.rs],
      the callback the index gives to the merge set; [IndexRowSpec] proves it
      correct and puts it under the merge of [ItemPartMerge];
    - [IndexCaches] is [index/caches.rs]: the two-generation caches and the
      caches of metric IDs, with their proofs;
    - [IndexDb] is [index/create.rs], the state and the caches of
      [index/mod.rs] and the lookups of [index/search.rs]: the rows a new or a
      deleted series adds and how identifiers and names are found again.
      [IndexDbSpec] proves them over any table, [IndexDbTable] over parts;
    - [TagFilter] is [index/tag_filters.rs] and the filter functions of
      [index/search.rs]: filters, composite filters and the match of a name;
    - [IndexPlanner] is [index/planner.rs]: the scans of the index, the
      statistics and the plan of a set of filters on a date.  [IndexScanSpec]
      proves the scans, [IndexPlannerSpec] one filter and the match of names,
      [IndexPlannerExact] the plan when sorting returns, [IndexSort] that sorting
      is the only way the plan can panic, [IndexComposite] that composite filters
      may be looked up and matched in any mix;
    - [IndexQuery] is the rest of [index/search.rs] and the queries of
      [index/mod.rs]: time ranges, sets of filters, the cache of results,
      identifiers, names and the deletion of series.  [IndexQuerySpec] and
      [IndexResults] prove them, [IndexAnswers] has the theorems.

    ** How the code is modelled

    A function that can fail returns [res E A]: [Ok] and [Err] are the arms of
    the Rust result, [Panic] is an [assert!], an [unwrap] or an index out of
    range.  Integers are [Z]; where the source has a fixed width the model
    wraps explicitly ([as_u64], [as_i64], [i64_add], ...).  A byte is a [Z]
    below 256 and a [Vec<u8>] a list of them; a [&mut] argument is passed in
    and out.  A struct is a record with the fields of the source (with a short
    prefix where two structs share a field name), an enum an inductive type.
    Error messages are constructors that carry the values the message prints.

    Interfaces between components are classes: [Zstd] and [ZstdLaws] for the
    compressor, [DedupValue] for the value types of [dedup.rs], the sources and
    sinks of the two merges ([StreamMerge], [ItemMerge]), which the theorems of
    the merges are proved against and the real readers and writers discharge
    in [PartMerge] and [ItemPartMerge]; [BlockCacheOps] and [BlockCacheLaws] for
    the caches the searches read through, discharged by [BlockCache] with any
    clock and any limit; [Cursor] and [CursorLaws] for what a pool of searches
    asks of its members, discharged by the search in a part and, one level up,
    by the pool itself; [ItemTable] and [ItemTableLaws] for the table under the
    index.  The [regex] crate is the class [RegexEngine], the simplification of
    expressions in [regexutil.rs] the class [RegexUtil]; the one fact used of
    them, how [.+] is simplified and compiled, is the class [DotPlusLaws].
    [slice::sort_by] is the class [SliceSort], because the comparison that the
    planner gives it is not a total order: then the library promises only that
    the elements stay ([SliceSortLaws]) and may panic.  The
    hash function is the class [Xxh64], of which nothing is used, and the size
    of a cached set is the class [SetSize].

    ** What the theorems show

    - Round trips: integers, varint batches, delta and array encodings, block
      headers, index blocks, metaindex rows, packed and portable blocks, item
      blocks, integer sets, raw and canonical metric names decode to what was
      encoded; parts of both stores are read back as written.
    - Merges: merging parts of samples gives exactly the rows of the inputs
      less the dropped ones, all of them deleted or outdated (outdated rows stay
      only in blocks that were not merged and reach into the retention); merging parts of items gives the
      sorted items of the inputs passed through the callback; merging parts of
      the index keeps exactly the postings.  Both merges end without error.
    - Tables of items: whatever a table does and however its threads are
      interleaved, no step panics, no item is lost, what is visible stays
      visible, a crash loses nothing that was in files, and closing ends with
      every item in a file, or panics if a search still holds a file part.
    - Searches: a cursor over a table of items refines a cursor in the sorted
      union of its parts, and a search for samples reads exactly the blocks of
      the wanted series and of the times in the retention, both through caches
      that fill on the way.  Parts of items must have no block that is full of
      one repeated item: an example shows the search wrong on them.
    - The index: whatever is registered and deleted, lookups by name and by
      metric ID find exactly the registered series; the plan of a query finds
      exactly the series whose names pass the filters, in whatever order the
      statistics put them; composite filters stand for the filters they are
      made from; the keys of cached results determine the answers; sequences of
      queries through all caches are exact, and deleted series do not return.
      The histories and filters for which this holds are [history_ok],
      [user_query], [keyed_query] and [names_ok]; the one panic left is that of
      [slice::sort_by] on the comparison of the planner.
    - The block cache: a lookup answers with nothing or with a block that was
      put under that key and whose part is still there; its size stays within
      the limit by evicting the least recently used entries.
    - Equivalence and refinement: the word-at-a-time varint reader equals the
      bytewise one, the in-place deduplication equals the bucket-by-bucket
      reference, and every program over the integer sets denotes the finite set
      that the same program gives on mathematical sets.
    - Safety and errors: decoders that must not panic on arbitrary bytes do
      not; where crafted bytes do abort a decoder, or an oversized item keeps a
      merge from ending, or spellings of a tag key defeat the canonical name,
      or two data blocks share a cache key, or a composite filter loses a name
      filter, a theorem or an example exhibits it.

    ** Fuel and bounds

    Loops that are not structural take a fuel argument, and a theorem that says
    the code returns fixes a fuel and proves it is enough: one round per item
    and one more for the merge of items, twice the number of items and one for
    its inner loop (an item takes at most two rounds, one of them a flush), one
    round per remaining block for the merge of samples, the length of the input
    for the loops over bytes, one round per index block, block header and
    series for the loops of the searches, and the square of the number of items
    for the scans of the planner, which seek.  Threads of a table that is
    closed are given ten times the work that the state measures, which every
    step of every thread reduces.  Running out of fuel is an error value of its
    own, so no theorem can hold because fuel ran out.  Sizes are bounded where
    the code bounds them (64 KiB for a block of items, 8192 rows for a block of
    samples) or where a counter would wrap (2^46 items in a merge, far beyond
    what 64-bit offsets of real parts reach).

    ** Not modelled

    - File variants of the streams of samples, snapshots, and the process-wide
      counters, which are input and output; in-memory parts have the same
      format.
    - Locks and background schedules, with one exception: a table of the merge
      set is a state machine whose events interleave the critical sections of
      its threads in any order.  Elsewhere operations are sequences of calls; a
      stop flag is the sequence of values read from it.
    - Conversions between floats and decimals, and with them raw rows.
    - Partitions and tables of samples and the front end of the storage:
      background work, directories and locks around the parts, merges and
      searches modelled here.
    - Of the tables of the merge set, the loops that decide when a background
      thread starts its work, the semaphores that only delay it, the flush
      callback and snapshots.
    - The parser and printer of regular expressions in [regexutil.rs].
    - Query languages, relabelling, stream aggregation, protocols, HTTP and the
      command line programs. *)
From Stdlib Require Import ZArith Lia Bool.
From stdpp Require Export base tactics option list numbers sorting.

Declare Scope esm_scope.
Delimit Scope esm_scope with esm.
Local Open Scope Z_scope.

(** ** Outcomes of fallible code

    [Ok] and [Err] are the two arms of a Rust [Result]; [Panic] is an
    [assert!], an [unwrap] or an out of range index that fires, after which
    the process aborts. *)
Inductive res (E A : Type) : Type :=
| Ok (a : A)
| Err (e : E)
| Panic.
Arguments Ok {E A} a.
Arguments Err {E A} e.
Arguments Panic {E A}.

Global Instance res_ret {E} : MRet (res E) := fun A a => Ok a.
Global Instance res_bind {E} : MBind (res E) := fun A B f m =>
  match m with
  | Ok a => f a
  | Err e => Err e
  | Panic => Panic
  end.

(** [Result::map_err]. *)
Definition map_err {E E' A : Type} (f : E -> E') (m : res E A) : res E' A :=
  match m with
  | Ok a => Ok a
  | Err e => Err (f e)
  | Panic => Panic
  end.

(** [Option::ok_or]. *)
Definition ok_or {E A : Type} (o : option A) (e : E) : res E A :=
  match o with
  | Some a => Ok a
  | None => Err e
  end.

(** [assert!(b)]. *)
Definition assert_ {E : Type} (b : bool) : res E unit :=
  if b then Ok tt else Panic.

(** An [if] that returns an error early. *)
Definition guard_ {E : Type} (b : bool) (e : E) : res E unit :=
  if b then Err e else Ok tt.

(** Slice indexing [s[i]]: panics out of range. *)
Definition idx {E A : Type} (l : list A) (i : nat) : res E A :=
  match l !! i with
  | Some a => Ok a
  | None => Panic
  end.

Lemma idx_Some {E A} (l : list A) i a : l !! i = Some a -> idx (E := E) l i = Ok a.
Proof. unfold idx. by intros ->. Qed.

(** The tail slice [&s[n..]]: panics when [n] exceeds the length. *)
Definition slice_from {E A : Type} (l : list A) (n : nat) : res E (list A) :=
  if decide (n <= length l)%nat then Ok (drop n l) else Panic.

(** The head slice [&s[..n]]. *)
Definition slice_to {E A : Type} (l : list A) (n : nat) : res E (list A) :=
  if decide (n <= length l)%nat then Ok (take n l) else Panic.

(** [s[i] = x]: panics out of range. *)
Definition set_idx {E A : Type} (l : list A) (i : nat) (x : A) : res E (list A) :=
  if decide (i < length l)%nat then Ok (<[i := x]> l) else Panic.

Definition is_ok {E A : Type} (m : res E A) : bool :=
  match m with Ok _ => true | _ => false end.

Definition panics {E A : Type} (m : res E A) : bool :=
  match m with Panic => true | _ => false end.

Lemma bind_ok {E A B} (m : res E A) (f : A -> res E B) b :
  m ≫= f = Ok b <-> exists a, m = Ok a /\ f a = Ok b.
Proof. destruct m; cbn; naive_solver. Qed.

Lemma bind_err {E A B} (m : res E A) (f : A -> res E B) e :
  m ≫= f = Err e <-> m = Err e \/ exists a, m = Ok a /\ f a = Err e.
Proof. destruct m; naive_solver. Qed.

Lemma bind_panic {E A B} (m : res E A) (f : A -> res E B) :
  m ≫= f = Panic <-> m = Panic \/ exists a, m = Ok a /\ f a = Panic.
Proof. destruct m; naive_solver. Qed.

Lemma map_err_ok {E E' A} (f : E -> E') (m : res E A) a :
  map_err f m = Ok a <-> m = Ok a.
Proof. destruct m; naive_solver. Qed.

Lemma map_err_panic {E E' A} (f : E -> E') (m : res E A) :
  map_err f m = Panic <-> m = Panic.
Proof. destruct m; naive_solver. Qed.

Lemma ok_or_ok {E A} (o : option A) (e : E) a : ok_or o e = Ok a <-> o = Some a.
Proof. destruct o; naive_solver. Qed.

Lemma guard_ok {E} b (e : E) u : guard_ b e = Ok u <-> b = false.
Proof. destruct b, u; naive_solver. Qed.

Lemma assert_ok {E} b u : assert_ (E := E) b = Ok u <-> b = true.
Proof. destruct b, u; naive_solver. Qed.

(** ** Machine integers

    A [w]-bit unsigned or signed integer is a [Z] in the range below;
    [wrap_u] and [wrap_i] are the truncating casts and the wrap-around of the
    [wrapping_*] operations. *)
Definition is_u (w x : Z) : Prop := 0 <= x < 2 ^ w.
Definition is_i (w x : Z) : Prop := - 2 ^ (w - 1) <= x < 2 ^ (w - 1).
Definition wrap_u (w x : Z) : Z := x mod 2 ^ w.
Definition wrap_i (w x : Z) : Z := (x + 2 ^ (w - 1)) mod 2 ^ w - 2 ^ (w - 1).

Abbreviation is_u8 := (is_u 8).
Abbreviation is_u16 := (is_u 16).
Abbreviation is_u32 := (is_u 32).
Abbreviation is_u64 := (is_u 64).
Abbreviation is_i16 := (is_i 16).
Abbreviation is_i64 := (is_i 64).
Abbreviation as_u8 := (wrap_u 8).
Abbreviation as_u16 := (wrap_u 16).
Abbreviation as_u32 := (wrap_u 32).
Abbreviation as_u64 := (wrap_u 64).
Abbreviation as_i8 := (wrap_i 8).
Abbreviation as_i16 := (wrap_i 16).
Abbreviation as_i64 := (wrap_i 64).

(** The [wrapping_*] operations on [i64]. *)
Definition i64_add (a b : Z) : Z := as_i64 (a + b).
Definition i64_sub (a b : Z) : Z := as_i64 (a - b).
Definition i64_neg (a : Z) : Z := as_i64 (- a).

(** [u64 << k]: the bits shifted out are lost. *)
Definition u64_shl (x k : Z) : Z := as_u64 (Z.shiftl x k).

Global Instance is_u_dec w x : Decision (is_u w x).
Proof. unfold is_u. apply _. Defined.
Global Instance is_i_dec w x : Decision (is_i w x).
Proof. unfold is_i. apply _. Defined.

Lemma wrap_u_range w x : 0 <= w -> is_u w (wrap_u w x).
Proof. intros. unfold is_u, wrap_u. apply Z.mod_pos_bound. lia. Qed.

Lemma wrap_u_id w x : is_u w x -> wrap_u w x = x.
Proof. unfold is_u, wrap_u. intros. by apply Z.mod_small. Qed.

Lemma pow2_split w : 1 <= w -> 2 ^ w = 2 * 2 ^ (w - 1).
Proof. intros. replace w with (Z.succ (w - 1)) at 1 by lia. rewrite Z.pow_succ_r; lia. Qed.

Lemma wrap_i_range w x : 1 <= w -> is_i w (wrap_i w x).
Proof.
  intros Hw. unfold is_i, wrap_i. pose proof (pow2_split w Hw).
  pose proof (Z.mod_pos_bound (x + 2 ^ (w - 1)) (2 ^ w)). lia.
Qed.

Lemma wrap_i_id w x : 1 <= w -> is_i w x -> wrap_i w x = x.
Proof.
  intros Hw. unfold is_i, wrap_i. pose proof (pow2_split w Hw). intros.
  rewrite Z.mod_small; lia.
Qed.

Lemma wrap_i_eqm w x : 1 <= w -> exists k, wrap_i w x = x + k * 2 ^ w.
Proof.
  intros Hw. exists (- ((x + 2 ^ (w - 1)) / 2 ^ w)). unfold wrap_i.
  pose proof (Z.div_mod (x + 2 ^ (w - 1)) (2 ^ w)). lia.
Qed.

(** Two signed integers congruent modulo [2 ^ w] are equal. *)
Lemma wrap_i_unique w x y k :
  1 <= w -> is_i w y -> x = y + k * 2 ^ w -> wrap_i w x = y.
Proof.
  intros Hw Hy ->. unfold wrap_i.
  replace (y + k * 2 ^ w + 2 ^ (w - 1)) with (y + 2 ^ (w - 1) + k * 2 ^ w) by lia.
  rewrite Z.mod_add by lia. by apply wrap_i_id.
Qed.

Lemma i64_add_sub v d : is_i64 d -> i64_add v (i64_sub d v) = d.
Proof.
  intros Hd. unfold i64_add, i64_sub.
  destruct (wrap_i_eqm 64 (d - v)) as [k ->]; [lia|].
  apply (wrap_i_unique _ _ _ k); [lia|done|lia].
Qed.

Lemma i64_add_range a b : is_i64 (i64_add a b).
Proof. by apply wrap_i_range. Qed.
Lemma i64_sub_range a b : is_i64 (i64_sub a b).
Proof. by apply wrap_i_range. Qed.

(** ** Bits and arithmetic *)

Lemma shiftr_div x k : 0 <= k -> Z.shiftr x k = x / 2 ^ k.
Proof. apply Z.shiftr_div_pow2. Qed.

Lemma shiftl_mul x k : 0 <= k -> Z.shiftl x k = x * 2 ^ k.
Proof. apply Z.shiftl_mul_pow2. Qed.

(** Masking with [2 ^ k - 1] is a remainder. *)
Lemma land_ones_mod x k m : 0 <= k -> m = Z.ones k -> Z.land x m = x mod 2 ^ k.
Proof. intros ? ->. by apply Z.land_ones. Qed.

(** OR-ing a number below [2 ^ s] with one shifted by [s] adds them. *)
Lemma lor_shifted x y s : 0 <= s -> 0 <= x < 2 ^ s -> Z.lor x (y * 2 ^ s) = x + y * 2 ^ s.
Proof.
  intros Hs Hx. symmetry. apply Z.add_nocarry_lor.
  apply Z.bits_inj'. intros n Hn. rewrite Z.land_spec, Z.bits_0.
  destruct (decide (n < s)).
  - rewrite Z.mul_pow2_bits_low by lia. apply andb_false_r.
  - rewrite <-(Z.mod_small x (2 ^ s)) by done.
    rewrite Z.mod_pow2_bits_high by lia. done.
Qed.

Lemma u64_shl_small x k : 0 <= k -> 0 <= x -> x * 2 ^ k < 2 ^ 64 -> u64_shl x k = x * 2 ^ k.
Proof.
  intros. unfold u64_shl. rewrite shiftl_mul by done. apply wrap_u_id. unfold is_u. lia.
Qed.

(** Setting the continuation bit of a varint byte: [(x | 0x80) as u8]. *)
Lemma lor_80_u8 x : as_u8 (Z.lor x 0x80) = 128 + x mod 128.
Proof.
  pose proof (Z.mod_pos_bound x 128 eq_refl).
  transitivity (Z.lor (x mod 2 ^ 7) (1 * 2 ^ 7));
    [|change (2 ^ 7) with 128 at 1; rewrite lor_shifted; lia].
  unfold wrap_u. rewrite <-!Z.land_ones by lia.
  apply Z.bits_inj'. intros n Hn. rewrite !Z.land_spec, !Z.lor_spec, !Z.land_spec.
  change (1 * 2 ^ 7) with (2 ^ 7). change 128 with (2 ^ 7).
  rewrite !Z.pow2_bits_eqb, !Z.testbit_ones_nonneg by lia.
  destruct (Z.testbit x n); lia.
Qed.

Lemma lxor_m1 x : Z.lxor x (-1) = - x - 1.
Proof. rewrite Z.lxor_m1_r. unfold Z.lnot. lia. Qed.

(** An arithmetic right shift by [w - 1] yields the sign. *)
Lemma shiftr_sign w v : 1 <= w -> is_i w v -> Z.shiftr v (w - 1) = if decide (v < 0) then -1 else 0.
Proof.
  intros Hw [H1 H2]. rewrite shiftr_div by lia. case_decide.
  - symmetry. apply (Z.div_unique_pos _ _ _ (v + 2 ^ (w - 1))); lia.
  - apply Z.div_small. lia.
Qed.

(** [lia] for goals with divisions and remainders by constants. *)
Ltac dlia := Z.div_mod_to_equations; lia.

(** ** Inverting and running monadic code *)

Ltac res_inv :=
  repeat match goal with
  | H : _ ≫= _ = Ok _ |- _ =>
      apply bind_ok in H; let a := fresh "a" in let Ha := fresh "Hm" in destruct H as (a & Ha & H)
  | H : map_err _ _ = Ok _ |- _ => apply map_err_ok in H
  | H : ok_or _ _ = Ok _ |- _ => apply ok_or_ok in H
  | H : guard_ _ _ = Ok _ |- _ => apply guard_ok in H
  | H : assert_ _ = Ok _ |- _ => apply assert_ok in H
  | H : Ok _ = Ok _ |- _ => injection H as H
  | H : Err _ = Ok _ |- _ => discriminate H
  | H : Panic = Ok _ |- _ => discriminate H
  end.

Lemma bind_Ok {E A B} (a : A) (f : A -> res E B) : Ok a ≫= f = f a.
Proof. done. Qed.

Lemma bind_eq {E A B} (m : res E A) a (f : A -> res E B) : m = Ok a -> m ≫= f = f a.
Proof. by intros ->. Qed.

Lemma map_err_Ok {E E' A} (f : E -> E') (a : A) : map_err f (Ok a) = Ok a.
Proof. done. Qed.

Lemma guard_false {E} b (e : E) : b = false -> guard_ b e = Ok tt.
Proof. by intros ->. Qed.

Lemma assert_true {E} b : b = true -> assert_ (E := E) b = Ok tt.
Proof. by intros ->. Qed.

(** Steps past a leading guard or assertion that [tac] shows not to fire. *)
Ltac pass_guard tac := etransitivity; [apply bind_eq; apply guard_false; tac|cbv beta].
Ltac pass_assert tac := etransitivity; [apply bind_eq; apply assert_true; tac|cbv beta].

(** A computation that does not panic, whatever it answers otherwise. *)
Definition no_panic {E A} (m : res E A) : Prop := m <> Panic.

Lemma no_panic_bind {E A B} (m : res E A) (f : A -> res E B) :
  no_panic m -> (forall a, m = Ok a -> no_panic (f a)) -> no_panic (m ≫= f).
Proof. unfold no_panic. destruct m; cbn; naive_solver. Qed.

Lemma no_panic_ok {E A} (a : A) : no_panic (E := E) (Ok a).
Proof. done. Qed.
Lemma no_panic_err {E A} (e : E) : no_panic (A := A) (Err e).
Proof. done. Qed.
Lemma no_panic_map_err {E E' A} (f : E -> E') (m : res E A) : no_panic m -> no_panic (map_err f m).
Proof. unfold no_panic. by destruct m. Qed.
Lemma no_panic_ok_or {E A} (o : option A) (e : E) : no_panic (ok_or o e).
Proof. by destruct o. Qed.
Lemma no_panic_guard {E} b (e : E) : no_panic (guard_ b e).
Proof. by destruct b. Qed.
Lemma no_panic_slice {E A} (l : list A) n : (n <= length l)%nat -> no_panic (slice_from (E := E) l n).
Proof. intros. unfold slice_from, no_panic. by rewrite decide_True. Qed.

Create HintDb esm discriminated.
#[export] Hint Resolve wrap_u_range wrap_i_range i64_add_range i64_sub_range : esm.
#[export] Hint Resolve no_panic_ok no_panic_err no_panic_map_err no_panic_ok_or
  no_panic_guard no_panic_slice : esm.

Lemma slice_from_ok {E A} (l1 l2 : list A) n :
  length l1 = n -> slice_from (E := E) (l1 ++ l2) n = Ok l2.
Proof.
  intros <-. unfold slice_from. rewrite decide_True by (rewrite length_app; lia).
  by rewrite drop_app_length.
Qed.

(** ** Lists *)

Lemma Forall_weaken {A} (P Q : A -> Prop) l : (forall x, P x -> Q x) -> Forall P l -> Forall Q l.
Proof. induction 2; constructor; auto. Qed.

Lemma Forall_In {A} (P : A -> Prop) l : Forall P l <-> forall x, In x l -> P x.
Proof. apply List.Forall_forall. Qed.

Abbreviation sortedZ := (StronglySorted Z.le).

(** The executable test that every item is related to its successor
    ([is_sorted_by], [windows(2).all(..)]). *)
Fixpoint chain_b {A} (le : A -> A -> bool) (l : list A) : bool :=
  match l with
  | x :: ((y :: _) as l') => le x y && chain_b le l'
  | _ => true
  end.

(** For a transitive relation the test decides full sortedness. *)
Lemma chain_b_sorted {A} (le : A -> A -> bool) (l : list A) :
  (forall x y z, le x y -> le y z -> le x z) ->
  chain_b le l <-> StronglySorted (fun x y => le x y) l.
Proof.
  intros Htr. split.
  - induction l as [|x l IH]; [constructor|]. destruct l as [|y l].
    + repeat constructor.
    + cbn [chain_b]. intros [H1 H2]%andb_True. specialize (IH H2).
      apply StronglySorted_cons. split; [|done]. apply StronglySorted_cons in IH as [IH _].
      constructor; [done|]. revert IH. apply Forall_weaken. intros z. by apply Htr.
  - induction 1 as [|x l Hl IH Hx]; [done|]. destruct l as [|y l]; [done|].
    cbn [chain_b]. apply andb_True. split; [by inversion Hx|done].
Qed.

Lemma sortedZ_snoc l x : sortedZ (l ++ [x]) <-> sortedZ l /\ Forall (fun y => y <= x) l.
Proof.
  rewrite StronglySorted_app. split.
  - intros (H1 & H2 & _). split; [done|]. apply Forall_In. intros y Hy.
    apply H1; [by apply list_elem_of_In|by left].
  - intros [H1 H2]. split_and!; [|done|repeat constructor].
    intros y z Hy Hz%list_elem_of_singleton. subst. rewrite Forall_In in H2.
    apply H2. by apply list_elem_of_In.
Qed.

Lemma sortedZ_app l1 l2 :
  sortedZ (l1 ++ l2) <-> sortedZ l1 /\ sortedZ l2 /\ forall x y, In x l1 -> In y l2 -> x <= y.
Proof.
  rewrite StronglySorted_app. setoid_rewrite list_elem_of_In. naive_solver.
Qed.

(** ** Lexicographic order

    The order of byte slices ([<[u8]>::cmp]) and, on the list of its fields,
    of a struct with a derived [Ord]. *)
Fixpoint lex_compare (l1 l2 : list Z) : comparison :=
  match l1, l2 with
  | [], [] => Eq
  | [], _ :: _ => Lt
  | _ :: _, [] => Gt
  | x :: l1', y :: l2' =>
      match x ?= y with Eq => lex_compare l1' l2' | c => c end
  end.

Definition lex_leb (l1 l2 : list Z) : bool :=
  match lex_compare l1 l2 with Gt => false | _ => true end.
Definition lex_ltb (l1 l2 : list Z) : bool :=
  match lex_compare l1 l2 with Lt => true | _ => false end.

Lemma lex_compare_refl l : lex_compare l l = Eq.
Proof. induction l as [|x l IH]; cbn; [done|]. by rewrite Z.compare_refl. Qed.

Lemma lex_compare_eq l1 l2 : lex_compare l1 l2 = Eq -> l1 = l2.
Proof.
  revert l2. induction l1 as [|x l1 IH]; intros [|y l2]; cbn; try done.
  destruct (Z.compare_spec x y); try done. intros. f_equal; auto.
Qed.

Lemma lex_compare_antisym l1 l2 : lex_compare l2 l1 = CompOpp (lex_compare l1 l2).
Proof.
  revert l2. induction l1 as [|x l1 IH]; intros [|y l2]; cbn; try done.
  rewrite (Z.compare_antisym x y). destruct (x ?= y); cbn; auto.
Qed.

Lemma lex_compare_trans l1 l2 l3 :
  lex_compare l1 l2 <> Gt -> lex_compare l2 l3 <> Gt -> lex_compare l1 l3 <> Gt.
Proof.
  revert l2 l3. induction l1 as [|x l1 IH]; intros [|y l2] [|z l3]; cbn; try done.
  destruct (Z.compare_spec x y), (Z.compare_spec y z), (Z.compare_spec x z); subst; try done; try lia.
  apply IH.
Qed.

Lemma lex_leb_refl l : lex_leb l l = true.
Proof. unfold lex_leb. by rewrite lex_compare_refl. Qed.
Lemma lex_leb_trans l1 l2 l3 : lex_leb l1 l2 -> lex_leb l2 l3 -> lex_leb l1 l3.
Proof.
  unfold lex_leb. pose proof (lex_compare_trans l1 l2 l3).
  destruct (lex_compare l1 l2), (lex_compare l2 l3), (lex_compare l1 l3); cbn in *; naive_solver.
Qed.
Lemma lex_leb_total l1 l2 : lex_leb l1 l2 \/ lex_leb l2 l1.
Proof.
  unfold lex_leb. rewrite (lex_compare_antisym l1 l2). destruct (lex_compare l1 l2); cbn; auto.
Qed.
Lemma lex_leb_antisym l1 l2 : lex_leb l1 l2 -> lex_leb l2 l1 -> l1 = l2.
Proof.
  unfold lex_leb. rewrite (lex_compare_antisym l1 l2).
  destruct (lex_compare l1 l2) eqn:E; cbn; try done. intros. by apply lex_compare_eq.
Qed.
Lemma lex_ltb_leb l1 l2 : lex_ltb l1 l2 = negb (lex_leb l2 l1).
Proof.
  unfold lex_ltb, lex_leb. rewrite (lex_compare_antisym l1 l2). by destruct (lex_compare l1 l2).
Qed.

(** ** Stable sorting

    [slice::sort_by] and [sort_by_key] are documented to be stable, which
    together with sortedness determines their result. *)
Section SortBy.
  Context {A : Type} (leb : A -> A -> bool).

Fixpoint insert_by (x : A) (l : list A) : list A :=
  match l with
  | [] => [x]
  | y :: l' => if leb x y then x :: l else y :: insert_by x l'
  end.

Definition sort_by (l : list A) : list A := foldr insert_by [] l.

Lemma insert_by_perm x l : insert_by x l ≡ₚ x :: l.
Proof. induction l as [|y l IH]; cbn; [done|]. destruct (leb x y); [done|]. rewrite IH. constructor. Qed.

Lemma sort_by_perm l : sort_by l ≡ₚ l.
Proof. induction l as [|x l IH]; cbn; [done|]. by rewrite insert_by_perm, IH. Qed.

  Context (leb_total : forall x y, leb x y \/ leb y x) (leb_trans : forall x y z, leb x y -> leb y z -> leb x z).

Lemma insert_by_sorted x l :
  StronglySorted (fun x y => leb x y) l -> StronglySorted (fun x y => leb x y) (insert_by x l).
Proof using All.
  induction 1 as [|y l Hl IH Hy]; cbn; [repeat constructor|]. destruct (leb x y) eqn:E.
  - constructor; [by constructor|]. constructor; [by rewrite E|]. revert Hy. apply Forall_weaken.
    intros z. apply leb_trans. by rewrite E.
  - constructor; [done|]. rewrite insert_by_perm. constructor; [|done].
    destruct (leb_total x y) as [H|H]; [by rewrite E in H|done].
Qed.

Lemma sort_by_sorted l : StronglySorted (fun x y => leb x y) (sort_by l).
Proof using All. induction l; [constructor|]. by apply insert_by_sorted. Qed.

Lemma insert_by_stable (P : A -> Prop) `{!forall x, Decision (P x)} x l :
  (forall x y, P x -> P y -> leb x y) -> filter P (insert_by x l) = filter P (x :: l).
Proof.
  intros HP. induction l as [|y l IH]; cbn [insert_by]; [done|]. destruct (leb x y) eqn:E; [done|].
  rewrite filter_cons, IH, !filter_cons. repeat case_decide; try done.
  assert (Hle : leb x y) by auto. by rewrite E in Hle.
Qed.

(** The sort is stable: items that compare equal keep their order. *)
Lemma sort_by_stable (P : A -> Prop) `{!forall x, Decision (P x)} l :
  (forall x y, P x -> P y -> leb x y) -> filter P (sort_by l) = filter P l.
Proof.
  intros HP. induction l as [|x l IH]; [done|]. change (sort_by (x :: l)) with (insert_by x (sort_by l)).
  rewrite insert_by_stable by done. by rewrite !filter_cons, IH.
Qed.

Lemma sort_by_id l : StronglySorted (fun x y => leb x y) l -> sort_by l = l.
Proof.
  induction 1 as [|x l Hl IH Hx]; [done|]. unfold sort_by in *. cbn [foldr]. rewrite IH. destruct Hx as [|y l Hy _]; [done|]. cbn.
  by apply Is_true_true in Hy; rewrite Hy.
Qed.
End SortBy.

Section SortByKey.
  Context {A : Type} (key : A -> Z).

Definition sort_by_key (l : list A) : list A := sort_by (fun x y => key x <=? key y) l.

Definition sorted_by_key (l : list A) : Prop := StronglySorted (fun x y => key x <= key y) l.

(** The items with key [k], in their order. *)
Definition group (k : Z) (l : list A) : list A := filter (fun x => key x = k) l.

Lemma sorted_by_key_leb l : StronglySorted (fun x y => (key x <=? key y)) l <-> sorted_by_key l.
Proof.
  unfold sorted_by_key. split; induction 1 as [|x l Hl IH Hx]; constructor; try done;
    revert Hx; apply Forall_weaken; intros y; rewrite Is_true_true, Z.leb_le; done.
Qed.

Lemma sort_by_key_perm l : sort_by_key l ≡ₚ l.
Proof. apply sort_by_perm. Qed.

Lemma sort_by_key_sorted l : sorted_by_key (sort_by_key l).
Proof. apply sorted_by_key_leb, sort_by_sorted; intros x y; [|intros z]; rewrite !Is_true_true, !Z.leb_le; lia. Qed.

Lemma group_nil k l : Forall (fun x => key x <> k) l -> group k l = [].
Proof. unfold group. induction 1 as [|x l Hx Hl IH]; [done|]. by rewrite filter_cons_False. Qed.

Lemma group_sort k l : group k (sort_by_key l) = group k l.
Proof. apply sort_by_stable. intros x y -> ->. rewrite Is_true_true, Z.leb_le. lia. Qed.

Lemma sort_by_key_id l : sorted_by_key l -> sort_by_key l = l.
Proof. intros H. by apply sort_by_id, sorted_by_key_leb. Qed.
End SortByKey.
