(* ===== verification/Heap.v ===== *)
(** * Binary heaps of streams

    The heap of indices into a slice of streams that both k-way merges keep
    ([esm-storage/src/block_stream/merger.rs] and [esm-mergeset/src/merge.rs]
    have the same code, for their own order): sifting down, building, popping,
    and the lemmas that keep the heap order. *)
From Stdlib Require Import ZArith Lia Bool Permutation.
From S2P Require Import Prelude.

(** ** The heap *)

Section Heap.
  Context (less : nat -> nat -> bool).

(** [heap_less]: compares the streams at two positions of the heap, which
    [sift_down] keeps below its length. *)
Definition heap_less (heap : list nat) (i j : nat) : bool :=
  match heap !! i, heap !! j with
  | Some a, Some b => less a b
  | _, _ => false
  end.

(** [heap.swap(i, j)]. *)
Definition swap (heap : list nat) (i j : nat) : list nat :=
  match heap !! i, heap !! j with
  | Some a, Some b => <[j := a]> (<[i := b]> heap)
  | _, _ => heap
  end.

(** Every round moves to a child of [i], so the length is enough fuel. *)
Fixpoint sift_down (fuel : nat) (heap : list nat) (i : nat) : list nat :=
  match fuel with
  | O => heap
  | S fuel =>
      let n := length heap in
      let left := (2 * i + 1)%nat in
      if (n <=? left)%nat then heap
      else
        let right := S left in
        let smallest := if (right <? n)%nat && heap_less heap right left then right else left in
        if negb (heap_less heap smallest i) then heap
        else sift_down fuel (swap heap i smallest) smallest
  end.

(** Every round moves to the parent of [i], so [i] is enough fuel. *)
Fixpoint sift_up (fuel : nat) (heap : list nat) (i : nat) : list nat :=
  match fuel with
  | O => heap
  | S fuel =>
      if (i =? 0)%nat then heap
      else
        let parent := ((i - 1) / 2)%nat in
        if negb (heap_less heap i parent) then heap
        else sift_up fuel (swap heap i parent) parent
  end.

(** [for i in (0..n / 2).rev()]. *)
Fixpoint heap_init_loop (i : nat) (heap : list nat) : list nat :=
  match i with
  | O => heap
  | S i => heap_init_loop i (sift_down (length heap) heap i)
  end.

Definition heap_init (heap : list nat) : list nat := heap_init_loop (length heap / 2) heap.
End Heap.

(** ** Lemmas: the heap *)

Section HeapLemmas.
  Context (less : nat -> nat -> bool).
  Context (less_total : forall a b, less a b = true -> less b a = false).
  Context (le_trans : forall a b c, less b a = false -> less c b = false -> less c a = false).

Definition child (p c : nat) : Prop := c = (2 * p + 1)%nat \/ c = (2 * p + 2)%nat.

(** The heap order holds below every position [p >= k] other than [hole]. *)
Definition heap_except (k : nat) (hole : option nat) (h : list nat) : Prop :=
  forall p c a b, child p c -> (k <= p)%nat -> hole <> Some p -> h !! p = Some a -> h !! c = Some b ->
    less b a = false.

(** The children of [i] are not below the parent of [i]. *)
Definition grand (k i : nat) (h : list nat) : Prop :=
  forall p c a b, child p i -> child i c -> (k <= p)%nat -> h !! p = Some a -> h !! c = Some b ->
    less b a = false.

Lemma swap_lookup h i j a b k :
  h !! i = Some a -> h !! j = Some b -> i <> j ->
  swap h i j !! k = if decide (k = j) then Some a else if decide (k = i) then Some b else h !! k.
Proof.
  intros Hi Hj Hne. unfold swap. rewrite Hi, Hj.
  pose proof (lookup_lt_Some _ _ _ Hi). pose proof (lookup_lt_Some _ _ _ Hj).
  destruct (decide (k = j)) as [->|Hkj].
  - apply list_lookup_insert_eq. by rewrite length_insert.
  - rewrite list_lookup_insert_ne by done. destruct (decide (k = i)) as [->|Hki].
    + by apply list_lookup_insert_eq.
    + by rewrite list_lookup_insert_ne.
Qed.

Lemma swap_perm h i j : Permutation (swap h i j) h.
Proof.
  unfold swap. destruct (h !! i) as [a|] eqn:Hi; [|done]. destruct (h !! j) as [b|] eqn:Hj; [|done].
  by apply Permutation_insert_swap.
Qed.

(** One round of [sift_down] that swaps: the smaller child moves up and the
    hole moves down. *)
Lemma swap_heap h k i c a b :
  h !! i = Some a -> h !! c = Some b -> child i c -> (k <= i)%nat -> less b a = true ->
  (forall d x, child i d -> h !! d = Some x -> less x b = false) ->
  heap_except k (Some i) h -> grand k i h ->
  heap_except k (Some c) (swap h i c) /\ grand k c (swap h i c).
Proof.
  intros Hi Hc Hch Hk Hlt Hmin Hh Hg.
  assert (Hne : i <> c) by (unfold child in Hch; lia).
  pose proof (fun q => swap_lookup h i c a b q Hi Hc Hne) as Hs.
  split.
  - intros p d x y Hpd Hkp Hhole Hp Hd. rewrite Hs in Hp, Hd.
    assert (p <> c) by congruence. rewrite decide_False in Hp by done.
    destruct (decide (p = i)) as [->|Hpi].
    + injection Hp as <-. destruct (decide (d = c)) as [->|Hdc].
      * injection Hd as <-. by apply less_total.
      * rewrite decide_False in Hd by (unfold child in *; lia). by apply (Hmin d).
    + destruct (decide (d = c)) as [->|Hdc]; [unfold child in *; lia|].
      destruct (decide (d = i)) as [->|Hdi].
      * injection Hd as <-. by apply (Hg p c).
      * apply (Hh p d); congruence.
  - intros p d x y Hpc Hcd Hkp Hp Hd. rewrite Hs in Hp, Hd.
    assert (p = i) as -> by (unfold child in *; lia).
    rewrite decide_False, decide_True in Hp by done. injection Hp as <-.
    rewrite !decide_False in Hd by (unfold child in *; lia). apply (Hh c d); try done; [unfold child in *; lia|].
    congruence.
Qed.

Lemma sift_down_perm fuel h i : Permutation (sift_down less fuel h i) h.
Proof.
  revert h i. induction fuel as [|fuel IH]; intros h i; cbn [sift_down]; [done|].
  destruct (_ <=? _)%nat; [done|]. destruct (negb _); [done|]. rewrite IH. apply swap_perm.
Qed.

Lemma sift_down_heap fuel h k i :
  (k <= i)%nat -> (length h <= i + fuel)%nat -> heap_except k (Some i) h -> grand k i h ->
  heap_except k None (sift_down less fuel h i).
Proof.
  revert h i. induction fuel as [|fuel IH]; intros h i Hk Hf Hh Hg; cbn [sift_down].
  - intros p c a b Hpc Hkp _ Hp Hc. destruct (decide (p = i)) as [->|Hne].
    + apply lookup_lt_Some in Hp. lia.
    + apply (Hh p c); congruence.
  - destruct (Nat.leb_spec (length h) (2 * i + 1)) as [Hle|Hgt].
    { intros p c a b Hpc Hkp _ Hp Hc. destruct (decide (p = i)) as [->|Hne].
      + apply lookup_lt_Some in Hc. unfold child in Hpc. lia.
      + apply (Hh p c); congruence. }
    destruct (lookup_lt_is_Some_2 h i ltac:(lia)) as [a Ha].
    destruct (lookup_lt_is_Some_2 h (2 * i + 1) ltac:(lia)) as [l Hl].
    set (c := if _ && _ then _ else _).
    assert (Hc : exists b, h !! c = Some b /\ child i c /\
      forall d x, child i d -> h !! d = Some x -> less x b = false).
    { unfold c, heap_less. rewrite Hl.
      assert (Hrefl : forall x, less x x = false).
      { intros x. destruct (less x x) eqn:Hx; [|done]. by rewrite (less_total _ _ Hx) in Hx. }
      destruct (Nat.ltb_spec (S (2 * i + 1)) (length h)) as [Hr|Hr]; cbn [andb].
      - destruct (lookup_lt_is_Some_2 h (S (2 * i + 1)) ltac:(lia)) as [r Hr']. rewrite Hr'.
        destruct (less r l) eqn:Hrl; [exists r|exists l]; (split; [done|]; split; [unfold child; lia|]);
          intros d x [->| ->] Hd; replace (2 * i + 2)%nat with (S (2 * i + 1)) in * by lia;
          simplify_eq; auto.
      - exists l. split; [done|]. split; [unfold child; lia|]. intros d x [->| ->] Hd.
        + simplify_eq. apply Hrefl.
        + apply lookup_lt_Some in Hd. lia. }
    destruct Hc as (b & Hb & Hch & Hmin). clearbody c. unfold heap_less at 1. rewrite Hb, Ha.
    destruct (less b a) eqn:Hba; cbn [negb].
    + destruct (swap_heap h k i c a b) as [H1 H2]; try done.
      apply IH; [unfold child in Hch; lia| |done..].
      rewrite (Permutation_length (swap_perm h i c)). unfold child in Hch. lia.
    + intros p d x y Hpd Hkp _ Hp Hd. destruct (decide (p = i)) as [->|Hne].
      * assert (x = a) as -> by congruence. apply (le_trans a b y); [done|]. by apply (Hmin d).
      * apply (Hh p d); congruence.
Qed.

Lemma sift_up_perm fuel h i : Permutation (sift_up less fuel h i) h.
Proof.
  revert h i. induction fuel as [|fuel IH]; intros h i; cbn [sift_up]; [done|].
  destruct (_ =? _)%nat; [done|]. destruct (negb _); [done|]. rewrite IH. apply swap_perm.
Qed.

(** The heap order holds at every pair but the one above [i]. *)
Definition heap_above (i : nat) (h : list nat) : Prop :=
  forall p c a b, child p c -> c <> i -> h !! p = Some a -> h !! c = Some b -> less b a = false.

Lemma child_parent i : (0 < i)%nat -> child ((i - 1) / 2) i /\ ((i - 1) / 2 < i)%nat.
Proof.
  intros Hi. pose proof (Nat.div_mod_eq (i - 1) 2). pose proof (Nat.mod_upper_bound (i - 1) 2 ltac:(lia)).
  unfold child. lia.
Qed.

Lemma child_parent_eq p q i : child p i -> child q i -> p = q.
Proof. unfold child. lia. Qed.

(** One round of [sift_up] that swaps: the element moves above its parent. *)
Lemma swap_up_heap h i p a b :
  h !! i = Some a -> h !! p = Some b -> child p i -> less a b = true ->
  heap_above i h -> grand 0 i h ->
  heap_above p (swap h i p) /\ grand 0 p (swap h i p).
Proof.
  intros Hi Hp Hch Hlt Hh Hg.
  assert (Hne : i <> p) by (unfold child in Hch; lia).
  pose proof (fun q => swap_lookup h i p a b q Hi Hp Hne) as Hs.
  assert (Hab : less b a = false) by (by apply less_total).
  split.
  - intros q d x y Hqd Hdp Hq Hd. rewrite Hs in Hq, Hd. rewrite (decide_False (P := d = p)) in Hd by done.
    destruct (decide (d = i)) as [->|Hdi].
    + assert (q = p) as -> by (by eapply child_parent_eq). rewrite decide_True in Hq by done. naive_solver.
    + destruct (decide (q = p)) as [->|Hqp].
      * injection Hq as <-. apply (le_trans a b y); [done|]. by apply (Hh p d).
      * destruct (decide (q = i)) as [->|Hqi]; [injection Hq as <-; apply (Hg p d); [done..|lia|done|done]|].
        by apply (Hh q d).
  - intros q d x y Hqp Hpd _ Hq Hd. rewrite Hs in Hq, Hd.
    rewrite !(decide_False (P := q = p)), !(decide_False (P := q = i)) in Hq by (unfold child in *; lia).
    rewrite (decide_False (P := d = p)) in Hd by (unfold child in *; lia).
    assert (Hxb : less b x = false) by (apply (Hh q p); [done|done|done|done]).
    destruct (decide (d = i)) as [->|Hdi]; [naive_solver|].
    apply (le_trans x b y); [done|]. by apply (Hh p d).
Qed.

Lemma sift_up_heap fuel h i :
  (i <= fuel)%nat -> (i < length h)%nat -> heap_above i h -> grand 0 i h -> heap_except 0 None (sift_up less fuel h i).
Proof.
  revert h i. induction fuel as [|fuel IH]; intros h i Hf Hl Hh Hg; cbn [sift_up].
  - intros p c a b Hpc _ _. apply Hh; [done|]. unfold child in Hpc. lia.
  - destruct (Nat.eqb_spec i 0) as [->|Hi].
    { intros p c a b Hpc _ _. apply Hh; [done|]. unfold child in Hpc. lia. }
    destruct (child_parent i ltac:(lia)) as [Hch Hlt]. set (p := ((i - 1) / 2)%nat) in *. clearbody p.
    destruct (lookup_lt_is_Some_2 h i ltac:(lia)) as [a Ha].
    destruct (lookup_lt_is_Some_2 h p ltac:(lia)) as [b Hb].
    unfold heap_less at 1. rewrite Ha, Hb. destruct (less a b) eqn:Hab; cbn [negb].
    + destruct (swap_up_heap h i p a b) as [H1 H2]; try done. apply IH; [lia| |done..].
      rewrite (Permutation_length (swap_perm h i p)). lia.
    + intros q c x y Hqc _ _ Hq Hc. destruct (decide (c = i)) as [->|Hne]; [|by apply (Hh q c)].
      assert (q = p) as -> by (by eapply child_parent_eq). naive_solver.
Qed.

(** In a heap nothing sinks and nothing rises. *)
Lemma sift_up_heap_id fuel h i : heap_except 0 None h -> (i < length h)%nat -> sift_up less fuel h i = h.
Proof.
  intros Hh Hl. destruct fuel as [|fuel]; [done|]. cbn [sift_up]. destruct (Nat.eqb_spec i 0) as [->|Hi]; [done|].
  destruct (child_parent i ltac:(lia)) as [Hch Hlt].
  set (p := ((i - 1) / 2)%nat) in *. clearbody p.
  unfold heap_less. destruct (h !! i) as [a|] eqn:Ha; [|done]. destruct (h !! p) as [b|] eqn:Hb; [|done].
  by rewrite (Hh p i b a Hch ltac:(lia) ltac:(done) Hb Ha).
Qed.

Lemma sift_down_stuck fuel h i :
  (forall c a b, child i c -> h !! i = Some a -> h !! c = Some b -> less b a = false) -> sift_down less fuel h i = h.
Proof.
  intros H. destruct fuel as [|fuel]; [done|]. cbn [sift_down]. destruct (Nat.leb_spec (length h) (2 * i + 1)); [done|].
  destruct (lookup_lt_is_Some_2 h i ltac:(lia)) as [a Ha].
  set (c := if _ && _ then _ else _). assert (Hc : child i c) by (unfold c, child; destruct (_ && _); lia). clearbody c.
  unfold heap_less. rewrite Ha. destruct (h !! c) as [b|] eqn:Hb; [|done]. by rewrite (H c a b).
Qed.

(** Sifting down and then up restores the order after the element at [i] was
    replaced by any other: the order holds at the pairs without [i], and
    across [i]. *)
Lemma fix_heap f1 f2 h i :
  (length h <= i + f1)%nat -> (i <= f2)%nat -> (i < length h)%nat ->
  (forall p c a b, child p c -> p <> i -> c <> i -> h !! p = Some a -> h !! c = Some b -> less b a = false) ->
  grand 0 i h -> heap_except 0 None (sift_up less f2 (sift_down less f1 h i) i).
Proof.
  intros H1 H2 Hl Hh Hg. destruct (lookup_lt_is_Some_2 h i Hl) as [a Ha].
  assert (Hcase : (exists p b, child p i /\ h !! p = Some b /\ less a b = true) \/
    (forall p b, child p i -> h !! p = Some b -> less a b = false)).
  { destruct (decide (i = 0)%nat) as [->|Hi]; [right; intros p b Hp; unfold child in Hp; lia|].
    destruct (child_parent i ltac:(lia)) as [Hch Hlt]. destruct (lookup_lt_is_Some_2 h _ (Nat.lt_trans _ _ _ Hlt Hl)) as [b Hb].
    destruct (less a b) eqn:Hab; [left; eauto|]. right. intros q c Hq Hc.
    assert (q = ((i - 1) / 2)%nat) as -> by (by eapply child_parent_eq). naive_solver. }
  destruct Hcase as [(p & b & Hch & Hb & Hab)|Hno].
  - assert (Hdown : forall c x y, child i c -> h !! i = Some x -> h !! c = Some y -> less y x = false).
    { intros c x y Hc Hx Hy. assert (x = a) as -> by congruence. apply (le_trans a b y); [by apply less_total|].
      apply (Hg p c); (done || lia). }
    rewrite sift_down_stuck by done. apply sift_up_heap; [done|done| |done].
    intros q c x y Hqc Hci Hq Hc. destruct (decide (q = i)) as [->|Hqi]; [by apply (Hdown c)|by apply (Hh q c)].
  - rewrite sift_up_heap_id; [|apply sift_down_heap; [lia|done| |done]|by rewrite (Permutation_length (sift_down_perm _ _ _))].
    all: try (apply sift_down_heap; [lia|done| |done]).
    all: intros q c x y Hqc _ Hq0 Hq Hc; assert (q <> i) by congruence;
      destruct (decide (c = i)) as [->|Hci]; [|by apply (Hh q c)];
      assert (y = a) as -> by congruence; by apply (Hno q).
Qed.

Lemma heap_init_heap h : heap_except 0 None (heap_init less h) /\ Permutation (heap_init less h) h.
Proof.
  unfold heap_init.
  assert (Hgen : forall i h, heap_except i None h ->
    heap_except 0 None (heap_init_loop less i h) /\ Permutation (heap_init_loop less i h) h).
  { induction i as [|i IH]; intros h' Hh'; cbn [heap_init_loop]; [done|].
    destruct (IH (sift_down less (length h') h' i)) as [H1 H2].
    - apply sift_down_heap; [lia|lia| |].
      + intros p c a b Hpc Hkp Hne. apply Hh'; [done| |done]. assert (p <> i) by congruence. lia.
      + intros p c a b Hpi _ Hkp. unfold child in Hpi. lia.
    - split; [done|]. rewrite H2. apply sift_down_perm. }
  apply Hgen. intros p c a b Hpc Hkp _ _ Hc. apply lookup_lt_Some in Hc. unfold child in Hpc.
  pose proof (Nat.div_mod_eq (length h) 2). pose proof (Nat.mod_upper_bound (length h) 2). lia.
Qed.

(** The root of a heap is a minimum. *)
Lemma heap_root_min h r :
  heap_except 0 None h -> h !! 0%nat = Some r -> forall x, In x h -> less x r = false.
Proof.
  intros Hh Hr x Hx. apply list_elem_of_In, list_elem_of_lookup in Hx as [j Hj]. revert x Hj.
  induction j as [j IH] using lt_wf_ind. intros x Hj. destruct j as [|j].
  - assert (x = r) as -> by congruence. destruct (less r r) eqn:H; [|done]. by rewrite (less_total _ _ H) in H.
  - pose proof (Nat.div_mod_eq j 2). pose proof (Nat.mod_upper_bound j 2 ltac:(lia)).
    assert (Hp : (j / 2 < S j)%nat) by lia. pose proof (lookup_lt_Some _ _ _ Hj).
    destruct (lookup_lt_is_Some_2 h (j / 2)) as [a Ha]; [lia|].
    apply (le_trans r a x); [by apply (IH (j / 2)%nat)|].
    apply (Hh (j / 2)%nat (S j)); try done; [|lia]. unfold child.
    lia.
Qed.
(** Below the root, one of its children is a minimum. *)
Lemma heap_children_min h :
  heap_except 0 None h -> forall j x, (0 < j)%nat -> h !! j = Some x ->
  exists c y, (c = 1%nat \/ c = 2%nat) /\ h !! c = Some y /\ less x y = false.
Proof.
  intros Hh j. induction j as [j IH] using lt_wf_ind. intros x Hj Hx. destruct (decide (j <= 2)%nat) as [Hle|Hgt].
  - exists j, x. split_and!; [lia|done|]. destruct (less x x) eqn:H; [|done]. by rewrite (less_total _ _ H) in H.
  - pose proof (Nat.div_mod_eq (j - 1) 2). pose proof (Nat.mod_upper_bound (j - 1) 2 ltac:(lia)). pose proof (lookup_lt_Some _ _ _ Hx).
    destruct (lookup_lt_is_Some_2 h ((j - 1) / 2)) as [a Ha]; [lia|].
    destruct (IH ((j - 1) / 2)%nat ltac:(lia) a ltac:(lia) Ha) as (c & y & Hc & Hy & Hle). exists c, y. split_and!; [done|done|].
    apply (le_trans y a x); [done|]. apply (Hh ((j - 1) / 2)%nat j); try done; unfold child; lia.
Qed.
End HeapLemmas.

(** The heap operations see the order only on the heap. *)
Lemma sift_down_ext (less less' : nat -> nat -> bool) fuel h i :
  (forall x y, In x h -> In y h -> less x y = less' x y) ->
  sift_down less fuel h i = sift_down less' fuel h i.
Proof.
  revert h i. induction fuel as [|fuel IH]; intros h i Hext; cbn [sift_down]; [done|].
  assert (Hh : forall j k, heap_less less h j k = heap_less less' h j k).
  { intros j k. unfold heap_less. destruct (h !! j) as [x|] eqn:Hx; [|done].
    destruct (h !! k) as [y|] eqn:Hy; [|done].
    apply Hext; by eapply list_elem_of_In, list_elem_of_lookup_2. }
  rewrite !Hh. destruct (_ <=? _)%nat; [done|]. destruct (negb _); [done|]. apply IH.
  intros x y Hx Hy. apply Hext; by eapply Permutation_in; [apply swap_perm|].
Qed.

Lemma heap_init_ext (less less' : nat -> nat -> bool) h :
  (forall x y, In x h -> In y h -> less x y = less' x y) -> heap_init less h = heap_init less' h.
Proof.
  unfold heap_init. generalize (length h / 2)%nat as i. intros i. revert h.
  induction i as [|i IH]; intros h Hext; cbn [heap_init_loop]; [done|].
  rewrite (sift_down_ext less less') by done. apply IH.
  intros x y Hx Hy. apply Hext; by eapply Permutation_in; [apply sift_down_perm|].
Qed.

(** The heap order below the root does not depend on the root. *)
Lemma heap_below_root less less' h h' :
  heap_except less 0 None h -> (forall p, (0 < p)%nat -> h' !! p = h !! p \/ h' !! p = None) ->
  (forall p c a b, (0 < p)%nat -> (0 < c)%nat -> h !! p = Some a -> h !! c = Some b -> less' b a = less b a) ->
  heap_except less' 0 (Some 0%nat) h'.
Proof.
  intros Hh Hl Hless p c a b Hpc _ Hne Hp Hc. assert (p <> 0)%nat by congruence.
  assert (Hc0 : (0 < c)%nat) by (unfold child in Hpc; lia). assert (Hp0 : (0 < p)%nat) by lia.
  destruct (Hl p) as [E1|E1]; [lia| |congruence]. destruct (Hl c) as [E2|E2]; [lia| |congruence].
  rewrite E1 in Hp. rewrite E2 in Hc. rewrite (Hless p c a b Hp0 Hc0 Hp Hc). apply (Hh p c); (done || lia).
Qed.

(** [heap.swap(0, n - 1); heap.pop()]. *)
Lemma pop_root (top : nat) (t : list nat) :
  let n := length (top :: t) in
  let h := take (n - 1) (swap (top :: t) 0 (n - 1)) in
  Permutation h t /\ forall p, (0 < p)%nat -> h !! p = (top :: t) !! p \/ h !! p = None.
Proof.
  intros n h. subst n. destruct t as [|x t _] using rev_ind.
  - cbn in h. subst h. split; [done|]. intros p Hp. by right.
  - assert (Hh : h = x :: t).
    { subst h. cbn [length]. rewrite length_app. cbn [length].
      replace (Datatypes.S (length t + 1) - 1)%nat with (Datatypes.S (length t)) by lia.
      unfold swap. change ((top :: t ++ [x]) !! 0%nat) with (Some top).
      change ((top :: t ++ [x]) !! Datatypes.S (length t)) with ((t ++ [x]) !! length t).
      rewrite list_lookup_middle by done.
      change (<[0%nat := x]> (top :: t ++ [x])) with (x :: t ++ [x]).
      change (<[Datatypes.S (length t) := top]> (x :: t ++ [x])) with (x :: <[length t := top]> (t ++ [x])).
      assert (<[length t := top]> (t ++ [x]) = t ++ [top]) as ->.
      { rewrite insert_app_r_alt by lia. by rewrite Nat.sub_diag. }
      change (x :: take (length t) (t ++ [top]) = x :: t). by rewrite take_app_length. }
    rewrite Hh. split; [rewrite Permutation_app_comm; done|]. intros p Hp.
    destruct p as [|p]; [lia|]. change (t !! p = (t ++ [x]) !! p \/ t !! p = None).
    destruct (decide (p < length t)%nat).
    + left. by rewrite lookup_app_l.
    + right. by apply lookup_ge_None_2; lia.
Qed.
