(* ===== verification/TimeRange.v ===== *)
(** * Dates, months and time ranges

    Model of [esm-storage/src/util.rs] (civil dates) and
    [esm-storage/src/time_range.rs] (inclusive millisecond ranges, and the
    monthly partitions of the storage). *)
From Stdlib Require Import ZArith Lia Bool.
From S2P Require Import Prelude.
Local Open Scope Z_scope.

(** ** Civil dates *)

(** [/] on [i64] truncates ([Z.quot]).  The sums and products of [i64], [u64]
    and [u32] are written with the wrap-around of their width; a chain of
    additions and products wraps once, at the end. *)
Definition days_from_civil (y m d : Z) : Z :=
  let y := if m <=? 2 then as_i64 (y - 1) else y in
  let era := Z.quot (if y >=? 0 then y else as_i64 (y - 399)) 400 in
  let yoe := as_u64 (as_i64 (y - as_i64 (era * 400))) in
  let mp := if m >? 2 then as_u32 (m - 3) else as_u32 (m + 9) in
  let doy := as_u64 (as_u64 (153 * mp + 2) / 5 + as_u64 (d - 1)) in
  let doe := as_u64 (yoe * 365 + yoe / 4 - yoe / 100 + doy) in
  as_i64 (as_i64 (as_i64 (era * 146097) + as_i64 doe) - 719468).

Definition civil_from_days (z : Z) : Z * Z * Z :=
  let z := as_i64 (z + 719468) in
  let era := Z.quot (if z >=? 0 then z else as_i64 (z - 146096)) 146097 in
  let doe := as_u64 (as_i64 (z - as_i64 (era * 146097))) in
  let yoe := as_u64 (doe - doe / 1460 + doe / 36524 - doe / 146096) / 365 in
  let y := as_i64 (as_i64 yoe + as_i64 (era * 400)) in
  let doy := as_u64 (doe - as_u64 (365 * yoe + yoe / 4 - yoe / 100)) in
  let mp := as_u64 (5 * doy + 2) / 153 in
  let d := as_u32 (as_u64 (doy - as_u64 (153 * mp + 2) / 5 + 1)) in
  let m := as_u32 (if mp <? 10 then as_u64 (mp + 3) else as_u64 (mp - 9)) in
  (if m <=? 2 then as_i64 (y + 1) else y, m, d).

(** ** Time ranges *)

Definition MSEC_PER_DAY : Z := 24 * 3600 * 1000.
Definition MSEC_PER_HOUR : Z := 3600 * 1000.
Definition MAX_UNIX_MILLI : Z := 9222422399999.

Record TimeRange : Type := mkTimeRange {
  tr_min_timestamp : Z;
  tr_max_timestamp : Z;
}.

Definition GLOBAL_INDEX_TIME_RANGE : TimeRange := mkTimeRange 0 0.
Definition GLOBAL_INDEX_DATE : Z := 0.

(** The timestamps are cast to [u64]. *)
Definition date_range (self : TimeRange) : Z * Z :=
  let min_date := as_u64 (tr_min_timestamp self) / MSEC_PER_DAY in
  let max_date := Z.max (as_u64 (tr_max_timestamp self) / MSEC_PER_DAY) min_date in
  (min_date, max_date).

Definition from_month (y m : Z) : TimeRange :=
  let min_days := days_from_civil y m 1 in
  let '(next_y, next_m) := if m =? 12 then (as_i64 (y + 1), 1) else (y, as_u32 (m + 1)) in
  let max_days := days_from_civil next_y next_m 1 in
  mkTimeRange (as_i64 (min_days * MSEC_PER_DAY)) (as_i64 (as_i64 (max_days * MSEC_PER_DAY) - 1)).

(** [div_euclid] by a positive number is the floor. *)
Definition from_partition_timestamp (timestamp : Z) : TimeRange :=
  let days := timestamp / MSEC_PER_DAY in
  let '(y, m, _) := civil_from_days days in
  from_month y m.

Definition overlaps_with (self v : TimeRange) : bool :=
  (tr_min_timestamp self <=? tr_max_timestamp v) && (tr_max_timestamp self >=? tr_min_timestamp v).

Definition contains (self : TimeRange) (timestamp : Z) : bool :=
  (tr_min_timestamp self <=? timestamp) && (timestamp <=? tr_max_timestamp self).

Definition is_first_hour_of_day (timestamp_secs : Z) : bool := (timestamp_secs / 3600) mod 24 =? 0.

(** ** Partition names *)

(** The decimal digits of a non-negative number, as ASCII bytes. *)
Fixpoint digits (fuel : nat) (n : Z) : list Z :=
  match fuel with
  | O => []
  | S fuel => if n <? 10 then [48 + n] else digits fuel (n / 10) ++ [48 + n mod 10]
  end.

(** [{:0w}] of an integer of at most 19 digits. *)
Definition format_padded (w : nat) (n : Z) : list Z :=
  let ds := digits 20 (Z.abs n) in
  let sign := if n <? 0 then [45] else [] in
  sign ++ replicate (w - length sign - length ds) 48 ++ ds.

(** [{y:04}_{m:02}]. *)
Definition timestamp_to_partition_name (timestamp : Z) : list Z :=
  let days := timestamp / MSEC_PER_DAY in
  let '(y, m, _) := civil_from_days days in
  format_padded 4 y ++ [95] ++ format_padded 2 m.

Definition is_ascii_digit (c : Z) : bool := (48 <=? c) && (c <=? 57).

(** [str::parse] of a string of digits. *)
Definition parse_digits (bs : list Z) : Z := fold_left (fun n c => n * 10 + (c - 48)) bs 0.

(** The error is the name. *)
Definition from_partition_name (name : list Z) : res (list Z) TimeRange :=
  if negb (length name =? 7)%nat || negb (default 0 (name !! 4%nat) =? 95)
     || negb (forallb is_ascii_digit (take 4 name ++ drop 5 name))
  then Err name
  else
    let y := parse_digits (take 4 name) in
    let m := parse_digits (drop 5 name) in
    if negb ((1 <=? m) && (m <=? 12)) then Err name else Ok (from_month y m).

(** ** Lemmas: the calendar

    A day is [k] days into month [mp] (counted from March) of year [yoe] of the
    400-year cycle [era]. *)

Lemma quot_floor z n : 0 < n -> Z.quot (if z >=? 0 then z else z - (n - 1)) n = z / n.
Proof.
  intros Hn. destruct (Z.geb_spec z 0) as [Hz|Hz]; [by apply Z.quot_div_nonneg; lia|].
  rewrite <-(Z.opp_involutive (z - (n - 1))), Z.quot_opp_l, Z.quot_div_nonneg by lia.
  set (q := - (z - (n - 1)) / n). pose proof (Z.div_mod (- (z - (n - 1))) n ltac:(lia)) as Hq. fold q in Hq.
  pose proof (Z.mod_pos_bound (- (z - (n - 1))) n Hn).
  apply (Z.div_unique_pos _ _ _ (z + n * q)); lia.
Qed.

(** Days before year [y] of a cycle, and before the year after it: the cycle
    ends with a leap year. *)
Definition year_start (y : Z) : Z := 365 * y + y / 4 - y / 100.
Definition year_end (y : Z) : Z := if y =? 399 then 146097 else year_start (y + 1).
Definition month_start (mp : Z) : Z := (153 * mp + 2) / 5.
Definition month_end (y mp : Z) : Z := if mp =? 11 then year_end y - year_start y else month_start (mp + 1).
Definition month_number (mp : Z) : Z := if mp <? 10 then mp + 3 else mp - 9.
Definition civil_year (era y mp : Z) : Z := y + era * 400 + (if mp <? 10 then 0 else 1).
Definition day_number (era y mp k : Z) : Z := era * 146097 + year_start y + month_start mp + k - 719468.

Definition calendar_day (y mp k : Z) : Prop :=
  0 <= y <= 399 /\ 0 <= mp <= 11 /\ 0 <= k /\ month_start mp + k < month_end y mp.

Definition year_index (doe : Z) : Z := doe - doe / 1460 + doe / 36524 - doe / 146096.

Lemma year_index_mono a b : a <= b -> year_index a <= year_index b.
Proof. intros. unfold year_index. dlia. Qed.

(** An executable check of [p] on [n] consecutive integers. *)
Fixpoint all_from (n : nat) (z : Z) (p : Z -> bool) : bool :=
  match n with O => true | S n => p z && all_from n (z + 1) p end.

Lemma all_from_spec n z p : all_from n z p = true -> forall x, z <= x < z + Z.of_nat n -> p x = true.
Proof.
  revert z. induction n as [|n IH]; intros z H x Hx; [lia|]. cbn in H. apply andb_true_iff in H as [H1 H2].
  destruct (Z.eq_dec x z) as [->|Hne]; [done|]. apply (IH (z + 1)); [done|lia].
Qed.

Definition year_check (y : Z) : bool :=
  (365 * y <=? year_index (year_start y)) && (year_index (year_end y - 1) <? 365 * (y + 1))
  && (year_start y + 365 <=? year_end y) && (year_end y <=? year_start y + 366).

Lemma year_check_ok y : 0 <= y <= 399 -> year_check y = true.
Proof. intros. apply (all_from_spec 400 0); [by vm_compute|lia]. Qed.

Lemma year_bounds y : 0 <= y <= 399 -> year_start y + 365 <= year_end y <= year_start y + 366.
Proof. intros H. apply year_check_ok in H. unfold year_check in H. lia. Qed.

Lemma year_of y doe : 0 <= y <= 399 -> year_start y <= doe < year_end y -> year_index doe / 365 = y.
Proof.
  intros Hy Hd. pose proof (year_check_ok y Hy) as Hc. unfold year_check in Hc.
  pose proof (year_index_mono (year_start y) doe ltac:(lia)).
  pose proof (year_index_mono doe (year_end y - 1) ltac:(lia)).
  symmetry. apply (Z.div_unique_pos _ _ _ (year_index doe - 365 * y)); lia.
Qed.

(** The years tile the cycle. *)
Lemma year_exists doe : 0 <= doe < 146097 -> exists y, 0 <= y <= 399 /\ year_start y <= doe < year_end y.
Proof.
  intros Hd.
  assert (H : forall n, (n <= 400)%nat -> (exists y, 0 <= y < Z.of_nat n /\ year_start y <= doe < year_end y) \/
    (if (n =? 400)%nat then 146097 else year_start (Z.of_nat n)) <= doe).
  { induction n as [|n IH]; intros Hn; [right; change (0 <= doe); lia|]. destruct IH as [(y & Hy & Hy')|Hle]; [lia|left; exists y; lia|].
    destruct (Nat.eqb_spec n 400) as [->|_]; [lia|].
    destruct (Z_lt_le_dec doe (year_end (Z.of_nat n))) as [Hlt|Hge]; [left; exists (Z.of_nat n); lia|right].
    revert Hge. unfold year_end. destruct (Z.eqb_spec (Z.of_nat n) 399); destruct (Nat.eqb_spec (S n) 400); try lia.
    replace (Z.of_nat (S n)) with (Z.of_nat n + 1) by lia. done. }
  destruct (H 400%nat) as [(y & Hy & Hy')|Hle]; [lia|exists y; lia|cbn in Hle; lia].
Qed.

Lemma month_of y mp k :
  calendar_day y mp k -> (5 * (month_start mp + k) + 2) / 153 = mp.
Proof.
  intros (Hy & Hm & Hk & Hlt). pose proof (year_bounds y Hy). unfold month_end, month_start in *.
  destruct (Z.eqb_spec mp 11) as [->|]; dlia.
Qed.

Lemma day_exists n :
  exists era y mp k, calendar_day y mp k /\ n = day_number era y mp k.
Proof.
  set (z := n + 719468). destruct (year_exists (z mod 146097)) as (y & Hy & Hyd); [by apply Z.mod_pos_bound|].
  set (doy := z mod 146097 - year_start y). pose proof (year_bounds y Hy).
  exists (z / 146097), y, ((5 * doy + 2) / 153), (doy - month_start ((5 * doy + 2) / 153)).
  pose proof (Z.div_mod z 146097 ltac:(lia)) as Hz. split.
  - unfold calendar_day, month_end. split; [done|]. split; [subst doy; dlia|].
    split; [unfold month_start; subst doy; dlia|]. destruct (Z.eqb_spec ((5 * doy + 2) / 153) 11); [lia|].
    unfold month_start. subst doy. dlia.
  - unfold day_number. lia.
Qed.

Lemma month_start_nonneg mp : 0 <= mp -> 0 <= month_start mp.
Proof. intros. unfold month_start. dlia. Qed.

Lemma month_end_le y mp : 0 <= y <= 399 -> 0 <= mp <= 11 -> month_end y mp <= year_end y - year_start y.
Proof.
  intros Hy Hm. pose proof (year_bounds y Hy). unfold month_end. destruct (Z.eqb_spec mp 11); [lia|].
  unfold month_start. dlia.
Qed.

Lemma year_range y : 0 <= y <= 399 -> 0 <= year_start y /\ year_end y <= 146097.
Proof.
  intros. unfold year_end, year_start. destruct (Z.eqb_spec y 399); dlia.
Qed.

(** The days whose conversions stay within [i64]. *)
Definition is_day (n : Z) : Prop := - 2 ^ 63 <= n <= 2 ^ 63 - 1 - 719468.

(** Removes the wrap-around of the subterms that are in range. *)
Ltac unwrap :=
  repeat match goal with
  | |- context [wrap_i 64 ?x] => rewrite (wrap_i_id 64 x) by (try done; unfold is_i; lia)
  | |- context [wrap_u ?w ?x] => rewrite (wrap_u_id w x) by (unfold is_u; lia)
  end.

Lemma civil_of_day era y mp k :
  calendar_day y mp k -> is_day (day_number era y mp k) ->
  civil_from_days (day_number era y mp k) = (civil_year era y mp, month_number mp, k + 1).
Proof.
  intros Hd Hn. pose proof Hd as (Hy & Hm & Hk & Hlt). pose proof (month_end_le y mp Hy Hm).
  pose proof (year_range y Hy). pose proof (year_bounds y Hy). pose proof (month_start_nonneg mp ltac:(lia)).
  pose proof (month_of y mp k Hd) as Hmo.
  unfold civil_from_days, day_number, is_day in *.
  set (doe := year_start y + month_start mp + k) in *.
  replace (era * 146097 + year_start y + month_start mp + k - 719468 + 719468) with (doe + era * 146097) by lia.
  unwrap. rewrite (quot_floor _ 146097) by lia. rewrite Z.div_add, (Z.div_small doe) by lia. rewrite Z.add_0_l.
  unwrap. replace (doe + era * 146097 - era * 146097) with doe by lia.
  unwrap. fold (year_index doe).
  pose proof (year_of y doe Hy ltac:(lia)) as Hyo.
  assert (Hyi : 0 <= year_index doe < 2 ^ 64) by (unfold year_index; dlia).
  rewrite (wrap_u_id 64 (year_index doe)) by done. rewrite Hyo. fold (year_start y). unwrap.
  replace (doe - year_start y) with (month_start mp + k) by lia. unwrap. rewrite Hmo. fold (month_start mp). unwrap.
  fold (month_start mp). unwrap. replace (month_start mp + k - month_start mp + 1) with (k + 1) by lia. unwrap.
  unfold civil_year, month_number.
  destruct (Z.ltb_spec mp 10) as [H10|H10]; unwrap;
    [rewrite (proj2 (Z.leb_gt _ _)) by lia|rewrite (proj2 (Z.leb_le _ _)) by lia]; unwrap;
    f_equal; f_equal; lia.
Qed.

Lemma days_of_day era y mp k :
  0 <= y <= 399 -> 0 <= mp <= 11 -> 0 <= k <= 30 -> is_day (day_number era y mp k) ->
  days_from_civil (civil_year era y mp) (month_number mp) (k + 1) = day_number era y mp k.
Proof.
  intros Hy Hm Hk Hn. unfold days_from_civil, civil_year, month_number, day_number, is_day in *.
  pose proof (year_range y Hy). pose proof (year_bounds y Hy). pose proof (month_start_nonneg mp ltac:(lia)).
  assert (month_start mp <= 337) by (unfold month_start; dlia).
  set (y' := if _ <=? 2 then _ else _).
  assert (y' = y + era * 400) as ->.
  { subst y'. destruct (Z.ltb_spec mp 10); [rewrite (proj2 (Z.leb_gt _ _)) by lia; lia|].
    rewrite (proj2 (Z.leb_le _ _)) by lia. unwrap. lia. }
  unwrap. rewrite (quot_floor _ 400) by lia. rewrite Z.div_add, (Z.div_small y), Z.add_0_l by lia.
  unwrap. replace (y + era * 400 - era * 400) with y by lia. unwrap.
  set (mp' := if _ >? 2 then _ else _).
  assert (mp' = mp) as ->.
  { subst mp'. destruct (Z.ltb_spec mp 10); rewrite Z.gtb_ltb;
      [rewrite (proj2 (Z.ltb_lt _ _)) by lia|rewrite (proj2 (Z.ltb_ge _ _)) by lia]; unwrap; lia. }
  unwrap. fold (month_start mp). unwrap.
  unfold year_start in *. unwrap. lia.
Qed.

(** The month after month [mp] of year [y]. *)
Definition following_month (ym : Z * Z) : Z * Z := if ym.2 =? 12 then (ym.1 + 1, 1) else (ym.1, ym.2 + 1).

Lemma next_month era y mp :
  0 <= y <= 399 -> 0 <= mp <= 11 ->
  exists era' y' mp', 0 <= y' <= 399 /\ 0 <= mp' <= 11 /\
    following_month (civil_year era y mp, month_number mp) = (civil_year era' y' mp', month_number mp') /\
    day_number era' y' mp' 0 = era * 146097 + year_start y + month_end y mp - 719468.
Proof.
  intros Hy Hm. unfold following_month, day_number. cbn [fst snd].
  destruct (Z.eqb_spec mp 11) as [->|Hne]; [destruct (Z.eqb_spec y 399) as [->|Hy9]|].
  - exists (era + 1), 0, 0. split_and!; [lia..| |].
    + unfold month_number, civil_year. cbn -[Z.mul Z.add]. f_equal; lia.
    + unfold month_end, year_end. cbn -[Z.mul]. change (year_start 0) with 0. change (month_start 0) with 0. lia.
  - exists era, (y + 1), 0. split_and!; [lia..| |].
    + unfold month_number, civil_year. cbn -[Z.mul Z.add]. f_equal; lia.
    + unfold month_end, year_end. cbn -[Z.mul]. rewrite (proj2 (Z.eqb_neq _ _) Hy9). change (month_start 0) with 0. lia.
  - exists era, y, (mp + 1). split_and!; [lia..| |].
    + unfold month_number, civil_year.
      destruct (Z.ltb_spec mp 10), (Z.ltb_spec (mp + 1) 10), (Z.eqb_spec (mp + 3) 12), (Z.eqb_spec (mp - 9) 12);
        try lia; f_equal; lia.
    + unfold month_end. rewrite (proj2 (Z.eqb_neq _ _) Hne). lia.
Qed.

(** ** The Gregorian calendar *)

Definition is_leap (y : Z) : bool := (y mod 4 =? 0) && negb (y mod 100 =? 0) || (y mod 400 =? 0).
Definition days_in_month (y m : Z) : Z :=
  if m =? 2 then if is_leap y then 29 else 28
  else if (m =? 4) || (m =? 6) || (m =? 9) || (m =? 11) then 30 else 31.

Definition next_date (ymd : Z * Z * Z) : Z * Z * Z :=
  let '(y, m, d) := ymd in
  if d <? days_in_month y m then (y, m, d + 1)
  else let '(y, m) := following_month (y, m) in (y, m, 1).

Definition valid_date (y m d : Z) : Prop := 1 <= m <= 12 /\ 1 <= d <= days_in_month y m.

Lemma is_leap_period y e : is_leap (y + e * 400) = is_leap y.
Proof.
  unfold is_leap. rewrite Z.mod_add by lia.
  replace (y + e * 400) with (y + (e * 100) * 4) at 1 by lia. rewrite Z.mod_add by lia.
  replace (y + e * 400) with (y + (e * 4) * 100) by lia. by rewrite Z.mod_add by lia.
Qed.

Lemma month_length era y mp :
  0 <= y <= 399 -> 0 <= mp <= 11 ->
  month_end y mp - month_start mp = days_in_month (civil_year era y mp) (month_number mp).
Proof.
  intros Hy Hm.
  assert (Hp : days_in_month (civil_year era y mp) (month_number mp) = days_in_month (civil_year 0 y mp) (month_number mp)).
  { unfold days_in_month, civil_year. set (i := if mp <? 10 then 0 else 1).
    replace (y + era * 400 + i) with (y + 0 * 400 + i + era * 400) by lia. by rewrite is_leap_period. }
  rewrite Hp.
  assert (Hc : all_from 400 0 (fun y => all_from 12 0 (fun mp =>
    month_end y mp - month_start mp =? days_in_month (civil_year 0 y mp) (month_number mp))) = true) by (by vm_compute).
  pose proof (all_from_spec 400 0 _ Hc y ltac:(lia)) as Hc'. cbv beta in Hc'.
  by apply Z.eqb_eq, (all_from_spec 12 0 _ Hc' mp ltac:(lia)).
Qed.

Lemma date_exists y m :
  1 <= m <= 12 -> exists era yoe mp, 0 <= yoe <= 399 /\ 0 <= mp <= 11 /\ y = civil_year era yoe mp /\ m = month_number mp.
Proof.
  intros Hm. set (mp := if m <=? 2 then m + 9 else m - 3). set (y' := if m <=? 2 then y - 1 else y).
  exists (y' / 400), (y' mod 400), mp. pose proof (Z.div_mod y' 400 ltac:(lia)). pose proof (Z.mod_pos_bound y' 400 ltac:(lia)).
  unfold civil_year, month_number. subst mp y'. destruct (Z.leb_spec m 2).
  - rewrite (proj2 (Z.ltb_ge _ _)) by lia. lia.
  - rewrite (proj2 (Z.ltb_lt _ _)) by lia. lia.
Qed.

Lemma month_days (era y mp : Z) : 0 <= y <= 399 -> 0 <= mp <= 11 -> 28 <= month_end y mp - month_start mp <= 31.
Proof.
  intros Hy Hm. rewrite (month_length era y mp Hy Hm). unfold days_in_month.
  repeat match goal with |- context [if ?b then _ else _] => destruct b end; lia.
Qed.

(** C36: the branch-free date arithmetic, with the wrap-around of its machine
    integers, is the Gregorian calendar on every day on which nothing wraps,
    which are all days of [i64] but the last 719468 ([is_day]): day 0 is
    1970-01-01; the date of the next day (before or after the epoch) is the
    next date by the month lengths and the leap year rule; the date of a day is
    valid and converts back to the day; and every valid date of a year between
    minus and plus 25e15 is the date of its day. *)
Theorem civil_dates_gregorian :
  civil_from_days 0 = (1970, 1, 1) /\
  (forall n, is_day n -> is_day (n + 1) -> civil_from_days (n + 1) = next_date (civil_from_days n)) /\
  (forall n, is_day n -> let '(y, m, d) := civil_from_days n in valid_date y m d /\ days_from_civil y m d = n) /\
  (forall y m d, valid_date y m d -> - 25 * 10 ^ 15 <= y <= 25 * 10 ^ 15 ->
     is_day (days_from_civil y m d) /\ civil_from_days (days_from_civil y m d) = (y, m, d)).
Proof.
  split; [done|]. split_and!.
  - intros n Hn Hn'. destruct (day_exists n) as (era & y & mp & k & Hd & ->). rewrite (civil_of_day _ _ _ _ Hd) by done.
    destruct Hd as (Hy & Hm & Hk & Hlt). unfold next_date. rewrite <-(month_length era y mp Hy Hm).
    destruct (Z.ltb_spec (k + 1) (month_end y mp - month_start mp)) as [Hin|Hout].
    + replace (day_number era y mp k + 1) with (day_number era y mp (k + 1)) in * by (unfold day_number; lia).
      apply civil_of_day; [split_and!; lia|done].
    + destruct (next_month era y mp Hy Hm) as (era' & y' & mp' & Hy' & Hm' & -> & Hd).
      replace (day_number era y mp k + 1) with (day_number era' y' mp' 0) in * by (rewrite Hd; unfold day_number; lia).
      rewrite civil_of_day; [done| |done]. pose proof (month_days era' y' mp' Hy' Hm'). split_and!; lia.
  - intros n Hn. destruct (day_exists n) as (era & y & mp & k & Hd & ->). rewrite (civil_of_day _ _ _ _ Hd) by done.
    destruct Hd as (Hy & Hm & Hk & Hlt). pose proof (month_days era y mp Hy Hm).
    split; [|apply days_of_day; try done; lia].
    unfold valid_date. rewrite <-(month_length era y mp Hy Hm). unfold month_number. destruct (Z.ltb_spec mp 10); lia.
  - intros y m d [Hm Hd] Hyr. destruct (date_exists y m Hm) as (era & yoe & mp & Hy & Hmp & -> & ->).
    rewrite <-(month_length era yoe mp Hy Hmp) in Hd. replace d with (d - 1 + 1) by lia.
    pose proof (month_days era yoe mp Hy Hmp). pose proof (year_range yoe Hy). pose proof (year_bounds yoe Hy).
    pose proof (month_start_nonneg mp ltac:(lia)). pose proof (month_end_le yoe mp Hy Hmp).
    assert (is_day (day_number era yoe mp (d - 1))).
    { unfold is_day, day_number, civil_year in *. destruct (mp <? 10); lia. }
    rewrite days_of_day by (done || lia). split; [done|]. apply civil_of_day; [split_and!; lia|done].
Qed.

Lemma civil_dates_gregorian_witness :
  civil_from_days (-719468 + 1) = next_date (civil_from_days (-719468)) /\
  (is_day (days_from_civil 2024 2 29) /\ civil_from_days (days_from_civil 2024 2 29) = (2024, 2, 29)).
Proof.
  destruct civil_dates_gregorian as (_ & Hnext & _ & Hinv).
  split; [apply Hnext; vm_compute; split; discriminate|apply Hinv; vm_compute; repeat split; discriminate].
Defined.

(** ** Partitions *)

Lemma from_month_range era y mp :
  0 <= y <= 399 -> 0 <= mp <= 11 ->
  let lo := day_number era y mp 0 in
  let hi := era * 146097 + year_start y + month_end y mp - 719468 in
  is_i64 (lo * MSEC_PER_DAY) -> is_i64 (hi * MSEC_PER_DAY - 1) -> is_i64 (hi * MSEC_PER_DAY) ->
  from_month (civil_year era y mp) (month_number mp) = mkTimeRange (lo * MSEC_PER_DAY) (hi * MSEC_PER_DAY - 1).
Proof.
  intros Hy Hm lo hi H1 H2 H3. unfold from_month.
  assert (is_day lo) by (unfold is_day, is_i, MSEC_PER_DAY in *; lia).
  assert (is_day hi) by (unfold is_day, is_i, MSEC_PER_DAY in *; lia).
  pose proof (days_of_day era y mp 0 Hy Hm ltac:(lia) ltac:(done)) as Hmin. rewrite Z.add_0_l in Hmin. rewrite Hmin. fold lo.
  destruct (next_month era y mp Hy Hm) as (era' & y' & mp' & Hy' & Hm' & Hf & Hd). unfold following_month in Hf.
  cbn [fst snd] in Hf. fold hi in Hd.
  assert (is_i64 (civil_year era y mp + 1)).
  { pose proof (year_range y Hy). pose proof (year_bounds y Hy). pose proof (month_start_nonneg mp ltac:(lia)).
    pose proof (month_end_le y mp Hy Hm). unfold is_day, is_i, civil_year, lo, hi, day_number in *.
    destruct (mp <? 10); lia. }
  assert (is_u32 (month_number mp + 1)) by (unfold is_u, month_number; destruct (Z.ltb_spec mp 10); lia).
  rewrite (wrap_i_id 64), (wrap_u_id 32) by done. rewrite Hf.
  pose proof (days_of_day era' y' mp' 0 Hy' Hm' ltac:(lia) ltac:(by rewrite Hd)) as Hmax.
  rewrite Z.add_0_l in Hmax. rewrite Hmax, Hd. rewrite (wrap_i_id 64 _ ltac:(lia) H1), (wrap_i_id 64 _ ltac:(lia) H3), (wrap_i_id 64 _ ltac:(lia) H2). done.
Qed.

(** The range of the month of a day. *)
Lemma from_timestamp_range t era y mp k :
  - 2 ^ 62 <= t < 2 ^ 62 -> calendar_day y mp k -> t / MSEC_PER_DAY = day_number era y mp k ->
  from_partition_timestamp t = from_month (civil_year era y mp) (month_number mp) /\
  from_partition_timestamp t =
    mkTimeRange (day_number era y mp 0 * MSEC_PER_DAY)
      ((era * 146097 + year_start y + month_end y mp - 719468) * MSEC_PER_DAY - 1).
Proof.
  intros Ht Hd Hq. unfold from_partition_timestamp.
  assert (is_day (day_number era y mp k)) by (rewrite <-Hq; unfold is_day, MSEC_PER_DAY; dlia).
  rewrite Hq, (civil_of_day _ _ _ _ Hd) by done. split; [done|].
  destruct Hd as (Hy & Hm & Hk & Hlt). pose proof (month_days era y mp Hy Hm).
  pose proof (Z.div_mod t MSEC_PER_DAY ltac:(done)) as Hdm. pose proof (Z.mod_pos_bound t MSEC_PER_DAY ltac:(done)).
  rewrite Hq in Hdm. unfold day_number, MSEC_PER_DAY in *.
  apply from_month_range; try done; unfold is_i, day_number, MSEC_PER_DAY; lia.
Qed.

(** Monthly partitions tile the time line: the partition of a timestamp
    contains it, and every timestamp in the range of a partition has that very
    partition, so that a sample has one partition and partitions do not
    overlap. *)
Theorem partitions_tile (t : Z) (Ht : - 2 ^ 62 <= t < 2 ^ 62) :
  contains (from_partition_timestamp t) t = true /\
  forall t', contains (from_partition_timestamp t) t' = true ->
    from_partition_timestamp t' = from_partition_timestamp t.
Proof.
  destruct (day_exists (t / MSEC_PER_DAY)) as (era & y & mp & k & Hd & Hq).
  destruct (from_timestamp_range t era y mp k Ht Hd Hq) as [Hm Hr].
  pose proof Hd as (Hy & Hmp & Hk & Hlt). unfold contains. rewrite Hr. cbn [tr_min_timestamp tr_max_timestamp].
  pose proof (Z.div_mod t MSEC_PER_DAY ltac:(done)) as Hdm. pose proof (Z.mod_pos_bound t MSEC_PER_DAY ltac:(done)).
  rewrite Hq in Hdm. unfold day_number in *. split.
  - unfold MSEC_PER_DAY in *. apply andb_true_iff. rewrite !Z.leb_le. lia.
  - intros t' [H1 H2]%andb_true_iff. apply Z.leb_le in H1, H2. rewrite <-Hr, Hm. unfold from_partition_timestamp.
    set (k' := t' / MSEC_PER_DAY - day_number era y mp 0).
    assert (Hk' : calendar_day y mp k').
    { pose proof (Z.div_mod t' MSEC_PER_DAY ltac:(done)). pose proof (Z.mod_pos_bound t' MSEC_PER_DAY ltac:(done)).
      subst k'. unfold day_number, MSEC_PER_DAY in *. split_and!; lia. }
    replace (t' / MSEC_PER_DAY) with (day_number era y mp k') by (subst k'; unfold day_number; lia).
    rewrite (civil_of_day _ _ _ _ Hk'); [done|]. pose proof (month_days era y mp Hy Hmp).
    assert (day_number era y mp k' = t' / MSEC_PER_DAY) as -> by (subst k'; unfold day_number; lia).
    clear Hk' k' Hr Hm Hq. unfold is_day, MSEC_PER_DAY in *. dlia.
Qed.

Lemma partitions_tile_witness :
  contains (from_partition_timestamp 1709164800000) 1709164800000 = true /\
  forall t', contains (from_partition_timestamp 1709164800000) t' = true ->
    from_partition_timestamp t' = from_partition_timestamp 1709164800000.
Proof. apply (partitions_tile 1709164800000). lia. Defined.

(** A leap day belongs to February. *)
Example leap_day_partition :
  from_partition_timestamp 1709164800000 = mkTimeRange 1706745600000 1709251199999 /\
  timestamp_to_partition_name 1709164800000 = [50; 48; 50; 52; 95; 48; 50].
Proof. by vm_compute. Qed.

Definition name_check (y : Z) : bool :=
  let n := format_padded 4 y in (length n =? 4)%nat && forallb is_ascii_digit n && (parse_digits n =? y).
Definition month_name_check (m : Z) : bool :=
  let n := format_padded 2 m in (length n =? 2)%nat && forallb is_ascii_digit n && (parse_digits n =? m).

Lemma name_check_ok y : 0 <= y <= 9999 -> name_check y = true.
Proof. intros. apply (all_from_spec (Z.to_nat 10000) 0); [by vm_compute|lia]. Qed.
Lemma month_name_check_ok m : 1 <= m <= 12 -> month_name_check m = true.
Proof. intros. apply (all_from_spec 12 1); [by vm_compute|lia]. Qed.

(** The directory name of a partition identifies it: parsing the name
    given to the partition of an [i64] timestamp of the years 0 to 9999 gives back
    the time range of that partition. *)
Theorem partition_name_roundtrip (t : Z) (Ht : is_i64 t)
    (Hy : 0 <= fst (fst (civil_from_days (t / MSEC_PER_DAY))) <= 9999) :
  from_partition_name (timestamp_to_partition_name t) = Ok (from_partition_timestamp t).
Proof.
  unfold timestamp_to_partition_name, from_partition_timestamp.
  destruct (day_exists (t / MSEC_PER_DAY)) as (era & y0 & mp & k & Hd & Hq).
  assert (is_day (day_number era y0 mp k)) by (rewrite <-Hq; unfold is_day, is_i, MSEC_PER_DAY in *; dlia).
  rewrite Hq in *. rewrite (civil_of_day _ _ _ _ Hd) in * by done. cbn [fst] in Hy. destruct Hd as (_ & Hmp & _).
  set (y := civil_year era y0 mp) in *. set (m := month_number mp).
  assert (Hm : 1 <= m <= 12) by (subst m; unfold month_number; destruct (Z.ltb_spec mp 10); lia).
  pose proof (name_check_ok y Hy) as Hcy. pose proof (month_name_check_ok m Hm) as Hcm.
  unfold name_check in Hcy. unfold month_name_check in Hcm. clearbody y m.
  set (ny := format_padded 4 y) in *. set (nm := format_padded 2 m) in *. clearbody ny nm.
  rewrite !andb_true_iff, Nat.eqb_eq, Z.eqb_eq in Hcy, Hcm. destruct Hcy as [[Ly Dy] Py], Hcm as [[Lm Dm] Pm].
  unfold from_partition_name.
  assert (take 4 (ny ++ [95] ++ nm) = ny) as -> by (by apply take_app_length').
  assert (drop 5 (ny ++ [95] ++ nm) = nm) as ->.
  { rewrite app_assoc. apply drop_app_length'. rewrite length_app. cbn. lia. }
  assert ((ny ++ [95] ++ nm) !! 4%nat = Some 95) as -> by (by apply list_lookup_middle).
  rewrite !length_app, Ly, Lm, forallb_app, Dy, Dm, Py, Pm. cbn [length Nat.eqb Nat.add negb orb andb default].
  rewrite (proj2 (Z.leb_le 1 m)), (proj2 (Z.leb_le m 12)) by lia. done.
Qed.

Lemma partition_name_roundtrip_witness :
  from_partition_name [50; 48; 50; 52; 95; 48; 50] = Ok (from_partition_timestamp 1709164800000).
Proof. apply (partition_name_roundtrip 1709164800000); vm_compute; split; discriminate || done. Defined.

(** Two non-empty time ranges overlap, by the test on their ends, exactly
    when some timestamp lies in both; and the date range of a non-negative
    time range covers the date of every timestamp in it. *)
Theorem time_ranges_overlap (a b : TimeRange)
    (Ha : tr_min_timestamp a <= tr_max_timestamp a) (Hb : tr_min_timestamp b <= tr_max_timestamp b) :
  (overlaps_with a b = true <-> exists t, contains a t = true /\ contains b t = true) /\
  (0 <= tr_min_timestamp a -> tr_max_timestamp a < 2 ^ 63 -> forall t, contains a t = true ->
     fst (date_range a) <= t / MSEC_PER_DAY <= snd (date_range a)).
Proof.
  unfold overlaps_with, contains. split.
  - split.
    + intros [H1 H2]%andb_true_iff. exists (Z.max (tr_min_timestamp a) (tr_min_timestamp b)).
      rewrite !andb_true_iff, !Z.leb_le. lia.
    + intros (t & H1 & H2). lia.
  - intros H0 H63 t [H1 H2]%andb_true_iff. apply Z.leb_le in H1, H2. unfold date_range. cbn [fst snd].
    rewrite !wrap_u_id by (unfold is_u; lia).
    pose proof (Z.div_le_mono _ _ MSEC_PER_DAY ltac:(done) H1). pose proof (Z.div_le_mono _ _ MSEC_PER_DAY ltac:(done) H2). lia.
Qed.

Lemma time_ranges_overlap_witness :
  (overlaps_with (mkTimeRange 1 10) (mkTimeRange 5 15) = true <->
   exists t, contains (mkTimeRange 1 10) t = true /\ contains (mkTimeRange 5 15) t = true) /\
  (0 <= 1 -> 10 < 2 ^ 63 -> forall t, contains (mkTimeRange 1 10) t = true ->
     fst (date_range (mkTimeRange 1 10)) <= t / MSEC_PER_DAY <= snd (date_range (mkTimeRange 1 10))).
Proof. apply (time_ranges_overlap (mkTimeRange 1 10) (mkTimeRange 5 15)); cbn; lia. Defined.
