(* ===== verification/IntCodec.v ===== *)
(** * Integer codecs

    Model of [esm-encoding/src/int.rs]: fixed-width big-endian integers,
    zig-zag signed integers, LEB128 varints with their word-at-a-time reader,
    and length-prefixed byte strings.  A byte is a [Z] below 256, a
    [&mut Vec<u8>] that is appended to is a list that is passed in and out. *)
From Stdlib Require Import ZArith Lia Bool.
From S2P Require Import Prelude.
Local Open Scope Z_scope.

(** ** Fixed-width integers *)

(** [to_be_bytes]: the [n] bytes of [u], most significant first. *)
Fixpoint to_be_bytes (n : nat) (u : Z) : list Z :=
  match n with
  | O => []
  | S n' => as_u8 (Z.shiftr u (8 * Z.of_nat n')) :: to_be_bytes n' u
  end.

(** [from_be_bytes]. *)
Definition from_be_bytes (bs : list Z) : Z :=
  foldl (fun acc b => acc * 256 + b) 0 bs.

Definition marshal_uint16 (dst : list Z) (u : Z) : list Z := dst ++ to_be_bytes 2 u.
Definition marshal_uint32 (dst : list Z) (u : Z) : list Z := dst ++ to_be_bytes 4 u.
Definition marshal_uint64 (dst : list Z) (u : Z) : list Z := dst ++ to_be_bytes 8 u.

(** Reading [n] bytes by index panics on a shorter slice. *)
Definition read_be {E} (n : nat) (src : list Z) : res E Z :=
  if decide (n <= length src)%nat then Ok (from_be_bytes (take n src)) else Panic.

Definition unmarshal_uint16 {E} (src : list Z) : res E Z := read_be 2 src.
Definition unmarshal_uint32 {E} (src : list Z) : res E Z := read_be 4 src.
Definition unmarshal_uint64 {E} (src : list Z) : res E Z := read_be 8 src.

(** [((v << 1) ^ (v >> 15))] on [i16], and its inverse on [u16]. *)
Definition zigzag_encode16 (v : Z) : Z := as_u16 (Z.lxor (as_i16 (Z.shiftl v 1)) (Z.shiftr v 15)).
Definition zigzag_decode16 (u : Z) : Z :=
  Z.lxor (as_i16 (Z.shiftr u 1)) (Z.shiftr (as_i16 (as_u16 (Z.shiftl u 15))) 15).

(** [((v << 1) ^ (v >> 63)) as u64], the expression every signed writer uses. *)
Definition zigzag_encode (v : Z) : Z := as_u64 (Z.lxor (as_i64 (Z.shiftl v 1)) (Z.shiftr v 63)).
Definition zigzag_decode (u : Z) : Z :=
  Z.lxor (as_i64 (Z.shiftr u 1)) (Z.shiftr (as_i64 (u64_shl u 63)) 63).

Definition marshal_int16 (dst : list Z) (v : Z) : list Z := marshal_uint16 dst (zigzag_encode16 v).
Definition unmarshal_int16 {E} (src : list Z) : res E Z :=
  u ← unmarshal_uint16 src; Ok (zigzag_decode16 u).
Definition marshal_int64 (dst : list Z) (v : Z) : list Z := marshal_uint64 dst (zigzag_encode v).
Definition unmarshal_int64 {E} (src : list Z) : res E Z :=
  u ← unmarshal_uint64 src; Ok (zigzag_decode u).

(** ** Varint writers *)

(** [((u >> (7*k)) | 0x80) as u8] and [(u >> (7*k)) as u8]. *)
Definition vcont (u k : Z) : Z := as_u8 (Z.lor (Z.shiftr u (k * 7)) 0x80).
Definition vlast (u k : Z) : Z := as_u8 (Z.shiftr u (k * 7)).

(** The unrolled writer, with its cases in the order of the source. *)
Definition append_var_uint64 (dst : list Z) (u : Z) : list Z :=
  if u <? Z.shiftl 1 7 then dst ++ [as_u8 u]
  else if u <? Z.shiftl 1 (2 * 7) then dst ++ [as_u8 (Z.lor u 0x80); vlast u 1]
  else if u <? Z.shiftl 1 (3 * 7) then dst ++ [as_u8 (Z.lor u 0x80); vcont u 1; vlast u 2]
  else if u >=? Z.shiftl 1 (8 * 7) then
    if u <? Z.shiftl 1 (9 * 7) then
      dst ++ [as_u8 (Z.lor u 0x80); vcont u 1; vcont u 2; vcont u 3; vcont u 4;
              vcont u 5; vcont u 6; vcont u 7; vlast u 8]
    else
      dst ++ [as_u8 (Z.lor u 0x80); vcont u 1; vcont u 2; vcont u 3; vcont u 4;
              vcont u 5; vcont u 6; vcont u 7; vcont u 8; 1]
  else if u <? Z.shiftl 1 (4 * 7) then
    dst ++ [as_u8 (Z.lor u 0x80); vcont u 1; vcont u 2; vlast u 3]
  else if u <? Z.shiftl 1 (5 * 7) then
    dst ++ [as_u8 (Z.lor u 0x80); vcont u 1; vcont u 2; vcont u 3; vlast u 4]
  else if u <? Z.shiftl 1 (6 * 7) then
    dst ++ [as_u8 (Z.lor u 0x80); vcont u 1; vcont u 2; vcont u 3; vcont u 4; vlast u 5]
  else if u <? Z.shiftl 1 (7 * 7) then
    dst ++ [as_u8 (Z.lor u 0x80); vcont u 1; vcont u 2; vcont u 3; vcont u 4; vcont u 5; vlast u 6]
  else
    dst ++ [as_u8 (Z.lor u 0x80); vcont u 1; vcont u 2; vcont u 3; vcont u 4; vcont u 5;
            vcont u 6; vlast u 7].

Definition marshal_var_uint64 (dst : list Z) (u : Z) : list Z := append_var_uint64 dst u.

Definition marshal_var_int64 (dst : list Z) (v : Z) : list Z :=
  let u := zigzag_encode v in
  if (v <? Z.shiftl 1 6) && (v >? - Z.shiftl 1 6) then dst ++ [as_u8 u]
  else if u <? Z.shiftl 1 (2 * 7) then dst ++ [as_u8 (Z.lor u 0x80); vlast u 1]
  else if u <? Z.shiftl 1 (3 * 7) then dst ++ [as_u8 (Z.lor u 0x80); vcont u 1; vlast u 2]
  else append_var_uint64 dst u.

Definition marshal_var_int64s_slow (dst : list Z) (vs : list Z) : list Z :=
  foldl (fun d v => append_var_uint64 d (zigzag_encode v)) dst vs.

(** The loop of [marshal_var_int64s]: it pushes one byte per value and gives
    up ([None]) at the first value that does not fit. *)
Fixpoint marshal_var_int64s_fast (dst : list Z) (vs : list Z) : option (list Z) :=
  match vs with
  | [] => Some dst
  | v :: vs' =>
      if (v >=? Z.shiftl 1 6) || (v <=? - Z.shiftl 1 6) then None
      else marshal_var_int64s_fast (dst ++ [as_u8 (zigzag_encode v)]) vs'
  end.

(** On the first large value [dst] is truncated to its original length and
    everything is written again by the slow path. *)
Definition marshal_var_int64s (dst : list Z) (vs : list Z) : list Z :=
  match marshal_var_int64s_fast dst vs with
  | Some dst' => dst'
  | None => marshal_var_int64s_slow dst vs
  end.

Definition marshal_var_uint64s_slow (dst : list Z) (us : list Z) : list Z :=
  foldl append_var_uint64 dst us.

Fixpoint marshal_var_uint64s_fast (dst : list Z) (us : list Z) : option (list Z) :=
  match us with
  | [] => Some dst
  | u :: us' =>
      if u >=? Z.shiftl 1 7 then None else marshal_var_uint64s_fast (dst ++ [as_u8 u]) us'
  end.

Definition marshal_var_uint64s (dst : list Z) (us : list Z) : list Z :=
  match marshal_var_uint64s_fast dst us with
  | Some dst' => dst'
  | None => marshal_var_uint64s_slow dst us
  end.

(** ** Varint readers *)

Inductive varint_error : Type :=
| EmptyData
| UnexpectedEndAt (byte : nat)
| UnexpectedEnd
| TooBigVarint
| TooLongVarint (len : nat)
| TooSmallSrc (src_len dst_len : nat).

(** [uvarint]: the loop over [src.iter().enumerate()], with its index [i],
    accumulator [x] and shift [s]. *)
Fixpoint uvarint_loop (src : list Z) (i : nat) (x s : Z) : Z * Z :=
  match src with
  | [] => (0, 0)
  | b :: src' =>
      if (i =? 10)%nat then (0, - Z.of_nat (i + 1))
      else if b <? 0x80 then
        if (i =? 9)%nat && (b >? 1) then (0, - Z.of_nat (i + 1))
        else (Z.lor x (u64_shl b s), Z.of_nat (i + 1))
      else uvarint_loop src' (S i) (Z.lor x (u64_shl (Z.land b 0x7f) s)) (s + 7)
  end.

Definition uvarint (src : list Z) : Z * Z := uvarint_loop src 0 0 0.

Definition unmarshal_var_int64 (src : list Z) : option (Z * nat) :=
  let '(u, n_size) := uvarint src in
  if n_size <=? 0 then None else Some (zigzag_decode u, Z.to_nat n_size).

Definition unmarshal_var_uint64 (src : list Z) : option (Z * nat) :=
  match src with
  | [] => None
  | c :: src' =>
      if c <? 0x80 then Some (c, 1%nat)
      else match src' with
      | [] => None
      | d :: _ =>
          if d <? 0x80 then Some (Z.lor (Z.land c 0x7f) (u64_shl d 7), 2%nat)
          else
            let '(u, n_size) := uvarint src in
            if n_size <=? 0 then None else Some (u, Z.to_nat n_size)
      end
  end.

(** The inner [loop] of [read_var_uint64_slow]: the offset just after the
    first byte below 0x80 at or after the current one, or [None] when [src]
    ends first.  [rest] is [src[*idx..]]. *)
Fixpoint scan_end (rest : list Z) (i : nat) : option nat :=
  match rest with
  | [] => None
  | c :: rest' => if c <? 0x80 then Some (S i) else scan_end rest' (S i)
  end.

(** [(b[k] & 0x7f) as u64) << (7*j)] and [(b[k] as u64) << (7*j)]. *)
Definition low7 (c k : Z) : Z := u64_shl (Z.land c 0x7f) (k * 7).
Definition full7 (c k : Z) : Z := u64_shl c (k * 7).

(** The [match b.len()] of the slow path. *)
Definition slow_tail (b : list Z) : res varint_error Z :=
  match b with
  | [b0] => Ok (full7 b0 3)
  | [b0; b1] => Ok (Z.lor (low7 b0 3) (full7 b1 4))
  | [b0; b1; b2] => Ok (Z.lor (Z.lor (low7 b0 3) (low7 b1 4)) (full7 b2 5))
  | [b0; b1; b2; b3] =>
      Ok (Z.lor (Z.lor (Z.lor (low7 b0 3) (low7 b1 4)) (low7 b2 5)) (full7 b3 6))
  | [b0; b1; b2; b3; b4] =>
      Ok (Z.lor (Z.lor (Z.lor (Z.lor (low7 b0 3) (low7 b1 4)) (low7 b2 5)) (low7 b3 6))
            (full7 b4 7))
  | [b0; b1; b2; b3; b4; b5] =>
      Ok (Z.lor (Z.lor (Z.lor (Z.lor (Z.lor (low7 b0 3) (low7 b1 4)) (low7 b2 5)) (low7 b3 6))
            (low7 b4 7)) (full7 b5 8))
  | [b0; b1; b2; b3; b4; b5; b6] =>
      if b6 >? 1 then Err TooBigVarint
      else
        Ok (Z.lor (Z.lor (Z.lor (Z.lor (Z.lor (Z.lor (low7 b0 3) (low7 b1 4)) (low7 b2 5))
              (low7 b3 6)) (low7 b4 7)) (low7 b5 8)) (u64_shl 1 (9 * 7)))
  | _ => Err (TooLongVarint (length b + 3))
  end.

(** Reads one varint at [idx] and returns it with the advanced index. *)
Definition read_var_uint64_slow (src : list Z) (idx : nat) : res varint_error (Z * nat) :=
  match src !! idx with
  | None => Err EmptyData
  | Some c =>
    let idx := S idx in
    if c <? 0x80 then Ok (c, idx)
    else match src !! idx with
    | None => Err (UnexpectedEndAt 1)
    | Some d =>
      let idx := S idx in
      if d <? 0x80 then Ok (Z.lor (Z.land c 0x7f) (full7 d 1), idx)
      else match src !! idx with
      | None => Err (UnexpectedEndAt 2)
      | Some e =>
        let idx := S idx in
        if e <? 0x80 then Ok (Z.lor (Z.lor (Z.land c 0x7f) (low7 d 1)) (full7 e 2), idx)
        else
          let u := Z.lor (Z.lor (Z.land c 0x7f) (low7 d 1)) (low7 e 2) in
          let j := idx in
          match scan_end (drop idx src) idx with
          | None => Err UnexpectedEnd
          | Some idx =>
            t ← slow_tail (take (idx - j) (drop j src)); Ok (Z.lor u t, idx)
          end
      end
    end
  end.

(** [u64::from_le_bytes]. *)
Fixpoint from_le_bytes (bs : list Z) : Z :=
  match bs with
  | [] => 0
  | b :: bs' => b + 256 * from_le_bytes bs'
  end.

(** [u64::trailing_zeros], 64 on zero. *)
Fixpoint trailing_zeros (bits : nat) (x : Z) : nat :=
  match bits with
  | O => 0
  | S n => if Z.odd x then 0 else S (trailing_zeros n (Z.div2 x))
  end.

(** The [while k < nbytes] loop; [n] counts the iterations left. *)
Fixpoint swar_loop (w : Z) (n : nat) (k u : Z) : Z :=
  match n with
  | O => u
  | S n' =>
      swar_loop w n' (k + 1) (Z.lor u (u64_shl (Z.land (Z.shiftr w (8 * k)) 0x7f) (7 * k)))
  end.

Definition read_var_uint64_fast (src : list Z) (idx : nat) : res varint_error (Z * nat) :=
  let start := idx in
  if decide (start + 8 <= length src)%nat then
    let w := from_le_bytes (take 8 (drop start src)) in
    let stop := Z.land (as_u64 (Z.lnot w)) 0x8080808080808080 in
    if stop =? 0 then read_var_uint64_slow src idx
    else
      let nbytes := (trailing_zeros 64 stop / 8 + 1)%nat in
      Ok (swar_loop w (nbytes - 1) 1 (Z.land w 0x7f), (start + nbytes)%nat)
  else read_var_uint64_slow src idx.

(** The one-byte prefix of [unmarshal_var_int64s] / [unmarshal_var_uint64s]:
    decodes at most [n] bytes below 0x80 with [dec] and returns what it
    decoded. *)
Fixpoint one_byte_prefix (dec : Z -> Z) (n : nat) (src : list Z) : list Z :=
  match n, src with
  | S n', c :: src' => if c >=? 0x80 then [] else dec c :: one_byte_prefix dec n' src'
  | _, _ => []
  end.

(** The mixed path: [n] more varints from [idx] on. *)
Fixpoint read_many (dec : Z -> Z) (n : nat) (src : list Z) (idx : nat)
    : res varint_error (list Z * nat) :=
  match n with
  | O => Ok ([], idx)
  | S n' =>
      '(u, idx) ← read_var_uint64_fast src idx;
      '(us, idx) ← read_many dec n' src idx;
      Ok (dec u :: us, idx)
  end.

(** Fills a slice of [n] values and returns it with the unread tail. *)
Definition unmarshal_vars (dec1 dec : Z -> Z) (n : nat) (src : list Z)
    : res varint_error (list Z * list Z) :=
  _ ← guard_ (length src <? n)%nat (TooSmallSrc (length src) n);
  let pre := one_byte_prefix dec1 n src in
  let i := length pre in
  if (i =? n)%nat then Ok (pre, drop n src)
  else
    '(us, idx) ← read_many dec (n - i) src i;
    Ok (pre ++ us, drop idx src).

(** [((c >> 1) as i8 ^ (((c << 7) as i8) >> 7)) as i64]. *)
Definition zigzag_decode8 (c : Z) : Z :=
  Z.lxor (as_i8 (Z.shiftr c 1)) (Z.shiftr (as_i8 (as_u8 (Z.shiftl c 7))) 7).

Definition unmarshal_var_int64s (n : nat) (src : list Z) : res varint_error (list Z * list Z) :=
  unmarshal_vars zigzag_decode8 zigzag_decode n src.

Definition unmarshal_var_uint64s (n : nat) (src : list Z) : res varint_error (list Z * list Z) :=
  unmarshal_vars (fun c => c) (fun u => u) n src.

(** ** Booleans and byte strings *)

Definition marshal_bool (dst : list Z) (v : bool) : list Z := dst ++ [if v then 1 else 0].
Definition unmarshal_bool {E} (src : list Z) : res E bool :=
  b ← idx src 0; Ok (negb (b =? 0)).

Definition marshal_bytes (dst : list Z) (b : list Z) : list Z :=
  marshal_var_uint64 dst (Z.of_nat (length b)) ++ b.

Definition unmarshal_bytes (src : list Z) : option (list Z * nat) :=
  match unmarshal_var_uint64 src with
  | None => None
  | Some (n, n_size) =>
      if n >? Z.of_nat (length src - n_size) then None
      else
        let start := n_size in
        let n_size := (n_size + Z.to_nat n)%nat in
        Some (take (n_size - start) (drop start src), n_size)
  end.

(** ** Fixed-width integers: lemmas *)

Definition bytes (bs : list Z) : Prop := Forall is_u8 bs.

Global Instance bytes_dec bs : Decision (bytes bs).
Proof. unfold bytes. apply _. Defined.

Lemma bytes_app b1 b2 : bytes (b1 ++ b2) <-> bytes b1 /\ bytes b2.
Proof. apply Forall_app. Qed.
Lemma bytes_drop n bs : bytes bs -> bytes (drop n bs).
Proof. apply Forall_drop. Qed.
Lemma bytes_take n bs : bytes bs -> bytes (take n bs).
Proof. apply Forall_take. Qed.
#[export] Hint Resolve bytes_drop bytes_take : esm.

Lemma length_to_be_bytes n u : length (to_be_bytes n u) = n.
Proof. induction n; cbn; congruence. Qed.

Lemma bytes_to_be_bytes n u : bytes (to_be_bytes n u).
Proof. induction n; cbn; constructor; [by apply wrap_u_range|done]. Qed.

Lemma foldl_to_be_bytes n u acc :
  foldl (fun acc b => acc * 256 + b) acc (to_be_bytes n u)
  = acc * 2 ^ (8 * Z.of_nat n) + u mod 2 ^ (8 * Z.of_nat n).
Proof.
  revert acc. induction n as [|n IH]; intros acc.
  { cbn. rewrite Z.mod_1_r. lia. }
  cbn [to_be_bytes foldl]. rewrite IH. unfold wrap_u. rewrite shiftr_div by lia.
  replace (8 * Z.of_nat (S n)) with (8 * Z.of_nat n + 8) by lia.
  rewrite Z.pow_add_r by lia. set (p := 2 ^ (8 * Z.of_nat n)).
  assert (0 < p) by (unfold p; lia). change (2 ^ 8) with 256.
  rewrite (Z.rem_mul_r u p 256) by lia. lia.
Qed.

Lemma from_to_be_bytes n u : is_u (8 * Z.of_nat n) u -> from_be_bytes (to_be_bytes n u) = u.
Proof.
  intros Hu. unfold from_be_bytes. rewrite foldl_to_be_bytes, Z.mod_small; [lia|done].
Qed.

Lemma read_be_app {E} n u tail :
  is_u (8 * Z.of_nat n) u -> read_be (E := E) n (to_be_bytes n u ++ tail) = Ok u.
Proof.
  intros Hu. unfold read_be. rewrite decide_True by (rewrite length_app, length_to_be_bytes; lia).
  rewrite take_app_le by (rewrite length_to_be_bytes; lia).
  rewrite take_ge by (rewrite length_to_be_bytes; lia). by rewrite from_to_be_bytes.
Qed.

Lemma from_be_bytes_range bs : bytes bs -> is_u (8 * Z.of_nat (length bs)) (from_be_bytes bs).
Proof.
  intros Hbs. unfold from_be_bytes.
  enough (forall acc k, is_u (8 * Z.of_nat k) acc ->
    is_u (8 * Z.of_nat (k + length bs)) (foldl (fun acc b => acc * 256 + b) acc bs)) as Hg.
  { by apply (Hg 0 0%nat). }
  induction Hbs as [|b bs Hb Hbs IH]; intros acc k Hacc; cbn; [by rewrite Nat.add_0_r|].
  replace (k + S (length bs))%nat with (S k + length bs)%nat by lia. apply IH.
  unfold is_u in *. replace (8 * Z.of_nat (S k)) with (8 * Z.of_nat k + 8) by lia.
  rewrite Z.pow_add_r by lia. lia.
Qed.

Lemma read_be_range {E} n src u : bytes src -> read_be (E := E) n src = Ok u -> is_u (8 * Z.of_nat n) u.
Proof.
  intros Hs. unfold read_be. case_decide as Hn; [|done]. intros [= <-].
  pose proof (from_be_bytes_range (take n src)) as Hr. rewrite length_take_le in Hr by done.
  auto with esm.
Qed.

Lemma read_be_no_panic {E} n src : (n <= length src)%nat -> no_panic (read_be (E := E) n src).
Proof. intros. unfold read_be. by rewrite decide_True. Qed.
#[export] Hint Resolve read_be_no_panic : esm.

(** ** Zig-zag: lemmas *)

(** What the branch-free expressions compute, for any width [w]. *)
Lemma zigzag_enc_gen w v :
  2 <= w -> is_i w v ->
  wrap_u w (Z.lxor (wrap_i w (Z.shiftl v 1)) (Z.shiftr v (w - 1)))
  = if decide (v < 0) then -2 * v - 1 else 2 * v.
Proof.
  intros Hw Hv. rewrite shiftr_sign by (done || lia). rewrite shiftl_mul by lia.
  pose proof (pow2_split w ltac:(lia)). destruct Hv.
  destruct (wrap_i_eqm w (v * 2 ^ 1)) as [k Hk]; [lia|]. rewrite Hk.
  unfold wrap_u. case_decide.
  - rewrite lxor_m1. replace (- _ - 1) with (-2 * v - 1 + - k * 2 ^ w) by lia.
    rewrite Z.mod_add by lia. apply Z.mod_small. lia.
  - rewrite Z.lxor_0_r, Z.mod_add by lia. rewrite Z.mod_small; lia.
Qed.

Lemma zigzag_dec_gen w u :
  2 <= w -> is_u w u ->
  Z.lxor (wrap_i w (Z.shiftr u 1)) (Z.shiftr (wrap_i w (wrap_u w (Z.shiftl u (w - 1)))) (w - 1))
  = if decide (u mod 2 = 1) then - (u / 2) - 1 else u / 2.
Proof.
  intros Hw [Hu1 Hu2]. pose proof (pow2_split w ltac:(lia)) as Hp.
  rewrite shiftr_div, shiftl_mul by lia. change (2 ^ 1) with 2.
  rewrite (wrap_i_id w (u / 2)) by (unfold is_i; dlia).
  assert (Hd : u = 2 * (u / 2) + u mod 2) by (apply Z.div_mod; lia).
  assert (Hm : wrap_u w (u * 2 ^ (w - 1)) = u mod 2 * 2 ^ (w - 1)).
  { unfold wrap_u. rewrite Hd at 1.
    replace ((2 * (u / 2) + u mod 2) * 2 ^ (w - 1)) with (u mod 2 * 2 ^ (w - 1) + u / 2 * 2 ^ w) by lia.
    rewrite Z.mod_add by lia. apply Z.mod_small. pose proof (Z.mod_pos_bound u 2). nia. }
  rewrite Hm. pose proof (Z.mod_pos_bound u 2 eq_refl). case_decide as Hodd.
  - rewrite Hodd, Z.mul_1_l.
    rewrite (wrap_i_unique w _ (- 2 ^ (w - 1)) 1) by (unfold is_i; lia).
    rewrite shiftr_sign by (unfold is_i; lia). rewrite decide_True by lia. apply lxor_m1.
  - replace (u mod 2) with 0 by lia. rewrite Z.mul_0_l, wrap_i_id by (unfold is_i; lia).
    by rewrite Z.shiftr_0_l, Z.lxor_0_r.
Qed.

Lemma zigzag_encode_spec v :
  is_i64 v -> zigzag_encode v = if decide (v < 0) then -2 * v - 1 else 2 * v.
Proof. apply (zigzag_enc_gen 64). lia. Qed.
Lemma zigzag_encode_range v : is_u64 (zigzag_encode v).
Proof. by apply wrap_u_range. Qed.
Lemma zigzag_decode_spec u :
  is_u64 u -> zigzag_decode u = if decide (u mod 2 = 1) then - (u / 2) - 1 else u / 2.
Proof. apply (zigzag_dec_gen 64). lia. Qed.
Lemma zigzag_decode8_spec u :
  is_u8 u -> zigzag_decode8 u = if decide (u mod 2 = 1) then - (u / 2) - 1 else u / 2.
Proof. apply (zigzag_dec_gen 8). lia. Qed.
#[export] Hint Resolve zigzag_encode_range : esm.

Ltac zigzag_solve := repeat case_decide; unfold is_u, is_i in *; dlia.

Lemma zigzag_roundtrip v : is_i64 v -> zigzag_decode (zigzag_encode v) = v.
Proof.
  intros Hv. rewrite zigzag_decode_spec, zigzag_encode_spec by auto with esm. zigzag_solve.
Qed.

Lemma zigzag_decode_range u : is_u64 u -> is_i64 (zigzag_decode u).
Proof. intros. rewrite zigzag_decode_spec by done. zigzag_solve. Qed.

Lemma zigzag_roundtrip16 v : is_i16 v -> zigzag_decode16 (zigzag_encode16 v) = v.
Proof.
  intros Hv. unfold zigzag_decode16. rewrite (zigzag_dec_gen 16) by (lia || by apply wrap_u_range).
  unfold zigzag_encode16. rewrite (zigzag_enc_gen 16) by (lia || done). zigzag_solve.
Qed.

Lemma zigzag_decode16_range u : is_u16 u -> is_i16 (zigzag_decode16 u).
Proof. intros. unfold zigzag_decode16. rewrite (zigzag_dec_gen 16) by (lia || done). zigzag_solve. Qed.

(** ** Fields of fixed-width records

    A record decoder reads a field and drops its bytes; these lemmas run one
    such step forwards (on an encoding) and invert it (on arbitrary bytes). *)

Lemma field_be {E B} n u rest (k : Z -> list Z -> res E B) :
  is_u (8 * Z.of_nat n) u ->
  (x ← read_be n (to_be_bytes n u ++ rest); src ← slice_from (to_be_bytes n u ++ rest) n; k x src)
  = k u rest.
Proof.
  intros Hu. rewrite read_be_app by done. cbn [mbind res_bind].
  by rewrite slice_from_ok by apply length_to_be_bytes.
Qed.

Lemma field_u64 {E B} u rest (k : Z -> list Z -> res E B) :
  is_u64 u ->
  (x ← unmarshal_uint64 (to_be_bytes 8 u ++ rest); src ← slice_from (to_be_bytes 8 u ++ rest) 8; k x src)
  = k u rest.
Proof. apply (field_be 8). Qed.

Lemma field_u32 {E B} u rest (k : Z -> list Z -> res E B) :
  is_u32 u ->
  (x ← unmarshal_uint32 (to_be_bytes 4 u ++ rest); src ← slice_from (to_be_bytes 4 u ++ rest) 4; k x src)
  = k u rest.
Proof. apply (field_be 4). Qed.

Lemma field_i64 {E B} v rest (k : Z -> list Z -> res E B) :
  is_i64 v ->
  (x ← unmarshal_int64 (to_be_bytes 8 (zigzag_encode v) ++ rest);
   src ← slice_from (to_be_bytes 8 (zigzag_encode v) ++ rest) 8; k x src) = k v rest.
Proof.
  intros Hv. unfold unmarshal_int64, unmarshal_uint64.
  rewrite read_be_app by apply zigzag_encode_range. cbn [mbind res_bind].
  rewrite slice_from_ok by apply length_to_be_bytes. cbn. by rewrite zigzag_roundtrip.
Qed.

Lemma field_i16 {E B} v rest (k : Z -> list Z -> res E B) :
  is_i16 v ->
  (x ← unmarshal_int16 (to_be_bytes 2 (zigzag_encode16 v) ++ rest);
   src ← slice_from (to_be_bytes 2 (zigzag_encode16 v) ++ rest) 2; k x src) = k v rest.
Proof.
  intros Hv. unfold unmarshal_int16, unmarshal_uint16.
  rewrite read_be_app by (by apply wrap_u_range). cbn [mbind res_bind].
  rewrite slice_from_ok by apply length_to_be_bytes. cbn. by rewrite zigzag_roundtrip16.
Qed.

Lemma to_be_bytes_add n m x k :
  (n <= m)%nat -> to_be_bytes n (x + k * 2 ^ (8 * Z.of_nat m)) = to_be_bytes n x.
Proof.
  intros Hn. induction n as [|n IH]; cbn [to_be_bytes]; [done|]. rewrite IH by lia. f_equal.
  unfold wrap_u. rewrite !shiftr_div by lia.
  replace (8 * Z.of_nat m) with (8 * Z.of_nat (m - n - 1) + 8 + 8 * Z.of_nat n) by lia.
  rewrite !Z.pow_add_r, !Z.mul_assoc, Z.div_add, Z.mod_add by lia. done.
Qed.

Lemma to_from_be_bytes bs : bytes bs -> to_be_bytes (length bs) (from_be_bytes bs) = bs.
Proof.
  induction 1 as [|b bs [Hb1 Hb2] Hbs IH]; [done|].
  assert (Hcons : from_be_bytes (b :: bs) = from_be_bytes bs + b * 2 ^ (8 * Z.of_nat (length bs))).
  { unfold from_be_bytes at 1. cbn [foldl]. rewrite Z.mul_0_l, Z.add_0_l.
    rewrite <-IH at 1. rewrite foldl_to_be_bytes. rewrite Z.mod_small; [lia|].
    by apply from_be_bytes_range. }
  pose proof (from_be_bytes_range bs Hbs) as [Hr1 Hr2].
  cbn [length to_be_bytes]. rewrite Hcons, to_be_bytes_add, IH by lia. f_equal.
  rewrite shiftr_div, Z.div_add, Z.div_small by lia. by apply wrap_u_id.
Qed.

Lemma read_be_inv {E} n src u :
  bytes src -> read_be (E := E) n src = Ok u ->
  is_u (8 * Z.of_nat n) u /\ src = to_be_bytes n u ++ drop n src.
Proof.
  intros Hs Hr. split; [by eapply read_be_range|]. revert Hr. unfold read_be.
  case_decide as Hn; [|done]. intros [= <-].
  rewrite <-(length_take_le src n) at 1 by done.
  rewrite to_from_be_bytes by auto with esm. by rewrite take_drop.
Qed.

Lemma slice_from_inv {E A} (src rest : list A) n :
  slice_from (E := E) src n = Ok rest -> rest = drop n src.
Proof. unfold slice_from. case_decide; by intros [= <-]. Qed.

Lemma zigzag_encode_decode u : is_u64 u -> zigzag_encode (zigzag_decode u) = u.
Proof.
  intros Hu. rewrite zigzag_encode_spec by (by apply zigzag_decode_range).
  rewrite zigzag_decode_spec by done. zigzag_solve.
Qed.

Lemma zigzag_encode_decode16 u : is_u16 u -> zigzag_encode16 (zigzag_decode16 u) = u.
Proof.
  intros Hu. unfold zigzag_encode16. rewrite (zigzag_enc_gen 16) by (lia || by apply zigzag_decode16_range).
  unfold zigzag_decode16. rewrite (zigzag_dec_gen 16) by (lia || done). zigzag_solve.
Qed.

Lemma field_u64_inv {E} src u rest :
  bytes src -> unmarshal_uint64 (E := E) src = Ok u -> slice_from (E := E) src 8 = Ok rest ->
  is_u64 u /\ bytes rest /\ src = to_be_bytes 8 u ++ rest.
Proof.
  intros Hs Hr ->%slice_from_inv. apply read_be_inv in Hr as [? ?]; [|done]. auto with esm.
Qed.

Lemma field_u32_inv {E} src u rest :
  bytes src -> unmarshal_uint32 (E := E) src = Ok u -> slice_from (E := E) src 4 = Ok rest ->
  is_u32 u /\ bytes rest /\ src = to_be_bytes 4 u ++ rest.
Proof.
  intros Hs Hr ->%slice_from_inv. apply read_be_inv in Hr as [? ?]; [|done]. auto with esm.
Qed.

Lemma field_i64_inv {E} src v rest :
  bytes src -> unmarshal_int64 (E := E) src = Ok v -> slice_from (E := E) src 8 = Ok rest ->
  is_i64 v /\ bytes rest /\ src = to_be_bytes 8 (zigzag_encode v) ++ rest.
Proof.
  intros Hs Hr ->%slice_from_inv. unfold unmarshal_int64 in Hr. res_inv. subst v.
  apply read_be_inv in Hm as [? Heq]; [|done]. rewrite zigzag_encode_decode by done.
  auto using zigzag_decode_range with esm.
Qed.

Lemma field_i16_inv {E} src v rest :
  bytes src -> unmarshal_int16 (E := E) src = Ok v -> slice_from (E := E) src 2 = Ok rest ->
  is_i16 v /\ bytes rest /\ src = to_be_bytes 2 (zigzag_encode16 v) ++ rest.
Proof.
  intros Hs Hr ->%slice_from_inv. unfold unmarshal_int16 in Hr. res_inv. subst v.
  apply read_be_inv in Hm as [? Heq]; [|done]. rewrite zigzag_encode_decode16 by done.
  auto using zigzag_decode16_range with esm.
Qed.

(** Inverts every fixed-width field read of a decoder that succeeded. *)
Ltac fields_inv :=
  repeat match goal with
  | Hs : bytes ?s, H1 : unmarshal_uint64 ?s = Ok _, H2 : slice_from ?s 8 = Ok _ |- _ =>
      destruct (field_u64_inv _ _ _ Hs H1 H2) as (? & ? & ?); clear H1 H2
  | Hs : bytes ?s, H1 : unmarshal_uint32 ?s = Ok _, H2 : slice_from ?s 4 = Ok _ |- _ =>
      destruct (field_u32_inv _ _ _ Hs H1 H2) as (? & ? & ?); clear H1 H2
  | Hs : bytes ?s, H1 : unmarshal_int64 ?s = Ok _, H2 : slice_from ?s 8 = Ok _ |- _ =>
      destruct (field_i64_inv _ _ _ Hs H1 H2) as (? & ? & ?); clear H1 H2
  | Hs : bytes ?s, H1 : unmarshal_int16 ?s = Ok _, H2 : slice_from ?s 2 = Ok _ |- _ =>
      destruct (field_i16_inv _ _ _ Hs H1 H2) as (? & ? & ?); clear H1 H2
  end.

(** ** LEB128: the reference encoding *)

(** Seven bits per byte, least significant group first, the high bit set on
    every byte but the last.  Ten groups are enough for 64 bits. *)
Fixpoint leb128_fuel (fuel : nat) (u : Z) : list Z :=
  match fuel with
  | O => []
  | S f => if u <? 128 then [u] else (128 + u mod 128) :: leb128_fuel f (u / 128)
  end.
Definition leb128 (u : Z) : list Z := leb128_fuel 10 u.
Arguments leb128 : simpl never.

(** The number a group sequence stands for. *)
Fixpoint leb_value (bs : list Z) : Z :=
  match bs with
  | [] => 0
  | b :: bs' => b mod 128 + 128 * leb_value bs'
  end.

(** A varint: continuation bytes and one final byte. *)
Definition is_cont (b : Z) : Prop := 128 <= b < 256.
Definition is_last (b : Z) : Prop := 0 <= b < 128.

Lemma vcont_spec u k : 0 <= k -> vcont u k = 128 + u / 2 ^ (k * 7) mod 128.
Proof. intros. unfold vcont. by rewrite lor_80_u8, shiftr_div by lia. Qed.

Lemma vlast_spec u k :
  0 <= k -> 0 <= u / 2 ^ (k * 7) < 128 -> vlast u k = u / 2 ^ (k * 7).
Proof. intros. unfold vlast. rewrite shiftr_div by lia. apply wrap_u_id. unfold is_u. lia. Qed.

Lemma div_pow7_S u k : 0 <= k -> u / 128 / 2 ^ (k * 7) = u / 2 ^ ((k + 1) * 7).
Proof.
  intros. rewrite Z.div_div by lia. f_equal.
  change 128 with (2 ^ 7). rewrite <-Z.pow_add_r by lia. f_equal. lia.
Qed.

(** The encoding of a number of [n + 1] groups, group by group. *)
Lemma leb128_unroll n : forall f u,
  (n < f)%nat -> 0 <= u < 2 ^ ((Z.of_nat n + 1) * 7) ->
  (n = 0%nat \/ 2 ^ (Z.of_nat n * 7) <= u) ->
  leb128_fuel f u
  = map (fun k => 128 + u / 2 ^ (Z.of_nat k * 7) mod 128) (seq 0 n) ++ [u / 2 ^ (Z.of_nat n * 7)].
Proof.
  induction n as [|n IH]; intros [|f] u Hf Hu Hn; try lia; cbn [leb128_fuel].
  - rewrite (proj2 (Z.ltb_lt u 128)) by lia. cbn. by rewrite Z.div_1_r.
  - destruct Hn as [|Hn]; [lia|].
    replace (Z.of_nat (S n)) with (Z.of_nat n + 1) in * by lia.
    assert (Hp : 2 ^ ((Z.of_nat n + 1) * 7) = 128 * 2 ^ (Z.of_nat n * 7)).
    { change 128 with (2 ^ 7). rewrite <-Z.pow_add_r by lia. f_equal. lia. }
    assert (Hp' : 2 ^ ((Z.of_nat n + 1 + 1) * 7) = 128 * 2 ^ ((Z.of_nat n + 1) * 7)).
    { change 128 with (2 ^ 7). rewrite <-Z.pow_add_r by lia. f_equal. lia. }
    rewrite (proj2 (Z.ltb_ge u 128)) by lia.
    rewrite (IH f (u / 128)); [|lia|split; dlia|].
    + cbn [seq map app]. rewrite Z.mul_0_l, Z.div_1_r. f_equal.
      rewrite div_pow7_S by lia. f_equal.
      rewrite <-seq_shift, map_map. apply map_ext. intros k.
      rewrite div_pow7_S by lia. do 4 f_equal. lia.
    + destruct n; [by left|right; dlia].
Qed.

(** Closes one case of the writer, for a number of [n + 1] groups. *)
Local Ltac leb_case n :=
  rewrite (leb128_unroll n) by (try lia; right; lia); cbn [seq map app]; simpl Z.of_nat;
  rewrite ?lor_80_u8, ?vcont_spec, ?vlast_spec by (try lia; cbn; dlia);
  repeat first [done | f_equal; rewrite ?Z.mul_0_l, ?Z.div_1_r; try done; try (cbn; dlia)].

(** The unrolled writer emits exactly the LEB128 encoding. *)
Lemma append_var_uint64_leb128 dst u : is_u64 u -> append_var_uint64 dst u = dst ++ leb128 u.
Proof.
  intros [Hu0 Hu]. unfold append_var_uint64, leb128. rewrite !Z.shiftl_1_l.
  repeat case_match; rewrite ?Z.ltb_lt, ?Z.ltb_ge, ?Z.geb_leb, ?Z.leb_le, ?Z.leb_gt in *.
  - rewrite (leb128_unroll 0) by lia. cbn. rewrite Z.div_1_r. by rewrite wrap_u_id by (unfold is_u; lia).
  - leb_case 1%nat.
  - leb_case 2%nat.
  - leb_case 8%nat.
  - leb_case 9%nat.
  - leb_case 3%nat.
  - leb_case 4%nat.
  - leb_case 5%nat.
  - leb_case 6%nat.
  - leb_case 7%nat.
Qed.

Lemma leb128_fuel_shape f u :
  0 <= u < 2 ^ (Z.of_nat f * 7) -> (0 < f)%nat ->
  exists bs l, leb128_fuel f u = bs ++ [l] /\ Forall is_cont bs /\ is_last l /\
    leb_value (bs ++ [l]) = u /\ (length bs < f)%nat /\
    l = u / 2 ^ (Z.of_nat (length bs) * 7) /\ (1 <= u -> 1 <= l).
Proof.
  revert u. induction f as [|f IH]; intros u Hu Hf; [lia|]. cbn [leb128_fuel].
  destruct (Z.ltb_spec u 128).
  - exists [], u. cbn. unfold is_last. rewrite Z.mod_small, Z.div_1_r by lia.
    split_and!; try done; try lia; constructor.
  - assert (Hp : 2 ^ (Z.of_nat (S f) * 7) = 128 * 2 ^ (Z.of_nat f * 7)).
    { change 128 with (2 ^ 7). rewrite <-Z.pow_add_r by lia. f_equal. lia. }
    assert ((0 < f)%nat) by (destruct f; cbn in *; lia).
    destruct (IH (u / 128)) as (bs & l & -> & Hbs & Hl & Hv & Hlen & Hlast & Hpos); [dlia|done|].
    pose proof (Z.mod_pos_bound u 128 eq_refl).
    exists ((128 + u mod 128) :: bs), l. cbn [app leb_value length].
    split_and!; try done; try lia.
    + constructor; [unfold is_cont; lia|done].
    + rewrite Hv. dlia.
    + rewrite Hlast at 1. rewrite div_pow7_S by lia. do 3 f_equal. lia.
    + intros. apply Hpos. dlia.
Qed.

(** [enc] is a varint that stands for [u]: at most ten bytes, the tenth being 1. *)
Definition varint_of (u : Z) (enc : list Z) : Prop :=
  exists bs l, enc = bs ++ [l] /\ Forall is_cont bs /\ is_last l /\
    leb_value (bs ++ [l]) = u /\ (length bs <= 9)%nat /\ (length bs = 9%nat -> l = 1).

Lemma leb128_shape u : is_u64 u -> varint_of u (leb128 u).
Proof.
  intros [Hu0 Hu].
  destruct (leb128_fuel_shape 10 u) as (bs & l & Heq & Hbs & Hl & Hv & Hlen & Hlast & Hpos);
    [cbn; lia|lia|].
  exists bs, l. split_and!; try done; try lia. intros H9. rewrite H9 in Hlast. cbn in Hlast.
  assert (l <= 1) by dlia.
  destruct (decide (u = 0)) as [->|]; [|lia]. unfold leb128 in *. cbn in Heq.
  apply (f_equal length) in Heq. rewrite length_app, H9 in Heq. done.
Qed.

Lemma leb_value_nonneg bs : 0 <= leb_value bs.
Proof.
  induction bs as [|b bs IH]; cbn; [lia|]. pose proof (Z.mod_pos_bound b 128 eq_refl). lia.
Qed.

Lemma leb_value_bound bs : leb_value bs < 2 ^ (Z.of_nat (length bs) * 7).
Proof.
  induction bs as [|b bs IH]; cbn [leb_value length]; [done|].
  pose proof (Z.mod_pos_bound b 128 eq_refl).
  replace (Z.of_nat (S (length bs)) * 7) with (7 + Z.of_nat (length bs) * 7) by lia.
  rewrite Z.pow_add_r by lia. change (2 ^ 7) with 128. lia.
Qed.

(** ** Reader lemmas *)

Lemma land_7f c : Z.land c 0x7f = c mod 128.
Proof. by apply (land_ones_mod c 7). Qed.

Lemma low7_spec c k : 0 <= k <= 8 -> low7 c k = c mod 128 * 2 ^ (k * 7).
Proof.
  intros Hk. unfold low7. rewrite land_7f. pose proof (Z.mod_pos_bound c 128 eq_refl).
  assert (2 ^ (k * 7) <= 2 ^ 56) by (apply Z.pow_le_mono_r; lia).
  apply u64_shl_small; [lia..|]. nia.
Qed.

Lemma full7_spec c k : 0 <= k <= 8 -> is_last c -> full7 c k = c mod 128 * 2 ^ (k * 7).
Proof.
  intros Hk [Hc1 Hc2]. unfold full7. rewrite Z.mod_small by done.
  assert (2 ^ (k * 7) <= 2 ^ 56) by (apply Z.pow_le_mono_r; lia).
  apply u64_shl_small; [lia..|]. nia.
Qed.

(** Reads the bytes [bs ++ l :: tail] found at offset [idx]. *)
Lemma lookup_at (src : list Z) idx k rest : drop idx src = rest -> src !! (idx + k)%nat = rest !! k.
Proof. intros <-. by rewrite lookup_drop. Qed.

Lemma scan_end_spec bs l tail i :
  Forall is_cont bs -> is_last l -> scan_end (bs ++ l :: tail) i = Some (i + length bs + 1)%nat.
Proof.
  intros Hbs [Hl1 Hl2]. revert i. induction Hbs as [|b bs [Hb1 Hb2] Hbs IH]; intros i; cbn.
  - rewrite (proj2 (Z.ltb_lt l 128)) by done. f_equal. lia.
  - rewrite (proj2 (Z.ltb_ge b 128)) by done. rewrite IH. f_equal. lia.
Qed.

(** Turns the OR of 7-bit groups into their sum, from the lowest group up. *)
Local Ltac or_step k :=
  try match goal with
  | |- context [Z.lor ?x (?y * 2 ^ (k * 7))] => rewrite (lor_shifted x y (k * 7)) by lia
  end.
Local Ltac or_sum :=
  rewrite ?low7_spec, ?full7_spec by (done || lia); cbn [app leb_value];
  repeat match goal with
  | |- context [?c mod 128] =>
      let g := fresh "g" in let Hg := fresh "Hg" in
      pose proof (Z.mod_pos_bound c 128 eq_refl) as Hg; set (g := c mod 128) in *; clearbody g
  end;
  rewrite ?Z.lor_assoc;
  or_step 1; or_step 2; or_step 3; or_step 4; or_step 5; or_step 6; or_step 7; or_step 8; or_step 9;
  try lia.

(** The unrolled [match b.len()]: up to seven groups it adds them up. *)
Lemma slow_tail_spec bs l :
  Forall is_cont bs -> is_last l -> (length bs <= 6)%nat -> (length bs = 6%nat -> l = 1) ->
  exists t, slow_tail (bs ++ [l]) = Ok t /\
    forall u, 0 <= u < 2 ^ 21 -> Z.lor u t = u + leb_value (bs ++ [l]) * 2 ^ 21.
Proof.
  intros Hbs Hl Hlen Hlast.
  do 6 (destruct bs as [|? bs]; [eexists; split; [reflexivity|]; intros u Hu; or_sum|]).
  destruct bs as [|? bs]; [|cbn in Hlen; lia]. rewrite Hlast by done.
  eexists; split; [reflexivity|]. intros u Hu.
  change (u64_shl 1 (9 * 7)) with (1 * 2 ^ (9 * 7)). cbn [app leb_value].
  change (1 mod 128) with 1. or_sum.
Qed.

Lemma cont_ltb b : is_cont b -> (b <? 0x80) = false.
Proof. unfold is_cont. lia. Qed.
Lemma last_ltb b : is_last b -> (b <? 0x80) = true.
Proof. unfold is_last. lia. Qed.

(** Evaluates a lookup at a literal position of a literal prefix. *)
Local Ltac lk :=
  repeat match goal with
  | |- context [@lookup ?K ?A ?M ?i ?n (?x ++ ?y)] =>
      let v := eval simpl in (@lookup K A M i n (x ++ y)) in
      progress change (@lookup K A M i n (x ++ y)) with v
  end; cbv iota beta zeta.

(** The per-byte reader decodes a varint of at most ten bytes. *)
Lemma read_var_uint64_slow_spec src idx bs l tail :
  drop idx src = bs ++ l :: tail -> Forall is_cont bs -> is_last l ->
  (length bs <= 9)%nat -> (length bs = 9%nat -> l = 1) ->
  read_var_uint64_slow src idx = Ok (leb_value (bs ++ [l]), (idx + length bs + 1)%nat).
Proof.
  intros Hsrc Hbs Hl Hlen Hlast. unfold read_var_uint64_slow.
  assert (Hat : forall k, src !! (idx + k)%nat = (bs ++ l :: tail) !! k)
    by (intros; by apply lookup_at).
  replace idx with (idx + 0)%nat at 1 by lia. rewrite Hat.
  replace (S idx) with (idx + 1)%nat by lia. rewrite Hat.
  replace (S (idx + 1)) with (idx + 2)%nat by lia. rewrite Hat.
  replace (S (idx + 2)) with (idx + 3)%nat by lia.
  destruct bs as [|c bs]; lk.
  { rewrite last_ltb by done. cbn. rewrite Z.mod_small by (unfold is_last in *; lia).
    do 2 f_equal; lia. }
  inversion Hbs as [|? ? Hc Hbs1]; subst. rewrite cont_ltb by done.
  destruct bs as [|d bs]; lk.
  { rewrite last_ltb, land_7f by done. f_equal. f_equal; [or_sum|cbn; lia]. }
  inversion Hbs1 as [|? ? Hd Hbs2]; subst. rewrite cont_ltb by done.
  destruct bs as [|e bs]; lk.
  { rewrite last_ltb, land_7f by done. f_equal. f_equal; [or_sum|cbn; lia]. }
  inversion Hbs2 as [|? ? He Hbs3]; subst. rewrite cont_ltb by done.
  assert (Hd3 : drop (idx + 3) src = bs ++ l :: tail) by (rewrite <-drop_drop, Hsrc; done).
  rewrite Hd3, scan_end_spec by done.
  replace (idx + 3 + length bs + 1 - (idx + 3))%nat with (length bs + 1)%nat by lia.
  replace (take (length bs + 1) (bs ++ l :: tail)) with (bs ++ [l]).
  2:{ rewrite take_app_add by done. done. }
  cbn in Hlen, Hlast.
  destruct (slow_tail_spec bs l) as (t & -> & Ht); [done..|lia|intros; apply Hlast; lia|].
  cbn [mbind res_bind]. f_equal. f_equal; [|cbn; lia].
  rewrite land_7f. rewrite Ht; [or_sum|].
  all: rewrite ?land_7f; or_sum.
Qed.

(** ** The word-at-a-time reader *)

(** Bitwise AND works independently on the low [s] bits and on the rest. *)
Lemma testbit_split x y s n :
  0 <= s -> 0 <= x < 2 ^ s ->
  Z.testbit (x + y * 2 ^ s) n = if decide (n < s) then Z.testbit x n else Z.testbit y (n - s).
Proof.
  intros Hs Hx. rewrite <-lor_shifted, Z.lor_spec by done. case_decide.
  - rewrite Z.mul_pow2_bits_low by done. by rewrite orb_false_r.
  - rewrite Z.mul_pow2_bits by done.
    rewrite <-(Z.mod_small x (2 ^ s)) by done. by rewrite Z.mod_pow2_bits_high by lia.
Qed.

Lemma land_split x y x' y' s :
  0 <= s -> 0 <= x < 2 ^ s -> 0 <= x' < 2 ^ s ->
  Z.land (x + y * 2 ^ s) (x' + y' * 2 ^ s) = Z.land x x' + Z.land y y' * 2 ^ s.
Proof.
  intros Hs Hx Hx'.
  assert (0 <= Z.land x x' < 2 ^ s).
  { rewrite <-(Z.mod_small x (2 ^ s)), <-(Z.land_ones x) by lia.
    rewrite <-Z.land_assoc, (Z.land_comm (Z.ones s)), Z.land_assoc, Z.land_ones by lia.
    apply Z.mod_pos_bound. lia. }
  apply Z.bits_inj'. intros n Hn. rewrite Z.land_spec, !testbit_split by done.
  case_decide; by rewrite Z.land_spec.
Qed.

Lemma from_le_bytes_bound bs : bytes bs -> 0 <= from_le_bytes bs < 2 ^ (8 * Z.of_nat (length bs)).
Proof.
  induction 1 as [|b bs [Hb1 Hb2] Hbs IH]; cbn [from_le_bytes length]; [done|].
  replace (8 * Z.of_nat (S (length bs))) with (8 + 8 * Z.of_nat (length bs)) by lia.
  rewrite Z.pow_add_r by lia. change (2 ^ 8) with 256 in *. lia.
Qed.

Lemma from_le_bytes_shiftr bs k :
  bytes bs -> Z.shiftr (from_le_bytes bs) (8 * Z.of_nat k) = from_le_bytes (drop k bs).
Proof.
  intros Hbs. revert k. induction Hbs as [|b bs [Hb1 Hb2] Hbs IH]; intros k.
  { rewrite drop_nil. apply Z.shiftr_0_l. }
  destruct k as [|k].
  - apply Z.shiftr_0_r.
  - cbn [drop from_le_bytes]. rewrite <-IH.
    replace (8 * Z.of_nat (S k)) with (8 + 8 * Z.of_nat k) by lia.
    rewrite <-Z.shiftr_shiftr by lia. f_equal. rewrite shiftr_div by lia.
    change (2 ^ 8) with 256 in *. dlia.
Qed.

Lemma from_le_bytes_low7 bs : Z.land (from_le_bytes bs) 0x7f = default 0 (head bs) mod 128.
Proof. rewrite land_7f. destruct bs as [|b bs]; [done|]. cbn. dlia. Qed.

(** The stop word has 0x80 in every byte that ends a varint. *)
Definition stop_byte (b : Z) : Z := if b <? 0x80 then 0x80 else 0.

Lemma stop_byte_land b : is_u8 b -> Z.land (255 - b) 0x80 = stop_byte b.
Proof.
  intros [Hb1 Hb2]. unfold stop_byte. change (2 ^ 8) with 256 in *.
  change 0x80 with (0 + 1 * 2 ^ 7) at 1.
  destruct (Z.ltb_spec b 0x80).
  - replace (255 - b) with (127 - b + 1 * 2 ^ 7) by lia. rewrite land_split by lia.
    by rewrite Z.land_0_r.
  - replace (255 - b) with (255 - b + 0 * 2 ^ 7) by lia. rewrite land_split by lia.
    by rewrite Z.land_0_r.
Qed.

Lemma stop_word bs :
  bytes bs ->
  Z.land (Z.lnot (from_le_bytes bs)) (from_le_bytes (replicate (length bs) 0x80))
  = from_le_bytes (map stop_byte bs).
Proof.
  induction 1 as [|b bs Hb Hbs IH]; cbn [from_le_bytes length replicate map]; [done|].
  rewrite <-IH, <-stop_byte_land by done.
  replace (Z.lnot (b + 256 * from_le_bytes bs)) with (255 - b + Z.lnot (from_le_bytes bs) * 2 ^ 8)
    by (unfold Z.lnot; lia).
  rewrite (Z.mul_comm 256 (from_le_bytes (replicate _ _))). change 256 with (2 ^ 8).
  unfold is_u in Hb. rewrite land_split by lia. lia.
Qed.

Lemma land_wrap_u64 x m : is_u64 m -> Z.land (as_u64 x) m = Z.land x m.
Proof.
  intros Hm. unfold wrap_u. rewrite <-Z.land_ones by lia.
  rewrite <-Z.land_assoc, (Z.land_comm (Z.ones 64)), Z.land_ones by lia.
  by rewrite Z.mod_small.
Qed.

Lemma trailing_zeros_double n x : trailing_zeros (S n) (2 * x) = S (trailing_zeros n x).
Proof. cbn [trailing_zeros]. by rewrite Z.odd_mul, Z.div2_div, Z.mul_comm, Z.div_mul. Qed.

Lemma trailing_zeros_cont n x : trailing_zeros (8 + n) (256 * x) = (8 + trailing_zeros n x)%nat.
Proof.
  replace (256 * x) with (2 * (2 * (2 * (2 * (2 * (2 * (2 * (2 * x)))))))) by lia.
  cbn [Nat.add]. by rewrite !trailing_zeros_double.
Qed.

Lemma trailing_zeros_stop n x : trailing_zeros (8 + n) (128 + 256 * x) = 7%nat.
Proof.
  replace (128 + 256 * x) with (2 * (2 * (2 * (2 * (2 * (2 * (2 * (1 + 2 * x)))))))) by lia.
  cbn [Nat.add]. rewrite !trailing_zeros_double. cbn [trailing_zeros].
  by rewrite Z.odd_add, Z.odd_mul.
Qed.

Lemma trailing_zeros_stop_word bs l tail :
  Forall is_cont bs -> is_last l ->
  trailing_zeros (8 * (length bs + 1 + length tail)) (from_le_bytes (map stop_byte (bs ++ l :: tail)))
  = (8 * length bs + 7)%nat.
Proof.
  intros Hbs Hl. induction Hbs as [|b bs Hb Hbs IH]; cbn [app map from_le_bytes length].
  - unfold stop_byte at 1. rewrite last_ltb by done.
    replace (8 * (0 + 1 + length tail))%nat with (8 + 8 * length tail)%nat by lia.
    apply trailing_zeros_stop.
  - unfold stop_byte at 1. rewrite cont_ltb, Z.add_0_l by done.
    replace (8 * (S (length bs) + 1 + length tail))%nat
      with (8 + 8 * (length bs + 1 + length tail))%nat by lia.
    rewrite trailing_zeros_cont, IH. lia.
Qed.

Lemma from_le_stop_nonneg l : 0 <= from_le_bytes (map stop_byte l).
Proof. induction l as [|b l IH]; cbn [map from_le_bytes]; [lia|]. unfold stop_byte at 1. case_match; lia. Qed.

(** A window without a final byte has an empty stop word, and conversely. *)
Lemma stop_word_zero bs :
  from_le_bytes (map stop_byte bs) = 0 -> Forall (fun b => b <? 0x80 = false) bs.
Proof.
  induction bs as [|b bs IH]; cbn [map from_le_bytes]; [constructor|]. intros H.
  pose proof (from_le_stop_nonneg bs). unfold stop_byte in H at 1. case_match; [lia|].
  constructor; [done|apply IH; lia].
Qed.

(** The loop ORs the 7-bit groups of the bytes [k .. k + n) of the window. *)
Lemma swar_loop_spec bs n (k : nat) u :
  bytes bs -> (k + n <= length bs)%nat -> (k + n <= 9)%nat -> 0 <= u < 2 ^ (7 * Z.of_nat k) ->
  swar_loop (from_le_bytes bs) n (Z.of_nat k) u
  = u + leb_value (take n (drop k bs)) * 2 ^ (7 * Z.of_nat k).
Proof.
  intros Hbs. revert k u. induction n as [|n IH]; intros k u Hk H9 Hu; cbn [swar_loop].
  { rewrite take_0. cbn. lia. }
  destruct (drop k bs) as [|b rest] eqn:Hd.
  { apply (f_equal length) in Hd. rewrite length_drop in Hd. cbn in Hd. lia. }
  assert (Hd' : drop (S k) bs = rest).
  { replace (S k) with (k + 1)%nat by lia. by rewrite <-drop_drop, Hd. }
  rewrite from_le_bytes_shiftr, Hd, from_le_bytes_low7 by done. cbn [head default].
  pose proof (Z.mod_pos_bound b 128 eq_refl) as Hg. cbn [from_option id].
  assert (Hp : 2 ^ (7 * Z.of_nat (S k)) = 128 * 2 ^ (7 * Z.of_nat k)).
  { change 128 with (2 ^ 7). rewrite <-Z.pow_add_r by lia. f_equal. lia. }
  assert (2 ^ (7 * Z.of_nat k) <= 2 ^ 56) by (apply Z.pow_le_mono_r; lia).
  rewrite u64_shl_small by nia. rewrite lor_shifted by lia.
  replace (Z.of_nat k + 1) with (Z.of_nat (S k)) by lia.
  rewrite IH, Hd' by (lia || nia). cbn [take leb_value]. rewrite Hp. ring.
Qed.

(** A byte string either contains a final byte or only continuation bytes. *)
Lemma split_varint ws :
  bytes ws ->
  (exists bs l tail, ws = bs ++ l :: tail /\ Forall is_cont bs /\ is_last l) \/ Forall is_cont ws.
Proof.
  unfold is_cont, is_last. induction 1 as [|b ws [Hb1 Hb2] Hws IH]; [right; constructor|].
  change (2 ^ 8) with 256 in *. destruct (decide (b < 128)).
  - left. exists [], b, ws. by split_and!.
  - destruct IH as [(bs & l & tail & -> & Hbs & Hl)|Hall].
    + left. exists (b :: bs), l, tail. split_and!; try done; try apply Hl. constructor; [lia|done].
    + right. constructor; [lia|done].
Qed.

Lemma stop_word8 ws :
  bytes ws -> length ws = 8%nat ->
  Z.land (as_u64 (Z.lnot (from_le_bytes ws))) 0x8080808080808080 = from_le_bytes (map stop_byte ws).
Proof.
  intros Hws H8. rewrite land_wrap_u64 by done. rewrite <-stop_word, H8 by done. done.
Qed.

(** On a window that holds a complete varint the SWAR path reads exactly it. *)
Lemma read_fast_window src idx bs l tail :
  bytes src -> (idx + 8 <= length src)%nat ->
  take 8 (drop idx src) = bs ++ l :: tail -> Forall is_cont bs -> is_last l ->
  read_var_uint64_fast src idx = Ok (leb_value (bs ++ [l]), (idx + length bs + 1)%nat).
Proof.
  intros Hsrc Hlen Hw Hbs Hl. unfold read_var_uint64_fast. rewrite decide_True by done.
  assert (Hbw : bytes (take 8 (drop idx src))) by auto with esm.
  assert (Hl8 : length (take 8 (drop idx src)) = 8%nat) by (rewrite length_take, length_drop; lia).
  rewrite stop_word8 by done. rewrite Hw in *. rewrite length_app in Hl8. cbn in Hl8.
  pose proof (trailing_zeros_stop_word bs l tail Hbs Hl) as Htz.
  replace (8 * (length bs + 1 + length tail))%nat with 64%nat in Htz by lia.
  destruct (Z.eqb_spec (from_le_bytes (map stop_byte (bs ++ l :: tail))) 0) as [E|_].
  { rewrite E in Htz. change (trailing_zeros 64 0) with 64%nat in Htz. lia. }
  rewrite Htz. replace ((8 * length bs + 7) / 8)%nat with (length bs).
  2:{ apply (Nat.div_unique _ _ _ 7); lia. }
  replace (length bs + 1 - 1)%nat with (length bs) by lia.
  rewrite from_le_bytes_low7. change 1 with (Z.of_nat 1) at 1.
  f_equal. f_equal; [|lia].
  rewrite swar_loop_spec; [|done|rewrite length_app; cbn; lia|lia|cbn; by apply Z.mod_pos_bound].
  destruct bs as [|b bs]; cbn [app head drop leb_value length from_option id].
  { rewrite take_0. cbn [leb_value]. lia. }
  rewrite drop_0. replace (take (S (length bs)) (bs ++ l :: tail)) with (bs ++ [l]).
  2:{ replace (S (length bs)) with (length bs + 1)%nat by lia. by rewrite take_app_add. }
  change (2 ^ (7 * Z.of_nat 1)) with 128. cbn [from_option id]. ring.
Qed.

(** The SWAR reader and the per-byte reader agree on every input. *)
Lemma read_fast_eq_slow src idx :
  bytes src -> read_var_uint64_fast src idx = read_var_uint64_slow src idx.
Proof.
  intros Hsrc. destruct (decide (idx + 8 <= length src)%nat) as [Hlen|Hlen].
  2:{ unfold read_var_uint64_fast. by rewrite decide_False. }
  assert (Hbw : bytes (take 8 (drop idx src))) by auto with esm.
  destruct (split_varint _ Hbw) as [(bs & l & tail & Hw & Hbs & Hl)|Hall].
  - rewrite (read_fast_window src idx bs l tail) by done.
    assert (length (bs ++ l :: tail) = 8%nat)
      by (rewrite <-Hw, length_take, length_drop; lia).
    rewrite length_app in *. cbn in *.
    symmetry. apply (read_var_uint64_slow_spec _ _ _ _ (tail ++ drop 8 (drop idx src))); try done; try lia.
    rewrite <-(take_drop 8 (drop idx src)) at 1. rewrite Hw. by rewrite <-app_assoc.
  - unfold read_var_uint64_fast. rewrite decide_True by done.
    rewrite stop_word8 by (done || rewrite length_take, length_drop; lia).
    replace (from_le_bytes (map stop_byte (take 8 (drop idx src)))) with 0; [done|].
    clear -Hall. induction Hall as [|b bs Hb Hbs IH]; cbn [map from_le_bytes]; [done|].
    rewrite <-IH. unfold stop_byte. by rewrite cont_ltb.
Qed.

(** ** [uvarint] *)

Lemma uvarint_loop_spec bs l tail i x :
  Forall is_cont bs -> is_last l -> (i + length bs <= 9)%nat -> ((i + length bs)%nat = 9%nat -> l <= 1) ->
  0 <= x < 2 ^ (7 * Z.of_nat i) ->
  uvarint_loop (bs ++ l :: tail) i x (7 * Z.of_nat i)
  = (x + leb_value (bs ++ [l]) * 2 ^ (7 * Z.of_nat i), Z.of_nat (i + length bs + 1)).
Proof.
  intros Hbs Hl. revert i x. induction Hbs as [|b bs Hb Hbs IH]; intros i x Hi Hlast Hx;
    cbn [app uvarint_loop length leb_value].
  - rewrite (proj2 (Nat.eqb_neq i 10)) by (cbn in Hi; lia).
    rewrite last_ltb by done. rewrite Nat.add_0_r in *. destruct Hl as [Hl1 Hl2].
    assert (Hsh : l * 2 ^ (7 * Z.of_nat i) < 2 ^ 64).
    { destruct (decide (i = 9)%nat) as [->|]; [specialize (Hlast eq_refl); cbn; lia|].
      assert (2 ^ (7 * Z.of_nat i) <= 2 ^ 56) by (apply Z.pow_le_mono_r; lia). nia. }
    replace ((i =? 9)%nat && (l >? 1)) with false.
    2:{ symmetry. apply andb_false_iff. destruct (Nat.eqb_spec i 9); [right|by left].
        specialize (Hlast e). lia. }
    rewrite u64_shl_small by lia. rewrite lor_shifted by lia.
    rewrite (Z.mod_small l) by lia. f_equal. ring.
  - cbn in Hi. rewrite (proj2 (Nat.eqb_neq i 10)) by lia. rewrite cont_ltb, land_7f by done.
    pose proof (Z.mod_pos_bound b 128 eq_refl).
    assert (2 ^ (7 * Z.of_nat i) <= 2 ^ 56) by (apply Z.pow_le_mono_r; lia).
    assert (Hp : 2 ^ (7 * Z.of_nat (S i)) = 128 * 2 ^ (7 * Z.of_nat i)).
    { change 128 with (2 ^ 7). rewrite <-Z.pow_add_r by lia. f_equal. lia. }
    rewrite u64_shl_small by nia. rewrite lor_shifted by lia.
    replace (7 * Z.of_nat i + 7) with (7 * Z.of_nat (S i)) by lia.
    rewrite IH; [|lia|intros; apply Hlast; cbn; lia|nia].
    rewrite Hp. f_equal; [ring|lia].
Qed.

Lemma uvarint_spec bs l tail :
  Forall is_cont bs -> is_last l -> (length bs <= 9)%nat -> (length bs = 9%nat -> l <= 1) ->
  uvarint (bs ++ l :: tail) = (leb_value (bs ++ [l]), Z.of_nat (length bs + 1)).
Proof.
  intros Hbs Hl Hlen Hlast. unfold uvarint.
  etransitivity; [apply (uvarint_loop_spec bs l tail 0 0); try done; lia|]. f_equal. cbn. lia.
Qed.

(** The one- and two-byte fast paths do not change the answer. *)
Lemma unmarshal_var_uint64_uvarint src :
  bytes src ->
  unmarshal_var_uint64 src
  = let '(u, n_size) := uvarint src in if n_size <=? 0 then None else Some (u, Z.to_nat n_size).
Proof.
  unfold unmarshal_var_uint64. intros Hsrc. destruct src as [|c src]; [done|].
  inversion_clear Hsrc as [|? ? [Hc1 Hc2] Hs]. change (2 ^ 8) with 256 in *.
  destruct (Z.ltb_spec c 0x80) as [Hc|Hc].
  { pose proof (uvarint_spec [] c src) as Hu. cbn [app] in Hu.
    rewrite Hu by (unfold is_last; try constructor; cbn; lia).
    cbn [leb_value length]. by rewrite Z.mod_small, Z.mul_0_r, Z.add_0_r by lia. }
  destruct src as [|d src].
  { unfold uvarint. cbn. by rewrite (proj2 (Z.ltb_ge c 128)) by done. }
  inversion_clear Hs as [|? ? [Hd1 Hd2] _]. change (2 ^ 8) with 256 in *.
  destruct (Z.ltb_spec d 0x80); [|done].
  pose proof (uvarint_spec [c] d src) as Hu. cbn [app] in Hu.
  rewrite Hu by (unfold is_last, is_cont; repeat constructor; cbn; lia).
  rewrite land_7f, u64_shl_small by lia.
  rewrite lor_shifted by (pose proof (Z.mod_pos_bound c 128); lia).
  cbn [leb_value length]. rewrite (Z.mod_small d) by lia.
  change (Z.of_nat (1 + 1) <=? 0) with false. cbv iota. do 2 f_equal. lia.
Qed.

(** ** Round trips *)

(** Reading back any varint that stands for a number. *)
Lemma uvarint_varint u enc tail :
  varint_of u enc -> uvarint (enc ++ tail) = (u, Z.of_nat (length enc)).
Proof.
  intros (bs & l & -> & Hbs & Hl & Hv & Hlen & Hlast).
  rewrite <-app_assoc. cbn [app]. rewrite uvarint_spec, Hv; try done.
  - by rewrite length_app.
  - intros H9. by rewrite Hlast.
Qed.

Lemma varint_of_length u enc : varint_of u enc -> (1 <= length enc <= 10)%nat.
Proof. intros (bs & l & -> & ? & ? & ? & ? & ?). rewrite length_app. cbn. lia. Qed.

Lemma varint_of_bytes u enc : varint_of u enc -> bytes enc.
Proof.
  intros (bs & l & -> & Hbs & [Hl1 Hl2] & _). apply bytes_app. split.
  - revert Hbs. apply Forall_weaken. unfold is_cont, is_u. cbn. lia.
  - constructor; [unfold is_u; lia|constructor].
Qed.

Lemma uvarint_leb128 u tail :
  is_u64 u -> uvarint (leb128 u ++ tail) = (u, Z.of_nat (length (leb128 u))).
Proof. intros. by apply uvarint_varint, leb128_shape. Qed.

Lemma leb128_nonempty u : is_u64 u -> (1 <= length (leb128 u) <= 10)%nat.
Proof. intros. by apply (varint_of_length u), leb128_shape. Qed.

Lemma leb128_bytes u : is_u64 u -> bytes (leb128 u).
Proof. intros. by apply (varint_of_bytes u), leb128_shape. Qed.
#[export] Hint Resolve leb128_bytes : esm.

Lemma leb128_small u : 0 <= u < 128 -> leb128 u = [u].
Proof. intros. unfold leb128. cbn. by rewrite (proj2 (Z.ltb_lt u 128)) by lia. Qed.

Lemma leb128_big_head u : is_u64 u -> 128 <= u -> exists b rest, leb128 u = b :: rest /\ is_cont b.
Proof.
  intros [? ?] Hu. unfold leb128. cbn [leb128_fuel]. rewrite (proj2 (Z.ltb_ge u 128)) by lia.
  eexists _, _. split; [reflexivity|]. unfold is_cont. pose proof (Z.mod_pos_bound u 128). lia.
Qed.

Lemma unmarshal_var_uint64_leb128 u tail :
  is_u64 u -> bytes tail -> unmarshal_var_uint64 (leb128 u ++ tail) = Some (u, length (leb128 u)).
Proof.
  intros Hu Ht. rewrite unmarshal_var_uint64_uvarint by (apply bytes_app; auto with esm).
  rewrite uvarint_leb128 by done. pose proof (leb128_nonempty u Hu).
  rewrite (proj2 (Z.leb_gt _ 0)) by lia. by rewrite Nat2Z.id.
Qed.

(** The single-value writer is LEB128 too, except that [-64], whose zig-zag
    image 127 fits one byte, is written as the two bytes FF 00. *)
Lemma marshal_var_int64_leb128 dst v :
  is_i64 v ->
  marshal_var_int64 dst v
  = dst ++ if decide (v = -64) then [0xff; 0] else leb128 (zigzag_encode v).
Proof.
  intros Hv. case_decide as H64; [by subst|].
  pose proof (zigzag_encode_range v) as Hr. pose proof (zigzag_encode_spec v Hv) as Hs.
  rewrite <-append_var_uint64_leb128 by done. unfold marshal_var_int64, append_var_uint64.
  rewrite !Z.shiftl_1_l. destruct ((v <? 2 ^ 6) && (v >? - 2 ^ 6)) eqn:H.
  - rewrite (proj2 (Z.ltb_lt _ (2 ^ 7))); [done|]. rewrite Hs. case_decide; lia.
  - rewrite (proj2 (Z.ltb_ge _ (2 ^ 7))); [by repeat case_match|].
    rewrite Hs. case_decide; lia.
Qed.

Lemma marshal_var_int64_varint v : is_i64 v -> varint_of (zigzag_encode v) (marshal_var_int64 [] v).
Proof.
  intros Hv. rewrite marshal_var_int64_leb128 by done. cbn [app].
  case_decide as H64; [|by apply leb128_shape; auto with esm].
  subst. exists [0xff], 0. split_and!; try done; cbn; try lia.
  repeat constructor; unfold is_cont; lia.
Qed.

Lemma marshal_var_int64_dst dst v : is_i64 v -> marshal_var_int64 dst v = dst ++ marshal_var_int64 [] v.
Proof. intros. by rewrite !marshal_var_int64_leb128. Qed.

Lemma unmarshal_var_int64_app v tail :
  is_i64 v ->
  unmarshal_var_int64 (marshal_var_int64 [] v ++ tail) = Some (v, length (marshal_var_int64 [] v)).
Proof.
  intros Hv. pose proof (marshal_var_int64_varint v Hv) as Hvar. unfold unmarshal_var_int64.
  rewrite (uvarint_varint _ _ _ Hvar). pose proof (varint_of_length _ _ Hvar).
  rewrite (proj2 (Z.leb_gt _ 0)) by lia. by rewrite Nat2Z.id, zigzag_roundtrip.
Qed.

(** The batch writers concatenate the encodings, whichever path they take. *)
Lemma marshal_var_uint64s_leb128 dst us :
  Forall is_u64 us -> marshal_var_uint64s dst us = dst ++ concat (map leb128 us).
Proof.
  intros Hus. unfold marshal_var_uint64s.
  assert (Hslow : forall d, marshal_var_uint64s_slow d us = d ++ concat (map leb128 us)).
  { unfold marshal_var_uint64s_slow. clear dst. induction Hus as [|u us Hu Hus IH]; intros d; cbn.
    - by rewrite app_nil_r.
    - rewrite IH, append_var_uint64_leb128 by done. by rewrite <-app_assoc. }
  destruct (marshal_var_uint64s_fast dst us) as [d|] eqn:Hf; [|apply Hslow].
  clear Hslow. revert dst Hf. induction Hus as [|u us Hu Hus IH]; intros dst; cbn.
  - intros [= ->]. by rewrite app_nil_r.
  - destruct (Z.geb_spec u (Z.shiftl 1 7)) as [|Hlt]; [done|]. rewrite Z.shiftl_1_l in Hlt.
    destruct Hu. intros Hf. rewrite (IH _ Hf), leb128_small, wrap_u_id by (unfold is_u; lia).
    by rewrite <-app_assoc.
Qed.

Lemma marshal_var_int64s_leb128 dst vs :
  Forall is_i64 vs ->
  marshal_var_int64s dst vs = dst ++ concat (map leb128 (map zigzag_encode vs)).
Proof.
  intros Hvs. unfold marshal_var_int64s.
  assert (Hslow : forall d, marshal_var_int64s_slow d vs
    = d ++ concat (map leb128 (map zigzag_encode vs))).
  { unfold marshal_var_int64s_slow. clear dst. induction Hvs as [|v vs Hv Hvs IH]; intros d; cbn.
    - by rewrite app_nil_r.
    - rewrite IH, append_var_uint64_leb128 by auto with esm. by rewrite <-app_assoc. }
  destruct (marshal_var_int64s_fast dst vs) as [d|] eqn:Hf; [|apply Hslow].
  clear Hslow. revert dst Hf. induction Hvs as [|v vs Hv Hvs IH]; intros dst; cbn.
  - intros [= ->]. by rewrite app_nil_r.
  - rewrite !Z.shiftl_1_l. destruct ((v >=? 2 ^ 6) || (v <=? - 2 ^ 6)) eqn:Hlt; [done|].
    assert (0 <= zigzag_encode v < 128) by (rewrite zigzag_encode_spec by done; case_decide; lia).
    intros Hf. rewrite (IH _ Hf), leb128_small, wrap_u_id by (unfold is_u; lia).
    by rewrite <-app_assoc.
Qed.

(** A sequence of varints that stand for [us]. *)
Definition varints_of : list Z -> list (list Z) -> Prop := Forall2 varint_of.

Lemma varints_of_leb128 us : Forall is_u64 us -> varints_of us (map leb128 us).
Proof. induction 1; constructor; [by apply leb128_shape|done]. Qed.

Lemma varints_of_length us encs : varints_of us encs -> (length us <= length (concat encs))%nat.
Proof.
  induction 1 as [|u enc us encs Hu Hus IH]; cbn; [lia|].
  pose proof (varint_of_length _ _ Hu). rewrite length_app. lia.
Qed.

Lemma varints_of_bytes us encs : varints_of us encs -> bytes (concat encs).
Proof.
  induction 1; cbn; [constructor|]. apply bytes_app. split; [by eapply varint_of_bytes|done].
Qed.

Lemma read_many_varints dec us encs src pre tail :
  varints_of us encs -> bytes src -> src = pre ++ concat encs ++ tail ->
  read_many dec (length us) src (length pre)
  = Ok (map dec us, (length pre + length (concat encs))%nat).
Proof.
  intros Hus Hsrc. revert pre. induction Hus as [|u enc us encs Hu Hus IH]; intros pre Heq; cbn.
  { by rewrite Nat.add_0_r. }
  rewrite read_fast_eq_slow by done.
  destruct Hu as (bs & l & -> & Hbs & Hl & Hv & Hlen & Hlast).
  cbn in Heq. rewrite <-!app_assoc in Heq.
  rewrite (read_var_uint64_slow_spec _ _ bs l (concat encs ++ tail)); try done.
  2:{ rewrite Heq. by rewrite drop_app_length. }
  cbn [mbind res_bind]. rewrite Hv.
  replace (length pre + length bs + 1)%nat with (length (pre ++ bs ++ [l]))
    by (rewrite !length_app; cbn; lia).
  rewrite (IH (pre ++ bs ++ [l])).
  2:{ rewrite Heq, <-!app_assoc. done. }
  cbn. f_equal. f_equal. rewrite !length_app. lia.
Qed.

(** The one-byte prefix stops at the first multi-byte varint. *)
Lemma one_byte_prefix_spec dec1 us encs tail :
  varints_of us encs ->
  exists us1 us2 encs2, us = us1 ++ us2 /\ Forall (fun u => 0 <= u < 128) us1 /\
    varints_of us2 encs2 /\ concat encs = us1 ++ concat encs2 /\
    one_byte_prefix dec1 (length us) (concat encs ++ tail) = map dec1 us1.
Proof.
  induction 1 as [|u enc us encs Hu Hus IH]; [by exists [], [], []; split_and!; try constructor|].
  cbn [length concat].
  destruct (id Hu) as ([|b bs] & l & -> & Hbs & Hl & Hv & Hlen & Hlast).
  - cbn in Hv. rewrite Z.mod_small in Hv by done. assert (l = u) as -> by lia.
    cbn [app one_byte_prefix]. destruct Hl as [? ?].
    rewrite Z.geb_leb, (proj2 (Z.leb_gt _ _)) by lia.
    destruct IH as (us1 & us2 & encs2 & -> & Hus1 & Hus2 & -> & ->).
    exists (u :: us1), us2, encs2. split_and!; try done. by constructor.
  - exists [], (u :: us), (((b :: bs) ++ [l]) :: encs).
    split_and!; try done; [by constructor|].
    inversion_clear Hbs as [|? ? [Hb1 Hb2] _].
    cbn. by rewrite Z.geb_leb, (proj2 (Z.leb_le _ _)) by lia.
Qed.

Lemma unmarshal_vars_varints dec1 dec us encs tail :
  varints_of us encs -> bytes tail -> (forall c, 0 <= c < 128 -> dec1 c = dec c) ->
  unmarshal_vars dec1 dec (length us) (concat encs ++ tail) = Ok (map dec us, tail).
Proof.
  intros Hus Ht Hdec. unfold unmarshal_vars.
  pose proof (varints_of_length us encs Hus) as Hlen.
  pose proof (varints_of_bytes us encs Hus) as Hbytes.
  rewrite (proj2 (Nat.ltb_ge _ _)) by (rewrite length_app; lia). cbn [guard_ mbind res_bind].
  destruct (one_byte_prefix_spec dec1 us encs tail Hus)
    as (us1 & us2 & encs2 & Heq & Hus1 & Hus2 & Hencs & ->).
  assert (Hmap : map dec1 us1 = map dec us1).
  { apply map_ext_Forall. revert Hus1. apply Forall_weaken. apply Hdec. }
  rewrite Hmap, length_map. destruct (Nat.eqb_spec (length us1) (length us)) as [He|He].
  - subst us. rewrite length_app in He. destruct us2; [|cbn in He; lia].
    inversion Hus2; subst. rewrite Hencs. cbn [concat]. rewrite !app_nil_r.
    by rewrite drop_app_length.
  - replace (length us - length us1)%nat with (length us2) by (subst us; rewrite length_app; lia).
    rewrite Hencs in *.
    rewrite (read_many_varints dec us2 encs2 _ us1 tail); try done.
    + subst us. cbn. rewrite map_app. do 2 f_equal.
      rewrite <-drop_drop, <-app_assoc, !drop_app_length. done.
    + by apply bytes_app.
    + by rewrite <-app_assoc.
Qed.

Lemma unmarshal_var_int64s_varints vs encs tail :
  Forall is_i64 vs -> varints_of (map zigzag_encode vs) encs -> bytes tail ->
  unmarshal_var_int64s (length vs) (concat encs ++ tail) = Ok (vs, tail).
Proof.
  intros Hvs Hencs Ht. rewrite <-(length_map zigzag_encode). unfold unmarshal_var_int64s.
  rewrite unmarshal_vars_varints; [|done..|].
  - do 2 f_equal. rewrite map_map. rewrite <-(map_id vs) at 2. apply map_ext_Forall.
    revert Hvs. apply Forall_weaken. apply zigzag_roundtrip.
  - intros c Hc. rewrite zigzag_decode8_spec, zigzag_decode_spec by (unfold is_u; lia). done.
Qed.

Lemma zigzag_all_u64 vs : Forall is_u64 (map zigzag_encode vs).
Proof. apply Forall_map, Forall_true. auto with esm. Qed.
#[export] Hint Resolve zigzag_all_u64 varints_of_leb128 : esm.

Lemma unmarshal_var_int64s_app vs tail :
  Forall is_i64 vs -> bytes tail ->
  unmarshal_var_int64s (length vs) (marshal_var_int64s [] vs ++ tail) = Ok (vs, tail).
Proof.
  intros Hvs Ht. rewrite marshal_var_int64s_leb128 by done. cbn [app].
  apply unmarshal_var_int64s_varints; auto with esm.
Qed.

Lemma unmarshal_var_uint64s_app us tail :
  Forall is_u64 us -> bytes tail ->
  unmarshal_var_uint64s (length us) (marshal_var_uint64s [] us ++ tail) = Ok (us, tail).
Proof.
  intros Hus Ht. rewrite marshal_var_uint64s_leb128 by done. cbn [app].
  unfold unmarshal_var_uint64s. rewrite unmarshal_vars_varints by auto with esm. by rewrite map_id.
Qed.

Lemma marshal_var_int64s_bytes vs : Forall is_i64 vs -> bytes (marshal_var_int64s [] vs).
Proof.
  intros. rewrite marshal_var_int64s_leb128 by done. eapply varints_of_bytes. auto with esm.
Qed.

Lemma marshal_var_int64s_dst dst vs :
  Forall is_i64 vs -> marshal_var_int64s dst vs = dst ++ marshal_var_int64s [] vs.
Proof. intros. by rewrite !marshal_var_int64s_leb128. Qed.

Lemma marshal_bytes_dst dst b :
  Z.of_nat (length b) < 2 ^ 64 -> marshal_bytes dst b = dst ++ marshal_bytes [] b.
Proof.
  intros Hb. unfold marshal_bytes, marshal_var_uint64.
  rewrite !append_var_uint64_leb128 by (unfold is_u; lia). by rewrite <-!app_assoc.
Qed.

Lemma marshal_bytes_bytes b : Z.of_nat (length b) < 2 ^ 64 -> bytes b -> bytes (marshal_bytes [] b).
Proof.
  intros Hl Hb. unfold marshal_bytes, marshal_var_uint64.
  rewrite append_var_uint64_leb128 by (unfold is_u; lia). cbn [app]. apply bytes_app.
  split; [apply leb128_bytes; unfold is_u; lia|done].
Qed.

Lemma unmarshal_bytes_app b tail :
  bytes b -> bytes tail -> Z.of_nat (length b) < 2 ^ 64 ->
  unmarshal_bytes (marshal_bytes [] b ++ tail) = Some (b, length (marshal_bytes [] b)).
Proof.
  intros Hb Ht Hlen. unfold marshal_bytes, marshal_var_uint64.
  assert (Hu : is_u64 (Z.of_nat (length b))) by (unfold is_u; lia).
  rewrite append_var_uint64_leb128 by done. cbn [app]. unfold unmarshal_bytes.
  rewrite <-app_assoc, unmarshal_var_uint64_leb128 by (done || by apply bytes_app).
  rewrite !length_app, Z.gtb_ltb, (proj2 (Z.ltb_ge _ _)) by lia. rewrite Nat2Z.id.
  rewrite drop_app_length. do 2 f_equal.
  replace (_ - _)%nat with (length b) by lia. by rewrite take_app_length.
Qed.

(** ** Ranges of the decoded values *)

Lemma lor_u64 a b : is_u64 a -> is_u64 b -> is_u64 (Z.lor a b).
Proof.
  intros Ha Hb. rewrite <-(wrap_u_id 64 a), <-(wrap_u_id 64 b) by done.
  unfold wrap_u. rewrite <-!Z.land_ones, <-Z.land_lor_distr_l, Z.land_ones by lia.
  by apply wrap_u_range.
Qed.

Lemma uvarint_loop_range src i x s :
  is_u64 x -> (i <= 10)%nat -> let '(u, n) := uvarint_loop src i x s in
  is_u64 u /\ n <= Z.of_nat (i + length src) /\ (0 < n -> Z.of_nat i < n <= 10).
Proof.
  revert i x s. induction src as [|b src IH]; intros i x s Hx Hi; cbn [uvarint_loop length].
  { split_and!; [done|lia|lia]. }
  destruct (Nat.eqb_spec i 10); [split_and!; [done|lia|lia]|].
  destruct (b <? 0x80).
  - destruct (_ && _) eqn:E; [split_and!; [done|lia|lia]|].
    split_and!; [|lia|lia]. apply lor_u64; [done|by apply wrap_u_range].
  - specialize (IH (S i) (Z.lor x (u64_shl (Z.land b 0x7f) s)) (s + 7)).
    destruct (uvarint_loop _ _ _ _) as [u m].
    destruct IH as (Hu & Hm & Hp); [apply lor_u64; [done|by apply wrap_u_range]|lia|].
    split_and!; [done|lia|]. intros Hm0. specialize (Hp Hm0). lia.
Qed.

Lemma uvarint_range src u n : uvarint src = (u, n) -> is_u64 u /\ n <= Z.of_nat (length src) /\ n <= 10.
Proof.
  unfold uvarint. intros H. pose proof (uvarint_loop_range src 0 0 0) as Hr. rewrite H in Hr.
  destruct Hr as (? & ? & ?); [done|lia|]. split_and!; [done|lia|lia].
Qed.

Lemma unmarshal_var_int64_range src v n :
  unmarshal_var_int64 src = Some (v, n) -> is_i64 v /\ (1 <= n <= length src)%nat.
Proof.
  unfold unmarshal_var_int64. destruct (uvarint src) as [u m] eqn:Hu.
  destruct (uvarint_range _ _ _ Hu) as (? & ? & ?).
  destruct (Z.leb_spec m 0); [done|]. intros [= <- <-]. split; [by apply zigzag_decode_range|lia].
Qed.

Lemma unmarshal_var_uint64_range src u n :
  bytes src -> unmarshal_var_uint64 src = Some (u, n) -> is_u64 u /\ (1 <= n <= length src)%nat.
Proof.
  intros Hs. rewrite unmarshal_var_uint64_uvarint by done. destruct (uvarint src) as [w m] eqn:Hu.
  destruct (uvarint_range _ _ _ Hu) as (? & ? & ?).
  destruct (Z.leb_spec m 0); [done|]. intros [= <- <-]. split; [done|lia].
Qed.

Lemma unmarshal_bytes_range src b n :
  bytes src -> unmarshal_bytes src = Some (b, n) ->
  (n <= length src)%nat /\ bytes b /\ (length b <= n)%nat.
Proof.
  intros Hs. unfold unmarshal_bytes.
  destruct (unmarshal_var_uint64 src) as [[u m]|] eqn:Hu; [|done].
  destruct (unmarshal_var_uint64_range _ _ _ Hs Hu) as ([? ?] & ?).
  rewrite Z.gtb_ltb. destruct (Z.ltb_spec (Z.of_nat (length src - m)) u); [done|].
  intros [= <- <-]. split_and!; [lia|auto with esm|]. rewrite length_take, length_drop. lia.
Qed.

Lemma read_slow_no_panic src idx : no_panic (read_var_uint64_slow src idx).
Proof.
  unfold read_var_uint64_slow, no_panic.
  repeat case_match; try done.
  match goal with |- slow_tail ?b ≫= _ <> _ => enough (slow_tail b <> Panic) by (by destruct (slow_tail b)) end.
  unfold slow_tail. by repeat case_match.
Qed.

Lemma read_fast_no_panic src idx : no_panic (read_var_uint64_fast src idx).
Proof.
  unfold read_var_uint64_fast. pose proof (read_slow_no_panic src idx). by repeat case_match.
Qed.

Lemma unmarshal_vars_no_panic dec1 dec n src : no_panic (unmarshal_vars dec1 dec n src).
Proof.
  assert (Hm : forall m idx, no_panic (read_many dec m src idx)).
  { induction m as [|m IH]; intros idx; cbn [read_many]; [done|].
    apply no_panic_bind; [apply read_fast_no_panic|]. intros [u i] _.
    apply no_panic_bind; [apply IH|]. by intros [us j] _. }
  unfold unmarshal_vars. apply no_panic_bind; [auto with esm|]. intros _ _. case_match; [done|].
  apply no_panic_bind; [apply Hm|]. by intros [us j] _.
Qed.

Lemma one_byte_prefix_length dec n src : (n <= length src)%nat -> (length (one_byte_prefix dec n src) <= n)%nat.
Proof.
  revert src. induction n as [|n IH]; intros [|c src] Hn; cbn in *; try lia.
  case_match; cbn; [lia|]. specialize (IH src). lia.
Qed.

(** A successful batch read yields exactly the requested number of values. *)
Lemma unmarshal_vars_length dec1 dec n src us tail :
  unmarshal_vars dec1 dec n src = Ok (us, tail) -> length us = n.
Proof.
  assert (Hm : forall m idx us j, read_many dec m src idx = Ok (us, j) -> length us = m).
  { induction m as [|m IH]; intros idx us' j H; cbn [read_many] in H; [by injection H as <- <-|].
    apply bind_ok in H as ([u i] & _ & H). apply bind_ok in H as ([vs k] & Hr & H).
    injection H as <- <-. cbn. by erewrite IH. }
  unfold unmarshal_vars. intros H. apply bind_ok in H as (w & Hg & H). apply guard_ok in Hg.
  apply Nat.ltb_ge in Hg. pose proof (one_byte_prefix_length dec1 n src Hg).
  destruct (Nat.eqb_spec (length (one_byte_prefix dec1 n src)) n) as [He|He].
  - injection H as <- <-. done.
  - apply bind_ok in H as ([vs k] & Hr & H). injection H as <- <-.
    rewrite length_app, (Hm _ _ _ _ Hr). lia.
Qed.

(** ** The properties *)

(** The unrolled varint writer of [append_var_uint64] emits, for every
    [u64], exactly its LEB128 encoding (seven bits per byte, little-endian
    groups), whichever of its ten cases applies. *)
Theorem varint_writer_is_leb128 (dst : list Z) (u : Z) :
  is_u64 u -> append_var_uint64 dst u = dst ++ leb128 u.
Proof. apply append_var_uint64_leb128. Qed.

Lemma varint_writer_is_leb128_witness :
  append_var_uint64 [7] 300 = [7; 172; 2] /\ append_var_uint64 [] (2 ^ 64 - 1) = leb128 (2 ^ 64 - 1).
Proof.
  split; [exact (varint_writer_is_leb128 [7] 300 ltac:(done))|].
  exact (varint_writer_is_leb128 [] (2 ^ 64 - 1) ltac:(done)).
Defined.

(** C34: the word-at-a-time reader [read_var_uint64_fast] returns the same
    result as the per-byte reader [read_var_uint64_slow] (the same value and
    index, or the same error) at every position of every byte string, valid
    varint or not. *)
Theorem swar_reader_agrees (src : list Z) (idx : nat) :
  bytes src -> read_var_uint64_fast src idx = read_var_uint64_slow src idx.
Proof. apply read_fast_eq_slow. Qed.

Lemma swar_reader_agrees_witness :
  read_var_uint64_fast [0; 172; 2; 9; 9; 9; 9; 9; 9] 1 = Ok (300, 3%nat).
Proof. rewrite swar_reader_agrees; [reflexivity|]. repeat constructor; done. Defined.

(** [unmarshal_var_int64s] restores every slice of [i64] values written
    by [marshal_var_int64s] and returns the unread tail, through the one-byte
    fast path, the slow path and any mixture of them. *)
Theorem var_int64s_roundtrip (vs tail : list Z) :
  Forall is_i64 vs -> bytes tail ->
  unmarshal_var_int64s (length vs) (marshal_var_int64s [] vs ++ tail) = Ok (vs, tail).
Proof. apply unmarshal_var_int64s_app. Qed.

Lemma var_int64s_roundtrip_witness :
  unmarshal_var_int64s 4 (marshal_var_int64s [] [5; -64; 2 ^ 63 - 1; - 2 ^ 63] ++ [1; 2])
  = Ok ([5; -64; 2 ^ 63 - 1; - 2 ^ 63], [1; 2]).
Proof.
  apply (var_int64s_roundtrip [5; -64; 2 ^ 63 - 1; - 2 ^ 63] [1; 2]); repeat constructor; done.
Defined.

(** A ten-byte varint padded with a zero tenth byte: [uvarint] reads 0, the
    batch readers set bit 63. *)
Example readers_differ_on_padded_varint :
  let src := replicate 9 0x80 ++ [0] in
  unmarshal_var_uint64 src = Some (0, 10%nat) /\ read_var_uint64_fast src 0 = Ok (2 ^ 63, 10%nat).
Proof. split; reflexivity. Qed.
