(* ===== verification/NearestDelta.v ===== *)
(** * Nearest-delta encodings

    Model of [esm-encoding/src/nearest_delta.rs] and
    [esm-encoding/src/nearest_delta2.rs]: first and second differences of an
    [i64] array, optionally with the low bits of each difference zeroed
    ([precision_bits < 64]), written as varints. *)
From Stdlib Require Import ZArith Lia Bool.
From S2P Require Import Prelude IntCodec.
Local Open Scope Z_scope.

(** ** Operations *)

(** [check_precision_bits] of [encoding.rs]; the error carries the argument. *)
Definition check_precision_bits (precision_bits : Z) : res Z unit :=
  if negb ((1 <=? precision_bits) && (precision_bits <=? 64)) then Err precision_bits else Ok tt.

(** [u64::leading_zeros]. *)
Definition leading_zeros (x : Z) : Z := if x =? 0 then 64 else 63 - Z.log2 x.

Definition dec_if_non_zero (n : Z) : Z := Z.max 0 (n - 1).

Definition get_trailing_zeros (v precision_bits : Z) : Z :=
  let v := if v <? 0 then i64_neg v else v in
  let v_bits := as_u8 (64 - leading_zeros (as_u64 v)) in
  if v_bits <=? precision_bits then 0 else v_bits - precision_bits.

(** The delta [next - prev] with its low bits zeroed, and the number of bits
    zeroed, which the caller feeds back as [prev_trailing_zeros]. *)
Definition nearest_delta (next prev precision_bits prev_trailing_zeros : Z) : Z * Z :=
  let d := i64_sub next prev in
  if d =? 0 then (0, dec_if_non_zero prev_trailing_zeros)
  else
    let origin := if next <? 0 then i64_neg next else next in
    let origin_bits := as_u8 (64 - leading_zeros (as_u64 origin)) in
    if origin_bits <=? precision_bits then (d, dec_if_non_zero prev_trailing_zeros)
    else
      let trailing_zeros := origin_bits - precision_bits in
      if trailing_zeros >? as_u8 (prev_trailing_zeros + 4) then (d, as_u8 (prev_trailing_zeros + 2))
      else if as_u8 (trailing_zeros + 4) <? prev_trailing_zeros then (d, as_u8 (prev_trailing_zeros - 2))
      else
        let minus := d <? 0 in
        let d := if minus then i64_neg d else d in
        let nd := as_i64 (Z.land (as_u64 d) (u64_shl (2 ^ 64 - 1) trailing_zeros)) in
        let nd := if minus then i64_neg nd else nd in
        (nd, trailing_zeros).

(** The loops that fill the scratch slice [ds]: the lossless one and the one
    that zeroes trailing bits. *)
Fixpoint delta_loop_exact (v : Z) (src : list Z) : list Z :=
  match src with
  | [] => []
  | next :: src' =>
      let d := i64_sub next v in
      d :: delta_loop_exact (i64_add v d) src'
  end.

Fixpoint delta_loop (precision_bits v trailing_zeros : Z) (src : list Z) : list Z :=
  match src with
  | [] => []
  | next :: src' =>
      let '(d, tzs) := nearest_delta next v precision_bits trailing_zeros in
      d :: delta_loop precision_bits (i64_add v d) tzs src'
  end.

(** Returns the extended [dst] and the first value; panics on an empty [src]
    or a precision out of range. *)
Definition marshal_int64_nearest_delta {E} (dst src : list Z) (precision_bits : Z)
    : res E (list Z * Z) :=
  match src, check_precision_bits precision_bits with
  | v :: src', Ok _ =>
      let ds := if precision_bits =? 64 then delta_loop_exact v src'
                else delta_loop precision_bits v (get_trailing_zeros v precision_bits) src' in
      Ok (marshal_var_int64s dst ds, v)
  | _, _ => Panic
  end.

Inductive delta_error : Type :=
| CannotUnmarshalDelta (src_len : nat) (e : varint_error)
| UnexpectedTail (items_count src_len tail_len : nat).

(** The loop [v = v.wrapping_add(d); dst.push(v)]. *)
Fixpoint undelta (v : Z) (ds : list Z) : list Z :=
  match ds with
  | [] => []
  | d :: ds' => let v := i64_add v d in v :: undelta v ds'
  end.

(** The common start of both decoders: [n] varints and no tail. *)
Definition read_deltas (src : list Z) (n items_count : nat) : res delta_error (list Z) :=
  '(ds, tail) ← map_err (CannotUnmarshalDelta (length src)) (unmarshal_var_int64s n src);
  _ ← guard_ (negb (length tail =? 0)%nat) (UnexpectedTail items_count (length src) (length tail));
  Ok ds.

Definition unmarshal_int64_nearest_delta (dst src : list Z) (first_value : Z) (items_count : nat)
    : res delta_error (list Z) :=
  _ ← assert_ (1 <=? items_count)%nat;
  ds ← read_deltas src (items_count - 1) items_count;
  Ok (dst ++ first_value :: undelta first_value ds).

(** Second differences: the lossless and the rounding loop. *)
Fixpoint delta2_loop_exact (v d1 : Z) (src : list Z) : list Z :=
  match src with
  | [] => []
  | next :: src' =>
      let d2 := i64_sub (i64_sub next v) d1 in
      let d1 := i64_add d1 d2 in
      d2 :: delta2_loop_exact (i64_add v d1) d1 src'
  end.

Fixpoint delta2_loop (precision_bits v d1 trailing_zeros : Z) (src : list Z) : list Z :=
  match src with
  | [] => []
  | next :: src' =>
      let '(d2, tzs) := nearest_delta (i64_sub next v) d1 precision_bits trailing_zeros in
      let d1 := i64_add d1 d2 in
      d2 :: delta2_loop precision_bits (i64_add v d1) d1 tzs src'
  end.

Definition marshal_int64_nearest_delta2 {E} (dst src : list Z) (precision_bits : Z)
    : res E (list Z * Z) :=
  match src, check_precision_bits precision_bits with
  | v0 :: v1 :: src', Ok _ =>
      let d1 := i64_sub v1 v0 in
      let dst := marshal_var_int64 dst d1 in
      let ds := if precision_bits =? 64 then delta2_loop_exact v1 d1 src'
                else delta2_loop precision_bits v1 d1 (get_trailing_zeros v1 precision_bits) src' in
      Ok (marshal_var_int64s dst ds, v0)
  | _, _ => Panic
  end.

Fixpoint undelta2 (v d1 : Z) (ds : list Z) : list Z :=
  match ds with
  | [] => []
  | d2 :: ds' =>
      let d1 := i64_add d1 d2 in
      let v := i64_add v d1 in
      v :: undelta2 v d1 ds'
  end.

Definition unmarshal_int64_nearest_delta2 (dst src : list Z) (first_value : Z) (items_count : nat)
    : res delta_error (list Z) :=
  _ ← assert_ (2 <=? items_count)%nat;
  ds ← read_deltas src (items_count - 1) items_count;
  match ds with
  | [] => Panic
  | d1 :: ds' =>
      let v := i64_add first_value d1 in
      Ok (dst ++ first_value :: v :: undelta2 v d1 ds')
  end.

(** ** Lemmas *)

Lemma check_precision_bits_ok pb : 1 <= pb <= 64 -> check_precision_bits pb = Ok tt.
Proof.
  intros. unfold check_precision_bits. by rewrite !(proj2 (Z.leb_le _ _)) by lia.
Qed.

Lemma delta_loop_exact_range v src : Forall is_i64 (delta_loop_exact v src).
Proof. revert v. induction src; intros; constructor; auto with esm. Qed.

Lemma nearest_delta_range next prev pb tz : is_i64 (nearest_delta next prev pb tz).1.
Proof.
  unfold nearest_delta.
  repeat case_match; cbn; try apply wrap_i_range; try lia; done.
Qed.

Lemma delta_loop_range pb v tz src : Forall is_i64 (delta_loop pb v tz src).
Proof.
  revert v tz. induction src as [|x src IH]; intros v tz; cbn; [constructor|].
  pose proof (nearest_delta_range x v pb tz). case_match. constructor; [done|apply IH].
Qed.

Lemma delta2_loop_exact_range v d1 src : Forall is_i64 (delta2_loop_exact v d1 src).
Proof. revert v d1. induction src; intros; constructor; auto with esm. Qed.

Lemma delta2_loop_range pb v d1 tz src : Forall is_i64 (delta2_loop pb v d1 tz src).
Proof.
  revert v d1 tz. induction src as [|x src IH]; intros v d1 tz; cbn; [constructor|].
  pose proof (nearest_delta_range (i64_sub x v) d1 pb tz). case_match. constructor; [done|apply IH].
Qed.

Lemma length_delta_loop_exact v src : length (delta_loop_exact v src) = length src.
Proof. revert v. induction src; intros; cbn; congruence. Qed.
Lemma length_delta_loop pb v tz src : length (delta_loop pb v tz src) = length src.
Proof. revert v tz. induction src; intros; cbn; [done|]. case_match; cbn; congruence. Qed.
Lemma length_delta2_loop_exact v d1 src : length (delta2_loop_exact v d1 src) = length src.
Proof. revert v d1. induction src; intros; cbn; congruence. Qed.
Lemma length_delta2_loop pb v d1 tz src : length (delta2_loop pb v d1 tz src) = length src.
Proof. revert v d1 tz. induction src; intros; cbn; [done|]. case_match; cbn; congruence. Qed.

(** The lossless loops are inverted by the decoding loops. *)
Lemma undelta_exact v src : Forall is_i64 src -> undelta v (delta_loop_exact v src) = src.
Proof.
  intros Hs. revert v. induction Hs as [|x src Hx Hs IH]; intros v; cbn; [done|].
  by rewrite IH, i64_add_sub.
Qed.

Lemma undelta2_exact v d1 src :
  Forall is_i64 src -> undelta2 v d1 (delta2_loop_exact v d1 src) = src.
Proof.
  intros Hs. revert v d1. induction Hs as [|x src Hx Hs IH]; intros v d1; cbn; [done|].
  by rewrite IH, i64_add_sub, i64_add_sub by auto with esm.
Qed.

Lemma read_deltas_varints vs encs n items_count :
  Forall is_i64 vs -> varints_of (map zigzag_encode vs) encs -> length vs = n ->
  read_deltas (concat encs) n items_count = Ok vs.
Proof.
  intros Hvs Hencs <-. unfold read_deltas. rewrite <-(app_nil_r (concat encs)).
  rewrite unmarshal_var_int64s_varints by (done || constructor). done.
Qed.

Lemma read_deltas_app vs n items_count :
  Forall is_i64 vs -> length vs = n -> read_deltas (marshal_var_int64s [] vs) n items_count = Ok vs.
Proof.
  intros Hvs Hn. rewrite marshal_var_int64s_leb128 by done. cbn [app].
  apply read_deltas_varints; auto with esm.
Qed.

Lemma read_deltas_no_panic src n m : no_panic (read_deltas src n m).
Proof.
  unfold read_deltas. apply no_panic_bind.
  - apply no_panic_map_err, unmarshal_vars_no_panic.
  - intros [ds tail] _. apply no_panic_bind; auto with esm.
Qed.

Lemma read_deltas_length src n m ds : read_deltas src n m = Ok ds -> length ds = n.
Proof.
  unfold read_deltas. intros H. apply bind_ok in H as ([ds' tail] & H1 & H).
  apply map_err_ok in H1. apply unmarshal_vars_length in H1. res_inv. by subst.
Qed.

(** ** The encoder as seen by the decoder *)

(** What the decoder reconstructs: the running value the encoder tracks. *)
Fixpoint tracked (precision_bits v trailing_zeros : Z) (src : list Z) : list Z :=
  match src with
  | [] => []
  | next :: src' =>
      let '(d, tzs) := nearest_delta next v precision_bits trailing_zeros in
      let v := i64_add v d in v :: tracked precision_bits v tzs src'
  end.

Lemma undelta_loop pb v tz src : undelta v (delta_loop pb v tz src) = tracked pb v tz src.
Proof. revert v tz. induction src as [|x src IH]; intros; cbn; [done|]. case_match. cbn. by rewrite IH. Qed.

(** The decoded array: exact for 64 bits, the tracked values otherwise. *)
Lemma nearest_delta_decode {E} src pb fv data :
  src <> [] -> Forall is_i64 src -> 1 <= pb <= 64 ->
  marshal_int64_nearest_delta (E := E) [] src pb = Ok (data, fv) ->
  exists v rest, src = v :: rest /\ fv = v /\ bytes data /\
    unmarshal_int64_nearest_delta [] data fv (length src)
    = Ok (v :: if pb =? 64 then rest else tracked pb v (get_trailing_zeros v pb) rest).
Proof.
  intros Hne Hs Hpb. destruct src as [|v rest]; [done|]. unfold marshal_int64_nearest_delta.
  rewrite check_precision_bits_ok by done. intros [= <- <-].
  inversion_clear Hs as [|? ? Hv Hrest]. exists v, rest.
  set (ds := if pb =? 64 then _ else _).
  assert (Hds : Forall is_i64 ds) by (subst ds; case_match; auto using delta_loop_exact_range, delta_loop_range).
  assert (Hlen : length ds = length rest)
    by (subst ds; case_match; auto using length_delta_loop_exact, length_delta_loop).
  split_and!; [done..|by apply marshal_var_int64s_bytes|].
  unfold unmarshal_int64_nearest_delta. cbn [length assert_ mbind res_bind Nat.leb].
  rewrite read_deltas_app by (done || lia). cbn [mbind res_bind app]. do 2 f_equal.
  subst ds. case_match; [by apply undelta_exact|apply undelta_loop].
Qed.

(** The varints of the second-difference encoder: the first difference with
    the single-value writer, the rest with the batch writer. *)
Lemma delta2_varints d1 ds :
  is_i64 d1 -> Forall is_i64 ds ->
  let encs := marshal_var_int64 [] d1 :: map leb128 (map zigzag_encode ds) in
  marshal_var_int64s (marshal_var_int64 [] d1) ds = concat encs /\
  varints_of (map zigzag_encode (d1 :: ds)) encs.
Proof.
  intros Hd1 Hds encs. split; [by rewrite marshal_var_int64s_leb128|].
  constructor; [by apply marshal_var_int64_varint|apply varints_of_leb128; auto with esm].
Qed.

Lemma varints_of_bound us encs : varints_of us encs -> (length (concat encs) <= 10 * length us)%nat.
Proof.
  induction 1 as [|u enc us encs Hu _ IH]; cbn [concat length]; [lia|].
  rewrite length_app. apply varint_of_length in Hu. lia.
Qed.

Lemma delta2_total {E} src pb :
  (2 <= length src)%nat -> Forall is_i64 src -> 1 <= pb <= 64 ->
  exists data fv l, marshal_int64_nearest_delta2 (E := E) [] src pb = Ok (data, fv) /\
    head src = Some fv /\ bytes data /\ (length data <= 10 * length src)%nat /\
    unmarshal_int64_nearest_delta2 [] data fv (length src) = Ok l /\ (pb = 64 -> l = src).
Proof.
  intros Hlen Hs Hpb. destruct src as [|v0 [|v1 rest]]; cbn in Hlen; try lia.
  unfold marshal_int64_nearest_delta2. rewrite check_precision_bits_ok by done.
  inversion_clear Hs as [|? ? Hv0 Hs1]. inversion_clear Hs1 as [|? ? Hv1 Hrest].
  set (d1 := i64_sub v1 v0). set (ds := if pb =? 64 then _ else _).
  assert (Hd1 : is_i64 d1) by (subst d1; auto with esm).
  assert (Hds : Forall is_i64 ds) by (subst ds; case_match; auto using delta2_loop_exact_range, delta2_loop_range).
  assert (Hl : length ds = length rest)
    by (subst ds; case_match; auto using length_delta2_loop_exact, length_delta2_loop).
  destruct (delta2_varints d1 ds Hd1 Hds) as [Henc Hvar]. eexists _, _, _. split; [reflexivity|].
  split_and!; [done|rewrite Henc; by eapply varints_of_bytes| | |].
  - rewrite Henc. apply varints_of_bound in Hvar. rewrite length_map in Hvar. cbn [length] in *. lia.
  - unfold unmarshal_int64_nearest_delta2. cbn [length assert_ mbind res_bind Nat.leb].
    rewrite Henc, (read_deltas_varints (d1 :: ds)); [|by constructor|done|cbn [length]; lia].
    cbn [mbind res_bind app]. reflexivity.
  - intros ->. replace (i64_add v0 d1) with v1 by (symmetry; by apply i64_add_sub).
    subst ds. cbn [Z.eqb Pos.eqb]. by rewrite undelta2_exact.
Qed.

Lemma delta_total {E} src pb :
  src <> [] -> Forall is_i64 src -> 1 <= pb <= 64 ->
  exists data fv l, marshal_int64_nearest_delta (E := E) [] src pb = Ok (data, fv) /\
    head src = Some fv /\ bytes data /\ (length data <= 10 * length src)%nat /\
    unmarshal_int64_nearest_delta [] data fv (length src) = Ok l /\ (pb = 64 -> l = src).
Proof.
  intros Hne Hs Hpb.
  assert (Hm : exists data fv, marshal_int64_nearest_delta (E := E) [] src pb = Ok (data, fv) /\
    (length data <= 10 * length src)%nat).
  { unfold marshal_int64_nearest_delta. rewrite check_precision_bits_ok by done.
    destruct src as [|v rest]; [done|]. eexists _, _. split; [reflexivity|].
    set (ds := if pb =? 64 then _ else _).
    assert (Hds : Forall is_i64 ds) by (subst ds; case_match; auto using delta_loop_exact_range, delta_loop_range).
    assert (Hl : length ds = length rest)
      by (subst ds; case_match; auto using length_delta_loop_exact, length_delta_loop).
    rewrite marshal_var_int64s_leb128 by done. cbn [app].
    pose proof (varints_of_bound _ _ (varints_of_leb128 _ (zigzag_all_u64 ds))) as Hb.
    rewrite length_map in Hb. cbn [length]. lia. }
  destruct Hm as (data & fv & Hm & Hlen).
  destruct (nearest_delta_decode src pb fv data Hne Hs Hpb Hm) as (v & rest & -> & -> & Hb & Hu).
  eexists _, _, _. split; [done|]. split_and!; [done..|]. intros ->. done.
Qed.

(** ** Rounding *)

(** Masking off the low [tz] bits rounds down to a multiple of [2 ^ tz]. *)
Lemma land_high_bits x tz :
  is_u64 x -> 0 <= tz < 64 -> Z.land x (u64_shl (2 ^ 64 - 1) tz) = x / 2 ^ tz * 2 ^ tz.
Proof.
  intros [Hx1 Hx2] Htz.
  assert (Hp : 2 ^ 64 = 2 ^ (64 - tz) * 2 ^ tz) by (rewrite <-Z.pow_add_r by lia; f_equal; lia).
  assert (Hm : u64_shl (2 ^ 64 - 1) tz = 0 + (2 ^ (64 - tz) - 1) * 2 ^ tz).
  { unfold u64_shl, wrap_u. rewrite shiftl_mul by lia.
    replace ((2 ^ 64 - 1) * 2 ^ tz) with (2 ^ 64 - 2 ^ tz + (2 ^ tz - 1) * 2 ^ 64) by ring.
    rewrite Z.mod_add by lia. assert (2 ^ tz <= 2 ^ 63) by (apply Z.pow_le_mono_r; lia).
    rewrite Z.mod_small by lia. rewrite Hp. ring. }
  rewrite Hm. rewrite (Z.div_mod x (2 ^ tz)) at 1 by lia.
  rewrite (Z.mul_comm (2 ^ tz)), (Z.add_comm (_ * _)).
  rewrite land_split by (try apply Z.mod_pos_bound; lia). rewrite Z.land_0_r, Z.add_0_l.
  f_equal. replace (2 ^ (64 - tz) - 1) with (Z.ones (64 - tz)) by (rewrite Z.ones_equiv; lia).
  rewrite Z.land_ones by lia. apply Z.mod_small. split; [apply Z.div_pos; lia|].
  apply Z.div_lt_upper_bound; lia.
Qed.

(** The significant bits of a positive number. *)
Lemma leading_zeros_spec x :
  0 < x -> is_u64 x -> let b := 64 - leading_zeros x in 1 <= b <= 64 /\ 2 ^ (b - 1) <= x < 2 ^ b.
Proof.
  intros Hx [_ Hx2]. unfold leading_zeros. rewrite (proj2 (Z.eqb_neq x 0)) by lia. cbn zeta.
  pose proof (Z.log2_spec x Hx) as Hl. pose proof (Z.log2_nonneg x).
  assert (Z.log2 x < 64) by (by apply Z.log2_lt_pow2).
  replace (64 - (63 - Z.log2 x)) with (Z.log2 x + 1) by lia.
  split; [lia|]. replace (Z.log2 x + 1 - 1) with (Z.log2 x) by lia.
  by rewrite Z.add_1_r.
Qed.

(** The last branch of [nearest_delta]: zero the low [tz] bits of [|d|]. *)
Definition truncate_delta (d tz : Z) : Z :=
  let nd := as_i64 (Z.land (as_u64 (if d <? 0 then i64_neg d else d)) (u64_shl (2 ^ 64 - 1) tz)) in
  if d <? 0 then i64_neg nd else nd.

Definition significant_bits (next : Z) : Z :=
  as_u8 (64 - leading_zeros (as_u64 (if next <? 0 then i64_neg next else next))).

Lemma nearest_delta_cases next v pb tz :
  (nearest_delta next v pb tz).1 = i64_sub next v \/
  pb < significant_bits next /\
  (nearest_delta next v pb tz).1 = truncate_delta (i64_sub next v) (significant_bits next - pb).
Proof.
  unfold nearest_delta. destruct (Z.eqb_spec (i64_sub next v) 0) as [->|]; [by left|].
  fold (significant_bits next). destruct (Z.leb_spec (significant_bits next) pb); [by left|].
  destruct (_ >? _); [by left|]. destruct (_ <? tz); [by left|]. by right.
Qed.

Lemma truncate_delta_spec d tz :
  - 2 ^ 63 < d < 2 ^ 63 -> 0 <= tz < 64 ->
  truncate_delta d tz = Z.sgn d * (Z.abs d / 2 ^ tz * 2 ^ tz).
Proof.
  intros Hd Htz. unfold truncate_delta.
  assert (Habs : (if d <? 0 then i64_neg d else d) = Z.abs d).
  { destruct (Z.ltb_spec d 0); [|lia]. unfold i64_neg. rewrite wrap_i_id; unfold is_i; lia. }
  rewrite Habs, (wrap_u_id 64) by (unfold is_u; lia).
  rewrite land_high_bits by (unfold is_u; lia).
  assert (0 <= Z.abs d / 2 ^ tz * 2 ^ tz <= Z.abs d).
  { split; [apply Z.mul_nonneg_nonneg; [apply Z.div_pos|]; lia|].
    rewrite Z.mul_comm. apply Z.mul_div_le. lia. }
  rewrite wrap_i_id by (unfold is_i; lia).
  destruct (Z.ltb_spec d 0).
  - unfold i64_neg. rewrite wrap_i_id by (unfold is_i; lia). rewrite Z.sgn_neg by lia. lia.
  - destruct (decide (d = 0)) as [->|]; [by rewrite Z.div_0_l by lia|].
    rewrite Z.sgn_pos by lia. lia.
Qed.

Lemma significant_bits_spec next :
  next <> 0 -> - 2 ^ 63 < next < 2 ^ 63 ->
  1 <= significant_bits next <= 64 /\ 2 ^ (significant_bits next - 1) <= Z.abs next.
Proof.
  intros Hne Hn. unfold significant_bits.
  assert ((if next <? 0 then i64_neg next else next) = Z.abs next) as ->.
  { destruct (Z.ltb_spec next 0); [|lia]. unfold i64_neg. rewrite wrap_i_id; unfold is_i; lia. }
  rewrite (wrap_u_id 64) by (unfold is_u; lia).
  destruct (leading_zeros_spec (Z.abs next)) as [? ?]; [lia|unfold is_u; lia|].
  rewrite wrap_u_id by (unfold is_u; lia). lia.
Qed.

(** The new running value lies between the old one and [next] and differs
    from [next] by at most [|next| / 2 ^ (precision_bits - 1)]. *)
Lemma nearest_delta_bound next v pb tz :
  1 <= pb <= 64 -> - 2 ^ 62 < next < 2 ^ 62 -> - 2 ^ 62 < v < 2 ^ 62 ->
  let v' := i64_add v (nearest_delta next v pb tz).1 in
  Z.min v next <= v' <= Z.max v next /\ Z.abs (v' - next) * 2 ^ (pb - 1) <= Z.abs next.
Proof.
  intros Hpb Hn Hv. cbn zeta.
  destruct (nearest_delta_cases next v pb tz) as [->|[Hb ->]].
  { rewrite i64_add_sub by (unfold is_i; lia). split; lia. }
  assert (Hd : i64_sub next v = next - v) by (apply wrap_i_id; unfold is_i; lia). rewrite Hd.
  assert (Hne : next <> 0) by (intros ->; change (significant_bits 0) with 0 in Hb; lia).
  destruct (significant_bits_spec next Hne) as [Hbits Hlow]; [lia|].
  set (b := significant_bits next) in *.
  rewrite truncate_delta_spec by lia.
  set (p := 2 ^ (b - pb)). assert (0 < p) by (unfold p; lia).
  assert (Hpow : p * 2 ^ (pb - 1) = 2 ^ (b - 1)) by (unfold p; rewrite <-Z.pow_add_r by lia; f_equal; lia).
  set (q := Z.abs (next - v) / p * p).
  assert (Hq : 0 <= Z.abs (next - v) - q < p).
  { pose proof (Z.div_mod (Z.abs (next - v)) p). pose proof (Z.mod_pos_bound (Z.abs (next - v)) p).
    subst q. nia. }
  assert (0 <= q) by (subst q; apply Z.mul_nonneg_nonneg; [apply Z.div_pos|]; lia).
  assert (Hv' : i64_add v (Z.sgn (next - v) * q) = v + Z.sgn (next - v) * q).
  { apply wrap_i_id; [lia|]. unfold is_i. lia. }
  rewrite Hv'. split; [lia|].
  assert (Z.abs (v + Z.sgn (next - v) * q - next) = Z.abs (next - v) - q) as -> by lia.
  assert (0 < 2 ^ (pb - 1)) by lia. nia.
Qed.

Lemma tracked_bound pb v tz src :
  1 <= pb <= 64 -> - 2 ^ 62 < v < 2 ^ 62 -> Forall (fun x => - 2 ^ 62 < x < 2 ^ 62) src ->
  Forall2 (fun w x => Z.abs (w - x) * 2 ^ (pb - 1) <= Z.abs x) (tracked pb v tz src) src.
Proof.
  intros Hpb Hv Hs. revert v tz Hv. induction Hs as [|x src Hx Hs IH]; intros v tz Hv; cbn [tracked]; [constructor|].
  pose proof (nearest_delta_bound x v pb tz Hpb Hx Hv) as [Hb1 Hb2].
  destruct (nearest_delta x v pb tz) as [d tz']. cbn [fst] in *.
  constructor; [done|]. apply IH. lia.
Qed.

(** ** The properties *)

(** With 64 precision bits the delta encodings are lossless: decoding
    the bytes that either encoder produced for an [i64] array gives the array
    back, wrap-around differences included. *)
Theorem nearest_delta_lossless (src : list Z) :
  Forall is_i64 src -> (2 <= length src)%nat ->
  (exists data fv, marshal_int64_nearest_delta (E := delta_error) [] src 64 = Ok (data, fv) /\
     unmarshal_int64_nearest_delta [] data fv (length src) = Ok src) /\
  (exists data fv, marshal_int64_nearest_delta2 (E := delta_error) [] src 64 = Ok (data, fv) /\
     unmarshal_int64_nearest_delta2 [] data fv (length src) = Ok src).
Proof.
  intros Hs Hlen. destruct src as [|v0 [|v1 rest]]; cbn in Hlen; try lia. split.
  - eexists _, _. split; [reflexivity|].
    edestruct (nearest_delta_decode (E := delta_error) (v0 :: v1 :: rest) 64)
      as (v & r & [= <- <-] & _ & _ & H); [done|done|lia|reflexivity|exact H].
  - destruct (delta2_total (E := delta_error) (v0 :: v1 :: rest) 64)
      as (data & fv & l & ? & _ & _ & _ & ? & Hl); [cbn; lia|done|lia|].
    rewrite (Hl eq_refl) in *. eauto.
Qed.

Lemma nearest_delta_lossless_witness :
  exists data fv, marshal_int64_nearest_delta2 (E := delta_error) [] [2 ^ 63 - 1; - 2 ^ 63; 17] 64 = Ok (data, fv) /\
     unmarshal_int64_nearest_delta2 [] data fv 3 = Ok [2 ^ 63 - 1; - 2 ^ 63; 17].
Proof.
  apply (nearest_delta_lossless [2 ^ 63 - 1; - 2 ^ 63; 17]); [repeat constructor; done|cbn; lia].
Defined.

(** C35: with [precision_bits = pb], from 1 to 64, the delta encoding of values
    below 2^62 in magnitude (so that no difference wraps around) loses precision
    but does not drift: every decoded value [w] differs from the value [x] that was
    encoded by at most [|x| / 2 ^ (pb - 1)], however long the array. *)
Theorem nearest_delta_precision (src : list Z) (pb : Z) :
  src <> [] -> Forall (fun x => - 2 ^ 62 < x < 2 ^ 62) src -> 1 <= pb <= 64 ->
  exists data fv ws,
    marshal_int64_nearest_delta (E := delta_error) [] src pb = Ok (data, fv) /\
    unmarshal_int64_nearest_delta [] data fv (length src) = Ok ws /\
    Forall2 (fun w x => Z.abs (w - x) * 2 ^ (pb - 1) <= Z.abs x) ws src.
Proof.
  intros Hne Hs Hpb.
  assert (Hi : Forall is_i64 src) by (revert Hs; apply Forall_weaken; unfold is_i; lia).
  destruct src as [|v rest]; [done|].
  destruct (marshal_int64_nearest_delta (E := delta_error) [] (v :: rest) pb) as [[data fv]|?|] eqn:Hm.
  2,3: unfold marshal_int64_nearest_delta in Hm; by rewrite check_precision_bits_ok in Hm.
  destruct (nearest_delta_decode _ _ _ _ Hne Hi Hpb Hm) as (v' & r & [= <- <-] & -> & _ & Hu).
  eexists data, _, _. split_and!; [done|exact Hu|].
  inversion_clear Hs as [|? ? Hv Hrest]. constructor; [rewrite Z.sub_diag; lia|].
  case_match; [|by apply tracked_bound].
  clear. induction rest; constructor; [rewrite Z.sub_diag; lia|done].
Qed.

Lemma nearest_delta_precision_witness :
  exists data fv ws,
    marshal_int64_nearest_delta (E := delta_error) [] [1000; 1500; 900; -77] 4 = Ok (data, fv) /\
    unmarshal_int64_nearest_delta [] data fv 4 = Ok ws /\
    Forall2 (fun w x => Z.abs (w - x) * 2 ^ (4 - 1) <= Z.abs x) ws [1000; 1500; 900; -77].
Proof.
  apply (nearest_delta_precision [1000; 1500; 900; -77] 4); [done|repeat constructor; lia|lia].
Defined.
