(* ===== verification/Float64.v ===== *)
(** * IEEE 754 binary64

    The [f64] operations the modelled code uses, as the standard library's
    executable specification floats ([SpecFloat]) at precision 53 and maximal
    exponent 1024.  There is one NaN: payloads (the stale marker of
    [decimal.rs]) are modelled where they matter, on the bit pattern. *)
From Stdlib Require Import ZArith Bool SpecFloat.
From S2P Require Import Prelude.
Local Open Scope Z_scope.

Abbreviation f64 := spec_float.

(** [n as f64] for an integer: round to nearest, ties to even. *)
Definition f64_of_Z (n : Z) : f64 := binary_normalize 53 1024 n 0 false.
Definition f64_mul : f64 -> f64 -> f64 := SFmul 53 1024.
Definition f64_gt (x y : f64) : bool := SFltb y x.
Definition f64_lt (x y : f64) : bool := SFltb x y.
Definition f64_div : f64 -> f64 -> f64 := SFdiv 53 1024.

(** [f64::max]: a NaN loses against a number. *)
Definition f64_max (x y : f64) : f64 :=
  match x with
  | S754_nan => y
  | _ => if f64_lt x y then y else x
  end.

(** [x as u64]: truncation towards zero that saturates; NaN gives 0. *)
Definition f64_as_u64 (x : f64) : Z :=
  match x with
  | S754_zero _ | S754_nan | S754_infinity true | S754_finite true _ _ => 0
  | S754_infinity false => 2 ^ 64 - 1
  | S754_finite false m e => Z.min (Z.shiftl (Zpos m) e) (2 ^ 64 - 1)
  end.

(** The literals [0.05], [0.9] and [1.7]. *)
Definition f64_0_05 : f64 := S754_finite false 7205759403792794 (-57).
Definition f64_1_7 : f64 := S754_finite false 7656119366529843 (-52).
Definition f64_0_9 : f64 := S754_finite false 8106479329266893 (-53).
