(* ===== verification/Compress.v ===== *)
(** * ZSTD block compression

    Model of [esm-encoding/src/compress.rs].  The [zstd] crate is a parameter:
    [Zstd] lists the calls the code makes and [ZstdLaws] what their
    documentation promises. *)
From Stdlib Require Import ZArith Lia Bool.
From S2P Require Import Prelude IntCodec.
Local Open Scope Z_scope.

(** The calls into the crate.  A stream decoder yields the bytes it decodes
    before it ends or fails, and whether it ends cleanly; its first argument
    is the window limit, if one is set. *)
Class Zstd : Type := {
  zstd_compress : Z -> list Z -> list Z;
  zstd_frame_content_size : list Z -> option Z;
  zstd_decompress_to_buffer : list Z -> nat -> option (list Z);
  zstd_stream : option Z -> list Z -> list Z * bool;
}.

Class ZstdLaws (Zs : Zstd) : Prop := {
  (** a compressed block is a non-empty frame that records its content size *)
  zstd_compress_nonempty lvl b : bytes b -> zstd_compress lvl b <> [];
  zstd_compress_bytes lvl b : bytes b -> bytes (zstd_compress lvl b);
  zstd_compress_size lvl b :
    bytes b -> zstd_frame_content_size (zstd_compress lvl b) = Some (Z.of_nat (length b));
  (** [ZSTD_compressBound] *)
  zstd_compress_bound lvl b :
    bytes b -> (length (zstd_compress lvl b) <= length b + length b / 256 + 64)%nat;
  (** decompression into a buffer of that size restores the input *)
  zstd_compress_restore lvl b :
    bytes b -> zstd_decompress_to_buffer (zstd_compress lvl b) (length b) = Some b;
  (** a buffer is never overrun *)
  zstd_buffer_bound src cap out :
    zstd_decompress_to_buffer src cap = Some out -> (length out <= cap)%nat;
}.

Inductive zstd_error : Type :=
| ZstdDecode
| ZstdContentTooBig (content_size limit : Z)
| ZstdOutputTooBig (limit : Z).

Section Compress.
  Context {Zs : Zstd}.

Definition compress_zstd_level (dst src : list Z) (compress_level : Z) : list Z :=
  dst ++ zstd_compress compress_level src.

(** [dst] is resized to the frame's content size and truncated to what was
    written; on failure it is restored, so the error carries no state. *)
Definition decompress_zstd_internal (dst src : list Z) : res zstd_error (list Z) :=
  if (length src =? 0)%nat then Ok dst
  else match zstd_frame_content_size src with
  | Some content_size =>
      match zstd_decompress_to_buffer src (Z.to_nat content_size) with
      | Some out => Ok (dst ++ out)
      | None => Err ZstdDecode
      end
  | None =>
      let '(out, clean) := zstd_stream None src in
      if clean : bool then Ok (dst ++ out) else Err ZstdDecode
  end.

Definition decompress_zstd (dst src : list Z) : res zstd_error (list Z) :=
  decompress_zstd_internal dst src.

(** [ceil_log2]: at least 10. *)
Definition ceil_log2 (n : Z) : Z :=
  let m := Z.max 0 (n - 1) in
  Z.max (if m =? 0 then 0 else Z.log2 m + 1) 10.

(** [decoder.take(n).read_to_end]: at most [n] bytes; an error of the decoder
    is seen only when it comes before the limit. *)
Definition read_take (n : nat) (s : list Z * bool) : option (list Z) :=
  let '(out, clean) := s in
  if (n <=? length out)%nat then Some (take n out) else if clean : bool then Some out else None.

Definition decompress_zstd_limited (dst src : list Z) (max_data_size_bytes : Z)
    : res zstd_error (list Z) :=
  if (length src =? 0)%nat then Ok dst
  else if max_data_size_bytes =? 0 then decompress_zstd_internal dst src
  else match zstd_frame_content_size src with
  | Some content_size =>
      if content_size >? max_data_size_bytes
      then Err (ZstdContentTooBig content_size max_data_size_bytes)
      else decompress_zstd_internal dst src
  | None =>
      let window_log_max := ceil_log2 max_data_size_bytes in
      match read_take (Z.to_nat (max_data_size_bytes + 1)) (zstd_stream (Some window_log_max) src) with
      | Some out =>
          if Z.of_nat (length out) >? max_data_size_bytes
          then Err (ZstdOutputTooBig max_data_size_bytes)
          else Ok (dst ++ out)
      | None => Err ZstdDecode
      end
  end.

(** [is_zstd]: the little-endian magic number 0xFD2FB528. *)
Definition is_zstd (data : list Z) : bool :=
  (4 <=? length data)%nat && (from_le_bytes (take 4 data) =? 0xFD2FB528).

Context {Zl : ZstdLaws Zs}.

Lemma decompress_compress lvl b : bytes b -> decompress_zstd [] (compress_zstd_level [] b lvl) = Ok b.
Proof.
  intros Hb. unfold decompress_zstd, decompress_zstd_internal, compress_zstd_level. cbn [app].
  pose proof (zstd_compress_nonempty lvl b Hb) as Hne.
  destruct (Nat.eqb_spec (length (zstd_compress lvl b)) 0) as [E|_].
  { by destruct (zstd_compress lvl b). }
  by rewrite zstd_compress_size, Nat2Z.id, zstd_compress_restore.
Qed.

Lemma decompress_no_panic dst src : no_panic (decompress_zstd dst src).
Proof. unfold decompress_zstd, decompress_zstd_internal. by repeat case_match. Qed.

(** [decompress_zstd_limited] never appends more than
    [max_data_size_bytes] bytes to [dst], whatever the (untrusted) input
    claims or contains. *)
Theorem decompress_limited_bound (dst src out : list Z) (limit : Z) :
  0 < limit -> decompress_zstd_limited dst src limit = Ok out ->
  exists data, out = dst ++ data /\ Z.of_nat (length data) <= limit.
Proof.
  intros Hl. unfold decompress_zstd_limited, decompress_zstd_internal.
  destruct (Nat.eqb_spec (length src) 0).
  { intros [= <-]. exists []. rewrite app_nil_r. split; [done|cbn; lia]. }
  rewrite (proj2 (Z.eqb_neq limit 0)) by lia.
  destruct (zstd_frame_content_size src) as [cs|].
  - rewrite Z.gtb_ltb. destruct (Z.ltb_spec limit cs); [done|].
    destruct (zstd_decompress_to_buffer src (Z.to_nat cs)) as [o|] eqn:Ho; [|done].
    intros [= <-]. exists o. split; [done|]. apply zstd_buffer_bound in Ho. lia.
  - destruct (read_take _ _) as [o|]; [|done].
    rewrite Z.gtb_ltb. destruct (Z.ltb_spec limit (Z.of_nat (length o))); [done|].
    intros [= <-]. by exists o.
Qed.
End Compress.

(** A concrete codec, for the witnesses: a frame is four magic bytes, the
    content size as eight bytes and the content itself. *)
Definition zstd_magic : list Z := [0x28; 0xB5; 0x2F; 0xFD].
Definition stored_content (src : list Z) : list Z := drop 12 src.
Definition stored_zstd : Zstd := {|
  zstd_compress _ b := zstd_magic ++ to_be_bytes 8 (Z.of_nat (length b)) ++ b;
  zstd_frame_content_size src :=
    if is_zstd src && (12 <=? length src)%nat then Some (Z.of_nat (length (stored_content src))) else None;
  zstd_decompress_to_buffer src cap :=
    if (length (stored_content src) <=? cap)%nat then Some (stored_content src) else None;
  zstd_stream _ src := ([], false);
|}.

Lemma stored_zstd_laws : ZstdLaws stored_zstd.
Proof.
  split; cbn -[to_be_bytes].
  - done.
  - intros lvl b Hb. repeat (constructor; [done|]). apply bytes_app.
    split; [apply bytes_to_be_bytes|done].
  - intros lvl b Hb. unfold stored_content. cbn -[to_be_bytes].
    rewrite length_app, length_to_be_bytes. cbn -[to_be_bytes].
    by rewrite (drop_app_length' _ _ 8) by (by rewrite length_to_be_bytes).
  - intros lvl b Hb. rewrite length_app, length_to_be_bytes. lia.
  - intros lvl b Hb. unfold stored_content. cbn -[to_be_bytes].
    rewrite (drop_app_length' _ _ 8) by (by rewrite length_to_be_bytes).
    by rewrite Nat.leb_refl.
  - intros src cap out. destruct (Nat.leb_spec (length (stored_content src)) cap); [|done].
    by intros [= <-].
Qed.

Lemma decompress_limited_bound_witness :
  exists data, [7; 1; 2; 3] = [7] ++ data /\ Z.of_nat (length data) <= 3.
Proof.
  apply (decompress_limited_bound (Zl := stored_zstd_laws) [7] (zstd_magic ++ to_be_bytes 8 3 ++ [1; 2; 3]) _ 3);
    [lia|reflexivity].
Defined.
