(* ===== verification/ArrayCodec.v ===== *)
(** * Array codec with automatic encoding selection

    Model of [esm-encoding/src/encoding.rs] (and the all-zeros / all-ones
    helpers of [esm-common/src/fastnum.rs]): the choice between constant,
    constant-delta, delta and second-delta encodings, compression when it
    pays, the decoder, and the repair of timestamps after lossy encoding. *)
From Stdlib Require Import ZArith Lia Bool Sorted.
From S2P Require Import Prelude IntCodec NearestDelta Float64 Compress.
Local Open Scope Z_scope.

(** ** Marshal types *)

Inductive MarshalType : Type :=
| ZstdNearestDelta2
| DeltaConst
| Const
| ZstdNearestDelta
| NearestDelta2
| NearestDelta.

Global Instance MarshalType_eq_dec : EqDecision MarshalType.
Proof. solve_decision. Defined.

Definition needs_validation (mt : MarshalType) : bool :=
  match mt with NearestDelta2 | NearestDelta => true | _ => false end.

Definition MarshalType_from_u8 (v : Z) : option MarshalType :=
  match v with
  | 1 => Some ZstdNearestDelta2
  | 2 => Some DeltaConst
  | 3 => Some Const
  | 4 => Some ZstdNearestDelta
  | 5 => Some NearestDelta2
  | 6 => Some NearestDelta
  | _ => None
  end.

Definition MarshalType_as_u8 (mt : MarshalType) : Z :=
  match mt with
  | ZstdNearestDelta2 => 1
  | DeltaConst => 2
  | Const => 3
  | ZstdNearestDelta => 4
  | NearestDelta2 => 5
  | NearestDelta => 6
  end.

Definition check_marshal_type (mt : Z) : res Z unit := guard_ (mt >? 6) mt.

Definition MIN_COMPRESSIBLE_BLOCK_SIZE : nat := 128.

(** ** Classification *)

(** [fastnum]. *)
Definition append_int64_zeros (dst : list Z) (items : nat) : list Z := dst ++ replicate items 0.
Definition append_int64_ones (dst : list Z) (items : nat) : list Z := dst ++ replicate items 1.
Definition is_int64_zeros (a : list Z) : bool := forallb (fun x => x =? 0) a.
Definition is_int64_ones (a : list Z) : bool := forallb (fun x => x =? 1) a.

Definition is_const (a : list Z) : bool :=
  match a with
  | [] => false
  | v1 :: _ =>
      if is_int64_zeros a then true
      else if is_int64_ones a then true
      else forallb (fun v => v =? v1) a
  end.

(** The loop of [is_delta_const] over [a[2..]]. *)
Fixpoint delta_const_loop (d1 prev : Z) (a : list Z) : bool :=
  match a with
  | [] => true
  | next :: a' => if negb (i64_sub next prev =? d1) then false else delta_const_loop d1 next a'
  end.

Definition is_delta_const (a : list Z) : bool :=
  match a with
  | a0 :: a1 :: rest => delta_const_loop (i64_sub a1 a0) a1 rest
  | _ => false
  end.

(** The loop of [is_gauge]: [None] when it returns true early, otherwise the
    number of possible counter resets. *)
Fixpoint gauge_loop (v_prev : Z) (resets : nat) (a : list Z) : option nat :=
  match a with
  | [] => Some resets
  | v :: a' =>
      if v <? v_prev then
        if v <? 0 then None
        else if v >? Z.shiftr v_prev 3 then None
        else gauge_loop v (S resets) a'
      else gauge_loop v resets a'
  end.

Definition is_gauge (a : list Z) : bool :=
  match a with
  | v_prev :: ((_ :: _) as rest) =>
      if v_prev <? 0 then true
      else match gauge_loop v_prev 0 rest with
      | None => true
      | Some resets =>
          if (resets <=? 2)%nat then false else (length a / 8 <? resets)%nat
      end
  | _ => false
  end.

Definition get_compress_level (items_count : nat) : Z :=
  let n := Z.of_nat items_count in
  if n <=? Z.shiftl 1 6 then 1
  else if n <=? Z.shiftl 1 8 then 2
  else if n <=? Z.shiftl 1 10 then 3
  else if n <=? Z.shiftl 1 12 then 4
  else 5.

(** ** Encoder *)

(** [(dst.len() - dst_orig_len) as f64 > 0.9 * bb.len() as f64]. *)
Definition ineffective (packed plain : nat) : bool :=
  f64_gt (f64_of_Z (Z.of_nat packed)) (f64_mul f64_0_9 (f64_of_Z (Z.of_nat plain))).

Section Codec.
  Context {Zs : Zstd}.

Definition marshal_int64_array {E} (dst a : list Z) (precision_bits : Z)
    : res E (list Z * (MarshalType * Z)) :=
  match a with
  | [] => Panic
  | a0 :: a' =>
    if is_const a then Ok (dst, (Const, a0))
    else if is_delta_const a then
      match a' with
      | [] => Panic
      | a1 :: _ => Ok (marshal_var_int64 dst (i64_sub a1 a0), (DeltaConst, a0))
      end
    else
      let gauge := is_gauge a in
      '(bb, first_value) ←
        (if gauge : bool then
           let pb := if precision_bits <? 6 then precision_bits + 2 else precision_bits in
           marshal_int64_nearest_delta [] a pb
         else marshal_int64_nearest_delta2 [] a precision_bits);
      let dst_orig_len := length dst in
      let packed :=
        if (MIN_COMPRESSIBLE_BLOCK_SIZE <=? length bb)%nat
        then compress_zstd_level dst bb (get_compress_level (length a)) else dst in
      if (length bb <? MIN_COMPRESSIBLE_BLOCK_SIZE)%nat
         || ineffective (length packed - dst_orig_len) (length bb)
      then Ok (take dst_orig_len packed ++ bb,
               (if gauge then NearestDelta else NearestDelta2, first_value))
      else Ok (packed, (if gauge then ZstdNearestDelta else ZstdNearestDelta2, first_value))
  end.

(** ** Decoder *)

Inductive array_error : Type :=
| CannotDecompress (e : zstd_error)
| DeltaData (after_zstd : bool) (e : delta_error)
| Delta2Data (after_zstd : bool) (e : delta_error)
| ConstDataLeft (n : nat)
| DeltaConstVarint
| DeltaConstTrailing (d : Z) (n : nat).

(** [for _ in 0..items_count { dst.push(v); v = v.wrapping_add(d) }]. *)
Fixpoint arith_seq (v d : Z) (items_count : nat) : list Z :=
  match items_count with
  | O => []
  | S n => v :: arith_seq (i64_add v d) d n
  end.

Definition unmarshal_int64_array (dst src : list Z) (mt : MarshalType) (first_value : Z)
    (items_count : nat) : res array_error (list Z) :=
  match mt with
  | ZstdNearestDelta =>
      bb ← map_err CannotDecompress (decompress_zstd [] src);
      map_err (DeltaData true) (unmarshal_int64_nearest_delta dst bb first_value items_count)
  | ZstdNearestDelta2 =>
      bb ← map_err CannotDecompress (decompress_zstd [] src);
      map_err (Delta2Data true) (unmarshal_int64_nearest_delta2 dst bb first_value items_count)
  | NearestDelta =>
      map_err (DeltaData false) (unmarshal_int64_nearest_delta dst src first_value items_count)
  | NearestDelta2 =>
      map_err (Delta2Data false) (unmarshal_int64_nearest_delta2 dst src first_value items_count)
  | Const =>
      _ ← guard_ (negb (length src =? 0)%nat) (ConstDataLeft (length src));
      if first_value =? 0 then Ok (append_int64_zeros dst items_count)
      else if first_value =? 1 then Ok (append_int64_ones dst items_count)
      else Ok (dst ++ replicate items_count first_value)
  | DeltaConst =>
      '(d, n_len) ← ok_or (unmarshal_var_int64 src) DeltaConstVarint;
      _ ← guard_ (n_len <? length src)%nat (DeltaConstTrailing d (length src - n_len));
      Ok (dst ++ arith_seq first_value d items_count)
  end.

(** The wrappers for timestamps and values add context to the error. *)
Inductive column_error : Type :=
| CannotUnmarshalTimestamps (items_count src_len : nat) (e : array_error)
| CannotUnmarshalValues (items_count src_len : nat) (e : array_error).

Definition marshal_timestamps {E} (dst timestamps : list Z) (precision_bits : Z)
    : res E (list Z * (MarshalType * Z)) := marshal_int64_array dst timestamps precision_bits.
Definition unmarshal_timestamps (dst src : list Z) (mt : MarshalType) (first_timestamp : Z)
    (items_count : nat) : res column_error (list Z) :=
  map_err (CannotUnmarshalTimestamps items_count (length src))
    (unmarshal_int64_array dst src mt first_timestamp items_count).
Definition marshal_values {E} (dst values : list Z) (precision_bits : Z)
    : res E (list Z * (MarshalType * Z)) := marshal_int64_array dst values precision_bits.
Definition unmarshal_values (dst src : list Z) (mt : MarshalType) (first_value : Z)
    (items_count : nat) : res column_error (list Z) :=
  map_err (CannotUnmarshalValues items_count (length src))
    (unmarshal_int64_array dst src mt first_value items_count).
End Codec.

(** ** Repairing an almost sorted sequence *)

(** The forward loop: raise every item below its predecessor. *)
Fixpoint raise_loop (v_prev : Z) (a : list Z) : list Z :=
  match a with
  | [] => []
  | v :: a' => let v := if v <? v_prev then v_prev else v in v :: raise_loop v a'
  end.

(** The backward loop [while i > 0 && a[i-1] > v_max]. *)
Fixpoint clamp_loop (a : list Z) (i : nat) (v_max : Z) : list Z :=
  match i with
  | O => a
  | S i' =>
      match a !! i' with
      | Some x => if x >? v_max then clamp_loop (<[i' := v_max]> a) i' v_max else a
      | None => a
      end
  end.

Definition ensure_non_decreasing_sequence {E} (a : list Z) (v_min v_max : Z) : res E (list Z) :=
  _ ← assert_ (v_min <=? v_max);
  match a with
  | [] => Ok []
  | _ :: a' =>
      let a := v_min :: raise_loop v_min a' in
      let i := (length a - 1)%nat in
      match a !! i with
      | None => Panic
      | Some last =>
          if negb (last =? v_max) then Ok (clamp_loop (<[i := v_max]> a) i v_max) else Ok a
      end
  end.

(** ** Lemmas on the classification *)

Lemma forallb_eqb_replicate v a : forallb (fun x => x =? v) a = true -> a = replicate (length a) v.
Proof.
  induction a as [|x a IH]; cbn; [done|]. intros [H1 H2]%andb_true_iff.
  apply Z.eqb_eq in H1. subst. by rewrite <-IH.
Qed.

Lemma is_const_replicate a0 a' :
  is_const (a0 :: a') = true -> a0 :: a' = replicate (length (a0 :: a')) a0.
Proof.
  cbn [is_const]. intros H.
  enough (exists v, forallb (fun x => x =? v) (a0 :: a') = true) as [v Hv].
  { pose proof (forallb_eqb_replicate _ _ Hv) as Heq. cbn in Hv. apply andb_true_iff in Hv as [Hv _].
    apply Z.eqb_eq in Hv. by subst. }
  unfold is_int64_zeros, is_int64_ones in H. repeat case_match; eauto.
Qed.

Lemma delta_const_arith d1 prev a :
  Forall is_i64 a -> delta_const_loop d1 prev a = true ->
  a = arith_seq (i64_add prev d1) d1 (length a).
Proof.
  intros Ha. revert prev. induction Ha as [|x a Hx Ha IH]; intros prev; cbn; [done|].
  destruct (Z.eqb_spec (i64_sub x prev) d1) as [Hd|]; cbn; [|done]. intros Hr.
  assert (i64_add prev d1 = x) as -> by (rewrite <-Hd; by apply i64_add_sub).
  by rewrite <-IH.
Qed.

Lemma not_const_length a : a <> [] -> is_const a = false -> (2 <= length a)%nat.
Proof.
  destruct a as [|x [|y a]]; cbn; try done; try lia.
  rewrite Z.eqb_refl, !andb_true_r. intros _. by repeat case_match.
Qed.

(** ** Lossless round trip *)

Section Roundtrip.
  Context {Zs : Zstd} {Zl : ZstdLaws Zs}.

(** Decoding whatever representation the compression step picked. *)
Lemma pick_compression_decode (gauge : bool) bb fv n a :
  bytes bb ->
  (if gauge then unmarshal_int64_nearest_delta [] bb fv n = Ok a
   else unmarshal_int64_nearest_delta2 [] bb fv n = Ok a) ->
  let packed := if (MIN_COMPRESSIBLE_BLOCK_SIZE <=? length bb)%nat
    then compress_zstd_level [] bb (get_compress_level n) else [] in
  let '(data, mt) :=
    if (length bb <? MIN_COMPRESSIBLE_BLOCK_SIZE)%nat || ineffective (length packed - 0) (length bb)
    then (take 0 packed ++ bb, if gauge then NearestDelta else NearestDelta2)
    else (packed, if gauge then ZstdNearestDelta else ZstdNearestDelta2) in
  bytes data /\ (length data <= length bb + length bb / 256 + 64)%nat /\
  unmarshal_int64_array [] data mt fv n = Ok a.
Proof.
  intros Hbb Hdec packed. subst packed.
  destruct (Nat.ltb_spec (length bb) MIN_COMPRESSIBLE_BLOCK_SIZE) as [Hs|Hs]; cbn [orb].
  - rewrite take_0. cbn [app]. split_and!; [done|lia|]. destruct gauge; cbn; by rewrite Hdec.
  - rewrite (proj2 (Nat.leb_le _ _)) by done. destruct (ineffective _ _); cbn [app].
    + rewrite take_0. split_and!; [done|cbn [app]; lia|]. destruct gauge; cbn; by rewrite Hdec.
    + split_and!; [by apply zstd_compress_bytes|by apply zstd_compress_bound|].
      destruct gauge; cbn [unmarshal_int64_array];
        rewrite decompress_compress by done; cbn; by rewrite Hdec.
Qed.

(** What the encoder promises: the encoding is short and decodes, exactly
    when nothing was rounded. *)
Definition encodes (a : list Z) (pb : Z) (data : list Z) (mt : MarshalType) (fv : Z) : Prop :=
  bytes data /\ head a = Some fv /\ (length data <= 11 * length a + 64)%nat /\
  exists l, unmarshal_int64_array [] data mt fv (length a) = Ok l /\ (pb = 64 -> l = a).

Lemma marshal_const_encodes a0 a' pb :
  is_const (a0 :: a') = true -> encodes (a0 :: a') pb [] Const a0.
Proof.
  intros Hc. split_and!; [constructor|done|cbn; lia|]. exists (a0 :: a'). split; [|done].
  rewrite (is_const_replicate _ _ Hc) at 2. cbn [unmarshal_int64_array].
  change (length (A := Z) []) with 0%nat. cbn [Nat.eqb negb guard_ mbind res_bind].
  destruct (Z.eqb_spec a0 0) as [->|]; [done|]. by destruct (Z.eqb_spec a0 1) as [->|].
Qed.

Lemma marshal_delta_const_encodes a0 a1 rest pb :
  Forall is_i64 (a0 :: a1 :: rest) -> is_delta_const (a0 :: a1 :: rest) = true ->
  encodes (a0 :: a1 :: rest) pb (marshal_var_int64 [] (i64_sub a1 a0)) DeltaConst a0.
Proof.
  intros Ha Hdc. inversion_clear Ha as [|? ? Ha0 Ha1]. inversion_clear Ha1 as [|? ? Ha1' Hrest].
  pose proof (marshal_var_int64_varint (i64_sub a1 a0) ltac:(auto with esm)) as Hvar.
  split_and!; [by eapply varint_of_bytes|done|apply varint_of_length in Hvar; cbn [length]; lia|].
  exists (a0 :: a1 :: rest). split; [|done]. cbn [unmarshal_int64_array].
  pose proof (unmarshal_var_int64_app (i64_sub a1 a0) [] ltac:(auto with esm)) as Hu.
  rewrite app_nil_r in Hu. rewrite Hu. cbn [ok_or mbind res_bind].
  rewrite Nat.ltb_irrefl. cbn [guard_ mbind res_bind app length arith_seq].
  rewrite i64_add_sub by done. cbn in Hdc. do 3 f_equal. symmetry. by apply delta_const_arith.
Qed.

Lemma marshal_array_total {E} a pb :
  a <> [] -> Forall is_i64 a -> 1 <= pb <= 64 ->
  exists data mt fv, marshal_int64_array (E := E) [] a pb = Ok (data, (mt, fv)) /\
    encodes a pb data mt fv.
Proof.
  intros Hne Ha Hpb. destruct a as [|a0 a']; [done|]. clear Hne.
  unfold marshal_int64_array. destruct (is_const (a0 :: a')) eqn:Hc.
  { eexists _, _, _. split; [reflexivity|]. by apply marshal_const_encodes. }
  destruct (is_delta_const (a0 :: a')) eqn:Hdc.
  { destruct a' as [|a1 rest]; [done|]. eexists _, _, _. split; [reflexivity|].
    by apply marshal_delta_const_encodes. }
  assert (Hlen : (2 <= length (a0 :: a'))%nat) by (by apply not_const_length).
  set (a := a0 :: a') in *. set (gauge := is_gauge a).
  set (pb' := if pb <? 6 then pb + 2 else pb).
  assert (Hpb' : 1 <= pb' <= 64 /\ (pb = 64 -> pb' = 64)) by (subst pb'; destruct (Z.ltb_spec pb 6); lia).
  assert (Hbb : exists bb fv l, (if gauge then marshal_int64_nearest_delta (E := E) [] a pb'
      else marshal_int64_nearest_delta2 [] a pb) = Ok (bb, fv) /\ head a = Some fv /\ bytes bb /\
    (length bb <= 10 * length a)%nat /\
    (if gauge then unmarshal_int64_nearest_delta [] bb fv (length a) = Ok l
     else unmarshal_int64_nearest_delta2 [] bb fv (length a) = Ok l) /\ (pb = 64 -> l = a)).
  { destruct gauge.
    - destruct (delta_total (E := E) a pb') as (bb & fv & l & ? & ? & ? & ? & ? & Hl); [done|done|lia|].
      exists bb, fv, l. split_and!; try done. intros; apply Hl; lia.
    - destruct (delta2_total (E := E) a pb) as (bb & fv & l & ? & ? & ? & ? & ? & Hl); [done|done|lia|].
      by exists bb, fv, l. }
  destruct Hbb as (bb & fv & l & Hm & Hh & Hb & Hbl & Hu & Hl).
  pose proof (pick_compression_decode gauge bb fv (length a) l Hb Hu) as Hp.
  rewrite Hm. cbn [mbind res_bind length]. cbv zeta in Hp.
  assert (length bb / 256 <= length a)%nat by (apply Nat.Div0.div_le_upper_bound; lia).
  case_match; case_match; simplify_eq; destruct Hp as (Hp1 & Hp2 & Hp3);
    eexists _, _, _; (split; [reflexivity|]); (split_and!; [done|done|lia|by exists l]).
Qed.

Lemma marshal_array_roundtrip {E} a :
  a <> [] -> Forall is_i64 a ->
  exists data mt fv, marshal_int64_array (E := E) [] a 64 = Ok (data, (mt, fv)) /\
    bytes data /\ head a = Some fv /\ unmarshal_int64_array [] data mt fv (length a) = Ok a.
Proof.
  intros Hne Ha. destruct (marshal_array_total (E := E) a 64 Hne Ha ltac:(lia))
    as (data & mt & fv & Hm & Hb & Hh & _ & l & Hu & Hl).
  rewrite (Hl eq_refl) in Hu. by exists data, mt, fv.
Qed.
End Roundtrip.

(** ** The decoder: shape of the result and panics *)

Lemma length_undelta v ds : length (undelta v ds) = length ds.
Proof. revert v. induction ds; intros; cbn; congruence. Qed.
Lemma length_undelta2 v d ds : length (undelta2 v d ds) = length ds.
Proof. revert v d. induction ds; intros; cbn; congruence. Qed.
Lemma length_arith_seq v d n : length (arith_seq v d n) = n.
Proof. revert v. induction n; intros; cbn; congruence. Qed.
Lemma undelta_range v ds : Forall is_i64 (undelta v ds).
Proof. revert v. induction ds; intros; constructor; auto with esm. Qed.
Lemma undelta2_range v d ds : Forall is_i64 (undelta2 v d ds).
Proof. revert v d. induction ds; intros; constructor; auto with esm. Qed.
Lemma arith_seq_range v d n : is_i64 v -> Forall is_i64 (arith_seq v d n).
Proof. revert v. induction n; intros; constructor; auto with esm. Qed.

Lemma unmarshal_delta_shape dst src fv n l :
  is_i64 fv -> unmarshal_int64_nearest_delta dst src fv n = Ok l ->
  exists vs, l = dst ++ vs /\ length vs = n /\ Forall is_i64 vs.
Proof.
  intros Hfv. unfold unmarshal_int64_nearest_delta. intros H. res_inv. subst.
  apply Nat.leb_le in Hm. apply read_deltas_length in Hm0. eexists. split; [done|]. cbn.
  rewrite length_undelta. split; [lia|]. constructor; [done|apply undelta_range].
Qed.

Lemma unmarshal_delta2_shape dst src fv n l :
  is_i64 fv -> unmarshal_int64_nearest_delta2 dst src fv n = Ok l ->
  exists vs, l = dst ++ vs /\ length vs = n /\ Forall is_i64 vs.
Proof.
  intros Hfv. unfold unmarshal_int64_nearest_delta2. intros H. res_inv. subst.
  apply Nat.leb_le in Hm. apply read_deltas_length in Hm0. case_match; [done|]. res_inv. subst.
  cbn in Hm0. eexists. split; [done|]. cbn.
  rewrite length_undelta2. split; [lia|].
  constructor; [done|constructor; [auto with esm|apply undelta2_range]].
Qed.

Section Decoder.
  Context {Zs : Zstd}.

(** A successful decode appends exactly [items_count] [i64] values. *)
Lemma unmarshal_array_shape dst src mt fv n l :
  is_i64 fv -> unmarshal_int64_array dst src mt fv n = Ok l ->
  exists vs, l = dst ++ vs /\ length vs = n /\ Forall is_i64 vs.
Proof.
  intros Hfv. destruct mt; cbn [unmarshal_int64_array]; intros H; res_inv.
  - by eapply unmarshal_delta2_shape.
  - destruct a as [d m]. res_inv. subst. eexists. split; [done|].
    by rewrite length_arith_seq; split; [|apply arith_seq_range].
  - repeat case_match; res_inv; subst; eexists; (split; [done|]); rewrite length_replicate;
      (split; [done|]); by apply Forall_replicate.
  - by eapply unmarshal_delta_shape.
  - by eapply unmarshal_delta2_shape.
  - by eapply unmarshal_delta_shape.
Qed.

(** The least number of items a representation can hold. *)
Definition min_items (mt : MarshalType) : nat :=
  match mt with
  | ZstdNearestDelta2 | NearestDelta2 => 2
  | ZstdNearestDelta | NearestDelta => 1
  | Const | DeltaConst => 0
  end.

Lemma unmarshal_delta_no_panic dst src fv n :
  (1 <= n)%nat -> no_panic (unmarshal_int64_nearest_delta dst src fv n).
Proof.
  intros Hn. unfold unmarshal_int64_nearest_delta. rewrite (proj2 (Nat.leb_le _ _)) by done. cbn.
  apply no_panic_bind; [apply read_deltas_no_panic|done].
Qed.

Lemma unmarshal_delta2_no_panic dst src fv n :
  (2 <= n)%nat -> no_panic (unmarshal_int64_nearest_delta2 dst src fv n).
Proof.
  intros Hn. unfold unmarshal_int64_nearest_delta2. rewrite (proj2 (Nat.leb_le _ _)) by done. cbn.
  apply no_panic_bind; [apply read_deltas_no_panic|]. intros ds Hds%read_deltas_length.
  destruct ds; [cbn in Hds; lia|done].
Qed.

Lemma unmarshal_array_no_panic dst src mt fv n :
  (min_items mt <= n)%nat -> no_panic (unmarshal_int64_array dst src mt fv n).
Proof.
  intros Hn. destruct mt; cbn [unmarshal_int64_array min_items] in *.
  - apply no_panic_bind; [apply no_panic_map_err, decompress_no_panic|]. intros bb _.
    by apply no_panic_map_err, unmarshal_delta2_no_panic.
  - apply no_panic_bind; [auto with esm|]. intros [d m] _. apply no_panic_bind; auto with esm.
  - apply no_panic_bind; [auto with esm|]. intros _ _. by repeat case_match.
  - apply no_panic_bind; [apply no_panic_map_err, decompress_no_panic|]. intros bb _.
    by apply no_panic_map_err, unmarshal_delta_no_panic.
  - by apply no_panic_map_err, unmarshal_delta2_no_panic.
  - by apply no_panic_map_err, unmarshal_delta_no_panic.
Qed.
End Decoder.

Lemma from_as_u8 mt : MarshalType_from_u8 (MarshalType_as_u8 mt) = Some mt.
Proof. by destruct mt. Qed.

Lemma as_u8_range mt : 1 <= MarshalType_as_u8 mt <= 6.
Proof. destruct mt; cbn; lia. Qed.

Lemma length_marshal_delta2 {Zs : Zstd} {E} a pb data mt fv :
  marshal_int64_array (E := E) [] a pb = Ok (data, (mt, fv)) -> (min_items mt <= length a)%nat.
Proof.
  unfold marshal_int64_array. destruct a as [|x a]; [done|].
  destruct (is_const (x :: a)) eqn:Hc; [intros [= <- <- <-]; cbn; lia|].
  assert (2 <= length (x :: a))%nat by (by apply not_const_length).
  intros. assert (min_items mt <= 2)%nat by (destruct mt; cbn; lia). lia.
Qed.

(** ** Repairing timestamps *)

Lemma raise_loop_sorted v a : sortedZ (v :: raise_loop v a).
Proof.
  revert v. induction a as [|x a IH]; intros v; cbn [raise_loop]; [repeat constructor|].
  set (y := if x <? v then v else x).
  assert (v <= y) by (subst y; destruct (Z.ltb_spec x v); lia).
  specialize (IH y). apply StronglySorted_cons. split; [|done].
  apply StronglySorted_cons in IH as [IH _]. constructor; [done|].
  revert IH. apply Forall_weaken. lia.
Qed.

Lemma raise_loop_id v a : sortedZ (v :: a) -> raise_loop v a = a.
Proof.
  revert v. induction a as [|x a IH]; intros v Hs; cbn [raise_loop]; [done|].
  apply StronglySorted_cons in Hs as [Hv Hs]. inversion Hv; subst.
  destruct (Z.ltb_spec x v); [lia|]. by rewrite IH.
Qed.

Lemma length_raise_loop v a : length (raise_loop v a) = length a.
Proof. revert v. induction a; intros; cbn; congruence. Qed.

(** The backward loop lowers a sorted prefix to at most [v_max]. *)
Lemma clamp_loop_spec v_max i : forall a,
  (i <= length a)%nat -> sortedZ (take i a) ->
  clamp_loop a i v_max = map (Z.min v_max) (take i a) ++ drop i a.
Proof.
  induction i as [|i IH]; intros a Hi Hs; cbn [clamp_loop]; [by rewrite drop_0|].
  destruct (a !! i) as [x|] eqn:Hx; [|apply lookup_ge_None in Hx; lia].
  assert (Ht : take (S i) a = take i a ++ [x]) by (by apply take_S_r).
  rewrite Ht in *. apply sortedZ_snoc in Hs as [Hs Hle].
  rewrite Z.gtb_ltb. destruct (Z.ltb_spec v_max x).
  - assert (Hti : take i (<[i:=v_max]> a) = take i a) by (by rewrite take_insert_ge by lia).
    rewrite IH; [|rewrite length_insert; lia|by rewrite Hti].
    rewrite Hti, map_app, <-app_assoc. f_equal.
    erewrite (drop_S (<[i:=v_max]> a) v_max) by (apply list_lookup_insert_eq; lia).
    rewrite drop_insert_lt by lia. cbn. by rewrite Z.min_l by lia.
  - rewrite map_app. cbn. rewrite Z.min_r by lia.
    rewrite (map_ext_Forall _ (fun y => y)).
    2:{ revert Hle. apply Forall_weaken. lia. }
    rewrite map_id, <-app_assoc. cbn. rewrite <-(take_drop i a) at 1. f_equal. by apply drop_S.
Qed.

Lemma map_min_sorted v l : sortedZ l -> sortedZ (map (Z.min v) l).
Proof.
  induction 1 as [|x l Hl IH Hx]; cbn; [constructor|]. apply StronglySorted_cons. split; [|done].
  apply Forall_map. revert Hx. apply Forall_weaken. lia.
Qed.

(** The closed form of the repair. *)
Lemma ensure_spec {E} x a v_min v_max :
  v_min <= v_max ->
  let a1 := v_min :: raise_loop v_min a in
  ensure_non_decreasing_sequence (E := E) (x :: a) v_min v_max
  = Ok (map (Z.min v_max) (take (length a) a1) ++ [v_max]).
Proof.
  intros Hv a1. unfold ensure_non_decreasing_sequence.
  rewrite (proj2 (Z.leb_le _ _)) by done. cbn [assert_ mbind res_bind]. fold a1.
  assert (Hlen : length a1 = S (length a)) by (subst a1; cbn; by rewrite length_raise_loop).
  rewrite Hlen. replace (S (length a) - 1)%nat with (length a) by lia.
  destruct (a1 !! length a) as [l|] eqn:Hl; [|apply lookup_ge_None in Hl; lia].
  assert (Hs : sortedZ a1) by apply raise_loop_sorted.
  assert (Ha1 : a1 = take (length a) a1 ++ [l]).
  { rewrite <-(take_S_r _ _ _ Hl), take_ge; [done|lia]. }
  rewrite Ha1 in Hs. apply sortedZ_snoc in Hs as [Hs Hle].
  destruct (Z.eqb_spec l v_max) as [->|Hne]; cbn [negb]; f_equal.
  - rewrite (map_ext_Forall _ (fun y => y)); [by rewrite map_id|].
    revert Hle. apply Forall_weaken. lia.
  - assert (Ht : take (length a) (<[length a:=v_max]> a1) = take (length a) a1)
      by (by rewrite take_insert_ge by lia).
    rewrite clamp_loop_spec; [|rewrite length_insert; lia|by rewrite Ht].
    rewrite Ht. f_equal.
    erewrite (drop_S (<[length a:=v_max]> a1) v_max) by (apply list_lookup_insert_eq; lia).
    rewrite drop_insert_lt, drop_ge by lia. done.
Qed.

Lemma ensure_shape {E} a v_min v_max :
  (2 <= length a)%nat -> v_min <= v_max ->
  exists r, ensure_non_decreasing_sequence (E := E) a v_min v_max = Ok r /\ length r = length a /\
    head r = Some v_min /\ last r = Some v_max /\ sortedZ r.
Proof.
  intros Hlen Hv. destruct a as [|x a]; [cbn in Hlen; lia|].
  rewrite ensure_spec by done. set (a1 := v_min :: raise_loop v_min a). eexists. split; [done|].
  assert (Hlen1 : length a1 = S (length a)) by (subst a1; cbn; by rewrite length_raise_loop).
  split_and!.
  - rewrite length_app, length_map, length_take, Hlen1. cbn [length]. lia.
  - subst a1. destruct a as [|y a]; [cbn in Hlen; lia|].
    change (Some (Z.min v_max v_min) = Some v_min). f_equal. lia.
  - by rewrite last_snoc.
  - apply sortedZ_snoc. split.
    + apply map_min_sorted, (StronglySorted_app_1_l _ _ (drop (length a) a1)).
      rewrite take_drop. apply raise_loop_sorted.
    + apply Forall_map, Forall_In. intros. lia.
Qed.

Lemma ensure_id {E} a v_min v_max :
  head a = Some v_min -> last a = Some v_max -> sortedZ a ->
  ensure_non_decreasing_sequence (E := E) a v_min v_max = Ok a.
Proof.
  intros Hh Hl Hs. destruct a as [|x a]; [done|]. injection Hh as ->.
  assert (Hlast : exists l, v_min :: a = l ++ [v_max]).
  { apply last_Some in Hl as [l Hl]. by exists l. }
  destruct Hlast as [l Heq].
  assert (v_min <= v_max).
  { destruct l as [|y l]; injection Heq as -> ->; [lia|].
    apply StronglySorted_cons in Hs as [Hs _]. rewrite Forall_In in Hs. apply Hs.
    apply in_or_app. right. by left. }
  rewrite ensure_spec, raise_loop_id by done. f_equal. rewrite Heq in Hs |- *.
  assert (length a = length l) as ->.
  { apply (f_equal length) in Heq. rewrite length_app in Heq. cbn in Heq. lia. }
  rewrite take_app_length. apply sortedZ_snoc in Hs as [_ Hle]. f_equal.
  rewrite (map_ext_Forall _ (fun y => y)); [by rewrite map_id|].
  revert Hle. apply Forall_weaken. lia.
Qed.

(** ** The properties *)

(** C30: for every non-empty [i64] array and 64 precision bits (fewer bits are
    lossy by design), [marshal_int64_array] succeeds, and decoding what it
    produced, under the marshal type and first value it returned, gives the array
    back: whichever of the constant, constant-delta, gauge and counter encodings it
    picked, compressed or not. *)
Theorem int64_array_roundtrip `{Zl : ZstdLaws} (a : list Z) :
  a <> [] -> Forall is_i64 a ->
  exists data mt fv, marshal_int64_array (E := array_error) [] a 64 = Ok (data, (mt, fv)) /\
    unmarshal_int64_array [] data mt fv (length a) = Ok a.
Proof.
  intros Hne Ha. destruct (marshal_array_roundtrip (E := array_error) a Hne Ha)
    as (data & mt & fv & ? & _ & _ & ?). by exists data, mt, fv.
Qed.

Section Witness.
Local Existing Instances stored_zstd stored_zstd_laws.
Lemma int64_array_roundtrip_witness :
  exists data mt fv, marshal_int64_array (E := array_error) [] [3; 10; -7; 2 ^ 62] 64 = Ok (data, (mt, fv)) /\
    unmarshal_int64_array [] data mt fv 4 = Ok [3; 10; -7; 2 ^ 62].
Proof. apply (int64_array_roundtrip [3; 10; -7; 2 ^ 62]); [done|repeat constructor; done]. Defined.
End Witness.

(** [unmarshal_int64_array] never panics on any byte string as long as
    the requested number of items is at least the minimum of the marshal type
    (2 for second deltas, 1 for deltas, 0 otherwise), and when it succeeds it
    appends exactly that many [i64] values to [dst]. *)
Theorem int64_array_decoder_total `{Zs : Zstd} (dst src : list Z) mt (fv : Z) (n : nat) :
  (min_items mt <= n)%nat -> is_i64 fv ->
  match unmarshal_int64_array dst src mt fv n with
  | Ok l => exists vs, l = dst ++ vs /\ length vs = n /\ Forall is_i64 vs
  | Err _ => True
  | Panic => False
  end.
Proof.
  intros Hn Hfv. pose proof (unmarshal_array_no_panic dst src mt fv n Hn) as Hp.
  destruct (unmarshal_int64_array dst src mt fv n) eqn:H; try done.
  by apply unmarshal_array_shape in H.
Qed.

Section Witness.
Local Existing Instances stored_zstd stored_zstd_laws.
Lemma int64_array_decoder_total_witness :
  match unmarshal_int64_array [9] [2] DeltaConst 5 3 with
  | Ok l => exists vs, l = [9] ++ vs /\ length vs = 3%nat /\ Forall is_i64 vs
  | Err _ => True
  | Panic => False
  end.
Proof. apply int64_array_decoder_total; [cbn; lia|done]. Defined.
End Witness.

(** [ensure_non_decreasing_sequence] repairs any sequence of at least
    two items: the result has the same length, starts with [v_min], ends with
    [v_max] and is non-decreasing, and a sequence that already is like that
    comes back unchanged. *)
Theorem ensure_non_decreasing_contract (a : list Z) (v_min v_max : Z) :
  (2 <= length a)%nat -> v_min <= v_max ->
  exists r, ensure_non_decreasing_sequence (E := array_error) a v_min v_max = Ok r /\
    length r = length a /\ head r = Some v_min /\ last r = Some v_max /\ sortedZ r /\
    (head a = Some v_min -> last a = Some v_max -> sortedZ a -> r = a).
Proof.
  intros Hlen Hv. destruct (ensure_shape (E := array_error) a v_min v_max Hlen Hv)
    as (r & Hr & ? & ? & ? & ?).
  exists r. split_and!; try done. intros Hh Hl Hs.
  rewrite (ensure_id a v_min v_max) in Hr by done. congruence.
Qed.

Lemma ensure_non_decreasing_contract_witness :
  exists r, ensure_non_decreasing_sequence (E := array_error) [7; 3; 50; 4] 1 20 = Ok r /\
    length r = 4%nat /\ head r = Some 1 /\ last r = Some 20 /\ sortedZ r /\
    (head [7; 3; 50; 4] = Some 1 -> last [7; 3; 50; 4] = Some 20 -> sortedZ [7; 3; 50; 4] -> r = [7; 3; 50; 4]).
Proof. apply (ensure_non_decreasing_contract [7; 3; 50; 4] 1 20); [cbn; lia|lia]. Defined.

(** On a single item the final assignment wins: the first (and only) item is
    [v_max], not [v_min]. *)
Example ensure_single_item :
  ensure_non_decreasing_sequence (E := array_error) [5] 1 9 = Ok [9].
Proof. reflexivity. Qed.
