(* ===== verification/Tsid.v ===== *)
(** * Time series identifiers

    Model of [esm-storage/src/tsid.rs]: the identifier, its order (the
    physical sort key of blocks), its binary form, and the k-way merge of
    sorted identifier lists. *)
From Stdlib Require Import ZArith Lia Bool Permutation.
From S2P Require Import Prelude IntCodec.
Local Open Scope Z_scope.

Definition MARSHALED_TSID_SIZE : nat := 24.

Record Tsid : Type := mkTsid {
  metric_group_id : Z;
  job_id : Z;
  instance_id : Z;
  metric_id : Z;
}.

Definition Tsid_default : Tsid := mkTsid 0 0 0 0.

Global Instance Tsid_eq_dec : EqDecision Tsid.
Proof. solve_decision. Defined.

(** The derived [Ord]: lexicographic in declaration order. *)
Definition tsid_key (t : Tsid) : list Z :=
  [metric_group_id t; job_id t; instance_id t; metric_id t].
Definition tsid_le (a b : Tsid) : bool := lex_leb (tsid_key a) (tsid_key b).
Definition tsid_less (a b : Tsid) : bool := lex_ltb (tsid_key a) (tsid_key b).

Definition tsid_marshal (t : Tsid) (dst : list Z) : list Z :=
  let dst := marshal_uint64 dst (metric_group_id t) in
  let dst := marshal_uint32 dst (job_id t) in
  let dst := marshal_uint32 dst (instance_id t) in
  marshal_uint64 dst (metric_id t).

Definition tsid_unmarshal (src : list Z) : res nat (Tsid * list Z) :=
  _ ← guard_ (length src <? MARSHALED_TSID_SIZE)%nat (length src);
  mg ← unmarshal_uint64 src;
  src ← slice_from src 8;
  job ← unmarshal_uint32 src;
  src ← slice_from src 4;
  inst ← unmarshal_uint32 src;
  src ← slice_from src 4;
  mid ← unmarshal_uint64 src;
  src ← slice_from src 8;
  Ok (mkTsid mg job inst mid, src).

(** ** Merging sorted lists *)

(** A heap entry: the identifier, the list it comes from and its position;
    tuples are ordered lexicographically. *)
Definition entry : Type := Tsid * (nat * nat).
Definition entry_key (e : entry) : list Z :=
  tsid_key e.1 ++ [Z.of_nat e.2.1; Z.of_nat e.2.2].
Definition entry_le (a b : entry) : bool := lex_leb (entry_key a) (entry_key b).

(** [BinaryHeap] of [Reverse] entries: [pop] takes out the least entry. *)
Fixpoint heap_pop (heap : list entry) : option (entry * list entry) :=
  match heap with
  | [] => None
  | e :: heap' =>
      match heap_pop heap' with
      | None => Some (e, [])
      | Some (m, rest) => if entry_le e m then Some (e, heap') else Some (m, e :: rest)
      end
  end.

(** The initial heap: the first element of every non-empty list. *)
Fixpoint init_heap (list_idx : nat) (tsidss : list (list Tsid)) : list entry :=
  match tsidss with
  | [] => []
  | [] :: rest => init_heap (S list_idx) rest
  | (t :: _) :: rest => (t, (list_idx, 0%nat)) :: init_heap (S list_idx) rest
  end.

(** The [while let] loop; [None] when the fuel runs out. *)
Fixpoint merge_loop (fuel : nat) (tsidss : list (list Tsid)) (heap : list entry) (all : list Tsid)
    : option (list Tsid) :=
  match heap_pop heap with
  | None => Some all
  | Some ((tsid, (list_idx, elem_idx)), heap) =>
      match fuel with
      | O => None
      | S fuel =>
          let all := if decide (last all = Some tsid) then all else all ++ [tsid] in
          let next_idx := S elem_idx in
          let heap :=
            match (tsidss !! list_idx) ≫= (fun l => l !! next_idx) with
            | Some t => (t, (list_idx, next_idx)) :: heap
            | None => heap
            end in
          merge_loop fuel tsidss heap all
      end
  end.

(** One iteration per input element. *)
Definition merge_sorted_tsids (tsidss : list (list Tsid)) : option (list Tsid) :=
  merge_loop (length (concat tsidss)) tsidss (init_heap 0 tsidss) [].

(** ** Binary form: lemmas *)

Definition tsid_wf (t : Tsid) : Prop :=
  is_u64 (metric_group_id t) /\ is_u32 (job_id t) /\ is_u32 (instance_id t) /\ is_u64 (metric_id t).
Global Instance tsid_wf_dec t : Decision (tsid_wf t).
Proof. unfold tsid_wf. apply _. Defined.

Lemma tsid_marshal_app t dst :
  tsid_marshal t dst
  = dst ++ to_be_bytes 8 (metric_group_id t) ++ to_be_bytes 4 (job_id t) ++
    to_be_bytes 4 (instance_id t) ++ to_be_bytes 8 (metric_id t).
Proof. unfold tsid_marshal, marshal_uint64, marshal_uint32. by rewrite <-!app_assoc. Qed.

Lemma length_tsid_marshal t : length (tsid_marshal t []) = MARSHALED_TSID_SIZE.
Proof. rewrite tsid_marshal_app. rewrite !length_app, !length_to_be_bytes. done. Qed.

Lemma tsid_marshal_bytes t : bytes (tsid_marshal t []).
Proof. rewrite tsid_marshal_app. cbn [app]. repeat (apply bytes_app; split); apply bytes_to_be_bytes. Qed.

Lemma tsid_unmarshal_app t rest :
  tsid_wf t -> tsid_unmarshal (tsid_marshal t [] ++ rest) = Ok (t, rest).
Proof.
  intros (H1 & H2 & H3 & H4). unfold tsid_unmarshal.
  rewrite length_app, length_tsid_marshal.
  rewrite (proj2 (Nat.ltb_ge _ _)) by (unfold MARSHALED_TSID_SIZE; lia). cbn [guard_ mbind res_bind].
  rewrite tsid_marshal_app. cbn [app]. rewrite <-!app_assoc.
  rewrite field_u64, field_u32, field_u32, field_u64 by done. by destruct t.
Qed.

(** What the decoder accepts is the canonical encoding of what it returns. *)
Lemma tsid_unmarshal_inv src t rest :
  bytes src -> tsid_unmarshal src = Ok (t, rest) ->
  tsid_wf t /\ bytes rest /\ src = tsid_marshal t [] ++ rest.
Proof.
  intros Hs H. unfold tsid_unmarshal in H. res_inv. simplify_eq.
  fields_inv.
  split_and!; try done. rewrite tsid_marshal_app. cbn [app metric_group_id job_id instance_id metric_id]. rewrite <-!app_assoc. congruence.
Qed.

Lemma tsid_unmarshal_no_panic src : no_panic (tsid_unmarshal src).
Proof.
  unfold tsid_unmarshal. apply no_panic_bind; [auto with esm|]. intros ? Hg%guard_ok.
  apply Nat.ltb_ge in Hg. unfold MARSHALED_TSID_SIZE in Hg.
  repeat (apply no_panic_bind;
    [first [apply read_be_no_panic | apply no_panic_slice];
     repeat match goal with H : slice_from _ _ = Ok _ |- _ => apply slice_from_inv in H; subst end;
     rewrite ?length_drop; lia
    |intros]). done.
Qed.

(** ** The order *)

Lemma tsid_key_inj a b : tsid_key a = tsid_key b -> a = b.
Proof. destruct a, b. cbn. by intros [= -> -> -> ->]. Qed.

Lemma tsid_le_refl a : tsid_le a a.
Proof. unfold tsid_le. by rewrite lex_leb_refl. Qed.
Lemma tsid_le_trans a b c : tsid_le a b -> tsid_le b c -> tsid_le a c.
Proof. apply lex_leb_trans. Qed.
Lemma tsid_le_antisym a b : tsid_le a b -> tsid_le b a -> a = b.
Proof. intros. by apply tsid_key_inj, lex_leb_antisym. Qed.
Lemma tsid_less_le a b : tsid_less a b = negb (tsid_le b a).
Proof. apply lex_ltb_leb. Qed.
Lemma tsid_le_less a b : tsid_le a b -> a <> b -> tsid_less a b.
Proof.
  intros H Hne. rewrite tsid_less_le. destruct (tsid_le b a) eqn:E; [|done].
  destruct Hne. apply tsid_le_antisym; [done|by rewrite E].
Qed.
Lemma tsid_less_trans a b c : tsid_less a b -> tsid_less b c -> tsid_less a c.
Proof.
  rewrite !tsid_less_le. intros H1 H2. apply negb_True. intros H3.
  pose proof (lex_leb_total (tsid_key b) (tsid_key c)) as [Hbc|Hcb]; [|by apply negb_True in H2].
  apply negb_True in H1. apply H1. by eapply tsid_le_trans.
Qed.

(** ** Merging: lemmas *)

Lemma entry_le_tsid a b : entry_le a b -> tsid_le a.1 b.1.
Proof.
  unfold entry_le, tsid_le, entry_key, tsid_key, lex_leb.
  destruct a as [a ?], b as [b ?]. cbn [fst lex_compare app].
  destruct (_ ?= _); try done. destruct (_ ?= _); try done.
  destruct (_ ?= _); try done. by destruct (metric_id a ?= metric_id b).
Qed.

Lemma heap_pop_None heap : heap_pop heap = None -> heap = [].
Proof. destruct heap as [|e heap]; cbn; [done|]. by repeat case_match. Qed.

Lemma heap_pop_spec heap e rest :
  heap_pop heap = Some (e, rest) ->
  Permutation heap (e :: rest) /\ Forall (fun x => tsid_le e.1 x.1) rest.
Proof.
  revert e rest. induction heap as [|x heap IH]; intros e rest; cbn; [done|].
  destruct (heap_pop heap) as [[m r]|] eqn:Hp.
  - destruct (IH _ _ eq_refl) as [Hperm Hmin].
    destruct (entry_le x m) eqn:Hle; intros [= <- <-].
    + split; [done|]. assert (tsid_le x.1 m.1) by (apply entry_le_tsid; by rewrite Hle).
      rewrite Forall_In in Hmin |- *. intros y Hy.
      apply (Permutation_in _ Hperm) in Hy as [->|Hy]; [done|].
      eapply tsid_le_trans; [done|by apply Hmin].
    + split; [by rewrite Hperm; constructor|]. constructor; [|done].
      apply entry_le_tsid. pose proof (lex_leb_total (entry_key x) (entry_key m)) as [H|H]; [|done].
      unfold entry_le in Hle. by rewrite Hle in H.
  - intros [= <- <-]. by rewrite (heap_pop_None _ Hp).
Qed.

Definition sorted_tsids (l : list Tsid) : Prop := StronglySorted (fun a b => tsid_le a b) l.

(** The part of an input list an entry stands for. *)
Definition entry_rest (tsidss : list (list Tsid)) (e : entry) : list Tsid :=
  drop e.2.2 (default [] (tsidss !! e.2.1)).
Definition entry_ok (tsidss : list (list Tsid)) (e : entry) : Prop :=
  head (entry_rest tsidss e) = Some e.1.
Definition heap_rest (tsidss : list (list Tsid)) (heap : list entry) : list Tsid :=
  concat (map (entry_rest tsidss) heap).

Lemma heap_rest_perm tsidss h1 h2 :
  Permutation h1 h2 -> Permutation (heap_rest tsidss h1) (heap_rest tsidss h2).
Proof.
  unfold heap_rest. induction 1; cbn; [done|by apply Permutation_app_head|..].
  - rewrite !app_assoc. apply Permutation_app_tail, Permutation_app_comm.
  - by etransitivity.
Qed.

Lemma init_heap_ok i pre tsidss :
  length pre = i ->
  Forall (entry_ok (pre ++ tsidss)) (init_heap i tsidss) /\
  heap_rest (pre ++ tsidss) (init_heap i tsidss) = concat tsidss.
Proof.
  revert i pre. induction tsidss as [|[|t l] tsidss IH]; intros i pre Hi; cbn [init_heap].
  - by split; [constructor|].
  - destruct (IH (S i) (pre ++ [[]])) as [H1 H2]; [rewrite length_app; cbn; lia|].
    rewrite <-app_assoc in *. done.
  - destruct (IH (S i) (pre ++ [t :: l])) as [H1 H2]; [rewrite length_app; cbn; lia|].
    rewrite <-app_assoc in *. cbn [app] in *.
    assert (Hr : entry_rest (pre ++ (t :: l) :: tsidss) (t, (i, 0%nat)) = t :: l).
    { unfold entry_rest. cbn. by rewrite lookup_app_r, Hi, Nat.sub_diag by lia. }
    split.
    + constructor; [|done]. unfold entry_ok. by rewrite Hr.
    + unfold heap_rest in *. cbn [map concat]. by rewrite Hr, H2.
Qed.

(** The list an entry stands for starts with it; what follows is what the
    next entry of the same list stands for. *)
Definition next_entries (tsidss : list (list Tsid)) (e : entry) : list entry :=
  match (tsidss !! e.2.1) ≫= (fun l => l !! S e.2.2) with
  | Some t => [(t, (e.2.1, S e.2.2))]
  | None => []
  end.

Lemma entry_rest_next tsidss e :
  entry_ok tsidss e ->
  entry_rest tsidss e = e.1 :: heap_rest tsidss (next_entries tsidss e) /\
  Forall (entry_ok tsidss) (next_entries tsidss e).
Proof.
  destruct e as [t [li ei]]. unfold entry_ok, next_entries, entry_rest, heap_rest. cbn [fst snd].
  destruct (tsidss !! li) as [l|] eqn:Hl; cbn [default mbind option_bind]; [|by rewrite drop_nil].
  unfold default, from_option, id.
  destruct (drop ei l) as [|t' l'] eqn:Hd; [by intros|]. cbn [head]. intros [= ->].
  assert (Hd' : drop (S ei) l = l').
  { replace (S ei) with (ei + 1)%nat by lia. by rewrite <-drop_drop, Hd. }
  destruct (l !! S ei) as [t2|] eqn:Hn; cbn [map concat fst snd].
  - assert (Hr : entry_rest tsidss (t2, (li, S ei)) = l') by (unfold entry_rest; cbn; by rewrite Hl).
    rewrite Hr, app_nil_r. split; [done|]. repeat constructor. cbn [fst snd]. rewrite Hl.
    by rewrite (drop_S _ _ _ Hn).
  - split; [|constructor]. apply lookup_ge_None in Hn. by rewrite <-Hd', drop_ge.
Qed.

Lemma sorted_entry_rest tsidss e :
  Forall sorted_tsids tsidss -> entry_ok tsidss e ->
  Forall (fun x => tsid_le e.1 x) (entry_rest tsidss e).
Proof.
  unfold entry_ok, entry_rest. intros Hs. destruct (tsidss !! e.2.1) as [l|] eqn:Hl.
  - eapply Forall_lookup_1 in Hs; [|done]. cbn. unfold sorted_tsids in Hs.
    rewrite <-(take_drop e.2.2 l), StronglySorted_app in Hs. destruct Hs as (_ & _ & Hs).
    destruct (drop e.2.2 l) as [|x r]; [done|]. cbn. intros [= ->].
    apply StronglySorted_cons in Hs as [Hs _]. constructor; [apply tsid_le_refl|done].
  - cbn. by rewrite drop_nil.
Qed.

Lemma heap_rest_cons tsidss e heap :
  heap_rest tsidss (e :: heap) = entry_rest tsidss e ++ heap_rest tsidss heap.
Proof. done. Qed.

Lemma heap_rest_app tsidss h1 h2 :
  heap_rest tsidss (h1 ++ h2) = heap_rest tsidss h1 ++ heap_rest tsidss h2.
Proof. unfold heap_rest. by rewrite map_app, concat_app. Qed.

Lemma heap_rest_min tsidss heap (t : Tsid) :
  Forall sorted_tsids tsidss -> Forall (entry_ok tsidss) heap ->
  Forall (fun e => tsid_le t e.1) heap -> Forall (fun x => tsid_le t x) (heap_rest tsidss heap).
Proof.
  intros Hs Hok Hle. induction heap as [|e heap IH]; [constructor|].
  inversion Hok; inversion Hle; subst. rewrite heap_rest_cons. apply Forall_app. split; [|auto].
  eapply Forall_weaken; [|by apply sorted_entry_rest]. intros x. by apply tsid_le_trans.
Qed.

(** One round takes the least remaining identifier out of the heap. *)
Lemma heap_pop_round tsidss heap e rest :
  Forall sorted_tsids tsidss -> Forall (entry_ok tsidss) heap ->
  heap_pop heap = Some (e, rest) ->
  let heap' := next_entries tsidss e ++ rest in
  Forall (entry_ok tsidss) heap' /\
  Permutation (heap_rest tsidss heap) (e.1 :: heap_rest tsidss heap') /\
  Forall (fun x => tsid_le e.1 x) (heap_rest tsidss heap).
Proof.
  intros Hs Hok Hpop heap'. apply heap_pop_spec in Hpop as [Hperm Hmin].
  assert (Hok' : Forall (entry_ok tsidss) (e :: rest)) by by rewrite <-Hperm.
  inversion Hok' as [|? ? He Hr]; subst. destruct (entry_rest_next _ _ He) as [Hrest Hn].
  split_and!; [by apply Forall_app| |].
  - rewrite (heap_rest_perm _ _ _ Hperm), heap_rest_cons, Hrest. unfold heap'.
    by rewrite heap_rest_app.
  - rewrite (heap_rest_perm _ _ _ Hperm). apply heap_rest_min; [done..|].
    constructor; [apply tsid_le_refl|done].
Qed.

Definition strict_tsids (l : list Tsid) : Prop := StronglySorted (fun a b => tsid_less a b) l.

(** Appending an identifier that is not below the last one keeps the output
    strictly sorted, since a repetition is dropped. *)
Lemma push_dedup all t :
  strict_tsids all -> Forall (fun x => tsid_le x t) all ->
  let all' := if decide (last all = Some t) then all else all ++ [t] in
  strict_tsids all' /\ forall x, In x all' <-> In x all \/ x = t.
Proof.
  intros Hs Hle. case_decide as Hl; cbn.
  - split; [done|]. apply last_Some in Hl as [l ->]. intros x. rewrite in_app_iff. cbn. naive_solver.
  - split; [|intros x; rewrite in_app_iff; cbn; naive_solver].
    apply StronglySorted_app. split_and!; [|done|repeat constructor].
    intros x y Hx Hy%list_elem_of_singleton. subst y. rewrite Forall_In in Hle.
    apply tsid_le_less; [by apply Hle, list_elem_of_In|]. intros ->.
    apply list_elem_of_split in Hx as (l1 & l2 & ->). destruct l2 as [|z l2 _] using rev_ind.
    + by rewrite last_snoc in Hl.
    + apply StronglySorted_app in Hs as (_ & _ & [Hs _]%StronglySorted_cons).
      rewrite app_comm_cons, app_assoc, last_snoc in Hl.
      assert (Hz1 : tsid_less t z).
      { rewrite Forall_In in Hs. apply Hs. rewrite in_app_iff. cbn. auto. }
      assert (Hz2 : tsid_le z t) by (apply Hle; rewrite !in_app_iff; cbn; rewrite in_app_iff; cbn; auto).
      rewrite tsid_less_le in Hz1. by apply negb_True in Hz1.
Qed.

Lemma merge_loop_spec fuel tsidss heap all :
  Forall sorted_tsids tsidss -> Forall (entry_ok tsidss) heap ->
  (length (heap_rest tsidss heap) <= fuel)%nat -> strict_tsids all ->
  (forall x y, In x all -> In y (heap_rest tsidss heap) -> tsid_le x y) ->
  exists l, merge_loop fuel tsidss heap all = Some l /\ strict_tsids l /\
    forall x, In x l <-> In x all \/ In x (heap_rest tsidss heap).
Proof.
  intros Hs. revert heap all. induction fuel as [|fuel IH]; intros heap all Hok Hlen Hall Hle;
    cbn [merge_loop]; destruct (heap_pop heap) as [[[t [li ei]] rest]|] eqn:Hpop.
  2,4: apply heap_pop_None in Hpop as ->; exists all; naive_solver.
  all: destruct (heap_pop_round _ _ _ _ Hs Hok Hpop) as (Hok' & Hperm & Hmin).
  all: rewrite Hperm in Hlen; cbn [length fst] in *.
  { lia. }
  assert (Hin : forall x, In x (heap_rest tsidss heap) <-> x = t \/
    In x (heap_rest tsidss (next_entries tsidss (t, (li, ei)) ++ rest))).
  { intros x. rewrite Hperm. cbn. naive_solver. }
  destruct (push_dedup all t) as [Hall' Hin']; [done| |].
  { apply Forall_In. intros x Hx. apply Hle; [done|]. rewrite Hin. by left. }
  set (all' := if decide _ then _ else _) in *.
  destruct (IH (next_entries tsidss (t, (li, ei)) ++ rest) all') as (l & Hl & Hsl & Hel);
    [done|lia|done| |].
  { intros x y Hx Hy. apply Hin' in Hx as [Hx| ->].
    - apply Hle; [done|]. rewrite Hin. by right.
    - rewrite Forall_In in Hmin. apply Hmin, Hin. by right. }
  exists l. split_and!; [|done|].
  - rewrite <-Hl. f_equal. unfold next_entries. cbn [fst snd]. by destruct (_ ≫= _).
  - intros x. rewrite Hel, Hin', Hin. naive_solver.
Qed.

(** Merging sorted identifier lists always completes, and returns the
    strictly increasing list whose elements are exactly those of the inputs:
    nothing is lost, nothing invented, and every duplicate, within one list
    or across lists, is removed. *)
Theorem merge_sorted_tsids_spec (tsidss : list (list Tsid)) (H : Forall sorted_tsids tsidss) :
  exists l, merge_sorted_tsids tsidss = Some l /\ strict_tsids l /\
    forall t, In t l <-> exists ts, In ts tsidss /\ In t ts.
Proof.
  destruct (init_heap_ok 0 [] tsidss eq_refl) as [Hok Hrest]. cbn [app] in *.
  destruct (merge_loop_spec (length (concat tsidss)) tsidss (init_heap 0 tsidss) [])
    as (l & Hl & Hs & Hin); [done|done|by rewrite Hrest|constructor|done|].
  exists l. split_and!; [done|done|]. intros t. rewrite Hin, Hrest, in_concat. naive_solver.
Qed.

Lemma merge_sorted_tsids_spec_witness :
  exists l, merge_sorted_tsids [[mkTsid 1 0 0 1; mkTsid 2 0 0 1]; []; [mkTsid 1 0 0 1; mkTsid 1 0 0 2]]
    = Some l /\ strict_tsids l /\
    forall t, In t l <-> exists ts,
      In ts [[mkTsid 1 0 0 1; mkTsid 2 0 0 1]; []; [mkTsid 1 0 0 1; mkTsid 1 0 0 2]] /\ In t ts.
Proof. apply merge_sorted_tsids_spec. repeat constructor. Defined.

(** A series identifier survives its binary form, whatever follows it in
    the buffer; the decoder never panics, and every buffer it accepts starts
    with the canonical encoding of what it returned. *)
Theorem tsid_codec :
  (forall t rest, tsid_wf t -> tsid_unmarshal (tsid_marshal t [] ++ rest) = Ok (t, rest)) /\
  (forall src, no_panic (tsid_unmarshal src)) /\
  (forall src t rest, bytes src -> tsid_unmarshal src = Ok (t, rest) ->
    tsid_wf t /\ src = tsid_marshal t [] ++ rest).
Proof.
  split_and!; [apply tsid_unmarshal_app|apply tsid_unmarshal_no_panic|].
  intros src t rest Hs H. apply tsid_unmarshal_inv in H as (? & _ & ?); done.
Qed.

Lemma tsid_codec_witness :
  tsid_unmarshal (tsid_marshal (mkTsid 1 2 3 4) [] ++ [9]) = Ok (mkTsid 1 2 3 4, [9]).
Proof. apply tsid_codec. split_and!; unfold is_u; cbn; lia. Defined.
