(* ===== verification/BlockHeader.v ===== *)
(** * Block headers and metaindex rows

    Model of [esm-storage/src/block_header.rs] and
    [esm-storage/src/metaindex_row.rs]: the fixed-size records of the index
    files, their binary forms (fixed-width for the index, varint-based for
    migration), validation, and the readers of whole index blocks. *)
From Stdlib Require Import ZArith Lia Bool Sorted.
From S2P Require Import Prelude IntCodec NearestDelta Float64 Compress ArrayCodec Tsid.
Local Open Scope Z_scope.

(** The limits of [block.rs]. *)
Definition MAX_ROWS_PER_BLOCK : Z := 8 * 1024.
Definition MAX_BLOCK_SIZE : Z := 8 * MAX_ROWS_PER_BLOCK.

Definition MARSHALED_BLOCK_HEADER_SIZE : nat := 81.

Record BlockHeader : Type := mkBlockHeader {
  bh_tsid : Tsid;
  bh_min_timestamp : Z;
  bh_max_timestamp : Z;
  bh_first_value : Z;
  bh_timestamps_block_offset : Z;
  bh_values_block_offset : Z;
  bh_timestamps_block_size : Z;
  bh_values_block_size : Z;
  bh_rows_count : Z;
  bh_scale : Z;
  bh_timestamps_marshal_type : Z;
  bh_values_marshal_type : Z;
  bh_precision_bits : Z;
}.

Definition BlockHeader_default : BlockHeader :=
  mkBlockHeader Tsid_default 0 0 0 0 0 0 0 0 0 0 0 0.

Definition bh_less (a b : BlockHeader) : bool :=
  if metric_id (bh_tsid a) =? metric_id (bh_tsid b)
  then bh_min_timestamp a <? bh_min_timestamp b
  else tsid_less (bh_tsid a) (bh_tsid b).

Definition bh_marshal (bh : BlockHeader) (dst : list Z) : list Z :=
  let dst := tsid_marshal (bh_tsid bh) dst in
  let dst := marshal_int64 dst (bh_min_timestamp bh) in
  let dst := marshal_int64 dst (bh_max_timestamp bh) in
  let dst := marshal_int64 dst (bh_first_value bh) in
  let dst := marshal_uint64 dst (bh_timestamps_block_offset bh) in
  let dst := marshal_uint64 dst (bh_values_block_offset bh) in
  let dst := marshal_uint32 dst (bh_timestamps_block_size bh) in
  let dst := marshal_uint32 dst (bh_values_block_size bh) in
  let dst := marshal_uint32 dst (bh_rows_count bh) in
  let dst := marshal_int16 dst (bh_scale bh) in
  dst ++ [bh_timestamps_marshal_type bh; bh_values_marshal_type bh; bh_precision_bits bh].

Inductive header_error : Type :=
| TooShortHeader (got : nat)
| BadTsid (got : nat)
| ZeroRows
| TooBigRowsCount (got : Z)
| BadTimestampsMarshalType (mt : Z)
| BadValuesMarshalType (mt : Z)
| BadPrecisionBits (pb : Z)
| TooBigTimestampsBlock (got : Z)
| TooBigValuesBlock (got : Z)
| BadVarint (field : nat)
| RowsCountOverflow (got : Z)
| TooSmallScale (got : Z)
| TooBigScale (got : Z)
| ShortTail (got : nat).

Definition bh_validate (bh : BlockHeader) : res header_error unit :=
  _ ← guard_ (bh_rows_count bh =? 0) ZeroRows;
  _ ← guard_ (bh_rows_count bh >? 2 * MAX_ROWS_PER_BLOCK) (TooBigRowsCount (bh_rows_count bh));
  _ ← map_err BadTimestampsMarshalType (check_marshal_type (bh_timestamps_marshal_type bh));
  _ ← map_err BadValuesMarshalType (check_marshal_type (bh_values_marshal_type bh));
  _ ← map_err BadPrecisionBits (check_precision_bits (bh_precision_bits bh));
  _ ← guard_ (bh_timestamps_block_size bh >? 2 * MAX_BLOCK_SIZE)
        (TooBigTimestampsBlock (bh_timestamps_block_size bh));
  guard_ (bh_values_block_size bh >? 2 * MAX_BLOCK_SIZE) (TooBigValuesBlock (bh_values_block_size bh)).

Definition bh_unmarshal (src : list Z) : res header_error (BlockHeader * list Z) :=
  _ ← guard_ (length src <? MARSHALED_BLOCK_HEADER_SIZE)%nat (TooShortHeader (length src));
  '(tsid, src) ← map_err BadTsid (tsid_unmarshal src);
  min_timestamp ← unmarshal_int64 src;
  src ← slice_from src 8;
  max_timestamp ← unmarshal_int64 src;
  src ← slice_from src 8;
  first_value ← unmarshal_int64 src;
  src ← slice_from src 8;
  timestamps_block_offset ← unmarshal_uint64 src;
  src ← slice_from src 8;
  values_block_offset ← unmarshal_uint64 src;
  src ← slice_from src 8;
  timestamps_block_size ← unmarshal_uint32 src;
  src ← slice_from src 4;
  values_block_size ← unmarshal_uint32 src;
  src ← slice_from src 4;
  rows_count ← unmarshal_uint32 src;
  src ← slice_from src 4;
  scale ← unmarshal_int16 src;
  src ← slice_from src 2;
  timestamps_marshal_type ← idx src 0;
  values_marshal_type ← idx src 1;
  precision_bits ← idx src 2;
  src ← slice_from src 3;
  let bh := mkBlockHeader tsid min_timestamp max_timestamp first_value timestamps_block_offset
              values_block_offset timestamps_block_size values_block_size rows_count scale
              timestamps_marshal_type values_marshal_type precision_bits in
  _ ← bh_validate bh;
  Ok (bh, src).

Definition bh_marshal_portable (bh : BlockHeader) (dst : list Z) : list Z :=
  let dst := marshal_var_int64 dst (bh_min_timestamp bh) in
  let dst := marshal_var_int64 dst (bh_max_timestamp bh) in
  let dst := marshal_var_int64 dst (bh_first_value bh) in
  let dst := marshal_var_uint64 dst (bh_rows_count bh) in
  let dst := marshal_var_int64 dst (bh_scale bh) in
  dst ++ [bh_timestamps_marshal_type bh; bh_values_marshal_type bh; bh_precision_bits bh].

(** The fields the portable form does not carry keep the value they have in
    [self]. *)
Definition bh_unmarshal_portable (self : BlockHeader) (src : list Z)
    : res header_error (BlockHeader * list Z) :=
  '(min_timestamp, n_size) ← ok_or (unmarshal_var_int64 src) (BadVarint 0);
  src ← slice_from src n_size;
  '(max_timestamp, n_size) ← ok_or (unmarshal_var_int64 src) (BadVarint 1);
  src ← slice_from src n_size;
  '(first_value, n_size) ← ok_or (unmarshal_var_int64 src) (BadVarint 2);
  src ← slice_from src n_size;
  '(rows_count, n_size) ← ok_or (unmarshal_var_uint64 src) (BadVarint 3);
  src ← slice_from src n_size;
  _ ← guard_ (rows_count >? 2 ^ 32 - 1) (RowsCountOverflow rows_count);
  '(scale, n_size) ← ok_or (unmarshal_var_int64 src) (BadVarint 4);
  src ← slice_from src n_size;
  _ ← guard_ (scale <? - 2 ^ 15) (TooSmallScale scale);
  _ ← guard_ (scale >? 2 ^ 15 - 1) (TooBigScale scale);
  _ ← guard_ (length src <? 3)%nat (ShortTail (length src));
  timestamps_marshal_type ← idx src 0;
  values_marshal_type ← idx src 1;
  precision_bits ← idx src 2;
  src ← slice_from src 3;
  Ok (mkBlockHeader (bh_tsid self) min_timestamp max_timestamp first_value
        (bh_timestamps_block_offset self) (bh_values_block_offset self)
        (bh_timestamps_block_size self) (bh_values_block_size self) rows_count scale
        timestamps_marshal_type values_marshal_type precision_bits, src).

Inductive headers_error : Type :=
| CannotUnmarshalHeader (e : header_error)
| BadHeadersCount (got want : nat)
| UnsortedHeaders.

(** The [while !src.is_empty()] loop: the headers pushed so far and how it
    ended; every iteration consumes 81 bytes, so the length is enough fuel. *)
Fixpoint read_headers (fuel : nat) (src : list Z) (acc : list BlockHeader)
    : list BlockHeader * res header_error unit :=
  match src, fuel with
  | [], _ => (acc, Ok tt)
  | _, O => (acc, Panic)
  | _, S fuel =>
      match bh_unmarshal src with
      | Ok (bh, src) => read_headers fuel src (acc ++ [bh])
      | Err e => (acc, Err e)
      | Panic => (acc, Panic)
      end
  end.

(** The vector [dst] after the call (it keeps what was pushed before an
    error) and the result. *)
Definition unmarshal_block_headers (dst : list BlockHeader) (src : list Z)
    (block_headers_count : nat) : list BlockHeader * res headers_error unit :=
  if (block_headers_count =? 0)%nat then (dst, Panic)
  else
    let '(new_bhs, r) := read_headers (length src) src [] in
    (dst ++ new_bhs,
     _ ← map_err CannotUnmarshalHeader r;
     _ ← guard_ (negb (length new_bhs =? block_headers_count)%nat)
           (BadHeadersCount (length new_bhs) block_headers_count);
     guard_ (negb (chain_b (fun a b => tsid_le (bh_tsid a) (bh_tsid b)) new_bhs)) UnsortedHeaders).

(** ** Metaindex rows *)

Definition MARSHALED_METAINDEX_ROW_SIZE : nat := 56.

Record MetaindexRow : Type := mkMetaindexRow {
  mr_tsid : Tsid;
  mr_min_timestamp : Z;
  mr_max_timestamp : Z;
  mr_index_block_offset : Z;
  mr_block_headers_count : Z;
  mr_index_block_size : Z;
}.

Definition MetaindexRow_default : MetaindexRow :=
  mkMetaindexRow Tsid_default (2 ^ 63 - 1) (- 2 ^ 63) 0 0 0.

Definition mr_reset (mr : MetaindexRow) : MetaindexRow := MetaindexRow_default.

(** The counter is a [u32] and wraps around in a release build. *)
Definition register_block_header (mr : MetaindexRow) (bh : BlockHeader) : MetaindexRow :=
  let count := as_u32 (mr_block_headers_count mr + 1) in
  if count =? 1 then
    mkMetaindexRow (bh_tsid bh) (bh_min_timestamp bh) (bh_max_timestamp bh)
      (mr_index_block_offset mr) count (mr_index_block_size mr)
  else
    mkMetaindexRow (mr_tsid mr)
      (if bh_min_timestamp bh <? mr_min_timestamp mr then bh_min_timestamp bh else mr_min_timestamp mr)
      (if bh_max_timestamp bh >? mr_max_timestamp mr then bh_max_timestamp bh else mr_max_timestamp mr)
      (mr_index_block_offset mr) count (mr_index_block_size mr).

Definition mr_marshal (mr : MetaindexRow) (dst : list Z) : list Z :=
  let dst := tsid_marshal (mr_tsid mr) dst in
  let dst := marshal_uint32 dst (mr_block_headers_count mr) in
  let dst := marshal_int64 dst (mr_min_timestamp mr) in
  let dst := marshal_int64 dst (mr_max_timestamp mr) in
  let dst := marshal_uint64 dst (mr_index_block_offset mr) in
  marshal_uint32 dst (mr_index_block_size mr).

Inductive metaindex_error : Type :=
| TooShortRow (got : nat)
| BadRowTsid (got : nat)
| ZeroHeadersCount
| TooBigIndexBlock (got : Z).

Definition mr_unmarshal (src : list Z) : res metaindex_error (MetaindexRow * list Z) :=
  _ ← guard_ (length src <? MARSHALED_METAINDEX_ROW_SIZE)%nat (TooShortRow (length src));
  '(tsid, src) ← map_err BadRowTsid (tsid_unmarshal src);
  block_headers_count ← unmarshal_uint32 src;
  src ← slice_from src 4;
  min_timestamp ← unmarshal_int64 src;
  src ← slice_from src 8;
  max_timestamp ← unmarshal_int64 src;
  src ← slice_from src 8;
  index_block_offset ← unmarshal_uint64 src;
  src ← slice_from src 8;
  index_block_size ← unmarshal_uint32 src;
  src ← slice_from src 4;
  _ ← guard_ (block_headers_count =? 0) ZeroHeadersCount;
  _ ← guard_ (index_block_size >? 2 * MAX_BLOCK_SIZE) (TooBigIndexBlock index_block_size);
  Ok (mkMetaindexRow tsid min_timestamp max_timestamp index_block_offset block_headers_count
        index_block_size, src).

Inductive metaindex_file_error : Type :=
| MetaindexZstd (e : zstd_error)
| MetaindexRowError (row : nat) (e : metaindex_error)
| NoMetaindexRows
| UnsortedMetaindexRows.

Fixpoint read_rows (fuel : nat) (src : list Z) (acc : list MetaindexRow)
    : res metaindex_file_error (list MetaindexRow) :=
  match src, fuel with
  | [], _ => Ok acc
  | _, O => Panic
  | _, S fuel =>
      '(mr, src) ← map_err (MetaindexRowError (length acc)) (mr_unmarshal src);
      read_rows fuel src (acc ++ [mr])
  end.

Section Metaindex.
  Context {Zs : Zstd}.

Definition unmarshal_metaindex_rows (compressed_data : list Z)
    : res metaindex_file_error (list MetaindexRow) :=
  data ← map_err MetaindexZstd (decompress_zstd [] compressed_data);
  rows ← read_rows (length data) data [];
  _ ← guard_ (length rows =? 0)%nat NoMetaindexRows;
  _ ← guard_ (negb (chain_b (fun a b => tsid_le (mr_tsid a) (mr_tsid b)) rows)) UnsortedMetaindexRows;
  Ok rows.
End Metaindex.

(** ** Lemmas: block headers *)

Definition bh_wf (bh : BlockHeader) : Prop :=
  tsid_wf (bh_tsid bh) /\ is_i64 (bh_min_timestamp bh) /\ is_i64 (bh_max_timestamp bh) /\
  is_i64 (bh_first_value bh) /\ is_u64 (bh_timestamps_block_offset bh) /\
  is_u64 (bh_values_block_offset bh) /\ is_u32 (bh_timestamps_block_size bh) /\
  is_u32 (bh_values_block_size bh) /\ is_u32 (bh_rows_count bh) /\ is_i16 (bh_scale bh) /\
  is_u8 (bh_timestamps_marshal_type bh) /\ is_u8 (bh_values_marshal_type bh) /\
  is_u8 (bh_precision_bits bh).
Global Instance bh_wf_dec bh : Decision (bh_wf bh).
Proof. unfold bh_wf. apply _. Defined.

(** What [validate] accepts. *)
Definition bh_valid (bh : BlockHeader) : Prop :=
  1 <= bh_rows_count bh <= 2 * MAX_ROWS_PER_BLOCK /\
  bh_timestamps_marshal_type bh <= 6 /\ bh_values_marshal_type bh <= 6 /\
  1 <= bh_precision_bits bh <= 64 /\
  bh_timestamps_block_size bh <= 2 * MAX_BLOCK_SIZE /\ bh_values_block_size bh <= 2 * MAX_BLOCK_SIZE.
Global Instance bh_valid_dec bh : Decision (bh_valid bh).
Proof. unfold bh_valid. apply _. Defined.

Lemma guard_gtb {E} x y (e : E) u : guard_ (x >? y) e = Ok u <-> x <= y.
Proof. rewrite guard_ok, Z.gtb_ltb. apply Z.ltb_ge. Qed.

Lemma check_marshal_type_ok mt u : check_marshal_type mt = Ok u <-> mt <= 6.
Proof. unfold check_marshal_type. apply guard_gtb. Qed.

Lemma check_precision_bits_iff pb u : check_precision_bits pb = Ok u <-> 1 <= pb <= 64.
Proof.
  unfold check_precision_bits. destruct u, (Z.leb_spec 1 pb), (Z.leb_spec pb 64); cbn;
    split; (done || lia).
Qed.

Lemma bh_validate_ok bh u : is_u32 (bh_rows_count bh) -> bh_validate bh = Ok u <-> bh_valid bh.
Proof.
  intros Hrc. unfold bh_validate, bh_valid. destruct u. split.
  - intros H. res_inv. rewrite check_marshal_type_ok in *. rewrite check_precision_bits_iff in *.
    rewrite Z.gtb_ltb, Z.ltb_ge in *. apply Z.eqb_neq in Hm. unfold is_u in Hrc. lia.
  - intros (H1 & H2 & H3 & H4 & H5 & H6).
    repeat (apply bind_ok; exists tt; split); rewrite ?map_err_ok, ?guard_gtb, ?check_marshal_type_ok,
      ?check_precision_bits_iff, ?guard_ok; lia.
Qed.

Lemma bh_validate_no_panic bh : no_panic (bh_validate bh).
Proof.
  unfold bh_validate, check_marshal_type, check_precision_bits.
  repeat (apply no_panic_bind; [|intros]); auto with esm.
  apply no_panic_map_err. by case_match.
Qed.

(** The three trailing bytes of a header. *)
Definition tail3 (bh : BlockHeader) : list Z :=
  [bh_timestamps_marshal_type bh; bh_values_marshal_type bh; bh_precision_bits bh].

Lemma bh_marshal_app bh dst :
  bh_marshal bh dst
  = dst ++ tsid_marshal (bh_tsid bh) [] ++
    to_be_bytes 8 (zigzag_encode (bh_min_timestamp bh)) ++
    to_be_bytes 8 (zigzag_encode (bh_max_timestamp bh)) ++
    to_be_bytes 8 (zigzag_encode (bh_first_value bh)) ++
    to_be_bytes 8 (bh_timestamps_block_offset bh) ++
    to_be_bytes 8 (bh_values_block_offset bh) ++
    to_be_bytes 4 (bh_timestamps_block_size bh) ++
    to_be_bytes 4 (bh_values_block_size bh) ++
    to_be_bytes 4 (bh_rows_count bh) ++
    to_be_bytes 2 (zigzag_encode16 (bh_scale bh)) ++ tail3 bh.
Proof.
  unfold bh_marshal, marshal_int64, marshal_int16, marshal_uint64, marshal_uint32, marshal_uint16, tail3.
  rewrite !tsid_marshal_app. cbn [app]. by rewrite <-!app_assoc.
Qed.

Lemma length_bh_marshal bh : length (bh_marshal bh []) = MARSHALED_BLOCK_HEADER_SIZE.
Proof.
  rewrite bh_marshal_app. cbn [app].
  rewrite !length_app, length_tsid_marshal, !length_to_be_bytes. done.
Qed.

Lemma three_bytes {E B} a b c rest (k : Z -> Z -> Z -> list Z -> res E B) :
  (x ← idx ([a; b; c] ++ rest) 0; y ← idx ([a; b; c] ++ rest) 1; z ← idx ([a; b; c] ++ rest) 2;
   src ← slice_from ([a; b; c] ++ rest) 3; k x y z src) = k a b c rest.
Proof. done. Qed.

Lemma bh_eta bh :
  mkBlockHeader (bh_tsid bh) (bh_min_timestamp bh) (bh_max_timestamp bh) (bh_first_value bh)
    (bh_timestamps_block_offset bh) (bh_values_block_offset bh) (bh_timestamps_block_size bh)
    (bh_values_block_size bh) (bh_rows_count bh) (bh_scale bh) (bh_timestamps_marshal_type bh)
    (bh_values_marshal_type bh) (bh_precision_bits bh) = bh.
Proof. by destruct bh. Qed.

Lemma bh_unmarshal_app bh rest :
  bh_wf bh -> bh_valid bh -> bh_unmarshal (bh_marshal bh [] ++ rest) = Ok (bh, rest).
Proof.
  intros Hwf Hv. pose proof Hwf as (H1 & H2 & H3 & H4 & H5 & H6 & H7 & H8 & H9 & H10 & H11 & H12 & H13).
  unfold bh_unmarshal.
  rewrite guard_false by (apply Nat.ltb_ge; rewrite length_app, length_bh_marshal; lia).
  rewrite bind_Ok, bh_marshal_app. cbn [app]. rewrite <-!app_assoc.
  rewrite tsid_unmarshal_app, map_err_Ok, bind_Ok by done. cbv beta iota.
  rewrite !field_i64, !field_u64, !field_u32, field_i16 by done.
  unfold tail3. rewrite three_bytes.
  cbv zeta. rewrite bh_eta, (proj2 (bh_validate_ok bh tt H9) Hv). by rewrite bind_Ok.
Qed.

Lemma three_bytes_inv {E} src a b c rest :
  bytes src -> idx (E := E) src 0 = Ok a -> idx (E := E) src 1 = Ok b -> idx (E := E) src 2 = Ok c ->
  slice_from (E := E) src 3 = Ok rest ->
  src = [a; b; c] ++ rest /\ is_u8 a /\ is_u8 b /\ is_u8 c /\ bytes rest.
Proof.
  intros Hs. destruct src as [|x [|y [|z src]]]; unfold idx; cbn; try done.
  intros [= ->] [= ->] [= ->] Hr%slice_from_inv. cbn in Hr. subst.
  inversion Hs as [|? ? ? Hs1]; inversion Hs1 as [|? ? ? Hs2]; inversion Hs2; subst. done.
Qed.

Lemma bh_unmarshal_inv src bh rest :
  bytes src -> bh_unmarshal src = Ok (bh, rest) ->
  bh_wf bh /\ bh_valid bh /\ bytes rest /\ src = bh_marshal bh [] ++ rest.
Proof.
  intros Hs H. unfold bh_unmarshal in H. res_inv. destruct a0 as [tsid src0]. res_inv. simplify_eq.
  match goal with H : tsid_unmarshal _ = _ |- _ => apply tsid_unmarshal_inv in H as (? & ? & ?); [|done] end.
  fields_inv.
  match goal with Hs : bytes ?s, H1 : idx ?s 0 = _, H2 : idx ?s 1 = _, H3 : idx ?s 2 = _, H4 : slice_from ?s 3 = _ |- _ =>
    destruct (three_bytes_inv _ _ _ _ _ Hs H1 H2 H3 H4) as (? & ? & ? & ? & ?); clear H1 H2 H3 H4 end.
  match goal with H : bh_validate _ = _ |- _ => apply bh_validate_ok in H; [|done] end.
  split_and!; try done. rewrite bh_marshal_app. cbn [app]. unfold tail3. cbn -[to_be_bytes app].
  rewrite <-!app_assoc. congruence.
Qed.

(** A tactic for decoders that read fixed-width fields after a length check. *)
Ltac fields_no_panic :=
  repeat match goal with H : slice_from _ _ = Ok _ |- _ => apply slice_from_inv in H; subst end;
  rewrite ?length_drop; lia.

Lemma no_panic_idx {E A} (l : list A) i : (i < length l)%nat -> no_panic (idx (E := E) l i).
Proof. intros [x Hx]%lookup_lt_is_Some. unfold idx, no_panic. by rewrite Hx. Qed.

Lemma unmarshal_int64_no_panic {E} src : (8 <= length src)%nat -> no_panic (unmarshal_int64 (E := E) src).
Proof. intros. apply no_panic_bind; [by apply read_be_no_panic|done]. Qed.

Lemma unmarshal_int16_no_panic {E} src : (2 <= length src)%nat -> no_panic (unmarshal_int16 (E := E) src).
Proof. intros. apply no_panic_bind; [by apply read_be_no_panic|done]. Qed.

Lemma tsid_unmarshal_length src t rest :
  tsid_unmarshal src = Ok (t, rest) -> (length rest = length src - 24)%nat.
Proof.
  unfold tsid_unmarshal. intros H. res_inv. simplify_eq.
  repeat match goal with H : slice_from _ _ = Ok _ |- _ => apply slice_from_inv in H; subst end.
  rewrite !length_drop. lia.
Qed.

(** Steps through a decoder that reads fixed-width fields. *)
Ltac field_steps :=
  repeat (apply no_panic_bind;
    [first [apply unmarshal_int64_no_panic | apply unmarshal_int16_no_panic | apply read_be_no_panic
           | apply no_panic_slice | apply no_panic_idx]; fields_no_panic
    |intros]).

Lemma bh_unmarshal_no_panic src : no_panic (bh_unmarshal src).
Proof.
  unfold bh_unmarshal. apply no_panic_bind; [auto with esm|]. intros ? Hg%guard_ok.
  apply Nat.ltb_ge in Hg. unfold MARSHALED_BLOCK_HEADER_SIZE in Hg.
  apply no_panic_bind; [apply no_panic_map_err, tsid_unmarshal_no_panic|]. intros [t rest] Ht.
  apply map_err_ok, tsid_unmarshal_length in Ht.
  field_steps. apply no_panic_bind; [apply bh_validate_no_panic|done].
Qed.

Lemma bh_unmarshal_length src bh rest :
  bh_unmarshal src = Ok (bh, rest) -> (length rest < length src)%nat.
Proof.
  unfold bh_unmarshal. intros H. res_inv. destruct a0 as [t src0]. res_inv. simplify_eq.
  apply Nat.ltb_ge in Hm. unfold MARSHALED_BLOCK_HEADER_SIZE in Hm.
  match goal with H : tsid_unmarshal _ = _ |- _ => apply tsid_unmarshal_length in H end.
  repeat match goal with H : slice_from _ _ = Ok _ |- _ => apply slice_from_inv in H; subst end.
  rewrite !length_drop. lia.
Qed.

(** *** Index blocks *)

Definition marshal_headers (bhs : list BlockHeader) : list Z := concat (map (fun bh => bh_marshal bh []) bhs).

Lemma bh_marshal_cons bh : exists b rest, bh_marshal bh [] = b :: rest.
Proof. pose proof (length_bh_marshal bh). destruct (bh_marshal bh []); [done|eauto]. Qed.

Lemma read_headers_step fuel src acc :
  src <> [] ->
  read_headers (S fuel) src acc
  = match bh_unmarshal src with
    | Ok (bh, src) => read_headers fuel src (acc ++ [bh])
    | Err e => (acc, Err e)
    | Panic => (acc, Panic)
    end.
Proof. by destruct src. Qed.

Lemma read_headers_marshal bhs : forall fuel acc,
  Forall bh_wf bhs -> Forall bh_valid bhs -> (length bhs <= fuel)%nat ->
  read_headers fuel (marshal_headers bhs) acc = (acc ++ bhs, Ok tt).
Proof.
  induction bhs as [|bh bhs IH]; intros fuel acc Hw Hv Hf; cbn [marshal_headers map concat].
  - rewrite app_nil_r. by destruct fuel.
  - inversion Hw; inversion Hv; subst. destruct fuel as [|fuel]; [cbn in Hf; lia|].
    rewrite read_headers_step by (destruct (bh_marshal_cons bh) as (? & ? & ->); done).
    rewrite bh_unmarshal_app by done.
    fold (marshal_headers bhs). rewrite IH by (try done; cbn in Hf; lia). by rewrite <-app_assoc.
Qed.

(** With enough fuel the loop never gets stuck, and when it succeeds the
    buffer was the concatenation of the headers read. *)
Lemma read_headers_inv fuel : forall src acc,
  bytes src -> (length src <= fuel)%nat ->
  match read_headers fuel src acc with
  | (l, Ok _) => exists bhs, l = acc ++ bhs /\ Forall bh_wf bhs /\ Forall bh_valid bhs /\
                   src = marshal_headers bhs
  | (_, Err _) => True
  | (_, Panic) => False
  end.
Proof.
  induction fuel as [|fuel IH]; intros src acc Hs Hl.
  - destruct src; [|cbn in Hl; lia]. cbn. exists []. by rewrite app_nil_r.
  - destruct (decide (src = [])) as [->|Hne]; [exists []; by rewrite app_nil_r|].
    rewrite read_headers_step by done.
    pose proof (bh_unmarshal_no_panic src) as Hnp. destruct (bh_unmarshal src) as [[bh rest]|e|] eqn:Hu;
      [|done..].
    pose proof (bh_unmarshal_length _ _ _ Hu). apply bh_unmarshal_inv in Hu as (? & ? & ? & ->); [|done].
    specialize (IH rest (acc ++ [bh])). destruct (read_headers fuel rest _) as [l [?|?|]];
      [|done|apply IH; [done|lia]].
    destruct IH as (bhs & -> & ? & ? & ->); [done|lia|]. exists (bh :: bhs).
    rewrite <-app_assoc. split_and!; [done|by constructor..|done].
Qed.

Definition sorted_headers (bhs : list BlockHeader) : Prop :=
  StronglySorted (fun a b => tsid_le (bh_tsid a) (bh_tsid b)) bhs.

Lemma chain_headers bhs :
  chain_b (fun a b => tsid_le (bh_tsid a) (bh_tsid b)) bhs = true <-> sorted_headers bhs.
Proof.
  rewrite <-Is_true_true. unfold sorted_headers. apply chain_b_sorted.
  intros x y z. apply tsid_le_trans.
Qed.

Lemma length_marshal_headers bhs : (length bhs <= length (marshal_headers bhs))%nat.
Proof.
  induction bhs as [|bh bhs IH]; cbn [marshal_headers map concat length]; [lia|].
  rewrite length_app, length_bh_marshal. fold (marshal_headers bhs).
  unfold MARSHALED_BLOCK_HEADER_SIZE. lia.
Qed.

(** The decoder of index blocks inverts the encoder. *)
Lemma block_headers_exact (dst : list BlockHeader) (src : list Z) (n : nat)
    (Hs : bytes src) (Hn : (0 < n)%nat) :
  snd (unmarshal_block_headers dst src n) <> Panic /\
  forall bhs,
    (unmarshal_block_headers dst src n = (dst ++ bhs, Ok tt) <->
     src = marshal_headers bhs /\ length bhs = n /\ Forall bh_wf bhs /\ Forall bh_valid bhs /\
     sorted_headers bhs).
Proof.
  unfold unmarshal_block_headers. rewrite (proj2 (Nat.eqb_neq _ _)) by lia.
  pose proof (read_headers_inv (length src) src [] Hs ltac:(lia)) as Hinv.
  destruct (read_headers (length src) src []) as [l r] eqn:Hr. split.
  - cbn [snd]. destruct r; [|done..]. cbn [map_err].
    repeat (apply no_panic_bind; [auto with esm|intros]). auto with esm.
  - intros bhs. split.
    + intros [= He Hok]. apply app_inv_head in He as ->. res_inv. subst r.
      destruct Hinv as (bhs' & ? & ? & ? & ?). cbn in *. subst bhs'.
      rewrite negb_false_iff in *. rewrite Nat.eqb_eq in *. rewrite chain_headers in *. done.
    + intros (-> & Hl & Hw & Hv & Hsd).
      rewrite read_headers_marshal in Hr by (try done; apply length_marshal_headers).
      injection Hr as <- <-. cbn [app]. f_equal.
      repeat (apply bind_ok; exists tt; split); rewrite ?map_err_ok, ?guard_ok, ?negb_false_iff;
        [done|by apply Nat.eqb_eq|by apply chain_headers].
Qed.

(** An index block decodes exactly when it is the concatenation of the
    encodings of the announced number of well-formed, valid headers sorted by
    series, and then those headers, in order, are appended to [dst]; any other
    content is an error, never a panic. *)
Theorem block_headers_decode (dst : list BlockHeader) (src : list Z) (n : nat)
    (Hs : bytes src) (Hn : (0 < n)%nat) :
  snd (unmarshal_block_headers dst src n) <> Panic /\
  forall bhs,
    (unmarshal_block_headers dst src n = (dst ++ bhs, Ok tt) <->
     src = marshal_headers bhs /\ length bhs = n /\ Forall bh_wf bhs /\ Forall bh_valid bhs /\
     sorted_headers bhs).
Proof. by apply block_headers_exact. Qed.

Lemma block_headers_decode_witness :
  let bh := mkBlockHeader (mkTsid 1 2 3 4) (-5) 9 7 0 0 3 3 2 (-2) 5 6 64 in
  unmarshal_block_headers [] (marshal_headers [bh; bh]) 2 = ([bh; bh], Ok tt).
Proof.
  intros bh. apply (block_headers_decode [] (marshal_headers [bh; bh]) 2);
    [apply (bool_decide_unpack _); vm_compute; done|lia|].
  split_and!; [done|done|apply (bool_decide_unpack _); vm_compute; done..|].
  unfold sorted_headers. repeat constructor.
Defined.

(** ** The portable form *)

Lemma field_var_int64 {E B} v rest (e : E) (k : Z -> list Z -> res E B) :
  is_i64 v ->
  ('(x, n) ← ok_or (unmarshal_var_int64 (marshal_var_int64 [] v ++ rest)) e;
   src ← slice_from (marshal_var_int64 [] v ++ rest) n; k x src) = k v rest.
Proof.
  intros Hv. rewrite unmarshal_var_int64_app by done. cbn [ok_or]. rewrite bind_Ok. cbv beta iota.
  by rewrite slice_from_ok, bind_Ok.
Qed.

Lemma field_var_uint64 {E B} v rest (e : E) (k : Z -> list Z -> res E B) :
  is_u64 v -> bytes rest ->
  ('(x, n) ← ok_or (unmarshal_var_uint64 (leb128 v ++ rest)) e;
   src ← slice_from (leb128 v ++ rest) n; k x src) = k v rest.
Proof.
  intros Hv Hr. rewrite unmarshal_var_uint64_leb128 by done. cbn [ok_or]. rewrite bind_Ok. cbv beta iota.
  by rewrite slice_from_ok, bind_Ok.
Qed.

Lemma marshal_var_int64_bytes v : is_i64 v -> bytes (marshal_var_int64 [] v).
Proof. intros Hv. eapply varint_of_bytes. by apply marshal_var_int64_varint. Qed.

Lemma bh_marshal_portable_app bh dst :
  bh_wf bh ->
  bh_marshal_portable bh dst
  = dst ++ marshal_var_int64 [] (bh_min_timestamp bh) ++ marshal_var_int64 [] (bh_max_timestamp bh) ++
    marshal_var_int64 [] (bh_first_value bh) ++ leb128 (bh_rows_count bh) ++
    marshal_var_int64 [] (bh_scale bh) ++ tail3 bh.
Proof.
  intros (_ & H2 & H3 & H4 & _ & _ & _ & _ & H9 & H10 & _).
  unfold bh_marshal_portable, marshal_var_uint64, tail3.
  assert (is_i64 (bh_scale bh)) by (unfold is_i in *; lia).
  rewrite (marshal_var_int64_dst (append_var_uint64 _ _)) by done.
  rewrite append_var_uint64_leb128 by (unfold is_u in *; lia).
  rewrite (marshal_var_int64_dst (marshal_var_int64 _ _)) by done.
  rewrite (marshal_var_int64_dst (marshal_var_int64 _ _)) by done.
  rewrite (marshal_var_int64_dst dst) by done. by rewrite <-!app_assoc.
Qed.

(** The header an importing instance sees: what the portable form carries,
    the rest from [self]. *)
Definition portable_view (self bh : BlockHeader) : BlockHeader :=
  mkBlockHeader (bh_tsid self) (bh_min_timestamp bh) (bh_max_timestamp bh) (bh_first_value bh)
    (bh_timestamps_block_offset self) (bh_values_block_offset self) (bh_timestamps_block_size self)
    (bh_values_block_size self) (bh_rows_count bh) (bh_scale bh) (bh_timestamps_marshal_type bh)
    (bh_values_marshal_type bh) (bh_precision_bits bh).

Lemma bytes_tail3 bh : bh_wf bh -> bytes (tail3 bh).
Proof. intros (_ & _ & _ & _ & _ & _ & _ & _ & _ & _ & ? & ? & ?). by do 3 (constructor; [done|]). Qed.

Lemma bh_marshal_portable_bytes bh : bh_wf bh -> bytes (bh_marshal_portable bh []).
Proof.
  intros Hwf. rewrite bh_marshal_portable_app by done. pose proof (bytes_tail3 _ Hwf).
  destruct Hwf as (_ & H2 & H3 & H4 & _ & _ & _ & _ & H9 & H10 & _). cbn [app].
  assert (is_i64 (bh_scale bh)) by (unfold is_i in *; lia).
  assert (is_u64 (bh_rows_count bh)) by (unfold is_u in *; lia).
  repeat (apply bytes_app; split); auto using marshal_var_int64_bytes, leb128_bytes.
Qed.

Lemma bh_unmarshal_portable_app self bh rest :
  bh_wf bh -> bytes rest ->
  bh_unmarshal_portable self (bh_marshal_portable bh [] ++ rest) = Ok (portable_view self bh, rest).
Proof.
  intros Hwf Hr. pose proof (bytes_tail3 _ Hwf) as Ht.
  rewrite bh_marshal_portable_app by done. cbn [app]. rewrite <-!app_assoc.
  destruct Hwf as (_ & H2 & H3 & H4 & _ & _ & _ & _ & H9 & H10 & _).
  assert (Hsc : is_i64 (bh_scale bh)) by (unfold is_i in *; lia).
  unfold bh_unmarshal_portable. rewrite !field_var_int64 by done.
  rewrite field_var_uint64; [|unfold is_u in *; lia|].
  2: { repeat (apply bytes_app; split); auto using marshal_var_int64_bytes. }
  unfold is_u, is_i in H9, H10.
  pass_guard ltac:(rewrite Z.gtb_ltb; apply Z.ltb_ge; lia).
  rewrite field_var_int64 by done.
  pass_guard ltac:(apply Z.ltb_ge; lia).
  pass_guard ltac:(rewrite Z.gtb_ltb; apply Z.ltb_ge; lia).
  pass_guard ltac:(apply Nat.ltb_ge; rewrite length_app; cbn; lia).
  unfold tail3. by rewrite three_bytes.
Qed.

Lemma field_var_no_panic {E B} (o : option (Z * nat)) (e : E) src (k : Z -> list Z -> res E B) :
  (forall v n, o = Some (v, n) -> (n <= length src)%nat) ->
  (forall v n rest, o = Some (v, n) -> slice_from (E := E) src n = Ok rest -> no_panic (k v rest)) ->
  no_panic ('(x, n) ← ok_or o e; src ← slice_from src n; k x src).
Proof.
  intros Hn Hk. destruct o as [[v n]|]; cbn [ok_or]; [|done]. rewrite bind_Ok.
  apply no_panic_bind; [apply no_panic_slice; eauto|]. eauto.
Qed.

Lemma slice_bytes {E} src n rest : bytes src -> slice_from (E := E) src n = Ok rest -> bytes rest.
Proof. intros ? ->%slice_from_inv. by apply bytes_drop. Qed.

Lemma bh_unmarshal_portable_no_panic self src : bytes src -> no_panic (bh_unmarshal_portable self src).
Proof.
  intros Hs. unfold bh_unmarshal_portable.
  do 5 (first [apply field_var_no_panic | apply no_panic_bind; [auto with esm|intros _ _; apply field_var_no_panic]];
    [first [intros ? ? ?%unmarshal_var_int64_range | intros ? ? ?%unmarshal_var_uint64_range; [|done]]; lia
    |intros ? ? ? _ ?%slice_bytes; [|done]]).
  do 2 (apply no_panic_bind; [auto with esm|intros _ _]).
  apply no_panic_bind; [auto with esm|intros ? ?%guard_ok%Nat.ltb_ge]. field_steps. done.
Qed.

(** The portable form of a header, whatever follows it, decodes to the
    same header (the fields it does not carry come from the receiver), and the
    decoder never panics on arbitrary bytes. *)
Theorem portable_header_roundtrip (self bh : BlockHeader) (rest : list Z)
    (Hwf : bh_wf bh) (Hr : bytes rest) :
  bh_unmarshal_portable self (bh_marshal_portable bh [] ++ rest) = Ok (portable_view self bh, rest) /\
  no_panic (bh_unmarshal_portable self rest).
Proof.
  split; [by apply bh_unmarshal_portable_app|by apply bh_unmarshal_portable_no_panic].
Qed.

Lemma portable_header_roundtrip_witness :
  let bh := mkBlockHeader (mkTsid 1 2 3 4) (-5) 9 7 0 0 3 3 2 (-2) 5 6 64 in
  bh_unmarshal_portable BlockHeader_default (bh_marshal_portable bh [] ++ [1; 255])
  = Ok (portable_view BlockHeader_default bh, [1; 255]) /\
  no_panic (bh_unmarshal_portable BlockHeader_default [1; 255]).
Proof.
  intros bh. apply portable_header_roundtrip; apply (bool_decide_unpack _); vm_compute; done.
Defined.

(** ** The order of blocks *)

(** The reference order: by identifier, then by first timestamp. *)
Definition bh_lex_less (a b : BlockHeader) : bool :=
  lex_ltb (tsid_key (bh_tsid a) ++ [bh_min_timestamp a]) (tsid_key (bh_tsid b) ++ [bh_min_timestamp b]).

Lemma bh_less_lex (a b : BlockHeader) :
  (metric_id (bh_tsid a) = metric_id (bh_tsid b) -> bh_tsid a = bh_tsid b) ->
  bh_less a b = bh_lex_less a b.
Proof.
  intros H. unfold bh_less, bh_lex_less, tsid_less, tsid_key, lex_ltb. cbn [app lex_compare].
  destruct (Z.eqb_spec (metric_id (bh_tsid a)) (metric_id (bh_tsid b))) as [He|Hne].
  - rewrite (H He), !Z.compare_refl. unfold Z.ltb. by destruct (_ ?= _).
  - destruct (_ ?= _); [|done..]. destruct (_ ?= _); [|done..]. destruct (_ ?= _); [|done..].
    by destruct (Z.compare_spec (metric_id (bh_tsid a)) (metric_id (bh_tsid b))).
Qed.

(** Comparing the metric ids first is an optimisation of the order by
    (identifier, first timestamp), correct for blocks of series whose metric id
    determines the identifier. *)
Theorem bh_less_is_lexicographic (a b : BlockHeader)
    (H : metric_id (bh_tsid a) = metric_id (bh_tsid b) -> bh_tsid a = bh_tsid b) :
  bh_less a b = bh_lex_less a b.
Proof. by apply bh_less_lex. Qed.

Lemma bh_less_is_lexicographic_witness :
  let a := mkBlockHeader (mkTsid 1 2 3 4) (-5) 9 7 0 0 3 3 2 (-2) 5 6 64 in
  let b := mkBlockHeader (mkTsid 1 2 3 4) 6 9 7 0 0 3 3 2 (-2) 5 6 64 in
  bh_less a b = bh_lex_less a b.
Proof. intros a b. apply bh_less_is_lexicographic. done. Defined.

(** ** Lemmas: metaindex rows *)

Definition mr_wf (mr : MetaindexRow) : Prop :=
  tsid_wf (mr_tsid mr) /\ is_i64 (mr_min_timestamp mr) /\ is_i64 (mr_max_timestamp mr) /\
  is_u64 (mr_index_block_offset mr) /\ is_u32 (mr_block_headers_count mr) /\
  is_u32 (mr_index_block_size mr).
Definition mr_valid (mr : MetaindexRow) : Prop :=
  mr_block_headers_count mr <> 0 /\ mr_index_block_size mr <= 2 * MAX_BLOCK_SIZE.
Global Instance mr_wf_dec mr : Decision (mr_wf mr).
Proof. unfold mr_wf. apply _. Defined.
Global Instance mr_valid_dec mr : Decision (mr_valid mr).
Proof. unfold mr_valid. apply _. Defined.

Lemma mr_marshal_app mr dst :
  mr_marshal mr dst
  = dst ++ tsid_marshal (mr_tsid mr) [] ++ to_be_bytes 4 (mr_block_headers_count mr) ++
    to_be_bytes 8 (zigzag_encode (mr_min_timestamp mr)) ++
    to_be_bytes 8 (zigzag_encode (mr_max_timestamp mr)) ++
    to_be_bytes 8 (mr_index_block_offset mr) ++ to_be_bytes 4 (mr_index_block_size mr).
Proof.
  unfold mr_marshal, marshal_int64, marshal_uint64, marshal_uint32.
  rewrite !tsid_marshal_app. cbn [app]. by rewrite <-!app_assoc.
Qed.

Lemma length_mr_marshal mr : length (mr_marshal mr []) = MARSHALED_METAINDEX_ROW_SIZE.
Proof.
  rewrite mr_marshal_app. cbn [app]. by rewrite !length_app, length_tsid_marshal, !length_to_be_bytes.
Qed.

Lemma mr_marshal_bytes mr : bytes (mr_marshal mr []).
Proof.
  rewrite mr_marshal_app. cbn [app].
  rewrite !bytes_app. split; [apply tsid_marshal_bytes|]. split_and!; apply bytes_to_be_bytes.
Qed.

Lemma mr_unmarshal_app mr rest :
  mr_wf mr -> mr_valid mr -> mr_unmarshal (mr_marshal mr [] ++ rest) = Ok (mr, rest).
Proof.
  intros (H1 & H2 & H3 & H4 & H5 & H6) [H7 H8]. unfold mr_unmarshal.
  rewrite guard_false by (apply Nat.ltb_ge; rewrite length_app, length_mr_marshal; lia).
  rewrite bind_Ok, mr_marshal_app. cbn [app]. rewrite <-!app_assoc.
  rewrite tsid_unmarshal_app, map_err_Ok, bind_Ok by done. cbv beta iota.
  rewrite field_u32, !field_i64, field_u64, field_u32 by done.
  pass_guard ltac:(by apply Z.eqb_neq). pass_guard ltac:(rewrite Z.gtb_ltb; apply Z.ltb_ge; lia).
  by destruct mr.
Qed.

Lemma mr_unmarshal_inv src mr rest :
  bytes src -> mr_unmarshal src = Ok (mr, rest) ->
  mr_wf mr /\ mr_valid mr /\ bytes rest /\ src = mr_marshal mr [] ++ rest.
Proof.
  intros Hs H. unfold mr_unmarshal in H. res_inv. destruct a0 as [tsid src0]. res_inv. simplify_eq.
  match goal with H : tsid_unmarshal _ = _ |- _ => apply tsid_unmarshal_inv in H as (? & ? & ?); [|done] end.
  fields_inv. rewrite Z.eqb_neq, Z.gtb_ltb, Z.ltb_ge in *.
  split_and!; try done. rewrite mr_marshal_app. cbn -[to_be_bytes app tsid_marshal].
  cbn [app]. rewrite <-!app_assoc. congruence.
Qed.

Lemma mr_unmarshal_no_panic src : no_panic (mr_unmarshal src).
Proof.
  unfold mr_unmarshal. apply no_panic_bind; [auto with esm|]. intros ? Hg%guard_ok.
  apply Nat.ltb_ge in Hg. unfold MARSHALED_METAINDEX_ROW_SIZE in Hg.
  apply no_panic_bind; [apply no_panic_map_err, tsid_unmarshal_no_panic|]. intros [t rest] Ht.
  apply map_err_ok, tsid_unmarshal_length in Ht. field_steps.
  repeat (apply no_panic_bind; [auto with esm|intros _ _]). done.
Qed.

Definition marshal_rows (rows : list MetaindexRow) : list Z := concat (map (fun mr => mr_marshal mr []) rows).

Lemma read_rows_step fuel src acc :
  src <> [] ->
  read_rows (S fuel) src acc
  = ('(mr, src) ← map_err (MetaindexRowError (length acc)) (mr_unmarshal src);
     read_rows fuel src (acc ++ [mr])).
Proof. by destruct src. Qed.

Lemma mr_marshal_nonempty mr l : mr_marshal mr [] ++ l <> [].
Proof. pose proof (length_mr_marshal mr). by destruct (mr_marshal mr []). Qed.

Lemma length_marshal_rows rows : (length rows <= length (marshal_rows rows))%nat.
Proof.
  induction rows as [|mr rows IH]; cbn [marshal_rows map concat length]; [lia|].
  rewrite length_app, length_mr_marshal. fold (marshal_rows rows).
  unfold MARSHALED_METAINDEX_ROW_SIZE. lia.
Qed.

Lemma marshal_rows_bytes rows : bytes (marshal_rows rows).
Proof.
  induction rows as [|mr rows IH]; [constructor|]. cbn [marshal_rows map concat].
  apply bytes_app. auto using mr_marshal_bytes.
Qed.

Lemma read_rows_marshal rows : forall fuel acc,
  Forall mr_wf rows -> Forall mr_valid rows -> (length rows <= fuel)%nat ->
  read_rows fuel (marshal_rows rows) acc = Ok (acc ++ rows).
Proof.
  induction rows as [|mr rows IH]; intros fuel acc Hw Hv Hf; cbn [marshal_rows map concat].
  - rewrite app_nil_r. by destruct fuel.
  - inversion Hw; inversion Hv; subst. destruct fuel as [|fuel]; [cbn in Hf; lia|].
    rewrite read_rows_step by apply mr_marshal_nonempty.
    rewrite mr_unmarshal_app, map_err_Ok, bind_Ok by done.
    fold (marshal_rows rows). rewrite IH by (try done; cbn in Hf; lia). by rewrite <-app_assoc.
Qed.

Lemma read_rows_inv fuel : forall src acc,
  bytes src -> (length src <= fuel)%nat ->
  match read_rows fuel src acc with
  | Ok l => exists rows, l = acc ++ rows /\ Forall mr_wf rows /\ Forall mr_valid rows /\
              src = marshal_rows rows
  | Err _ => True
  | Panic => False
  end.
Proof.
  induction fuel as [|fuel IH]; intros src acc Hs Hl.
  - destruct src; [|cbn in Hl; lia]. cbn. exists []. by rewrite app_nil_r.
  - destruct (decide (src = [])) as [->|Hne]; [exists []; by rewrite app_nil_r|].
    rewrite read_rows_step by done.
    pose proof (mr_unmarshal_no_panic src) as Hnp.
    destruct (mr_unmarshal src) as [[mr rest]|e|] eqn:Hu; [|done..].
    apply mr_unmarshal_inv in Hu as (? & ? & ? & ->); [|done].
    rewrite length_app, length_mr_marshal in Hl. unfold MARSHALED_METAINDEX_ROW_SIZE in Hl.
    rewrite map_err_Ok, bind_Ok. cbv beta iota.
    specialize (IH rest (acc ++ [mr])). destruct (read_rows fuel rest _) as [l|?|];
      [|done|apply IH; [done|lia]].
    destruct IH as (rows & -> & ? & ? & ->); [done|lia|]. exists (mr :: rows).
    rewrite <-app_assoc. split_and!; [done|by constructor..|done].
Qed.

Definition sorted_rows (rows : list MetaindexRow) : Prop :=
  StronglySorted (fun a b => tsid_le (mr_tsid a) (mr_tsid b)) rows.

Lemma chain_rows rows :
  chain_b (fun a b => tsid_le (mr_tsid a) (mr_tsid b)) rows = true <-> sorted_rows rows.
Proof.
  rewrite <-Is_true_true. apply chain_b_sorted. intros x y z. apply tsid_le_trans.
Qed.

(** Only a valid metaindex decodes, and it decodes to its rows. *)
Lemma metaindex_decode_inv `{Zs : Zstd} src data rows :
  decompress_zstd [] src = Ok data -> bytes data ->
  (unmarshal_metaindex_rows src = Ok rows <->
   data = marshal_rows rows /\ rows <> [] /\ Forall mr_wf rows /\ Forall mr_valid rows /\ sorted_rows rows).
Proof.
  intros Hd Hb. unfold unmarshal_metaindex_rows. rewrite Hd, map_err_Ok, bind_Ok.
  pose proof (read_rows_inv (length data) data [] Hb ltac:(lia)) as Hinv. split.
  - intros H. res_inv. subst a. rewrite Hm in Hinv. destruct Hinv as (rows' & ? & ? & ? & ?).
    cbn in *. subst rows'. rewrite negb_false_iff in *. rewrite chain_rows in *.
    split_and!; try done. by intros ->.
  - intros (-> & Hne & Hw & Hv & Hs).
    apply bind_ok. exists rows. split; [apply read_rows_marshal; try done; apply length_marshal_rows|].
    pass_guard ltac:(destruct rows; done). pass_guard ltac:(apply negb_false_iff; by apply chain_rows).
    done.
Qed.

Lemma metaindex_no_panic `{Zs : Zstd} src data :
  decompress_zstd [] src = Ok data -> bytes data -> no_panic (unmarshal_metaindex_rows src).
Proof.
  intros Hd Hb. unfold unmarshal_metaindex_rows. rewrite Hd, map_err_Ok, bind_Ok.
  pose proof (read_rows_inv (length data) data [] Hb ltac:(lia)) as Hinv.
  apply no_panic_bind; [by destruct (read_rows _ _ _)|]. intros rows _.
  repeat (apply no_panic_bind; [auto with esm|intros _ _]). done.
Qed.

(** Reading a metaindex file back: rows that are well formed, valid,
    sorted by series and at least one, compressed at any level, are read back
    unchanged; and whatever a file decompresses to, the reader accepts it only
    if it is the concatenation of such rows, and otherwise errs without a panic. *)
Theorem metaindex_roundtrip `{Zl : ZstdLaws} (rows : list MetaindexRow) (lvl : Z)
    (Hne : rows <> []) (Hw : Forall mr_wf rows) (Hv : Forall mr_valid rows) (Hs : sorted_rows rows) :
  unmarshal_metaindex_rows (compress_zstd_level [] (marshal_rows rows) lvl) = Ok rows /\
  (forall src data rows', decompress_zstd [] src = Ok data -> bytes data ->
     no_panic (unmarshal_metaindex_rows src) /\
     (unmarshal_metaindex_rows src = Ok rows' ->
      data = marshal_rows rows' /\ rows' <> [] /\ Forall mr_wf rows' /\ Forall mr_valid rows' /\
      sorted_rows rows')).
Proof.
  split.
  - eapply metaindex_decode_inv; [apply decompress_compress|..]; auto using marshal_rows_bytes.
  - intros src data rows' Hd Hb. split; [by eapply metaindex_no_panic|].
    by apply metaindex_decode_inv.
Qed.

Section Witness.
Local Existing Instances stored_zstd stored_zstd_laws.
Lemma metaindex_roundtrip_witness :
  unmarshal_metaindex_rows (compress_zstd_level [] (marshal_rows
    [mkMetaindexRow (mkTsid 1 2 3 4) (-7) 8 0 2 100; mkMetaindexRow (mkTsid 1 2 3 5) 0 9 100 1 50]) 3)
  = Ok [mkMetaindexRow (mkTsid 1 2 3 4) (-7) 8 0 2 100; mkMetaindexRow (mkTsid 1 2 3 5) 0 9 100 1 50].
Proof.
  apply (metaindex_roundtrip (Zl := stored_zstd_laws)).
  - done.
  - apply (bool_decide_unpack _); vm_compute; done.
  - apply (bool_decide_unpack _); vm_compute; done.
  - unfold sorted_rows. repeat constructor.
Defined.
End Witness.

(** ** Registering block headers in a row *)

Definition register_all (bhs : list BlockHeader) : MetaindexRow :=
  foldl register_block_header (mr_reset MetaindexRow_default) bhs.

Lemma register_all_spec bh bhs :
  Z.of_nat (length (bh :: bhs)) < 2 ^ 32 ->
  let mr := register_all (bh :: bhs) in
  mr_block_headers_count mr = Z.of_nat (length (bh :: bhs)) /\
  mr_tsid mr = bh_tsid bh /\
  mr_min_timestamp mr = foldr Z.min (bh_min_timestamp bh) (map bh_min_timestamp bhs) /\
  mr_max_timestamp mr = foldr Z.max (bh_max_timestamp bh) (map bh_max_timestamp bhs).
Proof.
  induction bhs as [|x bhs IH] using rev_ind; intros Hlen mr.
  - subst mr. cbn. done.
  - rewrite length_cons, length_app in Hlen. cbn [length] in Hlen.
    destruct IH as (H1 & H2 & H3 & H4); [cbn [length]; lia|].
    subst mr. unfold register_all in *. rewrite app_comm_cons, foldl_app.
    set (mr := foldl _ _ (bh :: bhs)) in *. clearbody mr. cbn [foldl].
    unfold register_block_header. rewrite H1, wrap_u_id by (unfold is_u; cbn [length]; lia).
    rewrite (proj2 (Z.eqb_neq _ _)) by (cbn [length]; lia). cbn -[Z.of_nat].
    rewrite !length_app, !map_app, !foldr_app. cbn -[Z.of_nat]. rewrite H2, H3, H4.
    assert (Hmin : forall l a b, foldr Z.min (Z.min a b) l = Z.min a (foldr Z.min b l))
      by (induction l; cbn; intros; [done|]; rewrite IHl; lia).
    assert (Hmax : forall l a b, foldr Z.max (Z.max a b) l = Z.max a (foldr Z.max b l))
      by (induction l; cbn; intros; [done|]; rewrite IHl; lia).
    rewrite Hmin, Hmax, Z.gtb_ltb.
    split_and!; [lia|done| |]; destruct (Z.ltb_spec (bh_min_timestamp x) (foldr Z.min (bh_min_timestamp bh) (map bh_min_timestamp bhs)));
      destruct (Z.ltb_spec (foldr Z.max (bh_max_timestamp bh) (map bh_max_timestamp bhs)) (bh_max_timestamp x)); lia.
Qed.

Lemma foldr_min_le l d x : In x (d :: l) -> foldr Z.min d l <= x.
Proof. induction l as [|y l IH]; cbn in *; [intuition lia|]. intros [->|[->|?]]; [|lia|]; [assert (foldr Z.min x l <= x) by auto|assert (foldr Z.min d l <= x) by auto]; lia. Qed.
Lemma foldr_max_ge l d x : In x (d :: l) -> x <= foldr Z.max d l.
Proof. induction l as [|y l IH]; cbn in *; [intuition lia|]. intros [->|[->|?]]; [|lia|]; [assert (x <= foldr Z.max x l) by auto|assert (x <= foldr Z.max d l) by auto]; lia. Qed.

(** The row of an index block summarises the headers registered in it: it
    counts them, names the first series, and its time range covers the time
    range of every one of them, so that skipping an index block by its row
    never skips a block that overlaps the query. *)
Theorem metaindex_row_covers (bh : BlockHeader) (bhs : list BlockHeader)
    (Hlen : Z.of_nat (length (bh :: bhs)) < 2 ^ 32) :
  let mr := register_all (bh :: bhs) in
  mr_block_headers_count mr = Z.of_nat (length (bh :: bhs)) /\
  mr_tsid mr = bh_tsid bh /\
  (forall x, In x (bh :: bhs) ->
     mr_min_timestamp mr <= bh_min_timestamp x /\ bh_max_timestamp x <= mr_max_timestamp mr).
Proof.
  destruct (register_all_spec bh bhs Hlen) as (H1 & H2 & H3 & H4).
  split_and!; [done..|]. intros x Hx. rewrite H3, H4. split.
  - apply foldr_min_le. change (In (bh_min_timestamp x) (map bh_min_timestamp (bh :: bhs))). by apply in_map.
  - apply foldr_max_ge. change (In (bh_max_timestamp x) (map bh_max_timestamp (bh :: bhs))). by apply in_map.
Qed.

Lemma metaindex_row_covers_witness :
  let bh := mkBlockHeader (mkTsid 1 2 3 4) (-5) 9 7 0 0 3 3 2 (-2) 5 6 64 in
  let mr := register_all [bh; bh] in
  mr_block_headers_count mr = 2 /\ mr_tsid mr = bh_tsid bh /\
  (forall x, In x [bh; bh] ->
     mr_min_timestamp mr <= bh_min_timestamp x /\ bh_max_timestamp x <= mr_max_timestamp mr).
Proof. intros bh. apply (metaindex_row_covers bh [bh]). cbn. lia. Defined.
