(* ===== verification/Decimal.v ===== *)
(** * Decimal values

    Model of the integer half of [esm-common/src/decimal.rs]: the special
    values, and the calibration of two columns of decimal values to a common
    exponent that precedes every merge of two blocks. *)
From Stdlib Require Import ZArith Lia Bool.
From S2P Require Import Prelude.
Local Open Scope Z_scope.

Definition V_INF_POS : Z := 2 ^ 63 - 1.
Definition V_INF_NEG : Z := - 2 ^ 63.
Definition V_STALE_NAN : Z := 2 ^ 63 - 2.
Definition V_MAX : Z := 2 ^ 63 - 3.
Definition V_MIN : Z := - 2 ^ 63 + 1.

Definition is_special_value (v : Z) : bool := negb ((V_MIN <=? v) && (v <=? V_MAX)).

Definition is_stale_nan_int64 (i : Z) : bool := i =? V_STALE_NAN.

Definition DECIMAL_MULTIPLIERS : list Z :=
  [1; 10; 100; 1000; 10000; 100000; 1000000; 10000000; 100000000; 1000000000;
   10000000000; 100000000000; 1000000000000; 10000000000000; 100000000000000;
   1000000000000000; 10000000000000000; 100000000000000000; 1000000000000000000].

(** [exp as u16] of a positive [i16]. *)
Definition get_decimal_multiplier (exp : Z) : Z := default 1 (DECIMAL_MULTIPLIERS !! Z.to_nat exp).

(** The cascade [for e in (1..=18).rev()]. *)
Fixpoint up_exponent_loop (e : nat) (v : Z) : Z :=
  match e with
  | O => 0
  | S e' =>
      if v <=? (2 ^ 63 - 1) / default 1 (DECIMAL_MULTIPLIERS !! e) then Z.of_nat e
      else up_exponent_loop e' v
  end.

Definition max_up_exponent (v : Z) : Z :=
  if (v =? 0) || is_special_value v then 1024
  else
    let v := if v <? 0 then i64_neg v else v in
    if v <? 0 then 0 else up_exponent_loop 18 v.

Definition i16_sub (a b : Z) : Z := as_i16 (a - b).
Definition i16_add (a b : Z) : Z := as_i16 (a + b).
Definition i64_mul (a b : Z) : Z := as_i64 (a * b).

(** The [for &v in a.iter()] loop that finds by how much the columns must be
    scaled down. *)
Definition down_exponent (up_exp : Z) (a : list Z) : Z :=
  foldl (fun down_exp v =>
    let excess := i16_sub up_exp (max_up_exponent v) in
    if excess >? down_exp then excess else down_exp) 0 a.

Definition scale_up (up_exp : Z) (a : list Z) : list Z :=
  if up_exp >? 0 then
    let m := get_decimal_multiplier up_exp in
    map (fun v => if is_special_value v then v else i64_mul v m) a
  else a.

Definition scale_down (down_exp : Z) (b : list Z) : list Z :=
  if down_exp >? 0 then
    if down_exp >? 18 then map (fun v => if is_special_value v then v else 0) b
    else
      let m := get_decimal_multiplier down_exp in
      map (fun v => if is_special_value v then v else Z.quot v m) b
  else b.

(** The columns after the call and the common exponent. *)
Definition calibrate_scale (a : list Z) (ae : Z) (b : list Z) (be : Z) : list Z * list Z * Z :=
  if ae =? be then (a, b, ae)
  else if (length a =? 0)%nat then (a, b, be)
  else if (length b =? 0)%nat then (a, b, ae)
  else
    let swap := ae <? be in
    let '(hi, hie, lo, loe) := if swap then (b, be, a, ae) else (a, ae, b, be) in
    let up_exp := i16_sub hie loe in
    let down_exp := down_exponent up_exp hi in
    let up_exp := i16_sub up_exp down_exp in
    let hi := scale_up up_exp hi in
    let lo := scale_down down_exp lo in
    let e := i16_add loe down_exp in
    if swap then (lo, hi, e) else (hi, lo, e).

(** ** Lemmas *)

Lemma is_special_value_spec v : is_special_value v = false <-> V_MIN <= v <= V_MAX.
Proof.
  unfold is_special_value. rewrite negb_false_iff, andb_true_iff, !Z.leb_le. done.
Qed.

Lemma multiplier_pow k : 0 <= k <= 18 -> get_decimal_multiplier k = 10 ^ k.
Proof.
  intros Hk. unfold get_decimal_multiplier.
  assert (Hall : forall n, (n <= 18)%nat -> DECIMAL_MULTIPLIERS !! n = Some (10 ^ Z.of_nat n)).
  { intros n Hn. do 19 (destruct n as [|n]; [done|]). lia. }
  rewrite Hall by lia. cbn. by rewrite Z2Nat.id by lia.
Qed.

Lemma up_exponent_loop_spec v n :
  (n <= 18)%nat -> 0 <= v < 2 ^ 63 ->
  let e := up_exponent_loop n v in 0 <= e <= Z.of_nat n /\ v * 10 ^ e <= 2 ^ 63 - 1.
Proof.
  intros Hn Hv. induction n as [|n IH]; cbn [up_exponent_loop]; [cbn; lia|].
  pose proof (multiplier_pow (Z.of_nat (S n)) ltac:(lia)) as Hm. unfold get_decimal_multiplier in Hm.
  rewrite Nat2Z.id in Hm. rewrite Hm.
  destruct (Z.leb_spec v ((2 ^ 63 - 1) / 10 ^ Z.of_nat (S n))) as [Hle|_].
  - split; [lia|]. pose proof (Z.mul_div_le (2 ^ 63 - 1) (10 ^ Z.of_nat (S n)) ltac:(lia)). nia.
  - destruct IH; [lia|]. split; lia.
Qed.

(** A value can be multiplied by ten to its maximal up exponent (or any
    smaller power) without overflow. *)
Lemma max_up_exponent_spec v :
  is_special_value v = false -> v <> 0 ->
  0 <= max_up_exponent v <= 18 /\ Z.abs v * 10 ^ max_up_exponent v <= 2 ^ 63 - 1.
Proof.
  intros Hs Hv. unfold max_up_exponent. rewrite Hs, (proj2 (Z.eqb_neq _ _) Hv). cbn [orb].
  apply is_special_value_spec in Hs. unfold V_MIN, V_MAX in Hs.
  assert (Habs : (if v <? 0 then i64_neg v else v) = Z.abs v).
  { destruct (Z.ltb_spec v 0); [|lia]. unfold i64_neg. rewrite wrap_i_id; unfold is_i; lia. }
  rewrite Habs, (proj2 (Z.ltb_ge _ _)) by lia. apply (up_exponent_loop_spec _ 18); lia.
Qed.

Lemma max_up_exponent_range v : 0 <= max_up_exponent v <= 1024.
Proof.
  destruct (decide (v = 0 \/ is_special_value v = true)) as [H|H].
  - unfold max_up_exponent. rewrite (proj2 (orb_true_iff _ _)); [lia|]. destruct H; [left; lia|by right].
  - destruct (max_up_exponent_spec v); [|naive_solver|lia].
    destruct (is_special_value v); naive_solver.
Qed.

Lemma down_exponent_spec up a :
  0 <= up < 2 ^ 15 ->
  let down := down_exponent up a in
  0 <= down <= up /\ forall v, In v a -> up - down <= max_up_exponent v.
Proof.
  intros Hup. unfold down_exponent. set (f := fun down_exp v => _).
  induction a as [|v a IH] using rev_ind; cbn [foldl]; [split; [lia|done]|].
  rewrite foldl_app. cbn [foldl]. set (down := foldl f 0 a) in *. destruct IH as [H1 H2].
  pose proof (max_up_exponent_range v). unfold f, i16_sub.
  rewrite wrap_i_id by (unfold is_i; lia). rewrite Z.gtb_ltb.
  destruct (Z.ltb_spec down (up - max_up_exponent v)); (split; [lia|]); intros w [Hw|[<-|[]]]%in_app_iff;
    try specialize (H2 w Hw); lia.
Qed.

(** [v] can be taken to an exponent lower by [k]: the product does not leave
    [i64]; zero and the special values count as if 1024 steps were possible. *)
Definition fits (k v : Z) : Prop := k <= 1024 /\ (is_special_value v = true \/ Z.abs v * 10 ^ k <= 2 ^ 63 - 1).

Lemma up_exponent_loop_greatest v n k :
  (n <= 18)%nat -> 0 <= v -> 0 <= k <= Z.of_nat n -> v * 10 ^ k <= 2 ^ 63 - 1 -> k <= up_exponent_loop n v.
Proof.
  intros Hn Hv. induction n as [|n IH]; cbn [up_exponent_loop]; intros Hk Hle; [lia|].
  pose proof (multiplier_pow (Z.of_nat (S n)) ltac:(lia)) as Hm. unfold get_decimal_multiplier in Hm.
  rewrite Nat2Z.id in Hm. rewrite Hm.
  destruct (Z.leb_spec v ((2 ^ 63 - 1) / 10 ^ Z.of_nat (S n))) as [_|Hgt]; [lia|].
  destruct (decide (k = Z.of_nat (S n))) as [->|Hne]; [|apply IH; lia].
  assert (v <= (2 ^ 63 - 1) / 10 ^ Z.of_nat (S n)) by (apply Z.div_le_lower_bound; lia). lia.
Qed.

(** [max_up_exponent] is the greatest number of such steps. *)
Lemma fits_max_up k v : 0 <= k -> fits k v <-> k <= max_up_exponent v.
Proof.
  intros Hk. unfold fits. destruct (is_special_value v) eqn:Hs.
  { unfold max_up_exponent. rewrite Hs, orb_true_r. naive_solver lia. }
  destruct (decide (v = 0)) as [->|Hv].
  { unfold max_up_exponent. cbn. split; [lia|]. intros ?. split; [lia|right; lia]. }
  destruct (max_up_exponent_spec v Hs Hv) as [Hr Hb]. split.
  - intros [_ [?|Hle]]; [done|]. destruct (decide (k <= 18)) as [Hk18|Hk19].
    + unfold max_up_exponent in *. rewrite Hs, (proj2 (Z.eqb_neq _ _) Hv) in *. cbn [orb] in *.
      apply is_special_value_spec in Hs. unfold V_MIN, V_MAX in Hs.
      assert (Habs : (if v <? 0 then i64_neg v else v) = Z.abs v).
      { destruct (Z.ltb_spec v 0); [|lia]. unfold i64_neg. rewrite wrap_i_id; unfold is_i; lia. }
      rewrite Habs, (proj2 (Z.ltb_ge _ _)) in * by lia. apply up_exponent_loop_greatest; lia.
    + assert (10 ^ 19 <= 10 ^ k) by (apply Z.pow_le_mono_r; lia). nia.
  - intros Hle. split; [lia|right]. assert (10 ^ k <= 10 ^ max_up_exponent v) by (apply Z.pow_le_mono_r; lia). nia.
Qed.

(** No smaller scaling down is enough. *)
Lemma down_exponent_least up a :
  0 <= up < 2 ^ 15 -> let down := down_exponent up a in 0 < down -> exists v, In v a /\ max_up_exponent v = up - down.
Proof.
  intros Hup. unfold down_exponent. set (f := fun down_exp v => _).
  induction a as [|v a IH] using rev_ind; cbn [foldl]; [lia|].
  rewrite foldl_app. cbn [foldl]. set (down := foldl f 0 a) in *. pose proof (max_up_exponent_range v). unfold f, i16_sub.
  rewrite wrap_i_id by (unfold is_i; lia). rewrite Z.gtb_ltb. destruct (Z.ltb_spec down (up - max_up_exponent v)).
  - intros _. exists v. split; [apply in_app_iff; cbn; auto|lia].
  - intros Hd. destruct (IH Hd) as (w & Hw & Hm). exists w. split; [apply in_app_iff; auto|done].
Qed.

(** ** Calibration *)

(** The exponent [e] that the column [hi] with exponent [hie] is taken to: the
    lowest, from [loe] on, at which all its values fit. *)
Definition lowest_exponent (hi : list Z) (hie loe e : Z) : Prop :=
  Forall (fits (hie - e)) hi /\ (loe < e -> ~ Forall (fits (hie - (e - 1))) hi).

Lemma down_exponent_lowest hi hie loe :
  0 <= hie - loe < 2 ^ 15 -> lowest_exponent hi hie loe (loe + down_exponent (hie - loe) hi).
Proof.
  intros Hup. destruct (down_exponent_spec (hie - loe) hi Hup) as [Hd Hmax].
  pose proof (down_exponent_least (hie - loe) hi Hup) as Hl. cbn zeta in Hl. set (down := down_exponent (hie - loe) hi) in *. split.
  - apply Forall_In. intros v Hv. apply fits_max_up; [lia|]. specialize (Hmax v Hv). lia.
  - intros Hlt Hall. destruct Hl as (v & Hv & Hm); [lia|]. rewrite Forall_In in Hall. specialize (Hall v Hv).
    apply fits_max_up in Hall; lia.
Qed.

(** The value [v * 10 ^ from] expressed with exponent [e]: exact when the
    exponent decreases, truncated towards zero when it grows. *)
Definition rescale (from e v : Z) : Z :=
  if is_special_value v then v
  else if e <=? from then v * 10 ^ (from - e) else Z.quot v (10 ^ (e - from)).

Lemma quot_big v k : is_i64 v -> 18 < k -> Z.quot v (10 ^ k) = 0.
Proof.
  intros Hv Hk. apply Z.quot_small_iff; [lia|]. unfold is_i in Hv.
  assert (10 ^ 19 <= 10 ^ k) by (apply Z.pow_le_mono_r; lia). lia.
Qed.

Lemma scale_down_rescale down loe b :
  0 <= down -> Forall is_i64 b -> scale_down down b = map (rescale loe (loe + down)) b.
Proof.
  intros Hd Hb. unfold scale_down. rewrite !Z.gtb_ltb.
  destruct (Z.ltb_spec 0 down) as [Hpos|Hz].
  - destruct (Z.ltb_spec 18 down); apply map_ext_in; intros v Hv; unfold rescale;
      rewrite (proj2 (Z.leb_gt _ _)) by lia; replace (loe + down - loe) with down by lia;
      destruct (is_special_value v); try done.
    + rewrite quot_big; [done| |done]. rewrite Forall_In in Hb. by apply Hb.
    + by rewrite multiplier_pow by lia.
  - assert (down = 0) as -> by lia. rewrite <-(map_id b) at 1. apply map_ext. intros v. unfold rescale.
    rewrite (proj2 (Z.leb_le _ _)), Z.add_0_r, Z.sub_diag by lia. case_match; lia.
Qed.

Lemma scale_up_rescale up hie a :
  0 <= up -> Forall is_i64 a -> (forall v, In v a -> up <= max_up_exponent v) ->
  scale_up up a = map (rescale hie (hie - up)) a.
Proof.
  intros Hu Ha Hmax. unfold scale_up. rewrite Z.gtb_ltb. destruct (Z.ltb_spec 0 up) as [Hpos|Hz].
  - apply map_ext_in. intros v Hv. unfold rescale. rewrite (proj2 (Z.leb_le _ _)) by lia.
    replace (hie - (hie - up)) with up by lia. destruct (is_special_value v) eqn:Hs; [done|].
    destruct (decide (v = 0)) as [->|Hne]; [done|].
    destruct (max_up_exponent_spec v Hs Hne) as [Hr Hb]. specialize (Hmax v Hv).
    rewrite multiplier_pow by lia. unfold i64_mul. apply wrap_i_id; [lia|]. unfold is_i.
    assert (10 ^ up <= 10 ^ max_up_exponent v) by (apply Z.pow_le_mono_r; lia).
    assert (Z.abs v * 10 ^ up <= Z.abs v * 10 ^ max_up_exponent v) by (apply Z.mul_le_mono_nonneg_l; lia).
    assert (Z.abs (v * 10 ^ up) <= 2 ^ 63 - 1) by (rewrite Z.abs_mul, (Z.abs_eq (10 ^ up)); lia). lia.
  - assert (up = 0) as -> by lia. rewrite <-(map_id a) at 1. apply map_ext. intros v. unfold rescale.
    rewrite (proj2 (Z.leb_le _ _)), Z.sub_0_r, Z.sub_diag by lia. case_match; lia.
Qed.

Lemma rescale_same e v : rescale e e v = v.
Proof. unfold rescale. rewrite Z.leb_refl, Z.sub_diag. case_match; lia. Qed.

Lemma map_rescale_same e l : map (rescale e e) l = l.
Proof. rewrite <-(map_id l) at 2. apply map_ext. apply rescale_same. Qed.

(** The asymmetric case: the column with the larger exponent first. *)
Lemma calibrate_columns hi hie lo loe :
  loe < hie -> hie - loe < 2 ^ 15 -> is_i16 loe -> is_i16 hie -> Forall is_i64 hi -> Forall is_i64 lo ->
  let up := i16_sub hie loe in
  let down := down_exponent up hi in
  let e := i16_add loe down in
  loe <= e <= hie /\ lowest_exponent hi hie loe e /\ scale_up (i16_sub up down) hi = map (rescale hie e) hi /\
  scale_down down lo = map (rescale loe e) lo.
Proof.
  intros Hlt Hdiff Hlo Hhi Hhis Hlos up down e.
  assert (Hup : up = hie - loe) by (subst up; unfold i16_sub; apply wrap_i_id; unfold is_i in *; lia).
  destruct (down_exponent_spec up hi ltac:(lia)) as [Hd Hmax]. fold down in Hd, Hmax.
  assert (He : e = loe + down) by (subst e; unfold i16_add; apply wrap_i_id; unfold is_i in *; lia).
  assert (Hsub : i16_sub up down = up - down) by (unfold i16_sub; apply wrap_i_id; unfold is_i in *; lia).
  split; [lia|]. split.
  { rewrite He. unfold down. rewrite Hup. apply down_exponent_lowest. lia. }
  rewrite Hsub, He. split.
  - rewrite (scale_up_rescale _ hie) by (done || lia). do 2 f_equal. lia.
  - apply scale_down_rescale; [lia|done].
Qed.

Lemma quot_abs_le v m : 0 < m -> Z.quot (Z.abs v) m <= Z.abs v.
Proof.
  intros Hm. apply Z.quot_le_upper_bound; [done|].
  rewrite <-(Z.mul_1_l (Z.abs v)) at 1. apply Z.mul_le_mono_nonneg_r; lia.
Qed.

(** A rescaled regular value stays regular. *)
Lemma rescale_not_special from e v :
  is_special_value v = false -> is_i64 (rescale from e v) -> is_special_value (rescale from e v) = false.
Proof.
  intros Hs Hr. unfold rescale in *. rewrite Hs in *. apply is_special_value_spec in Hs as Hv.
  apply is_special_value_spec. unfold V_MIN, V_MAX, is_i in *.
  destruct (Z.leb_spec e from) as [Hle|Hlt].
  - destruct (decide (e = from)) as [->|Hne]; [rewrite Z.sub_diag in *; lia|].
    replace (from - e) with (Z.succ (from - e - 1)) in * by lia. rewrite Z.pow_succ_r in * by lia.
    set (x := 10 ^ (from - e - 1)) in *. assert (Hx : v * (10 * x) = 10 * (v * x)) by lia. lia.
  - assert (1 < 10 ^ (e - from)) by (apply Z.pow_gt_1; lia).
    pose proof (Z.quot_abs v (10 ^ (e - from)) ltac:(lia)).
    rewrite (Z.abs_eq (10 ^ _)) in * by lia.
    pose proof (Z.mul_quot_le (Z.abs v) (10 ^ (e - from)) ltac:(lia) ltac:(lia)).
    pose proof (Z.quot_pos (Z.abs v) (10 ^ (e - from)) ltac:(lia) ltac:(lia)).
    assert (2 * Z.quot (Z.abs v) (10 ^ (e - from)) <= Z.abs v) by nia. lia.
Qed.

Lemma map_special from e l :
  Forall is_i64 (map (rescale from e) l) ->
  map is_special_value (map (rescale from e) l) = map is_special_value l.
Proof.
  induction l as [|v l IH]; cbn; [done|]. intros Hf. inversion Hf; subst. rewrite IH by done. f_equal.
  destruct (is_special_value v) eqn:Hs; [unfold rescale; by rewrite Hs|by apply rescale_not_special].
Qed.

Lemma scale_up_i64 up a : Forall is_i64 a -> Forall is_i64 (scale_up up a).
Proof.
  intros Ha. unfold scale_up. case_match; [|done]. apply Forall_map.
  eapply Forall_weaken; [|done]. intros v Hv. cbn. case_match; [done|]. apply wrap_i_range. lia.
Qed.

Lemma quot_i64 v m : is_i64 v -> 0 < m -> is_i64 (Z.quot v m).
Proof.
  intros Hv Hm. unfold is_i in *. pose proof (Z.quot_abs v m ltac:(lia)).
  pose proof (quot_abs_le v m Hm).
  rewrite (Z.abs_eq m) in * by lia. destruct (decide (v = - 2 ^ 63)) as [->|]; [|lia].
  pose proof (Z.quot_opp_l (2 ^ 63) m ltac:(lia)).
  pose proof (Z.quot_pos (2 ^ 63) m ltac:(lia) ltac:(lia)). lia.
Qed.

Lemma scale_down_i64 down b : Forall is_i64 b -> Forall is_i64 (scale_down down b).
Proof.
  intros Hb. unfold scale_down. rewrite !Z.gtb_ltb. destruct (Z.ltb_spec 0 down); [|done].
  destruct (Z.ltb_spec 18 down); apply Forall_map; (eapply Forall_weaken; [|done]); intros v Hv; cbn;
    case_match; try done.
  rewrite multiplier_pow by lia. apply quot_i64; [done|lia].
Qed.

(** The exponent of the result: that of the other column when one is empty. *)
Definition calibrated_exponent (a : list Z) (ae : Z) (b : list Z) (be e : Z) : Prop :=
  match a, b with
  | [], _ => e = be
  | _, [] => e = ae
  | _, _ => if ae <? be then lowest_exponent b be ae e else lowest_exponent a ae be e
  end.

(** The result of calibration, on columns of 64-bit values. *)
Definition calibrated (a : list Z) (ae : Z) (b : list Z) (be : Z) (r : list Z * list Z * Z) : Prop :=
  let '(a', b', e) := r in
  Z.min ae be <= e <= Z.max ae be /\ calibrated_exponent a ae b be e /\
  a' = map (rescale ae e) a /\ b' = map (rescale be e) b /\
  Forall is_i64 a' /\ Forall is_i64 b' /\
  map is_special_value a' = map is_special_value a /\
  map is_special_value b' = map is_special_value b.

Lemma calibrated_intro a ae b be a' b' e :
  Z.min ae be <= e <= Z.max ae be -> calibrated_exponent a ae b be e -> a' = map (rescale ae e) a -> b' = map (rescale be e) b ->
  Forall is_i64 a' -> Forall is_i64 b' -> calibrated a ae b be (a', b', e).
Proof. intros He Hx -> -> Ha Hb. unfold calibrated. split_and!; auto using map_special; lia. Qed.

Lemma same_exponent_lowest a e : Forall is_i64 a -> lowest_exponent a e e e.
Proof.
  intros Ha. split; [|lia]. rewrite Z.sub_diag. revert Ha. apply Forall_weaken. intros v Hv. split; [lia|].
  destruct (is_special_value v) eqn:Hs; [by left|right]. apply is_special_value_spec in Hs. unfold V_MIN, V_MAX in Hs. lia.
Qed.

Lemma same_exponent_calibrated a b e : Forall is_i64 a -> Forall is_i64 b -> calibrated_exponent a e b e e.
Proof.
  intros Ha Hb. unfold calibrated_exponent. destruct a as [|x a]; [done|]. destruct b as [|y b]; [done|].
  rewrite Z.ltb_irrefl. by apply same_exponent_lowest.
Qed.

Lemma calibrate_scale_spec a ae b be :
  Forall is_i64 a -> Forall is_i64 b -> is_i16 ae -> is_i16 be -> Z.abs (ae - be) < 2 ^ 15 ->
  calibrated a ae b be (calibrate_scale a ae b be).
Proof.
  intros Ha Hb Hae Hbe Hdiff. unfold calibrate_scale. destruct (Z.eqb_spec ae be) as [->|Hne].
  { apply calibrated_intro; rewrite ?map_rescale_same; auto using same_exponent_calibrated; lia. }
  destruct (Nat.eqb_spec (length a) 0) as [Hla|Hla].
  { destruct a; [|done]. apply calibrated_intro; rewrite ?map_rescale_same; (done || lia). }
  destruct (Nat.eqb_spec (length b) 0) as [Hlb|Hlb].
  { destruct b; [|done]. apply calibrated_intro; rewrite ?map_rescale_same; try done; [lia|]. by destruct a. }
  assert (Hce : forall e, (if ae <? be then lowest_exponent b be ae e else lowest_exponent a ae be e) -> calibrated_exponent a ae b be e).
  { intros e He. unfold calibrated_exponent. by destruct a, b. }
  destruct (Z.ltb_spec ae be).
  - destruct (calibrate_columns b be a ae) as (He & Hx & H1 & H2); [done|lia|done..|].
    apply calibrated_intro; auto using scale_up_i64, scale_down_i64; lia.
  - destruct (calibrate_columns a ae b be) as (He & Hx & H1 & H2); [lia|lia|done..|].
    apply calibrated_intro; auto using scale_up_i64, scale_down_i64; lia.
Qed.

(** C33: calibration brings both columns to one exponent between the two given
    ones, for exponents less than 2^15 apart (beyond that their difference wraps
    around in [i16]).  The exponent is the lowest, from the smaller of the two
    on, at which every value of the column with the larger one stays in [i64]
    (zeros and special values are taken down by at most 1024); if a column is
    empty it is that of the other one.  Each value is the original rescaled to it
    (exactly, for the column whose exponent decreases: no multiplication wraps
    around; truncated for the other one), special values are kept and no regular
    value turns into one. *)
Theorem calibrate_scale_rescales (a : list Z) (ae : Z) (b : list Z) (be : Z)
    (Ha : Forall is_i64 a) (Hb : Forall is_i64 b) (Hae : is_i16 ae) (Hbe : is_i16 be)
    (Hdiff : Z.abs (ae - be) < 2 ^ 15) :
  calibrated a ae b be (calibrate_scale a ae b be).
Proof. by apply calibrate_scale_spec. Qed.

Lemma calibrate_scale_rescales_witness :
  calibrated [12; V_STALE_NAN; -7] 3 [123456; 99] (-2)
    (calibrate_scale [12; V_STALE_NAN; -7] 3 [123456; 99] (-2)).
Proof.
  apply calibrate_scale_rescales; [apply (bool_decide_unpack _); vm_compute; done..|lia].
Defined.
