(* ===== verification/Dedup.v ===== *)
(** * Sample deduplication

    Model of [esm-storage/src/dedup.rs]: the in-place compaction that keeps
    one sample per deduplication interval, generic in the value type through
    the trait [DedupValue] (query time works on floats, merge time on decimal
    integers). *)
From Stdlib Require Import ZArith Lia Bool Sorted.
From S2P Require Import Prelude Decimal.
Local Open Scope Z_scope.

(** The [DedupValue] trait: a staleness test and [PartialOrd]'s [>]. *)
Class DedupValue (V : Type) : Type := {
  is_stale_nan : V -> bool;
  val_gt : V -> V -> bool;
}.

#[export] Instance DedupValue_i64 : DedupValue Z := {|
  is_stale_nan := is_stale_nan_int64;
  val_gt := Z.gtb;
|}.

(** The global deduplication interval, an atomic cell: a value of the state
    the caller passes around. *)
Definition is_dedup_enabled (global_dedup_interval : Z) : bool := global_dedup_interval >? 0.

(** [x + d - 1], then rounded down to a multiple of [d] by the truncated
    remainder; the additions wrap around in a release build. *)
Definition next_boundary (ts d : Z) : Z :=
  let ts_next := i64_sub (i64_add ts d) 1 in
  i64_sub ts_next (Z.rem ts_next d).

Fixpoint needs_dedup_loop (d ts_next : Z) (timestamps : list Z) : bool :=
  match timestamps with
  | [] => false
  | ts :: rest =>
      if ts <=? ts_next then true
      else
        let ts_next := i64_add ts_next d in
        let ts_next := if ts_next <? ts then next_boundary ts d else ts_next in
        needs_dedup_loop d ts_next rest
  end.

Definition needs_dedup (timestamps : list Z) (dedup_interval : Z) : bool :=
  if (length timestamps <? 2)%nat || (dedup_interval <=? 0) then false
  else match timestamps with
  | [] => false
  | t0 :: rest => needs_dedup_loop dedup_interval (next_boundary t0 dedup_interval) rest
  end.

Section Dedup.
  Context {E V : Type} {DV : DedupValue V}.

(** The backward walk of [pick_sample_at] from index [j]. *)
Fixpoint pick_walk (timestamps : list Z) (values : list V) (ts_prev : Z) (j : nat) (v_prev : V)
    : res E V :=
  match j with
  | O => Ok v_prev
  | S j =>
      t ← idx timestamps j;
      if t =? ts_prev then
        v ← idx values j;
        if is_stale_nan v then pick_walk timestamps values ts_prev j v_prev
        else if is_stale_nan v_prev then pick_walk timestamps values ts_prev j v
        else if val_gt v v_prev then pick_walk timestamps values ts_prev j v
        else pick_walk timestamps values ts_prev j v_prev
      else Ok v_prev
  end.

Definition pick_sample_at (timestamps : list Z) (values : list V) (j : nat) : res E (Z * V) :=
  ts_prev ← idx timestamps j;
  v_prev ← idx values j;
  v ← pick_walk timestamps values ts_prev j v_prev;
  Ok (ts_prev, v).

(** [for i in i..i + n]: the buffers, the write position and the bucket
    boundary are the loop's state. *)
Fixpoint dedup_loop (d : Z) (n i : nat) (timestamps : list Z) (values : list V) (dst_len : nat)
    (ts_next : Z) : res E (list Z * list V * nat) :=
  match n with
  | O => Ok (timestamps, values, dst_len)
  | S n =>
      ts ← idx timestamps i;
      if ts <=? ts_next then dedup_loop d n (S i) timestamps values dst_len ts_next
      else
        '(ts_prev, v_prev) ← pick_sample_at timestamps values (i - 1);
        timestamps ← set_idx timestamps dst_len ts_prev;
        values ← set_idx values dst_len v_prev;
        let dst_len := S dst_len in
        let ts_next := i64_add ts_next d in
        let ts_next := if ts_next <? ts then next_boundary ts d else ts_next in
        dedup_loop d n (S i) timestamps values dst_len ts_next
  end.

Definition deduplicate_in_place (timestamps : list Z) (values : list V) (dedup_interval : Z)
    : res E (list Z * list V * nat) :=
  if negb (needs_dedup timestamps dedup_interval) then Ok (timestamps, values, length timestamps)
  else
    let src_len := length timestamps in
    t0 ← idx timestamps 0;
    '(timestamps, values, dst_len) ←
      dedup_loop dedup_interval (src_len - 1) 1 timestamps values 0 (next_boundary t0 dedup_interval);
    '(ts_prev, v_prev) ← pick_sample_at timestamps values (src_len - 1);
    timestamps ← set_idx timestamps dst_len ts_prev;
    values ← set_idx values dst_len v_prev;
    Ok (timestamps, values, S dst_len).

(** [deduplicate_samples] and [deduplicate_samples_during_merge]: the vectors
    are truncated to the samples kept. *)
Definition deduplicate_samples (src_timestamps : list Z) (src_values : list V) (dedup_interval : Z)
    : res E (list Z * list V) :=
  '(timestamps, values, n) ← deduplicate_in_place src_timestamps src_values dedup_interval;
  Ok (take n timestamps, take n values).
End Dedup.

(** ** Reference: one sample per bucket *)

(** The bucket of a timestamp: [(k - 1) d < t <= k d]. *)
Definition bucket (d t : Z) : Z := (t + d - 1) / d.

Section Reference.
  Context {V : Type} {DV : DedupValue V}.

(** The better of two values of the same instant: a value beats a staleness
    marker, a greater value beats a smaller one. *)
Definition better (v v_prev : V) : V :=
  if is_stale_nan v then v_prev
  else if is_stale_nan v_prev then v
  else if val_gt v v_prev then v else v_prev.

(** The samples of a run, latest first, of the instant [t]. *)
Fixpoint best_at (t : Z) (v : V) (run : list (Z * V)) : V :=
  match run with
  | [] => v
  | (t', v') :: run' => if t' =? t then best_at t (better v' v) run' else v
  end.

Definition pick_run (run : list (Z * V)) : list (Z * V) :=
  match run with
  | [] => []
  | (t, v) :: run' => [(t, best_at t v run')]
  end.

(** [run] is the current bucket, latest sample first. *)
Fixpoint dedup_runs (d : Z) (run : list (Z * V)) (samples : list (Z * V)) : list (Z * V) :=
  match samples with
  | [] => pick_run run
  | x :: rest =>
      match run with
      | y :: _ =>
          if bucket d x.1 =? bucket d y.1 then dedup_runs d (x :: run) rest
          else pick_run run ++ dedup_runs d [x] rest
      | [] => dedup_runs d [x] rest
      end
  end.

Definition dedup_ref (d : Z) (samples : list (Z * V)) : list (Z * V) := dedup_runs d [] samples.
End Reference.

(** ** Bucket boundaries *)

Section Boundaries.
  Context (d : Z) (Hd : 0 < d).

Lemma bucket_spec t : (bucket d t - 1) * d < t <= bucket d t * d.
Proof. unfold bucket. pose proof (Z.div_mod (t + d - 1) d). pose proof (Z.mod_pos_bound (t + d - 1) d). lia. Qed.

Lemma bucket_unique t k : (k - 1) * d < t <= k * d -> bucket d t = k.
Proof. pose proof (bucket_spec t). intros. nia. Qed.

Lemma bucket_mono t1 t2 : t1 <= t2 -> bucket d t1 <= bucket d t2.
Proof. intros. unfold bucket. apply Z.div_le_mono; lia. Qed.

(** A later timestamp leaves the bucket exactly when it passes its end. *)
Lemma bucket_le_boundary y t : y <= t -> t <= bucket d y * d <-> bucket d t = bucket d y.
Proof.
  intros Hyt. pose proof (bucket_spec y). pose proof (bucket_spec t). split; intros Ht.
  - apply bucket_unique. lia.
  - rewrite <-Ht. lia.
Qed.

Lemma next_boundary_bucket t : 0 <= t -> t + d < 2 ^ 63 -> next_boundary t d = bucket d t * d.
Proof.
  intros Ht Hov. unfold next_boundary, i64_add, i64_sub.
  rewrite (wrap_i_id 64 (t + d)) by (unfold is_i; lia).
  rewrite (wrap_i_id 64 (t + d - 1)) by (unfold is_i; lia).
  rewrite Z.rem_mod_nonneg by lia. unfold bucket.
  pose proof (Z.div_mod (t + d - 1) d). pose proof (Z.mod_pos_bound (t + d - 1) d).
  rewrite wrap_i_id; unfold is_i; lia.
Qed.

(** Moving to the bucket of the next sample: the common case is the next
    boundary, a gap recomputes it. *)
Lemma boundary_step y t :
  0 <= y <= t -> t + 2 * d < 2 ^ 63 -> bucket d y * d < t ->
  (if i64_add (bucket d y * d) d <? t then next_boundary t d else i64_add (bucket d y * d) d)
  = bucket d t * d.
Proof.
  intros Hy Hov Hlt. pose proof (bucket_spec y). pose proof (bucket_spec t).
  unfold i64_add. rewrite wrap_i_id by (unfold is_i; nia).
  destruct (Z.ltb_spec (bucket d y * d + d) t).
  - apply next_boundary_bucket; lia.
  - rewrite (bucket_unique t (bucket d y + 1)); lia.
Qed.
End Boundaries.

(** ** The compaction equals the reference *)

Section Equivalence.
  Context {V : Type} {DV : DedupValue V}.
  Implicit Types (buf out junk run rest : list (Z * V)).
  Local Abbreviation R A := (res Empty_set A).

Lemma idx_fmap {A B} (f : A -> B) l i x : l !! i = Some x -> idx (E := Empty_set) (f <$> l) i = Ok (f x).
Proof. intros H. unfold idx. by rewrite list_lookup_fmap, H. Qed.

Lemma pick_walk_spec buf t : forall j v,
  (j <= length buf)%nat ->
  pick_walk (E := Empty_set) buf.*1 buf.*2 t j v = Ok (best_at t v (reverse (take j buf))).
Proof.
  induction j as [|j IH]; intros v Hj; [done|].
  destruct (lookup_lt_is_Some_2 buf j ltac:(lia)) as [[t' v'] Hx].
  rewrite (take_S_r _ _ _ Hx), reverse_app. cbn [reverse rev_append app pick_walk best_at].
  rewrite (idx_fmap fst _ _ _ Hx), bind_Ok. cbn [fst]. destruct (t' =? t); [|done].
  rewrite (idx_fmap snd _ _ _ Hx), bind_Ok. cbn [snd]. unfold better.
  repeat case_match; apply IH; lia.
Qed.

Lemma pick_sample_at_spec buf j p :
  pick_run (reverse (take (S j) buf)) = [p] -> (j < length buf)%nat ->
  pick_sample_at (E := Empty_set) buf.*1 buf.*2 j = Ok p.
Proof.
  intros Hp Hj. destruct (lookup_lt_is_Some_2 buf j Hj) as [[t v] Hx].
  rewrite (take_S_r _ _ _ Hx), reverse_app in Hp. cbn in Hp. injection Hp as <-.
  unfold pick_sample_at. rewrite (idx_fmap fst _ _ _ Hx), bind_Ok, (idx_fmap snd _ _ _ Hx), bind_Ok.
  cbn [fst snd]. by rewrite pick_walk_spec by lia.
Qed.

Lemma in_reverse {A} (x : A) l : In x (reverse l) <-> In x l.
Proof. unfold reverse. rewrite rev_append_rev, app_nil_r. symmetry. apply in_rev. Qed.

Lemma best_at_stop t v run prev :
  Forall (fun x => x.1 <> t) prev -> best_at t v (run ++ prev) = best_at t v run.
Proof.
  intros Hp. revert v. induction run as [|[t' v'] run IH]; intros v; cbn.
  - destruct Hp as [|[t' v'] prev Hne _]; [done|]. cbn in *. by rewrite (proj2 (Z.eqb_neq _ _)).
  - case_match; [apply IH|done].
Qed.

(** Picking from the buffer sees only the current run: everything before it
    is older. *)
Lemma pick_in_buffer prev y run rest :
  (forall x, In x prev -> x.1 < y.1) ->
  pick_sample_at (E := Empty_set) (prev ++ reverse (y :: run) ++ rest).*1 (prev ++ reverse (y :: run) ++ rest).*2
    (length prev + length (y :: run) - 1) = Ok (y.1, best_at y.1 y.2 run).
Proof.
  intros Hold. apply pick_sample_at_spec.
  2: { rewrite !length_app, length_reverse. cbn. lia. }
  replace (S (length prev + length (y :: run) - 1))%nat with (length (prev ++ reverse (y :: run)))
    by (rewrite length_app, length_reverse; cbn; lia).
  rewrite app_assoc, take_app_length, reverse_app, reverse_involutive. destruct y as [t v]. cbn.
  rewrite best_at_stop; [done|]. apply Forall_In. intros x Hx.
  rewrite in_reverse in Hx. specialize (Hold x Hx). cbn in Hold. lia.
Qed.

Lemma write_at out tl p :
  tl <> [] ->
  set_idx (E := Empty_set) (out ++ tl).*1 (length out) p.1 = Ok (out ++ p :: tail tl).*1 /\
  set_idx (E := Empty_set) (out ++ tl).*2 (length out) p.2 = Ok (out ++ p :: tail tl).*2.
Proof.
  intros Hne. destruct tl as [|x tl]; [done|]. unfold set_idx.
  rewrite !length_fmap, !length_app. cbn [length tail]. rewrite !decide_True by lia.
  rewrite <-!list_fmap_insert, !insert_app_r_alt by lia. by rewrite !Nat.sub_diag.
Qed.

(** Closing a run: its pick is written at the end of the output. *)
Lemma emit_run {B} out junk y run rest (k : list Z -> list V -> R B) :
  (forall x, In x (out ++ junk) -> x.1 < y.1) ->
  let buf := out ++ junk ++ reverse (y :: run) ++ rest in
  let buf' := out ++ (y.1, best_at y.1 y.2 run) :: tail (junk ++ reverse (y :: run)) ++ rest in
  ('(ts_prev, v_prev) ← pick_sample_at buf.*1 buf.*2 (length (out ++ junk ++ y :: run) - 1);
   timestamps ← set_idx buf.*1 (length out) ts_prev;
   values ← set_idx buf.*2 (length out) v_prev;
   k timestamps values) = k buf'.*1 buf'.*2.
Proof.
  intros Hold buf buf'. pose proof (pick_in_buffer (out ++ junk) y run rest Hold) as Hp.
  replace (length (out ++ junk) + length (y :: run) - 1)%nat
    with (length (out ++ junk ++ y :: run) - 1)%nat in Hp by (rewrite !length_app; lia).
  rewrite <-app_assoc in Hp. fold buf in Hp. rewrite Hp, bind_Ok. cbv beta iota.
  destruct (write_at out (junk ++ reverse (y :: run) ++ rest) (y.1, best_at y.1 y.2 run)) as [H1 H2].
  { destruct junk; [|done]. rewrite reverse_cons. by destruct (reverse run). }
  cbn [fst snd] in H1, H2. fold buf in H1, H2. rewrite H1, bind_Ok, H2, bind_Ok.
  assert (Hb : out ++ (y.1, best_at y.1 y.2 run) :: tail (junk ++ reverse (y :: run) ++ rest) = buf').
  { subst buf'. do 2 f_equal. destruct junk; [|by cbn; rewrite app_assoc].
    rewrite reverse_cons. by destruct (reverse run). }
  by rewrite Hb.
Qed.

(** The end of [deduplicate_in_place], after the loop. *)
Definition dedup_finish (src_len : nat) (st : list Z * list V * nat) : R (list Z * list V * nat) :=
  let '(timestamps, values, dst_len) := st in
  '(ts_prev, v_prev) ← pick_sample_at timestamps values (src_len - 1);
  timestamps ← set_idx timestamps dst_len ts_prev;
  values ← set_idx values dst_len v_prev;
  Ok (timestamps, values, S dst_len).

(** The loop's invariant: the output so far, leftovers, the samples of the
    current bucket (latest first) and the samples still to be read. *)
Record loop_inv (d : Z) (out junk : list (Z * V)) (y : Z * V) (run rest : list (Z * V)) : Prop := {
  inv_old : forall x z, In x (out ++ junk) -> In z (y :: run) -> x.1 < z.1;
  inv_run : forall z, In z run -> z.1 <= y.1 /\ bucket d z.1 = bucket d y.1;
  inv_pos : forall z, In z (y :: run) -> 0 <= z.1;
  inv_sorted : sortedZ (y :: rest).*1;
  inv_bound : forall z, In z (y :: rest) -> z.1 + 2 * d < 2 ^ 63;
}.

Lemma inv_next_le d out junk y run x rest : loop_inv d out junk y run (x :: rest) -> 0 <= y.1 <= x.1.
Proof.
  intros [_ _ Hpos Hs _]. split; [apply Hpos; by left|].
  apply StronglySorted_cons in Hs as [Hyx _]. by inversion Hyx.
Qed.

Lemma inv_extend d out junk y run x rest :
  loop_inv d out junk y run (x :: rest) -> bucket d x.1 = bucket d y.1 ->
  loop_inv d out junk x (y :: run) rest.
Proof.
  intros Hi Hb. pose proof (inv_next_le _ _ _ _ _ _ _ Hi). destruct Hi as [Hold Hrun Hpos Hs Hbd]. split.
  - intros u z Hu [<-|Hz]; [|by apply Hold]. specialize (Hold u y Hu ltac:(by left)). lia.
  - intros z [<-|Hz]; [split; [lia|done]|]. destruct (Hrun z Hz). rewrite Hb. split; [lia|done].
  - intros z [<-|Hz]; [lia|by apply Hpos].
  - by apply StronglySorted_cons in Hs as [_ Hs].
  - intros z Hz. apply Hbd. by right.
Qed.

Lemma length_tl {A} (l : list A) : length (tail l) = (length l - 1)%nat.
Proof. destruct l; cbn; lia. Qed.

Lemma in_tail {A} (x : A) l : In x (tail l) -> In x l.
Proof. destruct l; [done|by right]. Qed.

Lemma inv_close d out junk y run x rest v :
  loop_inv d out junk y run (x :: rest) -> y.1 < x.1 ->
  loop_inv d (out ++ [(y.1, v)]) (tail (junk ++ reverse (y :: run))) x [] rest.
Proof.
  intros Hi Hlt. pose proof (inv_next_le _ _ _ _ _ _ _ Hi). destruct Hi as [Hold Hrun Hpos Hs Hbd]. split.
  - intros u z Hu [<-|[]]. rewrite <-app_assoc, !in_app_iff in Hu. cbn [In] in Hu.
    destruct Hu as [Hu|[[<-|[]]|Hu%in_tail]]; [|done|].
    + specialize (Hold u y ltac:(rewrite in_app_iff; auto) ltac:(by left)). lia.
    + rewrite in_app_iff, in_reverse in Hu. destruct Hu as [Hu|[<-|Hu]]; [|done|destruct (Hrun u Hu); lia].
      specialize (Hold u y ltac:(rewrite in_app_iff; auto) ltac:(by left)). lia.
  - done.
  - intros z [<-|[]]. lia.
  - by apply StronglySorted_cons in Hs as [_ Hs].
  - intros z Hz. apply Hbd. by right.
Qed.

Lemma dedup_loop_spec d (Hd : 0 < d) : forall rest out junk y run,
  loop_inv d out junk y run rest ->
  let buf := out ++ junk ++ reverse (y :: run) ++ rest in
  exists buf' n',
    (dedup_loop d (length rest) (length (out ++ junk ++ y :: run)) buf.*1 buf.*2 (length out) (bucket d y.1 * d)
       ≫= dedup_finish (length buf)) = Ok (buf'.*1, buf'.*2, n') /\
    take n' buf' = out ++ dedup_runs d (y :: run) rest.
Proof.
  induction rest as [|x rest IH]; intros out junk y run Hi buf; cbn [length dedup_loop].
  - rewrite bind_Ok. unfold dedup_finish. subst buf.
    replace (length (out ++ junk ++ reverse (y :: run) ++ [])) with (length (out ++ junk ++ y :: run))
      by (rewrite app_nil_r, !length_app, length_reverse; done).
    rewrite emit_run by (intros u Hu; apply (inv_old _ _ _ _ _ _ Hi); [done|by left]).
    eexists _, _. split; [done|]. rewrite cons_middle, app_assoc, take_app_le, take_ge
      by (rewrite length_app; cbn; lia). by destruct y.
  - assert (Hx : buf !! length (out ++ junk ++ y :: run) = Some x).
    { subst buf. rewrite !app_assoc, lookup_app_r by (rewrite !length_app, length_reverse; lia).
      rewrite !length_app, length_reverse, <-!Nat.add_assoc, Nat.sub_diag. done. }
    rewrite (idx_fmap fst _ _ _ Hx), bind_Ok. pose proof (inv_next_le _ _ _ _ _ _ _ Hi) as Hyx.
    pose proof (bucket_le_boundary d Hd y.1 x.1 ltac:(lia)) as Hbl.
    assert (Hxb : x.1 + 2 * d < 2 ^ 63) by (apply (inv_bound _ _ _ _ _ _ Hi); cbn; auto).
    cbn [dedup_runs]. destruct (Z.leb_spec x.1 (bucket d y.1 * d)) as [Hle|Hgt].
    + apply Hbl in Hle as Hb. rewrite (proj2 (Z.eqb_eq _ _) Hb).
      destruct (IH _ _ _ _ (inv_extend _ _ _ _ _ _ _ Hi Hb)) as (buf' & n' & Hrun' & Htake).
      exists buf', n'. split; [|done]. rewrite <-Hrun', Hb.
      assert (Hbuf : out ++ junk ++ reverse (x :: y :: run) ++ rest = buf).
      { subst buf. rewrite (reverse_cons (y :: run)), <-app_assoc. done. }
      rewrite Hbuf. f_equal. f_equal. rewrite !length_app. cbn. lia.
    + rewrite (proj2 (Z.eqb_neq _ _)) by (intros Hc; apply Hbl in Hc; lia).
      subst buf. rewrite emit_run by (intros u Hu; apply (inv_old _ _ _ _ _ _ Hi); [done|by left]).
      rewrite boundary_step by lia. pose proof (bucket_spec d Hd y.1).
      destruct (IH _ _ _ _ (inv_close _ _ _ _ _ _ _ (best_at y.1 y.2 run) Hi ltac:(lia)))
        as (buf' & n' & Hrun' & Htake).
      exists buf', n'. split; [|rewrite Htake, <-app_assoc; by destruct y].
      rewrite <-Hrun'. set (l := tail _).
      assert (Hlen : length l = (length junk + length run)%nat).
      { subst l. rewrite length_tl, length_app, length_reverse. cbn. lia. }
      set (p := (y.1, best_at y.1 y.2 run)) in *.
      replace ((out ++ [p]) ++ l ++ reverse [x] ++ rest) with (out ++ p :: l ++ x :: rest)
        by by rewrite <-app_assoc.
      replace (length (out ++ [p])) with (S (length out)) by (rewrite length_app; cbn; lia).
      replace (length ((out ++ [p]) ++ l ++ [x])) with (S (length (out ++ junk ++ y :: run)))
        by (rewrite !length_app, Hlen; cbn; lia).
      do 2 f_equal. rewrite !length_app, length_reverse. cbn. rewrite length_app, Hlen. cbn. lia.
Qed.
End Equivalence.

(** ** No duplicates: nothing to do *)

Lemma runs_singletons {V} {DV : DedupValue V} d (Hd : 0 < d) : forall (rest : list (Z * V)) y,
  0 <= y.1 -> sortedZ (y :: rest).*1 ->
  (forall z, In z (y :: rest) -> z.1 + 2 * d < 2 ^ 63) ->
  needs_dedup_loop d (bucket d y.1 * d) rest.*1 = false -> dedup_runs d [y] rest = y :: rest.
Proof.
  induction rest as [|x rest IH]; intros y Hy Hs Hb; cbn [needs_dedup_loop fmap list_fmap dedup_runs].
  - by destruct y.
  - apply StronglySorted_cons in Hs as [Hyx Hs]. assert (y.1 <= x.1) by by inversion Hyx.
    destruct (Z.leb_spec x.1 (bucket d y.1 * d)) as [|Hgt]; [done|].
    rewrite boundary_step by (try apply Hb; cbn; auto; lia). intros Hn.
    rewrite (proj2 (Z.eqb_neq _ _)).
    + rewrite IH; [by destruct y|lia|done|intros; apply Hb; by right|done].
    + intros Hc. apply bucket_le_boundary in Hc; lia.
Qed.

(** The hypotheses under which the arithmetic does not overflow: sorted
    timestamps after the epoch, and two intervals of room at the top. *)
Definition dedup_input {V} (d : Z) (samples : list (Z * V)) : Prop :=
  sortedZ samples.*1 /\ Forall (fun x => 0 <= x.1 /\ x.1 + 2 * d < 2 ^ 63) samples.

Lemma dedup_samples_ref {V} {DV : DedupValue V} d (samples : list (Z * V)) :
  0 < d -> dedup_input d samples ->
  deduplicate_samples (E := Empty_set) samples.*1 samples.*2 d
  = Ok ((dedup_ref d samples).*1, (dedup_ref d samples).*2).
Proof.
  intros Hd [Hs Hr]. rewrite Forall_In in Hr. unfold deduplicate_samples, deduplicate_in_place, dedup_ref.
  destruct samples as [|y rest]; [done|]. assert (Hy := Hr y ltac:(by left)).
  destruct (needs_dedup _ _) eqn:Hn; cbn [negb].
  - change (idx (E := Empty_set) (y :: rest).*1 0) with (Ok (E := Empty_set) y.1). rewrite bind_Ok.
    rewrite next_boundary_bucket by lia.
    destruct (dedup_loop_spec d Hd rest [] [] y []) as (buf' & n' & Hrun & Htake).
    { split; try done; [by intros z [<-|[]]; lia|]. intros z Hz. by apply Hr. }
    cbn -[dedup_runs dedup_loop dedup_finish fmap] in Hrun, Htake.
    unfold dedup_finish in Hrun. rewrite length_fmap. cbn [length].
    rewrite Nat.sub_succ, Nat.sub_0_r in Hrun |- *.
    etransitivity; [apply bind_eq; apply Hrun|].
    cbv beta iota. by rewrite <-!fmap_take, Htake.
  - rewrite bind_Ok. cbv beta iota. rewrite !take_ge by (rewrite !length_fmap; lia).
    change (dedup_runs d [] (y :: rest)) with (dedup_runs d [y] rest).
    rewrite (runs_singletons d Hd); [done|lia|done|intros; by apply Hr|].
    unfold needs_dedup in Hn. rewrite (proj2 (Z.leb_gt _ _)) in Hn by done.
    destruct rest as [|x rest]; [done|]. cbn -[needs_dedup_loop] in Hn.
    by rewrite next_boundary_bucket in Hn by lia.
Qed.

(** C31: the in-place compaction of [deduplicate_in_place], which overwrites the
    buffers it is still reading, computes the one-sample-per-bucket reference, for
    every value type, when the timestamps are sorted, not before the epoch (before
    it the code merges samples of two buckets) and two intervals below the top of
    [i64]; when deduplication is disabled (interval not positive) it is the
    identity on any samples. *)
Theorem dedup_is_reference {V} {DV : DedupValue V} (d : Z) (samples : list (Z * V))
    (H : 0 < d -> dedup_input d samples) :
  deduplicate_samples (E := Empty_set) samples.*1 samples.*2 d
  = Ok (if d <=? 0 then (samples.*1, samples.*2)
        else ((dedup_ref d samples).*1, (dedup_ref d samples).*2)).
Proof.
  destruct (Z.leb_spec d 0) as [Hd|Hd]; [|by apply dedup_samples_ref; auto].
  unfold deduplicate_samples, deduplicate_in_place, needs_dedup.
  rewrite (proj2 (Z.leb_le _ _) Hd), orb_true_r. cbn [negb]. rewrite bind_Ok. cbv beta iota.
  by rewrite !take_ge by (rewrite !length_fmap; lia).
Qed.

Lemma dedup_is_reference_witness :
  deduplicate_samples (E := Empty_set) [0; 5; 10; 10; 11; 35] [1; 2; 7; 3; 4; 5] 10
  = Ok ([0; 10; 11; 35], [1; 7; 4; 5]).
Proof.
  change (Ok ([0; 10; 11; 35], [1; 7; 4; 5])) with
    (Ok (E := Empty_set) (if 10 <=? 0 then
       ([(0, 1); (5, 2); (10, 7); (10, 3); (11, 4); (35, 5)].*1, [(0, 1); (5, 2); (10, 7); (10, 3); (11, 4); (35, 5)].*2)
     else ((dedup_ref 10 [(0, 1); (5, 2); (10, 7); (10, 3); (11, 4); (35, 5)]).*1,
           (dedup_ref 10 [(0, 1); (5, 2); (10, 7); (10, 3); (11, 4); (35, 5)]).*2))).
  apply (dedup_is_reference 10 [(0, 1); (5, 2); (10, 7); (10, 3); (11, 4); (35, 5)]).
  split; repeat (constructor; cbn; try lia).
Defined.

(** ** What the reference keeps, for decimal values *)

(** [v] is at least as good as [w]. *)
Definition as_good (v w : Z) : Prop :=
  is_stale_nan_int64 w = true \/ (is_stale_nan_int64 v = false /\ w <= v).

Lemma as_good_trans a b c : as_good a b -> as_good b c -> as_good a c.
Proof.
  unfold as_good, is_stale_nan_int64. rewrite !Z.eqb_eq, !Z.eqb_neq. intros [H1|[H1 H2]] [H3|[H3 H4]]; try lia.
Qed.

Lemma better_spec v w : as_good (better v w) v /\ as_good (better v w) w /\ (better v w = v \/ better v w = w).
Proof.
  unfold better, as_good. cbn [is_stale_nan val_gt DedupValue_i64]. rewrite Z.gtb_ltb.
  destruct (is_stale_nan_int64 v) eqn:Hv, (is_stale_nan_int64 w) eqn:Hw;
    try destruct (Z.ltb_spec w v); rewrite ?Hv, ?Hw; split_and!; auto with lia.
Qed.

(** Timestamps not above the one before, as in a run read backwards. *)
Lemma best_at_spec t : forall run v,
  StronglySorted Z.ge (t :: run.*1) ->
  let b := best_at t v run in
  In (t, b) ((t, v) :: run) /\ forall w, In (t, w) ((t, v) :: run) -> as_good b w.
Proof.
  induction run as [|[t' v'] run IH]; intros v Hs; cbn [best_at].
  - split; [by left|]. intros w [[= <-]|[]]. unfold as_good. destruct (is_stale_nan_int64 v) eqn:E; auto with lia.
  - cbn in Hs. apply StronglySorted_cons in Hs as [Ht Hs]. destruct (Z.eqb_spec t' t) as [->|Hne].
    + destruct (IH (better v' v) Hs) as [H1 H2]. destruct (better_spec v' v) as (G1 & G2 & G3).
      assert (Hb : as_good (best_at t (better v' v) run) (better v' v)) by (apply H2; by left).
      split.
      * destruct H1 as [[= H1]|H1]; [|by do 2 right]. rewrite <-H1. destruct G3 as [-> | ->]; cbn; auto.
      * intros w [[= <-]|[[= <-]|Hw]]; [by eapply as_good_trans..|]. apply H2. by right.
    + split; [by left|]. intros w [[= <-]|[[= -> ->]|Hw]]; [|done|].
      * unfold as_good. destruct (is_stale_nan_int64 v) eqn:E; auto with lia.
      * exfalso. apply StronglySorted_cons in Hs as [Ht' _]. rewrite !Forall_In in Ht, Ht'.
        specialize (Ht t' ltac:(by left)). specialize (Ht' t ltac:(apply (in_map fst) in Hw; done)). lia.
Qed.

(** The sample a bucket keeps: its last instant, the best value there. *)
Definition kept (d : Z) (l : list (Z * Z)) (p : Z * Z) : Prop :=
  In p l /\ (forall s, In s l -> bucket d s.1 = bucket d p.1 -> s.1 <= p.1) /\
  (forall w, In (p.1, w) l -> as_good p.2 w).

Lemma kept_ext d l1 l2 p : (forall x, In x l1 <-> In x l2) -> kept d l1 p <-> kept d l2 p.
Proof. intros H. unfold kept. by setoid_rewrite H. Qed.

Lemma kept_app d l1 l2 p :
  (forall x y, In x l1 -> In y l2 -> bucket d x.1 <> bucket d y.1) ->
  kept d (l1 ++ l2) p <-> kept d l1 p \/ kept d l2 p.
Proof.
  intros Hne. unfold kept. setoid_rewrite in_app_iff. split.
  - intros ([H1|H1] & H2 & H3); [left|right]; split_and!; auto.
  - intros [(H1 & H2 & H3)|(H1 & H2 & H3)]; split_and!; auto.
    + intros s [Hs|Hs] Hb; [auto|]. by destruct (Hne p s).
    + intros w [Hw|Hw]; [auto|]. by destruct (Hne p (p.1, w)).
    + intros s [Hs|Hs] Hb; [|auto]. by destruct (Hne s p).
    + intros w [Hw|Hw]; [|auto]. by destruct (Hne (p.1, w) p).
Qed.

Lemma as_good_antisym a b : as_good a b -> as_good b a -> a = b.
Proof. unfold as_good, is_stale_nan_int64. rewrite !Z.eqb_eq, !Z.eqb_neq. lia. Qed.

Lemma pick_run_kept d y run p :
  StronglySorted Z.ge (y :: run).*1 -> (forall z, In z run -> bucket d z.1 = bucket d y.1) ->
  In p (pick_run (y :: run)) <-> kept d (y :: run) p.
Proof.
  intros Hs Hb. destruct y as [t v]. destruct (best_at_spec t run v Hs) as [H1 H2].
  assert (Hmax : forall s, In s ((t, v) :: run) -> s.1 <= t).
  { intros s [<-|Hin]; [cbn; lia|]. apply StronglySorted_cons in Hs as [Ht _]. rewrite Forall_In in Ht.
    apply (in_map fst) in Hin. specialize (Ht _ Hin). cbn in Ht. lia. }
  cbn [pick_run In]. split.
  - intros [<-|[]]. split_and!; [done|intros; by apply Hmax|done].
  - intros (G1 & G2 & G3). left. destruct p as [t' w]. cbn in *.
    assert (t' = t) as ->.
    { assert (t' <= t) by (apply (Hmax (t', w)); done). assert (t <= t'); [|lia].
      apply (G2 (t, v)); [by left|]. destruct G1 as [[= -> ->]|G1]; [done|]. symmetry. apply (Hb _ G1). }
    f_equal. apply as_good_antisym; auto.
Qed.

Lemma dedup_runs_kept d (Hd : 0 < d) p : forall rest y run,
  StronglySorted Z.ge (y :: run).*1 -> (forall z, In z run -> bucket d z.1 = bucket d y.1) ->
  sortedZ (y :: rest).*1 ->
  In p (dedup_runs d (y :: run) rest) <-> kept d ((y :: run) ++ rest) p.
Proof.
  induction rest as [|x rest IH]; intros y run Hr Hb Hs; cbn [dedup_runs].
  - rewrite app_nil_r. by apply pick_run_kept.
  - apply StronglySorted_cons in Hs as [Hyx Hs]. assert (y.1 <= x.1) by by inversion Hyx.
    destruct (Z.eqb_spec (bucket d x.1) (bucket d y.1)) as [He|Hne].
    + rewrite IH; [| |intros z [<-|Hz]; [done|rewrite (Hb z Hz); done]|done].
      * apply kept_ext. intros z. rewrite !in_app_iff. cbn. naive_solver.
      * apply StronglySorted_cons. split; [|done]. apply StronglySorted_cons in Hr as [Hr _].
        constructor; [lia|]. eapply Forall_weaken; [|done]. cbn. lia.
    + rewrite in_app_iff, pick_run_kept, IH by first [done | repeat constructor].
      symmetry. apply kept_app. intros u z Hu Hz Heq.
      assert (Hbu : bucket d u.1 = bucket d y.1) by (destruct Hu as [<-|Hu]; auto).
      assert (x.1 <= z.1).
      { apply StronglySorted_cons in Hs as [Hx _]. rewrite Forall_In in Hx.
        destruct Hz as [<-|Hz]; [lia|]. apply Hx. by apply (in_map fst) in Hz. }
      pose proof (bucket_mono d Hd x.1 z.1 ltac:(lia)). pose proof (bucket_mono d Hd y.1 x.1 ltac:(lia)). lia.
Qed.

Lemma dedup_ref_kept d l p : 0 < d -> sortedZ l.*1 -> In p (dedup_ref d l) <-> kept d l p.
Proof.
  intros Hd Hs. unfold dedup_ref. destruct l as [|y rest]; cbn [dedup_runs].
  - split; [done|]. by intros [? _].
  - rewrite (dedup_runs_kept d Hd) by first [done | repeat constructor]. done.
Qed.

Definition bucket_lt {V} (d : Z) (a b : Z * V) : Prop := bucket d a.1 < bucket d b.1.

Lemma dedup_runs_sorted {V} {DV : DedupValue V} d (Hd : 0 < d) : forall (rest : list (Z * V)) y run,
  sortedZ (y :: rest).*1 ->
  StronglySorted (bucket_lt d) (dedup_runs d (y :: run) rest) /\
  Forall (fun p => bucket d y.1 <= bucket d p.1) (dedup_runs d (y :: run) rest).
Proof.
  induction rest as [|x rest IH]; intros y run Hs; cbn [dedup_runs].
  - destruct y. cbn. split; repeat constructor. cbn. lia.
  - apply StronglySorted_cons in Hs as [Hyx Hs]. assert (y.1 <= x.1) by by inversion Hyx.
    pose proof (bucket_mono d Hd y.1 x.1 ltac:(done)).
    destruct (Z.eqb_spec (bucket d x.1) (bucket d y.1)) as [He|Hne].
    + destruct (IH x (y :: run) Hs) as [H1 H2]. split; [done|]. by rewrite <-He.
    + destruct (IH x [] Hs) as [H1 H2]. destruct y as [t v]. cbn in *. split.
      * apply StronglySorted_cons. split; [|done]. eapply Forall_weaken; [|done].
        unfold bucket_lt. cbn. lia.
      * constructor; [cbn; lia|]. eapply Forall_weaken; [|done]. cbn. lia.
Qed.

Lemma dedup_runs_distinct {V} {DV : DedupValue V} d : forall (rest : list (Z * V)) y,
  StronglySorted (bucket_lt d) (y :: rest) -> dedup_runs d [y] rest = y :: rest.
Proof.
  induction rest as [|x rest IH]; intros y Hs; cbn [dedup_runs]; [by destruct y|].
  apply StronglySorted_cons in Hs as [Hyx Hs]. assert (bucket_lt d y x) by by inversion Hyx.
  unfold bucket_lt in *. rewrite (proj2 (Z.eqb_neq _ _)) by lia. rewrite IH by done. by destruct y.
Qed.

Lemma bucket_lt_sorted {V} d (Hd : 0 < d) (l : list (Z * V)) : StronglySorted (bucket_lt d) l -> sortedZ l.*1.
Proof.
  induction 1 as [|x l Hl IH Hx]; cbn; [constructor|]. apply StronglySorted_cons. split; [|done].
  apply Forall_fmap. eapply Forall_weaken; [|done]. intros y Hy. unfold bucket_lt in Hy. cbn.
  destruct (Z.le_gt_cases x.1 y.1) as [?|Hlt]; [done|].
  pose proof (bucket_mono d Hd y.1 x.1 ltac:(lia)). lia.
Qed.

(** C32: merge-time deduplication of decimal samples, for a positive interval and
    sorted timestamps that are not before the epoch and two intervals below the top
    of [i64], keeps exactly one sample per interval (buckets strictly increase),
    namely the last instant of the bucket with the best value there (a value
    before a staleness marker, then the greatest); and deduplicating again changes
    nothing. *)
Theorem dedup_keeps_best (d : Z) (samples : list (Z * Z))
    (Hd : 0 < d) (H : dedup_input d samples) :
  exists r,
    deduplicate_samples (E := Empty_set) samples.*1 samples.*2 d = Ok (r.*1, r.*2) /\
    StronglySorted (bucket_lt d) r /\
    (forall p, In p r <-> kept d samples p) /\
    deduplicate_samples (E := Empty_set) r.*1 r.*2 d = Ok (r.*1, r.*2).
Proof.
  exists (dedup_ref d samples). assert (Hs := proj1 H).
  assert (Hk : forall p, In p (dedup_ref d samples) <-> kept d samples p)
    by (intros; by apply dedup_ref_kept).
  assert (Hlt : StronglySorted (bucket_lt d) (dedup_ref d samples)).
  { unfold dedup_ref. destruct samples as [|y rest]; [constructor|]. by apply dedup_runs_sorted. }
  split_and!; [by apply dedup_samples_ref|done|done|].
  rewrite dedup_samples_ref; [|done|].
  - set (r := dedup_ref d samples) in *.
    assert (Hr : dedup_ref d r = r).
    { unfold dedup_ref at 1. destruct r as [|y rest]; [done|]. by apply dedup_runs_distinct. }
    by rewrite Hr.
  - split; [by eapply bucket_lt_sorted|]. apply Forall_In. intros p (Hp & _)%Hk.
    destruct H as [_ H]. rewrite Forall_In in H. by apply H.
Qed.

Lemma dedup_keeps_best_witness :
  let samples := [(0, 1); (5, 2); (10, 7); (10, V_STALE_NAN); (11, 4); (35, 5)] in
  exists r,
    deduplicate_samples (E := Empty_set) samples.*1 samples.*2 10 = Ok (r.*1, r.*2) /\
    StronglySorted (bucket_lt 10) r /\
    (forall p, In p r <-> kept 10 samples p) /\
    deduplicate_samples (E := Empty_set) r.*1 r.*2 10 = Ok (r.*1, r.*2).
Proof.
  intros samples. apply (dedup_keeps_best 10 samples); [lia|].
  split; repeat (constructor; cbn; try lia).
Defined.

(** Before the epoch the truncated remainder rounds the boundary up, towards
    zero: samples of neighbouring intervals fall into one bucket. *)
Example dedup_negative_timestamps :
  deduplicate_samples (E := Empty_set) [-25; -15; -5] [1; 2; 3] 10 = Ok ([-15; -5], [2; 3]) /\
  map (bucket 10) [-25; -15; -5] = [-2; -1; 0].
Proof. by vm_compute. Qed.
