(* ===== verification/Block.v ===== *)
(** * Blocks of samples

    Model of [esm-storage/src/block.rs]: a block of one time series, either
    unpacked (timestamps and decimal values) or packed (their encodings), the
    transitions between the two states, filtering by time range, and the
    portable form used for migration between instances. *)
From Stdlib Require Import ZArith Lia Bool Sorted.
From S2P Require Import Prelude IntCodec NearestDelta Float64 Compress ArrayCodec Tsid BlockHeader Decimal Dedup.
Local Open Scope Z_scope.

Record Block : Type := mkBlock {
  b_bh : BlockHeader;
  b_next_idx : nat;
  b_timestamps : list Z;
  b_values : list Z;
  b_header_data : list Z;
  b_timestamps_data : list Z;
  b_values_data : list Z;
}.

Definition Block_default : Block := mkBlock BlockHeader_default 0 [] [] [] [] [].

Definition block_reset (b : Block) : Block := Block_default.

Inductive block_error : Type :=
| RowsCountZero
| UnsupportedTimestampsMarshalType (mt : Z)
| UnsupportedValuesMarshalType (mt : Z)
| ColumnError (e : column_error)
| FirstRowTooSmall (got : Z)
| UnorderedRow (row : nat) (got prev : Z)
| LastRowTooBig (got : Z)
| CountMismatch (timestamps values : nat)
| PortableHeader (e : header_error)
| CannotReadTimestampsData
| CannotReadValuesData
| InvalidBlockHeader (e : header_error).

(** ** Accessors and updates *)

Section Accessors.
  Context {E : Type}.

(** The samples not consumed yet: [&self.timestamps[self.next_idx..]]. *)
Definition block_timestamps (b : Block) : res E (list Z) := slice_from (b_timestamps b) (b_next_idx b).
Definition block_values (b : Block) : res E (list Z) := slice_from (b_values b) (b_next_idx b).

Definition block_copy_from (src : Block) : res E Block :=
  timestamps ← slice_from (b_timestamps src) (b_next_idx src);
  values ← slice_from (b_values src) (b_next_idx src);
  Ok (mkBlock (b_bh src) 0 timestamps values (b_header_data src) (b_timestamps_data src)
        (b_values_data src)).

Definition set_bh (b : Block) (bh : BlockHeader) : Block :=
  mkBlock bh (b_next_idx b) (b_timestamps b) (b_values b) (b_header_data b) (b_timestamps_data b)
    (b_values_data b).

Definition set_min_max (bh : BlockHeader) (min_timestamp max_timestamp : Z) : BlockHeader :=
  mkBlockHeader (bh_tsid bh) min_timestamp max_timestamp (bh_first_value bh)
    (bh_timestamps_block_offset bh) (bh_values_block_offset bh) (bh_timestamps_block_size bh)
    (bh_values_block_size bh) (bh_rows_count bh) (bh_scale bh) (bh_timestamps_marshal_type bh)
    (bh_values_marshal_type bh) (bh_precision_bits bh).

Definition block_fixup_timestamps (b : Block) : res E Block :=
  min_timestamp ← idx (b_timestamps b) (b_next_idx b);
  max_timestamp ← idx (b_timestamps b) (length (b_timestamps b) - 1);
  Ok (set_bh b (set_min_max (b_bh b) min_timestamp max_timestamp)).

Definition block_rows_count (b : Block) : Z := bh_rows_count (b_bh b).

Definition block_init (tsid : Tsid) (timestamps values : list Z) (scale precision_bits : Z)
    : res E Block :=
  let b := mkBlock (mkBlockHeader tsid 0 0 0 0 0 0 0 0 scale 0 0 precision_bits) 0
             timestamps values [] [] [] in
  if (length timestamps =? 0)%nat then Ok b else block_fixup_timestamps b.

(** The flag and the block after the step. *)
Definition block_next_row (b : Block) : bool * Block :=
  if (b_next_idx b =? length (b_values b))%nat then (false, b)
  else (true, mkBlock (b_bh b) (S (b_next_idx b)) (b_timestamps b) (b_values b) (b_header_data b)
                (b_timestamps_data b) (b_values_data b)).

Definition assert_unmarshaled (b : Block) : res E unit :=
  _ ← assert_ (length (b_values_data b) =? 0)%nat;
  _ ← assert_ (length (b_timestamps_data b) =? 0)%nat;
  _ ← assert_ (length (b_values b) =? length (b_timestamps b))%nat;
  assert_ (b_next_idx b <=? length (b_values b))%nat.

Definition assert_mergeable (b ib : Block) : res E unit :=
  _ ← assert_ (metric_id (bh_tsid (b_bh b)) =? metric_id (bh_tsid (b_bh ib)));
  assert_ (bh_scale (b_bh b) =? bh_scale (b_bh ib)).

(** [self.values.len() - self.next_idx] wraps around in a release build when
    the index is past the end, which [next_row] never leaves. *)
Definition block_too_big (b : Block) : bool :=
  if (MAX_ROWS_PER_BLOCK <=? bh_rows_count (b_bh b))
     || (MAX_ROWS_PER_BLOCK <=? as_u64 (Z.of_nat (length (b_values b)) - Z.of_nat (b_next_idx b)))
  then true
  else MAX_BLOCK_SIZE <=? Z.of_nat (length (b_values_data b)).

Definition pending_rows_count (b : Block) : Z :=
  if (length (b_values b) =? 0)%nat then bh_rows_count (b_bh b)
  else as_u64 (Z.of_nat (length (b_values b)) - Z.of_nat (b_next_idx b)).
End Accessors.

(** ** Packing *)

Definition set_offsets (bh : BlockHeader) (timestamps_block_offset values_block_offset : Z)
    : BlockHeader :=
  mkBlockHeader (bh_tsid bh) (bh_min_timestamp bh) (bh_max_timestamp bh) (bh_first_value bh)
    timestamps_block_offset values_block_offset (bh_timestamps_block_size bh)
    (bh_values_block_size bh) (bh_rows_count bh) (bh_scale bh) (bh_timestamps_marshal_type bh)
    (bh_values_marshal_type bh) (bh_precision_bits bh).

Section Packing.
  Context {Zs : Zstd}.

(** The block after the call; the three slices returned are its fields. *)
Definition marshal_data {E} (b : Block) (timestamps_block_offset values_block_offset : Z)
    : res E Block :=
  let bh := b_bh b in
  if (length (b_values b) =? 0)%nat then
    _ ← assert_ (b_next_idx b =? 0)%nat;
    _ ← assert_ (bh_timestamps_block_size bh =? Z.of_nat (length (b_timestamps_data b)));
    _ ← assert_ (bh_values_block_size bh =? Z.of_nat (length (b_values_data b)));
    _ ← assert_ (bh_rows_count bh >? 0);
    let bh := set_offsets bh timestamps_block_offset values_block_offset in
    Ok (mkBlock bh (b_next_idx b) (b_timestamps b) (b_values b) (bh_marshal bh [])
          (b_timestamps_data b) (b_values_data b))
  else
    _ ← assert_ (b_next_idx b <=? length (b_values b))%nat;
    _ ← assert_ (length (b_values b) =? length (b_timestamps b))%nat;
    let rows_count := (length (b_values b) - b_next_idx b)%nat in
    _ ← assert_ (0 <? rows_count)%nat;
    values ← slice_from (b_values b) (b_next_idx b);
    '(values_data, (values_marshal_type, first_value)) ←
      marshal_values [] values (bh_precision_bits bh);
    timestamps ← slice_from (b_timestamps b) (b_next_idx b);
    '(timestamps_data, (timestamps_marshal_type, min_timestamp)) ←
      marshal_timestamps [] timestamps (bh_precision_bits bh);
    max_timestamp ← idx (b_timestamps b) (length (b_timestamps b) - 1);
    let bh := mkBlockHeader (bh_tsid bh) min_timestamp max_timestamp first_value
                timestamps_block_offset values_block_offset
                (as_u32 (Z.of_nat (length timestamps_data))) (as_u32 (Z.of_nat (length values_data)))
                (as_u32 (Z.of_nat rows_count)) (bh_scale bh)
                (MarshalType_as_u8 timestamps_marshal_type) (MarshalType_as_u8 values_marshal_type)
                (bh_precision_bits bh) in
    Ok (mkBlock bh 0 [] [] (bh_marshal bh []) timestamps_data values_data).

(** The loop of [check_timestamps_bounds] over the rows from [i + 1]. *)
Fixpoint bounds_loop (i : nat) (ts_prev : Z) (timestamps : list Z) : res block_error Z :=
  match timestamps with
  | [] => Ok ts_prev
  | ts :: rest =>
      if ts <? ts_prev then Err (UnorderedRow (S i) ts ts_prev) else bounds_loop (S i) ts rest
  end.

Definition check_timestamps_bounds (timestamps : list Z) (min_timestamp max_timestamp : Z)
    : res block_error unit :=
  match timestamps with
  | [] => Ok tt
  | first :: rest =>
      _ ← guard_ (first <? min_timestamp) (FirstRowTooSmall first);
      ts_prev ← bounds_loop 0 first rest;
      guard_ (ts_prev >? max_timestamp) (LastRowTooBig ts_prev)
  end.

(** Decoding the two columns of a block: the common part of
    [Block::unmarshal_data] and [block_stream::unmarshal_block_data]. *)
Definition unmarshal_columns (bh : BlockHeader) (timestamps_data values_data : list Z)
    : res block_error (list Z * list Z) :=
  _ ← guard_ (bh_rows_count bh =? 0) RowsCountZero;
  let rows := Z.to_nat (bh_rows_count bh) in
  tmt ← ok_or (MarshalType_from_u8 (bh_timestamps_marshal_type bh))
          (UnsupportedTimestampsMarshalType (bh_timestamps_marshal_type bh));
  timestamps ← map_err ColumnError
    (unmarshal_timestamps [] timestamps_data tmt (bh_min_timestamp bh) rows);
  timestamps ←
    (if bh_precision_bits bh <? 64 then
       ensure_non_decreasing_sequence timestamps (bh_min_timestamp bh) (bh_max_timestamp bh)
     else if needs_validation tmt then
       _ ← check_timestamps_bounds timestamps (bh_min_timestamp bh) (bh_max_timestamp bh);
       Ok timestamps
     else Ok timestamps);
  vmt ← ok_or (MarshalType_from_u8 (bh_values_marshal_type bh))
          (UnsupportedValuesMarshalType (bh_values_marshal_type bh));
  values ← map_err ColumnError
    (unmarshal_values [] values_data vmt (bh_first_value bh) rows);
  _ ← guard_ (negb (length timestamps =? length values)%nat)
        (CountMismatch (length timestamps) (length values));
  Ok (timestamps, values).

(** The block after a successful call. *)
Definition unmarshal_data (b : Block) : res block_error Block :=
  if negb (length (b_values b) =? 0)%nat then
    _ ← assert_ (length (b_values_data b) =? 0)%nat;
    _ ← assert_ (length (b_timestamps_data b) =? 0)%nat;
    Ok b
  else
    '(timestamps, values) ← unmarshal_columns (b_bh b) (b_timestamps_data b) (b_values_data b);
    Ok (mkBlock (b_bh b) 0 timestamps values (b_header_data b) [] []).

(** [block_stream::unmarshal_block_data]: the block it leaves in [dst]. *)
Definition unmarshal_block_data (bh : BlockHeader) (timestamps_data values_data : list Z)
    : res block_error Block :=
  '(timestamps, values) ← unmarshal_columns bh timestamps_data values_data;
  Ok (mkBlock bh 0 timestamps values [] [] []).

(** [dedup_interval] is the global interval. *)
Definition deduplicate_samples_during_merge (dedup_interval : Z) (b : Block) : res block_error Block :=
  if negb (is_dedup_enabled dedup_interval) then Ok b
  else
    b ← match unmarshal_data b with Ok b => Ok b | _ => Panic end;
    if as_u64 (Z.of_nat (length (b_timestamps b)) - Z.of_nat (b_next_idx b)) <? 2 then Ok b
    else if dedup_interval <=? 0 then Ok b
    else
      let i := b_next_idx b in
      timestamps ← slice_from (b_timestamps b) i;
      values ← slice_from (b_values b) i;
      '(timestamps, values, n) ← deduplicate_in_place timestamps values dedup_interval;
      Ok (mkBlock (b_bh b) i (take (i + n) (take i (b_timestamps b) ++ timestamps))
            (take (i + n) (take i (b_values b) ++ values)) (b_header_data b)
            (b_timestamps_data b) (b_values_data b)).

(** ** The portable form *)

(** The block and [dst] after the call. *)
Definition marshal_portable {E} (b : Block) (dst : list Z) : res E (Block * list Z) :=
  b ← marshal_data b 0 0;
  let dst := bh_marshal_portable (b_bh b) dst in
  let dst := marshal_bytes dst (b_timestamps_data b) in
  Ok (b, marshal_bytes dst (b_values_data b)).

(** The block and the tail after the call. *)
Definition unmarshal_portable (src : list Z) : res block_error (Block * list Z) :=
  '(bh, src) ← map_err PortableHeader (bh_unmarshal_portable BlockHeader_default src);
  '(timestamps_data, n_size) ← ok_or (unmarshal_bytes src) CannotReadTimestampsData;
  src ← slice_from src n_size;
  '(values_data, n_size) ← ok_or (unmarshal_bytes src) CannotReadValuesData;
  src ← slice_from src n_size;
  _ ← map_err InvalidBlockHeader (bh_validate bh);
  b ← unmarshal_data (mkBlock bh 0 [] [] [] timestamps_data values_data);
  Ok (b, src).
End Packing.

(** ** Filtering by time range *)

(** [while i < timestamps.len() && timestamps[i] < min { i += 1 }]. *)
Fixpoint skip_smaller (timestamps : list Z) (min_timestamp : Z) : nat :=
  match timestamps with
  | ts :: rest => if ts <? min_timestamp then S (skip_smaller rest min_timestamp) else 0
  | [] => 0
  end.

(** [while j > i && timestamps[j - 1] > max { j -= 1 }]. *)
Fixpoint skip_bigger (timestamps : list Z) (max_timestamp : Z) (i j : nat) : nat :=
  match j with
  | O => O
  | S j' =>
      if (i <? j)%nat && (max_timestamp <? default 0 (timestamps !! j'))
      then skip_bigger timestamps max_timestamp i j' else j
  end.

Definition filter_timestamps {E} (b : Block) (min_timestamp max_timestamp : Z)
    : res E (list Z * list Z) :=
  let timestamps := b_timestamps b in
  let i := skip_smaller timestamps min_timestamp in
  let j := skip_bigger timestamps max_timestamp i (length timestamps) in
  if (i =? j)%nat then Ok ([], [])
  else if decide (j <= length (b_values b))%nat
  then Ok (take (j - i) (drop i timestamps), take (j - i) (drop i (b_values b)))
  else Panic.

(** ** Lemmas: packing and unpacking *)

(** An unpacked block that can be written: at least one pending row, sorted
    timestamps, fields in range. *)
Record unpacked_ok (b : Block) : Prop := {
  uo_tsid : tsid_wf (bh_tsid (b_bh b));
  uo_scale : is_i16 (bh_scale (b_bh b));
  uo_precision : 1 <= bh_precision_bits (b_bh b) <= 64;
  uo_next : (b_next_idx b < length (b_values b))%nat;
  uo_length : length (b_values b) = length (b_timestamps b);
  uo_max : Z.of_nat (length (b_values b) - b_next_idx b) <= MAX_ROWS_PER_BLOCK;
  uo_timestamps : Forall is_i64 (b_timestamps b);
  uo_values : Forall is_i64 (b_values b);
  uo_sorted : sortedZ (drop (b_next_idx b) (b_timestamps b));
}.

(** A packed pair of columns holds the rows [tss], [vss]: the header
    describes them, and decoding succeeds with as many rows over the same time
    range in order, the very same rows when nothing was rounded. *)
Record packs `{Zs : Zstd} (bh : BlockHeader) (tsd vd : list Z) (tss vss : list Z) : Prop := {
  pk_wf : bh_wf bh;
  pk_valid : bh_valid bh;
  pk_tsd : bytes tsd;
  pk_vd : bytes vd;
  pk_tsd_size : bh_timestamps_block_size bh = Z.of_nat (length tsd);
  pk_vd_size : bh_values_block_size bh = Z.of_nat (length vd);
  pk_rows : bh_rows_count bh = Z.of_nat (length tss);
  pk_min : head tss = Some (bh_min_timestamp bh);
  pk_max : last tss = Some (bh_max_timestamp bh);
  pk_decode : exists tss' vss', unmarshal_columns bh tsd vd = Ok (tss', vss') /\
    (bh_precision_bits bh = 64 -> tss' = tss /\ vss' = vss) /\
    length tss' = length tss /\ length vss' = length vss /\
    head tss' = head tss /\ last tss' = last tss /\
    sortedZ tss' /\ Forall is_i64 tss' /\ Forall is_i64 vss';
}.

Lemma sortedZ_le_last l x y : sortedZ l -> In x l -> last l = Some y -> x <= y.
Proof.
  intros Hs Hx Hl. apply last_Some in Hl as [l' ->]. apply sortedZ_snoc in Hs as [_ Hs].
  rewrite Forall_In in Hs. apply in_app_iff in Hx as [Hx|[<-|[]]]; [by apply Hs|lia].
Qed.

Lemma bounds_loop_sorted i x l : sortedZ (x :: l) -> bounds_loop i x l = Ok (default x (last (x :: l))).
Proof.
  revert i x. induction l as [|y l IH]; intros i x Hs; cbn [bounds_loop]; [done|].
  apply StronglySorted_cons in Hs as [Hx Hs]. inversion Hx; subst.
  rewrite (proj2 (Z.ltb_ge _ _)) by done. rewrite IH by done.
  rewrite (last_cons_cons x). by destruct (last (y :: l)) eqn:E; [|by apply last_None in E].
Qed.

Lemma check_bounds_ok l mn mx :
  sortedZ l -> head l = Some mn -> last l = Some mx -> check_timestamps_bounds l mn mx = Ok tt.
Proof.
  intros Hs Hh Hl. destruct l as [|x l]; [done|]. injection Hh as ->. unfold check_timestamps_bounds.
  pass_guard ltac:(apply Z.ltb_irrefl). rewrite bounds_loop_sorted, Hl, bind_Ok by done. cbn [default].
  apply guard_ok. rewrite Z.gtb_ltb. apply Z.ltb_irrefl.
Qed.

Lemma drop_nonempty {A} n (l : list A) : (n < length l)%nat -> drop n l <> [].
Proof. intros Hn Hd. apply (f_equal length) in Hd. rewrite length_drop in Hd. cbn in Hd. lia. Qed.

Lemma last_drop {A} n (l : list A) : (n < length l)%nat -> last (drop n l) = last l.
Proof.
  intros Hn. rewrite <-(take_drop n l) at 2. rewrite last_app.
  destruct (last (drop n l)) eqn:E; [done|]. apply last_None in E. by apply drop_nonempty in E.
Qed.

Lemma idx_last {E A} (l : list A) x : last l = Some x -> idx (E := E) l (length l - 1) = Ok x.
Proof. intros Hl. unfold idx. rewrite last_lookup, <-Nat.sub_1_r in Hl. by rewrite Hl. Qed.

Section PackLemmas.
  Context {Zs : Zstd} {Zl : ZstdLaws Zs}.

(** Repairing the timestamps of a lossy block. *)
Lemma ensure_repairs l tss mn mx :
  length l = length tss -> head tss = Some mn -> last tss = Some mx -> mn <= mx ->
  exists r, ensure_non_decreasing_sequence (E := block_error) l mn mx = Ok r /\ length r = length tss /\
    head r = Some mn /\ last r = Some mx /\ sortedZ r.
Proof.
  intros Hl Hh Hla Hle. destruct (decide (2 <= length l)%nat) as [H2|H2].
  - destruct (ensure_shape (E := block_error) l mn mx H2 Hle) as (r & H). exists r. rewrite <-Hl. exact H.
  - destruct tss as [|x [|y tss]]; [done| |cbn in Hl; lia]. injection Hh as ->. injection Hla as ->.
    destruct l as [|z [|w l]]; [done| |done]. rewrite ensure_spec by done. cbn. eexists. split; [done|].
    repeat (split || constructor).
Qed.

Lemma decode_timestamps bh tsd tss mt :
  sortedZ tss -> tss <> [] -> Forall is_i64 tss ->
  1 <= bh_precision_bits bh <= 64 ->
  encodes tss (bh_precision_bits bh) tsd mt (bh_min_timestamp bh) ->
  last tss = Some (bh_max_timestamp bh) ->
  exists tss0 tss',
    unmarshal_int64_array [] tsd mt (bh_min_timestamp bh) (length tss) = Ok tss0 /\
    (if bh_precision_bits bh <? 64 then
       ensure_non_decreasing_sequence tss0 (bh_min_timestamp bh) (bh_max_timestamp bh)
     else if needs_validation mt then
       _ ← check_timestamps_bounds tss0 (bh_min_timestamp bh) (bh_max_timestamp bh);
       Ok tss0
     else Ok tss0) = Ok tss' /\
    (bh_precision_bits bh = 64 -> tss' = tss) /\ length tss' = length tss /\
    head tss' = head tss /\ last tss' = last tss /\ sortedZ tss' /\ Forall is_i64 tss'.
Proof.
  intros Hs Hne Hi Hpb (Hb & Hh & _ & l & Hu & Hl) Hlast. exists l.
  assert (Hmn : is_i64 (bh_min_timestamp bh)) by (destruct tss; simplify_eq/=; by inversion Hi).
  destruct (unmarshal_array_shape _ _ _ _ _ _ Hmn Hu) as (vs & -> & Hlen & Hvs). cbn [app] in *.
  assert (Hle : bh_min_timestamp bh <= bh_max_timestamp bh).
  { apply (sortedZ_le_last tss); [done| |done]. destruct tss; simplify_eq/=; by left. }
  destruct (Z.ltb_spec (bh_precision_bits bh) 64) as [Hlt|Hge].
  - destruct (ensure_repairs vs tss _ _ Hlen Hh Hlast Hle) as (r & Hr & ? & ? & ? & Hsr).
    exists r. rewrite Hr, Hh, Hlast. split_and!; try done; [lia|].
    unfold is_i in *. apply Forall_In. intros x Hx.
    assert (x <= bh_max_timestamp bh) by by eapply sortedZ_le_last.
    assert (bh_min_timestamp bh <= x).
    { destruct r as [|y r]; simplify_eq/=. apply StronglySorted_cons in Hsr as [Hy _].
      rewrite Forall_In in Hy. destruct Hx as [<-|Hx]; [lia|by apply Hy]. }
    assert (is_i64 (bh_max_timestamp bh)).
    { rewrite Forall_In in Hi. apply Hi. apply last_Some in Hlast as [? ->]. apply in_app_iff. cbn. auto. }
    unfold is_i in *. lia.
  - assert (Hpb64 : bh_precision_bits bh = 64) by lia. rewrite (Hl Hpb64) in *. exists tss.
    split_and!; try done. destruct (needs_validation mt); [|done].
    by rewrite check_bounds_ok.
Qed.

Lemma decode_columns bh tsd vd tss vss mt vmt :
  sortedZ tss -> Forall is_i64 tss -> tss <> [] -> length vss = length tss -> Forall is_i64 vss ->
  1 <= bh_precision_bits bh <= 64 ->
  encodes tss (bh_precision_bits bh) tsd mt (bh_min_timestamp bh) ->
  encodes vss (bh_precision_bits bh) vd vmt (bh_first_value bh) ->
  last tss = Some (bh_max_timestamp bh) ->
  bh_rows_count bh = Z.of_nat (length tss) ->
  bh_timestamps_marshal_type bh = MarshalType_as_u8 mt ->
  bh_values_marshal_type bh = MarshalType_as_u8 vmt ->
  exists tss' vss', unmarshal_columns bh tsd vd = Ok (tss', vss') /\
    (bh_precision_bits bh = 64 -> tss' = tss /\ vss' = vss) /\
    length tss' = length tss /\ length vss' = length vss /\
    head tss' = head tss /\ last tss' = last tss /\
    sortedZ tss' /\ Forall is_i64 tss' /\ Forall is_i64 vss'.
Proof.
  intros Hs Hti Hne Hlen Hvi Hpb Het Hev Hlast Hrows Htm Hvm.
  destruct (decode_timestamps bh tsd tss mt) as (tss0 & tss' & Hu & Hv & ? & Hlt & ? & ? & ? & ?); try done.
  destruct Hev as (_ & Hfv & _ & vss' & Huv & Hl).
  assert (is_i64 (bh_first_value bh)) by (destruct vss; simplify_eq/=; by inversion Hvi).
  destruct (unmarshal_array_shape _ _ _ _ _ _ ltac:(done) Huv) as (w & Hw & Hwl & Hwi). cbn in Hw. subst w.
  exists tss', vss'. split_and!; try done; [|naive_solver].
  unfold unmarshal_columns. rewrite Hrows, Htm, Hvm, Nat2Z.id, !from_as_u8.
  pass_guard ltac:(apply Z.eqb_neq; destruct tss; [done|cbn; lia]).
  cbn [ok_or]. rewrite bind_Ok. unfold unmarshal_timestamps, unmarshal_values.
  rewrite Hu, !map_err_Ok, bind_Ok. cbv beta. rewrite Hv, !bind_Ok. rewrite Hlen in Huv.
  rewrite Huv, !map_err_Ok, bind_Ok.
  pass_guard ltac:(apply negb_false_iff, Nat.eqb_eq; congruence). done.
Qed.

Lemma as_u32_small n : Z.of_nat n < 2 ^ 32 -> as_u32 (Z.of_nat n) = Z.of_nat n.
Proof. intros. apply wrap_u_id. unfold is_u. lia. Qed.

Definition with_offsets_fields (bh bh0 : BlockHeader) (to vo : Z) : Prop :=
  bh_tsid bh = bh_tsid bh0 /\ bh_scale bh = bh_scale bh0 /\
  bh_precision_bits bh = bh_precision_bits bh0 /\
  bh_timestamps_block_offset bh = to /\ bh_values_block_offset bh = vo.

(** Packing an unpacked block. *)
Lemma marshal_data_unpacked {E} b to vo :
  unpacked_ok b -> is_u64 to -> is_u64 vo ->
  exists bh tsd vd,
    marshal_data (E := E) b to vo = Ok (mkBlock bh 0 [] [] (bh_marshal bh []) tsd vd) /\
    with_offsets_fields bh (b_bh b) to vo /\
    packs bh tsd vd (drop (b_next_idx b) (b_timestamps b)) (drop (b_next_idx b) (b_values b)).
Proof.
  intros [Htsid Hsc Hpb Hn Hlen Hmax Hti Hvi Hs] Hto Hvo. unfold marshal_data.
  rewrite (proj2 (Nat.eqb_neq _ _)) by lia.
  set (tss := drop (b_next_idx b) (b_timestamps b)) in *. set (vss := drop (b_next_idx b) (b_values b)).
  assert (Htne : tss <> []) by (apply drop_nonempty; lia).
  assert (Hvne : vss <> []) by (apply drop_nonempty; lia).
  assert (Htl : length tss = (length (b_values b) - b_next_idx b)%nat)
    by (subst tss; rewrite length_drop; lia).
  assert (Hvl : length vss = length tss) by (subst vss; rewrite length_drop; lia).
  assert (Htss : Forall is_i64 tss) by by apply Forall_drop.
  assert (Hvss : Forall is_i64 vss) by by apply Forall_drop.
  destruct (marshal_array_total (E := E) vss _ Hvne Hvss Hpb) as (vd & vmt & fv & Hmv & Hev).
  destruct (marshal_array_total (E := E) tss _ Htne Htss Hpb) as (tsd & tmt & mn & Hmt & Het).
  destruct (last tss) as [mx|] eqn:Hlast; [|by apply last_None in Hlast].
  assert (Hmx : is_i64 mx).
  { rewrite Forall_In in Htss. apply Htss. apply last_Some in Hlast as [? ->]. apply in_app_iff. cbn. auto. }
  assert (Hmn : is_i64 mn) by (destruct Het as (_ & Hh & _); destruct tss; simplify_eq/=; by inversion Htss).
  assert (Hfv : is_i64 fv) by (destruct Hev as (_ & Hh & _); destruct vss; simplify_eq/=; by inversion Hvss).
  pose proof (as_u8_range tmt). pose proof (as_u8_range vmt).
  assert (Hb1 := proj1 (proj2 (proj2 Het))). assert (Hb2 := proj1 (proj2 (proj2 Hev))).
  unfold MAX_ROWS_PER_BLOCK in Hmax.
  eexists _, tsd, vd. split.
  { pass_assert ltac:(apply Nat.leb_le; lia). pass_assert ltac:(by apply Nat.eqb_eq).
    pass_assert ltac:(apply Nat.ltb_lt; lia).
    unfold slice_from. rewrite !decide_True by lia. rewrite bind_Ok. unfold marshal_values, marshal_timestamps.
    fold vss tss. rewrite Hmv, !bind_Ok. cbv beta iota. rewrite ?bind_Ok, Hmt, bind_Ok. cbv beta iota.
    rewrite (idx_last _ mx), bind_Ok by (subst tss; by rewrite last_drop in Hlast by lia). reflexivity. }
  split; [by unfold with_offsets_fields|]. rewrite !as_u32_small by lia. rewrite <-Htl in *.
  match goal with |- packs ?h _ _ _ _ =>
    pose proof (decode_columns h tsd vd tss vss tmt vmt Hs Htss Htne Hvl Hvss Hpb Het Hev Hlast
      eq_refl eq_refl eq_refl) as Hd end.
  split; [..|exact Hd]; cbn -[Z.of_nat]; try done; try apply Het; try apply Hev.
  - unfold bh_wf. cbn -[Z.of_nat]. unfold is_u, is_i in *. split_and!; try done; lia.
  - unfold bh_valid, MAX_BLOCK_SIZE, MAX_ROWS_PER_BLOCK. cbn -[Z.of_nat Z.mul]. destruct tss; [done|]. cbn [length] in *. lia.
Qed.
End PackLemmas.

(** Packing a packed block again only rewrites the offsets and the header. *)
Lemma marshal_data_packed `{Zs : Zstd} {E} bh hd tsd vd tss vss to vo :
  packs bh tsd vd tss vss ->
  let bh' := set_offsets bh to vo in
  marshal_data (E := E) (mkBlock bh 0 [] [] hd tsd vd) to vo
  = Ok (mkBlock bh' 0 [] [] (bh_marshal bh' []) tsd vd).
Proof.
  intros Hp bh'. unfold marshal_data. cbn [b_values b_bh b_next_idx b_timestamps_data b_values_data length Nat.eqb].
  pass_assert ltac:(done). pass_assert ltac:(apply Z.eqb_eq, Hp). pass_assert ltac:(apply Z.eqb_eq, Hp).
  pass_assert ltac:(rewrite Z.gtb_ltb; apply Z.ltb_lt; pose proof (pk_valid _ _ _ _ _ Hp) as [? _]; lia). done.
Qed.

(** Decoding does not depend on the offsets, so sharing them is harmless. *)
Lemma packs_set_offsets `{Zs : Zstd} bh tsd vd tss vss to vo :
  is_u64 to -> is_u64 vo -> packs bh tsd vd tss vss -> packs (set_offsets bh to vo) tsd vd tss vss.
Proof.
  intros Hto Hvo [(? & ? & ? & ? & _ & _ & ?) Hvalid ? ? ? ? ? ? ? ?]. split; done.
Qed.

Lemma unmarshal_data_packed `{Zs : Zstd} bh hd tsd vd tss vss :
  packs bh tsd vd tss vss ->
  exists tss' vss', unmarshal_columns bh tsd vd = Ok (tss', vss') /\
    unmarshal_data (mkBlock bh 0 [] [] hd tsd vd) = Ok (mkBlock bh 0 tss' vss' hd [] []) /\
    unmarshal_block_data bh tsd vd = Ok (mkBlock bh 0 tss' vss' [] [] []) /\
    (bh_precision_bits bh = 64 -> tss' = tss /\ vss' = vss) /\
    length tss' = length tss /\ length vss' = length vss /\
    head tss' = head tss /\ last tss' = last tss /\
    sortedZ tss' /\ Forall is_i64 tss' /\ Forall is_i64 vss'.
Proof.
  intros Hp. destruct (pk_decode _ _ _ _ _ Hp) as (tss' & vss' & Hd & H). exists tss', vss'.
  unfold unmarshal_data, unmarshal_block_data.
  cbn [b_values b_bh b_next_idx b_timestamps_data b_values_data b_header_data length Nat.eqb negb].
  by rewrite Hd, !bind_Ok.
Qed.

(** C29: writing a block and reading it back: packing a well-formed unpacked
    block never panics and yields a valid header; unpacking the result gives
    as many rows, in time order, starting and ending at the same timestamps,
    and exactly the rows that were pending when the block keeps all 64
    precision bits. *)
Theorem block_pack_unpack `{Zl : ZstdLaws} (b : Block) (to vo : Z)
    (Hb : unpacked_ok b) (Hto : is_u64 to) (Hvo : is_u64 vo) :
  let tss := drop (b_next_idx b) (b_timestamps b) in
  let vss := drop (b_next_idx b) (b_values b) in
  exists b1 b2,
    marshal_data (E := block_error) b to vo = Ok b1 /\
    bh_wf (b_bh b1) /\ bh_valid (b_bh b1) /\ b_header_data b1 = bh_marshal (b_bh b1) [] /\
    unmarshal_data b1 = Ok b2 /\ b_next_idx b2 = 0%nat /\
    length (b_timestamps b2) = length tss /\ length (b_values b2) = length tss /\
    sortedZ (b_timestamps b2) /\
    head (b_timestamps b2) = head tss /\ last (b_timestamps b2) = last tss /\
    (bh_precision_bits (b_bh b) = 64 -> b_timestamps b2 = tss /\ b_values b2 = vss).
Proof.
  intros tss vss. destruct (marshal_data_unpacked (E := block_error) b to vo Hb Hto Hvo)
    as (bh & tsd & vd & Hm & (_ & _ & Hpb & _) & Hp). fold tss vss in Hp.
  destruct (unmarshal_data_packed bh (bh_marshal bh []) tsd vd tss vss Hp)
    as (tss' & vss' & _ & Hu & _ & Heq & Hl1 & Hl2 & Hh & Hla & Hs & _).
  rewrite Hpb in Heq. eexists _, _. split; [exact Hm|]. cbn.
  split_and!; try done; [apply (pk_wf _ _ _ _ _ Hp)|apply (pk_valid _ _ _ _ _ Hp)|].
  cbn [b_values]. rewrite Hl2. subst tss vss. rewrite !length_drop. by rewrite (uo_length b Hb).
Qed.

Section Witness.
Local Existing Instances stored_zstd stored_zstd_laws.

Definition sample_block (pb : Z) : Block :=
  mkBlock (mkBlockHeader (mkTsid 1 2 3 4) 0 0 0 0 0 0 0 0 (-2) 0 0 pb) 1
    [3; 10; 25; 25; 70] [5; -7; 12; 1000; 4] [] [] [].

Lemma sample_block_ok : unpacked_ok (sample_block 64).
Proof.
  split; try (apply (bool_decide_unpack _); vm_compute; done); cbn; lia.
Qed.

Lemma block_pack_unpack_witness :
  exists b1 b2,
    marshal_data (E := block_error) (sample_block 64) 100 200 = Ok b1 /\
    bh_wf (b_bh b1) /\ bh_valid (b_bh b1) /\ b_header_data b1 = bh_marshal (b_bh b1) [] /\
    unmarshal_data b1 = Ok b2 /\ b_next_idx b2 = 0%nat /\
    length (b_timestamps b2) = 4%nat /\ length (b_values b2) = 4%nat /\
    sortedZ (b_timestamps b2) /\
    head (b_timestamps b2) = Some 10 /\ last (b_timestamps b2) = Some 70 /\
    (bh_precision_bits (b_bh (sample_block 64)) = 64 ->
     b_timestamps b2 = [10; 25; 25; 70] /\ b_values b2 = [-7; 12; 1000; 4]).
Proof.
  apply (block_pack_unpack (sample_block 64) 100 200 sample_block_ok); unfold is_u; lia.
Defined.
End Witness.

(** ** Timestamp checks *)

Lemma bounds_loop_inv i x l y : bounds_loop i x l = Ok y -> sortedZ (x :: l) /\ last (x :: l) = Some y.
Proof.
  revert i x. induction l as [|z l IH]; intros i x; cbn [bounds_loop].
  - intros [= ->]. split; [repeat constructor|done].
  - destruct (Z.ltb_spec z x); [done|]. intros [Hs Hl]%IH. rewrite last_cons_cons. split; [|done].
    apply StronglySorted_cons. split; [|done]. constructor; [done|].
    apply StronglySorted_cons in Hs as [Hz _]. eapply Forall_weaken; [|done]. cbn. lia.
Qed.

(** The check of decoded timestamps accepts exactly the sequences that
    are sorted and lie within the header's time range. *)
Theorem check_timestamps_bounds_exact (timestamps : list Z) (mn mx : Z) :
  check_timestamps_bounds timestamps mn mx = Ok tt <->
  sortedZ timestamps /\ Forall (fun ts => mn <= ts <= mx) timestamps.
Proof.
  unfold check_timestamps_bounds. destruct timestamps as [|x l]; [split; [by repeat constructor|done]|].
  split.
  - intros H. res_inv. apply Z.ltb_ge in Hm. apply bounds_loop_inv in Hm0 as [Hs Hl].
    rewrite Z.gtb_ltb, Z.ltb_ge in H. split; [done|]. apply Forall_In. intros y Hy.
    pose proof (sortedZ_le_last _ _ _ Hs Hy Hl). split; [|lia].
    apply StronglySorted_cons in Hs as [Hx _]. rewrite Forall_In in Hx.
    destruct Hy as [<-|Hy]; [lia|]. specialize (Hx y Hy). cbn in Hx. lia.
  - intros [Hs Hr]. inversion Hr; subst. pass_guard ltac:(apply Z.ltb_ge; lia).
    rewrite bounds_loop_sorted, bind_Ok by done. apply guard_ok. rewrite Z.gtb_ltb. apply Z.ltb_ge.
    destruct (last (x :: l)) as [y|] eqn:Hl; [|by apply last_None in Hl]. cbn.
    apply last_Some in Hl as [l' Hl]. rewrite Hl in Hr. apply Forall_app in Hr as [_ Hr]. inversion Hr; subst. lia.
Qed.

(** ** Filtering *)

Lemma skip_smaller_spec l mn :
  sortedZ l -> let i := skip_smaller l mn in
  (i <= length l)%nat /\ Forall (fun t => t < mn) (take i l) /\ Forall (fun t => mn <= t) (drop i l).
Proof.
  intros Hs. induction l as [|x l IH]; cbn [skip_smaller]; [repeat constructor|].
  apply StronglySorted_cons in Hs as [Hx Hs]. destruct (Z.ltb_spec x mn).
  - destruct (IH Hs) as (H1 & H2 & H3). cbn. split_and!; [lia|by constructor|done].
  - cbn. split_and!; [lia|constructor|]. constructor; [lia|]. eapply Forall_weaken; [|done]. cbn. lia.
Qed.

Lemma skip_bigger_spec l mx i j :
  sortedZ l -> (i <= j <= length l)%nat -> Forall (fun t => mx < t) (drop j l) ->
  let j' := skip_bigger l mx i j in
  (i <= j' <= j)%nat /\ Forall (fun t => mx < t) (drop j' l) /\
  (forall t, In t (take (j' - i) (drop i l)) -> t <= mx).
Proof.
  intros Hs. induction j as [|j IH]; intros Hj Hd; cbn [skip_bigger].
  - replace i with 0%nat by lia. done.
  - destruct (lookup_lt_is_Some_2 l j ltac:(lia)) as [x Hx]. rewrite Hx. change (default 0 (Some x)) with x.
    destruct (Nat.ltb_spec i (S j)) as [Hij|Hij]; cbn [andb].
    + destruct (Z.ltb_spec mx x) as [Hgt|Hle].
      * destruct IH as (H1 & H2 & H3); [lia|rewrite (drop_S _ _ _ Hx); by constructor|].
        split_and!; [lia|lia|done|done].
      * split_and!; [lia..|done|]. intros t Ht.
        rewrite <-(take_drop (S j) l), (take_S_r _ _ _ Hx) in Hs.
        apply sortedZ_app in Hs as (Hs & _). apply sortedZ_snoc in Hs as [_ Hs].
        rewrite take_drop_commute in Ht. replace (i + (S j - i))%nat with (S j) in Ht by lia.
        rewrite (take_S_r _ _ _ Hx) in Ht. rewrite Forall_In in Hs.
        assert (Hin : In t (take j l ++ [x])).
        { rewrite <-(take_drop i (take j l ++ [x])). apply in_app_iff. by right. }
        apply in_app_iff in Hin as [Hin|[<-|[]]]; [specialize (Hs t Hin); lia|lia].
    + replace (S j - i)%nat with 0%nat by lia. split_and!; [lia..|done|done].
Qed.

(** A window of a list that keeps exactly the items satisfying [p]. *)
Lemma filter_window {A} (p : A -> bool) (l : list A) i j :
  (i <= j <= length l)%nat ->
  (forall x, In x (take i l) -> p x = false) -> (forall x, In x (drop j l) -> p x = false) ->
  (forall x, In x (take (j - i) (drop i l)) -> p x = true) ->
  take (j - i) (drop i l) = List.filter p l.
Proof.
  intros Hij H1 H2 H3. rewrite <-(take_drop i l) at 2. rewrite List.filter_app.
  rewrite <-(take_drop (j - i) (drop i l)) at 2. rewrite List.filter_app, drop_drop.
  replace (i + (j - i))%nat with j by lia.
  assert (Hnil : forall m : list A, (forall x, In x m -> p x = false) -> List.filter p m = []).
  { induction m as [|y m IH]; cbn; [done|]. intros H. rewrite (H y) by auto. apply IH. auto. }
  assert (Hall : forall m : list A, (forall x, In x m -> p x = true) -> List.filter p m = m).
  { induction m as [|y m IH]; cbn; [done|]. intros H. rewrite (H y) by auto. rewrite IH by auto. done. }
  rewrite (Hnil _ H1), (Hnil _ H2), (Hall _ H3). by rewrite app_nil_r.
Qed.

Definition in_range (mn mx : Z) (p : Z * Z) : bool := (mn <=? p.1) && (p.1 <=? mx).

Lemma in_fst_take n (l : list (Z * Z)) p : In p (take n l) -> In p.1 (take n l.*1).
Proof. intros H. rewrite <-fmap_take. by apply (in_map fst). Qed.
Lemma in_fst_drop n (l : list (Z * Z)) p : In p (drop n l) -> In p.1 (drop n l.*1).
Proof. intros H. rewrite <-fmap_drop. by apply (in_map fst). Qed.

(** Filtering an unpacked block with sorted timestamps by a time range
    returns exactly the samples whose timestamp lies in the (inclusive) range,
    in order, timestamps and values still paired. *)
Theorem filter_timestamps_exact (b : Block) (samples : list (Z * Z)) (mn mx : Z)
    (Hts : b_timestamps b = samples.*1) (Hvs : b_values b = samples.*2) (Hs : sortedZ samples.*1) :
  let r := List.filter (in_range mn mx) samples in
  filter_timestamps (E := Empty_set) b mn mx = Ok (r.*1, r.*2).
Proof.
  intros r. unfold filter_timestamps. rewrite Hts, Hvs.
  destruct (skip_smaller_spec samples.*1 mn Hs) as (Hi & Hlo & Hhi).
  set (i := skip_smaller _ _) in *.
  destruct (skip_bigger_spec samples.*1 mx i (length samples.*1)) as (Hj & Hbig & Hmid);
    [done|lia|rewrite drop_ge by lia; constructor|].
  set (j := skip_bigger _ _ _ _) in *. rewrite Forall_In in Hlo, Hhi, Hbig. rewrite length_fmap in *.
  assert (Hw : take (j - i) (drop i samples) = r).
  { apply filter_window; [lia|..]; intros p Hp; unfold in_range.
    - apply in_fst_take, Hlo in Hp. rewrite (proj2 (Z.leb_gt _ _)) by lia. done.
    - apply in_fst_drop, Hbig in Hp. rewrite (proj2 (Z.leb_gt p.1 mx)) by lia. apply andb_false_r.
    - assert (Hp1 : In p.1 (take (j - i) (drop i samples.*1)))
        by (rewrite <-fmap_drop, <-fmap_take; by apply (in_map fst)).
      rewrite (proj2 (Z.leb_le _ _)), (proj2 (Z.leb_le _ _)); [done|by apply Hmid|].
      apply Hhi. rewrite <-(take_drop (j - i) (drop i samples.*1)). apply in_app_iff. by left. }
  destruct (Nat.eqb_spec i j) as [Heq|Hne].
  - rewrite <-Hw, Heq, Nat.sub_diag. done.
  - rewrite decide_True by lia. by rewrite <-Hw, !fmap_take, !fmap_drop.
Qed.

Lemma filter_timestamps_exact_witness :
  filter_timestamps (E := Empty_set) (mkBlock BlockHeader_default 0 [1; 5; 5; 9; 12] [10; 20; 30; 40; 50] [] [] []) 5 9
  = Ok ([5; 5; 9], [20; 30; 40]).
Proof.
  apply (filter_timestamps_exact (mkBlock BlockHeader_default 0 [1; 5; 5; 9; 12] [10; 20; 30; 40; 50] [] [] [])
    [(1, 10); (5, 20); (5, 30); (9, 40); (12, 50)] 5 9 eq_refl eq_refl).
  repeat (constructor; cbn; try lia).
Defined.

(** ** The portable form: lemmas *)

(** The columns decode the same whatever the fields the portable form drops. *)
Lemma unmarshal_columns_portable `{Zs : Zstd} self bh tsd vd :
  unmarshal_columns (portable_view self bh) tsd vd = unmarshal_columns bh tsd vd.
Proof. done. Qed.

Lemma portable_view_valid bh :
  bh_wf bh -> bh_valid bh -> bh_validate (portable_view BlockHeader_default bh) = Ok tt.
Proof.
  intros (_ & _ & _ & _ & _ & _ & _ & _ & Hr & _) (H1 & H2 & H3 & H4 & _).
  apply bh_validate_ok; [done|]. unfold bh_valid, MAX_BLOCK_SIZE, MAX_ROWS_PER_BLOCK in *.
  cbn -[Z.mul]. split_and!; try done; lia.
Qed.

Lemma unmarshal_portable_packed `{Zl : ZstdLaws} bh tsd vd tss vss tail :
  packs bh tsd vd tss vss -> bytes tail ->
  let data := marshal_bytes (marshal_bytes (bh_marshal_portable bh []) tsd) vd in
  exists tss' vss',
    unmarshal_columns bh tsd vd = Ok (tss', vss') /\
    unmarshal_portable (data ++ tail)
    = Ok (mkBlock (portable_view BlockHeader_default bh) 0 tss' vss' [] [] [], tail).
Proof.
  intros Hp Htail data. destruct (pk_decode _ _ _ _ _ Hp) as (tss' & vss' & Hd & _).
  exists tss', vss'. split; [done|]. destruct Hp as [Hwf Hvalid Htb Hvb Hts Hvs _ _ _ _].
  pose proof Hvalid as (_ & _ & _ & _ & Hb1 & Hb2). unfold MAX_BLOCK_SIZE, MAX_ROWS_PER_BLOCK in Hb1, Hb2.
  assert (Hdata : data ++ tail
    = bh_marshal_portable bh [] ++ marshal_bytes [] tsd ++ marshal_bytes [] vd ++ tail).
  { subst data. rewrite (marshal_bytes_dst (marshal_bytes _ _)), (marshal_bytes_dst (bh_marshal_portable _ _)) by lia.
    by rewrite <-!app_assoc. }
  rewrite Hdata. unfold unmarshal_portable.
  assert (Hvt : bytes (marshal_bytes [] vd ++ tail)).
  { apply bytes_app. split; [|done]. apply marshal_bytes_bytes; [lia|done]. }
  rewrite bh_unmarshal_portable_app, map_err_Ok, bind_Ok; [|done|].
  2: { apply bytes_app. split; [|done]. apply marshal_bytes_bytes; [lia|done]. }
  cbv beta iota. rewrite unmarshal_bytes_app by (done || lia). cbn [ok_or]. rewrite bind_Ok. cbv beta iota.
  rewrite slice_from_ok, bind_Ok by done.
  rewrite unmarshal_bytes_app by (done || lia). cbn [ok_or]. rewrite bind_Ok. cbv beta iota.
  rewrite slice_from_ok, bind_Ok by done.
  rewrite portable_view_valid, map_err_Ok, bind_Ok by done.
  unfold unmarshal_data. cbn [b_values b_bh b_timestamps_data b_values_data b_header_data length Nat.eqb negb].
  by rewrite unmarshal_columns_portable, Hd, !bind_Ok.
Qed.

(** C37: migrating a block.  The portable form of a well-formed block (at least one
    row, at most a full block of rows left, sorted timestamps, fields in range),
    whatever bytes follow it, is read back completely by the importing side, with
    the same scale, precision, time range and number of rows, in time order, and
    with exactly the same rows when the block keeps all 64 precision bits. *)
Theorem block_portable_roundtrip `{Zl : ZstdLaws} (b : Block) (tail : list Z)
    (Hb : unpacked_ok b) (Ht : bytes tail) :
  let tss := drop (b_next_idx b) (b_timestamps b) in
  let vss := drop (b_next_idx b) (b_values b) in
  exists b1 data b2,
    marshal_portable (E := block_error) b [] = Ok (b1, data) /\
    unmarshal_portable (data ++ tail) = Ok (b2, tail) /\
    bh_scale (b_bh b2) = bh_scale (b_bh b) /\
    bh_precision_bits (b_bh b2) = bh_precision_bits (b_bh b) /\
    length (b_timestamps b2) = length tss /\ head (b_timestamps b2) = head tss /\
    last (b_timestamps b2) = last tss /\ sortedZ (b_timestamps b2) /\
    (bh_precision_bits (b_bh b) = 64 -> b_timestamps b2 = tss /\ b_values b2 = vss).
Proof.
  intros tss vss. destruct (marshal_data_unpacked (E := block_error) b 0 0 Hb) as
    (bh & tsd & vd & Hm & (_ & Hsc & Hpb & _) & Hp); [unfold is_u; lia..|]. fold tss vss in Hp.
  destruct (unmarshal_portable_packed bh tsd vd tss vss tail Hp Ht) as (tss' & vss' & Hd & Hu).
  destruct (pk_decode _ _ _ _ _ Hp) as (t' & v' & Hd' & Heq & Hl & _ & Hh & Hla & Hs & _).
  rewrite Hd in Hd'. injection Hd' as <- <-.
  eexists _, _, _. split; [unfold marshal_portable; rewrite Hm, bind_Ok; reflexivity|].
  split; [exact Hu|]. rewrite Hpb in Heq. by cbn.
Qed.

Section Witness.
Local Existing Instances stored_zstd stored_zstd_laws.

Lemma block_portable_roundtrip_witness :
  exists b1 data b2,
    marshal_portable (E := block_error) (sample_block 64) [] = Ok (b1, data) /\
    unmarshal_portable (data ++ [7; 7]) = Ok (b2, [7; 7]) /\
    bh_scale (b_bh b2) = -2 /\ bh_precision_bits (b_bh b2) = 64 /\
    length (b_timestamps b2) = 4%nat /\ head (b_timestamps b2) = Some 10 /\
    last (b_timestamps b2) = Some 70 /\ sortedZ (b_timestamps b2) /\
    (64 = 64 -> b_timestamps b2 = [10; 25; 25; 70] /\ b_values b2 = [-7; 12; 1000; 4]).
Proof.
  apply (block_portable_roundtrip (sample_block 64) [7; 7] sample_block_ok).
  apply (bool_decide_unpack _); vm_compute; done.
Defined.
End Witness.

(** The portable reader is not total on untrusted input: a block of one
    row that claims a second-delta column, and a lossy block whose time range
    is inverted, both pass the header's validation and abort the process
    instead of returning an error. *)
Theorem portable_reader_panics `{Zs : Zstd} :
  unmarshal_portable [0; 0; 0; 1; 0; 5; 3; 64; 0; 0] = Panic /\
  unmarshal_portable [2; 0; 0; 1; 0; 3; 3; 10; 0; 0] = Panic.
Proof. done. Qed.

(** The header of a portable block that decodes without a panic: enough rows
    for the column types and, when lossy, a proper time range. *)
Definition decodable (bh : BlockHeader) : Prop :=
  (forall mt, MarshalType_from_u8 (bh_timestamps_marshal_type bh) = Some mt ->
     (min_items mt <= Z.to_nat (bh_rows_count bh))%nat) /\
  (forall mt, MarshalType_from_u8 (bh_values_marshal_type bh) = Some mt ->
     (min_items mt <= Z.to_nat (bh_rows_count bh))%nat) /\
  (bh_precision_bits bh < 64 -> bh_min_timestamp bh <= bh_max_timestamp bh).

Lemma ensure_no_panic {E} a mn mx : mn <= mx -> no_panic (ensure_non_decreasing_sequence (E := E) a mn mx).
Proof.
  intros Hle. destruct a as [|x a]; [|by rewrite ensure_spec].
  unfold ensure_non_decreasing_sequence. by rewrite (assert_true _ (proj2 (Z.leb_le _ _) Hle)).
Qed.

Lemma bounds_loop_no_panic i x l : no_panic (bounds_loop i x l).
Proof. revert i x. induction l as [|y l IH]; intros; cbn; [done|]. case_match; [done|apply IH]. Qed.

Lemma check_bounds_no_panic l mn mx : no_panic (check_timestamps_bounds l mn mx).
Proof.
  unfold check_timestamps_bounds. case_match; [done|]. apply no_panic_bind; [auto with esm|intros _ _].
  apply no_panic_bind; [apply bounds_loop_no_panic|auto with esm].
Qed.

(** Those are the only ways to abort: on a header whose column types have
    enough rows and whose time range is proper when lossy, decoding arbitrary
    column bytes always returns rows or an error. *)
Theorem unmarshal_columns_total `{Zs : Zstd} (bh : BlockHeader) (tsd vd : list Z)
    (H : decodable bh) : unmarshal_columns bh tsd vd <> Panic.
Proof.
  destruct H as (Ht & Hv & Hr). unfold unmarshal_columns.
  apply no_panic_bind; [auto with esm|intros _ _].
  apply no_panic_bind; [auto with esm|intros tmt Htm%ok_or_ok].
  apply no_panic_bind; [apply no_panic_map_err, no_panic_map_err, unmarshal_array_no_panic; auto|intros tss _].
  apply no_panic_bind; [|intros tss' _].
  { destruct (Z.ltb_spec (bh_precision_bits bh) 64); [by apply ensure_no_panic; auto|].
    case_match; [|done]. apply no_panic_bind; [apply check_bounds_no_panic|done]. }
  apply no_panic_bind; [auto with esm|intros vmt Hvm%ok_or_ok].
  apply no_panic_bind; [apply no_panic_map_err, no_panic_map_err, unmarshal_array_no_panic; auto|intros vss _].
  apply no_panic_bind; [auto with esm|done].
Qed.

Lemma unmarshal_columns_total_witness :
  unmarshal_columns (Zs := stored_zstd) (mkBlockHeader Tsid_default 3 9 0 0 0 0 0 2 0 5 6 30) [1; 2; 200] [5] <> Panic.
Proof.
  apply unmarshal_columns_total. split_and!; cbn; try lia; intros mt [= <-]; cbn; lia.
Defined.
