(* ===== verification/BlockStream.v ===== *)
(** * Block streams

    Model of [esm-storage/src/block_stream/writer.rs] and [reader.rs] over
    in-memory parts: blocks are appended to four streams (timestamps, values,
    index, metaindex), equal neighbouring timestamp columns being stored once,
    and read back in order with every offset and count re-checked.  The file
    variants perform the same writes and reads on files. *)
From Stdlib Require Import ZArith Lia Bool Sorted.
From S2P Require Import Prelude IntCodec NearestDelta Float64 Compress ArrayCodec Tsid BlockHeader Decimal Dedup Block.
Local Open Scope Z_scope.

(** ** The part header *)

Record PartHeader : Type := mkPartHeader {
  ph_rows_count : Z;
  ph_blocks_count : Z;
  ph_min_timestamp : Z;
  ph_max_timestamp : Z;
  ph_min_dedup_interval : Z;
}.

Definition PartHeader_default : PartHeader := mkPartHeader 0 0 (2 ^ 63 - 1) (- 2 ^ 63) 0.

Definition update_part_header (b : Block) (ph : PartHeader) : PartHeader :=
  let bh := b_bh b in
  mkPartHeader (as_u64 (ph_rows_count ph + bh_rows_count bh)) (as_u64 (ph_blocks_count ph + 1))
    (if bh_min_timestamp bh <? ph_min_timestamp ph then bh_min_timestamp bh else ph_min_timestamp ph)
    (if bh_max_timestamp bh >? ph_max_timestamp ph then bh_max_timestamp bh else ph_max_timestamp ph)
    (ph_min_dedup_interval ph).

(** ** The writer *)

Inductive StreamWriter : Type :=
| WMem (buf : list Z)
| WClosed.

Definition must_write {E} (w : StreamWriter) (data : list Z) : res E StreamWriter :=
  match w with
  | WMem buf => Ok (WMem (buf ++ data))
  | WClosed => Panic
  end.

(** The writer after the call and the buffer it held. *)
Definition writer_must_close {E} (w : StreamWriter) : res E (StreamWriter * list Z) :=
  match w with
  | WMem buf => Ok (WClosed, buf)
  | WClosed => Panic
  end.

Record BlockStreamWriter : Type := mkWriter {
  w_compress_level : Z;
  w_timestamps : StreamWriter;
  w_values : StreamWriter;
  w_index : StreamWriter;
  w_metaindex : StreamWriter;
  w_mr : MetaindexRow;
  w_timestamps_block_offset : Z;
  w_values_block_offset : Z;
  w_index_block_offset : Z;
  w_index_data : list Z;
  w_metaindex_data : list Z;
  w_prev_timestamps_data : list Z;
  w_prev_timestamps_block_offset : Z;
}.

Definition new_inmemory_part (compress_level : Z) : BlockStreamWriter :=
  mkWriter compress_level (WMem []) (WMem []) (WMem []) (WMem []) MetaindexRow_default 0 0 0 [] [] [] 0.

Definition mr_set_index_block (mr : MetaindexRow) (offset size : Z) : MetaindexRow :=
  mkMetaindexRow (mr_tsid mr) (mr_min_timestamp mr) (mr_max_timestamp mr) offset
    (mr_block_headers_count mr) size.

Section Writer.
  Context {Zs : Zstd}.

Definition flush_index_data {E} (w : BlockStreamWriter) : res E BlockStreamWriter :=
  if (length (w_index_data w) =? 0)%nat then Ok w
  else
    let compressed := compress_zstd_level [] (w_index_data w) (w_compress_level w) in
    let index_block_size := Z.of_nat (length compressed) in
    _ ← assert_ (index_block_size <? 2 ^ 32);
    index ← must_write (w_index w) compressed;
    let mr := mr_set_index_block (w_mr w) (w_index_block_offset w) (as_u32 index_block_size) in
    Ok (mkWriter (w_compress_level w) (w_timestamps w) (w_values w) index (w_metaindex w)
          (mr_reset mr) (w_timestamps_block_offset w) (w_values_block_offset w)
          (as_u64 (w_index_block_offset w + index_block_size)) []
          (mr_marshal mr (w_metaindex_data w)) (w_prev_timestamps_data w)
          (w_prev_timestamps_block_offset w)).

(** The writer, the block, the part header and the row counter after the
    call; [dedup_interval] is the global interval. *)
Definition write_external_block (dedup_interval : Z) (w : BlockStreamWriter) (b : Block)
    (ph : PartHeader) (rows_merged : Z)
    : res block_error (BlockStreamWriter * Block * PartHeader * Z) :=
  let rows_merged := as_u64 (rows_merged + pending_rows_count b) in
  b ← deduplicate_samples_during_merge dedup_interval b;
  b ← marshal_data b (w_timestamps_block_offset w) (w_values_block_offset w);
  let use_prev_timestamps :=
    negb (length (w_prev_timestamps_data w) =? 0)%nat &&
    bool_decide (b_timestamps_data b = w_prev_timestamps_data w) in
  let timestamps_block_offset :=
    if use_prev_timestamps then w_prev_timestamps_block_offset w else w_timestamps_block_offset w in
  b ← marshal_data b timestamps_block_offset (w_values_block_offset w);
  w ← (if Z.of_nat (length (w_index_data w) + length (b_header_data b)) >? MAX_BLOCK_SIZE
       then flush_index_data w else Ok w);
  let index_data := w_index_data w ++ b_header_data b in
  '(timestamps, prev_data, prev_offset, timestamps_offset) ←
    (if use_prev_timestamps : bool then
       Ok (w_timestamps w, w_prev_timestamps_data w, w_prev_timestamps_block_offset w,
           w_timestamps_block_offset w)
     else
       timestamps ← must_write (w_timestamps w) (b_timestamps_data b);
       Ok (timestamps, b_timestamps_data b, w_timestamps_block_offset w,
           as_u64 (w_timestamps_block_offset w + Z.of_nat (length (b_timestamps_data b)))));
  values ← must_write (w_values w) (b_values_data b);
  Ok (mkWriter (w_compress_level w) timestamps values (w_index w) (w_metaindex w)
        (register_block_header (w_mr w) (b_bh b)) timestamps_offset
        (as_u64 (w_values_block_offset w + Z.of_nat (length (b_values_data b))))
        (w_index_block_offset w) index_data (w_metaindex_data w) prev_data prev_offset,
      b, update_part_header b ph, rows_merged).

(** The four buffers, in the order timestamps, values, index, metaindex. *)
Definition must_close {E} (w : BlockStreamWriter)
    : res E (list Z * list Z * list Z * list Z) :=
  w ← flush_index_data w;
  let compressed := compress_zstd_level [] (w_metaindex_data w) (w_compress_level w) in
  metaindex ← must_write (w_metaindex w) compressed;
  '(_, t) ← writer_must_close (w_timestamps w);
  '(_, v) ← writer_must_close (w_values w);
  '(_, i) ← writer_must_close (w_index w);
  '(_, m) ← writer_must_close metaindex;
  Ok (t, v, i, m).
End Writer.

(** ** The reader *)

Inductive StreamReader : Type :=
| RMem (buf : list Z) (pos : nat)
| RClosed.

(** Reads exactly [n] bytes; the stream after the read and the bytes. *)
Definition must_read {E} (r : StreamReader) (n : nat) : res E (StreamReader * list Z) :=
  match r with
  | RMem buf pos =>
      _ ← assert_ (pos + n <=? length buf)%nat;
      Ok (RMem buf (pos + n), take n (drop pos buf))
  | RClosed => Panic
  end.

Inductive bsr_other : Type :=
| BadPrevHeadersCount (got want : Z)
| TooShortIndexData (got : nat)
| CannotParseHeader (e : header_error)
| TooManyBlocks (got limit : Z)
| TooManyRows (got limit : Z)
| HeaderMinTimestamp (got limit : Z)
| HeaderMaxTimestamp (got limit : Z)
| BadTimestampsBlockSize (got : Z) (want : nat)
| BadTimestampsBlockOffset (got want : Z)
| BadValuesBlockOffset (got want : Z)
| CannotUnmarshalBlock (e : block_error)
| BadIndexBlockOffset (got want : Z)
| RowMinTimestamp (got limit : Z)
| RowMaxTimestamp (got limit : Z)
| CannotDecompressIndex (e : zstd_error)
| TsidOrder (got prev : Tsid).

Inductive bsr_error : Type :=
| BsrEof
| BsrOther (e : bsr_other).

Record BlockStreamReader : Type := mkReader {
  r_block : Block;
  r_tsid_prev : Tsid;
  r_ph : PartHeader;
  r_timestamps : StreamReader;
  r_values : StreamReader;
  r_index : StreamReader;
  r_mrs : list MetaindexRow;
  r_mr_idx : nat;
  r_cur_mr : option nat;
  r_rows_count : Z;
  r_blocks_count : Z;
  r_index_block_headers_count : Z;
  r_timestamps_block_offset : Z;
  r_values_block_offset : Z;
  r_index_block_offset : Z;
  r_prev_timestamps_block_offset : Z;
  r_prev_timestamps_data : list Z;
  r_index_data : list Z;
  r_index_cursor : nat;
  r_err : option bsr_error;
}.

Section Reader.
  Context {Zs : Zstd}.

(** The metaindex is parsed at once; a corrupted one aborts. *)
Definition from_inmemory_part {E} (ph : PartHeader) (timestamps_data values_data index_data
    metaindex_data : list Z) : res E BlockStreamReader :=
  mrs ← match unmarshal_metaindex_rows metaindex_data with Ok mrs => Ok mrs | _ => Panic end;
  Ok (mkReader Block_default Tsid_default ph (RMem timestamps_data 0) (RMem values_data 0)
        (RMem index_data 0) mrs 0 None 0 0 0 0 0 0 0 [] [] 0 None).

Definition read_index_block (r : BlockStreamReader) : res bsr_error BlockStreamReader :=
  mr ← ok_or (r_mrs r !! r_mr_idx r) BsrEof;
  _ ← guard_ (negb (r_index_block_offset r =? mr_index_block_offset mr))
        (BsrOther (BadIndexBlockOffset (mr_index_block_offset mr) (r_index_block_offset r)));
  _ ← guard_ (mr_min_timestamp mr <? ph_min_timestamp (r_ph r))
        (BsrOther (RowMinTimestamp (mr_min_timestamp mr) (ph_min_timestamp (r_ph r))));
  _ ← guard_ (mr_max_timestamp mr >? ph_max_timestamp (r_ph r))
        (BsrOther (RowMaxTimestamp (mr_max_timestamp mr) (ph_max_timestamp (r_ph r))));
  '(index, compressed) ← must_read (r_index r) (Z.to_nat (mr_index_block_size mr));
  index_data ← map_err (fun e => BsrOther (CannotDecompressIndex e)) (decompress_zstd [] compressed);
  Ok (mkReader (r_block r) (r_tsid_prev r) (r_ph r) (r_timestamps r) (r_values r) index (r_mrs r)
        (S (r_mr_idx r)) (Some (r_mr_idx r)) (r_rows_count r) (r_blocks_count r)
        (r_index_block_headers_count r) (r_timestamps_block_offset r) (r_values_block_offset r)
        (as_u64 (r_index_block_offset r + mr_index_block_size mr))
        (r_prev_timestamps_block_offset r) (r_prev_timestamps_data r) index_data 0 (r_err r)).

(** The first part of [read_block]: load the next index block when the
    current one is exhausted. *)
Definition ensure_index_data (r : BlockStreamReader) : res bsr_error BlockStreamReader :=
  if (r_index_cursor r <? length (r_index_data r))%nat then Ok r
  else
    _ ← match r_cur_mr r with
        | Some cur =>
            mr ← idx (r_mrs r) cur;
            guard_ (negb (r_index_block_headers_count r =? mr_block_headers_count mr))
              (BsrOther (BadPrevHeadersCount (r_index_block_headers_count r) (mr_block_headers_count mr)))
        | None => Ok tt
        end;
    read_index_block
      (mkReader (r_block r) (r_tsid_prev r) (r_ph r) (r_timestamps r) (r_values r) (r_index r)
         (r_mrs r) (r_mr_idx r) (r_cur_mr r) (r_rows_count r) (r_blocks_count r) 0
         (r_timestamps_block_offset r) (r_values_block_offset r) (r_index_block_offset r)
         (r_prev_timestamps_block_offset r) (r_prev_timestamps_data r) (r_index_data r)
         (r_index_cursor r) (r_err r)).

(** The timestamps column of a block: shared with the previous block, or the
    next bytes of the stream. *)
Definition read_timestamps_data (r : BlockStreamReader) (bh : BlockHeader) (use_prev : bool)
    : res bsr_error (StreamReader * list Z) :=
  if use_prev then Ok (r_timestamps r, r_prev_timestamps_data r)
  else must_read (r_timestamps r) (Z.to_nat (bh_timestamps_block_size bh)).

(** The checks of a parsed header against the part header and the position in
    the streams; [rows_count] and [blocks_count] already include the block. *)
Definition check_header (r : BlockStreamReader) (bh : BlockHeader) (rows_count blocks_count : Z)
    (use_prev : bool) : res bsr_error unit :=
  let ph := r_ph r in
  _ ← guard_ (blocks_count >? ph_blocks_count ph)
        (BsrOther (TooManyBlocks blocks_count (ph_blocks_count ph)));
  _ ← guard_ (rows_count >? ph_rows_count ph) (BsrOther (TooManyRows rows_count (ph_rows_count ph)));
  _ ← guard_ (bh_min_timestamp bh <? ph_min_timestamp ph)
        (BsrOther (HeaderMinTimestamp (bh_min_timestamp bh) (ph_min_timestamp ph)));
  _ ← guard_ (bh_max_timestamp bh >? ph_max_timestamp ph)
        (BsrOther (HeaderMaxTimestamp (bh_max_timestamp bh) (ph_max_timestamp ph)));
  _ ← (if use_prev : bool then
         guard_ (negb (bh_timestamps_block_size bh =? Z.of_nat (length (r_prev_timestamps_data r))))
           (BsrOther (BadTimestampsBlockSize (bh_timestamps_block_size bh)
              (length (r_prev_timestamps_data r))))
       else
         guard_ (negb (bh_timestamps_block_offset bh =? r_timestamps_block_offset r))
           (BsrOther (BadTimestampsBlockOffset (bh_timestamps_block_offset bh)
              (r_timestamps_block_offset r))));
  guard_ (negb (bh_values_block_offset bh =? r_values_block_offset r))
    (BsrOther (BadValuesBlockOffset (bh_values_block_offset bh) (r_values_block_offset r))).

Definition read_block (r : BlockStreamReader) : res bsr_error BlockStreamReader :=
  r ← ensure_index_data r;
  index_tail ← slice_from (r_index_data r) (r_index_cursor r);
  _ ← guard_ (length index_tail <? MARSHALED_BLOCK_HEADER_SIZE)%nat
        (BsrOther (TooShortIndexData (length index_tail)));
  '(bh, _) ← map_err (fun e => BsrOther (CannotParseHeader e))
               (bh_unmarshal (take MARSHALED_BLOCK_HEADER_SIZE index_tail));
  let blocks_count := as_u64 (r_blocks_count r + 1) in
  let rows_count := as_u64 (r_rows_count r + bh_rows_count bh) in
  let use_prev := negb (length (r_prev_timestamps_data r) =? 0)%nat &&
                  (bh_timestamps_block_offset bh =? r_prev_timestamps_block_offset r) in
  _ ← check_header r bh rows_count blocks_count use_prev;
  '(timestamps, timestamps_data) ← read_timestamps_data r bh use_prev;
  '(values, values_data) ← must_read (r_values r) (Z.to_nat (bh_values_block_size bh));
  block ← map_err (fun e => BsrOther (CannotUnmarshalBlock e))
            (unmarshal_block_data bh timestamps_data values_data);
  Ok (mkReader block (r_tsid_prev r) (r_ph r) timestamps values (r_index r) (r_mrs r) (r_mr_idx r)
        (r_cur_mr r) rows_count blocks_count (as_u32 (r_index_block_headers_count r + 1))
        (if use_prev then r_timestamps_block_offset r
         else as_u64 (r_timestamps_block_offset r + bh_timestamps_block_size bh))
        (as_u64 (r_values_block_offset r + bh_values_block_size bh)) (r_index_block_offset r)
        (if use_prev then r_prev_timestamps_block_offset r else r_timestamps_block_offset r)
        (if use_prev then r_prev_timestamps_data r else timestamps_data)
        (r_index_data r) (r_index_cursor r + MARSHALED_BLOCK_HEADER_SIZE) (r_err r)).

Definition set_err (r : BlockStreamReader) (err : option bsr_error) : BlockStreamReader :=
  mkReader (r_block r) (r_tsid_prev r) (r_ph r) (r_timestamps r) (r_values r) (r_index r) (r_mrs r)
    (r_mr_idx r) (r_cur_mr r) (r_rows_count r) (r_blocks_count r) (r_index_block_headers_count r)
    (r_timestamps_block_offset r) (r_values_block_offset r) (r_index_block_offset r)
    (r_prev_timestamps_block_offset r) (r_prev_timestamps_data r) (r_index_data r)
    (r_index_cursor r) err.

(** [self.tsid_prev = self.block.header().tsid; self.block.reset()]. *)
Definition begin_next (r : BlockStreamReader) : BlockStreamReader :=
  mkReader (block_reset (r_block r)) (bh_tsid (b_bh (r_block r))) (r_ph r) (r_timestamps r)
    (r_values r) (r_index r) (r_mrs r) (r_mr_idx r) (r_cur_mr r) (r_rows_count r)
    (r_blocks_count r) (r_index_block_headers_count r) (r_timestamps_block_offset r)
    (r_values_block_offset r) (r_index_block_offset r) (r_prev_timestamps_block_offset r)
    (r_prev_timestamps_data r) (r_index_data r) (r_index_cursor r) (r_err r).

(** The flag and the reader after the call.  After an error the reader only
    ever answers [false] and the error, so the position it stopped at is not
    part of the model. *)
Definition next_block {E} (r : BlockStreamReader) : res E (bool * BlockStreamReader) :=
  match r_err r with
  | Some _ => Ok (false, r)
  | None =>
      let r := begin_next r in
      match read_block r with
      | Ok r' =>
          if tsid_less (bh_tsid (b_bh (r_block r'))) (r_tsid_prev r')
          then Ok (false, set_err r' (Some (BsrOther
                 (TsidOrder (bh_tsid (b_bh (r_block r'))) (r_tsid_prev r')))))
          else Ok (true, r')
      | Err e => Ok (false, set_err r (Some e))
      | Panic => Panic
      end
  end.

(** [error()]: the last error, ignoring the end of the stream. *)
Definition reader_error (r : BlockStreamReader) : option bsr_other :=
  match r_err r with Some (BsrOther e) => Some e | _ => None end.
End Reader.

(** ** The layout of a part *)

#[local] Arguments bh_marshal : simpl never.
#[local] Arguments mr_marshal : simpl never.

(** A block as stored: its header, its two encoded columns, and the rows they
    stand for. *)
Record entry : Type := mkEntry {
  e_bh : BlockHeader;
  e_tsd : list Z;
  e_vd : list Z;
  e_tss : list Z;
  e_vss : list Z;
}.

(** The position in the data streams between two blocks, with the timestamps
    column that the next block may share. *)
Record pos : Type := mkPos {
  p_ts : Z;
  p_vs : Z;
  p_prev : list Z;
  p_prev_off : Z;
}.

Definition pos0 : pos := mkPos 0 0 [] 0.

Definition shared (p : pos) (e : entry) : bool :=
  negb (length (p_prev p) =? 0)%nat && bool_decide (e_tsd e = p_prev p).

Definition advance (p : pos) (e : entry) : pos :=
  let vs := p_vs p + Z.of_nat (length (e_vd e)) in
  if shared p e then mkPos (p_ts p) vs (p_prev p) (p_prev_off p)
  else mkPos (p_ts p + Z.of_nat (length (e_tsd e))) vs (e_tsd e) (p_ts p).

Definition ts_chunk (p : pos) (e : entry) : list Z := if shared p e then [] else e_tsd e.

Fixpoint ts_bytes (p : pos) (log : list entry) : list Z :=
  match log with
  | [] => []
  | e :: log => ts_chunk p e ++ ts_bytes (advance p e) log
  end.

Definition vs_bytes (log : list entry) : list Z := concat (map e_vd log).

Definition pos_ok (p : pos) : Prop :=
  0 <= p_ts p /\ 0 <= p_vs p /\ 0 <= p_prev_off p /\
  (p_prev p <> [] -> p_prev_off p + Z.of_nat (length (p_prev p)) <= p_ts p).

Section Layout.
  Context {Zs : Zstd} {Zl : ZstdLaws Zs}.

(** A block stored at position [p]. *)
Definition stored (p : pos) (e : entry) : Prop :=
  packs (e_bh e) (e_tsd e) (e_vd e) (e_tss e) (e_vss e) /\
  bh_timestamps_block_offset (e_bh e) = (if shared p e then p_prev_off p else p_ts p) /\
  bh_values_block_offset (e_bh e) = p_vs p.

Fixpoint chain (p : pos) (log : list entry) : Prop :=
  match log with
  | [] => True
  | e :: log => stored p e /\ chain (advance p e) log
  end.

Lemma chain_snoc p log e : chain p (log ++ [e]) <-> chain p log /\ stored (foldl advance p log) e.
Proof. revert p. induction log as [|x log IH]; intros p; cbn; [tauto|]. rewrite IH. tauto. Qed.

Lemma ts_bytes_snoc p log e : ts_bytes p (log ++ [e]) = ts_bytes p log ++ ts_chunk (foldl advance p log) e.
Proof.
  revert p. induction log as [|x log IH]; intros p; cbn [ts_bytes app foldl].
  - by rewrite app_nil_r.
  - by rewrite IH, app_assoc.
Qed.

Lemma vs_bytes_app l1 l2 : vs_bytes (l1 ++ l2) = vs_bytes l1 ++ vs_bytes l2.
Proof. unfold vs_bytes. by rewrite map_app, concat_app. Qed.

Lemma pos_ok_advance p e : pos_ok p -> pos_ok (advance p e).
Proof.
  intros (H1 & H2 & H3 & H4). unfold advance. destruct (shared p e); unfold pos_ok; cbn.
  - split_and!; [lia..|done].
  - split_and!; lia.
Qed.

Lemma pos_ok_foldl log p : pos_ok p -> pos_ok (foldl advance p log).
Proof. revert p. induction log; intros p Hp; cbn; [done|]. by apply IHlog, pos_ok_advance. Qed.

(** The test the reader makes on the offsets recovers the sharing the writer
    decided on the contents. *)
Lemma shared_by_offset p e :
  pos_ok p -> stored p e ->
  negb (length (p_prev p) =? 0)%nat && (bh_timestamps_block_offset (e_bh e) =? p_prev_off p) = shared p e.
Proof.
  intros (_ & _ & _ & Hp) (_ & -> & _). destruct (shared p e) eqn:Hs.
  - unfold shared in Hs. apply andb_true_iff in Hs as [-> _]. by rewrite Z.eqb_refl.
  - destruct (Nat.eqb_spec (length (p_prev p)) 0) as [|Hne]; [done|]. cbn [negb andb].
    apply Z.eqb_neq. assert (p_prev p <> []) as H%Hp by (intros E; by rewrite E in Hne). destruct (p_prev p); cbn in *; lia.
Qed.

Lemma shared_data p e : shared p e = true -> e_tsd e = p_prev p.
Proof. unfold shared. intros [_ H]%andb_true_iff. by apply bool_decide_eq_true in H. Qed.

(** Every stored column is bounded, so the offsets of a part with fewer than
    [2 ^ 32] blocks do not overflow. *)
Lemma advance_bound p e :
  stored p e -> p_ts (advance p e) <= p_ts p + 131072 /\ p_vs (advance p e) <= p_vs p + 131072.
Proof.
  intros ([_ Hv _ _ Ht Hvs _ _ _ _] & _). destruct Hv as (_ & _ & _ & _ & Hb1 & Hb2).
  unfold MAX_BLOCK_SIZE, MAX_ROWS_PER_BLOCK in *. unfold advance. destruct (shared p e); cbn; lia.
Qed.

Lemma chain_bound log : forall p, chain p log ->
  p_ts (foldl advance p log) <= p_ts p + 131072 * Z.of_nat (length log) /\
  p_vs (foldl advance p log) <= p_vs p + 131072 * Z.of_nat (length log).
Proof.
  induction log as [|e log IH]; intros p; cbn [chain foldl length]; [lia|].
  intros [Hs Hc]. specialize (IH _ Hc). pose proof (advance_bound _ _ Hs). lia.
Qed.

(** *** Index blocks *)

Definition headers (log : list entry) : list BlockHeader := map e_bh log.
Definition index_block (lvl : Z) (c : list entry) : list Z :=
  compress_zstd_level [] (marshal_headers (headers c)) lvl.
Definition index_bytes (lvl : Z) (cs : list (list entry)) : list Z := concat (map (index_block lvl) cs).

Definition row_of (lvl off : Z) (c : list entry) : MetaindexRow :=
  mr_set_index_block (register_all (headers c)) off (Z.of_nat (length (index_block lvl c))).

Fixpoint rows_from (lvl off : Z) (cs : list (list entry)) : list MetaindexRow :=
  match cs with
  | [] => []
  | c :: cs => row_of lvl off c :: rows_from lvl (off + Z.of_nat (length (index_block lvl c))) cs
  end.

Lemma rows_from_snoc lvl cs c : forall off,
  rows_from lvl off (cs ++ [c])
  = rows_from lvl off cs ++ [row_of lvl (off + Z.of_nat (length (index_bytes lvl cs))) c].
Proof.
  induction cs as [|x cs IH]; intros off; cbn [app rows_from].
  - cbn. by rewrite Z.add_0_r.
  - rewrite IH. cbn [index_bytes map concat app]. do 3 f_equal. fold (index_bytes lvl cs).
    rewrite length_app. f_equal. lia.
Qed.

Lemma index_bytes_app lvl l1 l2 : index_bytes lvl (l1 ++ l2) = index_bytes lvl l1 ++ index_bytes lvl l2.
Proof. unfold index_bytes. by rewrite map_app, concat_app. Qed.

(** A closed index block: not empty, within the size limit, and its headers
    well formed. *)
Definition chunk_ok (c : list entry) : Prop :=
  c <> [] /\ Z.of_nat (length (marshal_headers (headers c))) <= MAX_BLOCK_SIZE /\
  Forall (fun e => bh_wf (e_bh e) /\ bh_valid (e_bh e)) c.

Lemma marshal_headers_app l1 l2 : marshal_headers (l1 ++ l2) = marshal_headers l1 ++ marshal_headers l2.
Proof. unfold marshal_headers. by rewrite map_app, concat_app. Qed.

Lemma bh_marshal_bytes bh : bh_wf bh -> bytes (bh_marshal bh []).
Proof.
  intros Hwf. rewrite bh_marshal_app. cbn [app]. rewrite !bytes_app.
  split; [apply tsid_marshal_bytes|]. split_and!; try apply bytes_to_be_bytes. by apply bytes_tail3.
Qed.

Lemma marshal_headers_bytes c :
  Forall (fun e => bh_wf (e_bh e) /\ bh_valid (e_bh e)) c -> bytes (marshal_headers (headers c)).
Proof.
  induction 1 as [|e c [He _] _ IH]; [constructor|]. cbn [headers map marshal_headers concat].
  apply bytes_app. split; [by apply bh_marshal_bytes|exact IH].
Qed.

Lemma index_block_size lvl c : chunk_ok c -> 1 <= Z.of_nat (length (index_block lvl c)) <= 65856.
Proof.
  intros (Hne & Hsz & Hwf). pose proof (marshal_headers_bytes _ Hwf) as Hb.
  unfold index_block, compress_zstd_level. cbn [app].
  pose proof (zstd_compress_nonempty lvl _ Hb). pose proof (zstd_compress_bound lvl _ Hb) as Hbd.
  unfold MAX_BLOCK_SIZE, MAX_ROWS_PER_BLOCK in Hsz.
  assert (length (marshal_headers (headers c)) / 256 <= 256)%nat by (apply Nat.Div0.div_le_upper_bound; lia).
  destruct (zstd_compress lvl _); [done|]. cbn [length] in *. lia.
Qed.

Lemma index_bytes_bound lvl cs :
  Forall chunk_ok cs -> Z.of_nat (length (index_bytes lvl cs)) <= 65856 * Z.of_nat (length (concat cs)).
Proof.
  induction 1 as [|c cs Hc _ IH]; [cbn; lia|]. cbn [index_bytes map concat]. rewrite !length_app.
  fold (index_bytes lvl cs). pose proof (index_block_size lvl c Hc). destruct Hc as [Hne _].
  destruct c; [done|]. cbn [length] in *. lia.
Qed.

Lemma length_headers c : length (headers c) = length c.
Proof. apply length_map. Qed.

(** Each header takes 81 bytes, so a block of the index holds few of them. *)
Lemma chunk_count c : chunk_ok c -> Z.of_nat (length c) <= 65536.
Proof.
  intros (_ & Hsz & _). pose proof (length_marshal_headers (headers c)). rewrite length_headers in *.
  unfold MAX_BLOCK_SIZE, MAX_ROWS_PER_BLOCK in Hsz. lia.
Qed.

Lemma row_of_ok lvl off c :
  chunk_ok c -> is_u64 off -> Forall (fun e => tsid_wf (bh_tsid (e_bh e))) c ->
  mr_wf (row_of lvl off c) /\ mr_valid (row_of lvl off c).
Proof.
  intros Hc Hoff Htsid. pose proof (index_block_size lvl c Hc). pose proof (chunk_count c Hc) as Hcnt.
  pose proof Hc as (Hne & _ & Hwf). destruct c as [|e c]; [done|]. cbn [headers map] in *.
  unfold row_of, mr_set_index_block. cbn [headers map]. fold (headers c).
  destruct (register_all_spec (e_bh e) (headers c)) as (H1 & H2 & H3 & H4).
  { cbn [length] in *. rewrite length_headers. lia. }
  rewrite Forall_In in Hwf, Htsid.
  assert (Hm : forall l d, is_i64 d -> Forall is_i64 l -> is_i64 (foldr Z.min d l) /\ is_i64 (foldr Z.max d l)).
  { unfold is_i. induction 2 as [|x l Hx _ IH]; cbn; [done|]. unfold is_i in *. lia. }
  assert (Hmin : Forall is_i64 (map bh_min_timestamp (headers c)) /\ Forall is_i64 (map bh_max_timestamp (headers c))).
  { split; apply Forall_map; apply Forall_map; apply Forall_In; intros x Hx;
      destruct (Hwf x ltac:(by right)) as [(? & ? & ? & _) _]; done. }
  assert (He := proj1 (Hwf e ltac:(by left))). destruct He as (He0 & He1 & He2 & _).
  unfold mr_wf, mr_valid, MAX_BLOCK_SIZE, MAX_ROWS_PER_BLOCK. cbn -[Z.of_nat Z.mul index_block register_all].
  rewrite H1, H2, H3, H4. unfold is_u in *. cbn [length] in *. rewrite length_headers.
  split; split_and!; try done; try lia;
    first [exact (proj1 (Hm _ _ He1 (proj1 Hmin))) | exact (proj2 (Hm _ _ He2 (proj2 Hmin)))].
Qed.
End Layout.

(** ** The writer: lemmas *)

Section WriterLemmas.
  Context {Zs : Zstd} {Zl : ZstdLaws Zs} (lvl : Z).

(** The state of the writer after the blocks of [concat closed ++ cur], the
    last of which are still in the open index block. *)
Definition writer_at (closed : list (list entry)) (cur : list entry) : BlockStreamWriter :=
  let log := concat closed ++ cur in
  let p := foldl advance pos0 log in
  mkWriter lvl (WMem (ts_bytes pos0 log)) (WMem (vs_bytes log)) (WMem (index_bytes lvl closed))
    (WMem []) (register_all (headers cur)) (p_ts p) (p_vs p)
    (Z.of_nat (length (index_bytes lvl closed))) (marshal_headers (headers cur))
    (marshal_rows (rows_from lvl 0 closed)) (p_prev p) (p_prev_off p).

Record layout_ok (closed : list (list entry)) (cur : list entry) : Prop := {
  lo_chain : chain pos0 (concat closed ++ cur);
  lo_closed : Forall chunk_ok closed;
  lo_cur : cur <> [] -> chunk_ok cur;
  lo_size : Z.of_nat (length (concat closed ++ cur)) < 2 ^ 32;
}.

Lemma writer_at_nil : writer_at [] [] = new_inmemory_part lvl.
Proof. done. Qed.

Lemma mr_marshal_dst mr dst : mr_marshal mr dst = dst ++ mr_marshal mr [].
Proof. by rewrite !mr_marshal_app. Qed.

Lemma marshal_rows_snoc rows r : marshal_rows (rows ++ [r]) = marshal_rows rows ++ mr_marshal r [].
Proof. unfold marshal_rows. rewrite map_app, concat_app. cbn [map concat]. by rewrite app_nil_r. Qed.

(** Closing the open index block. *)
Lemma flush_at {E} closed cur :
  layout_ok closed cur -> cur <> [] ->
  flush_index_data (E := E) (writer_at closed cur) = Ok (writer_at (closed ++ [cur]) []).
Proof.
  intros [Hch Hcl Hcur Hsz] Hne. specialize (Hcur Hne). unfold flush_index_data.
  pose proof (index_block_size lvl cur Hcur) as Hib. pose proof (index_bytes_bound lvl closed Hcl) as Hbd.
  rewrite length_app in Hsz. cbn [writer_at w_index_data w_compress_level w_index w_index_block_offset w_mr
    w_timestamps w_values w_metaindex w_timestamps_block_offset w_values_block_offset
    w_metaindex_data w_prev_timestamps_data w_prev_timestamps_block_offset].
  destruct (Nat.eqb_spec (length (marshal_headers (headers cur))) 0) as [He|_].
  { pose proof (length_marshal_headers (headers cur)). rewrite length_headers in *. destruct cur; [done|cbn in *; lia]. }
  fold (index_block lvl cur). pass_assert ltac:(apply Z.ltb_lt; lia). cbn [must_write]. rewrite bind_Ok.
  rewrite (wrap_u_id 32) by (unfold is_u; lia). rewrite wrap_u_id by (unfold is_u; lia).
  unfold writer_at. rewrite concat_app. cbn [concat]. rewrite !app_nil_r, index_bytes_app, rows_from_snoc.
  assert (H1 : index_bytes lvl [cur] = index_block lvl cur) by (unfold index_bytes; cbn [map concat]; apply app_nil_r).
  rewrite marshal_rows_snoc, mr_marshal_dst, H1, length_app, Z.add_0_l, Nat2Z.inj_add. done.
Qed.

Lemma flush_layout closed cur : layout_ok closed cur -> cur <> [] -> layout_ok (closed ++ [cur]) [].
Proof.
  intros [Hch Hcl Hcur Hsz] Hne.
  assert (Hlog : concat (closed ++ [cur]) ++ [] = concat closed ++ cur)
    by (rewrite concat_app; cbn [concat]; by rewrite !app_nil_r).
  split; rewrite ?Hlog; try done. apply Forall_app. split; [done|]. constructor; [by apply Hcur|constructor].
Qed.

(** Adding a stored block to the open index block. *)
Definition add_entry (w : BlockStreamWriter) (p : pos) (e : entry) : BlockStreamWriter :=
  let p' := advance p e in
  mkWriter (w_compress_level w)
    (match w_timestamps w with WMem buf => WMem (buf ++ ts_chunk p e) | WClosed => WClosed end)
    (match w_values w with WMem buf => WMem (buf ++ e_vd e) | WClosed => WClosed end)
    (w_index w) (w_metaindex w) (register_block_header (w_mr w) (e_bh e)) (p_ts p') (p_vs p')
    (w_index_block_offset w) (w_index_data w ++ bh_marshal (e_bh e) []) (w_metaindex_data w)
    (p_prev p') (p_prev_off p').

Lemma add_entry_at closed cur e :
  add_entry (writer_at closed cur) (foldl advance pos0 (concat closed ++ cur)) e
  = writer_at closed (cur ++ [e]).
Proof.
  unfold add_entry, writer_at. cbn [w_compress_level w_timestamps w_values w_index w_metaindex w_mr
    w_index_block_offset w_index_data w_metaindex_data].
  rewrite !app_assoc, foldl_app, ts_bytes_snoc. cbn [foldl].
  unfold headers, register_all, vs_bytes, marshal_headers. rewrite !map_app, !concat_app, foldl_app.
  cbn [map concat foldl]. rewrite !app_nil_r. f_equal; by rewrite !foldl_app.
Qed.

Lemma add_entry_layout closed cur e :
  layout_ok closed cur -> stored (foldl advance pos0 (concat closed ++ cur)) e ->
  Z.of_nat (length (concat closed ++ cur)) + 1 < 2 ^ 32 ->
  Z.of_nat (length (marshal_headers (headers (cur ++ [e])))) <= MAX_BLOCK_SIZE ->
  layout_ok closed (cur ++ [e]).
Proof.
  intros [Hch Hcl Hcur Hsz] Hst Hlt Hmx. split.
  - rewrite app_assoc. by apply chain_snoc.
  - done.
  - intros _. split_and!; [by destruct cur|done|]. apply Forall_app. split.
    + destruct cur as [|x cur]; [constructor|]. by apply Hcur.
    + constructor; [|constructor]. destruct Hst as [[? ? ? ? ? ? ? ? ? ?] _]. done.
  - rewrite app_assoc, length_app. cbn [length]. lia.
Qed.

(** The log entry that stands for a block written. *)
Definition entry_of (b : Block) (e : entry) : Prop :=
  bh_tsid (e_bh e) = bh_tsid (b_bh b) /\ bh_scale (e_bh e) = bh_scale (b_bh b) /\
  bh_precision_bits (e_bh e) = bh_precision_bits (b_bh b) /\
  e_tss e = drop (b_next_idx b) (b_timestamps b) /\ e_vss e = drop (b_next_idx b) (b_values b).

(** The two packing passes of [write_external_block] at position [p]. *)
Lemma pack_at p b :
  pos_ok p -> p_ts p < 2 ^ 64 -> p_vs p < 2 ^ 64 -> unpacked_ok b ->
  exists e b1,
    marshal_data (E := block_error) b (p_ts p) (p_vs p) = Ok b1 /\ b_timestamps_data b1 = e_tsd e /\
    marshal_data (E := block_error) b1 (if shared p e then p_prev_off p else p_ts p) (p_vs p)
    = Ok (mkBlock (e_bh e) 0 [] [] (bh_marshal (e_bh e) []) (e_tsd e) (e_vd e)) /\
    stored p e /\ entry_of b e.
Proof.
  intros Hp Hts Hvs Hb. pose proof Hp as (H1 & H2 & H3 & H4).
  destruct (marshal_data_unpacked (E := block_error) b (p_ts p) (p_vs p) Hb)
    as (bh & tsd & vd & Hm & (F1 & F2 & F3 & _) & Hpk); [unfold is_u; lia..|].
  set (sh := negb (length (p_prev p) =? 0)%nat && bool_decide (tsd = p_prev p)).
  set (to := if sh then p_prev_off p else p_ts p).
  assert (Hto : is_u64 to).
  { subst to. unfold is_u. destruct sh eqn:Hsh; [|lia]. unfold sh in Hsh.
    apply andb_true_iff in Hsh as [Hne _]. apply negb_true_iff, Nat.eqb_neq in Hne.
    assert (p_prev p <> []) as Hpp%H4 by (intros E; by rewrite E in Hne). lia. }
  exists (mkEntry (set_offsets bh to (p_vs p)) tsd vd (drop (b_next_idx b) (b_timestamps b))
            (drop (b_next_idx b) (b_values b))).
  eexists. split; [exact Hm|]. split; [done|]. unfold shared. cbn [e_tsd e_bh e_vd]. fold sh to.
  split; [by eapply marshal_data_packed|]. split; [|done].
  split_and!; [apply packs_set_offsets; [done|unfold is_u; lia|done]|done|done].
Qed.

Definition packed_block (e : entry) : Block :=
  mkBlock (e_bh e) 0 [] [] (bh_marshal (e_bh e) []) (e_tsd e) (e_vd e).

(** What remains of [write_external_block] once the index block has room. *)
Lemma append_entry (w : BlockStreamWriter) (p : pos) (e : entry) (rm : Z) ph tbuf vbuf :
  w_timestamps w = WMem tbuf -> w_values w = WMem vbuf ->
  w_timestamps_block_offset w = p_ts p -> w_values_block_offset w = p_vs p ->
  w_prev_timestamps_data w = p_prev p -> w_prev_timestamps_block_offset w = p_prev_off p ->
  pos_ok p -> p_ts (advance p e) < 2 ^ 64 -> p_vs (advance p e) < 2 ^ 64 ->
  let b := packed_block e in
  ('(timestamps, prev_data, prev_offset, timestamps_offset) ←
    (if shared p e then
       Ok (w_timestamps w, w_prev_timestamps_data w, w_prev_timestamps_block_offset w,
           w_timestamps_block_offset w)
     else
       timestamps ← must_write (w_timestamps w) (b_timestamps_data b);
       Ok (timestamps, b_timestamps_data b, w_timestamps_block_offset w,
           as_u64 (w_timestamps_block_offset w + Z.of_nat (length (b_timestamps_data b)))));
   values ← must_write (w_values w) (b_values_data b);
   Ok (E := block_error) (mkWriter (w_compress_level w) timestamps values (w_index w) (w_metaindex w)
        (register_block_header (w_mr w) (b_bh b)) timestamps_offset
        (as_u64 (w_values_block_offset w + Z.of_nat (length (b_values_data b))))
        (w_index_block_offset w) (w_index_data w ++ b_header_data b) (w_metaindex_data w) prev_data prev_offset,
      b, update_part_header b ph, rm))
  = Ok (add_entry w p e, b, update_part_header b ph, rm).
Proof.
  intros Ht Hv -> -> -> -> Hp Hts Hvs b. pose proof (pos_ok_advance p e Hp) as (P1 & P2 & _).
  pose proof Hp as (Q1 & Q2 & _). unfold add_entry. rewrite Ht, Hv.
  assert (Hvs' : as_u64 (p_vs p + Z.of_nat (length (e_vd e))) = p_vs (advance p e)).
  { rewrite wrap_u_id; unfold is_u, advance in *; destruct (shared p e); cbn in *; lia. }
  unfold b, packed_block. cbn [b_timestamps_data b_values_data b_bh b_header_data must_write].
  rewrite Hvs'. destruct (shared p e) eqn:Hsh; unfold ts_chunk, advance in *; rewrite Hsh in *; cbn in *.
  - by rewrite app_nil_r.
  - by rewrite wrap_u_id by (unfold is_u; lia).
Qed.

Lemma write_step closed cur b ph rm :
  layout_ok closed cur -> unpacked_ok b -> Z.of_nat (length (concat closed ++ cur)) + 1 < 2 ^ 32 ->
  exists e closed' cur',
    write_external_block 0 (writer_at closed cur) b ph rm
    = Ok (writer_at closed' cur', packed_block e, update_part_header (packed_block e) ph,
          as_u64 (rm + pending_rows_count b)) /\
    layout_ok closed' cur' /\ concat closed' ++ cur' = (concat closed ++ cur) ++ [e] /\ entry_of b e.
Proof.
  intros Hlo Hb Hlt. set (log := concat closed ++ cur) in *. set (p := foldl advance pos0 log).
  assert (Hp : pos_ok p) by (apply pos_ok_foldl; unfold pos_ok; cbn; split_and!; (lia || done)).
  pose proof (chain_bound _ _ (lo_chain _ _ Hlo)) as [B1 B2]. fold log p in B1, B2. cbn in B1, B2.
  destruct (pack_at p b Hp) as (e & b1 & Hm1 & Htsd & Hm2 & Hst & Heo); [lia..|done|].
  pose proof (advance_bound _ _ Hst) as [B3 B4].
  assert (Hfl : exists closed' cur', concat closed' ++ cur' = log /\ layout_ok closed' cur' /\
    (if Z.of_nat (length (marshal_headers (headers cur)) + length (bh_marshal (e_bh e) [])) >? MAX_BLOCK_SIZE
     then flush_index_data (writer_at closed cur)
     else Ok (writer_at closed cur)) = Ok (E := block_error) (writer_at closed' cur') /\
    Z.of_nat (length (marshal_headers (headers (cur' ++ [e])))) <= MAX_BLOCK_SIZE).
  { rewrite length_bh_marshal, Z.gtb_ltb. unfold headers.
    destruct (Z.ltb_spec MAX_BLOCK_SIZE (Z.of_nat (length (marshal_headers (map e_bh cur)) + MARSHALED_BLOCK_HEADER_SIZE))) as [Hbig|Hsmall].
    - assert (Hne : cur <> []) by (intros ->; by vm_compute in Hbig).
      exists (closed ++ [cur]), []. rewrite flush_at by done. split_and!; [|by apply flush_layout|done|].
      + rewrite concat_app. cbn [concat]. by rewrite !app_nil_r.
      + cbn [app map]. unfold marshal_headers. cbn [map concat]. rewrite app_nil_r, length_bh_marshal. done.
    - exists closed, cur. split_and!; [done..|]. rewrite map_app, marshal_headers_app, length_app.
      unfold marshal_headers at 2. cbn [map concat]. rewrite app_nil_r, length_bh_marshal. lia. }
  destruct Hfl as (closed' & cur' & Hlog & Hlo' & Hflush & Hroom).
  exists e, closed', (cur' ++ [e]).
  split_and!; [|by apply add_entry_layout; rewrite ?Hlog|by rewrite app_assoc, Hlog|done].
  assert (Hat : foldl advance pos0 (concat closed' ++ cur') = p) by by rewrite Hlog.
  unfold write_external_block. cbn [is_dedup_enabled deduplicate_samples_during_merge Z.gtb Z.compare negb].
  rewrite bind_Ok. cbn [writer_at w_timestamps_block_offset w_values_block_offset w_prev_timestamps_data
    w_prev_timestamps_block_offset w_index_data]. fold log p.
  rewrite Hm1, bind_Ok, Htsd. fold (shared p e). rewrite Hm2, bind_Ok. fold (packed_block e).
  cbn [b_header_data packed_block]. fold (writer_at closed cur).
  etransitivity; [apply bind_eq; exact Hflush|]. cbv beta zeta.
  rewrite <-(add_entry_at closed' cur' e), Hat.
  eapply append_entry; unfold writer_at; cbn; rewrite ?Hlog; try done; lia.
Qed.
End WriterLemmas.

(** *** The part header *)

Definition sum_rows (log : list entry) : Z := foldr Z.add 0 (map (fun e => bh_rows_count (e_bh e)) log).

Definition ph_of (log : list entry) : PartHeader :=
  foldl (fun ph e => update_part_header (packed_block e) ph) PartHeader_default log.

Record ph_covers (ph : PartHeader) (log : list entry) : Prop := {
  pc_rows : ph_rows_count ph = sum_rows log;
  pc_blocks : ph_blocks_count ph = Z.of_nat (length log);
  pc_range : forall e, In e log ->
    ph_min_timestamp ph <= bh_min_timestamp (e_bh e) /\ bh_max_timestamp (e_bh e) <= ph_max_timestamp ph;
}.

Lemma sum_rows_app l1 l2 : sum_rows (l1 ++ l2) = sum_rows l1 + sum_rows l2.
Proof. unfold sum_rows. induction l1; cbn in *; lia. Qed.

Lemma sum_rows_bound log :
  Forall (fun e => bh_valid (e_bh e)) log -> 0 <= sum_rows log <= 16384 * Z.of_nat (length log).
Proof.
  unfold sum_rows. induction 1 as [|e log (Hr & _) _ IH]; cbn [map foldr length]; [lia|].
  unfold MAX_ROWS_PER_BLOCK in Hr. lia.
Qed.

Lemma ph_of_covers log :
  Forall (fun e => bh_valid (e_bh e)) log -> Z.of_nat (length log) < 2 ^ 32 -> ph_covers (ph_of log) log.
Proof.
  induction log as [|e log IH] using rev_ind; intros Hv Hl; [by split|].
  apply Forall_app in Hv as [Hv He]. rewrite length_app in Hl. cbn [length] in Hl.
  destruct IH as [H1 H2 H3]; [done|lia|]. pose proof (sum_rows_bound log Hv).
  assert (Hr : 1 <= bh_rows_count (e_bh e) <= 16384)
    by (inversion He as [|? ? (Hr & _)]; subst; unfold MAX_ROWS_PER_BLOCK in Hr; lia).
  unfold ph_of. rewrite foldl_app. cbn [foldl]. fold (ph_of log). split.
  - rewrite sum_rows_app. cbn. rewrite H1, wrap_u_id; [unfold sum_rows; cbn; lia|unfold is_u; lia].
  - cbn. rewrite H2, length_app, wrap_u_id; [cbn; lia|unfold is_u; lia].
  - intros x [Hx|[<-|[]]]%in_app_iff; cbn; rewrite Z.gtb_ltb;
      repeat match goal with |- context [Z.ltb ?a ?b] => destruct (Z.ltb_spec a b) end;
      try specialize (H3 x Hx); lia.
Qed.

(** ** Writing a list of blocks *)

Section WriteAll.
  Context {Zs : Zstd} {Zl : ZstdLaws Zs}.

(** A client that writes blocks one after the other. *)
Fixpoint write_blocks (dedup_interval : Z) (w : BlockStreamWriter) (bs : list Block) (ph : PartHeader)
    (rows_merged : Z) : res block_error (BlockStreamWriter * PartHeader * Z) :=
  match bs with
  | [] => Ok (w, ph, rows_merged)
  | b :: bs =>
      '(w, _, ph, rows_merged) ← write_external_block dedup_interval w b ph rows_merged;
      write_blocks dedup_interval w bs ph rows_merged
  end.

Lemma write_blocks_at lvl bs : forall closed cur rm,
  layout_ok closed cur -> Forall unpacked_ok bs ->
  Z.of_nat (length (concat closed ++ cur)) + Z.of_nat (length bs) < 2 ^ 32 ->
  exists log closed' cur' rm',
    write_blocks 0 (writer_at lvl closed cur) bs (ph_of (concat closed ++ cur)) rm
    = Ok (writer_at lvl closed' cur', ph_of (concat closed' ++ cur'), rm') /\
    layout_ok closed' cur' /\ concat closed' ++ cur' = (concat closed ++ cur) ++ log /\
    Forall2 entry_of bs log.
Proof.
  induction bs as [|b bs IH]; intros closed cur rm Hlo Hbs Hlen; cbn [write_blocks].
  - exists [], closed, cur, rm. split_and!; [done..|by rewrite app_nil_r|constructor].
  - inversion_clear Hbs as [|? ? Hb Hbs']. cbn [length] in Hlen.
    destruct (write_step lvl closed cur b (ph_of (concat closed ++ cur)) rm)
      as (e & closed1 & cur1 & Hw & Hlo1 & Hlog1 & He); [done..|lia|].
    rewrite Hw, bind_Ok. cbv beta iota.
    assert (Hph : update_part_header (packed_block e) (ph_of (concat closed ++ cur)) = ph_of (concat closed1 ++ cur1)).
    { rewrite Hlog1. unfold ph_of. by rewrite (foldl_app _ (concat closed ++ cur) [e]). }
    rewrite Hph.
    destruct (IH closed1 cur1 (as_u64 (rm + pending_rows_count b)) Hlo1 Hbs')
      as (log & closed' & cur' & rm' & Hr & Hlo' & Hlog' & Hall).
    { rewrite Hlog1, length_app. cbn [length]. lia. }
    exists (e :: log), closed', cur', rm'. split_and!; [done..| |by constructor].
    by rewrite Hlog', Hlog1, <-app_assoc.
Qed.

(** The four buffers of a part with the given index blocks. *)
Lemma must_close_at {E} lvl closed cur :
  layout_ok closed cur -> concat closed ++ cur <> [] ->
  exists cs, Forall chunk_ok cs /\ concat cs = concat closed ++ cur /\
    must_close (E := E) (writer_at lvl closed cur)
    = Ok (ts_bytes pos0 (concat cs), vs_bytes (concat cs), index_bytes lvl cs,
          compress_zstd_level [] (marshal_rows (rows_from lvl 0 cs)) lvl).
Proof.
  intros Hlo Hne.
  assert (Hf : exists cs, Forall chunk_ok cs /\ concat cs = concat closed ++ cur /\
    flush_index_data (E := E) (writer_at lvl closed cur) = Ok (writer_at lvl cs [])).
  { destruct cur as [|e cur].
    - exists closed. rewrite app_nil_r. split_and!; [apply (lo_closed _ _ Hlo)|done|done].
    - exists (closed ++ [e :: cur]). split_and!.
      + pose proof (flush_layout _ _ Hlo ltac:(done)) as Hl. apply (lo_closed _ _ Hl).
      + rewrite concat_app. cbn [concat]. by rewrite app_nil_r.
      + by apply flush_at. }
  destruct Hf as (cs & Hcs & Hcat & Hfl). exists cs. split_and!; [done..|].
  unfold must_close. rewrite Hfl, bind_Ok. unfold writer_at. rewrite app_nil_r. done.
Qed.
End WriteAll.

(** ** The reader: lemmas *)

Lemma must_read_app {E} buf n d rest :
  (n <= length buf)%nat -> drop n buf = d ++ rest ->
  must_read (E := E) (RMem buf n) (length d) = Ok (RMem buf (n + length d), d) /\
  (n + length d <= length buf)%nat /\ drop (n + length d) buf = rest.
Proof.
  intros Hn Hd. pose proof (f_equal length Hd) as Hl. rewrite length_drop, length_app in Hl.
  split_and!; [|lia|by rewrite <-drop_drop, Hd, drop_app_length].
  cbn [must_read]. pass_assert ltac:(apply Nat.leb_le; lia). by rewrite Hd, take_app_length.
Qed.

Lemma foldr_min_ge a d l : a <= d -> Forall (fun x => a <= x) l -> a <= foldr Z.min d l.
Proof. intros Hd. induction 1; cbn; lia. Qed.
Lemma foldr_max_le a d l : d <= a -> Forall (fun x => x <= a) l -> foldr Z.max d l <= a.
Proof. intros Hd. induction 1; cbn; lia. Qed.

Definition stream_at (s : StreamReader) (rest : list Z) : Prop :=
  exists buf n, s = RMem buf n /\ (n <= length buf)%nat /\ drop n buf = rest.

Section ReaderLemmas.
  Context {Zs : Zstd} {Zl : ZstdLaws Zs} (lvl : Z).

(** The reader at position [p], with the blocks [es] left in the loaded index
    block and the index blocks [cs] still to be loaded. *)
Record reading (r : BlockStreamReader) (p : pos) (es : list entry) (cs : list (list entry)) : Prop := {
  rd_err : r_err r = None;
  rd_chain : chain p (es ++ concat cs);
  rd_pos : pos_ok p;
  rd_ts : stream_at (r_timestamps r) (ts_bytes p (es ++ concat cs));
  rd_vs : stream_at (r_values r) (vs_bytes (es ++ concat cs));
  rd_index : stream_at (r_index r) (index_bytes lvl cs);
  rd_mrs : drop (r_mr_idx r) (r_mrs r) = rows_from lvl (r_index_block_offset r) cs;
  rd_cur : forall k, r_cur_mr r = Some k -> exists mr, r_mrs r !! k = Some mr /\
    mr_block_headers_count mr = r_index_block_headers_count r + Z.of_nat (length es);
  rd_data : (r_index_cursor r <= length (r_index_data r))%nat /\
    drop (r_index_cursor r) (r_index_data r) = marshal_headers (headers es);
  rd_off : r_timestamps_block_offset r = p_ts p /\ r_values_block_offset r = p_vs p /\
    r_prev_timestamps_data r = p_prev p /\ r_prev_timestamps_block_offset r = p_prev_off p;
  rd_rows : 0 <= r_rows_count r /\ ph_rows_count (r_ph r) < 2 ^ 64 /\
    r_rows_count r + sum_rows (es ++ concat cs) = ph_rows_count (r_ph r);
  rd_blocks : 0 <= r_blocks_count r /\ ph_blocks_count (r_ph r) < 2 ^ 64 /\
    r_blocks_count r + Z.of_nat (length (es ++ concat cs)) = ph_blocks_count (r_ph r);
  rd_headers : 0 <= r_index_block_headers_count r /\
    r_index_block_headers_count r + Z.of_nat (length es) < 2 ^ 32;
  rd_range : forall e, In e (es ++ concat cs) ->
    ph_min_timestamp (r_ph r) <= bh_min_timestamp (e_bh e) /\
    bh_max_timestamp (e_bh e) <= ph_max_timestamp (r_ph r);
  rd_chunks : Forall chunk_ok cs;
  rd_size : p_ts p + 131072 * Z.of_nat (length (es ++ concat cs)) < 2 ^ 64 /\
    p_vs p + 131072 * Z.of_nat (length (es ++ concat cs)) < 2 ^ 64 /\
    0 <= r_index_block_offset r /\
    r_index_block_offset r + 65856 * Z.of_nat (length (concat cs)) < 2 ^ 64;
}.

Lemma row_of_range a b off c :
  chunk_ok c ->
  (forall e, In e c -> a <= bh_min_timestamp (e_bh e) /\ bh_max_timestamp (e_bh e) <= b) ->
  a <= mr_min_timestamp (row_of lvl off c) /\ mr_max_timestamp (row_of lvl off c) <= b /\
  mr_block_headers_count (row_of lvl off c) = Z.of_nat (length c).
Proof.
  intros Hc Hr. pose proof (chunk_count c Hc) as Hcnt. destruct Hc as [Hne _]. destruct c as [|e c]; [done|].
  destruct (register_all_spec (e_bh e) (headers c)) as (H1 & _ & H3 & H4).
  { cbn [length] in *. rewrite length_headers. lia. }
  unfold row_of, mr_set_index_block. cbn [headers map mr_min_timestamp mr_max_timestamp mr_block_headers_count].
  fold (headers c). rewrite H1, H3, H4. cbn [length]. rewrite length_headers.
  split_and!; [apply foldr_min_ge|apply foldr_max_le|done]; try (apply Hr; by left);
    apply Forall_map, Forall_map, Forall_In; intros x Hx; apply Hr; by right.
Qed.

(** The reader with the index block [c] loaded from the stream [index]. *)
Definition loaded (r : BlockStreamReader) (index : StreamReader) (c : list entry) : BlockStreamReader :=
  mkReader (r_block r) (r_tsid_prev r) (r_ph r) (r_timestamps r) (r_values r) index (r_mrs r)
    (S (r_mr_idx r)) (Some (r_mr_idx r)) (r_rows_count r) (r_blocks_count r)
    (r_index_block_headers_count r) (r_timestamps_block_offset r) (r_values_block_offset r)
    (r_index_block_offset r + Z.of_nat (length (index_block lvl c)))
    (r_prev_timestamps_block_offset r) (r_prev_timestamps_data r) (marshal_headers (headers c)) 0 (r_err r).

Lemma read_index_block_at r c rest :
  r_mrs r !! r_mr_idx r = Some (row_of lvl (r_index_block_offset r) c) -> chunk_ok c ->
  stream_at (r_index r) (index_block lvl c ++ rest) ->
  0 <= r_index_block_offset r -> r_index_block_offset r + 65856 < 2 ^ 64 ->
  (forall e, In e c -> ph_min_timestamp (r_ph r) <= bh_min_timestamp (e_bh e) /\
     bh_max_timestamp (e_bh e) <= ph_max_timestamp (r_ph r)) ->
  exists index, read_index_block r = Ok (loaded r index c) /\ stream_at index rest.
Proof.
  intros Hmr Hc (buf & n & Hbuf & Hn & Hd) Hoff1 Hoff2 Hrng.
  destruct (row_of_range _ _ (r_index_block_offset r) c Hc Hrng) as (Hr1 & Hr2 & _).
  pose proof (index_block_size lvl c Hc) as Hsz.
  destruct (must_read_app (E := bsr_error) buf n _ _ Hn Hd) as (Hread & Hn' & Hd').
  exists (RMem buf (n + length (index_block lvl c))). split; [|by eexists _, _].
  unfold read_index_block. rewrite Hmr. cbn [ok_or]. rewrite bind_Ok.
  pass_guard ltac:(apply negb_false_iff, Z.eqb_eq; done).
  pass_guard ltac:(by apply Z.ltb_ge). pass_guard ltac:(rewrite Z.gtb_ltb; by apply Z.ltb_ge).
  unfold row_of, mr_set_index_block. cbn [mr_index_block_size]. rewrite Nat2Z.id, Hbuf, Hread, bind_Ok.
  cbv beta iota.
  assert (Hdec : decompress_zstd [] (index_block lvl c) = Ok (marshal_headers (headers c)))
    by (apply decompress_compress, marshal_headers_bytes, Hc).
  rewrite Hdec, map_err_Ok, bind_Ok, wrap_u_id by (unfold is_u; lia). done.
Qed.

(** The check of the previous index block: all its headers were read. *)
Lemma prev_count_ok r :
  (forall k, r_cur_mr r = Some k -> exists mr, r_mrs r !! k = Some mr /\
     mr_block_headers_count mr = r_index_block_headers_count r) ->
  (match r_cur_mr r with
   | Some cur => mr ← idx (r_mrs r) cur;
       guard_ (negb (r_index_block_headers_count r =? mr_block_headers_count mr))
         (BsrOther (BadPrevHeadersCount (r_index_block_headers_count r) (mr_block_headers_count mr)))
   | None => Ok tt end) = Ok tt.
Proof.
  intros Hcur. destruct (r_cur_mr r) as [k|]; [|done]. destruct (Hcur k eq_refl) as (m & Hm & Hcount).
  unfold idx. rewrite Hm, bind_Ok. apply guard_ok, negb_false_iff, Z.eqb_eq. done.
Qed.

Definition reset_headers_count (r : BlockStreamReader) : BlockStreamReader :=
  mkReader (r_block r) (r_tsid_prev r) (r_ph r) (r_timestamps r) (r_values r) (r_index r)
    (r_mrs r) (r_mr_idx r) (r_cur_mr r) (r_rows_count r) (r_blocks_count r) 0
    (r_timestamps_block_offset r) (r_values_block_offset r) (r_index_block_offset r)
    (r_prev_timestamps_block_offset r) (r_prev_timestamps_data r) (r_index_data r)
    (r_index_cursor r) (r_err r).

Lemma ensure_exhausted r p cs :
  reading r p [] cs -> ensure_index_data r = read_index_block (reset_headers_count r).
Proof.
  intros Hr. destruct (rd_data _ _ _ _ Hr) as [Hcl Hdata]. unfold ensure_index_data.
  rewrite (proj2 (Nat.ltb_ge _ _)).
  2: { apply (f_equal length) in Hdata. rewrite length_drop in Hdata. cbn in Hdata. lia. }
  rewrite prev_count_ok; [done|]. intros k Hk. destruct (rd_cur _ _ _ _ Hr k Hk) as (mr & Hmr & Hc).
  exists mr. split; [done|]. cbn in Hc. lia.
Qed.

(** Loading the next index block. *)
Lemma load_index r p c cs :
  reading r p [] (c :: cs) ->
  exists r1, ensure_index_data r = Ok r1 /\ reading r1 p c cs /\
    r_tsid_prev r1 = r_tsid_prev r /\ r_ph r1 = r_ph r.
Proof.
  intros Hr. rewrite (ensure_exhausted _ _ _ Hr).
  destruct Hr as [Herr Hch Hpos Hts Hvs Hidx Hmrs Hcur Hdata Hoff Hrows Hblocks Hhdr Hrng Hck Hsz].
  inversion_clear Hck as [|? ? Hc Hcs]. cbn [app concat rows_from] in *. rewrite !length_app in Hsz.
  assert (Hlen : 1 <= Z.of_nat (length c)) by (destruct Hc as [Hne _]; destruct c; [done|cbn; lia]).
  assert (Hrc : forall e, In e c -> ph_min_timestamp (r_ph r) <= bh_min_timestamp (e_bh e) /\
     bh_max_timestamp (e_bh e) <= ph_max_timestamp (r_ph r))
    by (intros e He; apply Hrng, in_app_iff; by left).
  assert (Hnext : r_mrs r !! r_mr_idx r = Some (row_of lvl (r_index_block_offset r) c)).
  { rewrite <-(Nat.add_0_r (r_mr_idx r)), <-lookup_drop, Hmrs. done. }
  destruct (read_index_block_at (reset_headers_count r) c (index_bytes lvl cs)) as (index & Hread & Hs);
    [done..|cbn; lia|cbn; lia|done|].
  pose proof (chunk_count c Hc). pose proof (index_block_size lvl c Hc).
  destruct (row_of_range _ _ (r_index_block_offset r) c Hc Hrc) as (_ & _ & Hcnt).
  eexists. split; [exact Hread|]. split; [|done].
  split; cbn -[Z.of_nat Z.mul Z.pow index_block row_of]; try done; try lia.
  - replace (S (r_mr_idx r)) with (r_mr_idx r + 1)%nat by lia. by rewrite <-drop_drop, Hmrs.
  - intros k [= <-]. eexists. split; [exact Hnext|]. rewrite Hcnt. lia.
  - split; [lia|done].
  - rewrite !length_app. lia.
Qed.

(** *** One block *)

(** [read_block] after the index data is in place. *)
Definition read_body (r : BlockStreamReader) : res bsr_error BlockStreamReader :=
  index_tail ← slice_from (r_index_data r) (r_index_cursor r);
  _ ← guard_ (length index_tail <? MARSHALED_BLOCK_HEADER_SIZE)%nat
        (BsrOther (TooShortIndexData (length index_tail)));
  '(bh, _) ← map_err (fun e => BsrOther (CannotParseHeader e))
               (bh_unmarshal (take MARSHALED_BLOCK_HEADER_SIZE index_tail));
  let blocks_count := as_u64 (r_blocks_count r + 1) in
  let rows_count := as_u64 (r_rows_count r + bh_rows_count bh) in
  let use_prev := negb (length (r_prev_timestamps_data r) =? 0)%nat &&
                  (bh_timestamps_block_offset bh =? r_prev_timestamps_block_offset r) in
  _ ← check_header r bh rows_count blocks_count use_prev;
  '(timestamps, timestamps_data) ← read_timestamps_data r bh use_prev;
  '(values, values_data) ← must_read (r_values r) (Z.to_nat (bh_values_block_size bh));
  block ← map_err (fun e => BsrOther (CannotUnmarshalBlock e))
            (unmarshal_block_data bh timestamps_data values_data);
  Ok (mkReader block (r_tsid_prev r) (r_ph r) timestamps values (r_index r) (r_mrs r) (r_mr_idx r)
        (r_cur_mr r) rows_count blocks_count (as_u32 (r_index_block_headers_count r + 1))
        (if use_prev then r_timestamps_block_offset r
         else as_u64 (r_timestamps_block_offset r + bh_timestamps_block_size bh))
        (as_u64 (r_values_block_offset r + bh_values_block_size bh)) (r_index_block_offset r)
        (if use_prev then r_prev_timestamps_block_offset r else r_timestamps_block_offset r)
        (if use_prev then r_prev_timestamps_data r else timestamps_data)
        (r_index_data r) (r_index_cursor r + MARSHALED_BLOCK_HEADER_SIZE) (r_err r)).

Lemma read_block_split r : read_block r = (r ← ensure_index_data r; read_body r).
Proof. done. Qed.

Lemma stored_in p e log : stored p e /\ chain (advance p e) log ->
  packs (e_bh e) (e_tsd e) (e_vd e) (e_tss e) (e_vss e).
Proof. intros [[H _] _]. done. Qed.

Lemma sum_rows_cons e log : sum_rows (e :: log) = bh_rows_count (e_bh e) + sum_rows log.
Proof. done. Qed.

Lemma chain_valid p log : chain p log -> Forall (fun e => bh_valid (e_bh e)) log.
Proof.
  revert p. induction log as [|e log IH]; intros p; cbn [chain]; [constructor|].
  intros [[Hp _] Hc]. constructor; [apply (pk_valid _ _ _ _ _ Hp)|by eapply IH].
Qed.

Lemma check_header_ok r p e es cs :
  reading r p (e :: es) cs ->
  check_header r (e_bh e) (r_rows_count r + bh_rows_count (e_bh e)) (r_blocks_count r + 1) (shared p e) = Ok tt.
Proof.
  intros Hr. pose proof (rd_chain _ _ _ _ Hr) as Hc. cbn [app chain] in Hc. destruct Hc as [(Hpk & Ho1 & Ho2) Hch].
  destruct (rd_rows _ _ _ _ Hr) as (_ & _ & Hrows). destruct (rd_blocks _ _ _ _ Hr) as (_ & _ & Hblk).
  destruct (rd_range _ _ _ _ Hr e ltac:(by left)) as [Hmin Hmax].
  destruct (rd_off _ _ _ _ Hr) as (Hts & Hvs & Hpd & Hpo).
  cbn [app] in *. rewrite sum_rows_cons in Hrows. cbn [length] in Hblk.
  pose proof (sum_rows_bound _ (chain_valid _ _ Hch)).
  unfold check_header. cbv zeta. pass_guard ltac:(rewrite Z.gtb_ltb; apply Z.ltb_ge; lia).
  pass_guard ltac:(rewrite Z.gtb_ltb; apply Z.ltb_ge; lia). pass_guard ltac:(by apply Z.ltb_ge).
  pass_guard ltac:(rewrite Z.gtb_ltb; by apply Z.ltb_ge).
  etransitivity; [apply bind_eq with (a := tt)|].
  - destruct (shared p e) eqn:Hsh; apply guard_ok, negb_false_iff, Z.eqb_eq.
    + rewrite (pk_tsd_size _ _ _ _ _ Hpk), Hpd. by rewrite (shared_data _ _ Hsh).
    + by rewrite Ho1, Hts.
  - apply guard_ok, negb_false_iff, Z.eqb_eq. by rewrite Ho2, Hvs.
Qed.

Lemma read_timestamps_at r p e es cs :
  reading r p (e :: es) cs ->
  exists s, read_timestamps_data r (e_bh e) (shared p e) = Ok (s, e_tsd e) /\
    stream_at s (ts_bytes (advance p e) (es ++ concat cs)).
Proof.
  intros Hr. pose proof (stored_in _ _ _ (rd_chain _ _ _ _ Hr)) as Hpk.
  destruct (rd_ts _ _ _ _ Hr) as (buf & n & Hbuf & Hn & Hd). cbn [app ts_bytes] in Hd. unfold ts_chunk in Hd.
  unfold read_timestamps_data. destruct (shared p e) eqn:Hsh.
  - exists (r_timestamps r). destruct (rd_off _ _ _ _ Hr) as (_ & _ & -> & _).
    rewrite (shared_data _ _ Hsh). split; [done|]. by exists buf, n.
  - rewrite (pk_tsd_size _ _ _ _ _ Hpk), Nat2Z.id, Hbuf.
    destruct (must_read_app (E := bsr_error) buf n _ _ Hn Hd) as (Hread & Hn' & Hd').
    eexists. split; [exact Hread|]. by eexists _, _.
Qed.

Lemma read_values_at r p e es cs :
  reading r p (e :: es) cs ->
  exists s, must_read (E := bsr_error) (r_values r) (Z.to_nat (bh_values_block_size (e_bh e))) = Ok (s, e_vd e) /\
    stream_at s (vs_bytes (es ++ concat cs)).
Proof.
  intros Hr. pose proof (stored_in _ _ _ (rd_chain _ _ _ _ Hr)) as Hpk.
  destruct (rd_vs _ _ _ _ Hr) as (buf & n & -> & Hn & Hd).
  rewrite (pk_vd_size _ _ _ _ _ Hpk), Nat2Z.id.
  destruct (must_read_app (E := bsr_error) buf n (e_vd e) (vs_bytes (es ++ concat cs)) Hn Hd) as (Hread & Hn' & Hd').
  eexists. split; [exact Hread|]. by eexists _, _.
Qed.
End ReaderLemmas.

Section ReadAll.
  Context {Zs : Zstd} {Zl : ZstdLaws Zs} (lvl : Z).

(** The block the reader holds for a log entry: the decoded columns. *)
Definition block_of (e : entry) (b : Block) : Prop :=
  exists tss' vss', unmarshal_columns (e_bh e) (e_tsd e) (e_vd e) = Ok (tss', vss') /\
    b = mkBlock (e_bh e) 0 tss' vss' [] [] [].

Lemma header_at r p e es cs :
  reading lvl r p (e :: es) cs ->
  exists rest, slice_from (E := bsr_error) (r_index_data r) (r_index_cursor r)
      = Ok (bh_marshal (e_bh e) [] ++ rest) /\ rest = marshal_headers (headers es) /\
    bh_unmarshal (take MARSHALED_BLOCK_HEADER_SIZE (bh_marshal (e_bh e) [] ++ rest)) = Ok (e_bh e, []) /\
    (r_index_cursor r + MARSHALED_BLOCK_HEADER_SIZE <= length (r_index_data r))%nat /\
    drop (r_index_cursor r + MARSHALED_BLOCK_HEADER_SIZE) (r_index_data r) = rest.
Proof.
  intros Hr. destruct (rd_data _ _ _ _ _ Hr) as [Hcl Hd]. cbn [headers map marshal_headers concat] in Hd.
  fold (headers es) in Hd. fold (marshal_headers (headers es)) in Hd.
  pose proof (stored_in _ _ _ (rd_chain _ _ _ _ _ Hr)) as Hpk.
  exists (marshal_headers (headers es)). pose proof (f_equal length Hd) as Hl.
  rewrite length_drop, length_app, length_bh_marshal in Hl. split_and!; [|done| |lia|].
  - unfold slice_from. rewrite decide_True by lia. by rewrite Hd.
  - rewrite take_app_length' by (by rewrite length_bh_marshal). rewrite <-(app_nil_r (bh_marshal (e_bh e) [])).
    apply bh_unmarshal_app; apply Hpk.
  - rewrite <-drop_drop, Hd. apply drop_app_length'. by rewrite length_bh_marshal.
Qed.

Lemma read_body_at r p e es cs :
  reading lvl r p (e :: es) cs ->
  exists r', read_body r = Ok r' /\ block_of e (r_block r') /\ r_tsid_prev r' = r_tsid_prev r /\
    reading lvl r' (advance p e) es cs.
Proof.
  intros Hr. destruct (header_at _ _ _ _ _ Hr) as (rest & Hsl & Hrest & Hum & Hcur & Hdrop).
  destruct (read_timestamps_at _ _ _ _ _ _ Hr) as (st & Hst & Hts').
  destruct (read_values_at _ _ _ _ _ _ Hr) as (sv & Hsv & Hvs').
  pose proof (check_header_ok _ _ _ _ _ _ Hr) as Hck.
  pose proof (rd_chain _ _ _ _ _ Hr) as Hc. cbn [app chain] in Hc. destruct Hc as [Hstored Hch].
  pose proof (shared_by_offset _ _ (rd_pos _ _ _ _ _ Hr) Hstored) as Hsh.
  pose proof Hstored as (Hpk & Ho1 & Ho2).
  destruct (unmarshal_data_packed (e_bh e) [] _ _ _ _ Hpk) as (tss' & vss' & Hcol & _ & Hub & _).
  pose proof (sum_rows_bound _ (chain_valid _ _ Hch)) as Hsum.
  assert (Hrc : 1 <= bh_rows_count (e_bh e)) by (pose proof (pk_valid _ _ _ _ _ Hpk) as [? _]; lia).
  destruct Hr as [Herr Hch0 Hpos Hts Hvs Hidx Hmrs Hcurr Hdata (O1 & O2 & O3 & O4) (R1 & R2 & R3) (B1 & B2 & B3)
    (I1 & I2) Hrng Hcks (S1 & S2 & S3 & S4)].
  cbn [app length] in *. rewrite sum_rows_cons in R3.
  pose proof (advance_bound _ _ Hstored) as [A1 A2]. pose proof (pos_ok_advance p e Hpos) as Hpos'.
  assert (Hoff : (if shared p e then r_timestamps_block_offset r
       else as_u64 (r_timestamps_block_offset r + bh_timestamps_block_size (e_bh e))) = p_ts (advance p e) /\
    as_u64 (r_values_block_offset r + bh_values_block_size (e_bh e)) = p_vs (advance p e) /\
    (if shared p e then r_prev_timestamps_data r else e_tsd e) = p_prev (advance p e) /\
    (if shared p e then r_prev_timestamps_block_offset r else r_timestamps_block_offset r) = p_prev_off (advance p e)).
  { rewrite O1, O2, O3, O4, (pk_tsd_size _ _ _ _ _ Hpk), (pk_vd_size _ _ _ _ _ Hpk).
    destruct Hpos' as (P1 & P2 & _). destruct Hpos as (Q1 & Q2 & _).
    unfold advance in *. destruct (shared p e); cbn in *; rewrite ?wrap_u_id by (unfold is_u; lia); done. }
  destruct Hoff as (F1 & F2 & F3 & F4).
  eexists. split.
  { unfold read_body. rewrite Hsl, bind_Ok.
    pass_guard ltac:(apply Nat.ltb_ge; rewrite length_app, length_bh_marshal; lia).
    rewrite Hum, map_err_Ok, bind_Ok. cbv beta iota zeta.
    rewrite (wrap_u_id 64 (r_blocks_count r + 1)) by (unfold is_u; lia).
    rewrite (wrap_u_id 64 (r_rows_count r + _)) by (unfold is_u; lia).
    rewrite O3, O4, Hsh, Hck, bind_Ok, Hst, bind_Ok. cbv beta iota.
    rewrite Hsv, bind_Ok. cbv beta iota. rewrite Hub, map_err_Ok, bind_Ok. reflexivity. }
  rewrite (wrap_u_id 32) by (unfold is_u; lia). rewrite <-O3, <-O4, F1, F2, F3, F4.
  split; [by exists tss', vss'|]. split; [done|].
  split; cbn -[Z.of_nat Z.mul Z.pow]; try done; try lia.
  - intros k Hk. destruct (Hcurr k Hk) as (mr & Hmr & Hcnt). exists mr. split; [done|lia].
  - by rewrite <-Hrest.
  - intros x Hx. apply Hrng. by right.
Qed.

(** The series identifiers of the remaining blocks, after the current one. *)
Definition tsids_sorted (t : Tsid) (log : list entry) : Prop :=
  StronglySorted (fun a b => tsid_le a b) (t :: map (fun e => bh_tsid (e_bh e)) log).

Lemma reading_begin r p es cs : reading lvl r p es cs -> reading lvl (begin_next r) p es cs.
Proof. intros [? ? ? ? ? ? ? ? ? ? ? ? ? ? ? ?]. by split. Qed.

Lemma next_block_at {E} r p e log es cs :
  reading lvl r p es cs -> es ++ concat cs = e :: log ->
  tsids_sorted (bh_tsid (b_bh (r_block r))) (e :: log) ->
  exists r' es' cs', next_block (E := E) r = Ok (true, r') /\ block_of e (r_block r') /\
    reading lvl r' (advance p e) es' cs' /\ es' ++ concat cs' = log /\
    tsids_sorted (bh_tsid (b_bh (r_block r'))) log.
Proof.
  intros Hr Hlog Hsort. unfold next_block. rewrite (rd_err _ _ _ _ _ Hr).
  apply reading_begin in Hr as Hb.
  assert (Hload : exists r1 es' cs', ensure_index_data (begin_next r) = Ok r1 /\
    reading lvl r1 p (e :: es') cs' /\ es' ++ concat cs' = log /\
    r_tsid_prev r1 = bh_tsid (b_bh (r_block r))).
  { destruct es as [|e' es].
    - destruct cs as [|c cs]; [done|]. destruct (load_index _ _ _ _ _ Hb) as (r1 & H1 & H2 & H3 & _).
      assert (Hc : chunk_ok c) by (pose proof (rd_chunks _ _ _ _ _ Hb) as Hc; by inversion Hc).
      destruct c as [|e' c]; [by destruct Hc|]. cbn [app concat] in Hlog. injection Hlog as -> Hlog.
      by exists r1, c, cs.
    - injection Hlog as -> Hlog. exists (begin_next r), es, cs. split_and!; [|done..].
      unfold ensure_index_data. rewrite (proj2 (Nat.ltb_lt _ _)); [done|].
      destruct (header_at _ _ _ _ _ Hb) as (_ & _ & _ & _ & Hc & _). unfold MARSHALED_BLOCK_HEADER_SIZE in Hc. lia. }
  destruct Hload as (r1 & es' & cs' & Hens & Hr1 & Hcat & Htp).
  destruct (read_body_at _ _ _ _ _ Hr1) as (r' & Hbody & Hblk & Htp' & Hr').
  rewrite read_block_split, Hens, bind_Ok, Hbody, Htp', Htp.
  assert (Htsid : bh_tsid (b_bh (r_block r')) = bh_tsid (e_bh e)) by (destruct Hblk as (? & ? & _ & ->); done).
  apply StronglySorted_cons in Hsort as [Hle Hsort]. inversion_clear Hle as [|? ? Hle1 _].
  rewrite Htsid, tsid_less_le. destruct (tsid_le _ (bh_tsid (e_bh e))); [|done].
  exists r', es', cs'. split_and!; try done. unfold tsids_sorted. by rewrite Htsid.
Qed.

(** A client that reads until [next_block] answers false. *)
Fixpoint read_blocks {E} (fuel : nat) (r : BlockStreamReader) : res E (list Block * BlockStreamReader) :=
  match fuel with
  | O => Panic
  | S fuel =>
      '(more, r) ← next_block r;
      if more : bool then
        '(bs, r') ← read_blocks fuel r;
        Ok (r_block r :: bs, r')
      else Ok ([], r)
  end.

Lemma next_block_end {E} r p :
  reading lvl r p [] [] -> next_block (E := E) r = Ok (false, set_err (begin_next r) (Some BsrEof)).
Proof.
  intros Hr. unfold next_block. rewrite (rd_err _ _ _ _ _ Hr). apply reading_begin in Hr as Hb.
  rewrite read_block_split, (ensure_exhausted _ _ _ _ Hb). unfold read_index_block.
  pose proof (rd_mrs _ _ _ _ _ Hb) as Hm. cbn [rows_from] in Hm.
  cbn [reset_headers_count r_mrs r_mr_idx]. destruct (_ !! _) eqn:Hl; [|done].
  apply (f_equal (fun l => l !! 0%nat)) in Hm. rewrite lookup_drop, Nat.add_0_r, Hl in Hm. done.
Qed.

Lemma read_blocks_at {E} log : forall fuel r p es cs,
  reading lvl r p es cs -> es ++ concat cs = log -> (length log < fuel)%nat ->
  tsids_sorted (bh_tsid (b_bh (r_block r))) log ->
  exists bs r', read_blocks (E := E) fuel r = Ok (bs, r') /\ Forall2 block_of log bs /\ reader_error r' = None.
Proof.
  induction log as [|e log IH]; intros fuel r p es cs Hr Hlog Hf Hs; (destruct fuel as [|fuel]; [lia|]);
    cbn [read_blocks].
  - apply app_eq_nil in Hlog as [-> Hcs]. assert (cs = []) as ->.
    { pose proof (rd_chunks _ _ _ _ _ Hr) as Hc. destruct Hc as [|c cs [Hne _] _]; [done|].
      by destruct c. }
    rewrite (next_block_end _ _ Hr), bind_Ok. eexists _, _. split; [done|]. split; [constructor|done].
  - destruct (next_block_at (E := E) r p e log es cs Hr Hlog Hs) as (r1 & es1 & cs1 & Hn & Hb & Hr1 & Hl1 & Hs1).
    rewrite Hn, bind_Ok. cbv beta iota.
    destruct (IH fuel r1 _ es1 cs1 Hr1 Hl1) as (bs & r' & Hrd & Hall & He); [cbn in Hf; lia|done|].
    rewrite Hrd, bind_Ok. eexists _, _. split; [done|]. split; [by constructor|done].
Qed.
End ReadAll.

(** ** Writing a part and reading it back *)

Section PartRoundtrip.
  Context {Zs : Zstd} {Zl : ZstdLaws Zs} (lvl : Z).

Definition tsid_of (e : entry) : Tsid := bh_tsid (e_bh e).

Lemma row_of_tsid off e c : mr_tsid (row_of lvl off (e :: c)) = tsid_of e \/ 2 ^ 32 <= Z.of_nat (length (e :: c)).
Proof.
  destruct (decide (Z.of_nat (length (e :: c)) < 2 ^ 32)) as [Hl|]; [left|right; lia].
  destruct (register_all_spec (e_bh e) (headers c)) as (_ & H2 & _); [|exact H2].
  cbn [length] in *. by rewrite length_headers.
Qed.

Lemma rows_from_ge t cs : forall off,
  Forall chunk_ok cs -> Forall (fun e => tsid_le t (tsid_of e)) (concat cs) ->
  Forall (fun mr => tsid_le t (mr_tsid mr)) (rows_from lvl off cs).
Proof.
  induction cs as [|c cs IH]; intros off Hc Hle; cbn [rows_from]; [constructor|].
  inversion_clear Hc as [|? ? Hc1 Hcs]. cbn [concat] in Hle. apply Forall_app in Hle as [Hle1 Hle2].
  constructor; [|by apply IH]. pose proof (chunk_count c Hc1). destruct Hc1 as [Hne _].
  destruct c as [|e c]; [done|]. inversion Hle1; subst. destruct (row_of_tsid off e c) as [->|]; [done|lia].
Qed.

Lemma rows_from_sorted cs : forall off,
  Forall chunk_ok cs -> StronglySorted (fun a b => tsid_le a b) (map tsid_of (concat cs)) ->
  sorted_rows (rows_from lvl off cs).
Proof.
  unfold sorted_rows. induction cs as [|c cs IH]; intros off Hc Hs; cbn [rows_from]; [constructor|].
  inversion_clear Hc as [|? ? Hc1 Hcs]. cbn [concat] in Hs. rewrite map_app in Hs.
  apply StronglySorted_app in Hs as (H1 & _ & H2).
  apply StronglySorted_cons. split; [|by apply IH]. apply rows_from_ge; [done|].
  pose proof (chunk_count c Hc1). destruct Hc1 as [Hne _]. destruct c as [|e c]; [done|].
  destruct (row_of_tsid off e c) as [->|]; [|lia]. apply Forall_In. intros x Hx.
  apply H1; apply list_elem_of_In; [by left|by apply in_map].
Qed.

Lemma rows_from_ok cs : forall off,
  Forall chunk_ok cs -> 0 <= off -> off + 65856 * Z.of_nat (length (concat cs)) < 2 ^ 64 ->
  Forall mr_wf (rows_from lvl off cs) /\ Forall mr_valid (rows_from lvl off cs).
Proof.
  induction cs as [|c cs IH]; intros off Hc Hoff Hb; cbn [rows_from]; [by split; constructor|].
  inversion_clear Hc as [|? ? Hc1 Hcs]. cbn [concat] in Hb. rewrite length_app in Hb.
  pose proof (index_block_size lvl c Hc1) as Hsz.
  assert (1 <= Z.of_nat (length c)) by (destruct Hc1 as [Hne _]; destruct c; [done|cbn; lia]).
  destruct (IH (off + Z.of_nat (length (index_block lvl c))) Hcs) as [Hw Hv]; [lia|lia|].
  destruct (row_of_ok lvl off c Hc1) as [Hw1 Hv1]; [unfold is_u; lia| |by split; constructor].
  destruct Hc1 as (_ & _ & Hwf). eapply Forall_weaken; [|exact Hwf]. intros e [(? & _) _]. done.
Qed.

Lemma reader_starts {E} cs :
  chain pos0 (concat cs) -> Forall chunk_ok cs -> cs <> [] -> Z.of_nat (length (concat cs)) < 2 ^ 32 ->
  StronglySorted (fun a b => tsid_le a b) (map tsid_of (concat cs)) ->
  exists r, from_inmemory_part (E := E) (ph_of (concat cs)) (ts_bytes pos0 (concat cs)) (vs_bytes (concat cs))
      (index_bytes lvl cs) (compress_zstd_level [] (marshal_rows (rows_from lvl 0 cs)) lvl) = Ok r /\
    reading lvl r pos0 [] cs /\ r_block r = Block_default.
Proof.
  intros Hch Hcs Hne Hlen Hs.
  destruct (rows_from_ok cs 0 Hcs) as [Hw Hv]; [lia..|].
  assert (Hrows : unmarshal_metaindex_rows (compress_zstd_level [] (marshal_rows (rows_from lvl 0 cs)) lvl)
    = Ok (rows_from lvl 0 cs)).
  { eapply metaindex_decode_inv; [apply decompress_compress, marshal_rows_bytes|apply marshal_rows_bytes|].
    split_and!; [done|by destruct cs|done|done|by apply rows_from_sorted]. }
  pose proof (chain_valid _ _ Hch) as Hvalid. destruct (ph_of_covers _ Hvalid Hlen) as [P1 P2 P3].
  pose proof (sum_rows_bound _ Hvalid).
  eexists. split; [unfold from_inmemory_part; rewrite Hrows, bind_Ok; reflexivity|]. split; [|done].
  split; cbn -[Z.of_nat Z.mul Z.pow ph_of]; try done; try lia.
  1-3: (eexists _, _; split; [reflexivity|split; [cbn; lia|done]]).
  fold (sum_rows (concat cs)). lia.
Qed.

(** The block read back for a block written. *)
Definition same_rows (b b' : Block) : Prop :=
  bh_tsid (b_bh b') = bh_tsid (b_bh b) /\ bh_scale (b_bh b') = bh_scale (b_bh b) /\
  bh_precision_bits (b_bh b') = bh_precision_bits (b_bh b) /\ b_next_idx b' = 0%nat /\
  let tss := drop (b_next_idx b) (b_timestamps b) in
  let vss := drop (b_next_idx b) (b_values b) in
  length (b_timestamps b') = length tss /\ length (b_values b') = length vss /\
  sortedZ (b_timestamps b') /\ head (b_timestamps b') = head tss /\ last (b_timestamps b') = last tss /\
  (bh_precision_bits (b_bh b) = 64 -> b_timestamps b' = tss /\ b_values b' = vss).

Lemma same_rows_intro p b e b' : stored p e -> entry_of b e -> block_of e b' -> same_rows b b'.
Proof.
  intros (Hpk & _) (F1 & F2 & F3 & F4 & F5) (tss' & vss' & Hcol & ->).
  destruct (pk_decode _ _ _ _ _ Hpk) as (t & v & Hd & Heq & Hl1 & Hl2 & Hh & Hla & Hs & _).
  rewrite Hcol in Hd. injection Hd as <- <-. unfold same_rows. cbn -[drop].
  rewrite <-F1, <-F2, <-F3, <-F4, <-F5. split_and!; done.
Qed.

Lemma same_rows_all p log bs bs' :
  chain p log -> Forall2 entry_of bs log -> Forall2 block_of log bs' -> Forall2 same_rows bs bs'.
Proof.
  intros Hch Hbs. revert p bs' Hch. induction Hbs as [|b e bs log Hbe _ IH]; intros p bs' Hch Hb';
    inversion Hb'; subst; [constructor|]. destruct Hch as [Hst Hch].
  constructor; [by eapply same_rows_intro|by eapply IH].
Qed.

Definition blocks_sorted (bs : list Block) : Prop :=
  StronglySorted (fun a b => tsid_le (bh_tsid (b_bh a)) (bh_tsid (b_bh b))) bs.

Lemma log_sorted bs log :
  Forall2 entry_of bs log -> blocks_sorted bs ->
  StronglySorted (fun a b => tsid_le a b) (map tsid_of log).
Proof.
  unfold blocks_sorted. induction 1 as [|b e bs log Hbe Hall IH]; intros Hs; cbn [map]; [constructor|].
  apply StronglySorted_cons in Hs as [Hle Hs]. apply StronglySorted_cons. split; [|by apply IH].
  clear IH Hs. induction Hall as [|b' e' bs log Hbe' _ IH]; cbn; [constructor|].
  inversion_clear Hle as [|? ? Hle1 Hle2]. constructor; [|by apply IH].
  destruct Hbe as [H1 _], Hbe' as [H2 _]. unfold tsid_of. by rewrite H1, H2.
Qed.

Lemma tsid_default_le t : tsid_wf t -> tsid_le Tsid_default t.
Proof.
  intros (H1 & H2 & H3 & H4). unfold is_u in *. unfold tsid_le, lex_leb, tsid_key.
  cbn [lex_compare Tsid_default metric_group_id job_id instance_id metric_id].
  repeat match goal with |- context [0 ?= ?x] => destruct (Z.compare_spec 0 x) end; done || lia.
Qed.
(** A part written from [bs] opens, positioned before its first block. *)
Lemma part_opens {E1 E2} bs :
  bs <> [] -> Z.of_nat (length bs) < 2 ^ 32 -> Forall unpacked_ok bs -> blocks_sorted bs ->
  exists w ph rm t v i m r cs,
    write_blocks 0 (new_inmemory_part lvl) bs PartHeader_default 0 = Ok (w, ph, rm) /\
    must_close (E := E1) w = Ok (t, v, i, m) /\
    from_inmemory_part (E := E2) ph t v i m = Ok r /\
    reading lvl r pos0 [] cs /\ Forall2 entry_of bs (concat cs) /\ chain pos0 (concat cs) /\
    tsids_sorted (bh_tsid (b_bh (r_block r))) (concat cs) /\
    ph_blocks_count ph = Z.of_nat (length bs).
Proof.
  intros Hne Hlen Hok Hs.
  destruct (write_blocks_at lvl bs [] [] 0) as (log & closed & cur & rm & Hw & Hlo & Hlog & Hall);
    [split; try done; constructor|done|cbn; lia|]. cbn [concat app] in Hlog.
  rewrite Hlog in Hw. pose proof (Forall2_length _ _ _ Hall) as Hl.
  assert (Hlne : log <> []) by (destruct bs, log; done).
  destruct (must_close_at (E := E1) lvl closed cur Hlo) as (cs & Hcs & Hcat & Hclose); [by rewrite Hlog|].
  rewrite Hlog in Hcat. rewrite Hcat in Hclose. pose proof (lo_chain _ _ Hlo) as Hch. rewrite Hlog in Hch.
  pose proof (log_sorted _ _ Hall Hs) as Hsort. rewrite <-Hcat in Hsort, Hch.
  destruct (reader_starts (E := E2) cs Hch Hcs) as (r & Hr & Hrd & Hblk);
    [by intros -> | rewrite Hcat; lia|done|]. rewrite Hcat in Hr.
  eexists _, _, _, _, _, _, _, r, cs. split_and!; [exact Hw|exact Hclose|exact Hr|done|by rewrite Hcat|done| |].
  - unfold tsids_sorted. rewrite Hblk. apply StronglySorted_cons. split; [|exact Hsort].
    apply Forall_map. rewrite Hcat. clear - Hall Hok. revert Hok.
    induction Hall as [|b e bs log [H1 _] _ IH]; intros Hok; [constructor|]. inversion_clear Hok as [|? ? Hb Hbs].
    constructor; [|by apply IH]. rewrite H1. apply tsid_default_le, Hb.
  - rewrite Hcat in Hch. destruct (ph_of_covers log) as [_ -> _]; [by eapply chain_valid|lia|]. by rewrite Hl.
Qed.
End PartRoundtrip.

(** C13: a part is a faithful container.  Writing a non-empty list of fewer than
    2^32 well-formed blocks that are sorted by series, with deduplication off
    (interval 0), to a part and reading the part back succeeds, passes every
    consistency check of the reader, ends without an error, and yields the blocks
    in order with the same series, scale, precision, number of rows and time
    range, and with exactly the same rows for blocks that keep all 64 precision
    bits, whether or not neighbouring blocks share their timestamps column; the
    part header counts the blocks. *)
Theorem part_roundtrip `{Zl : ZstdLaws} (lvl : Z) (bs : list Block)
    (Hne : bs <> []) (Hlen : Z.of_nat (length bs) < 2 ^ 32) (Hok : Forall unpacked_ok bs)
    (Hs : blocks_sorted bs) :
  exists w ph rm t v i m r bs' r',
    write_blocks 0 (new_inmemory_part lvl) bs PartHeader_default 0 = Ok (w, ph, rm) /\
    must_close (E := block_error) w = Ok (t, v, i, m) /\
    from_inmemory_part (E := block_error) ph t v i m = Ok r /\
    read_blocks (E := block_error) (S (length bs)) r = Ok (bs', r') /\
    reader_error r' = None /\
    Forall2 same_rows bs bs' /\
    ph_blocks_count ph = Z.of_nat (length bs).
Proof.
  destruct (part_opens (E1 := block_error) (E2 := block_error) lvl bs Hne Hlen Hok Hs)
    as (w & ph & rm & t & v & i & m & r & cs & Hw & Hc & Hr & Hrd & Hall & Hch & Hts & Hcnt).
  pose proof (Forall2_length _ _ _ Hall) as Hl.
  destruct (read_blocks_at (E := block_error) lvl (concat cs) (S (length bs)) r pos0 [] cs Hrd eq_refl)
    as (bs' & r' & Hread & Hall' & Herr); [lia|done|].
  exists w, ph, rm, t, v, i, m, r, bs', r'. split_and!; try done. by eapply same_rows_all.
Qed.

Section Witness.
Local Existing Instances stored_zstd stored_zstd_laws.

Lemma part_roundtrip_witness :
  exists w ph rm t v i m r bs' r',
    write_blocks 0 (new_inmemory_part 3) [sample_block 64; sample_block 64] PartHeader_default 0 = Ok (w, ph, rm) /\
    must_close (E := block_error) w = Ok (t, v, i, m) /\
    from_inmemory_part (E := block_error) ph t v i m = Ok r /\
    read_blocks (E := block_error) 3 r = Ok (bs', r') /\
    reader_error r' = None /\
    Forall2 same_rows [sample_block 64; sample_block 64] bs' /\
    ph_blocks_count ph = 2.
Proof.
  apply (part_roundtrip 3 [sample_block 64; sample_block 64]);
    [done|cbn; lia|repeat constructor; apply sample_block_ok|unfold blocks_sorted; repeat constructor].
Defined.

(** The second of two blocks with equal timestamps stores no timestamps. *)
Example shared_timestamps :
  match write_blocks 0 (new_inmemory_part 3) [sample_block 64; sample_block 64] PartHeader_default 0 with
  | Ok (w, _, _) =>
      match w_timestamps w with
      | WMem buf => Z.of_nat (length buf) = w_timestamps_block_offset w /\
                    buf = w_prev_timestamps_data w /\ w_prev_timestamps_block_offset w = 0
      | WClosed => False
      end
  | _ => False
  end.
Proof. by vm_compute. Qed.
End Witness.
