(* ===== verification/BlockMerge.v ===== *)
(** * Merging the rows of two blocks

    Model of the second half of [esm-storage/src/block_stream/merger.rs]: the
    merge of the rows of two blocks of one series, with the retention and the
    calibration of their scales. *)
From Stdlib Require Import ZArith Lia Bool Sorted Permutation.
From S2P Require Import Prelude IntCodec NearestDelta Float64 Compress ArrayCodec Tsid BlockHeader Decimal Dedup Block BlockStream.
Local Open Scope Z_scope.

(** ** Merging the rows of two blocks *)

(** [n] calls of [next_row]. *)
Definition next_rows (n : nat) (b : Block) : Block := Nat.iter n (fun b => (block_next_row b).2) b.

Section MergeBlocks.
  Context {E : Type}.

(** [while ib.next_row() {}]. *)
Fixpoint consume_rows (fuel : nat) (b : Block) : Block :=
  match fuel with
  | O => b
  | S fuel => let '(more, b) := block_next_row b in if more then consume_rows fuel b else b
  end.

(** [ob] and [ib] after the call. *)
Definition append_rows (ob ib : Block) : res E (Block * Block) :=
  timestamps ← block_timestamps ib;
  values ← block_values ib;
  Ok (mkBlock (b_bh ob) (b_next_idx ob) (b_timestamps ob ++ timestamps) (b_values ob ++ values)
        (b_header_data ob) (b_timestamps_data ob) (b_values_data ob),
      consume_rows (length (b_values ib)) ib).

(** The [while] loop of [skip_samples_outside_retention]: the block and the
    number of rows skipped. *)
Fixpoint skip_rows (fuel : nat) (b : Block) (retention_deadline n : Z) : res E (Block * Z) :=
  timestamps ← block_timestamps b;
  match timestamps, fuel with
  | ts :: _, S fuel =>
      if ts <? retention_deadline
      then skip_rows fuel (block_next_row b).2 retention_deadline (as_u64 (n + 1))
      else Ok (b, n)
  | ts :: _, O => if ts <? retention_deadline then Panic else Ok (b, n)
  | [], _ => Ok (b, n)
  end.

Definition skip_samples_outside_retention (b : Block) (retention_deadline rows_deleted : Z)
    : res E (Block * Z) :=
  if retention_deadline <=? bh_min_timestamp (b_bh b) then Ok (b, rows_deleted)
  else
    '(b, n) ← skip_rows (length (b_timestamps b)) b retention_deadline 0;
    Ok (b, as_u64 (rows_deleted + n)).

(** [partition_point(|&ts| ts <= bound)] of a sorted slice: the length of the
    prefix that satisfies the predicate. *)
Fixpoint partition_point (bound : Z) (l : list Z) : nat :=
  match l with
  | ts :: l => if ts <=? bound then S (partition_point bound l) else 0
  | [] => 0
  end.

(** The final [loop] of [merge_blocks]; the blocks swap roles in every round. *)
Fixpoint merge_loop (fuel : nat) (ob ib1 ib2 : Block) : res E Block :=
  match fuel with
  | O => Panic
  | S fuel =>
      timestamps2 ← block_timestamps ib2;
      ts2 ← idx timestamps2 0;
      timestamps1 ← block_timestamps ib1;
      values1 ← block_values ib1;
      let n := partition_point ts2 timestamps1 in
      _ ← assert_ (n <=? length values1)%nat;
      let ob := mkBlock (b_bh ob) (b_next_idx ob) (b_timestamps ob ++ take n timestamps1)
                  (b_values ob ++ take n values1) (b_header_data ob) (b_timestamps_data ob)
                  (b_values_data ob) in
      let ib1 := next_rows n ib1 in
      timestamps1 ← block_timestamps ib1;
      match timestamps1 with
      | [] => '(ob, _) ← append_rows ob ib2; Ok ob
      | _ :: _ => merge_loop fuel ob ib2 ib1
      end
  end.

(** The output block and the counter of deleted rows; the input blocks end up
    consumed and are reset before they are used again. *)
Definition merge_blocks (ob ib1 ib2 : Block) (retention_deadline rows_deleted : Z)
    : res E (Block * Z) :=
  _ ← assert_mergeable ib1 ib2;
  _ ← assert_unmarshaled ib1;
  _ ← assert_unmarshaled ib2;
  '(ib1, rows_deleted) ← skip_samples_outside_retention ib1 retention_deadline rows_deleted;
  '(ib2, rows_deleted) ← skip_samples_outside_retention ib2 retention_deadline rows_deleted;
  if bh_max_timestamp (b_bh ib1) <? bh_min_timestamp (b_bh ib2) then
    '(ob, _) ← append_rows ob ib1;
    '(ob, _) ← append_rows ob ib2;
    Ok (ob, rows_deleted)
  else if bh_max_timestamp (b_bh ib2) <? bh_min_timestamp (b_bh ib1) then
    '(ob, _) ← append_rows ob ib2;
    '(ob, _) ← append_rows ob ib1;
    Ok (ob, rows_deleted)
  else
    timestamps1 ← block_timestamps ib1;
    timestamps2 ← block_timestamps ib2;
    match timestamps1, timestamps2 with
    | [], _ => '(ob, _) ← append_rows ob ib2; Ok (ob, rows_deleted)
    | _, [] => '(ob, _) ← append_rows ob ib1; Ok (ob, rows_deleted)
    | _, _ =>
        ob ← merge_loop (2 + length timestamps1 + length timestamps2) ob ib1 ib2;
        Ok (ob, rows_deleted)
    end.
End MergeBlocks.

Definition set_scale (bh : BlockHeader) (scale : Z) : BlockHeader :=
  mkBlockHeader (bh_tsid bh) (bh_min_timestamp bh) (bh_max_timestamp bh) (bh_first_value bh)
    (bh_timestamps_block_offset bh) (bh_values_block_offset bh) (bh_timestamps_block_size bh)
    (bh_values_block_size bh) (bh_rows_count bh) scale (bh_timestamps_marshal_type bh)
    (bh_values_marshal_type bh) (bh_precision_bits bh).

Section Calibrate.
  Context {Zs : Zstd}.

(** Both blocks after the call. *)
Definition unmarshal_and_calibrate_scale (b1 b2 : Block) : res block_error (Block * Block) :=
  b1 ← unmarshal_data b1;
  b2 ← unmarshal_data b2;
  let '(values1, values2, scale) :=
    calibrate_scale (b_values b1) (bh_scale (b_bh b1)) (b_values b2) (bh_scale (b_bh b2)) in
  Ok (mkBlock (set_scale (b_bh b1) scale) (b_next_idx b1) (b_timestamps b1) values1 (b_header_data b1)
        (b_timestamps_data b1) (b_values_data b1),
      mkBlock (set_scale (b_bh b2) scale) (b_next_idx b2) (b_timestamps b2) values2 (b_header_data b2)
        (b_timestamps_data b2) (b_values_data b2)).
End Calibrate.

(** ** Lemmas: the rows of a block *)

(** The rows of [b] not consumed yet are [s]. *)
Definition holds (b : Block) (s : list (Z * Z)) : Prop :=
  (b_next_idx b <= length (b_values b))%nat /\ length (b_values b) = length (b_timestamps b) /\
  drop (b_next_idx b) (b_timestamps b) = s.*1 /\ drop (b_next_idx b) (b_values b) = s.*2.

(** The output block with more rows. *)
Definition add_rows (ob : Block) (s : list (Z * Z)) : Block :=
  mkBlock (b_bh ob) (b_next_idx ob) (b_timestamps ob ++ s.*1) (b_values ob ++ s.*2)
    (b_header_data ob) (b_timestamps_data ob) (b_values_data ob).

Lemma add_rows_nil ob : add_rows ob [] = ob.
Proof. destruct ob. unfold add_rows. cbn. by rewrite !app_nil_r. Qed.

Lemma add_rows_app ob s1 s2 : add_rows (add_rows ob s1) s2 = add_rows ob (s1 ++ s2).
Proof. unfold add_rows. cbn. by rewrite !fmap_app, !app_assoc. Qed.

Lemma holds_timestamps {E} b s : holds b s -> block_timestamps (E := E) b = Ok s.*1.
Proof.
  intros (H1 & H2 & H3 & H4). unfold block_timestamps, slice_from.
  rewrite decide_True by lia. by rewrite H3.
Qed.

Lemma holds_values {E} b s : holds b s -> block_values (E := E) b = Ok s.*2.
Proof.
  intros (H1 & H2 & H3 & H4). unfold block_values, slice_from.
  rewrite decide_True by lia. by rewrite H4.
Qed.

Lemma holds_length b s : holds b s -> (b_next_idx b + length s = length (b_values b))%nat.
Proof.
  intros (H1 & H2 & H3 & H4). apply (f_equal length) in H4. rewrite length_drop, length_fmap in H4. lia.
Qed.

(** A [next_row] consumes one row and changes nothing else. *)
Lemma next_row_holds b p s :
  holds b (p :: s) ->
  let b' := (block_next_row b).2 in
  (block_next_row b).1 = true /\ holds b' s /\ b_bh b' = b_bh b /\ b_timestamps b' = b_timestamps b.
Proof.
  intros Hb b'. pose proof (holds_length _ _ Hb) as Hl. cbn in Hl. subst b'.
  destruct Hb as (H1 & H2 & H3 & H4). unfold block_next_row.
  destruct (Nat.eqb_spec (b_next_idx b) (length (b_values b))) as [?|_]; [lia|]. cbn [fst snd].
  split_and!; try done. unfold holds. cbn [b_next_idx b_timestamps b_values].
  split_and!; [lia|done|..]; rewrite <-Nat.add_1_r, <-drop_drop; [rewrite H3|rewrite H4]; by rewrite fmap_cons.
Qed.

Lemma next_rows_holds n b s :
  holds b s -> (n <= length s)%nat ->
  holds (next_rows n b) (drop n s) /\ b_bh (next_rows n b) = b_bh b.
Proof.
  unfold next_rows. revert s. induction n as [|n IH]; intros s Hb Hn; [done|].
  destruct (IH s Hb) as [IHh IHb]; [lia|]. cbn [Nat.iter].
  destruct (drop n s) as [|p s'] eqn:Hd; [apply (f_equal length) in Hd; rewrite length_drop in Hd; cbn in Hd; lia|].
  destruct (next_row_holds _ _ _ IHh) as (_ & H1 & H2 & _).
  assert (drop (S n) s = s') as -> by (rewrite <-Nat.add_1_r, <-drop_drop, Hd; done).
  split; [exact H1|etransitivity; [exact H2|exact IHb]].
Qed.

Section Merge.
  Context {E : Type}.

Lemma append_rows_holds ob ib s :
  holds ib s -> exists ib', append_rows (E := E) ob ib = Ok (add_rows ob s, ib').
Proof.
  intros Hb. unfold append_rows. rewrite (holds_timestamps _ _ Hb), bind_Ok, (holds_values _ _ Hb), bind_Ok.
  eexists. reflexivity.
Qed.

(** ** Lemmas: retention *)

Definition retained (deadline : Z) (p : Z * Z) : bool := deadline <=? p.1.

(** The rows skipped are a prefix, and it is the rows below the deadline. *)
Lemma skip_rows_holds fuel b s dl n :
  holds b s -> sortedZ s.*1 -> (length s <= fuel)%nat -> 0 <= n -> n + Z.of_nat (length s) < 2 ^ 64 ->
  let kept := List.filter (retained dl) s in
  exists b', skip_rows (E := E) fuel b dl n = Ok (b', n + Z.of_nat (length s - length kept)) /\
    holds b' kept /\ b_bh b' = b_bh b.
Proof.
  revert b s n. induction fuel as [|fuel IH]; intros b s n Hb Hs Hf H0 Hn kept; cbn [skip_rows];
    rewrite (holds_timestamps _ _ Hb), bind_Ok; destruct s as [|[t v] s]; cbn -[Z.of_nat] in Hf, Hn, Hs;
    try (subst kept; cbn; rewrite Z.add_0_r; eexists; done); [lia|].
  cbn [fmap list_fmap fst]. apply StronglySorted_cons in Hs as [Hle Hs].
  destruct (Z.ltb_spec t dl) as [Hlt|Hge].
  - destruct (next_row_holds _ _ _ Hb) as (_ & Hb' & Hbh & _).
    rewrite (wrap_u_id 64 (n + 1)) by (unfold is_u; lia).
    destruct (IH _ _ (n + 1) Hb' Hs) as (b' & Hr & Hh & Hbh'); [lia..|].
    assert (Hk : kept = List.filter (retained dl) s).
    { subst kept. cbn [List.filter]. unfold retained at 1. cbn [fst].
      by rewrite (proj2 (Z.leb_gt dl t)) by lia. }
    rewrite Hk. exists b'. rewrite Hr. split_and!; [|done|congruence]. f_equal. f_equal. cbn [length].
    pose proof (List.filter_length_le (retained dl) s). lia.
  - assert (Hk : kept = (t, v) :: s).
    { subst kept. cbn [List.filter]. unfold retained at 1. cbn [fst].
      rewrite (proj2 (Z.leb_le dl t)) by lia. f_equal. clear - Hle Hge.
      induction s as [|[t' v'] s IH]; [done|]. cbn in Hle |- *. inversion_clear Hle as [|? ? H1 H2].
      unfold retained at 1. cbn [fst]. rewrite (proj2 (Z.leb_le dl t')) by lia. f_equal. by apply IH. }
    rewrite Hk, Nat.sub_diag, Z.add_0_r. eexists. done.
Qed.
End Merge.

(** ** Lemmas: the merge loop *)

Lemma partition_point_spec t l :
  sortedZ l ->
  let n := partition_point t l in
  (n <= length l)%nat /\ Forall (fun x => x <= t) (take n l) /\ Forall (fun x => t < x) (drop n l).
Proof.
  induction 1 as [|x l Hl IH Hx]; cbn; [split_and!; constructor|].
  destruct (Z.leb_spec x t) as [Hle|Hgt]; cbn.
  - destruct IH as (H1 & H2 & H3). split_and!; [lia|by constructor|done].
  - split_and!; [lia|constructor|]. constructor; [done|].
    revert Hx. apply Forall_weaken. lia.
Qed.

(** Rows that all come before the rest, put in front of it. *)
Lemma sorted_rows_app (s r : list (Z * Z)) t :
  sortedZ s.*1 -> sortedZ r.*1 -> Forall (fun x => x <= t) s.*1 -> Forall (fun x => t <= x) r.*1 ->
  sortedZ (s ++ r).*1.
Proof.
  intros Hs Hr Hst Htr. rewrite fmap_app. apply sortedZ_app. split_and!; [done..|].
  rewrite Forall_In in Hst, Htr. intros x y Hx%Hst Hy%Htr. lia.
Qed.

(** A round that moves nothing is followed by one that does. *)
Definition merge_rank (s1 s2 : list (Z * Z)) : nat :=
  length s1 + length s2 +
  match s1, s2 with p1 :: _, p2 :: _ => if p1.1 <=? p2.1 then 0 else 1 | _, _ => 0 end.

Section MergeLoop.
  Context {E : Type}.

Lemma merge_loop_holds fuel ob b1 b2 s1 s2 :
  holds b1 s1 -> holds b2 s2 -> sortedZ s1.*1 -> sortedZ s2.*1 -> s1 <> [] -> s2 <> [] ->
  (merge_rank s1 s2 < fuel)%nat ->
  exists out, merge_loop (E := E) fuel ob b1 b2 = Ok (add_rows ob out) /\ sortedZ out.*1 /\
    Permutation out (s1 ++ s2).
Proof.
  revert ob b1 b2 s1 s2. induction fuel as [|fuel IH]; intros ob b1 b2 s1 s2 Hb1 Hb2 Hs1 Hs2 Hn1 Hn2 Hf; [lia|].
  destruct s2 as [|[t2 v2] s2]; [done|]. cbn [merge_loop].
  rewrite (holds_timestamps _ _ Hb2), bind_Ok. cbn [fmap list_fmap fst idx lookup list_lookup].
  rewrite bind_Ok, (holds_timestamps _ _ Hb1), bind_Ok, (holds_values _ _ Hb1), bind_Ok.
  destruct (partition_point_spec t2 s1.*1 Hs1) as (Hn & Hlo & Hhi).
  set (n := partition_point t2 s1.*1) in *. rewrite length_fmap in Hn. rewrite <-fmap_take in Hlo.
  rewrite <-fmap_drop in Hhi.
  rewrite (assert_true (_ <=? _)%nat) by (rewrite length_fmap; by apply Nat.leb_le). rewrite bind_Ok.
  destruct (next_rows_holds n b1 s1 Hb1 Hn) as [Hb1' _]. rewrite (holds_timestamps _ _ Hb1'), bind_Ok.
  rewrite <-!fmap_take. fold (add_rows ob (take n s1)).
  rewrite <-(take_drop n s1), fmap_app in Hs1. apply sortedZ_app in Hs1 as (Hst & Hsd & _).
  assert (Ht2 : Forall (fun x => t2 <= x) ((t2, v2) :: s2).*1).
  { apply StronglySorted_cons in Hs2 as [Hle _]. by constructor. }
  destruct (drop n s1) as [|[t1 v1] s1'] eqn:Hd; cbn [fmap list_fmap fst].
  - destruct (append_rows_holds (E := E) (add_rows ob (take n s1)) b2 _ Hb2) as (ib' & ->). rewrite bind_Ok.
    exists (take n s1 ++ (t2, v2) :: s2). rewrite add_rows_app. split_and!; [done| |].
    + by eapply sorted_rows_app.
    + rewrite <-(take_drop n s1) at 2. rewrite Hd, app_nil_r. done.
  - inversion_clear Hhi as [|? ? Hgt Hhi']. cbn in Hgt.
    destruct (IH (add_rows ob (take n s1)) b2 (next_rows n b1) ((t2, v2) :: s2) ((t1, v1) :: s1'))
      as (out & -> & Hso & Hp); try done.
    { revert Hf. unfold merge_rank. rewrite <-(take_drop n s1) at 1 2. rewrite Hd.
      cbn [length fst]. rewrite (proj2 (Z.leb_le t2 t1)) by lia. rewrite length_app. cbn [length].
      clearbody n. destruct n; [rewrite take_0; cbn [app length fst]|destruct s1; [done|]; cbn; lia].
      rewrite (proj2 (Z.leb_gt t1 t2)) by lia. lia. }
    exists (take n s1 ++ out). rewrite add_rows_app. split_and!; [done| |].
    + eapply sorted_rows_app; [done..|]. apply Forall_In. intros x Hx.
      apply list_elem_of_In in Hx. rewrite Hp in Hx. rewrite fmap_app in Hx.
      apply elem_of_app in Hx as [Hx|Hx].
      * rewrite Forall_forall in Ht2. by apply Ht2.
      * cbn in Hx. apply elem_of_cons in Hx as [->|Hx]; [lia|]. rewrite Forall_forall in Hhi'.
        apply Hhi' in Hx. lia.
    + rewrite Hp. rewrite <-(take_drop n s1) at 2. rewrite Hd, <-app_assoc. apply Permutation_app_head.
      apply Permutation_app_comm.
Qed.
End MergeLoop.

(** ** Lemmas: merging two blocks *)

(** An unpacked block whose pending rows are [s], in order and inside the time
    range of its header. *)
Record merge_input (b : Block) (s : list (Z * Z)) : Prop := {
  mi_holds : holds b s;
  mi_sorted : sortedZ s.*1;
  mi_range : Forall (fun t => bh_min_timestamp (b_bh b) <= t <= bh_max_timestamp (b_bh b)) s.*1;
  mi_timestamps_data : b_timestamps_data b = [];
  mi_values_data : b_values_data b = [];
  mi_size : Z.of_nat (length s) < 2 ^ 63;
}.

Definition dropped (dl : Z) (s : list (Z * Z)) : Z :=
  Z.of_nat (length s - length (List.filter (retained dl) s)).

Lemma filter_fst_sub (p : Z * Z -> bool) s x : In x (List.filter p s).*1 -> In x s.*1.
Proof.
  rewrite !in_map_iff. intros (q & <- & Hq). apply filter_In in Hq as [Hq _]. by exists q.
Qed.

Lemma sorted_filter (p : Z * Z -> bool) s : sortedZ s.*1 -> sortedZ (List.filter p s).*1.
Proof.
  induction s as [|q s IH]; intros Hs; [constructor|]. cbn in Hs. apply StronglySorted_cons in Hs as [Hle Hs].
  cbn. destruct (p q); [|by apply IH]. cbn. constructor; [by apply IH|].
  rewrite Forall_In in *. intros x Hx. apply Hle. by eapply filter_fst_sub.
Qed.

Section MergeBlocksLemmas.
  Context {E : Type}.

Lemma assert_unmarshaled_ok b s : merge_input b s -> assert_unmarshaled (E := E) b = Ok tt.
Proof.
  intros [(H1 & H2 & _) _ _ H3 H4 _]. unfold assert_unmarshaled. rewrite H3, H4, H2 in *.
  rewrite Nat.eqb_refl. cbn. apply assert_true. by apply Nat.leb_le.
Qed.

Lemma skip_samples_holds b s dl rd :
  merge_input b s -> 0 <= rd < 2 ^ 63 ->
  exists b', skip_samples_outside_retention (E := E) b dl rd = Ok (b', rd + dropped dl s) /\
    holds b' (List.filter (retained dl) s) /\ b_bh b' = b_bh b.
Proof.
  intros Hb Hrd. pose proof (mi_size _ _ Hb) as Hsz. unfold skip_samples_outside_retention, dropped.
  pose proof (List.filter_length_le (retained dl) s) as Hle. pose proof (mi_holds _ _ Hb) as Hh.
  destruct (Z.leb_spec dl (bh_min_timestamp (b_bh b))) as [Hdl|Hdl].
  - assert (Hk : List.filter (retained dl) s = s).
    { pose proof (mi_range _ _ Hb) as Hr. clear - Hr Hdl. induction s as [|q s IH]; [done|].
      cbn in Hr |- *. inversion_clear Hr as [|? ? H1 H2]. unfold retained at 1.
      rewrite (proj2 (Z.leb_le dl q.1)) by lia. f_equal. by apply IH. }
    rewrite Hk, Nat.sub_diag, Z.add_0_r. by exists b.
  - destruct (skip_rows_holds (E := E) (length (b_timestamps b)) b s dl 0 Hh (mi_sorted _ _ Hb))
      as (b' & Hr & Hb' & Hbh); [pose proof (holds_length _ _ Hh); destruct Hh as (_ & <- & _); lia|lia..|].
    rewrite Hr, bind_Ok. exists b'. split; [|done]. f_equal. f_equal. rewrite Z.add_0_l.
    apply wrap_u_id. unfold is_u. lia.
Qed.

Lemma ranges_sorted b1 b2 s1 s2 dl :
  merge_input b1 s1 -> merge_input b2 s2 -> bh_max_timestamp (b_bh b1) < bh_min_timestamp (b_bh b2) ->
  sortedZ (List.filter (retained dl) s1 ++ List.filter (retained dl) s2).*1.
Proof.
  intros H1 H2 Hlt. rewrite fmap_app. apply sortedZ_app. split_and!; [apply sorted_filter, H1|apply sorted_filter, H2|].
  intros x y Hx%filter_fst_sub Hy%filter_fst_sub.
  pose proof (mi_range _ _ H1) as R1. pose proof (mi_range _ _ H2) as R2. rewrite Forall_In in R1, R2.
  apply R1 in Hx. apply R2 in Hy. lia.
Qed.

(** What [merge_blocks] does after the retention step. *)
Lemma merge_kept ob b1 b2 b1' b2' s1 s2 dl (rd : Z) :
  merge_input b1 s1 -> merge_input b2 s2 ->
  let k1 := List.filter (retained dl) s1 in
  let k2 := List.filter (retained dl) s2 in
  holds b1' k1 -> holds b2' k2 -> b_bh b1' = b_bh b1 -> b_bh b2' = b_bh b2 ->
  exists out,
    (if bh_max_timestamp (b_bh b1') <? bh_min_timestamp (b_bh b2') then
       '(ob, _) ← append_rows (E := E) ob b1'; '(ob, _) ← append_rows ob b2'; Ok (ob, rd)
     else if bh_max_timestamp (b_bh b2') <? bh_min_timestamp (b_bh b1') then
       '(ob, _) ← append_rows ob b2'; '(ob, _) ← append_rows ob b1'; Ok (ob, rd)
     else
       timestamps1 ← block_timestamps b1'; timestamps2 ← block_timestamps b2';
       match timestamps1, timestamps2 with
       | [], _ => '(ob, _) ← append_rows ob b2'; Ok (ob, rd)
       | _, [] => '(ob, _) ← append_rows ob b1'; Ok (ob, rd)
       | _, _ => ob ← merge_loop (2 + length timestamps1 + length timestamps2) ob b1' b2'; Ok (ob, rd)
       end) = Ok (add_rows ob out, rd) /\ sortedZ out.*1 /\ Permutation out (k1 ++ k2).
Proof.
  intros H1 H2 k1 k2 K1 K2 -> ->.
  assert (Happ : forall ob b s, holds b s -> exists b', append_rows (E := E) ob b = Ok (add_rows ob s, b'))
    by (intros; by apply append_rows_holds).
  pose proof (sorted_filter (retained dl) s1 (mi_sorted _ _ H1)) as S1.
  pose proof (sorted_filter (retained dl) s2 (mi_sorted _ _ H2)) as S2.
  fold k1 in S1. fold k2 in S2.
  destruct (Z.ltb_spec (bh_max_timestamp (b_bh b1)) (bh_min_timestamp (b_bh b2))) as [Hlt|_];
    [|destruct (Z.ltb_spec (bh_max_timestamp (b_bh b2)) (bh_min_timestamp (b_bh b1))) as [Hlt|_]].
  - destruct (Happ ob _ _ K1) as (b & ->). rewrite bind_Ok. destruct (Happ (add_rows ob k1) _ _ K2) as (b' & ->).
    exists (k1 ++ k2). rewrite bind_Ok, add_rows_app. split_and!; [done|by eapply ranges_sorted|done].
  - destruct (Happ ob _ _ K2) as (b & ->). rewrite bind_Ok. destruct (Happ (add_rows ob k2) _ _ K1) as (b' & ->).
    exists (k2 ++ k1). rewrite bind_Ok, add_rows_app. split_and!; [done|by eapply ranges_sorted|].
    apply Permutation_app_comm.
  - rewrite (holds_timestamps _ _ K1), bind_Ok, (holds_timestamps _ _ K2), bind_Ok.
    destruct k1 as [|p1 k1']; [|destruct k2 as [|p2 k2']]; cbn [fmap list_fmap].
    + destruct (Happ ob _ _ K2) as (b & ->). exists k2. rewrite bind_Ok. done.
    + destruct (Happ ob _ _ K1) as (b & ->). exists (p1 :: k1'). rewrite bind_Ok, app_nil_r. done.
    + destruct (merge_loop_holds (E := E) (2 + length (p1.1 :: k1'.*1) + length (p2.1 :: k2'.*1)) ob _ _ _ _ K1 K2 S1 S2)
        as (out & -> & Ho & Hp); [done..| |exists out; by rewrite bind_Ok].
      unfold merge_rank. cbn [length]. rewrite !length_fmap. destruct (p1.1 <=? p2.1); lia.
Qed.
End MergeBlocksLemmas.

Lemma merge_blocks_merges {E} (ob b1 b2 : Block) (s1 s2 : list (Z * Z)) (dl rd : Z) :
  merge_input b1 s1 -> merge_input b2 s2 -> 0 <= rd < 2 ^ 62 -> Z.of_nat (length s1) < 2 ^ 62 ->
  metric_id (bh_tsid (b_bh b1)) = metric_id (bh_tsid (b_bh b2)) ->
  bh_scale (b_bh b1) = bh_scale (b_bh b2) ->
  exists out,
    merge_blocks (E := E) ob b1 b2 dl rd = Ok (add_rows ob out, rd + dropped dl s1 + dropped dl s2) /\
    sortedZ out.*1 /\
    Permutation out (List.filter (retained dl) (s1 ++ s2)).
Proof.
  intros H1 H2 Hrd Hl Hid Hsc.
  unfold merge_blocks, assert_mergeable. rewrite (proj2 (Z.eqb_eq _ _) Hid), (proj2 (Z.eqb_eq _ _) Hsc).
  cbn [assert_]. rewrite !bind_Ok, (assert_unmarshaled_ok _ _ H1), bind_Ok, (assert_unmarshaled_ok _ _ H2), bind_Ok.
  destruct (skip_samples_holds (E := E) b1 s1 dl rd H1) as (b1' & -> & K1 & B1); [lia|]. rewrite bind_Ok.
  pose proof (mi_size _ _ H1).
  destruct (skip_samples_holds (E := E) b2 s2 dl (rd + dropped dl s1) H2) as (b2' & -> & K2 & B2);
    [unfold dropped; lia|]. rewrite bind_Ok.
  destruct (merge_kept (E := E) ob b1 b2 b1' b2' s1 s2 dl (rd + dropped dl s1 + dropped dl s2) H1 H2 K1 K2 B1 B2)
    as (out & Heq & Ho & Hp).
  exists out. split; [exact Heq|]. split; [done|]. by rewrite List.filter_app.
Qed.

(** C25: merging the rows of two unpacked blocks of one series and scale never
    fails: the output block gets exactly the rows of both inputs that the
    retention keeps, each with its value and in timestamp order, whatever way
    the blocks overlap, and the deleted rows are counted exactly. *)
Theorem merge_blocks_spec (ob b1 b2 : Block) (s1 s2 : list (Z * Z)) (dl rd : Z)
    (H1 : merge_input b1 s1) (H2 : merge_input b2 s2) (Hrd : 0 <= rd < 2 ^ 62)
    (Hl : Z.of_nat (length s1) < 2 ^ 62)
    (Hid : metric_id (bh_tsid (b_bh b1)) = metric_id (bh_tsid (b_bh b2)))
    (Hsc : bh_scale (b_bh b1) = bh_scale (b_bh b2)) :
  exists out,
    merge_blocks (E := Empty_set) ob b1 b2 dl rd =
      Ok (add_rows ob out, rd + dropped dl s1 + dropped dl s2) /\
    sortedZ out.*1 /\
    Permutation out (List.filter (retained dl) (s1 ++ s2)).
Proof. by apply merge_blocks_merges. Qed.

(** Two overlapping blocks; the deadline cuts the first row of the first. *)
Definition merge_example (min_timestamp max_timestamp : Z) (timestamps values : list Z) : Block :=
  mkBlock (mkBlockHeader Tsid_default min_timestamp max_timestamp 0 0 0 0 0 0 0 0 0 64) 0
    timestamps values [] [] [].

Lemma merge_blocks_spec_witness :
  exists out,
    merge_blocks (E := Empty_set) Block_default (merge_example 1 9 [1; 5; 9] [10; 50; 90])
      (merge_example 4 5 [4; 5] [41; 51]) 3 7 = Ok (add_rows Block_default out, 8) /\
    sortedZ out.*1 /\ Permutation out [(5, 50); (9, 90); (4, 41); (5, 51)].
Proof.
  apply (merge_blocks_spec Block_default (merge_example 1 9 [1; 5; 9] [10; 50; 90])
    (merge_example 4 5 [4; 5] [41; 51]) [(1, 10); (5, 50); (9, 90)] [(4, 41); (5, 51)] 3 7);
    [| |lia|cbn; lia|done|done];
    (split; [unfold holds; cbn; split_and!; [lia|done..]|repeat (constructor; cbn; try lia)|
             repeat (constructor; cbn; try lia)|done|done|cbn; lia]).
Defined.
