(* ===== verification/StreamMerge.v ===== *)
(** * Merging block streams

    Model of the first half of [esm-storage/src/block_stream/merger.rs]: the
    heap of streams ordered by their current block, [BlockStreamMerger], and
    the loop of [merge_block_streams] that merges the blocks of the streams
    into a writer.

    The streams and the writer are interfaces ([BlockSource], [BlockSink]);
    the readers and the writer of parts implement them at the end. *)
From Stdlib Require Import ZArith Lia Bool Sorted Permutation.
From S2P Require Import Prelude Heap IntCodec NearestDelta Float64 Compress ArrayCodec Tsid BlockHeader Decimal Dedup Block BlockStream BlockMerge.
Local Open Scope Z_scope.


(** ** Interfaces *)

(** A stream of blocks: [next_block], the current [block], and [error]. *)
Class BlockSource (S X : Type) : Type := {
  src_next : S -> res Empty_set (bool * S);
  src_block : S -> Block;
  src_error : S -> option X;
}.

(** A destination of blocks: [write_external_block]. *)
Class BlockSink (W : Type) : Type := {
  sink_write : W -> Block -> res Empty_set W;
}.

(** ** The merger *)

Inductive bsm_error (X : Type) : Type :=
| BsmEof
| BsmOther (x : X).
Arguments BsmEof {X}.
Arguments BsmOther {X} x.

Inductive merge_other (X : Type) : Type :=
| CannotCalibrate (e : block_error)
| CannotReadBlock (x : X).
Arguments CannotCalibrate {X} e.
Arguments CannotReadBlock {X} x.

Inductive MergeError (X : Type) : Type :=
| ForciblyStopped
| MergeOther (e : merge_other X).
Arguments ForciblyStopped {X}.
Arguments MergeOther {X} e.

Record BlockStreamMerger (X : Type) : Type := mkMerger {
  bsm_heap : list nat;
  bsm_retention_deadline : Z;
  bsm_next_block_noop : bool;
  bsm_err : option (bsm_error X);
}.
Arguments mkMerger {X}.
Arguments bsm_heap {X}.
Arguments bsm_retention_deadline {X}.
Arguments bsm_next_block_noop {X}.
Arguments bsm_err {X}.

Section Merger.
  Context {S X : Type} `{Src : BlockSource S X}.

(** [bsrs[i].block.header()]. *)
Definition stream_header (bsrs : list S) (i : nat) : BlockHeader :=
  match bsrs !! i with Some s => b_bh (src_block s) | None => BlockHeader_default end.

Definition stream_less (bsrs : list S) (a b : nat) : bool :=
  bh_less (stream_header bsrs a) (stream_header bsrs b).

Definition bsm_new (retention_deadline : Z) : BlockStreamMerger X :=
  mkMerger [] retention_deadline false None.

(** The loop of [init] from stream [i] on: the streams after the calls, the
    indices pushed, and the error that ended the loop early. *)
Fixpoint init_loop (i : nat) (bsrs : list S) : res Empty_set (list S * list nat * option X) :=
  match bsrs with
  | [] => Ok ([], [], None)
  | bsr :: rest =>
      '(more, bsr) ← src_next bsr;
      if more : bool then
        '(rest, heap, err) ← init_loop (Datatypes.S i) rest;
        Ok (bsr :: rest, i :: heap, err)
      else
        match src_error bsr with
        | Some x => Ok (bsr :: rest, [], Some x)
        | None =>
            '(rest, heap, err) ← init_loop (Datatypes.S i) rest;
            Ok (bsr :: rest, heap, err)
        end
  end.

Definition bsm_init (self : BlockStreamMerger X) (bsrs : list S)
    : res Empty_set (BlockStreamMerger X * list S) :=
  '(bsrs, pushed, err) ← init_loop 0 bsrs;
  let heap := bsm_heap self ++ pushed in
  match err with
  | Some x => Ok (mkMerger heap (bsm_retention_deadline self) (bsm_next_block_noop self)
                    (Some (BsmOther x)), bsrs)
  | None =>
      if (length heap =? 0)%nat
      then Ok (mkMerger heap (bsm_retention_deadline self) (bsm_next_block_noop self)
                 (Some BsmEof), bsrs)
      else Ok (mkMerger (heap_init (stream_less bsrs) heap) (bsm_retention_deadline self) true
                 (bsm_err self), bsrs)
  end.

Definition bsm_top (self : BlockStreamMerger X) : res Empty_set nat := idx (bsm_heap self) 0.

(** The heap and the streams after the call, and how it ended. *)
Definition next_block_internal (heap : list nat) (bsrs : list S)
    : res Empty_set (list nat * list S * option (bsm_error X)) :=
  bsr_min ← idx heap 0;
  bsr ← idx bsrs bsr_min;
  '(more, bsr) ← src_next bsr;
  let bsrs := <[bsr_min := bsr]> bsrs in
  if more : bool then Ok (sift_down (stream_less bsrs) (length heap) heap 0, bsrs, None)
  else
    match src_error bsr with
    | Some x => Ok (heap, bsrs, Some (BsmOther x))
    | None =>
        let n := length heap in
        let heap := take (n - 1) (swap heap 0 (n - 1)) in
        let heap := sift_down (stream_less bsrs) (length heap) heap 0 in
        if (length heap =? 0)%nat then Ok (heap, bsrs, Some BsmEof) else Ok (heap, bsrs, None)
    end.

Definition bsm_next_block (self : BlockStreamMerger X) (bsrs : list S)
    : res Empty_set (bool * BlockStreamMerger X * list S) :=
  match bsm_err self with
  | Some _ => Ok (false, self, bsrs)
  | None =>
      if bsm_next_block_noop self
      then Ok (true, mkMerger (bsm_heap self) (bsm_retention_deadline self) false None, bsrs)
      else
        '(heap, bsrs, err) ← next_block_internal (bsm_heap self) bsrs;
        Ok (match err with None => true | Some _ => false end,
            mkMerger heap (bsm_retention_deadline self) false err, bsrs)
  end.

Definition bsm_error_of (self : BlockStreamMerger X) : option X :=
  match bsm_err self with Some (BsmOther x) => Some x | _ => None end.
End Merger.

(** ** The merge loop *)

(** The output block of one merge: empty, with the series of the block, the
    common scale and the coarser of the two precisions. *)
Definition merged_header (pending b : Block) : BlockHeader :=
  mkBlockHeader (bh_tsid (b_bh b)) 0 0 0 0 0 0 0 0 (bh_scale (b_bh b)) 0 0
    (Z.min (bh_precision_bits (b_bh pending)) (bh_precision_bits (b_bh b))).

Definition empty_block (bh : BlockHeader) : Block := mkBlock bh 0 [] [] [] [] [].

(** [timestamps.truncate(n)], [values.truncate(n)]. *)
Definition truncate_rows (n : nat) (b : Block) : Block :=
  mkBlock (b_bh b) (b_next_idx b) (take n (b_timestamps b)) (take n (b_values b)) (b_header_data b)
    (b_timestamps_data b) (b_values_data b).

(** The minimum and maximum timestamps of the pending rows. *)
Definition fixup_timestamps {E} (b : Block) : res E Block :=
  timestamps ← block_timestamps b;
  min_timestamp ← idx timestamps 0;
  max_timestamp ← match last timestamps with Some t => Ok t | None => Panic end;
  Ok (set_bh b (set_min_max (b_bh b) min_timestamp max_timestamp)).

Section MergeStreams.
  Context {Zs : Zstd} {S X W : Type} `{Src : BlockSource S X} `{Snk : BlockSink W}.

(** The variables of the loop that a block changes: the writer, the pending
    block ([None] when [pending_block_is_empty]) and the deleted rows, counted
    with those already flushed to the shared counter. *)
Record merge_state : Type := mkMergeState {
  ms_sink : W;
  ms_pending : option Block;
  ms_rows_deleted : Z;
}.

(** The slow path of the loop, for a pending block and a block [b] of the same
    series.  The rows of both end up in the output, so their remains, which
    are overwritten before they are read again, are not part of the result. *)
Definition merge_into_pending (retention_deadline : Z) (st : merge_state) (pending b : Block)
    : res Empty_set (merge_state * option (MergeError X)) :=
  match unmarshal_and_calibrate_scale pending b with
  | Panic => Panic
  | Err e => Ok (st, Some (MergeOther (CannotCalibrate e)))
  | Ok (pending, b) =>
      let tmp := empty_block (merged_header pending b) in
      '(tmp, rows_deleted) ← merge_blocks tmp pending b retention_deadline (ms_rows_deleted st);
      if Z.of_nat (length (b_timestamps tmp)) <=? MAX_ROWS_PER_BLOCK then
        if (length (b_timestamps tmp) =? 0)%nat then
          Ok (mkMergeState (ms_sink st) None rows_deleted, None)
        else
          tmp ← fixup_timestamps tmp;
          Ok (mkMergeState (ms_sink st) (Some tmp) rows_deleted, None)
      else
        let n := Z.to_nat MAX_ROWS_PER_BLOCK in
        tail_timestamps ← slice_from (b_timestamps tmp) n;
        tail_values ← slice_from (b_values tmp) n;
        pending ← block_init (bh_tsid (b_bh tmp)) tail_timestamps tail_values (bh_scale (b_bh tmp))
                    (bh_precision_bits (b_bh tmp));
        tmp ← fixup_timestamps (truncate_rows n tmp);
        sink ← sink_write (ms_sink st) tmp;
        Ok (mkMergeState sink (Some pending) rows_deleted, None)
  end.

(** What the loop does with the current block [b]; [deleted] is the membership
    test of [dmis]. *)
Definition merge_block_step (deleted : Z -> bool) (retention_deadline : Z) (st : merge_state) (b : Block)
    : res Empty_set (merge_state * option (MergeError X)) :=
  let bh := b_bh b in
  if deleted (metric_id (bh_tsid bh)) then
    Ok (mkMergeState (ms_sink st) (ms_pending st) (as_u64 (ms_rows_deleted st + bh_rows_count bh)), None)
  else if bh_max_timestamp bh <? retention_deadline then
    Ok (mkMergeState (ms_sink st) (ms_pending st) (as_u64 (ms_rows_deleted st + bh_rows_count bh)), None)
  else
    match ms_pending st with
    | None =>
        pending ← block_copy_from b;
        Ok (mkMergeState (ms_sink st) (Some pending) (ms_rows_deleted st), None)
    | Some pending =>
        if negb (metric_id (bh_tsid (b_bh pending)) =? metric_id (bh_tsid bh)) then
          _ ← assert_ (tsid_le (bh_tsid (b_bh pending)) (bh_tsid bh));
          sink ← sink_write (ms_sink st) pending;
          pending ← block_copy_from b;
          Ok (mkMergeState sink (Some pending) (ms_rows_deleted st), None)
        else if block_too_big pending && (bh_max_timestamp (b_bh pending) <=? bh_min_timestamp bh) then
          sink ← sink_write (ms_sink st) pending;
          pending ← block_copy_from b;
          Ok (mkMergeState sink (Some pending) (ms_rows_deleted st), None)
        else merge_into_pending retention_deadline st pending b
    end.

(** The loop; [stop k] is the value of the stop flag seen in round [k].
    Every round takes a block off a stream, so the number of blocks is enough
    fuel. *)
Fixpoint merge_streams_loop (fuel k : nat) (stop : nat -> bool) (deleted : Z -> bool)
    (bsm : BlockStreamMerger X) (bsrs : list S) (st : merge_state)
    : res Empty_set (merge_state * BlockStreamMerger X * option (MergeError X)) :=
  match fuel with
  | O => Panic
  | Datatypes.S fuel =>
      '(more, bsm, bsrs) ← bsm_next_block bsm bsrs;
      if negb more then Ok (st, bsm, None)
      else if stop k then Ok (st, bsm, Some ForciblyStopped)
      else
        b_idx ← bsm_top bsm;
        bsr ← idx bsrs b_idx;
        '(st, err) ← merge_block_step deleted (bsm_retention_deadline bsm) st (src_block bsr);
        match err with
        | Some e => Ok (st, bsm, Some e)
        | None => merge_streams_loop fuel (Datatypes.S k) stop deleted bsm bsrs st
        end
  end.

(** The writer and the deleted rows after the call, and its error. *)
Definition merge_block_streams_internal (fuel : nat) (stop : nat -> bool) (deleted : Z -> bool)
    (bsm : BlockStreamMerger X) (bsrs : list S) (w : W)
    : res Empty_set (W * Z * option (MergeError X)) :=
  '(st, bsm, err) ← merge_streams_loop fuel 0 stop deleted bsm bsrs (mkMergeState w None 0);
  match err with
  | Some e => Ok (ms_sink st, ms_rows_deleted st, Some e)
  | None =>
      match bsm_error_of bsm with
      | Some x => Ok (ms_sink st, ms_rows_deleted st, Some (MergeOther (CannotReadBlock x)))
      | None =>
          match ms_pending st with
          | None => Ok (ms_sink st, ms_rows_deleted st, None)
          | Some pending =>
              sink ← sink_write (ms_sink st) pending;
              Ok (sink, ms_rows_deleted st, None)
          end
      end
  end.

(** [merge_block_streams] up to the closing of the writer. *)
Definition merge_streams (fuel : nat) (stop : nat -> bool) (deleted : Z -> bool)
    (retention_deadline : Z) (bsrs : list S) (w : W) : res Empty_set (W * Z * option (MergeError X)) :=
  '(bsm, bsrs) ← bsm_init (bsm_new retention_deadline) bsrs;
  merge_block_streams_internal fuel stop deleted bsm bsrs w.
End MergeStreams.
Arguments merge_state : clear implicits.
Arguments mkMergeState {W}.
Arguments ms_sink {W}.
Arguments ms_pending {W}.
Arguments ms_rows_deleted {W}.


(** ** Lemmas: blocks in the merge loop *)

(** The pending rows of a block. *)
Definition rows_of (b : Block) : list (Z * Z) :=
  zip (drop (b_next_idx b) (b_timestamps b)) (drop (b_next_idx b) (b_values b)).

(** A row with the series and the scale of its block. *)
Definition row : Type := (Tsid * Z) * (Z * Z).
Definition tag (b : Block) : Tsid * Z := (bh_tsid (b_bh b), bh_scale (b_bh b)).
Definition block_rows (b : Block) : list row := map (pair (tag b)) (rows_of b).
Definition all_rows (bs : list Block) : list row := concat (map block_rows bs).

(** An unpacked block the loop can hold: it can be written, its rows lie in
    the time range of its header, and it keeps at least [pb] precision bits. *)
Record pending_ok (pb : Z) (b : Block) : Prop := {
  po_unpacked : unpacked_ok b;
  po_range : Forall (fun t => bh_min_timestamp (b_bh b) <= t <= bh_max_timestamp (b_bh b))
               (drop (b_next_idx b) (b_timestamps b));
  po_timestamps_data : b_timestamps_data b = [];
  po_values_data : b_values_data b = [];
  po_precision : pb <= bh_precision_bits (b_bh b);
}.

(** A block as a stream yields it: the header also counts its rows. *)
Definition source_ok (pb : Z) (b : Block) : Prop :=
  pending_ok pb b /\ bh_rows_count (b_bh b) = Z.of_nat (length (rows_of b)).

Lemma all_rows_app bs1 bs2 : all_rows (bs1 ++ bs2) = all_rows bs1 ++ all_rows bs2.
Proof. unfold all_rows. by rewrite map_app, concat_app. Qed.
Lemma all_rows_one b : all_rows [b] = block_rows b.
Proof. unfold all_rows. cbn. by rewrite app_nil_r. Qed.
Lemma all_rows_cons b bs : all_rows (b :: bs) = block_rows b ++ all_rows bs.
Proof. done. Qed.
Lemma all_rows_perm bs1 bs2 : Permutation bs1 bs2 -> Permutation (all_rows bs1) (all_rows bs2).
Proof. intros H. unfold all_rows. by rewrite H. Qed.

Lemma rows_of_holds b s : holds b s -> rows_of b = s.
Proof.
  intros (_ & _ & H1 & H2). unfold rows_of. rewrite H1, H2. clear.
  induction s as [|[t v] s IH]; cbn; [done|]. by f_equal.
Qed.

Lemma unpacked_holds b : unpacked_ok b -> holds b (rows_of b).
Proof.
  intros Hb. pose proof (uo_next _ Hb). pose proof (uo_length _ Hb). unfold holds, rows_of.
  split_and!; [lia|done|..]; symmetry; [apply fst_zip|apply snd_zip]; rewrite !length_drop; lia.
Qed.

Lemma rows_of_length b : unpacked_ok b -> (0 < Z.of_nat (length (rows_of b)) <= MAX_ROWS_PER_BLOCK).
Proof.
  intros Hb. pose proof (holds_length _ _ (unpacked_holds _ Hb)). pose proof (uo_next _ Hb).
  pose proof (uo_max _ Hb). lia.
Qed.

Lemma pending_merge_input pb b : pending_ok pb b -> merge_input b (rows_of b).
Proof.
  intros [Hu Hr Ht Hv _]. pose proof (unpacked_holds _ Hu) as Hh. pose proof (rows_of_length _ Hu).
  pose proof (uo_sorted _ Hu) as Hs. destruct Hh as (H1 & H2 & H3 & H4) eqn:He. rewrite H3 in Hr, Hs.
  split; [done..|]. unfold MAX_ROWS_PER_BLOCK in *. lia.
Qed.

(** The block with the given header and rows. *)
Definition mk_rows (bh : BlockHeader) (s : list (Z * Z)) : Block := mkBlock bh 0 s.*1 s.*2 [] [] [].

Lemma mk_rows_holds bh s : holds (mk_rows bh s) s.
Proof. unfold holds. cbn. rewrite !length_fmap. split_and!; [lia|done..]. Qed.

Definition first_ts (s : list (Z * Z)) : Z := match s.*1 with t :: _ => t | [] => 0 end.
Definition last_ts (s : list (Z * Z)) : Z := default 0 (last s.*1).

Lemma sorted_range s : sortedZ s.*1 -> Forall (fun t => first_ts s <= t <= last_ts s) s.*1.
Proof.
  unfold first_ts, last_ts. destruct s as [|[t v] s]; [constructor|]. cbn [fmap list_fmap fst].
  intros Hs. apply Forall_In. intros x Hx.
  pose proof Hs as Hle. apply StronglySorted_cons in Hle as [Hle _]. rewrite Forall_In in Hle.
  split; [destruct Hx as [<-|Hx]; [lia|by apply Hle]|].
  destruct (last (t :: s.*1)) as [y|] eqn:Hy; [|by apply last_None in Hy]. cbn.
  apply last_Some in Hy as [l Hl]. rewrite Hl in Hs, Hx. apply sortedZ_snoc in Hs as [_ Hs].
  rewrite Forall_In in Hs. apply in_app_iff in Hx as [Hx|[->|[]]]; [by apply Hs|lia].
Qed.

Lemma mk_rows_ok pb bh s :
  tsid_wf (bh_tsid bh) -> is_i16 (bh_scale bh) -> 1 <= bh_precision_bits bh <= 64 ->
  pb <= bh_precision_bits bh -> s <> [] -> Z.of_nat (length s) <= MAX_ROWS_PER_BLOCK ->
  Forall (fun p => is_i64 p.1 /\ is_i64 p.2) s -> sortedZ s.*1 ->
  pending_ok pb (mk_rows (set_min_max bh (first_ts s) (last_ts s)) s).
Proof.
  intros H1 H2 H3 H4 Hne Hl Hr Hs. split; cbn; [|by apply sorted_range|done..].
  split; cbn; rewrite ?length_fmap, ?Nat.sub_0_r; try done.
  - destruct s; cbn; [done|lia].
  - apply Forall_fmap. revert Hr. apply Forall_weaken. by intros ? [].
  - apply Forall_fmap. revert Hr. apply Forall_weaken. by intros ? [].
Qed.

Lemma fixup_mk_rows {E} bh s :
  s <> [] -> fixup_timestamps (E := E) (mk_rows bh s) = Ok (mk_rows (set_min_max bh (first_ts s) (last_ts s)) s).
Proof.
  intros Hne. unfold fixup_timestamps. rewrite (holds_timestamps _ _ (mk_rows_holds bh s)), bind_Ok.
  unfold first_ts, last_ts. destruct s as [|[t v] s]; [done|]. cbn [fmap list_fmap fst].
  unfold idx. cbn [lookup list_lookup]. rewrite bind_Ok.
  destruct (last (t :: s.*1)) as [y|] eqn:Hy; [|by apply last_None in Hy]. done.
Qed.

Lemma init_mk_rows {E} tsid scale prec s :
  s <> [] ->
  block_init (E := E) tsid s.*1 s.*2 scale prec =
  Ok (mk_rows (set_min_max (mkBlockHeader tsid 0 0 0 0 0 0 0 0 scale 0 0 prec) (first_ts s) (last_ts s)) s).
Proof.
  intros Hne. unfold block_init. rewrite length_fmap. destruct s as [|[t v] s]; [done|].
  cbn [length Nat.eqb]. unfold block_fixup_timestamps. cbn [b_timestamps b_next_idx].
  unfold first_ts, last_ts, idx. cbn [fmap list_fmap fst lookup list_lookup]. rewrite bind_Ok.
  rewrite last_lookup.
  replace (length (t :: s.*1) - 1)%nat with (pred (length (t :: s.*1))) by (cbn; lia).
  destruct ((t :: s.*1) !! _) as [y|] eqn:Hy; [done|]. apply lookup_ge_None in Hy. cbn in Hy. lia.
Qed.

(** ** Lemmas: one round of the loop *)

(** The list of the blocks written, as a destination. *)
Definition list_sink : BlockSink (list Block) := {| sink_write w b := Ok (w ++ [b]) |}.

Definition pend_rows (o : option Block) : list row := match o with Some p => block_rows p | None => [] end.

Lemma copy_pending {E} pb b :
  pending_ok pb b ->
  exists b', block_copy_from (E := E) b = Ok b' /\ pending_ok pb b' /\ tag b' = tag b /\
    block_rows b' = block_rows b.
Proof.
  intros [Hu Hr Ht Hv Hp]. pose proof (unpacked_holds _ Hu) as (H1 & H2 & H3 & H4).
  unfold block_copy_from, slice_from. rewrite !decide_True by lia. rewrite !bind_Ok. eexists. split; [done|].
  rewrite Ht, Hv. split_and!; [|done|].
  - destruct Hu as [U1 U2 U3 U4 U5 U6 U7 U8 U9]. split; cbn; try done.
    split; cbn; try done; rewrite ?length_drop, ?drop_0, ?Nat.sub_0_r; try done; try lia.
    + by apply Forall_drop.
    + by apply Forall_drop.
  - unfold block_rows, tag, rows_of. cbn. by rewrite !drop_0.
Qed.

Lemma set_scale_same bh : set_scale bh (bh_scale bh) = bh.
Proof. by destruct bh. Qed.

Lemma unmarshal_pending `{Zs : Zstd} pb b : pending_ok pb b -> unmarshal_data b = Ok b.
Proof.
  intros [Hu _ Ht Hv _]. unfold unmarshal_data. pose proof (uo_next _ Hu). rewrite Ht, Hv.
  destruct (Nat.eqb_spec (length (b_values b)) 0) as [He|_]; [lia|]. done.
Qed.

Lemma calibrate_pending `{Zs : Zstd} pb p b :
  pending_ok pb p -> pending_ok pb b -> bh_scale (b_bh p) = bh_scale (b_bh b) ->
  unmarshal_and_calibrate_scale p b = Ok (p, b).
Proof.
  intros Hp Hb Hs. unfold unmarshal_and_calibrate_scale.
  rewrite (unmarshal_pending _ _ Hp), bind_Ok, (unmarshal_pending _ _ Hb), bind_Ok.
  unfold calibrate_scale. rewrite Hs, Z.eqb_refl. rewrite <-Hs at 1. rewrite !set_scale_same.
  by destruct p, b.
Qed.

(** What the merge may write under the retention deadline [dl]: a block all of
    whose rows are in the retention, or a block of the inputs that reaches into
    the retention, with all its rows, as it was. *)
Definition settled (dl : Z) (inputs : list Block) (n : Block) : Prop :=
  Forall (fun p => dl <= p.1) (rows_of n) \/
  exists b, In b inputs /\ block_rows n = block_rows b /\ dl <= bh_max_timestamp (b_bh b).

Lemma settled_incl dl bs bs' n : incl bs bs' -> settled dl bs n -> settled dl bs' n.
Proof. intros Hi [H|(b & Hb & H)]; [by left|]. right. exists b. auto. Qed.

(** A block cut from rows that are all in the retention. *)
Lemma settled_rows dl bs n t out :
  Forall (fun p => dl <= p.1) out -> incl (block_rows n) (map (pair t) out) -> settled dl bs n.
Proof.
  intros Hout Hn. left. apply Forall_In. intros p Hp. rewrite Forall_In in Hout.
  assert (Hin : In (tag n, p) (map (pair t) out)) by (apply Hn, in_map, Hp).
  apply in_map_iff in Hin as (q & [= _ ->] & Hq). by apply Hout.
Qed.

Section Step.
  Context {Zs : Zstd} {X : Type} (deleted : Z -> bool) (dl pb : Z).
  Local Existing Instance list_sink.

(** A row the merge may drop. *)
Definition gone (r : row) : Prop := deleted (metric_id r.1.1) = true \/ r.2.1 < dl.

Definition live_block (b : Block) : Prop := pending_ok pb b /\ deleted (metric_id (bh_tsid (b_bh b))) = false.

(** The rows of [o] and [b] are the rows written in [new], those still pending
    in [o'], and the deleted rows [D]. *)
Record step_rows (o : option Block) (b : Block) (new : list Block) (o' : option Block) (D : list row)
    : Prop := {
  sr_perm : Permutation (all_rows new ++ pend_rows o' ++ D) (pend_rows o ++ block_rows b);
  sr_gone : Forall gone D;
  sr_new : Forall live_block new;
  sr_new_tsid : Forall (fun n => exists p, o = Some p /\ bh_tsid (b_bh n) = bh_tsid (b_bh p)) new;
  sr_pending : forall p, o' = Some p -> live_block p /\ (tag p = tag b \/ o = Some p);
  sr_settled : forall bs, In b bs -> (forall p, o = Some p -> settled dl bs p) ->
    Forall (settled dl bs) new /\ forall p, o' = Some p -> settled dl bs p;
}.

Lemma dropped_rows p s :
  exists D, Permutation (map (pair p) (List.filter (retained dl) s) ++ D) (map (pair p) s) /\
    Forall gone D /\ Z.of_nat (length D) = dropped dl s.
Proof.
  induction s as [|q s IH]; [by exists []|]. destruct IH as (D & HD & Hg & Hl). unfold dropped in *.
  pose proof (List.filter_length_le (retained dl) s). cbn [List.filter]. destruct (retained dl q) eqn:Hk.
  - exists D. cbn [map app length]. split_and!; [by constructor|done|lia].
  - apply Z.leb_gt in Hk. exists ((p, q) :: D). cbn [length map].
    split_and!; [|constructor; [by right|done]|lia].
    rewrite <-HD. symmetry. apply Permutation_middle.
Qed.

Lemma dropped_bound s : 0 <= dropped dl s <= Z.of_nat (length s).
Proof. unfold dropped. lia. Qed.

(** The rows of the two blocks of a merge, kept and dropped. *)
Lemma merged_rows (t : Tsid * Z) s1 s2 out :
  Permutation out (List.filter (retained dl) (s1 ++ s2)) ->
  exists D, Permutation (map (pair t) out ++ D) (map (pair t) s1 ++ map (pair t) s2) /\ Forall gone D /\
    Z.of_nat (length D) = dropped dl s1 + dropped dl s2.
Proof.
  intros Hp. destruct (dropped_rows t s1) as (D1 & P1 & G1 & L1).
  destruct (dropped_rows t s2) as (D2 & P2 & G2 & L2). exists (D1 ++ D2).
  rewrite length_app, Forall_app, Hp, List.filter_app, map_app, <-P1, <-P2. split_and!; [|done..|lia].
  rewrite <-!app_assoc. apply Permutation_app_head. rewrite !app_assoc. apply Permutation_app_tail.
  apply Permutation_app_comm.
Qed.

Lemma rows_i64 b : unpacked_ok b -> Forall (fun p => is_i64 p.1 /\ is_i64 p.2) (rows_of b).
Proof.
  intros Hb. apply Forall_In. intros [t v] Hx. unfold rows_of in Hx. cbn.
  pose proof (uo_timestamps _ Hb) as Ht. pose proof (uo_values _ Hb) as Hv.
  apply (Forall_drop _ (b_next_idx b)) in Ht, Hv. rewrite Forall_In in Ht, Hv.
  split; [by eapply Ht, in_combine_l|by eapply Hv, in_combine_r].
Qed.

Lemma perm_i64 b1 b2 out :
  unpacked_ok b1 -> unpacked_ok b2 ->
  Permutation out (List.filter (retained dl) (rows_of b1 ++ rows_of b2)) ->
  Forall (fun p => is_i64 p.1 /\ is_i64 p.2) out.
Proof.
  intros H1 H2 Hp. rewrite Hp. apply Forall_In. intros x Hx. apply filter_In in Hx as [Hx _].
  pose proof (rows_i64 _ H1) as R1. pose proof (rows_i64 _ H2) as R2. rewrite Forall_In in R1, R2.
  apply in_app_iff in Hx as [Hx|Hx]; auto.
Qed.

Lemma block_rows_mk bh s : block_rows (mk_rows bh s) = map (pair (bh_tsid bh, bh_scale bh)) s.
Proof. unfold block_rows. by rewrite (rows_of_holds _ _ (mk_rows_holds bh s)). Qed.

(** The merged block is written and kept in the shape [merge_into_pending]
    leaves it in: at most one full block is written, the rest is pending. *)
Lemma split_out p b out D new o' :
  live_block p -> live_block b -> tag p = tag b -> sortedZ out.*1 ->
  Permutation out (List.filter (retained dl) (rows_of p ++ rows_of b)) ->
  Permutation (map (pair (tag b)) out ++ D) (block_rows p ++ block_rows b) -> Forall gone D ->
  (forall s, s <> [] -> Z.of_nat (length s) <= MAX_ROWS_PER_BLOCK -> sortedZ s.*1 ->
    Forall (fun p => is_i64 p.1 /\ is_i64 p.2) s ->
    forall bh, bh_tsid bh = bh_tsid (b_bh b) -> bh_scale bh = bh_scale (b_bh b) ->
      bh_precision_bits bh = Z.min (bh_precision_bits (b_bh p)) (bh_precision_bits (b_bh b)) ->
      live_block (mk_rows (set_min_max bh (first_ts s) (last_ts s)) s)) /\
  (all_rows new ++ pend_rows o' = map (pair (tag b)) out -> Forall live_block new ->
   Forall (fun n => tag n = tag b) new ->
   (forall q, o' = Some q -> live_block q /\ tag q = tag b) -> step_rows (Some p) b new o' D).
Proof.
  intros [Hp Dp] [Hb Db] Ht Hs Hperm HD Hg. split.
  - intros s Hne Hl Hs' Hi bh E1 E2 E3. split; [|cbn; by rewrite E1].
    pose proof (po_unpacked _ _ Hb) as Ub. pose proof (po_unpacked _ _ Hp) as Up.
    pose proof (uo_precision _ Ub). pose proof (uo_precision _ Up).
    pose proof (po_precision _ _ Hb). pose proof (po_precision _ _ Hp).
    apply mk_rows_ok; rewrite ?E1, ?E2, ?E3; try done; try apply Ub; lia.
  - intros Hrows Hnew Htag Ho.
    assert (Hret : Forall (fun p => dl <= p.1) out).
    { rewrite Hperm. apply Forall_In. intros q [_ Hq]%filter_In. by apply Z.leb_le. }
    split; [|done..| | |].
    + rewrite app_assoc, Hrows. done.
    + revert Htag. apply Forall_weaken. intros n Hn. exists p. split; [done|].
      unfold tag in *. congruence.
    + intros q Hq. destruct (Ho q Hq). auto.
    + intros bs _ _. split.
      * apply Forall_In. intros n Hn. apply (settled_rows dl bs n (tag b) out Hret). rewrite <-Hrows.
        intros x Hx. apply in_app_iff. left. apply in_concat. exists (block_rows n). split; [by apply in_map|done].
      * intros q ->. apply (settled_rows dl bs q (tag b) out Hret). rewrite <-Hrows.
        intros x Hx. apply in_app_iff. by right.
Qed.

Lemma merge_into_pending_rows outs o rd p b :
  live_block p -> live_block b -> tag p = tag b -> 0 <= rd < 2 ^ 62 ->
  exists new o' D,
    merge_into_pending (X := X) dl (mkMergeState outs o rd) p b
    = Ok (mkMergeState (outs ++ new) o' (rd + Z.of_nat (length D)), None) /\
    step_rows (Some p) b new o' D.
Proof.
  intros Lp Lb Ht Hrd. pose proof Lp as [Hp _]. pose proof Lb as [Hb _].
  assert (Hts : bh_tsid (b_bh p) = bh_tsid (b_bh b) /\ bh_scale (b_bh p) = bh_scale (b_bh b))
    by (unfold tag in Ht; by injection Ht). destruct Hts as [Htsid Hsc].
  pose proof (rows_of_length _ (po_unpacked _ _ Hp)) as Lenp. pose proof (rows_of_length _ (po_unpacked _ _ Hb)) as Lenb.
  unfold merge_into_pending. rewrite (calibrate_pending pb p b Hp Hb Hsc). cbn [ms_rows_deleted ms_sink].
  set (hdr := merged_header p b).
  destruct (merge_blocks_merges (E := Empty_set) (empty_block hdr) p b (rows_of p) (rows_of b) dl rd)
    as (out & Hm & Hs & Hperm);
    [by eapply pending_merge_input|by eapply pending_merge_input|done|unfold MAX_ROWS_PER_BLOCK in *; lia|congruence|done|].
  rewrite Hm, bind_Ok. change (add_rows (empty_block hdr) out) with (mk_rows hdr out).
  destruct (merged_rows (tag b) (rows_of p) (rows_of b) out Hperm) as (D & HD & Hg & HlD).
  rewrite <-Z.add_assoc, <-HlD.
  assert (HD' : Permutation (map (pair (tag b)) out ++ D) (block_rows p ++ block_rows b))
    by (unfold block_rows; by rewrite Ht).
  pose proof (perm_i64 p b out (po_unpacked _ _ Hp) (po_unpacked _ _ Hb) Hperm) as Hi.
  pose proof (fun new o' => split_out p b out D new o' Lp Lb Ht Hs Hperm HD' Hg) as Hsp.
  destruct (Hsp [] None) as [Hlive _].
  assert (Hlen : (length out <= length (rows_of p) + length (rows_of b))%nat).
  { rewrite Hperm. rewrite <-length_app. apply List.filter_length_le. }
  cbn [mk_rows b_timestamps]. rewrite length_fmap.
  destruct (Z.leb_spec (Z.of_nat (length out)) MAX_ROWS_PER_BLOCK) as [Hle|Hgt].
  - destruct (Nat.eqb_spec (length out) 0) as [H0|H0].
    + destruct out; [|done]. exists [], None, D. split; [by rewrite app_nil_r|].
      apply (Hsp [] None); [done|constructor..|done].
    + assert (Hne : out <> []) by (by destruct out).
      rewrite (fixup_mk_rows hdr out Hne), bind_Ok.
      exists [], (Some (mk_rows (set_min_max hdr (first_ts out) (last_ts out)) out)), D.
      split; [by rewrite app_nil_r|].
      apply (Hsp [] (Some _)); [exact (block_rows_mk (set_min_max hdr _ _) out)|constructor..|].
      intros q Hq. injection Hq as <-. split; [by apply Hlive|done].
  - set (n := Z.to_nat MAX_ROWS_PER_BLOCK).
    assert (Hn : Z.of_nat n = MAX_ROWS_PER_BLOCK) by (unfold n, MAX_ROWS_PER_BLOCK; lia). clearbody n.
    pose proof Hs as Hs'. rewrite <-(take_drop n out), fmap_app in Hs'. apply sortedZ_app in Hs' as (Hs1 & Hs2 & _).
    assert (Hd : drop n out <> []).
    { intros He. apply (f_equal length) in He. rewrite length_drop in He. cbn in He. lia. }
    assert (Hk : take n out <> []).
    { intros He. apply (f_equal length) in He. rewrite length_take in He. unfold MAX_ROWS_PER_BLOCK in *. cbn in He. lia. }
    unfold slice_from. cbn [mk_rows b_timestamps b_values]. rewrite !length_fmap, !decide_True by lia.
    rewrite !bind_Ok, <-!fmap_drop. cbn [b_bh mk_rows].
    rewrite (init_mk_rows _ _ _ (drop n out) Hd), bind_Ok.
    replace (truncate_rows n (mk_rows hdr out)) with (mk_rows hdr (take n out))
      by (unfold truncate_rows, mk_rows; cbn; by rewrite !fmap_take).
    rewrite (fixup_mk_rows hdr (take n out) Hk), bind_Ok. cbn [sink_write list_sink]. rewrite bind_Ok.
    eexists [_], (Some _), D. split; [reflexivity|].
    apply (Hsp [_] (Some _)).
    + rewrite all_rows_one. cbn [pend_rows]. rewrite !block_rows_mk, <-map_app. cbn. by rewrite take_drop.
    + constructor; [|constructor]. apply Hlive; try done; [rewrite length_take; lia|by apply Forall_take].
    + by constructor.
    + intros q Hq. injection Hq as <-. split; [|done].
      apply Hlive; try done; [rewrite length_drop; lia|by apply Forall_drop].
Qed.
End Step.

Section StepBlock.
  Context {Zs : Zstd} {X : Type} (deleted : Z -> bool) (dl pb : Z).
  Local Existing Instance list_sink.

Lemma skipped_block b o rd outs :
  source_ok pb b -> (forall p, o = Some p -> live_block deleted pb p) ->
  Forall (gone deleted dl) (block_rows b) -> 0 <= rd < 2 ^ 62 ->
  exists new o' D,
    (mkMergeState outs o (as_u64 (rd + bh_rows_count (b_bh b)))) =
      mkMergeState (outs ++ new) o' (rd + Z.of_nat (length D)) /\
    step_rows deleted dl pb o b new o' D.
Proof.
  intros [Hb Hc] Ho Hg Hrd. pose proof (rows_of_length _ (po_unpacked _ _ Hb)).
  exists [], o, (block_rows b). split.
  - rewrite app_nil_r. f_equal. unfold block_rows. rewrite length_map, Hc. apply wrap_u_id.
    unfold is_u, MAX_ROWS_PER_BLOCK in *. lia.
  - split; [done|done|constructor|constructor| |]; [intros p Hp; auto|intros bs _ Hs; by split].
Qed.

(** A block taken as the new pending one after the old one, if any, is
    written. *)
Lemma next_pending b o rd outs :
  live_block deleted pb b -> dl <= bh_max_timestamp (b_bh b) -> (forall p, o = Some p -> live_block deleted pb p) ->
  exists b', block_copy_from (E := Empty_set) b = Ok b' /\
    step_rows deleted dl pb o b (match o with Some p => [p] | None => [] end) (Some b') [] /\
    mkMergeState (outs ++ match o with Some p => [p] | None => [] end) (Some b') rd =
    mkMergeState (outs ++ match o with Some p => [p] | None => [] end) (Some b') (rd + Z.of_nat (length (A := row) [])).
Proof.
  intros [Hb Db] Hmax Ho. destruct (copy_pending (E := Empty_set) pb b Hb) as (b' & -> & Hb' & Ht & Hr).
  exists b'. split_and!; [done| |by rewrite Z.add_0_r].
  assert (bh_tsid (b_bh b') = bh_tsid (b_bh b)) as Htsid by (unfold tag in Ht; by injection Ht).
  split; [|done|..].
  - cbn [pend_rows]. rewrite Hr, app_nil_r. destruct o as [p|]; [by rewrite all_rows_one|done].
  - destruct o as [p|]; constructor; [by apply Ho|done].
  - destruct o as [p|]; constructor; [by exists p|done].
  - intros q Hq. injection Hq as <-. split; [|by left]. split; [done|by rewrite Htsid].
  - intros bs Hin Hs. split; [destruct o as [p|]; constructor; [by apply Hs|done]|].
    intros q Hq. injection Hq as <-. right. by exists b.
Qed.

Lemma merge_block_step_rows outs o rd b :
  source_ok pb b -> 0 <= rd < 2 ^ 62 ->
  (forall p, o = Some p -> live_block deleted pb p /\ tsid_le (bh_tsid (b_bh p)) (bh_tsid (b_bh b)) /\
    (metric_id (bh_tsid (b_bh p)) = metric_id (bh_tsid (b_bh b)) -> tag p = tag b)) ->
  exists new o' D,
    merge_block_step (X := X) deleted dl (mkMergeState outs o rd) b
    = Ok (mkMergeState (outs ++ new) o' (rd + Z.of_nat (length D)), None) /\
    step_rows deleted dl pb o b new o' D.
Proof.
  intros Hb Hrd Ho. pose proof (fun p H => proj1 (Ho p H)) as Hlive. pose proof Hb as [Hpb _].
  unfold merge_block_step. cbn [ms_sink ms_pending ms_rows_deleted].
  destruct (deleted (metric_id (bh_tsid (b_bh b)))) eqn:Hdel.
  { destruct (skipped_block b o rd outs Hb Hlive) as (new & o' & D & -> & Hsr); [|done|by exists new, o', D].
    apply Forall_map, Forall_In. intros x _. by left. }
  destruct (Z.ltb_spec (bh_max_timestamp (b_bh b)) dl) as [Hold|Hold].
  { destruct (skipped_block b o rd outs Hb Hlive) as (new & o' & D & -> & Hsr); [|done|by exists new, o', D].
    apply Forall_map, Forall_In. intros [t v] Hx. right. cbn. pose proof (po_range _ _ Hpb) as Hr.
    rewrite Forall_In in Hr. unfold rows_of in Hx. apply in_combine_l, Hr in Hx. lia. }
  pose proof (next_pending b o rd outs (conj Hpb Hdel) Hold Hlive) as (b' & Hcopy & Hsr & Heq).
  destruct o as [p|].
  - destruct (Ho p eq_refl) as (Lp & Hle & Htag).
    destruct (Z.eqb_spec (metric_id (bh_tsid (b_bh p))) (metric_id (bh_tsid (b_bh b)))) as [He|He]; cbn [negb].
    + destruct (block_too_big p && _).
      * cbn [sink_write list_sink]. rewrite bind_Ok, Hcopy, bind_Ok, Heq. eexists _, _, _. by split.
      * by apply merge_into_pending_rows; [|split|apply Htag|].
    + rewrite (assert_true (tsid_le _ _)) by (by apply Is_true_true). rewrite bind_Ok. cbn [sink_write list_sink].
      rewrite bind_Ok, Hcopy, bind_Ok, Heq. eexists _, _, _. by split.
  - rewrite Hcopy, bind_Ok. exists [], (Some b'), []. split; [by rewrite app_nil_r, Z.add_0_r|done].
Qed.
End StepBlock.

(** ** Lemmas: advancing the streams *)

Section Streams.
  Context {S X : Type} `{Src : BlockSource S X}.

(** The blocks a stream still yields, until it ends without an error. *)
Inductive yields : S -> list Block -> Prop :=
| yields_end s s' : src_next s = Ok (false, s') -> src_error s' = None -> yields s []
| yields_next s s' bs : src_next s = Ok (true, s') -> yields s' bs -> yields s (src_block s' :: bs).

(** Blocks of one metric id have one series identifier and one scale. *)
Definition one_series (bs : list Block) : Prop :=
  forall b b', In b bs -> In b' bs ->
    metric_id (bh_tsid (b_bh b)) = metric_id (bh_tsid (b_bh b')) -> tag b = tag b'.

Definition current (bsrs : list S) (i : nat) : Block :=
  match bsrs !! i with Some s => src_block s | None => Block_default end.

(** The blocks left in stream [i], the current one first. *)
Definition queue (bsrs : list S) (fut : nat -> list Block) (i : nat) : list Block :=
  current bsrs i :: fut i.

Definition remaining (heap : list nat) (bsrs : list S) (fut : nat -> list Block) : list Block :=
  concat (map (queue bsrs fut) heap).

Definition lex_less (bsrs : list S) (a b : nat) : bool :=
  bh_lex_less (stream_header bsrs a) (stream_header bsrs b).

Record merging (heap : list nat) (bsrs : list S) (fut : nat -> list Block) : Prop := {
  mg_nodup : NoDup heap;
  mg_streams : forall i, In i heap ->
    exists s, bsrs !! i = Some s /\ yields s (fut i) /\ blocks_sorted (queue bsrs fut i);
  mg_heap : heap_except (lex_less bsrs) 0 None heap;
}.

Lemma stream_header_current bsrs i : stream_header bsrs i = b_bh (current bsrs i).
Proof. unfold stream_header, current. by destruct (bsrs !! i). Qed.

Lemma lex_less_total bsrs a b : lex_less bsrs a b = true -> lex_less bsrs b a = false.
Proof.
  unfold lex_less, bh_lex_less, lex_ltb. rewrite (lex_compare_antisym (_ ++ _) (_ ++ _)).
  by destruct (lex_compare _ _).
Qed.

Lemma lex_less_trans bsrs a b c :
  lex_less bsrs b a = false -> lex_less bsrs c b = false -> lex_less bsrs c a = false.
Proof.
  unfold lex_less, bh_lex_less. rewrite !lex_ltb_leb. rewrite !negb_false_iff. rewrite <-!Is_true_true.
  apply lex_leb_trans.
Qed.

Lemma stream_less_lex heap bsrs fut :
  one_series (remaining heap bsrs fut) ->
  forall x y, In x heap -> In y heap -> stream_less bsrs x y = lex_less bsrs x y.
Proof.
  intros H1 x y Hx Hy. unfold stream_less, lex_less. rewrite !stream_header_current.
  apply bh_less_lex. intros Hid.
  assert (Hin : forall z, In z heap -> In (current bsrs z) (remaining heap bsrs fut)).
  { intros z Hz. apply in_concat. exists (queue bsrs fut z). split; [by apply in_map|by left]. }
  pose proof (H1 _ _ (Hin x Hx) (Hin y Hy) Hid) as Ht. unfold tag in Ht. by injection Ht.
Qed.

(** The top of the heap holds a block of a smallest series. *)
Lemma top_smallest heap bsrs fut top :
  merging heap bsrs fut -> heap !! 0%nat = Some top ->
  forall b, In b (remaining heap bsrs fut) -> tsid_le (bh_tsid (b_bh (current bsrs top))) (bh_tsid (b_bh b)).
Proof.
  intros Hm Htop b Hb. apply in_concat in Hb as (q & Hq & Hb). apply in_map_iff in Hq as (i & <- & Hi).
  pose proof (heap_root_min _ (lex_less_total bsrs) (lex_less_trans bsrs) heap top (mg_heap _ _ _ Hm) Htop i Hi) as Hmin.
  assert (Hle : tsid_le (bh_tsid (b_bh (current bsrs top))) (bh_tsid (b_bh (current bsrs i)))).
  { unfold lex_less, bh_lex_less in Hmin. rewrite lex_ltb_leb, negb_false_iff, !stream_header_current in Hmin.
    revert Hmin. unfold tsid_le, lex_leb, tsid_key. cbn [app lex_compare].
    repeat match goal with |- context [?x ?= ?y] => destruct (x ?= y) end; done. }
  destruct (mg_streams _ _ _ Hm i Hi) as (_ & _ & _ & Hs). unfold queue in Hs, Hb.
  destruct Hb as [<-|Hb]; [done|]. apply StronglySorted_cons in Hs as [Hs _]. rewrite Forall_In in Hs.
  eapply tsid_le_trans; [exact Hle|by apply Hs].
Qed.

Lemma remaining_perm h h' bsrs fut :
  Permutation h h' -> Permutation (remaining h bsrs fut) (remaining h' bsrs fut).
Proof. intros H. unfold remaining. by rewrite H. Qed.

Lemma one_series_perm bs bs' : Permutation bs bs' -> one_series bs -> one_series bs'.
Proof. intros Hp H b b' Hb Hb'. apply H; by apply (Permutation_in _ (Permutation_sym Hp)). Qed.

Lemma one_series_tail b bs : one_series (b :: bs) -> one_series bs.
Proof. intros H x y Hx Hy. apply H; by right. Qed.

(** Restoring the heap after its root has changed. *)
Lemma sift_root h bsrs fut :
  NoDup h ->
  (forall i, In i h -> exists s, bsrs !! i = Some s /\ yields s (fut i) /\ blocks_sorted (queue bsrs fut i)) ->
  one_series (remaining h bsrs fut) -> heap_except (lex_less bsrs) 0 (Some 0%nat) h ->
  let h' := sift_down (stream_less bsrs) (length h) h 0 in
  merging h' bsrs fut /\ Permutation h' h.
Proof.
  intros Hnd Hst H1 Hh h'. assert (Hp : Permutation h' h) by apply sift_down_perm.
  split; [|done]. split.
  - by rewrite Hp.
  - intros i Hi. apply Hst. by apply (Permutation_in _ Hp).
  - unfold h'. rewrite (sift_down_ext _ (lex_less bsrs)) by (by eapply stream_less_lex).
    apply sift_down_heap; [apply lex_less_total|apply lex_less_trans|lia|lia|done|].
    intros p c a b Hp0. unfold child in Hp0. lia.
Qed.


Lemma current_other bsrs top s' i : i <> top -> current (<[top := s']> bsrs) i = current bsrs i.
Proof. intros. unfold current. by rewrite list_lookup_insert_ne. Qed.

Lemma lex_less_other bsrs top s' a b :
  a <> top -> b <> top -> lex_less (<[top := s']> bsrs) a b = lex_less bsrs a b.
Proof. intros. unfold lex_less. by rewrite !stream_header_current, !current_other. Qed.

Lemma advance_heap heap bsrs fut top :
  merging heap bsrs fut -> one_series (remaining heap bsrs fut) -> heap !! 0%nat = Some top ->
  exists heap' bsrs' fut',
    next_block_internal heap bsrs
    = Ok (heap', bsrs', match heap' with [] => Some BsmEof | _ => None end) /\
    merging heap' bsrs' fut' /\
    Permutation (remaining heap bsrs fut) (current bsrs top :: remaining heap' bsrs' fut').
Proof.
  intros Hm H1 Htop. destruct heap as [|top' t]; [done|]. injection Htop as ->.
  destruct (mg_streams _ _ _ Hm top) as (s & Hs & Hy & Hsort); [by left|].
  pose proof (mg_nodup _ _ _ Hm) as Hnd. inversion_clear Hnd as [|? ? Hnt Hndt].
  rewrite list_elem_of_In in Hnt.
  assert (Hlook : forall p x, (0 < p)%nat -> (top :: t) !! p = Some x -> x <> top).
  { intros [|p] x Hp Hx; [lia|]. cbn in Hx. intros ->. apply Hnt. by eapply list_elem_of_In, list_elem_of_lookup_2. }
  assert (Hin : forall s', bsrs !! top = Some s -> (<[top := s']> bsrs) !! top = Some s').
  { intros s' H. apply list_lookup_insert_eq. by eapply lookup_lt_Some. }
  unfold next_block_internal. cbn [idx lookup list_lookup]. rewrite bind_Ok. unfold idx. rewrite Hs, bind_Ok.
  inversion Hy as [s0 s' Hn He E1 E2|s0 s' bs Hn Hy' E1 E2]; subst s0; rewrite Hn, bind_Ok; cbv beta iota.
  - rewrite He. pose proof (pop_root top t) as [Hp Hl]. cbv zeta.
    set (h1 := take _ _) in *.
    assert (Hmap : map (queue (<[top := s']> bsrs) fut) t = map (queue bsrs fut) t).
    { apply map_ext_in. intros i Hi. unfold queue. rewrite current_other; [done|]. by intros ->. }
    assert (Hrem : Permutation (remaining (top :: t) bsrs fut)
      (current bsrs top :: remaining h1 (<[top := s']> bsrs) fut)).
    { rewrite (remaining_perm _ _ _ _ Hp). unfold remaining. rewrite Hmap. cbn. unfold queue at 1. by rewrite <-E2. }
    destruct (sift_root h1 (<[top := s']> bsrs) fut) as [Hmg Hp'].
    + by rewrite Hp.
    + intros i Hi. apply (Permutation_in _ Hp) in Hi. assert (i <> top) by (by intros ->).
      destruct (mg_streams _ _ _ Hm i) as (si & Hsi & Hyi & Hbi); [by right|]. exists si.
      unfold queue in *. rewrite list_lookup_insert_ne, current_other by done. done.
    + eapply one_series_tail, one_series_perm; [exact Hrem|done].
    + eapply heap_below_root; [apply Hm|exact Hl|]. intros p c a b Hp0 Hc0 Ha Hb.
      apply lex_less_other; [exact (Hlook c b Hc0 Hb)|exact (Hlook p a Hp0 Ha)].
    + eexists _, _, fut. split; [|split; [exact Hmg|by rewrite (remaining_perm _ _ _ _ Hp')]].
      destruct (sift_down _ _ h1 0) eqn:Hsd; done.
  - set (fut' := fun i => if decide (i = top) then bs else fut i).
    assert (Hft : fut' top = bs) by (unfold fut'; by rewrite decide_True).
    assert (Hfo : forall i, i <> top -> fut' i = fut i) by (intros; unfold fut'; by rewrite decide_False).
    assert (Hcur : current (<[top := s']> bsrs) top = src_block s') by (unfold current; by rewrite Hin).
    assert (Hmap : map (queue (<[top := s']> bsrs) fut') t = map (queue bsrs fut) t).
    { apply map_ext_in. intros i Hi. assert (i <> top) by (by intros ->). unfold queue.
      by rewrite current_other, Hfo. }
    assert (Hrem : remaining (top :: t) bsrs fut = current bsrs top :: remaining (top :: t) (<[top := s']> bsrs) fut').
    { unfold remaining. cbn [map concat]. rewrite Hmap. unfold queue at 1 3. rewrite Hcur, Hft, <-E2. done. }
    destruct (sift_root (top :: t) (<[top := s']> bsrs) fut') as [Hmg Hp'].
    + apply Hm.
    + intros i [<-|Hi].
      * exists s'. rewrite Hin, Hft by done. unfold queue in *. rewrite Hcur, Hft. split_and!; [done..|].
        rewrite <-E2 in Hsort. by apply StronglySorted_cons in Hsort as [_ ?].
      * assert (i <> top) by (by intros ->). destruct (mg_streams _ _ _ Hm i) as (si & Hsi & Hyi & Hbi); [by right|].
        exists si. unfold queue in *. rewrite list_lookup_insert_ne, current_other, Hfo by done. done.
    + rewrite Hrem in H1. by eapply one_series_tail.
    + eapply heap_below_root; [apply Hm|by left|]. intros p c a b Hp0 Hc0 Ha Hb.
      apply lex_less_other; [exact (Hlook c b Hc0 Hb)|exact (Hlook p a Hp0 Ha)].
    + eexists _, _, fut'. split; [|split; [exact Hmg|]].
      * destruct (sift_down _ _ (top :: t) 0) eqn:Hsd; [|done]. apply Permutation_nil in Hp'. done.
      * rewrite (remaining_perm _ _ _ _ Hp'), Hrem. done.
Qed.
End Streams.

(** ** Lemmas: the start of the merge *)

Section Init.
  Context {S X : Type} `{Src : BlockSource S X}.

Lemma init_loop_yields bsrs bss i :
  Forall2 yields bsrs bss ->
  exists bsrs' heap, init_loop i bsrs = Ok (bsrs', heap, None) /\
    NoDup heap /\ (forall j, In j heap -> (i <= j)%nat /\ exists s b bs, bsrs' !! (j - i)%nat = Some s /\
      bss !! (j - i)%nat = Some (b :: bs) /\ src_block s = b /\ yields s bs) /\
    concat (map (fun j => default [] (bss !! (j - i)%nat)) heap) = concat bss.
Proof.
  intros H. revert i. induction H as [|s bs bsrs bss Hy _ IH]; intros i; cbn [init_loop].
  { exists [], []. split_and!; [done|constructor|done|done]. }
  destruct (IH (Datatypes.S i)) as (bsrs' & heap & Hi & Hnd & Hst & Hc).
  assert (Hshift : forall j, In j heap -> (j - i)%nat = Datatypes.S (j - Datatypes.S i)).
  { intros j Hj. apply Hst in Hj as [? _]. lia. }
  assert (Hmap : forall l, map (fun j => default [] ((l :: bss) !! (j - i)%nat)) heap =
    map (fun j => default [] (bss !! (j - Datatypes.S i)%nat)) heap).
  { intros l. apply map_ext_in. intros j Hj. by rewrite (Hshift j Hj). }
  inversion Hy as [s0 s' Hn He E1 E2|s0 s' bs' Hn Hy' E1 E2]; subst s0; rewrite Hn, bind_Ok; cbv beta iota.
  - rewrite He, Hi, bind_Ok. exists (s' :: bsrs'), heap. split_and!; [done|done| |].
    + intros j Hj. rewrite (Hshift j Hj). apply Hst in Hj as [Hle Hj]. split; [lia|exact Hj].
    + by rewrite Hmap, Hc.
  - rewrite Hi, bind_Ok. exists (s' :: bsrs'), (i :: heap). split_and!; [done| | |].
    + constructor; [|done]. rewrite list_elem_of_In. intros Hin. apply Hst in Hin as [? _]. lia.
    + intros j [<-|Hj].
      * rewrite Nat.sub_diag. split; [lia|]. by exists s', (src_block s'), bs'.
      * rewrite (Hshift j Hj). apply Hst in Hj as [Hle Hj]. split; [lia|exact Hj].
    + cbn [map concat]. rewrite Hmap, Hc, Nat.sub_diag. done.
Qed.

Lemma bsm_init_yields dl bsrs bss :
  Forall2 yields bsrs bss -> Forall blocks_sorted bss -> one_series (concat bss) ->
  (exists bsrs', bsm_init (bsm_new dl) bsrs = Ok (mkMerger [] dl false (Some BsmEof), bsrs') /\ concat bss = []) \/
  exists heap bsrs' fut,
    bsm_init (bsm_new dl) bsrs = Ok (mkMerger heap dl true None, bsrs') /\ heap <> [] /\
    merging heap bsrs' fut /\ Permutation (remaining heap bsrs' fut) (concat bss).
Proof.
  intros Hy Hs H1. destruct (init_loop_yields bsrs bss 0 Hy) as (bsrs' & heap & Hi & Hnd & Hst & Hc).
  assert (Hst0 : forall j, In j heap -> exists s b bs, bsrs' !! j = Some s /\ bss !! j = Some (b :: bs) /\
    src_block s = b /\ yields s bs).
  { intros j Hj. destruct (Hst j Hj) as [_ (s & b & bs & Hj')]. rewrite Nat.sub_0_r in Hj'. by exists s, b, bs. }
  unfold bsm_init. rewrite Hi, bind_Ok. cbn [bsm_heap bsm_new app bsm_retention_deadline bsm_next_block_noop bsm_err].
  destruct (Nat.eqb_spec (length heap) 0) as [H0|H0].
  { left. destruct heap; [|done]. exists bsrs'. split; [done|]. by rewrite <-Hc. }
  right. set (fut := fun j => tail (default [] (bss !! j))).
  assert (Hq : forall j, In j heap -> queue bsrs' fut j = default [] (bss !! j)).
  { intros j Hj. destruct (Hst0 j Hj) as (s & b & bs & E1 & E2 & E3 & _). unfold queue, current, fut.
    rewrite E1, E2, E3. done. }
  assert (Hrem : remaining heap bsrs' fut = concat bss).
  { rewrite <-Hc. unfold remaining. f_equal. apply map_ext_in. intros j Hj. rewrite Nat.sub_0_r. by apply Hq. }
  rewrite (heap_init_ext _ (lex_less bsrs')) by (eapply stream_less_lex; by rewrite Hrem).
  destruct (heap_init_heap _ (lex_less_total bsrs') (lex_less_trans bsrs') heap) as [Hh Hp].
  exists (heap_init (lex_less bsrs') heap), bsrs', fut. split_and!; [done| | |].
  - intros He. rewrite He in Hp. apply Permutation_nil in Hp. by subst heap.
  - split; [by rewrite Hp| |done]. intros j Hj. apply (Permutation_in _ Hp) in Hj. rewrite (Hq j Hj).
    destruct (Hst0 j Hj) as (s & b & bs & E1 & E2 & E3 & E4). exists s. unfold fut. rewrite E2. cbn.
    split_and!; [done..|]. rewrite Forall_forall in Hs. apply Hs. by eapply list_elem_of_lookup_2.
  - rewrite <-Hrem. by apply remaining_perm.
Qed.
End Init.

(** ** Lemmas: the whole loop *)

Section Loop.
  Context {Zs : Zstd} {S X : Type} `{Src : BlockSource S X} (deleted : Z -> bool) (dl pb : Z).
  Local Existing Instance list_sink.

Abbreviation tsid_of_block b := (bh_tsid (b_bh b)).

(** What the loop makes of a pending block and the blocks left: written
    blocks, sorted by series, a pending block, and deleted rows. *)
Record loop_rows (o : option Block) (bs new : list Block) (o' : option Block) (D : list row) : Prop := {
  lr_perm : Permutation (all_rows new ++ pend_rows o' ++ D) (pend_rows o ++ all_rows bs);
  lr_gone : Forall (gone deleted dl) D;
  lr_new : Forall (live_block deleted pb) new;
  lr_pending : forall p, o' = Some p -> live_block deleted pb p;
  lr_sorted : blocks_sorted (new ++ option_list o');
  lr_lower : forall t, (forall p, o = Some p -> tsid_le t (tsid_of_block p)) ->
    Forall (fun b => tsid_le t (tsid_of_block b)) bs ->
    Forall (fun b => tsid_le t (tsid_of_block b)) (new ++ option_list o');
  lr_settled : forall inputs, incl bs inputs -> (forall p, o = Some p -> settled dl inputs p) ->
    Forall (settled dl inputs) (new ++ option_list o');
}.

(** The pending block comes before the blocks left. *)
Definition pending_before (o : option Block) (bs : list Block) : Prop :=
  forall p, o = Some p -> live_block deleted pb p /\ forall b, In b bs ->
    tsid_le (tsid_of_block p) (tsid_of_block b) /\
    (metric_id (tsid_of_block p) = metric_id (tsid_of_block b) -> tag p = tag b).

Lemma tag_tsid b b' : tag b = tag b' -> tsid_of_block b = tsid_of_block b'.
Proof. unfold tag. by intros [= -> _]. Qed.

Lemma step_pending_before o b bs new o' D :
  step_rows deleted dl pb o b new o' D -> pending_before o (b :: bs) -> one_series (b :: bs) ->
  Forall (fun x => tsid_le (tsid_of_block b) (tsid_of_block x)) bs -> pending_before o' bs.
Proof.
  intros Hs Ho H1 Hle p Hp. destruct (sr_pending _ _ _ _ _ _ _ _ Hs p Hp) as [Hlive [Ht|Hsame]].
  - split; [done|]. intros x Hx. rewrite (tag_tsid _ _ Ht), Ht. rewrite Forall_In in Hle.
    split; [by apply Hle|]. intros Hid. apply H1; [by left|by right|done].
  - destruct (Ho p Hsame) as [_ Hb]. split; [done|]. intros x Hx. apply Hb. by right.
Qed.

Lemma step_lower o b new o' D t :
  step_rows deleted dl pb o b new o' D -> (forall p, o = Some p -> tsid_le t (tsid_of_block p)) ->
  tsid_le t (tsid_of_block b) ->
  Forall (fun b => tsid_le t (tsid_of_block b)) new /\ forall p, o' = Some p -> tsid_le t (tsid_of_block p).
Proof.
  intros Hs Ho Hb. split.
  - pose proof (sr_new_tsid _ _ _ _ _ _ _ _ Hs) as Hn. revert Hn. apply Forall_weaken.
    intros n (p & Hp & ->). by apply Ho.
  - intros p Hp. destruct (sr_pending _ _ _ _ _ _ _ _ Hs p Hp) as [_ [Ht|Hsame]]; [by rewrite (tag_tsid _ _ Ht)|auto].
Qed.

(** A list of blocks of one series before blocks of no smaller series. *)
Lemma blocks_sorted_app t (l1 l2 : list Block) :
  Forall (fun b => tsid_of_block b = t) l1 -> blocks_sorted l2 ->
  Forall (fun b => tsid_le t (tsid_of_block b)) l2 -> blocks_sorted (l1 ++ l2).
Proof.
  intros H1 H2 H3. induction H1 as [|b l1 Hb H1 IH]; [done|]. cbn. constructor; [done|].
  rewrite Hb. apply Forall_app. split; [|done]. revert H1. apply Forall_weaken. intros x ->. apply tsid_le_refl.
Qed.

Lemma loop_rows_step o b bs new o1 D new' o' D' :
  step_rows deleted dl pb o b new o1 D -> pending_before o (b :: bs) ->
  loop_rows o1 bs new' o' D' -> loop_rows o (b :: bs) (new ++ new') o' (D ++ D').
Proof.
  intros Hs Ho Hl. split.
  - rewrite all_rows_app, all_rows_cons. rewrite (app_assoc (pend_rows o)), <-(sr_perm _ _ _ _ _ _ _ _ Hs).
    rewrite <-!app_assoc. apply Permutation_app_head.
    rewrite (Permutation_app_comm D D'), (Permutation_app_comm D (all_rows bs)).
    rewrite (app_assoc (pend_rows o1)), <-(lr_perm _ _ _ _ _ Hl). by rewrite <-!app_assoc.
  - apply Forall_app. split; [apply Hs|apply Hl].
  - apply Forall_app. split; [apply Hs|apply Hl].
  - apply Hl.
  - rewrite <-app_assoc. destruct new as [|n new]; [apply Hl|].
    pose proof (sr_new_tsid _ _ _ _ _ _ _ _ Hs) as Hn. inversion_clear Hn as [|? ? (p & Hp & E) Hn'].
    destruct (Ho p Hp) as [_ Hlow]. apply (blocks_sorted_app (tsid_of_block p)).
    + constructor; [done|]. revert Hn'. apply Forall_weaken. intros y (q & Hq & Hy). congruence.
    + apply Hl.
    + apply (lr_lower _ _ _ _ _ Hl).
      * apply (step_lower _ _ _ _ _ _ Hs); [|by apply Hlow; left]. intros q Hq.
        assert (q = p) as -> by congruence. apply tsid_le_refl.
      * apply Forall_In. intros y Hy. by apply Hlow; right.
  - intros t Ht Hb. inversion_clear Hb as [|? ? Hb1 Hb2].
    destruct (step_lower _ _ _ _ _ t Hs Ht Hb1) as [L1 L2]. rewrite <-app_assoc. apply Forall_app.
    split; [done|]. by apply (lr_lower _ _ _ _ _ Hl).
  - intros inputs Hi Hp. destruct (sr_settled _ _ _ _ _ _ _ _ Hs inputs) as [S1 S2]; [by apply Hi; left|done|].
    rewrite <-app_assoc. apply Forall_app. split; [done|]. apply (lr_settled _ _ _ _ _ Hl); [|done].
    intros x Hx. by apply Hi; right.
Qed.

Lemma loop_rows_end o : pending_before o [] -> loop_rows o [] [] o [].
Proof.
  intros Ho. split; [unfold all_rows; cbn; by rewrite app_nil_r|constructor|constructor| | | |].
  - intros p Hp. by apply Ho.
  - destruct o; repeat constructor.
  - intros t Ht _. destruct o as [p|]; constructor; [by apply Ht|constructor].
  - intros inputs _ Hs. destruct o as [p|]; constructor; [by apply Hs|constructor].
Qed.
End Loop.

Section RunLoop.
  Context {Zs : Zstd} {S X : Type} `{Src : BlockSource S X} (deleted : Z -> bool) (dl pb : Z).
  Local Existing Instance list_sink.
  Abbreviation never := (fun _ : nat => false).

(** Advancing first and then handling the top is a round that starts with the
    streams advanced. *)
Lemma loop_advance fuel k heap bsrs heap' bsrs' (st : merge_state (list Block)) :
  next_block_internal heap bsrs = Ok (heap', bsrs', None) ->
  merge_streams_loop (Datatypes.S fuel) k never deleted (mkMerger heap dl false None) bsrs st =
  merge_streams_loop (Datatypes.S fuel) k never deleted (mkMerger (X := X) heap' dl true None) bsrs' st.
Proof.
  intros Hn. cbn [merge_streams_loop bsm_next_block bsm_err bsm_next_block_noop bsm_heap bsm_retention_deadline].
  rewrite Hn, !bind_Ok. done.
Qed.

Lemma loop_finished fuel k heap bsrs bsrs' (st : merge_state (list Block)) :
  next_block_internal heap bsrs = Ok ([], bsrs', Some BsmEof) ->
  merge_streams_loop (Datatypes.S fuel) k never deleted (mkMerger (X := X) heap dl false None) bsrs st =
  Ok (st, mkMerger [] dl false (Some BsmEof), None).
Proof.
  intros Hn. cbn [merge_streams_loop bsm_next_block bsm_err bsm_next_block_noop bsm_heap bsm_retention_deadline].
  rewrite Hn, !bind_Ok. done.
Qed.

Lemma length_block_rows b : length (block_rows b) = length (rows_of b).
Proof. apply length_map. Qed.

Lemma merge_streams_loop_rows fuel : forall k heap bsrs fut outs o rd,
  merging heap bsrs fut -> heap <> [] -> one_series (remaining heap bsrs fut) ->
  Forall (source_ok pb) (remaining heap bsrs fut) ->
  pending_before deleted pb o (remaining heap bsrs fut) ->
  (length (remaining heap bsrs fut) < fuel)%nat -> 0 <= rd ->
  rd + Z.of_nat (length (pend_rows o)) + Z.of_nat (length (all_rows (remaining heap bsrs fut))) < 2 ^ 62 ->
  exists new o' D bsm,
    merge_streams_loop fuel k never deleted (mkMerger (X := X) heap dl true None) bsrs (mkMergeState outs o rd)
    = Ok (mkMergeState (outs ++ new) o' (rd + Z.of_nat (length D)), bsm, None) /\ bsm_error_of bsm = None /\
    loop_rows deleted dl pb o (remaining heap bsrs fut) new o' D.
Proof.
  induction fuel as [|fuel IH]; intros k heap bsrs fut outs o rd Hm Hne H1 Hok Hbef Hf Hrd Hsz; [lia|].
  assert (exists top, heap !! 0%nat = Some top) as [top Htop] by (destruct heap as [|top]; [done|by exists top]).
  destruct (advance_heap heap bsrs fut top Hm H1 Htop) as (heap' & bsrs' & fut' & Hadv & Hm' & Hperm).
  set (R := remaining heap bsrs fut) in *. set (R' := remaining heap' bsrs' fut') in *.
  set (b := current bsrs top) in *.
  assert (Hbef' : pending_before deleted pb o (b :: R')).
  { intros p Hp. destruct (Hbef p Hp) as [Hl Hb]. split; [done|]. intros x Hx. apply Hb.
    by apply (Permutation_in _ (Permutation_sym Hperm)). }
  assert (Hlow : Forall (fun x => tsid_le (bh_tsid (b_bh b)) (bh_tsid (b_bh x))) R').
  { apply Forall_In. intros x Hx. apply (top_smallest heap bsrs fut top Hm Htop).
    apply (Permutation_in _ (Permutation_sym Hperm)). by right. }
  pose proof (one_series_perm _ _ Hperm H1) as H1'. rewrite Hperm in Hok. inversion_clear Hok as [|? ? Hokb HokR].
  assert (Hlen : length R = Datatypes.S (length R')) by (by rewrite Hperm).
  assert (Hlr : length (all_rows R) = (length (rows_of b) + length (all_rows R'))%nat).
  { rewrite (all_rows_perm _ _ Hperm), all_rows_cons, length_app. by rewrite length_block_rows. }
  destruct (mg_streams _ _ _ Hm top) as (s & Hs & _); [by eapply list_elem_of_In, list_elem_of_lookup_2|].
  destruct (merge_block_step_rows (X := X) deleted dl pb outs o rd b) as (new & o1 & D & Hstep & Hsr); [done|lia| |].
  { intros p Hp. destruct (Hbef' p Hp) as [Hl Hb]. split; [done|]. apply Hb. by left. }
  cbn [merge_streams_loop bsm_next_block bsm_err bsm_next_block_noop bsm_heap bsm_retention_deadline negb].
  rewrite bind_Ok. cbv beta iota. cbn [negb]. unfold bsm_top, idx. cbn [bsm_heap]. rewrite Htop, bind_Ok, Hs, bind_Ok. replace (src_block s) with b by (unfold b, current; by rewrite Hs).
  cbn [bsm_retention_deadline]. rewrite Hstep, bind_Ok. cbv beta iota.
  destruct fuel as [|fuel]; [lia|].
  pose proof (step_pending_before _ _ _ _ _ _ _ _ _ Hsr Hbef' H1' Hlow) as Hbef1.
  assert (Htrans : forall new o' D, loop_rows deleted dl pb o (b :: R') new o' D -> loop_rows deleted dl pb o R new o' D).
  { intros n' o'' D'' [P1 P2 P3 P4 P5 P6 P7]. split; [|done..| |].
    - by rewrite P1, (all_rows_perm _ _ Hperm).
    - intros t0 Ht0 Hb0. apply P6; [done|]. by rewrite <-Hperm.
    - intros inputs Hi. apply P7. intros y Hy. apply Hi. by apply (Permutation_in _ (Permutation_sym Hperm)). }
  destruct heap' as [|x heap'].
  - assert (R' = []) as HR' by done. rewrite (loop_finished _ _ _ _ _ _ Hadv).
    exists new, o1, D, (mkMerger [] dl false (Some BsmEof)). split_and!; [done..|]. apply Htrans. rewrite HR' in *.
    rewrite <-(app_nil_r new), <-(app_nil_r D).
    eapply loop_rows_step; [exact Hsr|done|by apply loop_rows_end].
  - rewrite (loop_advance _ _ _ _ _ _ _ Hadv).
    pose proof (Permutation_length (sr_perm _ _ _ _ _ _ _ _ Hsr)) as HlD. rewrite !length_app, length_block_rows in HlD.
    destruct (IH (Datatypes.S k) (x :: heap') bsrs' fut' (outs ++ new) o1 (rd + Z.of_nat (length D)))
      as (new' & o' & D' & bsm & Hloop & Herr & Hlr'); try done; [by eapply one_series_tail|fold R'; lia|lia|fold R'; lia|].
    exists (new ++ new'), o', (D ++ D'), bsm. split_and!; [|done|].
    + rewrite Hloop, length_app, <-app_assoc. do 4 f_equal. lia.
    + apply Htrans. by eapply loop_rows_step.
Qed.
End RunLoop.

(** ** The merge, for any destination *)

Section MergeList.
  Context {Zs : Zstd} {S X : Type} `{Src : BlockSource S X} (deleted : Z -> bool) (dl pb : Z).
  Local Existing Instance list_sink.

(** The input of a merge: streams that yield blocks sorted by series, blocks
    the loop can hold, one identifier and one scale per metric id. *)
Record merge_sources (bsrs : list S) (bss : list (list Block)) : Prop := {
  msr_yields : Forall2 yields bsrs bss;
  msr_sorted : Forall blocks_sorted bss;
  msr_series : one_series (concat bss);
  msr_ok : Forall (source_ok pb) (concat bss);
  msr_size : Z.of_nat (length (all_rows (concat bss))) < 2 ^ 62;
}.

(** The output: the rows kept, in blocks sorted by series, and the rows
    dropped, which are rows of deleted metrics or out of the retention; no row
    of a deleted metric is kept, and a row out of the retention only with its
    whole block, one that reaches into the retention. *)
Record merge_output (inputs outs : list Block) (D : list row) : Prop := {
  mo_rows : Permutation (all_rows outs ++ D) (all_rows inputs);
  mo_gone : Forall (gone deleted dl) D;
  mo_live : Forall (live_block deleted pb) outs;
  mo_sorted : blocks_sorted outs;
  mo_settled : Forall (settled dl inputs) outs;
}.

Lemma loop_rows_output bs new o D :
  loop_rows deleted dl pb None bs new o D -> merge_output bs (new ++ option_list o) D.
Proof.
  intros [P1 P2 P3 P4 P5 _ P7]. split; [|done| |done|apply P7; [apply incl_refl|done]].
  - change (pend_rows None ++ all_rows bs) with (all_rows bs) in P1. rewrite <-P1, all_rows_app, <-app_assoc.
    destruct o as [p|]; [change (option_list (Some p)) with [p]; by rewrite all_rows_one|done].
  - apply Forall_app. split; [done|]. destruct o as [p|]; constructor; [by apply P4|constructor].
Qed.

Lemma merge_streams_list fuel bsrs bss :
  merge_sources bsrs bss -> (length (concat bss) < fuel)%nat ->
  exists outs D,
    merge_streams (X := X) fuel (fun _ => false) deleted dl bsrs [] = Ok (outs, Z.of_nat (length D), None) /\
    merge_output (concat bss) outs D.
Proof.
  intros [Hy Hs H1 Hok Hsz] Hf. unfold merge_streams.
  destruct (bsm_init_yields dl bsrs bss Hy Hs H1) as [(bsrs' & -> & Hnil)|(heap & bsrs' & fut & -> & Hne & Hm & Hp)];
    rewrite bind_Ok; cbv beta iota; unfold merge_block_streams_internal.
  - exists [], []. rewrite Hnil. destruct fuel as [|fuel]; [lia|].
    cbn [merge_streams_loop bsm_next_block bsm_err]. rewrite !bind_Ok. split; [done|].
    split; [done|constructor..].
  - destruct (merge_streams_loop_rows (X := X) deleted dl pb fuel 0 heap bsrs' fut [] None 0)
      as (new & o & D & bsm & Hl & He & Hr); try done.
    + by eapply one_series_perm.
    + by rewrite Hp.
    + by rewrite (Permutation_length Hp).
    + cbn [pend_rows length]. rewrite (Permutation_length (all_rows_perm _ _ Hp)). lia.
    + rewrite Hl, bind_Ok, He. cbn [ms_pending ms_sink ms_rows_deleted app].
      exists (new ++ option_list o), D. split.
      * destruct o as [p|]; cbn [sink_write list_sink option_list]; [done|by rewrite app_nil_r].
      * apply loop_rows_output in Hr as [R1 R2 R3 R4 R5]. split; try done; [by rewrite R1, (all_rows_perm _ _ Hp)|].
        revert R5. apply Forall_weaken. intros n. apply settled_incl. intros x Hx. by apply (Permutation_in _ Hp).
Qed.
End MergeList.

(** The merge writes the same blocks to every destination. *)
Section AnySink.
  Context {Zs : Zstd} {S X W : Type} `{Src : BlockSource S X} `{Snk : BlockSink W} (deleted : Z -> bool).
  Abbreviation lstep := (@merge_block_step Zs X (list Block) list_sink).
  Abbreviation lloop := (@merge_streams_loop Zs S X (list Block) Src list_sink).

Fixpoint write_all (w : W) (bs : list Block) : res Empty_set W :=
  match bs with
  | [] => Ok w
  | b :: bs => w ← sink_write w b; write_all w bs
  end.

Lemma write_all_app w bs1 bs2 : write_all w (bs1 ++ bs2) = w ← write_all w bs1; write_all w bs2.
Proof.
  revert w. induction bs1 as [|b bs1 IH]; intros w; cbn; [done|].
  destruct (sink_write w b) as [w'| |]; cbn; [apply IH|done|done].
Qed.

Lemma write_all_one w b w' : write_all w [b] = Ok w' -> sink_write w b = Ok w'.
Proof. cbn. by destruct (sink_write w b). Qed.

Lemma merge_into_pending_any dl outs o rd p b st' e :
  @merge_into_pending Zs X (list Block) list_sink dl (mkMergeState outs o rd) p b = Ok (st', e) ->
  exists new, ms_sink st' = outs ++ new /\
    forall w w', write_all w new = Ok w' ->
      merge_into_pending (X := X) dl (mkMergeState w o rd) p b
      = Ok (mkMergeState w' (ms_pending st') (ms_rows_deleted st'), e).
Proof.
  unfold merge_into_pending. cbn [ms_sink ms_pending ms_rows_deleted].
  generalize (Z.to_nat MAX_ROWS_PER_BLOCK) as n. generalize MAX_ROWS_PER_BLOCK as m. intros m n.
  destruct (unmarshal_and_calibrate_scale p b) as [[p' b']|x|]; [|intros [= <- <-]|done].
  2: { exists []. rewrite app_nil_r. split; [done|]. by intros w w' [= ->]. }
  intros H. apply bind_ok in H as ([tmp rd'] & -> & H). cbn [mbind res_bind]. revert H.
  destruct (_ <=? _); [destruct (_ =? _)%nat|].
  - intros [= <- <-]. exists []. rewrite app_nil_r. split; [done|]. by intros w w' [= ->].
  - intros (tmp' & -> & [= <- <-])%bind_ok. exists []. rewrite app_nil_r. split; [done|].
    cbn [mbind res_bind]. by intros w w' [= ->].
  - intros (ts & -> & H)%bind_ok. cbn [mbind res_bind]. apply bind_ok in H as (vs & -> & H). cbn [mbind res_bind].
    apply bind_ok in H as (q & -> & H). cbn [mbind res_bind]. apply bind_ok in H as (tmp' & -> & H). cbn [mbind res_bind].
    cbn [sink_write list_sink mbind res_bind] in H. injection H as <- <-.
    exists [tmp']. split; [done|]. by intros w w' ->%write_all_one.
Qed.

Lemma merge_block_step_any dl outs o rd b st' e :
  lstep deleted dl (mkMergeState outs o rd) b = Ok (st', e) ->
  exists new, ms_sink st' = outs ++ new /\
    forall w w', write_all w new = Ok w' ->
      merge_block_step (X := X) deleted dl (mkMergeState w o rd) b
      = Ok (mkMergeState w' (ms_pending st') (ms_rows_deleted st'), e).
Proof.
  unfold merge_block_step. cbn [ms_sink ms_pending ms_rows_deleted].
  assert (Hnil : forall (st : merge_state (list Block)) (run : W -> res Empty_set (merge_state W * option (MergeError X))),
    ms_sink st = outs -> (forall w, run w = Ok (mkMergeState w (ms_pending st) (ms_rows_deleted st), None)) ->
    exists new, ms_sink st = outs ++ new /\ forall w w', write_all w new = Ok w' ->
      run w = Ok (mkMergeState w' (ms_pending st) (ms_rows_deleted st), None)).
  { intros st run Hs Hr. exists []. rewrite app_nil_r. split; [done|]. intros w w' [= ->]. apply Hr. }
  destruct (deleted _); [intros [= <- <-]; by apply Hnil|].
  destruct (_ <? _); [intros [= <- <-]; by apply Hnil|].
  destruct o as [p|].
  - destruct (negb _); [|destruct (_ && _)].
    + intros H. apply bind_ok in H as (u & -> & H). cbn [mbind res_bind] in H. cbn [sink_write list_sink mbind res_bind] in H.
      apply bind_ok in H as (q & -> & [= <- <-]). exists [p]. split; [done|].
      intros w w' ->%write_all_one. done.
    + intros H. cbn [mbind res_bind] in H. cbn [sink_write list_sink mbind res_bind] in H.
      apply bind_ok in H as (q & -> & [= <- <-]). exists [p]. split; [done|].
      intros w w' ->%write_all_one. done.
    + apply merge_into_pending_any.
  - intros (q & -> & [= <- <-])%bind_ok. by apply Hnil.
Qed.

Lemma merge_streams_loop_any fuel : forall k stop bsm bsrs outs o rd st' bsm' e,
  lloop fuel k stop deleted bsm bsrs (mkMergeState outs o rd) = Ok (st', bsm', e) ->
  exists new, ms_sink st' = outs ++ new /\
    forall w w', write_all w new = Ok w' ->
      merge_streams_loop (X := X) fuel k stop deleted bsm bsrs (mkMergeState w o rd)
      = Ok (mkMergeState w' (ms_pending st') (ms_rows_deleted st'), bsm', e).
Proof.
  induction fuel as [|fuel IH]; intros k stop bsm bsrs outs o rd st' bsm' e; [done|]. cbn [merge_streams_loop].
  intros H. apply bind_ok in H as ([[more bsm1] bsrs1] & -> & H). cbn [mbind res_bind]. destruct more; cbn [negb] in *.
  2: { injection H as <- <- <-. exists []. rewrite app_nil_r. split; [done|]. by intros w w' [= ->]. }
  destruct (stop k).
  { injection H as <- <- <-. exists []. rewrite app_nil_r. split; [done|]. by intros w w' [= ->]. }
  apply bind_ok in H as (i & -> & H). cbn [mbind res_bind]. apply bind_ok in H as (s & -> & H). cbn [mbind res_bind].
  apply bind_ok in H as ([[outs1 o1 rd1] e1] & Hstep & H).
  apply merge_block_step_any in Hstep as (new & Hout & Hrun). cbn [ms_sink ms_pending ms_rows_deleted] in *.
  subst outs1. destruct e1 as [e1|].
  - injection H as <- <- <-. exists new. split; [done|]. intros w w' Hw. by rewrite (Hrun w w' Hw).
  - apply IH in H as (new' & Hout' & Hrun'). exists (new ++ new'). rewrite app_assoc. split; [done|].
    intros w w' Hw. rewrite write_all_app in Hw. apply bind_ok in Hw as (w1 & Hw1 & Hw). rewrite (Hrun w w1 Hw1). cbn [mbind res_bind].
    by apply Hrun'.
Qed.

Lemma merge_streams_any fuel stop dl bsrs outs rd e :
  @merge_streams Zs S X (list Block) Src list_sink fuel stop deleted dl bsrs [] = Ok (outs, rd, e) ->
  forall w w', write_all w outs = Ok w' ->
    merge_streams (X := X) fuel stop deleted dl bsrs w = Ok (w', rd, e).
Proof.
  unfold merge_streams, merge_block_streams_internal. intros H w w' Hw.
  apply bind_ok in H as ([bsm bsrs'] & -> & H). rewrite bind_Ok.
  apply bind_ok in H as ([[[outs1 o rd1] bsm1] e1] & Hloop & H).
  apply merge_streams_loop_any in Hloop as (new & Hout & Hrun). cbn [app ms_sink ms_pending ms_rows_deleted] in *.
  subst outs1. destruct e1 as [e1|]; [|destruct (bsm_error_of bsm1) as [x|] eqn:Hx; [|destruct o as [p|]]].
  - injection H as <- <- <-. by rewrite (Hrun w w' Hw).
  - injection H as <- <- <-. rewrite (Hrun w w' Hw), bind_Ok. by rewrite Hx.
  - cbn [sink_write list_sink] in H. rewrite bind_Ok in H. injection H as <- <- <-.
    rewrite write_all_app in Hw. apply bind_ok in Hw as (w1 & Hw1 & Hw%write_all_one).
    rewrite (Hrun w w1 Hw1), bind_Ok, Hx. cbn [ms_sink ms_pending ms_rows_deleted]. by rewrite Hw.
  - injection H as <- <- <-. rewrite (Hrun w w' Hw), bind_Ok. by rewrite Hx.
Qed.
End AnySink.

(** ** The merge *)

(** C9: the k-way merge loses no row, invents none and applies the retention.
    Given streams, whatever their number, sizes and overlaps, that end without
    an error and yield unpacked blocks sorted by series that keep at least [pb]
    precision bits, with one identifier and one scale per metric id and fewer
    than 2^62 rows in all ([merge_sources]), and a merge that is not stopped:
    there are blocks [outs] such that for any destination that accepts them
    the merge ends without an error or a panic and has written exactly them.
    Their rows, with series, scale, timestamp and value, and the dropped rows,
    which are counted exactly, are a permutation of the rows of the inputs.
    Every dropped row is of a deleted metric or older than the deadline.  No
    block written is of a deleted metric, and every block written has all its
    rows in the retention or is an input block, unmerged, that reaches into
    the retention ([settled]): rows older than the deadline stay only in such
    a block.  The blocks are sorted by series, each in timestamp order with at
    most [MAX_ROWS_PER_BLOCK] rows. *)
Theorem merge_streams_correct `{Zs : Zstd} {S X W : Type} `{Src : BlockSource S X} `{Snk : BlockSink W}
    (deleted : Z -> bool) (dl pb : Z) (bsrs : list S) (bss : list (list Block)) (fuel : nat)
    (H : merge_sources pb bsrs bss) (Hf : (length (concat bss) < fuel)%nat) :
  exists outs D, merge_output deleted dl pb (concat bss) outs D /\
    forall w w' : W, write_all w outs = Ok w' ->
      merge_streams (X := X) fuel (fun _ => false) deleted dl bsrs w = Ok (w', Z.of_nat (length D), None).
Proof.
  destruct (merge_streams_list (X := X) deleted dl pb fuel bsrs bss H Hf) as (outs & D & Hm & Ho).
  exists outs, D. split; [done|]. by apply merge_streams_any.
Qed.

(** A stream over a list of blocks: the current block and the blocks left. *)
Definition list_source : BlockSource (Block * list Block) Empty_set := {|
  src_next '(b, bs) := match bs with [] => Ok (false, (b, [])) | b' :: bs => Ok (true, (b', bs)) end;
  src_block s := s.1;
  src_error _ := None;
|}.

Section ListSource.
  Local Existing Instance list_source.

Lemma list_source_yields b bs : yields (b, bs) bs.
Proof.
  revert b. induction bs as [|b' bs IH]; intros b; [by eapply yields_end|].
  by apply (@yields_next _ _ list_source (b, b' :: bs) (b', bs) bs eq_refl).
Qed.
End ListSource.

(** A block with the given rows, for the examples. *)
Definition example_block (id : Z) (s : list (Z * Z)) : Block :=
  mk_rows (mkBlockHeader (mkTsid 1 2 3 id) (first_ts s) (last_ts s) 0 0 0 0 0 (Z.of_nat (length s)) 0 0 0 64) s.

Definition example_streams : list (list Block) :=
  [[example_block 7 [(1, 10); (5, 50)]; example_block 9 [(4, 40)]];
   [example_block 7 [(3, 30); (9, 90)]]; []].

Section Witness.
Local Existing Instances stored_zstd list_sink list_source.

Lemma merge_streams_correct_witness :
  exists outs D, merge_output (fun id => id =? 9) 4 64 (concat example_streams) outs D /\
    forall w w' : list Block, write_all w outs = Ok w' ->
      merge_streams (X := Empty_set) 4 (fun _ => false) (fun id => id =? 9) 4
        (map (pair Block_default) example_streams) w = Ok (w', Z.of_nat (length D), None).
Proof.
  apply (merge_streams_correct (fun id => id =? 9) 4 64 (map (pair Block_default) example_streams)
    example_streams 4); [|cbn; lia].
  split.
  - cbn. repeat constructor; apply list_source_yields.
  - repeat constructor.
  - intros b b' Hb Hb'. cbn in Hb, Hb'. naive_solver.
  - cbn. repeat (apply List.Forall_cons || apply List.Forall_nil); (split; [|done]);
      (split; [split|repeat constructor|done|done|done]); cbn; try done; try lia;
      try (apply (bool_decide_unpack _); by vm_compute); repeat constructor; done.
  - cbn. lia.
Defined.

(** The merge of the example, evaluated: the two blocks of series 7 are merged
    row by row and the block of the deleted series is dropped. *)
Example merge_example_runs :
  match merge_streams (X := Empty_set) 4 (fun _ => false) (fun id => id =? 9) 0
          (map (pair Block_default) example_streams) [] with
  | Ok (outs, rd, err) => map rows_of outs = [[(1, 10); (3, 30); (5, 50); (9, 90)]] /\ rd = 1 /\ err = None
  | _ => False
  end.
Proof. by vm_compute. Qed.

(** A block that is merged with no other keeps its rows older than the
    deadline: only whole blocks and rows of merged blocks are dropped. *)
Example unmerged_block_keeps_old_rows :
  match merge_streams (X := Empty_set) 2 (fun _ => false) (fun _ => false) 5
          [(Block_default, [example_block 7 [(1, 10); (9, 90)]])] [] with
  | Ok (outs, rd, err) => map rows_of outs = [[(1, 10); (9, 90)]] /\ rd = 0 /\ err = None
  | _ => False
  end.
Proof. by vm_compute. Qed.
End Witness.

(** Building the heap of streams keeps every stream and puts on top one
    whose current block is a smallest in the order by (series, first
    timestamp), for any set of streams whose metric ids determine the series. *)
Theorem heap_init_top {S X : Type} `{Src : BlockSource S X} (bsrs : list S) (heap : list nat) (top : nat)
    (H1 : one_series (map (current bsrs) heap))
    (Htop : heap_init (stream_less bsrs) heap !! 0%nat = Some top) :
  Permutation (heap_init (stream_less bsrs) heap) heap /\
  forall i, In i heap -> stream_less bsrs i top = false.
Proof.
  assert (Hext : forall x y, In x heap -> In y heap -> stream_less bsrs x y = lex_less bsrs x y).
  { intros x y Hx Hy. unfold stream_less, lex_less. rewrite !stream_header_current. apply bh_less_lex. intros Hid.
    apply tag_tsid, H1; [by apply in_map..|done]. }
  rewrite (heap_init_ext _ (lex_less bsrs)) in * by done.
  destruct (heap_init_heap _ (lex_less_total bsrs) (lex_less_trans bsrs) heap) as [Hh Hp]. split; [done|].
  assert (Ht : In top heap) by (apply (Permutation_in _ Hp); by eapply list_elem_of_In, list_elem_of_lookup_2).
  intros i Hi. rewrite Hext by done.
  apply (heap_root_min _ (lex_less_total bsrs) (lex_less_trans bsrs) _ _ Hh Htop).
  by apply (Permutation_in _ (Permutation_sym Hp)).
Qed.

Section HeapWitness.
Local Existing Instance list_source.

Definition heap_example : list (Block * list Block) :=
  map (fun p => (example_block p.1 [(p.2, 0)], [])) [(9, 1); (7, 5); (7, 2); (8, 0)].

Lemma heap_init_top_witness :
  Permutation (heap_init (stream_less heap_example) [0; 1; 2; 3]%nat) [0; 1; 2; 3]%nat /\
  forall i, In i [0; 1; 2; 3]%nat -> stream_less heap_example i 2 = false.
Proof.
  apply (heap_init_top heap_example [0; 1; 2; 3]%nat 2%nat); [|by vm_compute].
  intros b b' Hb Hb'. cbn in Hb, Hb'. naive_solver.
Defined.
End HeapWitness.
