(* ===== verification/PartMerge.v ===== *)
(** * Merging parts

    The readers and the writer of parts ([block_stream/reader.rs],
    [block_stream/writer.rs]) as the streams and the destination of the merge,
    [merge_block_streams] of [block_stream/merger.rs] on them, and the
    correctness of the merge from part to part. *)
From Stdlib Require Import ZArith Lia Bool Sorted Permutation.
From S2P Require Import Prelude Heap IntCodec NearestDelta Float64 Compress ArrayCodec Tsid BlockHeader Decimal Dedup Block BlockStream BlockMerge StreamMerge.
Local Open Scope Z_scope.

#[export] Instance reader_source `{Zs : Zstd} : BlockSource BlockStreamReader bsr_other := {|
  src_next := next_block;
  src_block := r_block;
  src_error := reader_error;
|}.

(** The writer with the part header and the counter of merged rows that every
    write updates; [dedup_interval] is the global interval.  A block that does
    not decode aborts the write. *)
Definition writer_sink `{Zs : Zstd} (dedup_interval : Z) : BlockSink (BlockStreamWriter * PartHeader * Z) := {|
  sink_write '(w, ph, rows_merged) b :=
    match write_external_block dedup_interval w b ph rows_merged with
    | Ok (w, _, ph, rows_merged) => Ok (w, ph, rows_merged)
    | _ => Panic
    end;
|}.

(** A merged part: the four buffers, the part header, and the counters of
    merged and deleted rows. *)
Record merged_part : Type := mkMergedPart {
  mp_timestamps : list Z;
  mp_values : list Z;
  mp_index : list Z;
  mp_metaindex : list Z;
  mp_ph : PartHeader;
  mp_rows_merged : Z;
  mp_rows_deleted : Z;
}.

(** [merge_block_streams] to an in-memory part. *)
Definition merge_block_streams `{Zs : Zstd} (fuel : nat) (stop : nat -> bool) (deleted : Z -> bool)
    (retention_deadline dedup_interval : Z) (bsrs : list BlockStreamReader) (bsw : BlockStreamWriter)
    : res (MergeError bsr_other) merged_part :=
  match merge_streams (Snk := writer_sink dedup_interval) fuel stop deleted retention_deadline bsrs
          (bsw, PartHeader_default, 0) with
  | Ok (bsw, ph, rows_merged, rows_deleted, err) =>
      '(t, v, i, m) ← must_close bsw;
      match err with
      | None => Ok (mkMergedPart t v i m ph rows_merged rows_deleted)
      | Some e => Err e
      end
  | _ => Panic
  end.

(** ** Lemmas: parts as streams *)

Section PartStreams.
  Context {Zs : Zstd} {Zl : ZstdLaws Zs} (lvl : Z).

(** A reader yields the blocks of the part and ends without an error. *)
Lemma reading_yields log : forall r p es cs,
  reading lvl r p es cs -> es ++ concat cs = log -> tsids_sorted (bh_tsid (b_bh (r_block r))) log ->
  exists bs, yields r bs /\ Forall2 block_of log bs.
Proof.
  induction log as [|e log IH]; intros r p es cs Hr Hlog Hs.
  - apply app_eq_nil in Hlog as [-> Hcs]. assert (cs = []) as ->.
    { pose proof (rd_chunks _ _ _ _ _ Hr) as Hc. destruct Hc as [|c cs [Hne _] _]; [done|]. by destruct c. }
    exists []. split; [|constructor]. eapply yields_end; [exact (next_block_end _ _ _ Hr)|done].
  - destruct (next_block_at (E := Empty_set) lvl r p e log es cs Hr Hlog Hs) as (r1 & es1 & cs1 & Hn & Hb & Hr1 & Hl1 & Hs1).
    destruct (IH r1 _ es1 cs1 Hr1 Hl1 Hs1) as (bs & Hy & Hall). exists (r_block r1 :: bs).
    split; [|by constructor]. exact (@yields_next _ _ reader_source r r1 bs Hn Hy).
Qed.

(** A block read from a part written by the writer. *)
Lemma block_of_source_ok p b0 e b :
  unpacked_ok b0 -> entry_of b0 e -> stored p e -> block_of e b ->
  source_ok (bh_precision_bits (b_bh b0)) b.
Proof.
  intros Hu (F1 & F2 & F3 & F4 & F5) (Hpk & _) (tss & vss & Hcol & ->).
  destruct (pk_decode _ _ _ _ _ Hpk) as (t & v & Hd & Heq & Hl1 & Hl2 & Hh & Hla & Hs & Hi1 & Hi2).
  rewrite Hcol in Hd. injection Hd as <- <-.
  assert (Hlen : length tss = (length (b_values b0) - b_next_idx b0)%nat /\ length vss = length tss).
  { rewrite Hl1, Hl2, F4, F5, !length_drop. pose proof (uo_length _ Hu). lia. }
  destruct Hlen as [Hlen Hlv]. pose proof (uo_next _ Hu). pose proof (uo_max _ Hu).
  pose proof (pk_wf _ _ _ _ _ Hpk) as (W1 & _ & _ & _ & _ & _ & _ & _ & _ & W2 & _).
  pose proof (pk_valid _ _ _ _ _ Hpk) as (_ & _ & _ & V & _).
  assert (Hr : Forall (fun x => bh_min_timestamp (e_bh e) <= x <= bh_max_timestamp (e_bh e)) tss).
  { pose proof (pk_min _ _ _ _ _ Hpk) as Hmin. pose proof (pk_max _ _ _ _ _ Hpk) as Hmax.
    rewrite <-Hh in Hmin. rewrite <-Hla in Hmax. apply Forall_In. intros x Hx.
    split; [|by eapply sortedZ_le_last]. destruct tss as [|y tss]; [done|]. injection Hmin as ->.
    apply StronglySorted_cons in Hs as [Hs _]. rewrite Forall_In in Hs. destruct Hx as [<-|Hx]; [lia|by apply Hs]. }
  split.
  - split; cbn; [|done|done|done|lia]. split; cbn; try done; lia.
  - unfold rows_of. cbn. rewrite length_zip_with, !drop_0, (pk_rows _ _ _ _ _ Hpk), Hlv, <-Hl1. f_equal. lia.
Qed.

(** Its last row has the maximum timestamp of its header. *)
Lemma block_of_last p b0 e b :
  unpacked_ok b0 -> entry_of b0 e -> stored p e -> block_of e b ->
  exists q, In q (rows_of b) /\ q.1 = bh_max_timestamp (b_bh b).
Proof.
  intros Hu (F1 & F2 & F3 & F4 & F5) (Hpk & _) (tss & vss & Hcol & ->).
  destruct (pk_decode _ _ _ _ _ Hpk) as (t & v & Hd & Heq & Hl1 & Hl2 & Hh & Hla & Hs & Hi1 & Hi2).
  rewrite Hcol in Hd. injection Hd as <- <-.
  assert (Hlv : length vss = length tss).
  { rewrite Hl1, Hl2, F4, F5, !length_drop. pose proof (uo_length _ Hu). lia. }
  pose proof (pk_max _ _ _ _ _ Hpk) as Hmax. rewrite <-Hla in Hmax.
  apply last_Some in Hmax as [l ->]. unfold rows_of. cbn. rewrite !drop_0.
  rewrite length_app in Hlv. cbn in Hlv. destruct (lookup_lt_is_Some_2 vss (length l)) as [x Hx]; [lia|].
  exists (bh_max_timestamp (e_bh e), x). split; [|done]. apply list_elem_of_In, list_elem_of_lookup.
  exists (length l). apply lookup_zip_with_Some. exists (bh_max_timestamp (e_bh e)), x.
  split_and!; [done|by apply list_lookup_middle|done].
Qed.
End PartStreams.

(** ** Lemmas: exact parts *)

Section ExactParts.
  Context {Zs : Zstd} {Zl : ZstdLaws Zs}.

(** A block that can be written and loses nothing when it is. *)
Definition exact_block (b : Block) : Prop := unpacked_ok b /\ bh_precision_bits (b_bh b) = 64.

(** [r] reads, from its start, the part with the blocks [bs]. *)
Definition opened (lvl : Z) (bs : list Block) (r : BlockStreamReader) : Prop :=
  exists w ph rm t v i m,
    write_blocks 0 (new_inmemory_part lvl) bs PartHeader_default 0 = Ok (w, ph, rm) /\
    must_close (E := block_error) w = Ok (t, v, i, m) /\
    from_inmemory_part (E := block_error) ph t v i m = Ok r.

(** The blocks of a part. *)
Record part_blocks (bs : list Block) : Prop := {
  pb_ne : bs <> [];
  pb_exact : Forall exact_block bs;
  pb_sorted : blocks_sorted bs;
  pb_size : Z.of_nat (length bs) < 2 ^ 32;
}.

Lemma exact_same_rows b b' :
  exact_block b -> same_rows b b' -> tag b' = tag b /\ block_rows b' = block_rows b.
Proof.
  intros [_ H64] (F1 & F2 & F3 & F4 & Hr). destruct Hr as (_ & _ & _ & _ & _ & Hr).
  destruct (Hr H64) as [Ht Hv]. assert (Htag : tag b' = tag b) by (unfold tag; congruence).
  split; [done|]. unfold block_rows. rewrite Htag. f_equal. unfold rows_of. by rewrite F4, !drop_0, Ht, Hv.
Qed.

Lemma same_rows_rows bs bs' :
  Forall exact_block bs -> Forall2 same_rows bs bs' -> map tag bs' = map tag bs /\ all_rows bs' = all_rows bs.
Proof.
  intros He H. induction H as [|b b' bs bs' Hb _ IH]; [done|]. inversion_clear He as [|? ? H1 H2].
  destruct (IH H2) as [I1 I2]. destruct (exact_same_rows _ _ H1 Hb) as [E1 E2].
  cbn [map]. rewrite !all_rows_cons. split; congruence.
Qed.

Lemma exact_unpacked bs : Forall exact_block bs -> Forall unpacked_ok bs.
Proof. apply Forall_weaken. by intros b [H _]. Qed.

(** The blocks a reader holds for the entries of a part. *)
Lemma sources_ok p bs log bs' :
  chain p log -> Forall exact_block bs -> Forall2 entry_of bs log -> Forall2 block_of log bs' ->
  Forall (source_ok 64) bs'.
Proof.
  intros Hch He Hbs. revert p bs' Hch He. induction Hbs as [|b e bs log Hbe _ IH]; intros p bs' Hch He Hb';
    inversion Hb'; subst; [constructor|]. destruct Hch as [Hst Hch]. inversion_clear He as [|? ? [Hu H64] He2].
  constructor; [|by eapply IH]. rewrite <-H64. by eapply block_of_source_ok.
Qed.

(** A written block and the block read back for it: the rows are the same and
    the header read back names the last timestamp. *)
Definition read_as (b b' : Block) : Prop :=
  block_rows b' = block_rows b /\ exists q, In q (rows_of b) /\ q.1 = bh_max_timestamp (b_bh b').

Lemma sources_read_as p bs log bs' :
  chain p log -> Forall exact_block bs -> Forall2 entry_of bs log -> Forall2 block_of log bs' ->
  Forall2 read_as bs bs'.
Proof.
  intros Hch He Hbs. revert p bs' Hch He. induction Hbs as [|b e bs log Hbe _ IH]; intros p bs' Hch He Hb';
    inversion Hb' as [|? b' ? ? Hb1 Hb2]; subst; [constructor|].
  destruct Hch as [Hst Hch]. inversion_clear He as [|? ? Hx He2].
  constructor; [|by eapply IH].
  destruct (exact_same_rows b b' Hx (same_rows_intro _ _ _ _ Hst Hbe Hb1)) as [Ht Hr]. split; [done|].
  destruct (block_of_last _ _ _ _ (proj1 Hx) Hbe Hst Hb1) as (q & Hq & Eq). exists q. split; [|done].
  apply (in_map (pair (tag b'))) in Hq. unfold block_rows in Hr. rewrite Hr in Hq.
  apply in_map_iff in Hq as (q' & E & Hq). apply (f_equal snd) in E. cbn in E. by subst q'.
Qed.

Lemma sorted_by_tags bs bs' : map tag bs' = map tag bs -> blocks_sorted bs -> blocks_sorted bs'.
Proof.
  unfold blocks_sorted. intros Ht Hs. revert bs' Ht.
  induction Hs as [|b bs Hs IH Hb]; intros [|b' bs'] Ht; try done; [constructor|].
  cbn in Ht. injection Ht as E1 E2 Ht. constructor; [by apply IH|]. rewrite E1.
  apply Forall_In. intros x Hx. apply (in_map tag) in Hx. rewrite Ht in Hx. apply in_map_iff in Hx as (y & Hy & Hin).
  rewrite Forall_In in Hb. apply Hb in Hin. unfold tag in Hy. by injection Hy as <- _.
Qed.

Lemma opened_yields lvl bs r :
  opened lvl bs r -> part_blocks bs ->
  exists bs', yields r bs' /\ Forall (source_ok 64) bs' /\ blocks_sorted bs' /\
    map tag bs' = map tag bs /\ all_rows bs' = all_rows bs /\ Forall2 read_as bs bs'.
Proof.
  intros (w & ph & rm & t & v & i & m & Hw & Hc & Hr) [Hne He Hs Hlen].
  destruct (part_opens (E1 := block_error) (E2 := block_error) lvl bs Hne Hlen (exact_unpacked _ He) Hs)
    as (w' & ph' & rm' & t' & v' & i' & m' & r' & cs & Hw' & Hc' & Hr' & Hrd & Hall & Hch & Hts & _).
  rewrite Hw in Hw'. injection Hw' as <- <- <-. rewrite Hc in Hc'. injection Hc' as <- <- <- <-.
  rewrite Hr in Hr'. injection Hr' as <-.
  destruct (reading_yields lvl (concat cs) r pos0 [] cs Hrd eq_refl Hts) as (bs' & Hy & Hall').
  destruct (same_rows_rows bs bs' He) as [Ht Hrows]; [by eapply same_rows_all|].
  exists bs'. split_and!; try done; [by eapply sources_ok|by eapply sorted_by_tags|by eapply sources_read_as].
Qed.

Lemma write_all_blocks bs : forall w ph rm w' ph' rm',
  write_blocks 0 w bs ph rm = Ok (w', ph', rm') ->
  write_all (Snk := writer_sink 0) (w, ph, rm) bs = Ok (w', ph', rm').
Proof.
  induction bs as [|b bs IH]; intros w ph rm w' ph' rm'; cbn [write_blocks write_all]; [by intros [= -> -> ->]|].
  cbn [sink_write writer_sink]. destruct (write_external_block 0 w b ph rm) as [[[[w1 b1] ph1] rm1]| |]; [|done..].
  apply IH.
Qed.
End ExactParts.

(** ** Merging parts into a part *)

Section MergeParts.
  Context {Zs : Zstd} {Zl : ZstdLaws Zs}.

Lemma one_series_tags bs bs' : map tag bs' = map tag bs -> one_series bs -> one_series bs'.
Proof.
  intros Ht H b b' Hb Hb' Hid. apply (in_map tag) in Hb, Hb'. rewrite Ht in Hb, Hb'.
  apply in_map_iff in Hb as (c & Ec & Hc). apply in_map_iff in Hb' as (c' & Ec' & Hc').
  rewrite <-Ec, <-Ec'. apply H; [done..|]. unfold tag in Ec, Ec'. injection Ec as -> _. by injection Ec' as -> _.
Qed.

(** Opened parts are streams fit for the merge, with the rows of the parts. *)
Lemma parts_sources lvl bss rs :
  Forall2 (opened lvl) bss rs -> Forall part_blocks bss -> one_series (concat bss) ->
  Z.of_nat (length (all_rows (concat bss))) < 2 ^ 32 ->
  exists bss', merge_sources 64 rs bss' /\ all_rows (concat bss') = all_rows (concat bss) /\
    length (concat bss') = length (concat bss) /\ Forall2 read_as (concat bss) (concat bss').
Proof.
  intros Ho Hp H1 Hsz.
  assert (H : exists bss', Forall2 yields rs bss' /\ Forall blocks_sorted bss' /\
    Forall (source_ok 64) (concat bss') /\ map tag (concat bss') = map tag (concat bss) /\
    all_rows (concat bss') = all_rows (concat bss) /\ Forall2 read_as (concat bss) (concat bss')).
  { clear H1 Hsz. induction Ho as [|bs r bss rs Hr _ IH].
    - exists []. split_and!; constructor || done.
    - inversion_clear Hp as [|? ? Hb Hbs]. destruct (IH Hbs) as (bss' & I1 & I2 & I3 & I4 & I5 & I6).
      destruct (opened_yields lvl bs r Hr Hb) as (bs' & J1 & J2 & J3 & J4 & J5 & J6). exists (bs' :: bss').
      cbn [concat]. rewrite !map_app, !all_rows_app, Forall_app. split_and!; try done; try (by constructor); try congruence.
      by apply Forall2_app. }
  destruct H as (bss' & Hy & Hs & Hok & Ht & Hr & Hra). exists bss'. split; [|split_and!; [done| |done]].
  - split; try done; [by eapply one_series_tags|]. rewrite Hr. lia.
  - apply (f_equal length) in Ht. by rewrite !length_map in Ht.
Qed.

(** The output of a merge of exact blocks can be stored exactly. *)
Lemma output_exact deleted dl inputs outs D :
  merge_output deleted dl 64 inputs outs D -> Forall exact_block outs.
Proof.
  intros [_ _ Hl _ _]. revert Hl. apply Forall_weaken. intros b [Hb _]. split; [apply Hb|].
  pose proof (po_precision _ _ Hb). pose proof (uo_precision _ (po_unpacked _ _ Hb)). lia.
Qed.

Lemma blocks_le_rows bs : Forall unpacked_ok bs -> (length bs <= length (all_rows bs))%nat.
Proof.
  induction 1 as [|b bs Hb _ IH]; [done|]. rewrite all_rows_cons, length_app, length_block_rows.
  pose proof (rows_of_length _ Hb). cbn [length]. lia.
Qed.

(** The retention on the rows of written blocks: the rows of a block of the
    result are all in the retention, or they are the rows of one input block,
    one with a row in the retention. *)
Definition retained_block (dl : Z) (inputs : list Block) (n : Block) : Prop :=
  Forall (fun p => dl <= p.1) (rows_of n) \/
  exists b, In b inputs /\ block_rows n = block_rows b /\ Exists (fun p => dl <= p.1) (rows_of b).

Lemma settled_retained dl bs bs' n n' :
  Forall2 read_as bs bs' -> tag n' = tag n -> block_rows n' = block_rows n ->
  settled dl bs' n -> retained_block dl bs n'.
Proof.
  intros H Ht Hr. assert (Hrows : rows_of n' = rows_of n).
  { unfold block_rows in Hr. rewrite Ht in Hr. apply (f_equal (map snd)) in Hr.
    rewrite !map_map, !map_id in Hr. done. }
  intros [Hn|(b' & Hb' & Hbr & Hmax)]; [left; by rewrite Hrows|right].
  apply list_elem_of_In in Hb'. apply list_elem_of_lookup in Hb' as [k Hk].
  destruct (Forall2_lookup_r _ _ _ _ _ H Hk) as (b & Hb & E & q & Hq & Eq). exists b.
  split_and!; [by eapply list_elem_of_In, list_elem_of_lookup_2|congruence|].
  apply List.Exists_exists. exists q. split; [done|]. by rewrite Eq.
Qed.

Lemma outs_retained dl inputs inputs' outs bs :
  Forall2 read_as inputs inputs' -> Forall exact_block outs -> Forall2 same_rows outs bs ->
  Forall (settled dl inputs') outs -> Forall (retained_block dl inputs) bs.
Proof.
  intros Hra Hex Hs. revert Hex. induction Hs as [|n n' outs bs Hn _ IH]; intros Hex Hset; [constructor|].
  inversion_clear Hex as [|? ? Hx Hxs]. inversion_clear Hset as [|? ? Hy Hys].
  destruct (exact_same_rows n n' Hx Hn) as [Ht Hr]. constructor; [|by apply IH]. by eapply settled_retained.
Qed.
End MergeParts.

(** C1: compaction is lossless end to end.  Given parts that the storage wrote
    from non-empty lists of blocks sorted by series, with 64 precision bits and
    deduplication off (interval 0), one identifier and one scale per metric
    id, fewer than 2^32 rows in all and at least one row that is neither
    deleted nor older than the retention deadline: merging them with the real
    readers and the real writer, unstopped and with deduplication off,
    succeeds, and reading the resulting part back passes every check.  The rows
    read, each with its series, scale, timestamp and value, and the dropped
    rows, whose number is reported, are together exactly the rows of the input
    parts.  A dropped row is of a deleted metric or older than the deadline; no
    row of a deleted metric is kept; and a row older than the deadline is kept
    only in a block that is an input block, unmerged, with a row in the
    retention ([retained_block]). *)
Theorem merge_parts_lossless `{Zl : ZstdLaws} (lvl lvl' : Z) (deleted : Z -> bool) (dl : Z)
    (bss : list (list Block)) (rs : list BlockStreamReader)
    (Ho : Forall2 (opened lvl) bss rs) (Hp : Forall part_blocks bss) (H1 : one_series (concat bss))
    (Hsz : Z.of_nat (length (all_rows (concat bss))) < 2 ^ 32)
    (Hkept : Exists (fun x => ~ gone deleted dl x) (all_rows (concat bss))) :
  exists mp r bs r' D,
    merge_block_streams (S (length (concat bss))) (fun _ => false) deleted dl 0 rs (new_inmemory_part lvl')
      = Ok mp /\
    from_inmemory_part (E := block_error) (mp_ph mp) (mp_timestamps mp) (mp_values mp) (mp_index mp)
      (mp_metaindex mp) = Ok r /\
    read_blocks (E := block_error) (S (length (all_rows (concat bss)))) r = Ok (bs, r') /\
    reader_error r' = None /\
    Permutation (all_rows bs ++ D) (all_rows (concat bss)) /\
    Forall (gone deleted dl) D /\ mp_rows_deleted mp = Z.of_nat (length D) /\
    Forall (fun b => deleted (metric_id (bh_tsid (b_bh b))) = false) bs /\
    Forall (retained_block dl (concat bss)) bs.
Proof.
  destruct (parts_sources lvl bss rs Ho Hp H1 Hsz) as (bss' & Hsrc & Hrows & Hlen & Hra).
  destruct (merge_streams_list (X := bsr_other) deleted dl 64 (S (length (concat bss))) rs bss' Hsrc)
    as (outs & D & Hm & Hout); [lia|].
  pose proof (output_exact _ _ _ _ _ Hout) as Hex. pose proof (exact_unpacked _ Hex) as Hun.
  pose proof (mo_rows _ _ _ _ _ _ Hout) as Hperm. rewrite Hrows in Hperm.
  pose proof (blocks_le_rows outs Hun) as Hle. pose proof (Permutation_length Hperm) as Hpl. rewrite length_app in Hpl.
  assert (Hne : outs <> []).
  { intros ->. apply List.Exists_exists in Hkept as (x & Hx & Hg). apply Hg. pose proof (mo_gone _ _ _ _ _ _ Hout) as HD.
    rewrite Forall_In in HD. apply HD. by apply (Permutation_in _ (Permutation_sym Hperm)). }
  destruct (part_opens (E1 := MergeError bsr_other) (E2 := block_error) lvl' outs Hne)
    as (w & ph & rm & t & v & i & m & r & cs & Hw & Hc & Hr & Hrd & Hall & Hch & Hts & _);
    [lia|done|apply Hout|].
  pose proof (Forall2_length _ _ _ Hall) as Hl.
  destruct (read_blocks_at (E := block_error) lvl' (concat cs) (S (length (all_rows (concat bss)))) r pos0 [] cs
    Hrd eq_refl) as (bs & r' & Hread & Hall' & Herr); [lia|done|].
  destruct (same_rows_rows outs bs Hex) as [Htag Hrb]; [by eapply same_rows_all|].
  exists (mkMergedPart t v i m ph rm (Z.of_nat (length D))), r, bs, r', D. split_and!; try done.
  - unfold merge_block_streams.
    rewrite (merge_streams_any (Snk := writer_sink 0) deleted _ _ _ _ _ _ _ Hm _ _ (write_all_blocks _ _ _ _ _ _ _ Hw)).
    by rewrite Hc, bind_Ok.
  - by rewrite Hrb.
  - apply Hout.
  - apply Forall_In. intros b Hb. apply (in_map tag) in Hb. rewrite Htag in Hb.
    apply in_map_iff in Hb as (b0 & Eb & Hb). pose proof (mo_live _ _ _ _ _ _ Hout) as Hl0.
    rewrite Forall_In in Hl0. apply Hl0 in Hb as [_ Hd]. by rewrite <-(tag_tsid _ _ Eb).
  - apply (outs_retained dl (concat bss) (concat bss') outs bs Hra Hex); [by eapply same_rows_all|apply Hout].
Qed.

Section Witness.
Local Existing Instances stored_zstd stored_zstd_laws.

Lemma merge_parts_lossless_witness :
  let bss := [[sample_block 64]; [sample_block 64]] in
  exists rs mp r bs r' D,
    Forall2 (opened 3) bss rs /\
    merge_block_streams 3 (fun _ => false) (fun _ => false) 20 0 rs (new_inmemory_part 5) = Ok mp /\
    from_inmemory_part (E := block_error) (mp_ph mp) (mp_timestamps mp) (mp_values mp) (mp_index mp)
      (mp_metaindex mp) = Ok r /\
    read_blocks (E := block_error) (S (length (all_rows (concat bss)))) r = Ok (bs, r') /\
    reader_error r' = None /\
    Permutation (all_rows bs ++ D) (all_rows (concat bss)) /\
    Forall (gone (fun _ => false) 20) D /\ mp_rows_deleted mp = Z.of_nat (length D) /\
    Forall (fun b => (fun _ => false) (metric_id (bh_tsid (b_bh b))) = false) bs /\
    Forall (retained_block 20 (concat bss)) bs.
Proof.
  intros bss. assert (Hb : part_blocks [sample_block 64]).
  { split; [done|constructor; [split; [apply sample_block_ok|done]|constructor]|repeat constructor|done]. }
  destruct (part_opens (E1 := block_error) (E2 := block_error) 3 [sample_block 64]) as (w & ph & rm & t & v & i & m & r & cs & Hw & Hc & Hr & _);
    [done|done|apply exact_unpacked, Hb|apply Hb|].
  assert (Ho : opened 3 [sample_block 64] r) by (by exists w, ph, rm, t, v, i, m).
  assert (Hos : Forall2 (opened 3) bss [r; r]) by (apply List.Forall2_cons; [exact Ho|apply List.Forall2_cons; [exact Ho|constructor]]).
  exists [r; r]. destruct (merge_parts_lossless 3 5 (fun _ => false) 20 bss [r; r]) as (mp & r1 & bs & r' & D & H);
    [exact Hos|apply List.Forall_cons; [exact Hb|apply List.Forall_cons; [exact Hb|constructor]]| |cbn; lia| |].
  - intros b b' H1 H2 _. destruct H1 as [<-|[<-|[]]], H2 as [<-|[<-|[]]]; reflexivity.
  - apply List.Exists_cons_tl, List.Exists_cons_hd. intros [Hx|Hx]; [discriminate Hx|]. cbn in Hx. lia.
  - exists mp, r1, bs, r', D. split; [|exact H].
    exact Hos.
Defined.
End Witness.
