(* ===== verification/Uint64Set.v ===== *)
(** * Sets of 64-bit integers

    Model of [esm-common/src/uint64set.rs]: the set of metric IDs, a hierarchy
    of buckets keyed by the high 32 and the next 16 bits, with the low 16 bits
    in a small pool or a bitmap.  Every operation is shown to implement the
    operation on mathematical sets. *)
From Stdlib Require Import ZArith Lia Bool.
From stdpp Require Import gmap.
From S2P Require Import Prelude IntCodec.
Local Open Scope Z_scope.

(** Code that has no error of its own: it returns or panics. *)
Abbreviation run := (res Empty_set).

Definition BITS_PER_BUCKET : Z := Z.shiftl 1 16.
Definition WORDS_PER_BUCKET : nat := Z.to_nat (BITS_PER_BUCKET / 64).
Definition SMALL_POOL_SIZE : nat := 56.

(** [!x] of a [u64]. *)
Definition u64_not (x : Z) : Z := Z.lxor x (2 ^ 64 - 1).

(** [u64::count_ones]. *)
Definition count_ones (w : Z) : nat := length (filter (fun i => Z.testbit w i = true) (seqZ 0 64)).

(** [slice::contains] and [iter().position(..)]. *)
Definition slice_contains (l : list Z) (x : Z) : bool := existsb (Z.eqb x) l.
Fixpoint position (l : list Z) (x : Z) : option nat :=
  match l with
  | [] => None
  | y :: l' => if y =? x then Some O else option_map S (position l' x)
  end.

(** [slice::copy_within(from..to, dest)]. *)
Definition copy_within (l : list Z) (from to dest : nat) : run (list Z) :=
  _ ← assert_ ((from <=? to) && (to <=? length l) && (dest + (to - from) <=? length l))%nat;
  Ok (take dest l ++ take (to - from) (drop from l) ++ drop (dest + (to - from)) l).

(** [Vec::insert]. *)
Definition vec_insert {A} (l : list A) (pos : nat) (x : A) : run (list A) :=
  _ ← assert_ (pos <=? length l)%nat;
  Ok (take pos l ++ x :: drop pos l).

(** [is_sorted]. *)
Definition is_sorted (l : list Z) : bool := chain_b Z.leb l.

(** ** The low 16 bits *)

Record Bucket16 : Type := mkBucket16 {
  b16_bits : option (list Z);
  b16_small_pool : list Z;
  b16_small_pool_len : nat
}.

Definition b16_default : Bucket16 := mkBucket16 None (replicate SMALL_POOL_SIZE 0) 0.

Definition b16_is_zero (b : Bucket16) : bool :=
  match b16_bits b with
  | None => (b16_small_pool_len b =? 0)%nat
  | Some _ => false
  end.

Definition b16_get_len (b : Bucket16) : nat :=
  match b16_bits b with
  | None => b16_small_pool_len b
  | Some bits => foldl (fun n x => if x >? 0 then (n + count_ones x)%nat else n) 0%nat bits
  end.

Definition get_word_num_bit_mask (x : Z) : nat * Z :=
  (Z.to_nat (x / 64), u64_shl 1 (Z.land x 63)).

(** The [Some(bits)] arm of [Bucket16::add]. *)
Definition add_to_bits (bits : list Z) (x : Z) : run (list Z * bool) :=
  let '(word_num, bit_mask) := get_word_num_bit_mask x in
  word ← idx bits word_num;
  let ok := Z.land word bit_mask =? 0 in
  bits ← (if ok then set_idx bits word_num (Z.lor word bit_mask) else Ok bits);
  Ok (bits, ok).

(** Adds the items of [a] to the bitmap and counts the new ones. *)
Fixpoint add_multi_to_bits (bits : list Z) (count : nat) (a : list Z) : run (list Z * nat) :=
  match a with
  | [] => Ok (bits, count)
  | x :: a =>
      '(bits, ok) ← add_to_bits bits (as_u16 x);
      add_multi_to_bits bits (if ok : bool then S count else count) a
  end.

(** The calls of [self.add] find the bitmap that was just created. *)
Definition switch_small_pool_to_bits (b : Bucket16) : run Bucket16 :=
  pool ← slice_to (b16_small_pool b) (b16_small_pool_len b);
  '(bits, _) ← add_multi_to_bits (replicate WORDS_PER_BUCKET 0) 0 pool;
  Ok (mkBucket16 (Some bits) (b16_small_pool b) 0).

Definition has_in_small_pool (b : Bucket16) (x : Z) : run bool :=
  pool ← slice_to (b16_small_pool b) (b16_small_pool_len b);
  Ok (slice_contains pool x).

Definition add_to_small_pool (b : Bucket16) (x : Z) : run (Bucket16 * bool) :=
  found ← has_in_small_pool b x;
  if found : bool then Ok (b, false)
  else if (b16_small_pool_len b <? SMALL_POOL_SIZE)%nat then
    pool ← set_idx (b16_small_pool b) (b16_small_pool_len b) x;
    Ok (mkBucket16 (b16_bits b) pool (S (b16_small_pool_len b)), true)
  else
    b ← switch_small_pool_to_bits b;
    match b16_bits b with
    | None => Panic
    | Some bits =>
        '(bits, _) ← add_to_bits bits x;
        Ok (mkBucket16 (Some bits) (b16_small_pool b) (b16_small_pool_len b), true)
    end.

Definition b16_add (b : Bucket16) (x : Z) : run (Bucket16 * bool) :=
  match b16_bits b with
  | None => add_to_small_pool b x
  | Some bits =>
      '(bits, ok) ← add_to_bits bits x;
      Ok (mkBucket16 (Some bits) (b16_small_pool b) (b16_small_pool_len b), ok)
  end.

(** The loop of the small pool in [Bucket16::add_multi]. *)
Fixpoint add_multi_to_pool (b : Bucket16) (count : nat) (a : list Z) : run (Bucket16 * nat) :=
  match a with
  | [] => Ok (b, count)
  | x :: a =>
      '(b, added) ← add_to_small_pool b (as_u16 x);
      add_multi_to_pool b (if added : bool then S count else count) a
  end.

Definition b16_add_multi (b : Bucket16) (a : list Z) : run (Bucket16 * nat) :=
  let fast (b : Bucket16) :=
    match b16_bits b with
    | None => Ok (b, O)
    | Some bits =>
        '(bits, count) ← add_multi_to_bits bits 0 a;
        Ok (mkBucket16 (Some bits) (b16_small_pool b) (b16_small_pool_len b), count)
    end in
  match b16_bits b with
  | None =>
      if (b16_small_pool_len b + length a <=? SMALL_POOL_SIZE)%nat then add_multi_to_pool b 0 a
      else b ← switch_small_pool_to_bits b; fast b
  | Some _ => fast b
  end.

Definition b16_has (b : Bucket16) (x : Z) : run bool :=
  match b16_bits b with
  | None => has_in_small_pool b x
  | Some bits =>
      let '(word_num, bit_mask) := get_word_num_bit_mask x in
      word ← idx bits word_num;
      Ok (negb (Z.land word bit_mask =? 0))
  end.

Definition del_from_small_pool (b : Bucket16) (x : Z) : run (Bucket16 * bool) :=
  pool ← slice_to (b16_small_pool b) (b16_small_pool_len b);
  match position pool x with
  | Some i =>
      small_pool ← copy_within (b16_small_pool b) (i + 1) (b16_small_pool_len b) i;
      Ok (mkBucket16 (b16_bits b) small_pool (b16_small_pool_len b - 1), true)
  | None => Ok (b, false)
  end.

Definition b16_del (b : Bucket16) (x : Z) : run (Bucket16 * bool) :=
  match b16_bits b with
  | None => del_from_small_pool b x
  | Some bits =>
      let '(word_num, bit_mask) := get_word_num_bit_mask x in
      word ← idx bits word_num;
      bits ← set_idx bits word_num (Z.land word (u64_not bit_mask));
      Ok (mkBucket16 (Some bits) (b16_small_pool b) (b16_small_pool_len b),
          negb (Z.land word bit_mask =? 0))
  end.

(** The inner loop over the bits of a word; it clears one bit per round. *)
Fixpoint append_word (fuel : nat) (dst : list Z) (word x64 : Z) : run (list Z) :=
  match fuel with
  | O => Panic
  | S fuel =>
      let tzn := Z.of_nat (trailing_zeros 64 word) in
      if tzn >=? 64 then Ok dst
      else append_word fuel (dst ++ [Z.lor x64 tzn]) (Z.land word (u64_not (u64_shl 1 tzn))) x64
  end.

Fixpoint append_words (dst : list Z) (hi64 word_num : Z) (bits : list Z) : run (list Z) :=
  match bits with
  | [] => Ok dst
  | w :: bits =>
      if w =? 0 then append_words dst hi64 (word_num + 1) bits
      else
        dst ← append_word 65 dst w (Z.lor hi64 (word_num * 64));
        append_words dst hi64 (word_num + 1) bits
  end.

Definition b16_append_to (b : Bucket16) (dst : list Z) (hi hi16 : Z) : run (list Z) :=
  let hi64 := Z.lor (u64_shl hi 32) (u64_shl hi16 16) in
  match b16_bits b with
  | None =>
      a ← slice_to (b16_small_pool b) (b16_small_pool_len b);
      let a := if (1 <? length a)%nat && negb (is_sorted a) then sort_by_key id a else a in
      Ok (dst ++ map (fun v => Z.lor hi64 v) a)
  | Some bits => append_words dst hi64 0 bits
  end.

Fixpoint b16_add_all (b : Bucket16) (a : list Z) : run Bucket16 :=
  match a with
  | [] => Ok b
  | x :: a => '(b, _) ← b16_add b (as_u16 x); b16_add_all b a
  end.

Definition b16_union (b a : Bucket16) : run Bucket16 :=
  match b16_bits a, b16_bits b with
  | Some ab, Some bb =>
      Ok (mkBucket16 (Some (zip_with Z.lor bb ab)) (b16_small_pool b) (b16_small_pool_len b))
  | _, _ =>
      buf ← b16_append_to a [] 0 0;
      b16_add_all b buf
  end.

Fixpoint b16_del_missing (b a : Bucket16) (l : list Z) : run Bucket16 :=
  match l with
  | [] => Ok b
  | x :: l =>
      found ← b16_has a (as_u16 x);
      if found : bool then b16_del_missing b a l
      else '(b, _) ← b16_del b (as_u16 x); b16_del_missing b a l
  end.

Definition b16_intersect (b a : Bucket16) : run Bucket16 :=
  match b16_bits a, b16_bits b with
  | Some ab, Some bb =>
      Ok (mkBucket16 (Some (zip_with Z.land bb ab)) (b16_small_pool b) (b16_small_pool_len b))
  | _, _ =>
      buf ← b16_append_to b [] 0 0;
      b16_del_missing b a buf
  end.

(** ** Walking two sorted bucket lists

    [Set::union_internal] and [Bucket32::union] are one loop, and so are the
    two [intersect]s.  [n] is the number of buckets of [self] when the loop
    starts and [m] that of the argument; [key s i] and [akey j] are their keys,
    [push s j] appends a copy of bucket [j] of the argument, [merge s i j]
    combines bucket [j] into bucket [i], [clear s i] empties bucket [i]. *)
Section Walk.
  Context {T : Type} (n m : nat) (key : T -> nat -> run Z) (akey : nat -> run Z).
  Context (push : T -> nat -> run T) (merge : T -> nat -> nat -> run T) (clear : T -> nat -> run T).

(** [while i < n && j < m && key(i) < akey(j)]. *)
Fixpoint skip_below (fuel : nat) (s : T) (i j : nat) : run nat :=
  match fuel with
  | O => Panic
  | S fuel =>
      if (i <? n)%nat && (j <? m)%nat then
        k ← key s i;
        ka ← akey j;
        if k <? ka then skip_below fuel s (S i) j else Ok i
      else Ok i
  end.

(** [while j < m && akey(j) < key(i)], pushing. *)
Fixpoint push_below (fuel : nat) (s : T) (i j : nat) : run (T * nat) :=
  match fuel with
  | O => Panic
  | S fuel =>
      if (j <? m)%nat then
        ka ← akey j;
        k ← key s i;
        if ka <? k then s ← push s j; push_below fuel s i (S j) else Ok (s, j)
      else Ok (s, j)
  end.

(** [while j < m], pushing. *)
Fixpoint push_rest (fuel : nat) (s : T) (j : nat) : run T :=
  match fuel with
  | O => Panic
  | S fuel => if (j <? m)%nat then s ← push s j; push_rest fuel s (S j) else Ok s
  end.

Fixpoint union_loop (fuel : nat) (s : T) (i j : nat) : run T :=
  match fuel with
  | O => Panic
  | S fuel =>
      i ← skip_below (S n) s i j;
      if (n <=? i)%nat then push_rest (S m) s j
      else
        '(s, j) ← push_below (S m) s i j;
        if (m <=? j)%nat then Ok s
        else
          k ← key s i;
          ka ← akey j;
          if k =? ka then s ← merge s i j; union_loop fuel s (S i) (S j)
          else union_loop fuel s i j
  end.

(** [while i < n && j < m && key(i) < akey(j)], clearing. *)
Fixpoint clear_below (fuel : nat) (s : T) (i j : nat) : run (T * nat) :=
  match fuel with
  | O => Panic
  | S fuel =>
      if (i <? n)%nat && (j <? m)%nat then
        k ← key s i;
        ka ← akey j;
        if k <? ka then s ← clear s i; clear_below fuel s (S i) j else Ok (s, i)
      else Ok (s, i)
  end.

(** [while i < n], clearing. *)
Fixpoint clear_rest (fuel : nat) (s : T) (i : nat) : run T :=
  match fuel with
  | O => Panic
  | S fuel => if (i <? n)%nat then s ← clear s i; clear_rest fuel s (S i) else Ok s
  end.

(** [while j < m && akey(j) < key(i)]. *)
Fixpoint pass_below (fuel : nat) (s : T) (i j : nat) : run nat :=
  match fuel with
  | O => Panic
  | S fuel =>
      if (j <? m)%nat then
        ka ← akey j;
        k ← key s i;
        if ka <? k then pass_below fuel s i (S j) else Ok j
      else Ok j
  end.

Fixpoint intersect_loop (fuel : nat) (s : T) (i j : nat) : run T :=
  match fuel with
  | O => Panic
  | S fuel =>
      '(s, i) ← clear_below (S n) s i j;
      if (n <=? i)%nat then Ok s
      else
        j ← pass_below (S m) s i j;
        if (m <=? j)%nat then clear_rest (S n) s i
        else
          k ← key s i;
          ka ← akey j;
          if k =? ka then s ← merge s i j; intersect_loop fuel s (S i) (S j)
          else intersect_loop fuel s i j
  end.

(** Splits a slice into runs of items with equal high bits, as the two
    [add_multi] do; [flush s hi part] adds one run. *)
Context (hi_of : Z -> Z) (flush : T -> Z -> list Z -> run T).

Fixpoint add_runs (a rest : list Z) (s : T) (hi_prev : Z) (i j : nat) : run T :=
  match rest with
  | [] => part ← slice_from a i; flush s hi_prev part
  | x :: rest =>
      let hi := hi_of x in
      if hi =? hi_prev then add_runs a rest s hi_prev i (S j)
      else
        part ← slice_to a j;
        part ← slice_from part i;
        s ← flush s hi_prev part;
        add_runs a rest s hi j (S j)
  end.
End Walk.

(** ** The middle 16 bits *)

Record Bucket32 : Type := mkBucket32 {
  b32_hi : Z;
  b32_hint : Z;
  b32_b16his : list Z;
  b32_buckets : list Bucket16
}.

Definition b32_default : Bucket32 := mkBucket32 0 0 [] [].

Definition b32_clone (b : Bucket32) : Bucket32 := mkBucket32 (b32_hi b) 0 (b32_b16his b) (b32_buckets b).

Definition b32_get_len (b : Bucket32) : nat :=
  foldl (fun n b16 => (n + b16_get_len b16)%nat) 0%nat (b32_buckets b).

Fixpoint search_loop (fuel : nat) (u16s : list Z) (x : Z) (i j : nat) : run nat :=
  match fuel with
  | O => Panic
  | S fuel =>
      if (i <? j)%nat then
        let h := Nat.div2 (i + j) in
        v ← idx u16s h;
        if v <? x then search_loop fuel u16s x (h + 1) j else search_loop fuel u16s x i h
      else Ok i
  end.

Definition binary_search16 (u16s : list Z) (x : Z) : run nat :=
  let n := length u16s in
  fast ← (if (0 <? n)%nat then v ← idx u16s (n - 1); Ok (v <? x) else Ok false);
  if fast : bool then Ok n else search_loop (S n) u16s x 0 n.

(** [n < self.b16his.len() && self.b16his[n] == hi]. *)
Definition his_at (b : Bucket32) (n : nat) (hi : Z) : run bool :=
  if (n <? length (b32_b16his b))%nat then v ← idx (b32_b16his b) n; Ok (v =? hi) else Ok false.

Definition set_hint (b : Bucket32) (hint : Z) : Bucket32 :=
  mkBucket32 (b32_hi b) hint (b32_b16his b) (b32_buckets b).

(** [self.buckets[n].f(..)] for an operation [f] that changes the bucket. *)
Definition with_bucket {R} (b : Bucket32) (n : nat) (f : Bucket16 -> run (Bucket16 * R)) : run (Bucket32 * R) :=
  b16 ← idx (b32_buckets b) n;
  '(b16, r) ← f b16;
  buckets ← set_idx (b32_buckets b) n b16;
  Ok (mkBucket32 (b32_hi b) (b32_hint b) (b32_b16his b) buckets, r).

(** [n < self.buckets.len() && self.buckets[n].f(..)]. *)
Definition with_bucket_if (b : Bucket32) (n : nat) (f : Bucket16 -> run (Bucket16 * bool))
    : run (Bucket32 * bool) :=
  if (n <? length (b32_buckets b))%nat then with_bucket b n f else Ok (b, false).

(** The bucket with the new entry, and the position of the entry. *)
Definition add_bucket_at_pos (b : Bucket32) (hi : Z) (pos : nat) : run (Bucket32 * nat) :=
  if (length (b32_b16his b) <=? pos)%nat then
    Ok (mkBucket32 (b32_hi b) (b32_hint b) (b32_b16his b ++ [hi]) (b32_buckets b ++ [b16_default]),
        length (b32_buckets b))
  else
    b16his ← vec_insert (b32_b16his b) pos hi;
    buckets ← vec_insert (b32_buckets b) pos b16_default;
    Ok (mkBucket32 (b32_hi b) (b32_hint b) b16his buckets, pos).

Definition add_slow (b : Bucket32) (hi lo : Z) : run (Bucket32 * bool) :=
  n ← binary_search16 (b32_b16his b) hi;
  found ← his_at b n hi;
  if negb found then
    '(b, pos) ← add_bucket_at_pos b hi n;
    '(b, _) ← with_bucket b pos (fun b16 => b16_add b16 lo);
    Ok (b, true)
  else with_bucket_if (set_hint b (as_u32 (Z.of_nat n))) n (fun b16 => b16_add b16 lo).

(** The body of [Bucket32::add], which [Set::add] repeats inline. *)
Definition add_hinted (b : Bucket32) (hi lo : Z) : run (Bucket32 * bool) :=
  let n := Z.to_nat (b32_hint b) in
  hit ← his_at b n hi;
  if hit : bool then with_bucket_if b n (fun b16 => b16_add b16 lo) else add_slow b hi lo.

Definition b32_add (b : Bucket32) (x : Z) : run (Bucket32 * bool) :=
  add_hinted b (as_u16 (Z.shiftr x 16)) (as_u16 x).

Definition get_or_create_bucket16 (b : Bucket32) (hi : Z) : run (Bucket32 * nat) :=
  n ← binary_search16 (b32_b16his b) hi;
  found ← his_at b n hi;
  if negb found then add_bucket_at_pos b hi n else Ok (b, n).

(** The bucket and the number of new items. *)
Definition b32_add_multi (b : Bucket32) (a : list Z) : run (Bucket32 * nat) :=
  match a with
  | [] => Ok (b, O)
  | a0 :: _ =>
      add_runs (fun x => as_u16 (Z.shiftr x 16))
        (fun '(b, count) hi part =>
           '(b, pos) ← get_or_create_bucket16 b hi;
           '(b, c) ← with_bucket b pos (fun b16 => b16_add_multi b16 part);
           Ok (b, count + c)%nat)
        a a (b, O) (as_u16 (Z.shiftr a0 16)) 0 0
  end.

Definition b32_has (b : Bucket32) (x : Z) : run bool :=
  let hi := as_u16 (Z.shiftr x 16) in
  let lo := as_u16 x in
  n ← binary_search16 (b32_b16his b) hi;
  found ← his_at b n hi;
  if negb found then Ok false
  else if (n <? length (b32_buckets b))%nat then b16 ← idx (b32_buckets b) n; b16_has b16 lo
  else Ok false.

Definition del_slow (b : Bucket32) (hi lo : Z) : run (Bucket32 * bool) :=
  n ← binary_search16 (b32_b16his b) hi;
  found ← his_at b n hi;
  if negb found then Ok (b, false)
  else with_bucket_if (set_hint b (as_u32 (Z.of_nat n))) n (fun b16 => b16_del b16 lo).

Definition b32_del (b : Bucket32) (x : Z) : run (Bucket32 * bool) :=
  let hi := as_u16 (Z.shiftr x 16) in
  let lo := as_u16 x in
  let n := Z.to_nat (b32_hint b) in
  hit ← his_at b n hi;
  if hit : bool then with_bucket_if b n (fun b16 => b16_del b16 lo) else del_slow b hi lo.

(** The loop of [Bucket32::append_to] over the buckets from index [i]. *)
Fixpoint b32_append_loop (b : Bucket32) (i : nat) (buckets : list Bucket16) (dst : list Z) : run (list Z) :=
  match buckets with
  | [] => Ok dst
  | b16 :: buckets =>
      hi16 ← idx (b32_b16his b) i;
      dst ← b16_append_to b16 dst (b32_hi b) hi16;
      b32_append_loop b (S i) buckets dst
  end.

Definition b32_append_to (b : Bucket32) (dst : list Z) : run (list Z) :=
  b32_append_loop b 0 (b32_buckets b) dst.

(** [Bucket32::for_each]: the state of the closure and whether to go on. *)
Fixpoint b32_for_each_loop {St} (f : St -> list Z -> run (St * bool)) (b : Bucket32) (i : nat)
    (buckets : list Bucket16) (st : St) : run (St * bool) :=
  match buckets with
  | [] => Ok (st, true)
  | b16 :: buckets =>
      hi16 ← idx (b32_b16his b) i;
      buf ← b16_append_to b16 [] (b32_hi b) hi16;
      '(st, more) ← f st buf;
      if negb more then Ok (st, false) else b32_for_each_loop f b (S i) buckets st
  end.

Definition b32_for_each {St} (f : St -> list Z -> run (St * bool)) (b : Bucket32) (st : St)
    : run (St * bool) :=
  b32_for_each_loop f b 0 (b32_buckets b) st.

Definition b32_push (a b : Bucket32) (j : nat) : run Bucket32 :=
  hi ← idx (b32_b16his a) j;
  b16 ← idx (b32_buckets a) j;
  Ok (mkBucket32 (b32_hi b) (b32_hint b) (b32_b16his b ++ [hi]) (b32_buckets b ++ [b16])).

(** [self.buckets[i].f(&a.buckets[j])]. *)
Definition b32_merge (f : Bucket16 -> Bucket16 -> run Bucket16) (a b : Bucket32) (i j : nat) : run Bucket32 :=
  x ← idx (b32_buckets b) i;
  y ← idx (b32_buckets a) j;
  z ← f x y;
  buckets ← set_idx (b32_buckets b) i z;
  Ok (mkBucket32 (b32_hi b) (b32_hint b) (b32_b16his b) buckets).

Definition b32_clear (b : Bucket32) (i : nat) : run Bucket32 :=
  buckets ← set_idx (b32_buckets b) i b16_default;
  Ok (mkBucket32 (b32_hi b) (b32_hint b) (b32_b16his b) buckets).

Definition b32_union (b a : Bucket32) : run Bucket32 :=
  let n := length (b32_buckets b) in
  let m := length (b32_b16his a) in
  b ← union_loop n m (fun b i => idx (b32_b16his b) i) (fun j => idx (b32_b16his a) j)
        (b32_push a) (b32_merge b16_union a) (S (n + m)) b 0 0;
  if is_sorted (b32_b16his b) then Ok b
  else
    let pairs := sort_by_key fst (zip (b32_b16his b) (b32_buckets b)) in
    Ok (mkBucket32 (b32_hi b) (b32_hint b) pairs.*1 pairs.*2).

Definition b32_intersect (b a : Bucket32) : run Bucket32 :=
  let n := length (b32_b16his b) in
  let m := length (b32_b16his a) in
  b ← intersect_loop n m (fun b i => idx (b32_b16his b) i) (fun j => idx (b32_b16his a) j)
        (b32_merge b16_intersect a) b32_clear (S (n + m)) b 0 0;
  let kept := filter (fun p => b16_is_zero p.2 = false) (zip (b32_b16his b) (b32_buckets b)) in
  Ok (mkBucket32 (b32_hi b) 0 kept.*1 kept.*2).

(** ** The set *)

Record USet : Type := mkSet {
  s_items_count : nat;
  s_buckets : list Bucket32
}.

Definition set_default : USet := mkSet 0 [].

Definition set_len (s : USet) : nat := s_items_count s.
Definition set_is_empty (s : USet) : bool := (s_items_count s =? 0)%nat.

Definition set_clone (s : USet) : USet :=
  if (s_items_count s =? 0)%nat then set_default
  else mkSet (s_items_count s) (map b32_clone (s_buckets s)).

Definition fix_items_count (s : USet) : USet :=
  mkSet (foldl (fun n b32 => (n + b32_get_len b32)%nat) 0%nat (s_buckets s)) (s_buckets s).

(** The [for] loops that operate on the first bucket with the key [hi]: the
    buckets after the operation and its result, or [None] when there is no
    such bucket. *)
Fixpoint update_bucket32 (hi : Z) (f : Bucket32 -> run (Bucket32 * bool)) (buckets : list Bucket32)
    : run (option (list Bucket32 * bool)) :=
  match buckets with
  | [] => Ok None
  | b32 :: buckets =>
      if b32_hi b32 =? hi then '(b32, r) ← f b32; Ok (Some (b32 :: buckets, r))
      else
        o ← update_bucket32 hi f buckets;
        Ok (match o with Some (buckets, r) => Some (b32 :: buckets, r) | None => None end)
  end.

Definition set_add (s : USet) (x : Z) : run USet :=
  let hi32 := as_u32 (Z.shiftr x 32) in
  let lo32 := as_u32 x in
  let counted (added : bool) := if added then S (s_items_count s) else s_items_count s in
  let slow :=
    o ← update_bucket32 hi32 (fun b32 => b32_add b32 lo32) (s_buckets s);
    match o with
    | Some (buckets, added) => Ok (mkSet (counted added) buckets)
    | None =>
        '(b32, _) ← b32_add (mkBucket32 hi32 (b32_hint b32_default) (b32_b16his b32_default)
                               (b32_buckets b32_default)) lo32;
        Ok (mkSet (S (s_items_count s)) (s_buckets s ++ [b32]))
    end in
  match s_buckets s with
  | first :: buckets =>
      if b32_hi first =? hi32 then
        '(first, added) ← add_hinted first (as_u16 (Z.shiftr lo32 16)) (as_u16 lo32);
        Ok (mkSet (counted added) (first :: buckets))
      else slow
  | [] => slow
  end.

(** The set and the position of the bucket with the key [hi]. *)
Definition get_or_create_bucket32 (s : USet) (hi : Z) : USet * nat :=
  match position (map b32_hi (s_buckets s)) hi with
  | Some pos => (s, pos)
  | None =>
      (mkSet (s_items_count s)
         (s_buckets s ++ [mkBucket32 hi (b32_hint b32_default) (b32_b16his b32_default)
                            (b32_buckets b32_default)]),
       length (s_buckets s))
  end.

Definition set_add_multi (s : USet) (a : list Z) : run USet :=
  match a with
  | [] => Ok s
  | a0 :: _ =>
      add_runs (fun x => as_u32 (Z.shiftr x 32))
        (fun s hi part =>
           let '(s, pos) := get_or_create_bucket32 s hi in
           b32 ← idx (s_buckets s) pos;
           '(b32, count) ← b32_add_multi b32 part;
           buckets ← set_idx (s_buckets s) pos b32;
           Ok (mkSet (s_items_count s + count) buckets))
        a a s (as_u32 (Z.shiftr a0 32)) 0 0
  end.

Fixpoint has_loop (hi32 lo32 : Z) (buckets : list Bucket32) : run bool :=
  match buckets with
  | [] => Ok false
  | b32 :: buckets => if b32_hi b32 =? hi32 then b32_has b32 lo32 else has_loop hi32 lo32 buckets
  end.

Definition set_has (s : USet) (x : Z) : run bool :=
  has_loop (as_u32 (Z.shiftr x 32)) (as_u32 x) (s_buckets s).

(** [self.items_count -= 1]. *)
Definition count_del (n : nat) (deleted : bool) : run nat :=
  if deleted then _ ← assert_ (1 <=? n)%nat; Ok (n - 1)%nat else Ok n.

Definition set_del (s : USet) (x : Z) : run USet :=
  let hi := as_u32 (Z.shiftr x 32) in
  let lo := as_u32 x in
  let slow :=
    o ← update_bucket32 hi (fun b32 => b32_del b32 lo) (s_buckets s);
    match o with
    | Some (buckets, deleted) => n ← count_del (s_items_count s) deleted; Ok (mkSet n buckets)
    | None => Ok s
    end in
  match s_buckets s with
  | first :: buckets =>
      if b32_hi first =? hi then
        '(first, deleted) ← b32_del first lo;
        n ← count_del (s_items_count s) deleted;
        Ok (mkSet n (first :: buckets))
      else slow
  | [] => slow
  end.

Definition set_sort (s : USet) : USet :=
  if is_sorted (map b32_hi (s_buckets s)) then s
  else mkSet (s_items_count s) (sort_by_key b32_hi (s_buckets s)).

Fixpoint append_buckets (buckets : list Bucket32) (dst : list Z) : run (list Z) :=
  match buckets with
  | [] => Ok dst
  | b32 :: buckets => dst ← b32_append_to b32 dst; append_buckets buckets dst
  end.

(** The set with its buckets sorted, and the items. *)
Definition set_append_to (s : USet) (dst : list Z) : run (USet * list Z) :=
  let s := set_sort s in
  dst ← append_buckets (s_buckets s) dst;
  Ok (s, dst).

(** The closure of [for_each] passes its captured state along. *)
Fixpoint for_each_loop {St} (f : St -> list Z -> run (St * bool)) (buckets : list Bucket32) (st : St)
    : run St :=
  match buckets with
  | [] => Ok st
  | b32 :: buckets =>
      '(st, more) ← b32_for_each f b32 st;
      if negb more then Ok st else for_each_loop f buckets st
  end.

Definition set_for_each {St} (f : St -> list Z -> run (St * bool)) (s : USet) (st : St) : run St :=
  for_each_loop f (s_buckets s) st.

(** The indexes of the buckets in the order of their keys. *)
Definition sorted_bucket_order (a : USet) : list nat :=
  sort_by_key (fun k => match s_buckets a !! k with Some b => b32_hi b | None => 0 end)
    (seq 0 (length (s_buckets a))).

(** [&a.buckets[order[j]]]. *)
Definition bucket_in_order (a : USet) (order : list nat) (j : nat) : run Bucket32 :=
  k ← idx order j;
  idx (s_buckets a) k.

Definition s_key (s : USet) (i : nat) : run Z := b ← idx (s_buckets s) i; Ok (b32_hi b).

Definition s_push (a : USet) (order : list nat) (s : USet) (j : nat) : run USet :=
  b ← bucket_in_order a order j;
  Ok (mkSet (s_items_count s) (s_buckets s ++ [b32_clone b])).

Definition s_merge (f : Bucket32 -> Bucket32 -> run Bucket32) (a : USet) (order : list nat) (s : USet) (i j : nat)
    : run USet :=
  x ← idx (s_buckets s) i;
  y ← bucket_in_order a order j;
  z ← f x y;
  buckets ← set_idx (s_buckets s) i z;
  Ok (mkSet (s_items_count s) buckets).

Definition s_clear (s : USet) (i : nat) : run USet :=
  buckets ← set_idx (s_buckets s) i b32_default;
  Ok (mkSet (s_items_count s) buckets).

Definition set_union (s a : USet) : run USet :=
  if set_is_empty a then Ok s
  else if set_is_empty s then Ok (set_clone a)
  else
    let order := sorted_bucket_order a in
    let s := set_sort s in
    let n := length (s_buckets s) in
    let m := length order in
    s ← union_loop n m s_key (fun j => b ← bucket_in_order a order j; Ok (b32_hi b))
          (s_push a order) (s_merge b32_union a order) (S (n + m)) s 0 0;
    Ok (fix_items_count s).

Definition set_intersect (s a : USet) : run USet :=
  if set_is_empty s || set_is_empty a then Ok set_default
  else
    let order := sorted_bucket_order a in
    let s := set_sort s in
    let n := length (s_buckets s) in
    let m := length order in
    s ← intersect_loop n m s_key (fun j => b ← bucket_in_order a order j; Ok (b32_hi b))
          (s_merge b32_intersect a order) s_clear (S (n + m)) s 0 0;
    Ok (fix_items_count s).

Fixpoint set_del_all (s : USet) (l : list Z) : run USet :=
  match l with
  | [] => Ok s
  | x :: l => s ← set_del s x; set_del_all s l
  end.

(** The items of [l] that are in [a], appended to [to_del]. *)
Fixpoint collect_shared (a : USet) (to_del l : list Z) : run (list Z) :=
  match l with
  | [] => Ok to_del
  | x :: l =>
      found ← set_has a x;
      collect_shared a (if found : bool then to_del ++ [x] else to_del) l
  end.

Definition set_subtract (s a : USet) : run USet :=
  if set_is_empty s || set_is_empty a then Ok s
  else if (set_len a <=? set_len s)%nat then
    set_for_each (fun s part => s ← set_del_all s part; Ok (s, true)) a s
  else
    to_del ← set_for_each (fun to_del part => to_del ← collect_shared a to_del part; Ok (to_del, true)) s [];
    set_del_all s to_del.

(** [for &x in part { if !self.has(x) { return false } } true]. *)
Fixpoint has_all (s : USet) (l : list Z) : run bool :=
  match l with
  | [] => Ok true
  | x :: l => found ← set_has s x; if negb found then Ok false else has_all s l
  end.

Definition set_equal (s a : USet) : run bool :=
  if negb (set_len s =? set_len a)%nat then Ok false
  else
    set_for_each (fun equal part => all ← has_all s part; if all : bool then Ok (equal, true) else Ok (false, false))
      a true.

Definition set_marshal (s : USet) (dst : list Z) : run (list Z) :=
  set_for_each (fun dst part => Ok (dst ++ concat (map (to_be_bytes 8) part), true)) s
    (dst ++ to_be_bytes 8 (Z.of_nat (set_len s))).

Inductive set_error : Type :=
| SetLenTooShort (got : nat)
| SetItemsTooShort (got : nat) (want : Z).

Fixpoint unmarshal_items (n : nat) (s : USet) (src : list Z) : res set_error (USet * list Z) :=
  match n with
  | O => Ok (s, src)
  | S n =>
      e ← read_be 8 src;
      src ← slice_from src 8;
      match set_add s e with
      | Ok s => unmarshal_items n s src
      | _ => Panic
      end
  end.

(** The set and the unread bytes. *)
Definition set_unmarshal (src : list Z) : res set_error (USet * list Z) :=
  _ ← guard_ (length src <? 8)%nat (SetLenTooShort (length src));
  s_len ← read_be 8 src;
  src ← slice_from src 8;
  _ ← guard_ (Z.of_nat (length src) / 8 <? s_len) (SetItemsTooShort (length src) (as_u64 (8 * s_len)));
  unmarshal_items (Z.to_nat s_len) set_default src.

