(* ===== verification/Uint64SetBucket.v ===== *)
(** * The low level of the integer sets

    The buckets of 16-bit integers of [Uint64Set] (small pool or bitmap): their
    invariant, the items they hold, and the effect of every operation on the
    items. *)
From Stdlib Require Import ZArith Lia Bool.
From stdpp Require Import gmap.
From S2P Require Import Prelude IntCodec Uint64Set.
Local Open Scope Z_scope.

(** ** Strictly sorted lists *)

Abbreviation strictZ := (StronglySorted Z.lt).

Lemma strict_ext l1 : forall l2, strictZ l1 -> strictZ l2 -> (forall x, x ∈ l1 <-> x ∈ l2) -> l1 = l2.
Proof.
  induction l1 as [|x l1 IH]; intros [|y l2] H1 H2 Hm.
  - done.
  - destruct (Hm y) as [_ H]. apply elem_of_nil in H; [done|left].
  - destruct (Hm x) as [H _]. apply elem_of_nil in H; [done|left].
  - inversion_clear H1 as [|? ? Hs1 Hf1]. inversion_clear H2 as [|? ? Hs2 Hf2].
    rewrite Forall_forall in Hf1, Hf2. assert (x = y) as ->.
    { pose proof (proj1 (Hm x) ltac:(left)) as [E|E]%elem_of_cons; [done|].
      pose proof (proj2 (Hm y) ltac:(left)) as [E'|E']%elem_of_cons; [done|].
      specialize (Hf2 x E). specialize (Hf1 y E'). lia. }
    f_equal. apply IH; [done..|]. intros z. split; intros Hz.
    + pose proof (proj1 (Hm z) ltac:(by right)) as [->|E]%elem_of_cons; [|done].
      specialize (Hf1 y Hz). lia.
    + pose proof (proj2 (Hm z) ltac:(by right)) as [->|E]%elem_of_cons; [|done].
      specialize (Hf2 y Hz). lia.
Qed.

Lemma strict_NoDup l : strictZ l -> NoDup l.
Proof.
  induction 1 as [|x l Hl IH Hx]; constructor; [|done]. intros Hin. rewrite Forall_forall in Hx.
  specialize (Hx x Hin). lia.
Qed.

Lemma strict_app l1 l2 :
  strictZ l1 -> strictZ l2 -> (forall x y, x ∈ l1 -> y ∈ l2 -> x < y) -> strictZ (l1 ++ l2).
Proof. intros. by apply StronglySorted_app. Qed.

Lemma strict_map (f : Z -> Z) l : (forall x y, x < y -> f x < f y) -> strictZ l -> strictZ (map f l).
Proof.
  intros Hf. induction 1 as [|x l Hl IH Hx]; cbn; constructor; [done|].
  apply Forall_map. revert Hx. apply Forall_weaken. intros. by apply Hf.
Qed.

Lemma strict_seqZ a n : strictZ (seqZ a n).
Proof.
  destruct (decide (n < 0)); [rewrite seqZ_nil by lia; constructor|].
  rewrite <-(Z2Nat.id n) by lia. generalize (Z.to_nat n). intros k. revert a. induction k as [|k IH]; intros a; [constructor|].
  rewrite seqZ_cons by lia. replace (Z.pred (Z.of_nat (S k))) with (Z.of_nat k) by lia. constructor; [done|].
  apply Forall_forall. intros x Hx%elem_of_seqZ. lia.
Qed.

Lemma strict_filter (P : Z -> Prop) `{!forall x, Decision (P x)} l : strictZ l -> strictZ (filter P l).
Proof.
  induction 1 as [|x l Hl IH Hx]; [constructor|]. rewrite filter_cons. destruct (decide (P x)); [|done].
  constructor; [done|]. apply Forall_forall. intros y [_ Hy]%list_elem_of_filter.
  rewrite Forall_forall in Hx. auto.
Qed.

Lemma strict_of_sorted l : sortedZ l -> NoDup l -> strictZ l.
Proof.
  induction 1 as [|x l Hl IH Hx]; intros Hn; constructor; inversion_clear Hn as [|? ? Hx' Hn'].
  - by apply IH.
  - apply Forall_forall. intros y Hy. rewrite Forall_forall in Hx. specialize (Hx y Hy).
    assert (x <> y) by (by intros ->). lia.
Qed.

(** ** Words *)

(** The positions of the bits of a word. *)
Definition word_items (w : Z) : list Z := filter (fun i => Z.testbit w i = true) (seqZ 0 64).

Lemma elem_word_items w i : i ∈ word_items w <-> 0 <= i < 64 /\ Z.testbit w i = true.
Proof. unfold word_items. rewrite list_elem_of_filter, elem_of_seqZ. naive_solver lia. Qed.

Lemma word_items_strict w : strictZ (word_items w).
Proof. apply strict_filter, strict_seqZ. Qed.

Lemma trailing_zeros_spec n : forall x,
  let t := Z.of_nat (trailing_zeros n x) in
  0 <= t <= Z.of_nat n /\ (forall i, 0 <= i < t -> Z.testbit x i = false) /\ (t < Z.of_nat n -> Z.testbit x t = true).
Proof.
  induction n as [|n IH]; intros x; cbn [trailing_zeros]; [cbn; split_and!; [lia..| |lia]; intros; lia|].
  destruct (Z.odd x) eqn:Ho.
  - cbn [Z.of_nat]. split_and!; [lia..| |by rewrite Z.bit0_odd]. intros. lia.
  - destruct (IH (Z.div2 x)) as (H1 & H2 & H3). split_and!; [lia..| |].
    + intros i Hi. destruct (decide (i = 0)) as [->|]; [by rewrite Z.bit0_odd|].
      replace i with (Z.succ (i - 1)) by lia. rewrite <-Z.div2_bits, <-Z.div2_div by lia. apply H2. lia.
    + intros Ht. rewrite Nat2Z.inj_succ, <-Z.div2_bits, <-Z.div2_div by lia. apply H3. lia.
Qed.

Lemma u64_high_bits w i : is_u64 w -> 64 <= i -> Z.testbit w i = false.
Proof.
  intros [H1 H2] Hi. rewrite <-(Z.mod_small w (2 ^ 64)) by lia. apply Z.mod_pow2_bits_high. lia.
Qed.

Lemma testbit_not_mask w k i : 0 <= k < 64 -> 0 <= i < 64 ->
  Z.testbit (Z.land w (u64_not (u64_shl 1 k))) i = Z.testbit w i && negb (i =? k).
Proof.
  intros Hk Hi. unfold u64_not. rewrite Z.land_spec, Z.lxor_spec.
  assert (0 < 2 ^ k < 2 ^ 64) by (split; [lia|apply Z.pow_lt_mono_r; lia]).
  rewrite u64_shl_small by lia. rewrite Z.mul_1_l, Z.pow2_bits_eqb by lia.
  change (2 ^ 64 - 1) with (Z.ones 64). rewrite Z.ones_spec_low by lia.
  rewrite xorb_true_r, (Z.eqb_sym k i). done.
Qed.

Lemma land_u64 a b : is_u64 a -> is_u64 (Z.land a b).
Proof.
  intros Ha. pose proof Ha as [H1 H2]. assert (0 <= Z.land a b) by (apply Z.land_nonneg; lia). split; [done|].
  destruct (decide (Z.land a b = 0)); [lia|]. apply Z.log2_lt_pow2; [lia|].
  apply Z.nle_gt. intros Hl. pose proof (Z.bit_log2 (Z.land a b) ltac:(lia)) as Hb.
  rewrite Z.land_spec, (u64_high_bits a) in Hb by done. done.
Qed.

Lemma word_items_next w : is_u64 w -> w <> 0 ->
  let t := Z.of_nat (trailing_zeros 64 w) in
  t < 64 /\ word_items w = t :: word_items (Z.land w (u64_not (u64_shl 1 t))).
Proof.
  intros Hw Hne t. destruct (trailing_zeros_spec 64 w) as (H1 & H2 & H3). fold t in H1, H2, H3.
  assert (Ht : t < 64).
  { apply Z.nle_gt. intros Hge. apply Hne, Z.bits_inj'. intros i Hi. rewrite Z.bits_0.
    destruct (decide (i < 64)); [apply H2; lia|]. apply u64_high_bits; [done|lia]. }
  split; [done|]. apply strict_ext; [apply word_items_strict|constructor; [apply word_items_strict|]|].
  - apply Forall_forall. intros i [Hi Hb]%elem_word_items. rewrite testbit_not_mask in Hb by lia.
    apply andb_true_iff in Hb as [Hb Hnk]. destruct (decide (i < t)); [|lia]. rewrite H2 in Hb by lia. done.
  - intros i. rewrite elem_of_cons, !elem_word_items. split.
    + intros [Hi Hb]. destruct (decide (i = t)); [by left|right]. rewrite testbit_not_mask by lia. split; [lia|].
      rewrite Hb. lia.
    + intros [->|[Hi Hb]]; [split; [lia|apply H3; lia]|]. split; [done|].
      rewrite testbit_not_mask in Hb by lia. by apply andb_true_iff in Hb as [? _].
Qed.

Lemma append_word_spec fuel : forall dst w x64, is_u64 w -> (length (word_items w) < fuel)%nat ->
  append_word fuel dst w x64 = Ok (dst ++ map (Z.lor x64) (word_items w)).
Proof.
  induction fuel as [|fuel IH]; intros dst w x64 Hw Hf; [lia|]. cbn [append_word].
  destruct (decide (w = 0)) as [->|Hne]; [cbn; by rewrite app_nil_r|].
  destruct (word_items_next w Hw Hne) as [Ht He]. rewrite He in Hf |- *.
  destruct (Z.geb_spec (Z.of_nat (trailing_zeros 64 w)) 64); [lia|].
  rewrite IH; [|by apply land_u64|rewrite length_cons in Hf; lia]. cbn [map]. by rewrite <-app_assoc.
Qed.

Lemma word_items_length w : (length (word_items w) <= 64)%nat.
Proof. unfold word_items. rewrite length_filter, length_seqZ. done. Qed.

(** The items of a bitmap whose first word has number [k]. *)
Fixpoint words_items (k : Z) (ws : list Z) : list Z :=
  match ws with
  | [] => []
  | w :: ws => map (fun i => 64 * k + i) (word_items w) ++ words_items (k + 1) ws
  end.

(** Bit [x] of a bitmap. *)
Definition bit_in (ws : list Z) (x : Z) : bool :=
  match ws !! Z.to_nat (x / 64) with
  | Some w => Z.testbit w (x mod 64)
  | None => false
  end.

Lemma elem_words_items ws : forall k x,
  x ∈ words_items k ws <-> 64 * k <= x /\ bit_in ws (x - 64 * k) = true.
Proof.
  induction ws as [|w ws IH]; intros k x; cbn [words_items].
  { unfold bit_in. rewrite lookup_nil, elem_of_nil. naive_solver. }
  rewrite elem_of_app, IH. set (y := x - 64 * k).
  assert (Hmap : x ∈ map (fun i => 64 * k + i) (word_items w) <-> 0 <= y < 64 /\ Z.testbit w y = true).
  { rewrite <-elem_word_items. change (map ?f ?l) with (f <$> l). rewrite list_elem_of_fmap. split.
    - intros (i & -> & Hi). subst y. by replace (64 * k + i - 64 * k) with i by lia.
    - intros Hy. exists y. split; [lia|done]. }
  rewrite Hmap. unfold bit_in. replace (x - 64 * (k + 1)) with (y + (-1) * 64) by lia.
  rewrite Z.div_add, Z.mod_add by lia. destruct (decide (0 <= y < 64)) as [Hy|Hy].
  - rewrite Z.div_small, Z.mod_small by lia. cbn. naive_solver lia.
  - destruct (decide (64 <= y)); [|naive_solver lia]. assert (1 <= y / 64) by (apply Z.div_le_lower_bound; lia).
    replace (Z.to_nat (y / 64)) with (S (Z.to_nat (y / 64 + -1))) by lia. cbn. naive_solver lia.
Qed.

Lemma words_items_strict ws : forall k, strictZ (words_items k ws).
Proof.
  induction ws as [|w ws IH]; intros k; cbn [words_items]; [constructor|].
  apply strict_app; [apply strict_map; [lia|apply word_items_strict]|apply IH|].
  intros x y. change (map ?f ?l) with (f <$> l). rewrite list_elem_of_fmap, elem_words_items.
  intros (i & -> & Hi%elem_word_items) [Hy _]. lia.
Qed.

Lemma words_items_range ws x : length ws = WORDS_PER_BUCKET -> x ∈ words_items 0 ws -> is_u16 x.
Proof.
  intros Hl [Hx Hb]%elem_words_items. unfold bit_in in Hb. destruct (_ !! _) eqn:E; [|done].
  apply lookup_lt_Some in E. rewrite Hl in E. change WORDS_PER_BUCKET with (Z.to_nat 1024) in E.
  replace (x - 64 * 0) with x in E by lia. split; [lia|]. change (2 ^ 16) with (64 * 1024). dlia.
Qed.

Lemma append_words_spec ws : forall dst hi64 k, Forall is_u64 ws -> 0 <= k ->
  (forall x, 64 * k <= x < 64 * (k + Z.of_nat (length ws)) -> Z.lor hi64 x = hi64 + x) ->
  append_words dst hi64 k ws = Ok (dst ++ map (fun x => hi64 + x) (words_items k ws)).
Proof.
  induction ws as [|w ws IH]; intros dst hi64 k Hws Hk Hlor; cbn [append_words words_items].
  { cbn. by rewrite app_nil_r. }
  inversion_clear Hws as [|? ? Hw Hws']. rewrite length_cons in Hlor.
  assert (Hrest : forall x, 64 * (k + 1) <= x < 64 * (k + 1 + Z.of_nat (length ws)) -> Z.lor hi64 x = hi64 + x).
  { intros x Hx. apply Hlor. lia. }
  destruct (Z.eqb_spec w 0) as [->|Hne]; [by rewrite IH by (done || lia)|].
  rewrite (append_word_spec 65), bind_Ok, IH by (done || lia || (pose proof (word_items_length w); lia)).
  rewrite map_app, <-app_assoc. do 3 f_equal. rewrite map_map. apply map_ext_in. intros i Hi.
  apply list_elem_of_In, elem_word_items in Hi as [Hi _].
  assert (Z.lor (k * 64) i = 64 * k + i) as E.
  { rewrite Z.lor_comm. change 64 with (2 ^ 6). rewrite lor_shifted by lia. lia. }
  rewrite <-Z.lor_assoc, E. apply Hlor. lia.
Qed.

Lemma length_words_items ws : forall k n, Forall is_u64 ws ->
  foldl (fun n x => if x >? 0 then (n + count_ones x)%nat else n) n ws = (n + length (words_items k ws))%nat.
Proof.
  induction ws as [|w ws IH]; intros k n Hws; cbn [foldl words_items]; [cbn; lia|].
  inversion_clear Hws as [|? ? Hw Hws'].
  rewrite (IH (k + 1)), length_app, length_map by done. change (length (word_items w)) with (count_ones w).
  destruct (Z.gtb_spec w 0); [lia|]. assert (w = 0) as -> by (destruct Hw; lia). change (count_ones 0) with 0%nat. lia.
Qed.

(** ** The low 16 bits *)

Definition words_ok (ws : list Z) : Prop := length ws = WORDS_PER_BUCKET /\ Forall is_u64 ws.

Record wf16 (b : Bucket16) : Prop := {
  wf16_pool : length (b16_small_pool b) = SMALL_POOL_SIZE;
  wf16_len : (b16_small_pool_len b <= SMALL_POOL_SIZE)%nat;
  wf16_u16 : Forall is_u16 (b16_small_pool b);
  wf16_bits : match b16_bits b with
              | None => NoDup (take (b16_small_pool_len b) (b16_small_pool b))
              | Some ws => words_ok ws
              end
}.

(** The items of a bucket in increasing order. *)
Definition b16_items (b : Bucket16) : list Z :=
  match b16_bits b with
  | None => sort_by_key id (take (b16_small_pool_len b) (b16_small_pool b))
  | Some ws => words_items 0 ws
  end.

Lemma elem_items_pool b x : b16_bits b = None ->
  x ∈ b16_items b <-> x ∈ take (b16_small_pool_len b) (b16_small_pool b).
Proof. intros Hb. unfold b16_items. by rewrite Hb, sort_by_key_perm. Qed.

Lemma elem_items_bits b ws x : b16_bits b = Some ws -> x ∈ b16_items b <-> 0 <= x /\ bit_in ws x = true.
Proof.
  intros Hb. unfold b16_items. rewrite Hb, elem_words_items. by replace (x - 64 * 0) with x by lia.
Qed.

Lemma b16_items_strict b : wf16 b -> strictZ (b16_items b).
Proof.
  intros [_ _ _ Hbits]. unfold b16_items. destruct (b16_bits b); [apply words_items_strict|].
  apply strict_of_sorted; [apply sort_by_key_sorted|]. by rewrite sort_by_key_perm.
Qed.

Lemma b16_items_range b x : wf16 b -> x ∈ b16_items b -> is_u16 x.
Proof.
  intros [_ _ Hu Hbits] Hx. destruct (b16_bits b) as [ws|] eqn:E.
  - unfold b16_items in Hx. rewrite E in Hx. by apply (words_items_range ws); [apply Hbits|].
  - apply elem_items_pool in Hx; [|done]. rewrite Forall_forall in Hu. apply Hu.
    apply elem_of_take in Hx as (i & Hi & _). by eapply list_elem_of_lookup_2.
Qed.

(** *** Bitmaps *)

Lemma word_index x : is_u16 x -> (Z.to_nat (x / 64) < WORDS_PER_BUCKET)%nat.
Proof. intros [H1 H2]. change WORDS_PER_BUCKET with (Z.to_nat 1024). dlia. Qed.

Lemma word_lookup ws x : words_ok ws -> is_u16 x -> exists w, ws !! Z.to_nat (x / 64) = Some w /\ is_u64 w.
Proof.
  intros [Hl Hu] Hx. destruct (lookup_lt_is_Some_2 ws (Z.to_nat (x / 64))) as [w Hw].
  { rewrite Hl. by apply word_index. }
  exists w. split; [done|]. rewrite Forall_lookup in Hu. eauto.
Qed.

Lemma bit_mask x : u64_shl 1 (Z.land x 63) = 2 ^ (x mod 64).
Proof.
  rewrite (land_ones_mod x 6 63) by done. change (2 ^ 6) with 64. pose proof (Z.mod_pos_bound x 64 eq_refl).
  assert (2 ^ (x mod 64) < 2 ^ 64) by (apply Z.pow_lt_mono_r; lia).
  rewrite u64_shl_small by lia. lia.
Qed.

Lemma land_mask w k : 0 <= k -> (Z.land w (2 ^ k) =? 0) = negb (Z.testbit w k).
Proof.
  intros Hk. assert (Z.land w (2 ^ k) = if Z.testbit w k then 2 ^ k else 0) as ->.
  - apply Z.bits_inj'. intros n Hn. rewrite Z.land_spec, Z.pow2_bits_eqb by done.
    destruct (Z.eqb_spec k n) as [->|]; [destruct (Z.testbit w n)|destruct (Z.testbit w k)];
      rewrite ?Z.bits_0, ?Z.pow2_bits_eqb, ?Z.eqb_refl by done; try done; [|by rewrite andb_false_r].
    rewrite andb_false_r. symmetry. by apply Z.eqb_neq.
  - destruct (Z.testbit w k); cbn; [|done]. apply Z.eqb_neq. lia.
Qed.

(** A bitmap with one word replaced. *)
Lemma bit_in_insert ws x w y : words_ok ws -> is_u16 x -> 0 <= y ->
  bit_in (<[Z.to_nat (x / 64) := w]> ws) y =
  if decide (y / 64 = x / 64) then Z.testbit w (y mod 64) else bit_in ws y.
Proof.
  intros [Hl _] Hx Hy. unfold bit_in. case_decide as E.
  - rewrite E, list_lookup_insert_eq; [done|]. rewrite Hl. by apply word_index.
  - rewrite list_lookup_insert_ne; [done|]. intros Heq. apply E. destruct Hx.
    apply Z2Nat.inj in Heq; [done|apply Z.div_pos; lia..].
Qed.

Lemma words_ok_insert ws i w : words_ok ws -> is_u64 w -> words_ok (<[i := w]> ws).
Proof. intros [Hl Hu] Hw. split; [by rewrite length_insert|by apply Forall_insert]. Qed.

Lemma same_word x y : x / 64 = y / 64 -> x mod 64 = y mod 64 -> x = y.
Proof. intros. rewrite (Z.div_mod x 64), (Z.div_mod y 64) by done. congruence. Qed.

Lemma pow2_u64 k : 0 <= k < 64 -> is_u64 (2 ^ k).
Proof. intros. split; [lia|]. apply Z.pow_lt_mono_r; lia. Qed.

Lemma add_to_bits_spec ws x : words_ok ws -> is_u16 x ->
  exists ws', add_to_bits ws x = Ok (ws', negb (bit_in ws x)) /\ words_ok ws' /\
    forall y, 0 <= y -> bit_in ws' y = (y =? x) || bit_in ws y.
Proof.
  intros Hws Hx. destruct (word_lookup ws x Hws Hx) as (w & Hw & Huw).
  pose proof (Z.mod_pos_bound x 64 eq_refl) as Hm.
  unfold add_to_bits, get_word_num_bit_mask. rewrite bit_mask. unfold idx at 1. rewrite Hw, bind_Ok, land_mask by lia.
  assert (Hb : bit_in ws x = Z.testbit w (x mod 64)) by (unfold bit_in; by rewrite Hw). rewrite Hb.
  destruct (Z.testbit w (x mod 64)) eqn:Ht; cbn [negb].
  - eexists. split; [done|]. split; [done|]. intros y Hy. destruct (Z.eqb_spec y x) as [->|]; [|done]. by rewrite Hb.
  - unfold set_idx. rewrite decide_True by (destruct Hws as [-> _]; by apply word_index). cbn [mbind res_bind].
    eexists. split; [done|]. split.
    { apply words_ok_insert; [done|]. apply lor_u64; [done|]. apply pow2_u64; lia. }
    intros y Hy. rewrite bit_in_insert by done. pose proof (Z.mod_pos_bound y 64 eq_refl). case_decide as E.
    + rewrite Z.lor_spec, Z.pow2_bits_eqb by lia. unfold bit_in. rewrite E, Hw.
      destruct (Z.eqb_spec y x) as [->|Hne]; [rewrite Z.eqb_refl; apply orb_true_r|].
      destruct (Z.eqb_spec (x mod 64) (y mod 64)) as [Em|]; [|by rewrite orb_false_r].
      by destruct Hne; apply same_word.
    + destruct (Z.eqb_spec y x) as [->|]; done.
Qed.

Lemma elem_bits ws y : y ∈ words_items 0 ws <-> 0 <= y /\ bit_in ws y = true.
Proof. rewrite elem_words_items. by replace (y - 64 * 0) with y by lia. Qed.

(** The number of items after adding or deleting one. *)
Lemma length_grow (l l' : list Z) x : NoDup l -> NoDup l' -> (forall y, y ∈ l' <-> y = x \/ y ∈ l) ->
  length l' = if decide (x ∈ l) then length l else S (length l).
Proof.
  intros H1 H2 Hm. case_decide as E.
  - apply Permutation_length, NoDup_Permutation; [done..|]. intros y. rewrite Hm. naive_solver.
  - change (S (length l)) with (length (x :: l)). apply Permutation_length, NoDup_Permutation; [done|by constructor|].
    intros y. by rewrite Hm, elem_of_cons.
Qed.

Lemma length_shrink (l l' : list Z) x : NoDup l -> NoDup l' -> (forall y, y ∈ l' <-> y <> x /\ y ∈ l) ->
  length l = if decide (x ∈ l) then S (length l') else length l'.
Proof.
  intros H1 H2 Hm. case_decide as E.
  - rewrite (length_grow l' l x); [|done..|].
    + rewrite decide_False; [done|]. rewrite Hm. naive_solver.
    + intros y. rewrite Hm. destruct (decide (y = x)); naive_solver.
  - apply Permutation_length, NoDup_Permutation; [done..|]. intros y. rewrite Hm.
    destruct (decide (y = x)); naive_solver.
Qed.

Lemma bits_grow ws ws1 x : 0 <= x -> (forall y, 0 <= y -> bit_in ws1 y = (y =? x) || bit_in ws y) ->
  forall y, y ∈ words_items 0 ws1 <-> y = x \/ y ∈ words_items 0 ws.
Proof.
  intros Hx Hin y. rewrite !elem_bits. split.
  - intros [Hy Hb]. rewrite Hin in Hb by done. destruct (Z.eqb_spec y x); auto.
  - intros [->|[Hy Hb]]; (split; [done|]); rewrite Hin by done; [by rewrite Z.eqb_refl|by rewrite Hb, orb_true_r].
Qed.

Lemma add_multi_to_bits_spec a : forall ws count, words_ok ws ->
  exists ws' c, add_multi_to_bits ws count a = Ok (ws', c) /\ words_ok ws' /\
    (c + length (words_items 0 ws) = count + length (words_items 0 ws'))%nat /\
    forall y, 0 <= y -> bit_in ws' y = true <-> y ∈ map as_u16 a \/ bit_in ws y = true.
Proof.
  induction a as [|x a IH]; intros ws count Hws; cbn [add_multi_to_bits map].
  { exists ws, count. split_and!; [done..|lia|]. intros. rewrite elem_of_nil. naive_solver. }
  assert (Hx : is_u16 (as_u16 x)) by (apply wrap_u_range; lia).
  destruct (add_to_bits_spec ws (as_u16 x) Hws Hx) as (ws1 & -> & Hws1 & Hin1). cbn [mbind res_bind].
  destruct (IH ws1 (if negb (bit_in ws (as_u16 x)) then S count else count) Hws1)
    as (ws2 & c & -> & Hws2 & Hc & Hin2). exists ws2, c. split_and!; [done..| |].
  - rewrite (length_grow (words_items 0 ws) (words_items 0 ws1) (as_u16 x)) in Hc;
      [|apply strict_NoDup, words_items_strict..|by apply bits_grow; [apply Hx|]].
    case_decide as E; rewrite elem_bits in E.
    + destruct E as [_ E]. rewrite E in Hc. cbn in Hc. lia.
    + destruct (bit_in ws (as_u16 x)); [destruct E, Hx; done|]. cbn in Hc. lia.
  - intros y Hy. rewrite Hin2, Hin1, elem_of_cons, orb_true_iff, Z.eqb_eq by done. naive_solver.
Qed.

(** *** The small pool *)

Lemma slice_contains_spec l x : slice_contains l x = true <-> x ∈ l.
Proof.
  unfold slice_contains. rewrite existsb_exists, list_elem_of_In. setoid_rewrite Z.eqb_eq. naive_solver.
Qed.

Lemma position_spec l x :
  match position l x with
  | Some i => l !! i = Some x
  | None => x ∉ l
  end.
Proof.
  induction l as [|y l IH]; cbn; [apply not_elem_of_nil|]. destruct (Z.eqb_spec y x) as [->|]; [done|].
  destruct (position l x); cbn; [done|]. by apply not_elem_of_cons.
Qed.

Lemma slice_pool b : wf16 b -> slice_to (E := Empty_set) (b16_small_pool b) (b16_small_pool_len b) =
  Ok (take (b16_small_pool_len b) (b16_small_pool b)).
Proof. intros [Hp Hl _ _]. unfold slice_to. rewrite decide_True; [done|]. lia. Qed.

Lemma take_pool_insert (l : list Z) n x : (n < length l)%nat -> take (S n) (<[n := x]> l) = take n l ++ [x].
Proof.
  intros Hn. rewrite (take_S_r _ _ x) by by apply list_lookup_insert_eq. by rewrite take_insert_ge.
Qed.

Lemma wf16_pool_mem b : wf16 b -> b16_bits b = None ->
  forall x, slice_contains (take (b16_small_pool_len b) (b16_small_pool b)) x = bool_decide (x ∈ b16_items b).
Proof.
  intros Hwf Hb x. symmetry. destruct (slice_contains _ x) eqn:E.
  - apply bool_decide_eq_true. rewrite elem_items_pool by done. by apply slice_contains_spec.
  - apply bool_decide_eq_false. rewrite elem_items_pool by done. intros Hin%slice_contains_spec. congruence.
Qed.

Lemma wf16_with_bits b ws n : wf16 b -> words_ok ws -> (n <= SMALL_POOL_SIZE)%nat ->
  wf16 (mkBucket16 (Some ws) (b16_small_pool b) n).
Proof. intros [Hp Hl Hu _] Hws Hn. by constructor. Qed.

Lemma bit_in_zeros x : bit_in (replicate WORDS_PER_BUCKET 0) x = false.
Proof.
  unfold bit_in. destruct (_ !! _) eqn:E; [|done]. apply lookup_replicate in E as [-> _]. apply Z.bits_0.
Qed.

Lemma words_ok_zeros : words_ok (replicate WORDS_PER_BUCKET 0).
Proof. split; [apply length_replicate|]. by apply Forall_replicate. Qed.

Lemma map_as_u16 l : Forall is_u16 l -> map as_u16 l = l.
Proof. induction 1 as [|x l Hx _ IH]; cbn; [done|]. by rewrite wrap_u_id, IH. Qed.

Lemma switch_spec b : wf16 b -> b16_bits b = None ->
  exists ws, switch_small_pool_to_bits b = Ok (mkBucket16 (Some ws) (b16_small_pool b) 0) /\ words_ok ws /\
    forall y, y ∈ words_items 0 ws <-> y ∈ b16_items b.
Proof.
  intros Hwf Hb. unfold switch_small_pool_to_bits. rewrite slice_pool, bind_Ok by done.
  destruct (add_multi_to_bits_spec (take (b16_small_pool_len b) (b16_small_pool b)) _ 0 words_ok_zeros)
    as (ws & c & -> & Hws & _ & Hin). exists ws. split_and!; [done..|]. intros y.
  rewrite elem_bits, elem_items_pool by done. assert (Hp : Forall is_u16 (take (b16_small_pool_len b) (b16_small_pool b))).
  { apply Forall_take, wf16_u16, Hwf. }
  rewrite map_as_u16 in Hin by done. split.
  - intros [Hy Hb']. apply Hin in Hb' as [?|Hz]; [done| |done]. by rewrite bit_in_zeros in Hz.
  - intros Hy. rewrite Forall_forall in Hp. pose proof (Hp y Hy) as [H0 _]. split; [done|]. apply Hin; [done|by left].
Qed.

Lemma add_to_small_pool_spec b x : wf16 b -> b16_bits b = None -> is_u16 x ->
  exists b', add_to_small_pool b x = Ok (b', negb (bool_decide (x ∈ b16_items b))) /\ wf16 b' /\
    (forall y, y ∈ b16_items b' <-> y = x \/ y ∈ b16_items b) /\
    ((b16_small_pool_len b < SMALL_POOL_SIZE)%nat -> b16_bits b' = None /\
     (b16_small_pool_len b' <= S (b16_small_pool_len b))%nat).
Proof.
  intros Hwf Hb Hx. unfold add_to_small_pool, has_in_small_pool.
  rewrite slice_pool, !bind_Ok by done. rewrite wf16_pool_mem by done. case_bool_decide as Hin; cbn [negb].
  { exists b. split_and!; [done..| |auto with lia]. naive_solver. }
  destruct (Nat.ltb_spec (b16_small_pool_len b) SMALL_POOL_SIZE) as [Hlt|Hge].
  - unfold set_idx. rewrite decide_True by (rewrite (wf16_pool b Hwf); done). rewrite bind_Ok, Hb.
    eexists. split; [done|]. rewrite elem_items_pool in Hin by done. split; [|split; [|cbn; auto with lia]].
    + destruct Hwf as [Hp Hl Hu Hn]. rewrite Hb in Hn. constructor; cbn.
      * by rewrite length_insert.
      * lia.
      * by apply Forall_insert.
      * rewrite take_pool_insert by lia. apply NoDup_app. split_and!; [done| |apply NoDup_singleton].
        intros y Hy ->%list_elem_of_singleton. done.
    + intros y. rewrite elem_items_pool by done. cbn. rewrite take_pool_insert by (rewrite (wf16_pool b Hwf); done).
      rewrite elem_of_app, list_elem_of_singleton, elem_items_pool by done. naive_solver.
  - destruct (switch_spec b Hwf Hb) as (ws & -> & Hws & Hel). cbn [mbind res_bind b16_bits].
    destruct (add_to_bits_spec ws x Hws Hx) as (ws' & -> & Hws' & Hin'). cbn [mbind res_bind].
    eexists. split; [done|]. split; [|split; [|lia]].
    + apply (wf16_with_bits b); [done..|cbn; unfold SMALL_POOL_SIZE; lia].
    + intros y. change (b16_items (mkBucket16 _ _ _)) with (words_items 0 ws'). rewrite (bits_grow ws ws' x) by (done || apply Hx).
      by rewrite Hel.
Qed.

Lemma bit_in_items b ws x : b16_bits b = Some ws -> is_u16 x -> bit_in ws x = bool_decide (x ∈ b16_items b).
Proof.
  intros Hb [Hx _]. symmetry. destruct (bit_in ws x) eqn:E.
  - apply bool_decide_eq_true. by rewrite (elem_items_bits b ws).
  - apply bool_decide_eq_false. rewrite (elem_items_bits b ws) by done. intros [_ ?]. congruence.
Qed.

Lemma b16_add_spec b x : wf16 b -> is_u16 x ->
  exists b', b16_add b x = Ok (b', negb (bool_decide (x ∈ b16_items b))) /\ wf16 b' /\
    forall y, y ∈ b16_items b' <-> y = x \/ y ∈ b16_items b.
Proof.
  intros Hwf Hx. unfold b16_add. destruct (b16_bits b) as [ws|] eqn:Hb.
  - pose proof (wf16_bits b Hwf) as Hws. rewrite Hb in Hws.
    destruct (add_to_bits_spec ws x Hws Hx) as (ws' & -> & Hws' & Hin'). cbn [mbind res_bind].
    assert (Hbit : bit_in ws x = bool_decide (x ∈ b16_items b)).
    { by apply bit_in_items. }
    rewrite Hbit. eexists. split; [done|]. split; [apply (wf16_with_bits b); [done..|apply Hwf]|].
    intros y. change (b16_items (mkBucket16 _ _ _)) with (words_items 0 ws'). rewrite (bits_grow ws ws' x) by (done || apply Hx).
    unfold b16_items. by rewrite Hb.
  - destruct (add_to_small_pool_spec b x Hwf Hb Hx) as (b' & -> & Hwf' & Hin & _). eauto.
Qed.

Lemma wf16_NoDup b : wf16 b -> NoDup (b16_items b).
Proof. intros. by apply strict_NoDup, b16_items_strict. Qed.

Lemma length_b16_grow b b' x : wf16 b -> wf16 b' -> (forall y, y ∈ b16_items b' <-> y = x \/ y ∈ b16_items b) ->
  length (b16_items b') = (length (b16_items b) + if negb (bool_decide (x ∈ b16_items b)) then 1 else 0)%nat.
Proof.
  intros Hb Hb' Hm. rewrite (length_grow (b16_items b) _ x); [|by apply wf16_NoDup..|done].
  case_decide as E; [rewrite bool_decide_eq_true_2 by done|rewrite bool_decide_eq_false_2 by done]; cbn; lia.
Qed.

Lemma add_multi_to_pool_spec a : forall b count, wf16 b -> b16_bits b = None ->
  (b16_small_pool_len b + length a <= SMALL_POOL_SIZE)%nat ->
  exists b' c, add_multi_to_pool b count a = Ok (b', c) /\ wf16 b' /\
    (c + length (b16_items b) = count + length (b16_items b'))%nat /\
    forall y, y ∈ b16_items b' <-> y ∈ map as_u16 a \/ y ∈ b16_items b.
Proof.
  induction a as [|x a IH]; intros b count Hwf Hb Hl; cbn [add_multi_to_pool map].
  { exists b, count. split_and!; [done..|lia|]. intros. rewrite elem_of_nil. naive_solver. }
  cbn in Hl. assert (Hx : is_u16 (as_u16 x)) by (apply wrap_u_range; lia).
  destruct (add_to_small_pool_spec b (as_u16 x) Hwf Hb Hx) as (b1 & -> & Hwf1 & Hin1 & Hpool). cbn [mbind res_bind].
  destruct Hpool as [Hb1 Hl1]; [lia|].
  destruct (IH b1 (if negb (bool_decide (as_u16 x ∈ b16_items b)) then S count else count) Hwf1 Hb1 ltac:(lia))
    as (b2 & c & -> & Hwf2 & Hc & Hin2).
  exists b2, c. split_and!; [done..| |].
  - pose proof (length_b16_grow b b1 (as_u16 x) Hwf Hwf1 Hin1). destruct (negb _); lia.
  - intros y. rewrite Hin2, Hin1, elem_of_cons. naive_solver.
Qed.

(** The part of [add_multi] that works on the bitmap. *)
Lemma add_multi_fast b ws a : wf16 b -> b16_bits b = Some ws ->
  exists b' c, ('(bits, count) ← add_multi_to_bits ws 0 a;
                Ok (mkBucket16 (Some bits) (b16_small_pool b) (b16_small_pool_len b), count))
               = Ok (b', c) /\ wf16 b' /\
    (c + length (b16_items b) = length (b16_items b'))%nat /\
    forall y, y ∈ b16_items b' <-> y ∈ map as_u16 a \/ y ∈ b16_items b.
Proof.
  intros Hwf Hb. pose proof (wf16_bits b Hwf) as Hws. rewrite Hb in Hws.
  destruct (add_multi_to_bits_spec a ws 0 Hws) as (ws' & c & -> & Hws' & Hc & Hin). cbn [mbind res_bind].
  eexists _, c. split; [done|]. split; [apply (wf16_with_bits b); [done..|apply Hwf]|].
  assert (Hi : b16_items b = words_items 0 ws) by (unfold b16_items; by rewrite Hb).
  rewrite Hi. change (b16_items (mkBucket16 _ _ _)) with (words_items 0 ws'). split; [lia|].
  intros y. rewrite !elem_bits. split.
  - intros [Hy Hbit]. apply Hin in Hbit; naive_solver.
  - intros [Hy|[Hy Hbit]]; [|split; [done|]; apply Hin; auto].
    pose proof Hy as Hy'. change (map ?f ?l) with (f <$> l) in Hy'. apply list_elem_of_fmap in Hy' as (z & -> & _).
    pose proof (wrap_u_range 16 z ltac:(lia)) as [H0 _]. split; [done|]. apply Hin; auto.
Qed.

Lemma b16_add_multi_spec b a : wf16 b ->
  exists b' c, b16_add_multi b a = Ok (b', c) /\ wf16 b' /\
    (c + length (b16_items b) = length (b16_items b'))%nat /\
    forall y, y ∈ b16_items b' <-> y ∈ map as_u16 a \/ y ∈ b16_items b.
Proof.
  intros Hwf. unfold b16_add_multi. destruct (b16_bits b) as [ws|] eqn:Hb.
  { by apply add_multi_fast. }
  destruct (Nat.leb_spec (b16_small_pool_len b + length a) SMALL_POOL_SIZE) as [Hl|Hl].
  { destruct (add_multi_to_pool_spec a b 0 Hwf Hb Hl) as (b' & c & H1 & H2 & H3 & H4). exists b', c. by split_and!. }
  destruct (switch_spec b Hwf Hb) as (ws & -> & Hws & Hel). rewrite bind_Ok. cbn [b16_bits].
  destruct (add_multi_fast (mkBucket16 (Some ws) (b16_small_pool b) 0) ws a) as (b' & c & H1 & H2 & H3 & H4); [|done|].
  { apply (wf16_with_bits b); [done..|]. unfold SMALL_POOL_SIZE. lia. }
  exists b', c. split; [done|]. split; [done|]. change (b16_items (mkBucket16 _ _ _)) with (words_items 0 ws) in H3, H4.
  assert (words_items 0 ws = b16_items b) as E.
  { apply strict_ext; [apply words_items_strict|by apply b16_items_strict|done]. }
  rewrite E in H3, H4. split; [lia|done].
Qed.

Lemma b16_has_spec b x : wf16 b -> is_u16 x -> b16_has b x = Ok (bool_decide (x ∈ b16_items b)).
Proof.
  intros Hwf Hx. unfold b16_has. destruct (b16_bits b) as [ws|] eqn:Hb.
  - pose proof (wf16_bits b Hwf) as Hws. rewrite Hb in Hws.
    destruct (word_lookup ws x Hws Hx) as (w & Hw & _). unfold get_word_num_bit_mask, idx. rewrite Hw, bind_Ok, bit_mask.
    pose proof (Z.mod_pos_bound x 64 eq_refl). rewrite land_mask, negb_involutive by lia.
    rewrite <-(bit_in_items b ws) by done. unfold bit_in. by rewrite Hw.
  - unfold has_in_small_pool. by rewrite slice_pool, bind_Ok, wf16_pool_mem.
Qed.

(** *** Deletion, iteration and the set operations of a bucket *)

Lemma take_copy_within (l : list Z) n i : (i < n <= length l)%nat ->
  copy_within l (i + 1) n i = Ok (take i l ++ take (n - (i + 1)) (drop (i + 1) l) ++ drop (n - 1) l).
Proof.
  intros Hi. unfold copy_within. rewrite assert_true; [|rewrite !andb_true_iff, !Nat.leb_le; lia].
  cbn [mbind res_bind]. replace (i + (n - (i + 1)))%nat with (n - 1)%nat by lia. done.
Qed.

Lemma pool_removed (l : list Z) n i x : (n <= length l)%nat -> take n l !! i = Some x ->
  let l' := take i l ++ take (n - (i + 1)) (drop (i + 1) l) ++ drop (n - 1) l in
  length l' = length l /\ x :: take (n - 1) l' ≡ₚ take n l.
Proof.
  intros Hn Hi l'. pose proof (lookup_lt_Some _ _ _ Hi) as Hlt. rewrite length_take in Hlt.
  rewrite lookup_take_lt in Hi by lia.
  assert (Hsplit : take n l = take i l ++ x :: take (n - (i + 1)) (drop (i + 1) l)).
  { rewrite <-(take_drop_middle l i x Hi) at 1. rewrite take_app, take_take, length_take.
    replace (min n i) with i by lia. f_equal. replace (n - min i (length l))%nat with (S (n - (i + 1))) by lia.
    cbn. by replace (i + 1)%nat with (S i) by lia. }
  subst l'. split.
  - rewrite !length_app, !length_take, !length_drop. lia.
  - rewrite app_assoc, take_app_le by (rewrite length_app, !length_take, length_drop; lia).
    rewrite take_ge by (rewrite length_app, !length_take, length_drop; lia).
    rewrite Hsplit. apply Permutation_middle.
Qed.

Lemma del_from_small_pool_spec b x : wf16 b -> b16_bits b = None ->
  exists b', del_from_small_pool b x = Ok (b', bool_decide (x ∈ b16_items b)) /\ wf16 b' /\
    forall y, y ∈ b16_items b' <-> y <> x /\ y ∈ b16_items b.
Proof.
  intros Hwf Hb. unfold del_from_small_pool. rewrite slice_pool, bind_Ok by done.
  set (n := b16_small_pool_len b). set (l := b16_small_pool b).
  pose proof (position_spec (take n l) x) as Hpos. destruct (position (take n l) x) as [i|].
  - assert (Hn : (n <= length l)%nat) by (unfold n, l; rewrite (wf16_pool b Hwf); apply Hwf).
    pose proof (lookup_lt_Some _ _ _ Hpos) as Hlt. rewrite length_take in Hlt.
    rewrite take_copy_within, bind_Ok, bool_decide_eq_true_2, Hb; [|rewrite elem_items_pool by done; by eapply list_elem_of_lookup_2|lia].
    destruct (pool_removed l n i x Hn Hpos) as [Hl Hp]. set (l' := take i l ++ _) in *.
    pose proof (wf16_bits b Hwf) as Hnd. rewrite Hb in Hnd. fold l n in Hnd. rewrite <-Hp in Hnd.
    apply NoDup_cons in Hnd as [Hni Hnd]. eexists. split; [done|]. split.
    + constructor; cbn; [by rewrite Hl; apply Hwf|pose proof (wf16_len b Hwf); subst n; lia| |done].
      subst l'. repeat apply Forall_app_2; try apply Forall_take; apply Forall_drop || idtac; apply Hwf.
    + intros y. rewrite !elem_items_pool by done. cbn. fold n l. rewrite <-Hp, elem_of_cons. naive_solver.
  - rewrite bool_decide_eq_false_2 by (by rewrite elem_items_pool). exists b. split_and!; [done..|].
    intros y. rewrite elem_items_pool by done. fold n l. naive_solver.
Qed.

Lemma b16_del_spec b x : wf16 b -> is_u16 x ->
  exists b', b16_del b x = Ok (b', bool_decide (x ∈ b16_items b)) /\ wf16 b' /\
    forall y, y ∈ b16_items b' <-> y <> x /\ y ∈ b16_items b.
Proof.
  intros Hwf Hx. unfold b16_del. destruct (b16_bits b) as [ws|] eqn:Hb; [|by apply del_from_small_pool_spec].
  pose proof (wf16_bits b Hwf) as Hws. rewrite Hb in Hws.
  destruct (word_lookup ws x Hws Hx) as (w & Hw & Huw). unfold get_word_num_bit_mask, idx. rewrite Hw, bind_Ok.
  unfold set_idx. rewrite decide_True by (destruct Hws as [-> _]; by apply word_index). rewrite bind_Ok.
  pose proof (Z.mod_pos_bound x 64 eq_refl) as Hm. eexists. split.
  { rewrite bit_mask, land_mask, negb_involutive, <-(bit_in_items b ws) by (done || lia).
    unfold bit_in. by rewrite Hw. }
  replace (2 ^ (x mod 64)) with (u64_shl 1 (x mod 64)) by (by rewrite <-bit_mask, (land_ones_mod x 6 63)).
  split; [apply (wf16_with_bits b); [done|by apply words_ok_insert; [|apply land_u64]|apply Hwf]|].
  intros y. rewrite (elem_items_bits b ws) by done. change (b16_items (mkBucket16 _ _ _)) with
    (words_items 0 (<[Z.to_nat (x / 64) := Z.land w (u64_not (u64_shl 1 (x mod 64)))]> ws)). rewrite elem_bits.
  destruct (decide (0 <= y)) as [Hy|]; [|naive_solver]. rewrite bit_in_insert by done.
  pose proof (Z.mod_pos_bound y 64 eq_refl). case_decide as E.
  - rewrite testbit_not_mask by lia. rewrite andb_true_iff, negb_true_iff, Z.eqb_neq. unfold bit_in.
    rewrite E, Hw. split; [naive_solver|]. intros (Hne & _ & Ht). split_and!; [done..|]. intros Em. by destruct Hne; apply same_word.
  - assert (y <> x) by (by intros ->). naive_solver.
Qed.

Lemma hi64_lor hi hi16 v : is_u32 hi -> is_u16 hi16 -> is_u16 v ->
  Z.lor (Z.lor (u64_shl hi 32) (u64_shl hi16 16)) v = hi * 2 ^ 32 + hi16 * 2 ^ 16 + v /\
  Z.lor (u64_shl hi 32) (u64_shl hi16 16) = hi * 2 ^ 32 + hi16 * 2 ^ 16.
Proof.
  intros [H1 H2] [H3 H4] [H5 H6]. rewrite !u64_shl_small by lia.
  assert (E : Z.lor (hi * 2 ^ 32) (hi16 * 2 ^ 16) = hi * 2 ^ 32 + hi16 * 2 ^ 16).
  { rewrite Z.lor_comm, lor_shifted by lia. lia. }
  split; [|done]. rewrite E. replace (hi * 2 ^ 32 + hi16 * 2 ^ 16) with ((hi * 2 ^ 16 + hi16) * 2 ^ 16) by lia.
  rewrite Z.lor_comm, lor_shifted by lia. lia.
Qed.

Lemma sorted_pool l : (if (1 <? length l)%nat && negb (is_sorted l) then sort_by_key id l else l) = sort_by_key id l.
Proof.
  destruct (_ && _) eqn:E; [done|]. symmetry. apply sort_by_key_id. apply andb_false_iff in E as [E|E].
  - apply Nat.ltb_ge in E. destruct l as [|x [|y l]]; [constructor|repeat constructor|cbn in E; lia].
  - apply negb_false_iff in E. unfold is_sorted in E. apply Is_true_true in E.
    apply chain_b_sorted in E; [|intros x y z; rewrite !Is_true_true, !Z.leb_le; lia].
    revert E. unfold sorted_by_key. apply StronglySorted_ind; [constructor|].
    intros x l' _ IH Hx. constructor; [done|]. revert Hx. apply Forall_weaken. intros y. by rewrite Is_true_true, Z.leb_le.
Qed.

Lemma b16_append_spec b dst hi hi16 : wf16 b -> is_u32 hi -> is_u16 hi16 ->
  b16_append_to b dst hi hi16 = Ok (dst ++ map (fun v => hi * 2 ^ 32 + hi16 * 2 ^ 16 + v) (b16_items b)).
Proof.
  intros Hwf Hhi Hhi16. unfold b16_append_to. destruct (b16_bits b) as [ws|] eqn:Hb.
  - pose proof (wf16_bits b Hwf) as Hws. rewrite Hb in Hws. destruct Hws as [Hl Hu].
    rewrite append_words_spec; [|done..|].
    + unfold b16_items. rewrite Hb. do 2 f_equal. apply map_ext. intros v.
      by destruct (hi64_lor hi hi16 0 Hhi Hhi16 ltac:(done)) as [_ ->].
    + rewrite Hl. change (Z.of_nat WORDS_PER_BUCKET) with 1024. intros x Hx.
      destruct (hi64_lor hi hi16 x Hhi Hhi16 ltac:(split; lia)) as [-> ->]. done.
  - rewrite slice_pool, bind_Ok, sorted_pool by done. do 2 f_equal. unfold b16_items. rewrite Hb.
    apply map_ext_in. intros v Hv. apply hi64_lor; [done..|]. apply list_elem_of_In in Hv.
    apply (b16_items_range b); [done|]. unfold b16_items. by rewrite Hb.
Qed.

Lemma b16_get_len_spec b : wf16 b -> b16_get_len b = length (b16_items b).
Proof.
  intros Hwf. unfold b16_get_len, b16_items. pose proof (wf16_bits b Hwf) as Hb. destruct (b16_bits b) as [ws|].
  - by rewrite (length_words_items ws 0) by apply Hb.
  - rewrite sort_by_key_perm, length_take, (wf16_pool b Hwf). pose proof (wf16_len b Hwf). lia.
Qed.

Lemma b16_default_ok : wf16 b16_default.
Proof. constructor; [done|cbn; unfold SMALL_POOL_SIZE; lia|by apply Forall_replicate|constructor]. Qed.

Lemma b16_default_items : b16_items b16_default = [].
Proof. done. Qed.

Lemma b16_is_zero_items b : b16_is_zero b = true -> b16_items b = [].
Proof.
  unfold b16_is_zero, b16_items. destruct (b16_bits b); [done|]. intros ->%Nat.eqb_eq. done.
Qed.

Lemma b16_add_all_spec l : forall b, wf16 b -> Forall is_u16 l ->
  exists b', b16_add_all b l = Ok b' /\ wf16 b' /\ forall y, y ∈ b16_items b' <-> y ∈ l \/ y ∈ b16_items b.
Proof.
  induction l as [|x l IH]; intros b Hwf Hl; cbn [b16_add_all].
  { exists b. split_and!; [done..|]. intros y. rewrite elem_of_nil. naive_solver. }
  inversion_clear Hl as [|? ? Hx Hl']. rewrite wrap_u_id by done.
  destruct (b16_add_spec b x Hwf Hx) as (b1 & -> & Hwf1 & Hin1). cbn [mbind res_bind].
  destruct (IH b1 Hwf1 Hl') as (b2 & -> & Hwf2 & Hin2). exists b2. split_and!; [done..|].
  intros y. rewrite Hin2, Hin1, elem_of_cons. naive_solver.
Qed.

Lemma b16_append_low b : wf16 b -> b16_append_to b [] 0 0 = Ok (b16_items b).
Proof.
  intros Hwf. rewrite b16_append_spec by done. cbn [app]. f_equal. rewrite <-(map_id (b16_items b)) at 2.
  apply map_ext. intros. lia.
Qed.

Lemma b16_items_u16 b : wf16 b -> Forall is_u16 (b16_items b).
Proof. intros Hwf. apply Forall_forall. intros x. by apply b16_items_range. Qed.

Lemma bit_in_zip (f : Z -> Z -> Z) g ws1 ws2 x :
  (forall a b n, 0 <= n -> Z.testbit (f a b) n = g (Z.testbit a n) (Z.testbit b n)) -> g false false = false ->
  length ws1 = length ws2 -> bit_in (zip_with f ws1 ws2) x = g (bit_in ws1 x) (bit_in ws2 x).
Proof.
  intros Hf Hg Hl. unfold bit_in. rewrite lookup_zip_with.
  destruct (ws1 !! _) eqn:E1, (ws2 !! _) eqn:E2; cbn.
  - apply Hf. by apply Z.mod_pos_bound.
  - apply lookup_ge_None in E2. apply lookup_lt_Some in E1. lia.
  - apply lookup_ge_None in E1. apply lookup_lt_Some in E2. lia.
  - done.
Qed.

Lemma words_ok_zip (f : Z -> Z -> Z) ws1 ws2 : (forall a b, is_u64 a -> is_u64 b -> is_u64 (f a b)) ->
  words_ok ws1 -> words_ok ws2 -> words_ok (zip_with f ws1 ws2).
Proof.
  intros Hf [H1 H2] [H3 H4]. split; [rewrite length_zip_with; lia|].
  apply Forall_lookup. intros i x. rewrite lookup_zip_with, bind_Some. intros (a & Ha & Hb).
  apply bind_Some in Hb as (b & Hb & [= <-]). rewrite Forall_lookup in H2, H4. eauto.
Qed.

Lemma b16_union_spec b a : wf16 b -> wf16 a ->
  exists b', b16_union b a = Ok b' /\ wf16 b' /\ forall y, y ∈ b16_items b' <-> y ∈ b16_items b \/ y ∈ b16_items a.
Proof.
  intros Hb Ha. assert (Hslow : exists b', (buf ← b16_append_to a [] 0 0; b16_add_all b buf) = Ok b' /\ wf16 b' /\
    forall y, y ∈ b16_items b' <-> y ∈ b16_items b \/ y ∈ b16_items a).
  { rewrite b16_append_low, bind_Ok by done.
    destruct (b16_add_all_spec (b16_items a) b Hb (b16_items_u16 a Ha)) as (b' & -> & Hwf & Hin).
    exists b'. split_and!; [done..|]. intros y. rewrite Hin. naive_solver. }
  unfold b16_union. destruct (b16_bits a) as [wa|] eqn:Ea, (b16_bits b) as [wb|] eqn:Eb; try exact Hslow.
  pose proof (wf16_bits b Hb) as Hwb. pose proof (wf16_bits a Ha) as Hwa. rewrite Eb in Hwb. rewrite Ea in Hwa.
  eexists. split; [done|]. split.
  - apply (wf16_with_bits b); [done|by apply words_ok_zip; [apply lor_u64|..]|apply Hb].
  - intros y. change (b16_items (mkBucket16 _ _ _)) with (words_items 0 (zip_with Z.lor wb wa)).
    rewrite (elem_items_bits b wb), (elem_items_bits a wa), elem_bits by done.
    rewrite (bit_in_zip Z.lor orb), orb_true_iff; [naive_solver|by intros; rewrite Z.lor_spec|done|].
    destruct Hwb as [-> _], Hwa as [-> _]. done.
Qed.

Lemma b16_del_missing_spec l : forall b a, wf16 b -> wf16 a -> Forall is_u16 l ->
  exists b', b16_del_missing b a l = Ok b' /\ wf16 b' /\
    forall y, y ∈ b16_items b' <-> y ∈ b16_items b /\ (y ∈ l -> y ∈ b16_items a).
Proof.
  induction l as [|x l IH]; intros b a Hb Ha Hl; cbn [b16_del_missing].
  { exists b. split_and!; [done..|]. intros y. rewrite elem_of_nil. naive_solver. }
  inversion_clear Hl as [|? ? Hx Hl']. rewrite wrap_u_id by done. rewrite b16_has_spec, bind_Ok by done.
  case_bool_decide as Hin.
  - destruct (IH b a Hb Ha Hl') as (b' & -> & Hwf & Hm). exists b'. split_and!; [done..|].
    intros y. rewrite Hm, elem_of_cons. naive_solver.
  - destruct (b16_del_spec b x Hb Hx) as (b1 & -> & Hb1 & Hin1). cbn [mbind res_bind].
    destruct (IH b1 a Hb1 Ha Hl') as (b' & -> & Hwf & Hm). exists b'. split_and!; [done..|].
    intros y. rewrite Hm, Hin1, elem_of_cons. destruct (decide (y = x)); naive_solver.
Qed.

Lemma b16_intersect_spec b a : wf16 b -> wf16 a ->
  exists b', b16_intersect b a = Ok b' /\ wf16 b' /\ forall y, y ∈ b16_items b' <-> y ∈ b16_items b /\ y ∈ b16_items a.
Proof.
  intros Hb Ha. assert (Hslow : exists b', (buf ← b16_append_to b [] 0 0; b16_del_missing b a buf) = Ok b' /\ wf16 b' /\
    forall y, y ∈ b16_items b' <-> y ∈ b16_items b /\ y ∈ b16_items a).
  { rewrite b16_append_low, bind_Ok by done.
    destruct (b16_del_missing_spec (b16_items b) b a Hb Ha (b16_items_u16 b Hb)) as (b' & -> & Hwf & Hin).
    exists b'. split_and!; [done..|]. intros y. rewrite Hin. naive_solver. }
  unfold b16_intersect. destruct (b16_bits a) as [wa|] eqn:Ea, (b16_bits b) as [wb|] eqn:Eb; try exact Hslow.
  pose proof (wf16_bits b Hb) as Hwb. pose proof (wf16_bits a Ha) as Hwa. rewrite Eb in Hwb. rewrite Ea in Hwa.
  eexists. split; [done|]. split.
  - apply (wf16_with_bits b); [done|by apply words_ok_zip; [intros; by apply land_u64|..]|apply Hb].
  - intros y. change (b16_items (mkBucket16 _ _ _)) with (words_items 0 (zip_with Z.land wb wa)).
    rewrite (elem_items_bits b wb), (elem_items_bits a wa), elem_bits by done.
    rewrite (bit_in_zip Z.land andb), andb_true_iff; [naive_solver|by intros; rewrite Z.land_spec|done|].
    destruct Hwb as [-> _], Hwa as [-> _]. done.
Qed.

