(* ===== verification/Uint64SetWalk.v ===== *)
(** * Keyed bucket lists

    The two upper levels of the integer sets are lists of buckets with a key.
    The loops that walk two such lists side by side ([union] and [intersect]
    of [Uint64Set]) are related to merges of the lists, and the merges to the
    union and the intersection of the items. *)
From Stdlib Require Import ZArith Lia Bool.
From stdpp Require Import gmap.
From S2P Require Import Prelude Uint64Set Uint64SetBucket.
Local Open Scope Z_scope.

(** ** The items of a keyed list *)
Section Keyed.
  Context {B : Type} (W : Z) (items : B -> list Z) (wf : B -> Prop).
  Context (HW : 0 < W).
  Context (items_range : forall b x, wf b -> x ∈ items b -> 0 <= x < W).
  Context (items_strict : forall b, wf b -> strictZ (items b)).
  Implicit Types (e : Z * B) (l m : list (Z * B)).

Definition entry_items (e : Z * B) : list Z := map (fun x => e.1 * W + x) (items e.2).
Definition keyed_items (l : list (Z * B)) : list Z := concat (map entry_items l).

(** Keys may repeat, but only the first bucket with a key holds items. *)
Definition later_empty (l : list (Z * B)) : Prop :=
  StronglySorted (fun e e' => e.1 = e'.1 -> items e'.2 = []) l.

Definition entry_ok (e : Z * B) : Prop := 0 <= e.1 /\ wf e.2.

Lemma elem_entry_items e v : entry_ok e -> v ∈ entry_items e <-> v / W = e.1 /\ v mod W ∈ items e.2.
Proof.
  intros [Hk Hwf]. unfold entry_items. change (map ?f ?x) with (f <$> x). rewrite list_elem_of_fmap. split.
  - intros (x & -> & Hx). pose proof (items_range _ _ Hwf Hx).
    rewrite Z.div_add_l, Z.div_small, (Z.add_comm (e.1 * W)), Z.mod_add, Z.mod_small by lia. by rewrite Z.add_0_r.
  - intros [Hd Hx]. exists (v mod W). split; [|done]. pose proof (Z.div_mod v W). lia.
Qed.

Lemma elem_keyed_items l v : Forall entry_ok l ->
  v ∈ keyed_items l <-> exists e, e ∈ l /\ v / W = e.1 /\ v mod W ∈ items e.2.
Proof.
  intros Hl. unfold keyed_items. induction Hl as [|e l He Hl IH]; cbn.
  - rewrite elem_of_nil. split; [done|]. intros (e & He & _). by apply elem_of_nil in He.
  - rewrite elem_of_app, IH, elem_entry_items by done. setoid_rewrite elem_of_cons. naive_solver.
Qed.

Lemma keyed_items_app l m : keyed_items (l ++ m) = keyed_items l ++ keyed_items m.
Proof. unfold keyed_items. by rewrite map_app, concat_app. Qed.

Lemma keyed_items_perm l m : l ≡ₚ m -> keyed_items l ≡ₚ keyed_items m.
Proof.
  unfold keyed_items. induction 1; cbn; [done|by f_equiv| |by etrans].
  rewrite !app_assoc. f_equiv. apply Permutation_app_comm.
Qed.

Lemma keyed_items_NoDup l : Forall entry_ok l -> later_empty l -> NoDup (keyed_items l).
Proof.
  intros Hok. induction 1 as [|e l Hl IH He]; [constructor|]. inversion_clear Hok as [|? ? Hoke Hokl].
  change (keyed_items (e :: l)) with (entry_items e ++ keyed_items l). apply NoDup_app. split_and!; [| |by apply IH].
  - apply strict_NoDup, strict_map; [lia|]. apply items_strict, Hoke.
  - intros v Hv Hv'. apply elem_entry_items in Hv as [Hd _]; [|done].
    apply elem_keyed_items in Hv' as (e' & He' & Hd' & Hm); [|done]. rewrite Forall_forall in He.
    specialize (He e' He'). rewrite He in Hm by congruence. by apply elem_of_nil in Hm.
Qed.

(** In the order of the keys the items are sorted. *)
Lemma keyed_items_strict l : Forall entry_ok l -> later_empty l -> sorted_by_key fst l -> strictZ (keyed_items l).
Proof.
  intros Hok Hle. revert Hok. induction Hle as [|e l Hl IH He]; intros Hok Hs; [constructor|].
  inversion_clear Hok as [|? ? Hoke Hokl]. inversion_clear Hs as [|? ? Hs' Hk].
  change (keyed_items (e :: l)) with (entry_items e ++ keyed_items l). apply strict_app; [|by apply IH|].
  - apply strict_map; [lia|]. apply items_strict, Hoke.
  - intros x y Hx Hy. apply elem_entry_items in Hx as [Hd _]; [|done].
    apply elem_keyed_items in Hy as (e' & He' & Hd' & Hm); [|done].
    rewrite Forall_forall in He, Hk. specialize (He e' He'). specialize (Hk e' He'). cbn in Hk.
    destruct (decide (e.1 = e'.1)) as [E|E]; [rewrite (He E) in Hm; by apply elem_of_nil in Hm|].
    pose proof (Z.div_mod x W). pose proof (Z.div_mod y W). pose proof (Z.mod_pos_bound x W). pose proof (Z.mod_pos_bound y W). nia.
Qed.

(** [later_empty] in terms of the groups of equal keys, which a stable sort
    preserves. *)
Lemma later_empty_group l : later_empty l <-> forall k, Forall (fun e => items e.2 = []) (tail (group fst k l)).
Proof.
  unfold later_empty, group. split.
  - induction 1 as [|e l Hl IH He]; intros k; [constructor|]. rewrite filter_cons. case_decide as E; [|apply IH].
    cbn. apply Forall_forall. intros e' [Hk He']%list_elem_of_filter. rewrite Forall_forall in He. apply He; congruence.
  - induction l as [|e l IH]; intros Hg; constructor.
    + apply IH. intros k. specialize (Hg k). rewrite filter_cons in Hg. case_decide; [|done].
      cbn in Hg. destruct (filter _ l); [constructor|]. by inversion_clear Hg.
    + apply Forall_forall. intros e' He' E. specialize (Hg e.1). rewrite filter_cons_True in Hg by done. cbn in Hg.
      rewrite Forall_forall in Hg. apply Hg. by apply list_elem_of_filter.
Qed.

Lemma later_empty_sort l : later_empty l -> later_empty (sort_by_key fst l).
Proof. rewrite !later_empty_group. intros H k. by rewrite group_sort. Qed.

Lemma later_empty_filter (P : Z * B -> Prop) `{!forall e, Decision (P e)} l : later_empty l -> later_empty (filter P l).
Proof.
  unfold later_empty. induction 1 as [|e l Hl IH He]; [constructor|]. rewrite filter_cons. case_decide; [|done].
  constructor; [done|]. apply Forall_forall. intros e' [_ He']%list_elem_of_filter. rewrite Forall_forall in He. auto.
Qed.
(** ** The merges *)
Context (cp : B -> B) (mgr : B -> B -> B -> Prop).

Definition copy_entry (e : Z * B) : Z * B := (e.1, cp e.2).

(** [umerge l m l' p]: the list [l] with the buckets of [m] merged in, and the
    copies of the buckets of [m] whose keys [l] lacks. *)
Inductive umerge : list (Z * B) -> list (Z * B) -> list (Z * B) -> list (Z * B) -> Prop :=
| um_nil m : umerge [] m [] (copy_entry <$> m)
| um_nil_r l : umerge l [] l []
| um_lt x l y m l' p : x.1 < y.1 -> umerge l (y :: m) l' p -> umerge (x :: l) (y :: m) (x :: l') p
| um_gt x l y m l' p : y.1 < x.1 -> umerge (x :: l) m l' p -> umerge (x :: l) (y :: m) l' (copy_entry y :: p)
| um_eq x l y m z l' p : x.1 = y.1 -> mgr x.2 y.2 z -> umerge l m l' p ->
    umerge (x :: l) (y :: m) ((x.1, z) :: l') p.

Lemma umerge_skip l1 l2 y m l' p : Forall (fun x => x.1 < y.1) l1 -> umerge l2 (y :: m) l' p ->
  umerge (l1 ++ l2) (y :: m) (l1 ++ l') p.
Proof. induction 1; cbn; [done|]. intros. constructor; auto. Qed.

Lemma umerge_push x l m1 m2 l' p : Forall (fun y => y.1 < x.1) m1 -> umerge (x :: l) m2 l' p ->
  umerge (x :: l) (m1 ++ m2) l' ((copy_entry <$> m1) ++ p).
Proof. induction 1; cbn; [done|]. intros. constructor; auto. Qed.

(** The hypotheses on the merge of two buckets and on the copies. *)
Context (items_cp : forall b, items (cp b) = items b) (wf_cp : forall b, wf b -> wf (cp b)).
Definition unions : Prop := forall x y z, wf x -> wf y -> mgr x y z ->
  wf z /\ forall v, v ∈ items z <-> v ∈ items x \/ v ∈ items y.
Definition intersects : Prop := forall x y z, wf x -> wf y -> mgr x y z ->
  wf z /\ forall v, v ∈ items z <-> v ∈ items x /\ v ∈ items y.

Lemma umerge_ok l m l' p : unions -> umerge l m l' p -> Forall entry_ok l -> Forall entry_ok m ->
  Forall entry_ok (l' ++ p).
Proof.
  intros Hun. induction 1 as [m|l|x l y m l' p Hlt Hu IH|x l y m l' p Hgt Hu IH|x l y m z l' p He Hz Hu IH]; intros Hl Hm.
  - cbn. apply Forall_fmap. revert Hm. apply Forall_weaken. intros [k b] [? ?]. split; [done|by apply wf_cp].
  - by rewrite app_nil_r.
  - inversion_clear Hl. cbn. constructor; auto.
  - inversion_clear Hm as [|? ? [? ?] ?]. specialize (IH Hl ltac:(done)). apply Forall_app in IH as [? ?].
    apply Forall_app. split; [done|]. constructor; [|done]. split; [done|by apply wf_cp].
  - inversion_clear Hl as [|? ? [? ?] ?]. inversion_clear Hm as [|? ? [? ?] ?]. cbn. constructor; [|auto].
    split; [done|]. cbn. by apply (Hun x.2 y.2 z).
Qed.

Lemma umerge_keys l m l' p : umerge l m l' p -> l'.*1 = l.*1.
Proof. induction 1; cbn; [done..|by f_equal|done|by f_equal]. Qed.

Lemma entry_items_cp y : entry_items (copy_entry y) = entry_items y.
Proof. unfold entry_items. cbn. by rewrite items_cp. Qed.

Lemma elem_cons_items e l v : v ∈ keyed_items (e :: l) <-> v ∈ entry_items e \/ v ∈ keyed_items l.
Proof. unfold keyed_items. cbn. apply elem_of_app. Qed.

(** The merged list holds the union. *)
Lemma umerge_items l m l' p : unions -> umerge l m l' p -> Forall entry_ok l -> Forall entry_ok m ->
  forall v, v ∈ keyed_items (l' ++ p) <-> v ∈ keyed_items l \/ v ∈ keyed_items m.
Proof.
  intros Hun. induction 1 as [m|l|x l y m l' p Hlt Hu IH|x l y m l' p Hgt Hu IH|x l y m z l' p He Hz Hu IH]; intros Hl Hm v.
  - cbn [app]. assert (keyed_items (copy_entry <$> m) = keyed_items m) as ->.
    { unfold keyed_items. change (?f <$> m) with (map f m). rewrite map_map. f_equal. apply map_ext. intros. apply entry_items_cp. }
    change (keyed_items []) with (@nil Z). rewrite elem_of_nil. naive_solver.
  - rewrite app_nil_r. change (keyed_items []) with (@nil Z). rewrite elem_of_nil. naive_solver.
  - inversion_clear Hl. cbn [app]. rewrite !elem_cons_items, IH, elem_cons_items by done. naive_solver.
  - inversion_clear Hm. specialize (IH Hl ltac:(done)).
    rewrite keyed_items_app, elem_of_app, !elem_cons_items, entry_items_cp.
    specialize (IH v). rewrite keyed_items_app, elem_of_app, elem_cons_items in IH. naive_solver.
  - inversion_clear Hl as [|? ? Hx Hl']. inversion_clear Hm as [|? ? Hy Hm']. cbn [app]. rewrite !elem_cons_items, IH by done.
    destruct (Hun x.2 y.2 z) as [Hwz Hin]; [apply Hx|apply Hy|done|].
    rewrite (elem_entry_items (x.1, z)) by (split; [apply Hx|done]).
    rewrite (elem_entry_items x), (elem_entry_items y), <-He by done. cbn. rewrite Hin. naive_solver.
Qed.

(** Buckets of one key are merged in order. *)
Inductive zip_groups : list (Z * B) -> list (Z * B) -> list (Z * B) -> Prop :=
| zg_nil m : zip_groups [] m (copy_entry <$> m)
| zg_nil_r l : zip_groups l [] l
| zg_cons x y z l m g : mgr x.2 y.2 z -> zip_groups l m g -> zip_groups (x :: l) (y :: m) ((x.1, z) :: g).

Lemma group_app k l m : group fst k (l ++ m) = group (A := Z * B) fst k l ++ group fst k m.
Proof. unfold group. apply filter_app. Qed.

Lemma group_cons k e l : group fst k (e :: l) = if decide (e.1 = k) then e :: group fst k l else group (A := Z * B) fst k l.
Proof. unfold group. by rewrite filter_cons. Qed.

Lemma group_cp k m : group fst k (copy_entry <$> m) = copy_entry <$> group fst k m.
Proof.
  induction m as [|y m IH]; [done|]. rewrite fmap_cons, !group_cons, IH. cbn. by case_decide.
Qed.

Lemma group_above k e l : k < e.1 -> sorted_by_key fst (e :: l) -> group fst k (e :: l) = ([] : list (Z * B)).
Proof.
  intros Hk. inversion_clear 1 as [|? ? Hs Hf]. apply group_nil. constructor; [lia|].
  revert Hf. apply Forall_weaken. intros. lia.
Qed.

Lemma group_keys k l l' : l'.*1 = l.*1 -> group fst k l = ([] : list (Z * B)) -> group fst k l' = ([] : list (Z * B)).
Proof.
  revert l'. induction l as [|e l IH]; intros [|e' l'] Hk; try done. injection Hk as He Hk. rewrite !group_cons, He.
  case_decide; [done|]. by apply IH.
Qed.

Lemma zip_groups_nil_l m g : zip_groups [] m g -> g = copy_entry <$> m.
Proof. by inversion 1. Qed.
Lemma zip_groups_nil_r l g : zip_groups l [] g -> g = l.
Proof. by inversion 1. Qed.

Lemma umerge_group k l m l' p : umerge l m l' p -> sorted_by_key fst l -> sorted_by_key fst m ->
  zip_groups (group fst k l) (group fst k m) (group fst k (l' ++ p)).
Proof.
  induction 1 as [m|l|x l y m l' p Hlt Hu IH|x l y m l' p Hgt Hu IH|x l y m z l' p He Hz Hu IH]; intros Hl Hm.
  - cbn [app]. rewrite group_cp. constructor.
  - rewrite app_nil_r. constructor.
  - inversion_clear Hl as [|? ? Hl' Hx]. specialize (IH Hl' Hm). cbn [app]. rewrite (group_cons k x), (group_cons k x (l' ++ p)).
    case_decide as E; [|done]. rewrite (group_above k y m) in * by (done || lia).
    apply zip_groups_nil_r in IH. rewrite IH. constructor.
  - inversion_clear Hm as [|? ? Hm' Hy]. specialize (IH Hl Hm'). rewrite group_app, !(group_cons k y), (group_cons k (copy_entry y)).
    cbn [copy_entry fst]. case_decide as E; [|by rewrite <-group_app].
    pose proof (group_above k x l ltac:(lia) Hl) as Hn. rewrite Hn in *. rewrite group_app in IH.
    pose proof (umerge_keys _ _ _ _ Hu) as Hk. rewrite (group_keys k _ _ Hk Hn) in *.
    apply zip_groups_nil_l in IH. cbn in IH |- *. rewrite IH. apply (zg_nil (y :: _)).
  - inversion_clear Hl. inversion_clear Hm. cbn [app]. rewrite !group_cons, He. cbn [fst].
    case_decide as E; [|by apply IH]. rewrite <-He. constructor; auto.
Qed.

Lemma zip_groups_tail l m g : unions -> Forall entry_ok l -> Forall entry_ok m -> zip_groups l m g ->
  Forall (fun e => items e.2 = []) (tail l) -> Forall (fun e => items e.2 = []) (tail m) ->
  Forall (fun e => items e.2 = []) (tail g).
Proof.
  intros Hun Hl Hm Hz. assert (Hall : forall l m g, zip_groups l m g -> Forall entry_ok l -> Forall entry_ok m ->
    Forall (fun e => items e.2 = []) l -> Forall (fun e => items e.2 = []) m -> Forall (fun e => items e.2 = []) g).
  { clear - Hun items_cp. induction 1 as [m|l|x y z l m g Hz Hg IH]; intros Hol Hom Hl Hm.
    - apply Forall_fmap. revert Hm. apply Forall_weaken. intros [k b]. cbn. by rewrite items_cp.
    - done.
    - inversion_clear Hl. inversion_clear Hm. inversion_clear Hol as [|? ? [? ?] ?]. inversion_clear Hom as [|? ? [? ?] ?].
      constructor; [|auto]. cbn. apply elem_of_nil_inv. intros v Hv.
      apply (Hun x.2 y.2 z) in Hv as [Hv|Hv]; [..|done|done|done]; [rewrite H in Hv|rewrite H1 in Hv]; by apply elem_of_nil in Hv. }
  inversion Hz; subst; cbn; intros H1 H2.
  - destruct m; cbn in *; [constructor|]. inversion_clear Hm. apply Forall_fmap. revert H2. apply Forall_weaken. intros [k b]. cbn. by rewrite items_cp.
  - done.
  - inversion_clear Hl. inversion_clear Hm. eauto.
Qed.

Lemma umerge_later_empty l m l' p : unions -> umerge l m l' p -> Forall entry_ok l -> Forall entry_ok m ->
  sorted_by_key fst l -> sorted_by_key fst m -> later_empty l -> later_empty m -> later_empty (l' ++ p).
Proof.
  intros Hun Hu Hl Hm Hsl Hsm. rewrite !later_empty_group. intros H1 H2 k.
  apply (zip_groups_tail (group fst k l) (group fst k m)); [done| | |by apply umerge_group|done..];
    apply Forall_forall; intros e [_ He]%list_elem_of_filter; [rewrite Forall_forall in Hl|rewrite Forall_forall in Hm]; auto.
Qed.

(** [imerge l m r]: the list [l] with every bucket intersected with the bucket
    of the same key of [m], or cleared. *)
Context (clr : Z * B -> Z * B).

Inductive imerge : list (Z * B) -> list (Z * B) -> list (Z * B) -> Prop :=
| im_nil m : imerge [] m []
| im_nil_r l : imerge l [] (clr <$> l)
| im_lt x l y m r : x.1 < y.1 -> imerge l (y :: m) r -> imerge (x :: l) (y :: m) (clr x :: r)
| im_gt x l y m r : y.1 < x.1 -> imerge (x :: l) m r -> imerge (x :: l) (y :: m) r
| im_eq x l y m z r : x.1 = y.1 -> mgr x.2 y.2 z -> imerge l m r -> imerge (x :: l) (y :: m) ((x.1, z) :: r).

Lemma imerge_clear l1 l2 y m r : Forall (fun x => x.1 < y.1) l1 -> imerge l2 (y :: m) r ->
  imerge (l1 ++ l2) (y :: m) ((clr <$> l1) ++ r).
Proof. induction 1; cbn; [done|]. intros. constructor; auto. Qed.

Lemma imerge_pass x l m1 m2 r : Forall (fun y => y.1 < x.1) m1 -> imerge (x :: l) m2 r ->
  imerge (x :: l) (m1 ++ m2) r.
Proof. induction 1; cbn; [done|]. intros. constructor; auto. Qed.

(** A cleared bucket is empty and keeps its key, or has the key 0. *)
Definition clears : Prop := forall e, wf (clr e).2 /\ items (clr e).2 = [] /\ ((clr e).1 = e.1 \/ (clr e).1 = 0).

Lemma clr_ok e : clears -> entry_ok e -> entry_ok (clr e).
Proof. intros Hc [Hk _]. destruct (Hc e) as (H1 & _ & [H2|H2]); split; by rewrite ?H2. Qed.

Lemma imerge_ok l m r : clears -> intersects -> imerge l m r -> Forall entry_ok l -> Forall entry_ok m -> Forall entry_ok r.
Proof.
  intros Hc Hi. induction 1 as [m|l|x l y m r Hlt Hu IH|x l y m r Hgt Hu IH|x l y m z r He Hz Hu IH]; intros Hl Hm.
  - done.
  - apply Forall_fmap. revert Hl. apply Forall_weaken. intros. by apply clr_ok.
  - inversion_clear Hl. constructor; [by apply clr_ok|auto].
  - inversion_clear Hm. auto.
  - inversion_clear Hl as [|? ? [? ?] ?]. inversion_clear Hm as [|? ? [? ?] ?]. constructor; [|auto].
    split; [done|]. by apply (Hi x.2 y.2 z).
Qed.

Lemma clr_items e : clears -> entry_items (clr e) = [].
Proof. intros Hc. unfold entry_items. by destruct (Hc e) as (_ & -> & _). Qed.

Lemma keyed_items_clr l : clears -> keyed_items (clr <$> l) = [].
Proof. intros Hc. unfold keyed_items. induction l as [|e l IH]; [done|]. cbn. by rewrite clr_items, IH. Qed.

(** Items of a key that is smaller than all keys of a list are not in the list. *)
Lemma key_below e l v : entry_ok e -> Forall entry_ok l -> Forall (fun e' => e.1 < e'.1) l ->
  v ∈ entry_items e -> v ∈ keyed_items l -> False.
Proof.
  intros He Hl Hk Hv (e' & He' & Hd & _)%elem_keyed_items; [|done].
  apply elem_entry_items in Hv as [Hd' _]; [|done]. rewrite Forall_forall in Hk. specialize (Hk e' He'). lia.
Qed.

(** The rest of the buckets with the key of the first one is empty. *)
Lemma key_rest e l v : entry_ok e -> Forall entry_ok l -> later_empty (e :: l) -> v / W = e.1 -> v ∈ keyed_items l -> False.
Proof.
  intros He Hl Hle Hd' (e' & He' & Hd & Hm)%elem_keyed_items; [|done]. inversion_clear Hle as [|? ? _ Hf].
  rewrite Forall_forall in Hf. rewrite (Hf e' He') in Hm by congruence. by apply elem_of_nil in Hm.
Qed.

Lemma sorted_above e e' l : e.1 < e'.1 -> sorted_by_key fst (e' :: l) -> Forall (fun x : Z * B => e.1 < x.1) (e' :: l).
Proof.
  intros Hlt. inversion_clear 1 as [|? ? _ Hf]. constructor; [done|]. revert Hf. apply Forall_weaken. cbn. intros. lia.
Qed.

Lemma imerge_items l m r : clears -> intersects -> imerge l m r -> Forall entry_ok l -> Forall entry_ok m ->
  sorted_by_key fst l -> sorted_by_key fst m -> later_empty l -> later_empty m ->
  forall v, v ∈ keyed_items r <-> v ∈ keyed_items l /\ v ∈ keyed_items m.
Proof.
  intros Hc Hi. induction 1 as [m|l|x l y m r Hlt Hu IH|x l y m r Hgt Hu IH|x l y m z r He Hz Hu IH];
    intros Hl Hm Hsl Hsm Hel Hem v.
  - change (keyed_items []) with (@nil Z). rewrite elem_of_nil. naive_solver.
  - rewrite keyed_items_clr by done. change (keyed_items []) with (@nil Z). rewrite elem_of_nil. naive_solver.
  - inversion_clear Hl as [|? ? Hx Hl']. inversion_clear Hsl as [|? ? Hsl' _]. inversion_clear Hel as [|? ? Hel' _].
    rewrite (elem_cons_items (clr x)), (elem_cons_items x), clr_items, elem_of_nil, IH by done.
    pose proof (key_below x (y :: m) v Hx Hm (sorted_above x y m Hlt Hsm)). naive_solver.
  - inversion_clear Hm as [|? ? Hy Hm']. inversion_clear Hsm as [|? ? Hsm' _]. inversion_clear Hem as [|? ? Hem' _].
    rewrite (elem_cons_items y), IH by done.
    pose proof (key_below y (x :: l) v Hy Hl (sorted_above y x l Hgt Hsl)). naive_solver.
  - pose proof Hel as Hel0. pose proof Hem as Hem0.
    inversion_clear Hl as [|? ? Hx Hl']. inversion_clear Hsl as [|? ? Hsl' _]. inversion_clear Hel as [|? ? Hel' _].
    inversion_clear Hm as [|? ? Hy Hm']. inversion_clear Hsm as [|? ? Hsm' _]. inversion_clear Hem as [|? ? Hem' _].
    destruct (Hi x.2 y.2 z) as [Hwz Hin]; [apply Hx|apply Hy|done|].
    rewrite !elem_cons_items, IH by done. rewrite (elem_entry_items (x.1, z)) by (split; [apply Hx|done]).
    rewrite (elem_entry_items x), (elem_entry_items y), <-He by done. cbn. rewrite Hin.
    pose proof (key_rest x l v Hx Hl' Hel0). pose proof (key_rest y m v Hy Hm' Hem0) as Hr. rewrite <-He in Hr. naive_solver.
Qed.

(** Every bucket of the result is empty or comes from a bucket of [l]. *)
Lemma imerge_from l m r : clears -> intersects -> imerge l m r -> Forall entry_ok l -> Forall entry_ok m ->
  Forall (fun e' => items e'.2 = [] \/ exists e, e ∈ l /\ e.1 = e'.1 /\ (items e.2 = [] -> items e'.2 = [])) r.
Proof.
  intros Hc Hi. induction 1 as [m|l|x l y m r Hlt Hu IH|x l y m r Hgt Hu IH|x l y m z r He Hz Hu IH]; intros Hl Hm.
  - constructor.
  - apply Forall_fmap, Forall_forall. intros e _. left. apply Hc.
  - inversion_clear Hl. constructor; [left; apply Hc|]. specialize (IH ltac:(done) Hm). revert IH. apply Forall_weaken.
    setoid_rewrite elem_of_cons. naive_solver.
  - inversion_clear Hm. auto.
  - inversion_clear Hl as [|? ? [? ?] ?]. inversion_clear Hm as [|? ? [? ?] ?]. constructor.
    + right. exists x. split_and!; [left|done|]. cbn. intros Hx. destruct (Hi x.2 y.2 z) as [_ Hin]; [done..|].
      apply elem_of_nil_inv. intros v Hv. apply Hin in Hv as [Hv _]. rewrite Hx in Hv. by apply elem_of_nil in Hv.
    + specialize (IH ltac:(done) ltac:(done)). revert IH. apply Forall_weaken. setoid_rewrite elem_of_cons. naive_solver.
Qed.

Lemma imerge_later_empty l m r : clears -> intersects -> imerge l m r -> Forall entry_ok l -> Forall entry_ok m ->
  sorted_by_key fst l -> later_empty l -> later_empty r.
Proof.
  intros Hc Hi. induction 1 as [m|l|x l y m r Hlt Hu IH|x l y m r Hgt Hu IH|x l y m z r He Hz Hu IH];
    intros Hl Hm Hsl Hel.
  - constructor.
  - clear -Hc. induction l; cbn; constructor; [done|]. apply Forall_fmap, Forall_forall. intros e _ _. apply Hc.
  - inversion_clear Hl as [|? ? Hx Hl']. inversion_clear Hsl as [|? ? Hsl' Hkx]. inversion_clear Hel as [|? ? Hel' Hx'].
    constructor; [by apply IH|]. pose proof (imerge_from _ _ _ Hc Hi Hu Hl' Hm) as Hfrom. revert Hfrom. apply Forall_weaken.
    intros e' [?|(e & He & Hk & Hem)] Heq; [done|]. apply Hem. rewrite Forall_forall in Hx', Hkx. apply (Hx' e He).
    specialize (Hkx e He). cbn in Hkx. destruct (Hc x) as (_ & _ & [E|E]); [congruence|]. destruct Hx as [Hx0 _].
    rewrite E in Heq. lia.
  - inversion_clear Hm. auto.
  - inversion_clear Hl as [|? ? Hx Hl']. inversion_clear Hsl as [|? ? Hsl' Hkx]. inversion_clear Hel as [|? ? Hel' Hx'].
    inversion_clear Hm as [|? ? Hy Hm'].
    constructor; [by apply IH|]. pose proof (imerge_from _ _ _ Hc Hi Hu Hl' Hm') as Hfrom. revert Hfrom. apply Forall_weaken.
    intros e' [?|(e & He' & Hk & Hem)] Heq; [done|]. apply Hem. rewrite Forall_forall in Hx'. apply (Hx' e He').
    cbn in Heq. congruence.
Qed.
End Keyed.

(** ** The loops compute the merges

    [ent s] is the keyed list of the walked object; [am] that of the argument
    of the operation. *)
Section Loops.
  Context {B T : Type} (wf : B -> Prop) (cp : B -> B) (mgr : B -> B -> B -> Prop) (clr : Z * B -> Z * B).
  Context (n : nat) (key : T -> nat -> run Z) (akey : nat -> run Z).
  Context (push : T -> nat -> run T) (merge : T -> nat -> nat -> run T) (clear : T -> nat -> run T).
  Context (inv : T -> Prop) (ent : T -> list (Z * B)) (am : list (Z * B)).
  Abbreviation m := (length am).
  Context (Hkey : forall s i e, inv s -> ent s !! i = Some e -> key s i = Ok e.1).
  Context (Hakey : forall j e, am !! j = Some e -> akey j = Ok e.1).

Lemma lookup_pre {A} (pre l q : list A) i x l1 : i = length pre -> l = x :: l1 -> (pre ++ l ++ q) !! i = Some x.
Proof. intros -> ->. by apply list_lookup_middle. Qed.

Lemma drop_lookup (j : nat) y m1 : drop j am = y :: m1 -> am !! j = Some y /\ drop (S j) am = m1 /\ (j < m)%nat.
Proof.
  intros Hd. assert (am !! j = Some y) as Hj by (by rewrite <-(Nat.add_0_r j), <-lookup_drop, Hd).
  split_and!; [done| |by eapply lookup_lt_Some]. erewrite drop_S in Hd by done. congruence.
Qed.

Lemma drop_nil_len (j : nat) : drop j am = [] -> (m <= j)%nat.
Proof. intros Hd. apply (f_equal length) in Hd. rewrite length_drop in Hd. cbn in Hd. lia. Qed.

(** What one round of a loop establishes about the two lists. *)
Definition skipped (l1 l2 m0 : list (Z * B)) : Prop :=
  match m0 with
  | [] => l1 = []
  | y :: _ => Forall (fun x => x.1 < y.1) l1 /\ match l2 with [] => True | x :: _ => y.1 <= x.1 end
  end.

Lemma skip_below_spec fuel : forall s i j pre l q,
  inv s -> ent s = pre ++ l ++ q -> i = length pre -> n = (i + length l)%nat -> (length l < fuel)%nat ->
  exists l1 l2, l = l1 ++ l2 /\ skip_below n m key akey fuel s i j = Ok (i + length l1)%nat /\ skipped l1 l2 (drop j am).
Proof.
  unfold skipped. induction fuel as [|fuel IH]; intros s i j pre l q Hs He Hi Hn Hf; [lia|]. cbn [skip_below].
  destruct (drop j am) as [|y m1] eqn:Hd.
  { pose proof (drop_nil_len j Hd). exists [], l. split; [done|]. split; [|done].
    destruct (Nat.ltb_spec j m); [lia|]. rewrite andb_false_r. cbn. by rewrite Nat.add_0_r. }
  destruct (drop_lookup j y m1 Hd) as (Hj & _ & Hlt). destruct l as [|x l].
  { exists [], []. split; [done|]. split; [|auto]. destruct (Nat.ltb_spec i n); [cbn in Hn; lia|]. cbn. by rewrite Nat.add_0_r. }
  cbn in Hn, Hf. destruct (Nat.ltb_spec i n); [|lia]. destruct (Nat.ltb_spec j m); [|lia]. cbn [andb].
  rewrite (Hkey s i x), (Hakey j y), !bind_Ok by (done || rewrite He; by eapply lookup_pre).
  destruct (Z.ltb_spec x.1 y.1).
  - destruct (IH s (S i) j (pre ++ [x]) l q) as (l1 & l2 & Hl & -> & Hm); [done|by rewrite He, <-app_assoc|..|lia|].
    { rewrite length_app. cbn. lia. }
    { lia. }
    rewrite Hd in Hm. exists (x :: l1), l2. rewrite Hl. cbn. split; [done|]. split; [f_equal; lia|].
    split; [constructor; [done|apply Hm]|apply Hm].
  - exists [], (x :: l). split; [done|]. cbn. rewrite Nat.add_0_r. auto.
Qed.

Lemma pass_below_spec fuel : forall s i j x, inv s -> ent s !! i = Some x -> (length (drop j am) < fuel)%nat ->
  exists m1 m2, drop j am = m1 ++ m2 /\ pass_below m key akey fuel s i j = Ok (j + length m1)%nat /\
    drop (j + length m1) am = m2 /\ Forall (fun y => y.1 < x.1) m1 /\
    match m2 with [] => True | y :: _ => x.1 <= y.1 end.
Proof.
  induction fuel as [|fuel IH]; intros s i j x Hs Hx Hf; [lia|]. cbn [pass_below].
  destruct (drop j am) as [|y m1] eqn:Hd.
  { pose proof (drop_nil_len j Hd). exists [], []. destruct (Nat.ltb_spec j m); [lia|]. cbn. rewrite Nat.add_0_r. by split_and!. }
  destruct (drop_lookup j y m1 Hd) as (Hj & HS & Hlt). destruct (Nat.ltb_spec j m); [|lia].
  rewrite (Hkey s i x), (Hakey j y), !bind_Ok by done. destruct (Z.ltb_spec y.1 x.1).
  - destruct (IH s i (S j) x Hs Hx) as (a & b & Ha & -> & Hdr & Hall & Hb); [rewrite HS; cbn in Hf; lia|].
    rewrite HS in Ha. exists (y :: a), b. rewrite Ha. cbn. rewrite Nat.add_succ_r. split_and!; [done..|by constructor|done].
  - exists [], (y :: m1). cbn. rewrite Nat.add_0_r. by split_and!.
Qed.

Lemma umerge_round l1 x l2 m0 m1 m2 l' p : m0 = m1 ++ m2 -> skipped l1 (x :: l2) m0 ->
  Forall (fun y => y.1 < x.1) m1 -> umerge cp mgr (x :: l2) m2 l' p ->
  umerge cp mgr (l1 ++ x :: l2) m0 (l1 ++ l') ((copy_entry cp <$> m1) ++ p).
Proof.
  intros Hm Hskip Hall Hu. destruct m0 as [|y m0].
  - symmetry in Hm. apply app_eq_nil in Hm as [-> ->]. by rewrite Hskip.
  - destruct Hskip as [Hs' _]. apply umerge_skip; [done|]. rewrite Hm. by apply umerge_push.
Qed.

Lemma imerge_round l1 x l2 m0 m1 m2 r : m0 = m1 ++ m2 -> skipped l1 (x :: l2) m0 ->
  Forall (fun y => y.1 < x.1) m1 -> imerge mgr clr (x :: l2) m2 r ->
  imerge mgr clr (l1 ++ x :: l2) m0 ((clr <$> l1) ++ r).
Proof.
  intros Hm Hskip Hall Hu. destruct m0 as [|y m0].
  - symmetry in Hm. apply app_eq_nil in Hm as [-> ->]. by rewrite Hskip.
  - destruct Hskip as [Hs' _]. apply imerge_clear; [done|]. rewrite Hm. by apply imerge_pass.
Qed.

(** Both merges when the first list ends in the skipped part. *)
Lemma umerge_end l1 m0 : skipped l1 [] m0 -> umerge cp mgr l1 m0 l1 (copy_entry cp <$> m0).
Proof.
  destruct m0 as [|y m0]; [intros ->; apply um_nil|]. intros [Hall _].
  pose proof (umerge_skip cp mgr l1 [] y m0 [] _ Hall (um_nil cp mgr _)) as Hu. by rewrite !app_nil_r in Hu.
Qed.

Lemma imerge_end l1 m0 : skipped l1 [] m0 -> imerge mgr clr l1 m0 (clr <$> l1).
Proof.
  destruct m0 as [|y m0]; [intros ->; apply im_nil|]. intros [Hall _].
  pose proof (imerge_clear mgr clr l1 [] y m0 [] Hall (im_nil mgr clr _)) as Hu. by rewrite !app_nil_r in Hu.
Qed.

(** A round that finds no equal keys has passed an entry of one of the lists. *)
Lemma skipped_progress x l1 l2 y m1 m2 : skipped l1 (x :: l2) (m1 ++ y :: m2) -> x.1 <= y.1 -> x.1 <> y.1 ->
  (0 < length l1 + length m1)%nat.
Proof. destruct l1, m1; cbn; lia. Qed.

Section Union.
  Context (Hpush : forall s j e, inv s -> am !! j = Some e ->
    exists s', push s j = Ok s' /\ inv s' /\ ent s' = ent s ++ [copy_entry cp e]).
  Context (Hmerge : forall s i j e e', inv s -> ent s !! i = Some e -> am !! j = Some e' -> wf e.2 -> wf e'.2 ->
    exists s' z, merge s i j = Ok s' /\ mgr e.2 e'.2 z /\ inv s' /\ ent s' = <[i := (e.1, z)]> (ent s)).

Lemma push_rest_spec fuel : forall s j, inv s -> (length (drop j am) < fuel)%nat ->
  exists s', push_rest m push fuel s j = Ok s' /\ inv s' /\ ent s' = ent s ++ (copy_entry cp <$> drop j am).
Proof.
  induction fuel as [|fuel IH]; intros s j Hs Hf; [lia|]. cbn [push_rest]. destruct (drop j am) as [|y m1] eqn:Hd.
  { pose proof (drop_nil_len j Hd). destruct (Nat.ltb_spec j m); [lia|]. exists s. cbn. by rewrite app_nil_r. }
  destruct (drop_lookup j y m1 Hd) as (Hj & HS & Hlt). destruct (Nat.ltb_spec j m); [|lia].
  destruct (Hpush s j y Hs Hj) as (s1 & -> & Hs1 & He1). rewrite bind_Ok.
  destruct (IH s1 (S j) Hs1) as (s2 & -> & Hs2 & He2); [rewrite HS; cbn in Hf; lia|]. exists s2. split_and!; [done..|].
  by rewrite He2, He1, HS, <-app_assoc.
Qed.

Lemma push_below_spec fuel : forall s i j x, inv s -> ent s !! i = Some x -> (length (drop j am) < fuel)%nat ->
  exists s' m1 m2, drop j am = m1 ++ m2 /\ push_below m key akey push fuel s i j = Ok (s', j + length m1)%nat /\
    inv s' /\ ent s' = ent s ++ (copy_entry cp <$> m1) /\ drop (j + length m1) am = m2 /\
    Forall (fun y => y.1 < x.1) m1 /\ match m2 with [] => True | y :: _ => x.1 <= y.1 end.
Proof.
  induction fuel as [|fuel IH]; intros s i j x Hs Hx Hf; [lia|]. cbn [push_below].
  destruct (drop j am) as [|y m1] eqn:Hd.
  { pose proof (drop_nil_len j Hd). exists s, [], []. destruct (Nat.ltb_spec j m); [lia|]. cbn.
    rewrite Nat.add_0_r, app_nil_r. by split_and!. }
  destruct (drop_lookup j y m1 Hd) as (Hj & HS & Hlt). destruct (Nat.ltb_spec j m); [|lia].
  rewrite (Hkey s i x), (Hakey j y), !bind_Ok by done. destruct (Z.ltb_spec y.1 x.1).
  - destruct (Hpush s j y Hs Hj) as (s1 & -> & Hs1 & He1). rewrite bind_Ok.
    destruct (IH s1 i (S j) x Hs1) as (s2 & a & b & Ha & -> & Hs2 & He2 & Hdr & Hall & Hb).
    { rewrite He1. by apply lookup_app_l_Some. }
    { rewrite HS. cbn in Hf. lia. }
    rewrite HS in Ha. exists s2, (y :: a), b. rewrite Ha. cbn. rewrite Nat.add_succ_r.
    split_and!; [done..|by rewrite He2, He1, <-app_assoc|done|by constructor|done].
  - exists s, [], (y :: m1). cbn. rewrite Nat.add_0_r, app_nil_r. by split_and!.
Qed.

Lemma union_loop_spec fuel : forall s i j pre l q,
  inv s -> ent s = pre ++ l ++ q -> i = length pre -> n = (i + length l)%nat ->
  Forall (fun e => wf e.2) l -> Forall (fun e => wf e.2) am -> (length l + length (drop j am) < fuel)%nat ->
  exists s' l' p, union_loop n m key akey push merge fuel s i j = Ok s' /\ inv s' /\
    umerge cp mgr l (drop j am) l' p /\ ent s' = pre ++ l' ++ q ++ p.
Proof.
  induction fuel as [|fuel IH]; intros s i j pre l q Hs He Hi Hn Hl Ham Hf; [lia|]. cbn [union_loop].
  destruct (skip_below_spec (S n) s i j pre l q Hs He Hi Hn) as (l1 & l2 & El & -> & Hskip); [lia|]. rewrite bind_Ok.
  assert (Hpre : length (pre ++ l1) = (i + length l1)%nat) by (rewrite length_app; lia).
  assert (He' : ent s = (pre ++ l1) ++ l2 ++ q) by (rewrite He, El, <-!app_assoc; done).
  rewrite El, length_app in Hn. destruct (Nat.leb_spec n (i + length l1)) as [Hle|Hlt].
  { destruct l2; [|cbn in Hn; lia]. destruct (push_rest_spec (S m) s j Hs) as (s' & -> & Hs' & Hent).
    { rewrite length_drop. lia. }
    exists s', l1, (copy_entry cp <$> drop j am). split_and!; [done..| |].
    - rewrite El, app_nil_r. by apply umerge_end.
    - rewrite Hent, He'. cbn. by rewrite <-!app_assoc. }
  destruct l2 as [|x l2]; [cbn in Hn; lia|].
  assert (Hx : ent s !! (i + length l1)%nat = Some x) by (rewrite He'; by eapply lookup_pre).
  destruct (push_below_spec (S m) s _ j x Hs Hx) as (s1 & m1 & m2 & Hm & -> & Hs1 & He1 & Hd2 & Hall & Hm2).
  { rewrite length_drop. lia. }
  cbn [mbind res_bind].
  pose proof (fun l' p => umerge_round l1 x l2 (drop j am) m1 m2 l' p Hm Hskip Hall) as Hcombine. rewrite <-El in Hcombine.
  assert (Hl2 : Forall (fun e => wf e.2) (x :: l2)) by (rewrite El, Forall_app in Hl; apply Hl).
  assert (He1' : ent s1 = (pre ++ l1) ++ (x :: l2) ++ q ++ (copy_entry cp <$> m1)) by (rewrite He1, He', <-!app_assoc; done).
  destruct m2 as [|y m2].
  { pose proof (drop_nil_len _ Hd2). destruct (Nat.leb_spec m (j + length m1)); [|lia].
    exists s1, (l1 ++ x :: l2), (copy_entry cp <$> m1). split_and!; [done..| |].
    - rewrite <-(app_nil_r (copy_entry cp <$> m1)). apply Hcombine, um_nil_r.
    - rewrite He1'. by rewrite <-!app_assoc. }
  destruct (drop_lookup _ y m2 Hd2) as (Hj & HS & Hltj). destruct (Nat.leb_spec m (j + length m1)); [lia|].
  assert (Hx1 : ent s1 !! (i + length l1)%nat = Some x) by (rewrite He1'; by eapply lookup_pre).
  rewrite (Hkey s1 _ x), (Hakey _ y), !bind_Ok by done. rewrite El, Hm, !length_app in Hf. cbn in Hf.
  inversion_clear Hl2 as [|? ? Hwx Hwl2]. assert (Hwy : wf y.2).
  { rewrite Forall_lookup in Ham. by apply (Ham (j + length m1)%nat). }
  destruct (Z.eqb_spec x.1 y.1) as [Exy|Nxy].
  - destruct (Hmerge s1 _ _ x y Hs1 Hx1 Hj Hwx Hwy) as (s2 & z & -> & Hz & Hs2 & He2). rewrite bind_Ok.
    destruct (IH s2 (S (i + length l1)) (S (j + length m1)) (pre ++ l1 ++ [(x.1, z)]) l2 (q ++ (copy_entry cp <$> m1)))
      as (s3 & l' & p & -> & Hs3 & Hu & He3); [done| | | |done|done| |].
    + rewrite He2, He1'. rewrite insert_app_r_alt by lia. rewrite Hpre, Nat.sub_diag. cbn. by rewrite <-!app_assoc.
    + rewrite !length_app. cbn. lia.
    + cbn in Hn. lia.
    + rewrite HS. lia.
    + rewrite HS in Hu. exists s3, (l1 ++ (x.1, z) :: l'), ((copy_entry cp <$> m1) ++ p). split_and!; [done..| |].
      * apply Hcombine. by constructor.
      * rewrite He3. by rewrite <-!app_assoc.
  - (* the keys differ, so one of the two lists has become shorter *)
    destruct (IH s1 (i + length l1)%nat (j + length m1)%nat (pre ++ l1) (x :: l2) (q ++ (copy_entry cp <$> m1)))
      as (s3 & l' & p & -> & Hs3 & Hu & He3); [done|done|by rewrite Hpre| | |done| |].
    + cbn in Hn |- *. lia.
    + by constructor.
    + rewrite Hm in Hskip. pose proof (skipped_progress x l1 l2 y m1 m2 Hskip Hm2 Nxy). rewrite Hd2. cbn. lia.
    + rewrite Hd2 in Hu. exists s3, (l1 ++ l'), ((copy_entry cp <$> m1) ++ p). split_and!; [done..|by apply Hcombine|].
      rewrite He3. by rewrite <-!app_assoc.
Qed.
End Union.

Section Intersect.
  Context (Hclear : forall s i e, inv s -> ent s !! i = Some e ->
    exists s', clear s i = Ok s' /\ inv s' /\ ent s' = <[i := clr e]> (ent s)).
  Context (Hmerge : forall s i j e e', inv s -> ent s !! i = Some e -> am !! j = Some e' -> wf e.2 -> wf e'.2 ->
    exists s' z, merge s i j = Ok s' /\ mgr e.2 e'.2 z /\ inv s' /\ ent s' = <[i := (e.1, z)]> (ent s)).

Lemma insert_pre {A} (pre l : list A) x y : <[length pre := y]> (pre ++ x :: l) = (pre ++ [y]) ++ l.
Proof. rewrite insert_app_r_alt, Nat.sub_diag by lia. cbn. by rewrite <-app_assoc. Qed.

Lemma clear_rest_spec fuel : forall s i pre l, inv s -> ent s = pre ++ l -> i = length pre -> n = (i + length l)%nat ->
  (length l < fuel)%nat -> exists s', clear_rest n clear fuel s i = Ok s' /\ inv s' /\ ent s' = pre ++ (clr <$> l).
Proof.
  induction fuel as [|fuel IH]; intros s i pre l Hs He Hi Hn Hf; [lia|]. cbn [clear_rest]. destruct l as [|x l].
  { destruct (Nat.ltb_spec i n); [cbn in Hn; lia|]. exists s. by split_and!. }
  cbn in Hn, Hf. destruct (Nat.ltb_spec i n); [|lia].
  destruct (Hclear s i x Hs) as (s1 & -> & Hs1 & He1); [rewrite He, Hi; by apply list_lookup_middle|]. rewrite bind_Ok.
  destruct (IH s1 (S i) (pre ++ [clr x]) l Hs1) as (s2 & -> & Hs2 & He2).
  - by rewrite He1, He, Hi, insert_pre.
  - rewrite length_app. cbn. lia.
  - lia.
  - lia.
  - exists s2. split_and!; [done..|]. rewrite He2, <-app_assoc. done.
Qed.

Lemma clear_below_spec fuel : forall s i j pre l,
  inv s -> ent s = pre ++ l -> i = length pre -> n = (i + length l)%nat -> (length l < fuel)%nat ->
  exists s' l1 l2, l = l1 ++ l2 /\ clear_below n m key akey clear fuel s i j = Ok (s', i + length l1)%nat /\
    inv s' /\ ent s' = pre ++ (clr <$> l1) ++ l2 /\ skipped l1 l2 (drop j am).
Proof.
  unfold skipped. induction fuel as [|fuel IH]; intros s i j pre l Hs He Hi Hn Hf; [lia|]. cbn [clear_below].
  destruct (drop j am) as [|y m1] eqn:Hd.
  { pose proof (drop_nil_len j Hd). exists s, [], l. split; [done|]. destruct (Nat.ltb_spec j m); [lia|].
    rewrite andb_false_r. cbn. rewrite Nat.add_0_r. by split_and!. }
  destruct (drop_lookup j y m1 Hd) as (Hj & _ & Hlt). destruct l as [|x l].
  { exists s, [], []. split; [done|]. destruct (Nat.ltb_spec i n); [cbn in Hn; lia|]. cbn. rewrite Nat.add_0_r. by split_and!. }
  cbn in Hn, Hf. destruct (Nat.ltb_spec i n); [|lia]. destruct (Nat.ltb_spec j m); [|lia]. cbn [andb].
  assert (Hx : ent s !! i = Some x) by (rewrite He, Hi; by apply list_lookup_middle).
  rewrite (Hkey s i x), (Hakey j y), !bind_Ok by done. destruct (Z.ltb_spec x.1 y.1).
  - destruct (Hclear s i x Hs Hx) as (s1 & -> & Hs1 & He1). rewrite bind_Ok.
    destruct (IH s1 (S i) j (pre ++ [clr x]) l) as (s2 & l1 & l2 & Hl & -> & Hs2 & He2 & Hm); [done|..].
    + by rewrite He1, He, Hi, insert_pre.
    + rewrite length_app. cbn. lia.
    + lia.
    + lia.
    + rewrite Hd in Hm. exists s2, (x :: l1), l2. rewrite Hl. cbn. split; [done|]. split; [do 2 f_equal; lia|].
      split_and!; [done|by rewrite He2, <-app_assoc|constructor; [done|]|]; apply Hm.
  - exists s, [], (x :: l). cbn. rewrite Nat.add_0_r. by split_and!.
Qed.

Lemma intersect_loop_spec fuel : forall s i j pre l,
  inv s -> ent s = pre ++ l -> i = length pre -> n = (i + length l)%nat ->
  Forall (fun e => wf e.2) l -> Forall (fun e => wf e.2) am -> (length l + length (drop j am) < fuel)%nat ->
  exists s' r, intersect_loop n m key akey merge clear fuel s i j = Ok s' /\ inv s' /\
    imerge mgr clr l (drop j am) r /\ ent s' = pre ++ r.
Proof.
  induction fuel as [|fuel IH]; intros s i j pre l Hs He Hi Hn Hl Ham Hf; [lia|]. cbn [intersect_loop].
  destruct (clear_below_spec (S n) s i j pre l Hs He Hi Hn) as (s1 & l1 & l2 & El & -> & Hs1 & He1 & Hskip); [lia|].
  cbn [mbind res_bind]. rewrite app_assoc in He1.
  assert (Hpre : length (pre ++ (clr <$> l1)) = (i + length l1)%nat) by (rewrite length_app, length_fmap; lia).
  rewrite El, length_app in Hn. destruct (Nat.leb_spec n (i + length l1)) as [Hle|Hlt].
  { destruct l2; [|cbn in Hn; lia]. exists s1, (clr <$> l1). split_and!; [done..| |].
    - rewrite El, app_nil_r. by apply imerge_end.
    - by rewrite He1, app_nil_r. }
  destruct l2 as [|x l2]; [cbn in Hn; lia|].
  assert (Hx : ent s1 !! (i + length l1)%nat = Some x) by (rewrite He1, <-Hpre; by apply list_lookup_middle).
  destruct (pass_below_spec (S m) s1 _ j x Hs1 Hx) as (m1 & m2 & Hm & -> & Hd2 & Hall & Hm2); [rewrite length_drop; lia|].
  rewrite bind_Ok. pose proof (fun r => imerge_round l1 x l2 (drop j am) m1 m2 r Hm Hskip Hall) as Hcombine.
  rewrite <-El in Hcombine. destruct m2 as [|y m2].
  { pose proof (drop_nil_len _ Hd2). destruct (Nat.leb_spec m (j + length m1)); [|lia].
    destruct (clear_rest_spec (S n) s1 (i + length l1) _ (x :: l2) Hs1 He1) as (s2 & -> & Hs2 & He2);
      [done|cbn in Hn |- *; lia|lia|].
    exists s2, ((clr <$> l1) ++ (clr <$> x :: l2)). split_and!; [done..|apply Hcombine, im_nil_r|by rewrite He2, <-app_assoc]. }
  destruct (drop_lookup _ y m2 Hd2) as (Hj & HS & Hltj). destruct (Nat.leb_spec m (j + length m1)); [lia|].
  rewrite (Hkey s1 _ x), (Hakey _ y), !bind_Ok by done. rewrite El, Hm, !length_app in Hf. cbn in Hf, Hn.
  rewrite El, Forall_app in Hl. destruct Hl as [_ Hl2]. pose proof Hl2 as Hl2'. inversion_clear Hl2 as [|? ? Hwx Hwl2].
  assert (Hwy : wf y.2) by (rewrite Forall_lookup in Ham; by apply (Ham (j + length m1)%nat)).
  destruct (Z.eqb_spec x.1 y.1) as [Exy|Nxy].
  - destruct (Hmerge s1 _ _ x y Hs1 Hx Hj Hwx Hwy) as (s2 & z & -> & Hz & Hs2 & He2). rewrite bind_Ok.
    rewrite He1, <-Hpre, insert_pre in He2.
    destruct (IH s2 (S (i + length l1)) (S (j + length m1)) _ l2 Hs2 He2) as (s3 & r & -> & Hs3 & Hu & He3);
      [rewrite length_app; cbn; lia|lia|done|done|rewrite HS; lia|].
    rewrite HS in Hu. exists s3, ((clr <$> l1) ++ (x.1, z) :: r). split_and!; [done..|by apply Hcombine; constructor|].
    rewrite He3. by rewrite <-!app_assoc.
  - rewrite Hm in Hskip. pose proof (skipped_progress x l1 l2 y m1 m2 Hskip Hm2 Nxy).
    destruct (IH s1 (i + length l1)%nat (j + length m1)%nat _ (x :: l2) Hs1 He1) as (s3 & r & -> & Hs3 & Hu & He3);
      [done|cbn; lia|done|done|rewrite Hd2; cbn; lia|].
    rewrite Hd2 in Hu. exists s3, ((clr <$> l1) ++ r). split_and!; [done..|by apply Hcombine|]. by rewrite He3, <-app_assoc.
Qed.
End Intersect.
End Loops.

(** ** Changing one bucket *)
Section Focus.
  Context {B : Type} (W : Z) (items : B -> list Z) (wf : B -> Prop).
  Context (HW : 0 < W).
  Context (items_range : forall b x, wf b -> x ∈ items b -> 0 <= x < W).
  Implicit Types (e : Z * B) (l : list (Z * B)).
  Abbreviation kitems := (keyed_items W items).
  Abbreviation eok := (entry_ok wf).

Lemma split_value v k lo : 0 <= lo < W -> v = k * W + lo <-> v / W = k /\ v mod W = lo.
Proof.
  intros Hlo. split.
  - intros ->. rewrite Z.div_add_l, Z.div_small, (Z.add_comm (k * W)), Z.mod_add, Z.mod_small by lia. lia.
  - intros [<- <-]. pose proof (Z.div_mod v W). lia.
Qed.

Lemma keyed_absent l v : Forall eok l -> Forall (fun e => e.1 <> v / W) l -> v ∉ kitems l.
Proof.
  intros Hl Hk Hv. apply (elem_keyed_items W items wf HW items_range) in Hv as (e & He & Hd & _); [|done].
  rewrite Forall_forall in Hk. by apply (Hk e He).
Qed.

Lemma elem_middle l1 e l2 v : v ∈ kitems (l1 ++ e :: l2) <-> v ∈ kitems (l1 ++ l2) \/ v ∈ entry_items W items e.
Proof.
  clear HW items_range. rewrite !keyed_items_app, !elem_of_app. change (e :: l2) with ([e] ++ l2). rewrite keyed_items_app, elem_of_app.
  unfold keyed_items at 2. cbn. rewrite app_nil_r. naive_solver.
Qed.

Lemma focus_elem l1 e l2 v : Forall eok (l1 ++ e :: l2) -> later_empty items (l1 ++ e :: l2) ->
  Forall (fun e' => e'.1 <> e.1) l1 -> v / W = e.1 -> v ∈ kitems (l1 ++ e :: l2) <-> v mod W ∈ items e.2.
Proof.
  intros Hok Hle Hk Hd. apply Forall_app in Hok as [Hok1 Hok2]. inversion_clear Hok2 as [|? ? Hoke Hokl2].
  rewrite elem_middle, keyed_items_app, elem_of_app, (elem_entry_items W items wf HW items_range) by done.
  assert (v ∉ kitems l1) by (apply keyed_absent; [done|]; by rewrite Hd).
  assert (v ∉ kitems l2).
  { intros Hv. apply (elem_keyed_items W items wf HW items_range) in Hv as (e' & He' & Hd' & Hm); [|done].
    unfold later_empty in Hle. rewrite StronglySorted_app in Hle. destruct Hle as (_ & _ & Hle). inversion_clear Hle as [|? ? _ Hf].
    rewrite Forall_forall in Hf. rewrite (Hf e' He') in Hm by congruence. by apply elem_of_nil in Hm. }
  naive_solver.
Qed.

Lemma later_empty_update l1 e e' l2 : later_empty items (l1 ++ e :: l2) -> Forall (fun x => x.1 <> e.1) l1 -> e'.1 = e.1 ->
  later_empty items (l1 ++ e' :: l2).
Proof.
  unfold later_empty. intros Hle Hk Heq. rewrite StronglySorted_app in Hle. destruct Hle as (Hx & Hl1 & Hl2). inversion_clear Hl2 as [|? ? Hl2' Hf].
  apply StronglySorted_app. split_and!; [|done|].
  - intros x y Hx1 [->|Hy]%elem_of_cons E; [|apply (Hx x y); [done|by right|done]].
    rewrite Forall_forall in Hk. destruct (Hk x Hx1). congruence.
  - constructor; [done|]. by rewrite Heq.
Qed.

Lemma focus_other l1 e e' l2 v : Forall eok (l1 ++ e :: l2) -> eok e' -> e'.1 = e.1 -> v / W <> e.1 ->
  v ∈ kitems (l1 ++ e' :: l2) <-> v ∈ kitems (l1 ++ e :: l2).
Proof.
  intros Hok He' Heq Hd. apply Forall_app in Hok as [Hok1 Hok2]. inversion_clear Hok2 as [|? ? Hoke Hokl2].
  rewrite !elem_middle, !(elem_entry_items W items wf HW items_range) by done. rewrite Heq. naive_solver.
Qed.

(** Replacing the items of one bucket: [Q] says what holds afterwards. *)
Lemma focus_change (Q : Z -> Prop) l1 e b l2 : Forall eok (l1 ++ e :: l2) -> later_empty items (l1 ++ e :: l2) ->
  Forall (fun x => x.1 <> e.1) l1 -> wf b -> (forall y, y ∈ items b <-> Q y) ->
  forall v, v ∈ kitems (l1 ++ (e.1, b) :: l2) <-> if decide (v / W = e.1) then Q (v mod W) else v ∈ kitems (l1 ++ e :: l2).
Proof.
  intros Hok Hle Hk Hb Hin v.
  assert (Hoke : eok (e.1, b)). { rewrite Forall_app, Forall_cons in Hok. split; [apply Hok|done]. }
  destruct (decide (v / W = e.1)) as [E|E]; [|by apply focus_other].
  rewrite (focus_elem l1 (e.1, b) l2); [by rewrite <-Hin|..|done|done].
  - rewrite !Forall_app, !Forall_cons in *. naive_solver.
  - by eapply later_empty_update.
Qed.

Lemma focus_add_many (Q : Z -> Prop) l1 e b l2 : Forall eok (l1 ++ e :: l2) -> later_empty items (l1 ++ e :: l2) ->
  Forall (fun x => x.1 <> e.1) l1 -> wf b -> (forall y, y ∈ items b <-> Q y \/ y ∈ items e.2) ->
  forall v, v ∈ kitems (l1 ++ (e.1, b) :: l2) <-> (v / W = e.1 /\ Q (v mod W)) \/ v ∈ kitems (l1 ++ e :: l2).
Proof.
  intros Hok Hle Hk Hb Hin v. rewrite (focus_change _ l1 e b l2 Hok Hle Hk Hb Hin). case_decide as E; [|naive_solver].
  rewrite (focus_elem l1 e l2) by done. naive_solver.
Qed.

(** Adding or deleting one item. *)
Lemma focus_add l1 e b l2 lo : Forall eok (l1 ++ e :: l2) -> later_empty items (l1 ++ e :: l2) ->
  Forall (fun x => x.1 <> e.1) l1 -> wf b -> 0 <= lo < W -> (forall y, y ∈ items b <-> y = lo \/ y ∈ items e.2) ->
  forall v, v ∈ kitems (l1 ++ (e.1, b) :: l2) <-> v = e.1 * W + lo \/ v ∈ kitems (l1 ++ e :: l2).
Proof.
  intros Hok Hle Hk Hb Hlo Hin v. rewrite split_value by done. by apply (focus_add_many (fun y => y = lo)).
Qed.

Lemma focus_del l1 e b l2 lo : Forall eok (l1 ++ e :: l2) -> later_empty items (l1 ++ e :: l2) ->
  Forall (fun x => x.1 <> e.1) l1 -> wf b -> 0 <= lo < W -> (forall y, y ∈ items b <-> y <> lo /\ y ∈ items e.2) ->
  forall v, v ∈ kitems (l1 ++ (e.1, b) :: l2) <-> v <> e.1 * W + lo /\ v ∈ kitems (l1 ++ e :: l2).
Proof.
  intros Hok Hle Hk Hb Hlo Hin v. rewrite split_value by done. rewrite (focus_change _ l1 e b l2 Hok Hle Hk Hb Hin).
  case_decide as E; [|naive_solver]. rewrite (focus_elem l1 e l2) by done. naive_solver.
Qed.
End Focus.

