(* ===== verification/Uint64SetOps.v ===== *)
(** * The middle level of the integer sets

    The buckets of 32-bit integers of [Uint64Set] (sorted buckets of 16-bit
    integers behind a binary search and a hint): their invariant, their items,
    and the effect of every operation on the items. *)
From Stdlib Require Import ZArith Lia Bool.
From stdpp Require Import gmap.
From S2P Require Import Prelude IntCodec Uint64Set Uint64SetBucket Uint64SetWalk.
Local Open Scope Z_scope.

(** ** The middle 16 bits *)

Definition ent32 (b : Bucket32) : list (Z * Bucket16) := zip (b32_b16his b) (b32_buckets b).

Definition rep32 (b : Bucket32) (l : list (Z * Bucket16)) : Prop := b32_b16his b = l.*1 /\ b32_buckets b = l.*2.

Definition ok32 (l : list (Z * Bucket16)) : Prop := strictZ l.*1 /\ Forall (fun e => is_u16 e.1 /\ wf16 e.2) l.

Definition wf32 (b : Bucket32) : Prop := is_u32 (b32_hi b) /\ rep32 b (ent32 b) /\ ok32 (ent32 b).

Definition b32_items (b : Bucket32) : list Z := keyed_items (2 ^ 16) b16_items (ent32 b).

Lemma rep32_ent b l : rep32 b l -> ent32 b = l.
Proof. intros [H1 H2]. unfold ent32. rewrite H1, H2. apply zip_fst_snd. Qed.

Lemma build32 b l : is_u32 (b32_hi b) -> rep32 b l -> ok32 l ->
  wf32 b /\ b32_items b = keyed_items (2 ^ 16) b16_items l.
Proof.
  intros Hhi Hr Hok. pose proof (rep32_ent b l Hr) as E. unfold wf32, b32_items. by rewrite E.
Qed.

Lemma b16_range b x : wf16 b -> x ∈ b16_items b -> 0 <= x < 2 ^ 16.
Proof. apply b16_items_range. Qed.

Lemma strict_keys_distinct {B} (l1 l2 : list (Z * B)) e : strictZ (l1 ++ e :: l2).*1 ->
  Forall (fun x => x.1 < e.1) l1 /\ Forall (fun x => e.1 < x.1) l2.
Proof.
  rewrite fmap_app, fmap_cons. intros H. apply StronglySorted_app in H as (H1 & _ & H2). inversion_clear H2 as [|? ? _ H3].
  split; apply Forall_forall; intros x Hx.
  - apply H1; [by apply list_elem_of_fmap_2|by left].
  - rewrite Forall_forall in H3. apply H3. by apply list_elem_of_fmap_2.
Qed.

Lemma strict_keys_later {B} (items : B -> list Z) (l : list (Z * B)) : strictZ l.*1 -> later_empty items l.
Proof.
  unfold later_empty. induction l as [|e l IH]; [constructor|]. cbn. inversion_clear 1 as [|? ? H1 H2].
  constructor; [auto|]. rewrite Forall_fmap in H2. revert H2. apply Forall_weaken. cbn. intros. lia.
Qed.

Lemma strict_keys_sorted {B} (l : list (Z * B)) : strictZ l.*1 -> sorted_by_key fst l.
Proof.
  unfold sorted_by_key. induction l as [|e l IH]; [constructor|]. cbn. inversion_clear 1 as [|? ? H1 H2].
  constructor; [auto|]. rewrite Forall_fmap in H2. revert H2. apply Forall_weaken. cbn. intros. lia.
Qed.

Lemma ok32_entries l : ok32 l -> Forall (entry_ok wf16) l.
Proof. intros [_ H]. revert H. apply Forall_weaken. intros e [[? ?] ?]. by split. Qed.

(** *** Binary search *)

Lemma sorted_lookup {A} (R : relation A) l : StronglySorted R l -> forall p q a b,
  (p < q)%nat -> l !! p = Some a -> l !! q = Some b -> R a b.
Proof.
  induction 1 as [|x l Hl IH Hx]; intros p q a b Hpq Ha Hb; [done|]. destruct q as [|q]; [lia|]. cbn in Hb.
  destruct p as [|p]; cbn in Ha; [|by apply (IH p q); [lia|..]]. injection Ha as <-.
  rewrite Forall_lookup in Hx. eauto.
Qed.

Lemma search_loop_spec fuel his x : forall i j, (i <= j <= length his)%nat -> (j - i < fuel)%nat -> sortedZ his ->
  (forall p v, (p < i)%nat -> his !! p = Some v -> v < x) -> (forall p v, (j <= p)%nat -> his !! p = Some v -> x <= v) ->
  exists n, search_loop fuel his x i j = Ok n /\ (n <= length his)%nat /\
    (forall p v, (p < n)%nat -> his !! p = Some v -> v < x) /\ (forall p v, (n <= p)%nat -> his !! p = Some v -> x <= v).
Proof.
  induction fuel as [|fuel IH]; intros i j Hij Hf Hs Hlo Hhi; [lia|]. cbn [search_loop].
  destruct (Nat.ltb_spec i j) as [Hlt|Hge].
  - assert (Hh : (i <= Nat.div2 (i + j) < j)%nat) by (rewrite Nat.div2_div; split;
      [apply Nat.div_le_lower_bound|apply Nat.div_lt_upper_bound]; lia).
    set (h := Nat.div2 (i + j)) in *. destruct (lookup_lt_is_Some_2 his h) as [v Hv]; [lia|].
    unfold idx. rewrite Hv, bind_Ok.
    assert (Hmono : forall p q a b, (p < q)%nat -> his !! p = Some a -> his !! q = Some b -> a <= b).
    { intros p q a b Hpq Ha Hb. by apply (sorted_lookup Z.le his Hs p q). }
    destruct (Z.ltb_spec v x) as [Hvx|Hvx].
    + apply IH; [lia|lia|done| |done]. intros p w Hp Hw. destruct (decide (p = h)) as [->|]; [congruence|].
      assert (w <= v) by (apply (Hmono p h); [lia|done..]). lia.
    + apply IH; [lia|lia|done|done|]. intros p w Hp Hw. destruct (decide (p = h)) as [->|]; [congruence|].
      assert (v <= w) by (apply (Hmono h p); [lia|done..]). lia.
  - exists i. split_and!; [done|lia|done|]. intros p v Hp. apply Hhi. lia.
Qed.

Lemma strict_sorted l : strictZ l -> sortedZ l.
Proof. induction 1 as [|x l Hl IH Hx]; constructor; [done|]. revert Hx. apply Forall_weaken. lia. Qed.

Lemma binary_search16_spec his x : strictZ his ->
  exists n, binary_search16 his x = Ok n /\ (n <= length his)%nat /\
    Forall (fun v => v < x) (take n his) /\ Forall (fun v => x <= v) (drop n his).
Proof.
  intros Hst. pose proof (strict_sorted _ Hst) as Hs.
  assert (Hsearch : exists n, search_loop (S (length his)) his x 0 (length his) = Ok n /\ (n <= length his)%nat /\
    Forall (fun v => v < x) (take n his) /\ Forall (fun v => x <= v) (drop n his)).
  { destruct (search_loop_spec (S (length his)) his x 0 (length his)) as (n & Hn & Hle & Hlo & Hhi); [lia|lia|done|lia| |].
    - intros p v Hp Hv%lookup_lt_Some. lia.
    - exists n. split_and!; [done..| |]; apply Forall_lookup; intros i v Hv.
      + apply lookup_take_Some in Hv as [Hv Hi]. eauto.
      + rewrite lookup_drop in Hv. apply (Hhi (n + i)%nat); [lia|done]. }
  unfold binary_search16. destruct (Nat.ltb_spec 0 (length his)) as [Hpos|]; [|done].
  destruct (lookup_lt_is_Some_2 his (length his - 1)) as [v Hv]; [lia|]. unfold idx. rewrite Hv, !bind_Ok.
  destruct (Z.ltb_spec v x) as [Hvx|]; [|done]. exists (length his). split_and!; [done..| |by rewrite drop_all].
  rewrite take_ge by done. apply Forall_lookup. intros i w Hw. pose proof (lookup_lt_Some _ _ _ Hw).
  destruct (decide (i = length his - 1)%nat) as [->|]; [congruence|].
  assert (w <= v) by (apply (sorted_lookup Z.le his Hs i (length his - 1)); [lia|done..]). lia.
Qed.

(** *** Operations on one bucket *)

Lemma his_at_spec b l n hi : rep32 b l ->
  his_at b n hi = Ok (match l !! n with Some e => e.1 =? hi | None => false end).
Proof.
  intros [H1 _]. unfold his_at, idx. rewrite H1, length_fmap, list_lookup_fmap. destruct (l !! n) as [e|] eqn:E.
  - apply lookup_lt_Some in E. destruct (Nat.ltb_spec n (length l)); [reflexivity|lia].
  - apply lookup_ge_None in E. destruct (Nat.ltb_spec n (length l)); [lia|reflexivity].
Qed.

Lemma with_bucket_spec {R} b l1 e l2 (f : Bucket16 -> run (Bucket16 * R)) z r :
  rep32 b (l1 ++ e :: l2) -> f e.2 = Ok (z, r) ->
  exists b', with_bucket b (length l1) f = Ok (b', r) /\ b32_hi b' = b32_hi b /\ rep32 b' (l1 ++ (e.1, z) :: l2).
Proof.
  intros [H1 H2] Hf. unfold with_bucket, idx, set_idx. rewrite H2, fmap_app, fmap_cons.
  replace (length l1) with (length l1.*2) by apply length_fmap. rewrite list_lookup_middle, bind_Ok, Hf by done.
  cbn [mbind res_bind]. rewrite decide_True by (rewrite length_app; cbn; lia). rewrite insert_app_r_alt, Nat.sub_diag by lia.
  eexists. split; [done|]. split; [done|]. split; cbn; [by rewrite H1, !fmap_app|by rewrite fmap_app].
Qed.

Lemma ok32_update l1 e z l2 : ok32 (l1 ++ e :: l2) -> wf16 z -> ok32 (l1 ++ (e.1, z) :: l2).
Proof.
  unfold ok32. rewrite !fmap_app, !fmap_cons, !Forall_app, !Forall_cons. cbn. naive_solver.
Qed.

Lemma ok32_insert l1 hi z l2 : ok32 (l1 ++ l2) -> is_u16 hi -> wf16 z ->
  Forall (fun e => e.1 < hi) l1 -> Forall (fun e => hi < e.1) l2 -> ok32 (l1 ++ (hi, z) :: l2).
Proof.
  unfold ok32. rewrite !fmap_app, !fmap_cons, !Forall_app, !Forall_cons. intros [Hs [H1 H2]] Hhi Hz Hl Hr.
  split; [|by split_and!]. apply StronglySorted_app in Hs as (Hx & Hs1 & Hs2). apply StronglySorted_app.
  rewrite Forall_forall in Hl, Hr. split_and!; [|done|constructor; [done|]].
  - intros x y Hx1 [->|Hy]%elem_of_cons; [|by apply Hx]. apply list_elem_of_fmap in Hx1 as (e & -> & He). by apply Hl.
  - apply Forall_fmap, Forall_forall. intros e He. by apply Hr.
Qed.

(** Where the bucket of a key is. *)
Lemma locate b hi : wf32 b ->
  exists n, binary_search16 (b32_b16his b) hi = Ok n /\
    ((exists l1 e l2, ent32 b = l1 ++ e :: l2 /\ length l1 = n /\ e.1 = hi /\ his_at b n hi = Ok true) \/
     (exists l1 l2, ent32 b = l1 ++ l2 /\ length l1 = n /\ his_at b n hi = Ok false /\
        Forall (fun e => e.1 < hi) l1 /\ Forall (fun e => hi < e.1) l2)).
Proof.
  intros (Hhi & Hrep & Hs & Hok). destruct (binary_search16_spec (ent32 b).*1 hi Hs) as (n & Hn & Hle & Hlo & Hhi').
  exists n. pose proof Hrep as [-> _]. split; [done|]. rewrite (his_at_spec b (ent32 b)) by done.
  rewrite length_fmap in Hle. rewrite <-fmap_take, Forall_fmap in Hlo. rewrite <-fmap_drop, Forall_fmap in Hhi'.
  destruct (ent32 b !! n) as [e|] eqn:He.
  - pose proof (take_drop_middle _ _ _ He) as Hsplit. assert (Hlen : length (take n (ent32 b)) = n) by (rewrite length_take; lia).
    destruct (Z.eqb_spec e.1 hi) as [E|E].
    + left. exists (take n (ent32 b)), e, (drop (S n) (ent32 b)). by rewrite Hsplit.
    + right. exists (take n (ent32 b)), (drop n (ent32 b)). rewrite take_drop. split_and!; [done..|].
      rewrite (drop_S _ _ _ He) in Hhi' |- *. inversion_clear Hhi' as [|? ? Hge Hge']. cbn in Hge.
      rewrite <-Hsplit in Hs. apply strict_keys_distinct in Hs as [_ Hd]. constructor; [lia|]. revert Hd. apply Forall_weaken. intros. lia.
  - right. apply lookup_ge_None in He. exists (ent32 b), []. rewrite app_nil_r. split_and!; [done|lia|done| |constructor].
    by rewrite take_ge in Hlo by lia.
Qed.

(** The effect of an operation that finds or creates the bucket [hi] and adds
    [lo] to it. *)
Definition adds32 (b : Bucket32) (v0 : Z) (m : run (Bucket32 * bool)) : Prop :=
  exists b', m = Ok (b', negb (bool_decide (v0 ∈ b32_items b))) /\ wf32 b' /\ b32_hi b' = b32_hi b /\
    forall v, v ∈ b32_items b' <-> v = v0 \/ v ∈ b32_items b.

Definition dels32 (b : Bucket32) (v0 : Z) (m : run (Bucket32 * bool)) : Prop :=
  exists b', m = Ok (b', bool_decide (v0 ∈ b32_items b)) /\ wf32 b' /\ b32_hi b' = b32_hi b /\
    forall v, v ∈ b32_items b' <-> v <> v0 /\ v ∈ b32_items b.

Lemma item_of_bucket b l1 e l2 lo : wf32 b -> ent32 b = l1 ++ e :: l2 -> is_u16 lo ->
  e.1 * 2 ^ 16 + lo ∈ b32_items b <-> lo ∈ b16_items e.2.
Proof.
  intros (_ & _ & Hok) He Hlo. unfold b32_items. rewrite He in Hok |- *. pose proof (ok32_entries _ Hok) as Hent.
  destruct Hok as [Hs _]. pose proof (strict_keys_distinct _ _ _ Hs) as [Hl _].
  destruct (proj1 (split_value (2 ^ 16) ltac:(lia) (e.1 * 2 ^ 16 + lo) e.1 lo Hlo) eq_refl) as [Hd Hm].
  rewrite (focus_elem (2 ^ 16) b16_items wf16); [by rewrite Hm|done|exact b16_range|done|by apply strict_keys_later| |done].
  revert Hl. apply Forall_weaken. intros. lia.
Qed.

Lemma add_at b l1 e l2 lo : wf32 b -> ent32 b = l1 ++ e :: l2 -> is_u16 lo ->
  adds32 b (e.1 * 2 ^ 16 + lo) (with_bucket b (length l1) (fun b16 => b16_add b16 lo)).
Proof.
  intros Hwf He Hlo. pose proof Hwf as (Hhi & Hrep & Hok). rewrite He in Hrep, Hok.
  assert (Hz : wf16 e.2). { destruct Hok as [_ Hok]. rewrite Forall_app, Forall_cons in Hok. apply Hok. }
  destruct (b16_add_spec e.2 lo Hz Hlo) as (z & Hadd & Hwz & Hin).
  destruct (with_bucket_spec b l1 e l2 (fun b16 => b16_add b16 lo) _ _ Hrep Hadd) as (b' & Hw & Hhi' & Hrep').
  destruct (build32 b' _ ltac:(by rewrite Hhi') Hrep' (ok32_update _ _ _ _ Hok Hwz)) as [Hwf' Hitems].
  exists b'. rewrite Hw. split_and!; [|done..|].
  - do 3 f_equal. apply bool_decide_ext. symmetry. by eapply item_of_bucket.
  - intros v. rewrite Hitems. unfold b32_items. rewrite He. pose proof (strict_keys_distinct _ _ _ (proj1 Hok)) as [Hl _].
    apply (focus_add (2 ^ 16) b16_items wf16); [done|exact b16_range|by apply ok32_entries|apply strict_keys_later, Hok| |done..].
    revert Hl. apply Forall_weaken. intros. lia.
Qed.

Lemma del_at b l1 e l2 lo : wf32 b -> ent32 b = l1 ++ e :: l2 -> is_u16 lo ->
  dels32 b (e.1 * 2 ^ 16 + lo) (with_bucket b (length l1) (fun b16 => b16_del b16 lo)).
Proof.
  intros Hwf He Hlo. pose proof Hwf as (Hhi & Hrep & Hok). rewrite He in Hrep, Hok.
  assert (Hz : wf16 e.2). { destruct Hok as [_ Hok]. rewrite Forall_app, Forall_cons in Hok. apply Hok. }
  destruct (b16_del_spec e.2 lo Hz Hlo) as (z & Hdel & Hwz & Hin).
  destruct (with_bucket_spec b l1 e l2 (fun b16 => b16_del b16 lo) _ _ Hrep Hdel) as (b' & Hw & Hhi' & Hrep').
  destruct (build32 b' _ ltac:(by rewrite Hhi') Hrep' (ok32_update _ _ _ _ Hok Hwz)) as [Hwf' Hitems].
  exists b'. rewrite Hw. split_and!; [|done..|].
  - do 2 f_equal. apply bool_decide_ext. symmetry. by eapply item_of_bucket.
  - intros v. rewrite Hitems. unfold b32_items. rewrite He. pose proof (strict_keys_distinct _ _ _ (proj1 Hok)) as [Hl _].
    apply (focus_del (2 ^ 16) b16_items wf16); [done|exact b16_range|by apply ok32_entries|apply strict_keys_later, Hok| |done..].
    revert Hl. apply Forall_weaken. intros. lia.
Qed.

(** *** The operations of a bucket *)

Lemma set_hint_wf b h : wf32 b -> wf32 (set_hint b h) /\ b32_items (set_hint b h) = b32_items b /\ ent32 (set_hint b h) = ent32 b.
Proof. done. Qed.

(** The bucket with a new, empty entry. *)
Lemma add_bucket_at_pos_spec b hi l1 l2 : wf32 b -> is_u16 hi -> ent32 b = l1 ++ l2 ->
  Forall (fun e => e.1 < hi) l1 -> Forall (fun e => hi < e.1) l2 ->
  exists b', add_bucket_at_pos b hi (length l1) = Ok (b', length l1) /\ wf32 b' /\ b32_hi b' = b32_hi b /\
    ent32 b' = l1 ++ (hi, b16_default) :: l2 /\ forall v, v ∈ b32_items b' <-> v ∈ b32_items b.
Proof.
  intros (Hhi & Hrep & Hok) Hu He H1 H2. rewrite He in Hrep, Hok. destruct Hrep as [Hr1 Hr2].
  assert (Hex : exists b', add_bucket_at_pos b hi (length l1) = Ok (b', length l1) /\ b32_hi b' = b32_hi b /\
    rep32 b' (l1 ++ (hi, b16_default) :: l2)).
  { unfold add_bucket_at_pos, vec_insert. rewrite Hr1, Hr2, !length_fmap, length_app.
    destruct (Nat.leb_spec (length l1 + length l2) (length l1)) as [Hl|Hl].
    - destruct l2; [|cbn in Hl; lia]. eexists. cbn [length]. rewrite app_nil_r, Nat.add_0_r. split; [done|]. split; [done|].
      split; cbn; by rewrite fmap_app.
    - rewrite !assert_true by (apply Nat.leb_le; lia). cbn [mbind res_bind]. eexists. split; [done|]. split; [done|].
      split; cbn; rewrite !fmap_app; rewrite take_app_length', drop_app_length' by (by rewrite length_fmap); done. }
  destruct Hex as (b' & Hb' & Hhi' & Hrep'). exists b'. split; [done|].
  destruct (build32 b' _ ltac:(by rewrite Hhi') Hrep') as [Hwf' Hitems]; [by apply ok32_insert; try apply b16_default_ok|].
  split_and!; [done..|by apply rep32_ent|]. intros v. rewrite Hitems. unfold b32_items. rewrite He, elem_middle.
  unfold entry_items. cbn [fst snd]. rewrite b16_default_items. cbn. rewrite elem_of_nil. naive_solver.
Qed.

Lemma adds32_eq b b1 v0 m : (forall v, v ∈ b32_items b1 <-> v ∈ b32_items b) -> b32_hi b1 = b32_hi b ->
  adds32 b1 v0 m -> adds32 b v0 m.
Proof.
  intros Heq Hhi (b' & -> & Hwf & Hhi' & Hin). exists b'. split_and!; [|done|congruence|].
  - do 3 f_equal. by apply bool_decide_ext.
  - intros v. by rewrite Hin, Heq.
Qed.

Lemma with_bucket_if_at b l1 e l2 f : wf32 b -> ent32 b = l1 ++ e :: l2 ->
  with_bucket_if b (length l1) f = with_bucket b (length l1) f.
Proof.
  intros (_ & [_ Hr] & _) He. unfold with_bucket_if. rewrite Hr, He, length_fmap, length_app. cbn [length].
  by destruct (Nat.ltb_spec (length l1) (length l1 + S (length l2))); [|lia].
Qed.

Lemma add_slow_spec b hi lo : wf32 b -> is_u16 hi -> is_u16 lo -> adds32 b (hi * 2 ^ 16 + lo) (add_slow b hi lo).
Proof.
  intros Hwf Hhi Hlo. unfold add_slow.
  destruct (locate b hi Hwf) as (n & -> & [(l1 & e & l2 & He & Hn & <- & Hat)|(l1 & l2 & He & Hn & Hat & H1 & H2)]);
    rewrite bind_Ok, Hat, bind_Ok; cbn [negb].
  - subst n. rewrite (with_bucket_if_at _ l1 e l2); [|by apply set_hint_wf|done].
    by apply (add_at (set_hint b _) l1 e l2 lo).
  - subst n. destruct (add_bucket_at_pos_spec b hi l1 l2 Hwf Hhi He H1 H2) as (b1 & -> & Hwf1 & Hhi1 & He1 & Hin1).
    cbn [mbind res_bind]. apply (adds32_eq b b1); [done..|].
    destruct (add_at b1 l1 _ l2 lo Hwf1 He1 Hlo) as (b2 & Hw & Hwf2 & Hhi2 & Hin2). cbn [fst] in *. rewrite Hw. cbn [mbind res_bind].
    exists b2. split_and!; [|done..]. do 2 f_equal. rewrite bool_decide_eq_false_2; [done|].
    pose proof (item_of_bucket b1 l1 (hi, b16_default) l2 lo Hwf1 He1 Hlo) as Hi. cbn [fst snd] in Hi. rewrite Hi, b16_default_items.
    apply not_elem_of_nil.
Qed.

(** The bucket that the hint names, when its key is the wanted one. *)
Lemma his_at_hit b n hi : wf32 b -> his_at b n hi = Ok true ->
  exists l1 e l2, ent32 b = l1 ++ e :: l2 /\ length l1 = n /\ e.1 = hi.
Proof.
  intros (_ & Hrep & _). rewrite (his_at_spec b (ent32 b)) by done. destruct (ent32 b !! n) as [e|] eqn:He; [|done].
  intros [= E%Z.eqb_eq]. exists (take n (ent32 b)), e, (drop (S n) (ent32 b)). split; [by rewrite take_drop_middle|].
  split; [|done]. apply lookup_lt_Some in He. rewrite length_take. lia.
Qed.

Lemma his_at_total b n hi : wf32 b -> exists r, his_at b n hi = Ok r.
Proof. intros (_ & Hrep & _). eexists. by apply his_at_spec. Qed.

Lemma add_hinted_spec b hi lo : wf32 b -> is_u16 hi -> is_u16 lo -> adds32 b (hi * 2 ^ 16 + lo) (add_hinted b hi lo).
Proof.
  intros Hwf Hhi Hlo. unfold add_hinted. set (n := Z.to_nat (b32_hint b)).
  destruct (his_at_total b n hi Hwf) as ([] & Hat); rewrite Hat, bind_Ok; [|by apply add_slow_spec].
  destruct (his_at_hit b n hi Hwf Hat) as (l1 & e & l2 & He & <- & <-).
  rewrite (with_bucket_if_at _ l1 e l2) by done. by eapply add_at.
Qed.

Lemma split_u32 x : is_u32 x -> is_u16 (as_u16 (Z.shiftr x 16)) /\ is_u16 (as_u16 x) /\
  as_u16 (Z.shiftr x 16) = x / 2 ^ 16 /\ as_u16 x = x mod 2 ^ 16 /\ as_u16 (Z.shiftr x 16) * 2 ^ 16 + as_u16 x = x.
Proof.
  intros [H1 H2]. rewrite shiftr_div by lia. assert (is_u16 (x / 2 ^ 16)) by (split; dlia).
  rewrite (wrap_u_id 16 (x / 2 ^ 16)) by done. split_and!; [done|by apply wrap_u_range|done|done|].
  unfold wrap_u. pose proof (Z.div_mod x (2 ^ 16)). lia.
Qed.

Lemma b32_add_spec b x : wf32 b -> is_u32 x -> adds32 b x (b32_add b x).
Proof.
  intros Hwf Hx. destruct (split_u32 x Hx) as (Hhi & Hlo & _ & _ & Heq). rewrite <-Heq at 1. by apply add_hinted_spec.
Qed.

Lemma absent32 b x l1 l2 : wf32 b -> ent32 b = l1 ++ l2 -> Forall (fun e => e.1 < x / 2 ^ 16) l1 ->
  Forall (fun e => x / 2 ^ 16 < e.1) l2 -> x ∉ b32_items b.
Proof.
  intros (_ & _ & Hok) He H1 H2. unfold b32_items. apply (keyed_absent (2 ^ 16) b16_items wf16 ltac:(lia) b16_range).
  - by apply ok32_entries.
  - rewrite He. apply Forall_app. split; [revert H1|revert H2]; apply Forall_weaken; intros; lia.
Qed.

Lemma b32_has_spec b x : wf32 b -> is_u32 x -> b32_has b x = Ok (bool_decide (x ∈ b32_items b)).
Proof.
  intros Hwf Hx. destruct (split_u32 x Hx) as (Hhi & Hlo & Hdiv & _ & Heq). unfold b32_has.
  destruct (locate b (as_u16 (Z.shiftr x 16)) Hwf)
    as (n & -> & [(l1 & e & l2 & He & Hn & Hk & Hat)|(l1 & l2 & He & Hn & Hat & H1 & H2)]);
    rewrite bind_Ok, Hat, bind_Ok; cbn [negb].
  - subst n. pose proof Hwf as (_ & [_ Hr] & Hok). rewrite Hr, He, length_fmap, length_app. cbn [length].
    destruct (Nat.ltb_spec (length l1) (length l1 + S (length l2))); [|lia].
    unfold idx. rewrite list_lookup_fmap, list_lookup_middle by done. change (snd <$> Some e) with (Some e.2).
    cbn [mbind res_bind]. rewrite b16_has_spec; [|..|done].
    + f_equal. apply bool_decide_ext. rewrite <-(item_of_bucket b l1 e l2) by done. by rewrite Hk, Heq.
    + destruct Hok as [_ Hok]. rewrite He, Forall_app, Forall_cons in Hok. apply Hok.
  - rewrite bool_decide_eq_false_2; [done|]. rewrite Hdiv in H1, H2. by eapply absent32.
Qed.

Lemma b32_del_spec b x : wf32 b -> is_u32 x -> dels32 b x (b32_del b x).
Proof.
  intros Hwf Hx. destruct (split_u32 x Hx) as (Hhi & Hlo & Hdiv & _ & Heq). unfold b32_del.
  set (n0 := Z.to_nat (b32_hint b)). destruct (his_at_total b n0 (as_u16 (Z.shiftr x 16)) Hwf) as ([] & Hat0); rewrite Hat0, bind_Ok.
  { destruct (his_at_hit b n0 _ Hwf Hat0) as (l1 & e & l2 & He & <- & Hk).
    rewrite (with_bucket_if_at _ l1 e l2) by done. rewrite <-Heq at 1. rewrite <-Hk. by apply (del_at b l1 e l2). }
  unfold del_slow. destruct (locate b (as_u16 (Z.shiftr x 16)) Hwf)
    as (n & -> & [(l1 & e & l2 & He & Hn & Hk & Hat)|(l1 & l2 & He & Hn & Hat & H1 & H2)]);
    rewrite bind_Ok, Hat, bind_Ok; cbn [negb].
  - subst n. rewrite (with_bucket_if_at _ l1 e l2); [|by apply set_hint_wf|done].
    rewrite <-Heq at 1. rewrite <-Hk. by apply (del_at (set_hint b _) l1 e l2).
  - rewrite Hdiv in H1, H2. pose proof (absent32 b x l1 l2 Hwf He H1 H2) as Hno. exists b.
    rewrite bool_decide_eq_false_2 by done. split_and!; [done..|]. intros v. destruct (decide (v = x)); naive_solver.
Qed.

(** *** Iteration and counting *)

Lemma length_keyed_sum {B} W (items : B -> list Z) l :
  length (keyed_items W items l) = sum_list (map (fun e => length (items e.2)) l).
Proof.
  unfold keyed_items, entry_items. induction l as [|e l IH]; cbn; [done|]. by rewrite length_app, length_map, IH.
Qed.

Lemma foldl_sum {A} (f g : A -> nat) l : Forall (fun x => f x = g x) l -> forall n,
  foldl (fun n x => (n + f x)%nat) n l = (n + sum_list (map g l))%nat.
Proof. induction 1 as [|x l Hx _ IH]; intros n; cbn; [lia|]. rewrite IH. lia. Qed.

Lemma wf32_b16 b : wf32 b -> Forall (fun e => is_u16 e.1 /\ wf16 e.2) (ent32 b).
Proof. by intros (_ & _ & _ & H). Qed.

Lemma b32_get_len_spec b : wf32 b -> b32_get_len b = length (b32_items b).
Proof.
  intros Hwf. unfold b32_get_len, b32_items. rewrite length_keyed_sum. pose proof Hwf as (_ & [_ ->] & _).
  rewrite (foldl_sum _ (fun b16 => length (b16_items b16))).
  - change (?f <$> ?l) with (map f l). by rewrite map_map.
  - apply Forall_fmap. pose proof (wf32_b16 b Hwf) as H. revert H. apply Forall_weaken. intros e [_ He]. cbn. by apply b16_get_len_spec.
Qed.

(** The slices that [for_each] passes to its closure. *)
Definition part32 (hi : Z) (e : Z * Bucket16) : list Z := map (fun v => hi * 2 ^ 32 + e.1 * 2 ^ 16 + v) (b16_items e.2).
Definition parts32 (b : Bucket32) : list (list Z) := map (part32 (b32_hi b)) (ent32 b).

Lemma concat_parts32 b : concat (parts32 b) = map (fun v => b32_hi b * 2 ^ 32 + v) (b32_items b).
Proof.
  unfold parts32, b32_items, keyed_items, part32, entry_items. induction (ent32 b) as [|e l IH]; [done|].
  cbn [map concat]. rewrite map_app, IH. f_equal. rewrite map_map. apply map_ext. intros. lia.
Qed.

Lemma b32_append_loop_spec b : forall l2 l1 dst, wf32 b -> ent32 b = l1 ++ l2 ->
  b32_append_loop b (length l1) l2.*2 dst = Ok (dst ++ concat (map (part32 (b32_hi b)) l2)).
Proof.
  induction l2 as [|e l2 IH]; intros l1 dst Hwf He; cbn; [by rewrite app_nil_r|].
  pose proof Hwf as (Hhi & [Hr _] & _). pose proof (wf32_b16 b Hwf) as Hok.
  rewrite He, Forall_app, Forall_cons in Hok. destruct Hok as (_ & [Hk Hz] & _).
  unfold idx. rewrite Hr, He, list_lookup_fmap, list_lookup_middle by done. cbn [fmap option_fmap option_map mbind res_bind].
  rewrite b16_append_spec by done. specialize (IH (l1 ++ [e]) (dst ++ part32 (b32_hi b) e) Hwf).
  rewrite length_app, Nat.add_1_r in IH. etransitivity; [apply IH; by rewrite <-app_assoc|]. by rewrite <-app_assoc.
Qed.

Lemma b32_append_spec b dst : wf32 b ->
  b32_append_to b dst = Ok (dst ++ map (fun v => b32_hi b * 2 ^ 32 + v) (b32_items b)).
Proof.
  intros Hwf. unfold b32_append_to. pose proof Hwf as (_ & [_ ->] & _).
  rewrite (b32_append_loop_spec b (ent32 b) []) by done. by rewrite <-concat_parts32.
Qed.

(** The closure applied to a list of slices until it answers [false]. *)
Fixpoint run_parts {St} (f : St -> list Z -> run (St * bool)) (st : St) (parts : list (list Z)) : run (St * bool) :=
  match parts with
  | [] => Ok (st, true)
  | part :: parts => '(st, more) ← f st part; if negb more then Ok (st, false) else run_parts f st parts
  end.

Lemma b32_for_each_loop_spec {St} (f : St -> list Z -> run (St * bool)) b : forall l2 l1 st, wf32 b -> ent32 b = l1 ++ l2 ->
  b32_for_each_loop f b (length l1) l2.*2 st = run_parts f st (map (part32 (b32_hi b)) l2).
Proof.
  induction l2 as [|e l2 IH]; intros l1 st Hwf He; cbn; [done|].
  pose proof Hwf as (Hhi & [Hr _] & _). pose proof (wf32_b16 b Hwf) as Hok.
  rewrite He, Forall_app, Forall_cons in Hok. destruct Hok as (_ & [Hk Hz] & _).
  unfold idx. rewrite Hr, He, list_lookup_fmap, list_lookup_middle by done. cbn [fmap option_fmap option_map mbind res_bind].
  rewrite b16_append_spec by done. change ([] ++ ?x) with x. fold (part32 (b32_hi b) e).
  rewrite bind_Ok. destruct (f st (part32 (b32_hi b) e)) as [[st' []]| |]; cbn [negb mbind res_bind]; try done.
  specialize (IH (l1 ++ [e]) st' Hwf). rewrite length_app, Nat.add_1_r in IH. apply IH. by rewrite <-app_assoc.
Qed.

Lemma b32_for_each_spec {St} (f : St -> list Z -> run (St * bool)) b st : wf32 b ->
  b32_for_each f b st = run_parts f st (parts32 b).
Proof.
  intros Hwf. unfold b32_for_each. pose proof Hwf as (_ & [_ ->] & _). by apply (b32_for_each_loop_spec f b (ent32 b) []).
Qed.

(** *** Adding many items *)

Lemma add_runs_spec {T} (Q : Z -> Prop) (hi_of : Z -> Z) (flush : T -> Z -> list Z -> run T) (P : T -> list Z -> Prop) :
  (forall s d hi part, P s d -> part <> [] -> Forall Q part -> Forall (fun x => hi_of x = hi) part ->
     exists s', flush s hi part = Ok s' /\ P s' (d ++ part)) ->
  forall rest a s d part hi_prev i j, a = d ++ part ++ rest -> i = length d -> j = (i + length part)%nat ->
    P s d -> Forall Q (part ++ rest) -> part ++ rest <> [] ->
    (part = [] -> match rest with [] => False | x :: _ => hi_of x = hi_prev end) ->
    Forall (fun x => hi_of x = hi_prev) part ->
    exists s', add_runs hi_of flush a rest s hi_prev i j = Ok s' /\ P s' a.
Proof.
  intros Hflush. induction rest as [|x rest IH]; intros a s d part hi_prev i j Ha Hi Hj HP HQ Hne Hstart Hpart; cbn [add_runs].
  - rewrite app_nil_r in Ha, Hne, HQ. subst a. rewrite (slice_from_ok d part i), bind_Ok by done. by apply Hflush.
  - destruct (Z.eqb_spec (hi_of x) hi_prev) as [E|E].
    + apply (IH a s d (part ++ [x]) hi_prev i (S j)); [by rewrite Ha, <-!app_assoc|done| |done|by rewrite <-app_assoc| | |].
      * rewrite length_app. cbn. lia.
      * by destruct part.
      * by destruct part.
      * apply Forall_app. split; [done|]. by constructor.
    + assert (Hp : part <> []). { intros ->. by apply E, Hstart. }
      assert (Hslice : slice_to (E := Empty_set) a j = Ok (d ++ part)).
      { unfold slice_to. rewrite Ha, app_assoc. rewrite decide_True by (rewrite !length_app; lia).
        f_equal. apply take_app_length'. rewrite length_app. lia. }
      rewrite Hslice, bind_Ok. rewrite (slice_from_ok d part i) by done. rewrite bind_Ok. apply Forall_app in HQ as [HQ1 HQ2].
      destruct (Hflush s d hi_prev part HP Hp HQ1 Hpart) as (s' & -> & HP'). rewrite bind_Ok.
      apply (IH a s' (d ++ part) [x] (hi_of x) j (S j)); [by rewrite Ha, <-!app_assoc| | |done|done|done|done|by constructor].
      * rewrite length_app. lia.
      * cbn. lia.
Qed.

Lemma get_or_create_bucket16_spec b hi : wf32 b -> is_u16 hi ->
  exists b' l1 e l2, get_or_create_bucket16 b hi = Ok (b', length l1) /\ wf32 b' /\ b32_hi b' = b32_hi b /\
    ent32 b' = l1 ++ e :: l2 /\ e.1 = hi /\ forall v, v ∈ b32_items b' <-> v ∈ b32_items b.
Proof.
  intros Hwf Hhi. unfold get_or_create_bucket16.
  destruct (locate b hi Hwf) as (n & -> & [(l1 & e & l2 & He & Hn & Hk & Hat)|(l1 & l2 & He & Hn & Hat & H1 & H2)]);
    rewrite bind_Ok, Hat, bind_Ok; cbn [negb]; subst n.
  - exists b, l1, e, l2. by split_and!.
  - destruct (add_bucket_at_pos_spec b hi l1 l2 Hwf Hhi He H1 H2) as (b' & -> & Hwf' & Hhi' & He' & Hin).
    exists b', l1, (hi, b16_default), l2. by split_and!.
Qed.

Lemma wf32_NoDup b : wf32 b -> NoDup (b32_items b).
Proof.
  intros (_ & _ & Hok). apply (keyed_items_NoDup (2 ^ 16) b16_items wf16); [lia|exact b16_range|exact b16_items_strict|by apply ok32_entries|].
  apply strict_keys_later, Hok.
Qed.

Lemma same_items_length (l l' : list Z) : NoDup l -> NoDup l' -> (forall v, v ∈ l' <-> v ∈ l) -> length l' = length l.
Proof. intros. by apply Permutation_length, NoDup_Permutation. Qed.

Lemma as_u32_split x : as_u32 x = as_u16 (Z.shiftr x 16) * 2 ^ 16 + as_u16 x.
Proof. rewrite shiftr_div by lia. unfold wrap_u. change (2 ^ 32) with (2 ^ 16 * 2 ^ 16). dlia. Qed.

(** One run of [add_multi]: the bucket gets the low halves of the items. *)
Lemma flush32 b hi part : wf32 b -> is_u16 hi -> Forall (fun x => as_u16 (Z.shiftr x 16) = hi) part ->
  exists b' b2 pos c, get_or_create_bucket16 b hi = Ok (b2, pos) /\
    with_bucket b2 pos (fun b16 => b16_add_multi b16 part) = Ok (b', c) /\ wf32 b' /\ b32_hi b' = b32_hi b /\
    (c + length (b32_items b) = length (b32_items b'))%nat /\
    forall v, v ∈ b32_items b' <-> v ∈ map as_u32 part \/ v ∈ b32_items b.
Proof.
  intros Hwf Hhi Hpart. destruct (get_or_create_bucket16_spec b hi Hwf Hhi) as (b2 & l1 & e & l2 & Hget & Hwf2 & Hhi2 & He & Hk & Hin2).
  pose proof Hwf2 as (Hu & Hrep & Hok). rewrite He in Hrep, Hok.
  assert (Hz : wf16 e.2). { destruct Hok as [_ Hok]. rewrite Forall_app, Forall_cons in Hok. apply Hok. }
  destruct (b16_add_multi_spec e.2 part Hz) as (z & c & Hadd & Hwz & Hc & Hinz).
  destruct (with_bucket_spec b2 l1 e l2 (fun b16 => b16_add_multi b16 part) _ _ Hrep Hadd) as (b' & Hw & Hhi' & Hrep').
  destruct (build32 b' _ ltac:(by rewrite Hhi') Hrep' (ok32_update _ _ _ _ Hok Hwz)) as [Hwf' Hitems].
  exists b', b2, (length l1), c. split_and!; [done..|congruence| |].
  - rewrite <-(same_items_length (b32_items b) (b32_items b2)) by (done || by apply wf32_NoDup).
    rewrite Hitems. unfold b32_items at 1. rewrite He, !length_keyed_sum.
    rewrite !map_app. cbn [map snd]. rewrite !sum_list_with_app. cbn. lia.
  - intros v. rewrite Hitems, <-Hin2. unfold b32_items. rewrite He.
    rewrite (focus_add_many (2 ^ 16) b16_items wf16 ltac:(lia) b16_range (fun y => y ∈ map as_u16 part)); [|by apply ok32_entries|apply strict_keys_later, Hok| |done..].
    + f_equiv. change (map ?f ?l) with (f <$> l). rewrite !list_elem_of_fmap. rewrite Forall_forall in Hpart. split.
      * intros [Hd (x & Hm & Hx)]. exists x. split; [|done]. rewrite as_u32_split, (Hpart x Hx), <-Hk, <-Hd, <-Hm.
        pose proof (Z.div_mod v (2 ^ 16)). lia.
      * intros (x & -> & Hx). rewrite as_u32_split, (Hpart x Hx), <-Hk.
        pose proof (wrap_u_range 16 x ltac:(lia)) as Hr. destruct (proj1 (split_value (2 ^ 16) ltac:(lia) _ e.1 _ Hr) eq_refl) as [-> ->]. eauto.
    + pose proof (strict_keys_distinct _ _ _ (proj1 Hok)) as [Hl _]. revert Hl. apply Forall_weaken. intros. lia.
Qed.

Lemma b32_add_multi_spec b a : wf32 b ->
  exists b' c, b32_add_multi b a = Ok (b', c) /\ wf32 b' /\ b32_hi b' = b32_hi b /\
    (c + length (b32_items b) = length (b32_items b'))%nat /\
    forall v, v ∈ b32_items b' <-> v ∈ map as_u32 a \/ v ∈ b32_items b.
Proof.
  intros Hwf. destruct a as [|a0 a'].
  { exists b, O. split_and!; [done..|]. intros v. cbn. rewrite elem_of_nil. naive_solver. }
  unfold b32_add_multi. set (a := a0 :: a').
  set (P := fun (s : Bucket32 * nat) d => wf32 s.1 /\ b32_hi s.1 = b32_hi b /\
    (s.2 + length (b32_items b) = length (b32_items s.1))%nat /\
    forall v, v ∈ b32_items s.1 <-> v ∈ map as_u32 d \/ v ∈ b32_items b).
  match goal with |- context [add_runs ?h ?f a a ?s ?p 0 0] =>
    destruct (fun H => add_runs_spec (fun _ => True) h f P H a a s [] [] p 0 0 eq_refl eq_refl eq_refl) as (s' & -> & HP) end;
    [|..|by apply Forall_true|done|done|done|].
  - intros [s count] d hi part (Hw & Hh & Hc & Hin) Hne _ Hpart.
    assert (Hhi : is_u16 hi). { destruct Hpart as [|x l <- _]; [done|]. by apply wrap_u_range. }
    destruct (flush32 s hi part Hw Hhi Hpart) as (b' & b2 & pos & c & -> & H2 & Hwf' & Hh' & Hc' & Hin'). cbn [mbind res_bind].
    rewrite H2. cbn [mbind res_bind]. eexists. split; [done|]. cbn in *. split_and!; [done|cbn; congruence|cbn; lia|].
    intros v. cbn. rewrite Hin', Hin, map_app, elem_of_app. naive_solver.
  - split_and!; [done..|]. intros v. cbn. rewrite elem_of_nil. naive_solver.
  - destruct s' as [b' c]. exists b', c. split; [done|]. apply HP.
Qed.

(** *** Union and intersection of two buckets *)

Lemma groups_strict {B} (l : list (Z * B)) : strictZ l.*1 <->
  sorted_by_key fst l /\ forall k, (length (group fst k l) <= 1)%nat.
Proof.
  split.
  - intros Hs. split; [by apply strict_keys_sorted|]. intros k. induction l as [|e l IH]; [cbn; lia|].
    cbn in Hs. inversion_clear Hs as [|? ? Hs' Hf]. rewrite group_cons. case_decide as E; [|by apply IH].
    cbn [length]. rewrite group_nil; [cbn; lia|]. rewrite Forall_fmap in Hf. revert Hf. apply Forall_weaken. cbn. intros. lia.
  - intros [Hs Hg]. induction Hs as [|e l Hs IH Hf]; [constructor|]. cbn. constructor.
    + apply IH. intros k. specialize (Hg k). rewrite group_cons in Hg. case_decide; cbn [length] in Hg; lia.
    + apply Forall_fmap, Forall_forall. intros e' He'. rewrite Forall_forall in Hf. specialize (Hf e' He'). cbn in Hf |- *.
      assert (e.1 <> e'.1); [|lia]. intros E. specialize (Hg e.1). rewrite group_cons, decide_True in Hg by done.
      assert (Hin : e' ∈ group fst e.1 l) by (apply list_elem_of_filter; split; [congruence|done]).
      destruct (group fst e.1 l); [by apply elem_of_nil in Hin|cbn in Hg; lia].
Qed.

Lemma zip_groups_length {B} (cp : B -> B) mgr l m g : zip_groups cp mgr l m g -> length g = Nat.max (length l) (length m).
Proof. induction 1; cbn; [by rewrite length_fmap|lia|lia]. Qed.

(** Laws of the accesses of the loops to a [Bucket32]. *)
Definition inv32 (hi : Z) (b : Bucket32) : Prop := b32_hi b = hi /\ rep32 b (ent32 b).

Lemma key32 hi b i e : inv32 hi b -> ent32 b !! i = Some e -> idx (E := Empty_set) (b32_b16his b) i = Ok e.1.
Proof. intros [_ [H _]] He. unfold idx. by rewrite H, list_lookup_fmap, He. Qed.

Lemma push32 hi a b j e : inv32 (b32_hi a) a -> inv32 hi b -> ent32 a !! j = Some e ->
  exists b', b32_push a b j = Ok b' /\ inv32 hi b' /\ ent32 b' = ent32 b ++ [copy_entry (fun x => x) e].
Proof.
  intros [_ [Ha1 Ha2]] [Hhi [Hb1 Hb2]] He. unfold b32_push, idx. rewrite Ha1, Ha2, !list_lookup_fmap, He. cbn.
  eexists. split; [done|]. assert (Hrep : rep32 (mkBucket32 (b32_hi b) (b32_hint b) (b32_b16his b ++ [e.1]) (b32_buckets b ++ [e.2]))
    (ent32 b ++ [copy_entry (fun x => x) e])) by (split; cbn; rewrite fmap_app; cbn; congruence).
  pose proof (rep32_ent _ _ Hrep) as E. split; [|done]. split; [done|]. by rewrite E.
Qed.

Lemma insert32 hi b i e z : inv32 hi b -> ent32 b !! i = Some e ->
  exists b', (buckets ← set_idx (b32_buckets b) i z; Ok (mkBucket32 (b32_hi b) (b32_hint b) (b32_b16his b) buckets)) = Ok b' :> run Bucket32 /\
    inv32 hi b' /\ ent32 b' = <[i := (e.1, z)]> (ent32 b).
Proof.
  intros [Hhi [Hb1 Hb2]] He. unfold set_idx. pose proof (lookup_lt_Some _ _ _ He).
  rewrite decide_True by (rewrite Hb2, length_fmap; done). cbn [mbind res_bind]. eexists. split; [done|].
  assert (Hrep : rep32 (mkBucket32 (b32_hi b) (b32_hint b) (b32_b16his b) (<[i := z]> (b32_buckets b))) (<[i := (e.1, z)]> (ent32 b))).
  { split; cbn; rewrite list_fmap_insert; cbn; [|congruence]. rewrite Hb1 at 1. symmetry. apply list_insert_id.
    by rewrite list_lookup_fmap, He. }
  pose proof (rep32_ent _ _ Hrep) as E. split; [|done]. split; [done|]. by rewrite E.
Qed.

Lemma merge32 f hi a b i j e e' z : inv32 (b32_hi a) a -> inv32 hi b -> ent32 b !! i = Some e -> ent32 a !! j = Some e' ->
  f e.2 e'.2 = Ok z -> exists b', b32_merge f a b i j = Ok b' /\ inv32 hi b' /\ ent32 b' = <[i := (e.1, z)]> (ent32 b).
Proof.
  intros [_ [Ha1 Ha2]] Hb He He' Hf. destruct (insert32 hi b i e z Hb He) as (b' & Hi & H). exists b'. split; [|done].
  rewrite <-Hi. destruct Hb as [_ [Hb1 Hb2]]. unfold b32_merge.
  assert (Hx : idx (E := Empty_set) (b32_buckets b) i = Ok e.2) by (unfold idx; by rewrite Hb2, list_lookup_fmap, He).
  assert (Hy : idx (E := Empty_set) (b32_buckets a) j = Ok e'.2) by (unfold idx; by rewrite Ha2, list_lookup_fmap, He').
  by rewrite Hx, bind_Ok, Hy, bind_Ok, Hf.
Qed.

Lemma is_sorted_spec l : is_sorted l = true <-> sortedZ l.
Proof.
  unfold is_sorted. rewrite <-Is_true_true, chain_b_sorted by (intros x y z; rewrite !Is_true_true, !Z.leb_le; lia).
  split; apply StronglySorted_ind; try constructor; try done.
  all: match goal with H : Forall _ _ |- _ => revert H end; apply Forall_weaken; intros y; rewrite ?Is_true_true, ?Z.leb_le; lia.
Qed.

Lemma wf32_inv b : wf32 b -> inv32 (b32_hi b) b.
Proof. by intros (_ & H & _). Qed.

Lemma wf32_forall16 b : wf32 b -> Forall (fun e => wf16 e.2) (ent32 b).
Proof. intros H. pose proof (wf32_b16 b H) as H'. revert H'. apply Forall_weaken. naive_solver. Qed.

Lemma unions16 : unions b16_items wf16 (fun x y z => b16_union x y = Ok z).
Proof.
  intros x y z Hx Hy Hz. destruct (b16_union_spec x y Hx Hy) as (z' & Hz' & Hw & Hin). rewrite Hz in Hz'. by injection Hz' as <-.
Qed.

Lemma intersects16 : intersects b16_items wf16 (fun x y z => b16_intersect x y = Ok z).
Proof.
  intros x y z Hx Hy Hz. destruct (b16_intersect_spec x y Hx Hy) as (z' & Hz' & Hw & Hin). rewrite Hz in Hz'. by injection Hz' as <-.
Qed.

(** The entries of the union, in any order, with their keys sorted. *)
Lemma union_entries l m l' p es : ok32 l -> ok32 m -> umerge (fun x => x) (fun x y z => b16_union x y = Ok z) l m l' p ->
  es ≡ₚ l' ++ p -> sorted_by_key fst es ->
  ok32 es /\ forall v, v ∈ keyed_items (2 ^ 16) b16_items es <->
    v ∈ keyed_items (2 ^ 16) b16_items l \/ v ∈ keyed_items (2 ^ 16) b16_items m.
Proof.
  intros Hl Hm Hu Hperm Hs. pose proof (ok32_entries l Hl) as El. pose proof (ok32_entries m Hm) as Em. split; [split|].
  - apply groups_strict. split; [done|]. intros k. destruct Hl as [Hl _], Hm as [Hm _].
    apply groups_strict in Hl as [Hsl Hgl]. apply groups_strict in Hm as [Hsm Hgm].
    pose proof (zip_groups_length _ _ _ _ _ (umerge_group (fun x => x) _ k _ _ _ _ Hu Hsl Hsm)) as Hlen.
    assert (length (group fst k es) = length (group fst k (l' ++ p))) as ->.
    { apply Permutation_length. unfold group. by rewrite Hperm. }
    specialize (Hgl k). specialize (Hgm k). lia.
  - rewrite Hperm. pose proof (umerge_ok b16_items wf16 (fun x => x) _ ltac:(done) _ _ _ _ unions16 Hu El Em) as Hok.
    apply Forall_forall. intros e He. rewrite Forall_forall in Hok. split; [|apply Hok, He].
    assert (Hkeys : Forall (fun e => is_u16 e.1) (l' ++ p)); [|rewrite Forall_forall in Hkeys; auto].
    clear - Hl Hm Hu. destruct Hl as [_ Hl], Hm as [_ Hm].
    induction Hu as [m|l|x l y m l' p Hlt Hu IH|x l y m l' p Hgt Hu IH|x l y m z l' p He Hz Hu IH].
    + apply Forall_fmap. revert Hm. apply Forall_weaken. naive_solver.
    + rewrite app_nil_r. revert Hl. apply Forall_weaken. naive_solver.
    + inversion_clear Hl. cbn. constructor; naive_solver.
    + inversion_clear Hm. rewrite Forall_app in IH |- *. rewrite Forall_cons. cbn. naive_solver.
    + inversion_clear Hl. inversion_clear Hm. cbn. constructor; naive_solver.
  - intros v. rewrite (keyed_items_perm (2 ^ 16) b16_items _ _ Hperm).
    by apply (umerge_items (2 ^ 16) b16_items wf16 ltac:(lia) b16_range (fun x => x) _ ltac:(done) _ _ _ _ unions16 Hu).
Qed.

Lemma b32_union_spec b a : wf32 b -> wf32 a ->
  exists b', b32_union b a = Ok b' /\ wf32 b' /\ b32_hi b' = b32_hi b /\
    forall v, v ∈ b32_items b' <-> v ∈ b32_items b \/ v ∈ b32_items a.
Proof.
  intros Hb Ha. unfold b32_union. pose proof Hb as (Hhi & [Hb1 Hb2] & Hokb). pose proof Ha as (_ & [Ha1 _] & Hoka).
  assert (length (b32_b16his a) = length (ent32 a)) as -> by (by rewrite Ha1, length_fmap).
  assert (length (b32_buckets b) = length (ent32 b)) as -> by (by rewrite Hb2, length_fmap).
  destruct (union_loop_spec wf16 (fun x => x) (fun x y z => b16_union x y = Ok z) (length (ent32 b))
    (fun b i => idx (b32_b16his b) i) (fun j => idx (b32_b16his a) j) (b32_push a) (b32_merge b16_union a)
    (inv32 (b32_hi b)) ent32 (ent32 a)) with (fuel := S (length (ent32 b) + length (ent32 a))) (s := b) (i := O) (j := O)
    (pre := @nil (Z * Bucket16)) (l := ent32 b) (q := @nil (Z * Bucket16)) as (b1 & l' & p & -> & [Hhi1 Hrep1] & Hu & He1).
  - intros s i e. apply key32.
  - intros j e. apply (key32 (b32_hi a)). by apply wf32_inv.
  - intros s j e. apply push32. by apply wf32_inv.
  - intros s i j e e' Hs Hi Hj Hwe Hwe'. destruct (b16_union_spec e.2 e'.2 Hwe Hwe') as (z & Hz & _).
    destruct (merge32 b16_union (b32_hi b) a s i j e e' z (wf32_inv a Ha) Hs Hi Hj Hz) as (s' & ? & ? & ?). by exists s', z.
  - by apply wf32_inv.
  - by rewrite app_nil_r.
  - done.
  - done.
  - by apply wf32_forall16.
  - by apply wf32_forall16.
  - rewrite drop_0. lia.
  - rewrite drop_0 in Hu. cbn [app] in He1. rewrite bind_Ok. destruct Hrep1 as [Hr1 Hr2].
    destruct (is_sorted (b32_b16his b1)) eqn:Hsort.
    + apply is_sorted_spec in Hsort. rewrite Hr1 in Hsort. eexists. split; [done|].
      destruct (union_entries _ _ _ _ (ent32 b1) Hokb Hoka Hu) as [Hok Hin]; [by rewrite He1| |].
      { clear - Hsort. unfold sorted_by_key. induction (ent32 b1) as [|e l IH]; [constructor|]. cbn in Hsort.
        inversion_clear Hsort as [|? ? H1 H2]. constructor; [auto|]. by rewrite Forall_fmap in H2. }
      split; [|split; [done|done]]. split; [by rewrite Hhi1|]. done.
    + eexists. split; [done|]. assert (Hz : zip (b32_b16his b1) (b32_buckets b1) = l' ++ p) by done. rewrite Hz.
      destruct (union_entries _ _ _ _ (sort_by_key fst (l' ++ p)) Hokb Hoka Hu) as [Hok Hin];
        [apply sort_by_key_perm|apply sort_by_key_sorted|].
      destruct (build32 (mkBucket32 (b32_hi b1) (b32_hint b1) (sort_by_key fst (l' ++ p)).*1 (sort_by_key fst (l' ++ p)).*2)
        (sort_by_key fst (l' ++ p))) as [Hwf Hitems]; [cbn; by rewrite Hhi1|done|done|].
      split; [done|]. split; [done|]. intros v. rewrite Hitems. apply Hin.
Qed.

Definition clr16 (e : Z * Bucket16) : Z * Bucket16 := (e.1, b16_default).

Lemma clears16 : clears b16_items wf16 clr16.
Proof. intros e. split_and!; [apply b16_default_ok|done|by left]. Qed.

Lemma imerge_keys mgr l m r : imerge mgr clr16 l m r -> r.*1 = l.*1.
Proof.
  induction 1; cbn; [done| |by f_equal|done|by f_equal]. rewrite <-list_fmap_compose. done.
Qed.

Lemma clear32 hi b i e : inv32 hi b -> ent32 b !! i = Some e ->
  exists b', b32_clear b i = Ok b' /\ inv32 hi b' /\ ent32 b' = <[i := clr16 e]> (ent32 b).
Proof. apply insert32. Qed.

Lemma ok32_filter (P : Z * Bucket16 -> Prop) `{!forall e, Decision (P e)} l : ok32 l -> ok32 (filter P l).
Proof.
  intros [Hs Hok]. split.
  - clear Hok. induction l as [|e l IH]; [done|]. cbn in Hs. inversion_clear Hs as [|? ? Hs' Hf].
    rewrite filter_cons. case_decide; [|auto]. cbn. constructor; [auto|]. rewrite Forall_fmap in Hf |- *.
    apply Forall_forall. intros e' [_ He']%list_elem_of_filter. rewrite Forall_forall in Hf. by apply Hf.
  - apply Forall_forall. intros e [_ He]%list_elem_of_filter. rewrite Forall_forall in Hok. auto.
Qed.

Lemma keyed_items_filter l : forall v,
  v ∈ keyed_items (2 ^ 16) b16_items (filter (fun p => b16_is_zero p.2 = false) l) <-> v ∈ keyed_items (2 ^ 16) b16_items l.
Proof.
  unfold keyed_items. induction l as [|e l IH]; intros v; [done|]. rewrite filter_cons. case_decide as E; cbn.
  - rewrite !elem_of_app. by rewrite IH.
  - rewrite elem_of_app, IH. unfold entry_items. rewrite b16_is_zero_items by (by destruct (b16_is_zero e.2)).
    cbn. rewrite elem_of_nil. naive_solver.
Qed.

Lemma intersect_entries l m r : ok32 l -> ok32 m -> imerge (fun x y z => b16_intersect x y = Ok z) clr16 l m r ->
  ok32 r /\ forall v, v ∈ keyed_items (2 ^ 16) b16_items r <->
    v ∈ keyed_items (2 ^ 16) b16_items l /\ v ∈ keyed_items (2 ^ 16) b16_items m.
Proof.
  intros Hl Hm Hi. pose proof (ok32_entries l Hl) as El. pose proof (ok32_entries m Hm) as Em.
  pose proof (imerge_keys _ _ _ _ Hi) as Hk. split; [split|].
  - rewrite Hk. apply Hl.
  - pose proof (imerge_ok b16_items wf16 _ clr16 _ _ _ clears16 intersects16 Hi El Em) as Hok.
    apply Forall_forall. intros e He. rewrite Forall_forall in Hok. split; [|apply Hok, He].
    assert (Hin : e.1 ∈ l.*1) by (rewrite <-Hk; by apply list_elem_of_fmap_2). apply list_elem_of_fmap in Hin as (e' & -> & He').
    destruct Hl as [_ Hl]. rewrite Forall_forall in Hl. by apply Hl.
  - destruct Hl as [Hsl _], Hm as [Hsm _]. apply (imerge_items (2 ^ 16) b16_items wf16 ltac:(lia) b16_range _ clr16 _ _ _ clears16 intersects16 Hi El Em).
    all: by apply strict_keys_sorted || by apply strict_keys_later.
Qed.

Lemma b32_intersect_spec b a : wf32 b -> wf32 a ->
  exists b', b32_intersect b a = Ok b' /\ wf32 b' /\ b32_hi b' = b32_hi b /\
    forall v, v ∈ b32_items b' <-> v ∈ b32_items b /\ v ∈ b32_items a.
Proof.
  intros Hb Ha. unfold b32_intersect. pose proof Hb as (Hhi & [Hb1 Hb2] & Hokb). pose proof Ha as (_ & [Ha1 _] & Hoka).
  assert (length (b32_b16his a) = length (ent32 a)) as -> by (by rewrite Ha1, length_fmap).
  assert (length (b32_b16his b) = length (ent32 b)) as -> by (by rewrite Hb1, length_fmap).
  destruct (intersect_loop_spec wf16 (fun x y z => b16_intersect x y = Ok z) clr16 (length (ent32 b))
    (fun b i => idx (b32_b16his b) i) (fun j => idx (b32_b16his a) j) (b32_merge b16_intersect a) b32_clear
    (inv32 (b32_hi b)) ent32 (ent32 a)) with (fuel := S (length (ent32 b) + length (ent32 a))) (s := b) (i := O) (j := O)
    (pre := @nil (Z * Bucket16)) (l := ent32 b) as (b1 & r & -> & [Hhi1 Hrep1] & Hi & He1).
  - intros s i e. apply key32.
  - intros j e. apply (key32 (b32_hi a)). by apply wf32_inv.
  - intros s i e. apply clear32.
  - intros s i j e e' Hs Hi Hj Hwe Hwe'. destruct (b16_intersect_spec e.2 e'.2 Hwe Hwe') as (z & Hz & _).
    destruct (merge32 b16_intersect (b32_hi b) a s i j e e' z (wf32_inv a Ha) Hs Hi Hj Hz) as (s' & ? & ? & ?). by exists s', z.
  - by apply wf32_inv.
  - done.
  - done.
  - done.
  - by apply wf32_forall16.
  - by apply wf32_forall16.
  - rewrite drop_0. lia.
  - rewrite drop_0 in Hi. cbn [app] in He1. rewrite bind_Ok. eexists. split; [done|].
    assert (Hz : zip (b32_b16his b1) (b32_buckets b1) = r) by done. rewrite Hz.
    destruct (intersect_entries _ _ _ Hokb Hoka Hi) as [Hok Hin]. set (kept := filter _ r).
    destruct (build32 (mkBucket32 (b32_hi b1) 0 kept.*1 kept.*2) kept) as [Hwf Hitems];
      [cbn; by rewrite Hhi1|done|by apply ok32_filter|].
    split; [done|]. split; [done|]. intros v. rewrite Hitems. unfold kept. rewrite keyed_items_filter. apply Hin.
Qed.

Lemma b32_range b x : wf32 b -> x ∈ b32_items b -> 0 <= x < 2 ^ 32.
Proof.
  intros (_ & _ & Hok) Hx. unfold b32_items in Hx.
  apply (elem_keyed_items (2 ^ 16) b16_items wf16 ltac:(lia) b16_range) in Hx as (e & He & Hd & Hm); [|by apply ok32_entries].
  destruct Hok as [_ Hok]. rewrite Forall_forall in Hok. destruct (Hok e He) as [[? ?] _]. dlia.
Qed.

Lemma b32_strict b : wf32 b -> strictZ (b32_items b).
Proof.
  intros (_ & _ & Hok). apply (keyed_items_strict (2 ^ 16) b16_items wf16 ltac:(lia) b16_range b16_items_strict).
  - by apply ok32_entries.
  - apply strict_keys_later, Hok.
  - apply strict_keys_sorted, Hok.
Qed.

