(* ===== verification/Uint64SetSpec.v ===== *)
(** * Integer sets refine finite sets

    The invariant of [Uint64Set], the items of a set, and the theorems that
    every operation of [esm-common/src/uint64set.rs] implements the operation
    of finite sets it is named after. *)
From Stdlib Require Import ZArith Lia Bool.
From stdpp Require Import gmap.
From S2P Require Import Prelude IntCodec Uint64Set Uint64SetBucket Uint64SetWalk Uint64SetOps.
Local Open Scope Z_scope.

(** ** The invariant *)

(** The buckets with their keys.  [Set::intersect] leaves emptied buckets
    behind, all with the key 0: keys may repeat. *)
Definition keyed32 (l : list Bucket32) : list (Z * Bucket32) := (fun b => (b32_hi b, b)) <$> l.

Definition set_items (s : USet) : list Z := keyed_items (2 ^ 32) b32_items (keyed32 (s_buckets s)).

Record wf_buckets (l : list Bucket32) : Prop := {
  wfb_all : Forall wf32 l;
  wfb_later : later_empty b32_items (keyed32 l)
}.

Record wf_set (s : USet) : Prop := {
  wfs_buckets : wf_buckets (s_buckets s);
  wfs_count : s_items_count s = length (set_items s)
}.

Lemma keyed32_ok l : Forall wf32 l -> Forall (entry_ok wf32) (keyed32 l).
Proof. intros H. apply Forall_fmap. revert H. apply Forall_weaken. intros b Hb. split; [apply Hb|done]. Qed.

Lemma keyed32_app l1 l2 : keyed32 (l1 ++ l2) = keyed32 l1 ++ keyed32 l2.
Proof. apply fmap_app. Qed.

Lemma buckets_NoDup l : wf_buckets l -> NoDup (keyed_items (2 ^ 32) b32_items (keyed32 l)).
Proof.
  intros [H1 H2]. apply (keyed_items_NoDup (2 ^ 32) b32_items wf32 ltac:(lia) b32_range b32_strict); [by apply keyed32_ok|done].
Qed.

Lemma set_items_range s x : wf_set s -> x ∈ set_items s -> is_u64 x.
Proof.
  intros [[H1 H2] _] Hx. apply (elem_keyed_items (2 ^ 32) b32_items wf32 ltac:(lia) b32_range) in Hx as (e & He & Hd & Hm);
    [|by apply keyed32_ok].
  apply list_elem_of_fmap in He as (b & -> & Hb). cbn in *. rewrite Forall_forall in H1. destruct (H1 b Hb) as [[? ?] _].
  split; dlia.
Qed.

(** ** The bucket of a key *)

Lemma first_bucket l hi :
  Forall (fun b => b32_hi b <> hi) l \/
  exists l1 b l2, l = l1 ++ b :: l2 /\ b32_hi b = hi /\ Forall (fun b => b32_hi b <> hi) l1.
Proof.
  induction l as [|b l IH]; [by left|]. destruct (decide (b32_hi b = hi)) as [E|E].
  - right. exists [], b, l. by split_and!.
  - destruct IH as [IH|(l1 & b' & l2 & -> & Hb & Hl)]; [left; by constructor|].
    right. exists (b :: l1), b', l2. split_and!; [done..|by constructor].
Qed.

Lemma update_bucket32_none hi f l : Forall (fun b => b32_hi b <> hi) l -> update_bucket32 hi f l = Ok None.
Proof.
  induction 1 as [|b l Hb Hl IH]; [done|]. cbn. destruct (Z.eqb_spec (b32_hi b) hi); [done|]. by rewrite IH.
Qed.

Lemma update_bucket32_some f l1 b l2 b' r : Forall (fun x => b32_hi x <> b32_hi b) l1 -> f b = Ok (b', r) ->
  update_bucket32 (b32_hi b) f (l1 ++ b :: l2) = Ok (Some (l1 ++ b' :: l2, r)).
Proof.
  intros Hl Hf. induction Hl as [|x l1 Hx Hl IH]; cbn.
  - rewrite Z.eqb_refl, Hf. done.
  - destruct (Z.eqb_spec (b32_hi x) (b32_hi b)); [done|]. by rewrite IH.
Qed.

Lemma split_u64 x : is_u64 x -> is_u32 (as_u32 (Z.shiftr x 32)) /\ is_u32 (as_u32 x) /\
  as_u32 (Z.shiftr x 32) = x / 2 ^ 32 /\ as_u32 (Z.shiftr x 32) * 2 ^ 32 + as_u32 x = x.
Proof.
  intros [H1 H2]. rewrite shiftr_div by lia. assert (is_u32 (x / 2 ^ 32)) by (split; dlia).
  rewrite (wrap_u_id 32 (x / 2 ^ 32)) by done. split_and!; [done|by apply wrap_u_range|done|].
  unfold wrap_u. pose proof (Z.div_mod x (2 ^ 32)). lia.
Qed.

Lemma absent_key l x : wf_buckets l -> Forall (fun b => b32_hi b <> x / 2 ^ 32) l ->
  x ∉ keyed_items (2 ^ 32) b32_items (keyed32 l).
Proof.
  intros [H1 _] Hk. apply (keyed_absent (2 ^ 32) b32_items wf32 ltac:(lia) b32_range); [by apply keyed32_ok|].
  apply Forall_fmap. done.
Qed.

Lemma item_in_bucket l1 b l2 lo : wf_buckets (l1 ++ b :: l2) -> Forall (fun x => b32_hi x <> b32_hi b) l1 -> is_u32 lo ->
  b32_hi b * 2 ^ 32 + lo ∈ keyed_items (2 ^ 32) b32_items (keyed32 (l1 ++ b :: l2)) <-> lo ∈ b32_items b.
Proof.
  intros [H1 H2] Hk Hlo. apply keyed32_ok in H1. rewrite keyed32_app in *.
  destruct (proj1 (split_value (2 ^ 32) ltac:(lia) (b32_hi b * 2 ^ 32 + lo) (b32_hi b) lo Hlo) eq_refl) as [Hd Hm].
  rewrite (focus_elem (2 ^ 32) b32_items wf32 ltac:(lia) b32_range (keyed32 l1) (b32_hi b, b) (keyed32 l2)); [by rewrite Hm|done|done| |done].
  by apply Forall_fmap.
Qed.

Lemma has_loop_spec l x : wf_buckets l -> is_u64 x ->
  has_loop (as_u32 (Z.shiftr x 32)) (as_u32 x) l = Ok (bool_decide (x ∈ keyed_items (2 ^ 32) b32_items (keyed32 l))).
Proof.
  intros Hwf Hx. destruct (split_u64 x Hx) as (Hhi & Hlo & Hd & Heq).
  destruct (first_bucket l (as_u32 (Z.shiftr x 32))) as [Hno|(l1 & b & l2 & -> & Hb & Hl1)].
  - rewrite bool_decide_eq_false_2 by (apply absent_key; [done|by rewrite <-Hd]).
    clear - Hno. induction Hno as [|b l Hb Hl IH]; [done|]. cbn. by destruct (Z.eqb_spec (b32_hi b) (as_u32 (Z.shiftr x 32))).
  - transitivity (b32_has b (as_u32 x)).
    + clear - Hb Hl1. induction Hl1 as [|c l1 Hc Hl1 IH]; cbn.
      * by rewrite Hb, Z.eqb_refl.
      * by destruct (Z.eqb_spec (b32_hi c) (as_u32 (Z.shiftr x 32))).
    + rewrite b32_has_spec; [|..|done].
      * f_equal. apply bool_decide_ext. rewrite <-Hb in Hl1. rewrite <-(item_in_bucket l1 b l2) by done. by rewrite Hb, Heq.
      * pose proof (wfb_all _ Hwf) as H. rewrite Forall_app, Forall_cons in H. apply H.
Qed.

Lemma set_has_spec s x : wf_set s -> is_u64 x -> set_has s x = Ok (bool_decide (x ∈ set_items s)).
Proof. intros Hs. apply has_loop_spec, Hs. Qed.

(** The buckets after a change of one of them. *)
Lemma wf_buckets_update l1 b b' l2 : wf_buckets (l1 ++ b :: l2) -> Forall (fun x => b32_hi x <> b32_hi b) l1 ->
  wf32 b' -> b32_hi b' = b32_hi b -> wf_buckets (l1 ++ b' :: l2).
Proof.
  intros [H1 H2] Hk Hw Hhi. split.
  - rewrite Forall_app, Forall_cons in *. naive_solver.
  - rewrite keyed32_app in *. apply (later_empty_update b32_items _ (b32_hi b, b)); [done|by apply Forall_fmap|done].
Qed.

(** ** Adding and deleting *)

Lemma focus32 (Q : Z -> Prop) l1 b b' l2 : wf_buckets (l1 ++ b :: l2) -> Forall (fun x => b32_hi x <> b32_hi b) l1 ->
  wf32 b' -> b32_hi b' = b32_hi b -> (forall y, y ∈ b32_items b' <-> Q y) ->
  forall v, v ∈ keyed_items (2 ^ 32) b32_items (keyed32 (l1 ++ b' :: l2)) <->
    if decide (v / 2 ^ 32 = b32_hi b) then Q (v mod 2 ^ 32) else v ∈ keyed_items (2 ^ 32) b32_items (keyed32 (l1 ++ b :: l2)).
Proof.
  intros [H1 H2] Hk Hw Hhi Hin v. apply keyed32_ok in H1. rewrite !keyed32_app in *.
  change (keyed32 (b' :: l2)) with ((b32_hi b', b') :: keyed32 l2). rewrite Hhi.
  by apply (focus_change (2 ^ 32) b32_items wf32 ltac:(lia) b32_range Q (keyed32 l1) (b32_hi b, b) b' (keyed32 l2)); [..|apply Forall_fmap| |].
Qed.

Lemma elem32 l1 b l2 v : wf_buckets (l1 ++ b :: l2) -> Forall (fun x => b32_hi x <> b32_hi b) l1 -> v / 2 ^ 32 = b32_hi b ->
  v ∈ keyed_items (2 ^ 32) b32_items (keyed32 (l1 ++ b :: l2)) <-> v mod 2 ^ 32 ∈ b32_items b.
Proof.
  intros Hwf Hk Hd. rewrite <-(item_in_bucket l1 b l2) by (done || apply Z.mod_pos_bound; lia).
  rewrite <-Hd. pose proof (Z.div_mod v (2 ^ 32)). replace (v / 2 ^ 32 * 2 ^ 32 + v mod 2 ^ 32) with v by lia. done.
Qed.

Lemma split_val32 v k lo : is_u32 lo -> v = k * 2 ^ 32 + lo <-> v / 2 ^ 32 = k /\ v mod 2 ^ 32 = lo.
Proof. apply split_value. lia. Qed.

Definition adds (s : USet) (x : Z) (m : run USet) : Prop :=
  exists s', m = Ok s' /\ wf_set s' /\ forall v, v ∈ set_items s' <-> v = x \/ v ∈ set_items s.
Definition dels (s : USet) (x : Z) (m : run USet) : Prop :=
  exists s', m = Ok s' /\ wf_set s' /\ forall v, v ∈ set_items s' <-> v <> x /\ v ∈ set_items s.

Lemma count_added n (l l' : list Z) x : NoDup l -> NoDup l' -> (forall v, v ∈ l' <-> v = x \/ v ∈ l) -> n = length l ->
  (if negb (bool_decide (x ∈ l)) then S n else n) = length l'.
Proof.
  intros H1 H2 Hm ->. rewrite (length_grow l l' x) by done. by case_decide; case_bool_decide.
Qed.

(** The set after the bucket [b] was changed by an addition. *)
Lemma add_bucket_changed s l1 b b' l2 lo : wf_set s -> s_buckets s = l1 ++ b :: l2 -> Forall (fun x => b32_hi x <> b32_hi b) l1 ->
  is_u32 lo -> wf32 b' -> b32_hi b' = b32_hi b -> (forall v, v ∈ b32_items b' <-> v = lo \/ v ∈ b32_items b) ->
  adds s (b32_hi b * 2 ^ 32 + lo)
    (Ok (mkSet (if negb (bool_decide (lo ∈ b32_items b)) then S (s_items_count s) else s_items_count s) (l1 ++ b' :: l2))).
Proof.
  intros [Hwf Hc] Hs Hk Hlo Hwb Hhi Hin. unfold set_items in *. rewrite Hs in *.
  pose proof (wf_buckets_update l1 b b' l2 Hwf Hk Hwb Hhi) as Hwf'. eexists. split; [done|].
  assert (Hv : forall v, v ∈ keyed_items (2 ^ 32) b32_items (keyed32 (l1 ++ b' :: l2)) <->
    v = b32_hi b * 2 ^ 32 + lo \/ v ∈ keyed_items (2 ^ 32) b32_items (keyed32 (l1 ++ b :: l2))).
  { intros v. rewrite (focus32 _ l1 b b' l2 Hwf Hk Hwb Hhi Hin), split_val32 by done.
    case_decide; [rewrite (elem32 l1 b l2) by done|]; naive_solver. }
  split; [|intros v; unfold set_items; rewrite Hs; apply Hv]. split; [done|]. cbn [s_items_count]. unfold set_items. cbn [s_buckets].
  rewrite <-(count_added (s_items_count s) _ _ _ (buckets_NoDup _ Hwf) (buckets_NoDup _ Hwf') Hv Hc).
  erewrite (bool_decide_ext (lo ∈ _)); [reflexivity|]. symmetry. by apply item_in_bucket.
Qed.

Definition b32_new (hi : Z) : Bucket32 := mkBucket32 hi (b32_hint b32_default) (b32_b16his b32_default) (b32_buckets b32_default).

Lemma b32_new_ok hi : is_u32 hi -> wf32 (b32_new hi) /\ b32_items (b32_new hi) = [].
Proof. intros. split; [|done]. split; [done|]. split; [done|]. split; [constructor|done]. Qed.

(** The set with a new, empty bucket. *)
Lemma wf_set_new s hi : wf_set s -> is_u32 hi -> Forall (fun b => b32_hi b <> hi) (s_buckets s) ->
  let s' := mkSet (s_items_count s) (s_buckets s ++ [b32_new hi]) in
  wf_set s' /\ set_items s' = set_items s.
Proof.
  intros [[H1 H2] Hc] Hhi Hk s'. destruct (b32_new_ok hi Hhi) as [Hn Hi].
  assert (Heq : set_items s' = set_items s).
  { unfold set_items. cbn [s_buckets s']. rewrite keyed32_app, keyed_items_app. unfold keyed_items at 2, entry_items. cbn.
    by rewrite app_nil_r. }
  split; [|done]. split; [|by rewrite Heq]. split; cbn.
  - apply Forall_app. split; [done|]. by constructor.
  - rewrite keyed32_app. apply StronglySorted_app. split_and!; [|done|repeat constructor].
    intros x y _ ->%list_elem_of_singleton _. done.
Qed.

Lemma set_add_spec s x : wf_set s -> is_u64 x -> adds s x (set_add s x).
Proof.
  intros Hwf Hx. destruct (split_u64 x Hx) as (Hhi & Hlo & Hd & Heq). set (hi := as_u32 (Z.shiftr x 32)) in *.
  assert (Hslow : adds s x (o ← update_bucket32 hi (fun b32 => b32_add b32 (as_u32 x)) (s_buckets s);
    match o with
    | Some (buckets, added) => Ok (mkSet (if added : bool then S (s_items_count s) else s_items_count s) buckets)
    | None => '(b32, _) ← b32_add (b32_new hi) (as_u32 x); Ok (mkSet (S (s_items_count s)) (s_buckets s ++ [b32]))
    end)).
  { destruct (first_bucket (s_buckets s) hi) as [Hno|(l1 & b & l2 & Hs & Hb & Hl1)].
    - rewrite update_bucket32_none, bind_Ok by done. destruct (wf_set_new s hi Hwf Hhi Hno) as [Hwf' Hitems].
      destruct (b32_new_ok hi Hhi) as [Hwn Hn].
      destruct (b32_add_spec (b32_new hi) (as_u32 x) Hwn Hlo) as (b' & -> & Hwb & Hhi' & Hin). cbn [mbind res_bind].
      destruct (add_bucket_changed _ (s_buckets s) (b32_new hi) b' [] (as_u32 x) Hwf' eq_refl Hno Hlo Hwb Hhi' Hin) as (s' & Hs' & Hw & Hm).
      rewrite Hn, bool_decide_eq_false_2 in Hs' by apply not_elem_of_nil. exists s'. split; [exact Hs'|]. split; [done|].
      intros v. rewrite Hm, Hitems. change (b32_hi (b32_new hi)) with hi. by rewrite Heq.
    - assert (Hwb : wf32 b). { pose proof (wfb_all _ (wfs_buckets s Hwf)) as H. rewrite Hs, Forall_app, Forall_cons in H. apply H. }
      destruct (b32_add_spec b (as_u32 x) Hwb Hlo) as (b' & Hadd & Hwb' & Hhi' & Hin).
      rewrite Hs, <-Hb. rewrite <-Hb in Hl1. erewrite update_bucket32_some by done. rewrite bind_Ok.
      rewrite <-Heq at 1. rewrite <-Hb. by apply add_bucket_changed. }
  unfold set_add. fold hi. destruct (s_buckets s) as [|first l] eqn:Hs; [exact Hslow|].
  destruct (Z.eqb_spec (b32_hi first) hi) as [E|E]; [|exact Hslow].
  change (add_hinted first (as_u16 (Z.shiftr (as_u32 x) 16)) (as_u16 (as_u32 x))) with (b32_add first (as_u32 x)).
  cbn in Hslow. rewrite E, Z.eqb_refl in Hslow. destruct (b32_add first (as_u32 x)) as [[first' added]| |]; exact Hslow.
Qed.

Lemma count_deleted n (l l' : list Z) x : NoDup l -> NoDup l' -> (forall v, v ∈ l' <-> v <> x /\ v ∈ l) -> n = length l ->
  count_del n (bool_decide (x ∈ l)) = Ok (length l').
Proof.
  intros H1 H2 Hm ->. pose proof (length_shrink l l' x H1 H2 Hm) as Hl. unfold count_del. case_bool_decide as E; case_decide; try done.
  - rewrite assert_true by (apply Nat.leb_le; lia). cbn. f_equal. lia.
  - by rewrite Hl.
Qed.

Lemma del_bucket_changed s l1 b b' l2 lo : wf_set s -> s_buckets s = l1 ++ b :: l2 -> Forall (fun x => b32_hi x <> b32_hi b) l1 ->
  is_u32 lo -> wf32 b' -> b32_hi b' = b32_hi b -> (forall v, v ∈ b32_items b' <-> v <> lo /\ v ∈ b32_items b) ->
  dels s (b32_hi b * 2 ^ 32 + lo)
    (n ← count_del (s_items_count s) (bool_decide (lo ∈ b32_items b)); Ok (mkSet n (l1 ++ b' :: l2))).
Proof.
  intros [Hwf Hc] Hs Hk Hlo Hwb Hhi Hin. unfold set_items in *. rewrite Hs in *.
  pose proof (wf_buckets_update l1 b b' l2 Hwf Hk Hwb Hhi) as Hwf'.
  assert (Hv : forall v, v ∈ keyed_items (2 ^ 32) b32_items (keyed32 (l1 ++ b' :: l2)) <->
    v <> b32_hi b * 2 ^ 32 + lo /\ v ∈ keyed_items (2 ^ 32) b32_items (keyed32 (l1 ++ b :: l2))).
  { intros v. rewrite (focus32 _ l1 b b' l2 Hwf Hk Hwb Hhi Hin), split_val32 by done.
    case_decide; [rewrite (elem32 l1 b l2) by done|]; naive_solver. }
  pose proof (count_deleted _ _ _ _ (buckets_NoDup _ Hwf) (buckets_NoDup _ Hwf') Hv Hc) as Hn.
  erewrite (bool_decide_ext (lo ∈ _)) by (symmetry; by apply item_in_bucket). rewrite Hn, bind_Ok.
  eexists. split; [done|]. split; [by split|]. intros v. unfold set_items. rewrite Hs. apply Hv.
Qed.

Lemma set_del_spec s x : wf_set s -> is_u64 x -> dels s x (set_del s x).
Proof.
  intros Hwf Hx. destruct (split_u64 x Hx) as (Hhi & Hlo & Hd & Heq). set (hi := as_u32 (Z.shiftr x 32)) in *.
  assert (Hslow : dels s x (o ← update_bucket32 hi (fun b32 => b32_del b32 (as_u32 x)) (s_buckets s);
    match o with
    | Some (buckets, deleted) => n ← count_del (s_items_count s) deleted; Ok (mkSet n buckets)
    | None => Ok s
    end)).
  { destruct (first_bucket (s_buckets s) hi) as [Hno|(l1 & b & l2 & Hs & Hb & Hl1)].
    - rewrite update_bucket32_none, bind_Ok by done. exists s. split_and!; [done..|].
      assert (x ∉ set_items s) by (apply absent_key; [apply Hwf|by rewrite <-Hd]). intros v. destruct (decide (v = x)); naive_solver.
    - assert (Hwb : wf32 b). { pose proof (wfb_all _ (wfs_buckets s Hwf)) as H. rewrite Hs, Forall_app, Forall_cons in H. apply H. }
      destruct (b32_del_spec b (as_u32 x) Hwb Hlo) as (b' & Hdel & Hwb' & Hhi' & Hin).
      rewrite Hs, <-Hb. rewrite <-Hb in Hl1. erewrite update_bucket32_some by done. rewrite bind_Ok.
      rewrite <-Heq at 1. rewrite <-Hb. by apply del_bucket_changed. }
  unfold set_del. fold hi. destruct (s_buckets s) as [|first l] eqn:Hs; [exact Hslow|].
  destruct (Z.eqb_spec (b32_hi first) hi) as [E|E]; [|exact Hslow].
  cbn in Hslow. rewrite E, Z.eqb_refl in Hslow. destruct (b32_del first (as_u32 x)) as [[first' del]| |]; exact Hslow.
Qed.

Lemma position_first l hi :
  match position (map b32_hi l) hi with
  | Some pos => exists l1 b l2, l = l1 ++ b :: l2 /\ pos = length l1 /\ b32_hi b = hi /\ Forall (fun x => b32_hi x <> b32_hi b) l1
  | None => Forall (fun b => b32_hi b <> hi) l
  end.
Proof.
  induction l as [|b l IH]; cbn; [constructor|]. destruct (Z.eqb_spec (b32_hi b) hi) as [E|E].
  - exists [], b, l. by split_and!.
  - destruct (position (map b32_hi l) hi) as [pos|]; cbn; [|by constructor].
    destruct IH as (l1 & b' & l2 & -> & -> & Hb & Hl). exists (b :: l1), b', l2. split_and!; [done..|].
    constructor; [congruence|done].
Qed.

(** One run of [add_multi]. *)
Lemma flush_set s hi part : wf_set s -> is_u32 hi -> Forall is_u64 part -> Forall (fun x => as_u32 (Z.shiftr x 32) = hi) part ->
  exists s', (let '(s, pos) := get_or_create_bucket32 s hi in
              b32 ← idx (s_buckets s) pos;
              '(b32, count) ← b32_add_multi b32 part;
              buckets ← set_idx (s_buckets s) pos b32;
              Ok (mkSet (s_items_count s + count) buckets)) = Ok s' :> run USet /\
    wf_set s' /\ forall v, v ∈ set_items s' <-> v ∈ part \/ v ∈ set_items s.
Proof.
  intros Hwf Hhi Hu Hpart.
  assert (Hget : exists s1 l1 b l2, get_or_create_bucket32 s hi = (s1, length l1) /\ wf_set s1 /\ set_items s1 = set_items s /\
    s_buckets s1 = l1 ++ b :: l2 /\ b32_hi b = hi /\ Forall (fun x => b32_hi x <> b32_hi b) l1).
  { unfold get_or_create_bucket32. pose proof (position_first (s_buckets s) hi) as Hp.
    destruct (position (map b32_hi (s_buckets s)) hi) as [pos|].
    - destruct Hp as (l1 & b & l2 & Hs & -> & Hb & Hl). exists s, l1, b, l2. by split_and!.
    - destruct (wf_set_new s hi Hwf Hhi Hp) as [Hwf' Hitems].
      exists (mkSet (s_items_count s) (s_buckets s ++ [b32_new hi])), (s_buckets s), (b32_new hi), []. by split_and!. }
  destruct Hget as (s1 & l1 & b & l2 & -> & [Hwf1 Hc1] & Hitems & Hs & Hb & Hl1). unfold idx. rewrite Hs, list_lookup_middle, bind_Ok by done.
  rewrite Hs in Hwf1. assert (Hwb : wf32 b). { pose proof (wfb_all _ Hwf1) as H. rewrite Forall_app, Forall_cons in H. apply H. }
  destruct (b32_add_multi_spec b part Hwb) as (b' & c & -> & Hwb' & Hhi' & Hc & Hin). cbn [mbind res_bind]. unfold set_idx.
  rewrite decide_True by (rewrite length_app; cbn; lia). rewrite insert_app_r_alt, Nat.sub_diag, bind_Ok by lia. cbn [list_insert insert].
  pose proof (wf_buckets_update l1 b b' l2 Hwf1 Hl1 Hwb' Hhi') as Hwf'. eexists. split; [done|]. split; [split; [done|]|].
  - cbn [s_items_count]. rewrite Hc1. unfold set_items. rewrite Hs. cbn [s_buckets]. rewrite !length_keyed_sum, !keyed32_app, !map_app, !sum_list_with_app.
    cbn. lia.
  - intros v. rewrite <-Hitems. unfold set_items. rewrite Hs. cbn [s_buckets].
    rewrite (focus32 _ l1 b b' l2 Hwf1 Hl1 Hwb' Hhi' Hin). rewrite Forall_forall in Hu, Hpart. case_decide as E.
    + rewrite (elem32 l1 b l2) by done. f_equiv. change (map as_u32 part) with (as_u32 <$> part). rewrite list_elem_of_fmap. split; [intros (x & Hm & Hx)|intros Hv].
      * destruct (split_u64 x (Hu x Hx)) as (_ & _ & Hdx & Heqx). rewrite (Hpart x Hx), <-Hb, <-E, <-Hm in Heqx.
        pose proof (Z.div_mod v (2 ^ 32)). replace v with x; [done|lia].
      * exists v. done.
    + assert (v ∉ part); [|naive_solver]. intros Hv. apply E. destruct (split_u64 v (Hu v Hv)) as (_ & _ & <- & _). by rewrite Hpart.
Qed.

Lemma set_add_multi_spec s a : wf_set s -> Forall is_u64 a ->
  exists s', set_add_multi s a = Ok s' /\ wf_set s' /\ forall v, v ∈ set_items s' <-> v ∈ a \/ v ∈ set_items s.
Proof.
  intros Hwf Hu. destruct a as [|a0 a'].
  { exists s. split_and!; [done..|]. intros v. rewrite elem_of_nil. naive_solver. }
  unfold set_add_multi. set (a := a0 :: a') in *.
  set (P := fun (s' : USet) (d : list Z) => wf_set s' /\ forall v, v ∈ set_items s' <-> v ∈ d \/ v ∈ set_items s).
  match goal with |- context [add_runs ?h ?f a a ?s ?p 0 0] =>
    destruct (fun H => add_runs_spec is_u64 h f P H a a s [] [] p 0 0 eq_refl eq_refl eq_refl) as (s' & -> & HP) end;
    [|..|done|done|done|done|].
  - intros s1 d hi part [Hw Hin] Hne Hup Hpart.
    assert (Hhi : is_u32 hi). { destruct Hpart as [|x l <- _]; [done|]. by apply wrap_u_range. }
    destruct (flush_set s1 hi part Hw Hhi Hup Hpart) as (s2 & Hs2 & Hwf2 & Hin2). exists s2. split; [done|]. split; [done|].
    intros v. rewrite Hin2, Hin, elem_of_app. naive_solver.
  - split; [done|]. intros v. rewrite elem_of_nil. naive_solver.
  - exists s'. split; [done|]. apply HP.
Qed.

(** ** Sorting, copying and counting *)

Lemma map_sort_by_key {A B} (k1 : A -> Z) (k2 : B -> Z) (f : A -> B) l : (forall x, k1 x = k2 (f x)) ->
  map f (sort_by_key k1 l) = sort_by_key k2 (map f l).
Proof.
  intros Hk. unfold sort_by_key, sort_by. induction l as [|x l IH]; [done|]. cbn [foldr map]. rewrite <-IH.
  generalize (foldr (insert_by (fun x y => k1 x <=? k1 y)) [] l). intros r. induction r as [|y r IHr]; [done|]. cbn. rewrite <-!Hk.
  destruct (_ <=? _); [done|]. cbn. by rewrite IHr.
Qed.

Lemma keyed32_sort l : keyed32 (sort_by_key b32_hi l) = sort_by_key fst (keyed32 l).
Proof. by apply map_sort_by_key. Qed.

Lemma keyed32_perm l l' : l ≡ₚ l' -> keyed32 l ≡ₚ keyed32 l'.
Proof. intros H. unfold keyed32. by rewrite H. Qed.

Lemma set_sort_spec s : wf_set s -> wf_set (set_sort s) /\ (forall v, v ∈ set_items (set_sort s) <-> v ∈ set_items s) /\
  sorted_by_key fst (keyed32 (s_buckets (set_sort s))).
Proof.
  intros [[H1 H2] Hc]. unfold set_sort. destruct (is_sorted _) eqn:E.
  - split; [done|]. split; [done|]. apply is_sorted_spec in E. clear - E. unfold sorted_by_key, keyed32.
    induction (s_buckets s) as [|b l IH]; [constructor|]. cbn in E |- *. inversion_clear E as [|? ? E' Hf]. constructor; [auto|].
    apply Forall_fmap. change (map b32_hi l) with (b32_hi <$> l) in Hf. by rewrite Forall_fmap in Hf.
  - pose proof (keyed_items_perm (2 ^ 32) b32_items _ _ (keyed32_perm _ _ (sort_by_key_perm b32_hi (s_buckets s)))) as Hp.
    split; [|split].
    + split; [split|].
      * cbn. by rewrite sort_by_key_perm.
      * cbn. rewrite keyed32_sort. by apply later_empty_sort.
      * unfold set_items. cbn. by rewrite Hp.
    + intros v. unfold set_items. cbn. by rewrite Hp.
    + cbn. rewrite keyed32_sort. apply sort_by_key_sorted.
Qed.

Lemma append_buckets_spec l : forall dst, Forall wf32 l ->
  append_buckets l dst = Ok (dst ++ keyed_items (2 ^ 32) b32_items (keyed32 l)).
Proof.
  induction l as [|b l IH]; intros dst Hl; cbn [append_buckets]; [by rewrite app_nil_r|]. inversion_clear Hl.
  rewrite b32_append_spec, bind_Ok, IH by done. unfold keyed_items. cbn. by rewrite <-app_assoc.
Qed.

(** The items in increasing order; the set stays the same set. *)
Lemma set_append_to_spec s dst : wf_set s ->
  exists s' l, set_append_to s dst = Ok (s', dst ++ l) /\ wf_set s' /\ strictZ l /\
    (forall v, v ∈ l <-> v ∈ set_items s) /\ (forall v, v ∈ set_items s' <-> v ∈ set_items s).
Proof.
  intros Hwf. destruct (set_sort_spec s Hwf) as (Hwf' & Hin & Hs). unfold set_append_to.
  pose proof Hwf' as [[H1 H2] _]. rewrite append_buckets_spec, bind_Ok by done.
  eexists _, _. split; [done|]. split; [done|]. split; [|split; [exact Hin|exact Hin]].
  by apply (keyed_items_strict (2 ^ 32) b32_items wf32 ltac:(lia) b32_range b32_strict); [apply keyed32_ok|..].
Qed.

Definition set_parts (s : USet) : list (list Z) := concat (map parts32 (s_buckets s)).

Lemma concat_set_parts s : concat (set_parts s) = set_items s.
Proof.
  unfold set_parts, set_items, keyed_items, keyed32. induction (s_buckets s) as [|b l IH]; [done|].
  cbn [map concat fmap list_fmap]. rewrite concat_app, IH, concat_parts32. done.
Qed.

Lemma run_parts_app {St} (f : St -> list Z -> run (St * bool)) ps1 ps2 : forall st,
  run_parts f st (ps1 ++ ps2) =
    ('(st, more) ← run_parts f st ps1; if negb more then Ok (st, false) else run_parts f st ps2).
Proof.
  induction ps1 as [|p ps1 IH]; intros st; [by cbn; destruct (run_parts f st ps2) as [[? []]| |]|].
  cbn. destruct (f st p) as [[st' []]| |]; cbn; [|done..]. apply IH.
Qed.

Lemma set_for_each_spec {St} (f : St -> list Z -> run (St * bool)) s st : wf_set s ->
  set_for_each f s st = ('(st, _) ← run_parts f st (set_parts s); Ok st).
Proof.
  intros [[H1 _] _]. unfold set_for_each, set_parts. revert st. induction H1 as [|b l Hb Hl IH]; intros st; [done|].
  cbn [for_each_loop map concat]. rewrite b32_for_each_spec, run_parts_app by done.
  destruct (run_parts f st (parts32 b)) as [[st' []]| |]; cbn [mbind res_bind negb]; [apply IH|done..].
Qed.

Lemma b32_clone_ok b : wf32 b -> wf32 (b32_clone b).
Proof. done. Qed.

Lemma set_clone_spec s : wf_set s -> wf_set (set_clone s) /\ forall v, v ∈ set_items (set_clone s) <-> v ∈ set_items s.
Proof.
  intros [[H1 H2] Hc]. unfold set_clone. destruct (Nat.eqb_spec (s_items_count s) 0) as [E|E].
  - split; [by repeat constructor|]. rewrite E in Hc. symmetry in Hc. apply nil_length_inv in Hc. by rewrite Hc.
  - assert (He : set_items (mkSet (s_items_count s) (map b32_clone (s_buckets s))) = set_items s).
    { unfold set_items, keyed_items, keyed32. cbn. f_equal. clear. induction (s_buckets s) as [|b l IH]; [done|]. cbn. f_equal. exact IH. }
    split; [|by rewrite He]. split; [split|by rewrite He].
    + apply Forall_map. revert H1. apply Forall_weaken. apply b32_clone_ok.
    + clear - H2. cbn. unfold later_empty, keyed32 in *. induction (s_buckets s) as [|b l IH]; [constructor|]. cbn in H2 |- *.
      inversion_clear H2 as [|? ? Hs Hf]. constructor; [auto|]. change (map ?f ?x) with (f <$> x). rewrite !Forall_fmap in *.
      revert Hf. apply Forall_weaken. done.
Qed.

Lemma fix_items_count_spec s : wf_buckets (s_buckets s) -> wf_set (fix_items_count s) /\ set_items (fix_items_count s) = set_items s.
Proof.
  intros Hwf. split; [|done]. split; [done|]. unfold fix_items_count, set_items. cbn [s_items_count s_buckets]. rewrite length_keyed_sum.
  rewrite (foldl_sum _ (fun b => length (b32_items b))).
  - cbn [Nat.add]. unfold keyed32. change (?f <$> ?l) with (map f l). by rewrite map_map.
  - pose proof (wfb_all _ Hwf) as H. revert H. apply Forall_weaken. apply b32_get_len_spec.
Qed.

Lemma set_is_empty_spec s : wf_set s -> set_is_empty s = true <-> set_items s = [].
Proof.
  intros [_ Hc]. unfold set_is_empty. rewrite Nat.eqb_eq, Hc. split; [apply nil_length_inv|by intros ->].
Qed.

(** *** The buckets of the argument in the order of their keys *)

Lemma seq_lookup (l : list Bucket32) : map (fun k => default b32_default (l !! k)) (seq 0 (length l)) = l.
Proof.
  apply list_eq. intros i. change (map ?f ?x) with (f <$> x). rewrite list_lookup_fmap. destruct (l !! i) as [b|] eqn:E.
  - pose proof (lookup_lt_Some _ _ _ E). rewrite lookup_seq_lt by done. cbn. by rewrite E.
  - apply lookup_ge_None in E. by rewrite lookup_seq_ge.
Qed.

Lemma bucket_order a : map (fun k => default b32_default (s_buckets a !! k)) (sorted_bucket_order a) = sort_by_key b32_hi (s_buckets a).
Proof.
  unfold sorted_bucket_order. rewrite (map_sort_by_key _ b32_hi); [by rewrite seq_lookup|].
  intros k. by destruct (s_buckets a !! k).
Qed.

Lemma length_order a : length (sorted_bucket_order a) = length (keyed32 (sort_by_key b32_hi (s_buckets a))).
Proof. unfold keyed32. by rewrite length_fmap, <-bucket_order, length_map. Qed.

Lemma bucket_in_order_spec a j e : keyed32 (sort_by_key b32_hi (s_buckets a)) !! j = Some e ->
  bucket_in_order a (sorted_bucket_order a) j = Ok e.2 /\ e.1 = b32_hi e.2.
Proof.
  unfold keyed32, bucket_in_order, idx. rewrite list_lookup_fmap, <-bucket_order.
  change (map ?f ?x) with (f <$> x). rewrite list_lookup_fmap. destruct (sorted_bucket_order a !! j) as [k|] eqn:E; [|done].
  cbn. intros [= <-]. split; [|done]. assert (Hk : (k < length (s_buckets a))%nat).
  { apply list_elem_of_lookup_2 in E. unfold sorted_bucket_order in E. rewrite sort_by_key_perm in E. apply elem_of_seq in E. lia. }
  apply lookup_lt_is_Some_2 in Hk as [b Hb]. by rewrite Hb.
Qed.

(** ** Union and intersection *)

Lemma unions32 : unions b32_items wf32 (fun x y z => b32_union x y = Ok z).
Proof.
  intros x y z Hx Hy Hz. destruct (b32_union_spec x y Hx Hy) as (z' & Hz' & Hw & _ & Hin). rewrite Hz in Hz'. by injection Hz' as <-.
Qed.

Lemma intersects32 : intersects b32_items wf32 (fun x y z => b32_intersect x y = Ok z).
Proof.
  intros x y z Hx Hy Hz. destruct (b32_intersect_spec x y Hx Hy) as (z' & Hz' & Hw & _ & Hin). rewrite Hz in Hz'. by injection Hz' as <-.
Qed.

Definition clr32 (e : Z * Bucket32) : Z * Bucket32 := (0, b32_default).

Lemma clears32 : clears b32_items wf32 clr32.
Proof. intros e. split_and!; [by apply (b32_new_ok 0)|done|by right]. Qed.

Abbreviation ent s := (keyed32 (s_buckets s)).

Lemma ent_lookup s i e : ent s !! i = Some e -> s_buckets s !! i = Some e.2 /\ e.1 = b32_hi e.2.
Proof.
  unfold keyed32. rewrite list_lookup_fmap. destruct (s_buckets s !! i) as [b|]; [|done]. cbn. by intros [= <-].
Qed.

Lemma s_key_spec s i e : ent s !! i = Some e -> s_key s i = Ok e.1.
Proof. intros [Hb Hk]%ent_lookup. unfold s_key, idx. by rewrite Hb, Hk. Qed.

Lemma s_insert s i e z : ent s !! i = Some e -> b32_hi z = e.1 ->
  exists s', (buckets ← set_idx (s_buckets s) i z; Ok (mkSet (s_items_count s) buckets)) = Ok s' :> run USet /\
    ent s' = <[i := (e.1, z)]> (ent s).
Proof.
  intros He Hz. pose proof (lookup_lt_Some _ _ _ He) as Hlt. unfold keyed32 in Hlt. rewrite length_fmap in Hlt.
  unfold set_idx. rewrite decide_True by done. eexists. split; [done|]. cbn. unfold keyed32. rewrite list_fmap_insert. by rewrite Hz.
Qed.

Lemma s_merge_spec f a s i j e e' z : ent s !! i = Some e -> keyed32 (sort_by_key b32_hi (s_buckets a)) !! j = Some e' ->
  f e.2 e'.2 = Ok z -> b32_hi z = e.1 ->
  exists s', s_merge f a (sorted_bucket_order a) s i j = Ok s' /\ ent s' = <[i := (e.1, z)]> (ent s).
Proof.
  intros He He' Hf Hz. destruct (s_insert s i e z He Hz) as (s' & Hs' & Hent). exists s'. split; [|done]. rewrite <-Hs'.
  destruct (ent_lookup s i e He) as [Hb _]. destruct (bucket_in_order_spec a j e' He') as [Hb' _].
  unfold s_merge. unfold idx at 1. by rewrite Hb, bind_Ok, Hb', bind_Ok, Hf.
Qed.

Lemma s_push_spec a s j e : keyed32 (sort_by_key b32_hi (s_buckets a)) !! j = Some e ->
  exists s', s_push a (sorted_bucket_order a) s j = Ok s' /\ ent s' = ent s ++ [copy_entry b32_clone e].
Proof.
  intros He. destruct (bucket_in_order_spec a j e He) as [Hb Hk]. unfold s_push. rewrite Hb, bind_Ok. eexists. split; [done|].
  cbn. rewrite keyed32_app. unfold copy_entry. by rewrite Hk.
Qed.

(** The sorted buckets of the argument. *)
Lemma order_ok a : wf_set a -> let am := keyed32 (sort_by_key b32_hi (s_buckets a)) in
  Forall (entry_ok wf32) am /\ sorted_by_key fst am /\ later_empty b32_items am /\
  forall v, v ∈ keyed_items (2 ^ 32) b32_items am <-> v ∈ set_items a.
Proof.
  intros [[H1 H2] _] am. unfold am. split_and!.
  - apply keyed32_ok. by rewrite sort_by_key_perm.
  - rewrite keyed32_sort. apply sort_by_key_sorted.
  - rewrite keyed32_sort. by apply later_empty_sort.
  - intros v. unfold set_items. by rewrite (keyed_items_perm _ _ _ _ (keyed32_perm _ _ (sort_by_key_perm b32_hi (s_buckets a)))).
Qed.

Lemma entry_ok_wf l : Forall (entry_ok wf32) l -> Forall (fun e => wf32 e.2) l.
Proof. apply Forall_weaken. by intros e [_ ?]. Qed.

Lemma keyed32_wf l : Forall (entry_ok wf32) (keyed32 l) -> Forall wf32 l.
Proof. unfold keyed32. rewrite Forall_fmap. apply Forall_weaken. by intros b [_ ?]. Qed.

Definition combines (P : Z -> Prop) (m : run USet) : Prop := exists s', m = Ok s' /\ wf_set s' /\ forall v, v ∈ set_items s' <-> P v.

Lemma set_union_spec s a : wf_set s -> wf_set a -> combines (fun v => v ∈ set_items s \/ v ∈ set_items a) (set_union s a).
Proof.
  intros Hs Ha. unfold set_union. destruct (set_is_empty a) eqn:Ea.
  { apply set_is_empty_spec in Ea; [|done]. exists s. split_and!; [done..|]. intros v. rewrite Ea, elem_of_nil. naive_solver. }
  destruct (set_is_empty s) eqn:Es.
  { apply set_is_empty_spec in Es; [|done]. destruct (set_clone_spec a Ha) as [Hw Hin]. exists (set_clone a). split_and!; [done..|].
    intros v. rewrite Hin, Es, elem_of_nil. naive_solver. }
  destruct (set_sort_spec s Hs) as ([[Hb Hle] _] & Hin & Hsort). destruct (order_ok a Ha) as (Oam & Sam & Lam & Iam).
  set (s1 := set_sort s) in *. rewrite length_order. set (am := keyed32 (sort_by_key b32_hi (s_buckets a))) in *.
  assert (length (s_buckets s1) = length (ent s1)) as -> by (unfold keyed32; by rewrite length_fmap).
  pose proof (keyed32_ok _ Hb) as Hok.
  destruct (union_loop_spec wf32 b32_clone (fun x y z => b32_union x y = Ok z) (length (ent s1)) s_key
    (fun j => b ← bucket_in_order a (sorted_bucket_order a) j; Ok (b32_hi b)) (s_push a (sorted_bucket_order a))
    (s_merge b32_union a (sorted_bucket_order a)) (fun _ => True) (fun s => ent s) am) with
    (fuel := S (length (ent s1) + length am)) (s := s1) (i := O) (j := O) (pre := @nil (Z * Bucket32)) (l := ent s1)
    (q := @nil (Z * Bucket32)) as (s2 & l' & p & -> & _ & Hu & He).
  - intros s' i e _. apply s_key_spec.
  - intros j e Hj. destruct (bucket_in_order_spec a j e Hj) as [-> ->]. done.
  - intros s' j e _ Hj. destruct (s_push_spec a s' j e Hj) as (s'' & ? & ?). by exists s''.
  - intros s' i j e e' _ Hi Hj Hwe Hwe'. destruct (b32_union_spec e.2 e'.2 Hwe Hwe') as (z & Hz & _ & Hhi & _).
    destruct (s_merge_spec b32_union a s' i j e e' z Hi Hj Hz) as (s'' & ? & ?); [|by exists s'', z].
    rewrite Hhi. symmetry. by apply (ent_lookup s' i e).
  - done.
  - by rewrite app_nil_r.
  - done.
  - done.
  - by apply entry_ok_wf.
  - by apply entry_ok_wf.
  - rewrite drop_0. lia.
  - rewrite drop_0 in Hu. cbn [app] in He. rewrite bind_Ok.
    assert (Hwb : wf_buckets (s_buckets s2)).
    { split; [apply keyed32_wf|]; rewrite He.
      - by apply (umerge_ok b32_items wf32 b32_clone _ b32_clone_ok _ _ _ _ unions32 Hu).
      - by apply (umerge_later_empty b32_items wf32 b32_clone _ ltac:(done) _ _ _ _ unions32 Hu). }
    destruct (fix_items_count_spec s2 Hwb) as [Hwf Hitems]. eexists. split; [done|]. split; [done|]. intros v.
    rewrite Hitems. unfold set_items at 1. rewrite He.
    rewrite (umerge_items (2 ^ 32) b32_items wf32 ltac:(lia) b32_range b32_clone _ ltac:(done) _ _ _ _ unions32 Hu) by done.
    rewrite Iam, <-Hin. done.
Qed.

Lemma set_intersect_spec s a : wf_set s -> wf_set a -> combines (fun v => v ∈ set_items s /\ v ∈ set_items a) (set_intersect s a).
Proof.
  intros Hs Ha. unfold set_intersect. destruct (set_is_empty s || set_is_empty a) eqn:E.
  { exists set_default. split; [done|]. split; [by repeat constructor|]. intros v. change (set_items set_default) with (@nil Z).
    rewrite elem_of_nil. apply orb_true_iff in E as [E|E]; apply set_is_empty_spec in E; [|done| |done]; rewrite E, elem_of_nil; naive_solver. }
  destruct (set_sort_spec s Hs) as ([[Hb Hle] _] & Hin & Hsort). destruct (order_ok a Ha) as (Oam & Sam & Lam & Iam).
  set (s1 := set_sort s) in *. rewrite length_order. set (am := keyed32 (sort_by_key b32_hi (s_buckets a))) in *.
  assert (length (s_buckets s1) = length (ent s1)) as -> by (unfold keyed32; by rewrite length_fmap).
  pose proof (keyed32_ok _ Hb) as Hok.
  destruct (intersect_loop_spec wf32 (fun x y z => b32_intersect x y = Ok z) clr32 (length (ent s1)) s_key
    (fun j => b ← bucket_in_order a (sorted_bucket_order a) j; Ok (b32_hi b))
    (s_merge b32_intersect a (sorted_bucket_order a)) s_clear (fun _ => True) (fun s => ent s) am) with
    (fuel := S (length (ent s1) + length am)) (s := s1) (i := O) (j := O) (pre := @nil (Z * Bucket32)) (l := ent s1)
    as (s2 & r & -> & _ & Hi & He).
  - intros s' i e _. apply s_key_spec.
  - intros j e Hj. destruct (bucket_in_order_spec a j e Hj) as [-> ->]. done.
  - intros s' i e _ Hl. pose proof (lookup_lt_Some _ _ _ Hl) as Hlt. unfold keyed32 in Hlt. rewrite length_fmap in Hlt.
    unfold s_clear, set_idx. rewrite decide_True by done. eexists. split; [done|]. split; [done|].
    cbn. unfold keyed32. by rewrite list_fmap_insert.
  - intros s' i j e e' _ Hl Hj Hwe Hwe'. destruct (b32_intersect_spec e.2 e'.2 Hwe Hwe') as (z & Hz & _ & Hhi & _).
    destruct (s_merge_spec b32_intersect a s' i j e e' z Hl Hj Hz) as (s'' & ? & ?); [|by exists s'', z].
    rewrite Hhi. symmetry. by apply (ent_lookup s' i e).
  - done.
  - done.
  - done.
  - done.
  - by apply entry_ok_wf.
  - by apply entry_ok_wf.
  - rewrite drop_0. lia.
  - rewrite drop_0 in Hi. cbn [app] in He. rewrite bind_Ok.
    assert (Hwb : wf_buckets (s_buckets s2)).
    { split; [apply keyed32_wf|]; rewrite He.
      - by apply (imerge_ok b32_items wf32 _ clr32 _ _ _ clears32 intersects32 Hi).
      - by apply (imerge_later_empty (2 ^ 32) b32_items wf32 b32_range _ clr32 _ _ _ clears32 intersects32 Hi). }
    destruct (fix_items_count_spec s2 Hwb) as [Hwf Hitems]. eexists. split; [done|]. split; [done|]. intros v.
    rewrite Hitems. unfold set_items at 1. rewrite He.
    rewrite (imerge_items (2 ^ 32) b32_items wf32 ltac:(lia) b32_range _ clr32 _ _ _ clears32 intersects32 Hi) by done.
    rewrite Iam, <-Hin. done.
Qed.

(** ** Difference, equality and the binary form *)

(** A closure that never stops the iteration sees all the items in order. *)
Lemma run_parts_fold {St} (f : St -> list Z -> run (St * bool)) (g : St -> list Z -> run St) :
  (forall st l, f st l = (st' ← g st l; Ok (st', true))) -> (forall st, g st [] = Ok st) ->
  (forall st l1 l2, g st (l1 ++ l2) = (st' ← g st l1; g st' l2)) ->
  forall ps st, (r ← run_parts f st ps; Ok r.1) = g st (concat ps).
Proof.
  intros Hf Hnil Happ. induction ps as [|p ps IH]; intros st; cbn; [by rewrite Hnil|]. rewrite Hf, Happ.
  destruct (g st p) as [st'| |]; cbn; [apply IH|done..].
Qed.

Lemma for_each_fold {St} (f : St -> list Z -> run (St * bool)) (g : St -> list Z -> run St) s st : wf_set s ->
  (forall st l, f st l = (st' ← g st l; Ok (st', true))) -> (forall st, g st [] = Ok st) ->
  (forall st l1 l2, g st (l1 ++ l2) = (st' ← g st l1; g st' l2)) -> set_for_each f s st = g st (set_items s).
Proof.
  intros Hwf H1 H2 H3. rewrite set_for_each_spec, <-concat_set_parts, <-(run_parts_fold f g) by done.
  by destruct (run_parts f st (set_parts s)) as [[? ?]| |].
Qed.

Lemma set_del_all_app l1 l2 : forall s, set_del_all s (l1 ++ l2) = (s' ← set_del_all s l1; set_del_all s' l2).
Proof. induction l1 as [|x l1 IH]; intros s; [done|]. cbn. destruct (set_del s x); cbn; [apply IH|done..]. Qed.

Lemma set_del_all_spec l : forall s, wf_set s -> Forall is_u64 l ->
  combines (fun v => v ∈ set_items s /\ v ∉ l) (set_del_all s l).
Proof.
  induction l as [|x l IH]; intros s Hs Hl; cbn [set_del_all].
  { exists s. split_and!; [done..|]. intros v. pose proof (not_elem_of_nil v). naive_solver. }
  inversion_clear Hl. destruct (set_del_spec s x) as (s1 & -> & Hs1 & Hin1); [done..|]. rewrite bind_Ok.
  destruct (IH s1) as (s2 & -> & Hs2 & Hin2); [done..|]. exists s2. split_and!; [done..|].
  intros v. rewrite Hin2, Hin1, not_elem_of_cons. naive_solver.
Qed.

Lemma collect_shared_spec a l : forall acc, wf_set a -> Forall is_u64 l ->
  collect_shared a acc l = Ok (acc ++ filter (fun x => x ∈ set_items a) l).
Proof.
  induction l as [|x l IH]; intros acc Ha Hl; cbn [collect_shared]; [by rewrite app_nil_r|]. inversion_clear Hl.
  rewrite set_has_spec, bind_Ok, filter_cons by done. case_decide as E.
  - rewrite bool_decide_eq_true_2, IH, <-app_assoc by done. done.
  - by rewrite bool_decide_eq_false_2, IH by done.
Qed.

Lemma collect_shared_app a l1 l2 : forall acc, collect_shared a acc (l1 ++ l2) = (acc ← collect_shared a acc l1; collect_shared a acc l2).
Proof. induction l1 as [|x l1 IH]; intros acc; [done|]. cbn. destruct (set_has a x); cbn; [apply IH|done..]. Qed.

Lemma set_items_u64 s : wf_set s -> Forall is_u64 (set_items s).
Proof. intros Hs. apply Forall_forall. intros x. by apply set_items_range. Qed.

Lemma set_subtract_spec s a : wf_set s -> wf_set a -> combines (fun v => v ∈ set_items s /\ v ∉ set_items a) (set_subtract s a).
Proof.
  intros Hs Ha. unfold set_subtract. destruct (set_is_empty s || set_is_empty a) eqn:E.
  { exists s. split_and!; [done..|]. intros v. pose proof (not_elem_of_nil v).
    apply orb_true_iff in E as [E|E]; apply set_is_empty_spec in E; try done; rewrite E; naive_solver. }
  destruct (_ <=? _)%nat.
  - rewrite (for_each_fold _ set_del_all); [|done..|intros; apply set_del_all_app].
    by apply set_del_all_spec, set_items_u64.
  - rewrite (for_each_fold _ (collect_shared a)); [|done..|intros; apply collect_shared_app].
    rewrite collect_shared_spec, bind_Ok by (done || by apply set_items_u64). cbn [app].
    destruct (set_del_all_spec (filter (fun x => x ∈ set_items a) (set_items s)) s) as (s' & -> & Hw & Hin); [done| |].
    { apply Forall_forall. intros x [_ Hx]%list_elem_of_filter. by apply (set_items_range s). }
    exists s'. split_and!; [done..|]. intros v. rewrite Hin, list_elem_of_filter. naive_solver.
Qed.

Lemma has_all_spec s l : wf_set s -> Forall is_u64 l -> has_all s l = Ok (forallb (fun x => bool_decide (x ∈ set_items s)) l).
Proof.
  intros Hs. induction 1 as [|x l Hx Hl IH]; cbn; [done|]. rewrite set_has_spec, bind_Ok by done.
  case_bool_decide; cbn; [apply IH|done].
Qed.

Lemma run_equal s ps : wf_set s -> Forall is_u64 (concat ps) ->
  (r ← run_parts (fun equal part => all ← has_all s part; if all : bool then Ok (equal, true) else Ok (false, false)) true ps; Ok r.1)
  = Ok (forallb (fun x => bool_decide (x ∈ set_items s)) (concat ps)) :> run bool.
Proof.
  intros Hs. induction ps as [|p ps IH]; intros Hu; cbn; [done|]. cbn in Hu. apply Forall_app in Hu as [Hp Hps].
  rewrite has_all_spec, bind_Ok, forallb_app by done. destruct (forallb _ p); cbn; [by apply IH|done].
Qed.

Lemma set_equal_spec s a : wf_set s -> wf_set a ->
  set_equal s a = Ok (bool_decide (list_to_set (C := gset Z) (set_items s) = list_to_set (set_items a))).
Proof.
  intros Hs Ha. pose proof (buckets_NoDup _ (wfs_buckets s Hs)) as Ns. pose proof (buckets_NoDup _ (wfs_buckets a Ha)) as Na.
  assert (Hset : forall l l' : list Z, list_to_set (C := gset Z) l = list_to_set l' <-> forall v, v ∈ l <-> v ∈ l').
  { intros l l'. rewrite set_eq. by setoid_rewrite elem_of_list_to_set. }
  unfold set_equal, set_len. rewrite (wfs_count s Hs), (wfs_count a Ha).
  destruct (Nat.eqb_spec (length (set_items s)) (length (set_items a))) as [E|E]; cbn [negb].
  - rewrite set_for_each_spec by done. pose proof (run_equal s (set_parts a) Hs) as Hr. rewrite concat_set_parts in Hr.
    specialize (Hr (set_items_u64 a Ha)).
    match goal with |- (_ ≫= _) = _ => transitivity (Ok (forallb (fun x => bool_decide (x ∈ set_items s)) (set_items a)) : run bool) end.
    { rewrite <-Hr. by destruct (run_parts _ true (set_parts a)) as [[? ?]| |]. }
    f_equal. destruct (forallb _ _) eqn:F; symmetry; [apply bool_decide_eq_true|apply bool_decide_eq_false]; rewrite Hset.
    + rewrite forallb_forall in F. assert (Hsub : set_items a ⊆+ set_items s).
      { apply NoDup_submseteq; [done|]. intros v Hv. apply list_elem_of_In, F, bool_decide_eq_true in Hv. done. }
      apply submseteq_length_Permutation in Hsub; [|lia]. intros v. by rewrite Hsub.
    + intros Heq. assert (forallb (fun x => bool_decide (x ∈ set_items s)) (set_items a) = true); [|congruence].
      apply forallb_forall. intros v Hv%list_elem_of_In. apply bool_decide_eq_true. by apply Heq.
  - rewrite bool_decide_eq_false_2; [done|]. rewrite Hset. intros Heq. destruct E. symmetry. by apply same_items_length.
Qed.

Definition encode_items (l : list Z) : list Z := concat (map (to_be_bytes 8) l).

Lemma set_marshal_spec s dst : wf_set s ->
  set_marshal s dst = Ok (dst ++ to_be_bytes 8 (Z.of_nat (length (set_items s))) ++ encode_items (set_items s)).
Proof.
  intros Hs. unfold set_marshal, set_len. rewrite (wfs_count s Hs).
  rewrite (for_each_fold _ (fun dst l => Ok (dst ++ encode_items l))); [by rewrite <-app_assoc|done|done|..].
  - intros. cbn. by rewrite app_nil_r.
  - intros. cbn. unfold encode_items. by rewrite map_app, concat_app, app_assoc.
Qed.

Lemma unmarshal_items_spec l : forall s tail, wf_set s -> Forall is_u64 l ->
  exists s', unmarshal_items (length l) s (encode_items l ++ tail) = Ok (s', tail) /\ wf_set s' /\
    forall v, v ∈ set_items s' <-> v ∈ l \/ v ∈ set_items s.
Proof.
  induction l as [|x l IH]; intros s tail Hs Hl; cbn [unmarshal_items length].
  { exists s. split_and!; [done..|]. intros v. rewrite elem_of_nil. naive_solver. }
  inversion_clear Hl. change (encode_items (x :: l)) with (to_be_bytes 8 x ++ encode_items l). rewrite <-app_assoc.
  rewrite read_be_app, bind_Ok, slice_from_ok, bind_Ok by (apply length_to_be_bytes || done).
  destruct (set_add_spec s x) as (s1 & -> & Hs1 & Hin1); [done..|].
  destruct (IH s1 tail) as (s2 & -> & Hs2 & Hin2); [done..|]. exists s2. split_and!; [done..|].
  intros v. rewrite Hin2, Hin1, elem_of_cons. naive_solver.
Qed.

Lemma length_encode_items l : length (encode_items l) = (8 * length l)%nat.
Proof.
  unfold encode_items. induction l as [|x l IH]; [done|]. cbn [map concat]. rewrite length_app, length_to_be_bytes, IH. cbn. lia.
Qed.

Lemma unmarshal_items_total n : forall s src, wf_set s -> bytes src -> (8 * n <= length src)%nat ->
  exists s', unmarshal_items n s src = Ok (s', drop (8 * n) src) /\ wf_set s'.
Proof.
  induction n as [|n IH]; intros s src Hs Hb Hl; cbn [unmarshal_items]; [by exists s|].
  assert (Hr : exists e, read_be (E := set_error) 8 src = Ok e).
  { unfold read_be. rewrite decide_True by lia. eauto. }
  destruct Hr as [e He]. rewrite He, bind_Ok. unfold slice_from. rewrite decide_True, bind_Ok by lia.
  pose proof (read_be_range 8 src e Hb He) as Hu. destruct (set_add_spec s e Hs Hu) as (s1 & -> & Hs1 & _).
  destruct (IH s1 (drop 8 src) Hs1) as (s2 & -> & Hs2); [by apply bytes_drop|rewrite length_drop; lia|].
  exists s2. split; [|done]. rewrite drop_drop. do 3 f_equal. lia.
Qed.

(** ** The refinement *)

(** [s] represents the finite set [X]. *)
Definition represents (s : USet) (X : gset Z) : Prop := wf_set s /\ list_to_set (set_items s) = X.

Lemma represents_elem s X : represents s X -> forall v, v ∈ set_items s <-> v ∈ X.
Proof. intros [_ <-] v. by rewrite elem_of_list_to_set. Qed.

Lemma represents_intro s X : wf_set s -> (forall v, v ∈ set_items s <-> v ∈ X) -> represents s X.
Proof. intros Hs Hin. split; [done|]. apply set_eq. intros v. by rewrite elem_of_list_to_set. Qed.

Lemma represents_size s X : represents s X -> set_len s = size X.
Proof.
  intros [Hs <-]. unfold set_len. rewrite size_list_to_set by apply (buckets_NoDup _ (wfs_buckets s Hs)). apply Hs.
Qed.

Lemma represents_unique s X Y : represents s X -> represents s Y -> X = Y.
Proof. intros [_ <-] [_ <-]. done. Qed.

(** The sets a program can build with the public operations.
    [SSorted] is the set that [append_to] leaves behind. *)
Inductive set_expr : Type :=
| SEmpty
| SAdd (e : set_expr) (x : Z)
| SAddMulti (e : set_expr) (a : list Z)
| SDel (e : set_expr) (x : Z)
| SUnion (e a : set_expr)
| SIntersect (e a : set_expr)
| SSubtract (e a : set_expr)
| SClone (e : set_expr)
| SSorted (e : set_expr).

Fixpoint run_expr (e : set_expr) : run USet :=
  match e with
  | SEmpty => Ok set_default
  | SAdd e x => s ← run_expr e; set_add s x
  | SAddMulti e a => s ← run_expr e; set_add_multi s a
  | SDel e x => s ← run_expr e; set_del s x
  | SUnion e a => s ← run_expr e; a ← run_expr a; set_union s a
  | SIntersect e a => s ← run_expr e; a ← run_expr a; set_intersect s a
  | SSubtract e a => s ← run_expr e; a ← run_expr a; set_subtract s a
  | SClone e => s ← run_expr e; Ok (set_clone s)
  | SSorted e => s ← run_expr e; '(s, _) ← set_append_to s []; Ok s
  end.

(** The finite set an expression stands for. *)
Fixpoint denote (e : set_expr) : gset Z :=
  match e with
  | SEmpty => ∅
  | SAdd e x => {[x]} ∪ denote e
  | SAddMulti e a => list_to_set a ∪ denote e
  | SDel e x => denote e ∖ {[x]}
  | SUnion e a => denote e ∪ denote a
  | SIntersect e a => denote e ∩ denote a
  | SSubtract e a => denote e ∖ denote a
  | SClone e => denote e
  | SSorted e => denote e
  end.

(** All integers of the expression are [u64]. *)
Fixpoint u64_expr (e : set_expr) : bool :=
  match e with
  | SEmpty => true
  | SAdd e x | SDel e x => u64_expr e && bool_decide (is_u64 x)
  | SAddMulti e a => u64_expr e && bool_decide (Forall is_u64 a)
  | SUnion e a | SIntersect e a | SSubtract e a => u64_expr e && u64_expr a
  | SClone e | SSorted e => u64_expr e
  end.

Lemma combines_represents (P : Z -> Prop) m X : combines P m -> (forall v, P v <-> v ∈ X) -> exists s, m = Ok s /\ represents s X.
Proof.
  intros (s & -> & Hs & Hin) HX. exists s. split; [done|]. apply represents_intro; [done|]. intros v. by rewrite Hin.
Qed.

Lemma run_expr_represents e : Is_true (u64_expr e) -> exists s, run_expr e = Ok s /\ represents s (denote e).
Proof.
  induction e as [|e IH x|e IH a|e IH x|e IH a IHa|e IH a IHa|e IH a IHa|e IH|e IH]; cbn [run_expr denote u64_expr];
    rewrite ?andb_True, ?bool_decide_spec; intros Hu.
  - exists set_default. split; [done|]. apply represents_intro; [by repeat constructor|]. set_solver.
  - destruct IH as (s & -> & [Hs Hin]); [naive_solver|]. rewrite bind_Ok. apply (combines_represents (fun v => v = x \/ v ∈ set_items s)).
    + apply set_add_spec; naive_solver.
    + rewrite <-Hin. set_solver.
  - destruct IH as (s & -> & [Hs Hin]); [naive_solver|]. rewrite bind_Ok. apply (combines_represents (fun v => v ∈ a \/ v ∈ set_items s)).
    + apply set_add_multi_spec; naive_solver.
    + rewrite <-Hin. set_solver.
  - destruct IH as (s & -> & [Hs Hin]); [naive_solver|]. rewrite bind_Ok. apply (combines_represents (fun v => v <> x /\ v ∈ set_items s)).
    + apply set_del_spec; naive_solver.
    + rewrite <-Hin. set_solver.
  - destruct IH as (s & -> & [Hs <-]); [naive_solver|]. destruct IHa as (s' & -> & [Hs' <-]); [naive_solver|]. rewrite !bind_Ok.
    eapply combines_represents; [by apply set_union_spec|]. set_solver.
  - destruct IH as (s & -> & [Hs <-]); [naive_solver|]. destruct IHa as (s' & -> & [Hs' <-]); [naive_solver|]. rewrite !bind_Ok.
    eapply combines_represents; [by apply set_intersect_spec|]. set_solver.
  - destruct IH as (s & -> & [Hs <-]); [naive_solver|]. destruct IHa as (s' & -> & [Hs' <-]); [naive_solver|]. rewrite !bind_Ok.
    eapply combines_represents; [by apply set_subtract_spec|]. set_solver.
  - destruct IH as (s & -> & [Hs <-]); [done|]. rewrite bind_Ok. eexists. split; [done|]. destruct (set_clone_spec s Hs) as [Hw Hin].
    apply represents_intro; [done|]. intros v. rewrite Hin. set_solver.
  - destruct IH as (s & -> & [Hs <-]); [done|]. rewrite bind_Ok.
    destruct (set_append_to_spec s [] Hs) as (s' & l & -> & Hw & _ & _ & Hin). cbn [mbind res_bind]. eexists. split; [done|].
    apply represents_intro; [done|]. intros v. rewrite Hin. set_solver.
Qed.

(** C26: the set of metric IDs implements finite sets.  Whatever sequence of
    additions, deletions, unions, intersections, differences, copies and
    sorted reads builds a set, no operation panics, the number of items is the
    size of the mathematical set, [has] decides membership, [append_to] lists
    the members in strictly increasing order, and [equal] decides equality of
    two sets built in different ways. *)
Theorem set_refines_finite_sets (e a : set_expr) :
  Is_true (u64_expr e) -> Is_true (u64_expr a) ->
  exists s sa, run_expr e = Ok s /\ run_expr a = Ok sa /\
    set_len s = size (denote e) /\
    (forall x, is_u64 x -> set_has s x = Ok (bool_decide (x ∈ denote e))) /\
    (exists s' l, set_append_to s [] = Ok (s', l) /\ strictZ l /\ list_to_set l = denote e) /\
    set_equal s sa = Ok (bool_decide (denote e = denote a)).
Proof.
  intros He Ha. destruct (run_expr_represents e He) as (s & Hs & Hr). destruct (run_expr_represents a Ha) as (sa & Hsa & Hra).
  exists s, sa. pose proof (represents_elem _ _ Hr) as Hin. split_and!; [done|done|by apply represents_size|..].
  - intros x Hx. rewrite set_has_spec by (done || apply Hr). f_equal. by apply bool_decide_ext.
  - destruct (set_append_to_spec s [] (proj1 Hr)) as (s' & l & Hl & _ & Hst & Hel & _). exists s', l. split_and!; [done..|].
    apply set_eq. intros v. by rewrite elem_of_list_to_set, Hel, Hin.
  - destruct Hr as [Hw <-], Hra as [Hwa <-]. by apply set_equal_spec.
Qed.

(** A set built across the 56-item pool limit and three high halves, with an
    intersection that leaves emptied buckets behind. *)
Definition big_set : set_expr := SAddMulti (SAdd (SAddMulti SEmpty (seqZ 0 60)) (2 ^ 33 + 7)) [2 ^ 40; 65536; 2 ^ 40].
Definition other_set : set_expr := SAddMulti SEmpty [2 ^ 40; 5; 2 ^ 33].
Definition sample_expr : set_expr := SAdd (SDel (SUnion (SIntersect big_set other_set) (SClone other_set)) 5) 17.

Example sample_expr_runs :
  (s ← run_expr sample_expr; '(_, l) ← set_append_to s []; Ok (l, set_len s)) = Ok ([17; 2 ^ 33; 2 ^ 40], 3%nat) :> run _.
Proof. vm_compute. reflexivity. Qed.

Lemma set_refines_finite_sets_witness :
  Is_true (u64_expr sample_expr) /\ Is_true (u64_expr (SSorted big_set)) /\
  exists s sa, run_expr sample_expr = Ok s /\ run_expr (SSorted big_set) = Ok sa /\
    set_len s = size (denote sample_expr) /\
    (forall x, is_u64 x -> set_has s x = Ok (bool_decide (x ∈ denote sample_expr))) /\
    (exists s' l, set_append_to s [] = Ok (s', l) /\ strictZ l /\ list_to_set l = denote sample_expr) /\
    set_equal s sa = Ok (bool_decide (denote sample_expr = denote (SSorted big_set))).
Proof.
  split; [vm_compute; exact I|]. split; [vm_compute; exact I|].
  apply (set_refines_finite_sets sample_expr (SSorted big_set)); vm_compute; exact I.
Defined.

(** C27: the binary form of a set is read back as the same set, with the
    unread tail, and the reader returns a well-formed set or an error on any
    bytes. *)
Theorem set_codec (e : set_expr) (dst tail src : list Z) :
  Is_true (u64_expr e) -> Z.of_nat (size (denote e)) < 2 ^ 64 -> bytes src ->
  (exists s out s', run_expr e = Ok s /\ set_marshal s dst = Ok (dst ++ out) /\
     set_unmarshal (out ++ tail) = Ok (s', tail) /\ represents s' (denote e)) /\
  match set_unmarshal src with
  | Ok (s, rest) => wf_set s /\ exists n, rest = drop (8 * n) src
  | Err _ => True
  | Panic => False
  end.
Proof.
  intros He Hsize Hsrc. split.
  - destruct (run_expr_represents e He) as (s & Hs & Hr). pose proof (represents_size _ _ Hr) as Hlen. unfold set_len in Hlen.
    destruct Hr as [Hw HX]. rewrite (wfs_count s Hw) in Hlen.
    exists s, (to_be_bytes 8 (Z.of_nat (length (set_items s))) ++ encode_items (set_items s)).
    destruct (unmarshal_items_spec (set_items s) set_default tail) as (s' & Hu & Hw' & Hin); [by repeat constructor|by apply set_items_u64|].
    exists s'. split_and!; [done|by apply set_marshal_spec| |].
    + unfold set_unmarshal. rewrite <-!app_assoc. rewrite guard_false; [|apply Nat.ltb_ge; rewrite length_app, length_to_be_bytes; lia].
      rewrite bind_Ok, read_be_app, bind_Ok by (split; lia). rewrite slice_from_ok, bind_Ok by apply length_to_be_bytes.
      rewrite guard_false, bind_Ok; [by rewrite Nat2Z.id|]. apply Z.ltb_ge. rewrite length_app.
      rewrite length_encode_items. apply Z.div_le_lower_bound; lia.
    + apply represents_intro; [done|]. intros v. rewrite Hin, <-HX, elem_of_list_to_set. change (set_items set_default) with (@nil Z).
      rewrite elem_of_nil. naive_solver.
  - unfold set_unmarshal, guard_. destruct (Nat.ltb_spec (length src) 8); cbn [mbind res_bind]; [done|].
    destruct (read_be 8 src) as [n|e'|] eqn:Hn; cbn [mbind res_bind]; [|done|by destruct (read_be_no_panic (E := set_error) 8 src)].
    unfold slice_from. rewrite decide_True, bind_Ok by lia. pose proof (read_be_range 8 src n Hsrc Hn) as [H0 _].
    destruct (Z.ltb_spec (Z.of_nat (length (drop 8 src)) / 8) n) as [|Hge]; cbn [mbind res_bind]; [done|].
    destruct (unmarshal_items_total (Z.to_nat n) set_default (drop 8 src)) as (s & -> & Hs); [by repeat constructor|by apply bytes_drop| |].
    + rewrite length_drop in *. dlia.
    + split; [done|]. exists (S (Z.to_nat n)). rewrite drop_drop. f_equal. lia.
Qed.

Lemma set_codec_witness :
  Is_true (u64_expr other_set) /\ Z.of_nat (size (denote other_set)) < 2 ^ 64 /\
  (exists s out s', run_expr other_set = Ok s /\ set_marshal s [9] = Ok ([9] ++ out) /\
     set_unmarshal (out ++ [1; 2]) = Ok (s', [1; 2]) /\ represents s' (denote other_set)) /\
  match set_unmarshal [0; 0; 0; 0; 0; 0; 0; 9] with
  | Ok (s, rest) => wf_set s /\ exists n, rest = drop (8 * n) [0; 0; 0; 0; 0; 0; 0; 9]
  | Err _ => True
  | Panic => False
  end.
Proof.
  split; [vm_compute; exact I|]. split; [vm_compute; reflexivity|].
  apply (set_codec other_set [9] [1; 2] [0; 0; 0; 0; 0; 0; 0; 9]); [vm_compute; exact I|vm_compute; reflexivity|].
  repeat constructor; lia.
Defined.
