(* ===== verification/ItemBlock.v ===== *)
(** * Blocks of items

    Model of [esm-mergeset/src/inmemory_block.rs]: the block of byte strings
    ("items") of the merge set under the inverted index, kept as offsets into
    one buffer; its order and common prefix; its plain and its compressed
    storage form. *)
From Stdlib Require Import ZArith Lia Bool Sorted Permutation.
From S2P Require Import Prelude IntCodec Float64 Compress.
Local Open Scope Z_scope.

Definition MAX_INMEMORY_BLOCK_SIZE : Z := 64 * 1024.

(** Offsets of an item in the buffer of its block ([u32]). *)
Record Item : Type := mkItem { it_start : Z; it_end : Z }.

(** [&data[a..b]]. *)
Definition slice {E} (data : list Z) (a b : Z) : res E (list Z) :=
  if (a <=? b) && (b <=? Z.of_nat (length data))
  then Ok (take (Z.to_nat (b - a)) (drop (Z.to_nat a) data)) else Panic.

Definition item_bytes {E} (it : Item) (data : list Z) : res E (list Z) :=
  slice data (it_start it) (it_end it).

(** The loop of fallible code over a list, in order. *)
Fixpoint map_res {E A B} (f : A -> res E B) (l : list A) : res E (list B) :=
  match l with
  | [] => Ok []
  | x :: l => y ← f x; ys ← map_res f l; Ok (y :: ys)
  end.

Record StorageBlock : Type := mkStorageBlock { sb_items_data : list Z; sb_lens_data : list Z }.

Inductive MarshalType : Type := MarshalPlain | MarshalZstd.

Definition mt_from_u8 (v : Z) : option MarshalType :=
  if v =? 0 then Some MarshalPlain else if v =? 1 then Some MarshalZstd else None.

Definition mt_as_u8 (mt : MarshalType) : Z :=
  match mt with MarshalPlain => 0 | MarshalZstd => 1 end.

(** One step of the recursion is one round of the [while] loop. *)
Fixpoint common_prefix_len (a b : list Z) : nat :=
  match a, b with
  | x :: a, y :: b => if x =? y then S (common_prefix_len a b) else 0
  | _, _ => 0
  end.

Record InmemoryBlock : Type := mkIB {
  ib_common_prefix : list Z;
  ib_data : list Z;
  ib_items : list Item;
}.

Definition ib_default : InmemoryBlock := mkIB [] [] [].

Definition ib_copy_from (self src : InmemoryBlock) : InmemoryBlock :=
  mkIB (ib_common_prefix src) (ib_data src) (ib_items src).

Definition ib_reset (self : InmemoryBlock) : InmemoryBlock := mkIB [] [] [].

(** The block after the call and whether [x] was added. *)
Definition ib_add (self : InmemoryBlock) (x : list Z) : InmemoryBlock * bool :=
  if Z.of_nat (length x) + Z.of_nat (length (ib_data self)) >? MAX_INMEMORY_BLOCK_SIZE then (self, false)
  else
    let start := as_u32 (Z.of_nat (length (ib_data self))) in
    let data := ib_data self ++ x in
    (mkIB (ib_common_prefix self) data
       (ib_items self ++ [mkItem start (as_u32 (Z.of_nat (length data)))]), true).

(** [items.windows(2).all(..)]: stops at the first unsorted pair. *)
Fixpoint sorted_windows {E} (data : list Z) (items : list Item) : res E bool :=
  match items with
  | a :: ((b :: _) as rest) =>
      x ← item_bytes a data;
      y ← item_bytes b data;
      if lex_leb x y then sorted_windows data rest else Ok false
  | _ => Ok true
  end.

Definition is_sorted {E} (self : InmemoryBlock) : res E bool :=
  sorted_windows (ib_data self) (ib_items self).

(** [item.starts_with(cp)]. *)
Definition starts_with (item cp : list Z) : bool := bool_decide (take (length cp) item = cp).

(** The loop of [update_common_prefix_unsorted]; an empty prefix ends it. *)
Fixpoint common_prefix_loop {E} (data cp : list Z) (items : list Item) : res E (list Z) :=
  match items with
  | [] => Ok cp
  | it :: items =>
      item ← item_bytes it data;
      if starts_with item cp then common_prefix_loop data cp items
      else
        let cp_len := common_prefix_len cp item in
        if (cp_len =? 0)%nat then Ok [] else common_prefix_loop data (take cp_len cp) items
  end.

Definition update_common_prefix_unsorted {E} (self : InmemoryBlock) : res E InmemoryBlock :=
  match ib_items self with
  | [] => Ok (mkIB [] (ib_data self) [])
  | first :: rest =>
      cp ← item_bytes first (ib_data self);
      cp ← common_prefix_loop (ib_data self) cp rest;
      Ok (mkIB cp (ib_data self) (ib_items self))
  end.

Definition update_common_prefix_sorted {E} (self : InmemoryBlock) : res E InmemoryBlock :=
  if (length (ib_items self) <=? 1)%nat then Ok (mkIB [] (ib_data self) (ib_items self))
  else
    it0 ← idx (ib_items self) 0;
    first ← item_bytes it0 (ib_data self);
    itn ← idx (ib_items self) (length (ib_items self) - 1);
    last ← item_bytes itn (ib_data self);
    let cp_len := Z.of_nat (common_prefix_len first last) in
    cp ← slice (ib_data self) (it_start it0) (it_start it0 + cp_len);
    Ok (mkIB cp (ib_data self) (ib_items self)).

(** The keys compared by [sort_items]: the items less the common prefix. *)
Definition suffix_key {E} (data : list Z) (cp_len : Z) (it : Item) : res E (list Z * Item) :=
  s ← slice data (as_u32 (it_start it + cp_len)) (it_end it);
  Ok (s, it).

Definition key_le (a b : list Z * Item) : Prop := lex_leb a.1 b.1.

#[export] Instance key_le_dec : RelDecision key_le.
Proof. intros a b. unfold key_le. apply _. Defined.

(** [sort_unstable_by]: a sorted permutation.  The order of equal items is not
    specified; they are equal as byte strings.  Every item takes part in a
    comparison, so an item out of range panics. *)
Definition sort_items {E} (self : InmemoryBlock) : res E InmemoryBlock :=
  sorted ← is_sorted self;
  if negb sorted then
    self ← update_common_prefix_unsorted self;
    let cp_len := as_u32 (Z.of_nat (length (ib_common_prefix self))) in
    keyed ← map_res (suffix_key (ib_data self) cp_len) (ib_items self);
    Ok (mkIB (ib_common_prefix self) (ib_data self) (merge_sort key_le keyed).*2)
  else update_common_prefix_sorted self.

(** The items printed by [debug_items_string], which reads every one of them. *)
Definition debug_items {E} (self : InmemoryBlock) : res E (list (list Z)) :=
  map_res (fun it => item_bytes it (ib_data self)) (ib_items self).

(** ** Storage form *)

(** [((it.end - it.start) as usize - cp_len) as u64]. *)
Definition suffix_len (cp_len : Z) (it : Item) : Z := as_u64 (as_u32 (it_end it - it_start it) - cp_len).

Definition marshal_data_plain {E} (self : InmemoryBlock) : res E StorageBlock :=
  let cp_len := Z.of_nat (length (ib_common_prefix self)) in
  rest ← slice_from (ib_items self) 1;
  suffixes ← map_res (fun it => slice (ib_data self) (it_start it + cp_len) (it_end it)) rest;
  Ok (mkStorageBlock (concat suffixes)
        (foldl (fun lens it => marshal_uint64 lens (suffix_len cp_len it)) [] rest)).

(** The loop over the items: the bytes that differ from the previous item, and
    the lengths of the shared prefixes XOR-ed with the previous ones. *)
Fixpoint items_loop {E} (data : list Z) (cp_len : Z) (prev_item : list Z) (prev_prefix_len : Z)
    (items : list Item) (b_items xs : list Z) : res E (list Z * list Z) :=
  match items with
  | [] => Ok (b_items, xs)
  | it :: items =>
      item ← slice data (it_start it + cp_len) (it_end it);
      let prefix_len := common_prefix_len prev_item item in
      suffix ← slice_from item prefix_len;
      items_loop data cp_len item (Z.of_nat prefix_len) items (b_items ++ suffix)
        (xs ++ [Z.lxor (Z.of_nat prefix_len) prev_prefix_len])
  end.

Fixpoint lens_loop (cp_len prev_item_len : Z) (items : list Item) (xs : list Z) : list Z :=
  match items with
  | [] => xs
  | it :: items =>
      let item_len := suffix_len cp_len it in
      lens_loop cp_len item_len items (xs ++ [Z.lxor item_len prev_item_len])
  end.

Section Marshal.
  Context {Zs : Zstd}.

(** The storage block, the two buffers appended to, the number of items and
    the type of encoding. *)
Definition ib_marshal_data {E} (self : InmemoryBlock) (first_item_dst common_prefix_dst : list Z)
    (compress_level : Z) : res E (StorageBlock * list Z * list Z * Z * MarshalType) :=
  let items := ib_items self in
  let n := Z.of_nat (length items) in
  _ ← assert_ (negb (length items =? 0)%nat);
  _ ← assert_ (n <? 2 ^ 32);
  let data := ib_data self in
  it0 ← idx items 0;
  first_item ← item_bytes it0 data;
  let first_item_dst := first_item_dst ++ first_item in
  let common_prefix_dst := common_prefix_dst ++ ib_common_prefix self in
  let cp_len := Z.of_nat (length (ib_common_prefix self)) in
  let own_len := as_u64 (Z.of_nat (length data) - cp_len * n) in
  if (own_len <? 64) || (n <? 2) then
    sb ← marshal_data_plain self;
    Ok (sb, first_item_dst, common_prefix_dst, as_u32 n, MarshalPlain)
  else
    prev_item ← slice_from first_item (Z.to_nat cp_len);
    rest ← slice_from items 1;
    '(b_items, xs) ← items_loop data cp_len prev_item 0 rest [] [];
    let b_lens := marshal_var_uint64s [] xs in
    let items_data := compress_zstd_level [] b_items compress_level in
    let prev_item_len := as_u64 (Z.of_nat (length first_item) - cp_len) in
    let b_lens := marshal_var_uint64s b_lens (lens_loop cp_len prev_item_len rest []) in
    let lens_data := compress_zstd_level [] b_lens compress_level in
    if f64_gt (f64_of_Z (Z.of_nat (length items_data))) (f64_mul f64_0_9 (f64_of_Z own_len)) then
      sb ← marshal_data_plain self;
      Ok (sb, first_item_dst, common_prefix_dst, as_u32 n, MarshalPlain)
    else Ok (mkStorageBlock items_data lens_data, first_item_dst, common_prefix_dst, as_u32 n, MarshalZstd).

(** The block after the call (sorted) and the results of [marshal_data]. *)
Definition marshal_unsorted_data {E} (self : InmemoryBlock) (first_item_dst common_prefix_dst : list Z)
    (compress_level : Z)
    : res E (InmemoryBlock * (StorageBlock * list Z * list Z * Z * MarshalType)) :=
  self ← sort_items self;
  r ← ib_marshal_data self first_item_dst common_prefix_dst compress_level;
  Ok (self, r).

Definition marshal_sorted_data {E} (self : InmemoryBlock) (first_item_dst common_prefix_dst : list Z)
    (compress_level : Z)
    : res E (InmemoryBlock * (StorageBlock * list Z * list Z * Z * MarshalType)) :=
  self ← update_common_prefix_sorted self;
  r ← ib_marshal_data self first_item_dst common_prefix_dst compress_level;
  Ok (self, r).
End Marshal.

(** ** Reading the storage form *)

Inductive items_error : Type :=
| TooShortLens (got : nat)
| LensTail (len : nat)
| NotEnoughItemsData (want : Z) (remained : nat)
| ItemsTail (len : nat)
| BadDataLen (got : nat) (want : Z)
| CannotUnmarshalPlain (e : items_error)
| UnsortedItems (items : list (list Z))
| CannotDecompressLens (e : zstd_error)
| CannotUnmarshalPrefixLens (e : varint_error)
| CannotUnmarshalLens (e : varint_error)
| UnexpectedLensTail (items_count : Z) (len : nat)
| CannotDecompressItems (e : zstd_error)
| PrefixExceedsItem (prefix_len item_len : Z)
| PrefixExceedsPrevious (limit prefix_len : Z).

(** [Vec::reserve] on an empty vector: panics above [isize::MAX] bytes. *)
Definition reserve {E} (additional : Z) : res E unit := assert_ (additional <? 2 ^ 63).

Definition unmarshal_single_item {E} (common_prefix first_item : list Z) (mt : MarshalType)
    : res E InmemoryBlock :=
  _ ← assert_ (match mt with MarshalPlain => true | MarshalZstd => false end);
  Ok (mkIB common_prefix first_item [mkItem 0 (as_u32 (Z.of_nat (length first_item)))]).

(** The lengths of the items after the first one and the unread bytes. *)
Fixpoint read_lens (n : nat) (b : list Z) : res items_error (list Z * list Z) :=
  match n with
  | O => Ok ([], b)
  | S n =>
      _ ← guard_ (length b <? 8)%nat (TooShortLens (length b));
      len ← unmarshal_uint64 b;
      b ← slice_from b 8;
      '(lens, b) ← read_lens n b;
      Ok (len :: lens, b)
  end.

(** Appends the items to [data] and [items]; returns the unread bytes too. *)
Fixpoint plain_items_loop (common_prefix : list Z) (lens : list Z) (data : list Z) (items : list Item)
    (b : list Z) : res items_error (list Z * list Item * list Z) :=
  match lens with
  | [] => Ok (data, items, b)
  | item_len :: lens =>
      _ ← guard_ (Z.of_nat (length b) <? item_len) (NotEnoughItemsData item_len (length b));
      let data_start := Z.of_nat (length data) in
      head ← slice_to b (Z.to_nat item_len);
      let data := (data ++ common_prefix) ++ head in
      b ← slice_from b (Z.to_nat item_len);
      plain_items_loop common_prefix lens data
        (items ++ [mkItem (as_u32 data_start) (as_u32 (Z.of_nat (length data)))]) b
  end.

Definition unmarshal_data_plain (common_prefix : list Z) (sb : StorageBlock) (first_item : list Z)
    (items_count : Z) : res items_error InmemoryBlock :=
  '(lens, b) ← read_lens (Z.to_nat items_count - 1) (sb_lens_data sb);
  _ ← guard_ (negb (length b =? 0)%nat) (LensTail (length b));
  let data_len := as_u64 (Z.of_nat (length first_item) + Z.of_nat (length (sb_items_data sb)) +
                          Z.of_nat (length common_prefix) * (items_count - 1)) in
  _ ← reserve data_len;
  '(data, items, b) ← plain_items_loop common_prefix lens first_item
                        [mkItem 0 (as_u32 (Z.of_nat (length first_item)))] (sb_items_data sb);
  _ ← guard_ (negb (length b =? 0)%nat) (ItemsTail (length b));
  _ ← guard_ (negb (Z.of_nat (length data) =? data_len)) (BadDataLen (length data) data_len);
  Ok (mkIB common_prefix data items).

(** [v[i + 1] = xs[i] ^ v[i]], from [v[0]] on. *)
Fixpoint xor_scan (v : Z) (xs : list Z) : list Z :=
  match xs with
  | [] => []
  | x :: xs => Z.lxor x v :: xor_scan (Z.lxor x v) xs
  end.

(** The loop over the items after the first one, given with their prefix
    lengths and lengths. *)
Fixpoint zstd_items_loop (common_prefix : list Z) (pairs : list (Z * Z)) (data : list Z)
    (items : list Item) (prev_item_start : Z) (b : list Z)
    : res items_error (list Z * list Item * list Z) :=
  match pairs with
  | [] => Ok (data, items, b)
  | (prefix_len, item_len) :: pairs =>
      _ ← guard_ (prefix_len >? item_len) (PrefixExceedsItem prefix_len item_len);
      let suffix_len := item_len - prefix_len in
      _ ← guard_ (Z.of_nat (length b) <? suffix_len) (NotEnoughItemsData suffix_len (length b));
      let prefix_end := as_u64 (prev_item_start + prefix_len) in
      _ ← guard_ (prefix_end >? Z.of_nat (length data))
            (PrefixExceedsPrevious (as_u64 (Z.of_nat (length data) - prev_item_start)) prefix_len);
      let data_start := Z.of_nat (length data) in
      let data := data ++ common_prefix in
      prefix ← slice data prev_item_start prefix_end;
      head ← slice_to b (Z.to_nat suffix_len);
      let data := (data ++ prefix) ++ head in
      b ← slice_from b (Z.to_nat suffix_len);
      zstd_items_loop common_prefix pairs data
        (items ++ [mkItem (as_u32 data_start) (as_u32 (Z.of_nat (length data)))])
        (as_u64 (Z.of_nat (length data) - item_len)) b
  end.

(** The check at the end of both decoders. *)
Definition check_sorted (self : InmemoryBlock) : res items_error InmemoryBlock :=
  sorted ← is_sorted self;
  if negb sorted then items ← debug_items self; Err (UnsortedItems items) else Ok self.

Section Unmarshal.
  Context {Zs : Zstd}.

Definition unmarshal_data_zstd (sb : StorageBlock) (first_item common_prefix : list Z)
    (items_count : Z) : res items_error InmemoryBlock :=
  bb ← map_err CannotDecompressLens (decompress_zstd [] (sb_lens_data sb));
  let n := (Z.to_nat items_count - 1)%nat in
  '(xs, tail) ← map_err CannotUnmarshalPrefixLens (unmarshal_var_uint64s n bb);
  let prefix_lens := xor_scan 0 xs in
  '(xs, tail) ← map_err CannotUnmarshalLens (unmarshal_var_uint64s n tail);
  _ ← guard_ (negb (length tail =? 0)%nat) (UnexpectedLensTail items_count (length tail));
  let len0 := as_u64 (Z.of_nat (length first_item) - Z.of_nat (length common_prefix)) in
  let lens := xor_scan len0 xs in
  let data_len := foldl (fun acc len => as_u64 (acc + len))
                    (as_u64 (Z.of_nat (length common_prefix) * items_count + len0)) lens in
  bb ← map_err CannotDecompressItems (decompress_zstd [] (sb_items_data sb));
  _ ← reserve data_len;
  '(data, items, b) ← zstd_items_loop common_prefix (zip prefix_lens lens) first_item
                        [mkItem 0 (as_u32 (Z.of_nat (length first_item)))]
                        (Z.of_nat (length common_prefix)) bb;
  _ ← guard_ (negb (length b =? 0)%nat) (ItemsTail (length b));
  _ ← guard_ (negb (Z.of_nat (length data) =? data_len)) (BadDataLen (length data) data_len);
  check_sorted (mkIB common_prefix data items).

(** The block is reset first, so the result does not depend on it. *)
Definition ib_unmarshal_data (sb : StorageBlock) (first_item common_prefix : list Z) (items_count : Z)
    (mt : MarshalType) : res items_error InmemoryBlock :=
  _ ← assert_ (items_count >? 0);
  match mt with
  | MarshalPlain =>
      self ← map_err CannotUnmarshalPlain
               (unmarshal_data_plain common_prefix sb first_item items_count);
      check_sorted self
  | MarshalZstd => unmarshal_data_zstd sb first_item common_prefix items_count
  end.
End Unmarshal.

(** ** The items of a block *)

Definition item_of (data : list Z) (it : Item) : list Z :=
  take (Z.to_nat (it_end it - it_start it)) (drop (Z.to_nat (it_start it)) data).
Definition block_items (b : InmemoryBlock) : list (list Z) := map (item_of (ib_data b)) (ib_items b).

Definition wf_item (data : list Z) (it : Item) : Prop :=
  0 <= it_start it <= it_end it /\ it_end it <= Z.of_nat (length data).

(** The offsets of every item are in range, and fit 32 bits. *)
Definition wf_ib (b : InmemoryBlock) : Prop :=
  Z.of_nat (length (ib_data b)) < 2 ^ 32 /\ Forall (wf_item (ib_data b)) (ib_items b).

Abbreviation sorted_items := (StronglySorted (fun x y => lex_leb x y)).

Lemma map_res_ok {E A B} (f : A -> res E B) (g : A -> B) l :
  Forall (fun x => f x = Ok (g x)) l -> map_res f l = Ok (map g l).
Proof. induction 1 as [|x l Hx Hl IH]; cbn [map_res map]; [done|]. by rewrite Hx, bind_Ok, IH. Qed.

Lemma slice_ok {E} data a b :
  0 <= a <= b -> b <= Z.of_nat (length data) ->
  slice (E := E) data a b = Ok (take (Z.to_nat (b - a)) (drop (Z.to_nat a) data)).
Proof. intros. unfold slice. by rewrite (proj2 (Z.leb_le a b)), (proj2 (Z.leb_le b _)) by lia. Qed.

Lemma item_bytes_ok {E} data it : wf_item data it -> item_bytes (E := E) it data = Ok (item_of data it).
Proof. intros [??]. by apply slice_ok. Qed.

Lemma length_item_of data it :
  wf_item data it -> Z.of_nat (length (item_of data it)) = it_end it - it_start it.
Proof. intros [??]. unfold item_of. rewrite length_take, length_drop. lia. Qed.

(** The item less its first [n] bytes. *)
Lemma slice_suffix {E} data it n :
  wf_item data it -> (n <= length (item_of data it))%nat ->
  slice (E := E) data (it_start it + Z.of_nat n) (it_end it) = Ok (drop n (item_of data it)).
Proof.
  intros Hw Hn. pose proof (length_item_of data it Hw). destruct Hw as [??].
  rewrite slice_ok by lia. unfold item_of. rewrite skipn_firstn_comm, drop_drop. f_equal. f_equal; [lia|f_equal; lia].
Qed.

Lemma slice_prefix {E} data it n :
  wf_item data it -> (n <= length (item_of data it))%nat ->
  slice (E := E) data (it_start it) (it_start it + Z.of_nat n) = Ok (take n (item_of data it)).
Proof.
  intros Hw Hn. pose proof (length_item_of data it Hw). destruct Hw as [??].
  rewrite slice_ok by lia. unfold item_of. rewrite take_take. f_equal. f_equal. lia.
Qed.

Lemma debug_items_ok {E} b : wf_ib b -> debug_items (E := E) b = Ok (block_items b).
Proof.
  intros [_ Hw]. apply map_res_ok. revert Hw. apply Forall_weaken. intros it. by apply item_bytes_ok.
Qed.

(** ** Order *)

Lemma lex_leb_trans_bool (x y z : list Z) : lex_leb x y -> lex_leb y z -> lex_leb x z.
Proof. apply lex_leb_trans. Qed.

Lemma sorted_windows_chain {E} data items :
  Forall (wf_item data) items ->
  sorted_windows (E := E) data items = Ok (chain_b lex_leb (map (item_of data) items)).
Proof.
  induction 1 as [|a items Ha Hl IH]; [done|]. destruct Hl as [|b items Hb Hl]; [done|].
  transitivity (x ← item_bytes (E := E) a data; y ← item_bytes b data;
                if lex_leb x y then sorted_windows data (b :: items) else Ok false); [done|].
  rewrite IH, !item_bytes_ok, !bind_Ok by done. cbn [map]. cbn [chain_b].
  by destruct (lex_leb (item_of data a) (item_of data b)).
Qed.

Lemma is_sorted_items {E} b :
  wf_ib b -> exists s, is_sorted (E := E) b = Ok s /\ (Is_true s <-> sorted_items (block_items b)).
Proof.
  intros [_ Hw]. eexists. split; [by apply sorted_windows_chain|]. apply chain_b_sorted, lex_leb_trans_bool.
Qed.

Lemma check_sorted_ok b : wf_ib b -> sorted_items (block_items b) -> check_sorted b = Ok b.
Proof.
  intros Hw Hs. destruct (is_sorted_items (E := items_error) b Hw) as (s & Hb & Hiff). unfold check_sorted. rewrite Hb, bind_Ok.
  destruct s; [done|]. by apply Hiff in Hs.
Qed.

Lemma check_sorted_cases b :
  wf_ib b -> (check_sorted b = Ok b /\ sorted_items (block_items b)) \/ check_sorted b = Err (UnsortedItems (block_items b)).
Proof.
  intros Hw. destruct (is_sorted_items (E := items_error) b Hw) as (s & Hb & Hiff). unfold check_sorted. rewrite Hb, bind_Ok.
  destruct s; cbn [negb]; [left; split; [done|by apply Hiff]|right]. by rewrite debug_items_ok, bind_Ok.
Qed.

(** ** Common prefixes *)

Lemma cpl_le_l a b : (common_prefix_len a b <= length a)%nat.
Proof. revert b. induction a as [|x a IH]; intros [|y b]; cbn; try lia. destruct (_ =? _); [|lia]. specialize (IH b). lia. Qed.

Lemma cpl_comm a b : common_prefix_len a b = common_prefix_len b a.
Proof.
  revert b. induction a as [|x a IH]; intros [|y b]; cbn; try done. rewrite (Z.eqb_sym y x), IH. done.
Qed.

Lemma cpl_le_r a b : (common_prefix_len a b <= length b)%nat.
Proof. rewrite cpl_comm. apply cpl_le_l. Qed.

Lemma cpl_take a b : take (common_prefix_len a b) a = take (common_prefix_len a b) b.
Proof.
  revert b. induction a as [|x a IH]; intros [|y b]; cbn; try done.
  destruct (Z.eqb_spec x y); [|done]. subst. cbn. by rewrite IH.
Qed.

Lemma cpl_prefix_l a b : take (common_prefix_len a b) a `prefix_of` a.
Proof. exists (drop (common_prefix_len a b) a). by rewrite take_drop. Qed.
Lemma cpl_prefix_r a b : take (common_prefix_len a b) a `prefix_of` b.
Proof. rewrite cpl_take. exists (drop (common_prefix_len a b) b). by rewrite take_drop. Qed.

(** The common prefix is the longest one. *)
Lemma cpl_greatest p a b : p `prefix_of` a -> p `prefix_of` b -> p `prefix_of` take (common_prefix_len a b) a.
Proof.
  revert a b. induction p as [|x p IH]; intros a b [a' ->] [b' ->]; [apply prefix_nil|].
  cbn. rewrite Z.eqb_refl. cbn. apply prefix_cons, IH; by eexists.
Qed.

Lemma starts_with_spec item cp : Is_true (starts_with item cp) <-> cp `prefix_of` item.
Proof.
  unfold starts_with. rewrite bool_decide_spec. split.
  - intros <-. exists (drop (length cp) item). by rewrite take_drop.
  - intros [k ->]. by rewrite take_app_length.
Qed.

(** [cp] is the longest common prefix of the items. *)
Definition longest_prefix (cp : list Z) (xs : list (list Z)) : Prop :=
  Forall (prefix cp) xs /\ forall p, Forall (prefix p) xs -> p `prefix_of` cp.

Lemma common_prefix_loop_spec {E} data items cp xs :
  Forall (wf_item data) items -> longest_prefix cp xs ->
  exists cp', common_prefix_loop (E := E) data cp items = Ok cp' /\
    longest_prefix cp' (xs ++ map (item_of data) items).
Proof.
  intros Hw. revert cp xs. induction Hw as [|it items Hit Hw IH]; intros cp xs [Hcp Hmax]; cbn [common_prefix_loop map].
  { exists cp. rewrite app_nil_r. done. }
  rewrite item_bytes_ok, bind_Ok by done. set (x := item_of data it).
  assert (Hstep : forall cp', cp' `prefix_of` cp -> cp' `prefix_of` x ->
    (forall p, p `prefix_of` cp -> p `prefix_of` x -> p `prefix_of` cp') -> longest_prefix cp' (xs ++ [x])).
  { intros cp' H1 H2 H3. split.
    - apply Forall_app. split; [|by constructor]. revert Hcp. apply Forall_weaken. intros y. by transitivity cp.
    - intros p [Hp Hpx]%Forall_app. apply H3; [by apply Hmax|by inversion Hpx]. }
  change (x :: map (item_of data) items) with ([x] ++ map (item_of data) items). rewrite (app_assoc xs).
  destruct (starts_with x cp) eqn:Hsw.
  - assert (cp `prefix_of` x) by (apply starts_with_spec; by rewrite Hsw). apply IH, Hstep; [done|done|]. intros p Hp _. done.
  - destruct (Nat.eqb_spec (common_prefix_len cp x) 0) as [H0|_].
    + exists []. split; [done|]. split; [apply Forall_true; intros; apply prefix_nil|].
      intros p Hp. apply Forall_app in Hp as [[Hp Hpx]%Forall_app _]. inversion Hpx as [|?? Hpx' _]; subst.
      pose proof (cpl_greatest p cp x (Hmax p Hp) Hpx') as Hg. by rewrite H0 in Hg.
    + apply IH, Hstep; [apply cpl_prefix_l|apply cpl_prefix_r|]. intros p. by apply cpl_greatest.
Qed.

Lemma update_unsorted_spec {E} b :
  wf_ib b -> (1 <= length (ib_items b))%nat ->
  exists cp, update_common_prefix_unsorted (E := E) b = Ok (mkIB cp (ib_data b) (ib_items b)) /\
    longest_prefix cp (block_items b).
Proof.
  intros [Hd Hw] Hn. unfold update_common_prefix_unsorted, block_items. destruct (ib_items b) as [|it items]; [cbn in Hn; lia|].
  inversion Hw; subst. rewrite item_bytes_ok, bind_Ok by done.
  destruct (common_prefix_loop_spec (E := E) (ib_data b) items (item_of (ib_data b) it) [item_of (ib_data b) it])
    as (cp & Hl & Hcp); [done| |].
  { split; [by repeat constructor|]. intros p Hp. by inversion Hp. }
  exists cp. by rewrite Hl, bind_Ok.
Qed.

(** A string between two strings with prefix [p] has prefix [p]. *)
Lemma lex_between p x y z :
  lex_leb x y -> lex_leb y z -> p `prefix_of` x -> p `prefix_of` z -> p `prefix_of` y.
Proof.
  revert x y z. induction p as [|c p IH]; intros x y z Hxy Hyz [x' ->] [z' ->]; [apply prefix_nil|].
  destruct y as [|d y]; [done|]. unfold lex_leb in *. cbn in *.
  destruct (Z.compare_spec c d), (Z.compare_spec d c); try done; try lia. subst.
  apply prefix_cons, (IH (p ++ x') y (p ++ z')); [done|done|by eexists..].
Qed.

Lemma lex_leb_app p x y : lex_leb (p ++ x) (p ++ y) = lex_leb x y.
Proof. unfold lex_leb. induction p as [|c p IH]; cbn; [done|]. by rewrite Z.compare_refl. Qed.

Lemma sorted_items_between (x : list Z) xs y :
  sorted_items (x :: xs) -> last (x :: xs) = Some y -> forall z, In z (x :: xs) -> lex_leb x z /\ lex_leb z y.
Proof.
  intros Hs Hl z Hz. apply StronglySorted_cons in Hs as Hs'. destruct Hs' as [Hx _]. split.
  - destruct Hz as [->|Hz]; [by rewrite lex_leb_refl|]. rewrite Forall_In in Hx. by apply Hx.
  - apply last_Some in Hl as [l Hl]. rewrite Hl in Hs, Hz. apply StronglySorted_app in Hs as (Hs & _).
    apply in_app_or in Hz as [Hz|[->|[]]]; [|by rewrite lex_leb_refl]. apply Hs; [by apply list_elem_of_In|by left].
Qed.

Lemma longest_prefix_ends x xs y :
  sorted_items (x :: xs) -> last (x :: xs) = Some y ->
  longest_prefix (take (common_prefix_len x y) x) (x :: xs).
Proof.
  intros Hs Hl. split.
  - apply Forall_In. intros z Hz. destruct (sorted_items_between x xs y Hs Hl z Hz).
    apply (lex_between _ x z y); [done..|apply cpl_prefix_l|apply cpl_prefix_r].
  - intros p Hp. rewrite Forall_In in Hp. apply cpl_greatest; apply Hp; [by left|].
    apply last_Some in Hl as [l ->]. apply in_or_app. right. by left.
Qed.

Lemma update_sorted_spec {E} b :
  wf_ib b -> sorted_items (block_items b) ->
  exists cp, update_common_prefix_sorted (E := E) b = Ok (mkIB cp (ib_data b) (ib_items b)) /\
    Forall (prefix cp) (block_items b) /\
    ((2 <= length (ib_items b))%nat -> longest_prefix cp (block_items b)) /\
    ((length (ib_items b) <= 1)%nat -> cp = []).
Proof.
  intros [Hd Hw] Hs. unfold update_common_prefix_sorted. destruct (Nat.leb_spec (length (ib_items b)) 1) as [Hn|Hn].
  { exists []. split_and!; [done| |lia|done]. apply Forall_true. intros. apply prefix_nil. }
  unfold block_items in *. destruct (ib_items b) as [|it items] eqn:Hits; [cbn in Hn; lia|].
  destruct (last (it :: items)) as [itn|] eqn:Hlast; [|by apply last_None in Hlast].
  pose proof Hlast as Hlast0. rewrite last_lookup in Hlast. cbn [Nat.pred length] in Hlast. unfold idx. cbn [lookup list_lookup length].
  rewrite Nat.sub_1_r. cbn [Nat.pred]. rewrite Hlast.
  assert (Hwn : wf_item (ib_data b) itn) by (rewrite Forall_lookup in Hw; by eapply Hw). inversion Hw; subst.
  rewrite bind_Ok, item_bytes_ok, !bind_Ok, item_bytes_ok, bind_Ok by done.
  rewrite slice_prefix by (done || apply cpl_le_l). rewrite bind_Ok. eexists. split; [done|].
  assert (Hlp : longest_prefix (take (common_prefix_len (item_of (ib_data b) it) (item_of (ib_data b) itn))
                  (item_of (ib_data b) it)) (map (item_of (ib_data b)) (it :: items))).
  { apply longest_prefix_ends; [exact Hs|].
    exact (eq_trans (fmap_last (item_of (ib_data b)) (it :: items)) (f_equal (fmap (item_of (ib_data b))) Hlast0)). }
  split_and!; [apply Hlp|done|cbn in *; lia].
Qed.

(** ** Sorting *)

#[export] Instance key_le_trans : Transitive key_le.
Proof. intros x y z. apply lex_leb_trans. Qed.
#[export] Instance key_le_total : Total key_le.
Proof. intros x y. apply lex_leb_total. Qed.

Lemma StronglySorted_map {A B} (f : A -> B) (R : A -> A -> Prop) (Q : B -> B -> Prop) l :
  (forall x y, In x l -> In y l -> R x y -> Q (f x) (f y)) -> StronglySorted R l -> StronglySorted Q (map f l).
Proof.
  intros Hrq. induction 1 as [|x l Hl IH Hx]; cbn; [constructor|]. constructor.
  - apply IH. intros y z Hy Hz. apply Hrq; by right.
  - rewrite Forall_In in Hx. apply Forall_In. intros y (z & <- & Hz)%in_map_iff. apply Hrq; [by left|by right|by apply Hx].
Qed.

Lemma sort_items_ok {E} b :
  wf_ib b ->
  exists b', sort_items (E := E) b = Ok b' /\ wf_ib b' /\ ib_data b' = ib_data b /\
    Permutation (ib_items b') (ib_items b) /\ sorted_items (block_items b') /\
    Forall (prefix (ib_common_prefix b')) (block_items b') /\
    ((2 <= length (ib_items b))%nat -> longest_prefix (ib_common_prefix b') (block_items b')) /\
    ((length (ib_items b) <= 1)%nat -> ib_common_prefix b' = []).
Proof.
  intros Hwf. destruct (is_sorted_items (E := E) b Hwf) as (s & Hb & Hiff). unfold sort_items. rewrite Hb, bind_Ok.
  destruct s; cbn [negb].
  { destruct (update_sorted_spec (E := E) b Hwf) as (cp & -> & Hcp); [by apply Hiff|]. eexists. split; [done|].
    split_and!; [exact Hwf|done|done|by apply Hiff|exact (proj1 Hcp)|exact (proj1 (proj2 Hcp))|exact (proj2 (proj2 Hcp))]. }
  assert (Hn : (2 <= length (ib_items b))%nat).
  { destruct (Nat.lt_ge_cases (length (ib_items b)) 2) as [Hlt|]; [|done]. exfalso. apply Hiff. unfold block_items.
    destruct (ib_items b) as [|? [|? ?]]; [constructor|repeat constructor|cbn in Hlt; lia]. }
  destruct (update_unsorted_spec (E := E) b Hwf) as (cp & -> & Hpre & Hmax); [lia|].
  rewrite bind_Ok. cbn [ib_common_prefix ib_data ib_items]. destruct Hwf as [Hd Hw].
  assert (Hkey : Forall (fun it => suffix_key (E := E) (ib_data b) (as_u32 (Z.of_nat (length cp))) it =
                   Ok (drop (length cp) (item_of (ib_data b) it), it)) (ib_items b)).
  { apply Forall_In. intros it Hit. pose proof (proj1 (Forall_In _ _) Hw it Hit) as Hi.
    assert (Hp : cp `prefix_of` item_of (ib_data b) it) by (apply (proj1 (Forall_In _ _) Hpre); by apply in_map).
    apply prefix_length in Hp. pose proof (length_item_of _ _ Hi) as Hl. pose proof Hi as [??].
    unfold suffix_key. rewrite !wrap_u_id by (unfold is_u; rewrite ?wrap_u_id by (unfold is_u; lia); lia).
    by rewrite slice_suffix. }
  rewrite (map_res_ok _ _ _ Hkey), bind_Ok. set (kf := fun it => (drop (length cp) (item_of (ib_data b) it), it)).
  pose proof (merge_sort_Permutation key_le (map kf (ib_items b))) as Hperm.
  pose proof (StronglySorted_merge_sort key_le (map kf (ib_items b))) as Hsort.
  assert (Hp2 : Permutation (merge_sort key_le (map kf (ib_items b))).*2 (ib_items b)).
  { rewrite Hperm. rewrite <-list_fmap_compose. by rewrite list_fmap_id. }
  eexists. split; [done|]. cbn [ib_data ib_items ib_common_prefix].
  assert (Hperm' : Permutation (map (item_of (ib_data b)) (merge_sort key_le (map kf (ib_items b))).*2) (block_items b))
    by (by apply Permutation_map).
  unfold block_items at 1 2 3. cbn [ib_data ib_items].
  split_and!; [split; [done|cbn; by rewrite Hp2]|done|done| | |intros _; split|lia].
  - rewrite map_map. apply (StronglySorted_map _ key_le); [|done].
    intros x y Hx Hy. rewrite Hperm in Hx, Hy. apply in_map_iff in Hx as (ix & <- & Hx), Hy as (iy & <- & Hy).
    unfold key_le, kf. cbn [fst snd]. rewrite Forall_In in Hpre.
    destruct (Hpre (item_of (ib_data b) ix)) as [kx ->]; [by apply in_map|].
    destruct (Hpre (item_of (ib_data b) iy)) as [ky ->]; [by apply in_map|].
    by rewrite !drop_app_length, lex_leb_app.
  - by rewrite Hperm'.
  - by rewrite Hperm'.
  - intros p Hp. apply Hmax. by rewrite <-Hperm'.
Qed.
