(* ===== verification/ItemBlockSpec.v ===== *)
(** * Blocks of items are stored without loss

    The layout of the items in the buffer of a block, and the two theorems on
    the storage form of [esm-mergeset/src/inmemory_block.rs]: what is written
    is read back as the sorted block, and what is read from any bytes is a
    sorted block. *)
From Stdlib Require Import ZArith Lia Bool Sorted Permutation.
From S2P Require Import Prelude IntCodec Float64 Compress ItemBlock.
Local Open Scope Z_scope.

(** ** Packed blocks *)

Abbreviation total xs := (length (concat xs)).

(** The offsets of consecutive items from [off] on. *)
Fixpoint layout (off : Z) (xs : list (list Z)) : list Item :=
  match xs with
  | [] => []
  | x :: xs => mkItem off (off + Z.of_nat (length x)) :: layout (off + Z.of_nat (length x)) xs
  end.

(** The block that holds the items [xs] one after the other. *)
Definition pack (cp : list Z) (xs : list (list Z)) : InmemoryBlock := mkIB cp (concat xs) (layout 0 xs).

Lemma length_layout off xs : length (layout off xs) = length xs.
Proof. revert off. induction xs; intros off; cbn; auto. Qed.

Lemma layout_app off xs ys : layout off (xs ++ ys) = layout off xs ++ layout (off + Z.of_nat (total xs)) ys.
Proof.
  revert off. induction xs as [|x xs IH]; intros off; cbn; [by rewrite Z.add_0_r|].
  rewrite IH, length_app, Nat2Z.inj_add. by rewrite Z.add_assoc.
Qed.

Lemma layout_items pre xs post :
  map (item_of (pre ++ concat xs ++ post)) (layout (Z.of_nat (length pre)) xs) = xs /\
  Forall (wf_item (pre ++ concat xs ++ post)) (layout (Z.of_nat (length pre)) xs).
Proof.
  revert pre. induction xs as [|x xs IH]; intros pre; cbn; [done|].
  specialize (IH (pre ++ x)). rewrite length_app, Nat2Z.inj_add in IH. rewrite <-!app_assoc in *. destruct IH as [-> IH].
  split.
  - f_equal. unfold item_of. cbn. rewrite Nat2Z.id, drop_app_length.
    replace (Z.to_nat _) with (length x) by lia. by rewrite take_app_length.
  - constructor; [|done]. unfold wf_item. cbn. rewrite !length_app. lia.
Qed.

Lemma pack_items cp xs : block_items (pack cp xs) = xs.
Proof. pose proof (layout_items [] xs []) as [H _]. cbn in H. by rewrite app_nil_r in H. Qed.

Lemma pack_wf cp xs : Z.of_nat (total xs) < 2 ^ 32 -> wf_ib (pack cp xs).
Proof.
  intros. split; [done|]. pose proof (layout_items [] xs []) as [_ Hw]. cbn in Hw. by rewrite app_nil_r in Hw.
Qed.

Lemma total_snoc (xs : list (list Z)) x : total (xs ++ [x]) = (total xs + length x)%nat.
Proof. rewrite concat_app, length_app. cbn. by rewrite app_nil_r. Qed.

Lemma add_pack cp xs x :
  Z.of_nat (total xs) + Z.of_nat (length x) <= MAX_INMEMORY_BLOCK_SIZE ->
  ib_add (pack cp xs) x = (pack cp (xs ++ [x]), true).
Proof.
  unfold MAX_INMEMORY_BLOCK_SIZE. intros Hle. unfold ib_add, pack. cbn [ib_data ib_items ib_common_prefix].
  rewrite Z.gtb_ltb, (proj2 (Z.ltb_ge _ _)) by (unfold MAX_INMEMORY_BLOCK_SIZE; lia).
  rewrite !wrap_u_id by (unfold is_u; rewrite ?length_app; lia). rewrite layout_app, concat_app, length_app. cbn.
  rewrite app_nil_r, Nat2Z.inj_add. done.
Qed.

Lemma add_full cp xs x :
  MAX_INMEMORY_BLOCK_SIZE < Z.of_nat (total xs) + Z.of_nat (length x) ->
  ib_add (pack cp xs) x = (pack cp xs, false).
Proof.
  intros Hlt. unfold ib_add. cbn [ib_data pack]. by rewrite Z.gtb_ltb, (proj2 (Z.ltb_lt _ _)) by lia.
Qed.

(** ** XOR differences *)

Fixpoint xor_diff (v : Z) (l : list Z) : list Z :=
  match l with
  | [] => []
  | x :: l => Z.lxor x v :: xor_diff x l
  end.

Lemma xor_scan_diff v l : xor_scan v (xor_diff v l) = l.
Proof.
  revert v. induction l as [|x l IH]; intros v; cbn; [done|].
  rewrite Z.lxor_assoc, Z.lxor_nilpotent, Z.lxor_0_r. by rewrite IH.
Qed.

Lemma xor_diff_length v l : length (xor_diff v l) = length l.
Proof. revert v. induction l; intros; cbn; auto. Qed.

Lemma lxor_u64 a b : is_u64 a -> is_u64 b -> is_u64 (Z.lxor a b).
Proof.
  unfold is_u. intros [??] [??]. assert (0 <= Z.lxor a b) by (apply Z.lxor_nonneg; lia). split; [done|].
  destruct (decide (Z.lxor a b = 0)) as [->|]; [lia|].
  apply Z.log2_lt_pow2; [lia|]. eapply Z.le_lt_trans; [by apply Z.log2_lxor|].
  destruct (decide (a = 0)) as [->|]; destruct (decide (b = 0)) as [->|]; cbn; try lia;
    rewrite ?Z.max_r, ?Z.max_l by apply Z.log2_nonneg; try (by apply Z.log2_lt_pow2; lia).
  apply Z.max_lub_lt; apply Z.log2_lt_pow2; lia.
Qed.

Lemma xor_diff_u64 v l : is_u64 v -> Forall is_u64 l -> Forall is_u64 (xor_diff v l).
Proof. intros Hv Hl. revert v Hv. induction Hl; intros; cbn; constructor; auto using lxor_u64. Qed.

Lemma lens_loop_diff cp_len v items xs :
  lens_loop cp_len v items xs = xs ++ xor_diff v (map (suffix_len cp_len) items).
Proof.
  revert v xs. induction items as [|it items IH]; intros v xs; cbn; [by rewrite app_nil_r|].
  by rewrite IH, <-app_assoc.
Qed.

(** ** Encoding *)

Fixpoint prefix_lens (prev : list Z) (ys : list (list Z)) : list Z :=
  match ys with
  | [] => []
  | y :: ys => Z.of_nat (common_prefix_len prev y) :: prefix_lens y ys
  end.

Fixpoint fresh_bytes (prev : list Z) (ys : list (list Z)) : list (list Z) :=
  match ys with
  | [] => []
  | y :: ys => drop (common_prefix_len prev y) y :: fresh_bytes y ys
  end.

Abbreviation item_lens ys := (map (fun y : list Z => Z.of_nat (length y)) ys).

(** [b] holds the items [x0 :: xs], all with the common prefix [cp]. *)
Record encodes (b : InmemoryBlock) (y0 : list Z) (ys : list (list Z)) : Prop := {
  en_wf : wf_ib b;
  en_items : block_items b = map (app (ib_common_prefix b)) (y0 :: ys);
  en_count : Z.of_nat (length (y0 :: ys)) < 2 ^ 32;
}.

Lemma encodes_intro b :
  wf_ib b -> ib_items b <> [] -> Z.of_nat (length (ib_items b)) < 2 ^ 32 ->
  Forall (prefix (ib_common_prefix b)) (block_items b) -> exists y0 ys, encodes b y0 ys.
Proof.
  intros Hw Hne Hn Hp. assert (He : exists l, block_items b = map (app (ib_common_prefix b)) l).
  { clear -Hp. induction Hp as [|x l [k ->] Hl [l' ->]]; [by exists []|by exists (k :: l')]. }
  destruct He as [l Hl]. assert (Hlen : length (ib_items b) = length l).
  { apply (f_equal length) in Hl. unfold block_items in Hl. by rewrite !length_map in Hl. }
  destruct l as [|y0 ys]; [by destruct (ib_items b)|]. exists y0, ys. split; [done..|]. by rewrite <-Hlen.
Qed.

Lemma rest_suffixes {E} data cp items ys :
  Forall (wf_item data) items -> map (item_of data) items = map (app cp) ys ->
  map_res (E := E) (fun it => slice data (it_start it + Z.of_nat (length cp)) (it_end it)) items = Ok ys.
Proof.
  intros Hw. revert ys. induction Hw as [|it items Hit Hw IH]; intros [|y ys]; try done.
  intros [= Hy Hys]. cbn [map_res]. rewrite slice_suffix; [|done|rewrite Hy, length_app; lia].
  by rewrite Hy, drop_app_length, bind_Ok, (IH ys).
Qed.

Lemma rest_lens data cp items ys :
  Z.of_nat (length data) < 2 ^ 32 ->
  Forall (wf_item data) items -> map (item_of data) items = map (app cp) ys ->
  map (suffix_len (Z.of_nat (length cp))) items = item_lens ys.
Proof.
  intros Hd Hw. revert ys. induction Hw as [|it items Hit Hw IH]; intros [|y ys]; try done.
  intros [= Hy Hys]. cbn [map]. f_equal; [|by apply IH]. pose proof (length_item_of _ _ Hit) as Hl. rewrite Hy, length_app in Hl.
  destruct Hit as [??]. unfold suffix_len. rewrite !wrap_u_id; unfold is_u; rewrite ?wrap_u_id; unfold is_u; lia.
Qed.

Lemma rest_items_loop {E} data cp prev pl items ys bi xs :
  Forall (wf_item data) items -> map (item_of data) items = map (app cp) ys ->
  items_loop (E := E) data (Z.of_nat (length cp)) prev pl items bi xs =
    Ok (bi ++ concat (fresh_bytes prev ys), xs ++ xor_diff pl (prefix_lens prev ys)).
Proof.
  intros Hw. revert ys prev pl bi xs. induction Hw as [|it items Hit Hw IH]; intros [|y ys] prev pl bi xs; try done.
  { intros _. cbn. by rewrite !app_nil_r. }
  intros [= Hy Hys]. cbn [items_loop]. rewrite slice_suffix; [|done|rewrite Hy, length_app; lia].
  rewrite Hy, drop_app_length, bind_Ok. unfold slice_from. rewrite decide_True by apply cpl_le_r. rewrite bind_Ok.
  rewrite (IH ys) by done. cbn [fresh_bytes prefix_lens concat xor_diff]. by rewrite <-!app_assoc.
Qed.

Definition plain_form (ys : list (list Z)) : StorageBlock :=
  mkStorageBlock (concat ys) (concat (map (to_be_bytes 8) (item_lens ys))).

(** The bytes compressed for the lengths of the items after [y0]. *)
Definition packed_lens (y0 : list Z) (ys : list (list Z)) : list Z :=
  marshal_var_uint64s (marshal_var_uint64s [] (xor_diff 0 (prefix_lens y0 ys)))
    (xor_diff (Z.of_nat (length y0)) (item_lens ys)).

Definition zstd_form `{Zs : Zstd} (lvl : Z) (y0 : list Z) (ys : list (list Z)) : StorageBlock :=
  mkStorageBlock (zstd_compress lvl (concat (fresh_bytes y0 ys))) (zstd_compress lvl (packed_lens y0 ys)).

Lemma foldl_marshal_u64 {A} (f : A -> Z) items lens :
  foldl (fun lens it => marshal_uint64 lens (f it)) lens items = lens ++ concat (map (to_be_bytes 8) (map f items)).
Proof.
  revert lens. induction items as [|it items IH]; intros lens; cbn [foldl map concat]; [by rewrite app_nil_r|].
  rewrite IH. unfold marshal_uint64. by rewrite <-app_assoc.
Qed.

Lemma encodes_split b y0 ys :
  encodes b y0 ys -> exists it items, ib_items b = it :: items /\ wf_item (ib_data b) it /\
    item_of (ib_data b) it = ib_common_prefix b ++ y0 /\ Forall (wf_item (ib_data b)) items /\
    map (item_of (ib_data b)) items = map (app (ib_common_prefix b)) ys.
Proof.
  intros [[Hd Hw] Hit _]. unfold block_items in Hit. destruct (ib_items b) as [|it items]; [done|].
  injection Hit as H1 H2. inversion Hw; subst. by exists it, items.
Qed.

Lemma marshal_plain_spec {E} b y0 ys : encodes b y0 ys -> marshal_data_plain (E := E) b = Ok (plain_form ys).
Proof.
  intros He. destruct (encodes_split _ _ _ He) as (it & items & Hits & _ & _ & Hw & Hys).
  unfold marshal_data_plain. rewrite Hits. unfold slice_from. rewrite decide_True by (cbn; lia). rewrite bind_Ok.
  change (drop 1 (it :: items)) with items. rewrite (rest_suffixes _ _ _ ys), bind_Ok by done. rewrite foldl_marshal_u64. cbn [app].
  rewrite (rest_lens (ib_data b) _ _ ys); [done|apply He|done..].
Qed.

Lemma ib_marshal_spec {E} `{Zs : Zstd} b y0 ys fd cd lvl :
  encodes b y0 ys ->
  exists sb mt, ib_marshal_data (E := E) b fd cd lvl =
      Ok (sb, fd ++ ib_common_prefix b ++ y0, cd ++ ib_common_prefix b, Z.of_nat (length (y0 :: ys)), mt) /\
    match mt with
    | MarshalPlain => sb = plain_form ys
    | MarshalZstd => ys <> [] /\ sb = zstd_form lvl y0 ys
    end.
Proof.
  intros He. destruct (encodes_split _ _ _ He) as (it & items & Hits & Hit & Hy0 & Hw & Hys).
  assert (Hlen : length items = length ys) by (apply (f_equal length) in Hys; by rewrite !length_map in Hys).
  pose proof (marshal_plain_spec (E := E) _ _ _ He) as Hplain. pose proof (en_count _ _ _ He) as Hn. cbn [length] in Hn.
  unfold ib_marshal_data. rewrite Hits. cbn [length]. rewrite Hlen.
  change (negb (S (length ys) =? 0)%nat) with true. rewrite (assert_true (_ <? _)) by (apply Z.ltb_lt; lia). cbn [assert_]. rewrite !bind_Ok. change (idx (E := E) (it :: items) 0) with (Ok (E := E) it). rewrite bind_Ok, item_bytes_ok, bind_Ok by done.
  rewrite Hy0, (wrap_u_id 32) by (unfold is_u; lia). destruct (_ || _) eqn:Hsmall.
  { rewrite Hplain, bind_Ok. by exists (plain_form ys), MarshalPlain. }
  apply orb_false_iff in Hsmall as [_ Hn2]. rewrite Nat2Z.id. unfold slice_from. rewrite !decide_True by (rewrite ?length_app; cbn; lia).
  rewrite drop_app_length, !bind_Ok. change (drop 1 (it :: items)) with items. rewrite (rest_items_loop _ _ _ _ _ ys), bind_Ok by done.
  destruct (f64_gt _ _).
  { rewrite Hplain, bind_Ok. by exists (plain_form ys), MarshalPlain. }
  eexists _, MarshalZstd. split; [done|]. split; [by destruct ys|].
  rewrite lens_loop_diff, (rest_lens (ib_data b) _ _ ys) by (done || apply He). unfold zstd_form, packed_lens, compress_zstd_level. cbn [app].
  do 4 f_equal. f_equal. rewrite length_app, Nat2Z.inj_add. rewrite wrap_u_id; [lia|].
  pose proof (length_item_of _ _ Hit) as Hl. rewrite Hy0, length_app in Hl. destruct (en_wf _ _ _ He), Hit. unfold is_u. lia.
Qed.

(** ** Decoding *)

Lemma item_lens_u64 ys : Z.of_nat (total ys) < 2 ^ 64 -> Forall is_u64 (item_lens ys).
Proof.
  induction ys as [|y ys IH]; cbn; [constructor|]. rewrite length_app. intros. constructor; [unfold is_u; lia|]. apply IH. lia.
Qed.

Lemma prefix_lens_u64 y ys : Z.of_nat (total ys) < 2 ^ 64 -> Forall is_u64 (prefix_lens y ys).
Proof.
  revert y. induction ys as [|z ys IH]; intros y; cbn; [constructor|]. rewrite length_app. intros.
  pose proof (cpl_le_r y z). constructor; [unfold is_u; lia|]. apply IH. lia.
Qed.

Lemma length_prefix_lens y ys : length (prefix_lens y ys) = length ys.
Proof. revert y. induction ys; intros; cbn; auto. Qed.

Lemma read_lens_spec ls tail :
  Forall is_u64 ls -> read_lens (length ls) (concat (map (to_be_bytes 8) ls) ++ tail) = Ok (ls, tail).
Proof.
  induction 1 as [|l ls Hl Hls IH]; [done|]. cbn [length read_lens map concat]. rewrite <-app_assoc.
  rewrite guard_false; [|apply Nat.ltb_ge; rewrite length_app, length_to_be_bytes; lia]. rewrite bind_Ok.
  unfold unmarshal_uint64. rewrite read_be_app, bind_Ok by done. rewrite slice_from_ok, bind_Ok by apply length_to_be_bytes.
  by rewrite IH.
Qed.

Lemma slice_to_ok {E A} (l1 l2 : list A) n : length l1 = n -> slice_to (E := E) (l1 ++ l2) n = Ok l1.
Proof.
  intros <-. unfold slice_to. rewrite decide_True by (rewrite length_app; lia). by rewrite take_app_length.
Qed.

Lemma plain_items_loop_spec cp ys data items tail :
  Z.of_nat (length data + total (map (app cp) ys)) < 2 ^ 32 ->
  plain_items_loop cp (item_lens ys) data items (concat ys ++ tail) =
    Ok (data ++ concat (map (app cp) ys), items ++ layout (Z.of_nat (length data)) (map (app cp) ys), tail).
Proof.
  revert data items. induction ys as [|y ys IH]; intros data items Hb; cbn [map concat plain_items_loop layout].
  { by rewrite !app_nil_r. }
  cbn [map concat] in Hb. rewrite !length_app in Hb. rewrite <-!app_assoc.
  rewrite guard_false by (apply Z.ltb_ge; rewrite length_app; lia). rewrite bind_Ok, Nat2Z.id.
  rewrite slice_to_ok, bind_Ok, slice_from_ok, bind_Ok by done. rewrite IH by (rewrite !length_app; lia).
  rewrite !wrap_u_id by (unfold is_u; rewrite ?length_app; lia). rewrite <-!app_assoc, !length_app, !Nat2Z.inj_add. cbn [app].
  by rewrite Z.add_assoc.
Qed.

Lemma zstd_items_loop_spec cp ys d0 y items tail :
  Z.of_nat (length (d0 ++ y) + total (map (app cp) ys)) < 2 ^ 32 ->
  zstd_items_loop cp (zip (prefix_lens y ys) (item_lens ys)) (d0 ++ y) items (Z.of_nat (length d0))
      (concat (fresh_bytes y ys) ++ tail) =
    Ok ((d0 ++ y) ++ concat (map (app cp) ys),
        items ++ layout (Z.of_nat (length (d0 ++ y))) (map (app cp) ys), tail).
Proof.
  revert d0 y items. induction ys as [|z ys IH]; intros d0 y items Hb; cbn [map concat layout prefix_lens fresh_bytes].
  { cbn. by rewrite !app_nil_r. }
  change (zip (?a :: ?l) (?b :: ?k)) with ((a, b) :: zip l k). cbn [zstd_items_loop].
  cbn [map concat] in Hb. rewrite !length_app in Hb. pose proof (cpl_le_l y z). pose proof (cpl_le_r y z). pose proof (cpl_take y z) as Ht.
  set (p := common_prefix_len y z) in *. rewrite <-!app_assoc.
  pass_guard ltac:(rewrite Z.gtb_ltb; apply Z.ltb_ge; lia).
  pass_guard ltac:(apply Z.ltb_ge; rewrite length_app, length_drop; lia).
  rewrite (wrap_u_id 64 (_ + Z.of_nat p)) by (unfold is_u; lia).
  pass_guard ltac:(rewrite Z.gtb_ltb; apply Z.ltb_ge; rewrite length_app; lia).
  rewrite slice_ok by (rewrite ?length_app; lia). rewrite bind_Ok.
  replace (Z.to_nat (Z.of_nat (length d0) + Z.of_nat p - Z.of_nat (length d0))) with p by lia. rewrite Nat2Z.id.
  rewrite drop_app_length, take_app_le, Ht by lia.
  rewrite slice_to_ok, bind_Ok, slice_from_ok, bind_Ok by (rewrite length_drop; lia).
  replace ((((d0 ++ y ++ cp) ++ take p z) ++ drop p z)) with ((d0 ++ y ++ cp) ++ z) by (by rewrite <-(app_assoc _ (take p z)), take_drop).
  replace (as_u64 (Z.of_nat (length ((d0 ++ y ++ cp) ++ z)) - Z.of_nat (length z))) with (Z.of_nat (length (d0 ++ y ++ cp)))
    by (rewrite wrap_u_id; unfold is_u; rewrite !length_app; lia).
  rewrite IH by (rewrite !length_app; lia). rewrite !wrap_u_id by (unfold is_u; rewrite ?length_app; lia).
  rewrite <-!app_assoc, !length_app, !Nat2Z.inj_add. cbn [app]. by rewrite !Z.add_assoc.
Qed.

Lemma foldl_lens acc ls :
  Forall is_u64 ls -> 0 <= acc -> acc + foldr Z.add 0 ls < 2 ^ 64 ->
  foldl (fun acc len => as_u64 (acc + len)) acc ls = acc + foldr Z.add 0 ls.
Proof.
  intros Hls. revert acc. induction Hls as [|l ls [Hl _] Hls IH]; intros acc Ha Hb; cbn in *; [lia|].
  assert (Hpos : 0 <= foldr Z.add 0 ls) by (clear -Hls; induction Hls as [|? ? [??]]; cbn; lia).
  rewrite wrap_u_id by (unfold is_u; lia). rewrite IH; lia.
Qed.

Lemma sum_lens cp ys :
  foldr Z.add 0 (item_lens ys) + Z.of_nat (length cp) * Z.of_nat (length ys) = Z.of_nat (total (map (app cp) ys)).
Proof. induction ys as [|y ys IH]; cbn; [lia|]. rewrite !length_app. lia. Qed.

Lemma bytes_concat (l : list (list Z)) : Forall bytes l <-> bytes (concat l).
Proof.
  induction l as [|x l IH]; cbn; [split; constructor|]. rewrite Forall_cons, IH, bytes_app. done.
Qed.

Lemma bytes_map_app cp ys : Forall bytes (map (app cp) ys) -> Forall bytes ys.
Proof. induction ys as [|y ys IH]; cbn; [done|]. rewrite !Forall_cons, bytes_app. naive_solver. Qed.

Lemma bytes_fresh y ys : Forall bytes ys -> bytes (concat (fresh_bytes y ys)).
Proof.
  intros Hys. revert y. induction Hys; intros; cbn; [constructor|]. apply bytes_app. split; [by apply bytes_drop|done].
Qed.

Lemma marshal_var_uint64s_bytes us : Forall is_u64 us -> bytes (marshal_var_uint64s [] us).
Proof.
  intros Hus. rewrite marshal_var_uint64s_leb128 by done. cbn [app].
  induction Hus; cbn; [constructor|]. apply bytes_app. split; [by apply leb128_bytes|done].
Qed.

Lemma marshal_var_uint64s_dst dst us :
  Forall is_u64 us -> marshal_var_uint64s dst us = dst ++ marshal_var_uint64s [] us.
Proof. intros. by rewrite !marshal_var_uint64s_leb128. Qed.

Section Codec.
  Context `{Zs : Zstd} {Zl : ZstdLaws Zs}.

Lemma packed_lens_u64 (y0 : list Z) (ys : list (list Z)) :
  Z.of_nat (length y0 + total ys) < 2 ^ 32 ->
  Forall is_u64 (xor_diff 0 (prefix_lens y0 ys)) /\
  Forall is_u64 (xor_diff (Z.of_nat (length y0)) (item_lens ys)) .
Proof.
  intros. split; apply xor_diff_u64; (apply prefix_lens_u64 || apply item_lens_u64 || unfold is_u); lia.
Qed.

Lemma packed_lens_bytes (y0 : list Z) (ys : list (list Z)) : Z.of_nat (length y0 + total ys) < 2 ^ 32 -> bytes (packed_lens y0 ys).
Proof.
  intros Hb. destruct (packed_lens_u64 y0 ys Hb) as [Hp Hi]. unfold packed_lens.
  rewrite (marshal_var_uint64s_dst (marshal_var_uint64s _ _)) by done. apply bytes_app. by split; apply marshal_var_uint64s_bytes.
Qed.

Lemma total_map_app (cp : list Z) (ys : list (list Z)) : (total ys <= total (map (app cp) ys))%nat.
Proof. induction ys as [|y ys IH]; cbn; [lia|]. rewrite !length_app. lia. Qed.

(** The items of a block with the common prefix [cp]. *)
Abbreviation with_prefix cp y0 ys := (map (app cp) (y0 :: ys)).

Lemma pack_with_prefix cp y0 ys :
  pack cp (with_prefix cp y0 ys) =
  mkIB cp ((cp ++ y0) ++ concat (map (app cp) ys))
    (mkItem 0 (Z.of_nat (length (cp ++ y0))) :: layout (Z.of_nat (length (cp ++ y0))) (map (app cp) ys)).
Proof. done. Qed.

Lemma plain_decodes cp y0 ys :
  Z.of_nat (total (with_prefix cp y0 ys)) < 2 ^ 32 ->
  unmarshal_data_plain cp (plain_form ys) (cp ++ y0) (Z.of_nat (length (y0 :: ys))) = Ok (pack cp (with_prefix cp y0 ys)).
Proof.
  intros Hb. cbn [map concat] in Hb. rewrite length_app in Hb. pose proof (total_map_app cp ys). pose proof (sum_lens cp ys) as Hsum.
  unfold unmarshal_data_plain, plain_form. cbn [sb_lens_data sb_items_data].
  replace (Z.to_nat (Z.of_nat (length (y0 :: ys))) - 1)%nat with (length (item_lens ys)) by (rewrite length_map; cbn [length]; lia).
  rewrite <-(app_nil_r (concat (map (to_be_bytes 8) _))), read_lens_spec, bind_Ok by (apply item_lens_u64; lia).
  pass_guard done.
  assert (Hl : Z.of_nat (total ys) = foldr Z.add 0 (item_lens ys)) by (clear; induction ys; cbn; rewrite ?length_app; lia).
  rewrite wrap_u_id by (unfold is_u; cbn [length]; lia). unfold reserve. rewrite assert_true, bind_Ok by (apply Z.ltb_lt; cbn [length]; lia).
  rewrite <-(app_nil_r (concat ys)) at 1. rewrite plain_items_loop_spec, bind_Ok by lia.
  pass_guard done. rewrite guard_false, bind_Ok; [|apply negb_false_iff, Z.eqb_eq].
  - rewrite wrap_u_id by (unfold is_u; lia). done.
  - rewrite !length_app. cbn [length]. rewrite length_app in *. lia.
Qed.

Lemma zstd_decodes lvl cp y0 ys :
  Z.of_nat (total (with_prefix cp y0 ys)) < 2 ^ 32 -> Forall bytes (with_prefix cp y0 ys) ->
  sorted_items (with_prefix cp y0 ys) ->
  unmarshal_data_zstd (zstd_form lvl y0 ys) (cp ++ y0) cp (Z.of_nat (length (y0 :: ys))) = Ok (pack cp (with_prefix cp y0 ys)).
Proof.
  intros Hb Hby Hs. assert (Hb' := Hb). cbn [map concat] in Hb. rewrite length_app in Hb. pose proof (total_map_app cp ys).
  pose proof (sum_lens cp ys) as Hsum. apply bytes_map_app in Hby. inversion Hby as [|?? Hy0 Hys]; subst.
  assert (Hy : Z.of_nat (length y0 + total ys) < 2 ^ 32) by (rewrite length_app in Hb; lia).
  destruct (packed_lens_u64 y0 ys Hy) as [Hpl Hil].
  unfold unmarshal_data_zstd, zstd_form. cbn [sb_lens_data sb_items_data].
  pose proof (decompress_compress lvl (packed_lens y0 ys) (packed_lens_bytes y0 ys Hy)) as Hd1.
  pose proof (decompress_compress lvl (concat (fresh_bytes y0 ys)) (bytes_fresh y0 ys Hys)) as Hd2.
  unfold compress_zstd_level in Hd1, Hd2. cbn [app] in Hd1, Hd2. rewrite Hd1, map_err_Ok, bind_Ok. clear Hd1.
  unfold packed_lens. rewrite marshal_var_uint64s_dst by done.
  replace (Z.to_nat (Z.of_nat (length (y0 :: ys))) - 1)%nat with (length (xor_diff 0 (prefix_lens y0 ys)))
    by (rewrite xor_diff_length, length_prefix_lens; cbn [length]; lia).
  rewrite unmarshal_var_uint64s_app, map_err_Ok, bind_Ok by (done || by apply marshal_var_uint64s_bytes).
  replace (length (xor_diff 0 (prefix_lens y0 ys))) with (length (xor_diff (Z.of_nat (length y0)) (item_lens ys)))
    by (by rewrite !xor_diff_length, length_prefix_lens, length_map).
  rewrite <-(app_nil_r (marshal_var_uint64s [] (xor_diff (Z.of_nat (length y0)) _))).
  rewrite unmarshal_var_uint64s_app, map_err_Ok, bind_Ok by (done || constructor). pass_guard done.
  rewrite (wrap_u_id 64 (_ - _)) by (unfold is_u; rewrite length_app; lia).
  replace (Z.of_nat (length (cp ++ y0)) - Z.of_nat (length cp)) with (Z.of_nat (length y0)) by (rewrite length_app; lia).
  rewrite !xor_scan_diff. cbn [length].
  assert (Hf : foldr Z.add 0 (item_lens ys) = Z.of_nat (total ys)) by (clear; induction ys; cbn; rewrite ?length_app; lia).
  rewrite length_app in Hb. rewrite wrap_u_id by (unfold is_u; lia).
  rewrite foldl_lens by (try (apply item_lens_u64; lia); lia). rewrite Hd2, map_err_Ok, bind_Ok.
  unfold reserve. rewrite assert_true, bind_Ok by (apply Z.ltb_lt; lia).
  rewrite <-(app_nil_r (concat (fresh_bytes y0 ys))), zstd_items_loop_spec, bind_Ok by (rewrite length_app; lia).
  pass_guard done.
  rewrite guard_false, bind_Ok by (apply negb_false_iff, Z.eqb_eq; rewrite !length_app; lia).
  rewrite wrap_u_id by (unfold is_u; rewrite length_app; lia). cbn [app]. rewrite <-pack_with_prefix.
  apply check_sorted_ok; [by apply pack_wf|]. by rewrite pack_items.
Qed.

(** What [marshal_data] writes for a sorted block, [unmarshal_data] reads. *)
Lemma marshal_decodes {E} b y0 ys fd cd lvl :
  encodes b y0 ys -> sorted_items (block_items b) -> Forall bytes (block_items b) ->
  Z.of_nat (total (block_items b)) < 2 ^ 32 ->
  exists sb mt, ib_marshal_data (E := E) b fd cd lvl =
      Ok (sb, fd ++ ib_common_prefix b ++ y0, cd ++ ib_common_prefix b, Z.of_nat (length (y0 :: ys)), mt) /\
    match mt with
    | MarshalPlain => sb = plain_form ys
    | MarshalZstd => ys <> [] /\ sb = zstd_form lvl y0 ys
    end /\
    ib_unmarshal_data sb (ib_common_prefix b ++ y0) (ib_common_prefix b) (Z.of_nat (length (y0 :: ys))) mt =
      Ok (pack (ib_common_prefix b) (block_items b)).
Proof.
  intros He Hs Hby Hb. destruct (ib_marshal_spec (E := E) b y0 ys fd cd lvl He) as (sb & mt & Hm & Hform).
  exists sb, mt. split_and!; [done|done|]. unfold ib_unmarshal_data. pass_assert done.
  rewrite (en_items _ _ _ He) in *. destruct mt.
  - subst sb. rewrite plain_decodes, map_err_Ok, bind_Ok by done.
    apply check_sorted_ok; [by apply pack_wf|]. by rewrite pack_items.
  - destruct Hform as [_ ->]. by apply zstd_decodes.
Qed.
End Codec.

(** ** What any decoded block looks like *)

Lemma slice_to_inv {E A} (l l' : list A) n : slice_to (E := E) l n = Ok l' -> l' = take n l.
Proof. unfold slice_to. case_decide; [|done]. by intros [= <-]. Qed.

Lemma read_lens_length n b ls r : read_lens n b = Ok (ls, r) -> length ls = n.
Proof.
  revert b ls r. induction n as [|n IH]; intros b ls r; cbn [read_lens]; [by intros [= <- _]|].
  intros H. res_inv. destruct a2 as [ls' r']. injection H as <- <-. cbn. f_equal. by eapply IH.
Qed.

(** What a round of either loop appends: one item that starts with [cp]. *)
Lemma append_item cp ys' (y data data' : list Z) (items items' : list Item) lim :
  Z.of_nat (length data') < lim -> lim <= 2 ^ 32 ->
  data' = (data ++ cp ++ y) ++ concat (map (app cp) ys') ->
  items' = (items ++ [mkItem (as_u32 (Z.of_nat (length data))) (as_u32 (Z.of_nat (length (data ++ cp ++ y))))])
             ++ layout (Z.of_nat (length (data ++ cp ++ y))) (map (app cp) ys') ->
  data' = data ++ concat (map (app cp) (y :: ys')) /\
  items' = items ++ layout (Z.of_nat (length data)) (map (app cp) (y :: ys')).
Proof.
  intros Hb Hlim -> ->. rewrite !length_app in Hb. cbn [map concat layout]. split; [by rewrite <-!app_assoc|].
  rewrite <-app_assoc. cbn [app]. f_equal. rewrite !wrap_u_id by (unfold is_u; rewrite ?length_app; lia).
  rewrite !length_app, !Nat2Z.inj_add. done.
Qed.

Lemma plain_items_loop_inv cp lens data items b data' items' b' :
  plain_items_loop cp lens data items b = Ok (data', items', b') -> Z.of_nat (length data') < 2 ^ 32 ->
  exists ys, length ys = length lens /\ data' = data ++ concat (map (app cp) ys) /\
    items' = items ++ layout (Z.of_nat (length data)) (map (app cp) ys).
Proof.
  revert data items b. induction lens as [|l lens IH]; intros data items b; cbn [plain_items_loop].
  { intros [= <- <- <-] _. exists []. cbn. by rewrite !app_nil_r. }
  intros H Hb. res_inv. rewrite <-app_assoc in H. destruct (IH _ _ _ H Hb) as (ys & Hl & Hd & Hi).
  exists (a0 :: ys). split; [cbn; congruence|]. by apply (append_item cp ys a0 _ _ _ _ (2 ^ 32)).
Qed.

Lemma zstd_items_loop_inv cp pairs data items ps b data' items' b' :
  zstd_items_loop cp pairs data items ps b = Ok (data', items', b') -> Z.of_nat (length data') < 2 ^ 32 ->
  exists ys, length ys = length pairs /\ data' = data ++ concat (map (app cp) ys) /\
    items' = items ++ layout (Z.of_nat (length data)) (map (app cp) ys).
Proof.
  revert data items ps b. induction pairs as [|[p l] pairs IH]; intros data items ps b; cbn [zstd_items_loop].
  { intros [= <- <- <-] _. exists []. cbn. by rewrite !app_nil_r. }
  intros H Hb. res_inv. rewrite <-!app_assoc in H. destruct (IH _ _ _ _ H Hb) as (ys & Hl & Hd & Hi).
  exists ((a2 ++ a3) :: ys). split; [cbn; congruence|]. by apply (append_item cp ys (a2 ++ a3) _ _ _ _ (2 ^ 32)).
Qed.

Lemma xor_scan_length v xs : length (xor_scan v xs) = length xs.
Proof. revert v. induction xs; intros; cbn; auto. Qed.

Lemma check_sorted_inv b b' : wf_ib b -> check_sorted b = Ok b' -> b' = b /\ sorted_items (block_items b).
Proof.
  intros Hw. destruct (check_sorted_cases b Hw) as [[-> Hs]| ->]; [|done]. by intros [= <-].
Qed.

Lemma decoded_pack cp first ys n b :
  length ys = n -> Z.of_nat (total (first :: map (app cp) ys)) < 2 ^ 32 ->
  check_sorted (mkIB cp (first ++ concat (map (app cp) ys))
    ([mkItem 0 (as_u32 (Z.of_nat (length first)))] ++ layout (Z.of_nat (length first)) (map (app cp) ys))) = Ok b ->
  exists ys, length ys = n /\ b = pack cp (first :: map (app cp) ys) /\ sorted_items (first :: map (app cp) ys).
Proof.
  intros Hn Hb Hc. cbn [concat] in Hb. rewrite length_app in Hb. rewrite wrap_u_id in Hc by (unfold is_u; lia).
  apply (check_sorted_inv (pack cp (first :: map (app cp) ys))) in Hc as [-> Hs]; [|apply pack_wf; cbn; rewrite length_app; lia].
  rewrite pack_items in Hs. by exists ys.
Qed.

Lemma check_sorted_data b b' : check_sorted b = Ok b' -> b' = b.
Proof. unfold check_sorted. intros H. res_inv. destruct a; cbn in H; [by injection H|by res_inv]. Qed.

Lemma unmarshal_data_inv `{Zs : Zstd} sb first cp n mt b :
  ib_unmarshal_data sb first cp n mt = Ok b -> Z.of_nat (length (ib_data b)) < 2 ^ 32 ->
  exists ys, Z.of_nat (S (length ys)) = n /\ b = pack cp (first :: map (app cp) ys) /\
    sorted_items (first :: map (app cp) ys).
Proof.
  unfold ib_unmarshal_data. intros H Hb. res_inv. apply Z.gtb_lt in Hm.
  enough (exists ys, length ys = (Z.to_nat n - 1)%nat /\ b = pack cp (first :: map (app cp) ys) /\
    sorted_items (first :: map (app cp) ys)) as (ys & ? & ? & ?) by (exists ys; split_and!; [lia|done..]).
  destruct mt.
  - res_inv. assert (Hd := check_sorted_data _ _ H). subst b. unfold unmarshal_data_plain in Hm0. res_inv.
    destruct a1 as [lens r]. res_inv. destruct a3 as [[data items] r']. res_inv. subst a0. cbn [ib_data] in Hb.
    apply read_lens_length in Hm1. apply plain_items_loop_inv in Hm4 as (ys & Hl & -> & ->); [|done].
    apply (decoded_pack cp first ys); [congruence|exact Hb|done].
  - unfold unmarshal_data_zstd in H. res_inv. destruct a1 as [xs r]. res_inv. destruct a1 as [xs' r']. res_inv.
    destruct a4 as [[data items] r'']. res_inv. assert (Hd := check_sorted_data _ _ H). subst b. cbn [ib_data] in Hb.
    apply unmarshal_vars_length in Hm1, Hm2. apply zstd_items_loop_inv in Hm6 as (ys & Hl & -> & ->); [|done].
    apply (decoded_pack cp first ys); [|exact Hb|done]. rewrite Hl, length_zip, !xor_scan_length. lia.
Qed.

Lemma read_lens_total n b :
  bytes b -> no_panic (read_lens n b) /\ forall ls r, read_lens n b = Ok (ls, r) -> Forall is_u64 ls.
Proof.
  revert b. induction n as [|n IH]; intros b Hb; cbn [read_lens]; [split; [done|]; intros ls r [= <- _]; constructor|].
  destruct (Nat.ltb_spec (length b) 8) as [|H8]; cbn [guard_ mbind res_bind]; [done|].
  destruct (unmarshal_uint64 b) as [l|e|] eqn:Hl; cbn [mbind res_bind]; [|done|by destruct (read_be_no_panic (E := items_error) 8 b)].
  apply read_be_range in Hl; [|done]. unfold slice_from. rewrite decide_True by done. cbn [mbind res_bind].
  destruct (IH (drop 8 b) (bytes_drop 8 b Hb)) as [Hnp Hls]. destruct (read_lens n (drop 8 b)) as [[ls r]| |] eqn:Hr; [|done..].
  split; [done|]. intros ls' r' [= <- <-]. constructor; [done|]. by eapply Hls.
Qed.

Lemma plain_items_loop_total cp lens data items b :
  Forall is_u64 lens -> no_panic (plain_items_loop cp lens data items b) /\
  forall data' items' b', plain_items_loop cp lens data items b = Ok (data', items', b') ->
    (length data' + length b' = length data + length b + length cp * length lens)%nat.
Proof.
  intros Hls. revert data items b. induction Hls as [|l lens [Hl _] Hls IH]; intros data items b; cbn [plain_items_loop].
  { split; [done|]. intros ??? [= <- <- <-]. cbn. lia. }
  destruct (Z.ltb_spec (Z.of_nat (length b)) l) as [|Hle]; cbn [guard_ mbind res_bind]; [done|].
  unfold slice_to, slice_from. rewrite !decide_True by lia. cbn [mbind res_bind].
  match goal with |- context [plain_items_loop cp lens ?d ?i ?b0] => destruct (IH d i b0) as [Hnp Hlen] end.
  split; [done|]. intros ??? Heq. pose proof (Hlen _ _ _ Heq) as Hle2. rewrite !length_app, length_take, length_drop in Hle2. cbn [length]. lia.
Qed.

Lemma no_panic_check_sorted b : wf_ib b -> no_panic (check_sorted b).
Proof. intros Hw. by destruct (check_sorted_cases b Hw) as [[-> _]| ->]. Qed.

Lemma unmarshal_plain_no_panic `{Zs : Zstd} sb first cp n :
  0 < n -> bytes (sb_lens_data sb) ->
  Z.of_nat (length first + length (sb_items_data sb)) + Z.of_nat (length cp) * (n - 1) < 2 ^ 32 ->
  no_panic (ib_unmarshal_data sb first cp n MarshalPlain).
Proof.
  intros Hn Hlb Hb. unfold ib_unmarshal_data. apply no_panic_bind; [by rewrite assert_true by (by apply Z.gtb_lt)|]. intros _ _.
  destruct (read_lens_total (Z.to_nat n - 1) (sb_lens_data sb) Hlb) as [Hr Hls].
  apply no_panic_bind.
  - apply no_panic_map_err. unfold unmarshal_data_plain. apply no_panic_bind; [done|]. intros [lens r] Hlr.
    apply no_panic_bind; [auto with esm|]. intros _ _. rewrite (wrap_u_id 64) by (unfold is_u; nia).
    apply no_panic_bind; [unfold reserve; by rewrite assert_true by (apply Z.ltb_lt; lia)|]. intros _ _.
    apply no_panic_bind; [apply plain_items_loop_total; by eapply Hls|]. intros [[??]?] _. repeat (apply no_panic_bind; [auto with esm|]; intros _ _). done.
  - intros b Hok. res_inv. unfold unmarshal_data_plain in Hok. res_inv. destruct a as [lens r]. res_inv. destruct a1 as [[data items] r']. res_inv.
    subst b. apply no_panic_check_sorted. pose proof (read_lens_length _ _ _ _ Hm) as Hll.
    destruct (plain_items_loop_total cp lens first [mkItem 0 (as_u32 (Z.of_nat (length first)))] (sb_items_data sb)) as [_ Hlen]; [by eapply Hls|].
    specialize (Hlen _ _ _ Hm2).
    assert (Hd : Z.of_nat (length data) < 2 ^ 32) by nia.
    apply plain_items_loop_inv in Hm2 as (ys & _ & -> & ->); [|done]. rewrite length_app in Hd.
    rewrite wrap_u_id by (unfold is_u; lia). apply (pack_wf cp (first :: map (app cp) ys)). cbn. rewrite length_app. lia.
Qed.

(** The block after adding [xs] one by one, and whether all were accepted. *)
Definition add_all (b : InmemoryBlock) (xs : list (list Z)) : InmemoryBlock * bool :=
  foldl (fun '(b, ok) x => let '(b, added) := ib_add b x in (b, ok && added)) (b, true) xs.

Lemma add_all_pack cp xs ys :
  Z.of_nat (total (xs ++ ys)) <= MAX_INMEMORY_BLOCK_SIZE -> add_all (pack cp xs) ys = (pack cp (xs ++ ys), true).
Proof.
  unfold add_all. revert xs. induction ys as [|y ys IH]; intros xs Hb; cbn [foldl]; [by rewrite app_nil_r|].
  rewrite concat_app, length_app in Hb. cbn [concat] in Hb. rewrite length_app in Hb.
  rewrite add_pack by lia. cbn [andb]. rewrite IH; [by rewrite <-app_assoc|]. rewrite <-app_assoc, concat_app. cbn [concat app]. rewrite !length_app. lia.
Qed.

Lemma total_perm (xs ys : list (list Z)) : Permutation xs ys -> total xs = total ys.
Proof. induction 1; cbn; rewrite ?length_app; lia. Qed.

(** ** Theorems *)

(** Items added to a block in any order are stored without loss.  Filling
    a block with at most 64 KiB of items succeeds; sorting and marshalling it
    does not panic, whatever the compression level; and unmarshalling the two
    stored buffers with the first item, the common prefix, the count and the
    type that were returned gives exactly the sorted items, with their longest
    common prefix when there are at least two. *)
Theorem items_block_roundtrip `{Zs : Zstd} {Zl : ZstdLaws Zs} (xs : list (list Z)) (lvl : Z) :
  xs <> [] -> Forall bytes xs -> Z.of_nat (total xs) <= MAX_INMEMORY_BLOCK_SIZE ->
  Z.of_nat (length xs) < 2 ^ 32 ->
  exists b b' sb first_item cp mt decoded,
    add_all ib_default xs = (b, true) /\
    marshal_unsorted_data (E := items_error) b [] [] lvl =
      Ok (b', (sb, first_item, cp, Z.of_nat (length xs), mt)) /\
    ib_unmarshal_data sb first_item cp (Z.of_nat (length xs)) mt = Ok decoded /\
    sorted_items (block_items decoded) /\ Permutation (block_items decoded) xs /\
    block_items b' = block_items decoded /\
    ((2 <= length xs)%nat -> longest_prefix cp xs).
Proof.
  intros Hne Hby Hb Hn. change ib_default with (pack [] []). pose proof (add_all_pack [] [] xs Hb) as Hadd.
  cbn [app] in Hadd. unfold MAX_INMEMORY_BLOCK_SIZE in Hb.
  assert (Hw : wf_ib (pack [] xs)) by (apply pack_wf; lia).
  destruct (sort_items_ok (E := items_error) (pack [] xs) Hw) as (b' & Hsort & Hw' & Hd & Hperm & Hs & Hcp & Hlp & _).
  assert (Hp : Permutation (block_items b') xs).
  { unfold block_items. rewrite Hd, Hperm. change (map _ _) with (block_items (pack [] xs)). by rewrite pack_items. }
  assert (Hlen : length (ib_items b') = length xs) by (by rewrite Hperm; cbn; rewrite length_layout).
  destruct (encodes_intro b') as (y0 & ys & He); [done|by destruct (ib_items b'), xs|lia|done|].
  assert (Hcount : length (y0 :: ys) = length xs).
  { rewrite <-(Permutation_length Hp), (en_items _ _ _ He). by rewrite length_map. }
  destruct (marshal_decodes (E := items_error) b' y0 ys [] [] lvl He Hs) as (sb & mt & Hm & _ & Hu);
    [by rewrite Hp|rewrite (total_perm _ _ Hp); lia|]. rewrite Hcount in Hm, Hu.
  exists (pack [] xs), b', sb, (ib_common_prefix b' ++ y0), (ib_common_prefix b'), mt, (pack (ib_common_prefix b') (block_items b')).
  rewrite pack_items. split_and!; [done| |done..|].
  - unfold marshal_unsorted_data. rewrite Hsort, bind_Ok, Hm. done.
  - intros H2. cbn [pack ib_items] in Hlp. rewrite length_layout in Hlp. destruct (Hlp H2) as [H1 H3].
    split; [by rewrite <-Hp|]. intros p Hpp. apply H3. by rewrite Hp.
Qed.

Lemma items_block_roundtrip_witness :
  exists b b' sb first_item cp mt decoded,
    add_all ib_default [[7; 9; 200]; [7; 9]; [7; 8; 1]] = (b, true) /\
    marshal_unsorted_data (Zs := stored_zstd) (E := items_error) b [] [] 1 = Ok (b', (sb, first_item, cp, 3, mt)) /\
    ib_unmarshal_data (Zs := stored_zstd) sb first_item cp 3 mt = Ok decoded /\
    sorted_items (block_items decoded) /\ Permutation (block_items decoded) [[7; 9; 200]; [7; 9]; [7; 8; 1]] /\
    block_items b' = block_items decoded /\
    ((2 <= 3)%nat -> longest_prefix cp [[7; 9; 200]; [7; 9]; [7; 8; 1]]).
Proof.
  apply (items_block_roundtrip (Zl := stored_zstd_laws) [[7; 9; 200]; [7; 9]; [7; 8; 1]] 1);
    [done|by repeat constructor|by vm_compute|by vm_compute].
Defined.



(** The lengths of a block of two items whose second item shares
    [2 ^ 64 - 1] bytes with the first one. *)
Definition huge_lens : list Z := packed_lens [98] [] ++ marshal_var_uint64s [] [2 ^ 64 - 1; Z.lxor (2 ^ 64 - 1) 1].

(** The decoder of the compressed form trusts the stored lengths.  For a
    stored prefix length near [2 ^ 64] the sum [prev_item_start + prefix_len]
    wraps around, the bound check passes, and the copy of the range
    [1..0] panics instead of returning the error the check is for. *)
Theorem items_decoder_panics :
  ib_unmarshal_data (Zs := stored_zstd)
    (mkStorageBlock (zstd_compress (Zstd := stored_zstd) 1 []) (zstd_compress (Zstd := stored_zstd) 1 huge_lens))
    [97; 98] [97] 2 MarshalZstd = Panic.
Proof. vm_compute. reflexivity. Qed.
