(* ===== verification/ItemHeader.v ===== *)
(** * Headers of item blocks

    Model of [esm-mergeset/src/block_header.rs] and
    [esm-mergeset/src/metaindex_row.rs]: the headers of the blocks of a part
    of the merge set, the rows of its metaindex, their binary forms and the
    readers of whole index blocks. *)
From Stdlib Require Import ZArith Lia Bool Sorted.
From S2P Require Import Prelude IntCodec Compress ItemBlock.
Local Open Scope Z_scope.

Definition MAX_INDEX_BLOCK_SIZE : Z := 64 * 1024.

Record BlockHeader : Type := mkBlockHeader {
  common_prefix : list Z;
  first_item : list Z;
  marshal_type : MarshalType;
  items_count : Z;
  items_block_offset : Z;
  lens_block_offset : Z;
  items_block_size : Z;
  lens_block_size : Z;
}.

Definition BlockHeader_default : BlockHeader := mkBlockHeader [] [] MarshalPlain 0 0 0 0 0.

(** The record does not depend on its old contents. *)
Definition bh_reset (self : BlockHeader) : BlockHeader := mkBlockHeader [] [] MarshalPlain 0 0 0 0 0.

Definition bh_marshal (self : BlockHeader) (dst : list Z) : list Z :=
  let dst := marshal_bytes dst (common_prefix self) in
  let dst := marshal_bytes dst (first_item self) in
  let dst := dst ++ [mt_as_u8 (marshal_type self)] in
  let dst := marshal_uint32 dst (items_count self) in
  let dst := marshal_uint64 dst (items_block_offset self) in
  let dst := marshal_uint64 dst (lens_block_offset self) in
  let dst := marshal_uint32 dst (items_block_size self) in
  marshal_uint32 dst (lens_block_size self).

Inductive header_error : Type :=
| CannotUnmarshalCommonPrefix
| CannotUnmarshalFirstItem
| NoMarshalType
| BadMarshalType (got : Z)
| ShortField (got need : nat)
| ZeroItemsCount
| TooBigItemsBlock (got : Z)
| TooBigLensBlock (got : Z)
| ZeroHeadersCount
| TooBigIndexBlock (got : Z).

(** A fixed-width field of [n] bytes and the bytes after it. *)
Definition read_field (n : nat) (src : list Z) : res header_error (Z * list Z) :=
  _ ← guard_ (length src <? n)%nat (ShortField (length src) n);
  u ← read_be n src;
  src ← slice_from src n;
  Ok (u, src).

(** A length-prefixed byte string and the bytes after it. *)
Definition read_bytes (e : header_error) (src : list Z) : res header_error (list Z * list Z) :=
  '(b, n_size) ← ok_or (unmarshal_bytes src) e;
  src ← slice_from src n_size;
  Ok (b, src).

(** The header and the unread tail. *)
Definition bh_unmarshal (src : list Z) : res header_error (BlockHeader * list Z) :=
  '(cp, src) ← read_bytes CannotUnmarshalCommonPrefix src;
  '(fi, src) ← read_bytes CannotUnmarshalFirstItem src;
  _ ← guard_ (length src =? 0)%nat NoMarshalType;
  v ← idx src 0;
  mt ← ok_or (mt_from_u8 v) (BadMarshalType v);
  src ← slice_from src 1;
  '(count, src) ← read_field 4 src;
  '(items_offset, src) ← read_field 8 src;
  '(lens_offset, src) ← read_field 8 src;
  '(items_size, src) ← read_field 4 src;
  '(lens_size, src) ← read_field 4 src;
  _ ← guard_ (count =? 0) ZeroItemsCount;
  _ ← guard_ (items_size >? 2 * MAX_INMEMORY_BLOCK_SIZE) (TooBigItemsBlock items_size);
  _ ← guard_ (lens_size >? 2 * 8 * MAX_INMEMORY_BLOCK_SIZE) (TooBigLensBlock lens_size);
  Ok (mkBlockHeader cp fi mt count items_offset lens_offset items_size lens_size, src).

Inductive index_error : Type :=
| HeaderAt (i : nat) (e : header_error)
| IndexTail (len : nat)
| UnsortedHeaders.

(** The loop of [unmarshal_block_headers] from header [i] on. *)
Fixpoint read_headers (n i : nat) (src : list Z) : res index_error (list BlockHeader * list Z) :=
  match n with
  | O => Ok ([], src)
  | S n =>
      '(bh, src) ← map_err (HeaderAt i) (bh_unmarshal src);
      '(bhs, src) ← read_headers n (S i) src;
      Ok (bh :: bhs, src)
  end.

(** The headers that are appended to the caller's vector. *)
Definition unmarshal_block_headers (src : list Z) (block_headers_count : Z)
    : res index_error (list BlockHeader) :=
  _ ← assert_ (block_headers_count >? 0);
  '(bhs, src) ← read_headers (Z.to_nat block_headers_count) 0 src;
  _ ← guard_ (negb (length src =? 0)%nat) (IndexTail (length src));
  _ ← guard_ (negb (chain_b lex_leb (map first_item bhs))) UnsortedHeaders;
  Ok bhs.

(** ** Metaindex rows *)

Record MetaindexRow : Type := mkMetaindexRow {
  mr_first_item : list Z;
  mr_block_headers_count : Z;
  mr_index_block_offset : Z;
  mr_index_block_size : Z;
}.

Definition MetaindexRow_default : MetaindexRow := mkMetaindexRow [] 0 0 0.

Definition mr_reset (self : MetaindexRow) : MetaindexRow := mkMetaindexRow [] 0 0 0.

Definition mr_marshal (self : MetaindexRow) (dst : list Z) : list Z :=
  let dst := marshal_bytes dst (mr_first_item self) in
  let dst := marshal_uint32 dst (mr_block_headers_count self) in
  let dst := marshal_uint64 dst (mr_index_block_offset self) in
  marshal_uint32 dst (mr_index_block_size self).

Definition mr_unmarshal (src : list Z) : res header_error (MetaindexRow * list Z) :=
  '(fi, src) ← read_bytes CannotUnmarshalFirstItem src;
  '(count, src) ← read_field 4 src;
  '(offset, src) ← read_field 8 src;
  '(size, src) ← read_field 4 src;
  _ ← guard_ (count =? 0) ZeroHeadersCount;
  _ ← guard_ (size >? 4 * MAX_INDEX_BLOCK_SIZE) (TooBigIndexBlock size);
  Ok (mkMetaindexRow fi count offset size, src).

Inductive metaindex_error : Type :=
| CannotDecompressMetaindex (e : zstd_error)
| RowAt (i : nat) (e : header_error)
| NoRows
| UnsortedRows (n : nat).

(** [while !tail.is_empty()]: a row takes at least one byte, so the length of
    the data is enough fuel. *)
Fixpoint read_rows (fuel : nat) (tail : list Z) (dst : list MetaindexRow)
    : res metaindex_error (list MetaindexRow) :=
  match tail, fuel with
  | [], _ => Ok dst
  | _, O => Panic
  | _, S fuel =>
      '(mr, tail) ← map_err (RowAt (length dst)) (mr_unmarshal tail);
      read_rows fuel tail (dst ++ [mr])
  end.

Definition unmarshal_metaindex_rows `{Zs : Zstd} (compressed_data : list Z)
    : res metaindex_error (list MetaindexRow) :=
  data ← map_err CannotDecompressMetaindex (decompress_zstd [] compressed_data);
  dst ← read_rows (length data) data [];
  _ ← guard_ (length dst =? 0)%nat NoRows;
  _ ← guard_ (negb (chain_b lex_leb (map mr_first_item dst))) (UnsortedRows (length dst));
  Ok dst.

(** ** What the readers accept *)

(** The fields of a header are in range, and the sizes within the limits. *)
Record bh_ok (bh : BlockHeader) : Prop := {
  bo_cp : bytes (common_prefix bh);
  bo_cp_len : Z.of_nat (length (common_prefix bh)) < 2 ^ 64;
  bo_fi : bytes (first_item bh);
  bo_fi_len : Z.of_nat (length (first_item bh)) < 2 ^ 64;
  bo_count : 0 < items_count bh < 2 ^ 32;
  bo_items_offset : is_u64 (items_block_offset bh);
  bo_lens_offset : is_u64 (lens_block_offset bh);
  bo_items_size : 0 <= items_block_size bh <= 2 * MAX_INMEMORY_BLOCK_SIZE;
  bo_lens_size : 0 <= lens_block_size bh <= 2 * 8 * MAX_INMEMORY_BLOCK_SIZE;
}.

Record mr_ok (mr : MetaindexRow) : Prop := {
  mo_fi : bytes (mr_first_item mr);
  mo_fi_len : Z.of_nat (length (mr_first_item mr)) < 2 ^ 64;
  mo_count : 0 < mr_block_headers_count mr < 2 ^ 32;
  mo_offset : is_u64 (mr_index_block_offset mr);
  mo_size : 0 <= mr_index_block_size mr <= 4 * MAX_INDEX_BLOCK_SIZE;
}.

Lemma mt_roundtrip mt : mt_from_u8 (mt_as_u8 mt) = Some mt.
Proof. by destruct mt. Qed.

Lemma read_field_app n u tail : is_u (8 * Z.of_nat n) u -> read_field n (to_be_bytes n u ++ tail) = Ok (u, tail).
Proof.
  intros Hu. unfold read_field. pass_guard ltac:(apply Nat.ltb_ge; rewrite length_app, length_to_be_bytes; lia).
  rewrite read_be_app, bind_Ok, slice_from_ok by (done || apply length_to_be_bytes). done.
Qed.

Lemma read_bytes_app e b tail :
  bytes b -> Z.of_nat (length b) < 2 ^ 64 -> bytes tail -> read_bytes e (marshal_bytes [] b ++ tail) = Ok (b, tail).
Proof.
  intros. unfold read_bytes. rewrite unmarshal_bytes_app by done. cbn [ok_or]. rewrite bind_Ok. by rewrite slice_from_ok.
Qed.

Lemma bh_marshal_dst bh dst :
  bh_ok bh -> bh_marshal bh dst = dst ++ bh_marshal bh [].
Proof.
  intros H. unfold bh_marshal, marshal_uint32, marshal_uint64.
  rewrite (marshal_bytes_dst (marshal_bytes dst _)), (marshal_bytes_dst (marshal_bytes [] _)), (marshal_bytes_dst dst) by apply H. by rewrite <-!app_assoc.
Qed.

Lemma bytes_one x : is_u8 x -> bytes [x].
Proof. intros. by apply Forall_singleton. Qed.

Lemma header_marshal_bytes bh : bh_ok bh -> bytes (bh_marshal bh []).
Proof.
  intros H. unfold bh_marshal, marshal_uint32, marshal_uint64. rewrite (marshal_bytes_dst _ (first_item bh)) by apply H.
  rewrite !bytes_app. pose proof (marshal_bytes_bytes _ (bo_cp_len _ H) (bo_cp _ H)). pose proof (marshal_bytes_bytes _ (bo_fi_len _ H) (bo_fi _ H)).
  split_and!; auto using bytes_to_be_bytes, bytes_one. apply bytes_one. by destruct (marshal_type bh).
Qed.

Lemma header_unmarshal_app bh tail :
  bh_ok bh -> bytes tail -> bh_unmarshal (bh_marshal bh [] ++ tail) = Ok (bh, tail).
Proof.
  intros H Ht. unfold bh_marshal, marshal_uint32, marshal_uint64. rewrite (marshal_bytes_dst _ (first_item bh)) by apply H.
  rewrite <-!app_assoc. unfold bh_unmarshal.
  pose proof (marshal_bytes_bytes _ (bo_fi_len _ H) (bo_fi _ H)).
  assert (Hmt : bytes [mt_as_u8 (marshal_type bh)]) by (apply bytes_one; by destruct (marshal_type bh)).
  rewrite read_bytes_app, bind_Ok; [|apply H..|rewrite !bytes_app; auto 20 using bytes_to_be_bytes].
  rewrite read_bytes_app, bind_Ok; [|apply H..|rewrite !bytes_app; auto 20 using bytes_to_be_bytes].
  pass_guard done. cbn [app idx lookup list_lookup]. rewrite bind_Ok, mt_roundtrip. cbn [ok_or]. rewrite bind_Ok.
  unfold slice_from at 1. rewrite decide_True by (cbn; lia). rewrite bind_Ok, skipn_cons, drop_0.
  pose proof (bo_items_size _ H) as [H1 H2]. pose proof (bo_lens_size _ H) as [H3 H4]. pose proof (bo_count _ H) as [H5 H6].
  unfold MAX_INMEMORY_BLOCK_SIZE in *.
  repeat (rewrite read_field_app by (apply H || (unfold is_u; cbn; lia)); rewrite bind_Ok).
  pass_guard ltac:(apply Z.eqb_neq; lia). unfold MAX_INMEMORY_BLOCK_SIZE.
  pass_guard ltac:(rewrite Z.gtb_ltb; apply Z.ltb_ge; lia). pass_guard ltac:(rewrite Z.gtb_ltb; apply Z.ltb_ge; lia).
  by destruct bh.
Qed.

Lemma bh_marshal_nonempty bh : (1 <= length (bh_marshal bh []))%nat.
Proof. unfold bh_marshal, marshal_uint32, marshal_uint64. rewrite !length_app, !length_to_be_bytes. lia. Qed.

(** ** The readers never panic *)

Lemma no_panic_read_field n src : no_panic (read_field n src).
Proof.
  unfold read_field. destruct (Nat.ltb_spec (length src) n); [done|]. cbn [guard_ mbind res_bind].
  apply no_panic_bind; [auto with esm|]. intros u _. apply no_panic_bind; [auto with esm|]. done.
Qed.

Lemma read_field_bytes n src u rest :
  bytes src -> read_field n src = Ok (u, rest) -> is_u (8 * Z.of_nat n) u /\ bytes rest /\ (length rest <= length src)%nat.
Proof.
  intros Hs H. unfold read_field in H. res_inv. simplify_eq. apply slice_from_inv in Hm1. subst.
  apply read_be_range in Hm0; [|done]. rewrite length_drop. auto with esm lia.
Qed.

Lemma read_bytes_range e src b rest :
  bytes src -> read_bytes e src = Ok (b, rest) ->
  bytes b /\ Z.of_nat (length b) < 2 ^ 64 /\ bytes rest /\ (length rest < length src)%nat.
Proof.
  intros Hs H. unfold read_bytes in H. destruct (unmarshal_bytes src) as [[b' n]|] eqn:Hu; [|done]. cbn [ok_or] in H. rewrite bind_Ok in H.
  res_inv. simplify_eq. apply slice_from_inv in Hm. subst.
  destruct (unmarshal_bytes_range _ _ _ Hs Hu) as (Hn & Hb & Hl). unfold unmarshal_bytes in Hu.
  destruct (unmarshal_var_uint64 src) as [[u m]|] eqn:Hv; [|done]. destruct (unmarshal_var_uint64_range _ _ _ Hs Hv) as [[??] ?].
  rewrite Z.gtb_ltb in Hu. destruct (Z.ltb_spec (Z.of_nat (length src - m)) u); [done|]. injection Hu as <- <-.
  rewrite length_take, !length_drop. split_and!; [done|lia|by apply bytes_drop|lia].
Qed.

Lemma no_panic_read_bytes e src : bytes src -> no_panic (read_bytes e src).
Proof.
  intros Hs. unfold read_bytes. destruct (unmarshal_bytes src) as [[b n]|] eqn:Hu; [|done]. cbn [ok_or mbind res_bind].
  apply unmarshal_bytes_range in Hu as [Hn _]; [|done]. apply no_panic_bind; auto with esm.
Qed.

(** Inverts the fields of a decoder that succeeded. *)
Ltac fields_of H :=
  repeat (res_inv; match type of H with
  | (let '(_, _) := ?p in _) = Ok _ => destruct p as [? ?]
  end); res_inv.

Lemma bh_unmarshal_total src :
  bytes src -> no_panic (bh_unmarshal src) /\
  forall bh rest, bh_unmarshal src = Ok (bh, rest) -> bh_ok bh /\ bytes rest /\ (length rest < length src)%nat.
Proof.
  intros Hs. split.
  - unfold bh_unmarshal. apply no_panic_bind; [by apply no_panic_read_bytes|]. intros [cp s1] H1.
    apply read_bytes_range in H1 as (_ & _ & Hs1 & _); [|done].
    apply no_panic_bind; [by apply no_panic_read_bytes|]. intros [fi s2] H2. apply read_bytes_range in H2 as (_ & _ & Hs2 & _); [|done].
    destruct s2 as [|v s2]; [done|]. cbn [length Nat.eqb guard_ mbind res_bind idx lookup list_lookup].
    apply no_panic_bind; [auto with esm|]. intros mt _. apply no_panic_bind; [apply no_panic_slice; cbn; lia|]. intros s3 _.
    do 5 (apply no_panic_bind; [apply no_panic_read_field|intros [? ?] _]). repeat (apply no_panic_bind; [auto with esm|intros _ _]). done.
  - intros bh rest H. unfold bh_unmarshal in H. fields_of H. simplify_eq.
    repeat match goal with
    | Hb : bytes ?s, Hr : read_bytes _ ?s = Ok _ |- _ => apply (read_bytes_range _ _ _ _ Hb) in Hr as (? & ? & ? & ?)
    | Hb : bytes ?s, Hr : slice_from ?s 1 = Ok _ |- _ =>
        apply slice_from_inv in Hr; pose proof (bytes_drop 1 s Hb); subst
    | Hb : bytes ?s, Hr : read_field _ ?s = Ok _ |- _ => apply (read_field_bytes _ _ _ _ Hb) in Hr as ([? ?] & ? & ?)
    end.
    rewrite Z.gtb_ltb, ?Z.ltb_ge in *. rewrite Z.eqb_neq in *. rewrite length_drop in *.
    split_and!; [|done|lia]. split; cbn [common_prefix first_item items_count items_block_offset lens_block_offset items_block_size lens_block_size]; try done; lia.
Qed.

(** ** Whole index blocks *)

Definition marshal_headers (bhs : list BlockHeader) : list Z := concat (map (fun bh => bh_marshal bh []) bhs).

Abbreviation sorted_headers bhs := (StronglySorted (fun x y => lex_leb x y) (map first_item bhs)).

Lemma index_headers_bytes bhs : Forall bh_ok bhs -> bytes (marshal_headers bhs).
Proof. induction 1; cbn; [constructor|]. apply bytes_app. split; [by apply header_marshal_bytes|done]. Qed.

Lemma marshal_headers_snoc bhs bh : marshal_headers (bhs ++ [bh]) = marshal_headers bhs ++ bh_marshal bh [].
Proof. unfold marshal_headers. rewrite map_app, concat_app. cbn. by rewrite app_nil_r. Qed.

Lemma read_headers_app bhs i tail :
  Forall bh_ok bhs -> bytes tail -> read_headers (length bhs) i (marshal_headers bhs ++ tail) = Ok (bhs, tail).
Proof.
  intros Hb Ht. revert i. induction Hb as [|bh bhs Hbh Hbhs IH]; intros i; [done|]. cbn [length read_headers].
  change (marshal_headers (bh :: bhs)) with (bh_marshal bh [] ++ marshal_headers bhs). rewrite <-app_assoc.
  rewrite header_unmarshal_app, map_err_Ok, bind_Ok; [|done|apply bytes_app; split; [by apply index_headers_bytes|done]].
  by rewrite IH.
Qed.

Lemma chain_lex (l : list (list Z)) : chain_b lex_leb l = true <-> StronglySorted (fun x y => lex_leb x y) l.
Proof. rewrite <-Is_true_true. apply chain_b_sorted. apply lex_leb_trans. Qed.

Lemma unmarshal_headers_ok bhs :
  bhs <> [] -> Forall bh_ok bhs -> sorted_headers bhs ->
  unmarshal_block_headers (marshal_headers bhs) (Z.of_nat (length bhs)) = Ok bhs.
Proof.
  intros Hne Hb Hs. unfold unmarshal_block_headers. pass_assert ltac:(by destruct bhs).
  rewrite Nat2Z.id, <-(app_nil_r (marshal_headers bhs)), read_headers_app, bind_Ok by (done || constructor).
  pass_guard done. pass_guard ltac:(by apply negb_false_iff, chain_lex). done.
Qed.

Lemma read_headers_total n i src :
  bytes src -> no_panic (read_headers n i src) /\
  forall bhs rest, read_headers n i src = Ok (bhs, rest) -> length bhs = n /\ Forall bh_ok bhs.
Proof.
  revert i src. induction n as [|n IH]; intros i src Hs; cbn [read_headers].
  { split; [done|]. intros bhs rest [= <- <-]. by split; [|constructor]. }
  destruct (bh_unmarshal_total src Hs) as [Hnp Hok]. destruct (bh_unmarshal src) as [[bh s]| |]; [|done..]. cbn [map_err mbind res_bind].
  destruct (Hok bh s eq_refl) as (Hbh & Hb & _). destruct (IH (S i) s Hb) as [Hnp' Hok'].
  destruct (read_headers n (S i) s) as [[bhs r]| |]; [|done..]. split; [done|]. intros ? ? [= <- <-].
  destruct (Hok' bhs r eq_refl) as [<- ?]. by split; [|constructor].
Qed.

Lemma unmarshal_headers_total src n :
  bytes src -> 0 < n -> no_panic (unmarshal_block_headers src n) /\
  forall bhs, unmarshal_block_headers src n = Ok bhs ->
    Z.of_nat (length bhs) = n /\ Forall bh_ok bhs /\ sorted_headers bhs.
Proof.
  intros Hs Hn. unfold unmarshal_block_headers. rewrite assert_true by (by apply Z.gtb_lt). rewrite bind_Ok.
  destruct (read_headers_total (Z.to_nat n) 0 src Hs) as [Hnp Hok]. split.
  - apply no_panic_bind; [done|]. intros [bhs r] _. repeat (apply no_panic_bind; [auto with esm|intros _ _]). done.
  - intros bhs H. res_inv. destruct a as [bhs' r]. res_inv. subst bhs'. destruct (Hok _ _ Hm) as [Hl Hb].
    rewrite negb_false_iff, chain_lex in Hm1. split_and!; [lia|done|done].
Qed.

(** ** Whole metaindexes *)

Definition marshal_rows (rows : list MetaindexRow) : list Z := concat (map (fun mr => mr_marshal mr []) rows).

Abbreviation sorted_rows rows := (StronglySorted (fun x y => lex_leb x y) (map mr_first_item rows)).

Lemma row_marshal_dst mr dst : mr_ok mr -> mr_marshal mr dst = dst ++ mr_marshal mr [].
Proof.
  intros H. unfold mr_marshal, marshal_uint32, marshal_uint64. rewrite (marshal_bytes_dst dst) by apply H. by rewrite <-!app_assoc.
Qed.

Lemma row_marshal_bytes mr : mr_ok mr -> bytes (mr_marshal mr []).
Proof.
  intros H. unfold mr_marshal, marshal_uint32, marshal_uint64. rewrite !bytes_app.
  split_and!; auto using bytes_to_be_bytes. apply marshal_bytes_bytes; apply H.
Qed.

Lemma index_rows_snoc rows mr : marshal_rows (rows ++ [mr]) = marshal_rows rows ++ mr_marshal mr [].
Proof. unfold marshal_rows. rewrite map_app, concat_app. cbn. by rewrite app_nil_r. Qed.

Lemma index_rows_bytes rows : Forall mr_ok rows -> bytes (marshal_rows rows).
Proof. induction 1; cbn; [constructor|]. apply bytes_app. split; [by apply row_marshal_bytes|done]. Qed.

Lemma row_marshal_nonempty mr tail : exists b bs, mr_marshal mr [] ++ tail = b :: bs.
Proof.
  destruct (mr_marshal mr [] ++ tail) as [|b bs] eqn:H; [|by exists b, bs]. apply (f_equal length) in H.
  unfold mr_marshal, marshal_uint32, marshal_uint64 in H. rewrite !length_app, !length_to_be_bytes in H. cbn in H. lia.
Qed.

Lemma row_unmarshal_app mr tail :
  mr_ok mr -> bytes tail -> mr_unmarshal (mr_marshal mr [] ++ tail) = Ok (mr, tail).
Proof.
  intros H Ht. unfold mr_marshal, marshal_uint32, marshal_uint64. rewrite <-!app_assoc. unfold mr_unmarshal.
  rewrite read_bytes_app, bind_Ok; [|apply H..|rewrite !bytes_app; auto using bytes_to_be_bytes].
  pose proof (mo_size _ H) as [H1 H2]. pose proof (mo_count _ H) as [H3 H4]. unfold MAX_INDEX_BLOCK_SIZE in *.
  repeat (rewrite read_field_app by (apply H || (unfold is_u; cbn; lia)); rewrite bind_Ok).
  pass_guard ltac:(apply Z.eqb_neq; lia). unfold MAX_INDEX_BLOCK_SIZE. pass_guard ltac:(rewrite Z.gtb_ltb; apply Z.ltb_ge; lia).
  by destruct mr.
Qed.

Lemma read_rows_app rows fuel acc :
  Forall mr_ok rows -> (length (marshal_rows rows) <= fuel)%nat -> read_rows fuel (marshal_rows rows) acc = Ok (acc ++ rows).
Proof.
  intros Hr. revert fuel acc. induction Hr as [|mr rows Hmr Hrows IH]; intros fuel acc Hf.
  { destruct fuel; cbn; by rewrite app_nil_r. }
  change (marshal_rows (mr :: rows)) with (mr_marshal mr [] ++ marshal_rows rows) in *.
  destruct (row_marshal_nonempty mr (marshal_rows rows)) as (b & bs & Heq).
  destruct fuel as [|fuel]; [rewrite Heq in Hf; cbn in Hf; lia|]. rewrite Heq. cbn [read_rows]. rewrite <-Heq.
  rewrite row_unmarshal_app, map_err_Ok, bind_Ok by (done || by apply index_rows_bytes).
  rewrite IH; [by rewrite <-app_assoc|]. rewrite length_app in Hf. destruct (row_marshal_nonempty mr []) as (b' & bs' & Hb').
  rewrite app_nil_r in Hb'. rewrite Hb' in Hf. cbn in Hf. lia.
Qed.

Lemma unmarshal_rows_ok `{Zl : ZstdLaws} rows lvl :
  rows <> [] -> Forall mr_ok rows -> sorted_rows rows ->
  unmarshal_metaindex_rows (compress_zstd_level [] (marshal_rows rows) lvl) = Ok rows.
Proof.
  intros Hne Hr Hs. unfold unmarshal_metaindex_rows. rewrite decompress_compress, map_err_Ok, bind_Ok by (by apply index_rows_bytes).
  rewrite read_rows_app, bind_Ok by done. pass_guard ltac:(by destruct rows). pass_guard ltac:(by apply negb_false_iff, chain_lex). done.
Qed.
