(* ===== verification/ItemStream.v ===== *)
(** * Streams of item blocks

    Model of [esm-mergeset/src/block_stream_writer.rs],
    [block_stream_reader.rs], [inmemory_part.rs] and the part header of
    [part_header.rs], over in-memory streams: the writer of parts of the merge
    set, the reader with its checks, and the proof that a written part is read
    back block by block. *)
From Stdlib Require Import ZArith Lia Bool Sorted Permutation.
From S2P Require Import Prelude IntCodec Float64 Compress ItemBlock ItemBlockSpec ItemHeader.
Local Open Scope Z_scope.

(** ** The part header *)

Record PartHeader : Type := mkPartHeader {
  ph_items_count : Z;
  ph_blocks_count : Z;
  ph_first_item : list Z;
  ph_last_item : list Z;
}.

Definition PartHeader_default : PartHeader := mkPartHeader 0 0 [] [].

Definition ph_reset (self : PartHeader) : PartHeader := mkPartHeader 0 0 [] [].

Definition ph_copy_from (self src : PartHeader) : PartHeader :=
  mkPartHeader (ph_items_count src) (ph_blocks_count src) (ph_first_item src) (ph_last_item src).

(** ** The writer *)

Inductive StreamWriter : Type :=
| WMem (buf : list Z)
| WClosed.

Definition must_write {E} (w : StreamWriter) (data : list Z) : res E StreamWriter :=
  match w with
  | WMem buf => Ok (WMem (buf ++ data))
  | WClosed => Panic
  end.

Definition stream_close {E} (w : StreamWriter) : res E (StreamWriter * list Z) :=
  match w with
  | WMem buf => Ok (WClosed, buf)
  | WClosed => Panic
  end.

(** The buffers [sb], [bh], [packed_*] are filled anew by every call, so they
    are not part of the state. *)
Record BlockStreamWriter : Type := mkWriter {
  w_compress_level : Z;
  w_metaindex : StreamWriter;
  w_index : StreamWriter;
  w_items : StreamWriter;
  w_lens : StreamWriter;
  w_mr : MetaindexRow;
  w_unpacked_index_block_buf : list Z;
  w_unpacked_metaindex_buf : list Z;
  w_items_block_offset : Z;
  w_lens_block_offset : Z;
  w_index_block_offset : Z;
  w_mr_first_item_caught : bool;
}.

Definition new_inmemory_part (compress_level : Z) : BlockStreamWriter :=
  mkWriter compress_level (WMem []) (WMem []) (WMem []) (WMem []) MetaindexRow_default [] [] 0 0 0 false.

Section Writer.
  Context {Zs : Zstd}.

Definition flush_index_data {E} (self : BlockStreamWriter) : res E BlockStreamWriter :=
  if (length (w_unpacked_index_block_buf self) =? 0)%nat then Ok self
  else
    let packed := compress_zstd_level [] (w_unpacked_index_block_buf self) (w_compress_level self) in
    index ← must_write (w_index self) packed;
    let size := as_u32 (Z.of_nat (length packed)) in
    let mr := mkMetaindexRow (mr_first_item (w_mr self)) (mr_block_headers_count (w_mr self))
                (w_index_block_offset self) size in
    Ok (mkWriter (w_compress_level self) (w_metaindex self) index (w_items self) (w_lens self)
          (mr_reset mr) [] (mr_marshal mr (w_unpacked_metaindex_buf self)) (w_items_block_offset self)
          (w_lens_block_offset self) (as_u64 (w_index_block_offset self + size)) false).

(** The header of the written block, the writer with the two data streams
    advanced, and the block with its common prefix updated. *)
Definition write_block_data {E} (self : BlockStreamWriter) (ib : InmemoryBlock)
    : res E (BlockHeader * BlockStreamWriter * InmemoryBlock) :=
  '(ib, (sb, first, cp, count, mt)) ← marshal_sorted_data ib [] [] (w_compress_level self);
  items ← must_write (w_items self) (sb_items_data sb);
  let items_size := as_u32 (Z.of_nat (length (sb_items_data sb))) in
  lens ← must_write (w_lens self) (sb_lens_data sb);
  let lens_size := as_u32 (Z.of_nat (length (sb_lens_data sb))) in
  Ok (mkBlockHeader cp first mt count (w_items_block_offset self) (w_lens_block_offset self) items_size lens_size,
      mkWriter (w_compress_level self) (w_metaindex self) (w_index self) items lens (w_mr self)
        (w_unpacked_index_block_buf self) (w_unpacked_metaindex_buf self)
        (as_u64 (w_items_block_offset self + items_size)) (as_u64 (w_lens_block_offset self + lens_size))
        (w_index_block_offset self) (w_mr_first_item_caught self),
      ib).

(** Adds the header to the index block, after a flush of the headers before it
    when the block would get too big, and registers it in the metaindex row. *)
Definition write_block_header {E} (self : BlockStreamWriter) (bh : BlockHeader) : res E BlockStreamWriter :=
  self ← (if Z.of_nat (length (bh_marshal bh (w_unpacked_index_block_buf self))) >? MAX_INDEX_BLOCK_SIZE
          then flush_index_data self else Ok self);
  let mr := w_mr self in
  let first := if w_mr_first_item_caught self then mr_first_item mr else first_item bh in
  Ok (mkWriter (w_compress_level self) (w_metaindex self) (w_index self) (w_items self) (w_lens self)
        (mkMetaindexRow first (as_u32 (mr_block_headers_count mr + 1)) (mr_index_block_offset mr)
           (mr_index_block_size mr))
        (bh_marshal bh (w_unpacked_index_block_buf self)) (w_unpacked_metaindex_buf self)
        (w_items_block_offset self) (w_lens_block_offset self) (w_index_block_offset self) true).

Definition write_block {E} (self : BlockStreamWriter) (ib : InmemoryBlock)
    : res E (BlockStreamWriter * InmemoryBlock) :=
  '(bh, self, ib) ← write_block_data self ib;
  self ← write_block_header self bh;
  Ok (self, ib).

(** The buffers of an in-memory part: metaindex, index, items, lens. *)
Definition writer_must_close {E} (self : BlockStreamWriter) : res E (list Z * list Z * list Z * list Z) :=
  self ← flush_index_data self;
  metaindex ← must_write (w_metaindex self)
                (compress_zstd_level [] (w_unpacked_metaindex_buf self) (w_compress_level self));
  '(_, m) ← stream_close metaindex;
  '(_, i) ← stream_close (w_index self);
  '(_, it) ← stream_close (w_items self);
  '(_, l) ← stream_close (w_lens self);
  Ok (m, i, it, l).
End Writer.

(** ** In-memory parts *)

Record InmemoryPart : Type := mkInmemoryPart {
  mp_ph : PartHeader;
  mp_metaindex_data : list Z;
  mp_index_data : list Z;
  mp_items_data : list Z;
  mp_lens_data : list Z;
}.

Definition from_buffers (ph : PartHeader) (bufs : list Z * list Z * list Z * list Z) : InmemoryPart :=
  let '(metaindex_data, index_data, items_data, lens_data) := bufs in
  mkInmemoryPart ph metaindex_data index_data items_data lens_data.

(** A complete part with the single block [ib], and [ib] after the call. *)
Definition inmemory_part_init {E} `{Zs : Zstd} (ib : InmemoryBlock) : res E (InmemoryPart * InmemoryBlock) :=
  let compress_level := -5 in
  '(ib, (sb, first, cp, count, mt)) ← marshal_unsorted_data ib [] [] compress_level;
  it0 ← idx (ib_items ib) 0;
  ph_first ← item_bytes it0 (ib_data ib);
  itn ← idx (ib_items ib) (length (ib_items ib) - 1);
  ph_last ← item_bytes itn (ib_data ib);
  let ph := mkPartHeader (Z.of_nat (length (ib_items ib))) 1 ph_first ph_last in
  let bh := mkBlockHeader cp first mt count 0 0 (as_u32 (Z.of_nat (length (sb_items_data sb))))
              (as_u32 (Z.of_nat (length (sb_lens_data sb)))) in
  let bh_buf := bh_marshal bh [] in
  _ ← assert_ (Z.of_nat (length bh_buf) <=? 3 * MAX_INDEX_BLOCK_SIZE);
  let index_data := compress_zstd_level [] bh_buf compress_level in
  let mr := mkMetaindexRow first 1 0 (as_u32 (Z.of_nat (length index_data))) in
  let metaindex_data := compress_zstd_level [] (mr_marshal mr []) compress_level in
  Ok (mkInmemoryPart ph metaindex_data index_data (sb_items_data sb) (sb_lens_data sb), ib).

(** ** The reader *)

Inductive StreamReader : Type :=
| RMem (buf : list Z) (pos : nat)
| RClosed.

(** Reads exactly [n] bytes; the stream after the read and the bytes. *)
Definition must_read {E} (r : StreamReader) (n : nat) : res E (StreamReader * list Z) :=
  match r with
  | RMem buf pos =>
      _ ← assert_ (pos + n <=? length buf)%nat;
      Ok (RMem buf (pos + n), take n (drop pos buf))
  | RClosed => Panic
  end.

Inductive bsr_other : Type :=
| UnexpectedLastItem (got want : list Z)
| CannotDecompressIndexBlock (e : zstd_error)
| CannotUnmarshalHeaders (mr_idx : nat) (e : index_error)
| CannotUnmarshalItems (e : items_error)
| TooManyBlocksRead (got limit : Z)
| TooManyItemsRead (got limit : Z)
| UnexpectedFirstItem (got want : list Z).

Inductive bsr_error : Type :=
| BsrEof
| BsrOther (e : bsr_other).

Record BlockStreamReader : Type := mkReader {
  r_block : InmemoryBlock;
  r_is_inmemory_block : bool;
  r_curr_item_idx : nat;
  r_ph : PartHeader;
  r_mrs : list MetaindexRow;
  r_mr_idx : nat;
  r_bhs : list BlockHeader;
  r_bh_idx : nat;
  r_index : StreamReader;
  r_items : StreamReader;
  r_lens : StreamReader;
  r_items_read : Z;
  r_blocks_read : Z;
  r_first_item_checked : bool;
  r_err : option bsr_error;
}.

Definition new_empty : BlockStreamReader :=
  mkReader ib_default false 0 PartHeader_default [] 0 [] 0 RClosed RClosed RClosed 0 0 false None.

Definition from_inmemory_block {E} (ib : InmemoryBlock) : res E BlockStreamReader :=
  block ← sort_items (ib_copy_from ib_default ib);
  Ok (mkReader block true 0 PartHeader_default [] 0 [] 0 RClosed RClosed RClosed 0 0 false None).

Definition curr_item {E} (self : BlockStreamReader) : res E (list Z) :=
  it ← idx (ib_items (r_block self)) (r_curr_item_idx self);
  item_bytes it (ib_data (r_block self)).

Definition r_set_err (self : BlockStreamReader) (err : bsr_error) : BlockStreamReader :=
  mkReader (r_block self) (r_is_inmemory_block self) (r_curr_item_idx self) (r_ph self) (r_mrs self)
    (r_mr_idx self) (r_bhs self) (r_bh_idx self) (r_index self) (r_items self) (r_lens self)
    (r_items_read self) (r_blocks_read self) (r_first_item_checked self) (Some err).

(** The write of the public field [curr_item_idx] by the merger. *)
Definition r_set_idx (self : BlockStreamReader) (i : nat) : BlockStreamReader :=
  mkReader (r_block self) (r_is_inmemory_block self) i (r_ph self) (r_mrs self)
    (r_mr_idx self) (r_bhs self) (r_bh_idx self) (r_index self) (r_items self) (r_lens self)
    (r_items_read self) (r_blocks_read self) (r_first_item_checked self) (r_err self).

(** [must_close]: the streams cannot be read any more. *)
Definition reader_must_close (self : BlockStreamReader) : BlockStreamReader :=
  if r_is_inmemory_block self then self
  else mkReader (r_block self) (r_is_inmemory_block self) (r_curr_item_idx self) (r_ph self) (r_mrs self)
    (r_mr_idx self) (r_bhs self) (r_bh_idx self) RClosed RClosed RClosed
    (r_items_read self) (r_blocks_read self) (r_first_item_checked self) (r_err self).

Section Reader.
  Context {Zs : Zstd}.

Definition from_inmemory_part {E} (mp : InmemoryPart) : res E BlockStreamReader :=
  mrs ← match unmarshal_metaindex_rows (mp_metaindex_data mp) with Ok mrs => Ok mrs | _ => Panic end;
  let ph := ph_copy_from PartHeader_default (mp_ph mp) in
  _ ← assert_ (ph_items_count ph >? 0);
  _ ← assert_ (ph_blocks_count ph >? 0);
  Ok (mkReader ib_default false 0 ph mrs 0 [] 0 (RMem (mp_index_data mp) 0) (RMem (mp_items_data mp) 0)
        (RMem (mp_lens_data mp) 0) 0 0 false None).

Definition read_next_bhs (self : BlockStreamReader) : res bsr_error BlockStreamReader :=
  mr ← ok_or (r_mrs self !! r_mr_idx self) BsrEof;
  let mr_idx := S (r_mr_idx self) in
  '(index, packed) ← must_read (r_index self) (Z.to_nat (mr_index_block_size mr));
  unpacked ← map_err (fun e => BsrOther (CannotDecompressIndexBlock e)) (decompress_zstd [] packed);
  bhs ← map_err (fun e => BsrOther (CannotUnmarshalHeaders mr_idx e))
          (unmarshal_block_headers unpacked (mr_block_headers_count mr));
  Ok (mkReader (r_block self) (r_is_inmemory_block self) (r_curr_item_idx self) (r_ph self) (r_mrs self)
        mr_idx bhs 0 index (r_items self) (r_lens self) (r_items_read self) (r_blocks_read self)
        (r_first_item_checked self) (r_err self)).

(** The first part of [next]: a new index block when the current one is over;
    at the end of the part the last item is checked. *)
Definition ensure_bhs (self : BlockStreamReader) : res bsr_error BlockStreamReader :=
  if (length (r_bhs self) <=? r_bh_idx self)%nat then
    match read_next_bhs self with
    | Err BsrEof =>
        let b := r_block self in
        itn ← idx (ib_items b) (length (ib_items b) - 1);
        last_item ← item_bytes itn (ib_data b);
        if bool_decide (ph_last_item (r_ph self) = last_item) then Err BsrEof
        else Err (BsrOther (UnexpectedLastItem last_item (ph_last_item (r_ph self))))
    | m => m
    end
  else Ok self.

(** The rest of [next]. *)
Definition read_next_block (self : BlockStreamReader) : res bsr_error BlockStreamReader :=
  bh ← idx (r_bhs self) (r_bh_idx self);
  '(items, items_data) ← must_read (r_items self) (Z.to_nat (items_block_size bh));
  '(lens, lens_data) ← must_read (r_lens self) (Z.to_nat (lens_block_size bh));
  block ← map_err (fun e => BsrOther (CannotUnmarshalItems e))
            (ib_unmarshal_data (mkStorageBlock items_data lens_data) (first_item bh) (common_prefix bh)
               (items_count bh) (marshal_type bh));
  let blocks_read := as_u64 (r_blocks_read self + 1) in
  _ ← guard_ (blocks_read >? ph_blocks_count (r_ph self))
        (BsrOther (TooManyBlocksRead blocks_read (ph_blocks_count (r_ph self))));
  let items_read := as_u64 (r_items_read self + Z.of_nat (length (ib_items block))) in
  _ ← guard_ (items_read >? ph_items_count (r_ph self))
        (BsrOther (TooManyItemsRead items_read (ph_items_count (r_ph self))));
  _ ← (if negb (r_first_item_checked self) then
         it0 ← idx (ib_items block) 0;
         first ← item_bytes it0 (ib_data block);
         guard_ (negb (bool_decide (ph_first_item (r_ph self) = first)))
           (BsrOther (UnexpectedFirstItem first (ph_first_item (r_ph self))))
       else Ok tt);
  Ok (mkReader block (r_is_inmemory_block self) 0 (r_ph self) (r_mrs self) (r_mr_idx self) (r_bhs self)
        (S (r_bh_idx self)) (r_index self) items lens items_read blocks_read true (r_err self)).

(** The flag and the reader after the call.  After an error the reader only
    ever answers [false] and the error, so the position it stopped at is not
    part of the model. *)
Definition reader_next {E} (self : BlockStreamReader) : res E (bool * BlockStreamReader) :=
  match r_err self with
  | Some _ => Ok (false, self)
  | None =>
      if r_is_inmemory_block self then Ok (true, r_set_err self BsrEof)
      else
        match self ← ensure_bhs self; read_next_block self with
        | Ok self => Ok (true, self)
        | Err e => Ok (false, r_set_err self e)
        | Panic => Panic
        end
  end.

(** [error()]: the last error, ignoring the end of the stream. *)
Definition reader_error (self : BlockStreamReader) : option bsr_other :=
  match r_err self with
  | Some (BsrOther e) => Some e
  | _ => None
  end.
End Reader.

(** ** Sizes of the stored form *)

Lemma leb128_len3 u : 0 <= u < 2 ^ 21 -> (length (leb128 u) <= 3)%nat.
Proof.
  intros Hu. unfold leb128. cbn [leb128_fuel]. destruct (u <? 128); [cbn; lia|].
  destruct (u / 128 <? 128); [cbn; lia|]. destruct (Z.ltb_spec (u / 128 / 128) 128); [cbn; lia|]. exfalso. dlia.
Qed.

Lemma length_varints us :
  Forall (fun u => 0 <= u < 2 ^ 21) us -> (length (marshal_var_uint64s [] us) <= 3 * length us)%nat.
Proof.
  intros Hus. rewrite marshal_var_uint64s_leb128 by (revert Hus; apply Forall_weaken; unfold is_u; lia). cbn [app].
  induction Hus as [|u us Hu Hus IH]; cbn; [lia|]. rewrite length_app. pose proof (leb128_len3 u Hu). lia.
Qed.

Lemma lxor_bound k a b : 0 <= k -> 0 <= a < 2 ^ k -> 0 <= b < 2 ^ k -> 0 <= Z.lxor a b < 2 ^ k.
Proof.
  intros Hk Ha Hb. assert (Hn : 0 <= Z.lxor a b) by (apply Z.lxor_nonneg; lia). split; [done|].
  rewrite <-(Z.mod_small a (2 ^ k)), <-(Z.mod_small b (2 ^ k)) by lia. rewrite <-!Z.land_ones by lia.
  enough (Z.lxor (Z.land a (Z.ones k)) (Z.land b (Z.ones k)) = Z.lxor a b mod 2 ^ k) as ->; [apply Z.mod_pos_bound; lia|].
  rewrite <-Z.land_ones by lia. apply Z.bits_inj'. intros n Hn'. rewrite !Z.land_spec, !Z.lxor_spec, !Z.land_spec.
  destruct (Z.testbit a n), (Z.testbit b n), (Z.testbit (Z.ones k) n); done.
Qed.

Lemma xor_diff_bound k v l :
  0 <= k -> 0 <= v < 2 ^ k -> Forall (fun u => 0 <= u < 2 ^ k) l -> Forall (fun u => 0 <= u < 2 ^ k) (xor_diff v l).
Proof. intros Hk Hv Hl. revert v Hv. induction Hl; intros; cbn; constructor; auto using lxor_bound. Qed.

Lemma length_fresh y ys : (length (concat (fresh_bytes y ys)) <= total ys)%nat.
Proof. revert y. induction ys as [|z ys IH]; intros y; cbn; [lia|]. rewrite !length_app, length_drop. specialize (IH z). lia. Qed.

Lemma item_lens_bound k (ys : list (list Z)) : Z.of_nat (total ys) < 2 ^ k -> Forall (fun u => 0 <= u < 2 ^ k) (item_lens ys).
Proof. induction ys as [|y ys IH]; cbn; [constructor|]. rewrite length_app. intros. constructor; [lia|apply IH; lia]. Qed.

Lemma prefix_lens_bound k y (ys : list (list Z)) : Z.of_nat (total ys) < 2 ^ k -> Forall (fun u => 0 <= u < 2 ^ k) (prefix_lens y ys).
Proof.
  revert y. induction ys as [|z ys IH]; intros y; cbn; [constructor|]. rewrite length_app. intros.
  pose proof (cpl_le_r y z). constructor; [lia|apply IH; lia].
Qed.

Lemma length_packed_lens y0 ys :
  Z.of_nat (length y0 + total ys) < 2 ^ 21 -> (length (packed_lens y0 ys) <= 6 * length ys)%nat.
Proof.
  intros Hb. unfold packed_lens.
  assert (H1 : Forall (fun u => 0 <= u < 2 ^ 21) (xor_diff 0 (prefix_lens y0 ys)))
    by (apply xor_diff_bound; [lia|lia|apply prefix_lens_bound; lia]).
  assert (H2 : Forall (fun u => 0 <= u < 2 ^ 21) (xor_diff (Z.of_nat (length y0)) (item_lens ys)))
    by (apply xor_diff_bound; [lia|lia|apply item_lens_bound; lia]).
  rewrite marshal_var_uint64s_dst by (revert H2; apply Forall_weaken; unfold is_u; lia). rewrite length_app.
  apply length_varints in H1, H2. rewrite xor_diff_length in H1, H2. rewrite length_prefix_lens in H1. rewrite length_map in H2. lia.
Qed.

Lemma length_be_list ls : length (concat (map (to_be_bytes 8) ls)) = (8 * length ls)%nat.
Proof. induction ls as [|l ls IH]; cbn [map concat length]; [done|]. rewrite length_app, length_to_be_bytes. lia. Qed.

(** ** Blocks that can be stored *)

Definition MAX_ITEMS : Z := 128 * 1024.

(** The contents of a block as the merger flushes it: sorted items of at most
    64 KiB in total.  The limit on their number follows from the one on their
    size when no item is empty. *)
Record storable (xs : list (list Z)) : Prop := {
  sto_nonempty : xs <> [];
  sto_bytes : Forall bytes xs;
  sto_total : Z.of_nat (total xs) <= MAX_INMEMORY_BLOCK_SIZE;
  sto_count : Z.of_nat (length xs) <= MAX_ITEMS;
  sto_sorted : sorted_items xs;
}.

(** A block of a part: its header, its stored form and its items. *)
Record entry : Type := mkEntry { e_bh : BlockHeader; e_sb : StorageBlock; e_items : list (list Z) }.

Record entry_ok `{Zs : Zstd} (e : entry) : Prop := {
  eo_bh : bh_ok (e_bh e);
  eo_cp_len : Z.of_nat (length (common_prefix (e_bh e))) <= MAX_INMEMORY_BLOCK_SIZE;
  eo_fi_len : Z.of_nat (length (first_item (e_bh e))) <= MAX_INMEMORY_BLOCK_SIZE;
  eo_items_size : items_block_size (e_bh e) = Z.of_nat (length (sb_items_data (e_sb e)));
  eo_lens_size : lens_block_size (e_bh e) = Z.of_nat (length (sb_lens_data (e_sb e)));
  eo_storable : storable (e_items e);
  eo_first : head (e_items e) = Some (first_item (e_bh e));
  eo_decodes : ib_unmarshal_data (e_sb e) (first_item (e_bh e)) (common_prefix (e_bh e)) (items_count (e_bh e))
                 (marshal_type (e_bh e)) = Ok (pack (common_prefix (e_bh e)) (e_items e));
  eo_count : items_count (e_bh e) = Z.of_nat (length (e_items e));
  eo_single : length (e_items e) = 1%nat -> marshal_type (e_bh e) = MarshalPlain;
  eo_prefix : Forall (fun x => exists y, x = common_prefix (e_bh e) ++ y) (e_items e);
  eo_no_data : sb_items_data (e_sb e) = [] -> Forall (fun x => x = first_item (e_bh e)) (e_items e);
}.

Section WriteProof.
  Context `{Zs : Zstd} {Zl : ZstdLaws Zs}.

Lemma form_sizes lvl y0 ys sb mt :
  Forall bytes ys -> Z.of_nat (length y0 + total ys) <= MAX_INMEMORY_BLOCK_SIZE -> Z.of_nat (length ys) <= MAX_ITEMS ->
  match mt with MarshalPlain => sb = plain_form ys | MarshalZstd => ys <> [] /\ sb = zstd_form lvl y0 ys end ->
  Z.of_nat (length (sb_items_data sb)) <= 2 * MAX_INMEMORY_BLOCK_SIZE /\
  Z.of_nat (length (sb_lens_data sb)) <= 2 * 8 * MAX_INMEMORY_BLOCK_SIZE.
Proof.
  unfold MAX_INMEMORY_BLOCK_SIZE, MAX_ITEMS. intros Hby Hb Hn. destruct mt; [intros ->|intros [_ ->]].
  - cbn [plain_form sb_items_data sb_lens_data]. rewrite length_be_list, length_map. lia.
  - cbn [zstd_form sb_items_data sb_lens_data]. pose proof (length_fresh y0 ys). pose proof (length_packed_lens y0 ys ltac:(lia)).
    pose proof (zstd_compress_bound lvl (concat (fresh_bytes y0 ys)) (bytes_fresh y0 ys Hby)) as H1.
    pose proof (zstd_compress_bound lvl (packed_lens y0 ys) (packed_lens_bytes y0 ys ltac:(lia))) as H2.
    split; (eapply Z.le_trans; [apply Nat2Z.inj_le; eassumption|]); rewrite !Nat2Z.inj_add, Nat2Z.inj_div; Z.div_mod_to_equations; lia.
Qed.

(** Only a block of equal items is stored without item data. *)
Lemma no_data_equal lvl cp y0 ys sb mt :
  Forall bytes ys -> sorted_items (map (app cp) (y0 :: ys)) -> sb_items_data sb = [] ->
  match mt with MarshalPlain => sb = plain_form ys | MarshalZstd => ys <> [] /\ sb = zstd_form lvl y0 ys end ->
  Forall (fun x => x = cp ++ y0) (map (app cp) (y0 :: ys)).
Proof.
  intros Hby Hs Hnil Hform. destruct mt.
  - subst sb. cbn [plain_form sb_items_data] in Hnil. apply Forall_fmap. constructor; [done|]. apply Forall_In. intros y Hy.
    assert (y = []) as -> by (destruct y as [|c y]; [done|]; exfalso; apply in_split in Hy as (l1 & l2 & ->); rewrite concat_app in Hnil; by apply app_eq_nil in Hnil as [_ Hnil]).
    cbn. f_equal. apply StronglySorted_inv in Hs as [_ Hs]. rewrite Forall_In in Hs. specialize (Hs (cp ++ []) (in_map _ _ _ Hy)).
    rewrite lex_leb_app in Hs. by destruct y0.
  - destruct Hform as [_ ->]. cbn [zstd_form sb_items_data] in Hnil. by destruct (zstd_compress_nonempty lvl (concat (fresh_bytes y0 ys)) (bytes_fresh y0 ys Hby)).
Qed.

(** [write_block] stores the items of a block as an entry. *)
Lemma write_data_ok {E} w b it ln :
  wf_ib b -> storable (block_items b) -> w_items w = WMem it -> w_lens w = WMem ln ->
  is_u64 (w_items_block_offset w) -> is_u64 (w_lens_block_offset w) ->
  exists e b', entry_ok e /\ e_items e = block_items b /\
    block_items b' = block_items b /\
    (items_block_offset (e_bh e) = w_items_block_offset w /\ lens_block_offset (e_bh e) = w_lens_block_offset w) /\
    write_block_data (E := E) w b = Ok (e_bh e,
      mkWriter (w_compress_level w) (w_metaindex w) (w_index w) (WMem (it ++ sb_items_data (e_sb e)))
        (WMem (ln ++ sb_lens_data (e_sb e))) (w_mr w) (w_unpacked_index_block_buf w) (w_unpacked_metaindex_buf w)
        (as_u64 (w_items_block_offset w + items_block_size (e_bh e)))
        (as_u64 (w_lens_block_offset w + lens_block_size (e_bh e))) (w_index_block_offset w) (w_mr_first_item_caught w), b').
Proof.
  intros Hw Hst Hit Hln Hio Hlo. pose proof Hst as [Hne Hby Hto Hco Hso]. unfold MAX_ITEMS in Hco.
  assert (Hlen : length (ib_items b) = length (block_items b)) by (unfold block_items; by rewrite length_map).
  destruct (update_sorted_spec (E := E) b Hw Hso) as (cp & Hup & Hcp & _ & _). remember (mkIB cp (ib_data b) (ib_items b)) as b1 eqn:Hb1.
  assert (Hbi : block_items b = block_items b1) by (by subst b1). assert (Hii : ib_items b = ib_items b1) by (by subst b1).
  assert (Hcpb : ib_common_prefix b1 = cp) by (by subst b1). rewrite Hbi in *. rewrite Hii in Hlen.
  destruct (encodes_intro b1) as (y0 & ys & He); [by subst b1|by intros H0; rewrite H0 in Hlen; destruct (block_items b1)|lia|by rewrite Hcpb|].
  assert (Hb32 : Z.of_nat (total (block_items b1)) < 2 ^ 32) by (unfold MAX_INMEMORY_BLOCK_SIZE in Hto; lia).
  destruct (marshal_decodes (E := E) b1 y0 ys [] [] (w_compress_level w) He Hso Hby Hb32) as (sb & mt & Hm & Hform & Hu).
  pose proof (en_items _ _ _ He) as Hxs. rewrite Hcpb in *. cbn [app] in Hm.
  assert (Hcount : length (y0 :: ys) = length (block_items b1)) by (by rewrite Hxs, length_map).
  pose proof (total_map_app cp ys) as Hmap.
  assert (Hsum : (length cp + length y0 + total ys <= total (block_items b1))%nat).
  { rewrite Hxs. cbn [map concat]. rewrite !length_app. lia. }
  assert (Hbyx : bytes cp /\ bytes y0 /\ Forall bytes ys).
  { rewrite Hxs in Hby. pose proof (bytes_map_app _ _ Hby) as Hb2. inversion Hb2; subst. cbn [map] in Hby. apply Forall_cons in Hby as [[? ?]%bytes_app _]. done. }
  destruct Hbyx as (Hbcp & Hby0 & Hbys).
  destruct (form_sizes (w_compress_level w) y0 ys sb mt Hbys) as [Hs1 Hs2]; [lia|cbn [length] in Hcount; unfold MAX_ITEMS; lia|exact Hform|].
  unfold MAX_INMEMORY_BLOCK_SIZE in Hto.
  exists (mkEntry (mkBlockHeader cp (cp ++ y0) mt (Z.of_nat (length (y0 :: ys))) (w_items_block_offset w) (w_lens_block_offset w)
            (Z.of_nat (length (sb_items_data sb))) (Z.of_nat (length (sb_lens_data sb)))) sb (block_items b1)), b1.
  split; [|split; [done|split; [done|split; [done|]]]].
  - split; cbn [e_bh e_sb e_items common_prefix first_item items_count items_block_offset lens_block_offset items_block_size lens_block_size marshal_type]; try done.
    + split; cbn [common_prefix first_item items_count items_block_offset lens_block_offset items_block_size lens_block_size]; try done;
        rewrite ?length_app; try lia; [by apply bytes_app|cbn [length] in *; lia].
    + unfold MAX_INMEMORY_BLOCK_SIZE. lia.
    + unfold MAX_INMEMORY_BLOCK_SIZE. rewrite length_app. lia.
    + by rewrite Hxs.
    + by rewrite Hcount.
    + rewrite <-Hcount. intros H1. destruct mt; [done|]. destruct Hform as [Hys _]. by destruct ys.
    + intros Hnil. rewrite Hxs in Hso |- *. by apply (no_data_equal (w_compress_level w) cp y0 ys sb mt).
  - unfold write_block_data, marshal_sorted_data. rewrite Hup, bind_Ok, Hm, !bind_Ok, Hit, Hln. cbn [must_write]. rewrite !bind_Ok.
    unfold MAX_INMEMORY_BLOCK_SIZE in *. rewrite !(wrap_u_id 32) by (unfold is_u; lia). done.
Qed.

(** ** The writer's invariant *)

Abbreviation group := (list entry).
Definition headers (g : group) : list Z := marshal_headers (map e_bh g).
Definition packed_index (lvl : Z) (g : group) : list Z := zstd_compress lvl (headers g).
Definition items_bytes (g : group) : list Z := concat (map (fun e => sb_items_data (e_sb e)) g).
Definition lens_bytes (g : group) : list Z := concat (map (fun e => sb_lens_data (e_sb e)) g).

(** The entries of an index block that is not empty. *)
Record group_ok (g : group) : Prop := {
  go_nonempty : g <> [];
  go_entries : Forall entry_ok g;
  go_size : Z.of_nat (length (headers g)) <= 3 * MAX_INDEX_BLOCK_SIZE;
}.

(** [mr] describes the index block of [g]. *)
Record row_for (lvl : Z) (g : group) (mr : MetaindexRow) : Prop := {
  rf_ok : mr_ok mr;
  rf_first : option_map (fun e => first_item (e_bh e)) (head g) = Some (mr_first_item mr);
  rf_count : mr_block_headers_count mr = Z.of_nat (length g);
  rf_size : mr_index_block_size mr = Z.of_nat (length (packed_index lvl g));
}.

(** A position in a stream, as a header records it. *)
Definition pos_of (l : list Z) : Z := as_u64 (Z.of_nat (length l)).

(** The data of an entry starts where the data of the entries before it ends. *)
Definition placed (es : group) : Prop := forall i e, es !! i = Some e ->
  items_block_offset (e_bh e) = pos_of (items_bytes (take i es)) /\
  lens_block_offset (e_bh e) = pos_of (lens_bytes (take i es)).

(** An index block starts where the one before it ends. *)
Definition rows_placed (lvl : Z) (gs : list group) (rows : list MetaindexRow) : Prop := forall i mr, rows !! i = Some mr ->
  mr_index_block_offset mr = pos_of (concat (map (packed_index lvl) (take i gs))).

(** The writer has written the index blocks [gs], and holds the headers of
    [cur] for the next one. *)
Record written (w : BlockStreamWriter) (gs : list group) (cur : group) : Prop := {
  wr_metaindex : w_metaindex w = WMem [];
  wr_index : w_index w = WMem (concat (map (packed_index (w_compress_level w)) gs));
  wr_items : w_items w = WMem (items_bytes (concat gs ++ cur));
  wr_lens : w_lens w = WMem (lens_bytes (concat gs ++ cur));
  wr_groups : Forall group_ok gs;
  wr_cur : cur <> [] -> group_ok cur;
  wr_buf : w_unpacked_index_block_buf w = headers cur;
  wr_rows : exists rows, w_unpacked_metaindex_buf w = marshal_rows rows /\ Forall2 (row_for (w_compress_level w)) gs rows /\
    rows_placed (w_compress_level w) gs rows;
  wr_count : mr_block_headers_count (w_mr w) = Z.of_nat (length cur);
  wr_caught : w_mr_first_item_caught w = negb (length cur =? 0)%nat;
  wr_first : cur <> [] -> option_map (fun e => first_item (e_bh e)) (head cur) = Some (mr_first_item (w_mr w));
  wr_items_offset : w_items_block_offset w = pos_of (items_bytes (concat gs ++ cur));
  wr_lens_offset : w_lens_block_offset w = pos_of (lens_bytes (concat gs ++ cur));
  wr_index_offset : w_index_block_offset w = pos_of (concat (map (packed_index (w_compress_level w)) gs));
  wr_placed : placed (concat gs ++ cur);
}.

Lemma new_written lvl : written (new_inmemory_part lvl) [] [].
Proof. split; try done. by exists []. Qed.

Lemma pos_of_range l : is_u64 (pos_of l).
Proof. by apply wrap_u_range. Qed.

Lemma pos_of_app l l' : pos_of (l ++ l') = as_u64 (pos_of l + Z.of_nat (length l')).
Proof. unfold pos_of, wrap_u. by rewrite length_app, Nat2Z.inj_add, Zplus_mod_idemp_l. Qed.

(** One more element at the end of a list whose elements depend on those
    before them. *)
Lemma lookup_snoc_case {A} (l : list A) x i y (P : Prop) :
  (l ++ [x]) !! i = Some y -> (l !! i = Some y -> take i (l ++ [x]) = take i l -> P) ->
  (i = length l -> y = x -> take i (l ++ [x]) = l -> P) -> P.
Proof.
  intros Hi H1 H2. destruct (decide (i < length l)%nat) as [Hlt|Hge].
  - rewrite lookup_app_l in Hi by done. apply H1; [done|]. rewrite take_app_le by lia. done.
  - pose proof (lookup_lt_Some _ _ _ Hi) as Hl. rewrite length_app in Hl. cbn in Hl. assert (i = length l) as -> by lia.
    rewrite list_lookup_middle in Hi by done. apply H2; [done|congruence|]. by rewrite take_app_length.
Qed.

Lemma headers_snoc g e : headers (g ++ [e]) = headers g ++ bh_marshal (e_bh e) [].
Proof. unfold headers. rewrite map_app. apply marshal_headers_snoc. Qed.

Lemma entries_bh_ok g : Forall entry_ok g -> Forall bh_ok (map e_bh g).
Proof. intros Hg. apply Forall_fmap. revert Hg. apply Forall_weaken. intros e. apply eo_bh. Qed.

Lemma headers_bytes g : Forall entry_ok g -> bytes (headers g).
Proof. intros. by apply index_headers_bytes, entries_bh_ok. Qed.

Lemma length_headers_ge g : (length g <= length (headers g))%nat.
Proof.
  unfold headers, marshal_headers. induction g as [|e g IH]; cbn [map concat length]; [lia|].
  rewrite length_app. pose proof (bh_marshal_nonempty (e_bh e)). lia.
Qed.

Lemma headers_nil g : headers g = [] -> g = [].
Proof. intros H. pose proof (length_headers_ge g). rewrite H in *. cbn in *. destruct g; [done|cbn in *; lia]. Qed.

Lemma packed_index_bound lvl g :
  group_ok g -> Z.of_nat (length (packed_index lvl g)) <= 4 * MAX_INDEX_BLOCK_SIZE.
Proof.
  intros [Hne He Hs]. unfold packed_index, MAX_INDEX_BLOCK_SIZE in *. pose proof (zstd_compress_bound lvl (headers g) (headers_bytes g He)) as H.
  eapply Z.le_trans; [apply Nat2Z.inj_le; eassumption|]. rewrite !Nat2Z.inj_add, Nat2Z.inj_div. Z.div_mod_to_equations. lia.
Qed.

Lemma flush_written {E} w gs cur :
  written w gs cur -> cur <> [] ->
  exists w', flush_index_data (E := E) w = Ok w' /\ written w' (gs ++ [cur]) [] /\ w_compress_level w' = w_compress_level w.
Proof.
  intros H Hne. unfold flush_index_data. rewrite (wr_buf _ _ _ H).
  destruct (Nat.eqb_spec (length (headers cur)) 0) as [H0|_]; [apply length_zero_iff_nil, headers_nil in H0; done|].
  rewrite (wr_index _ _ _ H). cbn [must_write]. rewrite bind_Ok. pose proof (wr_cur _ _ _ H Hne) as Hg.
  pose proof (packed_index_bound (w_compress_level w) cur Hg) as Hsz. unfold packed_index, MAX_INDEX_BLOCK_SIZE in Hsz.
  unfold compress_zstd_level. cbn [app]. rewrite !(wrap_u_id 32) by (unfold is_u; lia). eexists. split; [done|]. split; [|done].
  set (mr := mkMetaindexRow _ _ _ _).
  assert (Hrow : row_for (w_compress_level w) cur mr).
  { pose proof (wr_first _ _ _ H Hne) as Hfirst. pose proof Hg as [_ He Hsize]. split; [|done|apply H|done].
    destruct cur as [|e cur']; [done|]. cbn in Hfirst. injection Hfirst as Hfirst. inversion He as [|?? Heo _]; subst.
    pose proof (length_headers_ge (e :: cur')). pose proof (wr_count _ _ _ H) as Hc. unfold MAX_INDEX_BLOCK_SIZE in Hsize.
    split; cbn [mr mr_first_item mr_block_headers_count mr_index_block_offset mr_index_block_size].
    - rewrite <-Hfirst. apply Heo.
    - rewrite <-Hfirst. apply Heo.
    - rewrite Hc. cbn [length] in *. lia.
    - rewrite (wr_index_offset _ _ _ H). apply pos_of_range.
    - unfold MAX_INDEX_BLOCK_SIZE. lia. }
  destruct (wr_rows _ _ _ H) as (rows & Hrows & Hall & Hpl). pose proof (Forall2_length _ _ _ Hall) as Hrl.
  split; cbn [w_metaindex w_index w_items w_lens w_mr w_unpacked_index_block_buf w_unpacked_metaindex_buf w_compress_level
    w_items_block_offset w_lens_block_offset w_index_block_offset w_mr_first_item_caught mr_reset mr_block_headers_count]; try done; try apply H.
  - rewrite map_app, concat_app. cbn. by rewrite app_nil_r.
  - rewrite concat_app. cbn. rewrite !app_nil_r. apply H.
  - rewrite concat_app. cbn. rewrite !app_nil_r. apply H.
  - apply Forall_app. split; [apply H|by constructor].
  - exists (rows ++ [mr]). rewrite index_rows_snoc, Hrows. rewrite row_marshal_dst by apply Hrow. split; [done|].
    split; [apply Forall2_app; [done|by constructor]|]. intros i x Hx. apply (lookup_snoc_case _ _ _ _ _ Hx).
    + intros Hi _. rewrite (Hpl _ _ Hi). rewrite take_app_le; [done|]. apply lookup_lt_Some in Hi. lia.
    + intros -> -> _. rewrite take_app_le, <-Hrl, take_ge by lia. apply H.
  - rewrite concat_app. cbn. rewrite !app_nil_r. apply H.
  - rewrite concat_app. cbn. rewrite !app_nil_r. apply H.
  - rewrite map_app, concat_app, pos_of_app, (wr_index_offset _ _ _ H). cbn. by rewrite app_nil_r.
  - rewrite concat_app. cbn. rewrite !app_nil_r. apply H.
Qed.

Lemma header_bound e : entry_ok e -> Z.of_nat (length (bh_marshal (e_bh e) [])) <= 2 * MAX_INDEX_BLOCK_SIZE + 64.
Proof.
  intros H. pose proof (eo_cp_len _ H). pose proof (eo_fi_len _ H). unfold MAX_INMEMORY_BLOCK_SIZE, MAX_INDEX_BLOCK_SIZE in *.
  pose proof (bo_cp_len _ (eo_bh _ H)). pose proof (bo_fi_len _ (eo_bh _ H)).
  unfold bh_marshal, marshal_uint32, marshal_uint64, marshal_bytes, marshal_var_uint64.
  rewrite !append_var_uint64_leb128 by (unfold is_u; lia). rewrite !length_app, !length_to_be_bytes. cbn [length].
  pose proof (leb128_len3 (Z.of_nat (length (common_prefix (e_bh e)))) ltac:(lia)).
  pose proof (leb128_len3 (Z.of_nat (length (first_item (e_bh e)))) ltac:(lia)). lia.
Qed.

(** Registering the header of [e] after the headers of [cur]. *)
Lemma register_written (w0 w : BlockStreamWriter) gs cur e :
  written w0 gs cur -> entry_ok e -> group_ok (cur ++ [e]) ->
  w_items w = WMem (items_bytes (concat gs ++ cur ++ [e])) -> w_lens w = WMem (lens_bytes (concat gs ++ cur ++ [e])) ->
  w_compress_level w = w_compress_level w0 -> w_metaindex w = w_metaindex w0 -> w_index w = w_index w0 ->
  w_unpacked_metaindex_buf w = w_unpacked_metaindex_buf w0 ->
  w_unpacked_index_block_buf w = headers cur ++ bh_marshal (e_bh e) [] ->
  w_mr w = mkMetaindexRow (if w_mr_first_item_caught w0 then mr_first_item (w_mr w0) else first_item (e_bh e))
             (as_u32 (mr_block_headers_count (w_mr w0) + 1)) (mr_index_block_offset (w_mr w0)) (mr_index_block_size (w_mr w0)) ->
  w_mr_first_item_caught w = true ->
  w_items_block_offset w = pos_of (items_bytes (concat gs ++ cur ++ [e])) ->
  w_lens_block_offset w = pos_of (lens_bytes (concat gs ++ cur ++ [e])) -> w_index_block_offset w = w_index_block_offset w0 ->
  items_block_offset (e_bh e) = pos_of (items_bytes (concat gs ++ cur)) ->
  lens_block_offset (e_bh e) = pos_of (lens_bytes (concat gs ++ cur)) ->
  written w gs (cur ++ [e]).
Proof.
  intros H He Hg Hit Hln Hlv Hm Hi Hum Hui Hmr Hc Hio Hlo Hix Hei Hel.
  split; rewrite ?Hlv, ?Hm, ?Hi, ?Hum, ?Hui, ?Hix, ?Hc; try done; try apply H.
  - by rewrite headers_snoc.
  - rewrite Hmr. cbn [mr_block_headers_count]. rewrite (wr_count _ _ _ H). rewrite wrap_u_id; [rewrite length_app; cbn; lia|].
    pose proof (go_size _ Hg). pose proof (length_headers_ge (cur ++ [e])) as Hl. rewrite length_app in Hl. cbn [length] in Hl.
    unfold MAX_INDEX_BLOCK_SIZE in *. unfold is_u. lia.
  - destruct cur; done.
  - intros _. rewrite Hmr. cbn [mr_first_item]. rewrite (wr_caught _ _ _ H). destruct cur as [|e0 cur]; [done|].
    apply (wr_first _ _ _ H). done.
  - intros i x. rewrite app_assoc. intros Hx. apply (lookup_snoc_case _ _ _ _ _ Hx).
    + intros Hi' ->. by apply (wr_placed _ _ _ H).
    + intros _ -> ->. done.
Qed.

(** The writer with its two data streams advanced; [flush_index_data] leaves
    them alone. *)
Definition advance (w : BlockStreamWriter) (it ln : list Z) (io lo : Z) : BlockStreamWriter :=
  mkWriter (w_compress_level w) (w_metaindex w) (w_index w) (WMem it) (WMem ln) (w_mr w) (w_unpacked_index_block_buf w)
    (w_unpacked_metaindex_buf w) io lo (w_index_block_offset w) (w_mr_first_item_caught w).

Lemma flush_advance {E} w w' it ln io lo :
  flush_index_data (E := E) w = Ok w' -> flush_index_data (E := E) (advance w it ln io lo) = Ok (advance w' it ln io lo).
Proof.
  unfold flush_index_data. cbn [advance w_unpacked_index_block_buf w_index w_compress_level w_mr w_index_block_offset].
  destruct (_ =? _)%nat; [by intros [= <-]|]. intros H. apply bind_ok in H as (i & -> & H). rewrite bind_Ok. by injection H as <-.
Qed.

Lemma group_snoc_ok cur e :
  entry_ok e -> (cur <> [] -> group_ok cur) ->
  (cur = [] \/ Z.of_nat (length (headers (cur ++ [e]))) <= MAX_INDEX_BLOCK_SIZE) -> group_ok (cur ++ [e]).
Proof.
  intros He Hcur Hs. split; [by destruct cur| |].
  - apply Forall_app. split; [|by constructor]. destruct cur as [|e0 cur]; [constructor|]. by apply Hcur.
  - destruct Hs as [->|Hs]; [|unfold MAX_INDEX_BLOCK_SIZE in *; lia]. cbn [app headers map marshal_headers concat].
    rewrite app_nil_r. pose proof (header_bound e He). unfold MAX_INDEX_BLOCK_SIZE in *. lia.
Qed.

Lemma items_bytes_app g g' : items_bytes (g ++ g') = items_bytes g ++ items_bytes g'.
Proof. unfold items_bytes. by rewrite map_app, concat_app. Qed.
Lemma lens_bytes_app g g' : lens_bytes (g ++ g') = lens_bytes g ++ lens_bytes g'.
Proof. unfold lens_bytes. by rewrite map_app, concat_app. Qed.

(** Writing a block adds one entry: to the current index block, or to a new
    one after a flush. *)
Lemma write_block_written {E} w gs cur b :
  written w gs cur -> wf_ib b -> storable (block_items b) ->
  exists w' b' gs' cur' e, write_block (E := E) w b = Ok (w', b') /\ written w' gs' cur' /\
    concat gs' ++ cur' = (concat gs ++ cur) ++ [e] /\ cur' <> [] /\ e_items e = block_items b /\ entry_ok e /\
    w_compress_level w' = w_compress_level w.
Proof.
  intros H Hw Hst. destruct (write_data_ok (E := E) w b _ _ Hw Hst (wr_items _ _ _ H) (wr_lens _ _ _ H)
    ltac:(rewrite (wr_items_offset _ _ _ H); apply pos_of_range) ltac:(rewrite (wr_lens_offset _ _ _ H); apply pos_of_range))
    as (e & b' & He & Hei & Hb' & [Hoi Hol] & Hwd).
  unfold write_block. rewrite Hwd, bind_Ok. clear Hwd. match goal with |- context [mkWriter _ _ _ (WMem ?i) (WMem ?l) _ _ _ ?io ?lo _ _] => set (it1 := i); set (ln1 := l); set (io1 := io); set (lo1 := lo) end.
  match goal with |- context [mkWriter ?a ?b ?c (WMem it1) ?d ?e ?f ?g io1 lo1 ?h ?i] =>
    change (mkWriter a b c (WMem it1) d e f g io1 lo1 h i) with (advance w it1 ln1 io1 lo1) end. set (w1 := advance w it1 ln1 io1 lo1).
  rewrite (wr_items_offset _ _ _ H) in Hoi. rewrite (wr_lens_offset _ _ _ H) in Hol.
  assert (Hio : io1 = pos_of (items_bytes ((concat gs ++ cur) ++ [e])))
    by (unfold io1; rewrite items_bytes_app, pos_of_app, (wr_items_offset _ _ _ H), (eo_items_size _ He); cbn; by rewrite app_nil_r).
  assert (Hlo : lo1 = pos_of (lens_bytes ((concat gs ++ cur) ++ [e])))
    by (unfold lo1; rewrite lens_bytes_app, pos_of_app, (wr_lens_offset _ _ _ H), (eo_lens_size _ He); cbn; by rewrite app_nil_r).
  assert (Hmar : bh_marshal (e_bh e) (headers cur) = headers (cur ++ [e]))
    by (rewrite headers_snoc; apply bh_marshal_dst, eo_bh, He).
  unfold write_block_header. change (w_unpacked_index_block_buf w1) with (w_unpacked_index_block_buf w).
  rewrite (wr_buf _ _ _ H), Hmar, Z.gtb_ltb.
  destruct (decide (cur = [] \/ Z.of_nat (length (headers (cur ++ [e]))) <= MAX_INDEX_BLOCK_SIZE)) as [Hs|Hs].
  - assert (Hself : (if MAX_INDEX_BLOCK_SIZE <? Z.of_nat (length (headers (cur ++ [e]))) then flush_index_data w1 else Ok w1) = Ok (E := E) w1).
    { destruct (Z.ltb_spec MAX_INDEX_BLOCK_SIZE (Z.of_nat (length (headers (cur ++ [e]))))); [|done].
      destruct Hs as [->|]; [|lia]. unfold flush_index_data. change (w_unpacked_index_block_buf w1) with (w_unpacked_index_block_buf w).
      by rewrite (wr_buf _ _ _ H). }
    rewrite Hself, !bind_Ok. eexists _, b', gs, (cur ++ [e]), e. split; [done|].
    split; [|split_and!; [by rewrite app_assoc|by destruct cur|done..]].
    apply (register_written w _ gs cur e H He (group_snoc_ok cur e He (wr_cur _ _ _ H) Hs)); cbn; try done.
    + rewrite !app_assoc, (items_bytes_app _ [e]). cbn. by rewrite app_nil_r.
    + rewrite !app_assoc, (lens_bytes_app _ [e]). cbn. by rewrite app_nil_r.
    + rewrite (wr_buf _ _ _ H). apply bh_marshal_dst, eo_bh, He.
    + by rewrite app_assoc.
    + by rewrite app_assoc.
  - assert (Hne : cur <> []) by (intros ->; apply Hs; by left). destruct (flush_written (E := E) w gs cur H Hne) as (w2 & Hf & H2 & Hlv).
    rewrite (proj2 (Z.ltb_lt _ _)) by (apply Z.lt_nge; intros ?; apply Hs; by right).
    unfold w1. rewrite (flush_advance _ _ _ _ _ _ Hf), !bind_Ok. eexists _, b', (gs ++ [cur]), [e], e. split; [done|].
    split; [|split_and!; [rewrite concat_app; cbn; by rewrite app_nil_r|done..]].
    apply (register_written w2 _ (gs ++ [cur]) [] e H2 He); cbn; try done.
    + apply (group_snoc_ok [] e He); [done|by left].
    + rewrite concat_app. cbn. rewrite app_nil_r, (items_bytes_app _ [e]). cbn. by rewrite app_nil_r.
    + rewrite concat_app. cbn. rewrite app_nil_r, (lens_bytes_app _ [e]). cbn. by rewrite app_nil_r.
    + rewrite (wr_buf _ _ _ H2). cbn. done.
    + rewrite concat_app. cbn. by rewrite app_nil_r.
    + rewrite concat_app. cbn. by rewrite app_nil_r.
    + rewrite concat_app. cbn. by rewrite !app_nil_r.
    + rewrite concat_app. cbn. by rewrite !app_nil_r.
Qed.
End WriteProof.

(** ** Closing the writer *)

(** The blocks of a part that are read in order: entries grouped in index
    blocks, sorted by their first items. *)
Record part_groups `{Zs : Zstd} (gs : list (list entry)) : Prop := {
  pg_nonempty : gs <> [];
  pg_groups : Forall group_ok gs;
  pg_sorted : StronglySorted (fun x y => lex_leb x y) (map (fun e => first_item (e_bh e)) (concat gs));
}.

Section CloseProof.
  Context `{Zs : Zstd} {Zl : ZstdLaws Zs}.

Lemma close_written {E} w gs cur :
  written w gs cur -> concat gs ++ cur <> [] ->
  exists gs' rows, concat gs' = concat gs ++ cur /\ gs' <> [] /\ Forall group_ok gs' /\
    Forall2 (row_for (w_compress_level w)) gs' rows /\
    (rows_placed (w_compress_level w) gs' rows /\ placed (concat gs')) /\
    writer_must_close (E := E) w = Ok (compress_zstd_level [] (marshal_rows rows) (w_compress_level w),
      concat (map (packed_index (w_compress_level w)) gs'), items_bytes (concat gs'), lens_bytes (concat gs')).
Proof.
  intros H Hne. unfold writer_must_close.
  assert (Hf : exists w' gs', flush_index_data (E := E) w = Ok w' /\ written w' gs' [] /\ w_compress_level w' = w_compress_level w /\
    concat gs' = concat gs ++ cur).
  { destruct cur as [|e cur'].
    - exists w, gs. split_and!; [|done|done|by rewrite app_nil_r]. unfold flush_index_data. by rewrite (wr_buf _ _ _ H).
    - destruct (flush_written (E := E) w gs (e :: cur') H) as (w' & Hf & Hw' & Hl); [done|].
      exists w', (gs ++ [e :: cur']). split_and!; [done..|]. rewrite concat_app. cbn. by rewrite app_nil_r. }
  destruct Hf as (w' & gs' & -> & H' & Hl & Hc). rewrite bind_Ok. destruct (wr_rows _ _ _ H') as (rows & Hrows & Hall & Hpl).
  pose proof (wr_placed _ _ _ H') as Hplaced. rewrite app_nil_r in Hplaced. rewrite (wr_metaindex _ _ _ H'), Hrows, Hl. cbn [must_write]. rewrite bind_Ok. cbn [stream_close]. rewrite bind_Ok.
  rewrite (wr_index _ _ _ H'), (wr_items _ _ _ H'), (wr_lens _ _ _ H'), app_nil_r, Hl in *. cbn [stream_close]. rewrite !bind_Ok.
  exists gs', rows. split_and!; [done| |apply H'|done|done|done|done]. intros ->. by rewrite <-Hc in Hne.
Qed.

(** The first items of the groups are sorted when those of the blocks are. *)
Lemma group_rows_sorted lvl gs rows :
  Forall group_ok gs -> Forall2 (row_for lvl) gs rows ->
  StronglySorted (fun x y => lex_leb x y) (map (fun e => first_item (e_bh e)) (concat gs)) -> sorted_rows rows.
Proof.
  intros Hg Hr. revert Hg. induction Hr as [|g mr gs rows Hrow Hall IH]; intros Hg Hs; cbn [map]; [constructor|].
  inversion Hg as [|?? Hgo Hgs]; subst. cbn [concat] in Hs. rewrite map_app in Hs. apply StronglySorted_app in Hs as (Hrel & _ & Hs2).
  constructor; [by apply IH|]. destruct g as [|e g]; [by destruct (go_nonempty _ Hgo)|]. pose proof (rf_first _ _ _ Hrow) as Hf. cbn in Hf. injection Hf as <-.
  apply Forall_In. intros y (mr' & <- & Hin)%in_map_iff. apply list_elem_of_In, list_elem_of_lookup in Hin as [i Hin].
  destruct (Forall2_lookup_r _ _ _ _ _ Hall Hin) as (g' & Hg'%list_elem_of_lookup_2 & Hrow'). pose proof (rf_first _ _ _ Hrow') as Hf.
  destruct g' as [|e' g']; [done|]. cbn in Hf. injection Hf as <-. apply Hrel; [by left|].
  apply list_elem_of_fmap. exists e'. split; [done|]. apply list_elem_of_In, in_concat. exists (e' :: g'). split; [by apply list_elem_of_In|by left].
Qed.
End CloseProof.

(** ** The reader's invariant *)

Definition stream_at (s : StreamReader) (rest : list Z) : Prop :=
  exists buf pos, s = RMem buf pos /\ (pos <= length buf)%nat /\ drop pos buf = rest.

Lemma must_read_at {E} s a rest :
  stream_at s (a ++ rest) -> exists s', must_read (E := E) s (length a) = Ok (s', a) /\ stream_at s' rest.
Proof.
  intros (buf & pos & -> & Hp & Hd). assert (Hl : (length a + length rest = length buf - pos)%nat)
    by (rewrite <-length_app, <-Hd, length_drop; done).
  exists (RMem buf (pos + length a)). cbn [must_read]. rewrite assert_true by (apply Nat.leb_le; lia). rewrite bind_Ok, Hd, take_app_length.
  split; [done|]. exists buf, (pos + length a)%nat. split_and!; [done|lia|]. by rewrite <-drop_drop, Hd, drop_app_length.
Qed.

Definition entries_items (es : list entry) : list (list Z) := concat (map e_items es).

(** The blocks [es] of the current index block and the index blocks [gs] are
    still to be read. *)
Record reading `{Zs : Zstd} (lvl : Z) (r : BlockStreamReader) (es : list entry) (gs : list (list entry)) : Prop := {
  rd_err : r_err r = None;
  rd_mem : r_is_inmemory_block r = false;
  rd_index : stream_at (r_index r) (concat (map (packed_index lvl) gs));
  rd_items : stream_at (r_items r) (items_bytes (es ++ concat gs));
  rd_lens : stream_at (r_lens r) (lens_bytes (es ++ concat gs));
  rd_bhs : drop (r_bh_idx r) (r_bhs r) = map e_bh es;
  rd_rows : Forall2 (row_for lvl) gs (drop (r_mr_idx r) (r_mrs r));
  rd_entries : Forall entry_ok es;
  rd_groups : Forall group_ok gs;
  rd_sorted : StronglySorted (fun x y => lex_leb x y) (map (fun e => first_item (e_bh e)) (concat gs));
  rd_items_count : 0 <= r_items_read r /\ r_items_read r + Z.of_nat (length (entries_items (es ++ concat gs))) = ph_items_count (r_ph r)
                   /\ ph_items_count (r_ph r) < 2 ^ 64;
  rd_blocks_count : 0 <= r_blocks_read r /\ r_blocks_read r + Z.of_nat (length (es ++ concat gs)) = ph_blocks_count (r_ph r)
                    /\ ph_blocks_count (r_ph r) < 2 ^ 64;
  rd_first : r_first_item_checked r = false -> head (entries_items (es ++ concat gs)) = Some (ph_first_item (r_ph r));
  rd_wf : wf_ib (r_block r);
  rd_last : last (block_items (r_block r) ++ entries_items (es ++ concat gs)) = Some (ph_last_item (r_ph r));
}.

Section ReadProof.
  Context `{Zs : Zstd} {Zl : ZstdLaws Zs}.

Lemma reading_set_idx lvl r es gs i : reading lvl r es gs -> reading lvl (r_set_idx r i) es gs.
Proof. intros H. split; apply H. Qed.

(** The reader with the headers of the next index block loaded. *)
Lemma read_next_bhs_ok lvl r g gs :
  reading lvl r [] (g :: gs) -> exists r', read_next_bhs r = Ok r' /\ reading lvl r' g gs /\
    r_block r' = r_block r /\ r_ph r' = r_ph r.
Proof.
  intros H. pose proof (rd_rows _ _ _ _ H) as Hrows. inversion Hrows as [|? mr ? rows Hrow Hall Heq1 Heq2]; subst.
  pose proof (rd_groups _ _ _ _ H) as Hg. inversion Hg as [|?? Hgo Hgs]; subst.
  unfold read_next_bhs. assert (Hlk : r_mrs r !! r_mr_idx r = Some mr).
  { pose proof (f_equal (fun l => l !! 0%nat) Heq2) as Hl. cbn in Hl. rewrite lookup_drop, Nat.add_0_r in Hl. done. }
  rewrite Hlk. cbn [ok_or]. rewrite bind_Ok. rewrite (rf_size _ _ _ Hrow), Nat2Z.id.
  pose proof (rd_index _ _ _ _ H) as Hi. cbn [map concat] in Hi. destruct (must_read_at (E := bsr_error) _ _ _ Hi) as (index & -> & Hi').
  rewrite bind_Ok. pose proof (decompress_compress lvl (headers g) (headers_bytes g (go_entries _ Hgo))) as Hd.
  unfold compress_zstd_level in Hd. cbn [app] in Hd. unfold packed_index. rewrite Hd, map_err_Ok, bind_Ok. rewrite (rf_count _ _ _ Hrow).
  rewrite <-(length_map e_bh g). unfold headers.
  assert (Hsg : sorted_headers (map e_bh g)).
  { pose proof (rd_sorted _ _ _ _ H) as Hs. cbn [concat] in Hs. rewrite map_app in Hs. apply StronglySorted_app in Hs as (_ & Hs & _).
    by rewrite map_map. }
  rewrite unmarshal_headers_ok, map_err_Ok, bind_Ok; [|destruct g; [by destruct (go_nonempty _ Hgo)|done]|apply entries_bh_ok, Hgo|done].
  eexists. split; [done|]. split; [|done]. split; cbn; try done; try apply H; try apply Hgo.
  - rewrite drop_S with (x := mr) in Heq2 by done. injection Heq2 as <-. done.
  - pose proof (rd_sorted _ _ _ _ H) as Hs. cbn [concat] in Hs. rewrite map_app in Hs. by apply StronglySorted_app in Hs as (_ & _ & Hs).
Qed.

Lemma head_items cp xs (x : list Z) :
  Z.of_nat (total xs) < 2 ^ 32 -> head xs = Some x ->
  exists it, ib_items (pack cp xs) !! 0%nat = Some it /\ forall E, item_bytes (E := E) it (ib_data (pack cp xs)) = Ok x.
Proof.
  intros Hb Hh. pose proof (pack_items cp xs) as Hi. pose proof (pack_wf cp xs Hb) as [_ Hw]. unfold block_items in Hi.
  destruct (ib_items (pack cp xs)) as [|it items]; [by cbn in Hi; rewrite <-Hi in Hh|]. rewrite <-Hi in Hh. cbn in Hh. injection Hh as <-.
  inversion Hw; subst. exists it. split; [done|]. intros E. by apply item_bytes_ok.
Qed.

Lemma last_item_ok b x :
  wf_ib b -> last (block_items b) = Some x ->
  exists it, ib_items b !! (length (ib_items b) - 1)%nat = Some it /\ forall E, item_bytes (E := E) it (ib_data b) = Ok x.
Proof.
  intros [_ Hw] Hl. unfold block_items in Hl. change (map (item_of (ib_data b)) (ib_items b)) with (item_of (ib_data b) <$> ib_items b) in Hl.
  rewrite fmap_last in Hl. destruct (last (ib_items b)) as [it|] eqn:Hit; [|done]. cbn in Hl. injection Hl as <-.
  rewrite last_lookup in Hit. exists it. rewrite Nat.sub_1_r. split; [done|]. intros E. apply item_bytes_ok.
  rewrite Forall_lookup in Hw. by eapply Hw.
Qed.

Lemma read_block_ok lvl r e es gs :
  reading lvl r (e :: es) gs -> exists r', read_next_block r = Ok r' /\ reading lvl r' es gs /\
    r_block r' = pack (common_prefix (e_bh e)) (e_items e) /\ r_curr_item_idx r' = 0%nat.
Proof.
  intros H. pose proof (rd_entries _ _ _ _ H) as Hes. inversion Hes as [|?? He Hes']; subst. pose proof (eo_storable _ He) as Hst.
  assert (Hb32 : Z.of_nat (total (e_items e)) < 2 ^ 32) by (pose proof (sto_total _ Hst); unfold MAX_INMEMORY_BLOCK_SIZE in *; lia).
  unfold read_next_block. pose proof (rd_bhs _ _ _ _ H) as Hbhs. cbn [map] in Hbhs.
  assert (Hlk : r_bhs r !! r_bh_idx r = Some (e_bh e)).
  { pose proof (f_equal (fun l => l !! 0%nat) Hbhs) as Hl. cbn in Hl. by rewrite lookup_drop, Nat.add_0_r in Hl. }
  rewrite (bind_eq (idx (r_bhs r) (r_bh_idx r)) (e_bh e)) by (unfold idx; by rewrite Hlk). rewrite (eo_items_size _ He), (eo_lens_size _ He), !Nat2Z.id.
  pose proof (rd_items _ _ _ _ H) as Hi. cbn [app] in Hi. change (items_bytes (e :: es ++ concat gs)) with (sb_items_data (e_sb e) ++ items_bytes (es ++ concat gs)) in Hi.
  destruct (must_read_at (E := bsr_error) _ _ _ Hi) as (items & -> & Hi'). rewrite bind_Ok.
  pose proof (rd_lens _ _ _ _ H) as Hl. cbn [app] in Hl. change (lens_bytes (e :: es ++ concat gs)) with (sb_lens_data (e_sb e) ++ lens_bytes (es ++ concat gs)) in Hl.
  destruct (must_read_at (E := bsr_error) _ _ _ Hl) as (lens & -> & Hl'). rewrite bind_Ok.
  replace (mkStorageBlock (sb_items_data (e_sb e)) (sb_lens_data (e_sb e))) with (e_sb e) by (by destruct (e_sb e)).
  rewrite (eo_decodes _ He), map_err_Ok, bind_Ok.
  pose proof (rd_items_count _ _ _ _ H) as (Hic1 & Hic2 & Hic3). pose proof (rd_blocks_count _ _ _ _ H) as (Hbc1 & Hbc2 & Hbc3).
  cbn [app] in Hic2, Hbc2. change (entries_items (e :: es ++ concat gs)) with (e_items e ++ entries_items (es ++ concat gs)) in Hic2.
  rewrite length_app in Hic2. cbn [length] in Hbc2.
  change (length (ib_items (pack (common_prefix (e_bh e)) (e_items e)))) with (length (layout 0 (e_items e))). rewrite length_layout.
  rewrite !(wrap_u_id 64) by (unfold is_u; lia).
  rewrite (guard_false (_ >? ph_blocks_count _)), bind_Ok by (rewrite Z.gtb_ltb; apply Z.ltb_ge; lia).
  rewrite (guard_false (_ >? ph_items_count _)), bind_Ok by (rewrite Z.gtb_ltb; apply Z.ltb_ge; lia).
  assert (Hfirst : (if negb (r_first_item_checked r) then
      it0 ← idx (ib_items (pack (common_prefix (e_bh e)) (e_items e))) 0;
      first ← item_bytes it0 (ib_data (pack (common_prefix (e_bh e)) (e_items e)));
      guard_ (negb (bool_decide (ph_first_item (r_ph r) = first))) (BsrOther (UnexpectedFirstItem first (ph_first_item (r_ph r))))
    else Ok tt) = Ok tt).
  { destruct (r_first_item_checked r) eqn:Hchk; [done|]. cbn [negb].
    pose proof (rd_first _ _ _ _ H Hchk) as Hf. cbn [app] in Hf. change (entries_items (e :: es ++ concat gs)) with (e_items e ++ entries_items (es ++ concat gs)) in Hf.
    assert (Hh : head (e_items e) = Some (ph_first_item (r_ph r))) by (pose proof (sto_nonempty _ Hst); by destruct (e_items e)).
    destruct (head_items (common_prefix (e_bh e)) (e_items e) _ Hb32 Hh) as (it & Hit & Hx). unfold idx. rewrite Hit, bind_Ok, Hx, bind_Ok.
    apply guard_false. by rewrite bool_decide_eq_true_2. }
  rewrite Hfirst, bind_Ok. eexists. split; [done|]. split; [|done].
  split; cbn [r_err r_is_inmemory_block r_index r_items r_lens r_bh_idx r_bhs r_mr_idx r_mrs r_items_read r_blocks_read r_ph r_first_item_checked r_block]; try done; try apply H.
  - rewrite drop_S with (x := e_bh e) in Hbhs by done. by injection Hbhs.
  - split_and!; [lia|lia|done].
  - split_and!; [lia|lia|done].
  - by apply pack_wf.
  - rewrite pack_items. pose proof (rd_last _ _ _ _ H) as Hlast. cbn [app] in Hlast.
    change (entries_items (e :: es ++ concat gs)) with (e_items e ++ entries_items (es ++ concat gs)) in Hlast.
    rewrite last_app in Hlast. destruct (last (e_items e ++ entries_items (es ++ concat gs))) eqn:Hl0; [done|].
    apply last_None in Hl0. apply app_eq_nil in Hl0 as [H0 _]. by destruct (sto_nonempty _ Hst).
Qed.

(** [next] yields the next block of the part. *)
Lemma reader_next_block lvl r es gs e rest {E} :
  reading lvl r es gs -> es ++ concat gs = e :: rest ->
  exists r' es' gs', reader_next (E := E) r = Ok (true, r') /\ reading lvl r' es' gs' /\ es' ++ concat gs' = rest /\
    r_block r' = pack (common_prefix (e_bh e)) (e_items e) /\ r_curr_item_idx r' = 0%nat.
Proof.
  intros H Hrest. unfold reader_next. rewrite (rd_err _ _ _ _ H), (rd_mem _ _ _ _ H).
  assert (Hen : exists r1 es1 gs1, ensure_bhs r = Ok r1 /\ reading lvl r1 (e :: es1) gs1 /\ es1 ++ concat gs1 = rest).
  { unfold ensure_bhs. pose proof (f_equal length (rd_bhs _ _ _ _ H)) as Hl. rewrite length_drop, length_map in Hl.
    destruct es as [|e0 es].
    - rewrite (proj2 (Nat.leb_le _ _)) by (cbn in Hl; lia). destruct gs as [|g gs]; [done|].
      destruct (read_next_bhs_ok lvl r g gs H) as (r1 & -> & H1 & _). pose proof (rd_groups _ _ _ _ H) as Hg. inversion Hg as [|?? Hgo _]; subst.
      destruct g as [|e1 g]; [by destruct (go_nonempty _ Hgo)|]. cbn in Hrest. injection Hrest as -> <-. by exists r1, g, gs.
    - rewrite (proj2 (Nat.leb_gt _ _)) by (cbn in Hl; lia). injection Hrest as -> <-. by exists r, es, gs. }
  destruct Hen as (r1 & es1 & gs1 & -> & H1 & Hr1). rewrite bind_Ok.
  destruct (read_block_ok lvl r1 e es1 gs1 H1) as (r2 & -> & H2 & Hblk & Hidx). by exists r2, es1, gs1.
Qed.

(** After the last block [next] reports the end, without an error. *)
Lemma reader_next_end lvl r {E} :
  reading lvl r [] [] -> reader_next (E := E) r = Ok (false, r_set_err r BsrEof).
Proof.
  intros H. unfold reader_next. rewrite (rd_err _ _ _ _ H), (rd_mem _ _ _ _ H).
  pose proof (f_equal length (rd_bhs _ _ _ _ H)) as Hl. rewrite length_drop in Hl. cbn in Hl. unfold ensure_bhs.
  rewrite (proj2 (Nat.leb_le _ _)) by lia. unfold read_next_bhs. pose proof (Forall2_nil_inv_l _ _ (rd_rows _ _ _ _ H)) as Heq.
  rewrite (lookup_ge_None_2 (r_mrs r)). 2:{ apply (f_equal length) in Heq. rewrite length_drop in Heq. cbn in Heq. lia. }
  cbn [ok_or mbind res_bind]. pose proof (rd_last _ _ _ _ H) as Hlast. cbn in Hlast. rewrite app_nil_r in Hlast.
  destruct (last_item_ok _ _ (rd_wf _ _ _ _ H) Hlast) as (it & Hit & Hx). unfold idx. rewrite Hit, bind_Ok, Hx, bind_Ok.
  by rewrite bool_decide_eq_true_2.
Qed.
End ReadProof.

(** ** A written part is read back *)

Fixpoint write_blocks {E} `{Zs : Zstd} (w : BlockStreamWriter) (bs : list InmemoryBlock) : res E BlockStreamWriter :=
  match bs with
  | [] => Ok w
  | b :: bs => '(w, _) ← write_block w b; write_blocks w bs
  end.

(** [while bsr.next()], collecting the items of the blocks. *)
Fixpoint read_blocks {E} `{Zs : Zstd} (fuel : nat) (r : BlockStreamReader)
    : res E (list (list (list Z)) * BlockStreamReader) :=
  match fuel with
  | O => Panic
  | S fuel =>
      '(more, r) ← reader_next r;
      if more : bool then
        items ← debug_items (r_block r);
        '(rest, r) ← read_blocks fuel r;
        Ok (items :: rest, r)
      else Ok ([], r)
  end.

(** The part header of a part with the blocks [xss]. *)
Definition part_header (xss : list (list (list Z))) : PartHeader :=
  mkPartHeader (Z.of_nat (length (concat xss))) (Z.of_nat (length xss))
    (default [] (head (concat xss))) (default [] (last (concat xss))).

Section PartRoundtrip.
  Context `{Zs : Zstd} {Zl : ZstdLaws Zs}.

Lemma write_blocks_written {E} bs w gs cur :
  written w gs cur -> Forall wf_ib bs -> Forall storable (map block_items bs) ->
  exists w' gs' cur', write_blocks (E := E) w bs = Ok w' /\ written w' gs' cur' /\
    map e_items (concat gs' ++ cur') = map e_items (concat gs ++ cur) ++ map block_items bs /\
    w_compress_level w' = w_compress_level w.
Proof.
  intros H Hw. revert w gs cur H. induction Hw as [|b bs Hb Hbs IH]; intros w gs cur H Hst; cbn [write_blocks map].
  { exists w, gs, cur. by rewrite app_nil_r. }
  inversion Hst as [|?? Hsb Hsbs]; subst.
  destruct (write_block_written (E := E) w gs cur b H Hb Hsb) as (w1 & b1 & gs1 & cur1 & e & -> & H1 & Hc & _ & He & _ & Hl).
  rewrite bind_Ok. destruct (IH w1 gs1 cur1 H1 Hsbs) as (w2 & gs2 & cur2 & -> & H2 & Hc2 & Hl2).
  exists w2, gs2, cur2. split_and!; [done|done| |congruence]. rewrite Hc2, Hc, map_app. cbn. rewrite He. by rewrite <-app_assoc.
Qed.

(** The entries of a closed part, as the reader sees them at the start. *)
Lemma from_part_reading {E} lvl gs rows ph :
  gs <> [] -> Forall group_ok gs -> Forall2 (row_for lvl) gs rows ->
  StronglySorted (fun x y => lex_leb x y) (map (fun e => first_item (e_bh e)) (concat gs)) ->
  ph = part_header (map e_items (concat gs)) -> ph_items_count ph < 2 ^ 64 ->
  exists r, from_inmemory_part (E := E) (mkInmemoryPart ph (compress_zstd_level [] (marshal_rows rows) lvl)
      (concat (map (packed_index lvl) gs)) (items_bytes (concat gs)) (lens_bytes (concat gs))) = Ok r /\ reading lvl r [] gs.
Proof.
  intros Hne Hg Hrows Hs Hph Hcnt. unfold from_inmemory_part. cbn [mp_metaindex_data mp_ph mp_index_data mp_items_data mp_lens_data].
  rewrite unmarshal_rows_ok; [|by intros ->; inversion Hrows; subst| |by eapply group_rows_sorted].
  2:{ clear -Hrows. induction Hrows as [|???? Hr]; constructor; [apply Hr|done]. }
  rewrite bind_Ok.
  assert (Hst : Forall storable (map e_items (concat gs))).
  { apply Forall_fmap, Forall_In. intros e (g & He & Hin)%in_concat. pose proof (proj1 (Forall_In _ _) Hg g He) as [_ Hes _].
    exact (eo_storable _ (proj1 (Forall_In _ _) Hes e Hin)). }
  assert (Hnb : map e_items (concat gs) <> []).
  { destruct gs as [|g gs]; [done|]. inversion Hg as [|?? Hgo _]; subst. pose proof (go_nonempty _ Hgo). by destruct g. }
  assert (Hcat : exists x xs, concat (map e_items (concat gs)) = x :: xs).
  { destruct (map e_items (concat gs)) as [|xs xss]; [done|]. inversion Hst as [|?? Hx _]; subst. pose proof (sto_nonempty _ Hx).
    destruct xs as [|x xs]; [done|]. cbn. by eexists _, _. }
  destruct Hcat as (x & xs & Hcat).
  assert (Hlen : (length (concat gs) <= length (concat (map e_items (concat gs))))%nat).
  { rewrite <-(length_map e_items (concat gs)). clear -Hst. induction Hst as [|l ls Hl Hls IH]; cbn; [lia|].
    rewrite length_app. pose proof (sto_nonempty _ Hl). destruct l; [done|cbn; lia]. }
  assert (Hitems : ph_items_count ph = Z.of_nat (length (x :: xs))) by (subst ph; cbn; by rewrite Hcat).
  assert (Hblocks : ph_blocks_count ph = Z.of_nat (length (concat gs))) by (subst ph; cbn; by rewrite length_map).
  assert (Hpos : (0 < length (concat gs))%nat) by (apply Nat.neq_0_lt_0; intros H0; apply length_zero_iff_nil in H0; by rewrite H0 in Hnb).
  cbn [ph_copy_from ph_items_count ph_blocks_count].
  rewrite !assert_true, !bind_Ok by (apply Z.gtb_lt; rewrite ?Hitems, ?Hblocks; cbn [length]; lia).
  eexists. split; [done|]. rewrite Hcat in Hlen. rewrite Hitems in Hcnt. cbn [length] in *.
  split; cbn [r_err r_is_inmemory_block r_index r_items r_lens r_bh_idx r_bhs r_mr_idx r_mrs r_items_read r_blocks_read r_ph r_first_item_checked r_block
    app ph_copy_from ph_items_count ph_blocks_count ph_first_item ph_last_item]; try done.
  - eexists _, 0%nat. split_and!; [done|lia|done].
  - eexists _, 0%nat. split_and!; [done|lia|done].
  - eexists _, 0%nat. split_and!; [done|lia|done].
  - unfold entries_items. rewrite Hitems, Hcat. split_and!; [lia|done|done].
  - rewrite Hblocks. split_and!; [lia|done|lia].
  - intros _. unfold entries_items. subst ph. cbn. rewrite Hcat. done.
  - unfold entries_items. subst ph. cbn [block_items map ib_items ib_default app part_header ph_last_item]. rewrite Hcat.
    destruct (last (x :: xs)) eqn:Hl; [done|]. by apply last_None in Hl.
Qed.

Lemma read_blocks_ok {E} lvl es0 : forall r es gs, reading lvl r es gs -> es ++ concat gs = es0 ->
  exists r', read_blocks (E := E) (S (length es0)) r = Ok (map e_items es0, r') /\ reader_error r' = None.
Proof.
  induction es0 as [|e es0 IH]; intros r es gs H Heq.
  - apply app_eq_nil in Heq as [-> Hc]. assert (gs = []) as ->.
    { destruct gs as [|g gs]; [done|]. pose proof (rd_groups _ _ _ _ H) as Hg. inversion Hg as [|?? Hgo _]; subst.
      pose proof (go_nonempty _ Hgo). by destruct g. }
    cbn [length read_blocks]. rewrite (reader_next_end lvl r H), bind_Ok. by eexists.
  - destruct (reader_next_block lvl r es gs e es0 (E := E) H Heq) as (r1 & es1 & gs1 & Hn & H1 & Heq1 & Hb & _).
    change (length (e :: es0)) with (S (length es0)). cbn [read_blocks]. rewrite Hn, bind_Ok. rewrite Hb.
    assert (Hw : wf_ib (pack (common_prefix (e_bh e)) (e_items e))) by (rewrite <-Hb; apply H1).
    rewrite debug_items_ok, pack_items, bind_Ok by done. destruct (IH r1 es1 gs1 H1 Heq1) as (r' & Hr & Herr).
    cbn [read_blocks] in Hr. rewrite Hr, bind_Ok. by exists r'.
Qed.

(** What a writer has taken can be closed and read. *)
Lemma close_readable {E} w gs cur xss :
  written w gs cur -> map e_items (concat gs ++ cur) = xss -> xss <> [] ->
  StronglySorted (fun x y => lex_leb x y) (map (fun xs => default [] (head xs)) xss) ->
  Z.of_nat (length (concat xss)) < 2 ^ 64 ->
  exists bufs r gs', writer_must_close (E := E) w = Ok bufs /\
    from_inmemory_part (E := E) (from_buffers (part_header xss) bufs) = Ok r /\
    reading (w_compress_level w) r [] gs' /\ map e_items (concat gs') = xss.
Proof.
  intros H Hitems Hne Hs Hcnt. destruct (close_written (E := E) w gs cur H) as (gs' & rows & Hc & Hne' & Hg & Hrows & _ & Hclose).
  { intros H0. rewrite H0 in Hitems. by subst xss. }
  rewrite <-Hc in Hitems.
  destruct (from_part_reading (E := E) (w_compress_level w) gs' rows (part_header xss) Hne' Hg Hrows) as (r & Hr & Hread); [|by rewrite Hitems|done|].
  - assert (Hmap : map (fun e => first_item (e_bh e)) (concat gs') = map (fun xs => default [] (head xs)) xss); [|by rewrite Hmap].
    rewrite <-Hitems, map_map. apply map_ext_in. intros e (g & Hgi & Hin)%in_concat. pose proof (proj1 (Forall_In _ _) Hg g Hgi) as [_ Hes _].
    pose proof (eo_first _ (proj1 (Forall_In _ _) Hes e Hin)) as Hf. by rewrite Hf.
  - eexists _, r, gs'. split_and!; [exact Hclose|exact Hr|done|done].
Qed.

(** C14: a part of the merge set is stored without loss.  Blocks of sorted items
    of at most 64 KiB each, in the order of their first items, are written to
    the four streams of a part in any grouping into index blocks; with the
    part header that counts them and names the first and the last item, the
    reader passes every check, yields exactly the written items block by
    block, and ends without an error. *)
Theorem items_part_roundtrip (lvl : Z) (bs : list InmemoryBlock) :
  bs <> [] -> Forall wf_ib bs -> Forall storable (map block_items bs) ->
  StronglySorted (fun x y => lex_leb x y) (map (fun b => default [] (head (block_items b))) bs) ->
  Z.of_nat (length (concat (map block_items bs))) < 2 ^ 64 ->
  exists w bufs r r',
    write_blocks (E := Empty_set) (new_inmemory_part lvl) bs = Ok w /\
    writer_must_close (E := Empty_set) w = Ok bufs /\
    from_inmemory_part (E := Empty_set) (from_buffers (part_header (map block_items bs)) bufs) = Ok r /\
    read_blocks (E := Empty_set) (S (length bs)) r = Ok (map block_items bs, r') /\
    reader_error r' = None.
Proof.
  intros Hne Hw Hst Hs Hcnt.
  destruct (write_blocks_written (E := Empty_set) bs _ [] [] (new_written lvl) Hw Hst) as (w & gs & cur & Hwr & H & Hitems & Hl).
  destruct (close_readable (E := Empty_set) w gs cur (map block_items bs) H Hitems) as (bufs & r & gs' & Hclose & Hr & Hread & Hitems');
    [by destruct bs|by rewrite map_map|done|].
  destruct (read_blocks_ok (E := Empty_set) _ (concat gs') r [] gs' Hread eq_refl) as (r' & Hrd & Herr).
  assert (Hlen : length (concat gs') = length bs) by (apply (f_equal length) in Hitems'; by rewrite !length_map in Hitems').
  rewrite Hlen, Hitems' in Hrd. by exists w, bufs, r, r'.
Qed.
End PartRoundtrip.

Lemma items_part_roundtrip_witness :
  exists w bufs r r',
    write_blocks (Zs := stored_zstd) (E := Empty_set) (new_inmemory_part 1) [pack [] [[1; 2]; [1; 3]]; pack [] [[4]]] = Ok w /\
    writer_must_close (Zs := stored_zstd) (E := Empty_set) w = Ok bufs /\
    from_inmemory_part (Zs := stored_zstd) (E := Empty_set) (from_buffers (part_header [[[1; 2]; [1; 3]]; [[4]]]) bufs) = Ok r /\
    read_blocks (Zs := stored_zstd) (E := Empty_set) 3 r = Ok ([[[1; 2]; [1; 3]]; [[4]]], r') /\
    reader_error r' = None.
Proof.
  apply (items_part_roundtrip (Zl := stored_zstd_laws) 1 [pack [] [[1; 2]; [1; 3]]; pack [] [[4]]]).
  - done.
  - repeat constructor; by apply (bool_decide_unpack _); vm_compute.
  - repeat constructor; try done; try (by apply (bool_decide_unpack _); vm_compute).
  - repeat constructor.
  - by vm_compute.
Defined.
