(* ===== verification/ItemMerge.v ===== *)
(** * Merging streams of items

    Model of [esm-mergeset/src/merge.rs]: the heap of readers ordered by their
    current items, the loop that copies items to a scratch block and flushes
    full blocks to the writer, and the callback that may rewrite a block
    before it is written.

    The readers and the writer are interfaces ([ItemSource], [ItemSink]); the
    reader and the writer of [ItemStream] implement them in [ItemPartMerge]. *)
From Stdlib Require Import ZArith Lia Bool Sorted Permutation.
From S2P Require Import Prelude Heap IntCodec Float64 Compress ItemBlock ItemBlockSpec ItemHeader ItemStream.
Local Open Scope Z_scope.

(** The only error of the model itself: a loop that was given too little fuel.
    The errors of the code are values. *)
Inductive out_of_fuel : Type := OutOfFuel.

Abbreviation run := (res out_of_fuel).

(** A reader of blocks: [next], the public fields [block] and
    [curr_item_idx], and [error]. *)
Class ItemSource (S X : Type) : Type := {
  src_next : S -> run (bool * S);
  src_block : S -> InmemoryBlock;
  src_idx : S -> nat;
  src_set_idx : S -> nat -> S;
  src_error : S -> option X;
}.

(** A destination of blocks: [write_block]. *)
Class ItemSink (W : Type) : Type := {
  sink_write : W -> InmemoryBlock -> run W;
}.

Inductive merge_other (X : Type) : Type :=
| CannotObtainBlock (x : X)
| EmptyHeap
| CannotReadBlock (x : X).
Arguments CannotObtainBlock {X} x.
Arguments EmptyHeap {X}.
Arguments CannotReadBlock {X} x.

Inductive MergeError (X : Type) : Type :=
| ForciblyStopped
| MergeOther (e : merge_other X).
Arguments ForciblyStopped {X}.
Arguments MergeOther {X} e.

(** [PrepareBlockCallback]: the data and the items of a block after the call. *)
Definition PrepareBlockCallback : Type := list Z -> list Item -> run (list Z * list Item).

(** [heap.swap(0, n - 1); heap.pop(); sift_down(0)]. *)
Definition heap_pop_top (less : nat -> nat -> bool) (heap : list nat) : list nat :=
  let n := length heap in
  let heap := take (n - 1) (swap heap 0 (n - 1)) in
  sift_down less (length heap) heap 0.

(** The scratch block, [ph_first_item_caught], the writer, the part header and
    the number of merged items.  The buffers [first_item], [last_item] and
    [next_item] are overwritten before every use. *)
Record merge_state (W : Type) : Type := mkMergeState {
  ms_ib : InmemoryBlock;
  ms_ph_first_item_caught : bool;
  ms_sink : W;
  ms_ph : PartHeader;
  ms_items_merged : Z;
}.
Arguments mkMergeState {W}.
Arguments ms_ib {W}.
Arguments ms_ph_first_item_caught {W}.
Arguments ms_sink {W}.
Arguments ms_ph {W}.
Arguments ms_items_merged {W}.

Section Merge.
  Context {S X W : Type} `{Src : ItemSource S X} `{Snk : ItemSink W}.

(** [bsr.block.items[i].bytes(&bsr.block.data)]. *)
Definition item_at (bsr : S) (i : nat) : run (list Z) :=
  it ← idx (ib_items (src_block bsr)) i;
  item_bytes it (ib_data (src_block bsr)).

Definition src_curr_item (bsr : S) : run (list Z) := item_at bsr (src_idx bsr).

(** [bsrs[i].curr_item()]. *)
Definition curr_item_of (bsrs : list S) (i : nat) : run (list Z) :=
  bsr ← idx bsrs i; src_curr_item bsr.

(** [bsrs[a].curr_item() < bsrs[b].curr_item()]: the readers in the heap have
    a current item. *)
Definition item_less (bsrs : list S) (a b : nat) : bool :=
  match curr_item_of bsrs a, curr_item_of bsrs b with
  | Ok x, Ok y => lex_ltb x y
  | _, _ => false
  end.

(** The loop of [init] from reader [i] on: the readers after the calls, the
    indices pushed, and the error that ended the loop early. *)
Fixpoint init_loop (i : nat) (bsrs : list S) : run (list S * list nat * option X) :=
  match bsrs with
  | [] => Ok ([], [], None)
  | bsr :: rest =>
      '(more, bsr) ← src_next bsr;
      let pushed := if more : bool then [i] else [] in
      match src_error bsr with
      | Some x => Ok (bsr :: rest, pushed, Some x)
      | None =>
          '(rest, heap, err) ← init_loop (Datatypes.S i) rest;
          Ok (bsr :: rest, pushed ++ heap, err)
      end
  end.

Definition bsm_init (bsrs : list S) : run (list S * list nat * option (MergeError X)) :=
  '(bsrs, heap, err) ← init_loop 0 bsrs;
  match err with
  | Some x => Ok (bsrs, heap, Some (MergeOther (CannotObtainBlock x)))
  | None =>
      let heap := heap_init (item_less bsrs) heap in
      if (length heap =? 0)%nat then Ok (bsrs, heap, Some (MergeOther EmptyHeap)) else Ok (bsrs, heap, None)
  end.

(** The reader with the smallest current item among the children of the root. *)
Definition next_reader (bsrs : list S) (heap : list nat) : run (option nat) :=
  if (length heap <? 2)%nat then Ok None
  else if (length heap <? 3)%nat then a ← idx heap 1; Ok (Some a)
  else
    a ← idx heap 1;
    b ← idx heap 2;
    x ← curr_item_of bsrs a;
    y ← curr_item_of bsrs b;
    Ok (Some (if lex_leb x y then a else b)).

(** The block after the callback, and its first and last items checked against
    the ones before the call; [false]: the callback removed all items. *)
Definition prepare (cb : PrepareBlockCallback) (ib : InmemoryBlock) : run (InmemoryBlock * bool) :=
  it0 ← idx (ib_items ib) 0;
  first ← item_bytes it0 (ib_data ib);
  itn ← idx (ib_items ib) (length (ib_items ib) - 1);
  last ← item_bytes itn (ib_data ib);
  '(data, items) ← cb (ib_data ib) (ib_items ib);
  let ib := mkIB (ib_common_prefix ib) data items in
  if (length items =? 0)%nat then Ok (ib, false)
  else
    it0 ← idx items 0;
    first' ← item_bytes it0 data;
    _ ← assert_ (lex_leb first first');
    itn ← idx items (length items - 1);
    last' ← item_bytes itn data;
    _ ← assert_ (lex_leb last' last);
    Ok (ib, true).

(** The last part of [flush_ib_parts]: the part header is updated, the block
    is written and reset. *)
Definition write_ib (st : merge_state W) (ib : InmemoryBlock) : run (merge_state W) :=
  let ph := ms_ph st in
  let items_count := as_u64 (ph_items_count ph + Z.of_nat (length (ib_items ib))) in
  it0 ← idx (ib_items ib) 0;
  first ← item_bytes it0 (ib_data ib);
  let ph_first := if ms_ph_first_item_caught st then ph_first_item ph else first in
  itn ← idx (ib_items ib) (length (ib_items ib) - 1);
  last ← item_bytes itn (ib_data ib);
  sink ← sink_write (ms_sink st) ib;
  Ok (mkMergeState (ib_reset ib) true sink
        (mkPartHeader items_count (as_u64 (ph_blocks_count ph + 1)) ph_first last) (ms_items_merged st)).

Definition flush_ib (prepare_block : option PrepareBlockCallback) (st : merge_state W) : run (merge_state W) :=
  let ib := ms_ib st in
  if (length (ib_items ib) =? 0)%nat then Ok st
  else
    let items_merged := as_u64 (ms_items_merged st + Z.of_nat (length (ib_items ib))) in
    let st := mkMergeState ib (ms_ph_first_item_caught st) (ms_sink st) (ms_ph st) items_merged in
    match prepare_block with
    | None => write_ib st ib
    | Some cb =>
        '(ib, more) ← prepare cb ib;
        if more : bool then write_ib st ib
        else Ok (mkMergeState ib (ms_ph_first_item_caught st) (ms_sink st) (ms_ph st) items_merged)
    end.

(** The inner loop: copies the items of the top reader to the scratch block up
    to the first one above [next_item], if items are compared.  Returns the
    state, the reader and [next_item_exceeded]. *)
Fixpoint copy_loop (fuel : nat) (prepare_block : option PrepareBlockCallback) (compare_every_item : bool)
    (next_item : list Z) (st : merge_state W) (bsr : S) : run (merge_state W * S * bool) :=
  match fuel with
  | O => Err OutOfFuel
  | Datatypes.S fuel =>
      if (length (ib_items (src_block bsr)) <=? src_idx bsr)%nat then Ok (st, bsr, false)
      else
        item ← src_curr_item bsr;
        if compare_every_item && lex_ltb next_item item then Ok (st, bsr, true)
        else
          let '(ib, added) := ib_add (ms_ib st) item in
          if added : bool then
            copy_loop fuel prepare_block compare_every_item next_item
              (mkMergeState ib (ms_ph_first_item_caught st) (ms_sink st) (ms_ph st) (ms_items_merged st))
              (src_set_idx bsr (Datatypes.S (src_idx bsr)))
          else
            st ← flush_ib prepare_block st;
            copy_loop fuel prepare_block compare_every_item next_item st bsr
  end.

(** [compare_every_item]: whether the last item of the block of [bsr] exceeds
    the current item of the next reader. *)
Definition compare_items (bsr : S) (has_next_item : bool) (next_item : list Z) : run bool :=
  let n := length (ib_items (src_block bsr)) in
  if (src_idx bsr <? n)%nat then
    last ← item_at bsr (n - 1);
    Ok (has_next_item && lex_ltb next_item last)
  else Ok true.

(** One round of the outer loop on a heap with root [top]: the state, the
    readers, the heap, and the error that ends the merge. *)
Definition merge_round (fuel : nat) (prepare_block : option PrepareBlockCallback) (st : merge_state W)
    (bsrs : list S) (heap : list nat) (top : nat)
    : run (merge_state W * list S * list nat * option (MergeError X)) :=
  next ← next_reader bsrs heap;
  next_item ← match next with Some i => curr_item_of bsrs i | None => Ok [] end;
  let has_next_item := match next with Some _ => true | None => false end in
  bsr ← idx bsrs top;
  compare ← compare_items bsr has_next_item next_item;
  '(st, bsr, exceeded) ← copy_loop fuel prepare_block compare next_item st bsr;
  if negb exceeded then
    '(more, bsr) ← src_next bsr;
    bsrs ← set_idx bsrs top bsr;
    if more : bool then Ok (st, bsrs, sift_down (item_less bsrs) (length heap) heap 0, None)
    else
      match src_error bsr with
      | Some x => Ok (st, bsrs, heap, Some (MergeOther (CannotReadBlock x)))
      | None => Ok (st, bsrs, heap_pop_top (item_less bsrs) heap, None)
      end
  else
    bsrs ← set_idx bsrs top bsr;
    Ok (st, bsrs, sift_down (item_less bsrs) (length heap) heap 0, None).

(** The outer loop.  [stop k] is what [stop.is_stopped()] answers in round
    [k]; [copy_fuel] bounds the inner loops. *)
Fixpoint merge_loop (fuel copy_fuel k : nat) (stop : nat -> bool) (prepare_block : option PrepareBlockCallback)
    (st : merge_state W) (bsrs : list S) (heap : list nat)
    : run (merge_state W * list S * option (MergeError X)) :=
  match fuel with
  | O => Err OutOfFuel
  | Datatypes.S fuel =>
      match heap with
      | [] => st ← flush_ib prepare_block st; Ok (st, bsrs, None)
      | top :: _ =>
          if stop k then Ok (st, bsrs, Some ForciblyStopped)
          else
            '(st, bsrs, heap, err) ← merge_round copy_fuel prepare_block st bsrs heap top;
            match err with
            | Some e => Ok (st, bsrs, Some e)
            | None => merge_loop fuel copy_fuel (Datatypes.S k) stop prepare_block st bsrs heap
            end
      end
  end.

(** [merge_block_streams] up to the close of the writer. *)
Definition merge_item_streams (fuel copy_fuel : nat) (stop : nat -> bool) (prepare_block : option PrepareBlockCallback)
    (sink : W) (ph : PartHeader) (items_merged : Z) (bsrs : list S)
    : run (W * PartHeader * Z * option (MergeError X)) :=
  '(bsrs, heap, err) ← bsm_init bsrs;
  match err with
  | Some e => Ok (sink, ph, items_merged, Some e)
  | None =>
      '(st, _, err) ← merge_loop fuel copy_fuel 0 stop prepare_block
                        (mkMergeState ib_default false sink ph items_merged) bsrs heap;
      Ok (ms_sink st, ms_ph st, ms_items_merged st, err)
  end.
End Merge.
