(* ===== verification/ItemMergeSpec.v ===== *)
(** * The merge of item streams is a sorted merge

    The invariant of the loops of [ItemMerge] and the theorem that merging
    streams of sorted items ends, and writes exactly their items in order, in
    blocks within the size limit, each passed through the callback. *)
From Stdlib Require Import ZArith Lia Bool Sorted Permutation.
From S2P Require Import Prelude Heap IntCodec Float64 Compress ItemBlock ItemBlockSpec ItemHeader ItemStream ItemMerge.
Local Open Scope Z_scope.

(** ** What the readers and the writer promise *)

(** The position of the current item is independent of the rest. *)
Class ItemSourceLaws {S X : Type} (Src : ItemSource S X) : Prop := {
  src_block_set s i : src_block (src_set_idx s i) = src_block s;
  src_idx_set s i : src_idx (src_set_idx s i) = i;
  src_set_set s i j : src_set_idx (src_set_idx s i) j = src_set_idx s j;
  src_set_same s : src_set_idx s (src_idx s) = s;
}.

(** [accepts w xss]: the blocks [xss] have been written to [w].  A sink takes
    every block that can be stored. *)
Class ItemSinkLaws {W : Type} (Snk : ItemSink W) (accepts : W -> list (list (list Z)) -> Prop) : Prop := {
  sink_accepts w xss b :
    accepts w xss -> wf_ib b -> storable (block_items b) ->
    exists w', sink_write w b = Ok w' /\ accepts w' (xss ++ [block_items b]);
}.

Section Yields.
  Context {S X : Type} `{Src : ItemSource S X}.

(** The reader [s] still yields the blocks [xss], and then ends without an
    error, wherever the merger has set the current item. *)
Inductive yields : S -> list (list (list Z)) -> Prop :=
| yields_end s s' : src_next s = Ok (false, s') -> src_error s' = None -> yields s []
| yields_block s s' xs xss :
    src_next s = Ok (true, s') -> src_error s' = None ->
    wf_ib (src_block s') -> block_items (src_block s') = xs -> xs <> [] -> src_idx s' = 0%nat ->
    (forall i, yields (src_set_idx s' i) xss) -> yields s (xs :: xss).

(** The reader has a current item, and [xss] follow its block. *)
Record reader_ok (s : S) (xss : list (list (list Z))) : Prop := {
  ro_wf : wf_ib (src_block s);
  ro_idx : (src_idx s < length (block_items (src_block s)))%nat;
  ro_future : forall i, yields (src_set_idx s i) xss;
}.

Definition block_rest (s : S) : list (list Z) := drop (src_idx s) (block_items (src_block s)).
End Yields.

(** An item that fits an empty block, and is one that the callback can read. *)
Record item_ok (good : list Z -> Prop) (x : list Z) : Prop := {
  io_bytes : bytes x;
  io_nonempty : x <> [];
  io_len : Z.of_nat (length x) <= MAX_INMEMORY_BLOCK_SIZE;
  io_good : good x;
}.

(** A block of such items. *)
Record chunk_ok (good : list Z -> Prop) (xs : list (list Z)) : Prop := {
  ck_storable : storable xs;
  ck_good : Forall good xs;
}.

Lemma chunks_storable good chunks : Forall (chunk_ok good) chunks -> Forall storable chunks.
Proof. apply Forall_weaken. intros xs. apply ck_storable. Qed.

(** The contract of the callback on blocks of good items: it maps the items [xs]
    to [f xs], which it leaves sorted and fit for a block, the first not smaller and
    the last not bigger than before.  It may return no items, and then it must
    leave no bytes either.  The documentation of [PrepareBlockCallback] does not
    ask for this, but [flush_ib_parts] returns without a reset then, and bytes
    that stay in the scratch block can keep the merge from ending
    ([merge_oversized_item_diverges]). *)
Definition prepares (good : list Z -> Prop) (prepare_block : option PrepareBlockCallback) (f : list (list Z) -> list (list Z)) : Prop :=
  match prepare_block with
  | None => forall xs, f xs = xs
  | Some cb =>
      forall xs, chunk_ok good xs -> exists data items,
        cb (concat xs) (layout 0 xs) = Ok (data, items) /\ wf_ib (mkIB [] data items) /\
        map (item_of data) items = f xs /\ (f xs = [] -> data = []) /\
        (f xs <> [] -> storable (f xs) /\
           lex_leb (default [] (head xs)) (default [] (head (f xs))) /\
           lex_leb (default [] (last (f xs))) (default [] (last xs)))
  end.

(** The blocks written for the chunks of items [chunks]. *)
Definition outputs (f : list (list Z) -> list (list Z)) (chunks : list (list (list Z))) : list (list (list Z)) :=
  filter (fun xs => xs <> []) (map f chunks).

Lemma outputs_snoc f chunks xs :
  outputs f (chunks ++ [xs]) = outputs f chunks ++ (if decide (f xs = []) then [] else [f xs]).
Proof.
  unfold outputs. rewrite map_app, filter_app. f_equal. cbn [map]. rewrite filter_cons. destruct (decide (f xs = [])) as [H|H].
  - rewrite decide_False by naive_solver. done.
  - rewrite decide_True by done. done.
Qed.

Lemma length_nonempty_items good (xs : list (list Z)) : Forall (item_ok good) xs -> (length xs <= total xs)%nat.
Proof. induction 1 as [|x xs Hx Hxs IH]; cbn; [lia|]. rewrite length_app. pose proof (io_nonempty _ _ Hx). destruct x; [done|cbn; lia]. Qed.

Lemma items_chunk good xs :
  xs <> [] -> Forall (item_ok good) xs -> Z.of_nat (total xs) <= MAX_INMEMORY_BLOCK_SIZE -> sorted_items xs -> chunk_ok good xs.
Proof.
  intros Hne Hok Ht Hs. split; [split; try done|].
  - revert Hok. apply Forall_weaken. intros x. apply io_bytes.
  - pose proof (length_nonempty_items good xs Hok). unfold MAX_INMEMORY_BLOCK_SIZE, MAX_ITEMS in *. lia.
  - revert Hok. apply Forall_weaken. intros x. apply io_good.
Qed.

Section State.
  Context {W : Type} `{Snk : ItemSink W} {accepts : W -> list (list (list Z)) -> Prop} {SnkL : ItemSinkLaws Snk accepts}.
  Context (good : list Z -> Prop) (prepare_block : option PrepareBlockCallback) (f : list (list Z) -> list (list Z)).
  Context (Hprep : prepares good prepare_block f).

(** The chunks flushed so far and the items in the scratch block. *)
Record state_ok (st : merge_state W) (chunks : list (list (list Z))) (pend : list (list Z)) : Prop := {
  so_ib : ms_ib st = pack [] pend;
  so_items : Forall (item_ok good) (concat chunks ++ pend);
  so_size : Z.of_nat (total pend) <= MAX_INMEMORY_BLOCK_SIZE;
  so_sorted : sorted_items (concat chunks ++ pend);
  so_chunks : Forall (chunk_ok good) chunks;
  so_sink : accepts (ms_sink st) (outputs f chunks);
  so_caught : ms_ph_first_item_caught st = negb (length (outputs f chunks) =? 0)%nat;
  so_ph : ms_ph st = part_header (outputs f chunks);
  so_merged : ms_items_merged st = Z.of_nat (length (concat chunks));
}.

Lemma outputs_storable chunks : Forall (chunk_ok good) chunks -> Forall storable (outputs f chunks).
Proof.
  intros Hc. unfold outputs. induction Hc as [|xs chunks Hx Hc IH]; [constructor|]. cbn [map]. rewrite filter_cons.
  destruct (decide (f xs <> [])) as [Hne|]; [|done]. constructor; [|done]. unfold prepares in Hprep. destruct prepare_block.
  - destruct (Hprep xs Hx) as (? & ? & _ & _ & _ & _ & H). by apply H.
  - rewrite Hprep in *. apply Hx.
Qed.

(** The number of items written is bounded by the number of chunks. *)
Lemma outputs_count chunks :
  Forall (chunk_ok good) chunks -> Z.of_nat (length (concat (outputs f chunks))) <= MAX_ITEMS * Z.of_nat (length (concat chunks)) /\
    Z.of_nat (length (outputs f chunks)) <= Z.of_nat (length (concat chunks)).
Proof.
  intros Hc. assert (Hlen : (length chunks <= length (concat chunks))%nat).
  { clear -Hc. induction Hc as [|xs chunks Hx Hc IH]; cbn; [lia|]. rewrite length_app. pose proof (sto_nonempty _ (ck_storable _ _ Hx)). destruct xs; [done|cbn; lia]. }
  assert (Hout : Forall (fun xs => Z.of_nat (length xs) <= MAX_ITEMS) (outputs f chunks))
    by (pose proof (outputs_storable chunks Hc) as Ho; revert Ho; apply Forall_weaken; intros xs; apply sto_count).
  assert (Hn : (length (outputs f chunks) <= length chunks)%nat).
  { unfold outputs. etransitivity; [apply length_filter|]. by rewrite length_map. }
  split; [|lia]. enough (Z.of_nat (length (concat (outputs f chunks))) <= MAX_ITEMS * Z.of_nat (length (outputs f chunks)))
    by (unfold MAX_ITEMS in *; lia).
  clear -Hout. induction Hout as [|xs l Hx Hl IH]; cbn; [lia|]. rewrite length_app. unfold MAX_ITEMS in *. lia.
Qed.

Lemma part_header_snoc xss ys :
  ys <> [] ->
  part_header (xss ++ [ys]) = mkPartHeader (ph_items_count (part_header xss) + Z.of_nat (length ys))
    (ph_blocks_count (part_header xss) + 1)
    (match concat xss with [] => default [] (head ys) | _ => ph_first_item (part_header xss) end) (default [] (last ys)).
Proof.
  intros Hne. unfold part_header. rewrite concat_app. cbn [concat ph_items_count ph_blocks_count ph_first_item]. rewrite app_nil_r, !length_app, last_app. cbn [length].
  f_equal; [lia|lia|by destruct (concat xss)|]. destruct (last ys) eqn:Hl; [done|]. by apply last_None in Hl.
Qed.

Lemma block_ends b x y :
  wf_ib b -> head (block_items b) = Some x -> last (block_items b) = Some y ->
  exists it0 itn, ib_items b !! 0%nat = Some it0 /\ ib_items b !! (length (ib_items b) - 1)%nat = Some itn /\
    forall E, item_bytes (E := E) it0 (ib_data b) = Ok x /\ item_bytes (E := E) itn (ib_data b) = Ok y.
Proof.
  intros Hw Hh Hl. destruct (last_item_ok b y Hw Hl) as (itn & Hn & Hy). destruct Hw as [_ Hw]. unfold block_items in Hh.
  destruct (ib_items b) as [|it0 items] eqn:Hi; [done|]. cbn in Hh. injection Hh as <-. inversion Hw; subst.
  exists it0, itn. split_and!; [done|done|]. intros E. split; [by apply item_bytes_ok|apply Hy].
Qed.

Lemma nonempty_ends (xs : list (list Z)) :
  xs <> [] -> head xs = Some (default [] (head xs)) /\ last xs = Some (default [] (last xs)).
Proof.
  intros Hne. split; [by destruct xs|]. destruct (last xs) eqn:Hl; [done|]. by apply last_None in Hl.
Qed.

Lemma concat_storable_nil xss : Forall storable xss -> concat xss = [] -> xss = [].
Proof. intros H Hc. destruct H as [|xs xss Hx _]; [done|]. pose proof (sto_nonempty _ Hx). by destruct xs. Qed.

Lemma write_ib_ok st xss b :
  accepts (ms_sink st) xss -> Forall storable xss ->
  ms_ph_first_item_caught st = negb (length xss =? 0)%nat -> ms_ph st = part_header xss ->
  wf_ib b -> storable (block_items b) ->
  Z.of_nat (length (concat xss) + length (block_items b)) < 2 ^ 64 -> Z.of_nat (S (length xss)) < 2 ^ 64 ->
  exists sink, write_ib st b = Ok (mkMergeState ib_default true sink (part_header (xss ++ [block_items b])) (ms_items_merged st)) /\
    accepts sink (xss ++ [block_items b]).
Proof.
  intros Hacc Hxss Hc Hph Hw Hst Hb1 Hb2. destruct (nonempty_ends _ (sto_nonempty _ Hst)) as [Hh Hl].
  destruct (block_ends b _ _ Hw Hh Hl) as (it0 & itn & H0 & Hn & Hbytes). unfold write_ib, idx. destruct (Hbytes out_of_fuel) as [Hx Hy].
  rewrite H0, bind_Ok, Hx, bind_Ok, Hn, bind_Ok, Hy, bind_Ok.
  destruct (sink_accepts (ms_sink st) xss b Hacc Hw Hst) as (sink & -> & Hacc'). rewrite bind_Ok. exists sink. split; [|done].
  rewrite Hph, part_header_snoc by apply Hst. replace (length (ib_items b)) with (length (block_items b)) by (unfold block_items; by rewrite length_map).
  assert (Hi : ph_items_count (part_header xss) = Z.of_nat (length (concat xss))) by done.
  assert (Hk : ph_blocks_count (part_header xss) = Z.of_nat (length xss)) by done.
  rewrite !wrap_u_id by (unfold is_u; lia). rewrite Hc. do 3 f_equal.
  destruct (concat xss) as [|y ys] eqn:Hcat.
  - by rewrite (concat_storable_nil _ Hxss Hcat).
  - by destruct xss.
Qed.

Lemma pack_as_block cp xs : ib_items (pack cp xs) = layout 0 xs /\ ib_data (pack cp xs) = concat xs.
Proof. done. Qed.

(** The callback on the scratch block, and the checks after it. *)
Lemma prepare_ok cb xs :
  prepare_block = Some cb -> chunk_ok good xs ->
  exists b, wf_ib b /\ block_items b = f xs /\ prepare cb (pack [] xs) = Ok (b, negb (length (f xs) =? 0)%nat) /\
    (f xs = [] -> b = pack [] []).
Proof.
  intros Hpb Hck. pose proof (ck_storable _ _ Hck) as Hst. unfold prepares in Hprep. rewrite Hpb in Hprep. destruct (Hprep xs Hck) as (data & items & Hcb & Hw & Hf & Hnil & Hne).
  assert (Hwp : wf_ib (pack [] xs)) by (apply pack_wf; pose proof (sto_total _ Hst); unfold MAX_INMEMORY_BLOCK_SIZE in *; lia).
  destruct (nonempty_ends _ (sto_nonempty _ Hst)) as [Hh Hl]. destruct (block_ends (pack [] xs) (default [] (head xs)) (default [] (last xs)) Hwp)
    as (it0 & itn & H0 & Hn & Hbytes); [by rewrite pack_items..|].
  exists (mkIB [] data items). split; [done|]. split; [done|]. unfold prepare, idx. destruct (Hbytes out_of_fuel) as [Hx Hy].
  rewrite H0, bind_Ok, Hx, bind_Ok, Hn, bind_Ok, Hy, bind_Ok. change (ib_data (pack [] xs)) with (concat xs).
  change (ib_items (pack [] xs)) with (layout 0 xs). rewrite Hcb, bind_Ok. change (ib_common_prefix (pack [] xs)) with (@nil Z).
  assert (Hlen : length items = length (f xs)) by (by rewrite <-Hf, length_map). rewrite Hlen.
  destruct (decide (f xs = [])) as [H|H].
  - rewrite H. cbn [length Nat.eqb negb]. split; [done|]. intros _. rewrite (Hnil H). rewrite H in Hlen. by destruct items.
  - destruct (Hne H) as (Hst' & Hle1 & Hle2). destruct (Nat.eqb_spec (length (f xs)) 0) as [Hz|_]; [by apply length_zero_iff_nil in Hz|].
    cbn [negb]. split; [|done]. destruct (nonempty_ends _ H) as [Hh' Hl'].
    destruct (block_ends (mkIB [] data items) (default [] (head (f xs))) (default [] (last (f xs))) Hw) as (i0 & im & Hi0 & Him & Hby);
      [unfold block_items; cbn [ib_data ib_items]; by rewrite Hf..|]. cbn [ib_items ib_data] in *. rewrite Hlen in Him. destruct (Hby out_of_fuel) as [Hx' Hy'].
    rewrite Hi0, bind_Ok, Hx', bind_Ok. destruct (lex_leb (default [] (head xs)) _); [|done]. cbn [assert_]. rewrite bind_Ok, Him, bind_Ok, Hy', bind_Ok.
    by destruct (lex_leb (default [] (last (f xs))) _).
Qed.

Lemma flush_ok st chunks pend :
  state_ok st chunks pend -> pend <> [] -> Z.of_nat (length (concat chunks ++ pend)) < 2 ^ 46 ->
  exists st', flush_ib prepare_block st = Ok st' /\ state_ok st' (chunks ++ [pend]) [].
Proof.
  intros H Hne Hb. pose proof (so_sorted _ _ _ H) as Hs. apply StronglySorted_app in Hs as (_ & _ & Hs).
  pose proof (so_items _ _ _ H) as Hi. assert (Hck : chunk_ok good pend).
  { apply items_chunk; [done|by apply Forall_app in Hi as [_ ?]|apply H|done]. }
  pose proof (ck_storable _ _ Hck) as Hst.
  assert (Hchunks : Forall (chunk_ok good) (chunks ++ [pend])) by (apply Forall_app; split; [apply H|by constructor]).
  destruct (outputs_count chunks (so_chunks _ _ _ H)) as [Hc1 Hc2]. rewrite length_app in Hb. unfold MAX_ITEMS in Hc1.
  unfold flush_ib. rewrite (so_ib _ _ _ H). change (length (ib_items (pack [] pend))) with (length (layout 0 pend)). rewrite length_layout.
  destruct (Nat.eqb_spec (length pend) 0) as [Hz|_]; [by apply length_zero_iff_nil in Hz|].
  rewrite (so_merged _ _ _ H), wrap_u_id by (unfold is_u; lia). set (st1 := mkMergeState _ _ _ _ _).
  assert (Hdone : forall sink, accepts sink (outputs f (chunks ++ [pend])) ->
    state_ok (mkMergeState ib_default (negb (length (outputs f (chunks ++ [pend])) =? 0)%nat) sink (part_header (outputs f (chunks ++ [pend])))
      (Z.of_nat (length (concat chunks)) + Z.of_nat (length pend))) (chunks ++ [pend]) []).
  { intros sink Hsink. split; cbn [ms_ib ms_sink ms_ph ms_items_merged ms_ph_first_item_caught]; try done;
      rewrite ?concat_app; cbn [concat]; rewrite ?app_nil_r; try apply H. rewrite length_app. lia. }
  assert (Hwrite : forall b, wf_ib b -> block_items b = f pend -> f pend <> [] -> storable (f pend) ->
    exists st', write_ib st1 b = Ok st' /\ state_ok st' (chunks ++ [pend]) []).
  { intros b Hw Hbi Hfn Hfst. assert (Hlen : Z.of_nat (length (f pend)) <= MAX_ITEMS) by apply Hfst. unfold MAX_ITEMS in Hlen.
    destruct (write_ib_ok st1 (outputs f chunks) b) as (sink & Hwr & Hacc); cbn [st1 ms_sink ms_ph_first_item_caught ms_ph];
      [apply H|apply outputs_storable, H|apply H|apply H|done|by rewrite Hbi|rewrite Hbi; lia|lia|].
    rewrite Hwr. eexists. split; [done|]. cbn [st1 ms_items_merged]. rewrite Hbi in *.
    assert (Ho : outputs f chunks ++ [f pend] = outputs f (chunks ++ [pend])) by (by rewrite outputs_snoc, decide_False).
    rewrite Ho in *. specialize (Hdone sink Hacc). rewrite <-Ho in Hdone at 1. rewrite length_app in Hdone.
    replace (negb (length (outputs f chunks) + length [f pend] =? 0)%nat) with true in Hdone; [done|].
    symmetry. apply negb_true_iff, Nat.eqb_neq. cbn. lia. }
  assert (Hcase : (exists cb, prepare_block = Some cb) \/ prepare_block = None) by (clear; destruct prepare_block; eauto).
  pose proof Hprep as Hpr. unfold prepares in Hpr. destruct Hcase as [[cb Hpb]|Hpb]; rewrite Hpb in Hpr |- *.
  - destruct (prepare_ok cb pend Hpb Hck) as (b & Hw & Hbi & -> & Hnil). rewrite bind_Ok.
    destruct (Nat.eqb_spec (length (f pend)) 0) as [Hz|Hz]; cbn [negb].
    + apply length_zero_iff_nil in Hz. rewrite (Hnil Hz). eexists. split; [done|]. cbn [st1 ms_ph_first_item_caught ms_sink ms_ph].
      assert (Ho : outputs f (chunks ++ [pend]) = outputs f chunks) by (rewrite outputs_snoc, decide_True by done; by rewrite app_nil_r).
      specialize (Hdone (ms_sink st)). rewrite Ho in Hdone. rewrite (so_caught _ _ _ H), (so_ph _ _ _ H). apply Hdone, H.
    + assert (Hfn : f pend <> []) by (intros H0; by rewrite H0 in Hz). apply (Hwrite b); [done..|].
      pose proof (Hpr pend Hck) as (? & ? & _ & _ & _ & _ & Hp). by apply Hp.
  - assert (Hf : f pend = pend) by apply Hpr. apply (Hwrite (pack [] pend)); rewrite ?Hf; [|by apply pack_items|done|done].
    apply pack_wf. pose proof (so_size _ _ _ H). unfold MAX_INMEMORY_BLOCK_SIZE in *. lia.
Qed.
End State.

(** ** The inner loop *)

Section Copy.
  Context {S X W : Type} `{Src : ItemSource S X} `{Snk : ItemSink W} {accepts : W -> list (list (list Z)) -> Prop}.
  Context {SrcL : ItemSourceLaws Src} {SnkL : ItemSinkLaws Snk accepts}.
  Context (good : list Z -> Prop) (prepare_block : option PrepareBlockCallback) (f : list (list Z) -> list (list Z)).
  Context (Hprep : prepares good prepare_block f).

Lemma item_at_ok (s : S) i x : wf_ib (src_block s) -> block_items (src_block s) !! i = Some x -> item_at s i = Ok x.
Proof.
  intros [_ Hw] Hx. unfold block_items in Hx. change (map (item_of (ib_data (src_block s))) (ib_items (src_block s)))
    with (item_of (ib_data (src_block s)) <$> ib_items (src_block s)) in Hx.
  rewrite list_lookup_fmap in Hx. destruct (ib_items (src_block s) !! i) as [it|] eqn:Hit; [|done]. cbn in Hx. injection Hx as <-.
  unfold item_at, idx. rewrite Hit, bind_Ok. apply item_bytes_ok. rewrite Forall_lookup in Hw. by eapply Hw.
Qed.

Lemma length_block_items b : length (block_items b) = length (ib_items b).
Proof. unfold block_items. by rewrite length_map. Qed.

(** The reader after [n] more items have been copied. *)
Definition skip (s : S) (n : nat) : S := src_set_idx s (src_idx s + n)%nat.

Lemma skip_block s n : src_block (skip s n) = src_block s.
Proof. apply src_block_set. Qed.
Lemma skip_idx s n : src_idx (skip s n) = (src_idx s + n)%nat.
Proof. apply src_idx_set. Qed.

(** What the inner loop has done when it stops: it copied a prefix [q1] of the
    rest of the block, up to the first item above [next] when it compares. *)
Record copied (compare : bool) (next : list Z) (q q1 q2 : list (list Z)) (exceeded : bool) : Prop := {
  cp_split : q = q1 ++ q2;
  cp_below : compare = true -> Forall (fun x => lex_leb x next) q1;
  cp_rest : if exceeded then compare = true /\ exists y q3, q2 = y :: q3 /\ lex_ltb next y = true else q2 = [];
}.

Lemma total_add_item pend x :
  item_ok good x -> Z.of_nat (total pend) <= MAX_INMEMORY_BLOCK_SIZE ->
  (Z.of_nat (total pend) + Z.of_nat (length x) <= MAX_INMEMORY_BLOCK_SIZE /\ ib_add (pack [] pend) x = (pack [] (pend ++ [x]), true)) \/
  (pend <> [] /\ ib_add (pack [] pend) x = (pack [] pend, false)).
Proof.
  intros Hx Hp. destruct (Z.le_gt_cases (Z.of_nat (total pend) + Z.of_nat (length x)) MAX_INMEMORY_BLOCK_SIZE) as [Hle|Hgt].
  - left. split; [done|]. by apply add_pack.
  - right. split; [|apply add_full; lia]. intros ->. pose proof (io_len _ _ Hx). cbn in Hgt. lia.
Qed.

Lemma state_ok_add st chunks pend x :
  state_ok good f st chunks pend (accepts := accepts) -> item_ok good x -> sorted_items ((concat chunks ++ pend) ++ [x]) ->
  Z.of_nat (total pend) + Z.of_nat (length x) <= MAX_INMEMORY_BLOCK_SIZE ->
  state_ok good f (mkMergeState (pack [] (pend ++ [x])) (ms_ph_first_item_caught st) (ms_sink st) (ms_ph st) (ms_items_merged st))
    chunks (pend ++ [x]) (accepts := accepts).
Proof.
  intros H Hx Hs Ht. split; cbn [ms_ib ms_sink ms_ph ms_items_merged ms_ph_first_item_caught]; try apply H.
  - done.
  - rewrite app_assoc. apply Forall_app. split; [apply H|by constructor].
  - rewrite total_snoc. lia.
  - by rewrite app_assoc.
Qed.

Lemma sorted_prefix (l1 l2 : list (list Z)) : sorted_items (l1 ++ l2) -> sorted_items l1.
Proof. intros Hs. by apply StronglySorted_app in Hs as (_ & ? & _). Qed.

Lemma skip_skip s n m : skip (skip s n) m = skip s (n + m)%nat.
Proof. unfold skip. rewrite src_idx_set, src_set_set, Nat.add_assoc. done. Qed.

Lemma copied_cons compare next x q q1 q2 e :
  (compare = true -> lex_leb x next) -> copied compare next q q1 q2 e -> copied compare next (x :: q) (x :: q1) q2 e.
Proof. intros Hx [-> Hb Hr]. split; [done| |done]. intros Hc. constructor; auto. Qed.

(** [2 * length q + 1] rounds are enough: an item takes one, or two when the
    block is full. *)
Lemma copy_loop_ok compare next q : forall fuel st s chunks pend,
  state_ok good f st chunks pend (accepts := accepts) -> wf_ib (src_block s) -> block_rest s = q ->
  (src_idx s <= length (block_items (src_block s)))%nat ->
  Forall (item_ok good) q -> sorted_items ((concat chunks ++ pend) ++ q) ->
  Z.of_nat (length ((concat chunks ++ pend) ++ q)) < 2 ^ 46 -> (2 * length q + 1 <= fuel)%nat ->
  exists st' chunks' pend' q1 q2 exceeded,
    copy_loop fuel prepare_block compare next st s = Ok (st', skip s (length q1), exceeded) /\
    state_ok good f st' chunks' pend' (accepts := accepts) /\
    concat chunks' ++ pend' = (concat chunks ++ pend) ++ q1 /\
    copied compare next q q1 q2 exceeded.
Proof.
  induction q as [|x q IH]; intros fuel st s chunks pend H Hw Hq Hidx Hok Hs Hcnt Hf; (destruct fuel as [|fuel]; [lia|]); cbn [copy_loop];
    rewrite <-length_block_items; unfold block_rest in Hq.
  - assert (Hge : (length (block_items (src_block s)) <= src_idx s)%nat)
      by (apply (f_equal length) in Hq; rewrite length_drop in Hq; cbn in Hq; lia).
    rewrite (proj2 (Nat.leb_le _ _)) by done. exists st, chunks, pend, [], [], false. split_and!; [|done|by rewrite app_nil_r|by split].
    unfold skip. cbn [length]. by rewrite Nat.add_0_r, src_set_same.
  - assert (Hx : block_items (src_block s) !! src_idx s = Some x).
    { pose proof (f_equal (fun l => l !! 0%nat) Hq) as Hl. cbn in Hl. by rewrite lookup_drop, Nat.add_0_r in Hl. }
    pose proof (lookup_lt_Some _ _ _ Hx) as Hlt. rewrite (proj2 (Nat.leb_gt _ _)) by done.
    unfold src_curr_item. rewrite (item_at_ok s _ x Hw Hx), bind_Ok. inversion Hok as [|?? Hxo Hqo]; subst.
    destruct (compare && lex_ltb next x) eqn:Hcmp.
    { apply andb_prop in Hcmp as [Hc Hlt']. exists st, chunks, pend, [], (x :: q), true. split_and!; [|done|by rewrite app_nil_r|].
      - unfold skip. cbn [length]. by rewrite Nat.add_0_r, src_set_same.
      - split; [done|by constructor|]. split; [done|]. by exists x, q. }
    assert (Hnx : compare = true -> lex_leb x next).
    { intros ->. cbn in Hcmp. rewrite lex_ltb_leb in Hcmp. apply negb_false_iff in Hcmp. by rewrite Hcmp. }
    assert (Hrest : block_rest (skip s 1) = q).
    { unfold block_rest. rewrite skip_block, skip_idx. rewrite Nat.add_1_r. rewrite drop_S with (x := x) in Hq by done. by injection Hq. }
    change (x :: q) with ([x] ++ q) in Hs, Hcnt. rewrite app_assoc in Hs, Hcnt.
    (* one item copied from a state in which it fits *)
    assert (Hadd : forall fuel st chunks pend, (2 * length q + 1 <= fuel)%nat -> state_ok good f st chunks pend (accepts := accepts) ->
      Z.of_nat (total pend) + Z.of_nat (length x) <= MAX_INMEMORY_BLOCK_SIZE ->
      sorted_items (((concat chunks ++ pend) ++ [x]) ++ q) -> Z.of_nat (length (((concat chunks ++ pend) ++ [x]) ++ q)) < 2 ^ 46 ->
      exists st' chunks' pend' q1 q2 exceeded,
        copy_loop fuel prepare_block compare next
          (mkMergeState (pack [] (pend ++ [x])) (ms_ph_first_item_caught st) (ms_sink st) (ms_ph st) (ms_items_merged st))
          (src_set_idx s (Datatypes.S (src_idx s))) = Ok (st', skip s (length q1), exceeded) /\
        state_ok good f st' chunks' pend' (accepts := accepts) /\ concat chunks' ++ pend' = (concat chunks ++ pend) ++ q1 /\
        copied compare next (x :: q) q1 q2 exceeded).
    { intros fuel' st1 chunks1 pend1 Hf1 H1 Ht1 Hs1 Hc1.
      replace (src_set_idx s (Datatypes.S (src_idx s))) with (skip s 1) by (unfold skip; by rewrite Nat.add_1_r).
      destruct (IH fuel' _ (skip s 1) chunks1 (pend1 ++ [x]) (state_ok_add st1 chunks1 pend1 x H1 Hxo (sorted_prefix _ _ Hs1) Ht1))
        as (st' & chunks' & pend' & q1 & q2 & e & Hrun & Hst' & Hcat & Hcp); rewrite ?skip_block, ?skip_idx; try done; try lia.
      - by rewrite app_assoc.
      - by rewrite app_assoc.
      - exists st', chunks', pend', (x :: q1), q2, e. rewrite Hrun, skip_skip. split_and!; [done|done| |by apply copied_cons].
        rewrite Hcat, app_assoc, <-app_assoc. done. }
    rewrite (so_ib _ _ _ _ _ H). cbn [length] in Hf.
    destruct (total_add_item pend x Hxo (so_size _ _ _ _ _ H)) as [[Ht ->]|[Hpne ->]].
    + apply Hadd; (done || lia).
    + rewrite !length_app in Hcnt. destruct (flush_ok good prepare_block f Hprep st chunks pend H Hpne) as (st1 & -> & H1);
        [rewrite length_app; lia|]. rewrite bind_Ok. destruct fuel as [|fuel]; [lia|]. cbn [copy_loop].
      rewrite <-length_block_items, (proj2 (Nat.leb_gt _ _)) by done. unfold src_curr_item. rewrite (item_at_ok s _ x Hw Hx), bind_Ok, Hcmp.
      rewrite (so_ib _ _ _ _ _ H1). assert (Hcat : concat (chunks ++ [pend]) = concat chunks ++ pend) by (rewrite concat_app; cbn; by rewrite app_nil_r).
      destruct (total_add_item [] x Hxo ltac:(by vm_compute)) as [[Ht ->]|[? _]]; [|done].
      destruct (Hadd fuel st1 (chunks ++ [pend]) []) as (st' & chunks' & pend' & q1 & q2 & e & Hr & Hst' & Hc' & Hcp);
        rewrite ?Hcat, ?app_nil_r; try done; try lia; [rewrite !length_app; lia|].
      rewrite Hcat, app_nil_r in Hc'. by exists st', chunks', pend', q1, q2, e.
Qed.
End Copy.

(** ** The heap of readers *)

Section Merging.
  Context {S X : Type} `{Src : ItemSource S X} {SrcL : ItemSourceLaws Src}.

Definition cur (bsrs : list S) (i : nat) : list Z :=
  match curr_item_of bsrs i with Ok x => x | _ => [] end.

Definition cur_less (bsrs : list S) (a b : nat) : bool := lex_ltb (cur bsrs a) (cur bsrs b).

Lemma cur_less_total bsrs a b : cur_less bsrs a b = true -> cur_less bsrs b a = false.
Proof.
  unfold cur_less. rewrite !lex_ltb_leb, negb_true_iff, negb_false_iff. intros H.
  destruct (lex_leb_total (cur bsrs a) (cur bsrs b)) as [H1|H1]; [by apply Is_true_true|by rewrite H in H1].
Qed.

Lemma cur_less_leb bsrs a b : cur_less bsrs b a = false <-> lex_leb (cur bsrs a) (cur bsrs b).
Proof. unfold cur_less. rewrite lex_ltb_leb, negb_false_iff. by rewrite Is_true_true. Qed.

Lemma cur_less_trans bsrs a b c :
  cur_less bsrs b a = false -> cur_less bsrs c b = false -> cur_less bsrs c a = false.
Proof. rewrite !cur_less_leb. apply lex_leb_trans. Qed.

(** The items a reader still has to give: the rest of its block and the blocks
    that follow. *)
Definition queue (bsrs : list S) (fut : nat -> list (list (list Z))) (i : nat) : list (list Z) :=
  match bsrs !! i with Some s => block_rest s ++ concat (fut i) | None => [] end.

Definition remaining (heap : list nat) (bsrs : list S) (fut : nat -> list (list (list Z))) : list (list Z) :=
  concat (map (queue bsrs fut) heap).

Record merging (heap : list nat) (bsrs : list S) (fut : nat -> list (list (list Z))) : Prop := {
  mg_nodup : NoDup heap;
  mg_readers : forall i, In i heap -> exists s, bsrs !! i = Some s /\ reader_ok s (fut i);
  mg_sorted : forall i, In i heap -> sorted_items (queue bsrs fut i);
  mg_heap : heap_except (cur_less bsrs) 0 None heap;
}.

Lemma reader_head s xss x q :
  reader_ok s xss -> block_rest s = x :: q -> src_curr_item s = Ok x.
Proof.
  intros H Hq. apply item_at_ok; [apply H|]. pose proof (f_equal (fun l => l !! 0%nat) Hq) as Hl. cbn in Hl.
  unfold block_rest in Hl. by rewrite lookup_drop, Nat.add_0_r in Hl.
Qed.

Lemma reader_rest s xss : reader_ok s xss -> exists x q, block_rest s = x :: q.
Proof.
  intros H. pose proof (ro_idx _ _ H). unfold block_rest. destruct (drop (src_idx s) (block_items (src_block s))) as [|x q] eqn:Hd.
  - apply (f_equal length) in Hd. rewrite length_drop in Hd. cbn in Hd. lia.
  - by exists x, q.
Qed.

(** The current item of a reader in the heap is the head of its queue. *)
Lemma queue_head heap bsrs fut i :
  merging heap bsrs fut -> In i heap ->
  exists q, queue bsrs fut i = cur bsrs i :: q /\ curr_item_of bsrs i = Ok (cur bsrs i).
Proof.
  intros H Hi. destruct (mg_readers _ _ _ H i Hi) as (s & Hs & Hr). destruct (reader_rest s _ Hr) as (x & q & Hq).
  pose proof (reader_head _ _ _ _ Hr Hq) as Hc. assert (Hcur : curr_item_of bsrs i = Ok x) by (unfold curr_item_of, idx; by rewrite Hs, bind_Ok).
  unfold queue, cur. rewrite Hs, Hcur, Hq. by exists (q ++ concat (fut i)).
Qed.

Lemma item_less_cur heap bsrs fut :
  (forall i, In i heap -> exists s, bsrs !! i = Some s /\ reader_ok s (fut i)) ->
  forall a b, In a heap -> In b heap -> item_less bsrs a b = cur_less bsrs a b.
Proof.
  intros H a b Ha Hb. unfold item_less, cur_less, cur.
  assert (Hok : forall i, In i heap -> exists x, curr_item_of bsrs i = Ok x).
  { intros i Hi. destruct (H i Hi) as (s & Hs & Hr). destruct (reader_rest s _ Hr) as (x & q & Hq). exists x.
    unfold curr_item_of, idx. rewrite Hs, bind_Ok. by eapply reader_head. }
  destruct (Hok a Ha) as [x ->], (Hok b Hb) as [y ->]. done.
Qed.

(** The head of every queue is at least the root's. *)
Lemma root_least heap bsrs fut top :
  merging heap bsrs fut -> heap !! 0%nat = Some top -> forall i, In i heap -> lex_leb (cur bsrs top) (cur bsrs i).
Proof.
  intros H Ht i Hi. apply cur_less_leb.
  exact (heap_root_min _ (cur_less_total bsrs) (cur_less_trans bsrs) heap top (mg_heap _ _ _ H) Ht i Hi).
Qed.

Lemma queue_from heap bsrs fut i y :
  merging heap bsrs fut -> In i heap -> In y (queue bsrs fut i) -> lex_leb (cur bsrs i) y.
Proof.
  intros H Hi Hy. destruct (queue_head heap bsrs fut i H Hi) as (q & Hq & _). pose proof (mg_sorted _ _ _ H i Hi) as Hs.
  rewrite Hq in Hs, Hy. destruct Hy as [<-|Hy]; [by rewrite lex_leb_refl|]. apply StronglySorted_cons in Hs as [Hs _].
  rewrite Forall_In in Hs. by apply Hs.
Qed.

(** [next_reader] finds a lower bound of the queues of the other readers. *)
Lemma next_reader_ok heap bsrs fut top t :
  merging heap bsrs fut -> heap = top :: t ->
  exists next, next_reader bsrs heap = Ok next /\
    match next with
    | None => t = []
    | Some n => In n t /\ forall i y, In i t -> In y (queue bsrs fut i) -> lex_leb (cur bsrs n) y
    end.
Proof.
  intros H Heq. assert (Hmin : forall i, In i t -> exists c n, (c = 1%nat \/ c = 2%nat) /\ heap !! c = Some n /\ lex_leb (cur bsrs n) (cur bsrs i)).
  { intros i Hi. apply list_elem_of_In, list_elem_of_lookup in Hi as [j Hj].
    destruct (heap_children_min _ (cur_less_total bsrs) (cur_less_trans bsrs) heap (mg_heap _ _ _ H) (Datatypes.S j) i) as (c & y & Hc & Hy & Hle);
      [lia|by rewrite Heq|]. exists c, y. split_and!; [done|done|by apply cur_less_leb]. }
  assert (Hfrom : forall i y, In i t -> In y (queue bsrs fut i) -> lex_leb (cur bsrs i) y).
  { intros i y Hi. apply (queue_from heap); [done|]. rewrite Heq. by right. }
  unfold next_reader. destruct t as [|a [|b t]]; rewrite Heq; cbn [length Nat.ltb Nat.leb].
  - by exists None.
  - exists (Some a). split; [done|]. split; [by left|]. intros i y Hi Hy. destruct Hi as [<-|[]]. apply Hfrom; [by left|done].
  - cbn [idx lookup list_lookup]. rewrite !bind_Ok.
    destruct (queue_head heap bsrs fut a H) as (_ & _ & ->); [rewrite Heq; right; by left|].
    destruct (queue_head heap bsrs fut b H) as (_ & _ & ->); [rewrite Heq; right; right; by left|]. rewrite !bind_Ok.
    eexists. split; [done|]. destruct (lex_leb (cur bsrs a) (cur bsrs b)) eqn:Hab.
    + split; [by left|]. intros i y Hi Hy. destruct (Hmin i Hi) as (c & n & Hc & Hn & Hle). rewrite Heq in Hn.
      eapply lex_leb_trans; [|by apply (Hfrom i)]. destruct Hc as [->| ->]; cbn in Hn; injection Hn as <-; [done|].
      eapply lex_leb_trans; [|exact Hle]. by rewrite Hab.
    + split; [right; by left|]. intros i y Hi Hy. destruct (Hmin i Hi) as (c & n & Hc & Hn & Hle). rewrite Heq in Hn.
      eapply lex_leb_trans; [|by apply (Hfrom i)]. destruct Hc as [->| ->]; cbn in Hn; injection Hn as <-; [|done].
      destruct (lex_leb_total (cur bsrs a) (cur bsrs b)) as [H0|H0]; [by rewrite Hab in H0|]. by eapply lex_leb_trans.
Qed.

(** The reader at [top] replaced by [s'], which is followed by [xss']. *)
Definition set_future (fut : nat -> list (list (list Z))) (top : nat) (xss' : list (list (list Z))) (i : nat) : list (list (list Z)) :=
  if decide (i = top) then xss' else fut i.

Lemma queue_other bsrs fut top s' xss' i :
  i <> top -> queue (<[top := s']> bsrs) (set_future fut top xss') i = queue bsrs fut i.
Proof. intros Hne. unfold queue, set_future. rewrite list_lookup_insert_ne by done. by rewrite decide_False. Qed.

Lemma cur_other bsrs top s' i : i <> top -> cur (<[top := s']> bsrs) i = cur bsrs i.
Proof. intros Hne. unfold cur, curr_item_of, idx. by rewrite list_lookup_insert_ne. Qed.

Lemma remaining_items_perm h h' bsrs fut : Permutation h h' -> Permutation (remaining h bsrs fut) (remaining h' bsrs fut).
Proof. intros H. unfold remaining. by rewrite H. Qed.

Lemma remaining_other t bsrs fut top s' xss' :
  ~ In top t -> remaining t (<[top := s']> bsrs) (set_future fut top xss') = remaining t bsrs fut.
Proof.
  intros Hni. unfold remaining. f_equal. apply map_ext_in. intros i Hi. apply queue_other. by intros ->.
Qed.

(** The heap order below the root, after the root's reader has changed. *)
Lemma heap_changed top t bsrs fut s' h' :
  merging (top :: t) bsrs fut -> (forall p, (0 < p)%nat -> h' !! p = (top :: t) !! p \/ h' !! p = None) ->
  heap_except (cur_less (<[top := s']> bsrs)) 0 (Some 0%nat) h'.
Proof.
  intros H Hl. apply (heap_below_root (cur_less bsrs) _ (top :: t)); [apply H|done|].
  pose proof (mg_nodup _ _ _ H) as Hnd. apply NoDup_cons in Hnd as [Hni _].
  assert (Hne : forall q x, (0 < q)%nat -> (top :: t) !! q = Some x -> x <> top).
  { intros [|q] x Hq Hx ->; [lia|]. cbn in Hx. apply list_elem_of_lookup_2 in Hx. done. }
  intros p c a b Hp Hc Ha Hb. unfold cur_less. by rewrite !cur_other by (eapply Hne; [|done]; lia).
Qed.

Lemma sift_merging h bsrs fut :
  NoDup h -> (forall i, In i h -> exists s, bsrs !! i = Some s /\ reader_ok s (fut i)) ->
  (forall i, In i h -> sorted_items (queue bsrs fut i)) -> heap_except (cur_less bsrs) 0 (Some 0%nat) h ->
  merging (sift_down (item_less bsrs) (length h) h 0) bsrs fut /\ Permutation (sift_down (item_less bsrs) (length h) h 0) h.
Proof.
  intros Hnd Hr Hs Hh. assert (Hp : Permutation (sift_down (item_less bsrs) (length h) h 0) h) by apply sift_down_perm.
  split; [|done]. split.
  - by rewrite Hp.
  - intros i Hi. apply Hr. by apply (Permutation_in _ Hp).
  - intros i Hi. apply Hs. by apply (Permutation_in _ Hp).
  - rewrite (sift_down_ext _ (cur_less bsrs)) by (by eapply item_less_cur).
    apply sift_down_heap; [apply cur_less_total|apply cur_less_trans|lia|lia|done|]. intros p c a b Hp0. unfold child in Hp0. lia.
Qed.

Lemma replace_top top t bsrs fut s' xss' :
  merging (top :: t) bsrs fut -> reader_ok s' xss' -> sorted_items (block_rest s' ++ concat xss') ->
  let bsrs' := <[top := s']> bsrs in let fut' := set_future fut top xss' in
  let heap' := sift_down (item_less bsrs') (length (top :: t)) (top :: t) 0 in
  merging heap' bsrs' fut' /\ Permutation (remaining heap' bsrs' fut') ((block_rest s' ++ concat xss') ++ remaining t bsrs fut).
Proof.
  intros H Hr Hs bsrs' fut' heap'. pose proof (mg_nodup _ _ _ H) as Hnd. pose proof Hnd as Hnd'. apply NoDup_cons in Hnd' as [Hni _].
  destruct (mg_readers _ _ _ H top) as (s & Hlk & _); [by left|]. pose proof (lookup_lt_Some _ _ _ Hlk) as Hlt.
  assert (Htop : bsrs' !! top = Some s') by (by apply list_lookup_insert_eq).
  assert (Hq : queue bsrs' fut' top = block_rest s' ++ concat xss') by (unfold queue, fut', set_future; rewrite Htop; by rewrite decide_True).
  destruct (sift_merging (top :: t) bsrs' fut') as [Hm Hp].
  - done.
  - intros i [<-|Hi]; [exists s'; split; [done|]; unfold fut', set_future; by rewrite decide_True|].
    assert (i <> top) by (intros ->; by apply list_elem_of_In in Hi). unfold bsrs', fut', set_future. rewrite list_lookup_insert_ne, decide_False by done.
    apply (mg_readers _ _ _ H). by right.
  - intros i [<-|Hi]; [by rewrite Hq|]. assert (i <> top) by (intros ->; by apply list_elem_of_In in Hi).
    unfold bsrs', fut'. rewrite queue_other by done. apply (mg_sorted _ _ _ H). by right.
  - apply (heap_changed top t bsrs fut); [done|]. intros p _. by left.
  - split; [done|]. unfold heap'. rewrite (remaining_items_perm _ _ _ _ Hp). unfold remaining at 1. cbn [map concat]. rewrite Hq.
    change (concat (map (queue bsrs' fut') t)) with (remaining t bsrs' fut'). unfold bsrs', fut'. rewrite remaining_other; [done|].
    intros Hi. by apply list_elem_of_In in Hi.
Qed.

Lemma pop_top top t bsrs fut s' :
  merging (top :: t) bsrs fut ->
  let bsrs' := <[top := s']> bsrs in let heap' := heap_pop_top (item_less bsrs') (top :: t) in
  merging heap' bsrs' fut /\ Permutation (remaining heap' bsrs' fut) (remaining t bsrs fut).
Proof.
  intros H bsrs' heap'. pose proof (mg_nodup _ _ _ H) as Hnd. apply NoDup_cons in Hnd as [Hni Hnd].
  destruct (pop_root top t) as [Hpop Hpos]. set (h := take _ _) in Hpop, Hpos.
  change heap' with (sift_down (item_less bsrs') (length h) h 0).
  assert (Hsub : forall i, In i h -> In i t /\ i <> top).
  { intros i Hi. apply (Permutation_in _ Hpop) in Hi. split; [done|]. intros ->. by apply list_elem_of_In in Hi. }
  assert (Hqo : forall i, i <> top -> queue bsrs' fut i = queue bsrs fut i).
  { intros i Hne. unfold queue, bsrs'. by rewrite list_lookup_insert_ne. }
  destruct (sift_merging h bsrs' fut) as [Hm Hp].
  - by rewrite Hpop.
  - intros i Hi. destruct (Hsub i Hi) as [Hi' Hne]. unfold bsrs'. rewrite list_lookup_insert_ne by done. apply (mg_readers _ _ _ H). by right.
  - intros i Hi. destruct (Hsub i Hi) as [Hi' Hne]. rewrite Hqo by done. apply (mg_sorted _ _ _ H). by right.
  - by apply (heap_changed top t bsrs fut).
  - split; [done|]. rewrite (remaining_items_perm _ _ _ _ Hp), (remaining_items_perm _ _ _ _ Hpop). unfold remaining.
    erewrite map_ext_in; [done|]. intros i Hi. apply Hqo. intros ->. by apply list_elem_of_In in Hi.
Qed.
End Merging.

(** ** The outer loop *)

Section Loop.
  Context {S X W : Type} `{Src : ItemSource S X} `{Snk : ItemSink W} {accepts : W -> list (list (list Z)) -> Prop}.
  Context {SrcL : ItemSourceLaws Src} {SnkL : ItemSinkLaws Snk accepts}.
  Context (good : list Z -> Prop) (prepare_block : option PrepareBlockCallback) (f : list (list Z) -> list (list Z)).
  Context (Hprep : prepares good prepare_block f).

Abbreviation state_ok' st chunks pend := (state_ok good f st chunks pend (accepts := accepts)).

(** Every item already taken is at most every item that remains. *)
Definition all_below (l1 l2 : list (list Z)) : Prop := forall x y, In x l1 -> In y l2 -> lex_leb x y.


Lemma last_rest (s : S) xss :
  reader_ok s xss -> exists z, last (block_rest s) = Some z /\ block_items (src_block s) !! (length (ib_items (src_block s)) - 1)%nat = Some z.
Proof.
  intros H. pose proof (ro_idx _ _ H) as Hlt. rewrite <-length_block_items.
  destruct (lookup_lt_is_Some_2 (block_items (src_block s)) (length (block_items (src_block s)) - 1)) as [z Hz]; [lia|].
  exists z. split; [|done]. unfold block_rest. rewrite last_lookup, length_drop, lookup_drop. rewrite <-Hz. f_equal. lia.
Qed.

Lemma copied_nonempty compare next q q1 q2 e x :
  copied compare next q q1 q2 e -> head q = Some x -> (compare = true -> lex_leb x next) -> q1 <> [].
Proof.
  intros [Hq Hb Hr] Hh Hle ->. cbn in Hq. subst q2. destruct e; [|by subst q].
  destruct Hr as (Hc & y & q3 & -> & Hlt). cbn in Hh. injection Hh as ->. specialize (Hle Hc).
  rewrite lex_ltb_leb in Hlt. apply negb_true_iff in Hlt. by rewrite Hlt in Hle.
Qed.

(** Everything copied is at most [next], whether items were compared or not. *)
Lemma copied_below has_next next q q1 q2 e z :
  copied (has_next && lex_ltb next z) next q q1 q2 e -> sorted_items q -> last q = Some z ->
  has_next = true -> Forall (fun x => lex_leb x next) q1.
Proof.
  intros H Hs Hl ->. cbn [andb] in H. destruct (lex_ltb next z) eqn:Hlt; [by apply (cp_below _ _ _ _ _ _ H)|].
  rewrite lex_ltb_leb, negb_false_iff in Hlt. apply Forall_In. intros x Hx.
  destruct q as [|x0 q]; [done|]. destruct (sorted_items_between x0 q z Hs Hl x) as [_ Hxz].
  { rewrite (cp_split _ _ _ _ _ _ H). apply in_or_app. by left. }
  eapply lex_leb_trans; [exact Hxz|]. by rewrite Hlt.
Qed.

Lemma merge_round_ok fuel st chunks pend heap top t bsrs fut :
  heap = top :: t -> merging heap bsrs fut -> state_ok' st chunks pend ->
  all_below (concat chunks ++ pend) (remaining heap bsrs fut) -> Forall (item_ok good) (remaining heap bsrs fut) ->
  Z.of_nat (length ((concat chunks ++ pend) ++ remaining heap bsrs fut)) < 2 ^ 46 ->
  (2 * length (remaining heap bsrs fut) + 1 <= fuel)%nat ->
  exists st' bsrs' heap' fut' chunks' pend' q1,
    merge_round fuel prepare_block st bsrs heap top = Ok (st', bsrs', heap', None) /\
    merging heap' bsrs' fut' /\ state_ok' st' chunks' pend' /\
    concat chunks' ++ pend' = (concat chunks ++ pend) ++ q1 /\ q1 <> [] /\
    Permutation (remaining heap bsrs fut) (q1 ++ remaining heap' bsrs' fut') /\ all_below q1 (remaining heap' bsrs' fut').
Proof.
  intros -> H Hst Hbelow Hok Hcnt Hfuel. destruct (next_reader_ok _ bsrs fut top t H eq_refl) as (next & Hnr & Hnext).
  destruct (mg_readers _ _ _ H top) as (s & Hlk & Hr); [by left|]. pose proof (lookup_lt_Some _ _ _ Hlk) as Hltb.
  destruct (reader_rest s _ Hr) as (x & q & Hq). destruct (last_rest s _ Hr) as (z & Hz & Hzi).
  assert (Hqt : queue bsrs fut top = block_rest s ++ concat (fut top)) by (unfold queue; by rewrite Hlk).
  assert (Hrem : remaining (top :: t) bsrs fut = (block_rest s ++ concat (fut top)) ++ remaining t bsrs fut)
    by (unfold remaining; cbn [map concat]; by rewrite Hqt).
  pose proof (mg_sorted _ _ _ H top ltac:(by left)) as Hsq. rewrite Hqt in Hsq. rewrite Hrem in *.
  assert (Hcur : cur bsrs top = x) by (unfold cur, curr_item_of, idx; rewrite Hlk, bind_Ok; by rewrite (reader_head _ _ _ _ Hr Hq)).
  set (ni := match next with Some n => cur bsrs n | None => [] end). set (hn := match next with Some _ => true | None => false end).
  assert (Hni : match next with Some i => curr_item_of bsrs i | None => Ok [] end = Ok ni).
  { destruct next as [n|]; [|done]. destruct Hnext as [Hin _].
    by destruct (queue_head (top :: t) bsrs fut n H ltac:(by right)) as (_ & _ & ->). }
  assert (Hci : compare_items s hn ni = Ok (hn && lex_ltb ni z)).
  { unfold compare_items. rewrite <-length_block_items, (proj2 (Nat.ltb_lt _ _)) by apply Hr. rewrite length_block_items.
    by rewrite (item_at_ok s _ z (ro_wf _ _ Hr) Hzi), bind_Ok. }
  assert (Hxn : hn && lex_ltb ni z = true -> lex_leb x ni).
  { unfold hn, ni. destruct next as [n|]; [|done]. intros _. destruct Hnext as [Hin _]. rewrite <-Hcur.
    by apply (root_least (top :: t) bsrs fut top H eq_refl); right. }
  unfold merge_round. rewrite Hnr, bind_Ok, Hni, bind_Ok. fold hn. unfold idx at 1. rewrite Hlk, bind_Ok, Hci, bind_Ok.
  repeat rewrite length_app in Hcnt. repeat rewrite length_app in Hfuel. apply Forall_app in Hok as [Hok Hokt]. apply Forall_app in Hok as [Hokq Hokf].
  assert (Hsd : sorted_items ((concat chunks ++ pend) ++ block_rest s)).
  { apply StronglySorted_app. split_and!; [|apply Hst|by apply sorted_prefix in Hsq]. intros u v Hu%list_elem_of_In Hv%list_elem_of_In.
    apply Hbelow; [done|]. apply in_or_app. left. apply in_or_app. by left. }
  destruct (copy_loop_ok good prepare_block f Hprep (hn && lex_ltb ni z) ni (block_rest s) fuel st s chunks pend Hst (ro_wf _ _ Hr) eq_refl)
    as (st' & chunks' & pend' & q1 & q2 & e & Hrun & Hst' & Hcat & Hcp);
    [pose proof (ro_idx _ _ Hr); lia|done|done|rewrite !length_app; lia|lia|]. rewrite Hrun, bind_Ok.
  assert (Hne : q1 <> []) by (eapply copied_nonempty; [exact Hcp|by rewrite Hq|done]).
  pose proof (cp_split _ _ _ _ _ _ Hcp) as Hsplit.
  assert (Hothers : all_below q1 (remaining t bsrs fut)).
  { intros u v Hu Hv. unfold remaining in Hv. apply in_concat in Hv as (l & Hl & Hv). apply in_map_iff in Hl as (i & <- & Hi).
    destruct next as [n|] eqn:Hnx; [|by rewrite Hnext in Hi]. destruct Hnext as [_ Hmin].
    pose proof (copied_below hn ni (block_rest s) q1 q2 e z Hcp (sorted_prefix _ _ Hsq) Hz eq_refl) as Hb. rewrite Forall_In in Hb.
    eapply lex_leb_trans; [by apply Hb|by apply (Hmin i)]. }
  assert (Hown : all_below q1 (q2 ++ concat (fut top))).
  { rewrite Hsplit, <-app_assoc in Hsq. apply StronglySorted_app in Hsq as (Hrel & _). intros u v Hu Hv.
    apply Hrel; by apply list_elem_of_In. }
  assert (Hfinish : forall rest', Permutation rest' ((q2 ++ concat (fut top)) ++ remaining t bsrs fut) ->
    Permutation ((block_rest s ++ concat (fut top)) ++ remaining t bsrs fut) (q1 ++ rest') /\ all_below q1 rest').
  { intros rest' Hp. split.
    - rewrite Hp, Hsplit, <-!app_assoc. done.
    - intros u v Hu Hv. apply (Permutation_in _ Hp), in_app_or in Hv as [Hv|Hv]; [by apply Hown|by apply Hothers]. }
  assert (Hskip : forall i, src_set_idx (skip s (length q1)) i = src_set_idx s i) by (intros; apply src_set_set).
  destruct e; cbn [negb].
  - destruct (cp_rest _ _ _ _ _ _ Hcp) as (_ & y & q3 & Hq2 & _).
    unfold set_idx. rewrite decide_True by done. rewrite bind_Ok. set (s' := skip s (length q1)).
    assert (Hrest : block_rest s' = q2).
    { unfold block_rest, s'. rewrite skip_block, skip_idx, <-drop_drop. change (drop (src_idx s) (block_items (src_block s))) with (block_rest s).
      by rewrite Hsplit, drop_app_length. }
    assert (Hr' : reader_ok s' (fut top)).
    { split; [unfold s'; rewrite skip_block; apply Hr| |intros i; unfold s'; rewrite Hskip; apply Hr].
      apply (f_equal length) in Hrest. rewrite Hq2 in Hrest. unfold block_rest in Hrest. rewrite length_drop in Hrest. cbn in Hrest. lia. }
    destruct (replace_top top t bsrs fut s' (fut top) H Hr') as [Hm Hp].
    { rewrite Hrest. rewrite Hsplit, <-app_assoc in Hsq. by apply StronglySorted_app in Hsq as (_ & _ & ?). }
    rewrite Hrest in Hp. destruct (Hfinish _ Hp). by eexists st', _, _, _, chunks', pend', q1.
  - pose proof (cp_rest _ _ _ _ _ _ Hcp) as Hq2. cbn in Hq2. subst q2. rewrite app_nil_r in Hsplit.
    pose proof (ro_future _ _ Hr (src_idx s + length q1)%nat) as Hy. change (src_set_idx s (src_idx s + length q1)) with (skip s (length q1)) in Hy.
    inversion Hy as [? s' Hnx Herr Heq1 Heq2|? s' xs xss Hnx Herr Hwf Hbi Hxne Hi0 Hyf Heq1 Heq2]; rewrite Hnx, bind_Ok;
      unfold set_idx; rewrite decide_True, bind_Ok by done.
    + rewrite Herr. destruct (pop_top top t bsrs fut s' H) as [Hm Hp]. rewrite <-Heq2 in Hfinish. destruct (Hfinish _ Hp).
      by eexists st', _, _, fut, chunks', pend', q1.
    + assert (Hr' : reader_ok s' xss) by (split; [done|rewrite Hi0; destruct (block_items (src_block s')); [done|cbn; lia]|done]).
      assert (Hrest : block_rest s' = block_items (src_block s')) by (unfold block_rest; rewrite Hi0; apply drop_0). rewrite <-Hbi in Hxne.
      destruct (replace_top top t bsrs fut s' xss H Hr') as [Hm Hp].
      { rewrite Hrest, Hbi. rewrite <-Heq2 in Hsq. cbn [concat] in Hsq. by apply StronglySorted_app in Hsq as (_ & _ & ?). }
      rewrite Hrest, Hbi in Hp. rewrite <-Heq2 in Hfinish. destruct (Hfinish _ Hp). by eexists st', _, _, _, chunks', pend', q1.
Qed.

Lemma all_below_perm l l1 l2 : Permutation l1 l2 -> all_below l l1 -> all_below l l2.
Proof. intros Hp H x y Hx Hy. apply H; [done|]. by apply (Permutation_in _ (Permutation_sym Hp)). Qed.

(** The last block is flushed when the heap is empty. *)
Lemma flush_last st chunks pend :
  state_ok' st chunks pend -> Z.of_nat (length (concat chunks ++ pend)) < 2 ^ 46 ->
  exists st' chunks', flush_ib prepare_block st = Ok st' /\ state_ok' st' chunks' [] /\ concat chunks' = concat chunks ++ pend.
Proof.
  intros H Hb. destruct (decide (pend = [])) as [->|Hne].
  - exists st, chunks. unfold flush_ib. rewrite (so_ib _ _ _ _ _ H), app_nil_r. done.
  - destruct (flush_ok good prepare_block f Hprep st chunks pend H Hne Hb) as (st' & Hf & H'). exists st', (chunks ++ [pend]).
    split_and!; [done|done|]. rewrite concat_app. cbn. by rewrite app_nil_r.
Qed.

(** Every round takes an item, so one round per item and a last one suffice.
    When the flag is raised the loop ends early, with whole blocks written. *)
Lemma merge_loop_any stop copy_fuel fuel : forall k st chunks pend heap (bsrs : list S) fut,
  merging heap bsrs fut -> state_ok' st chunks pend ->
  all_below (concat chunks ++ pend) (remaining heap bsrs fut) -> Forall (item_ok good) (remaining heap bsrs fut) ->
  Z.of_nat (length ((concat chunks ++ pend) ++ remaining heap bsrs fut)) < 2 ^ 46 ->
  (length (remaining heap bsrs fut) < fuel)%nat -> (2 * length (remaining heap bsrs fut) + 1 <= copy_fuel)%nat ->
  exists st' (bsrs' : list S) chunks' pend' (err : option (MergeError X)), merge_loop fuel copy_fuel k stop prepare_block st bsrs heap = Ok (st', bsrs', err) /\
    state_ok' st' chunks' pend' /\ ((forall k, stop k = false) -> err = None) /\
    (err = None /\ pend' = [] /\ Permutation (concat chunks') ((concat chunks ++ pend) ++ remaining heap bsrs fut) \/ err = Some ForciblyStopped).
Proof.
  induction fuel as [|fuel IH]; intros k st chunks pend heap bsrs fut H Hst Hb Hok Hcnt Hf Hcf; [lia|]. cbn [merge_loop].
  destruct heap as [|top t].
  { change (remaining [] bsrs fut) with (@nil (list Z)) in *. rewrite app_nil_r in Hcnt |- *.
    destruct (flush_last st chunks pend Hst Hcnt) as (st' & chunks' & -> & Hst' & Hc). rewrite bind_Ok. exists st', bsrs, chunks', [], None.
    rewrite Hc. split_and!; auto. }
  destruct (stop k) eqn:Hstop.
  { exists st, bsrs, chunks, pend, (Some ForciblyStopped). split_and!; [done|done| |by right]. intros Hn. by rewrite Hn in Hstop. }
  destruct (merge_round_ok copy_fuel st chunks pend (top :: t) top t bsrs fut eq_refl H Hst Hb Hok Hcnt Hcf)
    as (st' & bsrs' & heap' & fut' & chunks' & pend' & q1 & -> & H' & Hst' & Hcat & Hne & Hp & Hb'). rewrite bind_Ok.
  assert (Hlen : length (remaining (top :: t) bsrs fut) = (length q1 + length (remaining heap' bsrs' fut'))%nat)
    by (rewrite (Permutation_length Hp); apply length_app).
  assert (Hq1 : (1 <= length q1)%nat) by (destruct q1; [done|cbn; lia]).
  destruct (IH (Datatypes.S k) st' chunks' pend' heap' bsrs' fut' H' Hst') as (st2 & bsrs2 & chunks2 & pend2 & err & Hrun & Hst2 & Hns & Hp2).
  - rewrite Hcat. intros x y Hx Hy. apply in_app_or in Hx as [Hx|Hx]; [|by apply Hb'].
    apply Hb; [done|]. apply (Permutation_in _ (Permutation_sym Hp)). apply in_or_app. by right.
  - rewrite Hp in Hok. by apply Forall_app in Hok as [_ ?].
  - rewrite Hcat. repeat rewrite length_app in *. lia.
  - lia.
  - lia.
  - exists st2, bsrs2, chunks2, pend2, err. split_and!; [done|done|done|]. destruct Hp2 as [(-> & -> & Hp2)| ->]; [left|by right].
    split_and!; [done|done|]. rewrite Hp2, Hcat, Hp, <-!app_assoc. done.
Qed.
End Loop.

(** ** Initialisation *)

Section Init.
  Context {S X : Type} `{Src : ItemSource S X} {SrcL : ItemSourceLaws Src}.

Lemma init_readers_yield bsrs xsss i :
  Forall2 yields bsrs xsss ->
  exists bsrs' heap, init_loop i bsrs = Ok (bsrs', heap, None) /\ NoDup heap /\
    (forall j, In j heap -> (i <= j)%nat /\ exists s xs xss, bsrs' !! (j - i)%nat = Some s /\
       xsss !! (j - i)%nat = Some (xs :: xss) /\ reader_ok s xss /\ block_rest s = xs) /\
    concat (map (fun j => default [] (xsss !! (j - i)%nat)) heap) = concat xsss.
Proof.
  intros H. revert i. induction H as [|s xss bsrs xsss Hy _ IH]; intros i; cbn [init_loop].
  { exists [], []. split_and!; [done|constructor|done|done]. }
  destruct (IH (Datatypes.S i)) as (bsrs' & heap & Hi & Hnd & Hst & Hc).
  assert (Hshift : forall j, In j heap -> (j - i)%nat = Datatypes.S (j - Datatypes.S i)) by (intros j Hj; apply Hst in Hj as [? _]; lia).
  assert (Hmap : forall l, map (fun j => default [] ((l :: xsss) !! (j - i)%nat)) heap =
    map (fun j => default [] (xsss !! (j - Datatypes.S i)%nat)) heap).
  { intros l. apply map_ext_in. intros j Hj. by rewrite (Hshift j Hj). }
  inversion Hy as [s0 s' Hn He E1 E2|s0 s' xs xss' Hn He Hwf Hbi Hne H0 Hyf E1 E2]; subst s0; rewrite Hn, bind_Ok, He, Hi, bind_Ok; cbv beta iota.
  - exists (s' :: bsrs'), heap. split_and!; [done|done| |].
    + intros j Hj. rewrite (Hshift j Hj). apply Hst in Hj as [Hle Hj]. split; [lia|exact Hj].
    + by rewrite Hmap, Hc.
  - exists (s' :: bsrs'), (i :: heap). split_and!; [done| | |].
    + constructor; [|done]. rewrite list_elem_of_In. intros Hin. apply Hst in Hin as [? _]. lia.
    + intros j [<-|Hj].
      * rewrite Nat.sub_diag. split; [lia|]. exists s', xs, xss'. split_and!; [done|done| |unfold block_rest; by rewrite H0, drop_0].
        split; [done| |done]. rewrite H0, Hbi. destruct xs; [done|cbn; lia].
      * rewrite (Hshift j Hj). apply Hst in Hj as [Hle Hj]. split; [lia|exact Hj].
    + cbn [map concat]. rewrite Hmap, Hc, Nat.sub_diag. done.
Qed.

Lemma bsm_init_ok bsrs xsss :
  Forall2 yields bsrs xsss -> Forall (fun xss => sorted_items (concat xss)) xsss -> concat xsss <> [] ->
  exists heap bsrs' fut, bsm_init bsrs = Ok (bsrs', heap, None) /\ merging heap bsrs' fut /\
    Permutation (remaining heap bsrs' fut) (concat (concat xsss)).
Proof.
  intros Hy Hs Hne. destruct (init_readers_yield bsrs xsss 0 Hy) as (bsrs' & heap & Hi & Hnd & Hst & Hc).
  assert (Hst0 : forall j, In j heap -> exists s xs xss, bsrs' !! j = Some s /\ xsss !! j = Some (xs :: xss) /\ reader_ok s xss /\ block_rest s = xs).
  { intros j Hj. destruct (Hst j Hj) as [_ (s & xs & xss & Hj')]. rewrite Nat.sub_0_r in Hj'. by exists s, xs, xss. }
  set (fut := fun j => tail (default [] (xsss !! j))).
  assert (Hq : forall j, In j heap -> queue bsrs' fut j = concat (default [] (xsss !! j))).
  { intros j Hj. destruct (Hst0 j Hj) as (s & xs & xss & E1 & E2 & E3 & E4). unfold queue, fut. rewrite E1, E2, E4. done. }
  assert (Hrem : remaining heap bsrs' fut = concat (concat xsss)).
  { rewrite <-Hc. unfold remaining. rewrite (map_ext_in _ (fun j => concat (default [] (xsss !! (j - 0)%nat)))).
    - induction heap as [|j heap IH]; [done|]. clear. generalize (j :: heap). intros l. induction l as [|a l IH]; cbn; [done|]. by rewrite IH, concat_app.
    - intros j Hj. rewrite Nat.sub_0_r. by apply Hq. }
  assert (Hne' : heap <> []) by (intros ->; by rewrite <-Hc in Hne).
  assert (Hrd : forall i, In i heap -> exists s, bsrs' !! i = Some s /\ reader_ok s (fut i)).
  { intros i Hin. destruct (Hst0 i Hin) as (s & xs & xss & E1 & E2 & E3 & _). exists s. unfold fut. by rewrite E2. }
  unfold bsm_init. rewrite Hi, bind_Ok. rewrite (heap_init_ext _ (cur_less bsrs')) by (by eapply item_less_cur).
  destruct (heap_init_heap _ (cur_less_total bsrs') (cur_less_trans bsrs') heap) as [Hh Hp].
  destruct (Nat.eqb_spec (length (heap_init (cur_less bsrs') heap)) 0) as [Hz|_]; [rewrite (Permutation_length Hp) in Hz; by destruct heap|].
  exists (heap_init (cur_less bsrs') heap), bsrs', fut. split_and!; [done| |by rewrite (remaining_items_perm _ _ _ _ Hp), Hrem].
  split; [by rewrite Hp| | |done].
  - intros i Hin. apply Hrd. by apply (Permutation_in _ Hp).
  - intros i Hin. apply (Permutation_in _ Hp) in Hin. rewrite (Hq i Hin). destruct (Hst0 i Hin) as (s & xs & xss & _ & E2 & _). rewrite E2.
    rewrite Forall_lookup in Hs. by eapply (Hs i).
Qed.
End Init.

(** ** Theorems *)

(** The streams of a merge: their blocks, sorted within every stream, of
    non-empty, good items that fit a block. *)
Record merge_inputs {S X : Type} `{Src : ItemSource S X} (good : list Z -> Prop) (bsrs : list S) (xsss : list (list (list (list Z)))) : Prop := {
  mi_yields : Forall2 yields bsrs xsss;
  mi_sorted : Forall (fun xss => sorted_items (concat xss)) xsss;
  mi_nonempty : concat xsss <> [];
  mi_items : Forall (item_ok good) (concat (concat xsss));
  mi_count : Z.of_nat (length (concat (concat xsss))) < 2 ^ 46;
}.

(** What a merge of [xs] has written: the chunks are the sorted items, cut
    into blocks within the limits. *)
Record merge_chunks (good : list Z -> Prop) (xs : list (list Z)) (chunks : list (list (list Z))) : Prop := {
  mc_chunks : Forall (chunk_ok good) chunks;
  mc_sorted : sorted_items (concat chunks);
  mc_perm : Permutation (concat chunks) xs;
}.

Lemma merge_items_any {S X W : Type} `{Src : ItemSource S X} `{Snk : ItemSink W} {accepts : W -> list (list (list Z)) -> Prop}
    {SrcL : ItemSourceLaws Src} {SnkL : ItemSinkLaws Snk accepts} good prepare_block f fuel copy_fuel stop sink bsrs xsss :
  prepares good prepare_block f -> merge_inputs good bsrs xsss -> accepts sink [] ->
  (length (concat (concat xsss)) < fuel)%nat -> (2 * length (concat (concat xsss)) + 1 <= copy_fuel)%nat ->
  exists sink' ph n err chunks,
    merge_item_streams fuel copy_fuel stop prepare_block sink PartHeader_default 0 bsrs = Ok (sink', ph, n, err) /\
    accepts sink' (outputs f chunks) /\ Forall (chunk_ok good) chunks /\ ((forall k, stop k = false) -> err = None) /\
    (err = None /\ ph = part_header (outputs f chunks) /\ n = Z.of_nat (length (concat (concat xsss))) /\
       merge_chunks good (concat (concat xsss)) chunks \/ err = Some ForciblyStopped).
Proof.
  intros Hprep [Hy Hs Hne Hok Hcnt] Hacc Hf Hcf. destruct (bsm_init_ok bsrs xsss Hy Hs Hne) as (heap & bsrs' & fut & Hi & Hm & Hp).
  pose proof (Permutation_length Hp) as Hlen.
  destruct (merge_loop_any good prepare_block f Hprep stop copy_fuel fuel 0 (mkMergeState ib_default false sink PartHeader_default 0) [] [] heap bsrs' fut Hm)
    as (st' & bsrs2 & chunks & pend & err & Hrun & Hst' & Hns & Hperm); cbn [concat app].
  - by split; try done; constructor.
  - by intros x y [].
  - by rewrite Hp.
  - rewrite Hlen. done.
  - lia.
  - lia.
  - cbn [concat app] in Hperm. rewrite Hp in Hperm. unfold merge_item_streams. rewrite Hi, bind_Ok, Hrun, bind_Ok.
    exists (ms_sink st'), (ms_ph st'), (ms_items_merged st'), err, chunks. split_and!; [done|apply Hst'|apply Hst'|done|].
    destruct Hperm as [(-> & -> & Hperm)| ->]; [left|by right]. rewrite (so_ph _ _ _ _ _ Hst'), (so_merged _ _ _ _ _ Hst'), (Permutation_length Hperm).
    split_and!; try done. split; [apply Hst'| |done]. pose proof (so_sorted _ _ _ _ _ Hst') as Hso. by rewrite app_nil_r in Hso.
Qed.

Lemma merge_streams_run {S X W : Type} `{Src : ItemSource S X} `{Snk : ItemSink W} {accepts : W -> list (list (list Z)) -> Prop}
    {SrcL : ItemSourceLaws Src} {SnkL : ItemSinkLaws Snk accepts} good prepare_block f fuel copy_fuel stop sink bsrs xsss :
  prepares good prepare_block f -> merge_inputs good bsrs xsss -> accepts sink [] -> (forall k, stop k = false) ->
  (length (concat (concat xsss)) < fuel)%nat -> (2 * length (concat (concat xsss)) + 1 <= copy_fuel)%nat ->
  exists sink' chunks,
    merge_item_streams fuel copy_fuel stop prepare_block sink PartHeader_default 0 bsrs =
      Ok (sink', part_header (outputs f chunks), Z.of_nat (length (concat (concat xsss))), None) /\
    accepts sink' (outputs f chunks) /\ merge_chunks good (concat (concat xsss)) chunks.
Proof.
  intros Hprep Hin Hacc Hstop Hf Hcf.
  destruct (merge_items_any good prepare_block f fuel copy_fuel stop sink bsrs xsss Hprep Hin Hacc Hf Hcf) as (sink' & ph & n & err & chunks & Hrun & Ha & _ & Hns & Hend).
  rewrite (Hns Hstop) in *. destruct Hend as [(_ & -> & -> & Hc)|?]; [|done]. by exists sink', chunks.
Qed.


(** C39: an item that the scratch block cannot take keeps the merge from
    ending.  When the scratch block has no items, the current item does not fit
    in 64 KiB with the bytes that are in the block, and the comparison with the
    next reader does not end the loop (it is off, or the item is not above the
    next one), then [add] refuses the item, the flush of a block without items
    does nothing, and the loop retries the same item: no number of rounds is
    enough.  This is so for every item above 64 KiB, and for smaller ones after
    a callback that removed all items of a block and left its bytes. *)
Theorem merge_oversized_item_diverges {S X W : Type} `{Src : ItemSource S X} `{Snk : ItemSink W}
    (prepare_block : option PrepareBlockCallback) (compare_every_item : bool) (next : list Z) (st : merge_state W) (s : S) (x : list Z) :
  ib_items (ms_ib st) = [] -> wf_ib (src_block s) -> block_items (src_block s) !! src_idx s = Some x ->
  MAX_INMEMORY_BLOCK_SIZE < Z.of_nat (length x) + Z.of_nat (length (ib_data (ms_ib st))) ->
  (compare_every_item = true -> lex_ltb next x = false) ->
  forall fuel, copy_loop fuel prepare_block compare_every_item next st s = Err OutOfFuel.
Proof.
  intros Hib Hw Hx Hlen Hcmp fuel. induction fuel as [|fuel IH]; [done|]. cbn [copy_loop].
  rewrite <-length_block_items, (proj2 (Nat.leb_gt _ _)) by (by eapply lookup_lt_Some). unfold src_curr_item.
  rewrite (item_at_ok s _ x Hw Hx), bind_Ok. assert (compare_every_item && lex_ltb next x = false) as ->.
  { destruct compare_every_item; [by apply Hcmp|done]. }
  unfold ib_add. rewrite Z.gtb_ltb, (proj2 (Z.ltb_lt _ _)) by lia. unfold flush_ib. rewrite Hib. cbn [length Nat.eqb].
  by rewrite bind_Ok.
Qed.

(** ** Examples *)

(** A reader over a list of blocks, and a writer that keeps its blocks. *)
Definition list_reader : Type := (InmemoryBlock * nat) * list InmemoryBlock.

Definition list_source : ItemSource list_reader Empty_set := {|
  src_next s := match s with
                | (b, _, []) => Ok (false, s)
                | (_, _, b :: bs) => Ok (true, (b, 0%nat, bs))
                end;
  src_block s := s.1.1;
  src_idx s := s.1.2;
  src_set_idx s i := (s.1.1, i, s.2);
  src_error _ := None;
|}.

Definition list_writer : ItemSink (list InmemoryBlock) := {| sink_write w b := Ok (w ++ [b]) |}.

Definition list_accepts (w : list InmemoryBlock) (xss : list (list (list Z))) : Prop := map block_items w = xss.

Lemma list_source_laws : ItemSourceLaws list_source.
Proof. split; by repeat intros [[? ?] ?] || intro. Qed.

Lemma list_writer_laws : ItemSinkLaws list_writer list_accepts.
Proof. split. intros w xss b <- _ _. exists (w ++ [b]). split; [done|]. unfold list_accepts. by rewrite map_app. Qed.

Lemma list_reader_yields b i xss :
  Forall (fun xs => xs <> [] /\ Z.of_nat (total xs) < 2 ^ 32) xss ->
  yields (Src := list_source) (b, i, map (pack []) xss) xss.
Proof.
  intros H. revert b i. induction H as [|xs xss [Hne Hb] Hxss IH]; intros b i; [by eapply yields_end|].
  eapply (yields_block (Src := list_source)); cbn; [done|done|by apply pack_wf|by apply pack_items|done|done|]. intros j. apply IH.
Qed.

Definition example_items : list (list (list (list Z))) := [[[[1]; [3; 1]]; [[7]]]; [[[2]; [3]]]].


Lemma merge_oversized_item_diverges_witness :
  copy_loop (Src := list_source) (Snk := list_writer) 100 None true [2]
    (mkMergeState ib_default false [] PartHeader_default 0) (pack [] [repeat 1 65537], 0%nat, []) = Err OutOfFuel.
Proof.
  apply (merge_oversized_item_diverges (Src := list_source) (Snk := list_writer) None true [2] (mkMergeState ib_default false [] PartHeader_default 0)
    (pack [] [repeat 1 65537], 0%nat, []) (repeat 1 65537)); [done| | | |].
  - apply pack_wf. by vm_compute.
  - change (block_items (pack [] [repeat 1 65537]) !! 0%nat = Some (repeat 1 65537)). by rewrite pack_items.
  - rewrite repeat_length. by vm_compute.
  - intros _. by vm_compute.
Defined.
