(* ===== verification/ItemPartMerge.v ===== *)
(** * Merging parts of the merge set

    The reader and the writer of [ItemStream] as the streams and the
    destination of [ItemMerge], [merge_block_streams] of
    [esm-mergeset/src/merge.rs] on them, and the correctness of the merge from
    part to part. *)
From Stdlib Require Import ZArith Lia Bool Sorted Permutation.
From S2P Require Import Prelude Heap IntCodec Float64 Compress ItemBlock ItemBlockSpec ItemHeader ItemStream ItemMerge ItemMergeSpec.
Local Open Scope Z_scope.

#[export] Instance reader_source `{Zs : Zstd} : ItemSource BlockStreamReader bsr_other := {|
  src_next := reader_next;
  src_block := r_block;
  src_idx := r_curr_item_idx;
  src_set_idx := r_set_idx;
  src_error := reader_error;
|}.

#[export] Instance writer_sink `{Zs : Zstd} : ItemSink BlockStreamWriter := {|
  sink_write w b := '(w, _) ← write_block w b; Ok w;
|}.

(** The part header, the number of merged items, and the buffers of the new
    part or the error of the merge; the writer is closed in both cases. *)
Definition merge_block_streams `{Zs : Zstd} (fuel copy_fuel : nat) (stop : nat -> bool)
    (prepare_block : option PrepareBlockCallback) (ph : PartHeader) (bsw : BlockStreamWriter)
    (bsrs : list BlockStreamReader) (items_merged : Z)
    : run (PartHeader * Z * ((list Z * list Z * list Z * list Z) + MergeError bsr_other)) :=
  '(bsw, ph, items_merged, err) ← merge_item_streams fuel copy_fuel stop prepare_block bsw ph items_merged bsrs;
  bufs ← writer_must_close bsw;
  Ok (ph, items_merged, match err with None => inl bufs | Some e => inr e end).

(** ** The interfaces are met *)

Section Instances.
  Context `{Zs : Zstd} {Zl : ZstdLaws Zs}.

#[export] Instance reader_source_laws : ItemSourceLaws reader_source.
Proof. split; intros []; done. Qed.

(** The blocks a writer has taken. *)
Definition writer_accepts (w : BlockStreamWriter) (xss : list (list (list Z))) : Prop :=
  exists gs cur, written w gs cur /\ map e_items (concat gs ++ cur) = xss.

#[export] Instance writer_sink_laws : ItemSinkLaws writer_sink writer_accepts.
Proof.
  split. intros w xss b (gs & cur & H & <-) Hw Hst.
  destruct (write_block_written (E := out_of_fuel) w gs cur b H Hw Hst) as (w' & b' & gs' & cur' & e & Hwr & H' & Hc & _ & He & _ & _).
  exists w'. cbn. rewrite Hwr, bind_Ok. split; [done|]. exists gs', cur'. split; [done|]. rewrite Hc, map_app. cbn. by rewrite He.
Qed.

Lemma reading_yields_items lvl es0 : forall r es gs,
  reading lvl r es gs -> es ++ concat gs = es0 -> yields r (map e_items es0).
Proof.
  induction es0 as [|e es0 IH]; intros r es gs H Heq.
  - apply app_eq_nil in Heq as [-> Hc]. assert (gs = []) as ->.
    { destruct gs as [|g gs]; [done|]. pose proof (rd_groups _ _ _ _ H) as Hg. inversion Hg as [|?? Hgo _]; subst.
      pose proof (go_nonempty _ Hgo). by destruct g. }
    eapply yields_end; [apply (reader_next_end lvl r H)|done].
  - destruct (reader_next_block lvl r es gs e es0 (E := out_of_fuel) H Heq) as (r1 & es1 & gs1 & Hn & H1 & Heq1 & Hb & Hi).
    assert (Hbi : block_items (r_block r1) = e_items e) by (rewrite Hb; apply pack_items).
    assert (Hsto : storable (e_items e)).
    { assert (Hin : In e (es ++ concat gs)) by (rewrite Heq; by left). apply in_app_or in Hin as [Hin|Hin].
      - exact (eo_storable _ (proj1 (Forall_In _ _) (rd_entries _ _ _ _ H) e Hin)).
      - apply in_concat in Hin as (g & Hg & Hin). pose proof (proj1 (Forall_In _ _) (rd_groups _ _ _ _ H) g Hg) as [_ Hes _].
        exact (eo_storable _ (proj1 (Forall_In _ _) Hes e Hin)). }
    eapply yields_block; [exact Hn| | |exact Hbi|apply Hsto|exact Hi|].
    + cbn. unfold reader_error. by rewrite (rd_err _ _ _ _ H1).
    + apply H1.
    + intros i. by apply (IH (r_set_idx r1 i) es1 gs1), Heq1; apply reading_set_idx.
Qed.

(** A reader over a single in-memory block yields its sorted items. *)
Lemma inmemory_block_yields {E} b :
  wf_ib b -> ib_items b <> [] ->
  exists r xs, from_inmemory_block (E := E) b = Ok r /\ yields r [xs] /\ sorted_items xs /\ Permutation xs (block_items b).
Proof.
  intros Hw Hne. unfold from_inmemory_block. destruct (sort_items_ok (E := E) (ib_copy_from ib_default b)) as (b' & -> & Hw' & Hd & Hp & Hs & _); [done|].
  rewrite bind_Ok. assert (Hperm : Permutation (block_items b') (block_items b)).
  { unfold block_items. rewrite Hd. cbn [ib_copy_from ib_data]. by rewrite Hp. }
  eexists _, (block_items b'). split; [done|]. split_and!; [|done|done].
  eapply yields_block; [done|done|done|done| |done|].
  - intros H0. apply Permutation_length in Hperm. rewrite H0 in Hperm. unfold block_items in Hperm. rewrite length_map in Hperm. by destruct (ib_items b).
  - intros i. by eapply yields_end.
Qed.
End Instances.

(** ** From parts to a part *)

(** The part with the given blocks. *)
Definition part_of {E} `{Zs : Zstd} (lvl : Z) (bs : list InmemoryBlock) : res E InmemoryPart :=
  w ← write_blocks (new_inmemory_part lvl) bs;
  bufs ← writer_must_close w;
  Ok (from_buffers (part_header (map block_items bs)) bufs).

(** The blocks of a part that can be written and merged: sorted, of non-empty
    items. *)
Record part_blocks (bs : list InmemoryBlock) : Prop := {
  pb_nonempty : bs <> [];
  pb_wf : Forall wf_ib bs;
  pb_storable : Forall storable (map block_items bs);
  pb_sorted : sorted_items (concat (map block_items bs));
  pb_items : Forall (fun x => x <> []) (concat (map block_items bs));
}.

Lemma sorted_heads xss :
  Forall (fun xs => xs <> []) xss -> sorted_items (concat xss) ->
  StronglySorted (fun x y => lex_leb x y) (map (fun xs : list (list Z) => default [] (head xs)) xss).
Proof.
  induction 1 as [|xs xss Hx Hxss IH]; intros Hs; cbn [map]; [constructor|]. cbn [concat] in Hs. apply StronglySorted_app in Hs as (Hrel & _ & Hs).
  constructor; [by apply IH|]. apply Forall_In. intros y (ys & <- & Hys)%in_map_iff. destruct xs as [|x xs]; [done|].
  apply Hrel; [by left|]. pose proof (proj1 (Forall_In _ _) Hxss ys Hys). destruct ys as [|y ys]; [done|].
  apply list_elem_of_In, in_concat. exists (y :: ys). split; [done|by left].
Qed.

Lemma storable_nonempty xss : Forall storable xss -> Forall (fun xs => xs <> []) xss.
Proof. apply Forall_weaken. intros xs. apply sto_nonempty. Qed.

Section Prepared.
  Context (good : list Z -> Prop) (prepare_block : option PrepareBlockCallback) (f : list (list Z) -> list (list Z)).
  Context (Hprep : prepares good prepare_block f) (Hkeep : forall xs, chunk_ok good xs -> f xs <> []).

Lemma prepared_ends xs :
  chunk_ok good xs -> storable (f xs) /\ lex_leb (default [] (head xs)) (default [] (head (f xs))) /\
    lex_leb (default [] (last (f xs))) (default [] (last xs)).
Proof.
  intros Hst. pose proof Hprep as Hp. unfold prepares in Hp. destruct prepare_block as [cb|].
  - destruct (Hp xs Hst) as (? & ? & _ & _ & _ & _ & H). by apply H, Hkeep.
  - rewrite Hp. rewrite !lex_leb_refl. split; [apply Hst|done].
Qed.

Lemma sorted_bounds xs x :
  xs <> [] -> sorted_items xs -> In x xs -> lex_leb (default [] (head xs)) x /\ lex_leb x (default [] (last xs)).
Proof.
  intros Hne Hs Hx. destruct (nonempty_ends xs Hne) as [Hh Hl]. destruct xs as [|x0 xs]; [done|].
  exact (sorted_items_between x0 xs _ Hs Hl x Hx).
Qed.

(** The callback keeps the blocks in order. *)
Lemma prepared_sorted chunks :
  Forall (chunk_ok good) chunks -> sorted_items (concat chunks) -> sorted_items (concat (map f chunks)).
Proof.
  induction 1 as [|xs chunks Hx Hc IH]; intros Hs; cbn [map concat]; [constructor|]. cbn [concat] in Hs.
  apply StronglySorted_app in Hs as (Hrel & _ & Hs). destruct (prepared_ends xs Hx) as (Hfs & _ & Hle).
  apply StronglySorted_app. split_and!; [|apply Hfs|by apply IH].
  intros u v Hu%list_elem_of_In Hv%list_elem_of_In. apply in_concat in Hv as (ys' & Hys & Hv). apply in_map_iff in Hys as (ys & <- & Hys).
  pose proof (proj1 (Forall_In _ _) Hc ys Hys) as Hyst. destruct (prepared_ends ys Hyst) as (Hfy & Hge & _).
  destruct (sorted_bounds (f xs) u (sto_nonempty _ Hfs) (sto_sorted _ Hfs) Hu) as [_ H1].
  destruct (sorted_bounds (f ys) v (sto_nonempty _ Hfy) (sto_sorted _ Hfy) Hv) as [H2 _].
  eapply lex_leb_trans; [exact H1|]. eapply lex_leb_trans; [exact Hle|]. eapply lex_leb_trans; [|exact H2]. eapply lex_leb_trans; [|exact Hge].
  destruct (nonempty_ends xs (sto_nonempty _ (ck_storable _ _ Hx))) as [_ Hl]. apply last_Some in Hl as [l Hl].
  assert (Hin : In (default [] (last xs)) xs) by (rewrite Hl at 2; apply in_or_app; right; by left).
  apply Hrel; [by apply list_elem_of_In|]. pose proof (sto_nonempty _ (ck_storable _ _ Hyst)). destruct ys as [|y ys]; [done|].
  apply list_elem_of_In, in_concat. exists (y :: ys). split; [done|by left].
Qed.

Lemma outputs_keep chunks : Forall (chunk_ok good) chunks -> outputs f chunks = map f chunks.
Proof.
  unfold outputs. induction 1 as [|xs chunks Hx Hc IH]; [done|]. cbn [map]. rewrite filter_cons, decide_True by (by apply Hkeep). by rewrite IH.
Qed.
End Prepared.

Section PartsToPart.
  Context `{Zs : Zstd} {Zl : ZstdLaws Zs}.

Lemma part_of_yields {E} lvl bs :
  part_blocks bs -> Z.of_nat (length (concat (map block_items bs))) < 2 ^ 64 ->
  exists mp r, part_of (E := E) lvl bs = Ok mp /\ from_inmemory_part (E := E) mp = Ok r /\ yields r (map block_items bs).
Proof.
  intros [Hne Hw Hst Hs Hi] Hcnt.
  destruct (write_blocks_written (E := E) bs _ [] [] (new_written lvl) Hw Hst) as (w & gs & cur & Hwr & H & Hitems & _).
  destruct (close_readable (E := E) w gs cur (map block_items bs) H Hitems) as (bufs & r & gs' & Hclose & Hr & Hread & Hitems');
    [by destruct bs|by apply sorted_heads, Hs; apply storable_nonempty|done|].
  exists (from_buffers (part_header (map block_items bs)) bufs), r. unfold part_of. rewrite Hwr, bind_Ok, Hclose, bind_Ok.
  split_and!; [done|done|]. rewrite <-Hitems'. by apply (reading_yields_items _ _ r [] gs' Hread).
Qed.

Lemma parts_yield {E} lvl bss :
  Forall part_blocks bss -> Z.of_nat (length (concat (concat (map (map block_items) bss)))) < 2 ^ 64 ->
  exists mps bsrs, map_res (part_of (E := E) lvl) bss = Ok mps /\ map_res (from_inmemory_part (E := E)) mps = Ok bsrs /\
    Forall2 yields bsrs (map (map block_items) bss).
Proof.
  induction 1 as [|bs bss Hb Hbs IH]; intros Hcnt; cbn [map_res map].
  { exists [], []. split_and!; [done|done|constructor]. }
  cbn [map concat] in Hcnt. rewrite concat_app, length_app in Hcnt.
  destruct (part_of_yields (E := E) lvl bs Hb ltac:(lia)) as (mp & r & -> & Hr & Hy).
  destruct (IH ltac:(lia)) as (mps & bsrs & -> & Hrs & Hys). exists (mp :: mps), (r :: bsrs). rewrite !bind_Ok. cbn [map_res].
  rewrite Hr, bind_Ok, Hrs, bind_Ok. split_and!; [done|done|by constructor].
Qed.

Lemma parts_merge_inputs good bsrs bss :
  bss <> [] -> Forall part_blocks bss -> Z.of_nat (length (concat (concat (map (map block_items) bss)))) < 2 ^ 46 ->
  Forall good (concat (concat (map (map block_items) bss))) ->
  Forall2 yields bsrs (map (map block_items) bss) -> merge_inputs good bsrs (map (map block_items) bss).
Proof.
  intros Hne Hbs Hcnt Hgood Hy. split; [done| | | |done].
  - apply Forall_fmap. revert Hbs. apply Forall_weaken. intros bs. apply pb_sorted.
  - destruct bss as [|bs bss]; [done|]. inversion Hbs as [|?? Hb _]; subst. pose proof (pb_nonempty _ Hb). by destruct bs.
  - apply Forall_In. intros x Hxin. pose proof (proj1 (Forall_In _ _) Hgood x Hxin) as Hgx. apply in_concat in Hxin as (xs & Hxs & Hx). apply in_concat in Hxs as (xss & Hxss & Hin). apply in_map_iff in Hxss as (bs & <- & Hbin).
    pose proof (proj1 (Forall_In _ _) Hbs bs Hbin) as Hb. pose proof (proj1 (Forall_In _ _) (pb_storable _ Hb) xs Hin) as Hst. split.
    + exact (proj1 (Forall_In _ _) (sto_bytes _ Hst) x Hx).
    + apply (proj1 (Forall_In _ _) (pb_items _ Hb)). apply in_concat. by exists xs.
    + pose proof (sto_total _ Hst) as Ht. apply in_split in Hx as (l1 & l2 & ->). rewrite concat_app, length_app in Ht. cbn in Ht. rewrite length_app in Ht. lia.
    + done.
Qed.

Lemma merge_parts_run (lvl lvl' : Z) (good : list Z -> Prop) (prepare_block : option PrepareBlockCallback) (f : list (list Z) -> list (list Z))
    (bss : list (list InmemoryBlock)) :
  prepares good prepare_block f -> (forall xs, chunk_ok good xs -> f xs <> []) ->
  bss <> [] -> Forall part_blocks bss ->
  let items := concat (concat (map (map block_items) bss)) in
  Forall good items -> Z.of_nat (length items) < 2 ^ 46 ->
  exists mps bsrs ph bufs r r' chunks,
    map_res (part_of (E := out_of_fuel) lvl) bss = Ok mps /\
    map_res (from_inmemory_part (E := out_of_fuel)) mps = Ok bsrs /\
    merge_block_streams (length items + 1) (2 * length items + 1) (fun _ => false) prepare_block PartHeader_default
      (new_inmemory_part lvl') bsrs 0 = Ok (ph, Z.of_nat (length items), inl bufs) /\
    from_inmemory_part (E := out_of_fuel) (from_buffers ph bufs) = Ok r /\
    read_blocks (E := out_of_fuel) (S (length chunks)) r = Ok (map f chunks, r') /\ reader_error r' = None /\
    sorted_items (concat chunks) /\ Permutation (concat chunks) items /\ sorted_items (concat (map f chunks)) /\
    Forall (chunk_ok good) chunks.
Proof.
  intros Hprep Hkeep Hne Hbs items Hgood Hcnt. destruct (parts_yield (E := out_of_fuel) lvl bss Hbs ltac:(fold items; lia)) as (mps & bsrs & Hmp & Hrd & Hy).
  destruct (merge_streams_run (accepts := writer_accepts) good prepare_block f (length items + 1) (2 * length items + 1) (fun _ => false)
    (new_inmemory_part lvl') bsrs (map (map block_items) bss) Hprep) as (w & chunks & Hrun & (gs & cur & Hw & Hout) & [Hst Hs Hp]).
  { by apply parts_merge_inputs. }
  { exists [], []. split; [apply new_written|done]. }
  { done. } { fold items. lia. } { fold items. lia. }
  fold items in Hrun, Hp. rewrite (outputs_keep good f Hkeep chunks Hst) in *.
  pose proof (prepared_sorted good prepare_block f Hprep Hkeep chunks Hst Hs) as Hsf.
  assert (Hfst : Forall storable (map f chunks)).
  { apply Forall_fmap. revert Hst. apply Forall_weaken. intros xs Hxs. by apply (prepared_ends good prepare_block f Hprep Hkeep). }
  assert (Hcn : chunks <> []).
  { intros ->. cbn in Hp. destruct bss as [|bs bss]; [done|]. inversion Hbs as [|?? Hb _]; subst. pose proof (pb_nonempty _ Hb).
    destruct bs as [|b bs]; [done|]. pose proof (pb_storable _ Hb) as Hsb. inversion Hsb as [|?? Hx _]; subst.
    apply Permutation_nil in Hp. unfold items in Hp. cbn in Hp. pose proof (sto_nonempty _ Hx). by destruct (block_items b). }
  destruct (close_readable (E := out_of_fuel) w gs cur (map f chunks) Hw Hout) as (bufs & r & gs' & Hclose & Hr & Hread & Hitems').
  { by destruct chunks. } { by apply sorted_heads, Hsf; apply storable_nonempty. }
  { pose proof (outputs_count good prepare_block f Hprep chunks Hst) as [Hc _]. rewrite (outputs_keep good f Hkeep chunks Hst) in Hc.
    rewrite (Permutation_length Hp) in Hc. unfold MAX_ITEMS in Hc. lia. }
  destruct (read_blocks_ok (E := out_of_fuel) _ (concat gs') r [] gs' Hread eq_refl) as (r' & Hrb & Herr).
  assert (Hlen : length (concat gs') = length chunks) by (apply (f_equal length) in Hitems'; by rewrite !length_map in Hitems').
  rewrite Hlen, Hitems' in Hrb. exists mps, bsrs, (part_header (map f chunks)), bufs, r, r', chunks.
  split_and!; try done. unfold merge_block_streams. by rewrite Hrun, bind_Ok, Hclose, bind_Ok.
Qed.

(** C11: merging parts of the merge set loses nothing.  One or more parts are
    written from blocks of sorted, non-empty, good items that fit a block, fewer
    than 2^46 in all.  They are opened, merged by the heap merge, unstopped, with
    no callback or one that meets its contract on good items ([prepares]) and
    empties no block, and written to a new part: the merge ends without error,
    and reading the new part back passes every check and yields, block by block,
    the results of the callback on consecutive chunks of the sorted items of all
    inputs: the items themselves when there is no callback.  (A callback that
    empties all blocks leaves a part without blocks, which cannot be read.) *)
Theorem merge_item_parts (lvl lvl' : Z) (good : list Z -> Prop) (prepare_block : option PrepareBlockCallback) (f : list (list Z) -> list (list Z))
    (bss : list (list InmemoryBlock)) :
  prepares good prepare_block f -> (forall xs, chunk_ok good xs -> f xs <> []) ->
  bss <> [] -> Forall part_blocks bss ->
  let items := concat (concat (map (map block_items) bss)) in
  Forall good items -> Z.of_nat (length items) < 2 ^ 46 ->
  exists mps bsrs ph bufs r r' chunks,
    map_res (part_of (E := out_of_fuel) lvl) bss = Ok mps /\
    map_res (from_inmemory_part (E := out_of_fuel)) mps = Ok bsrs /\
    merge_block_streams (length items + 1) (2 * length items + 1) (fun _ => false) prepare_block PartHeader_default
      (new_inmemory_part lvl') bsrs 0 = Ok (ph, Z.of_nat (length items), inl bufs) /\
    from_inmemory_part (E := out_of_fuel) (from_buffers ph bufs) = Ok r /\
    read_blocks (E := out_of_fuel) (S (length chunks)) r = Ok (map f chunks, r') /\ reader_error r' = None /\
    sorted_items (concat chunks) /\ Permutation (concat chunks) items /\ sorted_items (concat (map f chunks)).
Proof.
  intros. edestruct (merge_parts_run lvl lvl' good) as (mps & bsrs & ph & bufs & r & r' & chunks & Hrun); try eassumption.
  exists mps, bsrs, ph, bufs, r, r', chunks. tauto.
Qed.
End PartsToPart.

Definition example_parts : list (list InmemoryBlock) := [[pack [] [[1; 2]; [4]]; pack [] [[9]]]; [pack [] [[2]; [5; 5]]]].

Lemma example_parts_ok : Forall part_blocks example_parts.
Proof.
  repeat constructor; try done; try (by vm_compute); try (by repeat constructor; vm_compute).
Qed.

Lemma merge_item_parts_witness :
  exists mps bsrs ph bufs r r' chunks,
    map_res (part_of (Zs := stored_zstd) (E := out_of_fuel) 1) example_parts = Ok mps /\
    map_res (from_inmemory_part (Zs := stored_zstd) (E := out_of_fuel)) mps = Ok bsrs /\
    merge_block_streams (Zs := stored_zstd) 6 11 (fun _ => false) None PartHeader_default (new_inmemory_part 3) bsrs 0 = Ok (ph, 5, inl bufs) /\
    from_inmemory_part (Zs := stored_zstd) (E := out_of_fuel) (from_buffers ph bufs) = Ok r /\
    read_blocks (Zs := stored_zstd) (E := out_of_fuel) (S (length chunks)) r = Ok (map (fun xs => xs) chunks, r') /\ reader_error r' = None /\
    sorted_items (concat chunks) /\ Permutation (concat chunks) [[1; 2]; [4]; [9]; [2]; [5; 5]] /\
    sorted_items (concat (map (fun xs => xs) chunks)).
Proof.
  apply (merge_item_parts (Zl := stored_zstd_laws) 1 3 (fun _ => True) None (fun xs => xs) example_parts).
  - done.
  - intros xs Hxs. apply Hxs.
  - done.
  - exact example_parts_ok.
  - by repeat constructor.
  - by vm_compute.
Defined.
