(* ===== verification/MetricName.v ===== *)
(** * Metric names

    Model of [esm-storage/src/metric_name.rs]: tag values with their escaping,
    tags, metric names, the canonical order of the tags, the form of a metric
    name stored in the inverted index, and the raw form used on ingestion. *)
From Stdlib Require Import ZArith Lia Bool Sorted Permutation String Ascii.
From stdpp Require Import base tactics option list numbers gmap.
From S2P Require Import Prelude IntCodec.
Local Open Scope Z_scope.

Definition ESCAPE_CHAR : Z := 0.
Definition TAG_SEPARATOR_CHAR : Z := 1.
Definition KV_SEPARATOR_CHAR : Z := 2.

(** A byte string literal. *)
Fixpoint bytes_of_string (s : string) : list Z :=
  match s with
  | EmptyString => []
  | String c s' => Z.of_nat (nat_of_ascii c) :: bytes_of_string s'
  end.

Definition METRIC_GROUP_TAG_KEY : list Z := bytes_of_string "__name__".

Definition escape_char (ch : Z) : list Z :=
  if ch =? ESCAPE_CHAR then [ESCAPE_CHAR; 48]
  else if ch =? TAG_SEPARATOR_CHAR then [ESCAPE_CHAR; 49]
  else if ch =? KV_SEPARATOR_CHAR then [ESCAPE_CHAR; 50]
  else [ch].

Definition marshal_tag_value (dst src : list Z) : list Z :=
  if negb (existsb (fun ch => (ch =? ESCAPE_CHAR) || (ch =? TAG_SEPARATOR_CHAR) || (ch =? KV_SEPARATOR_CHAR)) src)
  then (dst ++ src) ++ [TAG_SEPARATOR_CHAR]
  else foldl (fun dst ch => dst ++ escape_char ch) dst src ++ [TAG_SEPARATOR_CHAR].

(** [iter().position(..)]. *)
Fixpoint position (p : Z -> bool) (l : list Z) : option nat :=
  match l with
  | [] => None
  | x :: l' => if p x then Some 0%nat else S <$> position p l'
  end.

Inductive name_error : Type :=
| MissingTagValueEnd
| MissingEscapedChar
| UnsupportedEscapedChar (ch : Z)
| CannotUnmarshalKey (e : name_error)
| CannotUnmarshalValue (e : name_error)
| CannotUnmarshalMetricGroup (e : name_error)
| CannotUnmarshalTag (e : name_error)
| CannotDecodeSize (len : nat)
| TooShortBytes (len : nat) (want : Z)
| CannotDecodeKey (e : name_error)
| CannotDecodeValue (e : name_error)
| UnescapeFuel.

(** The loop of [unmarshal_tag_value] over the value [b]; every round but the
    last drops at least two bytes of it. *)
Fixpoint unescape_loop (fuel : nat) (dst b : list Z) : res name_error (list Z) :=
  match fuel with
  | O => Err UnescapeFuel
  | S fuel =>
      match position (fun c => c =? ESCAPE_CHAR) b with
      | None => Ok (dst ++ b)
      | Some n =>
          let dst := dst ++ take n b in
          b ← slice_from b (n + 1);
          _ ← guard_ (Nat.eqb (length b) 0) MissingEscapedChar;
          ch ← idx b 0;
          dst ← (if ch =? 48 then Ok (dst ++ [ESCAPE_CHAR])
                 else if ch =? 49 then Ok (dst ++ [TAG_SEPARATOR_CHAR])
                 else if ch =? 50 then Ok (dst ++ [KV_SEPARATOR_CHAR])
                 else Err (UnsupportedEscapedChar ch));
          b ← slice_from b 1;
          unescape_loop fuel dst b
      end
  end.

(** The value and the rest of [src]. *)
Definition unmarshal_tag_value (dst src : list Z) : res name_error (list Z * list Z) :=
  match position (fun c => c =? TAG_SEPARATOR_CHAR) src with
  | None => Err MissingTagValueEnd
  | Some n =>
      b ← slice_to src n;
      tail ← slice_from src (n + 1);
      dst ← unescape_loop (S (length b)) dst b;
      Ok (dst, tail)
  end.

Record Tag : Type := mkTag { t_key : list Z; t_value : list Z }.

Global Instance Tag_eq_dec : EqDecision Tag.
Proof. solve_decision. Defined.

Definition Tag_default : Tag := mkTag [] [].

Definition tag_marshal (self : Tag) (dst : list Z) : list Z :=
  marshal_tag_value (marshal_tag_value dst (t_key self)) (t_value self).

Definition tag_unmarshal (src : list Z) : res name_error (Tag * list Z) :=
  '(key, src) ← map_err CannotUnmarshalKey (unmarshal_tag_value [] src);
  '(value, src) ← map_err CannotUnmarshalValue (unmarshal_tag_value [] src);
  Ok (mkTag key value, src).

Record MetricName : Type := mkMetricName { metric_group : list Z; tags : list Tag }.

Global Instance MetricName_eq_dec : EqDecision MetricName.
Proof. solve_decision. Defined.

Definition MetricName_default : MetricName := mkMetricName [] [].

Definition mn_reset (self : MetricName) : MetricName := mkMetricName [] [].

Definition mn_copy_from (self src : MetricName) : MetricName := mkMetricName (metric_group src) (tags src).

Definition add_tag_bytes (self : MetricName) (key value : list Z) : MetricName :=
  if decide (key = METRIC_GROUP_TAG_KEY) then mkMetricName (metric_group self ++ value) (tags self)
  else mkMetricName (metric_group self) (tags self ++ [mkTag key value]).

Definition add_tag (self : MetricName) (key value : list Z) : MetricName := add_tag_bytes self key value.

Definition reset_metric_group (self : MetricName) : MetricName := mkMetricName [] (tags self).

(** The loops that re-add the tags that pass a test. *)
Definition re_add_tags (keep : Tag -> bool) (self : MetricName) (ts : list Tag) : MetricName :=
  foldl (fun mn tag => if keep tag then add_tag_bytes mn (t_key tag) (t_value tag) else mn) self ts.

Definition any_key (ks : list (list Z)) (k : list Z) : bool := existsb (fun t => bool_decide (t = k)) ks.

Definition remove_tags_on (self : MetricName) (on_tags : list (list Z)) : MetricName :=
  let self := if negb (any_key on_tags METRIC_GROUP_TAG_KEY) then reset_metric_group self else self in
  let ts := tags self in
  let self := mkMetricName (metric_group self) [] in
  match on_tags with
  | [] => self
  | _ => re_add_tags (fun tag => any_key on_tags (t_key tag)) self ts
  end.

Definition remove_tag (self : MetricName) (tag_key : list Z) : MetricName :=
  if decide (tag_key = METRIC_GROUP_TAG_KEY) then reset_metric_group self
  else re_add_tags (fun tag => negb (bool_decide (t_key tag = tag_key))) (mkMetricName (metric_group self) []) (tags self).

Definition remove_tags_ignoring (self : MetricName) (ignoring_tags : list (list Z)) : MetricName :=
  match ignoring_tags with
  | [] => self
  | _ =>
      let self := if any_key ignoring_tags METRIC_GROUP_TAG_KEY then reset_metric_group self else self in
      re_add_tags (fun tag => negb (any_key ignoring_tags (t_key tag))) (mkMetricName (metric_group self) []) (tags self)
  end.

Definition get_tag_value (self : MetricName) (tag_key : list Z) : option (list Z) :=
  if decide (tag_key = METRIC_GROUP_TAG_KEY) then Some (metric_group self)
  else t_value <$> List.find (fun tag => bool_decide (t_key tag = tag_key)) (tags self).

Definition mn_marshal (self : MetricName) (dst : list Z) : list Z :=
  foldl (fun dst tag => tag_marshal tag dst) (marshal_tag_value dst (metric_group self)) (tags self).

(** The loop over the tags: every tag has at least two bytes. *)
Fixpoint unmarshal_tags (fuel : nat) (ts : list Tag) (src : list Z) : res name_error (list Tag) :=
  match src with
  | [] => Ok ts
  | _ =>
      match fuel with
      | O => Err UnescapeFuel
      | S fuel =>
          '(tag, src) ← map_err CannotUnmarshalTag (tag_unmarshal src);
          unmarshal_tags fuel (ts ++ [tag]) src
      end
  end.

Definition mn_unmarshal (src : list Z) : res name_error MetricName :=
  '(group, src) ← map_err CannotUnmarshalMetricGroup (unmarshal_tag_value [] src);
  ts ← unmarshal_tags (length src) [] src;
  Ok (mkMetricName group ts).

(** The sentinels of the well-known keys: job-like keys sort first, then
    instance-like keys, then the others. *)
Definition common_tag_keys : list (list string * list Z) := [
  (["namespace"; "Namespace"]%string, [0; 0; 0]);
  (["ns"; "Ns"]%string, [0; 0; 1]);
  (["datacenter"; "Datacenter"]%string, [0; 0; 8]);
  (["dc"; "Dc"]%string, [0; 0; 9]);
  (["environment"; "Environment"]%string, [0; 0; 12]);
  (["env"; "Env"]%string, [0; 0; 13]);
  (["cluster"; "Cluster"]%string, [0; 0; 16]);
  (["service"; "Service"]%string, [0; 0; 24]);
  (["job"; "Job"]%string, [0; 0; 32]);
  (["model"; "Model"]%string, [0; 0; 40]);
  (["type"; "Type"]%string, [0; 0; 48]);
  (["sensor_type"; "Sensor_type"; "SensorType"]%string, [0; 0; 56]);
  (["db"; "Db"]%string, [0; 0; 64]);
  (["instance"; "Instance"]%string, [0; 1; 0]);
  (["host"; "Host"]%string, [0; 1; 8]);
  (["server"; "Server"]%string, [0; 1; 16]);
  (["pod"; "Pod"]%string, [0; 1; 24]);
  (["node"; "Node"]%string, [0; 1; 32]);
  (["device"; "Device"]%string, [0; 1; 40]);
  (["tenant"; "Tenant"]%string, [0; 1; 48]);
  (["client"; "Client"]%string, [0; 1; 56]);
  (["name"; "Name"]%string, [0; 1; 64]);
  (["measurement"; "Measurement"]%string, [0; 1; 72])].

Definition common_tag_key (key : list Z) : option (list Z) :=
  snd <$> List.find (fun e => any_key (map bytes_of_string e.1) key) common_tag_keys.

Definition normalize_tag_key (key : list Z) : list Z := default key (common_tag_key key).

(** The last loop of [sort_tags]: a tag replaces its neighbour with the same
    key. *)
Definition push_tag (result : list Tag) (tag : Tag) : list Tag :=
  match last result with
  | Some l => if decide (t_key l = t_key tag) then removelast result ++ [tag] else result ++ [tag]
  | None => result ++ [tag]
  end.

Definition sort_tags (self : MetricName) : MetricName :=
  match tags self with
  | [] => self
  | ts =>
      let cts := map (fun tag => (normalize_tag_key (t_key tag), tag)) ts in
      let cts := sort_by (fun a b => lex_leb a.1 b.1) cts in
      mkMetricName (metric_group self) (foldl push_tag [] (map snd cts))
  end.

Definition marshal_canonical (self : MetricName) (dst : list Z) : MetricName * list Z :=
  let self := sort_tags self in (self, mn_marshal self dst).

(** *** The raw form *)

Definition marshal_bytes_fast (dst s : list Z) : list Z :=
  marshal_uint16 dst (as_u16 (Z.of_nat (length s))) ++ s.

(** The rest of [src] and the bytes. *)
Definition unmarshal_bytes_fast (src : list Z) : res name_error (list Z * list Z) :=
  _ ← guard_ (length src <? 2)%nat (CannotDecodeSize (length src));
  n ← unmarshal_uint16 src;
  src ← slice_from src 2;
  _ ← guard_ (Z.of_nat (length src) <? n) (TooShortBytes (length src) n);
  tail ← slice_from src (Z.to_nat n);
  head ← slice_to src (Z.to_nat n);
  Ok (tail, head).

Definition marshal_raw (self : MetricName) (dst : list Z) : MetricName * list Z :=
  let dst := marshal_bytes_fast (marshal_bytes_fast dst []) (metric_group self) in
  let self := sort_tags self in
  (self, foldl (fun dst tag => marshal_bytes_fast (marshal_bytes_fast dst (t_key tag)) (t_value tag)) dst (tags self)).

(** Every round drops at least four bytes. *)
Fixpoint unmarshal_raw_loop (fuel : nat) (self : MetricName) (src : list Z) : res name_error MetricName :=
  match src with
  | [] => Ok self
  | _ =>
      match fuel with
      | O => Err UnescapeFuel
      | S fuel =>
          '(src, key) ← map_err CannotDecodeKey (unmarshal_bytes_fast src);
          '(src, value) ← map_err CannotDecodeValue (unmarshal_bytes_fast src);
          let self := match key with
                      | [] => mkMetricName value (tags self)
                      | _ => add_tag_bytes self key value
                      end in
          unmarshal_raw_loop fuel self src
      end
  end.

Definition unmarshal_raw (self : MetricName) (src : list Z) : res name_error MetricName :=
  unmarshal_raw_loop (length src) (mn_reset self) src.

Definition marshal_metric_name_raw (dst : list Z) (labels : list (list Z * list Z)) : list Z :=
  foldl (fun dst label =>
    let '(name, value) := label in
    match value with
    | [] => dst
    | _ =>
        let name := if decide (name = METRIC_GROUP_TAG_KEY) then [] else name in
        marshal_bytes_fast (marshal_bytes_fast dst name) value
    end) dst labels.

(** ** Tag values *)

Definition escape (src : list Z) : list Z := concat (map escape_char src).

Lemma escape_app a b : escape (a ++ b) = escape a ++ escape b.
Proof. unfold escape. by rewrite map_app, concat_app. Qed.

Lemma escape_plain ch : ch <> 0 -> ch <> 1 -> ch <> 2 -> escape_char ch = [ch].
Proof.
  intros. unfold escape_char, ESCAPE_CHAR, TAG_SEPARATOR_CHAR, KV_SEPARATOR_CHAR.
  by repeat (rewrite (proj2 (Z.eqb_neq _ _)) by done).
Qed.

Lemma foldl_escape src : forall dst, foldl (fun dst ch => dst ++ escape_char ch) dst src = dst ++ escape src.
Proof.
  induction src as [|ch src IH]; intros dst; cbn [foldl]; [by rewrite app_nil_r|]. rewrite IH.
  change (ch :: src) with ([ch] ++ src). rewrite escape_app, <-app_assoc. unfold escape at 2. cbn. by rewrite app_nil_r.
Qed.

(** Both paths of the writer emit the escaped value and the separator. *)
Lemma marshal_tag_value_escape dst src : marshal_tag_value dst src = dst ++ escape src ++ [TAG_SEPARATOR_CHAR].
Proof.
  unfold marshal_tag_value. rewrite foldl_escape. destruct (existsb _ _) eqn:E; cbn [negb]; [by rewrite <-app_assoc|].
  rewrite <-app_assoc. do 2 f_equal. induction src as [|ch src IH]; [done|]. cbn in E. apply orb_false_iff in E as [Hc E].
  apply orb_false_iff in Hc as [Hc Hc2]. apply orb_false_iff in Hc as [Hc0 Hc1]. apply Z.eqb_neq in Hc0, Hc1, Hc2.
  change (ch :: src) with ([ch] ++ src). rewrite escape_app, IH at 1 by done. unfold escape. cbn. by rewrite escape_plain.
Qed.

(** The escaped value holds neither separator. *)
Lemma escape_no_separator src : Forall (fun ch => ch <> TAG_SEPARATOR_CHAR /\ ch <> KV_SEPARATOR_CHAR) (escape src).
Proof.
  unfold escape. induction src as [|ch src IH]; [constructor|]. cbn [map concat]. apply Forall_app. split; [|done].
  unfold escape_char, ESCAPE_CHAR, TAG_SEPARATOR_CHAR, KV_SEPARATOR_CHAR.
  destruct (Z.eqb_spec ch 0), (Z.eqb_spec ch 1), (Z.eqb_spec ch 2); repeat constructor; lia.
Qed.

Lemma position_app p a b : Forall (fun x => p x = false) a -> position p (a ++ b) = (fun n => (length a + n)%nat) <$> position p b.
Proof.
  induction 1 as [|x a Hx Ha IH]; cbn; [by destruct (position p b)|]. rewrite Hx, IH. by destruct (position p b).
Qed.

Lemma position_Some p l n : position p l = Some n -> exists a x b, l = a ++ x :: b /\ length a = n /\ p x = true /\ Forall (fun x => p x = false) a.
Proof.
  revert n. induction l as [|x l IH]; intros n; [done|]. cbn. destruct (p x) eqn:E.
  - intros [= <-]. by exists [], x, l.
  - destruct (position p l) as [m|]; [|done]. intros [= <-]. destruct (IH m eq_refl) as (a & y & b & -> & <- & Hy & Ha).
    exists (x :: a), y, b. split_and!; try done. by constructor.
Qed.

Lemma unescape_plain fuel dst c b : c <> 0 -> unescape_loop fuel dst (c :: b) = unescape_loop fuel (dst ++ [c]) b.
Proof.
  intros Hc. destruct fuel as [|fuel]; [done|]. cbn [unescape_loop position]. change ESCAPE_CHAR with 0.
  rewrite (proj2 (Z.eqb_neq c 0)) by done. destruct (position _ b) as [n|]; cbn; [|by rewrite <-app_assoc].
  unfold slice_from. cbn [length drop]. rewrite <-(app_assoc dst [c]). cbn [app].
  destruct (decide (n + 1 <= length b)%nat); [rewrite decide_True by lia|rewrite decide_False by lia]; [reflexivity|reflexivity].
Qed.

Lemma unescape_pair fuel dst ch b :
  unescape_loop (S fuel) dst (0 :: ch :: b) =
    (dst ← (if ch =? 48 then Ok (dst ++ [ESCAPE_CHAR]) else if ch =? 49 then Ok (dst ++ [TAG_SEPARATOR_CHAR])
            else if ch =? 50 then Ok (dst ++ [KV_SEPARATOR_CHAR]) else Err (UnsupportedEscapedChar ch));
     unescape_loop fuel dst b).
Proof.
  cbn [unescape_loop position]. change (0 =? ESCAPE_CHAR) with true. cbn [take Nat.add]. rewrite app_nil_r.
  change (slice_from (0 :: ch :: b) 1) with (@Ok name_error _ (ch :: b)). rewrite bind_Ok. cbn [length Nat.eqb guard_]. rewrite bind_Ok.
  change (idx (ch :: b) 0) with (@Ok name_error _ ch). rewrite bind_Ok. by repeat destruct (_ =? _).
Qed.

Lemma unescape_escape src : forall fuel dst, (length src < fuel)%nat -> unescape_loop fuel dst (escape src) = Ok (dst ++ src).
Proof.
  induction src as [|ch src IH]; intros fuel dst Hf.
  - destruct fuel; [lia|done].
  - change (escape (ch :: src)) with (escape_char ch ++ escape src). cbn [length] in Hf.
    assert (Hsp : forall e, unescape_loop fuel dst (0 :: e :: escape src) = Ok (dst ++ ch :: src) ->
      escape_char ch = [0; e] -> unescape_loop fuel dst (escape_char ch ++ escape src) = Ok (dst ++ ch :: src)) by (by intros e H ->).
    destruct (decide (ch = 0)) as [->|H0]; [|destruct (decide (ch = 1)) as [->|H1]; [|destruct (decide (ch = 2)) as [->|H2]]].
    1-3: destruct fuel as [|fuel]; [lia|]; eapply Hsp; [|reflexivity]; rewrite unescape_pair; cbn [Z.eqb Pos.eqb];
      rewrite bind_Ok, IH by lia; by rewrite <-app_assoc.
    rewrite escape_plain by done. cbn [app]. rewrite unescape_plain, IH by (done || lia). by rewrite <-app_assoc.
Qed.

Lemma length_escape src : (length src <= length (escape src))%nat.
Proof.
  induction src as [|ch src IH]; [done|]. change (ch :: src) with ([ch] ++ src). rewrite escape_app, !length_app.
  assert (1 <= length (escape [ch]))%nat; [|cbn [length]; lia].
  unfold escape. cbn. rewrite app_nil_r. unfold escape_char. repeat destruct (_ =? _); cbn; lia.
Qed.

(** A stored value is read back, and the rest is left. *)
Lemma unmarshal_tag_value_app dst v t :
  unmarshal_tag_value dst (escape v ++ TAG_SEPARATOR_CHAR :: t) = Ok (dst ++ v, t).
Proof.
  unfold unmarshal_tag_value. rewrite position_app.
  2: { pose proof (escape_no_separator v) as H. revert H. apply Forall_weaken. intros x [Hx _]. by apply Z.eqb_neq. }
  cbn [position]. change (TAG_SEPARATOR_CHAR =? TAG_SEPARATOR_CHAR) with true. cbn [fmap option_fmap option_map].
  rewrite Nat.add_0_r. unfold slice_to. rewrite decide_True by (rewrite length_app; lia). rewrite bind_Ok, take_app_length.
  unfold slice_from. rewrite decide_True by (rewrite length_app; cbn; lia). rewrite bind_Ok.
  rewrite unescape_escape by (pose proof (length_escape v); lia). rewrite bind_Ok. do 2 f_equal.
  rewrite drop_app_ge by lia. by replace (length (escape v) + 1 - length (escape v))%nat with 1%nat by lia.
Qed.

Lemma unescape_total fuel : forall dst b, (length b < fuel)%nat ->
  no_panic (unescape_loop fuel dst b) /\ unescape_loop fuel dst b <> Err UnescapeFuel.
Proof.
  induction fuel as [|fuel IH]; intros dst b Hf; [lia|]. cbn [unescape_loop]. destruct (position _ b) as [n|] eqn:E; [|done].
  apply position_Some in E as (a & x & b' & -> & <- & _ & _).
  replace (a ++ x :: b') with ((a ++ [x]) ++ b') by (by rewrite <-app_assoc).
  rewrite slice_from_ok by (rewrite length_app; cbn; lia). rewrite bind_Ok. destruct b' as [|ch b']; [by cbn|]. cbn [length Nat.eqb guard_].
  rewrite bind_Ok. change (idx (ch :: b') 0) with (@Ok name_error _ ch). rewrite bind_Ok.
  replace (ch :: b') with ([ch] ++ b') by done. rewrite slice_from_ok by done.
  rewrite !length_app in Hf. cbn in Hf.
  repeat destruct (_ =? _); try (rewrite !bind_Ok; apply IH; lia). done.
Qed.

(** Reading a value never panics, and the loop is bounded. *)
Lemma unmarshal_tag_value_total dst src :
  no_panic (unmarshal_tag_value dst src) /\ unmarshal_tag_value dst src <> Err UnescapeFuel /\
  forall v t, unmarshal_tag_value dst src = Ok (v, t) -> (length t < length src)%nat.
Proof.
  unfold unmarshal_tag_value. destruct (position _ src) as [n|] eqn:E; [|done].
  apply position_Some in E as (a & x & b' & -> & <- & _ & _). unfold slice_to. rewrite decide_True by (rewrite length_app; lia).
  rewrite bind_Ok, take_app_length. replace (a ++ x :: b') with ((a ++ [x]) ++ b') by (by rewrite <-app_assoc).
  rewrite slice_from_ok by (rewrite length_app; cbn; lia). rewrite bind_Ok.
  destruct (unescape_total (S (length a)) dst a) as [H1 H2]; [lia|].
  destruct (unescape_loop _ dst a); cbn; [|split_and!; [done|by intros [= ->]|done]|done]. split_and!; try done. intros v t [= <- <-]. rewrite !length_app. cbn. lia.
Qed.

(** ** Tags and canonical names *)

Definition tag_bytes (t : Tag) : list Z := escape (t_key t) ++ TAG_SEPARATOR_CHAR :: escape (t_value t) ++ [TAG_SEPARATOR_CHAR].

Lemma tag_marshal_bytes t dst : tag_marshal t dst = dst ++ tag_bytes t.
Proof. unfold tag_marshal, tag_bytes. rewrite !marshal_tag_value_escape, <-!app_assoc. by cbn. Qed.

Lemma tag_unmarshal_app t rest : tag_unmarshal (tag_bytes t ++ rest) = Ok (t, rest).
Proof.
  unfold tag_unmarshal, tag_bytes. rewrite <-app_assoc. cbn [app]. rewrite unmarshal_tag_value_app. cbn [map_err]. rewrite bind_Ok.
  rewrite <-app_assoc. cbn [app]. rewrite unmarshal_tag_value_app. cbn. by destruct t.
Qed.

Lemma tag_unmarshal_total src :
  no_panic (tag_unmarshal src) /\ forall t rest, tag_unmarshal src = Ok (t, rest) -> (length rest < length src)%nat.
Proof.
  unfold tag_unmarshal. destruct (unmarshal_tag_value_total [] src) as (H1 & _ & H3).
  destruct (unmarshal_tag_value [] src) as [[k s]|e|]; [|done|done]. cbn [map_err]. rewrite bind_Ok.
  destruct (unmarshal_tag_value_total [] s) as (H1' & _ & H3').
  destruct (unmarshal_tag_value [] s) as [[v s']|e|]; [|done|done]. cbn. split; [done|]. intros t rest [= <- <-].
  specialize (H3 _ _ eq_refl). specialize (H3' _ _ eq_refl). lia.
Qed.

Definition name_bytes (mn : MetricName) : list Z :=
  (escape (metric_group mn) ++ [TAG_SEPARATOR_CHAR]) ++ concat (map tag_bytes (tags mn)).

Lemma mn_marshal_bytes mn dst : mn_marshal mn dst = dst ++ name_bytes mn.
Proof.
  unfold mn_marshal, name_bytes. rewrite marshal_tag_value_escape, (app_assoc dst (_ ++ [TAG_SEPARATOR_CHAR]) (concat _)).
  generalize (dst ++ escape (metric_group mn) ++ [TAG_SEPARATOR_CHAR]) as d.
  induction (tags mn) as [|t ts IH]; intros d; cbn; [by rewrite app_nil_r|]. by rewrite tag_marshal_bytes, IH, app_assoc.
Qed.

Lemma unmarshal_tags_app ts : forall fuel acc, (length ts <= fuel)%nat ->
  unmarshal_tags fuel acc (concat (map tag_bytes ts)) = Ok (acc ++ ts).
Proof.
  induction ts as [|t ts IH]; intros fuel acc Hf; cbn [map concat]; [by destruct fuel; cbn; rewrite app_nil_r|].
  destruct fuel as [|fuel]; [cbn in Hf; lia|]. cbn [length] in Hf. cbn [unmarshal_tags].
  destruct (tag_bytes t ++ concat (map tag_bytes ts)) eqn:E; [by unfold tag_bytes in E; destruct (escape (t_key t))|]. rewrite <-E.
  rewrite tag_unmarshal_app. cbn [map_err]. rewrite bind_Ok, IH by lia. by rewrite <-app_assoc.
Qed.

Lemma length_tag_bytes ts : (length ts <= length (concat (map tag_bytes ts)))%nat.
Proof.
  induction ts as [|t ts IH]; cbn [map concat length]; [lia|]. rewrite length_app.
  assert (1 <= length (tag_bytes t))%nat by (unfold tag_bytes; rewrite length_app; cbn; lia). lia.
Qed.

Lemma mn_unmarshal_bytes mn : mn_unmarshal (name_bytes mn) = Ok mn.
Proof.
  unfold mn_unmarshal, name_bytes. rewrite <-app_assoc. cbn [app]. rewrite unmarshal_tag_value_app. cbn [map_err]. rewrite bind_Ok.
  rewrite unmarshal_tags_app by apply length_tag_bytes. cbn. by destruct mn.
Qed.

(** The canonical form holds no key-value separator. *)
Lemma tag_bytes_no_kv t : Forall (fun ch => ch <> KV_SEPARATOR_CHAR) (tag_bytes t).
Proof.
  unfold tag_bytes. pose proof (escape_no_separator (t_key t)) as H1. pose proof (escape_no_separator (t_value t)) as H2.
  apply Forall_app. split; [revert H1; apply Forall_weaken; naive_solver|]. constructor; [done|].
  apply Forall_app. split; [revert H2; apply Forall_weaken; naive_solver|by repeat constructor].
Qed.

Lemma name_bytes_no_kv mn : Forall (fun ch => ch <> KV_SEPARATOR_CHAR) (name_bytes mn).
Proof.
  unfold name_bytes. rewrite !Forall_app. split_and!; [|by repeat constructor|].
  - pose proof (escape_no_separator (metric_group mn)) as H. revert H. apply Forall_weaken. naive_solver.
  - induction (tags mn) as [|t ts IH]; cbn; [constructor|]. apply Forall_app. split; [apply tag_bytes_no_kv|done].
Qed.

Lemma split_at_char (c : Z) a b x y :
  Forall (fun ch => ch <> c) a -> Forall (fun ch => ch <> c) b -> a ++ c :: x = b ++ c :: y -> a = b /\ x = y.
Proof.
  intros Ha. revert b. induction Ha as [|h a Hh Ha IH]; intros [|h' b] Hb; cbn.
  - by intros [= ->].
  - intros [= -> _]. by inversion Hb.
  - intros [= -> _]. done.
  - intros [= -> H]. inversion Hb; subst. by destruct (IH b) as [-> ->].
Qed.

Lemma unmarshal_tags_total fuel : forall acc src, (length src <= fuel)%nat -> no_panic (unmarshal_tags fuel acc src).
Proof.
  induction fuel as [|fuel IH]; intros acc src Hf; destruct src as [|c src]; try done. cbn [unmarshal_tags].
  destruct (tag_unmarshal_total (c :: src)) as [H1 H2]. destruct (tag_unmarshal (c :: src)) as [[t rest]|e|]; [|done|done]. cbn [map_err].
  rewrite bind_Ok. apply IH. specialize (H2 _ _ eq_refl). cbn [length] in *. lia.
Qed.

(** ** The canonical order of tags *)

(** The tags as a map: the last value of a key wins. *)
Definition tag_map (ts : list Tag) : gmap (list Z) (list Z) := foldl (fun m t => <[t_key t := t_value t]> m) ∅ ts.

(** No two different keys of the tags share their place in the order, as
    [job] and [Job] do. *)
Definition separated (ts : list Tag) : Prop :=
  forall t1 t2, In t1 ts -> In t2 ts -> normalize_tag_key (t_key t1) = normalize_tag_key (t_key t2) -> t_key t1 = t_key t2.

Definition norm (t : Tag) : list Z := normalize_tag_key (t_key t).

Definition norm_leb (t1 t2 : Tag) : bool := lex_leb (norm t1) (norm t2).

Lemma sorted_pairs ts :
  map snd (sort_by (fun a b : list Z * Tag => lex_leb a.1 b.1) (map (fun t => (norm t, t)) ts)) = sort_by norm_leb ts.
Proof.
  unfold sort_by. induction ts as [|t ts IH]; [done|]. cbn [map foldr]. rewrite <-IH.
  set (r := foldr _ [] (map _ ts)). assert (Hr : Forall (fun a : list Z * Tag => a.1 = norm a.2) r).
  { subst r. clear IH. induction ts as [|u ts IHu]; cbn; [constructor|]. fold (sort_by (fun a b : list Z * Tag => lex_leb a.1 b.1)) in *.
    rewrite insert_by_perm. by constructor. }
  clearbody r. clear IH. induction Hr as [|a r Ha Hr IHr]; [done|]. cbn [insert_by map fst snd]. unfold norm_leb at 1. rewrite Ha. destruct (lex_leb _ _); [done|].
  cbn [map snd]. f_equal. exact IHr.
Qed.

Lemma norm_leb_total t1 t2 : norm_leb t1 t2 \/ norm_leb t2 t1.
Proof. apply lex_leb_total. Qed.

Lemma norm_leb_trans t1 t2 t3 : norm_leb t1 t2 -> norm_leb t2 t3 -> norm_leb t1 t3.
Proof. apply lex_leb_trans. Qed.

Lemma sort_tags_eq mn : sort_tags mn = mkMetricName (metric_group mn) (foldl push_tag [] (sort_by norm_leb (tags mn))).
Proof.
  unfold sort_tags. destruct mn as [g [|t ts]]; [done|]. cbn [tags metric_group].
  rewrite <-sorted_pairs. done.
Qed.

(** Pushing sorted tags keeps one tag per key: the values are those of the
    map, and the keys ascend. *)
Lemma tag_map_snoc ts t : tag_map (ts ++ [t]) = <[t_key t := t_value t]> (tag_map ts).
Proof. unfold tag_map. by rewrite foldl_app. Qed.

Lemma push_tag_map result t : tag_map (push_tag result t) = <[t_key t := t_value t]> (tag_map result).
Proof.
  unfold push_tag. destruct (last result) as [l|] eqn:E; [|apply tag_map_snoc]. apply last_Some in E as [r ->].
  case_decide as Hk; [|apply tag_map_snoc]. rewrite removelast_last, !tag_map_snoc, Hk. by rewrite insert_insert_eq.
Qed.

Lemma push_tags_map ts : forall result, tag_map (foldl push_tag result ts) = foldl (fun m t => <[t_key t := t_value t]> m) (tag_map result) ts.
Proof. induction ts as [|t ts IH]; intros result; [done|]. cbn [foldl]. by rewrite IH, push_tag_map. Qed.

Definition norm_lt (t1 t2 : Tag) : Prop := lex_ltb (norm t1) (norm t2).

Lemma norm_lt_trans t1 t2 t3 : norm_lt t1 t2 -> norm_leb t2 t3 -> norm_lt t1 t3.
Proof.
  unfold norm_lt, norm_leb. rewrite !lex_ltb_leb, !Is_true_true, !negb_true_iff, <-!not_true_iff_false. intros H1 H2 H3. apply H1.
  apply Is_true_true. eapply lex_leb_trans; by apply Is_true_true.
Qed.

Lemma push_tags_sorted ts : forall result,
  StronglySorted norm_lt result -> StronglySorted (fun x y => norm_leb x y) ts -> separated (result ++ ts) ->
  (forall x y, In x result -> In y ts -> norm_leb x y) -> StronglySorted norm_lt (foldl push_tag result ts).
Proof.
  induction ts as [|t ts IH]; intros result Hr Hs Hsep Hle; [done|]. cbn [foldl]. inversion Hs as [|? ? Hs' Ht]; subst.
  rewrite Forall_In in Ht. assert (Hin : forall x, In x (push_tag result t) -> In x result \/ x = t).
  { unfold push_tag. destruct (last result) as [l|] eqn:E; [|intros x [?|[<-|[]]]%in_app_iff; auto].
    case_decide; [|intros x [?|[<-|[]]]%in_app_iff; auto]. apply last_Some in E as [r ->]. rewrite removelast_last.
    intros x [?|[<-|[]]]%in_app_iff; [left; apply in_app_iff|]; auto. }
  apply IH; [|done| |].
  - unfold push_tag. destruct (last result) as [l|] eqn:E.
    + apply last_Some in E as [r ->]. pose proof Hr as Hr'. apply StronglySorted_app in Hr' as (Hlast & Hr0 & _).
      case_decide as Hk.
      * rewrite removelast_last. apply StronglySorted_app. split_and!; [|done|repeat constructor].
        intros x y Hx ->%list_elem_of_singleton. unfold norm_lt, norm. rewrite <-Hk. apply (Hlast x l); [done|by left].
      * assert (Hlt : norm_lt l t).
        { unfold norm_lt. rewrite lex_ltb_leb. apply Is_true_true, negb_true_iff, not_true_iff_false. intros Hge. apply Hk, Hsep.
          - apply in_app_iff. left. apply in_app_iff. right. by left.
          - apply in_app_iff. right. by left.
          - apply lex_leb_antisym; [apply (Hle l t); [apply in_app_iff; right; by left|by left]|by rewrite Is_true_true]. }
        apply StronglySorted_app. split_and!; [|done|repeat constructor]. intros x y Hx ->%list_elem_of_singleton.
        apply elem_of_app in Hx as [Hx| ->%list_elem_of_singleton]; [|done].
        eapply norm_lt_trans; [apply (Hlast x l); [done|by left]|]. apply Hle; [apply in_app_iff; right; by left|by left].
    + apply last_None in E as ->. repeat constructor.
  - intros t1 t2 H1 H2. apply Hsep; apply in_app_iff in H1, H2; apply in_app_iff; cbn.
    + destruct H1 as [[?| ->]%Hin|?]; auto.
    + destruct H2 as [[?| ->]%Hin|?]; auto.
  - intros x y [Hx| ->]%Hin Hy; [apply Hle; [done|by right]|by apply Ht].
Qed.

Lemma tag_map_lookup ts k : tag_map ts !! k = t_value <$> last (filter (fun t => t_key t = k) ts).
Proof.
  induction ts as [|t ts IH] using rev_ind; [done|]. rewrite tag_map_snoc, filter_app, filter_cons, filter_nil.
  destruct (decide (t_key t = k)) as [<-|Hne].
  - rewrite lookup_insert_eq. rewrite last_snoc. done.
  - rewrite lookup_insert_ne by done. rewrite app_nil_r. exact IH.
Qed.

Lemma tag_map_sort ts : tag_map (sort_by norm_leb ts) = tag_map ts.
Proof.
  apply map_eq. intros k. rewrite !tag_map_lookup. do 2 f_equal. apply sort_by_stable.
  intros x y Hx Hy. unfold norm_leb, norm. rewrite Hx, Hy. by rewrite lex_leb_refl.
Qed.

Lemma tag_map_key ts k : is_Some (tag_map ts !! k) <-> exists t, In t ts /\ t_key t = k.
Proof.
  rewrite tag_map_lookup, fmap_is_Some. rewrite last_is_Some. split.
  - destruct (filter _ ts) as [|t l] eqn:E; [done|]. intros _. exists t.
    assert (H : t ∈ filter (fun t => t_key t = k) ts) by (rewrite E; by left). apply list_elem_of_filter in H as [? ?]. by rewrite <-list_elem_of_In.
  - intros (t & Ht%list_elem_of_In & Hk). intros E. assert (H : t ∈ filter (fun t => t_key t = k) ts) by (by apply list_elem_of_filter).
    rewrite E in H. by inversion H.
Qed.

Lemma norm_lt_irrefl t : ~ norm_lt t t.
Proof. unfold norm_lt, lex_ltb. rewrite lex_compare_refl. intros []. Qed.

Lemma norm_lt_leb t1 t2 : norm_lt t1 t2 -> norm_leb t1 t2.
Proof. unfold norm_lt, norm_leb, lex_ltb, lex_leb. by destruct (lex_compare _ _). Qed.

(** In a strictly sorted list the map has exactly the tags of the list. *)
Lemma sorted_tag_map ts t : StronglySorted norm_lt ts -> In t ts <-> tag_map ts !! t_key t = Some (t_value t).
Proof.
  induction 1 as [|u ts Hs IH Hu]; [done|]. rewrite tag_map_lookup, filter_cons. rewrite tag_map_lookup in IH. rewrite Forall_In in Hu.
  assert (Hno : t_key u = t_key t -> filter (fun v => t_key v = t_key t) ts = []).
  { intros Hk. destruct (filter _ ts) as [|v l] eqn:E; [done|]. assert (Hv : v ∈ filter (fun v => t_key v = t_key t) ts) by (rewrite E; by left).
    apply list_elem_of_filter in Hv as [Hkv Hv%list_elem_of_In]. exfalso. apply (norm_lt_irrefl u). specialize (Hu v Hv).
    unfold norm_lt, norm in *. by rewrite Hkv, <-Hk in Hu. }
  case_decide as Hk.
  - rewrite Hno by done. cbn. split.
    + intros [->|Hin]; [done|]. exfalso. assert (H : t ∈ filter (fun v => t_key v = t_key t) ts) by (by apply list_elem_of_filter; rewrite list_elem_of_In).
      rewrite Hno in H by done. by inversion H.
    + intros [= Hv]. left. destruct u, t. cbn in *. congruence.
  - rewrite <-IH. cbn. split; [|by right]. intros [->|?]; done.
Qed.

Lemma sorted_NoDup ts : StronglySorted norm_lt ts -> NoDup ts.
Proof.
  induction 1 as [|u ts Hs IH Hu]; constructor; [|done]. intros Hin%list_elem_of_In. rewrite Forall_In in Hu. by apply (norm_lt_irrefl u), Hu.
Qed.

Lemma sorted_tags_unique ts1 ts2 :
  StronglySorted norm_lt ts1 -> StronglySorted norm_lt ts2 -> tag_map ts1 = tag_map ts2 -> ts1 = ts2.
Proof.
  intros H1 H2 Hm. apply (StronglySorted_unique_strong norm_lt).
  - intros x1 x2 _ _ Ha Hb. exfalso. apply (norm_lt_irrefl x1). eapply norm_lt_trans; [done|by apply norm_lt_leb].
  - done.
  - done.
  - apply NoDup_Permutation; [by apply sorted_NoDup..|]. intros t. by rewrite !list_elem_of_In, !sorted_tag_map, Hm.
Qed.

Lemma separated_ext ts1 ts2 : tag_map ts1 = tag_map ts2 -> separated ts1 -> separated ts2.
Proof.
  intros Hm Hsep t1 t2 H1 H2 Hn. assert (Hk : forall t, In t ts2 -> exists t', In t' ts1 /\ t_key t' = t_key t).
  { intros t Ht. apply tag_map_key. rewrite Hm. apply tag_map_key. by exists t. }
  destruct (Hk _ H1) as (u1 & Hu1 & Hk1), (Hk _ H2) as (u2 & Hu2 & Hk2). rewrite <-Hk1, <-Hk2 in *. by apply Hsep.
Qed.

Lemma sort_tags_map mn : tag_map (tags (sort_tags mn)) = tag_map (tags mn).
Proof. rewrite sort_tags_eq. cbn [tags]. rewrite push_tags_map. cbn. apply tag_map_sort. Qed.

Lemma sort_tags_sorted mn : separated (tags mn) -> StronglySorted norm_lt (tags (sort_tags mn)).
Proof.
  intros Hsep. rewrite sort_tags_eq. cbn [tags]. apply push_tags_sorted; [constructor| | |done].
  - apply sort_by_sorted; [apply norm_leb_total|apply norm_leb_trans].
  - cbn. intros t1 t2 H1 H2. apply Hsep; eapply Permutation_in; [symmetry|eassumption|symmetry|eassumption]; symmetry; apply sort_by_perm.
Qed.

Lemma sort_tags_ext mn1 mn2 :
  separated (tags mn1) -> metric_group mn1 = metric_group mn2 -> tag_map (tags mn1) = tag_map (tags mn2) -> sort_tags mn1 = sort_tags mn2.
Proof.
  intros Hsep Hg Hm. pose proof (separated_ext _ _ Hm Hsep) as Hsep2.
  pose proof (sorted_tags_unique _ _ (sort_tags_sorted _ Hsep) (sort_tags_sorted _ Hsep2)) as Hu. rewrite !sort_tags_map in Hu. specialize (Hu Hm).
  rewrite !sort_tags_eq in *. cbn in Hu. by rewrite Hu, Hg.
Qed.

Lemma sort_tags_group mn : metric_group (sort_tags mn) = metric_group mn.
Proof. by rewrite sort_tags_eq. Qed.

(** C28: the canonical form of a metric name identifies the series, for names
    in which no two different tag keys share their place in the order
    ([separated]: not both [job] and [Job], for which it fails, see
    [sort_tags_keeps_duplicates]).  Sorting the tags keeps the last value of every
    key and puts the keys in strict order; the stored form is read back as the
    sorted name; sorting again changes nothing; and such a name and any other name
    have the same stored form exactly when they have the same group and the same
    last values of the same keys, in whatever order they came. *)
Theorem metric_name_canonical (mn mn2 : MetricName) :
  separated (tags mn) ->
  StronglySorted norm_lt (tags (sort_tags mn)) /\ tag_map (tags (sort_tags mn)) = tag_map (tags mn) /\
  mn_unmarshal (marshal_canonical mn []).2 = Ok (sort_tags mn) /\ sort_tags (sort_tags mn) = sort_tags mn /\
  ((marshal_canonical mn []).2 = (marshal_canonical mn2 []).2 <->
   metric_group mn = metric_group mn2 /\ tag_map (tags mn) = tag_map (tags mn2)).
Proof.
  intros Hsep. unfold marshal_canonical. cbn [snd]. rewrite !mn_marshal_bytes, !app_nil_l.
  split_and!; [by apply sort_tags_sorted|apply sort_tags_map|apply mn_unmarshal_bytes| |].
  - symmetry. apply sort_tags_ext; [done|by rewrite sort_tags_group|by rewrite sort_tags_map].
  - split.
    + intros H. pose proof (mn_unmarshal_bytes (sort_tags mn)) as Hu. rewrite H, mn_unmarshal_bytes in Hu. injection Hu as Hu.
      by rewrite <-(sort_tags_group mn), <-(sort_tags_map mn), <-Hu, sort_tags_group, sort_tags_map.
    + intros [Hg Hm]. by rewrite (sort_tags_ext mn mn2).
Qed.

Definition tag_of (k v : string) : Tag := mkTag (bytes_of_string k) (bytes_of_string v).

Lemma metric_name_canonical_witness :
  (marshal_canonical (mkMetricName [104] [tag_of "host" "a"; tag_of "job" "b"; tag_of "host" "c"]) []).2 =
  (marshal_canonical (mkMetricName [104] [tag_of "job" "b"; tag_of "host" "c"]) []).2.
Proof.
  apply (metric_name_canonical (mkMetricName [104] [tag_of "host" "a"; tag_of "job" "b"; tag_of "host" "c"])).
  - intros t1 t2 H1 H2. cbn in H1, H2. intuition subst; try done; by vm_compute.
  - split; [done|]. by vm_compute.
Defined.

(** Keys that share their place in the order defeat the canonical form.
    [job] and [Job] are sorted by the same sentinel, so a [Job] tag between two
    [job] tags keeps both of them, and two names with the same tags in another
    order have different canonical forms. *)
Theorem sort_tags_keeps_duplicates :
  tags (sort_tags (mkMetricName [] [tag_of "job" "a"; tag_of "Job" "b"; tag_of "job" "c"])) =
    [tag_of "job" "a"; tag_of "Job" "b"; tag_of "job" "c"] /\
  (marshal_canonical (mkMetricName [] [tag_of "job" "a"; tag_of "Job" "b"]) []).2 <>
  (marshal_canonical (mkMetricName [] [tag_of "Job" "b"; tag_of "job" "a"]) []).2.
Proof. split; [by vm_compute|]. by vm_compute. Qed.

(** ** The raw form *)

Definition raw_bytes (s : list Z) : list Z := to_be_bytes 2 (Z.of_nat (length s)) ++ s.

Definition short (s : list Z) : Prop := Z.of_nat (length s) < 2 ^ 16.

Lemma marshal_bytes_fast_raw dst s : short s -> marshal_bytes_fast dst s = dst ++ raw_bytes s.
Proof.
  intros Hs. unfold marshal_bytes_fast, marshal_uint16, raw_bytes. rewrite wrap_u_id by (unfold short in Hs; unfold is_u; lia).
  by rewrite app_assoc.
Qed.

Lemma unmarshal_bytes_fast_app s rest : short s -> unmarshal_bytes_fast (raw_bytes s ++ rest) = Ok (rest, s).
Proof.
  intros Hs. unfold short in Hs. unfold unmarshal_bytes_fast, raw_bytes. rewrite <-app_assoc.
  pass_guard ltac:(rewrite length_app, length_to_be_bytes; apply Nat.ltb_ge; lia).
  unfold unmarshal_uint16. rewrite read_be_app by (unfold is_u; cbn; lia). rewrite bind_Ok.
  rewrite slice_from_ok by apply length_to_be_bytes. rewrite bind_Ok.
  pass_guard ltac:(apply Z.ltb_ge; rewrite length_app; lia). rewrite Nat2Z.id, slice_from_ok by done. rewrite bind_Ok.
  unfold slice_to. rewrite decide_True by (rewrite length_app; lia). by rewrite bind_Ok, take_app_length.
Qed.

Lemma unmarshal_bytes_fast_total src :
  no_panic (unmarshal_bytes_fast src) /\ forall t s, unmarshal_bytes_fast src = Ok (t, s) -> (length t < length src)%nat.
Proof.
  unfold unmarshal_bytes_fast. destruct (length src <? 2)%nat eqn:E; [done|]. apply Nat.ltb_ge in E. cbn [guard_]. rewrite bind_Ok.
  unfold unmarshal_uint16, read_be. destruct src as [|a [|b src]]; [cbn in E; lia..|].
  rewrite decide_True by (cbn; lia). rewrite bind_Ok. change (slice_from (a :: b :: src) 2) with (@Ok name_error _ src). rewrite bind_Ok.
  destruct (_ <? _) eqn:E2; [done|]. apply Z.ltb_ge in E2. cbn [guard_]. rewrite bind_Ok. unfold slice_from, slice_to.
  rewrite !decide_True by lia. rewrite !bind_Ok. split; [done|]. intros t s [= <- _]. rewrite length_drop. cbn. lia.
Qed.

(** The key under which a label is stored: the metric name has the empty key. *)
Definition raw_key (name : list Z) : list Z := if decide (name = METRIC_GROUP_TAG_KEY) then [] else name.

(** The metric name that a list of labels stands for: labels without a value
    are dropped, the last metric name wins, the others are tags in order. *)
Definition add_label (mn : MetricName) (label : list Z * list Z) : MetricName :=
  match label.2 with
  | [] => mn
  | _ => match raw_key label.1 with
         | [] => mkMetricName label.2 (tags mn)
         | k => mkMetricName (metric_group mn) (tags mn ++ [mkTag k label.2])
         end
  end.

Definition name_of_labels (labels : list (list Z * list Z)) : MetricName := foldl add_label MetricName_default labels.

(** The stored pairs of keys and values. *)
Definition pairs_bytes (ps : list (list Z * list Z)) : list Z := concat (map (fun p => raw_bytes p.1 ++ raw_bytes p.2) ps).

Definition set_pair (mn : MetricName) (p : list Z * list Z) : MetricName :=
  match p.1 with [] => mkMetricName p.2 (tags mn) | _ => add_tag_bytes mn p.1 p.2 end.

Lemma unmarshal_raw_pairs ps : forall fuel mn,
  Forall (fun p => short p.1 /\ short p.2) ps -> (length ps <= fuel)%nat ->
  unmarshal_raw_loop fuel mn (pairs_bytes ps) = Ok (foldl set_pair mn ps).
Proof.
  induction ps as [|[k v] ps IH]; intros fuel mn Hs Hf; [by destruct fuel|]. inversion Hs as [|? ? [Hk Hv] Hs']; subst. cbn [length fst snd] in *.
  destruct fuel as [|fuel]; [lia|]. unfold pairs_bytes. cbn [map concat fst snd]. fold (pairs_bytes ps). rewrite <-app_assoc.
  cbn [unmarshal_raw_loop]. destruct (raw_bytes k ++ raw_bytes v ++ pairs_bytes ps) eqn:E.
  { by unfold raw_bytes in E. }
  rewrite <-E, unmarshal_bytes_fast_app by done. cbn [map_err]. rewrite bind_Ok, unmarshal_bytes_fast_app by done. cbn [map_err]. rewrite bind_Ok.
  rewrite IH by (done || lia). done.
Qed.

Lemma length_pairs_bytes ps : (length ps <= length (pairs_bytes ps))%nat.
Proof.
  unfold pairs_bytes. induction ps as [|p ps IH]; cbn [map concat length]; [lia|]. rewrite !length_app. unfold raw_bytes at 1.
  rewrite length_app, length_to_be_bytes. lia.
Qed.

Definition label_pairs (labels : list (list Z * list Z)) : list (list Z * list Z) :=
  map (fun l => (raw_key l.1, l.2)) (filter (fun l => l.2 <> []) labels).

Definition short_label (l : list Z * list Z) : Prop := short l.1 /\ short l.2.

Lemma raw_key_short k : short k -> short (raw_key k).
Proof. unfold raw_key. by case_decide. Qed.

Lemma marshal_labels labels : forall dst, Forall short_label labels ->
  marshal_metric_name_raw dst labels = dst ++ pairs_bytes (label_pairs labels).
Proof.
  unfold marshal_metric_name_raw, label_pairs. induction labels as [|[k v] labels IH]; intros dst Hs; cbn [foldl]; [by rewrite app_nil_r|].
  inversion Hs as [|? ? [Hk Hv] Hs']; subst. cbn [fst snd] in *. rewrite IH, filter_cons by done. cbn [snd]. destruct v as [|b v]; [done|].
  fold (raw_key k). rewrite decide_True by done. rewrite !marshal_bytes_fast_raw by (done || by apply raw_key_short).
  unfold pairs_bytes. cbn [map concat fst snd]. by rewrite <-!app_assoc.
Qed.

Lemma set_label_pairs labels : forall mn, foldl set_pair mn (label_pairs labels) = foldl add_label mn labels.
Proof.
  unfold label_pairs. induction labels as [|[k v] labels IH]; intros mn; [done|]. rewrite filter_cons. cbn [foldl snd]. unfold add_label at 2. cbn [fst snd].
  destruct v as [|b v]; [by rewrite decide_False by naive_solver|]. rewrite decide_True by done. cbn [map foldl]. rewrite IH. f_equal.
  unfold set_pair. cbn [fst snd]. destruct (raw_key k) eqn:E; [done|]. rewrite <-E. unfold add_tag_bytes. rewrite decide_False; [done|].
  unfold raw_key in *. case_decide; [done|]. congruence.
Qed.

Lemma unmarshal_raw_total fuel : forall mn src, (length src <= fuel)%nat ->
  no_panic (unmarshal_raw_loop fuel mn src) /\ unmarshal_raw_loop fuel mn src <> Err UnescapeFuel.
Proof.
  induction fuel as [|fuel IH]; intros mn src Hf; destruct src as [|c src]; [done|cbn in Hf; lia|done|]. cbn [unmarshal_raw_loop].
  destruct (unmarshal_bytes_fast_total (c :: src)) as [H1 H2]. destruct (unmarshal_bytes_fast (c :: src)) as [[t k]|e|]; [|done|by destruct H1]. cbn [map_err].
  rewrite bind_Ok. specialize (H2 _ _ eq_refl).
  destruct (unmarshal_bytes_fast_total t) as [H3 H4]. destruct (unmarshal_bytes_fast t) as [[t' v]|e|]; [|done|by destruct H3]. cbn [map_err].
  rewrite bind_Ok. specialize (H4 _ _ eq_refl). apply IH. cbn [length] in *. lia.
Qed.

(** The raw form of labels is read back as the metric name they stand for,
    when names and values fit 16-bit lengths, and the reader neither panics nor
    loops on any bytes. *)
Theorem raw_name_roundtrip (mn : MetricName) (labels : list (list Z * list Z)) :
  Forall short_label labels ->
  unmarshal_raw mn (marshal_metric_name_raw [] labels) = Ok (name_of_labels labels) /\
  forall src, no_panic (unmarshal_raw mn src) /\ unmarshal_raw mn src <> Err UnescapeFuel.
Proof.
  intros Hs. split; [|intros src; by apply unmarshal_raw_total]. rewrite marshal_labels by done. cbn [app]. unfold unmarshal_raw.
  rewrite unmarshal_raw_pairs; [by rewrite set_label_pairs| |apply length_pairs_bytes].
  unfold label_pairs. apply Forall_fmap. apply Forall_In. intros l Hl%list_elem_of_In. apply list_elem_of_filter in Hl as [_ Hl].
  rewrite Forall_In in Hs. apply list_elem_of_In, Hs in Hl as [Hk Hv]. split; [by apply raw_key_short|done].
Qed.

Lemma raw_name_roundtrip_witness :
  unmarshal_raw MetricName_default (marshal_metric_name_raw []
    [(METRIC_GROUP_TAG_KEY, [109]); ([97], [98]); ([99], [])]) = Ok (mkMetricName [109] [mkTag [97] [98]]).
Proof.
  destruct (raw_name_roundtrip MetricName_default [(METRIC_GROUP_TAG_KEY, [109]); ([97], [98]); ([99], [])]) as [H _].
  - by repeat constructor.
  - by rewrite H.
Defined.

(** A tag that the raw form keeps a tag. *)
Definition plain_tag (t : Tag) : Prop := short (t_key t) /\ short (t_value t) /\ t_key t <> [] /\ t_key t <> METRIC_GROUP_TAG_KEY.

Lemma set_tag_pairs ts : forall mn, Forall plain_tag ts ->
  foldl set_pair mn (map (fun t => (t_key t, t_value t)) ts) = mkMetricName (metric_group mn) (tags mn ++ ts).
Proof.
  induction ts as [|t ts IH]; intros mn Hs; cbn [map foldl]; [rewrite app_nil_r; by destruct mn|]. inversion Hs as [|? ? (Hk & Hv & Hne & Hng) Hs']; subst.
  rewrite IH by done. unfold set_pair. cbn [fst snd]. destruct (t_key t) as [|b k] eqn:E; [done|]. rewrite <-E in *.
  unfold add_tag_bytes. rewrite decide_False by done. cbn [metric_group tags]. rewrite <-app_assoc. by destruct t.
Qed.

(** The raw form of a metric name is read back with its tags sorted. *)
Lemma marshal_raw_read mn0 mn : short (metric_group mn) -> Forall plain_tag (tags (sort_tags mn)) ->
  unmarshal_raw mn0 (marshal_raw mn []).2 = Ok (sort_tags mn).
Proof.
  intros Hg Hs. set (ps := ([], metric_group mn) :: map (fun t => (t_key t, t_value t)) (tags (sort_tags mn))).
  assert (Hb : (marshal_raw mn []).2 = pairs_bytes ps).
  { unfold marshal_raw. cbn [snd]. rewrite !marshal_bytes_fast_raw by done. subst ps. unfold pairs_bytes. cbn [map concat fst snd app].
    generalize (raw_bytes [] ++ raw_bytes (metric_group mn)) as dst. induction Hs as [|t ts (Hk & Hv & _) Hs IH]; intros dst; cbn [foldl map concat fst snd].
    - by rewrite app_nil_r.
    - rewrite IH, !marshal_bytes_fast_raw by done. by rewrite <-!app_assoc. }
  rewrite Hb. unfold unmarshal_raw. rewrite unmarshal_raw_pairs; [|subst ps; constructor; [done|]|apply length_pairs_bytes].
  - subst ps. cbn [foldl]. rewrite set_tag_pairs by done. unfold set_pair. cbn [fst snd mn_reset metric_group tags app]. f_equal.
    rewrite <-(sort_tags_group mn) at 1. by destruct (sort_tags mn).
  - apply Forall_fmap. revert Hs. apply Forall_weaken. intros t (? & ? & _). done.
Qed.
