(* ===== verification/IndexRow.v ===== *)
(** * Rows of the inverted index

    Model of the key helpers of [esm-storage/src/index/mod.rs] (namespaces,
    composite keys) and of [esm-storage/src/index/row_merge.rs]: the parser of
    the rows that map a tag to metric IDs, and the callback of the merge set
    that joins neighbouring rows of a tag. *)
From Stdlib Require Import ZArith Lia Bool Sorted Permutation.
From stdpp Require Import base tactics option list numbers.
From S2P Require Import Prelude IntCodec MetricName Uint64Set ItemBlock ItemMerge.
Local Open Scope Z_scope.

Definition NS_PREFIX_METRIC_NAME_TO_TSID : Z := 0.
Definition NS_PREFIX_TAG_TO_METRIC_IDS : Z := 1.
Definition NS_PREFIX_METRIC_ID_TO_TSID : Z := 2.
Definition NS_PREFIX_METRIC_ID_TO_METRIC_NAME : Z := 3.
Definition NS_PREFIX_DELETED_METRIC_ID : Z := 4.
Definition NS_PREFIX_DATE_TO_METRIC_ID : Z := 5.
Definition NS_PREFIX_DATE_TAG_TO_METRIC_IDS : Z := 6.
Definition NS_PREFIX_DATE_METRIC_NAME_TO_TSID : Z := 7.

Definition COMMON_PREFIX_LEN : nat := 1.
Definition COMPOSITE_TAG_KEY_PREFIX : Z := 0xfe.
Definition GRAPHITE_REVERSE_TAG_KEY : list Z := [0xff].

Inductive row_error : Type :=
| ShortCommonPrefix (len : nat)
| InvalidRow (b : list Z) (e : row_error)
| InvalidNsPrefix (b : list Z) (got want : Z)
| ShortDate (b : list Z) (len : nat)
| CannotUnmarshalRowTag (b : list Z) (e : name_error)
| MissingMetricId
| InvalidTailLength (len : nat)
| EmptyCompositeKey
| MissingCompositePrefix (src : list Z)
| CannotUnmarshalNameLen
| ShortCompositeKey (n : Z) (src : list Z).

Definition marshal_common_prefix (dst : list Z) (ns_prefix : Z) : list Z := dst ++ [ns_prefix].

Definition unmarshal_common_prefix (src : list Z) : res row_error (list Z * Z) :=
  _ ← guard_ (length src <? COMMON_PREFIX_LEN)%nat (ShortCommonPrefix (length src));
  tail ← slice_from src COMMON_PREFIX_LEN;
  ns ← idx src 0;
  Ok (tail, ns).

Definition marshal_composite_tag_key (dst name key : list Z) : list Z :=
  (marshal_var_uint64 (dst ++ [COMPOSITE_TAG_KEY_PREFIX]) (Z.of_nat (length name)) ++ name) ++ key.

Definition unmarshal_composite_tag_key (src : list Z) : res row_error (list Z * list Z) :=
  _ ← guard_ (Nat.eqb (length src) 0) EmptyCompositeKey;
  c ← idx src 0;
  _ ← guard_ (negb (c =? COMPOSITE_TAG_KEY_PREFIX)) (MissingCompositePrefix src);
  src ← slice_from src 1;
  '(n, n_size) ← ok_or (unmarshal_var_uint64 src) CannotUnmarshalNameLen;
  src ← slice_from src n_size;
  _ ← guard_ (Z.of_nat (length src) <? n) (ShortCompositeKey n src);
  name ← slice_to src (Z.to_nat n);
  key ← slice_from src (Z.to_nat n);
  Ok (name, key).

Definition is_artificial_tag_key (key : list Z) : bool :=
  bool_decide (key = GRAPHITE_REVERSE_TAG_KEY) ||
  match key with [] => false | c :: _ => c =? COMPOSITE_TAG_KEY_PREFIX end.

Definition reverse_bytes (dst src : list Z) : list Z := dst ++ reverse src.

(** ** The parser of tag rows *)

Definition MAX_METRIC_IDS_PER_ROW : nat := 64.

Record TagToMetricIDsRowParser : Type := mkParser {
  ns_prefix : Z;
  rp_date : Z;
  metric_ids : list Z;
  metric_ids_parsed : bool;
  rp_tag : Tag;
  rp_tail : list Z;
}.

Definition parser_default : TagToMetricIDsRowParser := mkParser 0 0 [] false Tag_default [].

Definition parser_reset (self : TagToMetricIDsRowParser) : TagToMetricIDsRowParser := parser_default.

Definition init_only_tail (self : TagToMetricIDsRowParser) (tail : list Z) : res row_error TagToMetricIDsRowParser :=
  _ ← guard_ (Nat.eqb (length tail) 0) MissingMetricId;
  _ ← guard_ (negb (Nat.eqb (length tail mod 8) 0)) (InvalidTailLength (length tail));
  Ok (mkParser (ns_prefix self) (rp_date self) (metric_ids self) false (rp_tag self) tail).

Definition parser_init (self : TagToMetricIDsRowParser) (b : list Z) (ns_prefix_expected : Z)
    : res row_error TagToMetricIDsRowParser :=
  '(tail, ns) ← map_err (InvalidRow b) (unmarshal_common_prefix b);
  _ ← guard_ (negb (ns =? ns_prefix_expected)) (InvalidNsPrefix b ns ns_prefix_expected);
  '(date, tail) ←
    (if ns =? NS_PREFIX_DATE_TAG_TO_METRIC_IDS then
       _ ← guard_ (length tail <? 8)%nat (ShortDate b (length tail));
       date ← unmarshal_uint64 tail;
       tail ← slice_from tail 8;
       Ok (date, tail)
     else Ok (rp_date self, tail));
  '(tag, tail) ← map_err (CannotUnmarshalRowTag b) (tag_unmarshal tail);
  init_only_tail (mkParser ns date (metric_ids self) (metric_ids_parsed self) tag (rp_tail self)) tail.

Definition marshal_prefix (self : TagToMetricIDsRowParser) (dst : list Z) : list Z :=
  let dst := marshal_common_prefix dst (ns_prefix self) in
  let dst := if ns_prefix self =? NS_PREFIX_DATE_TAG_TO_METRIC_IDS then marshal_uint64 dst (rp_date self) else dst in
  tag_marshal (rp_tag self) dst.

Definition equal_prefix (self x : TagToMetricIDsRowParser) : bool :=
  bool_decide (rp_tag self = rp_tag x) && (rp_date self =? rp_date x) && (ns_prefix self =? ns_prefix x).

Definition metric_ids_len (self : TagToMetricIDsRowParser) : nat := (length (rp_tail self) / 8)%nat.

(** The loop reads eight bytes while there are as many. *)
Fixpoint parse_ids_loop (ids tail : list Z) : list Z :=
  match tail with
  | a :: b :: c :: d :: e :: f :: g :: h :: tail => parse_ids_loop (ids ++ [from_be_bytes [a; b; c; d; e; f; g; h]]) tail
  | _ => ids
  end.

Definition parse_metric_ids (self : TagToMetricIDsRowParser) : TagToMetricIDsRowParser :=
  if metric_ids_parsed self then self
  else mkParser (ns_prefix self) (rp_date self) (parse_ids_loop [] (rp_tail self)) true (rp_tag self) (rp_tail self).

(** The loop of [get_matching_series_count]. *)
Fixpoint count_matching (filter : option USet) (negative_filter : USet) (ids : list Z) (n : nat) : Uint64Set.run nat :=
  match ids with
  | [] => Ok n
  | id :: ids =>
      skip ← (match filter with Some f => found ← set_has f id; Ok (negb found) | None => Ok false end);
      if (skip : bool) then count_matching filter negative_filter ids n
      else
        neg ← set_has negative_filter id;
        count_matching filter negative_filter ids (if (neg : bool) then n else S n)
  end.

Definition get_matching_series_count (self : TagToMetricIDsRowParser) (filter : option USet) (negative_filter : USet)
    : Uint64Set.run (TagToMetricIDsRowParser * nat) :=
  match filter with
  | None =>
      if set_is_empty negative_filter then Ok (self, metric_ids_len self)
      else
        let self := parse_metric_ids self in
        n ← count_matching None negative_filter (metric_ids self) 0;
        Ok (self, n)
  | Some f =>
      let self := parse_metric_ids self in
      n ← count_matching (Some f) negative_filter (metric_ids self) 0;
      Ok (self, n)
  end.

(** [Vec::dedup]: drops repeated neighbours. *)
Fixpoint dedup_ids (l : list Z) : list Z :=
  match l with
  | x :: ((y :: _) as l') => if x =? y then dedup_ids l' else x :: dedup_ids l'
  | _ => l
  end.

Definition remove_duplicate_metric_ids (ids : list Z) : list Z :=
  if (length ids <? 2)%nat then ids else dedup_ids ids.

(** The loop of [check_items_sorted] after the first item. *)
Fixpoint check_sorted_loop {E} (data prev_item : list Z) (items : list Item) : res E bool :=
  match items with
  | [] => Ok true
  | it :: items =>
      curr_item ← item_bytes it data;
      if lex_ltb curr_item prev_item then Ok false else check_sorted_loop data curr_item items
  end.

Definition check_items_sorted {E} (data : list Z) (items : list Item) : res E bool :=
  match items with
  | [] => Ok true
  | it :: items => prev_item ← item_bytes it data; check_sorted_loop data prev_item items
  end.

(** ** The merge of tag rows *)

(** [INDEX_BLOCKS_WITH_METRIC_IDS_PROCESSED] and
    [INDEX_BLOCKS_WITH_METRIC_IDS_INCORRECT_ORDER]. *)
Record row_counters : Type := mkRowCounters { blocks_processed : Z; blocks_incorrect_order : Z }.

(** The output buffer and items, the pending metric IDs, and the parsers of the
    current and of the previous row. *)
Record rows_state : Type := mkRows {
  dst_data : list Z;
  dst_items : list Item;
  pending_metric_ids : list Z;
  mp : TagToMetricIDsRowParser;
  mp_prev : TagToMetricIDsRowParser;
}.

Definition push_item (st : rows_state) (item : list Z) : rows_state :=
  let data := dst_data st ++ item in
  mkRows data (dst_items st ++ [mkItem (as_u32 (Z.of_nat (length (dst_data st)))) (as_u32 (Z.of_nat (length data)))])
    (pending_metric_ids st) (mp st) (mp_prev st).

(** [flush_pending] is always called with [mp_prev]. *)
Definition flush_pending (st : rows_state) : rows_state :=
  match pending_metric_ids st with
  | [] => st
  | pending =>
      let pending := remove_duplicate_metric_ids (sort_by_key id pending) in
      let data := foldl marshal_uint64 (marshal_prefix (mp_prev st) (dst_data st)) pending in
      mkRows data (dst_items st ++ [mkItem (as_u32 (Z.of_nat (length (dst_data st)))) (as_u32 (Z.of_nat (length data)))])
        [] (mp st) (mp_prev st)
  end.

(** One round of the loop over the items. *)
Definition merge_row {E} (data : list Z) (ns : Z) (items_len i : nat) (it : Item) (st : rows_state) : res E rows_state :=
  item ← item_bytes it data;
  let as_is := match item with [] => true | c :: _ => negb (c =? ns) end in
  if as_is || Nat.eqb i 0 || Nat.eqb i (items_len - 1) then Ok (push_item (flush_pending st) item)
  else
    match parser_init (mp st) item ns with
    | Ok mp' =>
        let st := mkRows (dst_data st) (dst_items st) (pending_metric_ids st) mp' (mp_prev st) in
        if (MAX_METRIC_IDS_PER_ROW <=? metric_ids_len (mp st))%nat then Ok (push_item (flush_pending st) item)
        else
          let st := if negb (equal_prefix (mp st) (mp_prev st)) then flush_pending st else st in
          let mp' := parse_metric_ids (mp st) in
          let pending := pending_metric_ids st ++ metric_ids mp' in
          let st := mkRows (dst_data st) (dst_items st) pending (mp_prev st) mp' in
          Ok (if (MAX_METRIC_IDS_PER_ROW <=? length pending)%nat then flush_pending st else st)
    | _ => Panic
    end.

Fixpoint merge_rows_loop {E} (data : list Z) (ns : Z) (items_len i : nat) (items : list Item) (st : rows_state)
    : res E rows_state :=
  match items with
  | [] => Ok st
  | it :: items => st ← merge_row data ns items_len i it st; merge_rows_loop data ns items_len (S i) items st
  end.

Definition merge_tag_to_metric_ids_rows_internal {E} (rc : row_counters) (data : list Z) (items : list Item) (ns : Z)
    : res E (list Z * list Item * row_counters) :=
  if (length items <=? 2)%nat then Ok (data, items, rc)
  else
    it0 ← idx items 0;
    first_item ← item_bytes it0 data;
    if match first_item with [] => false | c :: _ => ns <? c end then Ok (data, items, rc)
    else
      itn ← idx items (length items - 1);
      last_item ← item_bytes itn data;
      if match last_item with [] => false | c :: _ => c <? ns end then Ok (data, items, rc)
      else
        st ← merge_rows_loop data ns (length items) 0 items (mkRows [] [] [] parser_default parser_default);
        _ ← assert_ (Nat.eqb (length (pending_metric_ids st)) 0);
        sorted ← check_items_sorted (dst_data st) (dst_items st);
        if negb sorted then
          sorted ← check_items_sorted data items;
          _ ← assert_ sorted;
          Ok (data, items, mkRowCounters (as_u64 (blocks_processed rc + 1)) (as_u64 (blocks_incorrect_order rc + 1)))
        else Ok (dst_data st, dst_items st, mkRowCounters (as_u64 (blocks_processed rc + 1)) (blocks_incorrect_order rc)).

Definition merge_tag_to_metric_ids_rows {E} (rc : row_counters) (data : list Z) (items : list Item)
    : res E (list Z * list Item * row_counters) :=
  '(data, items, rc) ← merge_tag_to_metric_ids_rows_internal rc data items NS_PREFIX_TAG_TO_METRIC_IDS;
  merge_tag_to_metric_ids_rows_internal rc data items NS_PREFIX_DATE_TAG_TO_METRIC_IDS.

(** The callback given to the table of the index, without the process-wide
    counters. *)
Definition merge_tag_to_metric_ids_rows_callback : PrepareBlockCallback := fun data items =>
  '(data, items, _) ← merge_tag_to_metric_ids_rows (mkRowCounters 0 0) data items;
  Ok (data, items).

Definition find_tag_separator (tail : list Z) : option nat := MetricName.position (fun b => b =? TAG_SEPARATOR_CHAR) tail.
