(* ===== verification/IndexRowSpec.v ===== *)
(** * Joining index rows keeps the postings

    The rows of [IndexRow] as records, the postings they hold, and the theorems
    that the callback of [esm-storage/src/index/row_merge.rs] keeps the
    postings of a block and meets the contract of the merge of item streams,
    so that merging parts of the index loses no posting. *)
From Stdlib Require Import ZArith Lia Bool Sorted Permutation.
From stdpp Require Import base tactics option list numbers.
From S2P Require Import Prelude IntCodec Compress MetricName ItemBlock ItemBlockSpec ItemStream ItemMerge ItemMergeSpec ItemPartMerge IndexRow.
Local Open Scope Z_scope.

(** ** Rows *)

Record index_row : Type := mkRow { r_ns : Z; r_date : Z; r_tag : Tag; r_ids : list Z }.

Definition prefix_bytes (ns date : Z) (tag : Tag) : list Z :=
  ns :: (if ns =? NS_PREFIX_DATE_TAG_TO_METRIC_IDS then to_be_bytes 8 date else []) ++ tag_bytes tag.

Definition ids_bytes (ids : list Z) : list Z := concat (map (to_be_bytes 8) ids).

Definition row_bytes (r : index_row) : list Z := prefix_bytes (r_ns r) (r_date r) (r_tag r) ++ ids_bytes (r_ids r).

Definition tag_ns (ns : Z) : Prop := ns = NS_PREFIX_TAG_TO_METRIC_IDS \/ ns = NS_PREFIX_DATE_TAG_TO_METRIC_IDS.

Record row_ok (r : index_row) : Prop := {
  ok_ns : tag_ns (r_ns r);
  ok_date : is_u 64 (r_date r);
  ok_global : r_ns r = NS_PREFIX_TAG_TO_METRIC_IDS -> r_date r = 0;
  ok_key : bytes (t_key (r_tag r));
  ok_value : bytes (t_value (r_tag r));
  ok_some : r_ids r <> [];
  ok_ids : Forall (is_u 64) (r_ids r);
}.

Lemma ids_bytes_app a b : ids_bytes (a ++ b) = ids_bytes a ++ ids_bytes b.
Proof. unfold ids_bytes. by rewrite map_app, concat_app. Qed.

Lemma length_ids_bytes ids : length (ids_bytes ids) = (8 * length ids)%nat.
Proof. unfold ids_bytes. induction ids as [|x ids IH]; [done|]. cbn [map concat length]. rewrite length_app, length_to_be_bytes, IH. lia. Qed.

Lemma foldl_ids ids : forall dst, foldl marshal_uint64 dst ids = dst ++ ids_bytes ids.
Proof.
  induction ids as [|x ids IH]; intros dst; cbn [foldl]; [by rewrite app_nil_r|]. rewrite IH. unfold marshal_uint64. by rewrite <-app_assoc.
Qed.

Lemma marshal_prefix_bytes p dst : marshal_prefix p dst = dst ++ prefix_bytes (ns_prefix p) (rp_date p) (rp_tag p).
Proof.
  unfold marshal_prefix, prefix_bytes, marshal_common_prefix, marshal_uint64. rewrite tag_marshal_bytes.
  destruct (_ =? _); rewrite <-!app_assoc; done.
Qed.

Lemma to_be_bytes_8 x : exists a b c d e f g h, to_be_bytes 8 x = [a; b; c; d; e; f; g; h].
Proof. cbn. by repeat eexists. Qed.

Lemma parse_ids_app ids : forall acc, Forall (is_u 64) ids -> parse_ids_loop acc (ids_bytes ids) = acc ++ ids.
Proof.
  induction ids as [|x ids IH]; intros acc Hu; [by rewrite app_nil_r|]. inversion Hu as [|? ? Hx Hu']; subst.
  unfold ids_bytes. cbn [map concat]. fold (ids_bytes ids). destruct (to_be_bytes_8 x) as (a & b & c & d & e & f & g & h & E). rewrite E.
  cbn [app parse_ids_loop]. rewrite <-E, from_to_be_bytes by done. rewrite IH by done. by rewrite <-app_assoc.
Qed.

Lemma common_prefix_cons c l : unmarshal_common_prefix (c :: l) = Ok (l, c).
Proof. done. Qed.

Lemma init_tail_ids p ids :
  ids <> [] -> init_only_tail p (ids_bytes ids) = Ok (mkParser (ns_prefix p) (rp_date p) (metric_ids p) false (rp_tag p) (ids_bytes ids)).
Proof.
  intros Hs. unfold init_only_tail. rewrite length_ids_bytes. destruct ids as [|x ids]; [done|].
  pass_guard ltac:(apply Nat.eqb_neq; cbn [length]; lia).
  pass_guard ltac:(apply negb_false_iff, Nat.eqb_eq; rewrite Nat.mul_comm; apply Nat.Div0.mod_mul). done.
Qed.

(** The parser on a row. *)
Lemma parser_init_row p r :
  row_ok r -> parser_init p (row_bytes r) (r_ns r) =
    Ok (mkParser (r_ns r) (if r_ns r =? NS_PREFIX_DATE_TAG_TO_METRIC_IDS then r_date r else rp_date p) (metric_ids p) false
          (r_tag r) (ids_bytes (r_ids r))).
Proof.
  intros H. unfold parser_init, row_bytes, prefix_bytes. cbn [app]. rewrite common_prefix_cons. cbn [map_err]. rewrite bind_Ok.
  pass_guard ltac:(by rewrite Z.eqb_refl). destruct (r_ns r =? NS_PREFIX_DATE_TAG_TO_METRIC_IDS).
  - rewrite <-app_assoc. rewrite (guard_false (_ <? 8)%nat) by (rewrite length_app, length_to_be_bytes; apply Nat.ltb_ge; lia).
    rewrite bind_Ok, field_u64 by apply H. rewrite bind_Ok, tag_unmarshal_app. cbn [map_err]. rewrite bind_Ok. by apply init_tail_ids, H.
  - rewrite bind_Ok. cbn [app]. rewrite tag_unmarshal_app. cbn [map_err]. rewrite bind_Ok. by apply init_tail_ids, H.
Qed.

Lemma head_row r : head (row_bytes r) = Some (r_ns r).
Proof. done. Qed.

(** A row is determined by its bytes. *)
Lemma row_bytes_inj r1 r2 : row_ok r1 -> row_ok r2 -> row_bytes r1 = row_bytes r2 -> r1 = r2.
Proof.
  intros H1 H2 E. pose proof (parser_init_row parser_default r1 H1) as P1. pose proof (parser_init_row parser_default r2 H2) as P2.
  assert (Hns : r_ns r1 = r_ns r2) by (apply (f_equal head) in E; rewrite !head_row in E; congruence).
  rewrite E, Hns, P2 in P1. injection P1 as Hd Ht Hi.
  assert (Hids : r_ids r2 = r_ids r1).
  { pose proof (parse_ids_app (r_ids r1) [] (ok_ids _ H1)) as Q1. pose proof (parse_ids_app (r_ids r2) [] (ok_ids _ H2)) as Q2.
    rewrite Hi, Q1 in Q2. symmetry. exact Q2. }
  assert (Hdate : r_date r2 = r_date r1).
  { destruct (Z.eqb_spec (r_ns r2) NS_PREFIX_DATE_TAG_TO_METRIC_IDS) as [|Hn]; [done|].
    assert (r_ns r2 = NS_PREFIX_TAG_TO_METRIC_IDS) by (destruct (ok_ns _ H2); done).
    by rewrite (ok_global _ H1), (ok_global _ H2) by congruence. }
  destruct r1, r2. cbn in *. congruence.
Qed.

(** ** Postings *)

(** A posting: the namespace, date and tag of a row, and a metric ID. *)
Definition posting : Type := (Z * Z * Tag) * Z.

Definition row_prefix (r : index_row) : Z * Z * Tag := (r_ns r, r_date r, r_tag r).

Definition posting_in (xs : list (list Z)) (p : posting) : Prop :=
  exists r, row_ok r /\ In (row_bytes r) xs /\ row_prefix r = p.1 /\ In p.2 (r_ids r).

(** An item that the callback can read: a row of a tag namespace is well
    formed, other items are arbitrary. *)
Definition good_item (x : list Z) : Prop :=
  (exists ns, head x = Some ns /\ tag_ns ns) -> exists r, row_ok r /\ x = row_bytes r.

(** The items the callback does not touch. *)
Definition plain_item (x : list Z) : Prop :=
  head x <> Some NS_PREFIX_TAG_TO_METRIC_IDS /\ head x <> Some NS_PREFIX_DATE_TAG_TO_METRIC_IDS.

Global Instance plain_item_dec x : Decision (plain_item x).
Proof. unfold plain_item. apply _. Defined.

Lemma row_not_plain r : row_ok r -> ~ plain_item (row_bytes r).
Proof. intros H [H1 H2]. rewrite head_row in *. destruct (ok_ns _ H) as [E|E]; rewrite E in *; done. Qed.

Lemma posting_in_app xs ys p : posting_in (xs ++ ys) p <-> posting_in xs p \/ posting_in ys p.
Proof.
  unfold posting_in. setoid_rewrite in_app_iff. split; [|naive_solver]. intros (r & H1 & [H2|H2] & H3); [left|right]; by exists r.
Qed.

Lemma posting_in_row r p : row_ok r -> posting_in [row_bytes r] p <-> row_prefix r = p.1 /\ In p.2 (r_ids r).
Proof.
  intros H. split.
  - intros (r' & H' & [E|[]] & Hp). by rewrite (row_bytes_inj r r').
  - intros Hp. exists r. split; [done|]. split; [by left|done].
Qed.

(** [ys] holds what [xs] holds, in no more rows and bytes. *)
Record shrinks (xs ys : list (list Z)) : Prop := {
  sh_good : Forall good_item xs -> Forall good_item ys;
  sh_bytes : Forall bytes xs -> Forall bytes ys;
  sh_postings : forall p, posting_in ys p <-> posting_in xs p;
  sh_plain : filter plain_item ys = filter plain_item xs;
  sh_total : (total ys <= total xs)%nat;
  sh_length : (length ys <= length xs)%nat;
}.

Lemma shrinks_refl xs : shrinks xs xs.
Proof. by split. Qed.

Lemma shrinks_trans xs ys zs : shrinks xs ys -> shrinks ys zs -> shrinks xs zs.
Proof.
  intros [] []. split; [auto|auto| |congruence|lia|lia]. intros p. etransitivity; eauto.
Qed.

Lemma shrinks_app xs1 ys1 xs2 ys2 : shrinks xs1 ys1 -> shrinks xs2 ys2 -> shrinks (xs1 ++ xs2) (ys1 ++ ys2).
Proof.
  intros [] []. split.
  - rewrite !Forall_app. naive_solver.
  - rewrite !Forall_app. naive_solver.
  - intros p. rewrite !posting_in_app. naive_solver.
  - rewrite !filter_app. congruence.
  - rewrite !concat_app, !length_app. lia.
  - rewrite !length_app. lia.
Qed.

Lemma good_row r : row_ok r -> good_item (row_bytes r).
Proof. intros H _. by exists r. Qed.

Lemma escape_bytes src : bytes src -> bytes (escape src).
Proof.
  unfold escape. induction 1 as [|c l Hc Hl IH]; [constructor|]. cbn. apply bytes_app. split; [|done].
  unfold escape_char, ESCAPE_CHAR. repeat destruct (_ =? _); repeat (apply Forall_cons; split; [done || (unfold is_u; lia)|]); by apply Forall_nil.
Qed.

Lemma tag_bytes_bytes t : bytes (t_key t) -> bytes (t_value t) -> bytes (tag_bytes t).
Proof.
  intros Hk Hv. unfold tag_bytes. apply bytes_app. split; [by apply escape_bytes|]. constructor; [done|]. apply bytes_app.
  split; [by apply escape_bytes|by repeat constructor].
Qed.

Lemma ids_bytes_bytes ids : bytes (ids_bytes ids).
Proof. unfold ids_bytes. induction ids as [|x ids IH]; [constructor|]. cbn [map concat]. apply bytes_app. split; [apply bytes_to_be_bytes|done]. Qed.

Lemma prefix_bytes_bytes r : row_ok r -> bytes (prefix_bytes (r_ns r) (r_date r) (r_tag r)).
Proof.
  intros H. unfold prefix_bytes. constructor; [destruct (ok_ns _ H) as [E|E]; by rewrite E|]. apply bytes_app.
  split; [destruct (_ =? _); [apply bytes_to_be_bytes|constructor]|]. apply tag_bytes_bytes; apply H.
Qed.

Lemma row_bytes_bytes r : row_ok r -> bytes (row_bytes r).
Proof. intros H. apply bytes_app. split; [by apply prefix_bytes_bytes|apply ids_bytes_bytes]. Qed.

Lemma no_plain l : (forall x, In x l -> ~ plain_item x) -> filter plain_item l = [].
Proof.
  induction l as [|x l IH]; intros H; [done|]. rewrite filter_cons_False by (apply H; by left). apply IH. intros y Hy. apply H. by right.
Qed.

(** Rows of one prefix are replaced by a row with the same IDs. *)
Lemma shrinks_rows rs r :
  rs <> [] -> Forall row_ok rs -> row_ok r -> Forall (fun r' => row_prefix r' = row_prefix r) rs ->
  (forall id, In id (r_ids r) <-> exists r', In r' rs /\ In id (r_ids r')) ->
  (length (r_ids r) <= length (concat (map r_ids rs)))%nat ->
  shrinks (map row_bytes rs) [row_bytes r].
Proof.
  intros Hne Hok Hr Hpre Hids Hlen. rewrite Forall_In in Hok, Hpre. split.
  - intros _. constructor; [by apply good_row|constructor].
  - intros _. constructor; [by apply row_bytes_bytes|constructor].
  - intros p. rewrite posting_in_row by done. split.
    + intros [Hp (r' & Hin & Hid)%Hids]. exists r'. split_and!; [by apply Hok|by apply in_map|by rewrite Hpre|done].
    + intros (r' & Hok' & (r2 & E & Hin)%in_map_iff & Hp & Hid). apply row_bytes_inj in E; [|by apply Hok|done]. subst r2.
      rewrite <-(Hpre r' Hin). split; [done|]. apply Hids. by exists r'.
  - rewrite !no_plain; [done| |].
    + intros x (r2 & <- & Hin)%in_map_iff. by apply row_not_plain, Hok.
    + intros x [<-|[]]. by apply row_not_plain.
  - cbn [concat]. rewrite app_nil_r. unfold row_bytes at 1. rewrite length_app, length_ids_bytes.
    assert (Hp : forall r', In r' rs -> length (prefix_bytes (r_ns r) (r_date r) (r_tag r)) = length (prefix_bytes (r_ns r') (r_date r') (r_tag r'))).
    { intros r' Hin. specialize (Hpre r' Hin). unfold row_prefix in Hpre. by injection Hpre as -> -> ->. }
    destruct rs as [|r1 rs]; [done|]. rewrite (Hp r1) by (by left). cbn [map concat] in *. rewrite !length_app in *. unfold row_bytes at 1.
    rewrite length_app, length_ids_bytes. enough (8 * length (concat (map r_ids rs)) <= length (concat (map row_bytes rs)))%nat by lia.
    clear. induction rs as [|r rs IH]; [done|]. cbn [map concat]. rewrite !length_app. unfold row_bytes at 1. rewrite length_app, length_ids_bytes. lia.
  - destruct rs; [done|cbn; lia].
Qed.

(** ** The loop *)

Lemma dedup_ids_cons a b l : dedup_ids (a :: b :: l) = if a =? b then dedup_ids (b :: l) else a :: dedup_ids (b :: l).
Proof. done. Qed.

Lemma dedup_ids_In l x : In x (dedup_ids l) <-> In x l.
Proof.
  induction l as [|a [|b l] IH]; [done|done|]. rewrite dedup_ids_cons. destruct (Z.eqb_spec a b) as [->|Hne].
  - rewrite IH. cbn. tauto.
  - cbn [In] in *. rewrite IH. tauto.
Qed.

Lemma dedup_ids_length l : (length (dedup_ids l) <= length l)%nat.
Proof. induction l as [|a [|b l] IH]; [done|done|]. rewrite dedup_ids_cons. destruct (a =? b); cbn [length] in *; lia. Qed.

(** The IDs of a flushed row. *)
Definition flushed_ids (ids : list Z) : list Z := remove_duplicate_metric_ids (sort_by_key id ids).

Lemma flushed_ids_In ids x : In x (flushed_ids ids) <-> In x ids.
Proof.
  unfold flushed_ids, remove_duplicate_metric_ids.
  assert (Hp : In x (sort_by_key id ids) <-> In x ids) by (rewrite <-!list_elem_of_In; by rewrite sort_by_key_perm).
  destruct (_ <? _)%nat; [done|]. by rewrite dedup_ids_In.
Qed.

Lemma flushed_ids_length ids : (length (flushed_ids ids) <= length ids)%nat.
Proof.
  unfold flushed_ids, remove_duplicate_metric_ids. pose proof (Permutation_length (sort_by_key_perm id ids)) as Hl.
  destruct (_ <? _)%nat; [lia|]. pose proof (dedup_ids_length (sort_by_key id ids)). lia.
Qed.

(** The row that the pending IDs stand for. *)
Definition pending_row (st : rows_state) : index_row :=
  mkRow (ns_prefix (mp_prev st)) (rp_date (mp_prev st)) (rp_tag (mp_prev st)) (pending_metric_ids st).

Definition pending_rows (st : rows_state) : list (list Z) :=
  match pending_metric_ids st with [] => [] | _ => [row_bytes (pending_row st)] end.

(** After the items [seen] the rows [ys] have been written and some IDs may be
    pending. *)
Record rows_inv (ns : Z) (seen : list (list Z)) (st : rows_state) (ys : list (list Z)) : Prop := {
  ri_data : dst_data st = concat ys;
  ri_items : dst_items st = layout 0 ys;
  ri_shrinks : shrinks seen (ys ++ pending_rows st);
  ri_pending : pending_metric_ids st <> [] -> row_ok (pending_row st) /\ ns_prefix (mp_prev st) = ns;
  ri_date : ns = NS_PREFIX_TAG_TO_METRIC_IDS -> rp_date (mp st) = 0 /\ rp_date (mp_prev st) = 0;
  ri_head : head ys = head seen;
  ri_size : Z.of_nat (total seen) <= MAX_INMEMORY_BLOCK_SIZE;
}.

Lemma append_layout (ys : list (list Z)) y :
  Z.of_nat (total (ys ++ [y])) < 2 ^ 32 ->
  layout 0 ys ++ [mkItem (as_u32 (Z.of_nat (length (concat ys)))) (as_u32 (Z.of_nat (length (concat ys ++ y))))] = layout 0 (ys ++ [y]).
Proof.
  intros Hb. rewrite total_snoc in Hb. rewrite layout_app. cbn [layout]. rewrite length_app, !wrap_u_id by (unfold is_u; lia).
  do 3 f_equal; lia.
Qed.

Lemma flush_pending_ok ns seen st ys :
  rows_inv ns seen st ys ->
  exists ys', rows_inv ns seen (flush_pending st) ys' /\ pending_metric_ids (flush_pending st) = [] /\
    mp (flush_pending st) = mp st /\ mp_prev (flush_pending st) = mp_prev st.
Proof.
  intros H. unfold flush_pending. destruct (pending_metric_ids st) as [|id0 ids0] eqn:E; [by exists ys|]. rewrite <-E in *.
  destruct (ri_pending _ _ _ _ H) as [Hok Hns]; [by rewrite E|].
  set (r' := mkRow (ns_prefix (mp_prev st)) (rp_date (mp_prev st)) (rp_tag (mp_prev st)) (flushed_ids (pending_metric_ids st))).
  assert (Hok' : row_ok r').
  { split; try apply Hok; cbn [r' r_ids].
    - intros Hn. assert (Hin : In id0 (flushed_ids (pending_metric_ids st))) by (apply flushed_ids_In; rewrite E; by left). by rewrite Hn in Hin.
    - pose proof (ok_ids _ Hok) as Hu. rewrite Forall_In in Hu. apply Forall_In. intros x Hx. exact (Hu x (proj1 (flushed_ids_In _ x) Hx)). }
  assert (Hpr : pending_rows st = [row_bytes (pending_row st)]) by (unfold pending_rows; by rewrite E).
  assert (Hsh : shrinks [row_bytes (pending_row st)] [row_bytes r']).
  { apply (shrinks_rows [pending_row st] r'); [done|by apply Forall_singleton|done|by apply Forall_singleton| |].
    - intros x. cbn [r_ids r']. rewrite flushed_ids_In. split; [intros Hx; exists (pending_row st); split; [by left|done]|].
      by intros (? & [<-|[]] & Hx).
    - cbn. rewrite app_nil_r. apply flushed_ids_length. }
  exists (ys ++ [row_bytes r']).
  assert (Hsh2 : shrinks seen (ys ++ [row_bytes r'])).
  { eapply shrinks_trans; [apply H|]. rewrite Hpr. apply shrinks_app; [apply shrinks_refl|done]. }
  assert (Hdata : foldl marshal_uint64 (marshal_prefix (mp_prev st) (dst_data st)) (flushed_ids (pending_metric_ids st)) = concat ys ++ row_bytes r').
  { rewrite foldl_ids, marshal_prefix_bytes, (ri_data _ _ _ _ H), <-app_assoc. done. }
  fold (flushed_ids (pending_metric_ids st)). split_and!; [|done|done|done]. split; cbn [dst_data dst_items mp mp_prev pending_metric_ids].
  - rewrite Hdata, concat_app. cbn. by rewrite app_nil_r.
  - rewrite Hdata, (ri_items _ _ _ _ H), (ri_data _ _ _ _ H). apply append_layout.
    pose proof (sh_total _ _ Hsh2). pose proof (ri_size _ _ _ _ H). unfold MAX_INMEMORY_BLOCK_SIZE in *. lia.
  - unfold pending_rows. cbn. rewrite app_nil_r. done.
  - done.
  - apply H.
  - rewrite <-(ri_head _ _ _ _ H). destruct ys; [|done].
    pose proof (ri_head _ _ _ _ H) as Hh. pose proof (ri_shrinks _ _ _ _ H) as Hs. destruct seen as [|x seen]; [|done].
    pose proof (sh_length _ _ Hs) as Hl. rewrite Hpr in Hl. cbn in Hl. lia.
  - apply H.
Qed.

Lemma push_item_ok ns seen st ys x :
  rows_inv ns seen st ys -> pending_metric_ids st = [] -> Z.of_nat (total (seen ++ [x])) <= MAX_INMEMORY_BLOCK_SIZE ->
  rows_inv ns (seen ++ [x]) (push_item st x) (ys ++ [x]) /\ pending_metric_ids (push_item st x) = [].
Proof.
  intros H Hp Hsize. assert (Hsh : shrinks (seen ++ [x]) (ys ++ [x])).
  { apply shrinks_app; [|apply shrinks_refl]. pose proof (ri_shrinks _ _ _ _ H) as Hs. unfold pending_rows in Hs. by rewrite Hp, app_nil_r in Hs. }
  split; [|done]. split; cbn [push_item dst_data dst_items pending_metric_ids mp mp_prev].
  - rewrite (ri_data _ _ _ _ H), concat_app. cbn. by rewrite app_nil_r.
  - rewrite (ri_data _ _ _ _ H), (ri_items _ _ _ _ H). apply append_layout.
    pose proof (sh_total _ _ Hsh). unfold MAX_INMEMORY_BLOCK_SIZE in *. lia.
  - unfold pending_rows. cbn. by rewrite Hp, app_nil_r.
  - by rewrite Hp.
  - apply H.
  - pose proof (ri_head _ _ _ _ H). by destruct ys, seen.
  - done.
Qed.

(** A row is written as it is, after the pending IDs. *)
Lemma flush_push_ok ns seen st ys x :
  rows_inv ns seen st ys -> Z.of_nat (total (seen ++ [x])) <= MAX_INMEMORY_BLOCK_SIZE ->
  exists ys', rows_inv ns (seen ++ [x]) (push_item (flush_pending st) x) (ys' ++ [x]) /\
    pending_metric_ids (push_item (flush_pending st) x) = [].
Proof.
  intros H Hsize. destruct (flush_pending_ok _ _ _ _ H) as (ys' & H' & Hp & _). exists ys'. by apply push_item_ok.
Qed.

(** The IDs of a row become pending. *)
Lemma add_row_ok ns seen st ys r p q :
  rows_inv ns seen st ys -> row_ok r -> r_ns r = ns -> seen <> [] ->
  (pending_metric_ids st = [] \/ row_prefix (pending_row st) = row_prefix r) ->
  (ns_prefix p, rp_date p, rp_tag p) = row_prefix r -> (ns = NS_PREFIX_TAG_TO_METRIC_IDS -> rp_date q = 0) ->
  Z.of_nat (total (seen ++ [row_bytes r])) <= MAX_INMEMORY_BLOCK_SIZE ->
  rows_inv ns (seen ++ [row_bytes r]) (mkRows (dst_data st) (dst_items st) (pending_metric_ids st ++ r_ids r) q p) ys.
Proof.
  intros H Hok Hns Hdone Hpre Hp Hq Hsize. set (st' := mkRows _ _ _ _ _).
  assert (Hrow : pending_row st' = mkRow (r_ns r) (r_date r) (r_tag r) (pending_metric_ids st ++ r_ids r)).
  { unfold pending_row, row_prefix in *. cbn. by injection Hp as -> -> ->. }
  assert (Hpu : Forall (is_u 64) (pending_metric_ids st)).
  { destruct (pending_metric_ids st) as [|z l] eqn:E; [constructor|]. destruct (ri_pending _ _ _ _ H) as [Hok' _]; [by rewrite E|].
    pose proof (ok_ids _ Hok') as Hu. cbn in Hu. by rewrite E in Hu. }
  pose proof (ok_some _ Hok) as Hsome.
  assert (Hok2 : row_ok (pending_row st')).
  { rewrite Hrow. split; try apply Hok; cbn [r_ids].
    - intros [_ E]%app_eq_nil. done.
    - apply Forall_app. split; [done|apply Hok]. }
  assert (Hrows : pending_rows st' = [row_bytes (pending_row st')]).
  { unfold pending_rows, st'. cbn [pending_metric_ids]. destruct (pending_metric_ids st ++ r_ids r) eqn:E; [|done]. by apply app_eq_nil in E as [_ E]. }
  split; cbn [st' dst_data dst_items pending_metric_ids mp mp_prev].
  - apply H.
  - apply H.
  - fold st'. rewrite Hrows. pose proof (ri_shrinks _ _ _ _ H) as Hs. destruct (pending_metric_ids st) as [|z l] eqn:E.
    + unfold pending_rows in Hs. rewrite E, app_nil_r in Hs. apply shrinks_app; [done|].
      replace (pending_row st') with r by (rewrite Hrow; by destruct r). apply shrinks_refl.
    + destruct Hpre as [Hpre|Hpre]; [done|]. destruct (ri_pending _ _ _ _ H) as [Hok' _]; [by rewrite E|].
      eapply shrinks_trans; [apply shrinks_app; [done|apply shrinks_refl]|]. unfold pending_rows. rewrite E, <-app_assoc. cbn [app].
      apply shrinks_app; [apply shrinks_refl|]. apply (shrinks_rows [pending_row st; r] (pending_row st')); [done|by apply Forall_cons, conj, Forall_singleton|done| | |].
      * assert (Hr : row_prefix (pending_row st') = row_prefix r) by (rewrite Hrow; done). repeat apply Forall_cons, conj; [congruence|done|by apply Forall_nil].
      * intros x. rewrite Hrow. cbn [r_ids pending_row]. rewrite in_app_iff, ?E. split.
        -- intros [Hx|Hx]; [exists (pending_row st)|exists r]; cbn; rewrite ?E; auto.
        -- intros (r' & [<-|[<-|[]]] & Hx); [left|by right]. cbn in Hx. by rewrite ?E in Hx.
      * rewrite Hrow. cbn [map concat r_ids pending_row]. rewrite ?E, app_nil_r. lia.
  - intros _. split; [done|]. unfold row_prefix in Hp. injection Hp as -> _ _. done.
  - intros Hn. split; [by apply Hq|]. unfold row_prefix in Hp. injection Hp as _ -> _. apply (ok_global _ Hok). congruence.
  - rewrite (ri_head _ _ _ _ H). by destruct seen.
  - done.
Qed.

Lemma rows_inv_mp ns seen st ys p :
  rows_inv ns seen st ys -> (ns = NS_PREFIX_TAG_TO_METRIC_IDS -> rp_date p = 0) ->
  rows_inv ns seen (mkRows (dst_data st) (dst_items st) (pending_metric_ids st) p (mp_prev st)) ys.
Proof.
  intros H Hp. pose proof (ri_pending _ _ _ _ H). split; try apply H; try done. intros Hn. split; [by apply Hp|by apply (ri_date _ _ _ _ H)].
Qed.

Lemma equal_prefix_spec p q : equal_prefix p q = true -> (ns_prefix p, rp_date p, rp_tag p) = (ns_prefix q, rp_date q, rp_tag q).
Proof.
  unfold equal_prefix. intros [[H1%bool_decide_eq_true H2%Z.eqb_eq]%andb_prop H3%Z.eqb_eq]%andb_prop. congruence.
Qed.

Definition item_is (data : list Z) (it : Item) (x : list Z) : Prop := forall E, item_bytes (E := E) it data = Ok x.

(** One round: an item that is not a row of the namespace, or the first or the
    last one, is written as it is. *)
Lemma merge_row_as_is {E} data ns n i it st seen ys x :
  rows_inv ns seen st ys -> item_is data it x -> (head x <> Some ns \/ i = 0%nat \/ i = (n - 1)%nat) ->
  Z.of_nat (total (seen ++ [x])) <= MAX_INMEMORY_BLOCK_SIZE ->
  exists st' ys', merge_row (E := E) data ns n i it st = Ok st' /\ rows_inv ns (seen ++ [x]) st' (ys' ++ [x]) /\ pending_metric_ids st' = [].
Proof.
  intros H Hit Hcase Hsize. unfold merge_row. rewrite (Hit E), bind_Ok.
  assert (Hc : match x with [] => true | c :: _ => negb (c =? ns) end || Nat.eqb i 0 || Nat.eqb i (n - 1) = true).
  { destruct Hcase as [Hx|[->| ->]]; [|by rewrite orb_true_r|by rewrite Nat.eqb_refl, orb_true_r]. destruct x as [|c x]; [done|].
    destruct (Z.eqb_spec c ns); [by subst|done]. }
  rewrite Hc. destruct (flush_push_ok ns seen st ys x H Hsize) as (ys' & H' & Hp). by exists (push_item (flush_pending st) x), ys'.
Qed.

Lemma merge_row_ok {E} data ns n i it st seen ys x :
  tag_ns ns -> rows_inv ns seen st ys -> seen <> [] -> item_is data it x -> good_item x ->
  Z.of_nat (total (seen ++ [x])) <= MAX_INMEMORY_BLOCK_SIZE ->
  exists st' ys', merge_row (E := E) data ns n i it st = Ok st' /\ rows_inv ns (seen ++ [x]) st' ys'.
Proof.
  intros Hns H Hdone Hit Hgood Hsize.
  destruct (decide (head x <> Some ns \/ i = 0%nat \/ i = (n - 1)%nat)) as [Hcase|Hcase].
  { destruct (merge_row_as_is (E := E) data ns n i it st seen ys x H Hit Hcase Hsize) as (st' & ys' & Hm & H' & _). eauto. }
  assert (Hx : head x = Some ns) by (destruct (decide (head x = Some ns)); [done|tauto]).
  assert (Hi : i <> 0%nat /\ i <> (n - 1)%nat) by tauto. destruct Hi as [Hi0 Hin].
  destruct Hgood as (r & Hok & ->); [by exists ns|]. rewrite head_row in Hx. injection Hx as Hrns.
  unfold merge_row. rewrite (Hit E), bind_Ok. subst ns.
  assert (Hc : match row_bytes r with [] => true | c :: _ => negb (c =? r_ns r) end || Nat.eqb i 0 || Nat.eqb i (n - 1) = false).
  { unfold row_bytes, prefix_bytes. cbn [app]. rewrite Z.eqb_refl. cbn. by rewrite (proj2 (Nat.eqb_neq _ _) Hi0), (proj2 (Nat.eqb_neq _ _) Hin). }
  rewrite Hc, parser_init_row by done.
  assert (Hdate : (if r_ns r =? NS_PREFIX_DATE_TAG_TO_METRIC_IDS then r_date r else rp_date (mp st)) = r_date r).
  { destruct (Z.eqb_spec (r_ns r) NS_PREFIX_DATE_TAG_TO_METRIC_IDS) as [|Hne]; [done|].
    assert (Hg : r_ns r = NS_PREFIX_TAG_TO_METRIC_IDS) by (destruct (ok_ns _ Hok); done).
    rewrite (ok_global _ Hok Hg). apply (ri_date _ _ _ _ H). congruence. }
  rewrite Hdate. set (p := mkParser (r_ns r) (r_date r) (metric_ids (mp st)) false (r_tag r) (ids_bytes (r_ids r))).
  assert (H1 : rows_inv (r_ns r) seen (mkRows (dst_data st) (dst_items st) (pending_metric_ids st) p (mp_prev st)) ys).
  { apply rows_inv_mp; [done|]. intros Hn. cbn. apply (ok_global _ Hok). congruence. }
  cbn [dst_data dst_items pending_metric_ids mp mp_prev]. destruct (_ <=? _)%nat.
  { destruct (flush_push_ok (r_ns r) seen _ ys (row_bytes r) H1 Hsize) as (ys' & H' & _). eauto. }
  set (st1 := if negb (equal_prefix p (mp_prev st)) then _ else _).
  assert (Hst1 : exists ys1, rows_inv (r_ns r) seen st1 ys1 /\ (pending_metric_ids st1 = [] \/ row_prefix (pending_row st1) = row_prefix r) /\
    mp st1 = p /\ (r_ns r = NS_PREFIX_TAG_TO_METRIC_IDS -> rp_date (mp_prev st1) = 0)).
  { subst st1. destruct (equal_prefix p (mp_prev st)) eqn:Heq; cbn [negb].
    - exists ys. split_and!; [done| |done|by apply H1]. right. apply equal_prefix_spec in Heq. symmetry. exact Heq.
    - destruct (flush_pending_ok _ _ _ _ H1) as (ys1 & H1' & Hp & Hmp & Hmpp). exists ys1. split_and!; [done|by left|done|by apply H1']. }
  clearbody st1. destruct Hst1 as (ys1 & H2 & Hpre & Hmp & Hmpp). rewrite Hmp.
  assert (Hids : metric_ids (parse_metric_ids p) = r_ids r) by (cbn; rewrite parse_ids_app by apply Hok; done). rewrite Hids.
  pose proof (add_row_ok (r_ns r) seen st1 ys1 r (parse_metric_ids p) (mp_prev st1) H2 Hok eq_refl Hdone Hpre eq_refl Hmpp Hsize) as H3.
  destruct (_ <=? _)%nat; [|by eauto]. destruct (flush_pending_ok _ _ _ _ H3) as (ys2 & H3' & _). eauto.
Qed.

(** The loop from the second item on; the last item leaves nothing pending. *)
Lemma merge_rows_loop_ok {E} data ns n items rest : forall i st seen ys,
  tag_ns ns -> Forall2 (item_is data) items rest -> rows_inv ns seen st ys -> seen <> [] -> Forall good_item rest ->
  Z.of_nat (total (seen ++ rest)) <= MAX_INMEMORY_BLOCK_SIZE -> (i + length rest = n)%nat -> rest <> [] ->
  exists st' ys' x, merge_rows_loop (E := E) data ns n i items st = Ok st' /\ rows_inv ns (seen ++ rest) st' (ys' ++ [x]) /\
    pending_metric_ids st' = [] /\ last rest = Some x.
Proof.
  revert items. induction rest as [|x rest IH]; intros items i st seen ys Hns Hit H Hdone Hgood Hsize Hn Hne; [done|].
  inversion Hit as [|it ? items' ? Hx Hit']; subst items; simplify_eq. inversion Hgood as [|? ? Hgx Hgr]; subst. cbn [merge_rows_loop].
  assert (Hsx : Z.of_nat (total (seen ++ [x])) <= MAX_INMEMORY_BLOCK_SIZE).
  { rewrite concat_app, length_app in Hsize. cbn in Hsize. rewrite length_app in Hsize. rewrite total_snoc. lia. }
  destruct rest as [|y rest].
  - destruct (merge_row_as_is (E := E) data ns (i + length [x]) i it st seen ys x H Hx) as (st' & ys' & -> & H' & Hp); [cbn; lia|done|].
    inversion Hit'; subst. rewrite bind_Ok. by exists st', ys', x.
  - destruct (merge_row_ok (E := E) data ns (i + length (x :: y :: rest)) i it st seen ys x Hns H Hdone Hx Hgx Hsx) as (st' & ys' & -> & H').
    rewrite bind_Ok. replace (seen ++ x :: y :: rest) with ((seen ++ [x]) ++ y :: rest) in Hsize |- * by (by rewrite <-app_assoc).
    apply (IH items' (S i) st' (seen ++ [x]) ys'); try done; [by destruct seen|cbn; lia].
Qed.

(** ** A pass over a block *)

Lemma items_are data items : Forall (wf_item data) items -> Forall2 (item_is data) items (map (item_of data) items).
Proof. induction 1 as [|it items Hit Hits IH]; constructor; [|done]. intros E. by apply item_bytes_ok. Qed.

Lemma layout_is xs : Z.of_nat (total xs) < 2 ^ 32 -> Forall2 (item_is (concat xs)) (layout 0 xs) xs.
Proof.
  intros Hb. destruct (pack_wf [] xs Hb) as [_ Hw]. pose proof (items_are _ _ Hw) as H. change (map _ _) with (block_items (pack [] xs)) in H.
  by rewrite pack_items in H.
Qed.

Lemma check_sorted_loop_chain {E} data items ys : Forall2 (item_is data) items ys -> forall prev,
  check_sorted_loop (E := E) data prev items = Ok (chain_b lex_leb (prev :: ys)).
Proof.
  induction 1 as [|it y items ys Hy Hys IH]; intros prev; [done|]. cbn [check_sorted_loop]. rewrite (Hy E), bind_Ok, lex_ltb_leb.
  change (chain_b lex_leb (prev :: y :: ys)) with (lex_leb prev y && chain_b lex_leb (y :: ys)). destruct (lex_leb prev y); [|done]. cbn [negb andb]. apply IH.
Qed.

Lemma check_items_chain {E} data items ys : Forall2 (item_is data) items ys -> check_items_sorted (E := E) data items = Ok (chain_b lex_leb ys).
Proof. intros [|it y items' ys' Hy Hys]; [done|]. cbn [check_items_sorted]. rewrite (Hy E), bind_Ok. by apply check_sorted_loop_chain. Qed.

Lemma chain_sorted_items ys : chain_b lex_leb ys = true <-> sorted_items ys.
Proof. rewrite <-Is_true_true. apply chain_b_sorted. intros x y z. apply lex_leb_trans. Qed.

(** What a pass makes of a block. *)
Record joined (xs ys : list (list Z)) : Prop := {
  jn_shrinks : shrinks xs ys;
  jn_sorted : sorted_items ys;
  jn_head : head ys = head xs;
  jn_last : last ys = last xs;
}.

Lemma joined_refl xs : sorted_items xs -> joined xs xs.
Proof. split; [apply shrinks_refl|done..]. Qed.

Lemma joined_trans xs ys zs : joined xs ys -> joined ys zs -> joined xs zs.
Proof. intros [] []. split; [by eapply shrinks_trans|done|congruence|congruence]. Qed.

Lemma joined_chunk xs ys : chunk_ok good_item xs -> joined xs ys -> chunk_ok good_item ys.
Proof.
  intros [Hst Hg] [Hsh Hs Hh Hl]. split; [|by apply Hsh]. split; [|apply Hsh, Hst| | |done].
  - intros ->. pose proof (sto_nonempty _ Hst). by destruct xs.
  - pose proof (sh_total _ _ Hsh). pose proof (sto_total _ Hst). lia.
  - pose proof (sh_length _ _ Hsh). pose proof (sto_count _ Hst). lia.
Qed.

Lemma start_inv ns : rows_inv ns [] (mkRows [] [] [] parser_default parser_default) [].
Proof. by split. Qed.

Lemma merge_block_rows {E} ns xs :
  tag_ns ns -> chunk_ok good_item xs -> (2 < length xs)%nat ->
  exists st ys, merge_rows_loop (E := E) (concat xs) ns (length xs) 0 (layout 0 xs) (mkRows [] [] [] parser_default parser_default) = Ok st /\
    dst_data st = concat ys /\ dst_items st = layout 0 ys /\ pending_metric_ids st = [] /\
    shrinks xs ys /\ head ys = head xs /\ last ys = last xs.
Proof.
  intros Hns [Hst Hg] Hlen. pose proof (sto_total _ Hst) as Hsize.
  assert (Hit : Forall2 (item_is (concat xs)) (layout 0 xs) xs) by (apply layout_is; unfold MAX_INMEMORY_BLOCK_SIZE in *; lia).
  generalize dependent (layout 0 xs). generalize (concat xs) at 1 2. intros data items Hit.
  destruct xs as [|x xs]; [cbn in Hlen; lia|]. inversion Hit as [|it ? items' ? Hx Hit']; subst. inversion Hg as [|? ? Hgx Hgs]; subst.
  destruct (merge_row_as_is (E := E) data ns (length (x :: xs)) 0 it _ [] [] x (start_inv ns) Hx) as (st & ys & Hm & Hinv & _); [by right; left| |].
  { cbn in Hsize |- *. rewrite app_nil_r. rewrite length_app in Hsize. lia. }
  cbn [merge_rows_loop]. rewrite Hm, bind_Ok.
  destruct (merge_rows_loop_ok (E := E) data ns (length (x :: xs)) items' xs 1 st [x] (ys ++ [x])) as (st' & ys' & z & Hrun & Hinv' & Hp & Hl); try done.
  { by destruct xs; [cbn in Hlen; lia|]. }
  exists st', (ys' ++ [z]). pose proof (ri_shrinks _ _ _ _ Hinv') as Hs. unfold pending_rows in Hs. rewrite Hp, app_nil_r in Hs.
  split_and!; [done|apply Hinv'|apply Hinv'|done|done|apply Hinv'|]. rewrite last_snoc, <-Hl. by destruct xs; [cbn in Hlen; lia|].
Qed.

(** A pass over a sorted block of good items joins rows, or leaves the block as
    it is; it never panics. *)
Lemma merge_pass_ok {E} rc ns xs :
  tag_ns ns -> chunk_ok good_item xs ->
  exists ys rc', merge_tag_to_metric_ids_rows_internal (E := E) rc (concat xs) (layout 0 xs) ns = Ok (concat ys, layout 0 ys, rc') /\ joined xs ys.
Proof.
  intros Hns Hck. pose proof (ck_storable _ _ Hck) as Hst. pose proof (joined_refl xs (sto_sorted _ Hst)) as Hsame. unfold merge_tag_to_metric_ids_rows_internal.
  rewrite length_layout. destruct (length xs <=? 2)%nat eqn:Hlen; [by exists xs, rc|]. apply Nat.leb_gt in Hlen.
  assert (Hw : wf_ib (pack [] xs)) by (apply pack_wf; pose proof (sto_total _ Hst); unfold MAX_INMEMORY_BLOCK_SIZE in *; lia).
  destruct (nonempty_ends _ (sto_nonempty _ Hst)) as [Hh Hl].
  destruct (block_ends (pack [] xs) (default [] (head xs)) (default [] (last xs)) Hw) as (it0 & itn & H0 & Hn & Hb); [by rewrite pack_items..|].
  cbn [pack ib_items ib_data] in *. rewrite length_layout in Hn. destruct (Hb E) as [Hb0 Hbn]. unfold idx. rewrite H0, bind_Ok, Hb0, bind_Ok.
  destruct (match default [] (head xs) with [] => false | c :: _ => ns <? c end); [by exists xs, rc|]. rewrite Hn, bind_Ok, Hbn, bind_Ok.
  destruct (match default [] (last xs) with [] => false | c :: _ => c <? ns end); [by exists xs, rc|].
  destruct (merge_block_rows (E := E) ns xs Hns Hck Hlen) as (st & ys & Hrun & Hd & Hi & Hp & Hsh & Hhd & Hlt). rewrite Hrun, bind_Ok, Hp. cbn [length Nat.eqb assert_].
  assert (Htot : Z.of_nat (total ys) < 2 ^ 32).
  { pose proof (sh_total _ _ Hsh). pose proof (sto_total _ Hst). unfold MAX_INMEMORY_BLOCK_SIZE in *. lia. }
  rewrite bind_Ok, Hd, Hi, (check_items_chain _ _ ys (layout_is ys Htot)), bind_Ok. destruct (chain_b lex_leb ys) eqn:Hc; cbn [negb].
  - eexists ys, _. split; [done|]. split; [done|by apply chain_sorted_items|done|done].
  - rewrite (check_items_chain _ _ xs) by (apply layout_is; pose proof (sto_total _ Hst); unfold MAX_INMEMORY_BLOCK_SIZE in *; lia). rewrite bind_Ok.
    rewrite (proj2 (chain_sorted_items xs) (sto_sorted _ Hst)). cbn [assert_]. rewrite bind_Ok. eexists xs, _. done.
Qed.

Lemma callback_ok xs :
  chunk_ok good_item xs ->
  exists ys, merge_tag_to_metric_ids_rows_callback (concat xs) (layout 0 xs) = Ok (concat ys, layout 0 ys) /\ joined xs ys.
Proof.
  intros Hck. unfold merge_tag_to_metric_ids_rows_callback, merge_tag_to_metric_ids_rows.
  destruct (merge_pass_ok (E := out_of_fuel) (mkRowCounters 0 0) NS_PREFIX_TAG_TO_METRIC_IDS xs) as (ys & rc & -> & Hj); [by left|done|]. rewrite bind_Ok.
  pose proof (joined_chunk _ _ Hck Hj) as Hck'.
  destruct (merge_pass_ok (E := out_of_fuel) rc NS_PREFIX_DATE_TAG_TO_METRIC_IDS ys) as (zs & rc' & -> & Hj'); [by right|done|]. rewrite bind_Ok.
  exists zs. split; [done|]. by eapply joined_trans.
Qed.

(** ** Theorems *)

(** The rows after the callback. *)
Definition joined_rows (xs : list (list Z)) : list (list Z) :=
  match merge_tag_to_metric_ids_rows_callback (concat xs) (layout 0 xs) with
  | Ok (data, items) => map (item_of data) items
  | _ => []
  end.

Lemma joined_rows_ok xs :
  chunk_ok good_item xs ->
  merge_tag_to_metric_ids_rows_callback (concat xs) (layout 0 xs) = Ok (concat (joined_rows xs), layout 0 (joined_rows xs)) /\ joined xs (joined_rows xs).
Proof.
  intros Hck. destruct (callback_ok xs Hck) as (ys & Hcb & Hj). unfold joined_rows. rewrite Hcb.
  change (map _ _) with (block_items (pack [] ys)). by rewrite pack_items.
Qed.

Lemma joined_nonempty xs : chunk_ok good_item xs -> joined_rows xs <> [].
Proof. intros Hck. destruct (joined_rows_ok xs Hck) as [_ Hj]. apply (joined_chunk _ _ Hck Hj). Qed.

(** The callback meets the contract of the merge of item streams. *)
Lemma callback_prepares : prepares good_item (Some merge_tag_to_metric_ids_rows_callback) joined_rows.
Proof.
  intros xs Hck. destruct (joined_rows_ok xs Hck) as [Hcb Hj]. pose proof (joined_chunk _ _ Hck Hj) as [Hst _].
  exists (concat (joined_rows xs)), (layout 0 (joined_rows xs)). split_and!; [done| | | |].
  - apply (pack_wf [] (joined_rows xs)). pose proof (sto_total _ Hst). unfold MAX_INMEMORY_BLOCK_SIZE in *. lia.
  - change (map _ _) with (block_items (pack [] (joined_rows xs))). by rewrite pack_items.
  - by intros ->.
  - intros _. rewrite (jn_head _ _ Hj), (jn_last _ _ Hj), !lex_leb_refl. done.
Qed.

(** Joining the rows of a block keeps the index.  On a sorted block of good
    items the callback does not panic; the block it returns holds exactly the
    same postings (namespace, date, tag, metric ID), the same other items, and
    the same first and last item; it is sorted, its rows are well formed, and
    it has no more rows and bytes than before. *)
Theorem row_merge_keeps_postings (xs : list (list Z)) :
  chunk_ok good_item xs ->
  exists ys, merge_tag_to_metric_ids_rows_callback (concat xs) (layout 0 xs) = Ok (concat ys, layout 0 ys) /\
    (forall p, posting_in ys p <-> posting_in xs p) /\ filter plain_item ys = filter plain_item xs /\
    sorted_items ys /\ Forall good_item ys /\ head ys = head xs /\ last ys = last xs /\
    (length ys <= length xs)%nat /\ (total ys <= total xs)%nat.
Proof.
  intros Hck. destruct (callback_ok xs Hck) as (ys & Hcb & [Hsh Hs Hh Hl]). exists ys.
  split_and!; try done; apply Hsh. apply Hck.
Qed.

Definition example_tag : Tag := mkTag [106; 111; 98] [97].

Definition example_index_rows : list index_row :=
  [mkRow 1 0 example_tag [1; 5]; mkRow 1 0 example_tag [2; 3]; mkRow 6 9 example_tag [7]; mkRow 6 9 example_tag [8]].

Definition example_rows : list (list Z) := [0; 1] :: map row_bytes example_index_rows ++ [[7]].

Lemma small_row_ok ns date ids :
  tag_ns ns -> is_u 64 date -> (ns = NS_PREFIX_TAG_TO_METRIC_IDS -> date = 0) -> ids <> [] -> forallb (fun x => (0 <=? x) && (x <? 2 ^ 64)) ids = true ->
  row_ok (mkRow ns date example_tag ids).
Proof.
  intros Hns Hd Hg Hne Hu. split; cbn [r_ns r_date r_tag r_ids]; try done; [by repeat constructor..|]. apply Forall_In. intros x Hx.
  rewrite forallb_forall in Hu. apply Hu in Hx. apply andb_prop in Hx as [H1%Z.leb_le H2%Z.ltb_lt]. done.
Qed.

Lemma example_index_rows_ok : Forall row_ok example_index_rows.
Proof. repeat (apply Forall_cons; split; [apply small_row_ok; try done; by (left + right)|]). by apply Forall_nil. Qed.

Lemma example_rows_ok : chunk_ok good_item example_rows.
Proof.
  pose proof example_index_rows_ok as Hok. split; [split; [done| |by vm_compute|by vm_compute|apply chain_sorted_items; by vm_compute]|].
  - apply Forall_cons. split; [by repeat constructor|]. apply Forall_app. split; [|by repeat constructor].
    apply Forall_fmap. revert Hok. apply Forall_weaken. intros r. apply row_bytes_bytes.
  - apply Forall_cons. split; [intros (ns & [= <-] & [|]); done|]. apply Forall_app. split.
    + apply Forall_fmap. revert Hok. apply Forall_weaken. intros r. apply good_row.
    + apply Forall_singleton. intros (ns & [= <-] & [|]); done.
Qed.

Lemma row_merge_keeps_postings_witness :
  exists ys, merge_tag_to_metric_ids_rows_callback (concat example_rows) (layout 0 example_rows) = Ok (concat ys, layout 0 ys) /\
    (forall p, posting_in ys p <-> posting_in example_rows p) /\ filter plain_item ys = [[0; 1]; [7]].
Proof.
  destruct (row_merge_keeps_postings example_rows example_rows_ok) as (ys & H1 & H2 & H3 & _). exists ys. split_and!; [done|done|]. by rewrite H3.
Defined.

(** The chunks of a merge, joined one by one. *)
Lemma joined_chunks chunks :
  Forall (chunk_ok good_item) chunks -> shrinks (concat chunks) (concat (map joined_rows chunks)).
Proof.
  induction 1 as [|xs chunks Hx Hc IH]; [apply shrinks_refl|]. cbn [map concat]. apply shrinks_app; [|done].
  destruct (joined_rows_ok xs Hx) as [_ Hj]. apply Hj.
Qed.

Lemma posting_in_perm xs ys p : Permutation xs ys -> posting_in xs p <-> posting_in ys p.
Proof.
  intros Hp. unfold posting_in. split; intros (r & H1 & H2 & H3); exists r; (split; [done|]); (split; [|done]);
    (eapply Permutation_in; [|exact H2]); [done|by symmetry].
Qed.

(** C10: merging parts of the index loses no posting.  Parts of the merge set
    that hold well-formed index rows (and any other items) are opened, merged
    by the heap merge with the callback that joins rows, and written to a new
    part; the merge ends without error or panic, and reading the new part back
    passes every check and yields sorted items with exactly the postings and
    exactly the other items of the inputs, in no more rows. *)
Theorem index_parts_merge `{Zs : Zstd} {Zl : ZstdLaws Zs} (lvl lvl' : Z) (bss : list (list InmemoryBlock)) :
  bss <> [] -> Forall part_blocks bss ->
  let items := concat (concat (map (map block_items) bss)) in
  Forall good_item items -> Z.of_nat (length items) < 2 ^ 46 ->
  exists mps bsrs ph bufs r r' n out,
    map_res (part_of (E := out_of_fuel) lvl) bss = Ok mps /\
    map_res (from_inmemory_part (E := out_of_fuel)) mps = Ok bsrs /\
    merge_block_streams (length items + 1) (2 * length items + 1) (fun _ => false) (Some merge_tag_to_metric_ids_rows_callback)
      PartHeader_default (new_inmemory_part lvl') bsrs 0 = Ok (ph, Z.of_nat (length items), inl bufs) /\
    from_inmemory_part (E := out_of_fuel) (from_buffers ph bufs) = Ok r /\
    read_blocks (E := out_of_fuel) n r = Ok (out, r') /\ reader_error r' = None /\ sorted_items (concat out) /\
    (forall p, posting_in (concat out) p <-> posting_in items p) /\
    Permutation (filter plain_item (concat out)) (filter plain_item items) /\
    (length (concat out) <= length items)%nat.
Proof.
  intros Hne Hbs items Hgood Hcnt.
  destruct (merge_parts_run lvl lvl' good_item (Some merge_tag_to_metric_ids_rows_callback) joined_rows bss callback_prepares joined_nonempty Hne Hbs Hgood Hcnt)
    as (mps & bsrs & ph & bufs & r & r' & chunks & H1 & H2 & H3 & H4 & H5 & H6 & H7 & Hp & H9 & Hck).
  pose proof (joined_chunks chunks Hck) as Hsh.
  exists mps, bsrs, ph, bufs, r, r', (S (length chunks)), (map joined_rows chunks). split_and!; try done.
  - intros p. rewrite (sh_postings _ _ Hsh). by apply posting_in_perm.
  - rewrite (sh_plain _ _ Hsh). by rewrite Hp.
  - fold items in Hp. rewrite <-(Permutation_length Hp). apply Hsh.
Qed.

Definition example_index_parts : list (list InmemoryBlock) :=
  [[pack [] example_rows]; [pack [] [row_bytes (mkRow 1 0 example_tag [4]); row_bytes (mkRow 6 9 example_tag [7])]]].

Lemma index_parts_merge_witness :
  exists mps bsrs ph bufs r r' n out,
    map_res (part_of (Zs := stored_zstd) (E := out_of_fuel) 1) example_index_parts = Ok mps /\
    map_res (from_inmemory_part (Zs := stored_zstd) (E := out_of_fuel)) mps = Ok bsrs /\
    merge_block_streams (Zs := stored_zstd) 9 17 (fun _ => false) (Some merge_tag_to_metric_ids_rows_callback) PartHeader_default
      (new_inmemory_part 3) bsrs 0 = Ok (ph, 8, inl bufs) /\
    from_inmemory_part (Zs := stored_zstd) (E := out_of_fuel) (from_buffers ph bufs) = Ok r /\
    read_blocks (Zs := stored_zstd) (E := out_of_fuel) n r = Ok (out, r') /\ reader_error r' = None /\ sorted_items (concat out) /\
    (forall p, posting_in (concat out) p <-> posting_in (concat (concat (map (map block_items) example_index_parts))) p) /\
    Permutation (filter plain_item (concat out)) [[0; 1]; [7]] /\ (length (concat out) <= 8)%nat.
Proof.
  assert (Hr : Forall row_ok [mkRow 1 0 example_tag [4]; mkRow 6 9 example_tag [7]]).
  { repeat (apply Forall_cons; split; [apply small_row_ok; try done; by (left + right)|]). by apply Forall_nil. }
  assert (Hb : Forall bytes (map row_bytes [mkRow 1 0 example_tag [4]; mkRow 6 9 example_tag [7]])).
  { apply Forall_fmap. revert Hr. apply Forall_weaken. intros r. apply row_bytes_bytes. }
  pose proof example_rows_ok as [Hst Hg].
  apply (index_parts_merge (Zl := stored_zstd_laws) 1 3 example_index_parts).
  - done.
  - apply Forall_cons. split; [|apply Forall_singleton].
    + split; [done|apply Forall_singleton, pack_wf; by vm_compute| | |]; cbn [map]; rewrite pack_items.
      * by apply Forall_singleton.
      * cbn [concat]. rewrite app_nil_r. apply Hst.
      * by repeat (apply Forall_cons; split; [done|]).
    + split; [done|apply Forall_singleton, pack_wf; by vm_compute| | |]; cbn [map]; rewrite pack_items.
      * apply Forall_singleton. split; [done|done|by vm_compute|by vm_compute|apply chain_sorted_items; by vm_compute].
      * apply chain_sorted_items. by vm_compute.
      * by repeat (apply Forall_cons; split; [done|]).
  - replace (concat (concat (map (map block_items) example_index_parts)))
      with (example_rows ++ map row_bytes [mkRow 1 0 example_tag [4]; mkRow 6 9 example_tag [7]]) by (by vm_compute).
    apply Forall_app. split; [done|].
    apply Forall_fmap. revert Hr. apply Forall_weaken. intros r. apply good_row.
  - by vm_compute.
Defined.
