(* ===== verification/BlockCache.v ===== *)
(** * The cache of decoded blocks

    Model of [esm-mergeset/src/blockcache.rs]: a sharded cache bounded in size,
    each shard with a map from keys to the slots of a slab, a min-heap of the
    slots ordered by the time of the last access, and counters of misses.  The
    clock ([fasttime::unix_timestamp]) is an argument of the operations that
    read it. *)
From Stdlib Require Import ZArith Lia Bool Permutation.
From stdpp Require Import gmap.
From S2P Require Import Prelude Heap.
Local Open Scope Z_scope.

Definition MISSES_BEFORE_CACHING : Z := 2.
Definition CLEAN_INTERVAL_SECS : Z := 60.
Definition MAX_CLEAN_PER_TRIGGER : nat := 64.
Definition PER_KEY_MISSES_CLEAN_INTERVAL_SECS : Z := 3 * 60.
Definition MAX_IDLE_SECS : Z := 3 * 60.

(** The trait of what may be cached: the approximate size in bytes, which
    depends on the capacities of the vectors of the block. *)
Class CachedBlock (V : Type) : Type := block_size_bytes : V -> Z.

Record Key : Type := mkKey { part_id : Z; offset : Z }.

Global Instance Key_eq_dec : EqDecision Key.
Proof. solve_decision. Defined.
Global Instance Key_countable : Countable Key.
Proof. refine (inj_countable' (fun k => (part_id k, offset k)) (fun '(p, o) => mkKey p o) _). by intros []. Defined.

Definition mix64 (z : Z) : Z :=
  let z := as_u64 (Z.lxor z (Z.shiftr z 30) * 0xBF58476D1CE4E5B9) in
  let z := as_u64 (Z.lxor z (Z.shiftr z 27) * 0x94D049BB133111EB) in
  Z.lxor z (Z.shiftr z 31).

Definition hash_u64 (k : Key) : Z :=
  mix64 (Z.lxor (mix64 (as_u64 (part_id k + 0x9E3779B97F4A7C15))) (offset k)).

(** ** The shard *)

Section Shard.
  Context {V : Type} {Vs : CachedBlock V}.

Record Entry : Type := mkEntry {
  last_access_time : Z;
  heap_idx : nat;
  e_key : Key;
  e_block : V;
  e_size : Z;
}.

(** [Shard] and the [ShardInner] its mutex guards.  Every operation below holds
    the mutex from its first access of the inner state to its last one. *)
Record Shard : Type := mkShard {
  requests : Z;
  misses : Z;
  size_bytes : Z;
  sh_m : gmap Z (gmap Z nat);
  per_key_misses : gmap Key Z;
  entries : list (option Entry);
  free : list nat;
  heap : list nat;
  next_clean_deadline : Z;
  next_per_key_misses_clean_deadline : Z;
}.

Definition shard_new (now : Z) : Shard :=
  mkShard 0 0 0 ∅ ∅ [] [] [] (as_u64 (now + CLEAN_INTERVAL_SECS)) (as_u64 (now + PER_KEY_MISSES_CLEAN_INTERVAL_SECS)).

(** Updates of single fields. *)
Definition set_size (s : Shard) (x : Z) : Shard :=
  mkShard (requests s) (misses s) x (sh_m s) (per_key_misses s) (entries s) (free s) (heap s)
    (next_clean_deadline s) (next_per_key_misses_clean_deadline s).
Definition set_m (s : Shard) (x : gmap Z (gmap Z nat)) : Shard :=
  mkShard (requests s) (misses s) (size_bytes s) x (per_key_misses s) (entries s) (free s) (heap s)
    (next_clean_deadline s) (next_per_key_misses_clean_deadline s).
Definition set_slab (s : Shard) (x : list (option Entry)) (y : list nat) : Shard :=
  mkShard (requests s) (misses s) (size_bytes s) (sh_m s) (per_key_misses s) x y (heap s)
    (next_clean_deadline s) (next_per_key_misses_clean_deadline s).
Definition set_heap (s : Shard) (x : list nat) : Shard :=
  mkShard (requests s) (misses s) (size_bytes s) (sh_m s) (per_key_misses s) (entries s) (free s) x
    (next_clean_deadline s) (next_per_key_misses_clean_deadline s).
Definition set_misses (s : Shard) (x : gmap Key Z) : Shard :=
  mkShard (requests s) (misses s) (size_bytes s) (sh_m s) x (entries s) (free s) (heap s)
    (next_clean_deadline s) (next_per_key_misses_clean_deadline s).
Definition set_deadlines (s : Shard) (x y : Z) : Shard :=
  mkShard (requests s) (misses s) (size_bytes s) (sh_m s) (per_key_misses s) (entries s) (free s) (heap s) x y.
Definition set_counters (s : Shard) (x y : Z) : Shard :=
  mkShard x y (size_bytes s) (sh_m s) (per_key_misses s) (entries s) (free s) (heap s)
    (next_clean_deadline s) (next_per_key_misses_clean_deadline s).

Section Ops.
  Context {E : Type}.
  Local Abbreviation run := (res E).

(** [entries[slot].as_ref().unwrap()] and the other accesses to a slot that
    must be taken. *)
Definition entry_at (s : Shard) (slot : nat) : run Entry :=
  o ← idx (entries s) slot;
  match o with Some e => Ok e | None => Panic end.

Definition with_heap_idx (e : Entry) (i : nat) : Entry :=
  mkEntry (last_access_time e) i (e_key e) (e_block e) (e_size e).

Definition with_time (e : Entry) (now : Z) : Entry :=
  mkEntry now (heap_idx e) (e_key e) (e_block e) (e_size e).

(** [entries[slot].as_mut().unwrap() = e] for a new value of some fields. *)
Definition put_entry (s : Shard) (slot : nat) (e : Entry) : run Shard :=
  _ ← entry_at s slot;
  Ok (set_slab s (<[slot := Some e]> (entries s)) (free s)).

(** *** The slab *)

(** The last element of a vector and the elements before it: [Vec::pop]. *)
Definition vec_pop {A} (l : list A) : option (list A * A) :=
  match last l with
  | Some x => Some (removelast l, x)
  | None => None
  end.

Definition alloc_slot (s : Shard) (e : Entry) : run (nat * Shard) :=
  match vec_pop (free s) with
  | Some (free, slot) =>
      entries ← set_idx (entries s) slot (Some e);
      Ok (slot, set_slab s entries free)
  | None => Ok (length (entries s), set_slab s (entries s ++ [Some e]) (free s))
  end.

Definition free_slot (s : Shard) (slot : nat) : run (Entry * Shard) :=
  e ← entry_at s slot;
  Ok (e, set_slab s (<[slot := None]> (entries s)) (free s ++ [slot])).

(** *** The heap of last accesses *)

Definition cache_heap_less (s : Shard) (i j : nat) : run bool :=
  si ← idx (heap s) i;
  a ← entry_at s si;
  sj ← idx (heap s) j;
  b ← entry_at s sj;
  Ok (last_access_time a <? last_access_time b).

Definition heap_swap (s : Shard) (i j : nat) : run Shard :=
  _ ← idx (heap s) i;
  _ ← idx (heap s) j;
  let s := set_heap s (swap (heap s) i j) in
  si ← idx (heap s) i;
  e ← entry_at s si;
  s ← put_entry s si (with_heap_idx e i);
  sj ← idx (heap s) j;
  e ← entry_at s sj;
  put_entry s sj (with_heap_idx e j).

(** Every round moves to the parent, so [i] rounds are enough. *)
Fixpoint cache_sift_up (fuel : nat) (s : Shard) (i : nat) : run Shard :=
  match fuel with
  | O => Ok s
  | S fuel =>
      if (i =? 0)%nat then Ok s
      else
        let parent := ((i - 1) / 2)%nat in
        less ← cache_heap_less s i parent;
        if negb less then Ok s
        else
          s ← heap_swap s i parent;
          cache_sift_up fuel s parent
  end.

(** Every round moves to a child, so the length of the heap is enough. *)
Fixpoint cache_sift_down (fuel : nat) (s : Shard) (i : nat) : run Shard :=
  match fuel with
  | O => Ok s
  | S fuel =>
      let left := (2 * i + 1)%nat in
      if (length (heap s) <=? left)%nat then Ok s
      else
        let right := S left in
        right_less ← (if (right <? length (heap s))%nat then cache_heap_less s right left else Ok false);
        let smallest := if right_less : bool then right else left in
        less ← cache_heap_less s smallest i;
        if negb less then Ok s
        else
          s ← heap_swap s i smallest;
          cache_sift_down fuel s smallest
  end.

Definition heap_push (s : Shard) (slot : nat) : run Shard :=
  let i := length (heap s) in
  e ← entry_at s slot;
  s ← put_entry s slot (with_heap_idx e i);
  cache_sift_up i (set_heap s (heap s ++ [slot])) i.

Definition heap_fix (s : Shard) (i : nat) : run Shard :=
  s ← cache_sift_down (length (heap s)) s i;
  cache_sift_up i s i.

Definition heap_remove_at (s : Shard) (i : nat) : run (nat * Shard) :=
  _ ← assert_ (0 <? length (heap s))%nat;
  let last := (length (heap s) - 1)%nat in
  s ← (if negb (i =? last)%nat then heap_swap s i last else Ok s);
  match vec_pop (heap s) with
  | None => Panic
  | Some (heap', slot) =>
      let s := set_heap s heap' in
      s ← (if (i <? length (heap s))%nat then heap_fix s i else Ok s);
      Ok (slot, s)
  end.

(** *** Eviction *)

Definition remove_least_recently_accessed (s : Shard) : run (V * Shard) :=
  '(slot, s) ← heap_remove_at s 0;
  '(e, s) ← free_slot s slot;
  let s := set_size s (as_i64 (size_bytes s + as_i64 (- as_i64 (e_size e)))) in
  match sh_m s !! part_id (e_key e) with
  | None => Panic
  | Some pes =>
      let pes := delete (offset (e_key e)) pes in
      let m := if decide (pes = ∅) then delete (part_id (e_key e)) (sh_m s)
               else <[part_id (e_key e) := pes]> (sh_m s) in
      Ok (e_block e, set_m s m)
  end.

(** The [while let] of [clean_by_timeout]: every round that goes on removes an
    element of the heap. *)
Fixpoint clean_loop (fuel : nat) (last_access_deadline : Z) (max_entries n : nat) (s : Shard)
    : run (bool * Shard) :=
  match fuel with
  | O => Ok (false, s)
  | S fuel =>
      match head (heap s) with
      | None => Ok (false, s)
      | Some slot =>
          e ← entry_at s slot;
          if last_access_deadline <? last_access_time e then Ok (false, s)
          else if (max_entries <=? n)%nat then Ok (true, s)
          else
            '(_, s) ← remove_least_recently_accessed s;
            clean_loop fuel last_access_deadline max_entries (S n) s
      end
  end.

Definition clean_by_timeout (now : Z) (max_entries : nat) (s : Shard) : run (bool * Shard) :=
  clean_loop (S (length (heap s))) (Z.max 0 (now - MAX_IDLE_SECS)) max_entries 0 s.

(** The first half of [maybe_clean]. *)
Definition clean_idle (now : Z) (s : Shard) : run Shard :=
  if next_clean_deadline s <=? now then
    '(capped, s) ← clean_by_timeout now MAX_CLEAN_PER_TRIGGER s;
    let deadline := if capped : bool then as_u64 (now + 1) else as_u64 (now + CLEAN_INTERVAL_SECS) in
    Ok (set_deadlines s deadline (next_per_key_misses_clean_deadline s))
  else Ok s.

Definition maybe_clean (now : Z) (s : Shard) : run Shard :=
  s ← clean_idle now s;
  if next_per_key_misses_clean_deadline s <=? now then
    Ok (set_misses
          (set_deadlines s (next_clean_deadline s) (as_u64 (now + PER_KEY_MISSES_CLEAN_INTERVAL_SECS))) ∅)
  else Ok s.

(** *** The operations of a shard *)

Definition find_slot (s : Shard) (k : Key) : option nat :=
  pes ← sh_m s !! part_id k; pes !! offset k.

Definition get_block_locked (s : Shard) (k : Key) (now : Z) : run (option V * Shard) :=
  match find_slot s k with
  | Some slot =>
      e ← entry_at s slot;
      s ← (if negb (last_access_time e =? now) then
             s ← put_entry s slot (with_time e now);
             heap_fix s (heap_idx e)
           else Ok s);
      Ok (Some (e_block e), s)
  | None =>
      let n := as_u32 (default 0 (per_key_misses s !! k) + 1) in
      Ok (None, set_counters (set_misses s (<[k := n]> (per_key_misses s))) (requests s) (as_u64 (misses s + 1)))
  end.

Definition shard_get_block (now : Z) (k : Key) (s : Shard) : run (option V * Shard) :=
  let s := set_counters s (as_u64 (requests s + 1)) (misses s) in
  s ← maybe_clean now s;
  get_block_locked s k now.

(** The loop that evicts until the size fits: a round removes an element of
    the heap. *)
Fixpoint evict_loop (fuel : nat) (max_shard_bytes : Z) (s : Shard) : run Shard :=
  match fuel with
  | O => Ok s
  | S fuel =>
      if (as_i64 max_shard_bytes <? size_bytes s) && negb (length (heap s) =? 0)%nat then
        '(_, s) ← remove_least_recently_accessed s;
        evict_loop fuel max_shard_bytes s
      else Ok s
  end.

Definition shard_try_put_block (now : Z) (k : Key) (b : V) (max_shard_bytes misses_before_caching : Z)
    (s : Shard) : run (bool * Shard) :=
  s ← maybe_clean now s;
  let misses := default 0 (per_key_misses s !! k) in
  if (0 <? misses) && (misses <=? misses_before_caching) then Ok (false, s)
  else
    let s := set_misses s (<[k := 0]> (per_key_misses s)) in
    if bool_decide (is_Some (find_slot s k)) then Ok (true, s)
    else
      let size := block_size_bytes b in
      '(slot, s) ← alloc_slot s (mkEntry now 0 k b size);
      s ← heap_push s slot;
      let pes := default ∅ (sh_m s !! part_id k) in
      let s := set_m s (<[part_id k := <[offset k := slot]> pes]> (sh_m s)) in
      let s := set_size s (as_i64 (size_bytes s + as_i64 size)) in
      s ← evict_loop (S (length (heap s))) max_shard_bytes s;
      Ok (true, s).

(** The loop over the offsets of a removed part. *)
Fixpoint remove_slots (pes : list (Z * nat)) (removed_size : Z) (s : Shard) : run (Z * Shard) :=
  match pes with
  | [] => Ok (removed_size, s)
  | (_, slot) :: pes =>
      e ← entry_at s slot;
      '(_, s) ← heap_remove_at s (heap_idx e);
      '(e, s) ← free_slot s slot;
      remove_slots pes (as_i64 (removed_size + as_i64 (e_size e))) s
  end.

(** [iter] is the order in which the hash map yields its entries. *)
Definition shard_remove_blocks_for_part (iter : gmap Z nat -> list (Z * nat)) (part_id : Z) (s : Shard)
    : run Shard :=
  match sh_m s !! part_id with
  | None => Ok s
  | Some pes =>
      let s := set_m s (delete part_id (sh_m s)) in
      '(removed_size, s) ← remove_slots (iter pes) 0 s;
      Ok (set_size s (as_i64 (size_bytes s + as_i64 (- removed_size))))
  end.
End Ops.

(** ** The cache *)

(** [get_max_size_bytes] reads a setting that may change between two calls, so
    the operations that call it take its value as an argument. *)
Record Cache : Type := mkCache {
  shards : list Shard;
  misses_before_caching : Z;
}.

(** [usize::next_power_of_two]. *)
Definition next_power_of_two (n : Z) : Z := 2 ^ Z.log2_up n.

(** [clock i] is the time the [i]-th shard is created at. *)
Definition with_misses_before_caching (cpus : Z) (clock : nat -> Z) (misses_before_caching : Z) : Cache :=
  mkCache (map (fun i => shard_new (clock i)) (seq 0 (Z.to_nat (next_power_of_two cpus)))) misses_before_caching.

Definition cache_new (cpus : Z) (clock : nat -> Z) : Cache :=
  with_misses_before_caching cpus clock MISSES_BEFORE_CACHING.

Section CacheOps.
  Context {E : Type}.
  Local Abbreviation run := (res E).

Definition shard_idx (c : Cache) (k : Key) : nat :=
  Z.to_nat (Z.land (hash_u64 k) (as_u64 (Z.of_nat (length (shards c)) - 1))).

(** An operation on the shard of [k]. *)
Definition on_shard {A} (c : Cache) (k : Key) (f : Shard -> run (A * Shard)) : run (A * Cache) :=
  s ← idx (shards c) (shard_idx c k);
  '(a, s) ← f s;
  Ok (a, mkCache (<[shard_idx c k := s]> (shards c)) (misses_before_caching c)).

(** The division panics on a cache without shards. *)
Definition max_shard_bytes (c : Cache) (max_size_bytes : Z) : run Z :=
  _ ← assert_ (0 <? length (shards c))%nat;
  Ok (max_size_bytes / Z.of_nat (length (shards c))).

Definition cache_size_max_bytes (c : Cache) (max_size_bytes : Z) : run Z :=
  m ← max_shard_bytes c max_size_bytes; Ok (m * Z.of_nat (length (shards c))).

Definition cache_get_block (now : Z) (k : Key) (c : Cache) : run (option V * Cache) :=
  on_shard c k (shard_get_block now k).

Definition cache_try_put_block (max_size_bytes now : Z) (k : Key) (b : V) (c : Cache) : run (bool * Cache) :=
  max ← max_shard_bytes c max_size_bytes;
  on_shard c k (shard_try_put_block now k b max (misses_before_caching c)).

Fixpoint remove_from_shards (iter : gmap Z nat -> list (Z * nat)) (part_id : Z) (ss : list Shard) : run (list Shard) :=
  match ss with
  | [] => Ok []
  | s :: ss =>
      s ← shard_remove_blocks_for_part iter part_id s;
      ss ← remove_from_shards iter part_id ss;
      Ok (s :: ss)
  end.

Definition cache_remove_blocks_for_part (iter : gmap Z nat -> list (Z * nat)) (part_id : Z) (c : Cache) : run Cache :=
  ss ← remove_from_shards iter part_id (shards c);
  Ok (mkCache ss (misses_before_caching c)).
End CacheOps.

Definition cache_len (c : Cache) : nat := sum_list (map (fun s => length (heap s)) (shards c)).

Definition cache_is_empty (c : Cache) : bool := (cache_len c =? 0)%nat.

Definition cache_size_bytes (c : Cache) : Z :=
  as_u64 (foldr Z.add 0 (map (fun s => as_u64 (Z.max (size_bytes s) 0)) (shards c))).

Definition cache_requests (c : Cache) : Z := as_u64 (foldr Z.add 0 (map requests (shards c))).

Definition cache_misses (c : Cache) : Z := as_u64 (foldr Z.add 0 (map misses (shards c))).
End Shard.
Arguments Entry : clear implicits.
Arguments Shard : clear implicits.
Arguments Cache : clear implicits.
