(* ===== verification/BlockCacheSpec.v ===== *)
(** * The cache of decoded blocks: correctness

    The invariant that ties the map, the slab, the heap and the free list of a
    shard of [BlockCache] together, its preservation by every operation, and
    the contract of the cache: it answers with blocks that were put under the
    asked key, evicts the least recently accessed ones first, and stays below
    its size. *)
From Stdlib Require Import ZArith Lia Bool Permutation.
From stdpp Require Import gmap.
From S2P Require Import Prelude Heap BlockCache.
Local Open Scope Z_scope.

Section Spec.
  Context {V : Type} {Vs : CachedBlock V}.
  Implicit Types (s : Shard V) (e : Entry V) (h : list nat).

(** ** Slots and their entries *)

(** The slot [i] holds the entry [e]. *)
Definition slot_holds s (i : nat) e : Prop := entries s !! i = Some (Some e).

(** The heap holds taken slots, and every one of their entries knows its
    position. *)
Definition indexed s : Prop :=
  forall i slot, heap s !! i = Some slot -> exists e, slot_holds s slot e /\ heap_idx e = i.

(** Entries that differ in their position in the heap only. *)
Definition same_entry e e' : Prop := with_heap_idx e' (heap_idx e) = e.

(** [s'] is [s] after moves in the heap. *)
Record moved s s' : Prop := {
  mv_requests : requests s' = requests s;
  mv_misses : misses s' = misses s;
  mv_size : size_bytes s' = size_bytes s;
  mv_m : sh_m s' = sh_m s;
  mv_pkm : per_key_misses s' = per_key_misses s;
  mv_free : free s' = free s;
  mv_clean : next_clean_deadline s' = next_clean_deadline s;
  mv_pkm_clean : next_per_key_misses_clean_deadline s' = next_per_key_misses_clean_deadline s;
  mv_entries : Forall2 (option_Forall2 same_entry) (entries s) (entries s');
  mv_heap : heap s' ≡ₚ heap s;
}.

#[local] Instance same_entry_preorder : PreOrder same_entry.
Proof.
  split; [by intros []|]. intros [] [] []. unfold same_entry, with_heap_idx. cbn.
  intros [= -> -> -> ->] [= -> -> -> ->]. done.
Qed.

#[local] Instance moved_preorder : PreOrder moved.
Proof.
  split; [intros s; by split|]. intros s1 s2 s3 H1 H2.
  split; try (etransitivity; [apply H2|apply H1]). etransitivity; [apply H1|apply H2].
Qed.

(** The time of the last access to a slot. *)
Definition slot_time s (slot : nat) : Z :=
  match entries s !! slot with
  | Some (Some e) => last_access_time e
  | _ => 0
  end.
Definition older s (a b : nat) : bool := slot_time s a <? slot_time s b.

Lemma older_total s a b : older s a b = true -> older s b a = false.
Proof. unfold older. rewrite Z.ltb_lt, Z.ltb_ge. lia. Qed.
Lemma older_trans s a b c : older s b a = false -> older s c b = false -> older s c a = false.
Proof. unfold older. rewrite !Z.ltb_ge. lia. Qed.

Lemma moved_holds s s' slot e' : moved s s' -> slot_holds s' slot e' -> exists e, slot_holds s slot e /\ same_entry e e'.
Proof.
  unfold slot_holds. intros H He. destruct (Forall2_lookup_r _ _ _ _ _ (mv_entries _ _ H) He) as (o & Ho & Hs).
  inversion Hs; subst. by eexists.
Qed.

Lemma moved_holds' s s' slot e : moved s s' -> slot_holds s slot e -> exists e', slot_holds s' slot e' /\ same_entry e e'.
Proof.
  unfold slot_holds. intros H He. destruct (Forall2_lookup_l _ _ _ _ _ (mv_entries _ _ H) He) as (o & Ho & Hs).
  inversion Hs; subst. by eexists.
Qed.

Lemma same_time e e' : same_entry e e' -> last_access_time e' = last_access_time e.
Proof. by intros <-. Qed.

Lemma moved_time s s' slot : moved s s' -> slot_time s' slot = slot_time s slot.
Proof.
  intros H. unfold slot_time. pose proof (Forall2_length _ _ _ (mv_entries _ _ H)).
  destruct (entries s !! slot) as [o|] eqn:Ho.
  - destruct (Forall2_lookup_l _ _ _ _ _ (mv_entries _ _ H) Ho) as (o' & -> & Hs). inversion Hs; subst; [|done]. by apply same_time.
  - apply lookup_ge_None_1 in Ho. by rewrite lookup_ge_None_2 by lia.
Qed.

Lemma moved_older s s' a b : moved s s' -> older s' a b = older s a b.
Proof. intros H. unfold older. by rewrite !(moved_time s s'). Qed.

Lemma indexed_inj s i j slot : indexed s -> heap s !! i = Some slot -> heap s !! j = Some slot -> i = j.
Proof. unfold slot_holds. intros H Hi Hj. destruct (H _ _ Hi) as (e & He & <-), (H _ _ Hj) as (e' & He' & <-). unfold slot_holds in *. congruence. Qed.

Lemma indexed_nodup s : indexed s -> NoDup (heap s).
Proof. intros H. apply NoDup_alt. intros i j slot. by apply indexed_inj. Qed.

(** ** Moves in the heap *)

Section Moves.
  Context {E : Type}.
  Local Abbreviation run := (res E).

Lemma entry_at_ok s slot e : slot_holds s slot e -> entry_at (E := E) s slot = Ok e.
Proof. unfold slot_holds, entry_at, idx. by intros ->. Qed.

(** The order of [s] given as a function that moves do not change. *)
Definition orders (less : nat -> nat -> bool) s : Prop := forall a b, less a b = older s a b.

Lemma moved_orders less s s' : moved s s' -> orders less s -> orders less s'.
Proof. intros H Ho a b. by rewrite Ho, (moved_older s s'). Qed.

Lemma heap_less_ok less s i j :
  orders less s -> indexed s -> (i < length (heap s))%nat -> (j < length (heap s))%nat ->
  cache_heap_less (E := E) s i j = Ok (heap_less less (heap s) i j).
Proof.
  intros Ho Hs Hi Hj. unfold cache_heap_less, heap_less, idx.
  destruct (lookup_lt_is_Some_2 _ _ Hi) as [a Ha], (lookup_lt_is_Some_2 _ _ Hj) as [b Hb]. rewrite Ha, Hb, !bind_Ok.
  destruct (Hs _ _ Ha) as (ea & Hea & _), (Hs _ _ Hb) as (eb & Heb & _).
  rewrite (entry_at_ok _ _ _ Hea), !bind_Ok, (entry_at_ok _ _ _ Heb), bind_Ok, Ho. unfold older, slot_time. unfold slot_holds in *. by rewrite Hea, Heb.
Qed.

(** Overwriting the position of one entry. *)
Lemma put_moved s slot e i :
  slot_holds s slot e -> moved s (set_slab s (<[slot := Some (with_heap_idx e i)]> (entries s)) (free s)).
Proof.
  intros He. split; try done. cbn [entries set_slab]. apply Forall2_same_length_lookup_2; [by rewrite length_insert|].
  intros k x y Hx Hy. destruct (decide (k = slot)) as [->|Hne].
  - unfold slot_holds in He. rewrite He in Hx. injection Hx as <-. rewrite list_lookup_insert_eq in Hy by (by eapply lookup_lt_Some).
    injection Hy as <-. constructor. by destruct e.
  - rewrite list_lookup_insert_ne in Hy by done. rewrite Hx in Hy. injection Hy as <-. done.
Qed.

Lemma heap_swap_ok s i j :
  indexed s -> (i < length (heap s))%nat -> (j < length (heap s))%nat -> i <> j ->
  exists s', heap_swap (E := E) s i j = Ok s' /\ moved s s' /\ indexed s' /\ heap s' = swap (heap s) i j.
Proof.
  intros Hs Hi Hj Hne. destruct (lookup_lt_is_Some_2 _ _ Hi) as [a Ha], (lookup_lt_is_Some_2 _ _ Hj) as [b Hb].
  destruct (Hs _ _ Ha) as (ea & Hea & _), (Hs _ _ Hb) as (eb & Heb & _).
  assert (Hab : a <> b) by (intros ->; destruct Hne; by eapply indexed_inj).
  pose proof (fun k => swap_lookup (heap s) i j a b k Ha Hb Hne) as Hsw.
  unfold heap_swap, idx. rewrite Ha, Hb, !bind_Ok. cbn [heap set_heap]. rewrite Hsw, decide_False, decide_True, bind_Ok by done.
  unfold put_entry. set (s0 := set_heap s (swap (heap s) i j)). assert (Heb0 : slot_holds s0 b eb) by done.
  rewrite !(entry_at_ok _ _ _ Heb0), !bind_Ok. unfold s0. cbn [heap set_slab set_heap]. rewrite Hsw, decide_True, bind_Ok by done.
  set (s1 := set_slab _ _ _). assert (Hea1 : slot_holds s1 a ea).
  { unfold slot_holds, s1. cbn [entries set_slab set_heap]. by rewrite list_lookup_insert_ne. }
  rewrite (entry_at_ok _ _ _ Hea1), !bind_Ok. eexists. split; [done|].
  assert (Hm1 : moved (set_heap s (swap (heap s) i j)) s1) by (by apply put_moved).
  pose proof (put_moved s1 a ea j Hea1) as Hm2. pose proof (transitivity Hm1 Hm2) as Hm. split; [|split; [|done]].
  - destruct Hm; split; try done. cbn. apply swap_perm.
  - intros k slot. cbn [heap set_slab set_heap s1]. rewrite Hsw. unfold slot_holds. cbn [entries set_slab set_heap s1].
    pose proof (lookup_lt_Some _ _ _ Hea). pose proof (lookup_lt_Some _ _ _ Heb).
    destruct (decide (k = j)) as [->|Hkj]; [|destruct (decide (k = i)) as [->|Hki]]; intros Hk; simplify_eq.
    + exists (with_heap_idx ea j). rewrite list_lookup_insert_eq by (by rewrite length_insert). done.
    + exists (with_heap_idx eb i). rewrite list_lookup_insert_ne by done. by rewrite list_lookup_insert_eq.
    + destruct (Hs _ _ Hk) as (e & He & Hi'). exists e. unfold slot_holds in *. rewrite !list_lookup_insert_ne; [done| |]; intros ->; [destruct Hkj|destruct Hki]; by eapply indexed_inj.
Qed.

Lemma cache_sift_up_ok less fuel s i :
  orders less s -> indexed s -> (i < length (heap s))%nat ->
  exists s', cache_sift_up (E := E) fuel s i = Ok s' /\ moved s s' /\ indexed s' /\ heap s' = sift_up less fuel (heap s) i.
Proof.
  revert s i. induction fuel as [|fuel IH]; intros s i Ho Hs Hi; cbn [cache_sift_up sift_up]; [by exists s|].
  destruct (Nat.eqb_spec i 0); [by exists s|]. destruct (child_parent i ltac:(lia)) as [_ Hlt].
  set (p := ((i - 1) / 2)%nat) in *. clearbody p. rewrite (heap_less_ok less), bind_Ok by (done || lia).
  destruct (heap_less less (heap s) i p); cbn [negb]; [|by exists s].
  destruct (heap_swap_ok s i p) as (s1 & -> & Hm1 & Hs1 & Hh1); [done|lia..|]. rewrite bind_Ok, <-Hh1.
  destruct (IH s1 p) as (s2 & -> & Hm2 & Hs2 & Hh2); [by eapply moved_orders|done|rewrite (Permutation_length (mv_heap _ _ Hm1)); lia|].
  exists s2. split_and!; [done|by etransitivity|done|done].
Qed.

Lemma cache_sift_down_ok less fuel s i :
  orders less s -> indexed s -> (i < length (heap s))%nat ->
  exists s', cache_sift_down (E := E) fuel s i = Ok s' /\ moved s s' /\ indexed s' /\ heap s' = sift_down less fuel (heap s) i.
Proof.
  revert s i. induction fuel as [|fuel IH]; intros s i Ho Hs Hi; cbn [cache_sift_down sift_down]; [by exists s|].
  destruct (Nat.leb_spec (length (heap s)) (2 * i + 1)) as [|Hl]; [by exists s|].
  assert (Hr : (if (S (2 * i + 1) <? length (heap s))%nat then cache_heap_less (E := E) s (S (2 * i + 1)) (2 * i + 1) else Ok false) =
    Ok ((S (2 * i + 1) <? length (heap s))%nat && heap_less less (heap s) (S (2 * i + 1)) (2 * i + 1))).
  { destruct (Nat.ltb_spec (S (2 * i + 1)) (length (heap s))); [|done]. by apply heap_less_ok. }
  rewrite Hr, bind_Ok. clear Hr. set (c := if _ && _ then _ else _).
  assert (Hc : (i < c < length (heap s))%nat) by (unfold c; destruct (Nat.ltb_spec (S (2 * i + 1)) (length (heap s))); destruct (heap_less less (heap s) (S (2 * i + 1)) (2 * i + 1)); cbn [andb]; lia).
  clearbody c. rewrite (heap_less_ok less), bind_Ok by (done || lia). destruct (heap_less less (heap s) c i); cbn [negb]; [|by exists s].
  destruct (heap_swap_ok s i c) as (s1 & -> & Hm1 & Hs1 & Hh1); [done|lia..|]. rewrite bind_Ok, <-Hh1.
  destruct (IH s1 c) as (s2 & -> & Hm2 & Hs2 & Hh2); [by eapply moved_orders|done|rewrite (Permutation_length (mv_heap _ _ Hm1)); lia|].
  exists s2. split_and!; [done|by etransitivity|done|done].
Qed.

(** The heap order of the last accesses. *)
Definition lru_heap s : Prop := heap_except (older s) 0 None (heap s).

Lemma orders_older s : orders (older s) s.
Proof. done. Qed.

Lemma heap_except_ext less less' k o h :
  (forall a b, less a b = less' a b) -> heap_except less k o h -> heap_except less' k o h.
Proof. intros He H p c a b. rewrite <-He. apply H. Qed.

Lemma moved_lru s s' : moved s s' -> heap_except (older s) 0 None (heap s') -> lru_heap s'.
Proof. intros Hm. apply heap_except_ext. intros a b. symmetry. by apply moved_older. Qed.

(** [heap_fix] restores the order after a change at [i]. *)
Lemma heap_fix_ok s i :
  indexed s -> (i < length (heap s))%nat ->
  (forall p c a b, child p c -> p <> i -> c <> i -> heap s !! p = Some a -> heap s !! c = Some b -> older s b a = false) ->
  grand (older s) 0 i (heap s) ->
  exists s', heap_fix (E := E) s i = Ok s' /\ moved s s' /\ indexed s' /\ lru_heap s'.
Proof.
  intros Hs Hi Hh Hg. unfold heap_fix.
  destruct (cache_sift_down_ok (older s) (length (heap s)) s i (orders_older s) Hs Hi) as (s1 & -> & Hm1 & Hs1 & Hh1). rewrite bind_Ok.
  destruct (cache_sift_up_ok (older s) i s1 i) as (s2 & -> & Hm2 & Hs2 & Hh2); [by eapply moved_orders|done|by rewrite (Permutation_length (mv_heap _ _ Hm1))|].
  assert (Hm : moved s s2) by (by etransitivity). exists s2. split_and!; [done|done|done|].
  apply (moved_lru s s2 Hm). rewrite Hh2, Hh1. apply fix_heap; auto using older_total; [|lia]. intros a b c. apply older_trans.
Qed.

(** Adding a taken slot to the heap. *)
Lemma heap_push_ok s slot e :
  indexed s -> lru_heap s -> slot_holds s slot e -> slot ∉ heap s ->
  exists s', heap_push (E := E) s slot = Ok s' /\ moved (set_heap s (heap s ++ [slot])) s' /\ indexed s' /\ lru_heap s'.
Proof.
  intros Hs Hl He Hni. unfold heap_push, put_entry. rewrite (entry_at_ok _ _ _ He), !bind_Ok.
  set (i := length (heap s)). set (s1 := set_heap _ _).
  assert (Hm1 : moved (set_heap s (heap s ++ [slot])) s1).
  { pose proof (put_moved s slot e i He) as H. destruct H. split; done. }
  assert (Hs1 : indexed s1).
  { intros k x Hk. unfold slot_holds. cbn [s1 heap entries set_heap set_slab] in *. apply lookup_app_Some in Hk as [Hk|[Hk1 Hk2]].
    - destruct (Hs _ _ Hk) as (ex & Hex & Hix). exists ex. rewrite list_lookup_insert_ne; [done|]. intros ->.
      destruct Hni. by eapply list_elem_of_lookup_2.
    - apply list_lookup_singleton_Some in Hk2 as [Hk2 <-]. exists (with_heap_idx e i).
      rewrite list_lookup_insert_eq by (by eapply lookup_lt_Some). split; [done|]. cbn. unfold i. lia. }
  assert (Hlen : length (heap s1) = S i) by (cbn; rewrite length_app; cbn; unfold i; lia).
  destruct (cache_sift_up_ok (older s1) i s1 i (orders_older s1) Hs1) as (s2 & -> & Hm2 & Hs2 & Hh2); [lia|].
  exists s2. split_and!; [done|by etransitivity|done|]. apply (moved_lru s1 s2 Hm2). rewrite Hh2.
  apply sift_up_heap; auto using older_total; [intros a b c; apply older_trans|lia| |].
  - intros p c a b Hpc Hci Hp Hc. rewrite (moved_older _ _ b a Hm1). apply (Hl p c); try (done || lia).
    + pose proof (lookup_lt_Some _ _ _ Hc). cbn [s1 heap set_heap set_slab] in Hp. rewrite lookup_app_l in Hp; [exact Hp|]. unfold child in Hpc. fold i. lia.
    + pose proof (lookup_lt_Some _ _ _ Hc). cbn [s1 heap set_heap set_slab] in Hc. rewrite lookup_app_l in Hc; [exact Hc|]. fold i. lia.
  - intros p c a b _ Hc _ _ Hcb. apply lookup_lt_Some in Hcb. unfold child in Hc. lia.
Qed.

Lemma vec_pop_snoc {A} (l : list A) x : vec_pop (l ++ [x]) = Some (l, x).
Proof. unfold vec_pop. by rewrite last_snoc, removelast_last. Qed.

(** The heap without its last element, and with that element at [i]. *)
Lemma pop_at_lookup h i slot : h !! i = Some slot ->
  exists h', (if negb (i =? length h - 1)%nat then swap h i (length h - 1) else h) = h' ++ [slot] /\
    length h' = (length h - 1)%nat /\ slot :: h' ≡ₚ h /\
    forall k, (k < length h')%nat -> h' !! k = h !! (if decide (k = i) then (length h - 1)%nat else k).
Proof.
  intros Hi. pose proof (lookup_lt_Some _ _ _ Hi). destruct (lookup_lt_is_Some_2 h (length h - 1) ltac:(lia)) as [x Hx].
  set (g := if negb _ then _ else _). assert (Hg : g ≡ₚ h) by (unfold g; destruct (negb _); [apply swap_perm|done]).
  assert (Hlk : forall k, (k < length h)%nat -> g !! k = h !! (if decide (k = i) then (length h - 1)%nat else if decide (k = length h - 1)%nat then i else k)).
  { intros k Hk. unfold g. destruct (Nat.eqb_spec i (length h - 1)) as [->|Hne]; cbn [negb].
    - destruct (decide (k = length h - 1)%nat) as [->|]; done.
    - rewrite (swap_lookup h i (length h - 1) slot x) by done.
      destruct (decide (k = length h - 1)%nat), (decide (k = i)); subst; (done || congruence || lia). }
  clearbody g. pose proof (Permutation_length Hg) as Hlen.
  destruct g as [|y h' _] using rev_ind; [cbn in Hlen; lia|]. rewrite length_app in Hlen. cbn in Hlen. exists h'.
  assert (Hy : y = slot).
  { pose proof (Hlk (length h') ltac:(lia)) as Hk. rewrite list_lookup_middle in Hk by done.
    replace (length h') with (length h - 1)%nat in Hk by lia. destruct (decide (length h - 1 = i)%nat) as [Heq|].
    - rewrite Heq, Hi in Hk. congruence.
    - rewrite decide_True, Hi in Hk by done. congruence. }
  subst y. split_and!; [done|lia|by rewrite <-Hg, Permutation_app_comm|]. intros k Hk.
  rewrite <-(lookup_app_l h' [slot]) by done. rewrite Hlk by lia. destruct (decide (k = i)); [done|]. by rewrite decide_False by lia.
Qed.

Lemma heap_remove_at_ok s i slot :
  indexed s -> lru_heap s -> heap s !! i = Some slot ->
  exists h' s', heap_remove_at (E := E) s i = Ok (slot, s') /\ slot :: h' ≡ₚ heap s /\ moved (set_heap s h') s' /\
    indexed s' /\ lru_heap s'.
Proof.
  intros Hs Hl Hi. pose proof (lookup_lt_Some _ _ _ Hi) as Hlt. unfold heap_remove_at.
  rewrite assert_true, bind_Ok by (apply Nat.ltb_lt; lia). set (n := length (heap s)) in *.
  destruct (pop_at_lookup (heap s) i slot Hi) as (h' & Heq & Hlen & Hperm & Hlk). fold n in Heq, Hlen, Hlk.
  assert (Hsw : exists s1, (if negb (i =? n - 1)%nat then heap_swap (E := E) s i (n - 1) else Ok s) = Ok s1 /\ moved s s1 /\ indexed s1 /\ heap s1 = h' ++ [slot]).
  { rewrite <-Heq. destruct (Nat.eqb_spec i (n - 1)); cbn [negb]; [by exists s|]. apply heap_swap_ok; (done || lia). }
  destruct Hsw as (s1 & -> & Hm1 & Hs1 & Hh1). rewrite bind_Ok, Hh1, vec_pop_snoc. cbn zeta iota beta.
  set (s2 := set_heap s1 h'). assert (Hm2 : moved (set_heap s h') s2) by (destruct Hm1; split; done).
  assert (Hs2 : indexed s2).
  { intros k x Hk. apply (Hs1 k x). rewrite Hh1. apply lookup_app_Some. by left. }
  assert (Hold : forall a b, older s2 a b = older s a b) by (intros a b; apply (moved_older _ _ _ _ Hm2)).
  assert (Hp : forall p c a b, child p c -> p <> i -> c <> i -> h' !! p = Some a -> h' !! c = Some b -> older s b a = false).
  { intros p c a b Hpc Hpi Hci Ha Hb. rewrite Hlk, decide_False in Ha by (done || by eapply lookup_lt_Some).
    rewrite Hlk, decide_False in Hb by (done || by eapply lookup_lt_Some). by apply (Hl p c); (done || lia). }
  exists h'. cbn [heap set_heap s2]. destruct (Nat.ltb_spec i (length h')) as [Hih|Hih].
  - destruct (heap_fix_ok s2 i) as (s3 & -> & Hm3 & Hs3 & Hl3); [done|done| | |].
    + intros p c a b Hpc Hpi Hci. rewrite Hold. by apply Hp.
    + intros p c a b Hpi Hic _ Ha Hb. rewrite Hold. cbn [s2 heap set_heap] in Ha, Hb.
      rewrite Hlk, decide_False in Ha by (unfold child in *; (lia || by eapply lookup_lt_Some)).
      rewrite Hlk, decide_False in Hb by (unfold child in *; (lia || by eapply lookup_lt_Some)).
      apply (older_trans _ _ slot); [apply (Hl p i)|apply (Hl i c)]; (done || lia).
    + rewrite bind_Ok. exists s3. split_and!; [done|done|by etransitivity|done|done].
  - rewrite bind_Ok. exists s2. split_and!; [done|done|done|done|]. intros p c a b Hpc _ _ Ha Hb. rewrite Hold.
    pose proof (lookup_lt_Some _ _ _ Ha) as Hla. pose proof (lookup_lt_Some _ _ _ Hb) as Hlb. cbn [s2 heap set_heap] in Ha, Hb, Hla, Hlb.
    apply (Hp p c); (done || lia).
Qed.
End Moves.

(** ** What a shard holds *)

(** The slab without the positions in the heap, which moves leave alone. *)
Definition strip e : Entry V := with_heap_idx e 0.
Definition view s : list (option (Entry V)) := option_map strip <$> entries s.

Lemma moved_view s s' : moved s s' -> view s' = view s.
Proof.
  intros H. unfold view. symmetry. pose proof (mv_entries _ _ H) as Hf. induction Hf as [|x y l l' Hxy Hf IH]; [done|].
  rewrite !fmap_cons, IH. f_equal. inversion Hxy as [e e' He|]; subst; [|done]. cbn. unfold strip. by rewrite <-He.
Qed.

Lemma view_holds s slot v : view s !! slot = Some (Some v) <-> exists e, slot_holds s slot e /\ strip e = v.
Proof.
  unfold view, slot_holds. rewrite list_lookup_fmap. destruct (entries s !! slot) as [[e|]|]; cbn; naive_solver.
Qed.

Lemma view_free s slot : view s !! slot = Some None <-> entries s !! slot = Some None.
Proof. unfold view. rewrite list_lookup_fmap. destruct (entries s !! slot) as [[e|]|]; cbn; naive_solver. Qed.

Lemma view_time s slot v : view s !! slot = Some (Some v) -> slot_time s slot = last_access_time v.
Proof. intros (e & He & <-)%view_holds. unfold slot_time. unfold slot_holds in He. by rewrite He. Qed.

Definition total_size s : Z := foldr Z.add 0 (map (from_option e_size 0) (view s)).

(** The slab, its free list and the heap agree. *)
Record slab_ok s : Prop := {
  sl_indexed : indexed s;
  sl_lru : lru_heap s;
  sl_heap : forall slot v, view s !! slot = Some (Some v) -> slot ∈ heap s;
  sl_free : forall slot, slot ∈ free s <-> view s !! slot = Some None;
  sl_free_nodup : NoDup (free s);
}.

(** The map lists exactly the keys of the slab. *)
Definition map_ok s : Prop :=
  forall k slot, find_slot s k = Some slot <-> exists v, view s !! slot = Some (Some v) /\ e_key v = k.

Record shard_ok s : Prop := {
  so_slab : slab_ok s;
  so_map : map_ok s;
  so_parts : forall p pes, sh_m s !! p = Some pes -> pes <> ∅;
  so_size : size_bytes s = as_i64 (total_size s);
}.

(** The entry under a key, and the block. *)
Definition cached_entry s (k : Key) : option (Entry V) :=
  slot ← find_slot s k; o ← view s !! slot; o.
Definition cached s (k : Key) : option V := e_block <$> cached_entry s k.

Lemma cached_entry_some s k v :
  map_ok s -> cached_entry s k = Some v <-> exists slot, view s !! slot = Some (Some v) /\ e_key v = k.
Proof.
  intros Hm. unfold cached_entry. split.
  - destruct (find_slot s k) as [slot|] eqn:Hf; [|done]. cbn. intros Hv. apply Hm in Hf as (v' & Hv' & Hk).
    rewrite Hv' in Hv. cbn in Hv. exists slot. naive_solver.
  - intros (slot & Hv & Hk). assert (Hf : find_slot s k = Some slot) by (apply Hm; eauto). rewrite Hf. cbn. by rewrite Hv.
Qed.

(** The counters and deadlines, which moves and evictions leave alone. *)
Definition counters s : Z * Z * gmap Key Z * (Z * Z) :=
  (requests s, misses s, per_key_misses s, (next_clean_deadline s, next_per_key_misses_clean_deadline s)).

Lemma moved_slab s s' : moved s s' -> indexed s' -> lru_heap s' -> slab_ok s -> slab_ok s'.
Proof.
  intros Hm Hi Hl Hs. split; [done|done| | |]; rewrite ?(moved_view _ _ Hm), ?(mv_free _ _ Hm); try apply Hs.
  intros slot v Hv. rewrite (mv_heap _ _ Hm). by eapply sl_heap.
Qed.

Lemma moved_map s s' : moved s s' -> map_ok s -> map_ok s'.
Proof. intros Hm H k slot. unfold find_slot. rewrite (mv_m _ _ Hm), (moved_view _ _ Hm). apply H. Qed.

Lemma moved_ok s s' : moved s s' -> indexed s' -> lru_heap s' -> shard_ok s -> shard_ok s'.
Proof.
  intros Hm Hi Hl Hs. split; [by eapply moved_slab, Hs|by eapply moved_map, Hs| |]; unfold total_size;
    rewrite ?(mv_m _ _ Hm), ?(moved_view _ _ Hm), ?(mv_size _ _ Hm); apply Hs.
Qed.

Lemma moved_cached s s' k : moved s s' -> cached_entry s' k = cached_entry s k.
Proof. intros Hm. unfold cached_entry, find_slot. by rewrite (mv_m _ _ Hm), (moved_view _ _ Hm). Qed.

Lemma moved_counters s s' : moved s s' -> counters s' = counters s.
Proof. intros []. unfold counters. congruence. Qed.

Lemma new_ok now : shard_ok (shard_new now).
Proof.
  split; [split|..]; try done.
  - intros slot. cbn. rewrite lookup_nil. split; [by intros ?%elem_of_nil|done].
  - constructor.
  - intros k slot. unfold find_slot, view. cbn. rewrite lookup_empty, lookup_nil. naive_solver.
Qed.

Section Evict.
  Context {E : Type}.

(** Taking a slot out of the heap and freeing it. *)
Lemma take_out s i slot v :
  slab_ok s -> heap s !! i = Some slot -> view s !! slot = Some (Some v) ->
  exists s1 s2 e, heap_remove_at (E := E) s i = Ok (slot, s1) /\ free_slot (E := E) s1 slot = Ok (e, s2) /\
    strip e = v /\ slab_ok s2 /\ view s2 = <[slot := None]> (view s) /\ sh_m s2 = sh_m s /\ size_bytes s2 = size_bytes s /\
    counters s2 = counters s /\ slot :: heap s2 ≡ₚ heap s.
Proof.
  intros Hs Hi Hv. destruct (heap_remove_at_ok (E := E) s i slot (sl_indexed _ Hs) (sl_lru _ Hs) Hi) as (h' & s1 & Hr & Hp & Hm & Hi1 & Hl1).
  assert (Hv1 : view s1 = view s) by (by rewrite (moved_view _ _ Hm)).
  assert (He : exists e, slot_holds s1 slot e /\ strip e = v) by (apply view_holds; by rewrite Hv1). destruct He as (e & He & Hse).
  eexists s1, _, e. split; [done|]. unfold free_slot. rewrite (entry_at_ok _ _ _ He), bind_Ok. split; [done|]. split; [done|].
  set (s2 := set_slab _ _ _). pose proof (lookup_lt_Some _ _ _ Hv) as Hlt.
  assert (Hv2 : view s2 = <[slot := None]> (view s)) by (unfold view at 1, s2; cbn [entries set_slab]; by rewrite list_fmap_insert, <-Hv1).
  assert (Hh2 : slot :: heap s2 ≡ₚ heap s) by (rewrite <-Hp; f_equiv; apply (mv_heap _ _ Hm)).
  assert (Hnd : NoDup (slot :: heap s2)) by (rewrite Hh2; apply indexed_nodup, Hs). apply NoDup_cons in Hnd as [Hni Hnd].
  split; [|split_and!; try done; try (by destruct Hm); exact (moved_counters _ _ Hm)].
  split; rewrite ?Hv2.
  - intros k x Hk. destruct (Hi1 k x Hk) as (ex & Hex & Hkx). exists ex. split; [|done]. unfold slot_holds, s2. cbn [entries set_slab].
    rewrite list_lookup_insert_ne; [done|]. intros <-. destruct Hni. by eapply list_elem_of_lookup_2.
  - intros p c a b Hpc H0 H1 Ha Hb. rewrite <-(Hl1 p c a b Hpc H0 H1 Ha Hb).
    assert (Ht : forall x, x ∈ heap s2 -> slot_time s2 x = slot_time s1 x).
    { intros x Hx. unfold slot_time, s2. cbn [entries set_slab]. rewrite list_lookup_insert_ne; [done|]. by intros <-. }
    unfold older. rewrite !Ht by (by eapply list_elem_of_lookup_2). done.
  - intros x w Hx. assert (Hne : x <> slot) by (intros ->; by rewrite list_lookup_insert_eq in Hx).
    rewrite list_lookup_insert_ne in Hx by done. pose proof (sl_heap _ Hs x w Hx) as Hin. rewrite <-Hh2 in Hin. by apply elem_of_cons in Hin as [->|].
  - intros x. cbn [s2 free set_slab]. rewrite elem_of_app, list_elem_of_singleton, (mv_free _ _ Hm). cbn [free set_heap]. rewrite (sl_free _ Hs).
    destruct (decide (x = slot)) as [->|Hne].
    + rewrite list_lookup_insert_eq by done. naive_solver.
    + rewrite list_lookup_insert_ne by done. naive_solver.
  - cbn [s2 free set_slab]. rewrite (mv_free _ _ Hm). cbn [free set_heap]. apply NoDup_app. split_and!; [apply Hs| |apply NoDup_singleton].
    intros x Hx Hx'%list_elem_of_singleton. subst x. apply (sl_free _ Hs) in Hx. congruence.
Qed.

Lemma sum_insert (l : list (option (Entry V))) i x y :
  l !! i = Some x ->
  foldr Z.add 0 (map (from_option e_size 0) (<[i := y]> l)) =
  foldr Z.add 0 (map (from_option e_size 0) l) - from_option e_size 0 x + from_option e_size 0 y.
Proof.
  revert i. induction l as [|z l IH]; intros i; [done|]. destruct i as [|i]; [intros [= ->]; cbn; lia|].
  intros H. change (<[S i := y]> (z :: l)) with (z :: <[i := y]> l). cbn [map foldr]. rewrite (IH i H). lia.
Qed.

Lemma sum_snoc (l : list (option (Entry V))) x :
  foldr Z.add 0 (map (from_option e_size 0) (l ++ [x])) =
  foldr Z.add 0 (map (from_option e_size 0) l) + from_option e_size 0 x.
Proof. induction l as [|z l IH]; cbn; [lia|]. rewrite IH. lia. Qed.

Lemma wrap_i64_add a b : as_i64 (as_i64 a + b) = as_i64 (a + b).
Proof.
  unfold wrap_i. replace ((a + 2 ^ (64 - 1)) mod 2 ^ 64 - 2 ^ (64 - 1) + b + 2 ^ (64 - 1)) with ((a + 2 ^ (64 - 1)) mod 2 ^ 64 + b) by lia.
  rewrite Zplus_mod_idemp_l. do 2 f_equal. lia.
Qed.

Lemma wrap_i64_add_r a b : as_i64 (a + as_i64 b) = as_i64 (a + b).
Proof. rewrite (Z.add_comm a), wrap_i64_add. f_equal. lia. Qed.

Lemma wrap_i64_opp a : as_i64 (- as_i64 a) = as_i64 (- a).
Proof.
  destruct (wrap_i_eqm 64 a ltac:(lia)) as [k Hk]. rewrite Hk. unfold wrap_i. do 1 f_equal.
  replace (- (a + k * 2 ^ 64) + 2 ^ (64 - 1)) with (- a + 2 ^ (64 - 1) + (- k) * 2 ^ 64) by lia. apply Z_mod_plus_full.
Qed.

(** The map after the removal of the key of an entry. *)
Definition drop_key (k : Key) (m : gmap Z (gmap Z nat)) : gmap Z (gmap Z nat) :=
  match m !! part_id k with
  | None => m
  | Some pes =>
      let pes := delete (offset k) pes in
      if decide (pes = ∅) then delete (part_id k) m else <[part_id k := pes]> m
  end.

Lemma drop_key_lookup k m k' :
  (pes ← drop_key k m !! part_id k'; pes !! offset k') =
  if decide (k' = k) then None else pes ← m !! part_id k'; pes !! offset k'.
Proof.
  unfold drop_key. destruct k as [p o], k' as [p' o']. cbn.
  destruct (m !! p) as [pes|] eqn:Hp; cbn.
  - destruct (decide (p' = p)) as [->|Hne].
    + rewrite Hp. cbn. destruct (decide (delete o pes = ∅)) as [He|He].
      * rewrite lookup_delete_eq. cbn. destruct (decide (mkKey p o' = mkKey p o)) as [|Hk]; [done|].
        rewrite <-(lookup_delete_ne pes o o') by congruence. by rewrite He, lookup_empty.
      * rewrite lookup_insert_eq. cbn. destruct (decide (mkKey p o' = mkKey p o)) as [[= ->]|Hk].
        -- by rewrite lookup_delete_eq.
        -- rewrite lookup_delete_ne by congruence. done.
    + rewrite (decide_False (P := mkKey p' o' = mkKey p o)) by congruence.
      destruct (decide (delete o pes = ∅)); [by rewrite lookup_delete_ne|by rewrite lookup_insert_ne].
  - destruct (decide (mkKey p' o' = mkKey p o)) as [[= -> ->]|]; [|done]. by rewrite Hp.
Qed.

(** An entry leaves the shard. *)
Record dropped e s s' : Prop := {
  dr_ok : shard_ok s';
  dr_was : cached_entry s (e_key e) = Some e;
  dr_rest : forall k, cached_entry s' k = if decide (k = e_key e) then None else cached_entry s k;
  dr_size : total_size s' = total_size s - e_size e;
  dr_len : S (length (heap s')) = length (heap s);
  dr_counters : counters s' = counters s;
}.

(** The entry at the root of the heap. *)
Lemma root_entry s slot :
  slab_ok s -> head (heap s) = Some slot ->
  exists v, view s !! slot = Some (Some v) /\
    forall slot' v', view s !! slot' = Some (Some v') -> last_access_time v <= last_access_time v'.
Proof.
  intros Hs Hh. assert (H0 : heap s !! 0%nat = Some slot) by (by destruct (heap s)).
  destruct (sl_indexed _ Hs _ _ H0) as (e & He & _). exists (strip e).
  assert (Hv : view s !! slot = Some (Some (strip e))) by (apply view_holds; eauto). split; [done|]. intros slot' v' Hv'.
  pose proof (heap_root_min (older s) (older_total s) (fun a b c => older_trans s a b c) _ _ (sl_lru _ Hs) H0 slot'
    (proj1 (list_elem_of_In _ _) (sl_heap _ Hs _ _ Hv'))) as Hmin.
  unfold older in Hmin. rewrite (view_time _ _ _ Hv), (view_time _ _ _ Hv') in Hmin. by apply Z.ltb_ge.
Qed.

Lemma remove_lru_ok s :
  shard_ok s -> heap s <> [] ->
  exists e s', remove_least_recently_accessed (E := E) s = Ok (e_block e, s') /\ dropped e s s' /\
    (forall k e', cached_entry s k = Some e' -> last_access_time e <= last_access_time e') /\
    exists slot, head (heap s) = Some slot /\ view s !! slot = Some (Some e).
Proof.
  intros Hs Hne. destruct (heap s) as [|slot h] eqn:Hh; [done|]. pose proof (so_slab _ Hs) as Hsl.
  destruct (root_entry s slot Hsl) as (v & Hv & Hmin); [by rewrite Hh|].
  destruct (take_out s 0 slot v Hsl) as (s1 & s2 & e & Hr & Hf & He & Hsl2 & Hv2 & Hm2 & Hsz2 & Hc2 & Hp2); [by rewrite Hh|done|].
  assert (Hkey : e_key e = e_key v) by (by subst v). assert (Hblk : e_block e = e_block v) by (by subst v). assert (Hsize : e_size e = e_size v) by (by subst v).
  unfold remove_least_recently_accessed. rewrite Hr, bind_Ok, Hf, bind_Ok. cbn [set_size sh_m size_bytes]. rewrite Hm2, Hsz2, Hkey, Hblk, Hsize.
  assert (Hfs : find_slot s (e_key v) = Some slot) by (apply (so_map _ Hs); eauto).
  pose proof Hfs as Hfs'. unfold find_slot in Hfs'. apply bind_Some in Hfs' as (pes & Hpes & Hof). rewrite Hpes.
  eexists v, _. split; [done|]. set (s3 := set_m _ _).
  assert (Hm3 : sh_m s3 = drop_key (e_key v) (sh_m s)) by (unfold drop_key; by rewrite Hpes).
  assert (Hfind : forall k, find_slot s3 k = if decide (k = e_key v) then None else find_slot s k).
  { intros k. unfold find_slot. rewrite Hm3. apply drop_key_lookup. }
  assert (Hview : view s3 = <[slot := None]> (view s)) by exact Hv2.
  pose proof (lookup_lt_Some _ _ _ Hv) as Hlt.
  assert (Hmap3 : map_ok s3).
  { intros k x. rewrite Hfind, Hview. destruct (decide (k = e_key v)) as [->|Hk].
    - split; [done|]. intros (w & Hw & Hkw). destruct (decide (x = slot)) as [->|Hxs]; [by rewrite list_lookup_insert_eq in Hw|].
      rewrite list_lookup_insert_ne in Hw by done. destruct Hxs. assert (find_slot s (e_key v) = Some x) by (apply (so_map _ Hs); eauto). congruence.
    - rewrite (so_map _ Hs k x). split; intros (w & Hw & Hkw); exists w; (split; [|done]).
      + rewrite list_lookup_insert_ne; [done|]. intros <-. rewrite Hv in Hw. congruence.
      + destruct (decide (x = slot)) as [->|Hxs]; [by rewrite list_lookup_insert_eq in Hw|]. by rewrite list_lookup_insert_ne in Hw. }
  split; [split|split].
  - split; [|done| |].
    + destruct Hsl2. by split.
    + intros p qs. rewrite Hm3. unfold drop_key. rewrite Hpes. destruct (decide _) as [He0|He0].
      * intros [_ Hq]%lookup_delete_Some. by eapply so_parts.
      * intros [[<- <-]|[_ Hq]]%lookup_insert_Some; [done|]. by eapply so_parts.
    + change (size_bytes s3) with (as_i64 (size_bytes s + as_i64 (- as_i64 (e_size v)))).
      rewrite wrap_i64_opp, wrap_i64_add_r, (so_size _ Hs), wrap_i64_add. unfold total_size. rewrite Hview, (sum_insert _ _ _ _ Hv). f_equal. cbn. lia.
  - apply cached_entry_some; [apply Hs|]. by exists slot.
  - intros k. unfold cached_entry. rewrite Hfind, Hview. destruct (decide (k = e_key v)) as [|Hk]; [done|].
    destruct (find_slot s k) as [x|] eqn:Hx; [|done]. cbn. rewrite list_lookup_insert_ne; [done|]. intros <-.
    apply (so_map _ Hs) in Hx as (w & Hw & Hkw). rewrite Hv in Hw. congruence.
  - unfold total_size. rewrite Hview, (sum_insert _ _ _ _ Hv). cbn. lia.
  - rewrite Hh in Hp2. rewrite <-Hh in Hp2. change (length (slot :: heap s3) = length (heap s)). exact (Permutation_length Hp2).
  - exact Hc2.
  - intros k e' He'. apply cached_entry_some in He' as (x & Hx & _); [|apply Hs]. by eapply Hmin.
  - exists slot. by rewrite Hv.
Qed.

(** ** Evictions *)

(** [s'] is [s] after evictions: the entries of [out] left, and no entry that
    stayed was accessed earlier than one that left. *)
Record evicted s s' (out : list (Entry V)) : Prop := {
  ev_ok : shard_ok s';
  ev_out : forall e, In e out -> cached_entry s (e_key e) = Some e;
  ev_rest : forall k, cached_entry s' k = if decide (k ∈ map e_key out) then None else cached_entry s k;
  ev_lru : forall e k e', In e out -> cached_entry s' k = Some e' -> last_access_time e <= last_access_time e';
  ev_size : total_size s' = total_size s - foldr Z.add 0 (map e_size out);
  ev_len : (length (heap s') + length out)%nat = length (heap s);
}.

Lemma evicted_refl s : shard_ok s -> evicted s s [].
Proof. intros Hs. split; try done; cbn; lia. Qed.

(** An eviction of the oldest entry, followed by more. *)
Lemma evicted_cons e s1 s2 s3 out :
  dropped e s1 s2 -> (forall k e', cached_entry s1 k = Some e' -> last_access_time e <= last_access_time e') ->
  evicted s2 s3 out -> evicted s1 s3 (e :: out).
Proof.
  intros Hd Hmin He. split.
  - apply He.
  - intros x [<-|Hx]; [apply Hd|]. pose proof (ev_out _ _ _ He x Hx) as Hc. rewrite (dr_rest _ _ _ Hd) in Hc. by destruct (decide _) in Hc.
  - intros k. rewrite (ev_rest _ _ _ He), (dr_rest _ _ _ Hd). cbn [map].
    destruct (decide (k ∈ map e_key out)) as [Hk|Hk].
    + rewrite decide_True; [done|]. by apply elem_of_cons; right.
    + destruct (decide (k = e_key e)) as [->|Hne].
      * rewrite decide_True; [done|]. by apply elem_of_cons; left.
      * rewrite decide_False; [done|]. by intros [?|?]%elem_of_cons.
  - intros x k e' [<-|Hx] Hc; [|by eapply ev_lru].
    rewrite (ev_rest _ _ _ He) in Hc. destruct (decide _) in Hc; [done|]. rewrite (dr_rest _ _ _ Hd) in Hc. destruct (decide _) in Hc; [done|].
    by eapply Hmin.
  - rewrite (ev_size _ _ _ He), (dr_size _ _ _ Hd). cbn. lia.
  - pose proof (ev_len _ _ _ He). pose proof (dr_len _ _ _ Hd). cbn. lia.
Qed.

(** The sweep of idle entries. *)
Lemma clean_loop_ok fuel dl max n s :
  shard_ok s -> (length (heap s) < fuel)%nat -> (n <= max)%nat ->
  exists capped s' out, clean_loop (E := E) fuel dl max n s = Ok (capped, s') /\ evicted s s' out /\ counters s' = counters s /\
    Forall (fun e => last_access_time e <= dl) out /\ (n + length out <= max)%nat /\
    (if capped : bool then (n + length out = max)%nat else forall k e, cached_entry s' k = Some e -> dl < last_access_time e).
Proof.
  revert n s. induction fuel as [|fuel IH]; intros n s Hs Hf Hn; [lia|]. cbn [clean_loop].
  destruct (head (heap s)) as [slot|] eqn:Hh.
  2:{ exists false, s, []. split_and!; [done|by apply evicted_refl|done|done|cbn; lia|]. intros k e He.
      apply cached_entry_some in He as (x & Hx & _); [|apply Hs]. apply (sl_heap _ (so_slab _ Hs)) in Hx.
      destruct (heap s); [by apply elem_of_nil in Hx|done]. }
  destruct (root_entry s slot (so_slab _ Hs) Hh) as (v & Hv & Hmin).
  assert (Hev : exists e, slot_holds s slot e /\ strip e = v) by (by apply view_holds). destruct Hev as (e & He & Hev).
  rewrite (entry_at_ok _ _ _ He), bind_Ok. assert (Ht : last_access_time e = last_access_time v) by (by subst v). rewrite Ht.
  destruct (Z.ltb_spec dl (last_access_time v)) as [Hlt|Hge].
  { exists false, s, []. split_and!; [done|by apply evicted_refl|done|done|cbn; lia|]. intros k x Hx.
    apply cached_entry_some in Hx as (y & Hy & _); [|apply Hs]. specialize (Hmin _ _ Hy). lia. }
  destruct (Nat.leb_spec max n) as [Hmx|Hmx].
  { exists true, s, []. split_and!; [done|by apply evicted_refl|done|done|cbn; lia|cbn; lia]. }
  destruct (remove_lru_ok s Hs) as (x & s1 & -> & Hd & Hlru & slot' & Hh' & Hx); [by intros H; rewrite H in Hh|]. rewrite bind_Ok.
  assert (slot' = slot) as -> by congruence. assert (x = v) as -> by congruence.
  destruct (IH (S n) s1 (dr_ok _ _ _ Hd)) as (capped & s2 & out & -> & Hevi & Hcnt & Hout & Hmax & Hcap); [pose proof (dr_len _ _ _ Hd); lia|lia|].
  exists capped, s2, (v :: out). split_and!; [done|by eapply evicted_cons|by rewrite Hcnt, (dr_counters _ _ _ Hd)|by constructor|cbn; lia|].
  destruct capped; [cbn; lia|done].
Qed.

(** The loop that makes room. *)
Lemma evict_loop_ok fuel max s :
  shard_ok s -> (length (heap s) < fuel)%nat ->
  exists s' out, evict_loop (E := E) fuel max s = Ok s' /\ evicted s s' out /\ counters s' = counters s /\
    (size_bytes s' <= as_i64 max \/ heap s' = []) /\
    (size_bytes s <= as_i64 max -> out = []).
Proof.
  revert s. induction fuel as [|fuel IH]; intros s Hs Hf; [lia|]. cbn [evict_loop].
  destruct (Z.ltb_spec (as_i64 max) (size_bytes s)) as [Hbig|Hfit]; cbn [andb].
  2:{ exists s, []. split_and!; [done|by apply evicted_refl|done|by left|done]. }
  destruct (Nat.eqb_spec (length (heap s)) 0) as [H0|Hne]; cbn [negb].
  { exists s, []. split_and!; [done|by apply evicted_refl|done| |done]. right. by apply length_zero_iff_nil. }
  destruct (remove_lru_ok s Hs) as (x & s1 & -> & Hd & Hlru & _); [by intros H; rewrite H in Hne|]. rewrite bind_Ok.
  destruct (IH s1 (dr_ok _ _ _ Hd)) as (s2 & out & -> & Hevi & Hcnt & Hsz & _); [pose proof (dr_len _ _ _ Hd); lia|].
  exists s2, (x :: out). split_and!; [done|by eapply evicted_cons|by rewrite Hcnt, (dr_counters _ _ _ Hd)|done|lia].
Qed.

(** ** The operations of a shard *)

(** Operations on the counters and deadlines leave the contents alone. *)
Lemma frame_ok s s' :
  sh_m s' = sh_m s -> entries s' = entries s -> free s' = free s -> heap s' = heap s -> size_bytes s' = size_bytes s ->
  shard_ok s -> shard_ok s' /\ (forall k, cached_entry s' k = cached_entry s k) /\ total_size s' = total_size s.
Proof.
  destruct s, s'. cbn. intros -> -> -> -> -> H. split; [|done].
  destruct H as [[] ? ? ?]. split; [split|..]; done.
Qed.

Lemma evicted_frame s s' s'' out :
  evicted s s' out -> sh_m s'' = sh_m s' -> entries s'' = entries s' -> free s'' = free s' -> heap s'' = heap s' ->
  size_bytes s'' = size_bytes s' -> evicted s s'' out.
Proof.
  intros He H1 H2 H3 H4 H5. destruct (frame_ok s' s'' H1 H2 H3 H4 H5 (ev_ok _ _ _ He)) as (Hok & Hc & Ht).
  split; [done|apply He| | |by rewrite Ht; apply He|by rewrite H4; apply He].
  - intros k. rewrite Hc. apply He.
  - intros e k e'. rewrite Hc. apply He.
Qed.

(** The cleaning that every access runs first: at most [MAX_CLEAN_PER_TRIGGER]
    entries idle for [MAX_IDLE_SECS] leave, and the miss counters are reset
    when their time has come. *)
Record cleaned (now : Z) s s' (out : list (Entry V)) : Prop := {
  cl_evicted : evicted s s' out;
  cl_idle : Forall (fun e => last_access_time e <= Z.max 0 (now - MAX_IDLE_SECS)) out;
  cl_max : (length out <= MAX_CLEAN_PER_TRIGGER)%nat;
  cl_requests : requests s' = requests s;
  cl_misses : misses s' = misses s;
  cl_pkm : per_key_misses s' = if next_per_key_misses_clean_deadline s <=? now then ∅ else per_key_misses s;
}.

Lemma maybe_clean_ok now s :
  shard_ok s -> exists s' out, maybe_clean (E := E) now s = Ok s' /\ cleaned now s s' out.
Proof.
  intros Hs. unfold maybe_clean.
  assert (H1 : exists s1 out, clean_idle (E := E) now s = Ok s1 /\ evicted s s1 out /\ Forall (fun e => last_access_time e <= Z.max 0 (now - MAX_IDLE_SECS)) out /\
       (length out <= MAX_CLEAN_PER_TRIGGER)%nat /\ requests s1 = requests s /\ misses s1 = misses s /\ per_key_misses s1 = per_key_misses s /\
       next_per_key_misses_clean_deadline s1 = next_per_key_misses_clean_deadline s).
  { unfold clean_idle. destruct (next_clean_deadline s <=? now).
    - unfold clean_by_timeout. destruct (clean_loop_ok (S (length (heap s))) (Z.max 0 (now - MAX_IDLE_SECS)) MAX_CLEAN_PER_TRIGGER 0 s)
        as (capped & s1 & out & -> & He & Hcnt & Hout & Hmax & _); [done|lia|lia|]. rewrite bind_Ok.
      injection Hcnt as Hc1 Hc2 Hc3 Hc4 Hc5. eexists _, out. split; [done|]. split_and!; try done. by eapply evicted_frame.
    - exists s, []. split_and!; try done; [by apply evicted_refl|cbn; lia]. }
  destruct H1 as (s1 & out & -> & He & Hidle & Hmax & Hr & Hm & Hp & Hd). rewrite bind_Ok. rewrite Hd.
  destruct (next_per_key_misses_clean_deadline s <=? now) eqn:Hnow.
  - eexists _, out. split; [done|]. split; try done; [by eapply evicted_frame|by rewrite Hnow].
  - exists s1, out. split; [done|]. split; try done. by rewrite Hnow.
Qed.

(** Changing the time of an entry. *)
Lemma touch_ok s slot e now :
  shard_ok s -> slot_holds s slot e ->
  exists s', (s0 ← put_entry (E := E) s slot (with_time e now); heap_fix s0 (heap_idx e)) = Ok s' /\ shard_ok s' /\
    (forall k, cached_entry s' k = if decide (k = e_key e) then Some (strip (with_time e now)) else cached_entry s k) /\
    total_size s' = total_size s /\ counters s' = counters s.
Proof.
  intros Hs He. pose proof (so_slab _ Hs) as Hsl. unfold put_entry. rewrite (entry_at_ok _ _ _ He), !bind_Ok.
  set (s0 := set_slab _ _ _). pose proof (lookup_lt_Some _ _ _ He) as Hlt.
  assert (Hvs : view s !! slot = Some (Some (strip e))) by (apply view_holds; eauto).
  assert (Hv0 : view s0 = <[slot := Some (strip (with_time e now))]> (view s)) by (unfold view, s0; cbn [entries set_slab]; by rewrite list_fmap_insert).
  assert (Hvlt : (slot < length (view s))%nat) by (unfold view; by rewrite length_fmap).
  assert (Hi : heap s !! heap_idx e = Some slot).
  { pose proof (sl_heap _ Hsl _ _ Hvs) as [i Hi]%list_elem_of_lookup. destruct (sl_indexed _ Hsl _ _ Hi) as (e' & He' & <-).
    unfold slot_holds in *. congruence. }
  assert (Hi0 : indexed s0).
  { intros j x Hj. destruct (sl_indexed _ Hsl j x Hj) as (ex & Hex & Hjx). destruct (decide (x = slot)) as [->|Hne].
    - exists (with_time e now). unfold slot_holds, s0. cbn [entries set_slab]. rewrite list_lookup_insert_eq by done. split; [done|].
      unfold slot_holds in *. assert (ex = e) as -> by congruence. done.
    - exists ex. unfold slot_holds, s0. cbn [entries set_slab]. by rewrite list_lookup_insert_ne. }
  assert (Hold : forall a b, a <> slot -> b <> slot -> older s0 a b = older s a b).
  { intros a b Ha Hb. unfold older, slot_time, s0. cbn [entries set_slab]. by rewrite !list_lookup_insert_ne. }
  assert (Hpos : forall j x, j <> heap_idx e -> heap s !! j = Some x -> x <> slot).
  { intros j x Hj Hx ->. destruct Hj. by eapply indexed_inj; [apply Hsl|..]. }
  destruct (heap_fix_ok (E := E) s0 (heap_idx e) Hi0) as (s1 & Hf & Hm & Hi1 & Hl1).
  { by eapply lookup_lt_Some. }
  { intros p c a b Hpc Hp Hc Ha Hb. rewrite Hold; [|by apply (Hpos c)|by apply (Hpos p)]. by apply (sl_lru _ Hsl p c); (done || lia). }
  { intros p c a b Hpi Hic _ Ha Hb. rewrite Hold; [|apply (Hpos c); [unfold child in *; lia|done]|apply (Hpos p); [unfold child in *; lia|done]].
    apply (older_trans s _ slot); [apply (sl_lru _ Hsl p (heap_idx e))|apply (sl_lru _ Hsl (heap_idx e) c)]; (done || lia). }
  exists s1. split; [exact Hf|]. pose proof (moved_view _ _ Hm) as Hv1. rewrite Hv0 in Hv1.
  assert (Hfind : forall k, find_slot s1 k = find_slot s k) by (intros k; unfold find_slot; by rewrite (mv_m _ _ Hm)).
  assert (Hlk : forall x v, view s1 !! x = Some (Some v) <->
    if decide (x = slot) then v = strip (with_time e now) else view s !! x = Some (Some v)).
  { intros x v. rewrite Hv1. destruct (decide (x = slot)) as [->|Hne]; [rewrite list_lookup_insert_eq by done; naive_solver|by rewrite list_lookup_insert_ne]. }
  assert (Hmap : map_ok s1).
  { intros k x. rewrite Hfind, (so_map _ Hs k x). split; intros (v & Hv & Hk).
    - destruct (decide (x = slot)) as [->|Hne]; [exists (strip (with_time e now))|exists v]; (split; [apply Hlk|]); rewrite ?decide_True, ?decide_False by done; try done.
      rewrite Hvs in Hv. injection Hv as <-. done.
    - apply Hlk in Hv. case_decide as Hd; [subst x|by exists v]. exists (strip e). split; [done|]. by subst v. }
  assert (Hsize : total_size s1 = total_size s) by (unfold total_size; rewrite Hv1, (sum_insert _ _ _ _ Hvs); cbn; lia).
  split_and!; [|..|done|exact (moved_counters _ _ Hm)].
  - split; [split; [done|done|..]|done| |].
    + intros x v Hx. rewrite (mv_heap _ _ Hm). change (heap s0) with (heap s). apply Hlk in Hx. case_decide; [subst x|]; by eapply sl_heap.
    + intros x. rewrite (mv_free _ _ Hm), Hv1. cbn [s0 free set_slab]. rewrite (sl_free _ Hsl).
      destruct (decide (x = slot)) as [->|Hne]; [rewrite list_lookup_insert_eq, Hvs by done; naive_solver|by rewrite list_lookup_insert_ne].
    + rewrite (mv_free _ _ Hm). apply Hsl.
    + intros p pes. rewrite (mv_m _ _ Hm). apply (so_parts _ Hs).
    + rewrite (mv_size _ _ Hm), Hsize. apply (so_size _ Hs).
  - intros k. unfold cached_entry. rewrite Hfind, Hv1. destruct (decide (k = e_key e)) as [->|Hk].
    + assert (find_slot s (e_key e) = Some slot) as -> by (apply (so_map _ Hs); eauto). cbn. by rewrite list_lookup_insert_eq.
    + destruct (find_slot s k) as [x|] eqn:Hx; [|done]. cbn. rewrite list_lookup_insert_ne; [done|]. intros <-.
      apply (so_map _ Hs) in Hx as (w & Hw & Hkw). rewrite Hvs in Hw. injection Hw as <-. done.
Qed.

(** [get_block]: the answer is what the shard holds after the cleaning, and the
    contents stay; a hit counts as an access now, a miss is counted. *)
Record got (now : Z) (k : Key) s (r : option V) s' : Prop := {
  gt_ok : shard_ok s';
  gt_clean : exists s1 out, cleaned now (set_counters s (as_u64 (requests s + 1)) (misses s)) s1 out /\
    r = cached s1 k /\ (forall k', cached s' k' = cached s1 k') /\ total_size s' = total_size s1 /\
    (forall k', k' <> k -> cached_entry s' k' = cached_entry s1 k') /\
    (forall e, cached_entry s' k = Some e -> last_access_time e = now) /\
    misses s' = (if r then misses s else as_u64 (misses s + 1)) /\
    (r = None -> per_key_misses s' !! k = Some (as_u32 (default 0 (per_key_misses s1 !! k) + 1)));
  gt_requests : requests s' = as_u64 (requests s + 1);
}.

Lemma shard_get_ok now k s :
  shard_ok s -> exists r s', shard_get_block (E := E) now k s = Ok (r, s') /\ got now k s r s'.
Proof.
  intros Hs. unfold shard_get_block. set (s0 := set_counters s _ _).
  assert (Hs0 : shard_ok s0) by (by apply (frame_ok s s0)).
  destruct (maybe_clean_ok now s0 Hs0) as (s1 & out & -> & Hc). rewrite bind_Ok. pose proof (ev_ok _ _ _ (cl_evicted _ _ _ _ Hc)) as Hs1.
  unfold get_block_locked. destruct (find_slot s1 k) as [slot|] eqn:Hf.
  - pose proof Hf as Hf'. apply (so_map _ Hs1) in Hf' as (v & Hv & Hk). apply view_holds in Hv as (e & He & Hev).
    assert (Hek : e_key e = k) by (by subst v). assert (Hce : cached_entry s1 k = Some (strip e)).
    { apply cached_entry_some; [apply Hs1|]. exists slot. split; [apply view_holds; eauto|by subst v]. }
    rewrite (entry_at_ok _ _ _ He), bind_Ok.
    assert (Hr : cached s1 k = Some (e_block e)) by (unfold cached; by rewrite Hce).
    destruct (Z.eqb_spec (last_access_time e) now) as [Ht|Ht]; cbn [negb].
    + rewrite bind_Ok. exists (Some (e_block e)), s1. split; [done|]. split; [done| |by rewrite (cl_requests _ _ _ _ Hc)].
      exists s1, out. split_and!; try done; [|by rewrite (cl_misses _ _ _ _ Hc)]. intros e' He'. rewrite Hce in He'. injection He' as <-. done.
    + destruct (touch_ok s1 slot e now Hs1 He) as (s2 & -> & Hs2 & Hc2 & Ht2 & Hcnt). rewrite bind_Ok. injection Hcnt as Hn1 Hn2 Hn3 Hn4 Hn5.
      exists (Some (e_block e)), s2. split; [done|]. rewrite Hek in Hc2.
      split; [done| |by rewrite Hn1, (cl_requests _ _ _ _ Hc)]. exists s1, out. split_and!; try done.
      * intros k'. unfold cached at 1. rewrite Hc2. destruct (decide (k' = k)) as [->|]; [by rewrite Hr|done].
      * intros k' Hk'. rewrite Hc2. by rewrite decide_False.
      * intros e' He'. rewrite Hc2, decide_True in He' by done. injection He' as <-. done.
      * by rewrite Hn2, (cl_misses _ _ _ _ Hc).
  - assert (Hnone : cached_entry s1 k = None) by (unfold cached_entry; by rewrite Hf).
    eexists None, _. split; [done|]. set (s2 := set_counters _ _ _).
    destruct (frame_ok s1 s2) as (Hs2 & Hc2 & Ht2); [done..|]. split; [done| |exact (cl_requests _ _ _ _ Hc)].
    exists s1, out. split_and!; try done.
    + unfold cached. by rewrite Hnone.
    + intros e. by rewrite Hc2, Hnone.
    + cbn [s2 misses set_counters]. by rewrite (cl_misses _ _ _ _ Hc).
    + intros _. cbn. apply lookup_insert_eq.
Qed.

(** A free slot for a new entry. *)
Lemma alloc_ok s e :
  slab_ok s -> heap_idx e = 0%nat ->
  exists slot s1, alloc_slot (E := E) s e = Ok (slot, s1) /\ slot ∉ heap s /\ heap s1 = heap s /\ sh_m s1 = sh_m s /\
    size_bytes s1 = size_bytes s /\ counters s1 = counters s /\ slot_holds s1 slot e /\
    (forall x, x <> slot -> entries s1 !! x = entries s !! x) /\ view s !! slot ∈ [None; Some None] /\
    (forall x, x ∈ free s1 <-> x ∈ free s /\ x <> slot) /\ NoDup (free s1) /\ total_size s1 = total_size s + e_size e.
Proof.
  intros Hsl H0.
  unfold alloc_slot. assert (Hnh : forall x, (entries s !! x = Some None \/ entries s !! x = None) -> x ∉ heap s).
  { intros x Hx [i Hi]%list_elem_of_lookup. destruct (sl_indexed _ Hsl _ _ Hi) as (ex & Hex & _). unfold slot_holds in Hex. naive_solver. }
  destruct (free s) as [|slot fr _] eqn:Hfr using rev_ind.
  - eexists (length (entries s)), _. split; [done|]. cbn. split_and!; try done; rewrite ?Hfr.
    + apply Hnh. right. by apply lookup_ge_None_2.
    + unfold slot_holds. cbn. by rewrite list_lookup_middle.
    + intros x Hx. destruct (decide (x < length (entries s))%nat); [by rewrite lookup_app_l|].
      rewrite !lookup_ge_None_2; [done|lia|rewrite length_app; cbn; lia].
    + rewrite lookup_ge_None_2; [left|]. unfold view. by rewrite length_fmap.
    + intros x. split; [by intros ?%elem_of_nil|by intros [?%elem_of_nil _]].
    + constructor.
    + unfold total_size, view. cbn. rewrite fmap_app. cbn. rewrite sum_snoc. cbn. lia.
  - rewrite vec_pop_snoc. assert (Hin : slot ∈ free s) by (rewrite Hfr; apply elem_of_app; right; by apply list_elem_of_singleton).
    apply (sl_free _ Hsl) in Hin. pose proof (proj1 (view_free s slot) Hin) as Hen. pose proof (lookup_lt_Some _ _ _ Hen) as Hlt.
    pose proof (sl_free_nodup _ Hsl) as Hnd. rewrite Hfr in Hnd. apply NoDup_app in Hnd as (Hnd & Hdis & _).
    unfold set_idx. rewrite decide_True, bind_Ok by done. eexists slot, _. split; [done|]. cbn. split_and!; try done.
    + apply Hnh. by left.
    + unfold slot_holds. cbn. by rewrite list_lookup_insert_eq.
    + intros x Hx. by rewrite list_lookup_insert_ne.
    + rewrite Hin. right. by left.
    + intros x. rewrite elem_of_app, list_elem_of_singleton. split.
      * intros Hx. split; [by left|]. intros ->. apply (Hdis _ Hx). by apply list_elem_of_singleton.
      * naive_solver.
    + unfold total_size, view. cbn. rewrite list_fmap_insert. rewrite (sum_insert _ _ None); [cbn; lia|]. exact Hin.
Qed.

(** A new entry: a slot of the slab, the heap and the map. *)
Lemma insert_ok now k (b : V) s :
  shard_ok s -> find_slot s k = None ->
  exists slot s1 s2, alloc_slot (E := E) s (mkEntry now 0 k b (block_size_bytes b)) = Ok (slot, s1) /\ heap_push (E := E) s1 slot = Ok s2 /\
    let s3 := set_size (set_m s2 (<[part_id k := <[offset k := slot]> (default ∅ (sh_m s2 !! part_id k))]> (sh_m s2)))
                (as_i64 (size_bytes s2 + as_i64 (block_size_bytes b))) in
    shard_ok s3 /\ (forall k', cached_entry s3 k' = if decide (k' = k) then Some (mkEntry now 0 k b (block_size_bytes b)) else cached_entry s k') /\
    total_size s3 = total_size s + block_size_bytes b /\ counters s3 = counters s.
Proof.
  intros Hs Hf. pose proof (so_slab _ Hs) as Hsl. set (e := mkEntry now 0 k b _).
  destruct (alloc_ok s e Hsl eq_refl) as (slot & s1 & Ha & Hnh & Hh1 & Hm1 & Hsz1 & Hcnt1 & He1 & Hx1 & Hvn & Hfr1 & Hnd1 & Ht1).
  assert (Hview1 : forall x v, view s1 !! x = Some (Some v) <-> if decide (x = slot) then v = e else view s !! x = Some (Some v)).
  { intros x v. destruct (decide (x = slot)) as [->|Hne]; rewrite !view_holds.
    - unfold slot_holds in *. split; [intros (e' & He' & <-); rewrite He1 in He'; by injection He' as <-|intros ->; by exists e].
    - unfold slot_holds. by setoid_rewrite (Hx1 x Hne). }
  assert (Hi1 : indexed s1).
  { intros i x. rewrite Hh1. intros Hi. destruct (sl_indexed _ Hsl _ _ Hi) as (ex & Hex & Hix). exists ex. split; [|done]. unfold slot_holds.
    rewrite Hx1; [done|]. intros ->. destruct Hnh. by eapply list_elem_of_lookup_2. }
  assert (Hl1 : lru_heap s1).
  { intros p c x y Hpc _ _. rewrite Hh1. intros Hx Hy. rewrite <-(sl_lru _ Hsl p c x y Hpc ltac:(lia) ltac:(done) Hx Hy).
    unfold older, slot_time. rewrite !Hx1; [done| |]; intros ->; destruct Hnh; by eapply list_elem_of_lookup_2. }
  destruct (heap_push_ok (E := E) s1 slot e Hi1 Hl1 He1) as (s2 & Hp & Hmv & Hi2 & Hl2); [by rewrite Hh1|].
  exists slot, s1, s2. split; [done|]. split; [done|]. set (s3 := set_size _ _). cbn zeta.
  assert (Hv3 : view s3 = view s1) by exact (moved_view _ _ Hmv). pose proof (mv_m _ _ Hmv) as Hm2. cbn [set_heap sh_m] in Hm2. rewrite Hm1 in Hm2.
  assert (Hfind : forall k', find_slot s3 k' = if decide (k' = k) then Some slot else find_slot s k').
  { intros [p o]. unfold find_slot. cbn [s3 set_size set_m sh_m part_id offset]. rewrite Hm2. destruct k as [pk ok]. cbn.
    destruct (decide (p = pk)) as [->|Hpne].
    - rewrite lookup_insert_eq. cbn. destruct (decide (o = ok)) as [->|Ho].
      + rewrite lookup_insert_eq. by rewrite decide_True.
      + rewrite lookup_insert_ne by done. rewrite decide_False by congruence. destruct (sh_m s !! pk); [done|]. cbn. by rewrite lookup_empty.
    - rewrite lookup_insert_ne by done. by rewrite decide_False by congruence. }
  assert (Hkey : forall x v, view s !! x = Some (Some v) -> e_key v <> k).
  { intros x v Hv Hk. assert (find_slot s k = Some x) by (apply (so_map _ Hs); eauto). congruence. }
  assert (Hmap3 : map_ok s3).
  { intros k' x. rewrite Hfind, Hv3. destruct (decide (k' = k)) as [->|Hk'].
    - split.
      + intros [= <-]. exists e. split; [|done]. apply Hview1. by rewrite decide_True.
      + intros (v & Hv & Hk). apply Hview1 in Hv. case_decide; [congruence|]. by destruct (Hkey x v).
    - rewrite (so_map _ Hs k' x). split; intros (v & Hv & Hk).
      + exists v. split; [|done]. apply Hview1. case_decide; [|done]. subst x. rewrite Hv in Hvn. by apply elem_of_cons in Hvn as [|[|?%elem_of_nil]%elem_of_cons].
      + apply Hview1 in Hv. case_decide; [|by exists v]. destruct Hk'. rewrite <-Hk, Hv. done. }
  split_and!.
  - split; [|done| |].
    + split; [exact Hi2|exact Hl2| | |]; rewrite ?Hv3.
      * intros x v Hx. change (x ∈ heap s2). rewrite (mv_heap _ _ Hmv). cbn [heap set_heap]. rewrite Hh1. apply elem_of_app.
        apply Hview1 in Hx. case_decide; [right; by apply list_elem_of_singleton|left; by eapply sl_heap].
      * intros x. change (x ∈ free s2 <-> view s1 !! x = Some None). rewrite (mv_free _ _ Hmv). cbn [free set_heap]. rewrite Hfr1, (sl_free _ Hsl), !view_free.
        destruct (decide (x = slot)) as [->|Hne]; [|rewrite Hx1 by done; naive_solver]. unfold slot_holds in He1. rewrite He1. naive_solver.
      * change (NoDup (free s2)). by rewrite (mv_free _ _ Hmv).
    + intros p pes. cbn [s3 set_size set_m sh_m]. rewrite Hm2. intros [[<- <-]|[_ Hq]]%lookup_insert_Some; [apply insert_non_empty|by eapply so_parts].
    + cbn [s3 set_size set_m size_bytes]. rewrite (mv_size _ _ Hmv). cbn [size_bytes set_heap]. rewrite Hsz1, (so_size _ Hs), wrap_i64_add_r, wrap_i64_add.
      unfold total_size. rewrite Hv3. fold (total_size s1). by rewrite Ht1.
  - intros k'. unfold cached_entry. rewrite Hfind, Hv3. destruct (decide (k' = k)) as [->|Hk'].
    + cbn. assert (Hve : view s1 !! slot = Some (Some e)) by (apply Hview1; by rewrite decide_True). by rewrite Hve.
    + destruct (find_slot s k') as [x|] eqn:Hx; [|done]. cbn. apply (so_map _ Hs) in Hx as (v & Hv & Hkv). rewrite Hv.
      assert (Hv1 : view s1 !! x = Some (Some v)); [|by rewrite Hv1]. apply Hview1. case_decide; [|done]. subst x. rewrite Hv in Hvn.
      by apply elem_of_cons in Hvn as [|[|?%elem_of_nil]%elem_of_cons].
  - unfold total_size. rewrite Hv3. exact Ht1.
  - rewrite <-Hcnt1. exact (moved_counters _ _ Hmv).
Qed.

(** [try_put_block]: after the cleaning, a block that was missed a few times
    only is refused; one that is there already stays; any other is stored, and
    the least recently accessed entries leave until the size fits. *)
Record put (now : Z) (k : Key) (b : V) (max mbc : Z) s (r : bool) s' : Prop := {
  pt_ok : shard_ok s';
  pt_clean : exists s1 out, cleaned now s s1 out /\
    let n := default 0 (per_key_misses s1 !! k) in
    if (0 <? n) && (n <=? mbc) then r = false /\ s' = s1
    else r = true /\ per_key_misses s' !! k = Some 0 /\
      if decide (is_Some (cached_entry s1 k)) then (forall k', cached_entry s' k' = cached_entry s1 k') /\ total_size s' = total_size s1
      else exists s2 out', shard_ok s2 /\ evicted s2 s' out' /\
        (forall k', cached_entry s2 k' = if decide (k' = k) then Some (mkEntry now 0 k b (block_size_bytes b)) else cached_entry s1 k') /\
        total_size s2 = total_size s1 + block_size_bytes b /\
        (size_bytes s' <= as_i64 max \/ heap s' = []) /\ (size_bytes s2 <= as_i64 max -> out' = []);
}.

Lemma found_iff s k : map_ok s -> is_Some (find_slot s k) <-> is_Some (cached_entry s k).
Proof.
  intros Hm. unfold cached_entry. destruct (find_slot s k) as [x|] eqn:Hx; [|cbn; split; by intros []]. apply Hm in Hx as (v & Hv & _). cbn. rewrite Hv. cbn. split; by eexists.
Qed.

Lemma shard_put_ok now k b max mbc s :
  shard_ok s -> exists r s', shard_try_put_block (E := E) now k b max mbc s = Ok (r, s') /\ put now k b max mbc s r s'.
Proof.
  intros Hs. unfold shard_try_put_block. destruct (maybe_clean_ok now s Hs) as (s1 & out & -> & Hc). rewrite bind_Ok.
  pose proof (ev_ok _ _ _ (cl_evicted _ _ _ _ Hc)) as Hs1. destruct ((0 <? _) && _) eqn:Href.
  { exists false, s1. split; [done|]. split; [done|]. exists s1, out. split; [done|]. cbn zeta. by rewrite Href. }
  set (s1' := set_misses s1 _). destruct (frame_ok s1 s1') as (Hs1' & Hc1 & Ht1); [done..|].
  assert (Hfound : is_Some (find_slot s1' k) <-> is_Some (cached_entry s1 k)) by (rewrite <-Hc1; apply found_iff, Hs1').
  destruct (bool_decide_reflect (is_Some (find_slot s1' k))) as [Hf|Hf].
  { exists true, s1'. split; [done|]. split; [done|]. exists s1, out. split; [done|]. cbn zeta. rewrite Href. split_and!; [done|apply lookup_insert_eq|].
    rewrite decide_True by (by apply Hfound). done. }
  assert (Hfn : find_slot s1' k = None) by (destruct (find_slot s1' k); [by destruct Hf|done]).
  destruct (insert_ok now k b s1' Hs1' Hfn) as (slot & s2 & s3 & -> & Hpush & Hs4 & Hc4 & Ht4 & Hcnt4). rewrite bind_Ok, Hpush, bind_Ok.
  set (s4 := set_size _ _) in *. destruct (evict_loop_ok (S (length (heap s4))) max s4 Hs4) as (s5 & out' & -> & He & Hcnt5 & Hsz & Hfit); [lia|].
  rewrite bind_Ok. exists true, s5. split; [done|]. split; [apply He|]. exists s1, out. split; [done|]. cbn zeta. rewrite Href.
  assert (Hp : per_key_misses s5 = per_key_misses s1') by (unfold counters in *; congruence).
  split_and!; [done|rewrite Hp; apply lookup_insert_eq|]. rewrite decide_False by (by rewrite <-Hfound).
  exists s4, out'. split_and!; [done|done| |by rewrite Ht4, Ht1|done|done]. intros k'. by rewrite Hc4, Hc1.
Qed.

(** The slots of a removed part leave the heap and the slab. *)
Lemma remove_slots_ok pes acc s :
  slab_ok s -> NoDup pes.*2 -> Forall (fun p => exists v, view s !! p.2 = Some (Some v)) pes -> as_i64 acc = acc ->
  exists s' sz, remove_slots (E := E) pes acc s = Ok (as_i64 (acc + sz), s') /\ slab_ok s' /\ sh_m s' = sh_m s /\
    size_bytes s' = size_bytes s /\ counters s' = counters s /\ total_size s' = total_size s - sz /\
    forall x, view s' !! x = if decide (x ∈ pes.*2) then Some None else view s !! x.
Proof.
  revert acc s. induction pes as [|[o slot] pes IH]; intros acc s Hs Hnd Hall Hacc; cbn [remove_slots].
  { exists s, 0. rewrite Z.add_0_r, Hacc. split_and!; try done. lia. }
  cbn in Hnd. apply NoDup_cons in Hnd as [Hni Hnd]. apply Forall_cons in Hall as [[v Hv] Hall]. cbn in Hv.
  pose proof Hv as Hv'. apply view_holds in Hv' as (e & He & Hev). rewrite (entry_at_ok _ _ _ He), bind_Ok.
  assert (Hi : heap s !! heap_idx e = Some slot).
  { pose proof (sl_heap _ Hs _ _ Hv) as [i Hi]%list_elem_of_lookup. destruct (sl_indexed _ Hs _ _ Hi) as (e' & He' & <-). unfold slot_holds in *. congruence. }
  destruct (take_out s (heap_idx e) slot v Hs Hi Hv) as (s1 & s2 & e2 & -> & Hfree & Hse & Hs2 & Hv2 & Hm2 & Hsz2 & Hc2 & _).
  rewrite bind_Ok, Hfree, bind_Ok. pose proof (lookup_lt_Some _ _ _ Hv) as Hlt.
  destruct (IH (as_i64 (acc + as_i64 (e_size e2))) s2 Hs2 Hnd) as (s3 & sz & -> & Hs3 & Hm3 & Hsz3 & Hc3 & Ht3 & Hv3).
  - revert Hall. rewrite !Forall_forall. intros Hall [o' x] Hx. destruct (Hall _ Hx) as [w Hw]. exists w. cbn in *. rewrite Hv2.
    rewrite list_lookup_insert_ne; [done|]. intros <-. destruct Hni. by apply (list_elem_of_fmap_2 snd) in Hx.
  - apply wrap_i_id; [lia|apply wrap_i_range; lia].
  - assert (Hsize : e_size e2 = e_size v) by (by rewrite <-Hse).
    exists s3, (e_size v + sz). split_and!; [|done|congruence|congruence|congruence| |].
    + do 2 f_equal. rewrite Hsize, wrap_i64_add, <-Z.add_assoc, (Z.add_comm (as_i64 (e_size v))), Z.add_assoc, wrap_i64_add_r. f_equal. lia.
    + rewrite Ht3. unfold total_size. rewrite Hv2, (sum_insert _ _ _ _ Hv). cbn. lia.
    + intros x. rewrite Hv3, Hv2. cbn. destruct (decide (x = slot)) as [->|Hne].
      * rewrite decide_False by done. rewrite decide_True by (by apply elem_of_cons; left). by rewrite list_lookup_insert_eq.
      * rewrite list_lookup_insert_ne by done. destruct (decide (x ∈ pes.*2)) as [Hx|Hx].
        -- by rewrite decide_True by (by apply elem_of_cons; right).
        -- rewrite decide_False; [done|]. by intros [?|?]%elem_of_cons.
Qed.

(** [remove_blocks_for_part]: exactly the entries of the part leave, in
    whatever order the map yields them. *)
Lemma shard_remove_ok iter p s :
  shard_ok s -> (forall m : gmap Z nat, iter m ≡ₚ map_to_list m) ->
  exists s', shard_remove_blocks_for_part (E := E) iter p s = Ok s' /\ shard_ok s' /\ counters s' = counters s /\
    forall k, cached_entry s' k = if decide (part_id k = p) then None else cached_entry s k.
Proof.
  intros Hs Hiter. unfold shard_remove_blocks_for_part. destruct (sh_m s !! p) as [pes|] eqn:Hpes.
  2:{ exists s. split_and!; try done. intros k. case_decide as Hk; [|done]. unfold cached_entry, find_slot. by rewrite Hk, Hpes. }
  set (s0 := set_m s (delete p (sh_m s))).
  assert (Hsl0 : slab_ok s0) by (destruct (so_slab _ Hs); by split).
  assert (Hin : forall o x, (o, x) ∈ iter pes <-> find_slot s (mkKey p o) = Some x).
  { intros o x. rewrite Hiter, elem_of_map_to_list. unfold find_slot. cbn. by rewrite Hpes. }
  assert (Hslot : forall x, x ∈ (iter pes).*2 <-> exists v, view s !! x = Some (Some v) /\ part_id (e_key v) = p).
  { intros x. rewrite list_elem_of_fmap. split.
    - intros ([o y] & -> & Hy). apply Hin in Hy. apply (so_map _ Hs) in Hy as (v & Hv & Hk). exists v. cbn. by rewrite Hk.
    - intros (v & Hv & Hk). exists (offset (e_key v), x). split; [done|]. apply Hin. apply (so_map _ Hs). exists v. split; [done|].
      destruct (e_key v). cbn in *. by subst. }
  destruct (remove_slots_ok (iter pes) 0 s0 Hsl0) as (s1 & sz & -> & Hs1 & Hm1 & Hsz1 & Hc1 & Ht1 & Hv1); [| |done|].
  - apply NoDup_fmap_2_strong; [|rewrite Hiter; apply NoDup_map_to_list].
    intros [o x] [o' x'] Hx Hx' Heq. cbn in Heq. subst x'. apply Hin in Hx, Hx'. apply (so_map _ Hs) in Hx as (v & Hv & Hk), Hx' as (v' & Hv' & Hk'). congruence.
  - apply Forall_forall. intros [o x] Hx. apply Hin in Hx. apply (so_map _ Hs) in Hx as (v & Hv & _). by exists v.
  - rewrite bind_Ok. eexists. split; [done|]. set (s2 := set_size _ _).
    assert (Hv2 : forall x v, view s2 !! x = Some (Some v) <-> view s !! x = Some (Some v) /\ part_id (e_key v) <> p).
    { intros x v. change (view s2) with (view s1). rewrite Hv1. change (view s0) with (view s). case_decide as Hx.
      - apply Hslot in Hx as (w & Hw & Hpw). naive_solver.
      - split; [|naive_solver]. intros Hv. split; [done|]. intros Hp. destruct Hx. apply Hslot. by exists v. }
    assert (Hf2 : forall k, find_slot s2 k = if decide (part_id k = p) then None else find_slot s k).
    { intros k. unfold find_slot. cbn [s2 set_size sh_m]. rewrite Hm1. cbn [s0 set_m sh_m]. case_decide as Hk.
      - by rewrite Hk, lookup_delete_eq.
      - by rewrite lookup_delete_ne. }
    assert (Hmap2 : map_ok s2).
    { intros k x. rewrite Hf2. case_decide as Hk.
      - split; [done|]. intros (v & [_ Hv]%Hv2 & Hkv). congruence.
      - rewrite (so_map _ Hs k x). split; intros (v & Hv & Hkv); exists v; (split; [|done]); [apply Hv2; split; [done|congruence]|by apply Hv2 in Hv as [? _]]. }
    split_and!; [|exact Hc1|].
    + split; [destruct Hs1; by split|done| |].
      * intros q qs. cbn [s2 set_size sh_m]. rewrite Hm1. cbn [s0 set_m sh_m]. intros [_ Hq]%lookup_delete_Some. by eapply so_parts.
      * cbn [s2 set_size size_bytes]. change (total_size s2) with (total_size s1). rewrite Hsz1, Ht1, wrap_i64_opp, wrap_i64_add_r.
        change (size_bytes s0) with (size_bytes s). change (total_size s0) with (total_size s). rewrite (so_size _ Hs), wrap_i64_add. f_equal; lia.
    + intros k. destruct (cached_entry s2 k) as [v|] eqn:Hcv.
      * apply cached_entry_some in Hcv as (x & [Hx Hpx]%Hv2 & Hkx); [|done]. rewrite decide_False by congruence. symmetry. apply cached_entry_some; [apply Hs|eauto].
      * case_decide as Hk; [done|]. destruct (cached_entry s k) as [v|] eqn:Hcs; [|done]. apply cached_entry_some in Hcs as (x & Hx & Hkx); [|apply Hs].
        assert (Hc : cached_entry s2 k = Some v); [|congruence]. apply cached_entry_some; [done|]. exists x. split; [apply Hv2; split; [done|congruence]|done].
Qed.

(** ** The cache *)

Record cache_ok (c : Cache V) : Prop := {
  co_count : exists j, 0 <= j <= 63 /\ Z.of_nat (length (shards c)) = 2 ^ j;
  co_shards : Forall shard_ok (shards c);
}.

(** The blocks of all shards: [b] is cached under [k]. *)
Definition holds (c : Cache V) (k : Key) (b : V) : Prop :=
  exists i s, shards c !! i = Some s /\ cached s k = Some b.

Lemma shard_idx_lt c k : cache_ok c -> (shard_idx c k < length (shards c))%nat.
Proof.
  intros [(j & Hj & Hl) _]. unfold shard_idx. rewrite Hl.
  assert (2 ^ j <= 2 ^ 63) by (apply Z.pow_le_mono_r; lia). assert (0 < 2 ^ j) by (apply Z.pow_pos_nonneg; lia).
  rewrite (wrap_u_id 64) by (unfold is_u; lia). replace (2 ^ j - 1) with (Z.ones j) by (rewrite Z.ones_equiv; lia).
  rewrite Z.land_ones by lia. pose proof (Z.mod_pos_bound (hash_u64 k) (2 ^ j) ltac:(lia)). lia.
Qed.

Lemma cache_new_ok cpus clock mbc : 0 <= cpus <= 2 ^ 63 -> cache_ok (with_misses_before_caching cpus clock mbc).
Proof.
  intros Hc. split; cbn [shards with_misses_before_caching].
  - exists (Z.log2_up cpus). rewrite length_map, length_seq. pose proof (Z.log2_up_nonneg cpus).
    assert (Z.log2_up cpus <= Z.log2_up (2 ^ 63)) by (apply Z.log2_up_le_mono; lia). rewrite Z.log2_up_pow2 in * by lia.
    split; [lia|]. unfold next_power_of_two. rewrite Z2Nat.id; [done|]. apply Z.pow_nonneg. lia.
  - apply Forall_fmap, Forall_true. intros i. apply new_ok.
Qed.

(** An operation on the shard of a key. *)
Lemma on_shard_ok {A} c k (f : Shard V -> res E (A * Shard V)) (Q : Shard V -> A -> Shard V -> Prop) :
  cache_ok c -> (forall s, shard_ok s -> exists a s', f s = Ok (a, s') /\ Q s a s' /\ shard_ok s') ->
  exists s a s', shards c !! shard_idx c k = Some s /\ Q s a s' /\
    on_shard c k f = Ok (a, mkCache (<[shard_idx c k := s']> (shards c)) (misses_before_caching c)) /\
    cache_ok (mkCache (<[shard_idx c k := s']> (shards c)) (misses_before_caching c)).
Proof.
  intros Hc Hf. destruct (lookup_lt_is_Some_2 _ _ (shard_idx_lt c k Hc)) as [s Hs].
  destruct (Hf s (proj1 (Forall_lookup _ _) (co_shards _ Hc) _ _ Hs)) as (a & s' & Hfs & HQ & Hs').
  exists s, a, s'. unfold on_shard, idx. rewrite Hs, bind_Ok, Hfs, bind_Ok. split_and!; try done.
  destruct Hc. split; cbn; [by rewrite length_insert|by apply Forall_insert].
Qed.

Lemma insert_holds c i s s' mbc k b :
  shards c !! i = Some s -> holds (mkCache (<[i := s']> (shards c)) mbc) k b ->
  holds c k b \/ cached s' k = Some b.
Proof.
  intros Hi (j & x & Hj & Hx). cbn in Hj. destruct (decide (j = i)) as [->|Hne].
  - rewrite list_lookup_insert_eq in Hj by (by eapply lookup_lt_Some). injection Hj as <-. by right.
  - rewrite list_lookup_insert_ne in Hj by done. left. by exists j, x.
Qed.

(** Evictions and cleaning only take blocks away. *)
Lemma evicted_cached s s' out k b : evicted s s' out -> cached s' k = Some b -> cached s k = Some b.
Proof. intros He. unfold cached. rewrite (ev_rest _ _ _ He). by case_decide. Qed.

Lemma cleaned_cached now s s' out k b : cleaned now s s' out -> cached s' k = Some b -> cached s k = Some b.
Proof. intros Hc. by eapply evicted_cached, Hc. Qed.

Lemma cache_get_ok now k c :
  cache_ok c -> exists r c', cache_get_block (E := E) now k c = Ok (r, c') /\ cache_ok c' /\
    (forall b, r = Some b -> holds c k b) /\ (forall k' b, holds c' k' b -> holds c k' b).
Proof.
  intros Hc. unfold cache_get_block.
  destruct (on_shard_ok c k (shard_get_block now k) (got now k) Hc) as (s & r & s' & Hs & Hgot & -> & Hc').
  { intros s Hs. destruct (shard_get_ok now k s Hs) as (r & s' & Hr & Hg). exists r, s'. split_and!; [done|done|apply Hg]. }
  destruct (gt_clean _ _ _ _ _ Hgot) as (s1 & out & Hcl & Hr & Hsame & _).
  eexists r, _. split_and!; [done|done| |].
  - intros b ->. exists (shard_idx c k), s. split; [done|]. exact (cleaned_cached _ _ _ _ _ _ Hcl (eq_sym Hr)).
  - intros k' b [Hb|Hb]%(insert_holds _ _ s); [done| |done]. exists (shard_idx c k), s. split; [done|]. rewrite Hsame in Hb.
    exact (cleaned_cached _ _ _ _ _ _ Hcl Hb).
Qed.

Lemma cache_put_ok max now k b c :
  cache_ok c -> exists r c', cache_try_put_block (E := E) max now k b c = Ok (r, c') /\ cache_ok c' /\
    (forall k' b', holds c' k' b' -> holds c k' b' \/ (k' = k /\ b' = b)).
Proof.
  intros Hc. unfold cache_try_put_block, max_shard_bytes. pose proof (shard_idx_lt c k Hc).
  rewrite assert_true, !bind_Ok by (apply Nat.ltb_lt; lia). set (mx := max / _).
  destruct (on_shard_ok c k (shard_try_put_block now k b mx (misses_before_caching c)) (put now k b mx (misses_before_caching c)) Hc) as (s & r & s' & Hs & Hput & -> & Hc').
  { intros s Hs. destruct (shard_put_ok now k b mx (misses_before_caching c) s Hs) as (r & s' & Hr & Hg). exists r, s'. split_and!; [done|done|apply Hg]. }
  eexists r, _. split_and!; [done|done|]. intros k' b' [Hb|Hb]%(insert_holds _ _ s); [by left| |done].
  assert (Hfrom : forall k1 b1, cached s k1 = Some b1 -> holds c k1 b1) by (intros k1 b1 H1; by exists (shard_idx c k), s).
  destruct (pt_clean _ _ _ _ _ _ _ _ Hput) as (s1 & out & Hcl & Hcase). cbn zeta in Hcase.
  destruct (_ && _); [destruct Hcase as [_ ->]; left; apply Hfrom; exact (cleaned_cached _ _ _ _ _ _ Hcl Hb)|].
  destruct Hcase as (_ & _ & Hcase). case_decide.
  - left. apply Hfrom, (cleaned_cached _ _ _ _ _ _ Hcl). unfold cached in *. by rewrite <-(proj1 Hcase).
  - destruct Hcase as (s2 & out' & _ & Hev & Hc2 & _). apply (evicted_cached _ _ _ _ _ Hev) in Hb. unfold cached in Hb. rewrite Hc2 in Hb. case_decide.
    + right. cbn in Hb. split; congruence.
    + left. by apply Hfrom, (cleaned_cached _ _ _ _ _ _ Hcl).
Qed.

Lemma cache_remove_ok iter p c :
  cache_ok c -> (forall m : gmap Z nat, iter m ≡ₚ map_to_list m) ->
  exists c', cache_remove_blocks_for_part (E := E) iter p c = Ok c' /\ cache_ok c' /\
    (forall k b, holds c' k b <-> holds c k b /\ part_id k <> p).
Proof.
  intros [Hn Hs] Hiter. unfold cache_remove_blocks_for_part.
  assert (H : exists ss, remove_from_shards (E := E) iter p (shards c) = Ok ss /\
    Forall2 (fun s s' => shard_ok s' /\ forall k, cached_entry s' k = if decide (part_id k = p) then None else cached_entry s k) (shards c) ss).
  { clear Hn. induction Hs as [|s ss Hs Hss IH]; cbn [remove_from_shards]; [by exists []|].
    destruct (shard_remove_ok iter p s Hs Hiter) as (s' & -> & Hs' & _ & Hk). rewrite bind_Ok. destruct IH as (ss' & -> & HF). rewrite bind_Ok.
    exists (s' :: ss'). split; [done|]. by constructor. }
  destruct H as (ss & -> & HF). rewrite bind_Ok. eexists. split; [done|]. split.
  - split; cbn [shards]; [by rewrite <-(Forall2_length _ _ _ HF)|]. clear -HF. induction HF as [|????[]]; by constructor.
  - intros k b. unfold holds. cbn [shards]. split.
    + intros (i & s' & Hi & Hb). destruct (Forall2_lookup_r _ _ _ _ _ HF Hi) as (s & Hsi & _ & Hk). unfold cached in Hb. rewrite Hk in Hb.
      case_decide; [done|]. split; [by exists i, s|done].
    + intros ((i & s & Hi & Hb) & Hp). destruct (Forall2_lookup_l _ _ _ _ _ HF Hi) as (s' & Hsi & _ & Hk). exists i, s'. split; [done|].
      unfold cached. by rewrite Hk, decide_False.
Qed.
End Evict.

(** ** Sequences of operations

    The threads of the process share the cache; every operation holds the lock
    of a shard, so a run is a sequence of operations, with the times the clock
    showed and the size limits in force. *)
Inductive cache_op : Type :=
| OpGet (now : Z) (k : Key)
| OpPut (max now : Z) (k : Key) (b : V)
| OpRemove (part : Z).

Definition exec_op (iter : gmap Z nat -> list (Z * nat)) (o : cache_op) (c : Cache V)
    : res Empty_set (option V * Cache V) :=
  match o with
  | OpGet now k => cache_get_block now k c
  | OpPut max now k b => '(_, c) ← cache_try_put_block max now k b c; Ok (None, c)
  | OpRemove p => c ← cache_remove_blocks_for_part iter p c; Ok (None, c)
  end.

Fixpoint exec_ops (iter : gmap Z nat -> list (Z * nat)) (os : list cache_op) (c : Cache V)
    : res Empty_set (list (option V) * Cache V) :=
  match os with
  | [] => Ok ([], c)
  | o :: os =>
      '(r, c) ← exec_op iter o c;
      '(rs, c) ← exec_ops iter os c;
      Ok (r :: rs, c)
  end.

(** The reference: the blocks put so far, without those of removed parts. *)
Definition live_after (live : list (Key * V)) (o : cache_op) : list (Key * V) :=
  match o with
  | OpGet _ _ => live
  | OpPut _ _ k b => (k, b) :: live
  | OpRemove p => filter (fun kb => part_id kb.1 <> p) live
  end.

(** What a cache may answer: nothing, or a live block of the asked key. *)
Definition allowed (live : list (Key * V)) (o : cache_op) (r : option V) : Prop :=
  match o, r with
  | OpGet _ k, Some b => (k, b) ∈ live
  | _, r => r = None
  end.

Fixpoint allowed_trace (live : list (Key * V)) (os : list cache_op) (rs : list (option V)) : Prop :=
  match os, rs with
  | [], [] => True
  | o :: os, r :: rs => allowed live o r /\ allowed_trace (live_after live o) os rs
  | _, _ => False
  end.

Lemma exec_op_ok iter o c live :
  (forall m : gmap Z nat, iter m ≡ₚ map_to_list m) -> cache_ok c -> (forall k b, holds c k b -> (k, b) ∈ live) ->
  exists r c', exec_op iter o c = Ok (r, c') /\ cache_ok c' /\ allowed live o r /\
    (forall k b, holds c' k b -> (k, b) ∈ live_after live o).
Proof.
  intros Hiter Hc Hl. destruct o as [now k|max now k b|p]; cbn [exec_op live_after allowed].
  - destruct (cache_get_ok (E := Empty_set) now k c Hc) as (r & c' & -> & Hc' & Hr & Hh). exists r, c'. split_and!; [done|done| |eauto].
    destruct r; eauto.
  - destruct (cache_put_ok (E := Empty_set) max now k b c Hc) as (r & c' & -> & Hc' & Hh). rewrite bind_Ok. exists None, c'. split_and!; [done..|].
    intros k' b' Hb. apply Hh in Hb as [Hb|[-> ->]]; apply elem_of_cons; eauto.
  - destruct (cache_remove_ok (E := Empty_set) iter p c Hc Hiter) as (c' & -> & Hc' & Hh). rewrite bind_Ok. exists None, c'. split_and!; [done..|].
    intros k b Hb. apply Hh in Hb as [Hb Hp]. apply list_elem_of_filter. eauto.
Qed.

Lemma exec_ops_ok iter os c live :
  (forall m : gmap Z nat, iter m ≡ₚ map_to_list m) -> cache_ok c -> (forall k b, holds c k b -> (k, b) ∈ live) ->
  exists rs c', exec_ops iter os c = Ok (rs, c') /\ cache_ok c' /\ allowed_trace live os rs.
Proof.
  intros Hiter. revert c live. induction os as [|o os IH]; intros c live Hc Hl; cbn [exec_ops allowed_trace]; [by exists [], c|].
  destruct (exec_op_ok iter o c live Hiter Hc Hl) as (r & c1 & -> & Hc1 & Ha & Hl1). rewrite bind_Ok.
  destruct (IH c1 _ Hc1 Hl1) as (rs & c2 & -> & Hc2 & Ht). rewrite bind_Ok. by exists (r :: rs), c2.
Qed.

(** C22: the cache of decoded blocks is sound for every sequence of operations of
    any threads, whatever the clock shows, the size limit is and the order in
    which hash maps are iterated: no operation panics, and a lookup answers
    with nothing or with a block that was put under exactly that key and
    whose part was not removed since. *)
Theorem cache_serves_live_blocks (iter : gmap Z nat -> list (Z * nat)) (cpus mbc : Z) (clock : nat -> Z) (os : list cache_op) :
  0 <= cpus <= 2 ^ 63 -> (forall m : gmap Z nat, iter m ≡ₚ map_to_list m) ->
  exists rs c', exec_ops iter os (with_misses_before_caching cpus clock mbc) = Ok (rs, c') /\ allowed_trace [] os rs.
Proof.
  intros Hc Hiter. pose proof (cache_new_ok cpus clock mbc Hc) as Hok.
  destruct (exec_ops_ok iter os _ [] Hiter Hok) as (rs & c' & He & _ & Ht); [|by exists rs, c'].
  intros k b (i & s & Hi & Hb). cbn in Hi. apply list_lookup_fmap_Some in Hi as (j & -> & _). done.
Qed.

(** ** Size and recency *)

Definition sized s : Prop := forall slot v, view s !! slot = Some (Some v) -> 0 <= e_size v.

Lemma total_nonneg s : sized s -> 0 <= total_size s.
Proof.
  unfold total_size, sized. generalize (view s). intros l. induction l as [|o l IH]; intros H; cbn; [lia|].
  assert (0 <= from_option e_size 0 o) by (destruct o as [v|]; cbn; [by apply (H 0%nat)|lia]).
  assert (0 <= foldr Z.add 0 (map (from_option e_size 0) l)); [|lia]. apply IH. intros i v Hi. by apply (H (S i)).
Qed.

Lemma empty_total s : slab_ok s -> heap s = [] -> total_size s = 0.
Proof.
  intros Hs Hh. unfold total_size. assert (Hv : Forall (fun o => o = None) (view s)).
  { apply Forall_lookup. intros i [v|] Hi; [|done]. apply (sl_heap _ Hs) in Hi. rewrite Hh in Hi. by apply elem_of_nil in Hi. }
  induction Hv as [|? l -> Hl IH]; cbn; [done|]. by rewrite IH.
Qed.

Lemma sized_evicted s s' out : map_ok s -> sized s -> evicted s s' out -> sized s' /\ Forall (fun e => 0 <= e_size e) out.
Proof.
  intros Hm Hs He. split.
  - intros x v Hv. pose proof (ev_rest _ _ _ He (e_key v)) as Hr.
    rewrite (proj2 (cached_entry_some s' (e_key v) v (so_map _ (ev_ok _ _ _ He)))) in Hr by eauto. case_decide; [done|].
    symmetry in Hr. apply cached_entry_some in Hr as (y & Hy & _); [|done]. by eapply Hs.
  - apply Forall_In. intros e Hin. pose proof (ev_out _ _ _ He e Hin) as Hc. apply cached_entry_some in Hc as (y & Hy & _); [|done]. by eapply Hs.
Qed.

Lemma sum_nonneg (out : list (Entry V)) : Forall (fun e => 0 <= e_size e) out -> 0 <= foldr Z.add 0 (map e_size out).
Proof. induction 1; cbn; lia. Qed.

(** What leaves on the way: idle entries in the cleaning, and then only entries
    that nothing that stays is older than. *)
Definition leaves_in_order (now : Z) s s' : Prop :=
  forall k e, cached_entry s k = Some e -> cached_entry s' k = None ->
    last_access_time e <= Z.max 0 (now - MAX_IDLE_SECS) \/
    forall k' e', cached_entry s' k' = Some e' -> last_access_time e <= last_access_time e'.

Lemma cleaned_leaves now s s1 out k e :
  cleaned now s s1 out -> cached_entry s k = Some e -> cached_entry s1 k = None -> last_access_time e <= Z.max 0 (now - MAX_IDLE_SECS).
Proof.
  intros Hc He Hn. rewrite (ev_rest _ _ _ (cl_evicted _ _ _ _ Hc)) in Hn. case_decide as Hin; [|congruence].
  apply list_elem_of_fmap in Hin as (x & -> & Hx). apply list_elem_of_In in Hx. pose proof (ev_out _ _ _ (cl_evicted _ _ _ _ Hc) x Hx) as Hxe.
  assert (x = e) as -> by congruence. exact (proj1 (Forall_In _ _) (cl_idle _ _ _ _ Hc) e Hx).
Qed.

(** C23: storing a block in a shard keeps the limits.  With sizes that fit a
    64-bit integer the operation returns; a shard within its size limit stays
    within it when a block is accepted; every entry that leaves was idle for three minutes
    or is not more recent than any that stays; and a block that fits beside
    what is there is found under its key right away. *)
Theorem shard_put_contract (now : Z) (k : Key) (b : V) (max mbc : Z) (s : Shard V) :
  shard_ok s -> sized s -> 0 <= block_size_bytes b -> total_size s + block_size_bytes b < 2 ^ 63 -> 0 <= max < 2 ^ 63 ->
  exists r s', shard_try_put_block (E := Empty_set) now k b max mbc s = Ok (r, s') /\ shard_ok s' /\
    leaves_in_order now s s' /\
    (r = true -> total_size s <= max -> total_size s' <= max) /\
    (r = true -> total_size s + block_size_bytes b <= max -> is_Some (cached s' k)).
Proof.
  intros Hs Hz Hb Ht Hmax. destruct (shard_put_ok (E := Empty_set) now k b max mbc s Hs) as (r & s' & Hp & [Hok (s1 & out & Hcl & Hcase)]).
  exists r, s'. split; [done|]. split; [done|]. cbn zeta in Hcase. pose proof (cl_evicted _ _ _ _ Hcl) as He1.
  destruct (sized_evicted s s1 out (so_map _ Hs) Hz He1) as [Hz1 Hout]. pose proof (ev_size _ _ _ He1) as Ht1. pose proof (sum_nonneg _ Hout).
  pose proof (total_nonneg s1 Hz1). destruct (_ && _).
  { destruct Hcase as [-> ->]. split_and!; [|done|done]. intros k1 e1 Hk1 Hk2. left. by eapply cleaned_leaves. }
  destruct Hcase as (-> & _ & Hcase). case_decide as Hthere.
  { destruct Hcase as [Hcase Hsame]. split_and!.
    - intros k1 e1 Hk1 Hk2. left. rewrite Hcase in Hk2. by eapply cleaned_leaves.
    - lia.
    - intros _ _. unfold cached. rewrite Hcase. destruct Hthere as [x ->]. by eexists. }
  destruct Hcase as (s2 & out' & Hs2 & Hev & Hc2 & Ht2 & Hsz & Hfit).
  assert (Hz2 : sized s2).
  { intros x v Hv. assert (Hcv : cached_entry s2 (e_key v) = Some v) by (apply cached_entry_some; [apply Hs2|eauto]).
    rewrite Hc2 in Hcv. case_decide; [by injection Hcv as <-|]. apply cached_entry_some in Hcv as (y & Hy & _); [by eapply Hz1|apply He1]. }
  destruct (sized_evicted s2 s' out' (so_map _ Hs2) Hz2 Hev) as [Hz' Hout']. pose proof (ev_size _ _ _ Hev) as Ht'. pose proof (sum_nonneg _ Hout').
  pose proof (total_nonneg s' Hz'). rewrite !(so_size _ Hok), !(so_size _ Hs2), !(wrap_i_id 64) in * by (unfold is_i; lia). split_and!.
  - intros k1 e1 Hk1 Hk2. rewrite (ev_rest _ _ _ Hev) in Hk2. destruct (cached_entry s1 k1) as [e1'|] eqn:Hk1'; [|left; by eapply cleaned_leaves].
    assert (e1' = e1) as ->.
    { rewrite (ev_rest _ _ _ He1) in Hk1'. case_decide; congruence. }
    right. case_decide as Hin.
    + apply list_elem_of_fmap in Hin as (x & -> & Hx). apply list_elem_of_In in Hx. pose proof (ev_out _ _ _ Hev x Hx) as Hxe. rewrite Hc2 in Hxe.
      case_decide as Hxk; [destruct Hthere; rewrite <-Hxk, Hk1'; by eexists|]. assert (x = e1) as -> by congruence. intros k' e'. by apply (ev_lru _ _ _ Hev).
    + rewrite Hc2 in Hk2. case_decide; [done|congruence].
  - intros _ _. destruct Hsz as [|Hemp]; [done|]. rewrite (empty_total s' (so_slab _ Hok) Hemp). lia.
  - intros _ Hle. rewrite (Hfit ltac:(lia)) in Hev. unfold cached. rewrite (ev_rest _ _ _ Hev), decide_False by apply not_elem_of_nil.
    rewrite Hc2, decide_True by done. by eexists.
Qed.
End Spec.

Section Example.
Local Instance int_block : CachedBlock Z := fun _ => 8.

Lemma cache_serves_live_blocks_witness :
  exists rs c', exec_ops (V := Z) map_to_list
      [OpPut 1024 100 (mkKey 1 0) 7; OpGet 101 (mkKey 1 0); OpGet 101 (mkKey 2 0); OpRemove 1; OpGet 102 (mkKey 1 0)]
      (with_misses_before_caching 2 (fun _ => 100) 2) = Ok (rs, c') /\
    allowed_trace [] [OpPut 1024 100 (mkKey 1 0) 7; OpGet 101 (mkKey 1 0); OpGet 101 (mkKey 2 0); OpRemove 1; OpGet 102 (mkKey 1 0)] rs.
Proof. apply (cache_serves_live_blocks (V := Z) map_to_list 2 2 (fun _ => 100)); [lia|done]. Defined.

(** The answers of that run: the block that was put, and nothing else. *)
Example cache_run :
  (fun '(rs, _) => rs) <$> (match exec_ops (V := Z) map_to_list
      [OpPut 1024 100 (mkKey 1 0) 7; OpGet 101 (mkKey 1 0); OpGet 101 (mkKey 2 0); OpRemove 1; OpGet 102 (mkKey 1 0)]
      (with_misses_before_caching 2 (fun _ => 100) 2) with Ok x => Some x | _ => None end) =
  Some [None; Some 7; None; None; None].
Proof. by vm_compute. Qed.

Lemma shard_put_contract_witness :
  exists r s', shard_try_put_block (V := Z) (E := Empty_set) 100 (mkKey 1 0) 7 64 2 (shard_new 100) = Ok (r, s') /\ shard_ok s' /\
    leaves_in_order 100 (shard_new 100) s' /\
    (r = true -> total_size (V := Z) (shard_new 100) <= 64 -> total_size s' <= 64) /\
    (r = true -> total_size (V := Z) (shard_new 100) + block_size_bytes 7 <= 64 -> is_Some (cached s' (mkKey 1 0))).
Proof.
  apply (shard_put_contract (V := Z) 100 (mkKey 1 0) 7 64 2 (shard_new 100)); [apply new_ok| |done|done|done].
  intros slot v Hv. done.
Defined.
End Example.
