(* ===== verification/SearchBase.v ===== *)
(** * Shared parts of the searches

    What the search in the merge set ([esm-mergeset]) and the search in the
    data parts ([esm-storage]) have in common: random access to the streams of
    a part, binary search in a slice, and the caches of decoded blocks behind
    an interface, with the laws the searches rely on and the cache of
    [BlockCache] as its instance. *)
From Stdlib Require Import ZArith Lia Bool.
From S2P Require Import Prelude BlockCache BlockCacheSpec.
Local Open Scope Z_scope.

(** ** Streams of a part *)

(** [PartFile], which both crates define alike.  A file is modelled by its
    contents; reads do not change it. *)
Inductive PartFile : Type :=
| PfFile (contents : list Z)
| PfMem (buf : list Z)
| PfClosed.

Definition read_range {E} (buf : list Z) (n : nat) (off : Z) : res E (list Z) :=
  _ ← assert_ (off + Z.of_nat n <=? Z.of_nat (length buf));
  Ok (take n (drop (Z.to_nat off) buf)).

(** [must_read_at] of [n] bytes; a file is not touched for an empty read. *)
Definition pf_must_read_at {E} (f : PartFile) (n : nat) (off : Z) : res E (list Z) :=
  match f with
  | PfFile contents => if (n =? 0)%nat then Ok [] else read_range contents n off
  | PfMem buf => read_range buf n off
  | PfClosed => Panic
  end.

Definition contents (f : PartFile) (l : list Z) : Prop := f = PfFile l \/ f = PfMem l.

Lemma read_range_ok {E} a b c :
  read_range (E := E) (a ++ b ++ c) (length b) (Z.of_nat (length a)) = Ok b.
Proof.
  unfold read_range. rewrite assert_true, bind_Ok by (apply Z.leb_le; rewrite !length_app; lia).
  by rewrite Nat2Z.id, drop_app_length, take_app_length.
Qed.

(** Reading the bytes [b] at their position. *)
Lemma contents_read {E} f a b c off :
  contents f (a ++ b ++ c) -> off = Z.of_nat (length a) -> pf_must_read_at (E := E) f (length b) off = Ok b.
Proof.
  intros Hf ->. destruct Hf as [->| ->]; cbn [pf_must_read_at]; [|apply read_range_ok]. destruct b as [|x b]; [done|]. cbn [length Nat.eqb]. apply (read_range_ok a (x :: b)).
Qed.

(** ** Binary search *)

(** [slice::partition_point]: the index of the first element the predicate
    rejects, for a slice it splits in two. *)
Fixpoint partition_point {E A} (f : A -> res E bool) (l : list A) : res E nat :=
  match l with
  | [] => Ok O
  | x :: l =>
      b ← f x;
      if b : bool then n ← partition_point f l; Ok (S n) else Ok O
  end.

Section PartitionPoint.
  Context {A : Type} (f : A -> bool).

(** The length of the longest prefix that [f] accepts. *)
Fixpoint prefix_len (l : list A) : nat :=
  match l with
  | [] => 0
  | x :: l => if f x then S (prefix_len l) else 0
  end.

Lemma prefix_len_le l : (prefix_len l <= length l)%nat.
Proof. induction l as [|x l IH]; cbn; [lia|]. destruct (f x); lia. Qed.

Lemma prefix_len_take l : Forall (fun x => f x = true) (take (prefix_len l) l).
Proof. induction l as [|x l IH]; cbn; [constructor|]. destruct (f x) eqn:Hx; cbn; by constructor. Qed.

Lemma prefix_len_head l x : l !! prefix_len l = Some x -> f x = false.
Proof. induction l as [|y l IH]; cbn; [done|]. destruct (f y) eqn:Hy; cbn; [done|]. by intros [= ->]. Qed.

Lemma partition_point_ok {E} (g : A -> res E bool) l :
  Forall (fun x => g x = Ok (f x)) l -> partition_point g l = Ok (prefix_len l).
Proof. induction 1 as [|x l Hx Hl IH]; cbn; [done|]. rewrite Hx, bind_Ok. destruct (f x); [by rewrite IH|done]. Qed.
End PartitionPoint.

Lemma prefix_len_map {A B} (f : B -> bool) (g : A -> B) l : prefix_len f (map g l) = prefix_len (fun x => f (g x)) l.
Proof. induction l as [|x l IH]; cbn; [done|]. by rewrite IH. Qed.

(** ** The interface of the block caches *)

Class BlockCacheOps (C V : Type) : Type := {
  bc_get : forall {E}, Key -> C -> res E (option V * C);
  bc_put : forall {E}, Key -> V -> C -> res E (bool * C);
}.

(** The cached value under [k], or the value read now, which is offered to the
    cache. *)
Definition get_or_read {E X C V} `{!BlockCacheOps C V} (k : Key) (read : res X V) (c : C) : res E (C * (V + X)) :=
  '(o, c) ← bc_get k c;
  match o with
  | Some v => Ok (c, inl v)
  | None =>
      match read with
      | Ok v => '(_, c) ← bc_put k v c; Ok (c, inl v)
      | Err e => Ok (c, inr e)
      | Panic => Panic
      end
  end.

(** ** The laws of the block caches *)

(** What the search relies on: an operation returns, a lookup answers with a
    value the cache holds under the key, and only a put adds one. *)
Class BlockCacheLaws (C V : Type) `{!BlockCacheOps C V} : Type := {
  bc_ok : C -> Prop;
  bc_holds : C -> Key -> V -> Prop;
  bc_get_law E k c : bc_ok c -> exists r c', bc_get (E := E) k c = Ok (r, c') /\ bc_ok c' /\
    (forall v, r = Some v -> bc_holds c k v) /\ (forall k' v, bc_holds c' k' v -> bc_holds c k' v);
  bc_put_law E k v c : bc_ok c -> exists r c', bc_put (E := E) k v c = Ok (r, c') /\ bc_ok c' /\
    (forall k' v', bc_holds c' k' v' -> bc_holds c k' v' \/ (k' = k /\ v' = v));
}.

(** A cache in which every value is good for its key. *)
Definition all_good `{BlockCacheLaws C V} (good : Key -> V -> Prop) (c : C) : Prop :=
  bc_ok c /\ forall k v, bc_holds c k v -> good k v.

(** When the good value of a key is what a read yields, the cache does not
    matter. *)
Lemma get_or_read_ok {E X} `{BlockCacheLaws C V} (good : Key -> V -> Prop) k (read : res X V) v (c : C) :
  all_good good c -> read = Ok v -> (forall v', good k v' <-> v' = v) ->
  exists c', get_or_read (E := E) k read c = Ok (c', inl v) /\ all_good good c'.
Proof.
  intros [Hc Hg] -> Hv. unfold get_or_read. destruct (bc_get_law E k c Hc) as (r & c1 & -> & Hc1 & Hr & Hh). rewrite bind_Ok.
  destruct r as [v'|].
  - assert (v' = v) as -> by (apply Hv, Hg, Hr; done). exists c1. split; [done|]. split; [done|]. auto.
  - destruct (bc_put_law E k v c1 Hc1) as (b & c2 & -> & Hc2 & Hp). rewrite bind_Ok. exists c2. split; [done|]. split; [done|].
    intros k' v' [Hh'|[-> ->]]%Hp; [auto|by apply Hv].
Qed.

(** ** The caches of the program *)

(** A cache with the readings of the clock and of the size limit its next
    operations will see. *)
Record TimedCache (V : Type) : Type := mkTimed {
  tc_cache : Cache V;
  tc_now : nat -> Z;
  tc_max : nat -> Z;
  tc_tick : nat;
}.
Arguments mkTimed {V}.
Arguments tc_cache {V}.
Arguments tc_now {V}.
Arguments tc_max {V}.
Arguments tc_tick {V}.

Section Timed.
  Context {V : Type} {Vs : CachedBlock V}.

Definition tc_step (c : TimedCache V) (cache : Cache V) : TimedCache V :=
  mkTimed cache (tc_now c) (tc_max c) (S (tc_tick c)).

#[export] Instance timed_ops : BlockCacheOps (TimedCache V) V := {|
  bc_get E k c := '(r, cache) ← cache_get_block (tc_now c (tc_tick c)) k (tc_cache c); Ok (r, tc_step c cache);
  bc_put E k v c :=
    '(r, cache) ← cache_try_put_block (tc_max c (tc_tick c)) (tc_now c (tc_tick c)) k v (tc_cache c);
    Ok (r, tc_step c cache);
|}.

#[export, refine] Instance timed_laws : BlockCacheLaws (TimedCache V) V := {|
  bc_ok c := cache_ok (tc_cache c);
  bc_holds c k v := holds (tc_cache c) k v;
|}.
Proof.
  - intros E k c Hc. cbn [bc_get timed_ops]. destruct (cache_get_ok (E := E) (tc_now c (tc_tick c)) k (tc_cache c) Hc) as (r & c' & -> & Hc' & Hr & Hh).
    rewrite bind_Ok. by exists r, (tc_step c c').
  - intros E k v c Hc. cbn [bc_put timed_ops].
    destruct (cache_put_ok (E := E) (tc_max c (tc_tick c)) (tc_now c (tc_tick c)) k v (tc_cache c) Hc) as (r & c' & -> & Hc' & Hh).
    rewrite bind_Ok. by exists r, (tc_step c c').
Defined.

(** A cache as the process creates it. *)
Definition fresh_cache (cpus : Z) (now max : nat -> Z) : TimedCache V := mkTimed (cache_new cpus now) now max 0.

Lemma fresh_good cpus now max good : 0 <= cpus <= 2 ^ 63 -> all_good good (fresh_cache cpus now max).
Proof.
  intros Hc. split; [by apply cache_new_ok|]. intros k v (i & s & Hi & Hs). cbn in Hi. by apply list_lookup_fmap_Some in Hi as (j & -> & _).
Qed.
End Timed.
