(* ===== verification/ItemSearch.v ===== *)
(** * Search in a part of the merge set

    Model of [esm-mergeset/src/part.rs] and [part_search.rs]: parts with random
    access to their streams, and the cursor that seeks a key and walks the
    items from there, over the caches of decoded blocks.  The caches are used
    through the interface [BlockCacheOps]; [ItemSearchSpec] proves the search
    correct against its laws. *)
From Stdlib Require Import ZArith Lia Bool.
From S2P Require Import Prelude IntCodec Compress ItemBlock ItemHeader ItemStream BlockCache SearchBase.
Local Open Scope Z_scope.

(** ** Parts *)

Record Part : Type := mkPart {
  p_id : Z;
  p_ph : PartHeader;
  p_path : list Z;
  p_size : Z;
  p_mrs : list MetaindexRow;
  p_index_file : PartFile;
  p_items_file : PartFile;
  p_lens_file : PartFile;
  p_must_drop_on_release : bool;
}.

Section NewPart.
  Context {Zs : Zstd}.

(** The part and the next value of [NEXT_PART_ID]. *)
Definition part_new {E} (next_id : Z) (ph : PartHeader) (path : list Z) (size : Z) (metaindex_data : list Z)
    (index_file items_file lens_file : PartFile) : res E (Part * Z) :=
  mrs ← match unmarshal_metaindex_rows metaindex_data with Ok mrs => Ok mrs | _ => Panic end;
  Ok (mkPart next_id (ph_copy_from PartHeader_default ph) path size mrs index_file items_file lens_file false,
      as_u64 (next_id + 1)).

Definition mp_size (mp : InmemoryPart) : Z :=
  as_u64 (Z.of_nat (length (mp_metaindex_data mp) + length (mp_index_data mp) + length (mp_items_data mp) + length (mp_lens_data mp))).

Definition new_part {E} (next_id : Z) (mp : InmemoryPart) : res E (Part * Z) :=
  part_new next_id (mp_ph mp) [] (mp_size mp) (mp_metaindex_data mp) (PfMem (mp_index_data mp)) (PfMem (mp_items_data mp))
    (PfMem (mp_lens_data mp)).
End NewPart.

(** [idxb_cache()], [ib_cache()] and [ib_sparse_cache()]. *)
Record Caches (CI CB : Type) : Type := mkCaches { c_idxb : CI; c_ib : CB; c_ib_sparse : CB }.
Arguments mkCaches {CI CB}.
Arguments c_idxb {CI CB}.
Arguments c_ib {CI CB}.
Arguments c_ib_sparse {CI CB}.

(** ** The cursor *)

Inductive ps_other : Type :=
| PsCannotDecompress (e : zstd_error)
| PsCannotUnmarshalHeaders (offset size : Z) (e : index_error)
| PsCannotUnmarshalItems (items_count : Z) (e : items_error)
| PsErrorIn (path : list Z) (e : ps_other).

Inductive ps_error : Type :=
| PsEof
| PsOther (e : ps_other).

(** The scratch buffers [index_buf], [compressed_index_buf], [sb] and the
    scratch blocks [tmp_idxb], [tmp_ib] are cleared before every use, so they
    are not part of the state. *)
Record PartSearch : Type := mkPS {
  ps_p : Part;
  ps_sparse : bool;
  ps_mr_next : nat;
  ps_idxb : list BlockHeader;
  ps_bh_next : nat;
  ps_err : option ps_error;
  ps_ib : InmemoryBlock;
  ps_ib_valid : bool;
  ps_ib_item_idx : nat;
  ps_cur_item : Item;
}.

Definition ps_new (p : Part) (sparse : bool) : PartSearch :=
  mkPS p sparse 0 [] 0 None ib_default false 0 (mkItem 0 0).

Definition ps_item {E} (self : PartSearch) : res E (list Z) := item_bytes (ps_cur_item self) (ib_data (ps_ib self)).

Definition ps_error_msg (self : PartSearch) : option ps_other :=
  match ps_err self with
  | Some (PsOther msg) => Some msg
  | _ => None
  end.

(** Updates of the fields. *)
Definition set_err (self : PartSearch) (e : option ps_error) : PartSearch :=
  mkPS (ps_p self) (ps_sparse self) (ps_mr_next self) (ps_idxb self) (ps_bh_next self) e (ps_ib self) (ps_ib_valid self)
    (ps_ib_item_idx self) (ps_cur_item self).
Definition set_mr_next (self : PartSearch) (n : nat) : PartSearch :=
  mkPS (ps_p self) (ps_sparse self) n (ps_idxb self) (ps_bh_next self) (ps_err self) (ps_ib self) (ps_ib_valid self)
    (ps_ib_item_idx self) (ps_cur_item self).
Definition set_current_idxb (self : PartSearch) (idxb : list BlockHeader) : PartSearch :=
  mkPS (ps_p self) (ps_sparse self) (ps_mr_next self) idxb (ps_bh_next self) (ps_err self) (ps_ib self) (ps_ib_valid self)
    (ps_ib_item_idx self) (ps_cur_item self).
Definition set_bh_next (self : PartSearch) (n : nat) : PartSearch :=
  mkPS (ps_p self) (ps_sparse self) (ps_mr_next self) (ps_idxb self) n (ps_err self) (ps_ib self) (ps_ib_valid self)
    (ps_ib_item_idx self) (ps_cur_item self).
Definition set_current_ib (self : PartSearch) (ib : InmemoryBlock) : PartSearch :=
  mkPS (ps_p self) (ps_sparse self) (ps_mr_next self) (ps_idxb self) (ps_bh_next self) (ps_err self) ib true
    (ps_ib_item_idx self) (ps_cur_item self).
Definition set_ib_pos (self : PartSearch) (valid : bool) (i : nat) : PartSearch :=
  mkPS (ps_p self) (ps_sparse self) (ps_mr_next self) (ps_idxb self) (ps_bh_next self) (ps_err self) (ps_ib self) valid
    i (ps_cur_item self).
Definition set_cur_item (self : PartSearch) (it : Item) (i : nat) : PartSearch :=
  mkPS (ps_p self) (ps_sparse self) (ps_mr_next self) (ps_idxb self) (ps_bh_next self) (ps_err self) (ps_ib self) (ps_ib_valid self)
    i it.

(** [&data[it.start as usize + cp_len..it.end as usize]]. *)
Definition suffix_of {E} (data : list Z) (cp_len : nat) (it : Item) : res E (list Z) :=
  slice data (it_start it + Z.of_nat cp_len) (it_end it).

Definition binary_search_key {E} (data : list Z) (items : list Item) (k : list Z) (cp_len : nat) : res E nat :=
  match items with
  | [] => Ok O
  | it0 :: items =>
      suffix ← slice_from k cp_len;
      s0 ← suffix_of data cp_len it0;
      if lex_leb suffix s0 then Ok O
      else
        n ← partition_point (fun it => s ← suffix_of data cp_len it; Ok (lex_ltb s suffix)) items;
        Ok (n + 1)%nat
  end.

Section Search.
  Context {Zs : Zstd} {CI CB : Type} {Ci : BlockCacheOps CI (list BlockHeader)} {Cb : BlockCacheOps CB InmemoryBlock}.
  Context {E : Type}.
  Local Abbreviation run := (res E).
  Local Abbreviation W := (Caches CI CB).

Definition read_index_block (p : Part) (mr : MetaindexRow) : res ps_error (list BlockHeader) :=
  compressed ← pf_must_read_at (p_index_file p) (Z.to_nat (mr_index_block_size mr)) (mr_index_block_offset mr);
  index_buf ← map_err (fun e => PsOther (PsCannotDecompress e)) (decompress_zstd [] compressed);
  map_err (fun e => PsOther (PsCannotUnmarshalHeaders (mr_index_block_offset mr) (mr_index_block_size mr) e))
    (unmarshal_block_headers index_buf (mr_block_headers_count mr)).

Definition read_inmemory_block (p : Part) (bh : BlockHeader) : res ps_error InmemoryBlock :=
  items_data ← pf_must_read_at (p_items_file p) (Z.to_nat (items_block_size bh)) (items_block_offset bh);
  lens_data ← pf_must_read_at (p_lens_file p) (Z.to_nat (lens_block_size bh)) (lens_block_offset bh);
  map_err (fun e => PsOther (PsCannotUnmarshalItems (items_count bh) e))
    (ib_unmarshal_data (mkStorageBlock items_data lens_data) (first_item bh) (common_prefix bh) (items_count bh) (marshal_type bh)).

(** The functions that return a [Result] give the state after the call and the
    error, if any. *)
Definition next_bhs (self : PartSearch) (w : W) : run (PartSearch * W * option ps_error) :=
  match p_mrs (ps_p self) !! ps_mr_next self with
  | None => Ok (self, w, Some PsEof)
  | Some mr =>
      let self := set_mr_next self (S (ps_mr_next self)) in
      let idxb_key := mkKey (p_id (ps_p self)) (mr_index_block_offset mr) in
      '(c, r) ← get_or_read idxb_key (read_index_block (ps_p self) mr) (c_idxb w);
      let w := mkCaches c (c_ib w) (c_ib_sparse w) in
      match r with
      | inl idxb => Ok (set_bh_next (set_current_idxb self idxb) 0, w, None)
      | inr e => Ok (self, w, Some e)
      end
  end.

Definition get_inmemory_block (self : PartSearch) (bh : BlockHeader) (w : W) : run (PartSearch * W * option ps_error) :=
  if items_count bh =? 1 then
    ib ← unmarshal_single_item (common_prefix bh) (first_item bh) (marshal_type bh);
    Ok (set_current_ib self ib, w, None)
  else
    let ib_key := mkKey (p_id (ps_p self)) (items_block_offset bh) in
    '(c, r) ← get_or_read ib_key (read_inmemory_block (ps_p self) bh) (if ps_sparse self then c_ib_sparse w else c_ib w);
    let w := if ps_sparse self then mkCaches (c_idxb w) (c_ib w) c else mkCaches (c_idxb w) c (c_ib_sparse w) in
    match r with
    | inl ib => Ok (set_current_ib self ib, w, None)
    | inr e => Ok (self, w, Some e)
    end.

Definition ps_next_block (self : PartSearch) (w : W) : run (PartSearch * W * option ps_error) :=
  '(self, w, err) ← (if (length (ps_idxb self) <=? ps_bh_next self)%nat then next_bhs self w else Ok (self, w, None));
  match err with
  | Some e => Ok (self, w, Some e)
  | None =>
      bh ← idx (ps_idxb self) (ps_bh_next self);
      let self := set_bh_next self (S (ps_bh_next self)) in
      '(self, w, err) ← get_inmemory_block self bh w;
      match err with
      | Some e => Ok (self, w, Some e)
      | None => Ok (set_ib_pos self (ps_ib_valid self) 0, w, None)
      end
  end.

Definition try_fast_seek (self : PartSearch) (k : list Z) : run (PartSearch * bool) :=
  if negb (ps_ib_valid self) then Ok (self, false)
  else
    let data := ib_data (ps_ib self) in
    let items := ib_items (ps_ib self) in
    if (length items <=? ps_ib_item_idx self)%nat then Ok (self, false)
    else
      let cp_len := common_prefix_len (ib_common_prefix (ps_ib self)) k in
      suffix ← slice_from k cp_len;
      itn ← idx items (length items - 1);
      sn ← suffix_of data cp_len itn;
      if lex_ltb sn suffix then Ok (self, false)
      else
        let i := (ps_ib_item_idx self - 1)%nat in
        iti ← idx items i;
        si ← suffix_of data cp_len iti;
        if lex_ltb suffix si then
          let window := take i items in
          match window with
          | [] => Ok (self, false)
          | it0 :: _ =>
              s0 ← suffix_of data cp_len it0;
              if lex_ltb suffix s0 then Ok (self, false)
              else
                n ← binary_search_key data window k cp_len;
                Ok (set_ib_pos self (ps_ib_valid self) (0 + n), true)
          end
        else
          n ← binary_search_key data (drop i items) k cp_len;
          Ok (set_ib_pos self (ps_ib_valid self) (i + n), true).

(** [if let Err(err) = self.next_block() { self.err = Some(err); }]. *)
Definition next_block_or_err (self : PartSearch) (w : W) : run (PartSearch * W) :=
  '(self, w, err) ← ps_next_block self w;
  Ok (match err with Some e => set_err self (Some e) | None => self end, w).

(** The part of [seek] that starts from the metaindex. *)
Definition slow_seek (self : PartSearch) (k : list Z) (w : W) : run (PartSearch * W) :=
  let self := set_ib_pos (set_bh_next (set_mr_next self 0) (length (ps_idxb self))) false 0 in
  if lex_leb k (ph_first_item (p_ph (ps_p self))) then next_block_or_err self w
  else
    let p := ps_p self in
    _ ← assert_ (negb (length (p_mrs p) =? 0)%nat);
    n ← partition_point (fun mr => Ok (lex_ltb (mr_first_item mr) k)) (p_mrs p);
    let self := set_mr_next self (n - 1) in
    '(self, w, err) ← next_bhs self w;
    match err with
    | Some e => Ok (set_err self (Some e), w)
    | None =>
        n ← partition_point (fun bh => Ok (lex_ltb (first_item bh) k)) (ps_idxb self);
        let self := set_bh_next self (n - 1) in
        '(self, w, err) ← ps_next_block self w;
        match err with
        | Some e => Ok (set_err self (Some e), w)
        | None =>
            let cp_len := common_prefix_len (ib_common_prefix (ps_ib self)) k in
            i ← binary_search_key (ib_data (ps_ib self)) (ib_items (ps_ib self)) k cp_len;
            let self := set_ib_pos self (ps_ib_valid self) i in
            if (i <? length (ib_items (ps_ib self)))%nat then Ok (self, w)
            else next_block_or_err self w
        end
    end.

Definition ps_seek (self : PartSearch) (k : list Z) (w : W) : run (PartSearch * W) :=
  match ps_error_msg self with
  | Some _ => Ok (self, w)
  | None =>
      let self := set_err self None in
      if lex_ltb (ph_last_item (p_ph (ps_p self))) k then Ok (set_err self (Some PsEof), w)
      else
        '(self, found) ← try_fast_seek self k;
        if found : bool then Ok (self, w) else slow_seek self k w
  end.

Definition ps_next_item (self : PartSearch) (w : W) : run (PartSearch * W * bool) :=
  match ps_err self with
  | Some _ => Ok (self, w, false)
  | None =>
      if ps_ib_valid self && (ps_ib_item_idx self <? length (ib_items (ps_ib self)))%nat then
        it ← idx (ib_items (ps_ib self)) (ps_ib_item_idx self);
        Ok (set_cur_item self it (S (ps_ib_item_idx self)), w, true)
      else
        '(self, w, err) ← ps_next_block self w;
        match err with
        | Some e =>
            let e := match e with PsEof => PsEof | PsOther msg => PsOther (PsErrorIn (p_path (ps_p self)) msg) end in
            Ok (set_err self (Some e), w, false)
        | None =>
            it ← idx (ib_items (ps_ib self)) 0;
            Ok (set_cur_item self it 1, w, true)
        end
  end.
End Search.
