(* ===== verification/ItemSearchSpec.v ===== *)
(** * Search in a part: correctness

    The cursor of [ItemSearch] implements the search in the sorted sequence of
    the items of a part: [seek] moves to the first item that is not below the
    key, [next_item] yields the items from there in order.  The proof is
    against the laws of the block caches only; [BlockCacheSpec] shows that the
    cache of the program meets them. *)
From Stdlib Require Import ZArith Lia Bool Sorted Permutation.
From S2P Require Import Prelude IntCodec Compress ItemBlock ItemBlockSpec ItemHeader ItemStream BlockCache SearchBase ItemSearch.
Local Open Scope Z_scope.

Definition below (k x : list Z) : bool := lex_ltb x k.

Lemma below_spec k x : below k x = negb (lex_leb k x).
Proof. unfold below. apply lex_ltb_leb. Qed.

Lemma below_trans k x y : lex_leb x y -> below k y = true -> below k x = true.
Proof.
  rewrite !below_spec, !negb_true_iff. intros Hxy Hky. destruct (lex_leb k x) eqn:Hkx; [|done].
  assert (Hc : Is_true (lex_leb k y)) by (apply (lex_leb_trans k x y); [by rewrite Hkx|done]). by rewrite Hky in Hc.
Qed.

(** In a sorted list everything after the partition point is not below. *)
Lemma sorted_drop_ge k xs :
  sorted_items xs -> Forall (fun x => Is_true (lex_leb k x)) (drop (prefix_len (below k) xs) xs).
Proof.
  induction 1 as [|x xs Hs IH Hx]; cbn; [constructor|]. destruct (below k x) eqn:Hb; cbn; [done|].
  rewrite below_spec, negb_false_iff in Hb. constructor; [by rewrite Hb|]. revert Hx. apply Forall_weaken. intros y Hxy.
  apply (lex_leb_trans k x y); [by rewrite Hb|done].
Qed.

(** ** The search in a block *)

Lemma lex_compare_app p x y : lex_compare (p ++ x) (p ++ y) = lex_compare x y.
Proof. induction p as [|c p IH]; [done|]. cbn [app lex_compare]. rewrite Z.compare_refl. exact IH. Qed.

(** Two strings that agree on the first [n] bytes compare as their tails. *)
Lemma lex_compare_drop n a b : take n a = take n b -> lex_compare (drop n a) (drop n b) = lex_compare a b.
Proof. intros H. rewrite <-(take_drop n a) at 2. rewrite <-(take_drop n b) at 2. rewrite H. symmetry. apply lex_compare_app. Qed.

Lemma lex_leb_drop n a b : take n a = take n b -> lex_leb (drop n a) (drop n b) = lex_leb a b.
Proof. intros H. unfold lex_leb. by rewrite lex_compare_drop. Qed.

Lemma lex_ltb_drop n a b : take n a = take n b -> lex_ltb (drop n a) (drop n b) = lex_ltb a b.
Proof. intros H. unfold lex_ltb. by rewrite lex_compare_drop. Qed.

(** The items of [its] can be compared with [k] from byte [n] on. *)
Record comparable (data : list Z) (k : list Z) (n : nat) (it : Item) : Prop := {
  cm_wf : wf_item data it;
  cm_len : (n <= length (item_of data it))%nat;
  cm_same : take n (item_of data it) = take n k;
}.

Lemma suffix_of_ok {E} data k n it :
  comparable data k n it -> suffix_of (E := E) data n it = Ok (drop n (item_of data it)).
Proof. intros [Hw Hl _]. by apply slice_suffix. Qed.

Lemma binary_search_ok {E} data its k n :
  (n <= length k)%nat -> Forall (comparable data k n) its ->
  binary_search_key (E := E) data its k n = Ok (prefix_len (below k) (map (item_of data) its)).
Proof.
  intros Hn Hc. destruct its as [|it0 its]; [done|]. apply Forall_cons in Hc as [H0 Hc]. cbn [binary_search_key map prefix_len].
  unfold slice_from. rewrite decide_True, bind_Ok by done. rewrite (suffix_of_ok _ _ _ _ H0), bind_Ok.
  rewrite lex_leb_drop by (symmetry; apply H0). rewrite below_spec. destruct (lex_leb k _); cbn [negb]; [done|].
  rewrite (partition_point_ok (fun it => below k (item_of data it))).
  - rewrite bind_Ok, <-prefix_len_map. f_equal. lia.
  - revert Hc. apply Forall_weaken. intros it Hit. rewrite (suffix_of_ok _ _ _ _ Hit), bind_Ok. by rewrite lex_ltb_drop by apply Hit.
Qed.

(** A decoded block: its items start with the common prefix. *)
Definition prefixed (cp : list Z) (xs : list (list Z)) : Prop := Forall (fun x => exists y, x = cp ++ y) xs.

Lemma pack_comparable cp xs k :
  Z.of_nat (total xs) < 2 ^ 32 -> prefixed cp xs -> Forall (comparable (concat xs) k (common_prefix_len cp k)) (layout 0 xs).
Proof.
  intros Hb Hp. pose proof (pack_wf cp xs Hb) as [_ Hw]. cbn [pack ib_data ib_items] in Hw. pose proof (pack_items cp xs) as Hi.
  unfold block_items in Hi. cbn [pack ib_data ib_items] in Hi. apply Forall_In. intros it Hit.
  pose proof (in_map (item_of (concat xs)) _ _ Hit) as Hx. rewrite Hi in Hx.
  pose proof (proj1 (Forall_In _ _) Hp _ Hx) as [y Hy]. pose proof (cpl_le_l cp k). split.
  - by apply (proj1 (Forall_In _ _) Hw).
  - rewrite Hy, length_app. lia.
  - rewrite Hy, take_app_le by done. apply cpl_take.
Qed.

(** ** Stored parts *)

(** [p] stores the blocks [gs], grouped by index block. *)
Record part_ok `{Zs : Zstd} (p : Part) (gs : list (list entry)) : Prop := {
  po_groups : Forall group_ok gs;
  po_sorted : sorted_items (entries_items (concat gs));
  po_rows : exists lvl, Forall2 (row_for lvl) gs (p_mrs p) /\ rows_placed lvl gs (p_mrs p) /\
    contents (p_index_file p) (concat (map (packed_index lvl) gs)) /\
    Z.of_nat (length (concat (map (packed_index lvl) gs))) < 2 ^ 64;
  po_placed : placed (concat gs);
  po_items : contents (p_items_file p) (items_bytes (concat gs)) /\ Z.of_nat (length (items_bytes (concat gs))) < 2 ^ 64;
  po_lens : contents (p_lens_file p) (lens_bytes (concat gs)) /\ Z.of_nat (length (lens_bytes (concat gs))) < 2 ^ 64;
  po_first : head (entries_items (concat gs)) = Some (ph_first_item (p_ph p));
  po_last : last (entries_items (concat gs)) = Some (ph_last_item (p_ph p));
  po_data : forall e, In e (concat gs) -> length (e_items e) <> 1%nat -> sb_items_data (e_sb e) <> [];
}.

Lemma must_read_at_ok {E} f a b c :
  contents f (a ++ b ++ c) -> Z.of_nat (length (a ++ b ++ c)) < 2 ^ 64 -> pf_must_read_at (E := E) f (length b) (pos_of a) = Ok b.
Proof.
  intros Hf Hl. unfold pos_of. rewrite wrap_u_id by (unfold is_u; rewrite length_app in Hl; lia).
  by eapply contents_read.
Qed.

(** The elements around position [i]. *)
Lemma concat_at {A} (f : A -> list Z) (l : list A) i x :
  l !! i = Some x -> concat (map f l) = concat (map f (take i l)) ++ f x ++ concat (map f (drop (S i) l)).
Proof.
  intros Hi. rewrite <-(take_drop_middle l i x Hi) at 1. rewrite map_app, concat_app. cbn. done.
Qed.

(** Positions of elements that are not empty are distinct. *)
Lemma pos_lt {A} (f : A -> list Z) (l : list A) i j x y :
  l !! i = Some x -> l !! j = Some y -> f x <> [] -> (i < j)%nat ->
  (length (concat (map f (take i l))) < length (concat (map f (take j l))))%nat.
Proof.
  intros Hi Hj Hx Hlt. pose proof (lookup_lt_Some _ _ _ Hj).
  assert (Hlk : take j l !! i = Some x) by (rewrite lookup_take_lt; done).
  rewrite (concat_at f (take j l) i x Hlk), !length_app, take_take, Nat.min_l by lia. destruct (f x); [done|]. cbn. lia.
Qed.

Lemma pos_inj {A} (f : A -> list Z) (l : list A) i j x y :
  Z.of_nat (length (concat (map f l))) < 2 ^ 64 -> l !! i = Some x -> l !! j = Some y -> f x <> [] -> f y <> [] ->
  pos_of (concat (map f (take i l))) = pos_of (concat (map f (take j l))) -> i = j.
Proof.
  intros Hb Hi Hj Hx Hy. pose proof (concat_at f l i x Hi) as H1. pose proof (concat_at f l j y Hj) as H2.
  apply (f_equal length) in H1, H2. rewrite !length_app in H1, H2. unfold pos_of. rewrite !wrap_u_id by (unfold is_u; lia). intros Heq.
  destruct (Nat.lt_trichotomy i j) as [Hlt|[->|Hlt]]; [|done|].
  - pose proof (pos_lt f l i j x y Hi Hj Hx Hlt). lia.
  - pose proof (pos_lt f l j i y x Hj Hi Hy Hlt). lia.
Qed.

Section PartReads.
  Context `{Zs : Zstd} {Zl : ZstdLaws Zs}.

(** The headers of an index block of a sorted part are sorted. *)
Lemma first_items_sorted gs :
  Forall group_ok gs -> sorted_items (entries_items (concat gs)) -> sorted_items (map (fun e => first_item (e_bh e)) (concat gs)).
Proof.
  intros Hg Hs. assert (Hes : Forall entry_ok (concat gs)).
  { apply Forall_In. intros e (g & Hgi & Hin)%in_concat. pose proof (proj1 (Forall_In _ _) Hg g Hgi) as [_ Hes _]. by apply (proj1 (Forall_In _ _) Hes). }
  clear Hg. revert Hes Hs. generalize (concat gs). intros es. induction es as [|e es IH]; intros Hes Hs; cbn; [constructor|].
  apply Forall_cons in Hes as [He Hes]. unfold entries_items in Hs. cbn in Hs. apply StronglySorted_app in Hs as (Hrel & _ & Hs).
  constructor; [by apply IH|]. apply Forall_In. intros y (e' & <- & Hin)%in_map_iff. pose proof (proj1 (Forall_In _ _) Hes e' Hin) as He'.
  pose proof (eo_first _ He) as H1. pose proof (eo_first _ He') as H2. apply Hrel; [by apply head_Some_elem_of|].
  apply list_elem_of_In, in_concat. exists (e_items e'). split; [by apply in_map|]. apply list_elem_of_In. by apply head_Some_elem_of.
Qed.

Lemma entry_ok_in gs e : Forall group_ok gs -> In e (concat gs) -> entry_ok e.
Proof. intros Hg (g & Hgi & Hin)%in_concat. pose proof (proj1 (Forall_In _ _) Hg g Hgi) as [_ Hes _]. by apply (proj1 (Forall_In _ _) Hes). Qed.

Lemma read_index_ok p gs i g mr :
  part_ok p gs -> gs !! i = Some g -> p_mrs p !! i = Some mr -> read_index_block p mr = Ok (map e_bh g).
Proof.
  intros Hp Hg Hmr. destruct (po_rows _ _ Hp) as (lvl & Hrows & Hpl & Hidx & Hlen).
  destruct (Forall2_lookup_l _ _ _ _ _ Hrows Hg) as (mr' & Hmr' & Hrow). assert (mr' = mr) as -> by congruence.
  pose proof (proj1 (Forall_lookup _ _) (po_groups _ _ Hp) _ _ Hg) as Hgo.
  unfold read_index_block. rewrite (rf_size _ _ _ Hrow), Nat2Z.id, (Hpl _ _ Hmr). rewrite (concat_at _ _ _ _ Hg) in Hidx, Hlen.
  rewrite (must_read_at_ok _ _ _ _ Hidx Hlen), bind_Ok.
  pose proof (decompress_compress lvl (headers g) (headers_bytes g (go_entries _ Hgo))) as Hd.
  unfold compress_zstd_level in Hd. cbn [app] in Hd. unfold packed_index. rewrite Hd, map_err_Ok, bind_Ok, (rf_count _ _ _ Hrow).
  rewrite <-(length_map e_bh g). unfold headers. rewrite unmarshal_headers_ok; [done| |apply entries_bh_ok, Hgo|].
  - destruct g; [by destruct (go_nonempty _ Hgo)|done].
  - pose proof (first_items_sorted gs (po_groups _ _ Hp) (po_sorted _ _ Hp)) as Hs.
    rewrite <-(take_drop_middle gs i g Hg), concat_app, map_app in Hs. cbn in Hs. rewrite map_app in Hs.
    apply StronglySorted_app in Hs as (_ & _ & Hs). apply StronglySorted_app in Hs as (_ & Hs & _). by rewrite map_map.
Qed.

Lemma read_block_at_ok p gs j e :
  part_ok p gs -> concat gs !! j = Some e -> read_inmemory_block p (e_bh e) = Ok (pack (common_prefix (e_bh e)) (e_items e)).
Proof.
  intros Hp Hj. pose proof (entry_ok_in gs e (po_groups _ _ Hp) (proj1 (list_elem_of_In _ _) (list_elem_of_lookup_2 _ _ _ Hj))) as He.
  destruct (po_placed _ _ Hp _ _ Hj) as [Hoi Hol]. destruct (po_items _ _ Hp) as [Hi Hil]. destruct (po_lens _ _ Hp) as [Hl Hll].
  unfold read_inmemory_block. rewrite (eo_items_size _ He), (eo_lens_size _ He), !Nat2Z.id, Hoi, Hol.
  unfold items_bytes in Hi, Hil. unfold lens_bytes in Hl, Hll. rewrite (concat_at _ _ _ _ Hj) in Hi, Hil. rewrite (concat_at _ _ _ _ Hj) in Hl, Hll.
  unfold items_bytes, lens_bytes. rewrite (must_read_at_ok _ _ _ _ Hi Hil), bind_Ok, (must_read_at_ok _ _ _ _ Hl Hll), bind_Ok.
  replace (mkStorageBlock (sb_items_data (e_sb e)) (sb_lens_data (e_sb e))) with (e_sb e) by (by destruct (e_sb e)). by rewrite (eo_decodes _ He).
Qed.
End PartReads.

(** ** The cursor *)

(** The items of [xs] from the first that is not below [k] on; of several items
    equal to [k] some may be left out, but not all. *)
Definition sought (k : list Z) (xs rest : list (list Z)) : Prop :=
  exists d, xs = d ++ rest /\ Forall (fun x => Is_true (lex_leb k x)) rest /\
    Forall (fun x => below k x = true \/ (x = k /\ head rest = Some k)) d.

Section Cursor.
  Context `{Zs : Zstd} {Zl : ZstdLaws Zs}.
  Context {CI CB : Type} `{!BlockCacheOps CI (list BlockHeader)} `{!BlockCacheOps CB InmemoryBlock}.
  Context {Li : BlockCacheLaws CI (list BlockHeader)} {Lb : BlockCacheLaws CB InmemoryBlock}.
  (** The parts that share the caches. *)
  Context (all : list (Part * list (list entry))).
  Context (all_ok : forall p gs, In (p, gs) all -> part_ok p gs).
  Context (ids : forall p gs p' gs', In (p, gs) all -> In (p', gs') all -> p_id p = p_id p' -> p = p' /\ gs = gs').
  Local Abbreviation W := (Caches CI CB).

(** A cached value is what its part stores at the offset of the key. *)
Definition good_idxb (k : Key) (v : list BlockHeader) : Prop :=
  forall p gs i g mr, In (p, gs) all -> part_id k = p_id p -> gs !! i = Some g -> p_mrs p !! i = Some mr ->
    offset k = mr_index_block_offset mr -> v = map e_bh g.
Definition good_ib (k : Key) (v : InmemoryBlock) : Prop :=
  forall p gs j e, In (p, gs) all -> part_id k = p_id p -> concat gs !! j = Some e -> length (e_items e) <> 1%nat ->
    offset k = items_block_offset (e_bh e) -> v = pack (common_prefix (e_bh e)) (e_items e).

Record caches_ok (w : W) : Prop := {
  co_idxb : all_good good_idxb (c_idxb w);
  co_ib : all_good good_ib (c_ib w);
  co_sparse : all_good good_ib (c_ib_sparse w);
}.

Lemma good_idxb_iff p gs i g mr v :
  In (p, gs) all -> gs !! i = Some g -> p_mrs p !! i = Some mr ->
  good_idxb (mkKey (p_id p) (mr_index_block_offset mr)) v <-> v = map e_bh g.
Proof.
  intros Hin Hg Hmr. split; [intros H; by apply (H p gs i g mr)|]. intros -> p' gs' i' g' mr' Hin' Hid Hg' Hmr' Hoff. cbn in Hid, Hoff.
  destruct (ids _ _ _ _ Hin Hin' Hid) as [<- <-]. f_equal. pose proof (all_ok _ _ Hin) as Hp.
  destruct (po_rows _ _ Hp) as (lvl & Hrows & Hpl & _ & Hlen). rewrite (Hpl _ _ Hmr), (Hpl _ _ Hmr') in Hoff.
  assert (Hne : forall j h, gs !! j = Some h -> packed_index lvl h <> []).
  { intros j h Hj. apply zstd_compress_nonempty, headers_bytes. apply (proj1 (Forall_lookup _ _) (po_groups _ _ Hp) _ _ Hj). }
  assert (i = i') as <- by (apply (pos_inj _ gs i i' g g' Hlen Hg Hg'); eauto). congruence.
Qed.

Lemma good_ib_iff p gs j e v :
  In (p, gs) all -> concat gs !! j = Some e -> length (e_items e) <> 1%nat ->
  good_ib (mkKey (p_id p) (items_block_offset (e_bh e))) v <-> v = pack (common_prefix (e_bh e)) (e_items e).
Proof.
  intros Hin He Hm. split; [intros H; by apply (H p gs j e)|]. intros -> p' gs' j' e' Hin' Hid He' Hm' Hoff. cbn in Hid, Hoff.
  destruct (ids _ _ _ _ Hin Hin' Hid) as [<- <-]. pose proof (all_ok _ _ Hin) as Hp. destruct (po_items _ _ Hp) as [_ Hlen].
  rewrite (proj1 (po_placed _ _ Hp _ _ He)), (proj1 (po_placed _ _ Hp _ _ He')) in Hoff.
  assert (j = j') as <-; [|congruence].
  apply (pos_inj (fun e => sb_items_data (e_sb e)) (concat gs) j j' e e' Hlen He He'); [| |exact Hoff]; apply (po_data _ _ Hp); try done;
    by eapply list_elem_of_In, list_elem_of_lookup_2.
Qed.

(** The entries [pre] lie behind the cursor, the last of them being the current
    block, [es] are the rest of the current index block. *)
Record cursor (p : Part) (gs : list (list entry)) (self : PartSearch) (pre es : list entry) : Prop := {
  cu_p : ps_p self = p;
  cu_err : ps_error_msg self = None;
  cu_bhs : drop (ps_bh_next self) (ps_idxb self) = map e_bh es;
  cu_split : concat gs = pre ++ es ++ concat (drop (ps_mr_next self) gs);
  cu_ib : ps_ib_valid self = true ->
    exists pre' e, pre = pre' ++ [e] /\ ps_ib self = pack (common_prefix (e_bh e)) (e_items e);
}.

(** The entries after the current block. *)
Definition ahead (gs : list (list entry)) (self : PartSearch) (es : list entry) : list entry :=
  es ++ concat (drop (ps_mr_next self) gs).

(** The items of the current block that were not yielded. *)
Definition cur_rest (self : PartSearch) : list (list Z) :=
  if ps_ib_valid self then drop (ps_ib_item_idx self) (block_items (ps_ib self)) else [].

Section Steps.
  Context {E : Type}.
  Context (p : Part) (gs : list (list entry)) (Hin : In (p, gs) all).

Lemma next_bhs_more self w pre g gs' :
  cursor p gs self pre [] -> caches_ok w -> drop (ps_mr_next self) gs = g :: gs' ->
  exists self' w', next_bhs (E := E) self w = Ok (self', w', None) /\ cursor p gs self' pre g /\ caches_ok w' /\
    ps_idxb self' = map e_bh g /\ drop (ps_mr_next self') gs = gs' /\ ps_ib self' = ps_ib self /\ ps_ib_valid self' = ps_ib_valid self /\
    ps_err self' = ps_err self /\ ps_bh_next self' = 0%nat /\ ps_sparse self' = ps_sparse self.
Proof.
  intros Hc Hw Hgs. pose proof (all_ok _ _ Hin) as Hp. destruct (po_rows _ _ Hp) as (lvl & Hrows & _).
  assert (Hg : gs !! ps_mr_next self = Some g).
  { pose proof (f_equal (fun l => l !! 0%nat) Hgs) as Hl. cbn in Hl. by rewrite lookup_drop, Nat.add_0_r in Hl. }
  destruct (Forall2_lookup_l _ _ _ _ _ Hrows Hg) as (mr & Hmr & _). unfold next_bhs. rewrite (cu_p _ _ _ _ _ Hc), Hmr. cbn [ps_p set_mr_next].
  rewrite (cu_p _ _ _ _ _ Hc).
  destruct (get_or_read_ok (E := E) good_idxb (mkKey (p_id p) (mr_index_block_offset mr)) (read_index_block p mr) (map e_bh g) (c_idxb w))
    as (c & -> & Hgood); [apply Hw|by eapply read_index_ok|intros v; by eapply good_idxb_iff|]. rewrite bind_Ok.
  assert (Hd : drop (S (ps_mr_next self)) gs = gs') by (rewrite drop_S with (x := g) in Hgs by done; by injection Hgs).
  eexists _, _. split; [done|]. destruct Hw. split; [|split_and!; done].
  split; cbn [ps_p ps_bh_next ps_idxb ps_mr_next ps_ib_valid ps_ib set_bh_next set_current_idxb set_mr_next]; try apply Hc; try done.
  pose proof (cu_split _ _ _ _ _ Hc) as Hs. rewrite Hd. rewrite Hgs in Hs. exact Hs.
Qed.

Lemma next_bhs_end self (w : W) pre es :
  cursor p gs self pre es -> drop (ps_mr_next self) gs = [] -> next_bhs (E := E) self w = Ok (self, w, Some PsEof).
Proof.
  intros Hc Hgs. pose proof (all_ok _ _ Hin) as Hp. destruct (po_rows _ _ Hp) as (lvl & Hrows & _). pose proof (Forall2_length _ _ _ Hrows) as Hl.
  unfold next_bhs. rewrite (cu_p _ _ _ _ _ Hc). rewrite lookup_ge_None_2; [done|]. apply (f_equal length) in Hgs. rewrite length_drop in Hgs. cbn in Hgs. lia.
Qed.

(** The current block becomes the one with the header of [e]. *)
Lemma get_block_ok self w j e :
  ps_p self = p -> caches_ok w -> concat gs !! j = Some e ->
  exists w', get_inmemory_block (E := E) self (e_bh e) w =
      Ok (set_current_ib self (pack (common_prefix (e_bh e)) (e_items e)), w', None) /\ caches_ok w'.
Proof.
  intros Hps Hw Hj. pose proof (all_ok _ _ Hin) as Hp.
  pose proof (entry_ok_in gs e (po_groups _ _ Hp) (proj1 (list_elem_of_In _ _) (list_elem_of_lookup_2 _ _ _ Hj))) as He.
  unfold get_inmemory_block. rewrite (eo_count _ He). destruct (Z.eqb_spec (Z.of_nat (length (e_items e))) 1) as [H1|H1].
  - unfold unmarshal_single_item. rewrite (eo_single _ He) by lia. cbn [assert_]. rewrite !bind_Ok. exists w. split; [|done].
    do 4 f_equal. unfold pack. destruct (e_items e) as [|x xs] eqn:Hx; [done|]. destruct xs; [|cbn in H1; lia].
    pose proof (eo_first _ He) as Hf. rewrite Hx in Hf. injection Hf as ->. cbn. rewrite app_nil_r. do 3 f_equal.
    pose proof (eo_fi_len _ He). unfold MAX_INMEMORY_BLOCK_SIZE in *. rewrite wrap_u_id; [done|]. unfold is_u. lia.
  - rewrite Hps. assert (Hm : length (e_items e) <> 1%nat) by lia.
    destruct (get_or_read_ok (E := E) good_ib (mkKey (p_id p) (items_block_offset (e_bh e))) (read_inmemory_block p (e_bh e))
      (pack (common_prefix (e_bh e)) (e_items e)) (if ps_sparse self then c_ib_sparse w else c_ib w)) as (c & -> & Hgood).
    + destruct (ps_sparse self); apply Hw.
    + by eapply read_block_at_ok.
    + intros v. by eapply good_ib_iff.
    + rewrite bind_Ok. destruct Hw. destruct (ps_sparse self); eexists; (split; [done|]); by split.
Qed.

Lemma next_block_more self w pre es e rest :
  cursor p gs self pre es -> caches_ok w -> ahead gs self es = e :: rest ->
  exists self' w' es', ps_next_block (E := E) self w = Ok (self', w', None) /\ cursor p gs self' (pre ++ [e]) es' /\ caches_ok w' /\
    ahead gs self' es' = rest /\ ps_ib self' = pack (common_prefix (e_bh e)) (e_items e) /\ ps_ib_valid self' = true /\
    ps_ib_item_idx self' = 0%nat /\ ps_err self' = ps_err self.
Proof.
  intros Hc Hw Ha. unfold ps_next_block. pose proof (all_ok _ _ Hin) as Hp.
  assert (Hen : exists s1 w1 es1, (if (length (ps_idxb self) <=? ps_bh_next self)%nat then next_bhs (E := E) self w else Ok (self, w, None)) =
    Ok (s1, w1, None) /\ cursor p gs s1 pre (e :: es1) /\ caches_ok w1 /\ ahead gs s1 es1 = rest /\ ps_err s1 = ps_err self).
  { pose proof (f_equal length (cu_bhs _ _ _ _ _ Hc)) as Hl. rewrite length_drop, length_map in Hl. unfold ahead in Ha. destruct es as [|e0 es].
    - rewrite (proj2 (Nat.leb_le _ _)) by (cbn in Hl; lia). cbn in Ha. destruct (drop (ps_mr_next self) gs) as [|g gs'] eqn:Hd; [done|].
      destruct (next_bhs_more self w pre g gs' Hc Hw Hd) as (s1 & w1 & -> & Hc1 & Hw1 & _ & Hd1 & _ & _ & He1 & _).
      assert (Hg : group_ok g).
      { apply (proj1 (Forall_In _ _) (po_groups _ _ Hp)). rewrite <-(take_drop (ps_mr_next self) gs), Hd. apply in_or_app. right. by left. }
      destruct g as [|e1 g]; [by destruct (go_nonempty _ Hg)|]. cbn in Ha. injection Ha as -> <-. exists s1, w1, g. unfold ahead. by rewrite Hd1.
    - rewrite (proj2 (Nat.leb_gt _ _)) by (cbn in Hl; lia). cbn in Ha. injection Ha as -> <-. by exists self, w, es. }
  destruct Hen as (s1 & w1 & es1 & -> & Hc1 & Hw1 & Ha1 & He1). rewrite bind_Ok. pose proof (cu_bhs _ _ _ _ _ Hc1) as Hbhs. cbn [map] in Hbhs.
  assert (Hlk : ps_idxb s1 !! ps_bh_next s1 = Some (e_bh e)).
  { pose proof (f_equal (fun l => l !! 0%nat) Hbhs) as Hl. cbn in Hl. by rewrite lookup_drop, Nat.add_0_r in Hl. }
  unfold idx. rewrite Hlk, bind_Ok. pose proof (cu_split _ _ _ _ _ Hc1) as Hs. cbn in Hs.
  destruct (get_block_ok (set_bh_next s1 (S (ps_bh_next s1))) w1 (length pre) e) as (w2 & -> & Hw2);
    [apply Hc1|done|rewrite Hs; by rewrite list_lookup_middle|]. rewrite bind_Ok.
  eexists _, w2, es1. split; [done|]. split; [|split_and!; try done].
  split; cbn [ps_p ps_bh_next ps_idxb ps_mr_next ps_ib_valid ps_ib set_bh_next set_current_ib set_ib_pos]; try apply Hc1.
  - rewrite drop_S with (x := e_bh e) in Hbhs by done. by injection Hbhs.
  - rewrite Hs, <-app_assoc. done.
  - intros _. by exists pre, e.
Qed.

Lemma search_block_end self (w : W) pre es :
  cursor p gs self pre es -> ahead gs self es = [] -> ps_next_block (E := E) self w = Ok (self, w, Some PsEof).
Proof.
  intros Hc Ha. unfold ahead in Ha. apply app_eq_nil in Ha as [-> Hd]. pose proof (all_ok _ _ Hin) as Hp.
  assert (Hgs : drop (ps_mr_next self) gs = []).
  { destruct (drop (ps_mr_next self) gs) as [|g gs'] eqn:Hd'; [done|]. cbn in Hd. apply app_eq_nil in Hd as [-> _].
    assert (Hg : group_ok []); [|by destruct (go_nonempty _ Hg)]. apply (proj1 (Forall_In _ _) (po_groups _ _ Hp)).
    rewrite <-(take_drop (ps_mr_next self) gs), Hd'. apply in_or_app. right. by left. }
  unfold ps_next_block. pose proof (f_equal length (cu_bhs _ _ _ _ _ Hc)) as Hl. rewrite length_drop in Hl. cbn in Hl.
  rewrite (proj2 (Nat.leb_le _ _)) by lia. by rewrite (next_bhs_end self w pre [] Hc Hgs).
Qed.

(** The items still to be yielded. *)
Definition remaining (self : PartSearch) (es : list entry) : list (list Z) :=
  cur_rest self ++ entries_items (ahead gs self es).

Lemma entries_items_app es es' : entries_items (es ++ es') = entries_items es ++ entries_items es'.
Proof. unfold entries_items. by rewrite map_app, concat_app. Qed.

Lemma entry_small e : entry_ok e -> Z.of_nat (total (e_items e)) < 2 ^ 32.
Proof. intros He. pose proof (sto_total _ (eo_storable _ He)). unfold MAX_INMEMORY_BLOCK_SIZE in *. lia. Qed.

(** Reading the item at a position of a decoded block. *)
Lemma block_item_at cp xs i x :
  Z.of_nat (total xs) < 2 ^ 32 -> xs !! i = Some x ->
  exists it, ib_items (pack cp xs) !! i = Some it /\ forall E', item_bytes (E := E') it (ib_data (pack cp xs)) = Ok x.
Proof.
  intros Hb Hi. pose proof (pack_items cp xs) as Hp. unfold block_items in Hp. rewrite <-Hp in Hi.
  apply list_lookup_fmap_Some in Hi as (it & -> & Hit). exists it. split; [done|]. intros E'. apply item_bytes_ok.
  pose proof (pack_wf cp xs Hb) as [_ Hw]. apply (proj1 (Forall_lookup _ _) Hw _ _ Hit).
Qed.

Lemma length_pack_items cp xs : length (ib_items (pack cp xs)) = length xs.
Proof. apply length_layout. Qed.

Lemma cursor_entry self pre es : cursor p gs self pre es -> Forall entry_ok pre /\ Forall entry_ok (ahead gs self es).
Proof.
  intros Hc. assert (H : Forall entry_ok (concat gs)).
  { apply Forall_In. intros e. apply entry_ok_in. apply (all_ok _ _ Hin). }
  rewrite (cu_split _ _ _ _ _ Hc) in H. by apply Forall_app in H.
Qed.

Lemma next_item_more self w pre es x xs :
  cursor p gs self pre es -> caches_ok w -> ps_err self = None -> remaining self es = x :: xs ->
  exists self' w' pre' es', ps_next_item (E := E) self w = Ok (self', w', true) /\ cursor p gs self' pre' es' /\ caches_ok w' /\
    ps_err self' = None /\ (forall E', ps_item (E := E') self' = Ok x) /\ remaining self' es' = xs.
Proof.
  intros Hc Hw He Hr. unfold ps_next_item. rewrite He. unfold remaining, cur_rest in Hr.
  destruct (cursor_entry _ _ _ Hc) as [Hpre Hah].
  destruct (ps_ib_valid self && (ps_ib_item_idx self <? length (ib_items (ps_ib self)))%nat) eqn:Hcur.
  - apply andb_true_iff in Hcur as [Hv Hlt%Nat.ltb_lt]. rewrite Hv in Hr.
    destruct (cu_ib _ _ _ _ _ Hc Hv) as (pre' & e & -> & Hib). apply Forall_app in Hpre as [_ Hpe]. apply Forall_cons in Hpe as [Heo _].
    rewrite Hib, pack_items in Hr. rewrite Hib, length_pack_items in Hlt. destruct (lookup_lt_is_Some_2 _ _ Hlt) as [y Hy].
    rewrite (drop_S _ _ _ Hy) in Hr. cbn in Hr. injection Hr as -> Hxs.
    destruct (block_item_at (common_prefix (e_bh e)) (e_items e) _ _ (entry_small _ Heo) Hy) as (it & Hit & Hx).
    unfold idx. rewrite Hib, Hit, bind_Ok. eexists _, w, (pre' ++ [e]), es. split; [done|].
    split; [destruct Hc; split; done|]. split_and!; try done.
    + intros E'. unfold ps_item. cbn [ps_cur_item ps_ib set_cur_item]. rewrite Hib. apply Hx.
    + unfold remaining, cur_rest. cbn [ps_ib_valid ps_ib_item_idx ps_ib set_cur_item]. by rewrite Hv, Hib, pack_items.
  - assert (Hah0 : entries_items (ahead gs self es) = x :: xs).
    { destruct (ps_ib_valid self); [|done]. cbn in Hcur. apply Nat.ltb_ge in Hcur.
      by rewrite drop_ge in Hr by (unfold block_items; rewrite length_map; lia). }
    clear Hr. destruct (ahead gs self es) as [|e rest] eqn:Ha; [done|]. apply Forall_cons in Hah as [Heo _].
    destruct (next_block_more self w pre es e rest Hc Hw Ha) as (s1 & w1 & es1 & -> & Hc1 & Hw1 & Ha1 & Hib1 & Hv1 & Hi1 & He1).
    rewrite bind_Ok. pose proof (sto_nonempty _ (eo_storable _ Heo)) as Hne. pose proof (entry_small _ Heo) as Hsm.
    unfold entries_items in Hah0. cbn in Hah0. destruct (e_items e) as [|y ys] eqn:Hit; [done|]. cbn in Hah0. injection Hah0 as -> Hxs.
    destruct (block_item_at (common_prefix (e_bh e)) (x :: ys) 0 x Hsm eq_refl) as (it & Hit0 & Hx).
    unfold idx. rewrite Hib1, Hit0, bind_Ok. eexists _, w1, (pre ++ [e]), es1. split; [done|].
    split; [destruct Hc1; split; done|]. split_and!; [done|by cbn; rewrite He1| |].
    + intros E'. unfold ps_item. cbn [ps_cur_item ps_ib set_cur_item]. rewrite Hib1. apply Hx.
    + unfold remaining, cur_rest. cbn [ps_ib_valid ps_ib_item_idx ps_ib set_cur_item]. rewrite Hv1, Hib1, pack_items.
      change (ahead gs (set_cur_item s1 it 1) es1) with (ahead gs s1 es1). rewrite Ha1. exact Hxs.
Qed.

Lemma next_item_end self w pre es :
  cursor p gs self pre es -> caches_ok w -> ps_err self = None -> remaining self es = [] ->
  exists self', ps_next_item (E := E) self w = Ok (self', w, false) /\ cursor p gs self' pre es /\ ps_err self' = Some PsEof.
Proof.
  intros Hc Hw He Hr. unfold ps_next_item. rewrite He. unfold remaining in Hr. apply app_eq_nil in Hr as [Hcr Hah].
  destruct (cursor_entry _ _ _ Hc) as [_ Hao].
  assert (Ha : ahead gs self es = []).
  { destruct (ahead gs self es) as [|e rest]; [done|]. apply Forall_cons in Hao as [Heo _]. pose proof (sto_nonempty _ (eo_storable _ Heo)).
    unfold entries_items in Hah. cbn in Hah. by apply app_eq_nil in Hah as [? _]. }
  assert (Hb : ps_ib_valid self && (ps_ib_item_idx self <? length (ib_items (ps_ib self)))%nat = false).
  { unfold cur_rest in Hcr. destruct (ps_ib_valid self); [|done]. cbn. apply Nat.ltb_ge. apply (f_equal length) in Hcr.
    rewrite length_drop in Hcr. unfold block_items in Hcr. rewrite length_map in Hcr. cbn in Hcr. lia. }
  rewrite Hb, (search_block_end self w pre es Hc Ha), bind_Ok. eexists. split; [done|]. split; [|done]. destruct Hc; split; done.
Qed.

(** ** Seeking within the current block *)

Lemma below_false k x : below k x = false <-> Is_true (lex_leb k x).
Proof. rewrite below_spec, negb_false_iff. symmetry. apply Is_true_true. Qed.

(** A position in the current block that splits the items at [k] splits the
    items of the part. *)
Lemma block_split self pre' e es i k :
  cursor p gs self (pre' ++ [e]) es ->
  Forall (fun x => below k x = true \/ (x = k /\ e_items e !! i = Some k)) (entries_items pre' ++ take i (e_items e)) ->
  (exists x, e_items e !! i = Some x /\ below k x = false) ->
  sought k (entries_items (concat gs)) (drop i (e_items e) ++ entries_items (ahead gs self es)).
Proof.
  intros Hc Hd (x & Hx & Hb). pose proof (all_ok _ _ Hin) as Hp. pose proof (po_sorted _ _ Hp) as Hs.
  pose proof (cu_split _ _ _ _ _ Hc) as Hsp. fold (ahead gs self es) in Hsp. rewrite Hsp in Hs |- *.
  exists (entries_items pre' ++ take i (e_items e)). rewrite !entries_items_app in *.
  change (entries_items [e]) with (e_items e ++ []) in *. rewrite app_nil_r in *.
  assert (Heq : (entries_items pre' ++ e_items e) ++ entries_items (ahead gs self es) =
    (entries_items pre' ++ take i (e_items e)) ++ drop i (e_items e) ++ entries_items (ahead gs self es))
    by (rewrite <-(take_drop i (e_items e)) at 1; by rewrite <-!app_assoc).
  split; [exact Heq|]. rewrite Heq in Hs. apply StronglySorted_app in Hs as (_ & _ & Hs). rewrite (drop_S _ _ _ Hx) in *. cbn in Hs |- *. split.
  - apply StronglySorted_inv in Hs as [_ Hs]. constructor; [by apply below_false|]. revert Hs. apply Forall_weaken. intros y Hxy.
    apply (lex_leb_trans k x y); [by apply below_false|done].
  - revert Hd. apply Forall_weaken. intros y. rewrite Hx. naive_solver.
Qed.

(** The slices of a decoded block. *)
Lemma pack_item_of cp xs : map (item_of (ib_data (pack cp xs))) (ib_items (pack cp xs)) = xs.
Proof. exact (pack_items cp xs). Qed.

Lemma suffix_at {E'} cp xs k i x :
  Z.of_nat (total xs) < 2 ^ 32 -> prefixed cp xs -> xs !! i = Some x ->
  exists it, ib_items (pack cp xs) !! i = Some it /\
    suffix_of (E := E') (ib_data (pack cp xs)) (common_prefix_len cp k) it = Ok (drop (common_prefix_len cp k) x) /\
    take (common_prefix_len cp k) x = take (common_prefix_len cp k) k.
Proof.
  intros Hb Hp Hi. rewrite <-(pack_item_of cp xs) in Hi. apply list_lookup_fmap_Some in Hi as (it & -> & Hit). exists it. split; [done|].
  pose proof (proj1 (Forall_lookup _ _) (pack_comparable cp xs k Hb Hp) _ _ Hit) as Hc. split; [by apply (suffix_of_ok _ k)|apply Hc].
Qed.

Lemma search_window {E'} cp xs k its :
  Z.of_nat (total xs) < 2 ^ 32 -> prefixed cp xs -> Forall (fun it => In it (ib_items (pack cp xs))) its ->
  binary_search_key (E := E') (ib_data (pack cp xs)) its k (common_prefix_len cp k) =
    Ok (prefix_len (below k) (map (item_of (ib_data (pack cp xs))) its)).
Proof.
  intros Hb Hp Hits. apply binary_search_ok; [apply cpl_le_r|]. revert Hits. apply Forall_weaken. intros it Hit.
  by apply (proj1 (Forall_In _ _) (pack_comparable cp xs k Hb Hp)).
Qed.


(** The items of the entries before the current block, and those of the block
    before a position, are not above the item at that position. *)
Lemma before_le self pre' e es i x y :
  cursor p gs self (pre' ++ [e]) es -> e_items e !! i = Some x -> In y (entries_items pre' ++ take i (e_items e)) -> lex_leb y x.
Proof.
  intros Hc Hx Hy. pose proof (po_sorted _ _ (all_ok _ _ Hin)) as Hs. rewrite (cu_split _ _ _ _ _ Hc), !entries_items_app in Hs.
  apply StronglySorted_app in Hs as (_ & Hs & _). change (entries_items [e]) with (e_items e ++ []) in Hs. rewrite app_nil_r in Hs.
  rewrite <-(take_drop i (e_items e)), app_assoc in Hs. apply StronglySorted_app in Hs as (Hrel & _ & _).
  apply Hrel; [by apply list_elem_of_In|]. rewrite (drop_S _ _ _ Hx). by left.
Qed.

(** The items before a position are below [k], or the one there is [k]. *)
Lemma before_below self pre' e es i x k y :
  cursor p gs self (pre' ++ [e]) es -> e_items e !! i = Some x -> Is_true (lex_leb x k) ->
  In y (entries_items pre' ++ take i (e_items e)) -> below k y = true \/ (y = k /\ x = k).
Proof.
  intros Hc Hx Hxk Hy. pose proof (before_le _ _ _ _ _ _ _ Hc Hx Hy) as Hyx. destruct (below k y) eqn:Hby; [by left|right].
  apply below_false in Hby. assert (x = k) as -> by (apply lex_leb_antisym; [done|by apply (lex_leb_trans k y x)]).
  split; [by apply lex_leb_antisym|done].
Qed.

Lemma below_refl k : below k k = false.
Proof. apply below_false. by rewrite lex_leb_refl. Qed.

Lemma not_ltb_leb x y : lex_ltb x y = false -> Is_true (lex_leb y x).
Proof. rewrite lex_ltb_leb, negb_false_iff. by intros ->. Qed.

Lemma ltb_leb x y : lex_ltb x y = true -> Is_true (lex_leb x y).
Proof. rewrite lex_ltb_leb, negb_true_iff. intros H. destruct (lex_leb_total x y) as [|H']; [done|]. by rewrite H in H'. Qed.

(** The key lies among the first [i] items of the current block. *)
Lemma back_split self pre' e es i k x0 xi :
  cursor p gs self (pre' ++ [e]) es -> e_items e !! 0%nat = Some x0 -> e_items e !! i = Some xi -> (0 < i)%nat ->
  lex_ltb k xi = true -> lex_ltb k x0 = false ->
  sought k (entries_items (concat gs)) (drop (prefix_len (below k) (take i (e_items e))) (e_items e) ++ entries_items (ahead gs self es)).
Proof.
  intros Hc Hx0 Hxi Hi0 Hki Hk0. set (xs := e_items e) in *. set (m := prefix_len (below k) (take i xs)).
  pose proof (lookup_lt_Some _ _ _ Hxi) as Hil. assert (Hm : (m <= i)%nat) by (unfold m; etransitivity; [apply prefix_len_le|rewrite length_take; lia]).
  apply (block_split self pre'); [exact Hc| |].
  - fold xs. apply Forall_app. split.
    + apply Forall_In. intros y Hy. destruct (before_below self pre' e es 0 x0 k y) as [|[-> ->]]; [done|done|by apply not_ltb_leb|by apply in_or_app; left|by left|].
      right. split; [done|]. assert (m = 0%nat) as ->; [|done].
      unfold m. destruct xs as [|z zs]; [done|]. injection Hx0 as ->. destruct i; [lia|]. cbn [take prefix_len]. by rewrite below_refl.
    + pose proof (prefix_len_take (below k) (take i xs)) as Hf. fold m in Hf. rewrite take_take, Nat.min_l in Hf by done.
      revert Hf. apply Forall_weaken. intros y. by left.
  - destruct (lookup_lt_is_Some_2 xs m ltac:(lia)) as [xm Hxm]. exists xm. split; [done|]. destruct (decide (m = i)) as [Hmi|Hmi].
    + rewrite Hmi in Hxm. assert (xm = xi) as -> by congruence. by apply below_false, ltb_leb.
    + apply (prefix_len_head (below k) (take i xs)). fold m. rewrite lookup_take_lt; [done|lia].
Qed.

(** The key lies at or after the [i]-th item of the current block. *)
Lemma fwd_split self pre' e es i k xi xn :
  cursor p gs self (pre' ++ [e]) es -> e_items e !! i = Some xi -> lex_ltb k xi = false ->
  e_items e !! (length (e_items e) - 1)%nat = Some xn -> below k xn = false ->
  sought k (entries_items (concat gs)) (drop (i + prefix_len (below k) (drop i (e_items e))) (e_items e) ++ entries_items (ahead gs self es)).
Proof.
  intros Hc Hxi Hki Hxn Hbn. set (xs := e_items e) in *. set (m := prefix_len (below k) (drop i xs)). pose proof (lookup_lt_Some _ _ _ Hxi) as Hil.
  assert (Hm : (i + m < length xs)%nat).
  { destruct (decide (i + m < length xs)%nat) as [|Hge]; [done|]. pose proof (prefix_len_take (below k) (drop i xs)) as Hf. fold m in Hf.
    rewrite take_ge in Hf by (rewrite length_drop; lia). rewrite Forall_forall in Hf. rewrite (Hf xn) in Hbn; [done|].
    apply (list_elem_of_lookup_2 _ (length xs - 1 - i)). rewrite lookup_drop. rewrite <-Hxn. f_equal. lia. }
  apply (block_split self pre'); [exact Hc| |].
  - fold xs. replace (take (i + m) xs) with (take i xs ++ take m (drop i xs)) by (by rewrite take_take_drop).
    rewrite app_assoc. apply Forall_app. split.
    + apply Forall_In. intros y Hy. destruct (before_below self pre' e es i xi k y) as [|[-> ->]]; [done|done|by apply not_ltb_leb|done|by left|].
      right. split; [done|]. assert (m = 0%nat) as ->; [|by rewrite Nat.add_0_r]. unfold m. rewrite (drop_S _ _ _ Hxi). cbn [prefix_len]. by rewrite below_refl.
    + pose proof (prefix_len_take (below k) (drop i xs)) as Hf. fold m in Hf. revert Hf. apply Forall_weaken. intros y. by left.
  - destruct (lookup_lt_is_Some_2 xs (i + m) Hm) as [xm Hxm]. exists xm. split; [done|].
    apply (prefix_len_head (below k) (drop i xs)). fold m. by rewrite lookup_drop.
Qed.

Lemma try_fast_seek_ok self pre es k :
  cursor p gs self pre es ->
  exists self' found, try_fast_seek (E := E) self k = Ok (self', found) /\
    (found = false -> self' = self) /\
    (found = true -> cursor p gs self' pre es /\ ps_err self' = ps_err self /\ sought k (entries_items (concat gs)) (remaining self' es)).
Proof.
  intros Hc. unfold try_fast_seek. destruct (ps_ib_valid self) eqn:Hv; cbn [negb]; [|by exists self, false].
  destruct (cu_ib _ _ _ _ _ Hc Hv) as (pre' & e & -> & Hib). destruct (cursor_entry _ _ _ Hc) as [Hpre _].
  apply Forall_app in Hpre as [_ Hpe]. apply Forall_cons in Hpe as [Heo _]. pose proof (entry_small _ Heo) as Hb. pose proof (eo_prefix _ Heo) as Hpf.
  rewrite Hib. set (cp := common_prefix (e_bh e)) in *. rewrite length_pack_items.
  change (ib_common_prefix (pack cp (e_items e))) with cp. set (n := common_prefix_len cp k). set (xs := e_items e) in *.
  destruct (Nat.leb_spec (length xs) (ps_ib_item_idx self)) as [|Hlt]; [by exists self, false|].
  unfold slice_from. rewrite decide_True, bind_Ok by apply cpl_le_r.
  destruct (lookup_lt_is_Some_2 xs (length xs - 1) ltac:(lia)) as [xn Hxn].
  destruct (suffix_at (E' := E) cp xs k _ _ Hb Hpf Hxn) as (itn & Hitn & Hsn & Htn). fold n in Hsn, Htn. rewrite (idx_Some _ _ _ Hitn), bind_Ok, Hsn, bind_Ok.
  rewrite lex_ltb_drop by done. fold (below k xn). destruct (below k xn) eqn:Hbn; [by exists self, false|].
  set (i := (ps_ib_item_idx self - 1)%nat). destruct (lookup_lt_is_Some_2 xs i ltac:(unfold i; lia)) as [xi Hxi].
  destruct (suffix_at (E' := E) cp xs k _ _ Hb Hpf Hxi) as (iti & Hiti & Hsi & Hti). fold n in Hsi, Hti. rewrite (idx_Some _ _ _ Hiti), bind_Ok, Hsi, bind_Ok.
  rewrite lex_ltb_drop by done.
  assert (Hrem : forall j, remaining (set_ib_pos self true j) es = drop j xs ++ entries_items (ahead gs self es)).
  { intros j. unfold remaining, cur_rest. cbn [ps_ib_valid ps_ib_item_idx ps_ib set_ib_pos]. rewrite Hib, pack_items. done. }
  assert (Hcur : forall j, cursor p gs (set_ib_pos self true j) (pre' ++ [e]) es) by (intros j; destruct Hc; split; try done; intros _; by exists pre', e).
  destruct (lex_ltb k xi) eqn:Hki.
  - destruct (take i (ib_items (pack cp xs))) as [|it0 its] eqn:Htk; [by exists self, false|].
    assert (Hi0 : (0 < i)%nat) by (destruct i; [done|lia]). pose proof (lookup_lt_Some _ _ _ Hxi).
    destruct (lookup_lt_is_Some_2 xs 0 ltac:(lia)) as [x0 Hx0].
    destruct (suffix_at (E' := E) cp xs k _ _ Hb Hpf Hx0) as (it0' & Hit0 & Hs0 & Ht0). fold n in Hs0, Ht0.
    assert (it0' = it0) as ->.
    { assert (Hz : take i (ib_items (pack cp xs)) !! 0%nat = Some it0) by (by rewrite Htk). rewrite lookup_take_lt in Hz by done. congruence. }
    rewrite Hs0, bind_Ok, lex_ltb_drop by done. destruct (lex_ltb k x0) eqn:Hk0; [by exists self, false|].
    rewrite <-Htk. unfold n. rewrite search_window, bind_Ok; [|done|done|apply Forall_take, Forall_In; auto]. rewrite <-firstn_map, pack_item_of.
    eexists _, true. split; [done|]. split; [done|]. intros _. split; [apply Hcur|]. split; [done|]. rewrite Hrem. by apply (back_split self pre' e es i k x0 xi).
  - unfold n. rewrite search_window, bind_Ok; [|done|done|apply Forall_drop, Forall_In; auto]. rewrite <-skipn_map, pack_item_of.
    eexists _, true. split; [done|]. split; [done|]. intros _. split; [apply Hcur|]. split; [done|]. rewrite Hrem. by apply (fwd_split self pre' e es i k xi xn).
Qed.

(** ** Seeking from the metaindex *)

Lemma prefix_len_in {A} (f : A -> bool) l i x : l !! i = Some x -> (i < prefix_len f l)%nat -> f x = true.
Proof.
  intros Hi Hlt. pose proof (prefix_len_take f l) as Hf. rewrite Forall_lookup in Hf. apply (Hf i). by rewrite lookup_take_lt.
Qed.

Lemma entry_first e : entry_ok e -> exists xs, e_items e = first_item (e_bh e) :: xs.
Proof. intros He. pose proof (eo_first _ He) as Hf. destruct (e_items e) as [|x xs]; [done|]. injection Hf as ->. by exists xs. Qed.

(** Entries that start below [k] leave the entries before them below [k]. *)
Lemma before_first_below pre' e rest k y :
  concat gs = pre' ++ e :: rest -> below k (first_item (e_bh e)) = true -> In y (entries_items pre') -> below k y = true.
Proof.
  intros Hsp Hb Hy. pose proof (all_ok _ _ Hin) as Hp. pose proof (po_sorted _ _ Hp) as Hs. rewrite Hsp, entries_items_app in Hs.
  assert (He : entry_ok e) by (apply (entry_ok_in gs); [apply Hp|rewrite Hsp; apply in_or_app; right; by left]).
  apply StronglySorted_app in Hs as (Hrel & _ & _). apply (below_trans k y (first_item (e_bh e))); [|done].
  apply Hrel; [by apply list_elem_of_In|]. destruct (entry_first e He) as [xs Hxs]. unfold entries_items. cbn. rewrite Hxs. by left.
Qed.

(** From entries that do not start below [k] on, nothing is below [k]. *)
Lemma after_first_ge pre' e rest k :
  concat gs = pre' ++ e :: rest -> below k (first_item (e_bh e)) = false ->
  Forall (fun x => Is_true (lex_leb k x)) (entries_items (e :: rest)).
Proof.
  intros Hsp Hb. pose proof (all_ok _ _ Hin) as Hp. pose proof (po_sorted _ _ Hp) as Hs. rewrite Hsp, entries_items_app in Hs.
  assert (He : entry_ok e) by (apply (entry_ok_in gs); [apply Hp|rewrite Hsp; apply in_or_app; right; by left]).
  apply StronglySorted_app in Hs as (_ & _ & Hs). destruct (entry_first e He) as [xs Hxs].
  unfold entries_items in *. cbn in *. rewrite Hxs in *. cbn in *. apply StronglySorted_inv in Hs as [_ Hs].
  apply below_false in Hb. constructor; [done|]. revert Hs. apply Forall_weaken. intros y Hy. by apply (lex_leb_trans k (first_item (e_bh e)) y).
Qed.

(** The cursor at the start of the entry [e]. *)
Lemma next_block_sought self w pre es e rest k :
  cursor p gs self pre es -> caches_ok w -> ahead gs self es = e :: rest -> ps_err self = None ->
  Forall (fun x => below k x = true) (entries_items pre) -> below k (first_item (e_bh e)) = false ->
  exists self' w' pre' es', next_block_or_err (E := E) self w = Ok (self', w') /\ cursor p gs self' pre' es' /\ caches_ok w' /\
    ps_err self' = None /\ sought k (entries_items (concat gs)) (remaining self' es').
Proof.
  intros Hc Hw Ha He Hpre Hb. unfold next_block_or_err.
  destruct (next_block_more self w pre es e rest Hc Hw Ha) as (s1 & w1 & es1 & -> & Hc1 & Hw1 & Ha1 & Hib1 & Hv1 & Hi1 & He1).
  rewrite bind_Ok. exists s1, w1, (pre ++ [e]), es1. split_and!; [done|done|done|by rewrite He1|].
  unfold remaining, cur_rest. rewrite Hv1, Hib1, Hi1, pack_items, Ha1. cbn [drop].
  pose proof (cu_split _ _ _ _ _ Hc) as Hsp. fold (ahead gs self es) in Hsp. rewrite Ha in Hsp. exists (entries_items pre).
  change (e_items e ++ entries_items rest) with (entries_items (e :: rest)). split_and!.
  - by rewrite Hsp, entries_items_app.
  - by eapply after_first_ge.
  - revert Hpre. apply Forall_weaken. intros y. by left.
Qed.

(** The group and the block that [seek] scans: the last ones that start below
    the key. *)
Lemma locate_block k n n2 g :
  lex_leb k (ph_first_item (p_ph p)) = false ->
  n = prefix_len (fun mr => lex_ltb (mr_first_item mr) k) (p_mrs p) -> gs !! (n - 1)%nat = Some g ->
  n2 = prefix_len (fun bh => lex_ltb (first_item bh) k) (map e_bh g) ->
  exists e, g !! (n2 - 1)%nat = Some e /\ below k (first_item (e_bh e)) = true /\
    (forall e' rest, drop (S (n2 - 1)) g ++ concat (drop (S (n - 1)) gs) = e' :: rest -> below k (first_item (e_bh e')) = false).
Proof.
  intros Hk Hn Hg Hn2. pose proof (all_ok _ _ Hin) as Hp. destruct (po_rows _ _ Hp) as (lvl & Hrows & _).
  assert (Hrow : forall i h, gs !! i = Some h -> exists e0 h' mr, h = e0 :: h' /\ p_mrs p !! i = Some mr /\ mr_first_item mr = first_item (e_bh e0)).
  { intros i h Hi. destruct (Forall2_lookup_l _ _ _ _ _ Hrows Hi) as (mr & Hmr & Hr). pose proof (rf_first _ _ _ Hr) as Hf.
    destruct h as [|e0 h']; [done|]. cbn in Hf. injection Hf as Hf. by exists e0, h', mr. }
  assert (Hn0 : (0 < n)%nat).
  { destruct gs as [|g0 gs0] eqn:Hgs; [done|]. destruct (Hrow 0%nat g0 eq_refl) as (e0 & h' & mr & -> & Hmr & Hf).
    pose proof (po_first _ _ Hp) as Hfi. rewrite <-Hgs in *.
    assert (He0 : entry_ok e0) by (apply (entry_ok_in gs); [apply Hp|rewrite Hgs; by left]). destruct (entry_first e0 He0) as [xs Hxs].
    rewrite Hgs in Hfi. unfold entries_items in Hfi. cbn in Hfi. rewrite Hxs in Hfi. cbn in Hfi. injection Hfi as Hfi.
    subst n. destruct (p_mrs p) as [|mr0 mrs]; [done|]. injection Hmr as ->. cbn [prefix_len]. rewrite Hf, Hfi, lex_ltb_leb, Hk. cbn. lia. }
  destruct (Hrow _ _ Hg) as (e0 & h' & mr & -> & Hmr & Hf).
  assert (Hfirst : below k (first_item (e_bh e0)) = true).
  { unfold below. rewrite <-Hf. apply (prefix_len_in (fun mr => lex_ltb (mr_first_item mr) k) _ _ _ Hmr). lia. }
  assert (Hn20 : (0 < n2)%nat) by (subst n2; cbn [map prefix_len]; fold (below k (first_item (e_bh e0))); rewrite Hfirst; lia).
  pose proof (prefix_len_le (fun bh => lex_ltb (first_item bh) k) (map e_bh (e0 :: h'))) as Hn2l. rewrite <-Hn2, length_map in Hn2l.
  destruct (lookup_lt_is_Some_2 (e0 :: h') (n2 - 1) ltac:(lia)) as [e He]. exists e. split; [done|]. split.
  - apply (prefix_len_in (fun bh => lex_ltb (first_item bh) k) (map e_bh (e0 :: h')) (n2 - 1)); [|lia]. rewrite list_lookup_fmap, He. done.
  - intros e' rest Hr. replace (S (n2 - 1)) with n2 in Hr by lia. replace (S (n - 1)) with n in Hr by lia.
    destruct (drop n2 (e0 :: h')) as [|x l] eqn:Hd; cbn in Hr.
    + destruct (drop n gs) as [|h hs] eqn:Hdg; [done|]. assert (Hh : gs !! n = Some h) by (rewrite <-(Nat.add_0_r n), <-lookup_drop, Hdg; done).
      destruct (Hrow _ _ Hh) as (e1 & h1 & mr1 & -> & Hmr1 & Hf1). cbn in Hr. injection Hr as <- _. unfold below. rewrite <-Hf1.
      rewrite Hn in Hmr1. exact (prefix_len_head (fun mr => lex_ltb (mr_first_item mr) k) _ _ Hmr1).
    + injection Hr as <- _. assert (Hx : (e0 :: h') !! n2 = Some x) by (rewrite <-(Nat.add_0_r n2), <-lookup_drop, Hd; done).
      apply (prefix_len_head (fun bh => lex_ltb (first_item bh) k) (map e_bh (e0 :: h'))). rewrite <-Hn2, list_lookup_fmap, Hx. done.
Qed.

Lemma slow_seek_ok self w pre es k :
  cursor p gs self pre es -> caches_ok w -> ps_err self = None -> lex_ltb (ph_last_item (p_ph p)) k = false ->
  exists self' w' pre' es', slow_seek (E := E) self k w = Ok (self', w') /\ cursor p gs self' pre' es' /\ caches_ok w' /\
    ps_err self' = None /\ sought k (entries_items (concat gs)) (remaining self' es').
Proof.
  intros Hc Hw He Hlast. unfold slow_seek. set (s0 := set_ib_pos _ false 0). pose proof (all_ok _ _ Hin) as Hp.
  assert (Hp0 : ps_p s0 = p) by apply Hc. rewrite Hp0.
  assert (Hcm : forall m b, drop b (ps_idxb s0) = [] -> cursor p gs (set_mr_next (set_bh_next s0 b) m) (concat (take m gs)) []).
  { intros m b Hb. split; cbn [ps_p ps_bh_next ps_idxb ps_mr_next ps_ib_valid set_mr_next set_bh_next]; try done; try apply Hc.
    cbn [app]. by rewrite <-concat_app, take_drop. }
  assert (Hdrop : drop (ps_bh_next s0) (ps_idxb s0) = []) by (cbn; by apply drop_ge).
  destruct (lex_leb k (ph_first_item (p_ph p))) eqn:Hk.
  { pose proof (po_first _ _ Hp) as Hf. destruct (concat gs) as [|e rest] eqn:Hgs; [done|]. rewrite <-Hgs.
    assert (He0 : entry_ok e) by (apply (entry_ok_in gs); [apply Hp|rewrite Hgs; by left]). destruct (entry_first e He0) as [xs Hxs].
    unfold entries_items in Hf. cbn in Hf. rewrite Hxs in Hf. cbn in Hf. injection Hf as Hf.
    apply (next_block_sought s0 w [] [] e rest k); [exact (Hcm 0%nat (ps_bh_next s0) Hdrop)|done|exact Hgs|exact He|constructor|].
    rewrite Hf. apply below_false. by rewrite Hk. }
  destruct (po_rows _ _ Hp) as (lvl & Hrows & _). pose proof (Forall2_length _ _ _ Hrows) as Hrl.
  rewrite assert_true, bind_Ok.
  2:{ apply negb_true_iff, Nat.eqb_neq. intros H0. pose proof (po_first _ _ Hp) as Hf. rewrite H0 in Hrl. apply length_zero_iff_nil in Hrl. by rewrite Hrl in Hf. }
  rewrite (partition_point_ok (fun mr => lex_ltb (mr_first_item mr) k)), bind_Ok by (by apply Forall_true).
  set (n := prefix_len _ (p_mrs p)).
  assert (Hlt : (n - 1 < length gs)%nat).
  { pose proof (prefix_len_le (fun mr => lex_ltb (mr_first_item mr) k) (p_mrs p)) as Hle. fold n in Hle. destruct gs as [|g0 gs0] eqn:Hgs; [|cbn in *; lia].
    pose proof (po_first _ _ Hp). done. }
  destruct (lookup_lt_is_Some_2 gs (n - 1) Hlt) as [g Hg].
  destruct (next_bhs_more (set_mr_next s0 (n - 1)) w (concat (take (n - 1) gs)) g (drop (S (n - 1)) gs)) as (s1 & w1 & -> & Hc1 & Hw1 & Hidx1 & Hd1 & _ & Hv1 & He1 & _);
    [exact (Hcm (n - 1)%nat (ps_bh_next s0) Hdrop)|done|by apply drop_S|].
  rewrite bind_Ok, Hidx1. rewrite (partition_point_ok (fun bh => lex_ltb (first_item bh) k)), bind_Ok by (by apply Forall_true).
  set (n2 := prefix_len _ (map e_bh g)).
  destruct (locate_block k n n2 g Hk eq_refl Hg eq_refl) as (e & Hge & Hbe & Hnext).
  set (s2 := set_bh_next s1 (n2 - 1)). set (pre1 := concat (take (n - 1) gs) ++ take (n2 - 1) g).
  assert (Hc2 : cursor p gs s2 pre1 (drop (n2 - 1) g)).
  { destruct Hc1 as [H1 H2 H3 H4 H5]. split; try done.
    - cbn [s2 ps_bh_next ps_idxb set_bh_next]. by rewrite Hidx1, <-skipn_map.
    - cbn [s2 ps_mr_next set_bh_next]. rewrite H4. unfold pre1. rewrite <-app_assoc. f_equal. rewrite app_assoc. by rewrite take_drop.
    - cbn [s2 ps_ib_valid set_bh_next]. rewrite Hv1. done. }
  assert (Ha2 : ahead gs s2 (drop (n2 - 1) g) = e :: drop (S (n2 - 1)) g ++ concat (drop (S (n - 1)) gs)).
  { unfold ahead. cbn [s2 ps_mr_next set_bh_next]. rewrite Hd1, (drop_S _ _ _ Hge). done. }
  destruct (next_block_more s2 w1 pre1 _ e _ Hc2 Hw1 Ha2) as (s3 & w3 & es3 & -> & Hc3 & Hw3 & Ha3 & Hib3 & Hv3 & Hi3 & He3).
  rewrite bind_Ok, Hib3. destruct (cursor_entry _ _ _ Hc3) as [Hpre3 _]. apply Forall_app in Hpre3 as [_ Hpe]. apply Forall_cons in Hpe as [Heo _].
  rewrite search_window, bind_Ok; [|by apply entry_small|apply eo_prefix, Heo|by apply Forall_In]. rewrite pack_item_of.
  set (i := prefix_len (below k) (e_items e)). cbn [ps_ib set_ib_pos]. rewrite Hib3, length_pack_items.
  assert (Herr : ps_err s3 = None) by (rewrite He3; exact (eq_trans He1 He)).
  pose proof (cu_split _ _ _ _ _ Hc2) as Hsp. fold (ahead gs s2 (drop (n2 - 1) g)) in Hsp. rewrite Ha2 in Hsp.
  assert (Hc4 : cursor p gs (set_ib_pos s3 (ps_ib_valid s3) i) (pre1 ++ [e]) es3) by (destruct Hc3; split; done).
  destruct (Nat.ltb_spec i (length (e_items e))) as [Hil|Hil].
  - eexists _, w3, _, _. split; [done|]. split; [exact Hc4|]. split_and!; [done|exact Herr|].
    unfold remaining, cur_rest. cbn [ps_ib_valid ps_ib_item_idx ps_ib set_ib_pos]. rewrite Hv3, Hib3, pack_items.
    apply (block_split s3 pre1); [done| |].
    + apply Forall_app. split; [apply Forall_In; intros y Hy; left; by eapply before_first_below|].
      pose proof (prefix_len_take (below k) (e_items e)) as Hf. revert Hf. apply Forall_weaken. intros y. by left.
    + destruct (lookup_lt_is_Some_2 _ _ Hil) as [x Hx]. exists x. split; [done|]. exact (prefix_len_head (below k) _ _ Hx).
  - assert (Hall : Forall (fun x => below k x = true) (entries_items (pre1 ++ [e]))).
    { rewrite entries_items_app. apply Forall_app. split; [apply Forall_In; intros y Hy; by eapply before_first_below|].
      change (entries_items [e]) with (e_items e ++ []). rewrite app_nil_r. pose proof (prefix_len_take (below k) (e_items e)) as Hf.
      fold i in Hf. by rewrite take_ge in Hf. }
    destruct (drop (S (n2 - 1)) g ++ concat (drop (S (n - 1)) gs)) as [|e' rest'] eqn:Hrest.
    { exfalso. pose proof (po_last _ _ Hp) as Hl. rewrite Hsp in Hl.
      apply last_Some in Hl as [l' Hl']. assert (Hin' : In (ph_last_item (p_ph p)) (entries_items (pre1 ++ [e]))) by (rewrite Hl'; apply in_or_app; right; by left).
      pose proof (proj1 (Forall_In _ _) Hall _ Hin') as Hb. unfold below in Hb. congruence. }
    apply (next_block_sought _ w3 (pre1 ++ [e]) es3 e' rest'); [exact Hc4|done|exact Ha3|exact Herr|done|by eapply Hnext].
Qed.

(** ** The operations of the cursor *)

(** The cursor is about to yield [rest]; at the end it may have noticed that. *)
Definition positioned (self : PartSearch) (rest : list (list Z)) : Prop :=
  exists pre es, cursor p gs self pre es /\
    ((ps_err self = None /\ remaining self es = rest) \/ (ps_err self = Some PsEof /\ rest = [])).

Lemma new_positioned sparse : positioned (ps_new p sparse) (entries_items (concat gs)).
Proof. exists [], []. split; [by split|]. by left. Qed.

Lemma positioned_err self rest : positioned self rest -> ps_error_msg self = None.
Proof. intros (pre & es & Hc & _). apply Hc. Qed.

Lemma seek_positioned self w rest k :
  positioned self rest -> caches_ok w ->
  exists self' w' rest', ps_seek (E := E) self k w = Ok (self', w') /\ positioned self' rest' /\ caches_ok w' /\
    sought k (entries_items (concat gs)) rest'.
Proof.
  intros (pre & es & Hc & _) Hw. unfold ps_seek. rewrite (cu_err _ _ _ _ _ Hc). set (s0 := set_err self None).
  assert (Hc0 : cursor p gs s0 pre es) by (destruct Hc; split; done). rewrite (cu_p _ _ _ _ _ Hc0).
  destruct (lex_ltb (ph_last_item (p_ph p)) k) eqn:Hlast.
  - eexists _, w, []. split; [done|]. split; [|split; [done|]].
    + exists pre, es. split; [destruct Hc; split; done|]. by right.
    + exists (entries_items (concat gs)). rewrite app_nil_r. split_and!; [done|constructor|].
      pose proof (all_ok _ _ Hin) as Hp. pose proof (po_last _ _ Hp) as Hl. pose proof (po_sorted _ _ Hp) as Hs. apply last_Some in Hl as [l' Hl'].
      rewrite Hl' in Hs |- *. apply Forall_app. split; [|constructor; [by left|constructor]].
      apply StronglySorted_app in Hs as (Hrel & _ & _). apply Forall_In. intros y Hy. left.
      apply (below_trans k y (ph_last_item (p_ph p))); [|done]. apply Hrel; [by apply list_elem_of_In|by left].
  - destruct (try_fast_seek_ok s0 pre es k Hc0) as (s1 & found & -> & Hno & Hyes). rewrite bind_Ok. destruct found.
    + destruct (Hyes eq_refl) as (Hc1 & He1 & Hs1). exists s1, w, (remaining s1 es). split_and!; [done| |done|done]. exists pre, es. split; [done|]. by left.
    + rewrite (Hno eq_refl). destruct (slow_seek_ok s0 w pre es k Hc0 Hw eq_refl Hlast) as (s2 & w2 & pre2 & es2 & -> & Hc2 & Hw2 & He2 & Hs2).
      exists s2, w2, (remaining s2 es2). split_and!; [done| |done|done]. exists pre2, es2. split; [done|]. by left.
Qed.

Lemma next_positioned self w rest :
  positioned self rest -> caches_ok w ->
  exists self' w', ps_next_item (E := E) self w = Ok (self', w', match rest with [] => false | _ => true end) /\
    positioned self' (tail rest) /\ caches_ok w' /\ (forall x, head rest = Some x -> forall E', ps_item (E := E') self' = Ok x).
Proof.
  intros (pre & es & Hc & [[He Hr]|[He ->]]) Hw.
  - destruct rest as [|x rest].
    + destruct (next_item_end self w pre es Hc Hw He Hr) as (s1 & -> & Hc1 & He1). exists s1, w. split_and!; [done| |done|done].
      exists pre, es. split; [done|]. by right.
    + destruct (next_item_more self w pre es x rest Hc Hw He Hr) as (s1 & w1 & pre1 & es1 & -> & Hc1 & Hw1 & He1 & Hx & Hr1).
      exists s1, w1. split_and!; [done| |done|by intros y [= <-]]. exists pre1, es1. split; [done|]. by left.
  - unfold ps_next_item. rewrite He. exists self, w. split_and!; [done| |done|done]. exists pre, es. split; [done|]. by right.
Qed.
End Steps.
End Cursor.
