(* ===== verification/ItemPartSearch.v ===== *)
(** * Searching parts over the block caches

    The cache of [BlockCache] meets the laws the search of [ItemSearch] relies
    on; a part that was written is one the search is correct on; together: the
    search in a written part, for any sequence of seeks and steps, and the
    case the keys of the cache do not cover. *)
From Stdlib Require Import ZArith Lia Bool Sorted Permutation.
From S2P Require Import Prelude IntCodec Compress ItemBlock ItemBlockSpec ItemHeader ItemStream BlockCache BlockCacheSpec SearchBase ItemSearch ItemSearchSpec.
Local Open Scope Z_scope.

(** ** Written parts *)

(** Two different items, or a single one. *)
Definition varied (xs : list (list Z)) : Prop :=
  length xs = 1%nat \/ exists x y, In x xs /\ In y xs /\ x <> y.

Definition small_bufs (bufs : list Z * list Z * list Z * list Z) : Prop :=
  let '(m, i, it, l) := bufs in
  Z.of_nat (length i) < 2 ^ 64 /\ Z.of_nat (length it) < 2 ^ 64 /\ Z.of_nat (length l) < 2 ^ 64.

Section WrittenPart.
  Context `{Zs : Zstd} {Zl : ZstdLaws Zs}.

Lemma varied_data e : entry_ok e -> varied (e_items e) -> length (e_items e) <> 1%nat -> sb_items_data (e_sb e) <> [].
Proof.
  intros He [H1|(x & y & Hx & Hy & Hxy)] Hm; [done|]. intros Hnil. pose proof (eo_no_data _ He Hnil) as Hall. rewrite Forall_In in Hall.
  destruct Hxy. by rewrite (Hall x Hx), (Hall y Hy).
Qed.

(** Closing a writer gives the buffers of a part the search is correct on. *)
Lemma written_part_ok {E} w gs cur xss id :
  written w gs cur -> map e_items (concat gs ++ cur) = xss -> xss <> [] -> sorted_items (concat xss) -> Forall varied xss ->
  exists bufs, writer_must_close (E := E) w = Ok bufs /\
    (small_bufs bufs -> exists p gs', new_part (E := E) id (from_buffers (part_header xss) bufs) = Ok (p, as_u64 (id + 1)) /\
      p_id p = id /\ part_ok p gs' /\ entries_items (concat gs') = concat xss).
Proof.
  intros H Hitems Hne Hs Hv. destruct (close_written (E := E) w gs cur H) as (gs' & rows & Hc & Hne' & Hg & Hrows & [Hrp Hpl] & ->).
  { intros H0. rewrite H0 in Hitems. by subst xss. }
  eexists. split; [done|]. cbn [small_bufs from_buffers]. intros (Hli & Hlit & Hll). rewrite <-Hc in Hitems.
  assert (Hall : entries_items (concat gs') = concat xss) by (unfold entries_items; by rewrite Hitems).
  unfold new_part, part_new. cbn [mp_metaindex_data mp_ph mp_index_data mp_items_data mp_lens_data].
  assert (Hfs : sorted_items (map (fun e => first_item (e_bh e)) (concat gs'))) by (apply first_items_sorted; [done|by rewrite Hall]).
  rewrite unmarshal_rows_ok; [|by intros ->; inversion Hrows; subst| |by eapply group_rows_sorted].
  2:{ clear -Hrows. induction Hrows as [|???? Hr]; constructor; [apply Hr|done]. }
  rewrite bind_Ok. eexists _, gs'. split; [done|]. split; [done|]. split; [|done].
  assert (Hcat : exists x xs, concat xss = x :: xs).
  { rewrite <-Hall. destruct gs' as [|g gs0]; [done|]. apply Forall_cons in Hg as [Hgo _]. destruct g as [|e g]; [by destruct (go_nonempty _ Hgo)|].
    pose proof (go_entries _ Hgo) as Hes. apply Forall_cons in Hes as [He _]. destruct (entry_first e He) as [xs Hxs].
    unfold entries_items. cbn. rewrite Hxs. by eexists _, _. }
  destruct Hcat as (x & xs & Hcat).
  split; cbn [p_mrs p_index_file p_items_file p_lens_file p_ph ph_first_item ph_last_item ph_copy_from part_header]; try done; rewrite ?Hall.
  - done.
  - exists (w_compress_level w). split_and!; [done|done|by right|done].
  - split; [by right|done].
  - split; [by right|done].
  - by rewrite Hcat.
  - rewrite Hcat. destruct (last (x :: xs)) eqn:Hl; [done|]. by apply last_None in Hl.
  - intros e He. apply varied_data; [by eapply entry_ok_in|]. apply (proj1 (Forall_In _ _) Hv). rewrite <-Hitems. by apply in_map.
Qed.
End WrittenPart.

(** ** Runs of the search *)

Inductive search_op : Type :=
| OpSeek (k : list Z)
| OpNext.

Section Runs.
  Context {Zs : Zstd} {CI CB : Type} {Ci : BlockCacheOps CI (list BlockHeader)} {Cb : BlockCacheOps CB InmemoryBlock}.

(** [next_item] with [item] when there is one. *)
Definition exec_search (o : search_op) (self : PartSearch) (w : Caches CI CB)
    : res Empty_set (option (list Z) * PartSearch * Caches CI CB) :=
  match o with
  | OpSeek k => '(self, w) ← ps_seek self k w; Ok (None, self, w)
  | OpNext =>
      '(self, w, more) ← ps_next_item self w;
      if more : bool then x ← ps_item self; Ok (Some x, self, w) else Ok (None, self, w)
  end.

Fixpoint exec_searches (os : list search_op) (self : PartSearch) (w : Caches CI CB)
    : res Empty_set (list (option (list Z)) * PartSearch * Caches CI CB) :=
  match os with
  | [] => Ok ([], self, w)
  | o :: os =>
      '(r, self, w) ← exec_search o self w;
      '(rs, self, w) ← exec_searches os self w;
      Ok (r :: rs, self, w)
  end.
End Runs.

(** The reference: a cursor in the sorted list [xs], about to yield [rest]. *)
Inductive search_trace (xs : list (list Z)) : list (list Z) -> list search_op -> list (option (list Z)) -> Prop :=
| st_nil rest : search_trace xs rest [] []
| st_seek k rest rest' os rs : sought k xs rest' -> search_trace xs rest' os rs -> search_trace xs rest (OpSeek k :: os) (None :: rs)
| st_next rest os rs : search_trace xs (tail rest) os rs -> search_trace xs rest (OpNext :: os) (head rest :: rs).

Section RunsProof.
  Context `{Zs : Zstd} {Zl : ZstdLaws Zs}.
  Context {CI CB : Type} `{!BlockCacheOps CI (list BlockHeader)} `{!BlockCacheOps CB InmemoryBlock}.
  Context {Li : BlockCacheLaws CI (list BlockHeader)} {Lb : BlockCacheLaws CB InmemoryBlock}.

Lemma exec_searches_ok all (Hall : forall p gs, In (p, gs) all -> part_ok p gs)
    (Hids : forall p gs p' gs', In (p, gs) all -> In (p', gs') all -> p_id p = p_id p' -> p = p' /\ gs = gs')
    p gs (Hin : In (p, gs) all) os : forall self (w : Caches CI CB) rest,
  positioned p gs self rest -> caches_ok all w ->
  exists rs self' w', exec_searches os self w = Ok (rs, self', w') /\ search_trace (entries_items (concat gs)) rest os rs /\
    ps_error_msg self' = None /\ caches_ok all w'.
Proof.
  induction os as [|o os IH]; intros self w rest Hp Hw; cbn [exec_searches].
  { exists [], self, w. split_and!; [done|constructor|by eapply positioned_err|done]. }
  destruct o as [k|]; cbn [exec_search].
  - destruct (seek_positioned (E := Empty_set) all Hall Hids p gs Hin self w rest k Hp Hw) as (s1 & w1 & rest1 & -> & Hp1 & Hw1 & Hs1). rewrite !bind_Ok.
    destruct (IH s1 w1 rest1 Hp1 Hw1) as (rs & s2 & w2 & -> & Ht & He). rewrite bind_Ok. exists (None :: rs), s2, w2. split; [done|]. split; [|done].
    by eapply st_seek.
  - destruct (next_positioned (E := Empty_set) all Hall Hids p gs Hin self w rest Hp Hw) as (s1 & w1 & -> & Hp1 & Hw1 & Hx). rewrite bind_Ok.
    destruct (IH s1 w1 (tail rest) Hp1 Hw1) as (rs & s2 & w2 & Hr & Ht & He).
    exists (head rest :: rs), s2, w2. destruct rest as [|x rest]; cbn [head].
    + rewrite bind_Ok, Hr, bind_Ok. split; [done|]. split; [|done]. by apply (st_next _ []).
    + rewrite (Hx x eq_refl), !bind_Ok, Hr, bind_Ok. split; [done|]. split; [|done]. by apply (st_next _ (x :: rest)).
Qed.
End RunsProof.

Section Claims.
  Context `{Zs : Zstd} {Zl : ZstdLaws Zs} {Vi : CachedBlock (list BlockHeader)} {Vb : CachedBlock InmemoryBlock}.

(** The three caches when the process starts. *)
Definition fresh_caches (cpus : Z) (now max : nat -> Z) : Caches (TimedCache (list BlockHeader)) (TimedCache InmemoryBlock) :=
  mkCaches (fresh_cache cpus now max) (fresh_cache cpus now max) (fresh_cache cpus now max).

Lemma fresh_caches_ok all cpus now max : 0 <= cpus <= 2 ^ 63 -> caches_ok all (fresh_caches cpus now max).
Proof. intros Hc. split; by apply fresh_good. Qed.

(** The search in a part refines the search in a sorted list.  Sorted blocks
    that are written as a part, each with a single item or two different ones,
    are searched through a cursor by any sequence of seeks and steps, over
    caches as the process creates them and whatever the clock and the size
    limits are: nothing panics or fails, a seek moves to the first item that
    is not below the key (of several equal items some may be skipped), and
    the steps yield the items from there in order, to the end. *)
Theorem part_search_refines (lvl id : Z) (bs : list InmemoryBlock) (cpus : Z) (now max : nat -> Z) :
  bs <> [] -> Forall wf_ib bs -> Forall storable (map block_items bs) -> sorted_items (concat (map block_items bs)) ->
  Forall varied (map block_items bs) -> 0 <= cpus <= 2 ^ 63 ->
  exists w bufs,
    write_blocks (E := Empty_set) (new_inmemory_part lvl) bs = Ok w /\ writer_must_close (E := Empty_set) w = Ok bufs /\
    (small_bufs bufs -> exists p id',
      new_part (E := Empty_set) id (from_buffers (part_header (map block_items bs)) bufs) = Ok (p, id') /\
      forall sparse os, exists rs self' w',
        exec_searches os (ps_new p sparse) (fresh_caches cpus now max) =
          Ok (rs, self', w') /\
        search_trace (concat (map block_items bs)) (concat (map block_items bs)) os rs /\ ps_error_msg self' = None).
Proof.
  intros Hne Hw Hst Hs Hv Hc.
  destruct (write_blocks_written (E := Empty_set) bs _ [] [] (new_written lvl) Hw Hst) as (w & gs & cur & Hwr & H & Hitems & _).
  destruct (written_part_ok (E := Empty_set) w gs cur (map block_items bs) id H Hitems) as (bufs & Hclose & Hpart); [by destruct bs|done|done|].
  exists w, bufs. split; [done|]. split; [done|]. intros Hsm. destruct (Hpart Hsm) as (p & gs' & Hnew & Hid & Hok & Hall). exists p, (as_u64 (id + 1)).
  split; [done|]. intros sparse os.
  destruct (exec_searches_ok [(p, gs')]) with (p := p) (gs := gs') (os := os) (self := ps_new p sparse) (rest := entries_items (concat gs'))
    (w := fresh_caches cpus now max)
    as (rs & self' & w' & He & Ht & Herr & _).
  - intros p' gs0 [[= <- <-]|[]]. done.
  - intros p1 g1 p2 g2 [[= <- <-]|[]] [[= <- <-]|[]]. done.
  - by left.
  - apply new_positioned.
  - by apply fresh_caches_ok.
  - exists rs, self', w'. rewrite Hall in Ht. done.
Qed.
End Claims.

(** ** Examples *)

Section Examples.
Local Instance index_block_size : CachedBlock (list BlockHeader) := fun _ => 64.
Local Instance items_block_size_bytes : CachedBlock InmemoryBlock := fun _ => 64.

(** Writes [bs] as a part and runs [os] on it. *)
Definition run_on_part (bs : list InmemoryBlock) (os : list search_op) : option (list (option (list Z))) :=
  match
    w ← write_blocks (Zs := stored_zstd) (E := Empty_set) (new_inmemory_part 1) bs;
    bufs ← writer_must_close (Zs := stored_zstd) w;
    '(p, _) ← new_part (Zs := stored_zstd) 1 (from_buffers (part_header (map block_items bs)) bufs);
    exec_searches (Zs := stored_zstd) os (ps_new p false) (fresh_caches 1 (fun _ => 1000) (fun _ => 1048576))
  with
  | Ok (rs, _, _) => Some rs
  | _ => None
  end.

Definition scan : list search_op := [OpSeek []; OpNext; OpNext; OpNext; OpNext; OpNext].

Example part_search_example :
  run_on_part [pack [] [[1; 2]; [1; 3]]; pack [] [[4]; [5]]] ([OpSeek [1; 3]; OpNext; OpNext] ++ scan ++ [OpSeek [6]; OpNext]) =
  Some ([None; Some [1; 3]; Some [4]] ++ [None; Some [1; 2]; Some [1; 3]; Some [4]; Some [5]; None] ++ [None; None]).
Proof. by vm_compute. Qed.

(** The key of a cached data block is the offset of its item data, and a
    block of two or more equal items has none, so it shares its key with the
    block after it.  On a part of such a block followed by another one the
    first scan is right, and the second one, served by the cache, yields the
    first block twice in place of the second block. *)
Theorem equal_items_block_shadows_next :
  run_on_part [pack [] [[1]; [1]]; pack [] [[2]; [3]]] (scan ++ scan) =
  Some ([None; Some [1]; Some [1]; Some [2]; Some [3]; None] ++ [None; Some [1]; Some [1]; Some [1]; Some [1]; None]).
Proof. by vm_compute. Qed.

Lemma part_search_refines_witness :
  exists w bufs,
    write_blocks (Zs := stored_zstd) (E := Empty_set) (new_inmemory_part 1) [pack [] [[1; 2]; [1; 3]]; pack [] [[4]; [5]]] = Ok w /\
    writer_must_close (Zs := stored_zstd) (E := Empty_set) w = Ok bufs /\
    (small_bufs bufs -> exists p id',
      new_part (Zs := stored_zstd) (E := Empty_set) 7 (from_buffers (part_header [[[1; 2]; [1; 3]]; [[4]; [5]]]) bufs) = Ok (p, id') /\
      forall sparse os, exists rs self' w',
        exec_searches (Zs := stored_zstd) os (ps_new p sparse) (fresh_caches 4 (fun _ => 1000) (fun _ => 1048576)) = Ok (rs, self', w') /\
        search_trace [[1; 2]; [1; 3]; [4]; [5]] [[1; 2]; [1; 3]; [4]; [5]] os rs /\ ps_error_msg self' = None).
Proof.
  apply (part_search_refines (Zl := stored_zstd_laws) 1 7 [pack [] [[1; 2]; [1; 3]]; pack [] [[4]; [5]]] 4 (fun _ => 1000) (fun _ => 1048576)).
  - done.
  - repeat constructor; by apply (bool_decide_unpack _); vm_compute.
  - repeat constructor; try done; try (by apply (bool_decide_unpack _); vm_compute).
  - repeat constructor.
  - constructor; [right; exists [1; 2], [1; 3]; split_and!; [by left|by right; left|done]|]. constructor; [right; exists [4], [5]; split_and!; [by left|by right; left|done]|constructor].
  - lia.
Defined.
End Examples.
