(* ===== verification/ItemTableSearch.v ===== *)
(** * Search in a table of the merge set

    Model of [esm-mergeset/src/table_search.rs]: the cursor over all parts of a
    table, a heap of part cursors ordered by their current items, and the proof
    that it yields the items of all parts from the key on in sorted order. *)
From Stdlib Require Import ZArith Lia Bool Sorted Permutation.
From S2P Require Import Prelude Heap IntCodec Compress ItemBlock ItemBlockSpec ItemHeader ItemStream BlockCache BlockCacheSpec SearchBase ItemSearch ItemSearchSpec ItemPartSearch.
Local Open Scope Z_scope.

(** ** The cursor over the parts *)

Inductive ts_other : Type :=
| TsCannotSeek (k : list Z) (e : ps_other)
| TsCannotNext (e : ps_other).

Inductive ts_error : Type :=
| TsEof
| TsOther (e : ts_other).

(** [pws] only keeps the parts alive. *)
Record TableSearch : Type := mkTS {
  ts_pool : list PartSearch;
  ts_heap : list nat;
  ts_err : option ts_error;
  ts_next_item_noop : bool;
}.

Definition ts_new (parts : list Part) (sparse : bool) : TableSearch :=
  mkTS (map (fun p => ps_new p sparse) parts) [] None false.

(** The current item of a part cursor, as the comparisons of the heap read it. *)
Definition cur_of (pool : list PartSearch) (i : nat) : list Z :=
  match pool !! i with
  | Some ps => item_of (ib_data (ps_ib ps)) (ps_cur_item ps)
  | None => []
  end.

Definition pool_less (pool : list PartSearch) (a b : nat) : bool := lex_ltb (cur_of pool a) (cur_of pool b).

Definition ts_error_msg (self : TableSearch) : option ts_other :=
  match ts_err self with
  | Some (TsOther e) => Some e
  | _ => None
  end.

Section TableOps.
  Context {Zs : Zstd} {CI CB : Type} {Ci : BlockCacheOps CI (list BlockHeader)} {Cb : BlockCacheOps CB InmemoryBlock}.
  Context {E : Type}.
  Local Abbreviation run := (res E).
  Local Abbreviation W := (Caches CI CB).

Definition ts_item (self : TableSearch) : run (list Z) :=
  top ← idx (ts_heap self) 0;
  ps ← idx (ts_pool self) top;
  ps_item ps.

(** [ps.seek(k)] and [ps.next_item()] on the cursors from index [i] on: the
    cursors after the calls, the indices of those with an item, and the first
    error, which ends the loop. *)
Fixpoint seek_loop (k : list Z) (i : nat) (pool : list PartSearch) (w : W)
    : run (list PartSearch * list nat * option ps_other * W) :=
  match pool with
  | [] => Ok ([], [], None, w)
  | ps :: pool =>
      '(ps, w) ← ps_seek ps k w;
      '(ps, w, more) ← ps_next_item ps w;
      if more : bool then
        '(pool, heap, err, w) ← seek_loop k (S i) pool w;
        Ok (ps :: pool, i :: heap, err, w)
      else
        match ps_error_msg ps with
        | Some e => Ok (ps :: pool, [], Some e, w)
        | None =>
            '(pool, heap, err, w) ← seek_loop k (S i) pool w;
            Ok (ps :: pool, heap, err, w)
        end
  end.

Definition ts_seek (self : TableSearch) (k : list Z) (w : W) : run (TableSearch * W) :=
  match ts_error_msg self with
  | Some _ => Ok (self, w)
  | None =>
      '(pool, heap, err, w) ← seek_loop k 0 (ts_pool self) w;
      match err with
      | Some e => Ok (mkTS pool heap (Some (TsOther (TsCannotSeek k e))) (ts_next_item_noop self), w)
      | None =>
          match heap with
          | [] => Ok (mkTS pool heap (Some TsEof) (ts_next_item_noop self), w)
          | _ => Ok (mkTS pool (heap_init (pool_less pool) heap) None true, w)
          end
      end
  end.

Definition ts_next_block (self : TableSearch) (w : W) : run (TableSearch * W * option ts_error) :=
  top ← idx (ts_heap self) 0;
  ps ← idx (ts_pool self) top;
  '(ps, w, more) ← ps_next_item ps w;
  let pool := <[top := ps]> (ts_pool self) in
  if more : bool then
    let heap := sift_down (pool_less pool) (length (ts_heap self)) (ts_heap self) 0 in
    Ok (mkTS pool heap (ts_err self) (ts_next_item_noop self), w, None)
  else
    match ps_error_msg ps with
    | Some e => Ok (mkTS pool (ts_heap self) (ts_err self) (ts_next_item_noop self), w, Some (TsOther (TsCannotNext e)))
    | None =>
        let n := length (ts_heap self) in
        let heap := take (n - 1) (swap (ts_heap self) 0 (n - 1)) in
        let heap := sift_down (pool_less pool) (length heap) heap 0 in
        let self := mkTS pool heap (ts_err self) (ts_next_item_noop self) in
        match heap with
        | [] => Ok (self, w, Some TsEof)
        | _ => Ok (self, w, None)
        end
    end.

Definition ts_next_item (self : TableSearch) (w : W) : run (TableSearch * W * bool) :=
  match ts_err self with
  | Some _ => Ok (self, w, false)
  | None =>
      if ts_next_item_noop self then Ok (mkTS (ts_pool self) (ts_heap self) (ts_err self) false, w, true)
      else
        '(self, w, err) ← ts_next_block self w;
        match err with
        | Some e => Ok (mkTS (ts_pool self) (ts_heap self) (Some e) (ts_next_item_noop self), w, false)
        | None => Ok (self, w, true)
        end
  end.

(** [first_item_with_prefix]: [None] when there is such an item. *)
Definition first_item_with_prefix (self : TableSearch) (prefix : list Z) (w : W) : run (TableSearch * W * option ts_error) :=
  '(self, w) ← ts_seek self prefix w;
  '(self, w, more) ← ts_next_item self w;
  if negb more then
    match ts_error_msg self with
    | Some e => Ok (self, w, Some (TsOther e))
    | None => Ok (self, w, Some TsEof)
    end
  else
    match ts_error_msg self with
    | Some e => Ok (self, w, Some (TsOther e))
    | None =>
        item ← ts_item self;
        if starts_with item prefix then Ok (self, w, None) else Ok (self, w, Some TsEof)
    end.
End TableOps.

(** ** The invariant *)

Section TableProof.
  Context `{Zs : Zstd} {Zl : ZstdLaws Zs}.
  Context {CI CB : Type} `{!BlockCacheOps CI (list BlockHeader)} `{!BlockCacheOps CB InmemoryBlock}.
  Context {Li : BlockCacheLaws CI (list BlockHeader)} {Lb : BlockCacheLaws CB InmemoryBlock}.
  (** The parts of the table, with the blocks they store. *)
  Context (all : list (Part * list (list entry))).
  Context (all_ok : forall p gs, In (p, gs) all -> part_ok p gs).
  Context (ids : forall p gs p' gs', In (p, gs) all -> In (p', gs') all -> p_id p = p_id p' -> p = p' /\ gs = gs').
  Context {E : Type}.
  Local Abbreviation W := (Caches CI CB).

Definition part_items (pg : Part * list (list entry)) : list (list Z) := entries_items (concat pg.2).

(** The cursor of every part is about to yield [rest i]. *)
Definition pool_at (pool : list PartSearch) (rest : nat -> list (list Z)) : Prop :=
  length pool = length all /\
  forall i pg ps, all !! i = Some pg -> pool !! i = Some ps -> positioned pg.1 pg.2 ps (rest i).

(** The cursor [i] has a current item, and the items after it follow. *)
Definition has_item (pool : list PartSearch) (rest : nat -> list (list Z)) (i : nat) : Prop :=
  exists ps, pool !! i = Some ps /\ (forall E', ps_item (E := E') ps = Ok (cur_of pool i)) /\ sorted_items (cur_of pool i :: rest i).

(** The items the cursors of the heap have to offer. *)
Definition pending (pool : list PartSearch) (rest : nat -> list (list Z)) (heap : list nat) : list (list Z) :=
  concat (map (fun i => cur_of pool i :: rest i) heap).

Record heap_at (pool : list PartSearch) (rest : nat -> list (list Z)) (heap : list nat) : Prop := {
  ha_pool : pool_at pool rest;
  ha_nodup : NoDup heap;
  ha_items : Forall (has_item pool rest) heap;
  ha_order : heap_except (pool_less pool) 0 None heap;
}.

(** The table cursor is about to yield [out]. *)
Inductive table_at (self : TableSearch) (out : list (list Z)) : Prop :=
| at_item rest top :
    ts_err self = None -> head (ts_heap self) = Some top -> heap_at (ts_pool self) rest (ts_heap self) ->
    let full := if ts_next_item_noop self then out else cur_of (ts_pool self) top :: out in
    sorted_items full -> full ≡ₚ pending (ts_pool self) rest (ts_heap self) -> table_at self out
| at_end rest : ts_err self = Some TsEof -> pool_at (ts_pool self) rest -> out = [] -> table_at self out.

Lemma pool_less_total pool a b : pool_less pool a b = true -> pool_less pool b a = false.
Proof. unfold pool_less. intros H%ltb_leb. rewrite lex_ltb_leb. apply negb_false_iff. by apply Is_true_true. Qed.

Lemma pool_less_trans pool a b c : pool_less pool b a = false -> pool_less pool c b = false -> pool_less pool c a = false.
Proof.
  unfold pool_less. rewrite !lex_ltb_leb, !negb_false_iff. intros H1%Is_true_true H2%Is_true_true. apply Is_true_true. by eapply lex_leb_trans.
Qed.

(** The root of the heap offers a least item. *)
Lemma root_item_least pool rest heap top x :
  heap_at pool rest heap -> head heap = Some top -> In x (pending pool rest heap) -> lex_leb (cur_of pool top) x.
Proof.
  intros Hh Htop (l & (i & <- & Hi)%in_map_iff & Hx)%in_concat. assert (H0 : heap !! 0%nat = Some top) by (by destruct heap).
  pose proof (heap_root_min (pool_less pool) (pool_less_total pool) (fun a b c => pool_less_trans pool a b c) heap top (ha_order _ _ _ Hh) H0 i Hi) as Hmin.
  apply not_ltb_leb in Hmin. destruct Hx as [<-|Hx]; [done|]. destruct (proj1 (Forall_In _ _) (ha_items _ _ _ Hh) i Hi) as (ps & _ & _ & Hs).
  apply StronglySorted_inv in Hs as [_ Hs]. eapply lex_leb_trans; [exact Hmin|]. by apply (proj1 (Forall_In _ _) Hs).
Qed.

(** A sorted list of what is pending starts with the item of the root. *)
Lemma root_head pool rest heap top out :
  heap_at pool rest heap -> head heap = Some top -> sorted_items out -> out ≡ₚ pending pool rest heap ->
  out = cur_of pool top :: tail out.
Proof.
  intros Hh Htop Hs Hp. assert (Hin : In (cur_of pool top) (pending pool rest heap)).
  { destruct heap as [|t heap]; [done|]. injection Htop as ->. by left. }
  rewrite <-Hp in Hin. destruct out as [|y out]; [done|]. cbn. f_equal. apply lex_leb_antisym.
  - destruct Hin as [->|Hin]; [by rewrite lex_leb_refl|]. apply StronglySorted_inv in Hs as [_ Hs]. by apply (proj1 (Forall_In _ _) Hs).
  - eapply root_item_least; [done..|]. rewrite <-Hp. by left.
Qed.

Lemma item_bytes_inv {E'} it data x : item_bytes (E := E') it data = Ok x -> x = item_of data it.
Proof. unfold item_bytes, slice, item_of. destruct (_ && _); [|done]. by intros [= <-]. Qed.

(** A cursor after [next_item] found [x]. *)
Lemma item_current pool i ps x rest :
  pool !! i = Some ps -> (forall E', ps_item (E := E') ps = Ok x) -> sorted_items (x :: rest i) ->
  cur_of pool i = x /\ has_item pool rest i.
Proof.
  intros Hi Hx Hs. assert (Hc : cur_of pool i = x) by (unfold cur_of; rewrite Hi; symmetry; exact (item_bytes_inv _ _ _ (Hx Empty_set))).
  split; [done|]. exists ps. rewrite Hc. done.
Qed.

Lemma pending_perm pool rest heap heap' : heap ≡ₚ heap' -> pending pool rest heap ≡ₚ pending pool rest heap'.
Proof. intros H. unfold pending. rewrite <-!flat_map_concat_map. by apply Permutation_flat_map. Qed.

(** The rest of cursor [i] replaced. *)
Definition set_rest (rest : nat -> list (list Z)) (i : nat) (r : list (list Z)) : nat -> list (list Z) :=
  fun j => if decide (j = i) then r else rest j.

Lemma cur_of_insert pool i ps j : j <> i -> cur_of (<[i := ps]> pool) j = cur_of pool j.
Proof. intros Hne. unfold cur_of. by rewrite list_lookup_insert_ne. Qed.

Lemma pending_insert pool rest heap i ps r :
  i ∉ heap -> pending (<[i := ps]> pool) (set_rest rest i r) heap = pending pool rest heap.
Proof.
  intros Hni. unfold pending. f_equal. apply map_ext_in. intros j Hj. assert (j <> i) by (intros ->; by apply Hni, list_elem_of_In).
  rewrite cur_of_insert by done. unfold set_rest. by rewrite decide_False.
Qed.

Lemma has_item_insert pool rest i ps r j : j <> i -> has_item pool rest j -> has_item (<[i := ps]> pool) (set_rest rest i r) j.
Proof.
  intros Hne (ps' & Hps & Hx & Hs). exists ps'. rewrite list_lookup_insert_ne, cur_of_insert by done. unfold set_rest. by rewrite decide_False.
Qed.

Lemma pool_at_insert pool rest i ps r pg :
  pool_at pool rest -> all !! i = Some pg -> positioned pg.1 pg.2 ps r -> pool_at (<[i := ps]> pool) (set_rest rest i r).
Proof.
  intros [Hl Hp] Hi Hps. split; [by rewrite length_insert|]. intros j pg' ps' Hj Hps'. unfold set_rest. destruct (decide (j = i)) as [->|Hne].
  - rewrite list_lookup_insert_eq in Hps' by (rewrite Hl; by eapply lookup_lt_Some). by simplify_eq.
  - rewrite list_lookup_insert_ne in Hps' by done. by eapply Hp.
Qed.

(** The cursor of an element of the heap belongs to a part. *)
Lemma heap_part pool rest heap i :
  heap_at pool rest heap -> In i heap -> exists pg ps, all !! i = Some pg /\ pool !! i = Some ps /\ positioned pg.1 pg.2 ps (rest i) /\ In pg all.
Proof.
  intros Hh Hi. destruct (proj1 (Forall_In _ _) (ha_items _ _ _ Hh) i Hi) as (ps & Hps & _). destruct (ha_pool _ _ _ Hh) as [Hl Hp].
  destruct (lookup_lt_is_Some_2 all i) as [pg Hpg]; [rewrite <-Hl; by eapply lookup_lt_Some|]. exists pg, ps.
  split_and!; [done|done|by eapply Hp|]. by eapply list_elem_of_In, list_elem_of_lookup_2.
Qed.

(** The heap after the cursor of the root moved on to another item. *)
Lemma resift pool rest heap top tl ps y r pg :
  heap_at pool rest heap -> heap = top :: tl -> all !! top = Some pg -> positioned pg.1 pg.2 ps r ->
  (forall E', ps_item (E := E') ps = Ok y) -> sorted_items (y :: r) ->
  let pool' := <[top := ps]> pool in let rest' := set_rest rest top r in
  let heap' := sift_down (pool_less pool') (length heap) heap 0 in
  heap_at pool' rest' heap' /\ heap' ≡ₚ heap /\ pending pool' rest' heap' ≡ₚ y :: r ++ pending pool rest tl.
Proof.
  intros Hh -> Hpg Hps Hy Hs pool' rest' heap'. pose proof (ha_nodup _ _ _ Hh) as Hnd. apply NoDup_cons in Hnd as [Hni Hnd].
  destruct (ha_pool _ _ _ Hh) as [Hl _]. assert (Hlt : (top < length pool)%nat) by (rewrite Hl; by eapply lookup_lt_Some).
  assert (Hlk : pool' !! top = Some ps) by (by apply list_lookup_insert_eq).
  assert (Hr : rest' top = r) by (unfold rest', set_rest; by rewrite decide_True).
  destruct (item_current pool' top ps y rest' Hlk Hy) as [Hcur Hitem]; [by rewrite Hr|].
  assert (Hperm : heap' ≡ₚ top :: tl) by apply sift_down_perm.
  assert (Hpend : pending pool' rest' (top :: tl) = y :: r ++ pending pool rest tl).
  { unfold pending at 1. cbn [map concat]. fold (pending pool' rest' tl). rewrite Hcur, Hr. unfold pool', rest'. by rewrite pending_insert. }
  split; [|split; [done|by rewrite (pending_perm _ _ _ _ Hperm), Hpend]]. split.
  - by eapply pool_at_insert; [apply Hh|..].
  - by rewrite Hperm; constructor.
  - rewrite Hperm. constructor; [done|]. pose proof (ha_items _ _ _ Hh) as Hit. apply Forall_cons in Hit as [_ Hit]. rewrite Forall_forall in Hit |- *.
    intros j Hj. apply has_item_insert; [by intros ->|by apply Hit].
  - apply sift_down_heap; [apply pool_less_total|apply pool_less_trans|lia|lia| |].
    + apply (heap_below_root (pool_less pool)) with (h := top :: tl); [apply Hh|by left|].
      intros p c a b Hp0 Hc0 Ha Hb. unfold pool_less, pool'. rewrite !cur_of_insert; [done| |]; intros ->.
      * destruct p as [|p]; [lia|]. destruct Hni. by eapply list_elem_of_lookup_2.
      * destruct c as [|c]; [lia|]. destruct Hni. by eapply list_elem_of_lookup_2.
    + intros q c a b Hq. unfold child in Hq. lia.
Qed.

(** The heap after the cursor of the root is exhausted. *)
Lemma pop_heap pool rest heap top tl ps pg :
  heap_at pool rest heap -> heap = top :: tl -> all !! top = Some pg -> positioned pg.1 pg.2 ps [] ->
  let pool' := <[top := ps]> pool in let rest' := set_rest rest top [] in
  let n := length heap in let h := take (n - 1) (swap heap 0 (n - 1)) in
  let heap' := sift_down (pool_less pool') (length h) h 0 in
  heap_at pool' rest' heap' /\ heap' ≡ₚ tl /\ pending pool' rest' heap' ≡ₚ pending pool rest tl.
Proof.
  intros Hh -> Hpg Hps pool' rest' n h heap'. pose proof (ha_nodup _ _ _ Hh) as Hnd. apply NoDup_cons in Hnd as [Hni Hnd].
  destruct (pop_root top tl) as [Hph Hlk]. fold n in Hph, Hlk. fold h in Hph, Hlk.
  assert (Hperm : heap' ≡ₚ tl) by (unfold heap'; by rewrite sift_down_perm).
  split; [|split; [done|]].
  2:{ rewrite (pending_perm _ _ _ _ Hperm). unfold pool', rest'. by rewrite pending_insert. }
  split.
  - by eapply pool_at_insert; [apply Hh|..].
  - by rewrite Hperm.
  - rewrite Hperm. pose proof (ha_items _ _ _ Hh) as Hit. apply Forall_cons in Hit as [_ Hit]. rewrite Forall_forall in Hit |- *.
    intros j Hj. apply has_item_insert; [by intros ->|by apply Hit].
  - apply sift_down_heap; [apply pool_less_total|apply pool_less_trans|lia|lia| |].
    + apply (heap_below_root (pool_less pool)) with (h := top :: tl); [apply Hh|done|].
      intros p c a b Hp0 Hc0 Ha Hb. unfold pool_less, pool'. rewrite !cur_of_insert; [done| |]; intros ->.
      * destruct p as [|p]; [lia|]. destruct Hni. by eapply list_elem_of_lookup_2.
      * destruct c as [|c]; [lia|]. destruct Hni. by eapply list_elem_of_lookup_2.
    + intros q c a b Hq. unfold child in Hq. lia.
Qed.

(** The item at the root of the heap is the item of the table cursor. *)
Lemma heap_item s rest t :
  heap_at (ts_pool s) rest (ts_heap s) -> head (ts_heap s) = Some t -> ts_item (E := E) s = Ok (cur_of (ts_pool s) t).
Proof.
  intros Hh Ht. assert (H0 : ts_heap s !! 0%nat = Some t) by (by destruct (ts_heap s)). unfold ts_item. rewrite (idx_Some _ _ _ H0), bind_Ok.
  destruct (proj1 (Forall_lookup _ _) (ha_items _ _ _ Hh) _ _ H0) as (ps & Hps & Hx & _). rewrite (idx_Some _ _ _ Hps), bind_Ok. apply Hx.
Qed.

(** A cursor whose heap offers exactly [out] stands at its first item. *)
Lemma at_root s rest t out :
  ts_err s = None -> ts_next_item_noop s = false -> heap_at (ts_pool s) rest (ts_heap s) -> head (ts_heap s) = Some t ->
  sorted_items out -> out ≡ₚ pending (ts_pool s) rest (ts_heap s) ->
  table_at s (tail out) /\ exists x, head out = Some x /\ ts_item (E := E) s = Ok x.
Proof.
  intros He Hn Hh Ht Hs Hp. pose proof (root_head _ _ _ _ _ Hh Ht Hs Hp) as Hr. split.
  - eapply at_item; [done|done|exact Hh|..]; rewrite Hn, <-Hr; done.
  - exists (cur_of (ts_pool s) t). rewrite Hr. split; [done|]. by eapply heap_item.
Qed.

Lemma ts_next_ok self (w : W) out :
  table_at self out -> caches_ok all w ->
  exists self' w', ts_next_item (E := E) self w = Ok (self', w', match out with [] => false | _ => true end) /\
    table_at self' (tail out) /\ caches_ok all w' /\ (forall x, head out = Some x -> ts_item (E := E) self' = Ok x).
Proof.
  intros Hat Hw. destruct Hat as [rest top He Htop Hh full Hs Hp|rest He Hpool ->]; unfold ts_next_item; rewrite He.
  2:{ exists self, w. split_and!; [done|by eapply at_end|done|done]. }
  unfold full in Hs, Hp. destruct (ts_next_item_noop self) eqn:Hnoop.
  { set (s := mkTS _ _ _ _). destruct (at_root s rest top out eq_refl eq_refl Hh Htop Hs Hp) as (Hat & x & Hx & Hi).
    exists s, w. destruct out as [|y out]; [done|]. injection Hx as ->. split_and!; [done|done|done|by intros ? [= <-]]. }
  destruct (ts_heap self) as [|t tl] eqn:Hheap; [done|]. injection Htop as ->.
  destruct (heap_part _ _ _ top Hh ltac:(by left)) as (pg & ps & Hpg & Hps & Hpos & Hin). destruct pg as [p gs]. cbn in Hpos.
  unfold ts_next_block. rewrite Hheap, (idx_Some (top :: tl) 0 top), bind_Ok by done. rewrite (idx_Some _ _ _ Hps), bind_Ok.
  destruct (next_positioned (E := E) all all_ok ids p gs Hin ps w (rest top) Hpos Hw) as (ps' & w' & -> & Hpos' & Hw' & Hx). rewrite bind_Ok.
  pose proof (ha_items _ _ _ Hh) as Hit. apply Forall_cons in Hit as [(ps0 & _ & _ & Hsr) _]. apply StronglySorted_inv in Hsr as [Hsr _].
  assert (Hout : out ≡ₚ rest top ++ pending (ts_pool self) rest tl) by (apply (Permutation_cons_inv (a := cur_of (ts_pool self) top)); exact Hp).
  apply StronglySorted_inv in Hs as [Hs _]. destruct (rest top) as [|y r] eqn:Hrt; cbn [head tail] in *.
  - rewrite (positioned_err _ _ _ _ Hpos').
    destruct (pop_heap _ _ _ top tl ps' (p, gs) Hh eq_refl Hpg Hpos') as (Hh' & Hperm & Hpend). cbn zeta in Hh', Hperm, Hpend.
    set (heap' := sift_down _ _ _ 0) in *. clearbody heap'. rewrite <-Hpend in Hout. destruct heap' as [|t tl'].
    + apply Permutation_nil_r in Hout as ->. rewrite bind_Ok. eexists _, w'. split; [done|]. split_and!; [|done|done]. eapply at_end; [done|apply Hh'|done].
    + set (s := mkTS _ _ _ _). destruct (at_root s _ t out He Hnoop Hh' eq_refl Hs Hout) as (Hat & x & Hx' & Hi). rewrite bind_Ok.
      exists s, w'. destruct out as [|z out]; [done|]. injection Hx' as ->. split_and!; [done|done|done|by intros ? [= <-]].
  - destruct (resift _ _ _ top tl ps' y r (p, gs) Hh eq_refl Hpg Hpos' (Hx y eq_refl) Hsr) as (Hh' & Hperm & Hpend). cbn zeta in Hh', Hperm, Hpend.
    set (heap' := sift_down _ _ _ 0) in *. clearbody heap'. rewrite app_comm_cons in Hpend. rewrite <-Hpend in Hout. rewrite bind_Ok.
    destruct heap' as [|t tl']; [by apply Permutation_nil_cons in Hperm|]. set (s := mkTS _ _ _ _).
    destruct (at_root s _ t out He Hnoop Hh' eq_refl Hs Hout) as (Hat & x & Hx' & Hi).
    exists s, w'. destruct out as [|z out]; [done|]. injection Hx' as ->. split_and!; [done|done|done|by intros ? [= <-]].
Qed.

(** ** Seeking *)

(** The positions of the lists that are not empty, from [i] on. *)
Fixpoint nonempty_from (i : nat) (rests : list (list (list Z))) : list nat :=
  match rests with
  | [] => []
  | [] :: rests => nonempty_from (S i) rests
  | _ :: rests => i :: nonempty_from (S i) rests
  end.

Lemma nonempty_from_spec i rests j :
  In j (nonempty_from i rests) <-> exists r, (i <= j)%nat /\ rests !! (j - i)%nat = Some r /\ r <> [].
Proof.
  revert i. induction rests as [|r rests IH]; intros i; cbn [nonempty_from].
  { split; [done|]. intros (r & _ & Hr & _). by rewrite lookup_nil in Hr. }
  assert (Hstep : (exists r0, (S i <= j)%nat /\ rests !! (j - S i)%nat = Some r0 /\ r0 <> []) \/ (i = j /\ r <> []) <->
    exists r0, (i <= j)%nat /\ (r :: rests) !! (j - i)%nat = Some r0 /\ r0 <> []).
  { split.
    - intros [(r0 & Hle & Hr & Hne)|[-> Hne]]; [|exists r; by rewrite Nat.sub_diag].
      exists r0. split; [lia|]. replace (j - i)%nat with (S (j - S i)) by lia. done.
    - intros (r0 & Hle & Hr & Hne). destruct (decide (i = j)) as [->|Hij].
      + right. rewrite Nat.sub_diag in Hr. by injection Hr as ->.
      + left. exists r0. split; [lia|]. replace (j - i)%nat with (S (j - S i)) in Hr by lia. done. }
  destruct r as [|x r]; cbn [In]; rewrite <-Hstep, IH; intuition congruence.
Qed.

Lemma nonempty_from_nodup i rests : NoDup (nonempty_from i rests).
Proof.
  revert i. induction rests as [|r rests IH]; intros i; cbn [nonempty_from]; [constructor|]. destruct r as [|x r]; [apply IH|].
  constructor; [|apply IH]. intros Hi%list_elem_of_In. apply nonempty_from_spec in Hi as (? & ? & _). lia.
Qed.

(** What the heap of these positions offers is what all the lists hold. *)
Lemma pending_nonempty pool rest i rests :
  (forall j r, rests !! j = Some r -> r <> [] -> cur_of pool (i + j) :: rest (i + j)%nat = r) ->
  pending pool rest (nonempty_from i rests) = concat rests.
Proof.
  revert i. induction rests as [|r rests IH]; intros i H; [done|]. cbn [nonempty_from concat].
  assert (Hrec : pending pool rest (nonempty_from (S i) rests) = concat rests).
  { apply IH. intros j r' Hj Hne. replace (S i + j)%nat with (i + S j)%nat by lia. by apply H. }
  destruct r as [|x r]; [done|]. unfold pending. cbn [map concat]. fold (pending pool rest (nonempty_from (S i) rests)). rewrite Hrec.
  f_equal. specialize (H 0%nat (x :: r) eq_refl ltac:(done)). by rewrite Nat.add_0_r in H.
Qed.

Lemma seek_loop_ok k l : forall i pool (w : W),
  (forall pg, In pg l -> In pg all) -> Forall2 (fun pg ps => exists r, positioned pg.1 pg.2 ps r) l pool -> caches_ok all w ->
  exists pool' w' rests, seek_loop (E := E) k i pool w = Ok (pool', nonempty_from i rests, None, w') /\ caches_ok all w' /\
    Forall2 (fun pg r => sought k (part_items pg) r) l rests /\ length pool' = length l /\
    (forall j pg ps r, l !! j = Some pg -> pool' !! j = Some ps -> rests !! j = Some r ->
      positioned pg.1 pg.2 ps (tail r) /\ (forall x, head r = Some x -> forall E', ps_item (E := E') ps = Ok x)).
Proof.
  induction l as [|[p gs] l IH]; intros i pool w Hl Hpool Hw; inversion Hpool as [|? ps ? pool0 [r0 Hr0] Hpool0]; subst; cbn [seek_loop].
  { exists [], w, []. split_and!; [done|done|constructor|done|]. intros j pg ps r Hj. by rewrite lookup_nil in Hj. }
  assert (Hin : In (p, gs) all) by (apply Hl; by left).
  destruct (seek_positioned (E := E) all all_ok ids p gs Hin ps w r0 k Hr0 Hw) as (s1 & w1 & r & -> & Hp1 & Hw1 & Hs1). rewrite bind_Ok.
  destruct (next_positioned (E := E) all all_ok ids p gs Hin s1 w1 r Hp1 Hw1) as (s2 & w2 & -> & Hp2 & Hw2 & Hx). rewrite bind_Ok.
  destruct (IH (S i) pool0 w2 ltac:(intros pg Hpg; apply Hl; by right) Hpool0 Hw2) as (pool' & w' & rests & Hrec & Hw' & Hso & Hlen & Hall).
  exists (s2 :: pool'), w', (r :: rests).
  assert (Hres : forall j pg ps' r', ((p, gs) :: l) !! j = Some pg -> (s2 :: pool') !! j = Some ps' -> (r :: rests) !! j = Some r' ->
    positioned pg.1 pg.2 ps' (tail r') /\ (forall x, head r' = Some x -> forall E', ps_item (E := E') ps' = Ok x)).
  { intros [|j] pg ps' r'; [|by apply Hall]. intros [= <-] [= <-] [= <-]. done. }
  cbn [length]. destruct r as [|x r]; cbn [nonempty_from].
  - rewrite (positioned_err _ _ _ _ Hp2), Hrec, bind_Ok. split_and!; [done|done|by constructor|lia|done].
  - rewrite Hrec, bind_Ok. split_and!; [done|done|by constructor|lia|done].
Qed.

Lemma sought_sorted k xs rest : sorted_items xs -> sought k xs rest -> sorted_items rest.
Proof. intros Hs (d & -> & _). by apply StronglySorted_app in Hs as (_ & _ & Hs). Qed.

(** What a seek to [k] in the lists [xss] may yield: the items of suitable
    suffixes of the lists, sorted. *)
Definition table_sought (k : list Z) (xss : list (list (list Z))) (out : list (list Z)) : Prop :=
  exists rests, Forall2 (sought k) xss rests /\ sorted_items out /\ out ≡ₚ concat rests.

Definition table_pool (self : TableSearch) : Prop := ts_error_msg self = None /\ exists rest, pool_at (ts_pool self) rest.

Lemma table_at_pool self out : table_at self out -> table_pool self.
Proof. unfold table_pool, ts_error_msg. intros [rest top He Htop Hh full Hs Hp|rest He Hp Ho]; rewrite He; (split; [done|]); exists rest; [apply Hh|done]. Qed.

Lemma ts_seek_ok self (w : W) k :
  table_pool self -> caches_ok all w ->
  exists self' w' out, ts_seek (E := E) self k w = Ok (self', w') /\ table_at self' out /\ caches_ok all w' /\
    table_sought k (map part_items all) out.
Proof.
  intros (He & rest0 & Hl0 & Hp0) Hw. unfold ts_seek. rewrite He.
  destruct (seek_loop_ok k all 0 (ts_pool self) w) as (pool & w' & rests & -> & Hw' & Hso & Hlen & Hall); [done| |done|].
  { apply Forall2_same_length_lookup_2; [done|]. intros i pg ps Hi Hps. eauto. }
  rewrite bind_Ok. pose proof (Forall2_length _ _ _ Hso) as Hrl. set (rest := fun i => tail (default [] (rests !! i))).
  assert (Hpool : pool_at pool rest).
  { split; [done|]. intros i pg ps Hi Hps. destruct (lookup_lt_is_Some_2 rests i) as [r Hr]; [rewrite <-Hrl; by eapply lookup_lt_Some|].
    unfold rest. rewrite Hr. exact (proj1 (Hall _ _ _ _ Hi Hps Hr)). }
  assert (Hcur : forall i r, rests !! i = Some r -> r <> [] -> cur_of pool i :: rest i = r /\ has_item pool rest i).
  { intros i r Hr Hne. destruct (lookup_lt_is_Some_2 all i) as [pg Hpg]; [rewrite Hrl; by eapply lookup_lt_Some|].
    destruct (lookup_lt_is_Some_2 pool i) as [ps Hps]; [rewrite Hlen, Hrl; by eapply lookup_lt_Some|].
    destruct (Hall _ _ _ _ Hpg Hps Hr) as [_ Hx]. destruct r as [|x r]; [done|].
    assert (Hrest : rest i = r) by (unfold rest; by rewrite Hr).
    assert (Hsr : sorted_items (x :: r)).
    { pose proof (Forall2_lookup_lr _ _ _ _ _ _ Hso Hpg Hr) as Hsk. eapply sought_sorted; [|exact Hsk]. destruct pg as [p gs].
      apply (po_sorted _ _ (all_ok p gs ltac:(by eapply list_elem_of_In, list_elem_of_lookup_2))). }
    destruct (item_current pool i ps x rest Hps (Hx x eq_refl)) as [Hc Hi]; [by rewrite Hrest|]. by rewrite Hc, Hrest. }
  assert (Hpend : pending pool rest (nonempty_from 0 rests) = concat rests) by (apply pending_nonempty; intros j r Hj Hne; by apply (Hcur j r)).
  assert (Hso' : Forall2 (sought k) (map part_items all) rests) by (by apply Forall2_fmap_l).
  destruct (nonempty_from 0 rests) as [|t0 tl0] eqn:Hne.
  - eexists _, w', []. split; [done|]. split_and!; [by eapply at_end|done|]. exists rests. split_and!; [done|constructor|]. by rewrite <-Hpend.
  - rewrite <-Hne in *. set (h := heap_init (pool_less pool) (nonempty_from 0 rests)).
    destruct (heap_init_heap (pool_less pool) (pool_less_total pool) (fun a b c => pool_less_trans pool a b c) (nonempty_from 0 rests)) as [Hord Hperm]. fold h in Hord, Hperm.
    eexists _, w', (sort_by lex_leb (concat rests)). split; [done|].
    assert (Hsort : sorted_items (sort_by lex_leb (concat rests))).
    { apply sort_by_sorted; [apply lex_leb_total|apply lex_leb_trans]. }
    split_and!; [|done|exists rests; split_and!; [done|done|apply sort_by_perm]].
    destruct h as [|t tl] eqn:Hh; [rewrite Hne in Hperm; by apply Permutation_nil_cons in Hperm|].
    eapply (at_item _ _ rest t); [done|done| |exact Hsort|].
    + cbn [ts_pool ts_heap]. split; [exact Hpool|rewrite Hperm; apply nonempty_from_nodup| |exact Hord]. rewrite Hperm. apply Forall_In. intros i Hi.
      apply nonempty_from_spec in Hi as (r & _ & Hr & Hne'). rewrite Nat.sub_0_r in Hr. by apply (Hcur i r).
    + cbn [ts_pool ts_heap ts_next_item_noop]. rewrite sort_by_perm, <-Hpend. symmetry. by apply pending_perm.
Qed.
End TableProof.

(** ** Runs of the table cursor *)

Section TableRuns.
  Context {Zs : Zstd} {CI CB : Type} {Ci : BlockCacheOps CI (list BlockHeader)} {Cb : BlockCacheOps CB InmemoryBlock}.

Definition exec_table (o : search_op) (self : TableSearch) (w : Caches CI CB)
    : res Empty_set (option (list Z) * TableSearch * Caches CI CB) :=
  match o with
  | OpSeek k => '(self, w) ← ts_seek self k w; Ok (None, self, w)
  | OpNext =>
      '(self, w, more) ← ts_next_item self w;
      if more : bool then x ← ts_item self; Ok (Some x, self, w) else Ok (None, self, w)
  end.

Fixpoint exec_tables (os : list search_op) (self : TableSearch) (w : Caches CI CB)
    : res Empty_set (list (option (list Z)) * TableSearch * Caches CI CB) :=
  match os with
  | [] => Ok ([], self, w)
  | o :: os =>
      '(r, self, w) ← exec_table o self w;
      '(rs, self, w) ← exec_tables os self w;
      Ok (r :: rs, self, w)
  end.
End TableRuns.

(** The reference: a cursor in the lists [xss], about to yield [out]. *)
Inductive table_trace (xss : list (list (list Z))) : list (list Z) -> list search_op -> list (option (list Z)) -> Prop :=
| tt_nil out : table_trace xss out [] []
| tt_seek k out out' os rs : table_sought k xss out' -> table_trace xss out' os rs -> table_trace xss out (OpSeek k :: os) (None :: rs)
| tt_next out os rs : table_trace xss (tail out) os rs -> table_trace xss out (OpNext :: os) (head out :: rs).

(** A sorted list that a seek to [k] may have produced: what it holds. *)
Lemma table_sought_head k xss out :
  table_sought k xss out ->
  match head out with
  | None => forall xs x, In xs xss -> In x xs -> below k x = true
  | Some y => (exists xs, In xs xss /\ In y xs) /\ lex_leb k y /\
      forall xs x, In xs xss -> In x xs -> lex_leb k x -> lex_leb y x
  end.
Proof.
  intros (rests & Hso & Hsort & Hperm).
  assert (Hcase : forall xs x, In xs xss -> In x xs -> In x out \/ below k x = true \/ (x = k /\ In k out)).
  { intros xs x Hxs Hx. apply list_elem_of_In, list_elem_of_lookup in Hxs as [i Hi]. destruct (Forall2_lookup_l _ _ _ _ _ Hso Hi) as (r & Hr & d & -> & Hge & Hd).
    assert (Hr' : forall z, In z r -> In z out).
    { intros z Hz. rewrite Hperm. apply in_concat. exists r. split; [by eapply list_elem_of_In, list_elem_of_lookup_2|done]. }
    apply in_app_or in Hx as [Hx|Hx]; [|left; by apply Hr'].
    apply (proj1 (Forall_In _ _) Hd) in Hx as [Hx|[-> Hh]]; [by right; left|]. right. right. split; [done|]. apply Hr'. destruct r; [done|]. injection Hh as ->. by left. }
  destruct out as [|y out]; cbn [head].
  - intros xs x Hxs Hx. destruct (Hcase xs x Hxs Hx) as [[]|[H|[_ []]]]. done.
  - assert (Hy : In y (concat rests)) by (rewrite <-Hperm; by left). apply in_concat in Hy as (r & Hr & Hy).
    apply list_elem_of_In, list_elem_of_lookup in Hr as [i Hi]. destruct (Forall2_lookup_r _ _ _ _ _ Hso Hi) as (xs0 & Hxs0 & d & -> & Hge & Hd).
    split_and!.
    + exists (d ++ r). split; [by eapply list_elem_of_In, list_elem_of_lookup_2|]. apply in_or_app. by right.
    + by apply (proj1 (Forall_In _ _) Hge).
    + assert (Hmin : forall z, In z (y :: out) -> lex_leb y z).
      { intros z [<-|Hz]; [by rewrite lex_leb_refl|]. apply StronglySorted_inv in Hsort as [_ Hsort]. by apply (proj1 (Forall_In _ _) Hsort). }
      intros xs x Hxs Hx Hkx. destruct (Hcase xs x Hxs Hx) as [H|[H|[-> H]]]; [by apply Hmin| |by apply Hmin].
      unfold below in H. rewrite lex_ltb_leb in H. apply negb_true_iff in H. by rewrite H in Hkx.
Qed.

Section TableRunsProof.
  Context `{Zs : Zstd} {Zl : ZstdLaws Zs}.
  Context {CI CB : Type} `{!BlockCacheOps CI (list BlockHeader)} `{!BlockCacheOps CB InmemoryBlock}.
  Context {Li : BlockCacheLaws CI (list BlockHeader)} {Lb : BlockCacheLaws CB InmemoryBlock}.
  Context (all : list (Part * list (list entry))).
  Context (all_ok : forall p gs, In (p, gs) all -> part_ok p gs).
  Context (ids : forall p gs p' gs', In (p, gs) all -> In (p', gs') all -> p_id p = p_id p' -> p = p' /\ gs = gs').

(** A cursor over the parts as it is created. *)
Lemma new_table_pool sparse : table_pool all (ts_new (map fst all) sparse).
Proof.
  split; [done|]. exists (fun i => match all !! i with Some pg => part_items pg | None => [] end). cbn [ts_new ts_pool].
  split; [by rewrite !length_map|]. intros i pg ps Hi Hps. change (map fst all) with (fst <$> all) in Hps.
  rewrite Hi. apply list_lookup_fmap_Some in Hps as (q & -> & Hq). apply list_lookup_fmap_Some in Hq as (pg' & -> & Hq). simplify_eq.
  apply new_positioned.
Qed.

Lemma exec_tables_ok os : forall self (w : Caches CI CB) out,
  table_at all self out -> caches_ok all w ->
  exists rs self' w', exec_tables os self w = Ok (rs, self', w') /\ table_trace (map part_items all) out os rs /\
    ts_error_msg self' = None /\ caches_ok all w'.
Proof.
  induction os as [|o os IH]; intros self w out Hp Hw; cbn [exec_tables].
  { exists [], self, w. split_and!; [done|constructor|exact (proj1 (table_at_pool _ _ _ Hp))|done]. }
  destruct o as [k|]; cbn [exec_table].
  - destruct (ts_seek_ok (E := Empty_set) all all_ok ids self w k (table_at_pool _ _ _ Hp) Hw) as (s1 & w1 & out1 & -> & Hp1 & Hw1 & Hs1). rewrite !bind_Ok.
    destruct (IH s1 w1 out1 Hp1 Hw1) as (rs & s2 & w2 & -> & Ht & He). rewrite bind_Ok. exists (None :: rs), s2, w2. split; [done|]. split; [|done].
    by eapply tt_seek.
  - destruct (ts_next_ok (E := Empty_set) all all_ok ids self w out Hp Hw) as (s1 & w1 & -> & Hp1 & Hw1 & Hx). rewrite bind_Ok.
    destruct (IH s1 w1 (tail out) Hp1 Hw1) as (rs & s2 & w2 & Hr & Ht & He).
    exists (head out :: rs), s2, w2. destruct out as [|x out]; cbn [head].
    + rewrite bind_Ok, Hr, bind_Ok. split; [done|]. split; [|done]. by apply (tt_next _ []).
    + rewrite (Hx x eq_refl), !bind_Ok, Hr, bind_Ok. split; [done|]. split; [|done]. by apply (tt_next _ (x :: out)).
Qed.

(** Between a prefix and an item that has it all items have it. *)
Lemma prefix_between p x y : lex_leb p x -> lex_leb x y -> p `prefix_of` y -> p `prefix_of` x.
Proof.
  revert x y. induction p as [|a p IH]; intros x y Hpx Hxy [l ->]; [apply prefix_nil|].
  destruct x as [|b x]; [done|]. unfold lex_leb in *. cbn [lex_compare app] in *.
  destruct (Z.compare_spec a b), (Z.compare_spec b a); try lia; try done. subst b. apply prefix_cons. eapply IH; [exact Hpx|exact Hxy|]. by exists l.
Qed.

Lemma prefix_leb p x : p `prefix_of` x -> lex_leb p x.
Proof. intros [l ->]. induction p as [|a p IH]; [by destruct l|]. unfold lex_leb in *. cbn. by rewrite Z.compare_refl. Qed.

(** The result of [first_item_with_prefix]: the least item of the lists with
    the prefix, and [Eof] when there is none. *)
Definition first_with_prefix (xss : list (list (list Z))) (prefix : list Z) (r : option (list Z)) : Prop :=
  match r with
  | Some y => prefix `prefix_of` y /\ (exists xs, In xs xss /\ In y xs) /\
      forall xs x, In xs xss -> In x xs -> prefix `prefix_of` x -> lex_leb y x
  | None => forall xs x, In xs xss -> In x xs -> ~ prefix `prefix_of` x
  end.

Lemma first_item_ok {E} self (w : Caches CI CB) prefix :
  table_pool all self -> caches_ok all w ->
  exists self' w' r out, first_item_with_prefix (E := E) self prefix w = Ok (self', w', match r with Some _ => None | None => Some TsEof end) /\
    (forall y, r = Some y -> ts_item (E := E) self' = Ok y) /\ first_with_prefix (map part_items all) prefix r /\
    table_at all self' out /\ caches_ok all w'.
Proof.
  intros Hp Hw. unfold first_item_with_prefix.
  destruct (ts_seek_ok (E := E) all all_ok ids self w prefix Hp Hw) as (s1 & w1 & out & -> & Hp1 & Hw1 & Hs1). rewrite bind_Ok.
  destruct (ts_next_ok (E := E) all all_ok ids s1 w1 out Hp1 Hw1) as (s2 & w2 & -> & Hp2 & Hw2 & Hx). rewrite bind_Ok.
  pose proof (proj1 (table_at_pool _ _ _ Hp2)) as He. apply table_sought_head in Hs1. destruct out as [|y out]; cbn [head] in Hs1; cbn [negb].
  - rewrite He. exists s2, w2, None, []. split_and!; [done|done| |done|done]. intros xs x Hxs Hin Hpre%prefix_leb. specialize (Hs1 xs x Hxs Hin).
    rewrite below_spec in Hs1. apply negb_true_iff in Hs1. by rewrite Hs1 in Hpre.
  - rewrite He, (Hx y eq_refl), bind_Ok. destruct Hs1 as (Hiny & Hky & Hmin). destruct (starts_with y prefix) eqn:Hst.
    + exists s2, w2, (Some y), out. split_and!; [done|by intros ? [= <-]; apply Hx| |done|done]. split_and!; [|done|].
      * apply starts_with_spec. by rewrite Hst.
      * intros xs x Hxs Hin Hpre. eapply Hmin; [done|done|by apply prefix_leb].
    + exists s2, w2, None, out. split_and!; [done|done| |done|done]. intros xs x Hxs Hin Hpre.
      assert (Hyp : prefix `prefix_of` y) by (eapply prefix_between; [exact Hky|eapply Hmin; [exact Hxs|exact Hin|by apply prefix_leb]|exact Hpre]).
      apply starts_with_spec in Hyp. by rewrite Hst in Hyp.
Qed.
End TableRunsProof.

(** ** Tables of written parts *)

(** Blocks that can be written as a part the search is correct on. *)
Record good_blocks (bs : list InmemoryBlock) : Prop := {
  gb_nonempty : bs <> [];
  gb_wf : Forall wf_ib bs;
  gb_storable : Forall storable (map block_items bs);
  gb_sorted : sorted_items (concat (map block_items bs));
  gb_varied : Forall varied (map block_items bs);
}.

Section WrittenTable.
  Context `{Zs : Zstd} {Zl : ZstdLaws Zs}.

(** [p] is the part that [bs] give when they are written and opened. *)
Definition opened (bs : list InmemoryBlock) (p : Part) : Prop :=
  exists lvl id id' w bufs,
    write_blocks (E := Empty_set) (new_inmemory_part lvl) bs = Ok w /\ writer_must_close (E := Empty_set) w = Ok bufs /\ small_bufs bufs /\
    new_part (E := Empty_set) id (from_buffers (part_header (map block_items bs)) bufs) = Ok (p, id').

Lemma opened_ok bs p :
  good_blocks bs -> opened bs p -> exists gs, part_ok p gs /\ entries_items (concat gs) = concat (map block_items bs).
Proof.
  intros [Hne Hw Hst Hs Hv] (lvl & id & id' & w & bufs & Hwr & Hcl & Hsm & Hnew).
  destruct (write_blocks_written (E := Empty_set) bs _ [] [] (new_written lvl) Hw Hst) as (w0 & gs & cur & Hwr' & H & Hitems & _). rewrite Hwr in Hwr'. injection Hwr' as <-.
  destruct (written_part_ok (E := Empty_set) w gs cur (map block_items bs) id H Hitems) as (bufs' & Hclose & Hpart); [by destruct bs|done|done|].
  rewrite Hcl in Hclose. injection Hclose as <-. destruct (Hpart Hsm) as (p' & gs' & Hnew' & _ & Hok & Hall).
  rewrite Hnew in Hnew'. injection Hnew' as <- _. by exists gs'.
Qed.

(** The parts of a table, with their blocks. *)
Lemma opened_table bss ps :
  Forall good_blocks bss -> Forall2 opened bss ps -> NoDup (map p_id ps) ->
  exists all, map fst all = ps /\ map part_items all = map (fun bs => concat (map block_items bs)) bss /\
    (forall p gs, In (p, gs) all -> part_ok p gs) /\
    (forall p gs p' gs', In (p, gs) all -> In (p', gs') all -> p_id p = p_id p' -> p = p' /\ gs = gs').
Proof.
  intros Hg Ho. induction Ho as [|bs p bss ps Hop Ho IH]; intros Hnd.
  { exists []. by split_and!. }
  apply Forall_cons in Hg as [Hbs Hg]. apply NoDup_cons in Hnd as [Hni Hnd]. destruct (IH Hg Hnd) as (all & <- & Hit & Hok & Hids).
  destruct (opened_ok bs p Hbs Hop) as (gs & Hpo & Hgi). exists ((p, gs) :: all). cbn [map fst]. split_and!.
  - done.
  - rewrite Hit. f_equal. exact Hgi.
  - intros p' gs' [[= <- <-]|Hin]; [done|by apply Hok].
  - assert (Hnew : forall p' gs', In (p', gs') all -> p_id p' <> p_id p).
    { intros p' gs' Hin He. destruct Hni. rewrite <-He. apply list_elem_of_In. apply in_map, (in_map fst _ _ Hin). }
    intros p1 g1 p2 g2 [[= <- <-]|H1] [[= <- <-]|H2] He; [done|by destruct (Hnew _ _ H2)|by destruct (Hnew _ _ H1)|by eapply Hids].
Qed.
End WrittenTable.

Section TableClaims.
  Context `{Zs : Zstd} {Zl : ZstdLaws Zs} {Vi : CachedBlock (list BlockHeader)} {Vb : CachedBlock InmemoryBlock}.

(** C21: the search in a table refines the search in the sorted union of its
    parts.  Over any number of parts with different ids, each written from sorted
    blocks none of which is full of one item repeated ([good_blocks]; the cache
    confuses such a block with the next one, see [equal_items_block_shadows_next]),
    with caches that start fresh and keep what the search puts in, after a seek
    and for any further seeks and steps, nothing panics or fails: a seek moves to
    the first item of all parts that is not below the key, and the steps yield the
    items of all parts from there in sorted order, an item as often as the parts
    store it, to the end. *)
Theorem table_search_refines (bss : list (list InmemoryBlock)) (ps : list Part) (cpus : Z) (now max : nat -> Z) (sparse : bool) (k : list Z) (os : list search_op) :
  Forall good_blocks bss -> Forall2 opened bss ps -> NoDup (map p_id ps) -> 0 <= cpus <= 2 ^ 63 ->
  exists rs self' w',
    exec_tables (OpSeek k :: os) (ts_new ps sparse) (fresh_caches cpus now max) = Ok (rs, self', w') /\
    table_trace (map (fun bs => concat (map block_items bs)) bss) [] (OpSeek k :: os) rs /\ ts_error_msg self' = None.
Proof.
  intros Hg Ho Hnd Hc. destruct (opened_table bss ps Hg Ho Hnd) as (all & <- & Hit & Hok & Hids).
  destruct (ts_seek_ok (E := Empty_set) all Hok Hids _ (fresh_caches cpus now max) k (new_table_pool all sparse)) as (s1 & w1 & out & Hseek & Hat & Hw1 & Hs);
    [by apply fresh_caches_ok|].
  destruct (exec_tables_ok all Hok Hids os s1 w1 out Hat Hw1) as (rs & s2 & w2 & Hex & Ht & He & _).
  exists (None :: rs), s2, w2. cbn [exec_tables exec_table]. rewrite Hseek, !bind_Ok, Hex, bind_Ok. rewrite <-Hit. split; [done|]. split; [|done].
  by eapply tt_seek.
Qed.

(** C40: the lookup by prefix.  Over any number of parts with different ids, each
    written from sorted blocks none of which is full of one item repeated
    ([good_blocks]), and fresh caches, [first_item_with_prefix] does not panic or
    fail: it stops at the least item of all parts that has the prefix, and reports
    the end of the table exactly when no part has one. *)
Theorem first_item_with_prefix_finds (bss : list (list InmemoryBlock)) (ps : list Part) (cpus : Z) (now max : nat -> Z) (sparse : bool) (prefix : list Z) :
  Forall good_blocks bss -> Forall2 opened bss ps -> NoDup (map p_id ps) -> 0 <= cpus <= 2 ^ 63 ->
  exists self' w' r,
    first_item_with_prefix (E := Empty_set) (ts_new ps sparse) prefix (fresh_caches cpus now max) =
      Ok (self', w', match r with Some _ => None | None => Some TsEof end) /\
    (forall y, r = Some y -> ts_item (E := Empty_set) self' = Ok y) /\
    first_with_prefix (map (fun bs => concat (map block_items bs)) bss) prefix r.
Proof.
  intros Hg Ho Hnd Hc. destruct (opened_table bss ps Hg Ho Hnd) as (all & <- & Hit & Hok & Hids).
  destruct (first_item_ok (E := Empty_set) all Hok Hids _ (fresh_caches cpus now max) prefix (new_table_pool all sparse)) as (s & w & r & out & H1 & H2 & H3 & _);
    [by apply fresh_caches_ok|].
  exists s, w, r. rewrite <-Hit. done.
Qed.
End TableClaims.

Section TableExamples.
Local Instance index_size : CachedBlock (list BlockHeader) := fun _ => 64.
Local Instance items_size : CachedBlock InmemoryBlock := fun _ => 64.

(** The part of [bs] with the buffers it is opened from. *)
Definition open_blocks (id : Z) (bs : list InmemoryBlock) : res Empty_set (Part * (list Z * list Z * list Z * list Z)) :=
  w ← write_blocks (Zs := stored_zstd) (new_inmemory_part 1) bs;
  bufs ← writer_must_close (Zs := stored_zstd) w;
  '(p, _) ← new_part (Zs := stored_zstd) id (from_buffers (part_header (map block_items bs)) bufs);
  Ok (p, bufs).

Lemma open_blocks_opened id bs p bufs : open_blocks id bs = Ok (p, bufs) -> small_bufs bufs -> opened (Zs := stored_zstd) bs p.
Proof.
  unfold open_blocks. intros H Hsm. destruct (write_blocks _ _) as [w| |] eqn:Hw; [|done..]. rewrite bind_Ok in H.
  destruct (writer_must_close _) as [bufs'| |] eqn:Hb; [|done..]. rewrite bind_Ok in H.
  destruct (new_part _ _) as [[p' id']| |] eqn:Hn; [|done..]. rewrite bind_Ok in H. injection H as -> ->. by exists 1, id, id', w, bufs.
Qed.

Definition blocks_a : list InmemoryBlock := [pack [] [[1; 2]; [1; 3]]; pack [] [[4]; [5]]].
Definition blocks_b : list InmemoryBlock := [pack [] [[1; 3]; [2; 9]]].

Lemma blocks_good : Forall good_blocks [blocks_a; blocks_b].
Proof.
  assert (Hv : forall x y xs, x <> y -> varied (x :: y :: xs)) by (intros x y xs Hne; right; exists x, y; split_and!; [by left|by right; left|done]).
  constructor; [|constructor; [|constructor]]; split; try done.
  all: repeat first [apply Hv; done|constructor]; try (by apply (bool_decide_unpack _); vm_compute).
Qed.

Lemma blocks_open :
  exists pa pb ba bb, open_blocks 1 blocks_a = Ok (pa, ba) /\ open_blocks 2 blocks_b = Ok (pb, bb) /\
    Forall2 (opened (Zs := stored_zstd)) [blocks_a; blocks_b] [pa; pb] /\ NoDup (map p_id [pa; pb]).
Proof.
  assert (Ha : exists p bufs, open_blocks 1 blocks_a = Ok (p, bufs) /\ small_bufs bufs /\ p_id p = 1) by (eexists _, _; split; [by vm_compute|by vm_compute]).
  assert (Hb : exists p bufs, open_blocks 2 blocks_b = Ok (p, bufs) /\ small_bufs bufs /\ p_id p = 2) by (eexists _, _; split; [by vm_compute|by vm_compute]).
  destruct Ha as (pa & ba & Ha & Hsa & Hia), Hb as (pb & bb & Hb & Hsb & Hib). exists pa, pb, ba, bb. split_and!; [done|done| |].
  - repeat constructor; by eapply open_blocks_opened.
  - cbn. rewrite Hia, Hib. by apply (bool_decide_unpack _); vm_compute.
Qed.

Definition scan_from (k : list Z) : list search_op := [OpSeek k; OpNext; OpNext; OpNext; OpNext; OpNext; OpNext].

Lemma table_search_refines_witness :
  exists pa pb ba bb rs self' w',
    open_blocks 1 blocks_a = Ok (pa, ba) /\ open_blocks 2 blocks_b = Ok (pb, bb) /\
    exec_tables (Zs := stored_zstd) (scan_from [1; 3]) (ts_new [pa; pb] false) (fresh_caches 4 (fun _ => 1000) (fun _ => 1048576)) = Ok (rs, self', w') /\
    table_trace [[[1; 2]; [1; 3]; [4]; [5]]; [[1; 3]; [2; 9]]] [] (scan_from [1; 3]) rs.
Proof.
  destruct blocks_open as (pa & pb & ba & bb & Ha & Hb & Ho & Hnd).
  destruct (table_search_refines (Zl := stored_zstd_laws) [blocks_a; blocks_b] [pa; pb] 4 (fun _ => 1000) (fun _ => 1048576) false [1; 3]
    [OpNext; OpNext; OpNext; OpNext; OpNext; OpNext] blocks_good Ho Hnd ltac:(lia)) as (rs & self' & w' & He & Ht & _).
  exists pa, pb, ba, bb, rs, self', w'. exact (conj Ha (conj Hb (conj He Ht))).
Defined.

Lemma first_item_with_prefix_finds_witness :
  exists pa pb self' w' r,
    first_item_with_prefix (Zs := stored_zstd) (E := Empty_set) (ts_new [pa; pb] false) [2] (fresh_caches 4 (fun _ => 1000) (fun _ => 1048576)) =
      Ok (self', w', match r with Some _ => None | None => Some TsEof end) /\
    first_with_prefix [[[1; 2]; [1; 3]; [4]; [5]]; [[1; 3]; [2; 9]]] [2] r.
Proof.
  destruct blocks_open as (pa & pb & ba & bb & Ha & Hb & Ho & Hnd).
  destruct (first_item_with_prefix_finds (Zl := stored_zstd_laws) [blocks_a; blocks_b] [pa; pb] 4 (fun _ => 1000) (fun _ => 1048576) false [2]
    blocks_good Ho Hnd ltac:(lia)) as (self' & w' & r & He & _ & Hr).
  exists pa, pb, self', w', r. exact (conj He Hr).
Defined.
End TableExamples.
