(* ===== verification/ItemTable.v ===== *)
(** * What the index asks of its table

    The interface between the inverted index and the merge set: a cursor over
    the items of a table, as the class [ItemTable], what it promises, as
    [ItemTableLaws], and the proof that the search of [ItemTableSearch] over
    written parts and real caches keeps the promise. *)
From Stdlib Require Import ZArith Lia Bool Sorted Permutation.
From S2P Require Import Prelude IntCodec Compress ItemBlock ItemHeader ItemStream BlockCache SearchBase ItemSearch ItemSearchSpec ItemPartSearch ItemTableSearch.
Local Open Scope Z_scope.

(** ** The interface *)

(** The operations of [esm_mergeset::TableSearch]; [W] is what the cursors
    share, the caches of blocks. *)
Class ItemTable (T W : Type) : Type := {
  tb_seek {E} : T -> list Z -> W -> res E (T * W);
  tb_next_item {E} : T -> W -> res E (T * W * bool);
  tb_item {E} : T -> res E (list Z);
  tb_error : T -> option ts_other;
  tb_first_item_with_prefix {E} : T -> list Z -> W -> res E (T * W * option ts_error);
}.

(** The items [out] of the table are what is left from the key [k] on. *)
Definition from_key (items : list (list Z)) (k : list Z) (out : list (list Z)) : Prop :=
  sorted_items out /\ (length out <= length items)%nat /\ forall x, In x out <-> In x items /\ lex_leb k x.

(** The least item with the prefix. *)
Definition least_with_prefix (items : list (list Z)) (prefix : list Z) (r : option (list Z)) : Prop :=
  match r with
  | Some y => In y items /\ prefix `prefix_of` y /\ forall x, In x items -> prefix `prefix_of` x -> lex_leb y x
  | None => forall x, In x items -> ~ prefix `prefix_of` x
  end.

(** A cursor in the state [tl_at s out] yields [out]; nothing fails. *)
Class ItemTableLaws (T W : Type) {Tb : ItemTable T W} (items : list (list Z)) : Type := {
  tl_world : W -> Prop;
  tl_any : T -> Prop;
  tl_at : T -> list (list Z) -> Prop;
  tl_at_any s out : tl_at s out -> tl_any s;
  tl_at_error s out : tl_at s out -> tb_error s = None;
  tl_seek E s k w : tl_any s -> tl_world w ->
    exists s' w' out, tb_seek (E := E) s k w = Ok (s', w') /\ tl_world w' /\ tl_at s' out /\ from_key items k out;
  tl_next E s w out : tl_at s out -> tl_world w ->
    exists s' w', tb_next_item (E := E) s w = Ok (s', w', match out with [] => false | _ => true end) /\
      tl_world w' /\ tl_at s' (tail out) /\ forall E' x, head out = Some x -> tb_item (E := E') s' = Ok x;
  tl_first E s prefix w : tl_any s -> tl_world w ->
    exists s' w' r, tb_first_item_with_prefix (E := E) s prefix w = Ok (s', w', match r with Some _ => None | None => Some TsEof end) /\
      tl_world w' /\ tl_any s' /\ least_with_prefix items prefix r /\ forall E' y, r = Some y -> tb_item (E := E') s' = Ok y;
}.

(** ** The merge set keeps it *)

#[export] Instance table_search_ops {Zs : Zstd} {CI CB} {Ci : BlockCacheOps CI (list BlockHeader)} {Cb : BlockCacheOps CB InmemoryBlock} :
    ItemTable TableSearch (Caches CI CB) := {|
  tb_seek E := ts_seek;
  tb_next_item E := ts_next_item;
  tb_item E := ts_item;
  tb_error := ts_error_msg;
  tb_first_item_with_prefix E := first_item_with_prefix;
|}.

Section Discharge.
  Context `{Zs : Zstd} {Zl : ZstdLaws Zs}.
  Context {CI CB : Type} `{!BlockCacheOps CI (list BlockHeader)} `{!BlockCacheOps CB InmemoryBlock}.
  Context {Li : BlockCacheLaws CI (list BlockHeader)} {Lb : BlockCacheLaws CB InmemoryBlock}.
  Context (all : list (Part * list (list entry))).
  Context (all_ok : forall p gs, In (p, gs) all -> part_ok p gs).
  Context (ids : forall p gs p' gs', In (p, gs) all -> In (p', gs') all -> p_id p = p_id p' -> p = p' /\ gs = gs').

(** The items of the parts. *)
Definition table_items : list (list Z) := concat (map part_items all).

Lemma sought_In k xs rest x : sought k xs rest -> In x rest <-> In x xs /\ lex_leb k x.
Proof.
  intros (d & -> & Hr & Hd). rewrite in_app_iff. rewrite Forall_In in Hr, Hd. split.
  - intros Hx. split; [by right|by apply Hr].
  - intros [[Hx|Hx] Hk]; [|done]. destruct (Hd x Hx) as [Hb|[-> Hh]].
    + rewrite below_spec in Hb. apply negb_true_iff in Hb. by rewrite Hb in Hk.
    + destruct rest; [done|]. injection Hh as ->. by left.
Qed.

Lemma sought_from_key k xss out : table_sought k xss out -> from_key (concat xss) k out.
Proof.
  intros (rests & Hf & Hs & Hp). split; [done|]. split.
  { rewrite Hp. clear Hp Hs. induction Hf as [|xs rest xss rests (d & -> & _) _ IH]; cbn [concat]; [done|]. rewrite !length_app. lia. }
  intros x. rewrite Hp. clear Hp Hs. induction Hf as [|xs rest xss rests Hx _ IH]; cbn [concat].
  - split; [done|by intros [? _]].
  - rewrite !in_app_iff, IH, (sought_In k xs rest x Hx). tauto.
Qed.

Lemma first_least prefix r : first_with_prefix (map part_items all) prefix r -> least_with_prefix table_items prefix r.
Proof.
  unfold first_with_prefix, least_with_prefix, table_items. destruct r as [y|].
  - intros (Hp & (xs & Hxs & Hy) & Hm). split_and!; [by apply in_concat; exists xs|done|]. intros x (zs & Hzs & Hx)%in_concat. by apply Hm with zs.
  - intros Hm x (zs & Hzs & Hx)%in_concat. by apply Hm with zs.
Qed.

(** The current item does not depend on the error type it is read under. *)
Lemma ts_item_any {E E'} s x : ts_item (E := E) s = Ok x -> ts_item (E := E') s = Ok x.
Proof.
  unfold ts_item, idx, ps_item. destruct (ts_heap s !! 0%nat) as [t|]; [|done]. rewrite !bind_Ok.
  destruct (ts_pool s !! t) as [ps|]; [|done]. rewrite !bind_Ok. intros H. pose proof (item_bytes_inv _ _ _ H) as ->. revert H.
  unfold item_bytes, slice, item_of. by destruct (_ && _).
Qed.

Definition table_search_laws : ItemTableLaws TableSearch (Caches CI CB) table_items.
Proof using all_ok ids Zl Li Lb.
  refine {| tl_world := caches_ok all; tl_any := table_pool all; tl_at := table_at all |}.
  - apply table_at_pool.
  - intros s out H. exact (proj1 (table_at_pool all s out H)).
  - intros E s k w Hs Hw. destruct (ts_seek_ok (E := E) all all_ok ids s w k Hs Hw) as (s' & w' & out & He & Ha & Hw' & Hso).
    exists s', w', out. split_and!; [exact He|done|done|]. by apply sought_from_key.
  - intros E s w out Hs Hw. destruct (ts_next_ok (E := E) all all_ok ids s w out Hs Hw) as (s' & w' & He & Ha & Hw' & Hi). exists s', w'.
    split_and!; [exact He|done|done|]. intros E' x Hx. by eapply ts_item_any, Hi.
  - intros E s p w Hs Hw. destruct (first_item_ok (E := E) all all_ok ids s w p Hs Hw) as (s' & w' & r & out & He & Hi & Hf & Ha & Hw').
    exists s', w', r. split_and!; [exact He|done|by eapply table_at_pool|by apply first_least|]. intros E' y Hy. by eapply ts_item_any, Hi.
Defined.
End Discharge.

(** ** Scanning the items with a prefix *)

(** From the prefix on, the items with the prefix come first. *)
Lemma prefix_split p out : sorted_items out -> Forall (fun x => Is_true (lex_leb p x)) out ->
  exists ps rest, out = ps ++ rest /\ Forall (prefix p) ps /\ Forall (fun x => ~ p `prefix_of` x) rest.
Proof.
  induction out as [|x out IH]; intros Hs Hk; [by exists [], []|]. apply StronglySorted_inv in Hs as [Hs Hx]. apply Forall_cons in Hk as [Hkx Hk].
  destruct (decide (p `prefix_of` x)) as [Hp|Hp].
  - destruct (IH Hs Hk) as (ps & rest & -> & H1 & H2). exists (x :: ps), rest. split; [done|]. split; [by constructor|done].
  - exists [], (x :: out). split; [done|]. split; [constructor|]. constructor; [done|]. revert Hx. apply Forall_weaken. intros y Hxy Hpy.
    destruct Hp. by eapply prefix_between.
Qed.

Lemma from_key_split items p out : from_key items p out ->
  exists ps rest, out = ps ++ rest /\ Forall (prefix p) ps /\ Forall (fun x => ~ p `prefix_of` x) rest /\
    (length ps <= length items)%nat /\ sorted_items ps /\ forall x, In x ps <-> In x items /\ p `prefix_of` x.
Proof.
  intros (Hs & Hl & Hi). destruct (prefix_split p out Hs) as (ps & rest & -> & H1 & H2).
  { apply Forall_In. intros x Hx. by apply Hi in Hx as [_ Hx]. }
  exists ps, rest. rewrite length_app in Hl. split_and!; [done|done|done|lia|by apply StronglySorted_app in Hs as (_ & ? & _)|]. intros x. rewrite Forall_In in H1, H2. split.
  - intros Hx. split; [|by apply H1]. apply (Hi x). apply in_or_app. by left.
  - intros [Hx Hp]. assert (Hin : In x (ps ++ rest)) by (apply Hi; split; [done|by apply prefix_leb]).
    apply in_app_or in Hin as [Hin|Hin]; [done|]. by destruct (H2 x Hin).
Qed.

Lemma starts_with_yes x p : p `prefix_of` x -> starts_with x p = true.
Proof. intros H. apply Is_true_true. by apply starts_with_spec. Qed.

Lemma starts_with_no x p : ~ p `prefix_of` x -> starts_with x p = false.
Proof. intros H. apply not_true_iff_false. intros H'. apply H, starts_with_spec. by rewrite H'. Qed.

Lemma slice_from_app {E} (x p : list Z) : slice_from (E := E) (p ++ x) (length p) = Ok x.
Proof. by apply slice_from_ok. Qed.
