(* ===== verification/PartSelect.v ===== *)
(** * Which parts to merge

    Model of the selection heuristics of [esm-mergeset/src/part_wrapper.rs]:
    the search for the window of parts, in the order of their sizes, whose
    merge amplifies writes least, and the split of a list of parts into groups
    for optimal merges.  The multipliers are [f64] values, computed as the code
    computes them. *)
From Stdlib Require Import ZArith Lia Bool SpecFloat.
From S2P Require Import Prelude Float64 ItemMerge.
Local Open Scope Z_scope.

Definition DEFAULT_PARTS_TO_MERGE : nat := 15.
Definition MIN_MERGE_MULTIPLIER : f64 := f64_1_7.

(** [iter().sum()] of [u64] values. *)
Definition sum_u64 (l : list Z) : Z := foldl (fun a x => as_u64 (a + x)) 0 l.

(** [&src[j..j + i]]. *)
Definition window {E A} (src : list A) (j i : nat) : res E (list A) :=
  _ ← assert_ (j + i <=? length src)%nat;
  Ok (take i (drop j src)).

(** ** The search for the best window *)

Section Select.
  Context {A : Type} (size : A -> Z).

(** The windows of [i] parts from position [j] on, [n] of them: the best window
    so far and its multiplier. *)
Fixpoint windows_loop {E} (n j i : nat) (src : list A) (max_out_bytes : Z) (best : option (nat * nat)) (max_m : f64)
    : res E (option (nat * nat) * f64) :=
  match n with
  | O => Ok (best, max_m)
  | S n =>
      a ← window src j i;
      a_first ← idx a 0;
      a_last ← idx a (length a - 1);
      if as_u64 (size a_first * Z.of_nat (length a)) <? size a_last then
        windows_loop n (S j) i src max_out_bytes best max_m
      else
        let out_bytes := sum_u64 (map size a) in
        if out_bytes >? max_out_bytes then Ok (best, max_m)
        else
          let m := f64_div (f64_of_Z out_bytes) (f64_of_Z (size a_last)) in
          if f64_lt m max_m then windows_loop n (S j) i src max_out_bytes best max_m
          else windows_loop n (S j) i src max_out_bytes (Some (j, i)) m
  end.

(** The window lengths from [i] on, [n] of them. *)
Fixpoint lengths_loop {E} (n i : nat) (src : list A) (max_out_bytes : Z) (best : option (nat * nat)) (max_m : f64)
    : res E (option (nat * nat) * f64) :=
  match n with
  | O => Ok (best, max_m)
  | S n =>
      '(best, max_m) ← windows_loop (S (length src - i)) 0 i src max_out_bytes best max_m;
      lengths_loop n (S i) src max_out_bytes best max_m
  end.

Definition max_in_part_bytes (max_out_bytes : Z) : Z := f64_as_u64 (f64_div (f64_of_Z max_out_bytes) MIN_MERGE_MULTIPLIER).

Definition append_parts_to_merge {E} (src : list A) (max_parts_to_merge : nat) (max_out_bytes : Z) : res E (list A) :=
  if (length src <? 2)%nat then Ok []
  else
    _ ← assert_ (2 <=? max_parts_to_merge)%nat;
    let src := sort_by_key size (filter (fun pw => size pw <= max_in_part_bytes max_out_bytes) src) in
    let max_src_parts := (max_parts_to_merge `min` length src)%nat in
    let min_src_parts := (((max_src_parts + 1) / 2) `max` 2)%nat in
    '(best, max_m) ← lengths_loop (S max_src_parts - min_src_parts) min_src_parts src max_out_bytes None (f64_of_Z 0);
    let min_m := f64_max (f64_div (f64_of_Z (Z.of_nat max_parts_to_merge)) (f64_of_Z 2)) MIN_MERGE_MULTIPLIER in
    if f64_lt max_m min_m then Ok []
    else
      '(j, i) ← match best with Some ji => Ok ji | None => Panic end;
      window src j i.
End Select.

(** ** Sets of parts

    Parts are compared by address; the set of addresses is the list of them,
    checked for duplicates as the code checks it. *)
Section Pointers.
  Context {A : Type} `{EqDecision A} (size : A -> Z).

Definition make_ptr_set {E} (pws : list A) : res E (list A) :=
  _ ← assert_ (bool_decide (NoDup pws));
  Ok pws.

(** The parts that stay and the number of removed ones. *)
Definition remove_parts (pws parts_to_remove : list A) : list A * nat :=
  let kept := filter (fun pw => pw ∉ parts_to_remove) pws in
  (kept, length pws - length kept)%nat.

Definition get_parts_for_optimal_merge {E} (pws : list A) : res E (list A * list A) :=
  pws_to_merge ← append_parts_to_merge size pws DEFAULT_PARTS_TO_MERGE (2 ^ 64 - 1);
  if (length pws_to_merge =? 0)%nat then Ok (pws, [])
  else
    m ← make_ptr_set pws_to_merge;
    Ok (pws_to_merge, filter (fun pw => pw ∉ m) pws).

(** The loop [while !pws.is_empty()] around it: the groups, each merged by a
    thread of its own. *)
Fixpoint optimal_groups (fuel : nat) (pws : list A) : run (list (list A)) :=
  match pws, fuel with
  | [], _ => Ok []
  | _, O => Err OutOfFuel
  | _, S fuel =>
      '(pws_to_merge, pws_remaining) ← get_parts_for_optimal_merge pws;
      groups ← optimal_groups fuel pws_remaining;
      Ok (pws_to_merge :: groups)
  end.
End Pointers.

(** ** What is selected *)

Section Spec.
  Context {A : Type} (size : A -> Z).

(** A window the search may choose. *)
Record admissible (src : list A) (max_out_bytes : Z) (a : list A) : Prop := {
  ad_sublist : exists l1 l2, src = l1 ++ a ++ l2;
  ad_first_last : exists x y, head a = Some x /\ last a = Some y /\ size y <= as_u64 (size x * Z.of_nat (length a));
  ad_bytes : sum_u64 (map size a) <= max_out_bytes;
}.

(** The choice so far: nothing with multiplier 0, or an admissible window of
    [lo] to [hi] parts. *)
Definition chosen (src : list A) (max_out_bytes : Z) (lo hi : nat) (best : option (nat * nat)) (max_m : f64) : Prop :=
  match best with
  | None => max_m = f64_of_Z 0
  | Some (j, i) => (lo <= i <= hi)%nat /\ (j + i <= length src)%nat /\ admissible src max_out_bytes (take i (drop j src))
  end.

Lemma window_ok {E} (src : list A) j i : (j + i <= length src)%nat -> window (E := E) src j i = Ok (take i (drop j src)).
Proof. intros H. unfold window. by rewrite (proj2 (Nat.leb_le _ _)). Qed.

Lemma windows_loop_ok {E} src max_out lo hi i : (1 <= i)%nat -> (lo <= i <= hi)%nat ->
  forall n j best max_m, (j + i + n <= S (length src))%nat -> chosen src max_out lo hi best max_m ->
  exists best' max_m', windows_loop size (E := E) n j i src max_out best max_m = Ok (best', max_m') /\ chosen src max_out lo hi best' max_m'.
Proof.
  intros Hi Hlo. induction n as [|n IH]; intros j best max_m Hj Hc; cbn [windows_loop]; [by exists best, max_m|].
  rewrite window_ok, bind_Ok by lia. set (a := take i (drop j src)).
  assert (Ha : length a = i) by (unfold a; rewrite length_take, length_drop; lia).
  destruct (a !! 0%nat) as [x|] eqn:Hx; [|apply lookup_ge_None in Hx; lia].
  destruct (a !! (length a - 1)%nat) as [y|] eqn:Hy; [|apply lookup_ge_None in Hy; lia].
  rewrite (idx_Some _ _ _ Hx), bind_Ok, (idx_Some _ _ _ Hy), bind_Ok.
  destruct (Z.ltb_spec (as_u64 (size x * Z.of_nat (length a))) (size y)) as [Hlt|Hge]; [apply IH; [lia|done]|].
  destruct (Z.gtb_spec (sum_u64 (map size a)) max_out) as [Hgt|Hle]; [by exists best, max_m|].
  destruct (f64_lt _ _); apply IH; try lia; [done|]. split; [lia|]. split; [lia|]. fold a. split.
  - exists (take j src), (drop i (drop j src)). unfold a. by rewrite take_drop, take_drop.
  - exists x, y. rewrite head_lookup, last_lookup. replace (pred (length a)) with (length a - 1)%nat by lia. done.
  - done.
Qed.

Lemma lengths_loop_ok {E} src max_out lo hi : (1 <= lo)%nat -> (hi <= length src)%nat ->
  forall n i best max_m, (lo <= i)%nat -> (i + n = S hi)%nat -> chosen src max_out lo hi best max_m ->
  exists best' max_m', lengths_loop size (E := E) n i src max_out best max_m = Ok (best', max_m') /\ chosen src max_out lo hi best' max_m'.
Proof.
  intros Hlo Hhi. induction n as [|n IH]; intros i best max_m Hi Hn Hc; cbn [lengths_loop]; [by exists best, max_m|].
  destruct (windows_loop_ok (E := E) src max_out lo hi i ltac:(lia) ltac:(lia) (S (length src - i)) 0 best max_m ltac:(lia) Hc) as (b & m & -> & Hc').
  rewrite bind_Ok. apply IH; [lia|lia|done].
Qed.

(** The result of the selection: nothing, or from two to [n] of the parts,
    balanced and within the limit. *)
Record selected (src : list A) (n : nat) (max_out_bytes : Z) (a : list A) : Prop := {
  se_rest : exists rest, src ≡ₚ a ++ rest;
  se_count : (2 <= length a <= n)%nat;
  se_sizes : Forall (fun x => size x <= max_in_part_bytes max_out_bytes) a;
  se_sorted : sorted_by_key size a;
  se_balanced : exists x y, head a = Some x /\ last a = Some y /\ size y <= as_u64 (size x * Z.of_nat (length a));
  se_bytes : sum_u64 (map size a) <= max_out_bytes;
}.

Lemma admissible_selected src max_out n a :
  (2 <= length a <= n)%nat -> admissible (sort_by_key size (filter (fun pw => size pw <= max_in_part_bytes max_out) src)) max_out a -> selected src n max_out a.
Proof.
  intros Hn [(l1 & l2 & Hs) Hb Ho]. set (ok := fun pw => size pw <= max_in_part_bytes max_out) in *.
  assert (Hp : filter ok src ≡ₚ a ++ l1 ++ l2).
  { rewrite <-(sort_by_key_perm size (filter ok src)), Hs. by rewrite (Permutation_app_comm l1), <-app_assoc, (Permutation_app_comm l2). }
  split; try done.
  - exists ((l1 ++ l2) ++ filter (fun x => ~ ok x) src). rewrite app_assoc, <-Hp. clear. induction src as [|x src IH]; [done|].
    rewrite !filter_cons. destruct (decide (ok x)) as [H|H].
    + rewrite decide_False by naive_solver. cbn. by rewrite <-IH.
    + rewrite decide_True by done. by rewrite <-Permutation_middle, <-IH.
  - assert (Hf : Forall ok (filter ok src)) by (apply Forall_forall; intros x [H _]%list_elem_of_filter; done).
    rewrite Hp in Hf. by apply Forall_app in Hf as [? _].
  - pose proof (sort_by_key_sorted size (filter ok src)) as Hsort. rewrite Hs in Hsort. unfold sorted_by_key in *.
    apply StronglySorted_app in Hsort as (_ & _ & Hsort). by apply StronglySorted_app in Hsort as (_ & ? & _).
Qed.

Lemma min_multiplier_positive : f64_lt (f64_of_Z 0) (f64_max (f64_div (f64_of_Z (Z.of_nat DEFAULT_PARTS_TO_MERGE)) (f64_of_Z 2)) MIN_MERGE_MULTIPLIER) = true.
Proof. by vm_compute. Qed.

Lemma append_parts_ok {E} src max_out :
  exists a, append_parts_to_merge size (E := E) src DEFAULT_PARTS_TO_MERGE max_out = Ok a /\ (a = [] \/ selected src DEFAULT_PARTS_TO_MERGE max_out a).
Proof.
  unfold append_parts_to_merge. destruct (Nat.ltb_spec (length src) 2) as [Hl|Hl]; [exists []; auto|]. change (2 <=? DEFAULT_PARTS_TO_MERGE)%nat with true. cbn [assert_]. rewrite bind_Ok.
  set (src' := sort_by_key _ _). set (hi := (DEFAULT_PARTS_TO_MERGE `min` length src')%nat). set (lo := (((hi + 1) / 2) `max` 2)%nat).
  assert (Hlen : exists b m, lengths_loop size (E := E) (S hi - lo) lo src' max_out None (f64_of_Z 0) = Ok (b, m) /\ chosen src' max_out lo hi b m).
  { destruct (decide (lo <= S hi)%nat) as [Hle|Hgt].
    - apply lengths_loop_ok; unfold lo, hi, DEFAULT_PARTS_TO_MERGE in *; try lia; done.
    - exists None, (f64_of_Z 0). replace (S hi - lo)%nat with 0%nat by lia. done. }
  destruct Hlen as (b & m & -> & Hc). rewrite bind_Ok.
  destruct (f64_lt m _) eqn:Hm; [exists []; auto|]. destruct b as [[j i]|]; [|by rewrite Hc, min_multiplier_positive in Hm].
  destruct Hc as (Hi & Hj & Ha). rewrite bind_Ok, window_ok by done. eexists. split; [done|]. right. apply admissible_selected; [|done].
  rewrite length_take, length_drop. unfold lo, hi, DEFAULT_PARTS_TO_MERGE in *. lia.
Qed.
End Spec.

Section PointersSpec.
  Context {A : Type} `{EqDecision A} (size : A -> Z).

Lemma make_ptr_set_ok {E} (pws : list A) : NoDup pws -> make_ptr_set (E := E) pws = Ok pws.
Proof. intros H. unfold make_ptr_set. by rewrite bool_decide_eq_true_2. Qed.

Lemma filter_keeps (P : A -> Prop) `{!forall x, Decision (P x)} (l : list A) : (forall x, x ∈ l -> P x) -> filter P l = l.
Proof.
  induction l as [|x l IH]; intros Hl; [done|]. rewrite filter_cons, decide_True by (apply Hl; left). f_equal. apply IH. intros y Hy. apply Hl. by right.
Qed.

Lemma remove_from (a rest l : list A) : NoDup l -> l ≡ₚ a ++ rest -> filter (fun x => x ∉ a) l ≡ₚ rest.
Proof.
  intros Hnd Hp. rewrite Hp in Hnd |- *. apply NoDup_app in Hnd as (_ & Hd & _). rewrite filter_app.
  assert (Hnone : filter (fun x => x ∉ a) a = []).
  { apply elem_of_nil_inv. intros x [H1 H2]%list_elem_of_filter. done. }
  assert (Hall : filter (fun x => x ∉ a) rest = rest).
  { apply filter_keeps. intros x Hx Ha. by apply (Hd x). }
  by rewrite Hnone, Hall.
Qed.

(** A split of the parts with something in the first half, at least two parts
    when there are two. *)
Lemma optimal_merge_ok {E} (pws : list A) : NoDup pws -> pws <> [] ->
  exists a rest, get_parts_for_optimal_merge size (E := E) pws = Ok (a, rest) /\ pws ≡ₚ a ++ rest /\ a <> [] /\
    (2 <= length pws -> 2 <= length a)%nat.
Proof.
  intros Hnd Hne. unfold get_parts_for_optimal_merge. destruct (append_parts_ok size (E := E) pws (2 ^ 64 - 1)) as (a & -> & Ha). rewrite bind_Ok.
  destruct (Nat.eqb_spec (length a) 0) as [Hz|Hnz].
  { exists pws, []. rewrite app_nil_r. split_and!; try done. }
  destruct Ha as [->|[(rest & Hp) Hc _ _ _ _]]; [done|]. rewrite make_ptr_set_ok, bind_Ok by (rewrite Hp in Hnd; by apply NoDup_app in Hnd as (? & _)).
  exists a, (filter (fun pw => pw ∉ a) pws). split_and!; [done|by rewrite (remove_from a rest pws)|by intros ->|lia].
Qed.

Lemma optimal_groups_ok fuel (pws : list A) : NoDup pws -> (length pws <= fuel)%nat ->
  exists groups, optimal_groups size fuel pws = Ok groups /\ pws ≡ₚ concat groups /\ Forall (fun g => g <> []) groups /\
    (2 <= length pws -> length groups < length pws)%nat /\ (length groups <= length pws)%nat.
Proof.
  revert pws. induction fuel as [|fuel IH]; intros pws Hnd Hf.
  { destruct pws; [|cbn in Hf; lia]. exists []. split_and!; try done; cbn; lia. }
  destruct pws as [|x pws]; [exists []; split_and!; try done; cbn; lia|]. cbn [optimal_groups].
  destruct (optimal_merge_ok (E := out_of_fuel) (x :: pws) Hnd ltac:(done)) as (a & rest & -> & Hp & Ha & H2). rewrite bind_Ok.
  pose proof (Permutation_length Hp) as Hl. rewrite length_app in Hl. assert (length a <> 0)%nat by (by destruct a).
  destruct (IH rest) as (groups & -> & Hg & Hne & Hlt & Hle).
  { rewrite Hp in Hnd. by apply NoDup_app in Hnd as (_ & _ & ?). } { lia. }
  rewrite bind_Ok. exists (a :: groups). cbn [concat]. rewrite <-Hg. split_and!; [done|done|by constructor| |cbn [length] in *; lia].
  intros Hge. specialize (H2 Hge). cbn [length] in *. lia.
Qed.
End PointersSpec.
