(* ===== verification/RawItems.v ===== *)
(** * Recently added items

    Model of [esm-mergeset/src/raw_items.rs]: the sharded buffers that hold the
    items added to a table before they are converted to parts, and the blocks
    that overflowed them.  The clock is an argument; the limit of blocks per
    shard and the number of processors, fixed for a process, are too. *)
From Stdlib Require Import ZArith Lia Bool.
From S2P Require Import Prelude IntCodec ItemBlock ItemBlockSpec ItemHeader ItemStream ItemMergeSpec.
Local Open Scope Z_scope.

Definition PENDING_ITEMS_FLUSH_INTERVAL_MS : Z := 1000.
Definition DEFAULT_MAX_BLOCKS_PER_SHARD : nat := 256.

(** The override is the value of the test hook; 0 selects the default. *)
Definition raw_items_shards_per_table (override cpus : nat) : nat :=
  if (0 <? override)%nat then override else (cpus * (cpus `min` 16))%nat.

Definition max_blocks_per_shard (override : nat) : nat :=
  if (0 <? override)%nat then override else DEFAULT_MAX_BLOCKS_PER_SHARD.

(** ** A shard *)

Record RawItemsShard : Type := mkShard { rs_flush_deadline_ms : Z; rs_ibs : list InmemoryBlock }.

Definition shard_new : RawItemsShard := mkShard 0 [].

Definition shard_len (self : RawItemsShard) : nat := sum_list (map (fun ib => length (ib_items ib)) (rs_ibs self)).

Definition flush_deadline (now_ms : Z) : Z := as_i64 (now_ms + PENDING_ITEMS_FLUSH_INTERVAL_MS).

(** The loop over the items from position [i] on: the number of consumed items,
    the blocks of the shard, the blocks to flush and the number of items too
    long for a block, which are dropped. *)
Fixpoint shard_add_loop {E} (max_blocks i : nat) (items : list (list Z)) (ibs : list InmemoryBlock) (too_long : Z)
    : res E (nat * list InmemoryBlock * list InmemoryBlock * Z) :=
  match items with
  | [] => Ok (i, ibs, [], too_long)
  | item :: items =>
      lst ← match last ibs with Some b => Ok b | None => Panic end;
      let '(lst, added) := ib_add lst item in
      let ibs := removelast ibs ++ [lst] in
      if added then shard_add_loop max_blocks (S i) items ibs too_long
      else if (max_blocks <=? length ibs)%nat then Ok (i, [], ibs, too_long)
      else
        let '(ib, added) := ib_add ib_default item in
        if added then shard_add_loop max_blocks (S i) items (ibs ++ [ib]) too_long
        else shard_add_loop max_blocks (S i) items ibs (as_u64 (too_long + 1))
  end.

(** The shard after the call, the number of consumed items, the blocks to flush
    and the counter of too long items. *)
Definition shard_add_items {E} (max_blocks : nat) (now_ms : Z) (self : RawItemsShard) (items : list (list Z)) (too_long : Z)
    : res E (RawItemsShard * nat * list InmemoryBlock * Z) :=
  let '(deadline, ibs) := match rs_ibs self with
                          | [] => (flush_deadline now_ms, [ib_default])
                          | ibs => (rs_flush_deadline_ms self, ibs)
                          end in
  '(consumed, ibs, ibs_to_flush, too_long) ← shard_add_loop max_blocks 0 items ibs too_long;
  Ok (mkShard deadline ibs, consumed, ibs_to_flush, too_long).

(** The shard after the call and [dst]. *)
Definition append_blocks_to_flush (self : RawItemsShard) (dst : list InmemoryBlock) (current_time_ms : Z) (is_final : bool)
    : RawItemsShard * list InmemoryBlock :=
  if negb is_final && (current_time_ms <? rs_flush_deadline_ms self) then (self, dst)
  else (mkShard (rs_flush_deadline_ms self) [], dst ++ rs_ibs self).

(** ** All shards *)

Record RawItemsShards : Type := mkShards {
  ri_flush_deadline_ms : Z;
  ri_shard_idx : Z;
  ri_shards : list RawItemsShard;
  ri_ibs_to_flush : list InmemoryBlock;
}.

Definition raw_items_new (n : nat) : RawItemsShards := mkShards 0 0 (replicate n shard_new) [].

Definition raw_items_len (self : RawItemsShards) : nat := sum_list (map shard_len (ri_shards self)).

Definition ri_set_shard (self : RawItemsShards) (i : nat) (s : RawItemsShard) : RawItemsShards :=
  mkShards (ri_flush_deadline_ms self) (ri_shard_idx self) (<[i := s]> (ri_shards self)) (ri_ibs_to_flush self).

(** The next shard in turn takes the items. *)
Definition add_items_to_shard {E} (max_blocks : nat) (now_ms : Z) (self : RawItemsShards) (items : list (list Z)) (too_long : Z)
    : res E (RawItemsShards * nat * list InmemoryBlock * Z) :=
  let n := ri_shard_idx self in
  let self := mkShards (ri_flush_deadline_ms self) (as_u32 (n + 1)) (ri_shards self) (ri_ibs_to_flush self) in
  _ ← assert_ (negb (length (ri_shards self) =? 0)%nat);
  let i := Z.to_nat (n mod Z.of_nat (length (ri_shards self))) in
  shard ← idx (ri_shards self) i;
  '(shard, consumed, ibs, too_long) ← shard_add_items max_blocks now_ms shard items too_long;
  Ok (ri_set_shard self i shard, consumed, ibs, too_long).

(** The pending blocks after the call and the blocks to merge. *)
Definition add_ibs_to_flush (max_blocks cpus : nat) (now_ms : Z) (self : RawItemsShards) (ibs : list InmemoryBlock)
    : RawItemsShards * list InmemoryBlock :=
  match ibs with
  | [] => (self, [])
  | _ =>
      let deadline := match ri_ibs_to_flush self with [] => flush_deadline now_ms | _ => ri_flush_deadline_ms self end in
      let pending := ri_ibs_to_flush self ++ ibs in
      if (max_blocks * cpus <=? length pending)%nat
      then (mkShards deadline (ri_shard_idx self) (ri_shards self) [], pending)
      else (mkShards deadline (ri_shard_idx self) (ri_shards self) pending, [])
  end.

(** [take_blocks_to_flush]: first the pending blocks, then those of each shard
    that is due. *)
Definition take_pending (self : RawItemsShards) (current_time_ms : Z) (is_final : bool) : RawItemsShards * list InmemoryBlock :=
  if is_final || (ri_flush_deadline_ms self <=? current_time_ms)
  then (mkShards (ri_flush_deadline_ms self) (ri_shard_idx self) (ri_shards self) [], ri_ibs_to_flush self)
  else (self, []).

Definition take_shard {E} (self : RawItemsShards) (i : nat) (dst : list InmemoryBlock) (current_time_ms : Z) (is_final : bool)
    : res E (RawItemsShards * list InmemoryBlock) :=
  shard ← idx (ri_shards self) i;
  let '(shard, dst) := append_blocks_to_flush shard dst current_time_ms is_final in
  Ok (ri_set_shard self i shard, dst).

(** ** The items of the blocks *)

Definition blocks_items (ibs : list InmemoryBlock) : list (list Z) := concat (map block_items ibs).

Definition raw_blocks (self : RawItemsShards) : list InmemoryBlock := ri_ibs_to_flush self ++ concat (map rs_ibs (ri_shards self)).

(** The items that fit a block. *)
Abbreviation fits := (fun x : list Z => Z.of_nat (length x) <= MAX_INMEMORY_BLOCK_SIZE).

(** An item that may be added: any item that is not empty and is one that the
    callback of the table can read, however long. *)
Record addable (good : list Z -> Prop) (x : list Z) : Prop := {
  ab_bytes : bytes x;
  ab_nonempty : x <> [];
  ab_good : good x;
}.

(** A block built by [add]. *)
Definition raw_block (good : list Z -> Prop) (b : InmemoryBlock) : Prop :=
  exists xs, b = pack [] xs /\ Forall (item_ok good) xs /\ Z.of_nat (total xs) <= MAX_INMEMORY_BLOCK_SIZE.

Lemma blocks_items_app l l' : blocks_items (l ++ l') = blocks_items l ++ blocks_items l'.
Proof. unfold blocks_items. by rewrite map_app, concat_app. Qed.

Section RawSpec.
  Context (good : list Z -> Prop).

Lemma addable_fits x : addable good x -> fits x -> item_ok good x.
Proof. intros [Hb Hn Hg] Hf. by split. Qed.

Lemma raw_block_default : raw_block good ib_default.
Proof. exists []. split; [done|]. split; [constructor|]. cbn. unfold MAX_INMEMORY_BLOCK_SIZE. lia. Qed.

Lemma raw_block_add b x : raw_block good b -> addable good x ->
  (fits x /\ exists b', ib_add b x = (b', true) /\ raw_block good b' /\ block_items b' = block_items b ++ [x]) \/
  (ib_add b x = (b, false) /\ (fits x -> b <> ib_default)).
Proof.
  intros (xs & -> & Hxs & Ht) Hx. destruct (decide (Z.of_nat (total xs) + Z.of_nat (length x) <= MAX_INMEMORY_BLOCK_SIZE)) as [Hle|Hgt].
  - left. assert (Hf : fits x) by lia. split; [done|]. exists (pack [] (xs ++ [x])). rewrite add_pack, !pack_items by done. split_and!; try done.
    exists (xs ++ [x]). split_and!; [done|apply Forall_app; split; [done|]; constructor; [by apply addable_fits|done]|rewrite total_snoc; lia].
  - right. rewrite add_full by lia. split; [done|]. intros Hf Heq. apply (f_equal block_items) in Heq. rewrite pack_items in Heq. cbn in Heq. subst xs. cbn in Hgt. lia.
Qed.

Lemma shard_loop_ok {E} max_blocks items : forall i ibs tl, Forall (addable good) items -> Forall (raw_block good) ibs -> ibs <> [] ->
  exists n ibs' flush tl', shard_add_loop (E := E) max_blocks i items ibs tl = Ok ((i + n)%nat, ibs', flush, tl') /\ (n <= length items)%nat /\
    Forall (raw_block good) ibs' /\ Forall (raw_block good) flush /\ (flush = [] -> n = length items) /\
    blocks_items (ibs' ++ flush) = blocks_items ibs ++ filter fits (take n items).
Proof.
  induction items as [|x items IH]; intros i ibs tl Hit Hib Hne; cbn [shard_add_loop].
  { exists 0%nat, ibs, [], tl. rewrite Nat.add_0_r, take_0, !app_nil_r. by split_and!. }
  apply Forall_cons in Hit as [Hx Hit]. destruct (last ibs) as [b|] eqn:Hl; [|by apply last_None in Hl]. rewrite bind_Ok.
  apply last_Some in Hl as [pre ->]. rewrite removelast_last. apply Forall_app in Hib as [Hpre Hb]. apply Forall_cons in Hb as [Hb _].
  assert (Hnext : forall ibs' y tl', Forall (raw_block good) ibs' -> ibs' <> [] -> blocks_items ibs' = blocks_items (pre ++ [b]) ++ y ->
      filter fits [x] = y ->
    exists n ibs2 flush tl2, shard_add_loop (E := E) max_blocks (S i) items ibs' tl' = Ok ((i + n)%nat, ibs2, flush, tl2) /\ (n <= length (x :: items))%nat /\
      Forall (raw_block good) ibs2 /\ Forall (raw_block good) flush /\ (flush = [] -> n = length (x :: items)) /\
      blocks_items (ibs2 ++ flush) = blocks_items (pre ++ [b]) ++ filter fits (take n (x :: items))).
  { intros ibs' y tl' Hr Hn Heq Hy. destruct (IH (S i) ibs' tl' Hit Hr Hn) as (n & ibs2 & fl & tl2 & Hrun & Hle & Hr2 & Hrf & Hall & Hitems).
    exists (S n), ibs2, fl, tl2. rewrite Nat.add_succ_r. cbn [take length]. split_and!; [done|lia|done|done|by intros ->%Hall|].
    rewrite Hitems, Heq, <-app_assoc. f_equal. change (x :: take n items) with ([x] ++ take n items). by rewrite filter_app, Hy. }
  destruct (raw_block_add b x Hb Hx) as [(Hf & b' & -> & Hb' & Hbi)|[-> Hfit]].
  - apply (Hnext _ [x]).
    + apply Forall_app. split; [done|by constructor].
    + by destruct pre.
    + rewrite !blocks_items_app. unfold blocks_items at 2 4. cbn. by rewrite Hbi, !app_nil_r, app_assoc.
    + rewrite filter_cons, decide_True by done. done.
  - destruct (Nat.leb_spec max_blocks (length (pre ++ [b]))) as [Hfull|Hroom].
    { exists 0%nat, [], (pre ++ [b]), tl. rewrite Nat.add_0_r, take_0, app_nil_r. split_and!; [done|cbn; lia|constructor|apply Forall_app; split; [done|by constructor]|by destruct pre|done]. }
    destruct (raw_block_add ib_default x raw_block_default Hx) as [(Hf & b' & -> & Hb' & Hbi)|[-> Hfit']].
    + apply (Hnext _ [x]).
      * repeat (apply Forall_app; split); [done|by constructor|by constructor].
      * by destruct pre.
      * rewrite (blocks_items_app (pre ++ [b])). f_equal. unfold blocks_items. cbn. by rewrite Hbi.
      * rewrite filter_cons, decide_True by done. done.
    + apply (Hnext _ []).
      * apply Forall_app. split; [done|by constructor].
      * by destruct pre.
      * by rewrite app_nil_r.
      * rewrite filter_cons, decide_False; [done|]. intros Hf. by apply Hfit'.
Qed.

Lemma shard_add_ok {E} max_blocks now s items tl : Forall (addable good) items -> Forall (raw_block good) (rs_ibs s) ->
  exists s' n flush tl', shard_add_items (E := E) max_blocks now s items tl = Ok (s', n, flush, tl') /\ (n <= length items)%nat /\
    Forall (raw_block good) (rs_ibs s') /\ Forall (raw_block good) flush /\ (flush = [] -> n = length items) /\
    blocks_items (rs_ibs s' ++ flush) = blocks_items (rs_ibs s) ++ filter fits (take n items).
Proof.
  intros Hit Hr. unfold shard_add_items. destruct (rs_ibs s) as [|b ibs] eqn:Hs.
  - destruct (shard_loop_ok (E := E) max_blocks items 0 [ib_default] tl Hit) as (n & ibs' & fl & tl' & -> & H); [constructor; [apply raw_block_default|done]|done|].
    rewrite bind_Ok. eexists _, n, fl, tl'. split; [done|]. exact H.
  - destruct (shard_loop_ok (E := E) max_blocks items 0 (b :: ibs) tl Hit Hr) as (n & ibs' & fl & tl' & -> & H); [done|].
    rewrite bind_Ok. eexists _, n, fl, tl'. split; [done|]. exact H.
Qed.

(** ** No item is lost between the shards *)

Record raw_ok (self : RawItemsShards) : Prop := {
  ro_blocks : Forall (raw_block good) (raw_blocks self);
  ro_shards : ri_shards self <> [];
}.

Lemma raw_blocks_at self i s : ri_shards self !! i = Some s ->
  exists rest, raw_blocks self ≡ₚ rs_ibs s ++ rest /\ forall s', raw_blocks (ri_set_shard self i s') ≡ₚ rs_ibs s' ++ rest.
Proof.
  intros Hi. exists (ri_ibs_to_flush self ++ concat (map rs_ibs (take i (ri_shards self))) ++ concat (map rs_ibs (drop (S i) (ri_shards self)))).
  assert (Hgen : forall s', raw_blocks (ri_set_shard self i s') ≡ₚ
    rs_ibs s' ++ ri_ibs_to_flush self ++ concat (map rs_ibs (take i (ri_shards self))) ++ concat (map rs_ibs (drop (S i) (ri_shards self)))).
  { intros s'. unfold raw_blocks, ri_set_shard. cbn [ri_ibs_to_flush ri_shards]. pose proof (lookup_lt_Some _ _ _ Hi).
    rewrite insert_take_drop, map_app, concat_app by done. cbn [map concat]. solve_Permutation. }
  split; [|done]. rewrite <-(Hgen s). unfold ri_set_shard, raw_blocks. cbn. by rewrite list_insert_id.
Qed.

Lemma raw_ok_set self i s s' : raw_ok self -> ri_shards self !! i = Some s -> Forall (raw_block good) (rs_ibs s') -> raw_ok (ri_set_shard self i s').
Proof.
  intros [Hb Hs] Hi Hs'. destruct (raw_blocks_at self i s Hi) as (rest & Hp & Hq). split.
  - rewrite Hq. rewrite Hp in Hb. apply Forall_app in Hb as [_ Hb]. by apply Forall_app.
  - unfold ri_set_shard. cbn. intros H. apply Hs. apply nil_length_inv. by rewrite <-(length_insert (ri_shards self) i s'), H.
Qed.

Lemma blocks_items_perm l l' : l ≡ₚ l' -> blocks_items l ≡ₚ blocks_items l'.
Proof. intros H. unfold blocks_items. by rewrite H. Qed.

Lemma add_to_shard_ok {E} max_blocks now self items tl : raw_ok self -> Forall (addable good) items ->
  exists self' n flush tl', add_items_to_shard (E := E) max_blocks now self items tl = Ok (self', n, flush, tl') /\ (n <= length items)%nat /\
    raw_ok self' /\ Forall (raw_block good) flush /\ (flush = [] -> n = length items) /\
    blocks_items (raw_blocks self') ++ blocks_items flush ≡ₚ blocks_items (raw_blocks self) ++ filter fits (take n items).
Proof.
  intros [Hb Hs] Hit. unfold add_items_to_shard. cbn [ri_shards]. destruct (Nat.eqb_spec (length (ri_shards self)) 0) as [Hz|Hz]; [by destruct (ri_shards self)|].
  cbn [negb assert_]. rewrite bind_Ok. set (i := Z.to_nat _).
  assert (Hi : (i < length (ri_shards self))%nat) by (unfold i; pose proof (Z.mod_pos_bound (ri_shard_idx self) (Z.of_nat (length (ri_shards self)))); lia).
  destruct (lookup_lt_is_Some_2 _ _ Hi) as [s Hsi]. rewrite (idx_Some _ _ _ Hsi), bind_Ok.
  set (self1 := mkShards _ _ _ _). destruct (raw_blocks_at self1 i s Hsi) as (rest & Hp & Hq).
  change (raw_blocks self1) with (raw_blocks self) in Hp.
  destruct (shard_add_ok (E := E) max_blocks now s items tl Hit) as (s' & n & fl & tl' & -> & Hn & Hr & Hrf & Hall & Heq).
  { rewrite Hp in Hb. by apply Forall_app in Hb as [? _]. }
  rewrite bind_Ok. eexists _, n, fl, tl'. split_and!; [done|done| |done|done|].
  - eapply (raw_ok_set self1); [by split|exact Hsi|done].
  - rewrite (blocks_items_perm _ _ (Hq s')), (blocks_items_perm _ _ Hp), !blocks_items_app. rewrite blocks_items_app in Heq.
    rewrite <-!app_assoc, (Permutation_app_comm (blocks_items rest)), app_assoc, Heq. solve_Permutation.
Qed.

Lemma add_ibs_ok max_blocks cpus now self ibs self' merge : raw_ok self -> Forall (raw_block good) ibs ->
  add_ibs_to_flush max_blocks cpus now self ibs = (self', merge) ->
  raw_ok self' /\ Forall (raw_block good) merge /\ raw_blocks self' ++ merge ≡ₚ raw_blocks self ++ ibs.
Proof.
  intros [Hb Hs] Hi. unfold add_ibs_to_flush. destruct ibs as [|b ibs]; [intros [= <- <-]; by split|]. set (bs := b :: ibs) in *.
  unfold raw_blocks in *. apply Forall_app in Hb as [Hb1 Hb2]. destruct (_ <=? _)%nat; intros [= <- <-]; cbn [ri_ibs_to_flush ri_shards] in *.
  - split_and!; [by split|by apply Forall_app|]. solve_Permutation.
  - split_and!; [split; [|done]|done|solve_Permutation]. unfold raw_blocks. cbn [ri_ibs_to_flush ri_shards]. apply Forall_app. split; [by apply Forall_app|done].
Qed.

Lemma take_pending_ok self now fin self' out : raw_ok self -> take_pending self now fin = (self', out) ->
  raw_ok self' /\ Forall (raw_block good) out /\ raw_blocks self' ++ out ≡ₚ raw_blocks self /\ ri_shards self' = ri_shards self /\
  (fin = true -> ri_ibs_to_flush self' = []).
Proof.
  intros [Hb Hs]. unfold take_pending. unfold raw_blocks in *. apply Forall_app in Hb as [Hb1 Hb2]. destruct (fin || _) eqn:Hf; intros [= <- <-].
  - split_and!; [by split|done| |done|done]. cbn [ri_ibs_to_flush ri_shards]. solve_Permutation.
  - split_and!; [split; [by apply Forall_app|done]|done|by rewrite app_nil_r|done|]. by intros ->.
Qed.

Lemma take_shard_ok {E} self i dst now fin : raw_ok self -> (i < length (ri_shards self))%nat -> Forall (raw_block good) dst ->
  exists self' dst', take_shard (E := E) self i dst now fin = Ok (self', dst') /\ raw_ok self' /\ Forall (raw_block good) dst' /\
    raw_blocks self' ++ dst' ≡ₚ raw_blocks self ++ dst /\ ri_ibs_to_flush self' = ri_ibs_to_flush self /\
    exists s', ri_shards self' = <[i := s']> (ri_shards self) /\ (fin = true -> rs_ibs s' = []).
Proof.
  intros Hok Hi Hd. destruct (lookup_lt_is_Some_2 _ _ Hi) as [s Hsi]. unfold take_shard. rewrite (idx_Some _ _ _ Hsi), bind_Ok.
  destruct (raw_blocks_at self i s Hsi) as (rest & Hp & Hq). pose proof (ro_blocks _ Hok) as Hb. rewrite Hp in Hb. apply Forall_app in Hb as [Hb _].
  unfold append_blocks_to_flush. destruct (negb fin && _) eqn:Hf; (eexists _, _; split; [done|]).
  - split_and!; [by eapply raw_ok_set|done|by rewrite Hq, Hp|done|]. exists s. split; [done|]. intros ->. done.
  - split_and!; [eapply raw_ok_set; [done|exact Hsi|constructor]|by apply Forall_app| |done|by eexists].
    rewrite Hq, Hp. cbn [rs_ibs app]. solve_Permutation.
Qed.
End RawSpec.
