(* ===== verification/PartWrite.v ===== *)
(** * What a part written by the table holds

    Every part of a merge set table is the writer's output for some blocks: the
    parts made from one block by [InmemoryPart::init] and the results of merges
    of parts and blocks.  [stored] is the shared notion, which the readers, the
    merge and the search build on. *)
From Stdlib Require Import ZArith Lia Bool Sorted Permutation.
From S2P Require Import Prelude Heap IntCodec Float64 Compress ItemBlock ItemBlockSpec ItemHeader ItemStream ItemMerge ItemMergeSpec ItemPartMerge RawItems.
Local Open Scope Z_scope.

(** The part [mp] is what the writer makes of blocks with the items [xs]. *)
Definition stored `{Zs : Zstd} (good : list Z -> Prop) (mp : InmemoryPart) (xs : list (list Z)) : Prop :=
  exists lvl bs, part_blocks bs /\ part_of (E := out_of_fuel) lvl bs = Ok mp /\ concat (map block_items bs) = xs /\ Forall (item_ok good) xs.

(** ** One block *)

Section Init.
  Context `{Zs : Zstd} {Zl : ZstdLaws Zs}.

Lemma sort_items_sorted {E} b : wf_ib b -> sorted_items (block_items b) -> sort_items (E := E) b = update_common_prefix_sorted b.
Proof.
  intros Hw Hs. unfold sort_items. destruct (is_sorted_items (E := E) b Hw) as (s & -> & Hiff). rewrite bind_Ok.
  apply Hiff, Is_true_true in Hs as ->. done.
Qed.

(** The part made directly from a sorted block is the one the writer makes. *)
Lemma init_part_of {E} b : wf_ib b -> storable (block_items b) ->
  exists mp b', inmemory_part_init (E := E) b = Ok (mp, b') /\ part_of (E := E) (-5) [b] = Ok mp.
Proof.
  intros Hw Hst. destruct (write_data_ok (E := E) (new_inmemory_part (-5)) b [] [] Hw Hst) as (e & b1 & He & Hei & Hbi & _ & Hwd); try done.
  unfold part_of, inmemory_part_init. cbn [write_blocks]. unfold write_block. rewrite Hwd, bind_Ok.
  unfold write_block_data, marshal_sorted_data in Hwd. unfold marshal_unsorted_data. rewrite sort_items_sorted by (done || apply Hst).
  destruct (update_sorted_spec (E := E) b Hw (sto_sorted _ Hst)) as (cp & Hup & _). rewrite Hup, bind_Ok in *.
  destruct (ib_marshal_data _ [] [] _) as [[[[[sb first] cp'] count] mt]| |] eqn:Hm; [|done..]. rewrite !bind_Ok in *. cbn [w_compress_level new_inmemory_part] in Hm.
  cbv beta zeta. rewrite ?Hm, ?bind_Ok. cbn [new_inmemory_part w_items w_lens must_write w_compress_level] in Hwd. rewrite !bind_Ok in Hwd. injection Hwd as Hbh Hs1 Hs2 Hb1.
  destruct (nonempty_ends (block_items b) (sto_nonempty _ Hst)) as [Hh Hl].
  destruct (block_ends b _ _ Hw Hh Hl) as (it0 & itn & Hi0 & Hin & Hends). cbn [ib_items ib_data]. rewrite (idx_Some _ _ _ Hi0), bind_Ok, (proj1 (Hends E)), bind_Ok.
  rewrite (idx_Some _ _ _ Hin), bind_Ok, (proj2 (Hends E)), bind_Ok. rewrite Hbh.
  pose proof (header_bound e He) as Hbound. rewrite (proj2 (Z.leb_le _ _)) by (unfold MAX_INDEX_BLOCK_SIZE in *; lia). cbn [assert_]. rewrite bind_Ok.
  unfold write_block_header. cbn [w_unpacked_index_block_buf w_mr w_mr_first_item_caught].
  assert (Hfl : forall w : BlockStreamWriter, w_unpacked_index_block_buf w = [] -> flush_index_data (E := E) w = Ok w)
    by (intros w Hb; unfold flush_index_data; by rewrite Hb).
  match goal with |- context [if ?c then flush_index_data ?w else Ok ?w] => assert (Hif : (if c then flush_index_data (E := E) w else Ok w) = Ok w) by (destruct c; [by apply Hfl|done]) end.
  rewrite Hif, bind_Ok. clear Hif Hfl. cbn [w_unpacked_index_block_buf w_mr w_mr_first_item_caught w_compress_level w_metaindex w_index w_items w_lens w_unpacked_metaindex_buf w_items_block_offset w_lens_block_offset w_index_block_offset new_inmemory_part].
  rewrite !bind_Ok. unfold writer_must_close, flush_index_data.
  cbn [w_unpacked_index_block_buf w_mr w_mr_first_item_caught w_compress_level w_metaindex w_index w_items w_lens w_unpacked_metaindex_buf w_items_block_offset w_lens_block_offset w_index_block_offset].
  pose proof (bh_marshal_nonempty (e_bh e)). destruct (Nat.eqb_spec (length (bh_marshal (e_bh e) [])) 0) as [?|_]; [lia|].
  cbn [must_write]. rewrite !bind_Ok. cbn [w_unpacked_index_block_buf w_compress_level w_metaindex w_index w_items w_lens w_unpacked_metaindex_buf must_write].
  rewrite !bind_Ok. cbn [stream_close]. rewrite !bind_Ok. eexists _, _. split; [done|]. rewrite <-Hs1, <-Hs2, <-Hbh. cbn [app from_buffers first_item].
  do 2 f_equal. unfold part_header. cbn [map concat length]. rewrite app_nil_r, length_block_items. done.
Qed.

(** A reader over a block, turned into a part. *)
Lemma init_stored good b : wf_ib b -> storable (block_items b) -> Forall (item_ok good) (block_items b) ->
  exists mp b', inmemory_part_init (E := out_of_fuel) b = Ok (mp, b') /\ stored good mp (block_items b).
Proof.
  intros Hw Hst Hok. destruct (init_part_of (E := out_of_fuel) b Hw Hst) as (mp & b' & Hi & Hp). exists mp, b'. split; [done|].
  exists (-5), [b]. cbn [map concat]. rewrite app_nil_r. split_and!; try done. split; cbn [map concat]; rewrite ?app_nil_r; try done; [by constructor..|apply Hst|].
  revert Hok. apply Forall_weaken. intros x. apply io_nonempty.
Qed.
End Init.

(** Streams yield no empty blocks. *)
Lemma yields_nonempty {S X : Type} `{Src : ItemSource S X} (s : S) xss : yields s xss -> Forall (fun xs => xs <> []) xss.
Proof. induction 1 as [|s s' xs xss _ _ _ _ Hne _ _ IH]; constructor; [done|exact (IH 0%nat)]. Qed.

Lemma merge_blocks_nonempty {S X : Type} `{Src : ItemSource S X} (bsrs : list S) xsss xs :
  Forall2 yields bsrs xsss -> In xs (concat xsss) -> xs <> [].
Proof.
  intros Hy (xss & Hxss & Hin)%in_concat. apply list_elem_of_In, list_elem_of_lookup in Hxss as [i Hi].
  destruct (Forall2_lookup_r _ _ _ _ _ Hy Hi) as (s & _ & Hs). apply yields_nonempty in Hs. by apply (proj1 (Forall_In _ _) Hs).
Qed.

(** ** What a merge preserves

    The callback of a table may rewrite blocks, so a merge keeps the items up
    to a relation of the client: [Permutation] when there is no callback, the
    same postings for the index. *)
Class SameItems (same : relation (list (list Z))) : Prop := {
  same_equiv : Equivalence same;
  same_perm l l' : Permutation l l' -> same l l';
  same_app l1 l1' l2 l2' : same l1 l1' -> same l2 l2' -> same (l1 ++ l2) (l1' ++ l2');
}.
#[export] Existing Instance same_equiv.

#[export] Instance same_app_proper `{SameItems same} : Proper (same ==> same ==> same) (@app (list Z)).
Proof. intros l1 l1' H1 l2 l2' H2. by apply same_app. Qed.

#[export] Instance same_perm_sub `{SameItems same} : subrelation (@Permutation (list Z)) same.
Proof. intros l l'. apply same_perm. Qed.

#[export] Instance permutation_same : SameItems (@Permutation (list Z)).
Proof. split; [apply _|done|]. intros l1 l1' l2 l2' -> ->. done. Qed.

(** What a table relies on in its callback, on blocks of good items. *)
Record callback_ok (good : list Z -> Prop) (same : relation (list (list Z))) (prepare_block : option PrepareBlockCallback)
    (f : list (list Z) -> list (list Z)) : Prop := {
  cb_prepares : prepares good prepare_block f;
  cb_keeps xs : chunk_ok good xs -> f xs <> [];
  cb_items xs : chunk_ok good xs -> Forall (item_ok good) xs -> Forall (item_ok good) (f xs);
  cb_count xs : chunk_ok good xs -> (length (f xs) <= length xs)%nat;
  cb_same xs : chunk_ok good xs -> same (f xs) xs;
}.

Lemma no_callback_ok good : callback_ok good (@Permutation (list Z)) None (fun xs => xs).
Proof. split; try done. intros xs Hxs. apply Hxs. Qed.

(** [xs] after some merges: the same items, in no more rows. *)
Record shrunk (same : relation (list (list Z))) (xs ys : list (list Z)) : Prop := {
  sk_same : same ys xs;
  sk_count : (length ys <= length xs)%nat;
}.

Section Shrunk.
  Context `{SameItems same}.

#[export] Instance shrunk_preorder : PreOrder (shrunk same).
Proof. split; [by split|]. intros x y z [H1 H2] [H3 H4]. split; [by rewrite H3|lia]. Qed.

Lemma shrunk_perm xs ys : Permutation xs ys -> shrunk same xs ys.
Proof. intros Hp. split; [by rewrite Hp|by rewrite Hp]. Qed.

Lemma shrunk_app xs ys xs' ys' : shrunk same xs ys -> shrunk same xs' ys' -> shrunk same (xs ++ xs') (ys ++ ys').
Proof. intros [H1 H2] [H3 H4]. split; [by rewrite H1, H3|rewrite !length_app; lia]. Qed.
End Shrunk.

(** ** Merges write parts *)

Section Merged.
  Context `{Zs : Zstd} {Zl : ZstdLaws Zs}.

(** The writer has taken the blocks, from the start. *)
Definition wrote (lvl : Z) (w : BlockStreamWriter) (xss : list (list (list Z))) : Prop :=
  exists bs, write_blocks (E := out_of_fuel) (new_inmemory_part lvl) bs = Ok w /\ Forall wf_ib bs /\ map block_items bs = xss /\ Forall storable xss.

Lemma write_blocks_snoc {E} bs b : forall w w', write_blocks (E := E) w bs = Ok w' ->
  write_blocks (E := E) w (bs ++ [b]) = ('(w, _) ← write_block w' b; Ok w).
Proof.
  induction bs as [|b0 bs IH]; intros w w'; cbn [write_blocks app]; [by intros [= ->]|].
  destruct (write_block w b0) as [[w1 ?]| |]; [|done..]. rewrite !bind_Ok. apply IH.
Qed.

#[export] Instance wrote_sink_laws lvl : ItemSinkLaws writer_sink (wrote lvl).
Proof.
  split. intros w xss b (bs & Hwr & Hw & <- & Hst) Hb Hsb.
  destruct (write_blocks_written (E := out_of_fuel) bs _ [] [] (new_written lvl) Hw Hst) as (w0 & gs & cur & Hwr' & H & _). rewrite Hwr in Hwr'. injection Hwr' as <-.
  destruct (write_block_written (E := out_of_fuel) w gs cur b H Hb Hsb) as (w' & b' & gs' & cur' & e & Hwb & _).
  exists w'. cbn. rewrite Hwb, bind_Ok. split; [done|]. exists (bs ++ [b]). rewrite (write_blocks_snoc _ _ _ _ Hwr), Hwb, bind_Ok, map_app.
  split_and!; [done| |done|]; apply Forall_app; (split; [done|by constructor]).
Qed.

Lemma wrote_new lvl : wrote lvl (new_inmemory_part lvl) [].
Proof. exists []. by split_and!. Qed.

(** A writer can always be closed, also when a merge was stopped. *)
Lemma wrote_close lvl w xss : wrote lvl w xss -> exists bufs, writer_must_close (E := out_of_fuel) w = Ok bufs.
Proof.
  intros (bs & Hwr & Hw & Hx & Hst).
  destruct (write_blocks_written (E := out_of_fuel) bs _ [] [] (new_written lvl) Hw ltac:(by rewrite Hx)) as (w0 & gs & cur & Hwr' & H & Hi & _). rewrite Hwr in Hwr'. injection Hwr' as <-.
  destruct (decide (concat gs ++ cur = [])) as [Hnil|Hne].
  - destruct bs as [|b bs]; [|rewrite Hnil in Hi; cbn in Hi; congruence]. cbn in Hwr. injection Hwr as <-. unfold writer_must_close, flush_index_data. cbn. by eexists.
  - destruct (close_written (E := out_of_fuel) w gs cur H Hne) as (? & ? & _ & _ & _ & _ & _ & ->). by eexists.
Qed.

Section Callback.
  Context (good : list Z -> Prop) `{SameItems same} (prepare_block : option PrepareBlockCallback) (f : list (list Z) -> list (list Z)).
  Context (Hcb : callback_ok good same prepare_block f).

Lemma chunks_shrunk chunks : Forall (chunk_ok good) chunks -> shrunk same (concat chunks) (concat (map f chunks)).
Proof.
  induction 1 as [|xs chunks Hx _ IH]; [done|]. cbn [map concat]. apply shrunk_app; [|done]. split; [by apply (cb_same _ _ _ _ Hcb)|by apply (cb_count _ _ _ _ Hcb)].
Qed.

Lemma chunks_items chunks : Forall (chunk_ok good) chunks -> Forall (item_ok good) (concat chunks) -> Forall (item_ok good) (concat (map f chunks)).
Proof.
  induction 1 as [|xs chunks Hx _ IH]; [done|]. cbn [map concat]. intros [H1 H2]%Forall_app. apply Forall_app. split; [by apply (cb_items _ _ _ _ Hcb)|by apply IH].
Qed.

(** A merge of streams of good items ends, without error unless it is stopped,
    and writes a part with the same items. *)
Lemma merge_stored lvl stop bsrs xsss n :
  merge_inputs good bsrs xsss -> (length (concat (concat xsss)) <= n)%nat ->
  exists ph m r, merge_block_streams (n + 1) (2 * n + 1) stop prepare_block PartHeader_default (new_inmemory_part lvl) bsrs 0 = Ok (ph, m, r) /\
    ((forall k, stop k = false) -> exists bufs, r = inl bufs) /\
    match r with
    | inl bufs => exists ys, stored good (from_buffers ph bufs) ys /\ shrunk same (concat (concat xsss)) ys
    | inr e => e = ForciblyStopped
    end.
Proof.
  intros Hin Hn.
  destruct (merge_items_any (accepts := wrote lvl) good prepare_block f (n + 1) (2 * n + 1) stop (new_inmemory_part lvl) bsrs xsss
    (cb_prepares _ _ _ _ Hcb) Hin (wrote_new lvl)) as (w & ph & m & err & chunks & Hrun & Hacc & Hck & Hns & Hend); [lia|lia|].
  destruct (wrote_close _ _ _ Hacc) as [bufs Hclose]. unfold merge_block_streams. rewrite Hrun, bind_Ok, Hclose, bind_Ok.
  eexists _, _, _. split; [done|]. split; [intros Hst; rewrite (Hns Hst); by eexists|]. destruct Hend as [(-> & -> & _ & [_ Hs Hp])| ->]; [|done].
  assert (Hok : Forall (item_ok good) (concat chunks)) by (rewrite Hp; apply Hin).
  exists (concat (map f chunks)). split; [|etransitivity; [apply shrunk_perm; symmetry; exact Hp|by apply chunks_shrunk]].
  rewrite (outputs_keep good f (cb_keeps _ _ _ _ Hcb) chunks Hck) in *. destruct Hacc as (bs & Hwr & Hw & Hbi & Hst).
  pose proof (chunks_items chunks Hck Hok) as Hfok.
  exists lvl, bs. rewrite Hbi. split_and!; [|by unfold part_of; rewrite Hwr, bind_Ok, Hclose, bind_Ok, Hbi|done|done].
  split; rewrite ?Hbi; try done.
  - intros ->. symmetry in Hbi. apply map_eq_nil in Hbi as ->. cbn in Hp. apply Permutation_nil in Hp. pose proof (mi_nonempty _ _ _ Hin) as Hne.
    destruct (concat xsss) as [|xs l] eqn:Hc; [done|]. assert (Hxs : xs <> []); [|cbn in Hp; by destruct xs].
    apply (merge_blocks_nonempty bsrs xsss xs); [apply Hin|rewrite Hc; by left].
  - by apply (prepared_sorted good prepare_block f (cb_prepares _ _ _ _ Hcb) (cb_keeps _ _ _ _ Hcb)).
  - revert Hfok. apply Forall_weaken. intros x. apply io_nonempty.
Qed.
End Callback.
End Merged.

(** ** Reading stored parts *)

Section StoredReaders.
  Context `{Zs : Zstd} {Zl : ZstdLaws Zs} (good : list Z -> Prop).

Lemma part_header_counts bs : part_blocks bs ->
  let ph := part_header (map block_items bs) in
  bytes (ph_first_item ph) /\ bytes (ph_last_item ph) /\ 0 < ph_blocks_count ph <= ph_items_count ph /\
  ph_items_count ph = Z.of_nat (length (concat (map block_items bs))).
Proof.
  intros [Hne Hw Hst Hs Hi]. cbn [ph_first_item ph_last_item ph_blocks_count ph_items_count part_header].
  assert (Hby : Forall bytes (concat (map block_items bs))).
  { clear -Hst. induction Hst as [|xs xss Hx _ IH]; cbn [concat]; [constructor|]. apply Forall_app. split; [apply Hx|done]. }
  assert (Hlen : (length (map block_items bs) <= length (concat (map block_items bs)))%nat).
  { clear -Hst. induction Hst as [|xs xss Hx _ IH]; cbn [concat length]; [done|]. rewrite length_app. pose proof (sto_nonempty _ Hx). destruct xs; [done|cbn; lia]. }
  assert (Hpos : (0 < length (map block_items bs))%nat) by (rewrite length_map; destruct bs; [done|cbn; lia]).
  assert (Hcat : concat (map block_items bs) <> []) by (intros H0; rewrite H0 in Hlen; cbn in Hlen; lia).
  destruct (nonempty_ends _ Hcat) as [Hh Hl]. rewrite Forall_forall in Hby. split_and!; [| |lia|lia|done].
  - apply Hby. by apply head_Some_elem_of.
  - apply Hby. by apply last_Some_elem_of.
Qed.

(** The reader at the start of a part. *)
Definition part_reader (mp : InmemoryPart) (mrs : list MetaindexRow) : BlockStreamReader :=
  mkReader ib_default false 0 (mp_ph mp) mrs 0 [] 0 (RMem (mp_index_data mp) 0) (RMem (mp_items_data mp) 0) (RMem (mp_lens_data mp) 0) 0 0 false None.

Record readable (mp : InmemoryPart) (xs : list (list Z)) (mrs : list MetaindexRow) (xss : list (list (list Z))) : Prop := {
  rb_rows : unmarshal_metaindex_rows (mp_metaindex_data mp) = Ok mrs;
  rb_reader : from_inmemory_part (E := out_of_fuel) mp = Ok (part_reader mp mrs);
  rb_yields : yields (part_reader mp mrs) xss;
  rb_items : concat xss = xs;
  rb_nonempty : xss <> [];
  rb_sorted : sorted_items xs;
  rb_count : ph_items_count (mp_ph mp) = Z.of_nat (length xs);
  rb_blocks : 0 < ph_blocks_count (mp_ph mp) <= ph_items_count (mp_ph mp);
  rb_ends : bytes (ph_first_item (mp_ph mp)) /\ bytes (ph_last_item (mp_ph mp));
}.

Lemma stored_readable mp xs : stored good mp xs -> Z.of_nat (length xs) < 2 ^ 64 -> exists mrs xss, readable mp xs mrs xss.
Proof.
  intros (lvl & bs & Hbs & Hp & <- & Hok) Hn. destruct (part_of_yields (E := out_of_fuel) lvl bs Hbs Hn) as (mp' & r & Hp' & Hr & Hy).
  rewrite Hp in Hp'. injection Hp' as <-.
  assert (Hph : mp_ph mp = part_header (map block_items bs)).
  { unfold part_of in Hp. destruct (write_blocks _ bs) as [w| |]; [|done..]. rewrite bind_Ok in Hp.
    destruct (writer_must_close w) as [[[[m i] it] l]| |]; [|done..]. rewrite bind_Ok in Hp. by injection Hp as <-. }
  destruct (part_header_counts bs Hbs) as (H1 & H2 & H3 & H4). rewrite <-Hph in *.
  unfold from_inmemory_part in Hr. destruct (unmarshal_metaindex_rows (mp_metaindex_data mp)) as [mrs| |] eqn:Hm; [|done..]. rewrite bind_Ok in Hr.
  assert (Hr' : r = part_reader mp mrs).
  { apply bind_ok in Hr as (? & _ & Hr). apply bind_ok in Hr as (? & _ & Hr). injection Hr as <-. unfold part_reader. by destruct (mp_ph mp). }
  subst r. exists mrs, (map block_items bs). split; try done.
  - unfold from_inmemory_part. rewrite Hm, bind_Ok. exact Hr.
  - pose proof (pb_nonempty _ Hbs). by destruct bs.
  - apply Hbs.
Qed.

Lemma stored_items mp xs : stored good mp xs -> Forall (item_ok good) xs /\ xs <> [].
Proof.
  intros (lvl & bs & Hbs & _ & <- & Hok). split; [done|]. destruct Hbs as [Hne _ Hst _ _]. destruct bs as [|b bs]; [done|]. cbn.
  apply Forall_cons in Hst as [Hb _]. pose proof (sto_nonempty _ Hb). by destruct (block_items b).
Qed.

(** Streams that can be merged: what each yields, by its items. *)
Definition streams (bsrs : list BlockStreamReader) (xss : list (list (list Z))) : Prop :=
  exists xsss, Forall2 yields bsrs xsss /\ map (@concat (list Z)) xsss = xss /\ Forall (fun l => l <> []) xsss /\ Forall sorted_items xss.

Lemma streams_inputs bsrs xss : streams bsrs xss -> xss <> [] -> Forall (item_ok good) (concat xss) -> Z.of_nat (length (concat xss)) < 2 ^ 46 ->
  exists xsss, merge_inputs good bsrs xsss /\ concat (concat xsss) = concat xss.
Proof.
  intros (xsss & Hy & <- & Hne & Hs) Hx Hok Hn. assert (Hcc : concat (concat xsss) = concat (map (@concat (list Z)) xsss)).
  { clear. induction xsss as [|l xsss IH]; [done|]. cbn [concat map]. by rewrite concat_app, IH. }
  exists xsss. split; [|done]. split; rewrite ?Hcc; try done.
  - by rewrite Forall_fmap in Hs.
  - destruct xsss as [|l xsss]; [done|]. apply Forall_cons in Hne as [Hl _]. cbn. by destruct l.
Qed.

Lemma streams_nil : streams [] [].
Proof. exists []. by split_and!. Qed.

Lemma streams_cons r xss0 bsrs xss : yields r xss0 -> xss0 <> [] -> sorted_items (concat xss0) -> streams bsrs xss -> streams (r :: bsrs) (concat xss0 :: xss).
Proof. intros Hy Hne Hs (xsss & H1 & <- & H3 & H4). exists (xss0 :: xsss). split_and!; by constructor. Qed.

(** The part made from a reader over a block, and the reader itself. *)
Lemma raw_block_stream b : raw_block good b -> ib_items b <> [] ->
  exists r xs, from_inmemory_block (E := out_of_fuel) b = Ok r /\ yields r [xs] /\ sorted_items xs /\ Permutation xs (block_items b) /\
    length (ib_items (r_block r)) = length (block_items b) /\ r_ph r = PartHeader_default /\
    wf_ib (r_block r) /\ block_items (r_block r) = xs /\ storable xs /\ Forall (item_ok good) xs.
Proof.
  intros (xs0 & -> & Hok & Ht) Hne. assert (Hw : wf_ib (pack [] xs0)) by (apply pack_wf; unfold MAX_INMEMORY_BLOCK_SIZE in *; lia).
  destruct (inmemory_block_yields (E := out_of_fuel) (pack [] xs0) Hw Hne) as (r & xs & Hr & Hy & Hs & Hp). exists r, xs. rewrite pack_items in *.
  pose proof Hr as Hr'. unfold from_inmemory_block in Hr'. destruct (sort_items_ok (E := out_of_fuel) (ib_copy_from ib_default (pack [] xs0)) Hw) as (b' & Hb' & Hw' & _ & Hpi & _).
  rewrite Hb', bind_Ok in Hr'. injection Hr' as Hr'. assert (Hrb : r_block r = b') by (by subst r). rewrite Hrb.
  assert (Hbi : block_items b' = xs).
  { inversion Hy as [|s0 s' ys yss Hn He Hwf Hbi Hyn H0 Hyf]; subst s0 ys yss. unfold src_next in Hn. cbn in Hn. rewrite <-Hr' in Hn. cbn in Hn. injection Hn as <-. rewrite <-Hbi. done. }
  assert (Hok' : Forall (item_ok good) xs) by (by rewrite Hp).
  split_and!; try done.
  - rewrite <-length_block_items, Hbi. by rewrite (Permutation_length Hp).
  - by subst r.
  - apply (items_chunk good xs); try done.
    + intros ->. apply Permutation_nil in Hp as ->. done.
    + by rewrite Hp.
Qed.
End StoredReaders.
