(* ===== verification/PartDisk.v ===== *)
(** * Parts on disk

    Model of the directories of a merge set table: the five files of a part
    ([esm-mergeset/src/inmemory_part.rs], [part.rs], [part_header.rs] and the
    file variant of [block_stream_reader.rs]), the list of parts in
    [parts.json] and the recovery at start ([table_parts.rs]).

    A directory is the contents of its files.  The JSON files hold the values
    that are serialised to them; the text is the work of a library.  Reading a
    file that is missing panics, as the code does. *)
From Stdlib Require Import ZArith Lia Bool String Ascii.
From stdpp Require Import gmap.
From S2P Require Import Prelude IntCodec Float64 Compress ItemBlock ItemHeader ItemStream BlockCache SearchBase ItemSearch PartSelect.
Local Open Scope Z_scope.

(** The bytes of a string literal. *)
Definition str (s : string) : list Z := map (fun c => Z.of_nat (nat_of_ascii c)) (list_ascii_of_string s).

(** ** Hexadecimal strings *)

Definition HEX : list Z := str "0123456789abcdef".

Fixpoint hex_encode (b : list Z) : list Z :=
  match b with
  | [] => []
  | x :: b => default 0 (HEX !! Z.to_nat (Z.shiftr x 4)) :: default 0 (HEX !! Z.to_nat (Z.land x 0x0f)) :: hex_encode b
  end.

Inductive hex_error : Type :=
| OddLengthHex (n : nat)
| InvalidHexChar (c : Z).

Definition nibble (c : Z) : res hex_error Z :=
  if (48 <=? c) && (c <=? 57) then Ok (c - 48)
  else if (97 <=? c) && (c <=? 102) then Ok (c - 97 + 10)
  else if (65 <=? c) && (c <=? 70) then Ok (c - 65 + 10)
  else Err (InvalidHexChar c).

Fixpoint hex_pairs (s : list Z) : res hex_error (list Z) :=
  match s with
  | a :: b :: s =>
      hi ← nibble a;
      lo ← nibble b;
      rest ← hex_pairs s;
      Ok (Z.lor (as_u8 (Z.shiftl hi 4)) lo :: rest)
  | _ => Ok []
  end.

Definition hex_decode (s : list Z) : res hex_error (list Z) :=
  _ ← guard_ (negb (length s mod 2 =? 0)%nat) (OddLengthHex (length s));
  hex_pairs s.

(** ** Metadata *)

Record PartHeaderJson : Type := mkPartHeaderJson {
  phj_items_count : Z;
  phj_blocks_count : Z;
  phj_first_item : list Z;
  phj_last_item : list Z;
}.

Definition metadata_of (ph : PartHeader) : PartHeaderJson :=
  mkPartHeaderJson (ph_items_count ph) (ph_blocks_count ph) (hex_encode (ph_first_item ph)) (hex_encode (ph_last_item ph)).

Definition must_read_metadata {E} (phj : PartHeaderJson) : res E PartHeader :=
  _ ← assert_ (phj_items_count phj >? 0);
  _ ← assert_ (phj_blocks_count phj >? 0);
  _ ← assert_ (phj_blocks_count phj <=? phj_items_count phj);
  first ← match hex_decode (phj_first_item phj) with Ok b => Ok b | _ => Panic end;
  last ← match hex_decode (phj_last_item phj) with Ok b => Ok b | _ => Panic end;
  Ok (mkPartHeader (phj_items_count phj) (phj_blocks_count phj) first last).

(** ** Directories *)

(** The directory of a part, or what a merge that was stopped leaves behind:
    some of the files, without the metadata. *)
Inductive PartDir : Type :=
| mkDir (metaindex index items lens : list Z) (metadata : PartHeaderJson)
| PartialDir.

Record Disk : Type := mkDisk {
  d_dirs : gmap (list Z) PartDir;
  d_parts : option (list (list Z));
}.

Definition set_dirs (d : Disk) (dirs : gmap (list Z) PartDir) : Disk := mkDisk dirs (d_parts d).

(** [must_mkdir_fail_if_exist], with the contents of the directory once it is
    complete. *)
Definition must_create_dir {E} (d : Disk) (name : list Z) (dir : PartDir) : res E Disk :=
  _ ← assert_ (bool_decide (d_dirs d !! name = None));
  Ok (set_dirs d (<[name := dir]> (d_dirs d))).

(** [InmemoryPart::must_store_to_disk]; a merge to a file part writes the same
    files through [BlockStreamWriter::new_file_part] and [must_write_metadata]. *)
Definition must_store_to_disk {E} (mp : InmemoryPart) (d : Disk) (name : list Z) : res E Disk :=
  must_create_dir d name
    (mkDir (mp_metaindex_data mp) (mp_index_data mp) (mp_items_data mp) (mp_lens_data mp) (metadata_of (mp_ph mp))).

Section Files.
  Context {Zs : Zstd}.

Definition from_file_part {E} (d : Disk) (name : list Z) : res E BlockStreamReader :=
  match d_dirs d !! name with
  | Some (mkDir metaindex index items lens metadata) =>
      ph ← must_read_metadata metadata;
      mrs ← match unmarshal_metaindex_rows metaindex with Ok mrs => Ok mrs | _ => Panic end;
      Ok (mkReader ib_default false 0 ph mrs 0 [] 0 (RMem index 0) (RMem items 0) (RMem lens 0) 0 0 false None)
  | _ => Panic
  end.

Definition must_open_file_part {E} (next_id : Z) (d : Disk) (name : list Z) : res E (Part * Z) :=
  match d_dirs d !! name with
  | Some (mkDir metaindex index items lens metadata) =>
      ph ← must_read_metadata metadata;
      let size := sum_u64 (map (fun b => Z.of_nat (length b)) [metaindex; index; items; lens]) in
      part_new next_id ph name size metaindex (PfFile index) (PfFile items) (PfFile lens)
  | _ => Panic
  end.
End Files.

(** The name of the part with the merge index [n], [{n:016X}]. *)
Definition hex_digit (x : Z) : Z := if x <? 10 then 48 + x else 65 + (x - 10).
Definition part_name (n : Z) : list Z := map (fun k => hex_digit (n / 16 ^ (15 - Z.of_nat k) mod 16)) (seq 0 16).

Definition TMP : list Z := str "tmp".
Definition TXN : list Z := str "txn".

Definition is_special_dir (name : list Z) : bool :=
  bool_decide (name ∈ [TMP; TXN; str "snapshots"; str "cache"]).

(** [must_write_part_names] replaces the file atomically. *)
Definition write_part_names (d : Disk) (names : list (list Z)) : Disk := mkDisk (d_dirs d) (Some (sort_by lex_leb names)).

Definition must_read_part_names (d : Disk) : list (list Z) :=
  match d_parts d with
  | Some names => names
  | None => filter (fun name => is_special_dir name = false) (map fst (map_to_list (d_dirs d)))
  end.

(** ** Hexadecimal round trip *)

Lemma below_16 (P : Z -> Prop) : Forall P (map Z.of_nat (seq 0 16)) -> forall x, 0 <= x < 16 -> P x.
Proof.
  rewrite Forall_In. intros H x Hx. apply H, in_map_iff. exists (Z.to_nat x). split; [lia|]. apply in_seq. lia.
Qed.

Lemma nibble_hex x : 0 <= x < 16 -> nibble (default 0 (HEX !! Z.to_nat x)) = Ok x.
Proof. revert x. apply (below_16 (fun x => nibble (default 0 (HEX !! Z.to_nat x)) = Ok x)). by repeat constructor. Qed.

Lemma hex_digit_inj x y : 0 <= x < 16 -> 0 <= y < 16 -> hex_digit x = hex_digit y -> x = y.
Proof. unfold hex_digit. intros Hx Hy. destruct (Z.ltb_spec x 10), (Z.ltb_spec y 10); lia. Qed.

Lemma length_hex_encode b : length (hex_encode b) = (2 * length b)%nat.
Proof. induction b; cbn; lia. Qed.

Lemma hex_roundtrip b : bytes b -> hex_decode (hex_encode b) = Ok b.
Proof.
  intros Hb. unfold hex_decode. rewrite length_hex_encode, Nat.mul_comm, Nat.Div0.mod_mul. cbn [Nat.eqb negb guard_]. rewrite bind_Ok.
  induction Hb as [|x b Hx Hb IH]; [done|]. cbn [hex_encode hex_pairs]. unfold is_u in Hx.
  rewrite shiftr_div, (land_ones_mod x 4) by (lia || done). change (2 ^ 4) with 16.
  rewrite !nibble_hex, !bind_Ok by dlia. rewrite IH, bind_Ok. do 2 f_equal. rewrite shiftl_mul, wrap_u_id by (unfold is_u; dlia).
  rewrite Z.lor_comm, lor_shifted by dlia. change (2 ^ 4) with 16. dlia.
Qed.

Lemma metadata_roundtrip {E} ph :
  bytes (ph_first_item ph) -> bytes (ph_last_item ph) -> 0 < ph_blocks_count ph <= ph_items_count ph ->
  must_read_metadata (E := E) (metadata_of ph) = Ok ph.
Proof.
  intros Hf Hl Hc. unfold must_read_metadata, metadata_of. cbn [phj_items_count phj_blocks_count phj_first_item phj_last_item].
  rewrite !Z.gtb_ltb, !(proj2 (Z.ltb_lt _ _)), (proj2 (Z.leb_le _ _)) by lia. cbn [assert_]. rewrite !bind_Ok, !hex_roundtrip, !bind_Ok by done. by destruct ph.
Qed.

(** ** Names of parts *)

Lemma length_part_name n : length (part_name n) = 16%nat.
Proof. done. Qed.

Lemma part_name_normal n : part_name n ∉ [[]; TMP; TXN].
Proof. intros H. repeat (apply elem_of_cons in H as [H|H]; [by apply (f_equal length) in H|]). by apply elem_of_nil in H. Qed.

(** A number is determined by its digits. *)
Lemma digits_inj k : forall a b, 0 <= a < 16 ^ Z.of_nat k -> 0 <= b < 16 ^ Z.of_nat k ->
  (forall i, (i < k)%nat -> a / 16 ^ Z.of_nat i mod 16 = b / 16 ^ Z.of_nat i mod 16) -> a = b.
Proof.
  induction k as [|k IH]; intros a b Ha Hb Hd; [cbn in *; lia|]. rewrite Nat2Z.inj_succ, Z.pow_succ_r in Ha, Hb by lia.
  assert (Hq : a / 16 = b / 16).
  { apply IH; [dlia|dlia|]. intros i Hi. specialize (Hd (S i) ltac:(lia)). rewrite Nat2Z.inj_succ, Z.pow_succ_r, <-!Z.div_div in Hd by lia. done. }
  specialize (Hd 0%nat ltac:(lia)). cbn in Hd. rewrite !Z.div_1_r in Hd. dlia.
Qed.

Lemma part_name_inj a b : is_u64 a -> is_u64 b -> part_name a = part_name b -> a = b.
Proof.
  unfold is_u. intros Ha Hb Heq. apply (digits_inj 16); [cbn; lia|cbn; lia|]. intros i Hi. apply hex_digit_inj; [dlia|dlia|].
  apply (f_equal (fun l => l !! (15 - i)%nat)) in Heq. unfold part_name in Heq. rewrite !list_lookup_fmap, !lookup_seq_lt in Heq by lia. cbn in Heq.
  injection Heq as Heq. by replace (15 - Z.of_nat (15 - i)) with (Z.of_nat i) in Heq by lia.
Qed.
