(* ===== verification/ItemTableOps.v ===== *)
(** * Tables of the merge set

    Model of [esm-mergeset/src/table.rs], [table_merge.rs] and
    [part_wrapper.rs]: the write path from added items to in-memory parts, the
    merges of parts into bigger ones and into files, and the atomic exchange of
    the merged parts for their result.

    A part wrapper is shared: the lists of the table, a running merge and the
    searches refer to one object and see its flags change.  The model keeps the
    wrappers in an arena; an [Arc] is a position in it.  What the process fixes
    is a record [Env]; the clock, the answers of the stop flag and the order in
    which scoped threads finish come with every step as a [Tick].  The counters
    for monitoring, the flush callback and the semaphores that limit the number
    of running merges, which only delay threads, are left out. *)
From Stdlib Require Import ZArith Lia Bool.
From stdpp Require Import gmap.
From S2P Require Import Prelude Float64 Compress ItemBlock ItemHeader ItemStream ItemMerge ItemPartMerge BlockCache SearchBase ItemSearch PartSelect RawItems PartDisk.
Local Open Scope Z_scope.

Definition MAX_INMEMORY_PARTS : nat := 30.
Definition MAX_PART_SIZE : Z := 400000000000.

Record PartWrapper : Type := mkPW {
  pw_p : Part;
  pw_mp : option InmemoryPart;
  pw_must_drop : bool;
  pw_is_in_merge : bool;
  pw_flush_to_disk_deadline : Z;
}.

Inductive PartType : Type := PtInmemory | PtFile.
#[export] Instance PartType_eq_dec : EqDecision PartType.
Proof. solve_decision. Defined.

Record Env : Type := mkEnv {
  env_cpus : nat;
  env_max_blocks : nat;
  env_allowed : Z;
  env_flush_interval : Z;
  env_prepare_block : option PrepareBlockCallback;
}.

Record Tick : Type := mkTick {
  tk_now_ms : Z;
  tk_now : Z;
  tk_order : list nat;
  tk_stop : nat -> bool;
}.

(** ** The state of a table *)

Record TableInner : Type := mkTI {
  ti_raw_items : RawItemsShards;
  ti_arcs : list PartWrapper;
  ti_inmemory_parts : list nat;
  ti_file_parts : list nat;
  ti_stopped : bool;
  ti_shutdown : bool;
  ti_limit : nat;
  ti_merge_idx : Z;
  ti_next_part_id : Z;
  ti_too_long : Z;
  ti_disk : Disk;
}.

Definition set_raw (st : TableInner) (r : RawItemsShards) (too_long : Z) : TableInner :=
  mkTI r (ti_arcs st) (ti_inmemory_parts st) (ti_file_parts st) (ti_stopped st) (ti_shutdown st) (ti_limit st)
    (ti_merge_idx st) (ti_next_part_id st) too_long (ti_disk st).
Definition set_arcs (st : TableInner) (arcs : list PartWrapper) (next_id : Z) : TableInner :=
  mkTI (ti_raw_items st) arcs (ti_inmemory_parts st) (ti_file_parts st) (ti_stopped st) (ti_shutdown st) (ti_limit st)
    (ti_merge_idx st) next_id (ti_too_long st) (ti_disk st).
Definition set_parts (st : TableInner) (inm fil : list nat) : TableInner :=
  mkTI (ti_raw_items st) (ti_arcs st) inm fil (ti_stopped st) (ti_shutdown st) (ti_limit st)
    (ti_merge_idx st) (ti_next_part_id st) (ti_too_long st) (ti_disk st).
Definition set_limit (st : TableInner) (n : nat) : TableInner :=
  mkTI (ti_raw_items st) (ti_arcs st) (ti_inmemory_parts st) (ti_file_parts st) (ti_stopped st) (ti_shutdown st) n
    (ti_merge_idx st) (ti_next_part_id st) (ti_too_long st) (ti_disk st).
Definition set_disk (st : TableInner) (merge_idx : Z) (d : Disk) : TableInner :=
  mkTI (ti_raw_items st) (ti_arcs st) (ti_inmemory_parts st) (ti_file_parts st) (ti_stopped st) (ti_shutdown st) (ti_limit st)
    merge_idx (ti_next_part_id st) (ti_too_long st) d.
Definition set_stop (st : TableInner) : TableInner :=
  mkTI (ti_raw_items st) (ti_arcs st) (ti_inmemory_parts st) (ti_file_parts st) true true (ti_limit st)
    (ti_merge_idx st) (ti_next_part_id st) (ti_too_long st) (ti_disk st).

Definition size_at (arcs : list PartWrapper) (a : nat) : Z :=
  match arcs !! a with Some pw => p_size (pw_p pw) | None => 0 end.

Definition pws_at {E} (arcs : list PartWrapper) (pws : list nat) : res E (list PartWrapper) := map_res (idx arcs) pws.

Definition set_is_in_merge (b : bool) (pw : PartWrapper) : PartWrapper :=
  mkPW (pw_p pw) (pw_mp pw) (pw_must_drop pw) b (pw_flush_to_disk_deadline pw).
Definition set_must_drop (pw : PartWrapper) : PartWrapper :=
  mkPW (pw_p pw) (pw_mp pw) true (pw_is_in_merge pw) (pw_flush_to_disk_deadline pw).

(** ** Sizes and deadlines *)

Definition get_max_inmemory_part_size (allowed : Z) : Z :=
  Z.max (f64_as_u64 (f64_div (f64_mul f64_0_05 (f64_of_Z allowed)) (f64_of_Z (Z.of_nat MAX_INMEMORY_PARTS)))) 1000000.

Definition get_compress_level (items_count : Z) : Z :=
  if items_count <=? 2 ^ 16 then -5
  else if items_count <=? 2 ^ 17 then -4
  else if items_count <=? 2 ^ 18 then -3
  else if items_count <=? 2 ^ 19 then -2
  else if items_count <=? 2 ^ 20 then -1
  else if items_count <=? 2 ^ 22 then 1
  else if items_count <=? 2 ^ 25 then 2
  else 3.

(** [free_space] is what the file system reports. *)
Definition get_max_file_part_size (cpus : nat) (free_space : Z) : Z :=
  Z.min (free_space / Z.of_nat (cpus `max` 4)) MAX_PART_SIZE.

Definition get_parts_size (pws : list PartWrapper) : Z := sum_u64 (map (fun pw => p_size (pw_p pw)) pws).

Definition are_all_inmemory_parts (pws : list PartWrapper) : bool :=
  forallb (fun pw => match pw_mp pw with Some _ => true | None => false end) pws.

Definition get_flush_to_disk_deadline (now flush_interval : Z) (pws : list PartWrapper) : Z :=
  foldl (fun d pw =>
    match pw_mp pw with
    | Some _ => if pw_flush_to_disk_deadline pw <? d then pw_flush_to_disk_deadline pw else d
    | None => d
    end) (now + flush_interval) pws.

Definition get_dst_part_type (env : Env) (pws : list PartWrapper) (is_final : bool) : PartType :=
  if is_final || (get_parts_size pws >? get_max_inmemory_part_size (env_allowed env)) then PtFile
  else if negb (are_all_inmemory_parts pws) then PtFile
  else PtInmemory.

(** ** New wrappers *)

Section Ops.
  Context {Zs : Zstd}.

Definition new_from_inmemory_part {E} (st : TableInner) (mp : InmemoryPart) (deadline : Z) : res E (TableInner * nat) :=
  '(p, next_id) ← new_part (ti_next_part_id st) mp;
  Ok (set_arcs st (ti_arcs st ++ [mkPW p (Some mp) false false deadline]) next_id, length (ti_arcs st)).

Definition new_from_file_part {E} (now : Z) (st : TableInner) (name : list Z) : res E (TableInner * nat) :=
  '(p, next_id) ← must_open_file_part (ti_next_part_id st) (ti_disk st) name;
  Ok (set_arcs st (ti_arcs st ++ [mkPW p None false false now]) next_id, length (ti_arcs st)).

(** ** Merging streams to a part *)

(** A bound on the items a new reader yields: those of its block, or the count
    in the header of its part. *)
Definition reader_items (bsr : BlockStreamReader) : nat :=
  (length (ib_items (r_block bsr)) + Z.to_nat (ph_items_count (r_ph bsr)))%nat.

Definition merge_parts_internal (env : Env) (compress_level : Z) (bsrs : list BlockStreamReader) (stop : nat -> bool)
    : run (InmemoryPart + MergeError bsr_other) :=
  let n := sum_list (map reader_items bsrs) in
  '(ph, _, r) ← merge_block_streams (n + 1) (2 * n + 1) stop (env_prepare_block env) PartHeader_default
                  (new_inmemory_part compress_level) bsrs 0;
  Ok (match r with inl bufs => inl (from_buffers ph bufs) | inr e => inr e end).

Definition must_merge_into_inmemory_part (env : Env) (st : TableInner) (bsrs : list BlockStreamReader) (deadline : Z)
    : run (TableInner * nat) :=
  let out_items_count := sum_u64 (map (fun bsr => ph_items_count (r_ph bsr)) bsrs) in
  r ← merge_parts_internal env (get_compress_level out_items_count) bsrs (fun _ => false);
  match r with
  | inl mp => new_from_inmemory_part st mp deadline
  | inr _ => Panic
  end.

Definition create_inmemory_part (env : Env) (now : Z) (st : TableInner) (ibs : list InmemoryBlock)
    : run (TableInner * option nat) :=
  bsrs ← map_res from_inmemory_block (filter (fun ib => ib_items ib <> []) ibs);
  let deadline := now + env_flush_interval env in
  match bsrs with
  | [] => Ok (st, None)
  | [bsr] =>
      '(mp, _) ← inmemory_part_init (r_block bsr);
      '(st, a) ← new_from_inmemory_part st mp deadline;
      Ok (st, Some a)
  | _ =>
      '(st, a) ← must_merge_into_inmemory_part env st bsrs deadline;
      Ok (st, Some a)
  end.

Definition must_merge_inmemory_parts_final (env : Env) (now : Z) (st : TableInner) (pws : list nat) : run (TableInner * nat) :=
  _ ← assert_ (negb (length pws =? 0)%nat);
  match pws with
  | [a] => Ok (st, a)
  | _ =>
      ws ← pws_at (ti_arcs st) pws;
      bsrs ← map_res (fun pw => match pw_mp pw with Some mp => from_inmemory_part mp | None => Panic end) ws;
      must_merge_into_inmemory_part env st bsrs (get_flush_to_disk_deadline now (env_flush_interval env) ws)
  end.

(** ** The threads of one call

    A scope runs a thread per element and collects the results in the order in
    which the threads finish: [shuffle order] is any order. *)
Fixpoint shuffle {A} (order : list nat) (l : list A) : list A :=
  match l with
  | [] => []
  | x :: l =>
      let rest := shuffle (tail order) l in
      let k := default 0%nat (head order) in
      take k rest ++ x :: drop k rest
  end.

Fixpoint chunks_of {A} (fuel n : nat) (l : list A) : list (list A) :=
  match l, fuel with
  | [], _ | _, O => []
  | _, S fuel => take n l :: chunks_of fuel n (drop n l)
  end.

Fixpoint create_parts (env : Env) (now : Z) (st : TableInner) (chunks : list (list InmemoryBlock)) : run (TableInner * list nat) :=
  match chunks with
  | [] => Ok (st, [])
  | c :: chunks =>
      '(st, o) ← create_inmemory_part env now st c;
      '(st, pws) ← create_parts env now st chunks;
      Ok (st, match o with Some a => a :: pws | None => pws end)
  end.

Fixpoint merge_groups (env : Env) (now : Z) (st : TableInner) (groups : list (list nat)) : run (TableInner * list nat) :=
  match groups with
  | [] => Ok (st, [])
  | g :: groups =>
      '(st, a) ← must_merge_inmemory_parts_final env now st g;
      '(st, pws) ← merge_groups env now st groups;
      Ok (st, a :: pws)
  end.

(** The first half of [flush_blocks_to_inmemory_parts]. *)
Definition blocks_to_parts (env : Env) (tk : Tick) (st : TableInner) (ibs : list InmemoryBlock) : run (TableInner * list nat) :=
  '(st, pws) ← create_parts env (tk_now tk) st (chunks_of (length ibs) DEFAULT_PARTS_TO_MERGE ibs);
  Ok (st, shuffle (tk_order tk) pws).

Definition must_merge_inmemory_parts (env : Env) (tk : Tick) (st : TableInner) (pws : list nat) : run (TableInner * list nat) :=
  groups ← optimal_groups (size_at (ti_arcs st)) (length pws) pws;
  '(st, pws) ← merge_groups env (tk_now tk) st groups;
  Ok (st, shuffle (tk_order tk) pws).

(** ** Merging parts of the table *)

Definition must_open_block_stream_readers {E} (st : TableInner) (pws : list PartWrapper) : res E (list BlockStreamReader) :=
  map_res (fun pw => match pw_mp pw with Some mp => from_inmemory_part mp | None => from_file_part (ti_disk st) (p_path (pw_p pw)) end) pws.

(** The new part, in memory or opened from its new directory, or the error. *)
Definition merge_parts_inner (env : Env) (tk : Tick) (st : TableInner) (pws : list nat) (stop : nat -> bool) (is_final : bool)
    : run (TableInner * ((nat * PartType) + MergeError bsr_other)) :=
  ws ← pws_at (ti_arcs st) pws;
  let ty := get_dst_part_type env ws is_final in
  let merge_idx := as_u64 (ti_merge_idx st + 1) in
  let st := set_disk st merge_idx (ti_disk st) in
  let name := part_name merge_idx in
  match (if is_final then ws else []) with
  | [mkPW _ (Some mp) _ _ _] =>
      d ← must_store_to_disk mp (ti_disk st) name;
      '(st, a) ← new_from_file_part (tk_now tk) (set_disk st merge_idx d) name;
      Ok (st, inl (a, ty))
  | _ =>
      bsrs ← must_open_block_stream_readers st ws;
      let src_items_count := sum_u64 (map (fun pw => ph_items_count (p_ph (pw_p pw))) ws) in
      r ← merge_parts_internal env (get_compress_level src_items_count) bsrs stop;
      match ty, r with
      | PtInmemory, inl mp =>
          '(st, a) ← new_from_inmemory_part st mp (get_flush_to_disk_deadline (tk_now tk) (env_flush_interval env) ws);
          Ok (st, inl (a, ty))
      | PtInmemory, inr e => Ok (st, inr e)
      | PtFile, inl mp =>
          d ← must_store_to_disk mp (ti_disk st) name;
          '(st, a) ← new_from_file_part (tk_now tk) (set_disk st merge_idx d) name;
          Ok (st, inl (a, ty))
      | PtFile, inr e =>
          d ← must_create_dir (ti_disk st) name PartialDir;
          Ok (set_disk st merge_idx d, inr e)
      end
  end.

(** [assert!(!flag.swap(true))] and [assert!(flag.swap(false))] for every
    wrapper. *)
Fixpoint swap_flags {E} (b : bool) (pws : list nat) (arcs : list PartWrapper) : res E (list PartWrapper) :=
  match pws with
  | [] => Ok arcs
  | a :: pws =>
      pw ← idx arcs a;
      _ ← assert_ (Bool.eqb (pw_is_in_merge pw) (negb b));
      swap_flags b pws (<[a := set_is_in_merge b pw]> arcs)
  end.

(** [flag.store(b)] for every wrapper. *)
Definition store_flags (b : bool) (pws : list nat) (arcs : list PartWrapper) : list PartWrapper :=
  foldl (fun arcs a => alter (set_is_in_merge b) a arcs) arcs pws.

Definition not_in_merge (arcs : list PartWrapper) (a : nat) : bool :=
  match arcs !! a with Some pw => negb (pw_is_in_merge pw) | None => false end.

Definition get_parts_to_merge {E} (st : TableInner) (parts : list nat) (max_out_bytes : Z) : res E (TableInner * list nat) :=
  let pws_remaining := filter (fun a => not_in_merge (ti_arcs st) a = true) parts in
  pws_to_merge ← append_parts_to_merge (size_at (ti_arcs st)) pws_remaining DEFAULT_PARTS_TO_MERGE max_out_bytes;
  arcs ← swap_flags true pws_to_merge (ti_arcs st);
  Ok (set_arcs st arcs (ti_next_part_id st), pws_to_merge).

(** The in-memory parts due for a flush, marked as being merged. *)
Definition get_inmemory_parts_to_flush (st : TableInner) (now : Z) (is_final : bool) : TableInner * list nat :=
  let due a := match ti_arcs st !! a with
               | Some pw => negb (pw_is_in_merge pw) && (is_final || (pw_flush_to_disk_deadline pw <? now))
               | None => false
               end in
  let pws := filter (fun a => due a = true) (ti_inmemory_parts st) in
  (set_arcs st (store_flags true pws (ti_arcs st)) (ti_next_part_id st), pws).

(** The names [must_write_part_names] lists: those of the file parts. *)
Definition part_names {E} (st : TableInner) (pws : list nat) : res E (list (list Z)) :=
  ws ← pws_at (ti_arcs st) pws;
  Ok (map (fun pw => p_path (pw_p pw)) (filter (fun pw => pw_mp pw = None) ws)).

(** The critical section of [swap_src_with_dst_parts]: the numbers of removed
    in-memory and file parts. *)
Definition swap_src_with_dst_parts {E} (st : TableInner) (pws : list nat) (pw_new : nat) (ty : PartType)
    : res E (TableInner * nat * nat) :=
  m ← make_ptr_set pws;
  let '(inm, removed_inmemory) := remove_parts (ti_inmemory_parts st) m in
  let '(fil, removed_file) := remove_parts (ti_file_parts st) m in
  let st := match ty with
            | PtInmemory => set_parts st (inm ++ [pw_new]) fil
            | PtFile => set_parts st inm (fil ++ [pw_new])
            end in
  if (0 <? removed_file)%nat || bool_decide (ty = PtFile) then
    names ← part_names st (ti_file_parts st);
    Ok (set_disk st (ti_merge_idx st) (write_part_names (ti_disk st) names), removed_inmemory, removed_file)
  else Ok (st, removed_inmemory, removed_file).

Definition mark_must_drop (arcs : list PartWrapper) (pws : list nat) : list PartWrapper :=
  foldl (fun arcs a => alter set_must_drop a arcs) arcs pws.

Definition get_parts (st : TableInner) : list nat := ti_inmemory_parts st ++ ti_file_parts st.
End Ops.
