(* ===== verification/ItemTableSteps.v ===== *)
(** * Threads of a table

    The operations of [ItemTableOps] as the steps of concurrent threads.  A step
    is a critical section of the code, or work on data that only its thread can
    reach; between steps any other thread may run.  The loops of the background
    workers ([pending_items_flusher], [inmemory_parts_flusher],
    [inmemory_parts_merger], [file_parts_merger]) decide only when a flush or a
    merge starts; here each may start at any time.  Waiting for a permit of
    [inmemory_parts_limit] is polling, as in [acquire_or_stop]. *)
From Stdlib Require Import ZArith Lia Bool.
From stdpp Require Import gmap.
From S2P Require Import Prelude Float64 Compress ItemBlock ItemHeader ItemStream ItemMerge ItemPartMerge BlockCache SearchBase ItemSearch PartSelect RawItems PartDisk ItemTableOps.
Local Open Scope Z_scope.

(** What a thread is about to do; [rest] are the items that [add_items] has
    still to add. *)
Inductive task : Type :=
| TAdd (items : list (list Z))
| TAddIbs (ibs : list InmemoryBlock) (rest : list (list Z))
| TTake (shard : nat) (dst : list InmemoryBlock) (now_ms : Z) (is_final : bool)
| TFlush (ibs : list InmemoryBlock) (rest : list (list Z))
| TRound (pws : list nat) (rest : list (list Z))
| TPush (big pws : list nat) (rest : list (list Z))
| TPushed (a : nat) (big pws : list nat) (rest : list (list Z))
| TMerge (pws : list nat) (has_stop is_final : bool)
| TSwap (pws : list nat) (pw_new : nat) (ty : PartType)
| TPermits (pws : list nat) (release : nat) (acquire : bool) (removed : nat)
| TRelease (pws : list nat).

(** The wrappers a thread refers to. *)
Definition task_refs (t : task) : list nat :=
  match t with
  | TRound pws _ => pws
  | TPush big pws _ => big ++ pws
  | TPushed a big pws _ => a :: big ++ pws
  | TMerge pws _ _ | TPermits pws _ _ _ | TRelease pws => pws
  | TSwap pws a _ => a :: pws
  | _ => []
  end.

Section Steps.
  Context {Zs : Zstd} (env : Env).

(** One iteration of the loop of [add_items] begins here. *)
Definition step_add (tk : Tick) (st : TableInner) (items : list (list Z)) : run (TableInner * list task) :=
  match items with
  | [] => Ok (st, [])
  | _ =>
      '(raw, consumed, ibs, too_long) ← add_items_to_shard (env_max_blocks env) (tk_now_ms tk) (ti_raw_items st) items (ti_too_long st);
      rest ← slice_from items consumed;
      Ok (set_raw st raw too_long, [TAddIbs ibs rest])
  end.

Definition step_add_ibs (tk : Tick) (st : TableInner) (ibs : list InmemoryBlock) (rest : list (list Z)) : TableInner * list task :=
  let '(raw, merge) := add_ibs_to_flush (env_max_blocks env) (env_cpus env) (tk_now_ms tk) (ti_raw_items st) ibs in
  (set_raw st raw (ti_too_long st), [TFlush merge rest]).

(** [take_blocks_to_flush]: the pending blocks, then one shard after the other. *)
Definition step_take (st : TableInner) (j : nat) (dst : list InmemoryBlock) (now_ms : Z) (is_final : bool) : run (TableInner * list task) :=
  match j with
  | O =>
      let '(raw, out) := take_pending (ti_raw_items st) now_ms is_final in
      Ok (set_raw st raw (ti_too_long st), [TTake 1 (dst ++ out) now_ms is_final])
  | S i =>
      if (i <? length (ri_shards (ti_raw_items st)))%nat then
        '(raw, dst) ← take_shard (ti_raw_items st) i dst now_ms is_final;
        Ok (set_raw st raw (ti_too_long st), [TTake (S j) dst now_ms is_final])
      else Ok (st, [TFlush dst []])
  end.

(** [flush_blocks_to_inmemory_parts]: the conversion of the blocks. *)
Definition step_flush (tk : Tick) (st : TableInner) (ibs : list InmemoryBlock) (rest : list (list Z)) : run (TableInner * list task) :=
  match ibs with
  | [] => Ok (st, [TAdd rest])
  | _ =>
      '(st, pws) ← blocks_to_parts env tk st ibs;
      Ok (st, [TRound pws rest])
  end.

(** A round of its loop: big parts go to the table, the others are merged on. *)
Definition step_round (tk : Tick) (st : TableInner) (pws : list nat) (rest : list (list Z)) : run (TableInner * list task) :=
  match pws with
  | [] => Ok (st, [TAdd rest])
  | [a] => Ok (st, [TPush [a] [] rest])
  | _ =>
      '(st, pws) ← must_merge_inmemory_parts env tk st pws;
      let max_part_size := get_max_inmemory_part_size (env_allowed env) in
      let is_big a := size_at (ti_arcs st) a >=? max_part_size in
      Ok (st, [TPush (filter (fun a => is_big a = true) pws) (filter (fun a => is_big a = false) pws) rest])
  end.

(** [add_to_inmemory_parts]: the permit, then the push. *)
Definition step_push (st : TableInner) (big pws : list nat) (rest : list (list Z)) : TableInner * list task :=
  match big with
  | [] => (st, [TRound pws rest])
  | a :: big' =>
      if (0 <? ti_limit st)%nat then (set_limit st (ti_limit st - 1), [TPushed a big' pws rest])
      else if ti_shutdown st then (st, [TPushed a big' pws rest])
      else (st, [TPush big pws rest])
  end.

Definition step_pushed (st : TableInner) (a : nat) (big pws : list nat) (rest : list (list Z)) : TableInner * list task :=
  (set_parts st (ti_inmemory_parts st ++ [a]) (ti_file_parts st), [TPush big pws rest]).

(** [merge_parts] up to the exchange of the parts.  An error other than the
    forced stop makes every caller panic. *)
Definition step_merge (tk : Tick) (st : TableInner) (pws : list nat) (has_stop is_final : bool) : run (TableInner * list task) :=
  _ ← assert_ (negb (length pws =? 0)%nat);
  ws ← pws_at (ti_arcs st) pws;
  _ ← assert_ (forallb pw_is_in_merge ws);
  '(st, r) ← merge_parts_inner env tk st pws (if has_stop then tk_stop tk else fun _ => false) is_final;
  match r with
  | inl (a, ty) => Ok (st, [TSwap pws a ty])
  | inr ForciblyStopped => Ok (st, [TRelease pws])
  | inr (MergeOther _) => Panic
  end.

Definition step_swap (st : TableInner) (pws : list nat) (a : nat) (ty : PartType) : run (TableInner * list task) :=
  '(st, removed_inmemory, removed_file) ← swap_src_with_dst_parts st pws a ty;
  Ok (st, [TPermits pws removed_inmemory (bool_decide (ty = PtInmemory)) (removed_inmemory + removed_file)]).

(** The permits of the removed parts are given back, one is taken for a new
    in-memory part, and the old parts are marked for deletion. *)
Definition step_permits (st : TableInner) (pws : list nat) (release : nat) (acquire : bool) (removed : nat) : run (TableInner * list task) :=
  match release, acquire with
  | S n, _ => Ok (set_limit st (S (ti_limit st)), [TPermits pws n acquire removed])
  | O, true =>
      if (0 <? ti_limit st)%nat then Ok (set_limit st (ti_limit st - 1), [TPermits pws 0 false removed])
      else if ti_shutdown st then Ok (st, [TPermits pws 0 false removed])
      else Ok (st, [TPermits pws 0 true removed])
  | O, false =>
      _ ← assert_ (removed =? length pws)%nat;
      Ok (set_arcs st (mark_must_drop (ti_arcs st) pws) (ti_next_part_id st), [TRelease pws])
  end.

(** [release_parts_to_merge]. *)
Definition step_release (st : TableInner) (pws : list nat) : run (TableInner * list task) :=
  arcs ← swap_flags false pws (ti_arcs st);
  Ok (set_arcs st arcs (ti_next_part_id st), []).

(** A step of a thread and what it continues with. *)
Definition step_task (tk : Tick) (st : TableInner) (t : task) : run (TableInner * list task) :=
  match t with
  | TAdd items => step_add tk st items
  | TAddIbs ibs rest => Ok (step_add_ibs tk st ibs rest)
  | TTake j dst now is_final => step_take st j dst now is_final
  | TFlush ibs rest => step_flush tk st ibs rest
  | TRound pws rest => step_round tk st pws rest
  | TPush big pws rest => Ok (step_push st big pws rest)
  | TPushed a big pws rest => Ok (step_pushed st a big pws rest)
  | TMerge pws has_stop is_final => step_merge tk st pws has_stop is_final
  | TSwap pws a ty => step_swap st pws a ty
  | TPermits pws n acquire removed => step_permits st pws n acquire removed
  | TRelease pws => step_release st pws
  end.

(** ** The table and its threads *)

Record World : Type := mkWorld { w_st : TableInner; w_tasks : list task }.

Inductive event : Type :=
| EvAddItems (items : list (list Z))                (* [Table::add_items] *)
| EvFlushPendingItems (now_ms : Z) (is_final : bool)  (* [flush_pending_items] *)
| EvMergeInmemory (max_out_bytes : Z)               (* a round of [inmemory_parts_merger] *)
| EvMergeFiles (max_out_bytes : Z)                  (* a round of [file_parts_merger] *)
| EvFlushInmemoryParts (now : Z) (is_final : bool)  (* [flush_inmemory_parts_to_files] *)
| EvStep (i : nat) (tk : Tick)                      (* thread [i] makes a step *)
| EvRemoveDir (a : nat)                             (* the last reference to a part is dropped *)
| EvStop.                                           (* [must_close] signals the shutdown *)

Definition spawn_merge (st : TableInner) (ts : list task) (pws : list nat) : World :=
  match pws with
  | [] => mkWorld st ts
  | _ => mkWorld st (ts ++ [TMerge pws true false])
  end.

(** The directory of a part that is marked for deletion goes with the last
    reference to it. *)
Definition remove_dir (w : World) (a : nat) : World :=
  let st := w_st w in
  match ti_arcs st !! a with
  | Some pw =>
      if pw_must_drop pw && negb (bool_decide (a ∈ get_parts st ++ concat (map task_refs (w_tasks w)))) && negb (bool_decide (p_path (pw_p pw) = []))
      then mkWorld (set_disk st (ti_merge_idx st) (set_dirs (ti_disk st) (delete (p_path (pw_p pw)) (d_dirs (ti_disk st))))) (w_tasks w)
      else w
  | None => w
  end.

Definition exec (e : event) (w : World) : run World :=
  let st := w_st w in
  match e with
  | EvAddItems items => Ok (mkWorld st (w_tasks w ++ [TAdd items]))
  | EvFlushPendingItems now is_final => Ok (mkWorld st (w_tasks w ++ [TTake 0 [] now is_final]))
  | EvMergeInmemory max_out_bytes =>
      '(st, pws) ← get_parts_to_merge st (ti_inmemory_parts st) max_out_bytes;
      Ok (spawn_merge st (w_tasks w) pws)
  | EvMergeFiles max_out_bytes =>
      '(st, pws) ← get_parts_to_merge st (ti_file_parts st) max_out_bytes;
      Ok (spawn_merge st (w_tasks w) pws)
  | EvFlushInmemoryParts now is_final =>
      let '(st, pws) := get_inmemory_parts_to_flush st now is_final in
      groups ← optimal_groups (size_at (ti_arcs st)) (length pws) pws;
      Ok (mkWorld st (w_tasks w ++ map (fun g => TMerge g false true) groups))
  | EvStep i tk =>
      match w_tasks w !! i with
      | Some t =>
          '(st, ts) ← step_task tk st t;
          Ok (mkWorld st (take i (w_tasks w) ++ ts ++ drop (S i) (w_tasks w)))
      | None => Ok w
      end
  | EvRemoveDir a => Ok (remove_dir w a)
  | EvStop => Ok (mkWorld (set_stop st) (w_tasks w))
  end.

Fixpoint exec_all (es : list event) (w : World) : run World :=
  match es with
  | [] => Ok w
  | e :: es => w ← exec e w; exec_all es w
  end.

(** ** Opening *)

(** [Table::must_open] on a directory; the merge index starts at the clock. *)
Fixpoint open_parts {E} (now : Z) (st : TableInner) (names : list (list Z)) : res E (TableInner * list nat) :=
  match names with
  | [] => Ok (st, [])
  | name :: names =>
      '(st, a) ← new_from_file_part now st name;
      '(st, pws) ← open_parts now st names;
      Ok (st, a :: pws)
  end.

Definition must_open {E} (shards : nat) (now now_nanos next_part_id : Z) (d : Disk) : res E TableInner :=
  let d := set_dirs d (delete TMP (delete TXN (d_dirs d))) in
  let names := must_read_part_names d in
  _ ← assert_ (forallb (fun name => bool_decide (d_dirs d !! name <> None)) names);
  let d := set_dirs d (filter (fun kv => kv.1 ∈ names) (d_dirs d)) in
  let st := mkTI (raw_items_new shards) [] [] [] false false MAX_INMEMORY_PARTS now_nanos next_part_id 0 d in
  '(st, pws) ← open_parts now st names;
  names' ← part_names st pws;
  let d := match d_parts d with Some _ => d | None => write_part_names d names' end in
  Ok (set_disk (set_parts st [] pws) now_nanos d).
End Steps.
