(* ===== verification/ItemTableStore.v ===== *)
(** * The parts of a table and their directories

    The invariant that ties the wrappers of [ItemTableOps] to the items they
    hold and to the directories on disk, and what every operation that creates
    a part does to it. *)
From Stdlib Require Import ZArith Lia Bool Sorted Permutation.
From stdpp Require Import gmap.
From S2P Require Import Prelude Heap IntCodec Float64 Compress ItemBlock ItemBlockSpec ItemHeader ItemStream ItemMerge ItemMergeSpec ItemPartMerge BlockCache SearchBase ItemSearch PartSelect RawItems PartWrite PartDisk ItemTableOps.
Local Open Scope Z_scope.

(** What the invariant knows of a wrapper: the bytes of its part and the items
    in it. *)
Abbreviation known := (list (InmemoryPart * list (list Z))).

Definition items_of (g : known) (a : nat) : list (list Z) := default [] (snd <$> g !! a).
Definition contents_of (g : known) (l : list nat) : list (list Z) := concat (map (items_of g) l).

Definition dir_of (mp : InmemoryPart) : PartDir :=
  mkDir (mp_metaindex_data mp) (mp_index_data mp) (mp_items_data mp) (mp_lens_data mp) (metadata_of (mp_ph mp)).

Definition in_memory (arcs : list PartWrapper) (a : nat) : Prop := exists pw mp, arcs !! a = Some pw /\ pw_mp pw = Some mp.
Definition in_file (arcs : list PartWrapper) (a : nat) : Prop := exists pw, arcs !! a = Some pw /\ pw_mp pw = None.

Lemma contents_app g l l' : contents_of g (l ++ l') = contents_of g l ++ contents_of g l'.
Proof. unfold contents_of. by rewrite map_app, concat_app. Qed.

Lemma contents_perm g l l' : l ≡ₚ l' -> contents_of g l ≡ₚ contents_of g l'.
Proof. intros H. unfold contents_of. by rewrite H. Qed.

Lemma items_extend g g' a : (a < length g)%nat -> items_of (g ++ g') a = items_of g a.
Proof. intros H. unfold items_of. by rewrite lookup_app_l. Qed.

Lemma contents_extend g g' l : Forall (fun a => a < length g)%nat l -> contents_of (g ++ g') l = contents_of g l.
Proof. induction 1 as [|a l Ha _ IH]; [done|]. unfold contents_of in *. cbn. by rewrite items_extend, IH. Qed.

Lemma items_new g mp xs : items_of (g ++ [(mp, xs)]) (length g) = xs.
Proof. unfold items_of. by rewrite list_lookup_middle. Qed.

(** What new wrappers leave as it is. *)
Record extends (st st' : TableInner) : Prop := {
  ex_raw : ti_raw_items st' = ti_raw_items st;
  ex_inmemory : ti_inmemory_parts st' = ti_inmemory_parts st;
  ex_files : ti_file_parts st' = ti_file_parts st;
  ex_stopped : ti_stopped st' = ti_stopped st;
  ex_shutdown : ti_shutdown st' = ti_shutdown st;
  ex_limit : ti_limit st' = ti_limit st;
  ex_too_long : ti_too_long st' = ti_too_long st;
  ex_listed : d_parts (ti_disk st') = d_parts (ti_disk st);
  ex_merge_idx : ti_merge_idx st' = ti_merge_idx st;
  ex_arcs : exists l, ti_arcs st' = ti_arcs st ++ l /\ Forall (fun pw => pw_is_in_merge pw = false /\ pw_must_drop pw = false) l;
}.

#[export] Instance extends_preorder : PreOrder extends.
Proof.
  split; [intros st; split; try done; exists []; rewrite app_nil_r; by split|]. intros s1 s2 s3 H1 H2. pose proof (ex_merge_idx _ _ H1).
  pose proof (ex_merge_idx _ _ H2). destruct (ex_arcs _ _ H1) as (l & Hl & Hf), (ex_arcs _ _ H2) as (l' & Hl' & Hf').
  destruct H1, H2. split; try congruence. exists (l ++ l'). rewrite Hl', Hl, app_assoc. split; [done|by apply Forall_app].
Qed.

Lemma extends_lookup st st' a pw : extends st st' -> ti_arcs st !! a = Some pw -> ti_arcs st' !! a = Some pw.
Proof. intros [_ _ _ _ _ _ _ _ _ (l & -> & _)] H. rewrite lookup_app_l; [done|]. by eapply lookup_lt_Some. Qed.

Lemma extends_in_memory st st' a : extends st st' -> in_memory (ti_arcs st) a -> in_memory (ti_arcs st') a.
Proof. intros H (pw & mp & Ha & Hm). exists pw, mp. split; [by eapply extends_lookup|done]. Qed.

Lemma extends_in_file st st' a : extends st st' -> in_file (ti_arcs st) a -> in_file (ti_arcs st') a.
Proof. intros H (pw & Ha & Hm). exists pw. split; [by eapply extends_lookup|done]. Qed.

Section Store.
  Context `{Zs : Zstd} {Zl : ZstdLaws Zs} (good : list Z -> Prop).

(** A wrapper and its part. *)
Record wrapper_ok (pw : PartWrapper) (k : InmemoryPart * list (list Z)) : Prop := {
  wo_stored : stored good k.1 k.2;
  wo_kind : match pw_mp pw with Some mp => mp = k.1 /\ p_path (pw_p pw) = [] | None => p_path (pw_p pw) ∉ [[]; TMP; TXN] end;
}.

(** [live] are the wrappers that the table or a thread may still read. *)
Record store_ok (st : TableInner) (g : known) (live : list nat) : Prop := {
  so_arcs : Forall2 wrapper_ok (ti_arcs st) g;
  so_valid : Forall (fun a => a < length g)%nat live;
  so_paths : forall a b p q, ti_arcs st !! a = Some p -> ti_arcs st !! b = Some q -> pw_mp p = None -> pw_mp q = None ->
    p_path (pw_p p) = p_path (pw_p q) -> a = b;
  so_disk : forall a p k, a ∈ live -> ti_arcs st !! a = Some p -> g !! a = Some k -> pw_mp p = None ->
    d_dirs (ti_disk st) !! p_path (pw_p p) = Some (dir_of k.1);
  so_fresh : forall n, ti_merge_idx st < n < 2 ^ 64 -> d_dirs (ti_disk st) !! part_name n = None;
  so_old : forall a p n, ti_arcs st !! a = Some p -> pw_mp p = None -> ti_merge_idx st < n < 2 ^ 64 -> p_path (pw_p p) <> part_name n;
  so_merge_idx : 0 <= ti_merge_idx st;
}.

Lemma store_length st g live : store_ok st g live -> length (ti_arcs st) = length g.
Proof. intros H. apply (Forall2_length _ _ _ (so_arcs _ _ _ H)). Qed.

Lemma store_sub st g live live' : (forall a, a ∈ live' -> a ∈ live) -> store_ok st g live -> store_ok st g live'.
Proof.
  intros Hsub [H1 H2 H3 H4 H5 H6 H7]. split; try done.
  - rewrite Forall_forall in *. auto.
  - intros a p k Ha. apply H4. auto.
Qed.

Lemma store_at st g live a : store_ok st g live -> a ∈ live -> exists pw k, ti_arcs st !! a = Some pw /\ g !! a = Some k /\ wrapper_ok pw k /\ items_of g a = k.2.
Proof.
  intros H Ha. pose proof (so_valid _ _ _ H) as Hv. rewrite Forall_forall in Hv. destruct (lookup_lt_is_Some_2 _ _ (Hv a Ha)) as [k Hk].
  destruct (Forall2_lookup_r _ _ _ _ _ (so_arcs _ _ _ H) Hk) as (pw & Hpw & Hok). exists pw, k. split_and!; try done. unfold items_of. by rewrite Hk.
Qed.

(** ** A new part in memory *)

Lemma new_part_ok {E} id mp xs : stored good mp xs -> Z.of_nat (length xs) < 2 ^ 64 ->
  exists p, new_part (E := E) id mp = Ok (p, as_u64 (id + 1)) /\ p_path p = [].
Proof.
  intros Hs Hn. destruct (stored_readable good mp xs Hs Hn) as (mrs & xss & [Hm _ _ _ _ _ _ _ _]). unfold new_part, part_new. rewrite Hm, bind_Ok. by eexists.
Qed.

Lemma new_inmemory_ok {E} st g live mp xs dl : store_ok st g live -> stored good mp xs -> Z.of_nat (length xs) < 2 ^ 64 ->
  exists st', new_from_inmemory_part (E := E) st mp dl = Ok (st', length g) /\ extends st st' /\
    store_ok st' (g ++ [(mp, xs)]) (length g :: live) /\ in_memory (ti_arcs st') (length g).
Proof.
  intros H Hs Hn. pose proof (store_length _ _ _ H) as Hl. unfold new_from_inmemory_part. destruct (new_part_ok (E := E) (ti_next_part_id st) mp xs Hs Hn) as (p & -> & Hp).
  rewrite bind_Ok, Hl. eexists. split; [done|]. split; [split; try done; eexists; by repeat constructor|].
  destruct H as [H1 H2 H3 H4 H5 H6 H7]. set (pw := mkPW p (Some mp) false false dl).
  assert (Hlk : forall a q, (ti_arcs st ++ [pw]) !! a = Some q -> pw_mp q = None -> ti_arcs st !! a = Some q).
  { intros a q [Ha|[_ Ha]]%lookup_app_Some Hq; [done|]. apply list_lookup_singleton_Some in Ha as [_ <-]. done. }
  split; [split|]; cbn [set_arcs ti_arcs ti_disk ti_merge_idx].
  - apply Forall2_app; [done|]. constructor; [|done]. by split.
  - constructor; [rewrite length_app; cbn; lia|]. revert H2. apply Forall_weaken. intros a. rewrite length_app. lia.
  - intros a b p' q' Ha Hb Hp' Hq'. apply H3; auto.
  - intros a p' k Ha Hp' Hk Hm. pose proof (Hlk a p' Hp' Hm) as Hold. pose proof (lookup_lt_Some _ _ _ Hold). rewrite lookup_app_l in Hk by lia.
    apply (H4 a p' k); try done. apply elem_of_cons in Ha as [->|Ha]; [lia|done].
  - done.
  - intros a p' n Ha Hm. apply (H6 a p'); auto.
  - done.
  - exists pw, mp. split; [|done]. rewrite <-Hl. by rewrite list_lookup_middle.
Qed.

(** ** A new part in a file *)

Lemma new_file_ok {E} st g live mp xs now : store_ok st g live -> stored good mp xs -> Z.of_nat (length xs) < 2 ^ 64 ->
  ti_merge_idx st + 1 < 2 ^ 64 ->
  let n := as_u64 (ti_merge_idx st + 1) in
  exists d st', must_store_to_disk (E := E) mp (ti_disk st) (part_name n) = Ok d /\
    new_from_file_part (E := E) now (set_disk st n d) (part_name n) = Ok (st', length g) /\ extends (set_disk st n (ti_disk st)) st' /\
    store_ok st' (g ++ [(mp, xs)]) (length g :: live) /\ in_file (ti_arcs st') (length g).
Proof.
  intros H Hs Hn Hidx n. pose proof (store_length _ _ _ H) as Hl. destruct H as [H1 H2 H3 H4 H5 H6 H7].
  assert (Hnid : n = ti_merge_idx st + 1) by (apply wrap_u_id; unfold is_u; lia).
  assert (Hnone : d_dirs (ti_disk st) !! part_name n = None) by (apply H5; lia).
  destruct (stored_readable good mp xs Hs Hn) as (mrs & xss & [Hm _ _ _ _ _ Hc Hb [He1 He2]]).
  unfold must_store_to_disk, must_create_dir. rewrite bool_decide_eq_true_2 by done. cbn [assert_]. rewrite bind_Ok. fold (dir_of mp).
  eexists _, _. split; [done|]. unfold new_from_file_part, must_open_file_part. cbn [set_disk ti_disk ti_next_part_id set_dirs d_dirs].
  rewrite lookup_insert_eq. unfold dir_of. rewrite metadata_roundtrip, bind_Ok by done. unfold part_new. rewrite Hm, !bind_Ok. fold (dir_of mp).
  change (ti_arcs (set_disk _ _ _)) with (ti_arcs st). rewrite Hl. set (p := mkPart _ _ _ _ _ _ _ _ _). set (pw := mkPW p None false false now). split; [done|].
  assert (Hpath : p_path p = part_name n) by done. split; [split; try done; eexists; by repeat constructor|].
  assert (Hcase : forall a q, (ti_arcs st ++ [pw]) !! a = Some q -> ti_arcs st !! a = Some q \/ a = length g /\ q = pw).
  { intros a q [Ha|[Hge Ha]]%lookup_app_Some; [by left|right]. apply list_lookup_singleton_Some in Ha as [Ha <-]. split; [lia|done]. }
  split; [split|]; cbn [set_arcs set_disk set_dirs ti_arcs ti_disk ti_merge_idx d_dirs].
  - apply Forall2_app; [done|]. constructor; [|done]. split; [done|]. apply part_name_normal.
  - constructor; [rewrite length_app; cbn; lia|]. revert H2. apply Forall_weaken. intros a. rewrite length_app. lia.
  - intros a b p' q' [Ha|[-> ->]]%Hcase [Hb'|[-> ->]]%Hcase Hp' Hq' Heq; [by eapply H3| | |done].
    + destruct (H6 a p' n Ha Hp' ltac:(lia)). by rewrite Heq.
    + destruct (H6 b q' n Hb' Hq' ltac:(lia)). by rewrite <-Heq.
  - intros a p' k Ha [Hp'|[-> ->]]%Hcase Hk Hm'.
    + pose proof (lookup_lt_Some _ _ _ Hp'). rewrite lookup_app_l in Hk by lia. rewrite lookup_insert_ne by (intros Heq; by destruct (H6 a p' n Hp' Hm' ltac:(lia))).
      apply (H4 a p' k); try done. apply elem_of_cons in Ha as [->|Ha]; [lia|done].
    + rewrite list_lookup_middle in Hk by done. injection Hk as <-. apply lookup_insert_eq.
  - intros m Hmr. rewrite lookup_insert_ne; [apply H5; lia|]. intros Heq. apply part_name_inj in Heq; unfold is_u; lia.
  - intros a p' m [Hp'|[-> ->]]%Hcase Hm' Hmr; [apply (H6 a p'); try done; lia|]. change (part_name n <> part_name m). intros Heq. apply part_name_inj in Heq; unfold is_u; lia.
  - lia.
  - exists pw. split; [|done]. cbn [set_arcs set_disk ti_arcs]. rewrite <-Hl. by rewrite list_lookup_middle.
Qed.

(** ** What a stopped merge leaves *)

Lemma partial_dir_ok {E} st g live : store_ok st g live -> ti_merge_idx st + 1 < 2 ^ 64 ->
  let n := as_u64 (ti_merge_idx st + 1) in
  exists d, must_create_dir (E := E) (ti_disk st) (part_name n) PartialDir = Ok d /\ extends (set_disk st n (ti_disk st)) (set_disk st n d) /\ store_ok (set_disk st n d) g live.
Proof.
  intros [H1 H2 H3 H4 H5 H6 H7] Hidx n. assert (Hnid : n = ti_merge_idx st + 1) by (apply wrap_u_id; unfold is_u; lia).
  unfold must_create_dir. rewrite bool_decide_eq_true_2 by (apply H5; lia). cbn [assert_]. rewrite bind_Ok. eexists. split; [done|].
  split; [split; try done; exists []; rewrite app_nil_r; by split|]. split; cbn [set_disk set_dirs ti_arcs ti_disk ti_merge_idx d_dirs]; try done.
  - intros a p k Ha Hp Hk Hm. rewrite lookup_insert_ne by (intros Heq; by destruct (H6 a p n Hp Hm ltac:(lia))). by eapply H4.
  - intros m Hmr. rewrite lookup_insert_ne; [apply H5; lia|]. intros Heq. apply part_name_inj in Heq; unfold is_u; lia.
  - intros a p m Hp Hm Hmr. apply (H6 a p); try done; lia.
  - lia.
Qed.

(** The merge index alone. *)
Lemma merge_idx_ok st g live : store_ok st g live -> ti_merge_idx st + 1 < 2 ^ 64 -> store_ok (set_disk st (as_u64 (ti_merge_idx st + 1)) (ti_disk st)) g live.
Proof.
  intros [H1 H2 H3 H4 H5 H6 H7] Hidx. assert (Hnid : as_u64 (ti_merge_idx st + 1) = ti_merge_idx st + 1) by (apply wrap_u_id; unfold is_u; lia). rewrite Hnid.
  split; cbn; try done.
  - intros n Hn. apply H5. lia.
  - intros a p n Hp Hm Hn. apply (H6 a p n); try done. lia.
  - lia.
Qed.
End Store.

(** ** Parts made by merges *)

Section Merges.
  Context `{Zs : Zstd} {Zl : ZstdLaws Zs} (good : list Z -> Prop) `{SameItems same} (f : list (list Z) -> list (list Z)).
  Context (env : Env) (Hcb : callback_ok good same (env_prepare_block env) f).

Definition few (xs : list (list Z)) : Prop := Z.of_nat (length xs) < 2 ^ 46.

Lemma few_shrunk xs ys : few xs -> shrunk same xs ys -> few ys.
Proof. unfold few. intros Hn [_ Hc]. lia. Qed.

Lemma few_app_l xs ys : few (xs ++ ys) -> few xs.
Proof. unfold few. rewrite length_app. lia. Qed.

Lemma few_app_r xs ys : few (xs ++ ys) -> few ys.
Proof. unfold few. rewrite length_app. lia. Qed.

Lemma merge_internal_ok lvl bsrs xss stop : streams bsrs xss -> xss <> [] -> Forall (item_ok good) (concat xss) -> few (concat xss) ->
  (length (concat xss) <= sum_list (map reader_items bsrs))%nat ->
  exists r, merge_parts_internal env lvl bsrs stop = Ok r /\ ((forall k, stop k = false) -> exists mp, r = inl mp) /\
    match r with
    | inl mp => exists ys, stored good mp ys /\ shrunk same (concat xss) ys
    | inr e => e = ForciblyStopped
    end.
Proof.
  intros Hst Hne Hok Hn Hsum. destruct (streams_inputs good bsrs xss Hst Hne Hok Hn) as (xsss & Hin & Hc). rewrite <-Hc in Hsum |- *.
  destruct (merge_stored good (env_prepare_block env) f Hcb lvl stop bsrs xsss _ Hin Hsum) as (ph & m & r & Hrun & Hns & Hr).
  unfold merge_parts_internal. rewrite Hrun, bind_Ok. eexists. split; [done|]. split.
  - intros Hs. destruct (Hns Hs) as [bufs ->]. by eexists.
  - by destruct r.
Qed.

Lemma merge_into_ok st g live bsrs xss dl : store_ok good st g live -> streams bsrs xss -> xss <> [] -> Forall (item_ok good) (concat xss) -> few (concat xss) ->
  (length (concat xss) <= sum_list (map reader_items bsrs))%nat ->
  exists st' mp ys, must_merge_into_inmemory_part env st bsrs dl = Ok (st', length g) /\ extends st st' /\
    store_ok good st' (g ++ [(mp, ys)]) (length g :: live) /\ in_memory (ti_arcs st') (length g) /\ shrunk same (concat xss) ys.
Proof.
  intros Hs Hst Hne Hok Hn Hsum. unfold must_merge_into_inmemory_part.
  destruct (merge_internal_ok (get_compress_level (sum_u64 (map (fun bsr => ph_items_count (r_ph bsr)) bsrs))) bsrs xss (fun _ => false) Hst Hne Hok Hn Hsum)
    as (r & -> & Hns & Hr). rewrite bind_Ok. destruct (Hns ltac:(done)) as [mp ->]. destruct Hr as (ys & Hys & Hsh).
  destruct (new_inmemory_ok (E := out_of_fuel) good st g live mp ys dl Hs Hys) as (st' & -> & H1 & H2 & H3).
  { pose proof (few_shrunk _ _ Hn Hsh) as Hf. unfold few in Hf. lia. }
  by exists st', mp, ys.
Qed.

(** Results of a call that makes the wrappers [pws] from [xs]. *)
Record makes (st : TableInner) (g : known) (live : list nat) (xs : list (list Z)) (st' : TableInner) (g' : known) (pws : list nat) : Prop := {
  mk_extends : extends st st';
  mk_store : store_ok good st' (g ++ g') (pws ++ live);
  mk_memory : Forall (in_memory (ti_arcs st')) pws;
  mk_items : shrunk same xs (contents_of (g ++ g') pws);
}.

Lemma items_of_cons g a l : contents_of g (a :: l) = items_of g a ++ contents_of g l.
Proof. done. Qed.

Lemma makes_trans st g live xs1 st1 g1 pws1 xs2 st2 g2 pws2 :
  makes st g live xs1 st1 g1 pws1 -> makes st1 (g ++ g1) (pws1 ++ live) xs2 st2 g2 pws2 ->
  makes st g live (xs1 ++ xs2) st2 (g1 ++ g2) (pws1 ++ pws2).
Proof.
  intros [E1 S1 M1 I1] [E2 S2 M2 I2]. pose proof (so_valid _ _ _ _ S1) as Hv. apply Forall_app in Hv as [Hv _]. split.
  - by etransitivity.
  - rewrite app_assoc. eapply store_sub; [|exact S2]. intros a. rewrite !elem_of_app. tauto.
  - apply Forall_app. split; [|done]. revert M1. apply Forall_weaken. intros a. by apply extends_in_memory.
  - rewrite contents_app, app_assoc, (contents_extend (g ++ g1) g2 pws1 Hv). by apply shrunk_app.
Qed.

Lemma makes_nil st g live : store_ok good st g live -> makes st g live [] st [] [].
Proof. intros Hs. split; rewrite ?app_nil_r; [done|done|constructor|done]. Qed.

Lemma makes_one st g live xs st' mp ys : extends st st' -> store_ok good st' (g ++ [(mp, ys)]) (length g :: live) -> in_memory (ti_arcs st') (length g) ->
  shrunk same xs ys -> makes st g live xs st' [(mp, ys)] [length g].
Proof. intros H1 H2 H3 H4. split; [done|done|by constructor|]. unfold contents_of. cbn. by rewrite items_new, app_nil_r. Qed.

(** The readers over the blocks that have items. *)
Lemma block_readers_ok ibs : Forall (raw_block good) ibs ->
  exists bsrs xss, map_res (from_inmemory_block (E := out_of_fuel)) (filter (fun ib => ib_items ib <> []) ibs) = Ok bsrs /\ streams bsrs xss /\
    Permutation (concat xss) (blocks_items ibs) /\ Forall (item_ok good) (concat xss) /\
    (length (concat xss) <= sum_list (map reader_items bsrs))%nat /\ length bsrs = length xss /\
    Forall2 (fun bsr xs => wf_ib (r_block bsr) /\ block_items (r_block bsr) = xs /\ storable xs) bsrs xss.
Proof.
  induction 1 as [|b ibs Hb Hbs IH].
  { exists [], []. split_and!; try done. apply streams_nil. }
  destruct IH as (bsrs & xss & Hrun & Hst & Hp & Hok & Hsum & Hlen & Hall). rewrite filter_cons. change (blocks_items (b :: ibs)) with (block_items b ++ blocks_items ibs).
  destruct (decide (ib_items b <> [])) as [Hne|He].
  - destruct (raw_block_stream good b Hb Hne) as (r & xs & Hr & Hy & Hs & Hpx & Hl & Hph & Hw & Hbi & Hsto & Hokx). cbn [map_res]. rewrite Hr, bind_Ok, Hrun, bind_Ok.
    assert (Hx : xs <> []) by apply Hsto.
    exists (r :: bsrs), (xs :: xss). split_and!; [done| | | | |cbn; lia|by constructor].
    + pose proof (streams_cons r [xs] bsrs xss Hy) as Hc. cbn [concat] in Hc. rewrite app_nil_r in Hc. by apply Hc.
    + cbn [concat]. by rewrite Hpx, Hp.
    + cbn [concat]. by apply Forall_app.
    + assert (Hri : (length (block_items b) <= reader_items r)%nat) by (unfold reader_items; lia).
      change (sum_list (map reader_items (r :: bsrs))) with (reader_items r + sum_list (map reader_items bsrs))%nat.
      cbn [concat]. rewrite length_app, (Permutation_length Hpx). lia.
  - exists bsrs, xss. split_and!; try done. rewrite Hp. assert (ib_items b = []) as Hnil by (destruct (ib_items b); [done|by destruct He]).
    unfold block_items. by rewrite Hnil.
Qed.

Lemma create_part_ok now st g live ibs : store_ok good st g live -> Forall (raw_block good) ibs -> few (blocks_items ibs) ->
  exists st' g' o, create_inmemory_part env now st ibs = Ok (st', o) /\ makes st g live (blocks_items ibs) st' g' (option_list o) /\
    Forall (fun a => length g <= a < length g + length g')%nat (option_list o) /\ (length g' <= 1)%nat.
Proof.
  intros Hs Hr Hn. destruct (block_readers_ok ibs Hr) as (bsrs & xss & Hrun & Hst & Hp & Hok & Hsum & Hlen & Hall). unfold create_inmemory_part. rewrite Hrun, bind_Ok.
  assert (Hn' : few (concat xss)) by (unfold few in *; by rewrite (Permutation_length Hp)).
  assert (Hsh : shrunk same (blocks_items ibs) (concat xss)) by (apply shrunk_perm; by symmetry).
  destruct bsrs as [|r [|r' bsrs]].
  - destruct xss; [|done]. cbn in Hp. apply Permutation_nil in Hp. exists st, [], None. cbn [option_list]. rewrite Hp.
    split_and!; [done|by apply makes_nil|exact (List.Forall_nil _)|cbn; lia].
  - destruct xss as [|xs [|? ?]]; [done| |done]. apply Forall2_cons in Hall as [(Hw & Hbi & Hsto) _]. cbn [concat] in *. rewrite app_nil_r in *.
    destruct (init_stored good (r_block r) Hw) as (mp & b' & -> & Hmp); [by rewrite Hbi|by rewrite Hbi|]. rewrite bind_Ok, Hbi in *.
    destruct (new_inmemory_ok (E := out_of_fuel) good st g live mp xs (now + env_flush_interval env) Hs Hmp) as (st' & -> & H1 & H2 & H3); [unfold few in Hn'; lia|].
    rewrite bind_Ok. exists st', [(mp, xs)], (Some (length g)). split_and!; [done|by apply makes_one|apply Forall_singleton; cbn; lia|done].
  - destruct (merge_into_ok st g live (r :: r' :: bsrs) xss (now + env_flush_interval env) Hs Hst) as (st' & mp & ys & -> & H1 & H2 & H3 & H4); [by intros ->|done|done|done|].
    rewrite bind_Ok. exists st', [(mp, ys)], (Some (length g)). split_and!; [done| |apply Forall_singleton; cbn; lia|done]. apply makes_one; try done. by etransitivity.
Qed.

Lemma create_parts_ok now chunks : forall st g live, store_ok good st g live -> Forall (Forall (raw_block good)) chunks -> few (blocks_items (concat chunks)) ->
  exists st' g' pws, create_parts env now st chunks = Ok (st', pws) /\ makes st g live (blocks_items (concat chunks)) st' g' pws /\
    Forall (fun a => length g <= a)%nat pws /\ NoDup pws.
Proof.
  induction chunks as [|c chunks IH]; intros st g live Hs Hr Hn; cbn [create_parts concat].
  { exists st, [], []. split_and!; [done|by apply makes_nil|constructor|constructor]. }
  apply Forall_cons in Hr as [Hc Hr]. cbn [concat] in Hn. rewrite blocks_items_app in *.
  destruct (create_part_ok now st g live c Hs Hc (few_app_l _ _ Hn)) as (st1 & g1 & o & -> & M1 & F1 & _). rewrite bind_Ok.
  destruct (IH st1 (g ++ g1) (option_list o ++ live) (mk_store _ _ _ _ _ _ _ M1) Hr (few_app_r _ _ Hn)) as (st2 & g2 & pws & -> & M2 & F2 & N2). rewrite bind_Ok.
  exists st2, (g1 ++ g2), (option_list o ++ pws). rewrite length_app in F2. split_and!.
  - by destruct o.
  - by eapply makes_trans.
  - apply Forall_app. split; [revert F1|revert F2]; apply Forall_weaken; intros a; lia.
  - destruct o as [a|]; [|done]. cbn. constructor; [|done]. intros Hin. rewrite Forall_forall in F1, F2. specialize (F2 _ Hin).
    specialize (F1 a ltac:(by left)). lia.
Qed.

(** ** Reading wrappers *)

Definition open_reader (st : TableInner) (pw : PartWrapper) : run BlockStreamReader :=
  match pw_mp pw with Some mp => from_inmemory_part mp | None => from_file_part (ti_disk st) (p_path (pw_p pw)) end.

Lemma reader_at st g live a : store_ok good st g live -> a ∈ live -> few (items_of g a) ->
  exists pw r xss, ti_arcs st !! a = Some pw /\ open_reader st pw = Ok r /\ yields r xss /\ concat xss = items_of g a /\ xss <> [] /\
    sorted_items (items_of g a) /\ (length (items_of g a) <= reader_items r)%nat /\ Forall (item_ok good) (items_of g a).
Proof.
  intros Hs Ha Hn. destruct (store_at good st g live a Hs Ha) as (pw & [mp xs] & Hpw & Hk & [Hst Hkind] & Hit). cbn [fst snd] in *. rewrite Hit in *.
  destruct (stored_readable good mp xs Hst) as (mrs & xss & [Hm Hr Hy Hx Hne Hso Hc Hb [He1 He2]]); [unfold few in Hn; lia|].
  exists pw, (part_reader mp mrs), xss. split_and!; try done.
  - unfold open_reader. destruct (pw_mp pw) as [mp'|] eqn:Hmp; [by destruct Hkind as [-> _]|]. unfold from_file_part.
    pose proof (so_disk _ _ _ _ Hs a pw (mp, xs) Ha Hpw Hk Hmp) as Hd. cbn [fst] in Hd. rewrite Hd. unfold dir_of. by rewrite metadata_roundtrip, bind_Ok, Hm, bind_Ok.
  - unfold reader_items. cbn. rewrite Hc. lia.
  - by apply (stored_items good mp xs).
Qed.

Lemma readers_ok st g live pws : store_ok good st g live -> (forall a, a ∈ pws -> a ∈ live) -> few (contents_of g pws) ->
  exists ws bsrs, pws_at (E := out_of_fuel) (ti_arcs st) pws = Ok ws /\ map_res (open_reader st) ws = Ok bsrs /\
    streams bsrs (map (items_of g) pws) /\ (length (contents_of g pws) <= sum_list (map reader_items bsrs))%nat /\
    Forall2 (fun a pw => ti_arcs st !! a = Some pw) pws ws /\ Forall (item_ok good) (contents_of g pws).
Proof.
  intros Hs. induction pws as [|a pws IH]; intros Hl Hn.
  { exists [], []. split_and!; try done. apply streams_nil. }
  rewrite items_of_cons in Hn. destruct (reader_at st g live a Hs ltac:(apply Hl; left) (few_app_l _ _ Hn)) as (pw & r & xss & Hpw & Hr & Hy & Hx & Hne & Hso & Hc & Hok).
  destruct (IH ltac:(intros b Hb; apply Hl; by right) (few_app_r _ _ Hn)) as (ws & bsrs & Hws & Hbs & Hst & Hsum & Hall & Hok'). exists (pw :: ws), (r :: bsrs).
  unfold pws_at in *. cbn [map_res]. rewrite (idx_Some _ _ _ Hpw), bind_Ok, Hws, bind_Ok, Hr, bind_Ok, Hbs, bind_Ok.
  change (sum_list (map reader_items (r :: bsrs))) with (reader_items r + sum_list (map reader_items bsrs))%nat.
  rewrite items_of_cons, length_app. split_and!; [done|done| |lia|by constructor|by apply Forall_app]. cbn [map]. rewrite <-Hx. apply streams_cons; try done. by rewrite Hx.
Qed.

(** ** Merging a group of in-memory parts *)

Lemma map_res_ext {E A B} (h h' : A -> res E B) l : Forall (fun x => h x = h' x) l -> map_res h l = map_res h' l.
Proof. induction 1 as [|x l Hx _ IH]; [done|]. cbn [map_res]. by rewrite Hx, IH. Qed.

Lemma merge_final_ok now st g live grp : store_ok good st g (grp ++ live) -> grp <> [] -> Forall (in_memory (ti_arcs st)) grp -> few (contents_of g grp) ->
  exists st' g' a, must_merge_inmemory_parts_final env now st grp = Ok (st', a) /\ makes st g live (contents_of g grp) st' g' [a] /\
    (a ∈ grp \/ length g <= a < length g + length g')%nat.
Proof.
  intros Hs Hne Hmem Hn. unfold must_merge_inmemory_parts_final. destruct grp as [|a [|b grp]]; [done| |].
  { cbn [length Nat.eqb negb assert_]. rewrite bind_Ok. exists st, [], a. split; [done|]. split; [|left; by left].
    split; rewrite ?app_nil_r; try done. }
  cbn [length Nat.eqb negb assert_]. rewrite bind_Ok. set (grp2 := a :: b :: grp) in *.
  destruct (readers_ok st g (grp2 ++ live) grp2 Hs ltac:(intros c Hc; apply elem_of_app; by left) Hn) as (ws & bsrs & Hws & Hbs & Hst & Hsum & Hall & Hok).
  rewrite Hws, bind_Ok. rewrite (map_res_ext _ (open_reader st)).
  2:{ clear -Hall Hmem. induction Hall as [|c pw l ws Hc _ IH]; constructor; apply Forall_cons in Hmem as [(pw' & mp & Hl & Hm) Hmem]; [|by apply IH].
      rewrite Hc in Hl. injection Hl as <-. unfold open_reader. by rewrite Hm. }
  rewrite Hbs, bind_Ok.
  destruct (merge_into_ok st g (grp2 ++ live) bsrs (map (items_of g) grp2) (get_flush_to_disk_deadline now (env_flush_interval env) ws) Hs Hst ltac:(done) Hok Hn Hsum)
    as (st' & mp & ys & -> & H1 & H2 & H3 & H4).
  exists st', [(mp, ys)], (length g). split; [done|]. split; [|right; cbn; lia]. apply makes_one; try done.
  eapply store_sub; [|exact H2]. intros c. rewrite !elem_of_cons, elem_of_app. tauto.
Qed.

Lemma merge_groups_ok now groups : forall st g live, store_ok good st g (concat groups ++ live) -> Forall (fun grp => grp <> []) groups ->
  Forall (in_memory (ti_arcs st)) (concat groups) -> few (contents_of g (concat groups)) -> NoDup (concat groups) ->
  exists st' g' pws, merge_groups env now st groups = Ok (st', pws) /\ makes st g live (contents_of g (concat groups)) st' g' pws /\
    Forall (fun a => a ∈ concat groups \/ length g <= a)%nat pws /\ NoDup pws /\ length pws = length groups.
Proof.
  induction groups as [|grp groups IH]; intros st g live Hs Hne Hmem Hn Hnd; cbn [merge_groups concat].
  { exists st, [], []. split_and!; [done|by apply makes_nil|constructor|constructor|done]. }
  cbn [concat] in Hmem, Hn, Hnd, Hs. apply Forall_cons in Hne as [Hg Hne]. apply Forall_app in Hmem as [Hm1 Hm2]. rewrite contents_app in *.
  apply NoDup_app in Hnd as (Hnd1 & Hdisj & Hnd2). pose proof (so_valid _ _ _ _ Hs) as Hval. rewrite <-app_assoc in Hs. rewrite Forall_forall in Hval.
  destruct (merge_final_ok now st g (concat groups ++ live) grp Hs Hg Hm1 (few_app_l _ _ Hn)) as (st1 & g1 & a & -> & M1 & Ha). rewrite bind_Ok.
  assert (Hext : contents_of (g ++ g1) (concat groups) = contents_of g (concat groups)).
  { apply contents_extend, Forall_forall. intros c Hc. apply Hval. rewrite !elem_of_app. tauto. }
  destruct (IH st1 (g ++ g1) (a :: live)) as (st2 & g2 & pws & -> & M2 & F2 & N2 & L2).
  { eapply store_sub; [|exact (mk_store _ _ _ _ _ _ _ M1)]. intros c. rewrite !elem_of_app, !elem_of_cons. set_solver. }
  { done. }
  { revert Hm2. apply Forall_weaken. intros c. apply extends_in_memory, M1. }
  { rewrite Hext. by eapply few_app_r. }
  { done. }
  rewrite bind_Ok, Hext in *. exists st2, (g1 ++ g2), (a :: pws). rewrite length_app in F2. split_and!; [done| | | |cbn; lia].
  - destruct M1 as [E1 S1 M1 I1], M2 as [E2 S2 M2 I2]. change (a :: pws) with ([a] ++ pws). apply (makes_trans st g live _ st1 g1 [a] _ st2 g2 pws).
    + split; try done. eapply store_sub; [|exact S1]. set_solver.
    + by split.
  - constructor; [set_solver by lia|]. revert F2. apply Forall_weaken. intros c [Hc|Hc]; [left; set_solver|right; lia].
  - constructor; [|done]. intros Hin. rewrite Forall_forall in F2. destruct (F2 a Hin) as [Hc|Hc].
    + destruct Ha as [Ha|Ha]; [by apply (Hdisj a)|]. specialize (Hval a ltac:(set_solver)). lia.
    + destruct Ha as [Ha|Ha]; [|lia]. specialize (Hval a ltac:(set_solver)). lia.
Qed.

(** ** Merging parts of the table *)

(** The result of a merge of [pws]: a new part of the type [ty], or nothing
    when it was stopped. *)
Definition merged (st : TableInner) (g : known) (live pws : list nat) (fin : bool) (st' : TableInner) (r : (nat * PartType) + MergeError bsr_other) : Prop :=
  match r with
  | inl (a, ty) => a = length g /\ exists mp ys, store_ok good st' (g ++ [(mp, ys)]) (a :: live) /\ shrunk same (contents_of g pws) ys /\
      match ty with PtInmemory => fin = false /\ in_memory (ti_arcs st') a /\ Forall (in_memory (ti_arcs st)) pws | PtFile => in_file (ti_arcs st') a end
  | inr e => e = ForciblyStopped /\ store_ok good st' g live
  end.

Lemma dst_type_inmemory arcs pws ws fin : Forall2 (fun a pw => arcs !! a = Some pw) pws ws -> get_dst_part_type env ws fin = PtInmemory ->
  fin = false /\ Forall (in_memory arcs) pws.
Proof.
  unfold get_dst_part_type. intros Hall. destruct fin; cbn [orb]; [done|]. destruct (_ >? _); [done|]. destruct (are_all_inmemory_parts ws) eqn:Hm; [|done].
  intros _. split; [done|]. revert Hm. unfold are_all_inmemory_parts. clear -Hall. induction Hall as [|a pw pws ws Ha _ IH]; cbn [forallb]; [by constructor|].
  destruct (pw_mp pw) as [mp|] eqn:Hp; [|done]. intros Hm. constructor; [by exists pw, mp|by apply IH].
Qed.

Lemma merge_inner_ok tk st g live pws stop fin : store_ok good st g live -> pws <> [] -> (forall a, a ∈ pws -> a ∈ live) -> few (contents_of g pws) ->
  ti_merge_idx st + 1 < 2 ^ 64 ->
  exists st' r, merge_parts_inner env tk st pws stop fin = Ok (st', r) /\ extends (set_disk st (as_u64 (ti_merge_idx st + 1)) (ti_disk st)) st' /\
    ((forall k, stop k = false) -> exists x, r = inl x) /\ merged st g live pws fin st' r.
Proof.
  intros Hs Hne Hl Hn Hidx. destruct (readers_ok st g live pws Hs Hl Hn) as (ws & bsrs & Hws & Hbs & Hst & Hsum & Hall & Hok). unfold merge_parts_inner. rewrite Hws, bind_Ok.
  set (idx := as_u64 (ti_merge_idx st + 1)). set (st1 := set_disk st idx (ti_disk st)). set (ty := get_dst_part_type env ws fin).
  pose proof (merge_idx_ok good st g live Hs Hidx) as Hs1. fold idx st1 in Hs1.
  set (rest := (bsrs0 ← _; _)).
  assert (Hslow : exists st' r, rest = Ok (st', r) /\ extends st1 st' /\ ((forall k, stop k = false) -> exists x, r = inl x) /\ merged st g live pws fin st' r).
  { unfold rest, must_open_block_stream_readers. change (map_res _ ws) with (map_res (open_reader st) ws). rewrite Hbs, bind_Ok.
    destruct (merge_internal_ok (get_compress_level (sum_u64 (map (fun pw => ph_items_count (p_ph (pw_p pw))) ws))) bsrs (map (items_of g) pws) stop Hst)
      as (r & -> & Hns & Hr); [by destruct pws|done|done|done|]. rewrite bind_Ok. destruct r as [mp|e].
    - destruct Hr as (ys & Hys & Hsh). assert (Hfew : Z.of_nat (length ys) < 2 ^ 64) by (pose proof (few_shrunk _ _ Hn Hsh) as Hf; unfold few in Hf; lia).
      destruct ty eqn:Hty.
      + destruct (new_inmemory_ok (E := out_of_fuel) good st1 g live mp ys (get_flush_to_disk_deadline (tk_now tk) (env_flush_interval env) ws) Hs1 Hys Hfew) as (st' & -> & H1 & H2 & H3).
        rewrite bind_Ok. eexists _, _. split; [done|]. split; [done|]. split; [by eexists|]. split; [done|]. exists mp, ys. destruct (dst_type_inmemory _ _ _ _ Hall Hty). by split_and!.
      + destruct (new_file_ok (E := out_of_fuel) good st g live mp ys (tk_now tk) Hs Hys Hfew Hidx) as (d & st' & Hd & Hnew & H1 & H2 & H3). fold idx in Hd, Hnew, H1.
        change (ti_disk st1) with (ti_disk st). rewrite Hd, bind_Ok. change (set_disk st1 idx d) with (set_disk st idx d). rewrite Hnew, bind_Ok.
        eexists _, _. split; [done|]. split; [done|]. split; [by eexists|]. split; [done|]. exists mp, ys. by split_and!.
    - subst e. destruct ty eqn:Hty.
      + eexists _, _. split; [done|]. split; [done|]. split; [|by split]. intros Hk. destruct (Hns Hk). done.
      + destruct (partial_dir_ok (E := out_of_fuel) good st g live Hs Hidx) as (d & Hd & H1 & H2). fold idx in Hd, H1, H2. change (ti_disk st1) with (ti_disk st). rewrite Hd, bind_Ok.
        eexists _, _. split; [done|]. split; [done|]. split; [|by split]. intros Hk. destruct (Hns Hk). done. }
  destruct fin; [|exact Hslow]. destruct ws as [|[p [mp|] ? ? ?] [|? ?]]; try exact Hslow. clear Hslow.
  inversion Hall as [|a pw pws' ws' Ha Hnil]; subst. inversion Hnil; subst.
  destruct (store_at good st g live a Hs ltac:(apply Hl; left)) as (pw & [mp' xs] & Hpw & Hk & [Hsto Hkind] & Hit). rewrite Ha in Hpw. injection Hpw as <-. cbn [fst snd pw_mp] in *. destruct Hkind as [<- _].
  assert (Hcont : contents_of g [a] = xs) by (unfold contents_of; cbn; by rewrite Hit, app_nil_r). rewrite Hcont in *.
  destruct (new_file_ok (E := out_of_fuel) good st g live mp xs (tk_now tk) Hs Hsto ltac:(unfold few in Hn; lia) Hidx) as (d & st' & Hd & Hnew & H1 & H2 & H3). fold idx in Hd, Hnew, H1.
  change (ti_disk st1) with (ti_disk st). rewrite Hd, bind_Ok. change (set_disk st1 idx d) with (set_disk st idx d). rewrite Hnew, bind_Ok.
  eexists _, _. split; [done|]. split; [done|]. split; [by eexists|]. split; [done|]. exists mp, xs. rewrite Hcont. by split_and!.
Qed.
End Merges.
