(* ===== verification/ItemTableInv.v ===== *)
(** * The invariant of a table under concurrent threads

    What holds of a table and its threads after any sequence of steps: every
    part a thread or a search may read is there, with its directory when it is
    a file part; no part is in two places; parts in a merge are marked, and in
    one merge only; the list on disk names the file parts; and all items ever
    added are in the buffers, with the threads or in the parts. *)
From Stdlib Require Import ZArith Lia Bool Sorted Permutation.
From stdpp Require Import gmap.
From S2P Require Import Prelude Heap IntCodec Float64 Compress ItemBlock ItemBlockSpec ItemHeader ItemStream ItemMerge ItemMergeSpec ItemPartMerge BlockCache SearchBase ItemSearch PartSelect RawItems PartWrite PartDisk ItemTableOps ItemTableSteps ItemTableStore.
Local Open Scope Z_scope.

(** The wrappers a thread has made and not yet handed to the table. *)
Definition owned (t : task) : list nat :=
  match t with
  | TRound pws _ => pws
  | TPush big pws _ => big ++ pws
  | TPushed a big pws _ => a :: big ++ pws
  | TSwap _ a _ => [a]
  | _ => []
  end.

(** The wrappers it has marked as being merged. *)
Definition busy (t : task) : list nat :=
  match t with
  | TMerge pws _ _ | TSwap pws _ _ | TPermits pws _ _ _ | TRelease pws => pws
  | _ => []
  end.

(** The wrappers it has taken out of the table and will mark for deletion. *)
Definition gone (t : task) : list nat := match t with TPermits pws _ _ _ => pws | _ => [] end.

Abbreviation all_gone ts := (concat (map gone ts)).
Abbreviation all_owned ts := (concat (map owned ts)).
Abbreviation all_busy ts := (concat (map busy ts)).

(** The items only this thread holds; those too long for a block will be
    dropped. *)
Definition task_items (g : known) (t : task) : list (list Z) :=
  match t with
  | TAdd items => filter fits items
  | TAddIbs ibs rest | TFlush ibs rest => blocks_items ibs ++ filter fits rest
  | TTake _ dst _ _ => blocks_items dst
  | TRound pws rest => contents_of g pws ++ filter fits rest
  | TPush big pws rest => contents_of g (big ++ pws) ++ filter fits rest
  | TPushed a big pws rest => contents_of g (a :: big ++ pws) ++ filter fits rest
  | _ => []
  end.

Definition path_at (arcs : list PartWrapper) (a : nat) : list Z :=
  match arcs !! a with Some pw => p_path (pw_p pw) | None => [] end.

Definition marked (arcs : list PartWrapper) (a : nat) : Prop := exists pw, arcs !! a = Some pw /\ pw_is_in_merge pw = true.

Definition dropped (arcs : list PartWrapper) (a : nat) : Prop := exists pw, arcs !! a = Some pw /\ pw_must_drop pw = true.

Lemma gone_busy ts a : a ∈ all_gone ts -> a ∈ all_busy ts.
Proof. induction ts as [|t ts IH]; [done|]. cbn [map concat]. rewrite !elem_of_app. intros [Ha|Ha]; [left|right; auto]. destruct t; try done; by apply elem_of_nil in Ha. Qed.

Lemma gone_nil t : busy t = [] -> gone t = [].
Proof. by destruct t. Qed.

(** ** Lists of wrappers *)

(** The kinds of the wrappers do not change. *)
Definition keeps_kinds (st st' : TableInner) : Prop :=
  (forall a, in_memory (ti_arcs st) a -> in_memory (ti_arcs st') a) /\ (forall a, in_file (ti_arcs st) a -> in_file (ti_arcs st') a).

Lemma extends_kinds st st' : extends st st' -> keeps_kinds st st'.
Proof. intros H. split; intros a; [by apply extends_in_memory|by apply extends_in_file]. Qed.

(** What threads that do not work on the buffers leave alone. *)
Definition keeps_buffers (st st' : TableInner) : Prop := ti_raw_items st' = ti_raw_items st /\ ti_shutdown st' = ti_shutdown st.

(** The same for the in-memory parts. *)
Definition keeps_lists (st st' : TableInner) : Prop := keeps_buffers st st' /\ ti_inmemory_parts st' = ti_inmemory_parts st.

Lemma extends_lists st st' : extends st st' -> keeps_lists st st'.
Proof. intros He. split; [split; [apply (ex_raw _ _ He)|apply (ex_shutdown _ _ He)]|apply (ex_inmemory _ _ He)]. Qed.

(** The wrappers with other marks. *)
Definition same_parts (arcs arcs' : list PartWrapper) : Prop := Forall2 (fun p q => pw_p p = pw_p q /\ pw_mp p = pw_mp q) arcs arcs'.

Lemma filter_take_drop n (items : list (list Z)) : filter fits items = filter fits (take n items) ++ filter fits (drop n items).
Proof. by rewrite <-filter_app, take_drop. Qed.

Lemma path_extend st st' l : extends st st' -> Forall (in_file (ti_arcs st)) l -> map (path_at (ti_arcs st')) l = map (path_at (ti_arcs st)) l.
Proof.
  intros He Hl. apply map_ext_in. intros a Ha%list_elem_of_In. rewrite Forall_forall in Hl. destruct (Hl a Ha) as (pw & Hpw & _). unfold path_at.
  by rewrite (extends_lookup _ _ _ _ He Hpw), Hpw.
Qed.

Lemma marked_extend st st' a : extends st st' -> marked (ti_arcs st) a -> marked (ti_arcs st') a.
Proof. intros He (pw & Hpw & Hm). exists pw. split; [by eapply extends_lookup|done]. Qed.

(** New wrappers carry no mark. *)
Lemma marked_new st st' a : extends st st' -> marked (ti_arcs st') a -> marked (ti_arcs st) a.
Proof.
  intros He (pw & Hpw & Hm). destruct (ex_arcs _ _ He) as (l & Hl & Hf). rewrite Hl in Hpw. apply lookup_app_Some in Hpw as [Hpw|[_ Hpw]]; [by exists pw|].
  rewrite Forall_forall in Hf. destruct (Hf pw (list_elem_of_lookup_2 _ _ _ Hpw)). congruence.
Qed.

Lemma dropped_new st st' a : extends st st' -> dropped (ti_arcs st') a -> dropped (ti_arcs st) a.
Proof.
  intros He (pw & Hpw & Hm). destruct (ex_arcs _ _ He) as (l & Hl & Hf). rewrite Hl in Hpw. apply lookup_app_Some in Hpw as [Hpw|[_ Hpw]]; [by exists pw|].
  rewrite Forall_forall in Hf. destruct (Hf pw (list_elem_of_lookup_2 _ _ _ Hpw)). congruence.
Qed.

Lemma shuffle_perm {A} (l : list A) : forall order, shuffle order l ≡ₚ l.
Proof.
  induction l as [|x l IH]; intros order; [done|]. cbn [shuffle]. rewrite <-Permutation_middle, take_drop. by rewrite IH.
Qed.

Lemma chunks_concat {A} n (l : list A) : (0 < n)%nat -> forall fuel, (length l <= fuel)%nat -> concat (chunks_of fuel n l) = l.
Proof.
  intros Hn fuel. revert l. induction fuel as [|fuel IH]; intros l Hl; [by destruct l; [|cbn in Hl; lia]|]. destruct l as [|x l]; [done|].
  cbn [chunks_of concat]. rewrite IH by (rewrite length_drop; cbn in *; lia). by rewrite take_drop.
Qed.

Lemma chunks_length {A} n (l : list A) : forall fuel, (length (chunks_of fuel n l) <= fuel)%nat.
Proof. intros fuel. revert l. induction fuel as [|fuel IH]; intros [|x l]; cbn; try lia. specialize (IH (drop n (x :: l))). lia. Qed.

Lemma chunks_forall {A} (P : A -> Prop) n (l : list A) : Forall P l -> forall fuel, Forall (Forall P) (chunks_of fuel n l).
Proof.
  intros Hl fuel. revert l Hl. induction fuel as [|fuel IH]; intros l Hl; [by destruct l; constructor|]. destruct l as [|x l]; [constructor|].
  cbn [chunks_of]. constructor; [by apply Forall_take|]. by apply IH, Forall_drop.
Qed.

Lemma partition_perm {A} (P Q : A -> Prop) `{!forall x, Decision (P x), !forall x, Decision (Q x)} (l : list A) : (forall x, Q x <-> ~ P x) ->
  filter P l ++ filter Q l ≡ₚ l.
Proof.
  intros HQ. induction l as [|a l IH]; [done|]. rewrite !filter_cons. destruct (decide (P a)).
  - rewrite decide_False by (rewrite HQ; tauto). cbn. by rewrite IH.
  - rewrite decide_True by (by rewrite HQ). by rewrite <-Permutation_middle, IH.
Qed.

Lemma split_parts st pws : NoDup pws -> NoDup (get_parts st) -> (forall a, a ∈ pws -> a ∈ get_parts st) -> get_parts st ≡ₚ pws ++ filter (fun a => a ∉ pws) (get_parts st).
Proof.
  intros Hn Hg Hin. destruct (submseteq_Permutation pws (get_parts st)) as [rest Hp]; [by apply NoDup_submseteq|]. by rewrite (remove_from pws rest (get_parts st) Hg Hp).
Qed.

(** The file parts of a merge, and what is left of the others. *)
Lemma split_files st pws : NoDup pws -> NoDup (get_parts st) -> (forall a, a ∈ pws -> a ∈ get_parts st) ->
  ti_file_parts st ++ filter (fun a => a ∈ pws) (ti_inmemory_parts st) ≡ₚ filter (fun a => a ∉ pws) (ti_file_parts st) ++ pws.
Proof.
  intros Hn Hg Hin. assert (Hp : filter (fun a => a ∈ pws) (get_parts st) ≡ₚ pws).
  { apply NoDup_Permutation; [by apply NoDup_filter|done|]. intros a. rewrite list_elem_of_filter. split; [by intros [? _]|auto]. }
  transitivity (filter (fun a => a ∉ pws) (ti_file_parts st) ++ filter (fun a => a ∈ pws) (get_parts st)); [|by rewrite Hp]. unfold get_parts. rewrite filter_app.
  pose proof (partition_perm (fun a => a ∈ pws) (fun a => a ∉ pws) (ti_file_parts st) ltac:(done)) as Hq.
  rewrite <-Hq at 1. solve_Permutation.
Qed.

Lemma in_one_kind arcs a : in_memory arcs a -> in_file arcs a -> False.
Proof. intros (pw & mp & H1 & H2) (pw' & H3 & H4). congruence. Qed.

Lemma filter_all_length {A} (P : A -> Prop) `{!forall x, Decision (P x)} (l : list A) : (length l <= length (filter P l))%nat -> filter P l = l.
Proof.
  induction l as [|x l IH]; [done|]. rewrite filter_cons. destruct (decide (P x)); cbn; intros Hl; [f_equal; apply IH; lia|].
  pose proof (length_filter P l). lia.
Qed.

Lemma forall_filter {A} (P Q : A -> Prop) `{!forall x, Decision (P x)} (l : list A) : Forall Q l -> Forall Q (filter P l).
Proof. rewrite !Forall_forall. intros Hl x [_ Hx]%list_elem_of_filter. auto. Qed.

Lemma part_names_ok {E} st pws : Forall (in_file (ti_arcs st)) pws -> part_names (E := E) st pws = Ok (map (path_at (ti_arcs st)) pws).
Proof.
  intros Hf. unfold part_names, pws_at.
  assert (Hgo : exists ws, map_res (E := E) (idx (ti_arcs st)) pws = Ok ws /\ filter (fun pw => pw_mp pw = None) ws = ws /\ map (fun pw => p_path (pw_p pw)) ws = map (path_at (ti_arcs st)) pws).
  { induction Hf as [|a pws (pw & Ha & Hm) _ IH]; [by exists []|]. destruct IH as (ws & Hr & Hfl & Hmap). exists (pw :: ws). cbn [map_res]. rewrite (idx_Some _ _ _ Ha), bind_Ok, Hr, bind_Ok.
    split; [done|]. rewrite filter_cons, decide_True by done. split; [by rewrite Hfl|]. cbn [map]. rewrite Hmap. f_equal. unfold path_at. by rewrite Ha. }
  destruct Hgo as (ws & -> & Hfl & Hmap). by rewrite bind_Ok, Hfl, Hmap.
Qed.

Lemma same_parts_refl arcs : same_parts arcs arcs.
Proof. by induction arcs; constructor. Qed.

Lemma same_parts_trans a1 a2 a3 : same_parts a1 a2 -> same_parts a2 a3 -> same_parts a1 a3.
Proof.
  intros Hl. revert a3. induction Hl as [|p q l l' [E1 E2] _ IH]; intros a3 Hr; inversion Hr as [|? r ? l'' [E3 E4] Hr']; subst; constructor; [|by apply IH].
  split; congruence.
Qed.

Lemma same_parts_alter arcs a h : (forall pw, pw_p (h pw) = pw_p pw /\ pw_mp (h pw) = pw_mp pw) -> same_parts arcs (alter h a arcs).
Proof.
  intros Hh. revert a. induction arcs as [|pw arcs IH]; intros [|a]; cbn; constructor; try done; [|apply same_parts_refl|apply IH]. by destruct (Hh pw) as [-> ->].
Qed.

Lemma same_parts_l arcs arcs' a pw : same_parts arcs arcs' -> arcs !! a = Some pw -> exists pw', arcs' !! a = Some pw' /\ pw_p pw = pw_p pw' /\ pw_mp pw = pw_mp pw'.
Proof. intros H1 H2. destruct (Forall2_lookup_l _ _ _ _ _ H1 H2) as (pw' & ? & ?). by exists pw'. Qed.

Lemma same_parts_r arcs arcs' a pw : same_parts arcs arcs' -> arcs' !! a = Some pw -> exists pw', arcs !! a = Some pw' /\ pw_p pw' = pw_p pw /\ pw_mp pw' = pw_mp pw.
Proof. intros H1 H2. destruct (Forall2_lookup_r _ _ _ _ _ H1 H2) as (pw' & ? & ?). by exists pw'. Qed.

Lemma same_parts_kinds st arcs' id : same_parts (ti_arcs st) arcs' -> keeps_kinds st (set_arcs st arcs' id).
Proof.
  intros Hp. split; cbn.
  - intros a (pw & mp & Ha & Hm). destruct (same_parts_l _ _ _ _ Hp Ha) as (q & Hq & _ & Em). exists q, mp. split; [done|congruence].
  - intros a (pw & Ha & Hm). destruct (same_parts_l _ _ _ _ Hp Ha) as (q & Hq & _ & Em). exists q. split; [done|congruence].
Qed.

Lemma same_parts_path arcs arcs' a : same_parts arcs arcs' -> path_at arcs' a = path_at arcs a.
Proof.
  intros Hp. unfold path_at. destruct (arcs !! a) as [pw|] eqn:Ha; [destruct (same_parts_l _ _ _ _ Hp Ha) as (q & -> & -> & _); done|].
  destruct (arcs' !! a) as [pw|] eqn:Ha'; [|done]. destruct (same_parts_r _ _ _ _ Hp Ha') as (q & Hq & _). congruence.
Qed.

Lemma same_parts_store_flags b pws : forall arcs, same_parts arcs (store_flags b pws arcs).
Proof.
  induction pws as [|a pws IH]; intros arcs; [apply same_parts_refl|]. cbn. eapply same_parts_trans; [|apply IH]. by apply same_parts_alter.
Qed.

Lemma store_flags_lookup b pws : forall arcs a, store_flags b pws arcs !! a = (if decide (a ∈ pws) then set_is_in_merge b <$> arcs !! a else arcs !! a).
Proof.
  induction pws as [|c pws IH]; intros arcs a; [by rewrite decide_False by set_solver|]. change (store_flags b (c :: pws) arcs) with (store_flags b pws (alter (set_is_in_merge b) c arcs)). rewrite IH. destruct (decide (a = c)) as [->|Hne].
  - rewrite list_lookup_alter_eq, (decide_True (P := c ∈ c :: pws)) by set_solver. destruct (decide (c ∈ pws)); [|done]. destruct (arcs !! c); done.
  - rewrite list_lookup_alter_ne by done. destruct (decide (a ∈ pws)); [rewrite decide_True by set_solver|rewrite decide_False by set_solver]; done.
Qed.

Lemma insert_alter {A} (h : A -> A) (l : list A) a x : l !! a = Some x -> <[a := h x]> l = alter h a l.
Proof.
  intros Ha. apply list_eq. intros i. destruct (decide (i = a)) as [->|Hne].
  - rewrite list_lookup_alter_eq, Ha. rewrite list_lookup_insert_eq; [done|]. by eapply lookup_lt_Some.
  - by rewrite list_lookup_alter_ne, list_lookup_insert_ne.
Qed.

Lemma swap_flags_ok {E} b pws : forall arcs, NoDup pws -> Forall (fun a => exists pw, arcs !! a = Some pw /\ pw_is_in_merge pw = negb b) pws ->
  swap_flags (E := E) b pws arcs = Ok (store_flags b pws arcs).
Proof.
  induction pws as [|a pws IH]; intros arcs Hn Hf; [done|]. apply NoDup_cons in Hn as [Ha Hn]. apply Forall_cons in Hf as [(pw & Hpw & Hm) Hf]. cbn [swap_flags].
  rewrite (idx_Some _ _ _ Hpw), bind_Ok, Hm, eqb_reflx. cbn [assert_]. rewrite bind_Ok, (insert_alter (set_is_in_merge b) _ _ _ Hpw). apply IH; [done|].
  rewrite Forall_forall in Hf |- *. intros c Hc. destruct (Hf c Hc) as (pw' & Hc' & Hm'). exists pw'. rewrite list_lookup_alter_ne; [done|]. by intros ->.
Qed.

Lemma mark_must_drop_ok pws : forall arcs, same_parts arcs (mark_must_drop arcs pws) /\ forall a, marked (mark_must_drop arcs pws) a <-> marked arcs a.
Proof.
  induction pws as [|c pws IH]; intros arcs; [split; [apply same_parts_refl|done]|]. cbn. destruct (IH (alter set_must_drop c arcs)) as [H1 H2]. split.
  - eapply same_parts_trans; [|exact H1]. by apply same_parts_alter.
  - intros a. rewrite H2. unfold marked. destruct (decide (a = c)) as [->|Hne]; [|by rewrite list_lookup_alter_ne]. rewrite list_lookup_alter_eq.
    destruct (arcs !! c) as [pw|]; cbn; [|done]. split; intros (q & [= <-] & Hq); by eexists.
Qed.

Lemma store_flags_dropped b pws arcs a : dropped (store_flags b pws arcs) a -> dropped arcs a.
Proof.
  intros (pw & Hpw & Hm). rewrite store_flags_lookup in Hpw. destruct (decide (a ∈ pws)); [|by exists pw].
  destruct (arcs !! a) as [pw'|] eqn:Ha; [|done]. injection Hpw as <-. by exists pw'.
Qed.

Lemma mark_must_drop_dropped pws : forall arcs a, dropped (mark_must_drop arcs pws) a -> dropped arcs a \/ a ∈ pws.
Proof.
  induction pws as [|c pws IH]; intros arcs a Ha; [by left|]. cbn in Ha. apply IH in Ha as [(pw & Hpw & Hm)|Ha]; [|right; by right].
  destruct (decide (a = c)) as [->|Hne]; [right; by left|]. left. exists pw. by rewrite list_lookup_alter_ne in Hpw.
Qed.

Section Inv.
  Context `{Zs : Zstd} {Zl : ZstdLaws Zs} (good : list Z -> Prop) (same : relation (list (list Z))).

Definition task_ok (st : TableInner) (g : known) (t : task) : Prop :=
  match t with
  | TAdd items => Forall (addable good) items
  | TAddIbs ibs rest | TFlush ibs rest => Forall (raw_block good) ibs /\ Forall (addable good) rest
  | TTake _ dst _ _ => Forall (raw_block good) dst
  | TRound pws rest => Forall (in_memory (ti_arcs st)) pws /\ Forall (addable good) rest
  | TPush big pws rest => Forall (in_memory (ti_arcs st)) (big ++ pws) /\ Forall (addable good) rest
  | TPushed a big pws rest => Forall (in_memory (ti_arcs st)) (a :: big ++ pws) /\ Forall (addable good) rest
  | TMerge pws _ _ => pws <> [] /\ forall a, a ∈ pws -> a ∈ get_parts st
  | TSwap pws a ty => pws <> [] /\ (forall b, b ∈ pws -> b ∈ get_parts st) /\ shrunk same (contents_of g pws) (items_of g a) /\
      match ty with PtInmemory => Forall (in_memory (ti_arcs st)) (a :: pws) | PtFile => in_file (ti_arcs st) a end
  | TPermits pws _ _ removed => removed = length pws
  | TRelease _ => True
  end.

Definition places (st : TableInner) (ts : list task) : list nat := get_parts st ++ all_owned ts.

Record world_ok (st : TableInner) (ts : list task) (g : known) (added : list (list Z)) : Prop := {
  wk_raw : raw_ok good (ti_raw_items st);
  wk_store : store_ok good st g (places st ts);
  wk_nodup : NoDup (places st ts);
  wk_inmemory : Forall (in_memory (ti_arcs st)) (ti_inmemory_parts st);
  wk_files : Forall (in_file (ti_arcs st)) (ti_file_parts st);
  wk_tasks : Forall (task_ok st g) ts;
  wk_busy : NoDup (all_busy ts);
  wk_marked : Forall (marked (ti_arcs st)) (all_busy ts);
  wk_listed : exists names, d_parts (ti_disk st) = Some names /\ names ≡ₚ map (path_at (ti_arcs st)) (ti_file_parts st);
  wk_free : forall a, marked (ti_arcs st) a -> a ∈ all_busy ts;
  wk_items : shrunk same added (blocks_items (raw_blocks (ti_raw_items st)) ++ concat (map (task_items g) ts) ++ contents_of g (get_parts st));
  wk_kept : forall a, a ∈ all_gone ts \/ dropped (ti_arcs st) a -> a ∉ places st ts;
}.

(** ** The order of the threads does not matter *)

Lemma places_perm st ts ts' : ts ≡ₚ ts' -> places st ts ≡ₚ places st ts'.
Proof. intros Hp. unfold places. by rewrite Hp. Qed.

Lemma world_perm `{!SameItems same} st ts ts' g xs : ts ≡ₚ ts' -> world_ok st ts g xs -> world_ok st ts' g xs.
Proof.
  intros Hp [H1 H2 H3 H4 H5 H6 H7 H8 H9 HF H10 HK]. split; try done.
  - eapply store_sub; [|exact H2]. intros a. by rewrite (places_perm st ts ts' Hp).
  - by rewrite <-(places_perm st ts ts' Hp).
  - by rewrite <-Hp.
  - by rewrite <-Hp.
  - by rewrite <-Hp.
  - intros a Ha. rewrite <-Hp. by apply HF.
  - etransitivity; [exact H10|]. apply shrunk_perm. by rewrite Hp.
  - intros a Ha. rewrite <-(places_perm st ts ts' Hp). apply HK. destruct Ha as [Ha|Ha]; [left|by right]. by rewrite Hp.
Qed.

(** ** What other threads do not notice *)

Lemma task_frame st st' g g' t : task_ok st g t -> keeps_kinds st st' -> (forall a, a ∈ busy t -> a ∈ get_parts st -> a ∈ get_parts st') ->
  Forall (fun a => a < length g)%nat (get_parts st ++ owned t) -> task_ok st' (g ++ g') t.
Proof.
  intros Ht [Hm Hf] Hp Hv. assert (Hmem : forall l, Forall (in_memory (ti_arcs st)) l -> Forall (in_memory (ti_arcs st')) l)
    by (intros l; by apply Forall_weaken).
  destruct t; cbn [task_ok busy owned] in *; try done; try (by destruct Ht; split; [apply Hmem|]).
  - destruct Ht as [Hne Ht]. split; [done|]. auto.
  - destruct Ht as (Hne & Hin & Hsh & Hk). rewrite Forall_forall in Hv. split_and!; [done|auto| |by destruct ty; auto].
    rewrite contents_extend, items_extend; [done|apply Hv; set_solver|]. apply Forall_forall. intros b Hb. apply Hv. set_solver.
Qed.

Lemma task_items_extend g g' t : Forall (fun a => a < length g)%nat (owned t) -> task_items (g ++ g') t = task_items g t.
Proof. intros Hv. destruct t; cbn [task_items owned] in *; try done; by rewrite contents_extend. Qed.

Lemma all_items_extend g g' ts : Forall (fun a => a < length g)%nat (all_owned ts) -> concat (map (task_items (g ++ g')) ts) = concat (map (task_items g) ts).
Proof.
  induction ts as [|t ts IH]; [done|]. cbn [map concat]. intros [H1 H2]%Forall_app. by rewrite task_items_extend, IH.
Qed.

(** The other threads' conditions, for a step that changes no list. *)
Lemma tasks_frame st st' g g' ts : Forall (task_ok st g) ts -> keeps_kinds st st' -> (forall a, a ∈ get_parts st -> a ∈ all_busy ts -> a ∈ get_parts st') ->
  Forall (fun a => a < length g)%nat (get_parts st ++ all_owned ts) -> Forall (task_ok st' (g ++ g')) ts.
Proof.
  intros Ht Hk Hp Hv. rewrite Forall_forall in Hv. apply Forall_forall. intros t Hin. rewrite Forall_forall in Ht. eapply task_frame; [by apply Ht|done| |].
  - intros a Ha Hg. apply Hp; [done|]. apply list_elem_of_In, in_concat. exists (busy t). split; [apply in_map; by apply list_elem_of_In|by apply list_elem_of_In].
  - apply Forall_forall. intros a Ha. apply Hv. apply elem_of_app in Ha as [Ha|Ha]; [set_solver|]. apply elem_of_app. right.
    apply list_elem_of_In, in_concat. exists (owned t). split; [apply in_map; by apply list_elem_of_In|by apply list_elem_of_In].
Qed.
End Inv.

(** ** Steps *)

Section StepLemmas.
  Context `{Zs : Zstd} {Zl : ZstdLaws Zs} (good : list Z -> Prop) `{SameItems same} (f : list (list Z) -> list (list Z)).
  Context (env : Env) (Hcb : callback_ok good same (env_prepare_block env) f).

Abbreviation world_ok := (world_ok good same).
Abbreviation task_ok := (task_ok good same).

Lemma store_ext st st' g live : ti_arcs st' = ti_arcs st -> ti_disk st' = ti_disk st -> ti_merge_idx st' = ti_merge_idx st ->
  store_ok good st g live -> store_ok good st' g live.
Proof. intros E1 E2 E3 [H1 H2 H3 H4 H5 H6 H7]. split; rewrite ?E1, ?E2, ?E3; done. Qed.

(** A step of a thread: the invariant holds with the thread's continuation,
    what a search could find it still can, what was in files still is, and a
    merge index is used up. *)
Record step_ok (st : TableInner) (ts : list task) (g : known) (added : list (list Z)) (st' : TableInner) (ts' : list task) (g' : known) : Prop := {
  st_world : world_ok st' ts' (g ++ g') added;
  st_visible : exists more, shrunk same (contents_of g (get_parts st) ++ more) (contents_of (g ++ g') (get_parts st'));
  st_durable : exists more, shrunk same (contents_of g (ti_file_parts st) ++ more) (contents_of (g ++ g') (ti_file_parts st'));
  st_merge_idx : ti_merge_idx st' <= ti_merge_idx st + 1;
}.

Lemma valid_places st ts g xs : world_ok st ts g xs -> Forall (fun a => a < length g)%nat (places st ts).
Proof. intros Hw. apply (so_valid _ _ _ _ (wk_store _ _ _ _ _ _ Hw)). Qed.

Lemma kept_valid st ts g xs : world_ok st ts g xs -> forall a, a ∈ all_gone ts \/ dropped (ti_arcs st) a -> (a < length g)%nat.
Proof.
  intros Hw a Ha. rewrite <-(store_length _ _ _ _ (wk_store _ _ _ _ _ _ Hw)). destruct Ha as [Ha%gone_busy|(pw & Hpw & _)]; [|by eapply lookup_lt_Some].
  pose proof (wk_marked _ _ _ _ _ _ Hw) as Hm. rewrite Forall_forall in Hm. destruct (Hm a Ha) as (pw & Hpw & _). by eapply lookup_lt_Some.
Qed.

(** The items of the whole world are few when those added are. *)
Lemma few_world st ts g xs : world_ok st ts g xs -> few xs ->
  few (blocks_items (raw_blocks (ti_raw_items st)) ++ concat (map (task_items g) ts) ++ contents_of g (get_parts st)).
Proof. intros Hw Hn. eapply few_shrunk; [exact Hn|apply Hw]. Qed.

(** *** Buffers *)

Lemma raw_step st t ts g xs raw tl ts' : world_ok st (t :: ts) g xs -> owned t = [] -> busy t = [] -> all_owned ts' = [] -> all_busy ts' = [] ->
  raw_ok good raw -> (forall st', Forall (task_ok st' g) ts') ->
  shrunk same (blocks_items (raw_blocks (ti_raw_items st)) ++ task_items g t) (blocks_items (raw_blocks raw) ++ concat (map (task_items g) ts')) ->
  step_ok st (t :: ts) g xs (set_raw st raw tl) (ts' ++ ts) [].
Proof.
  intros [H1 H2 H3 H4 H5 H6 H7 H8 H9 HF H10 HK] Ho Hb Ho' Hb' Hr Ht Hsh. unfold places in *. cbn [map concat] in *. rewrite Ho, Hb in *. cbn [app] in *.
  split; rewrite ?app_nil_r; [split| | |cbn; lia]; unfold places; rewrite ?map_app, ?concat_app, ?Ho', ?Hb'; cbn [app]; try done.
  - by eapply store_ext; [| | |exact H2].
  - apply Forall_app. split; [done|]. apply Forall_cons in H6 as [_ H6]. revert H6. apply Forall_weaken. intros u Hu. by destruct u.
  - etransitivity; [exact H10|]. change (get_parts (set_raw st raw tl)) with (get_parts st). cbn [set_raw ti_raw_items].
    transitivity ((blocks_items (raw_blocks (ti_raw_items st)) ++ task_items g t) ++ concat (map (task_items g) ts) ++ contents_of g (get_parts st)).
    { apply shrunk_perm. by rewrite <-!app_assoc. }
    transitivity ((blocks_items (raw_blocks raw) ++ concat (map (task_items g) ts')) ++ concat (map (task_items g) ts) ++ contents_of g (get_parts st)).
    { by apply shrunk_app. }
    apply shrunk_perm. by rewrite <-!app_assoc.
  - intros a Ha. apply HK. destruct Ha as [Ha|Ha]; [left|by right]. apply elem_of_app in Ha as [Ha|Ha]; [|apply elem_of_app; by right].
    apply gone_busy in Ha. rewrite Hb' in Ha. by apply elem_of_nil in Ha.
  - exists []. by rewrite app_nil_r.
  - exists []. by rewrite app_nil_r.
Qed.

Lemma step_add_ok tk st items ts g xs : world_ok st (TAdd items :: ts) g xs ->
  exists st' ts' g', step_add env tk st items = Ok (st', ts') /\ step_ok st (TAdd items :: ts) g xs st' (ts' ++ ts) g'.
Proof.
  intros Hw. pose proof (wk_tasks _ _ _ _ _ _ Hw) as Ht. apply Forall_cons in Ht as [Hit _]. cbn in Hit. unfold step_add. destruct items as [|x items].
  { exists st, [], []. split; [done|]. assert (Heq : set_raw st (ti_raw_items st) (ti_too_long st) = st) by (by destruct st). rewrite <-Heq at 2.
    apply raw_step; try done. apply Hw. }
  set (l := x :: items) in *. destruct (add_to_shard_ok (E := out_of_fuel) good (env_max_blocks env) (tk_now_ms tk) (ti_raw_items st) l (ti_too_long st) (wk_raw _ _ _ _ _ _ Hw) Hit)
    as (raw & n & ibs & tl & -> & Hle & Hr & Hf & _ & Hp). rewrite bind_Ok. unfold slice_from. rewrite decide_True by done. rewrite bind_Ok.
  eexists _, _, []. split; [done|]. apply raw_step; try done.
  - intros st'. constructor; [|done]. split; [done|]. by apply Forall_drop.
  - apply shrunk_perm. cbn [map task_items concat]. rewrite app_nil_r, app_assoc, Hp, (filter_take_drop n l), <-app_assoc. done.
Qed.

Lemma step_add_ibs_ok tk st ibs rest ts g xs : world_ok st (TAddIbs ibs rest :: ts) g xs ->
  exists st' ts' g', step_add_ibs env tk st ibs rest = (st', ts') /\ step_ok st (TAddIbs ibs rest :: ts) g xs st' (ts' ++ ts) g'.
Proof.
  intros Hw. pose proof (wk_tasks _ _ _ _ _ _ Hw) as Ht. apply Forall_cons in Ht as [[Hib Hrest] _]. unfold step_add_ibs.
  destruct (add_ibs_to_flush _ _ _ _ _) as [raw merge] eqn:Ha. destruct (add_ibs_ok good _ _ _ _ _ _ _ (wk_raw _ _ _ _ _ _ Hw) Hib Ha) as (Hr & Hm & Hp).
  eexists _, _, []. split; [done|]. apply raw_step; try done.
  - intros st'. by constructor.
  - apply shrunk_perm. cbn [map task_items concat]. rewrite app_nil_r, !app_assoc. f_equiv. rewrite <-!blocks_items_app. by apply blocks_items_perm.
Qed.

Lemma step_take_ok st j dst now fin ts g xs : world_ok st (TTake j dst now fin :: ts) g xs ->
  exists st' ts' g', step_take st j dst now fin = Ok (st', ts') /\ step_ok st (TTake j dst now fin :: ts) g xs st' (ts' ++ ts) g'.
Proof.
  intros Hw. pose proof (wk_tasks _ _ _ _ _ _ Hw) as Ht. apply Forall_cons in Ht as [Hd _]. cbn in Hd. unfold step_take. destruct j as [|i].
  - destruct (take_pending _ _ _) as [raw out] eqn:Ha. destruct (take_pending_ok good _ _ _ _ _ (wk_raw _ _ _ _ _ _ Hw) Ha) as (Hr & Ho & Hp & _).
    eexists _, _, []. split; [done|]. apply raw_step; try done.
    + intros st'. constructor; [|done]. by apply Forall_app.
    + apply shrunk_perm. cbn [map task_items concat]. rewrite app_nil_r, <-!blocks_items_app. apply blocks_items_perm. rewrite <-Hp. solve_Permutation.
  - destruct (Nat.ltb_spec i (length (ri_shards (ti_raw_items st)))) as [Hlt|Hge].
    + destruct (take_shard_ok (E := out_of_fuel) good _ i dst now fin (wk_raw _ _ _ _ _ _ Hw) Hlt Hd) as (raw & dst' & -> & Hr & Hd' & Hp & _). rewrite bind_Ok.
      eexists _, _, []. split; [done|]. apply raw_step; try done.
      * intros st'. by constructor.
      * apply shrunk_perm. cbn [map task_items concat]. rewrite app_nil_r, <-!blocks_items_app. apply blocks_items_perm. by rewrite Hp.
    + exists st, [TFlush dst []], []. split; [done|]. assert (Heq : set_raw st (ti_raw_items st) (ti_too_long st) = st) by (by destruct st). rewrite <-Heq at 2.
      apply raw_step; try done; [apply Hw| |].
      * intros st'. by constructor.
      * apply shrunk_perm. cbn [map task_items concat]. by rewrite !app_nil_r.
Qed.

(** *** New parts *)

(** The invariant after new wrappers, for the table and the other threads. *)
Lemma world_extend st t ts g xs st' g' t' : world_ok st (t :: ts) g xs -> extends st st' ->
  store_ok good st' (g ++ g') (get_parts st ++ owned t' ++ all_owned ts) -> NoDup (get_parts st ++ owned t' ++ all_owned ts) -> Forall (fun a => a ∈ owned t \/ length g <= a)%nat (owned t') -> busy t' = busy t -> gone t' = gone t ->
  task_ok st' (g ++ g') t' -> shrunk same (task_items g t) (task_items (g ++ g') t') -> world_ok st' (t' :: ts) (g ++ g') xs.
Proof.
  intros Hw He Hs Hnd Hfr Hb Hgn Ht Hsh. pose proof (kept_valid _ _ _ _ Hw) as Hkv. pose proof (valid_places _ _ _ _ Hw) as Hv. unfold places in Hv. cbn [map concat] in Hv.
  assert (Hgp : get_parts st' = get_parts st) by (unfold get_parts; by rewrite (ex_inmemory _ _ He), (ex_files _ _ He)).
  assert (Hv1 : Forall (fun a => a < length g)%nat (get_parts st)) by (by apply Forall_app in Hv as [? _]).
  assert (Hv2 : Forall (fun a => a < length g)%nat (all_owned ts)) by (apply Forall_app in Hv as [_ [_ ?]%Forall_app]; done).
  destruct Hw as [H1 H2 H3 H4 H5 H6 H7 H8 H9 HF H10 HK]. apply Forall_cons in H6 as [_ H6].
  split; unfold places; rewrite ?Hgp; cbn [map concat]; rewrite ?(ex_raw _ _ He), ?(ex_inmemory _ _ He), ?(ex_files _ _ He), ?Hb; try done.
  - revert H4. apply Forall_weaken. intros a. by apply extends_in_memory.
  - revert H5. apply Forall_weaken. intros a. by apply extends_in_file.
  - constructor; [done|]. eapply tasks_frame; [done|by apply extends_kinds|by rewrite Hgp|by apply Forall_app].
  - revert H8. apply Forall_weaken. intros a. by apply marked_extend.
  - destruct H9 as (names & Hn & Hp). exists names. by rewrite (ex_listed _ _ He), (path_extend _ _ _ He H5).
  - intros a Ha. by apply HF, (marked_new st st').
  - etransitivity; [exact H10|]. rewrite all_items_extend, contents_extend by done. cbn [map concat]. apply shrunk_app; [done|]. rewrite <-!app_assoc. by apply shrunk_app.
  - intros a Ha. assert (Ha' : a ∈ all_gone (t :: ts) \/ dropped (ti_arcs st) a) by (cbn [map concat]; rewrite <-Hgn; destruct Ha as [Ha|Ha]; [by left|right; by eapply dropped_new]).
    pose proof (HK a Ha') as Hout. pose proof (Hkv a Ha') as Hlt. unfold places in Hout. cbn [map concat] in Hout. rewrite Forall_forall in Hfr.
    rewrite !elem_of_app in Hout |- *. intros [?|[Hin|?]]; [tauto| |tauto]. destruct (Hfr a Hin); [tauto|lia].
Qed.

Lemma extend_visible st ts g xs st' g' : world_ok st ts g xs -> extends st st' ->
  exists more, shrunk same (contents_of g (get_parts st) ++ more) (contents_of (g ++ g') (get_parts st')).
Proof.
  intros Hw He. exists []. rewrite app_nil_r. unfold get_parts at 2. rewrite (ex_inmemory _ _ He), (ex_files _ _ He), contents_extend; [done|].
  pose proof (valid_places _ _ _ _ Hw) as Hv. by apply Forall_app in Hv as [? _].
Qed.

Lemma extend_durable st ts g xs st' g' : world_ok st ts g xs -> extends st st' ->
  exists more, shrunk same (contents_of g (ti_file_parts st) ++ more) (contents_of (g ++ g') (ti_file_parts st')).
Proof.
  intros Hw He. exists []. rewrite app_nil_r, (ex_files _ _ He), contents_extend; [done|].
  pose proof (valid_places _ _ _ _ Hw) as Hv. apply Forall_app in Hv as [Hv _]. by apply Forall_app in Hv as [_ ?].
Qed.

Lemma make_step st t ts g xs ys st' g' pws t' : world_ok st (t :: ts) g xs -> busy t = [] -> busy t' = [] ->
  makes good (same := same) st g (get_parts st ++ all_owned ts) ys st' g' pws -> NoDup pws -> Forall (fun a => a ∈ owned t \/ length g <= a)%nat pws ->
  owned t' ≡ₚ pws -> task_ok st' (g ++ g') t' -> shrunk same (task_items g t) (task_items (g ++ g') t') ->
  step_ok st (t :: ts) g xs st' ([t'] ++ ts) g'.
Proof.
  intros Hw Hb Hb' [He Hs _ _] Hnd Hfr Hp Ht Hsh. pose proof (valid_places _ _ _ _ Hw) as Hv. pose proof (wk_nodup _ _ _ _ _ _ Hw) as Hn.
  unfold places in Hv, Hn. cbn [map concat] in Hv, Hn. assert (Hperm : get_parts st ++ owned t' ++ all_owned ts ≡ₚ pws ++ get_parts st ++ all_owned ts).
  { rewrite Hp. solve_Permutation. }
  assert (Hw' : world_ok st' (t' :: ts) (g ++ g') xs).
  { assert (Hgn : gone t' = gone t) by (by rewrite (gone_nil t Hb), (gone_nil t' Hb')). eapply world_extend; try done; [| | |congruence].
    - eapply store_sub; [|exact Hs]. intros a. by rewrite Hperm.
    - rewrite Hperm. apply NoDup_app. split; [done|]. split.
      + intros a Ha Hin. rewrite Forall_forall in Hfr, Hv. destruct (Hfr a Ha) as [Ho|Hge].
        * apply NoDup_app in Hn as (_ & Hd & Hn). apply NoDup_app in Hn as (_ & Hd2 & _). set_solver.
        * specialize (Hv a ltac:(set_solver)). lia.
      + apply NoDup_app in Hn as (N1 & Hd & Hn). apply NoDup_app in Hn as (_ & _ & N2). apply NoDup_app. split_and!; [done|set_solver|done].
    - by rewrite Hp. }
  split; [done|by eapply extend_visible|by eapply extend_durable|rewrite (ex_merge_idx _ _ He); lia].
Qed.

Lemma few_task st t ts g xs : world_ok st (t :: ts) g xs -> few xs -> few (task_items g t).
Proof. intros Hw Hn. pose proof (few_world _ _ _ _ Hw Hn) as Hf. cbn [map concat] in Hf. unfold few in *. rewrite !length_app in Hf. lia. Qed.

Lemma create_parts_length now st chunks : forall st' pws, create_parts env now st chunks = Ok (st', pws) -> (length pws <= length chunks)%nat.
Proof.
  revert st. induction chunks as [|c chunks IH]; intros st st' pws; cbn [create_parts]; [by intros [= <- <-]|].
  intros ([st1 o] & _ & Hr)%bind_ok. apply bind_ok in Hr as ([st2 ps] & Hr & [= <- <-]). apply IH in Hr. destruct o; cbn; lia.
Qed.

Lemma step_flush_ok tk st ibs rest ts g xs : world_ok st (TFlush ibs rest :: ts) g xs -> few xs ->
  exists st' ts' g', step_flush env tk st ibs rest = Ok (st', ts') /\ step_ok st (TFlush ibs rest :: ts) g xs st' (ts' ++ ts) g' /\ keeps_lists st st' /\
    exists t', ts' = [t'] /\ (t' = TAdd rest \/ exists pws, t' = TRound pws rest /\ (length pws <= length ibs)%nat).
Proof.
  intros Hw Hfew. pose proof (wk_tasks _ _ _ _ _ _ Hw) as Ht. apply Forall_cons in Ht as [[Hib Hrest] _]. unfold step_flush. destruct ibs as [|b ibs].
  { exists st, [TAdd rest], []. split; [done|]. split; [|split; [done|eexists; split; [done|by left]]]. assert (Heq : set_raw st (ti_raw_items st) (ti_too_long st) = st) by (by destruct st). rewrite <-Heq at 2.
    apply raw_step; try done; [apply Hw| |].
    - intros st'. by constructor.
    - cbn [map task_items concat]. by rewrite app_nil_r. }
  set (l := b :: ibs) in *. unfold blocks_to_parts.
  destruct (create_parts_ok good f env Hcb (tk_now tk) (chunks_of (length l) DEFAULT_PARTS_TO_MERGE l) st g (get_parts st ++ all_owned ts)) as (st' & g' & pws & Hrun & Hmk & Hfr & Hnd).
  { apply (wk_store _ _ _ _ _ _ Hw). } { by apply chunks_forall. }
  { rewrite chunks_concat by (unfold DEFAULT_PARTS_TO_MERGE; lia). by eapply few_app_l, (few_task _ _ _ _ _ Hw). }
  pose proof (create_parts_length _ _ _ _ _ Hrun) as Hlen. rewrite Hrun, !bind_Ok. rewrite chunks_concat in Hmk by (unfold DEFAULT_PARTS_TO_MERGE; lia). pose proof (shuffle_perm pws (tk_order tk)) as Hsp.
  eexists _, [TRound _ _], g'. split; [done|]. split; [|split; [apply extends_lists, Hmk|]].
  2:{ eexists. split; [done|]. right. eexists. split; [done|]. rewrite (Permutation_length Hsp). pose proof (chunks_length DEFAULT_PARTS_TO_MERGE l (length l)). lia. }
  eapply make_step; try done.
  - revert Hfr. apply Forall_weaken. auto.
  - split; [|done]. rewrite Hsp. apply Hmk.
  - cbn [task_items]. apply shrunk_app; [|done]. etransitivity; [apply Hmk|]. apply shrunk_perm, contents_perm. by rewrite Hsp.
Qed.

Lemma step_round_ok tk st pws rest ts g xs : world_ok st (TRound pws rest :: ts) g xs -> few xs ->
  exists st' ts' g', step_round env tk st pws rest = Ok (st', ts') /\ step_ok st (TRound pws rest :: ts) g xs st' (ts' ++ ts) g' /\ keeps_lists st st' /\
    exists t', ts' = [t'] /\ (pws = [] /\ t' = TAdd rest \/ (exists a, pws = [a] /\ t' = TPush [a] [] rest) \/
      exists big rem, t' = TPush big rem rest /\ (length big + length rem < length pws)%nat).
Proof.
  intros Hw Hfew. pose proof (wk_tasks _ _ _ _ _ _ Hw) as Ht. apply Forall_cons in Ht as [[Hmem Hrest] _]. pose proof (wk_nodup _ _ _ _ _ _ Hw) as Hn.
  pose proof (wk_store _ _ _ _ _ _ Hw) as Hs. unfold places in Hn, Hs. cbn [map concat owned] in Hn, Hs. apply NoDup_app in Hn as (_ & _ & Hn).
  apply NoDup_app in Hn as (Hnd & _). pose proof (few_task _ _ _ _ _ Hw Hfew) as Hft. cbn [task_items] in Hft. apply few_app_l in Hft.
  assert (Hs' : store_ok good st g (pws ++ get_parts st ++ all_owned ts)) by (eapply store_sub; [|exact Hs]; set_solver).
  unfold step_round. destruct pws as [|a [|b pws]].
  - exists st, [TAdd rest], []. split; [done|]. split; [|split; [done|eexists; split; [done|by left]]].
    apply (make_step st _ ts g xs [] st [] []); try done. by apply makes_nil.
  - exists st, [TPush [a] [] rest], []. split; [done|]. split; [|split; [done|eexists; split; [done|right; left; by exists a]]].
    apply (make_step st _ ts g xs (contents_of g [a]) st [] [a]); try done.
    + split; rewrite ?app_nil_r; done.
    + constructor; [|done]. left. by left.
    + by rewrite app_nil_r.
  - set (l := a :: b :: pws) in *. unfold must_merge_inmemory_parts.
    destruct (optimal_groups_ok (size_at (ti_arcs st)) (length l) l Hnd ltac:(done)) as (groups & -> & Hp & Hne & Hlt & _). rewrite bind_Ok.
    destruct (merge_groups_ok good f env Hcb (tk_now tk) groups st g (get_parts st ++ all_owned ts)) as (st' & g' & pws' & -> & Hmk & Hfr & Hnd' & Hlen).
    { eapply store_sub; [|exact Hs']. intros c. by rewrite Hp. } { done. } { by rewrite <-Hp. }
    { unfold few in *. by rewrite <-(Permutation_length (contents_perm g _ _ Hp)). } { by rewrite <-Hp. }
    rewrite !bind_Ok. pose proof (shuffle_perm pws' (tk_order tk)) as Hsp. set (sh := shuffle _ _) in *.
    set (isb := fun a => size_at (ti_arcs st') a >=? get_max_inmemory_part_size (env_allowed env)). pose proof (partition_perm (fun a => isb a = true) (fun a => isb a = false) sh ltac:(intros c; by rewrite not_true_iff_false)) as Hpart.
    assert (Hall : filter (fun a => isb a = true) sh ++ filter (fun a => isb a = false) sh ≡ₚ pws') by (by rewrite Hpart).
    exists st', [TPush (filter (fun a => isb a = true) sh) (filter (fun a => isb a = false) sh) rest], g'. split; [done|]. split; [|split; [apply extends_lists, Hmk|]].
    + eapply make_step; try done.
      * revert Hfr. apply Forall_weaken. intros c. cbn [owned]. by rewrite Hp.
      * split; [|done]. rewrite Hall. apply Hmk.
      * cbn [task_items]. apply shrunk_app; [|done]. etransitivity; [apply shrunk_perm, contents_perm, Hp|]. etransitivity; [apply Hmk|].
        apply shrunk_perm, contents_perm. by rewrite Hall.
    + eexists. split; [done|]. right; right. eexists _, _. split; [done|]. rewrite <-length_app, (Permutation_length Hall), Hlen. apply Hlt. cbn. lia.
Qed.

(** *** Permits *)

Lemma world_limit st ts g xs n : world_ok st ts g xs -> world_ok (set_limit st n) ts g xs.
Proof.
  intros [H1 H2 H3 H4 H5 H6 H7 H8 H9 HF H10 HK]. split; try done. by eapply store_ext; [| | |exact H2].
Qed.

(** A step that only changes what the thread is about to do. *)
Lemma world_task st t t' ts g xs : world_ok st (t :: ts) g xs -> owned t' = owned t -> busy t' = busy t -> gone t' = gone t -> task_ok st g t' -> task_items g t' = task_items g t ->
  world_ok st (t' :: ts) g xs.
Proof.
  intros Hw Ho Hb Hgn Ht Hi. pose proof (world_extend st t ts g xs st [] t' Hw) as He. rewrite app_nil_r in He. apply He; try done.
  - rewrite Ho. apply (wk_store _ _ _ _ _ _ Hw).
  - rewrite Ho. apply (wk_nodup _ _ _ _ _ _ Hw).
  - rewrite Ho. apply Forall_forall. by left.
  - by rewrite Hi.
Qed.

(** Steps that make no wrapper and change no list. *)
Lemma quiet_step st ts g xs st' ts' : world_ok st' ts' g xs -> ti_inmemory_parts st' = ti_inmemory_parts st -> ti_file_parts st' = ti_file_parts st -> ti_merge_idx st' = ti_merge_idx st -> step_ok st ts g xs st' ts' [].
Proof.
  intros Hw Hp Hf Hm. split; rewrite ?app_nil_r; [done| | |lia]; exists []; unfold get_parts; by rewrite ?Hp, Hf, app_nil_r.
Qed.

Lemma step_push_ok st big pws rest ts g xs : world_ok st (TPush big pws rest :: ts) g xs ->
  exists st' t' g', step_push st big pws rest = (st', [t']) /\ step_ok st (TPush big pws rest :: ts) g xs st' ([t'] ++ ts) g' /\ keeps_lists st st' /\
    (big = [] /\ t' = TRound pws rest \/ exists a big', big = a :: big' /\ (t' = TPushed a big' pws rest \/ t' = TPush big pws rest /\ ti_shutdown st = false)).
Proof.
  intros Hw. pose proof (wk_tasks _ _ _ _ _ _ Hw) as Ht. apply Forall_cons in Ht as [Ht _]. unfold step_push. destruct big as [|a big].
  { exists st, (TRound pws rest), []. split; [done|]. split; [|split; [done|by left]]. apply quiet_step; try done. by eapply world_task. }
  destruct (Nat.ltb_spec 0 (ti_limit st)).
  - exists (set_limit st (ti_limit st - 1)), (TPushed a big pws rest), []. split; [done|]. split; [|split; [done|right; exists a, big; auto]]. apply quiet_step; try done. apply world_limit. by eapply world_task.
  - destruct (ti_shutdown st) eqn:Hsd.
    + exists st, (TPushed a big pws rest), []. split; [done|]. split; [|split; [done|right; exists a, big; auto]]. apply quiet_step; try done. by eapply world_task.
    + exists st, (TPush (a :: big) pws rest), []. split; [done|]. split; [by apply quiet_step|]. split; [done|]. right. exists a, big. auto.
Qed.

(** *** The lists of parts *)

Lemma step_pushed_ok st a big pws rest ts g xs : world_ok st (TPushed a big pws rest :: ts) g xs ->
  exists st' g', step_pushed st a big pws rest = (st', [TPush big pws rest]) /\ step_ok st (TPushed a big pws rest :: ts) g xs st' ([TPush big pws rest] ++ ts) g' /\ keeps_buffers st st'.
Proof.
  intros Hw. unfold step_pushed. eexists _, []. split; [done|]. split; [|done]. pose proof (valid_places _ _ _ _ Hw) as Hv.
  destruct Hw as [H1 H2 H3 H4 H5 H6 H7 H8 H9 HF H10 HK]. apply Forall_cons in H6 as [[Hm Hrest] H6]. apply Forall_cons in Hm as [Ha Hm].
  set (st' := set_parts _ _ _). assert (Hgp : get_parts st' ≡ₚ get_parts st ++ [a]) by (unfold get_parts, st'; cbn; solve_Permutation).
  assert (Hpl : places st' (TPush big pws rest :: ts) ≡ₚ places st (TPushed a big pws rest :: ts)).
  { unfold places. rewrite Hgp. cbn [map concat owned]. solve_Permutation. }
  split; rewrite ?app_nil_r; [split| | |cbn; lia]; try done.
  - apply (store_ext st); try done. eapply store_sub; [|exact H2]. intros b. by rewrite Hpl.
  - by rewrite Hpl.
  - cbn. apply Forall_app. split; [done|by constructor].
  - constructor; [done|]. rewrite <-(app_nil_r g) in H6 |- *. rewrite app_nil_r in H6. eapply (tasks_frame good same st st'); [done|by split|intros b; rewrite Hgp; set_solver|].
    unfold places in Hv. cbn [map concat] in Hv. apply Forall_app in Hv as [Hv1 [_ Hv2]%Forall_app]. by apply Forall_app.
  - etransitivity; [exact H10|]. apply shrunk_perm. cbn [map concat task_items]. rewrite (contents_perm g _ _ Hgp), contents_app, !items_of_cons. unfold contents_of at 4. cbn [map concat]. solve_Permutation.
  - intros b Hb. rewrite Hpl. by apply HK.
  - exists (items_of g a). apply shrunk_perm. rewrite (contents_perm g _ _ Hgp), contents_app. unfold contents_of at 3. cbn. by rewrite app_nil_r.
  - exists []. by rewrite app_nil_r.
Qed.

(** Parts in a merge are parts of the table. *)

Lemma step_merge_ok tk st pws has_stop fin ts g xs : world_ok st (TMerge pws has_stop fin :: ts) g xs -> few xs -> ti_merge_idx st + 1 < 2 ^ 64 ->
  exists st' t' g', step_merge env tk st pws has_stop fin = Ok (st', [t']) /\ step_ok st (TMerge pws has_stop fin :: ts) g xs st' ([t'] ++ ts) g' /\ keeps_lists st st' /\
    ((exists a ty, t' = TSwap pws a ty /\ (fin = true -> ty = PtFile)) \/ has_stop = true /\ t' = TRelease pws).
Proof.
  intros Hw Hfew Hidx. pose proof (wk_tasks _ _ _ _ _ _ Hw) as Ht. apply Forall_cons in Ht as [[Hne Hin] _]. pose proof (wk_nodup _ _ _ _ _ _ Hw) as Hn.
  pose proof (wk_busy _ _ _ _ _ _ Hw) as Hb. cbn [map concat busy] in Hb. apply NoDup_app in Hb as (Hb & _). unfold places in Hn. pose proof Hn as Hn0. apply NoDup_app in Hn0 as (Hng & _).
  pose proof (wk_marked _ _ _ _ _ _ Hw) as Hmk. cbn [map concat busy] in Hmk. apply Forall_app in Hmk as [Hmk _].
  assert (Hsub : forall a, a ∈ pws -> a ∈ places st (TMerge pws has_stop fin :: ts)) by (intros a Ha; apply elem_of_app; left; auto).
  assert (Hfc : few (contents_of g pws)).
  { pose proof (few_app_r _ _ (few_app_r _ _ (few_world _ _ _ _ Hw Hfew))) as Hf. unfold few in *.
    rewrite (Permutation_length (contents_perm g _ _ (split_parts st pws Hb Hng Hin))), contents_app, length_app in Hf. lia. }
  unfold step_merge. rewrite (proj2 (Nat.eqb_neq _ _)) by (by destruct pws). cbn [negb assert_]. rewrite bind_Ok.
  destruct (readers_ok good st g _ pws (wk_store _ _ _ _ _ _ Hw) Hsub Hfc) as (ws & _ & Hws & _ & _ & _ & Hall & _). rewrite Hws, bind_Ok.
  assert (Hfl : forallb pw_is_in_merge ws = true).
  { clear -Hall Hmk. induction Hall as [|a pw l ws Ha _ IH]; [done|]. apply Forall_cons in Hmk as [(pw' & Ha' & Hm) Hmk]. rewrite Ha in Ha'. injection Ha' as <-. cbn. by rewrite Hm, IH. }
  rewrite Hfl. cbn [assert_]. rewrite bind_Ok. set (stop := if has_stop then _ else _).
  destruct (merge_inner_ok good f env Hcb tk st g _ pws stop fin (wk_store _ _ _ _ _ _ Hw) Hne Hsub Hfc Hidx) as (st' & r & Hrun & He & Hns & Hr). rewrite Hrun, bind_Ok.
  set (st1 := set_disk st (as_u64 (ti_merge_idx st + 1)) (ti_disk st)) in *.
  assert (Hw1 : world_ok st1 (TMerge pws has_stop fin :: ts) g xs).
  { destruct Hw as [H1 H2 H3 H4 H5 H6 H7 H8 H9 HF H10 HK]. split; try done. by apply merge_idx_ok. }
  pose proof (valid_places _ _ _ _ Hw) as Hv. unfold places in Hv. cbn [map concat owned app] in Hv.
  assert (Hgp : get_parts st' = get_parts st) by (unfold get_parts; by rewrite (ex_inmemory _ _ He), (ex_files _ _ He)).
  assert (Hmi : ti_merge_idx st' <= ti_merge_idx st + 1).
  { rewrite (ex_merge_idx _ _ He). unfold st1. cbn. rewrite wrap_u_id; [lia|]. pose proof (so_merge_idx _ _ _ _ (wk_store _ _ _ _ _ _ Hw)). unfold is_u. lia. }
  destruct r as [[a ty]|e].
  - destruct Hr as (-> & mp & ys & Hs & Hsh & Hk). exists st', (TSwap pws (length g) ty), [(mp, ys)]. split; [done|]. split; [|split; [by apply (extends_lists st1)|]].
    + split; [|by eapply (extend_visible st1)|by eapply (extend_durable st1)|done]. eapply (world_extend st1); try done.
      * eapply store_sub; [|exact Hs]. intros b. unfold places. cbn [map concat owned app]. set_solver.
      * cbn [owned]. change (get_parts st1) with (get_parts st). 
        assert (Hperm : get_parts st ++ [length g] ++ all_owned ts ≡ₚ length g :: get_parts st ++ all_owned ts) by solve_Permutation. rewrite Hperm.
        constructor; [|exact Hn]. intros Hin'. rewrite Forall_forall in Hv. specialize (Hv _ Hin'). lia.
      * cbn [owned]. constructor; [by right|constructor].
      * split_and!; [done|by rewrite Hgp| |].
        2:{ destruct ty; [|done]. destruct Hk as (_ & Hk1 & Hk2). constructor; [done|]. revert Hk2. apply Forall_weaken. intros b. by apply (extends_in_memory st1). }
        rewrite items_new, contents_extend; [done|]. apply Forall_forall. intros b Hb'. rewrite Forall_forall in Hv. apply Hv. set_solver.
    + left. exists (length g), ty. split; [done|]. intros ->. destruct ty; [by destruct Hk|done].
  - destruct Hr as [-> Hs]. exists st', (TRelease pws), []. split; [done|]. split; [|split; [by apply (extends_lists st1)|]].
    + split; [|by eapply (extend_visible st1)|by eapply (extend_durable st1)|done]. eapply (world_extend st1); try done; rewrite ?app_nil_r; try done; constructor.
    + right. split; [|done]. destruct has_stop; [done|]. destruct (Hns ltac:(done)). done.
Qed.

(** *** The exchange of parts *)

(** The parts that an exchange leaves in a list. *)
Abbreviation others pws l := (filter (fun b => b ∉ pws) l).

Lemma swap_durable st pws a ty ts g xs : world_ok st (TSwap pws a ty :: ts) g xs ->
  exists more, shrunk same (contents_of g (ti_file_parts st) ++ more) (contents_of g (others pws (ti_file_parts st) ++ match ty with PtInmemory => [] | PtFile => [a] end)).
Proof.
  intros Hw. pose proof (wk_tasks _ _ _ _ _ _ Hw) as Ht. apply Forall_cons in Ht as [(Hne & Hin & Hsh & Hk) _].
  pose proof (wk_nodup _ _ _ _ _ _ Hw) as Hn. apply NoDup_app in Hn as (Hng & _). pose proof (wk_busy _ _ _ _ _ _ Hw) as Hb. cbn [map concat busy] in Hb. apply NoDup_app in Hb as (Hb & _).
  destruct ty.
  - exists []. rewrite !app_nil_r, filter_keeps; [done|]. intros b Hf Hp. pose proof (wk_files _ _ _ _ _ _ Hw) as Hfl.
    rewrite Forall_forall in Hfl, Hk. by eapply in_one_kind; [apply Hk; right|apply Hfl].
  - exists (contents_of g (filter (fun b => b ∈ pws) (ti_inmemory_parts st))). rewrite contents_app. unfold contents_of at 4. cbn [map concat]. rewrite app_nil_r.
    etransitivity; [|apply shrunk_app; [reflexivity|exact Hsh]]. apply shrunk_perm. rewrite <-!contents_app. apply contents_perm.
    by apply (split_files st pws).
Qed.

(** The state after the exchange. *)
Record swapped (st : TableInner) (pws : list nat) (a : nat) (ty : PartType) (st' : TableInner) : Prop := {
  sw_arcs : ti_arcs st' = ti_arcs st;
  sw_inmemory : ti_inmemory_parts st' = others pws (ti_inmemory_parts st) ++ match ty with PtInmemory => [a] | PtFile => [] end;
  sw_files : ti_file_parts st' = others pws (ti_file_parts st) ++ match ty with PtInmemory => [] | PtFile => [a] end;
  sw_buffers : keeps_buffers st st';
  sw_merge_idx : ti_merge_idx st' = ti_merge_idx st;
  sw_dirs : d_dirs (ti_disk st') = d_dirs (ti_disk st);
  sw_listed : exists names, d_parts (ti_disk st') = Some names /\ names ≡ₚ map (path_at (ti_arcs st)) (ti_file_parts st');
}.

Lemma swapped_lists st pws a ty ts g xs st' : world_ok st (TSwap pws a ty :: ts) g xs -> swapped st pws a ty st' ->
  get_parts st' ≡ₚ a :: others pws (get_parts st) /\ Forall (in_memory (ti_arcs st)) (ti_inmemory_parts st') /\ Forall (in_file (ti_arcs st)) (ti_file_parts st').
Proof.
  intros Hw [_ E2 E3 _ _ _ _]. pose proof (wk_tasks _ _ _ _ _ _ Hw) as Ht. apply Forall_cons in Ht as [(_ & _ & _ & Hk) _]. split.
  { unfold get_parts. rewrite E2, E3, filter_app. destruct ty; rewrite ?app_nil_r; solve_Permutation. }
  destruct Hw as [_ _ _ H4 H5 _ _ _ _ _ _ _]. rewrite E2, E3. split; apply Forall_app; (split; [by apply forall_filter|]); destruct ty; try done.
  - apply Forall_cons in Hk as [? _]. by constructor.
  - by constructor.
Qed.

Lemma swapped_step st pws a ty ts g xs st' n b : world_ok st (TSwap pws a ty :: ts) g xs -> swapped st pws a ty st' ->
  step_ok st (TSwap pws a ty :: ts) g xs st' (TPermits pws n b (length pws) :: ts) [].
Proof.
  intros Hw Hsw. destruct (swapped_lists _ _ _ _ _ _ _ _ Hw Hsw) as (Hgp & Hm & Hf). pose proof (swap_durable _ _ _ _ _ _ _ Hw) as Hdur.
  pose proof (wk_tasks _ _ _ _ _ _ Hw) as Ht. apply Forall_cons in Ht as [(Hne & Hin & Hsh & Hk) _]. pose proof (wk_nodup _ _ _ _ _ _ Hw) as Hn.
  pose proof (wk_busy _ _ _ _ _ _ Hw) as Hb. cbn [map concat busy] in Hb. apply NoDup_app in Hb as (Hb & Hdb & Hbr). unfold places in Hn. cbn [map concat owned] in Hn.
  pose proof Hn as Hn0. apply NoDup_app in Hn0 as (Hng & Hda & _). pose proof (valid_places _ _ _ _ Hw) as Hv. unfold places in Hv. cbn [map concat owned] in Hv.
  pose proof (split_parts st pws Hb Hng Hin) as Hsplit. destruct Hsw as [E1 E2 E3 [E4 _] E5 E6 E7].
  assert (Hpl : places st' (TPermits pws n b (length pws) :: ts) ≡ₚ others pws (get_parts st) ++ a :: all_owned ts) by (unfold places; rewrite Hgp; cbn [map concat owned]; solve_Permutation).
  assert (Hshr : shrunk same (contents_of g (get_parts st)) (contents_of g (get_parts st'))).
  { transitivity (contents_of g (pws ++ others pws (get_parts st))); [by apply shrunk_perm, contents_perm|]. etransitivity; [|apply shrunk_perm, contents_perm; symmetry; exact Hgp].
    rewrite contents_app, items_of_cons. by apply shrunk_app. }
  split; rewrite ?app_nil_r; [|exists []; by rewrite app_nil_r|by rewrite E3|lia].
  destruct Hw as [H1 H2 H3 H4 H5 H6 H7 H8 H9 HF H10 HK]. apply Forall_cons in H6 as [_ H6]. split; rewrite ?E1, ?E4; try done.
  - destruct H2 as [S1 S2 S3 S4 S5 S6 S7]. assert (Hsub : forall c, c ∈ others pws (get_parts st) ++ a :: all_owned ts -> c ∈ places st (TSwap pws a ty :: ts)).
    { intros c. unfold places. cbn [map concat owned]. rewrite !elem_of_app, list_elem_of_filter, !elem_of_cons, elem_of_nil. tauto. }
    split; rewrite ?E1, ?E5, ?E6; try done.
    + apply Forall_forall. intros c Hc. rewrite Hpl in Hc. rewrite Forall_forall in S2. auto.
    + intros c p k Hc. rewrite Hpl in Hc. apply S4. auto.
  - rewrite Hpl. apply NoDup_app in Hn as (_ & Hd & Hn). apply NoDup_app. split_and!; [by apply NoDup_filter| |done].
    intros c [_ Hc]%list_elem_of_filter. by apply Hd.
  - constructor; [done|]. rewrite <-(app_nil_r g) at 1. eapply (tasks_frame good same st st'); [done| | |].
    + split; intros c; by rewrite E1.
    + intros c Hc Hbusy. rewrite Hgp. apply elem_of_cons. right. apply list_elem_of_filter. split; [|done]. intros Hp. by apply (Hdb c).
    + apply Forall_app in Hv as [Hv1 [_ Hv2]%Forall_app]. by apply Forall_app.
  - etransitivity; [exact H10|]. cbn [map concat task_items app]. apply shrunk_app; [done|]. by apply shrunk_app.
  - intros c Hc. rewrite Hpl. cbn [map concat gone] in Hc. assert (Hcase : c ∈ pws \/ c ∉ places st (TSwap pws a ty :: ts)).
    { destruct Hc as [[Hc|Hc]%elem_of_app|Hc]; [by left|right; apply HK; left; done|right; apply HK; by right]. }
    destruct Hcase as [Hc'|Hc'].
    + specialize (Hda c (Hin c Hc')). rewrite elem_of_app, list_elem_of_filter. intros [[? _]|?]; [done|]. by apply Hda.
    + unfold places in Hc'. cbn [map concat owned] in Hc'. rewrite !elem_of_app in Hc'. rewrite elem_of_app, list_elem_of_filter, elem_of_cons. set_solver.
Qed.

Lemma step_swap_ok st pws a ty ts g xs : world_ok st (TSwap pws a ty :: ts) g xs ->
  exists st' n g', step_swap st pws a ty = Ok (st', [TPermits pws n (bool_decide (ty = PtInmemory)) (length pws)]) /\
    step_ok st (TSwap pws a ty :: ts) g xs st' ([TPermits pws n (bool_decide (ty = PtInmemory)) (length pws)] ++ ts) g' /\ keeps_buffers st st' /\ (n <= length pws)%nat /\
    ti_inmemory_parts st' = others pws (ti_inmemory_parts st) ++ match ty with PtInmemory => [a] | PtFile => [] end.
Proof.
  intros Hw. pose proof (wk_tasks _ _ _ _ _ _ Hw) as Ht. apply Forall_cons in Ht as [(_ & Hin & _ & Hk) _]. pose proof (wk_nodup _ _ _ _ _ _ Hw) as Hn. apply NoDup_app in Hn as (Hng & _).
  pose proof (wk_busy _ _ _ _ _ _ Hw) as Hb. cbn [map concat busy] in Hb. apply NoDup_app in Hb as (Hb & _). pose proof (split_parts st pws Hb Hng Hin) as Hsplit.
  unfold step_swap, swap_src_with_dst_parts. rewrite make_ptr_set_ok, bind_Ok by done. unfold remove_parts.
  set (inm := others pws (ti_inmemory_parts st)). set (fil := others pws (ti_file_parts st)).
  set (r1 := (length (ti_inmemory_parts st) - length inm)%nat). set (r2 := (length (ti_file_parts st) - length fil)%nat).
  assert (Hr : (r1 + r2 = length pws)%nat).
  { pose proof (length_filter (fun b => b ∉ pws) (ti_inmemory_parts st)). pose proof (length_filter (fun b => b ∉ pws) (ti_file_parts st)).
    apply Permutation_length in Hsplit. unfold get_parts in Hsplit. rewrite filter_app, !length_app in Hsplit. unfold r1, r2, inm, fil. lia. }
  set (st1 := match ty with PtInmemory => _ | PtFile => _ end).
  assert (Hs1 : forall idx' d, idx' = ti_merge_idx st -> d_dirs d = d_dirs (ti_disk st) ->
    (exists names, d_parts d = Some names /\ names ≡ₚ map (path_at (ti_arcs st)) (ti_file_parts st1)) -> swapped st pws a ty (set_disk st1 idx' d)).
  { intros idx' d -> Hd Hl. split; unfold st1; destruct ty; cbn; rewrite ?app_nil_r; done. }
  destruct ((0 <? r2)%nat || bool_decide (ty = PtFile)) eqn:Hwrite.
  - assert (Hf1 : Forall (in_file (ti_arcs st1)) (ti_file_parts st1)).
    { pose proof (forall_filter (fun b => b ∉ pws) _ _ (wk_files _ _ _ _ _ _ Hw)) as Hff. unfold st1. destruct ty; cbn; [exact Hff|]. apply Forall_app. split; [exact Hff|by constructor]. }
    rewrite (part_names_ok st1 _ Hf1), !bind_Ok. eexists _, r1, []. rewrite Hr. split; [done|]. eassert (Hsw : swapped st pws a ty _).
    { apply (Hs1 (ti_merge_idx st1) (write_part_names (ti_disk st1) (map (path_at (ti_arcs st1)) (ti_file_parts st1)))); try (unfold st1; by destruct ty).
      eexists. split; [done|]. rewrite (sort_by_perm _ _). unfold st1. by destruct ty. }
    split; [by apply swapped_step|]. split; [apply Hsw|]. split; [lia|apply Hsw].
  - apply orb_false_iff in Hwrite as [Hz Hty]. apply bool_decide_eq_false in Hty. destruct ty; [|done]. rewrite !bind_Ok. eexists _, r1, []. rewrite Hr. split; [done|].
    assert (Hfil : fil = ti_file_parts st) by (apply filter_all_length; apply Nat.ltb_ge in Hz; fold fil; unfold r2 in Hz; lia).
    assert (Hsw : swapped st pws a PtInmemory st1).
    { apply (Hs1 (ti_merge_idx st) (ti_disk st) eq_refl eq_refl). unfold st1. cbn [set_parts ti_file_parts]. rewrite Hfil. apply (wk_listed _ _ _ _ _ _ Hw). }
    split; [by apply swapped_step|]. split; [apply Hsw|]. split; [lia|apply Hsw].
Qed.

(** *** Marks *)

Lemma same_parts_store st arcs' id g live : same_parts (ti_arcs st) arcs' -> store_ok good st g live -> store_ok good (set_arcs st arcs' id) g live.
Proof.
  intros Hp [H1 H2 H3 H4 H5 H6 H7]. split; cbn; try done.
  - clear -Hp H1. revert g H1. induction Hp as [|p q l l' [Hpp Hpm] _ IH]; intros g H1; inversion H1 as [|? k ? g' [Hw1 Hw2] Hr]; subst; constructor; [|by apply IH].
    split; [done|]. by rewrite <-Hpm, <-Hpp.
  - intros a b p q Ha Hb Hmp Hmq. destruct (same_parts_r _ _ _ _ Hp Ha) as (p' & Ha' & <- & Ep), (same_parts_r _ _ _ _ Hp Hb) as (q' & Hb' & <- & Eq).
    apply H3; congruence.
  - intros a p k Ha Hpa Hk Hm. destruct (same_parts_r _ _ _ _ Hp Hpa) as (p' & Ha' & <- & Ep). apply (H4 a p' k); congruence.
  - intros a p n Ha Hm. destruct (same_parts_r _ _ _ _ Hp Ha) as (p' & Ha' & <- & Ep). apply (H6 a p'); congruence.
Qed.

(** The invariant after marks have changed. *)
Lemma world_marks st ts g xs arcs' id ts' : world_ok st ts g xs -> same_parts (ti_arcs st) arcs' ->
  all_owned ts' = all_owned ts -> concat (map (task_items g) ts') = concat (map (task_items g) ts) ->
  Forall (task_ok (set_arcs st arcs' id) g) ts' -> NoDup (all_busy ts') -> Forall (marked arcs') (all_busy ts') -> (forall a, marked arcs' a -> a ∈ all_busy ts') -> (forall a, a ∈ all_gone ts' \/ dropped arcs' a -> a ∉ places st ts) ->
  world_ok (set_arcs st arcs' id) ts' g xs.
Proof.
  intros [H1 H2 H3 H4 H5 H6 H7 H8 H9 HF H10 HK] Hp Ho Hi Ht Hb Hm Hfree Hkept. destruct (same_parts_kinds st arcs' id Hp) as [Km Kf].
  assert (Hpl : places (set_arcs st arcs' id) ts' = places st ts) by (unfold places; by rewrite Ho).
  split; rewrite ?Hpl; try done.
  - by apply same_parts_store.
  - by eapply Forall_weaken, H4.
  - by eapply Forall_weaken, H5.
  - destruct H9 as (names & Hn & Hpn). exists names. split; [done|]. cbn. rewrite Hpn. erewrite map_ext; [done|]. intros a. symmetry. by apply same_parts_path.
  - by rewrite Hi.
Qed.

Lemma tasks_marks st arcs' id ts g : Forall (fun a => a < length g)%nat (get_parts st ++ all_owned ts) -> same_parts (ti_arcs st) arcs' -> Forall (task_ok st g) ts -> Forall (task_ok (set_arcs st arcs' id) g) ts.
Proof. intros Hv Hp Ht. rewrite <-(app_nil_r g). eapply tasks_frame; [done|by apply same_parts_kinds|done|done]. Qed.

Lemma step_permits_ok st pws n acq removed ts g xs : world_ok st (TPermits pws n acq removed :: ts) g xs ->
  exists st' t' g', step_permits st pws n acq removed = Ok (st', [t']) /\ step_ok st (TPermits pws n acq removed :: ts) g xs st' ([t'] ++ ts) g' /\ keeps_lists st st' /\
    match n, acq with
    | S n, _ => t' = TPermits pws n acq removed
    | O, true => t' = TPermits pws 0 false removed \/ t' = TPermits pws 0 true removed /\ ti_shutdown st = false
    | O, false => t' = TRelease pws
    end.
Proof.
  intros Hw. pose proof (wk_tasks _ _ _ _ _ _ Hw) as Ht. apply Forall_cons in Ht as [Hr Ht]. cbn in Hr. unfold step_permits. destruct n as [|n].
  2:{ eexists _, _, []. split; [done|]. split; [|done]. apply quiet_step; try done. apply world_limit. by eapply world_task. }
  destruct acq.
  - destruct (Nat.ltb_spec 0 (ti_limit st)).
    + eexists _, _, []. split; [done|]. split; [|split_and!; try done; by left]. apply quiet_step; try done. apply world_limit. by eapply world_task.
    + destruct (ti_shutdown st) eqn:Hsd.
      * eexists _, _, []. split; [done|]. split; [|split_and!; try done; by left]. apply quiet_step; try done. by eapply world_task.
      * eexists _, _, []. split; [done|]. split; [|split_and!; try done; by right]. by apply quiet_step.
  - rewrite (proj2 (Nat.eqb_eq _ _)) by done. cbn [assert_]. rewrite bind_Ok. eexists _, _, []. split; [done|]. split; [|done].
    destruct (mark_must_drop_ok pws (ti_arcs st)) as [Hp Hm]. apply quiet_step; try done. eapply world_marks; [exact Hw|done|done|done| |apply Hw| | |].
    + constructor; [done|]. apply tasks_marks; [|done|done]. pose proof (valid_places _ _ _ _ Hw) as Hv. exact Hv.
    + pose proof (wk_marked _ _ _ _ _ _ Hw) as Hk. revert Hk. cbn [map concat busy]. apply Forall_weaken. intros a. by rewrite Hm.
    + intros a Ha%Hm. by apply (wk_free _ _ _ _ _ _ Hw).
    + intros a Ha. apply (wk_kept _ _ _ _ _ _ Hw). cbn [map concat gone] in *. destruct Ha as [Ha|Ha]; [left; set_solver|].
      apply mark_must_drop_dropped in Ha as [Ha|Ha]; [by right|left; set_solver].
Qed.

Lemma step_release_ok st pws ts g xs : world_ok st (TRelease pws :: ts) g xs ->
  exists st' g', step_release st pws = Ok (st', []) /\ step_ok st (TRelease pws :: ts) g xs st' ([] ++ ts) g' /\ keeps_lists st st'.
Proof.
  intros Hw. pose proof (wk_busy _ _ _ _ _ _ Hw) as Hb. cbn [map concat busy] in Hb. apply NoDup_app in Hb as (Hb & Hd & Hbr).
  pose proof (wk_marked _ _ _ _ _ _ Hw) as Hm. cbn [map concat busy] in Hm. apply Forall_app in Hm as [Hm Hmr]. unfold step_release.
  rewrite (swap_flags_ok false pws (ti_arcs st) Hb Hm), bind_Ok. eexists _, []. split; [done|]. split; [|done].
  apply quiet_step; try done. cbn [app]. eapply world_marks; [exact Hw|apply same_parts_store_flags|done|done| |done| | |].
  - pose proof (wk_tasks _ _ _ _ _ _ Hw) as Ht. apply Forall_cons in Ht as [_ Ht]. apply tasks_marks; [|apply same_parts_store_flags|done]. exact (valid_places _ _ _ _ Hw).
  - rewrite Forall_forall in Hmr |- *. intros a Ha. destruct (Hmr a Ha) as (pw & Hpw & Hk). exists pw. rewrite store_flags_lookup, decide_False; [done|]. intros Hp. by apply (Hd a).
  - intros a (pw & Hpw & Hk). rewrite store_flags_lookup in Hpw. destruct (decide (a ∈ pws)) as [Hin|Hout].
    + destruct (ti_arcs st !! a); [|done]. injection Hpw as <-. done.
    + pose proof (wk_free _ _ _ _ _ _ Hw a ltac:(by exists pw)) as Hf. cbn [map concat busy] in Hf. set_solver.
  - intros a Ha. apply (wk_kept _ _ _ _ _ _ Hw). destruct Ha as [Ha|Ha%store_flags_dropped]; [by left|by right].
Qed.

(** *** Every step of a thread *)

Lemma step_task_ok tk st t ts g xs : world_ok st (t :: ts) g xs -> few xs -> ti_merge_idx st + 1 < 2 ^ 64 ->
  exists st' ts' g', step_task env tk st t = Ok (st', ts') /\ step_ok st (t :: ts) g xs st' (ts' ++ ts) g'.
Proof.
  intros Hw Hf Hi. destruct t; cbn [step_task].
  - by apply step_add_ok.
  - destruct (step_add_ibs_ok tk st ibs rest ts g xs Hw) as (st' & ts' & g' & -> & Hs). by exists st', ts', g'.
  - by apply step_take_ok.
  - destruct (step_flush_ok tk st ibs rest ts g xs Hw Hf) as (st' & ts' & g' & -> & Hs & _). by exists st', ts', g'.
  - destruct (step_round_ok tk st pws rest ts g xs Hw Hf) as (st' & ts' & g' & -> & Hs & _). by exists st', ts', g'.
  - destruct (step_push_ok st big pws rest ts g xs Hw) as (st' & t' & g' & -> & Hs & _). by exists st', [t'], g'.
  - destruct (step_pushed_ok st a big pws rest ts g xs Hw) as (st' & g' & -> & Hs & _). by eexists st', _, g'.
  - destruct (step_merge_ok tk st pws has_stop is_final ts g xs Hw Hf Hi) as (st' & t' & g' & -> & Hs & _). by exists st', [t'], g'.
  - destruct (step_swap_ok st pws pw_new ty ts g xs Hw) as (st' & n & g' & -> & Hs & _). by eexists st', _, g'.
  - destruct (step_permits_ok st pws release acquire removed ts g xs Hw) as (st' & t' & g' & -> & Hs & _). by exists st', [t'], g'.
  - destruct (step_release_ok st pws ts g xs Hw) as (st' & g' & -> & Hs & _). by exists st', [], g'.
Qed.
End StepLemmas.
