(* ===== verification/ItemTableSafe.v ===== *)
(** * Every interleaving keeps the invariant

    The events of [ItemTableSteps] from any state that satisfies the invariant
    of [ItemTableInv]: none panics, and the invariant holds afterwards. *)
From Stdlib Require Import ZArith Lia Bool Sorted Permutation.
From stdpp Require Import gmap.
From S2P Require Import Prelude Heap IntCodec Float64 Compress ItemBlock ItemBlockSpec ItemHeader ItemStream ItemMerge ItemMergeSpec ItemPartMerge BlockCache SearchBase ItemSearch PartSelect RawItems PartWrite PartDisk ItemTableOps ItemTableSteps ItemTableStore ItemTableInv.
Local Open Scope Z_scope.

Section Safe.
  Context `{Zs : Zstd} {Zl : ZstdLaws Zs} (good : list Z -> Prop) `{SameItems same} (f : list (list Z) -> list (list Z)).
  Context (env : Env) (Hcb : callback_ok good same (env_prepare_block env) f).

Abbreviation world_ok := (world_ok good same).
Abbreviation step_ok := (step_ok good (same := same)).

(** ** Starting merges *)

Definition unmarked (arcs : list PartWrapper) (a : nat) : Prop := exists pw, arcs !! a = Some pw /\ pw_is_in_merge pw = false.

Lemma start_merges st ts g xs pws groups hs fin : world_ok st ts g xs -> NoDup pws -> (forall a, a ∈ pws -> a ∈ get_parts st) ->
  Forall (unmarked (ti_arcs st)) pws -> pws ≡ₚ concat groups -> Forall (fun grp => grp <> []) groups ->
  let st' := set_arcs st (store_flags true pws (ti_arcs st)) (ti_next_part_id st) in
  step_ok st ts g xs st' (ts ++ map (fun grp => TMerge grp hs fin) groups) [].
Proof.
  intros Hw Hn Hin Hu Hp Hne st'. set (new := map (fun grp => TMerge grp hs fin) groups).
  assert (Hb : all_busy new = concat groups) by (unfold new; rewrite map_map; f_equal; apply map_id).
  assert (Ho : all_owned new = [] /\ concat (map (task_items g) new) = []).
  { unfold new. clear. induction groups as [|grp groups [IH1 IH2]]; [done|]. cbn [map concat owned task_items app]. done. }
  destruct Ho as [Ho Hi]. pose proof (wk_marked _ _ _ _ _ _ Hw) as Hm. apply quiet_step; try done. eapply world_marks; [exact Hw|apply same_parts_store_flags| | | | | | |].
  - by rewrite map_app, concat_app, Ho, app_nil_r.
  - by rewrite map_app, concat_app, Hi, app_nil_r.
  - apply Forall_app. split.
    + apply tasks_marks; [exact (valid_places good _ _ _ _ Hw)|apply same_parts_store_flags|apply Hw].
    + unfold new. apply Forall_fmap. rewrite Forall_forall in Hne |- *. intros grp Hg. split; [by apply Hne|]. intros a Ha. apply Hin. rewrite Hp.
      apply list_elem_of_In, in_concat. exists grp. split; by apply list_elem_of_In.
  - rewrite map_app, concat_app, Hb. apply NoDup_app. split_and!; [apply Hw| |by rewrite <-Hp].
    intros a Ha Hg. rewrite <-Hp in Hg. rewrite Forall_forall in Hm, Hu. destruct (Hm a Ha) as (p & Hpa & Hpm), (Hu a Hg) as (q & Hqa & Hqm). congruence.
  - rewrite map_app, concat_app, Hb. apply Forall_app. rewrite !Forall_forall. rewrite !Forall_forall in Hm, Hu. split.
    + intros a Ha. destruct (Hm a Ha) as (p & Hpa & Hpm). exists (if decide (a ∈ pws) then set_is_in_merge true p else p).
      rewrite store_flags_lookup, Hpa. by destruct (decide (a ∈ pws)).
    + intros a Ha. rewrite <-Hp in Ha. destruct (Hu a Ha) as (p & Hpa & Hpm). exists (set_is_in_merge true p). by rewrite store_flags_lookup, decide_True, Hpa.
  - intros a (p & Hpa & Hpm). rewrite store_flags_lookup in Hpa. rewrite map_app, concat_app, Hb, elem_of_app, <-Hp. destruct (decide (a ∈ pws)); [by right|left].
    apply (wk_free _ _ _ _ _ _ Hw). by exists p.
  - intros a Ha. apply (wk_kept _ _ _ _ _ _ Hw). destruct Ha as [Ha|Ha%store_flags_dropped]; [left|by right].
    rewrite map_app, concat_app in Ha. apply elem_of_app in Ha as [Ha|Ha]; [done|]. exfalso. unfold new in Ha. rewrite map_map in Ha. clear -Ha.
    induction groups as [|grp groups IH]; [by apply elem_of_nil in Ha|]. by apply IH.
Qed.

Lemma world_same st ts g xs : world_ok st ts g xs -> step_ok st ts g xs st ts [].
Proof. intros Hw. by apply quiet_step. Qed.

Lemma not_in_merge_unmarked arcs a : not_in_merge arcs a = true -> unmarked arcs a.
Proof. unfold not_in_merge, unmarked. destruct (arcs !! a) as [pw|]; [|done]. exists pw. by destruct (pw_is_in_merge pw). Qed.

Lemma merge_round_started st ts g xs parts max_out : world_ok st ts g xs -> NoDup parts -> (forall a, a ∈ parts -> a ∈ get_parts st) ->
  exists st' pws, get_parts_to_merge (E := out_of_fuel) st parts max_out = Ok (st', pws) /\
    step_ok st ts g xs (w_st (spawn_merge st' ts pws)) (w_tasks (spawn_merge st' ts pws)) [].
Proof.
  intros Hw Hn Hin. unfold get_parts_to_merge. set (rem := filter _ parts).
  destruct (append_parts_ok (size_at (ti_arcs st)) (E := out_of_fuel) rem max_out) as (pws & -> & Hsel). rewrite bind_Ok.
  destruct Hsel as [->|[(rest & Hp) Hc _ _ _ _]].
  - cbn [swap_flags]. rewrite bind_Ok. eexists _, []. split; [done|]. cbn [spawn_merge w_st w_tasks].
    assert (Heq : set_arcs st (ti_arcs st) (ti_next_part_id st) = st) by (by destruct st). rewrite Heq. by apply world_same.
  - assert (Hnr : NoDup rem) by (by apply NoDup_filter). rewrite Hp in Hnr. apply NoDup_app in Hnr as (Hnp & _).
    assert (Hsub : forall a, a ∈ pws -> a ∈ rem) by (intros a Ha; rewrite Hp; set_solver).
    assert (Hu : Forall (unmarked (ti_arcs st)) pws).
    { apply Forall_forall. intros a Ha. apply Hsub, list_elem_of_filter in Ha as [Ha _]. by apply not_in_merge_unmarked. }
    rewrite (swap_flags_ok true pws (ti_arcs st) Hnp Hu), bind_Ok. eexists _, pws. split; [done|]. destruct pws as [|a pws]; [cbn in Hc; lia|]. cbn [spawn_merge w_st w_tasks].
    apply (start_merges st ts g xs (a :: pws) [a :: pws] true false Hw Hnp); try done.
    + intros b Hb. apply Hin. by apply Hsub, list_elem_of_filter in Hb as [_ Hb].
    + cbn. by rewrite app_nil_r.
    + by constructor.
Qed.

Lemma flush_parts_started st ts g xs now fin : world_ok st ts g xs ->
  exists st' groups, exec env (EvFlushInmemoryParts now fin) (mkWorld st ts) = Ok (mkWorld st' (ts ++ map (fun grp => TMerge grp false true) groups)) /\
    step_ok st ts g xs st' (ts ++ map (fun grp => TMerge grp false true) groups) [] /\ keeps_lists st st' /\
    (length groups <= length (ti_inmemory_parts st))%nat /\
    (fin = true -> (forall a, a ∈ ti_inmemory_parts st -> unmarked (ti_arcs st) a) -> ti_inmemory_parts st ≡ₚ concat groups).
Proof.
  intros Hw. cbn [exec w_st w_tasks]. unfold get_inmemory_parts_to_flush. set (due := fun a : nat => match ti_arcs st !! a with Some pw => negb (pw_is_in_merge pw) && (fin || (pw_flush_to_disk_deadline pw <? now)) | None => false end). set (pws := filter _ (ti_inmemory_parts st)).
  pose proof (wk_nodup _ _ _ _ _ _ Hw) as Hn. apply NoDup_app in Hn as (Hng & _). unfold get_parts in Hng. apply NoDup_app in Hng as (Hni & _).
  assert (Hnp : NoDup pws) by (by apply NoDup_filter).
  assert (Hu : Forall (unmarked (ti_arcs st)) pws).
  { apply Forall_forall. intros a [Ha _]%list_elem_of_filter. unfold due in Ha. unfold unmarked. destruct (ti_arcs st !! a) as [pw|]; [|done]. exists pw. by destruct (pw_is_in_merge pw). }
  cbv beta iota. set (st' := set_arcs _ _ _).
  destruct (optimal_groups_ok (size_at (ti_arcs st')) (length pws) pws Hnp ltac:(done)) as (groups & -> & Hp & Hne & _ & Hle). rewrite bind_Ok.
  exists st', groups. split; [done|]. split; [|split; [done|split]].
  - apply start_merges; try done. intros a [_ Ha]%list_elem_of_filter. unfold get_parts. set_solver.
  - etransitivity; [exact Hle|]. unfold pws. apply length_filter.
  - intros -> Hall. rewrite <-Hp. unfold pws. rewrite filter_keeps; [done|]. intros a Ha. destruct (Hall a Ha) as (pw & Hpw & Hm). unfold due. by rewrite Hpw, Hm.
Qed.

(** ** The end of a part *)

Lemma remove_dir_ok st ts g xs a : world_ok st ts g xs ->
  step_ok st ts g xs (w_st (remove_dir (mkWorld st ts) a)) (w_tasks (remove_dir (mkWorld st ts) a)) [].
Proof.
  intros Hw. unfold remove_dir. cbn [w_st w_tasks]. destruct (ti_arcs st !! a) as [pw|] eqn:Ha; [|by apply world_same].
  destruct (_ && _) eqn:Hc; [|by apply world_same]. apply andb_true_iff in Hc as [Hc Hpath]. apply andb_true_iff in Hc as [_ Hlive].
  apply negb_true_iff, bool_decide_eq_false in Hlive, Hpath. cbn [w_st w_tasks]. apply quiet_step; try done.
  destruct Hw as [H1 H2 H3 H4 H5 H6 H7 H8 H9 HF H10 HK]. split; try done. destruct H2 as [S1 S2 S3 S4 S5 S6 S7]. split; cbn; try done.
  - intros b p k Hb Hpb Hk Hm. rewrite lookup_delete_ne; [by eapply S4|]. intros Heq. destruct (pw_mp pw) as [mp|] eqn:Hmp.
    + destruct (Forall2_lookup_l _ _ _ _ _ S1 Ha) as (k' & Hk' & [_ Hkind]). rewrite Hmp in Hkind. by destruct Hkind.
    + pose proof (S3 a b pw p Ha Hpb Hmp Hm Heq) as ->. apply Hlive. unfold places in Hb. apply elem_of_app in Hb as [Hb|Hb]; [set_solver|]. apply elem_of_app. right.
      clear -Hb. induction ts as [|t ts IH]; cbn [map concat] in *; [done|]. apply elem_of_app in Hb as [Hb|Hb]; apply elem_of_app; [left|right; by apply IH]. destruct t; cbn in *; set_solver.
  - intros n Hn. rewrite lookup_delete_None. right. by apply S5.
Qed.

(** ** Every event *)

Definition event_items (e : event) : list (list Z) :=
  match e with EvAddItems items => filter fits items | _ => [] end.

Definition event_ok (e : event) : Prop :=
  match e with EvAddItems items => Forall (addable good) items | _ => True end.

(** The world after some events: the invariant, everything a search could find
    before, and everything that was in files before. *)
Record evolves (w : World) (g : known) (xs : list (list Z)) (n : Z) (w' : World) (g' : known) : Prop := {
  ev_world : world_ok (w_st w') (w_tasks w') (g ++ g') xs;
  ev_visible : exists more, shrunk same (contents_of g (get_parts (w_st w)) ++ more) (contents_of (g ++ g') (get_parts (w_st w')));
  ev_durable : exists more, shrunk same (contents_of g (ti_file_parts (w_st w)) ++ more) (contents_of (g ++ g') (ti_file_parts (w_st w')));
  ev_merge_idx : ti_merge_idx (w_st w') <= ti_merge_idx (w_st w) + n;
}.

Lemma shrunk_more (xs ys zs : list (list Z)) :
  (exists more, shrunk same (xs ++ more) ys) -> (exists more, shrunk same (ys ++ more) zs) -> exists more, shrunk same (xs ++ more) zs.
Proof.
  intros [more1 H1] [more2 H2]. exists (more1 ++ more2). etransitivity; [|exact H2]. rewrite app_assoc. by apply shrunk_app.
Qed.

Lemma step_evolves w ts g xs st' ts' g' : step_ok (w_st w) ts g xs st' ts' g' -> evolves w g xs 1 (mkWorld st' ts') g'.
Proof. intros [H1 H2 H3 H4]. by split. Qed.

Lemma evolves_refl w g xs : world_ok (w_st w) (w_tasks w) g xs -> evolves w g xs 0 w [].
Proof. intros Hw. split; rewrite ?app_nil_r; [done| | |lia]; exists []; by rewrite app_nil_r. Qed.

Lemma evolves_weaken w g xs n m w' g' : evolves w g xs n w' g' -> n <= m -> evolves w g xs m w' g'.
Proof. intros [H1 H2 H3 H4] Hle. split; try done. lia. Qed.

Lemma evolves_trans w1 g xs n w2 g1 ys m w3 g2 : evolves w1 g xs n w2 g1 -> evolves w2 (g ++ g1) ys m w3 g2 -> evolves w1 g ys (n + m) w3 (g1 ++ g2).
Proof.
  intros [H1 H2 H3 H4] [H5 H6 H7 H8]. rewrite <-app_assoc in *. split; [done|by eapply shrunk_more|by eapply shrunk_more|lia].
Qed.

Lemma add_items_ok st ts g xs items : world_ok st ts g xs -> Forall (addable good) items -> world_ok st (ts ++ [TAdd items]) g (xs ++ filter fits items).
Proof.
  intros [H1 H2 H3 H4 H5 H6 H7 H8 H9 HF H10 HK] Hit. unfold places in *. split; unfold places; rewrite ?map_app, ?concat_app; cbn [map concat owned busy task_items app]; rewrite ?app_nil_r; try done.
  - apply Forall_app. split; [done|]. constructor; [exact Hit|done].
  - etransitivity; [apply shrunk_app; [exact H10|reflexivity]|]. apply shrunk_perm. solve_Permutation.
Qed.

Lemma take_items_ok st ts g xs now fin : world_ok st ts g xs -> world_ok st (ts ++ [TTake 0 [] now fin]) g xs.
Proof.
  intros [H1 H2 H3 H4 H5 H6 H7 H8 H9 HF H10 HK]. unfold places in *. split; unfold places; rewrite ?map_app, ?concat_app; cbn [map concat owned busy task_items app]; rewrite ?app_nil_r; try done.
  apply Forall_app. split; [done|]. constructor; [by constructor|done].
Qed.

Lemma stop_ok st ts g xs : world_ok st ts g xs -> world_ok (set_stop st) ts g xs.
Proof. intros [H1 H2 H3 H4 H5 H6 H7 H8 H9 HF H10 HK]. split; try done. by eapply store_ext; [| | |exact H2]. Qed.

Lemma task_turn (ts : list task) i t : ts !! i = Some t -> ts ≡ₚ t :: take i ts ++ drop (S i) ts.
Proof. intros Hi. rewrite <-(take_drop_middle ts i t Hi) at 1. by rewrite <-Permutation_middle. Qed.

Lemma exec_ok e w g xs : world_ok (w_st w) (w_tasks w) g xs -> event_ok e -> few (xs ++ event_items e) -> ti_merge_idx (w_st w) + 1 < 2 ^ 64 ->
  exists w' g', exec env e w = Ok w' /\ evolves w g (xs ++ event_items e) 1 w' g'.
Proof.
  intros Hw He Hf Hi.
  pose proof (wk_nodup _ _ _ _ _ _ Hw) as Hn. apply NoDup_app in Hn as (Hng & _). unfold get_parts in Hng. apply NoDup_app in Hng as (Hni & _ & Hnf).
  assert (Hstay : forall w' xs', ti_inmemory_parts (w_st w') = ti_inmemory_parts (w_st w) -> ti_file_parts (w_st w') = ti_file_parts (w_st w) -> ti_merge_idx (w_st w') = ti_merge_idx (w_st w) ->
    world_ok (w_st w') (w_tasks w') g xs' -> evolves w g xs' 1 w' []).
  { intros w' xs' E1 E2 E3 Hw'. split; rewrite ?app_nil_r; [done| | |lia]; exists []; unfold get_parts; by rewrite ?E1, E2, app_nil_r. }
  destruct e as [items|now fin|max_out|max_out|now fin|i tk|a|]; cbn [exec event_items] in *; rewrite ?app_nil_r in *.
  - eexists _, []. split; [done|]. apply Hstay; try done. by apply add_items_ok.
  - eexists _, []. split; [done|]. apply Hstay; try done. by apply take_items_ok.
  - destruct (merge_round_started (w_st w) (w_tasks w) g xs (ti_inmemory_parts (w_st w)) max_out Hw Hni) as (st' & pws & -> & Hs); [unfold get_parts; set_solver|].
    rewrite bind_Ok. eexists _, []. split; [done|]. destruct (spawn_merge _ _ _). by apply step_evolves in Hs.
  - destruct (merge_round_started (w_st w) (w_tasks w) g xs (ti_file_parts (w_st w)) max_out Hw Hnf) as (st' & pws & -> & Hs); [unfold get_parts; set_solver|].
    rewrite bind_Ok. eexists _, []. split; [done|]. destruct (spawn_merge _ _ _). by apply step_evolves in Hs.
  - destruct (flush_parts_started (w_st w) (w_tasks w) g xs now fin Hw) as (st' & groups & Hrun & Hs & _). destruct w as [st ts]. cbn [exec w_st w_tasks] in *.
    eexists _, []. split; [exact Hrun|]. by eapply (step_evolves (mkWorld st ts)).
  - destruct (w_tasks w !! i) as [t|] eqn:Ht; [|exists w, []; split; [done|by apply Hstay]]. pose proof (task_turn _ _ _ Ht) as Hp.
    destruct (step_task_ok good f env Hcb tk (w_st w) t (take i (w_tasks w) ++ drop (S i) (w_tasks w)) g xs) as (st' & ts' & g' & -> & Hs); [by eapply world_perm|done|done|].
    rewrite bind_Ok. eexists _, g'. split; [done|]. destruct Hs as [S1 S2 S3 S4]. split; [|done|done|done]. cbn [w_st w_tasks].
    eapply (world_perm good same _ (ts' ++ take i (w_tasks w) ++ drop (S i) (w_tasks w))); [|exact S1]. solve_Permutation.
  - eexists _, []. split; [done|]. pose proof (remove_dir_ok (w_st w) (w_tasks w) g xs a Hw) as Hs. destruct w as [st ts]. cbn [w_st w_tasks] in *.
    apply (step_evolves (mkWorld st ts)) in Hs. by destruct (remove_dir _ _).
  - eexists _, []. split; [done|]. apply Hstay; try done. by apply stop_ok.
Qed.

Lemma exec_all_ok es : forall w g xs, world_ok (w_st w) (w_tasks w) g xs -> Forall event_ok es -> few (xs ++ concat (map event_items es)) ->
  ti_merge_idx (w_st w) + Z.of_nat (length es) < 2 ^ 64 ->
  exists w' g', exec_all env es w = Ok w' /\ evolves w g (xs ++ concat (map event_items es)) (Z.of_nat (length es)) w' g'.
Proof.
  induction es as [|e es IH]; intros w g xs Hw He Hf Hi; cbn [exec_all map concat].
  { exists w, []. split; [done|]. rewrite app_nil_r. by apply evolves_refl. }
  apply Forall_cons in He as [He Hes]. cbn [map concat] in Hf. rewrite app_assoc in *.
  destruct (exec_ok e w g xs Hw He (few_app_l _ _ Hf)) as (w1 & g1 & -> & Hev); [cbn [length] in Hi; lia|]. rewrite bind_Ok.
  destruct (IH w1 (g ++ g1) (xs ++ event_items e) (ev_world _ _ _ _ _ _ Hev) Hes Hf) as (w2 & g2 & -> & Hev2).
  { pose proof (ev_merge_idx _ _ _ _ _ _ Hev). cbn [length] in Hi. lia. }
  exists w2, (g1 ++ g2). split; [done|]. replace (Z.of_nat (length (e :: es))) with (1 + Z.of_nat (length es)) by (cbn [length]; lia). by eapply evolves_trans.
Qed.
End Safe.
