(* ===== verification/ItemTableOpen.v ===== *)
(** * Opening a table, and what its parts hold

    Reading the parts of a table back, [must_open] on a directory, and recovery
    after a crash: whatever the threads were doing, the directory that a crash
    leaves opens as a table with the items of the listed file parts. *)
From Stdlib Require Import ZArith Lia Bool Sorted Permutation.
From stdpp Require Import gmap.
From S2P Require Import Prelude Heap IntCodec Float64 Compress ItemBlock ItemBlockSpec ItemHeader ItemStream ItemMerge ItemMergeSpec ItemPartMerge BlockCache SearchBase ItemSearch PartSelect RawItems PartWrite PartDisk ItemTableOps ItemTableSteps ItemTableStore ItemTableInv ItemTableSafe.
Local Open Scope Z_scope.

(** ** The items in parts, read with the readers of the code *)

Section Read.
  Context `{Zs : Zstd}.

Definition read_part (st : TableInner) (a : nat) : run (list (list Z)) :=
  pw ← idx (ti_arcs st) a;
  r ← match pw_mp pw with Some mp => from_inmemory_part mp | None => from_file_part (ti_disk st) (p_path (pw_p pw)) end;
  '(xss, _) ← read_blocks (reader_items r + 1) r;
  Ok (concat xss).

Definition read_parts (st : TableInner) (l : list nat) : run (list (list Z)) :=
  xss ← map_res (read_part st) l;
  Ok (concat xss).

(** What a search of the table can find, and what is in files. *)
Definition visible_items (st : TableInner) : run (list (list Z)) := read_parts st (get_parts st).
Definition durable_items (st : TableInner) : run (list (list Z)) := read_parts st (ti_file_parts st).

(** What waits in the buffers. *)
Definition buffered_items (st : TableInner) : list (list Z) := blocks_items (raw_blocks (ti_raw_items st)).
End Read.

Section Readback.
  Context `{Zs : Zstd} {Zl : ZstdLaws Zs} (good : list Z -> Prop).

Lemma set_idx_same (r : BlockStreamReader) : r_set_idx r (r_curr_item_idx r) = r.
Proof. by destruct r. Qed.

Lemma read_yields r xss : yields r xss -> forall fuel, (length xss < fuel)%nat -> exists r', read_blocks (E := out_of_fuel) fuel r = Ok (xss, r').
Proof.
  revert r. induction xss as [|xs xss IH]; intros r Hy [|fuel] Hl; try (cbn in Hl; lia); inversion Hy as [? r' Hn He|? r' ? ? Hn He Hw Hb Hne Hi Hy']; subst; cbn [read_blocks];
    change (reader_next (E := out_of_fuel) r) with (src_next r); rewrite Hn, bind_Ok; [by eexists|].
  specialize (Hy' (r_curr_item_idx r')). cbn in Hy'. rewrite set_idx_same in Hy'. destruct (IH r' Hy' fuel) as [r2 Hr2]; [cbn in Hl; lia|].
  cbn in Hw. rewrite debug_items_ok, bind_Ok, Hr2, bind_Ok by done. by eexists.
Qed.

Lemma blocks_le_items {S X : Type} `{Src : ItemSource S X} (s : S) xss : yields s xss -> (length xss <= length (concat xss))%nat.
Proof.
  intros Hy%yields_nonempty. induction Hy as [|xs xss Hx _ IH]; [done|]. cbn [concat length]. rewrite length_app. destruct xs; [done|]. cbn. lia.
Qed.

Lemma read_part_ok st g live a : store_ok good st g live -> a ∈ live -> few (items_of g a) -> read_part st a = Ok (items_of g a).
Proof.
  intros Hs Ha Hf. destruct (reader_at good st g live a Hs Ha Hf) as (pw & r & xss & Hpw & Hr & Hy & Hx & _ & _ & Hc & _). unfold read_part.
  rewrite (idx_Some _ _ _ Hpw), bind_Ok. unfold open_reader in Hr. rewrite Hr, bind_Ok. pose proof (blocks_le_items r xss Hy) as Hle. rewrite Hx in Hle.
  destruct (read_yields r xss Hy (reader_items r + 1)) as [r' ->]; [lia|]. by rewrite bind_Ok, Hx.
Qed.

Lemma read_parts_ok st g live l : store_ok good st g live -> (forall a, a ∈ l -> a ∈ live) -> few (contents_of g l) -> read_parts st l = Ok (contents_of g l).
Proof.
  intros Hs. unfold read_parts. intros Hl Hf. enough (Hm : map_res (read_part st) l = Ok (map (items_of g) l)) by (by rewrite Hm, bind_Ok).
  induction l as [|a l IH]; [done|]. rewrite items_of_cons in Hf. cbn [map_res map]. rewrite (read_part_ok st g live), bind_Ok; [|done|apply Hl; left|by eapply few_app_l].
  rewrite IH; [done|intros b Hb; apply Hl; by right|by eapply few_app_r].
Qed.
End Readback.

(** ** Opening *)

Section Open.
  Context `{Zs : Zstd} {Zl : ZstdLaws Zs} (good : list Z -> Prop) `{SameItems same}.

(** The directory of a table without what [must_open_parts] removes first. *)
Definition without_tmp (d : Disk) : Disk := set_dirs d (delete TMP (delete TXN (d_dirs d))).

(** The parts that [must_open_parts] opens: each is complete. *)
Definition part_at (d : Disk) (name : list Z) (k : InmemoryPart * list (list Z)) : Prop :=
  name ∉ [[]; TMP; TXN] /\ d_dirs d !! name = Some (dir_of k.1) /\ stored good k.1 k.2.

Record recoverable (d : Disk) (ks : known) : Prop := {
  rc_parts : Forall2 (part_at d) (must_read_part_names (without_tmp d)) ks;
  rc_nodup : NoDup (must_read_part_names (without_tmp d));
}.

Definition known_items (ks : known) : list (list Z) := concat (map snd ks).

(** The wrapper of an opened part. *)
Definition opened_as (name : list Z) (pw : PartWrapper) : Prop := p_path (pw_p pw) = name /\ pw_mp pw = None /\ pw_is_in_merge pw = false /\ pw_must_drop pw = false.

Lemma open_parts_ok {E} now names ks : forall st, Forall2 (part_at (ti_disk st)) names ks -> few (known_items ks) ->
  exists ws id, open_parts (E := E) now st names = Ok (set_arcs st (ti_arcs st ++ ws) id, seq (length (ti_arcs st)) (length ws)) /\
    Forall2 opened_as names ws /\ Forall2 (wrapper_ok good) ws ks.
Proof.
  revert ks. induction names as [|name names IH]; intros ks st Hall Hf; inversion Hall as [|? k ? ks' (Hname & Hdir & Hst) Hall' E1 E2]; subst.
  { exists [], (ti_next_part_id st). rewrite app_nil_r. split; [by destruct st|done]. }
  unfold known_items in Hf. cbn [map concat] in Hf. assert (Hn : Z.of_nat (length k.2) < 2 ^ 64) by (apply few_app_l in Hf; unfold few in Hf; lia).
  destruct (stored_readable good k.1 k.2 Hst Hn) as (mrs & xss & [Hm _ _ _ _ _ _ Hb [He1 He2]]).
  cbn [open_parts]. unfold new_from_file_part, must_open_file_part. rewrite Hdir. unfold dir_of. rewrite metadata_roundtrip, bind_Ok by done. unfold part_new.
  rewrite Hm, !bind_Ok. set (p := mkPart _ _ _ _ _ _ _ _ _). set (pw := mkPW p None false false now). set (st1 := set_arcs _ _ _).
  destruct (IH ks' st1 Hall' (few_app_r _ _ Hf)) as (ws & id & -> & Ho & Hw). rewrite bind_Ok. exists (pw :: ws), id. split_and!.
  - unfold st1. cbn [set_arcs ti_arcs]. rewrite <-app_assoc, length_app. cbn [length seq app]. by rewrite Nat.add_1_r.
  - constructor; [by split|done].
  - constructor; [|done]. split; [done|]. done.
Qed.

Lemma names_app {E} st pre ws names : Forall2 opened_as names ws -> ti_arcs st = pre ++ ws ->
  Forall (in_file (ti_arcs st)) (seq (length pre) (length ws)) /\ map (path_at (ti_arcs st)) (seq (length pre) (length ws)) = names /\
  part_names (E := E) st (seq (length pre) (length ws)) = Ok names.
Proof.
  intros Ho Ha. assert (Hgo : Forall (in_file (ti_arcs st)) (seq (length pre) (length ws)) /\ map (path_at (ti_arcs st)) (seq (length pre) (length ws)) = names).
  { revert pre Ha. induction Ho as [|name pw names ws (Hp & Hm & _) _ IH]; intros pre Ha; [done|]. cbn [length seq map].
    assert (Hlk : ti_arcs st !! length pre = Some pw) by (rewrite Ha; by rewrite list_lookup_middle).
    destruct (IH (pre ++ [pw])) as [H1 H2]; [by rewrite <-app_assoc|]. rewrite length_app, Nat.add_1_r in H1, H2. split; [constructor; [by exists pw|done]|].
    rewrite H2. f_equal. unfold path_at. by rewrite Hlk. }
  destruct Hgo as [H1 H2]. split_and!; try done. by rewrite (part_names_ok _ _ H1), H2.
Qed.

Lemma contents_seq pre (ks : known) : contents_of (pre ++ ks) (seq (length pre) (length ks)) = known_items ks.
Proof.
  unfold contents_of, known_items. f_equal. revert pre. induction ks as [|k ks IH]; intros pre; [done|]. cbn [length seq map].
  specialize (IH (pre ++ [k])). rewrite <-app_assoc, length_app, Nat.add_1_r in IH. cbn [app] in IH. rewrite IH. f_equal. unfold items_of. by rewrite list_lookup_middle.
Qed.

(** The directories that are left. *)
Lemma kept_dirs d (names : list (list Z)) name k : part_at d name k -> name ∈ names ->
  d_dirs (without_tmp d) !! name <> None /\ filter (fun kv => kv.1 ∈ names) (d_dirs (without_tmp d)) !! name = Some (dir_of k.1).
Proof.
  intros (Hn & Hd & _) Hin. assert (Hl : d_dirs (without_tmp d) !! name = Some (dir_of k.1)).
  { unfold without_tmp, set_dirs. cbn [d_dirs]. rewrite !lookup_delete_ne; [done|set_solver|set_solver]. }
  split; [by rewrite Hl|]. by apply map_lookup_filter_Some.
Qed.

Lemma Forall2_elem {A B} (P : A -> B -> Prop) l k : Forall2 P l k -> Forall2 (fun x y => x ∈ l /\ P x y) l k.
Proof.
  intros Hp. enough (Hgo : forall l0, (forall x, x ∈ l -> x ∈ l0) -> Forall2 (fun x y => x ∈ l0 /\ P x y) l k) by (by apply Hgo).
  intros l0. induction Hp as [|x y l k Hxy _ IH]; intros Hl; constructor.
  - split; [apply Hl; left|done].
  - apply IH. intros z Hz. apply Hl. by right.
Qed.

Lemma all_listed d ks : recoverable d ks ->
  let names := must_read_part_names (without_tmp d) in
  forallb (fun name => bool_decide (d_dirs (without_tmp d) !! name <> None)) names = true /\
  Forall2 (part_at (set_dirs (without_tmp d) (filter (fun kv => kv.1 ∈ names) (d_dirs (without_tmp d))))) names ks.
Proof.
  intros [Hp _] names. apply Forall2_elem in Hp. fold names in Hp. split.
  - apply forallb_forall. intros name [i Hi]%list_elem_of_In%list_elem_of_lookup. destruct (Forall2_lookup_l _ _ _ _ _ Hp Hi) as (k & _ & Hin & Hk).
    apply bool_decide_eq_true_2. by apply (kept_dirs d names name k).
  - eapply Forall2_impl; [exact Hp|]. intros name k [Hin Hk]. destruct (kept_dirs d names name k Hk Hin) as [_ H2]. destruct Hk as (K1 & _ & K2). by split_and!.
Qed.

(** A table just opened. *)
Record fresh_table (st : TableInner) (ks : known) (shards : nat) (now_nanos : Z) : Prop := {
  ot_world : world_ok good same st [] ks (known_items ks);
  ot_inmemory : ti_inmemory_parts st = [];
  ot_files : ti_file_parts st = seq 0 (length ks);
  ot_raw : ti_raw_items st = raw_items_new shards;
  ot_merge_idx : ti_merge_idx st = now_nanos;
  ot_running : ti_stopped st = false /\ ti_shutdown st = false;
}.

Lemma raw_items_new_ok n : (0 < n)%nat -> raw_ok good (raw_items_new n) /\ raw_blocks (raw_items_new n) = [].
Proof.
  intros Hn. assert (Hb : raw_blocks (raw_items_new n) = []).
  { unfold raw_blocks, raw_items_new. cbn. clear. by induction n. }
  split; [|done]. split; [by rewrite Hb|]. destruct n; [lia|done].
Qed.

Lemma opened_store names ws ks st : Forall2 opened_as names ws -> Forall2 (wrapper_ok good) ws ks -> ti_arcs st = ws -> NoDup names ->
  Forall2 (part_at (ti_disk st)) names ks -> (forall name, d_dirs (ti_disk st) !! name <> None -> name ∈ names) ->
  0 <= ti_merge_idx st -> (forall n, ti_merge_idx st < n < 2 ^ 64 -> part_name n ∉ names) -> store_ok good st ks (seq 0 (length ks)).
Proof.
  intros Ho Hw Ha Hn Hp Hd Hi Hfresh. assert (Hpath : forall a p, ti_arcs st !! a = Some p -> names !! a = Some (p_path (pw_p p))).
  { intros a p Hap. rewrite Ha in Hap. destruct (Forall2_lookup_r _ _ _ _ _ Ho Hap) as (name & Hna & -> & _). done. }
  split; try done.
  - by rewrite Ha.
  - apply Forall_forall. intros a Hin%elem_of_seq. lia.
  - intros a b p q Hap Hbq _ _ Heq. apply Hpath in Hap, Hbq. rewrite Heq in Hap. by eapply NoDup_lookup.
  - intros a p k _ Hap Hk _. apply Hpath in Hap. destruct (Forall2_lookup_lr _ _ _ _ _ _ Hp Hap Hk) as (_ & Hdir & _). done.
  - intros n Hr. destruct (d_dirs (ti_disk st) !! part_name n) eqn:Hx; [|done]. destruct (Hfresh n Hr). apply Hd. by rewrite Hx.
  - intros a p n Hap _ Hr Heq. apply Hpath in Hap. apply (Hfresh n Hr). rewrite <-Heq. by eapply list_elem_of_lookup_2.
Qed.

Lemma must_open_ok {E} shards now now_nanos id d ks : recoverable d ks -> few (known_items ks) -> (0 < shards)%nat -> 0 <= now_nanos ->
  (forall n, now_nanos < n < 2 ^ 64 -> part_name n ∉ must_read_part_names (without_tmp d)) ->
  exists st, must_open (E := E) shards now now_nanos id d = Ok st /\ fresh_table st ks shards now_nanos.
Proof.
  intros Hr Hf Hsh Hnow Hfresh. destruct (all_listed d ks Hr) as [Hall Hparts]. destruct Hr as [_ Hnd]. unfold must_open. fold (without_tmp d).
  set (names := must_read_part_names (without_tmp d)) in *. rewrite Hall. cbn [assert_]. rewrite bind_Ok. set (d1 := set_dirs _ (filter _ _)) in *.
  set (st0 := mkTI _ _ _ _ _ _ _ _ _ _ _). destruct (open_parts_ok (E := E) now names ks st0 Hparts Hf) as (ws & id' & -> & Ho & Hw). rewrite bind_Ok.
  cbn [ti_arcs st0 app length]. set (st1 := set_arcs st0 ws id').
  destruct (names_app (E := E) st1 [] ws names Ho eq_refl) as (Hfiles & Hmap & Hnames). cbn [length] in *. rewrite Hnames, bind_Ok. eexists. split; [done|].
  set (d2 := match d_parts d1 with Some _ => d1 | None => _ end). pose proof (Forall2_length _ _ _ Hw) as Hlen. rewrite Hlen in *.
  assert (Hdirs : d_dirs d2 = d_dirs d1) by (unfold d2; by destruct (d_parts d1)). pose proof (raw_items_new_ok shards Hsh) as [Hraw Hnil].
  split; try done. split; unfold places, get_parts; cbn [map concat app set_disk set_parts ti_inmemory_parts ti_file_parts ti_raw_items ti_arcs]; rewrite ?app_nil_r; try done.
  - apply (opened_store names ws); try done; cbn [set_disk ti_disk]; rewrite ?Hdirs.
    + eapply Forall2_impl; [exact Hparts|]. intros name k (K1 & K2 & K3). split_and!; [done|by rewrite Hdirs|done].
    + intros name. unfold d1. cbn [set_dirs d_dirs]. destruct (filter _ _ !! name) eqn:Hx; [|done]. by apply map_lookup_filter_Some in Hx as [_ Hx].
  - apply NoDup_seq.
  - constructor.
  - exists (default (sort_by lex_leb names) (d_parts d1)). split; [unfold d2; by destruct (d_parts d1) eqn:Hx; [exact Hx|]|]. unfold st1 in Hmap. cbn [set_arcs ti_arcs] in Hmap.
    change (ti_arcs st1) with ws. rewrite Hmap. unfold d1. cbn [set_dirs d_parts without_tmp]. unfold names, must_read_part_names. cbn [without_tmp set_dirs d_parts].
    destruct (d_parts d); [done|]. apply sort_by_perm.
  - intros a (pw & Hpw & Hm). destruct (Forall2_lookup_r _ _ _ _ _ Ho Hpw) as (name & _ & _ & _ & Hm' & _). congruence.
  - cbn [st1 set_arcs ti_raw_items st0]. rewrite Hnil. cbn. pose proof (contents_seq [] ks) as Hc. cbn [app length] in Hc. by rewrite Hc.
  - intros a [Ha|(pw & Hpw & Hm)]; [by apply elem_of_nil in Ha|]. destruct (Forall2_lookup_r _ _ _ _ _ Ho Hpw) as (name & _ & _ & _ & _ & Hm'). congruence.
Qed.

(** ** After a crash *)

(** The directory of the table after a crash: the list of parts is one that was
    written, since it is replaced atomically; the directories it names are
    complete; others may be missing, incomplete or left over. *)
Record crash_image (d d' : Disk) : Prop := {
  ci_parts : d_parts d' = d_parts d;
  ci_dirs name : name ∈ default [] (d_parts d) -> d_dirs d' !! name = d_dirs d !! name;
}.

Lemma known_entries (g : known) l : Forall (fun a => a < length g)%nat l -> exists ks, Forall2 (fun a k => g !! a = Some k) l ks /\ known_items ks = contents_of g l.
Proof.
  induction 1 as [|a l Ha _ (ks & Hks & Hi)]; [by exists []|]. destruct (lookup_lt_is_Some_2 _ _ Ha) as [k Hk]. exists (k :: ks). split; [by constructor|].
  rewrite items_of_cons, <-Hi. unfold known_items, items_of. cbn [map concat]. by rewrite Hk.
Qed.

Lemma crash_ok st ts g xs d' : world_ok good same st ts g xs -> crash_image (ti_disk st) d' ->
  exists ks, recoverable d' ks /\ known_items ks ≡ₚ contents_of g (ti_file_parts st) /\
    (forall n, ti_merge_idx st < n < 2 ^ 64 -> part_name n ∉ must_read_part_names (without_tmp d')).
Proof.
  intros Hw [Hp Hd]. destruct (wk_listed _ _ _ _ _ _ Hw) as (names & Hnames & Hperm). rewrite Hnames in Hd. cbn [default] in Hd.
  pose proof (wk_store _ _ _ _ _ _ Hw) as Hs. pose proof (wk_files _ _ _ _ _ _ Hw) as Hfiles.
  pose proof (wk_nodup _ _ _ _ _ _ Hw) as Hn. apply NoDup_app in Hn as (Hng & _). unfold get_parts in Hng. apply NoDup_app in Hng as (_ & _ & Hnf).
  apply Permutation_map_inv in Hperm as (l & -> & Hl). rewrite Hl in Hfiles, Hnf.
  assert (Hlive : forall a, a ∈ l -> a ∈ places st ts) by (intros a Ha; rewrite <-Hl in Ha; unfold places, get_parts; set_solver).
  destruct (known_entries g l) as (ks & Hks & Hi).
  { pose proof (so_valid _ _ _ _ Hs) as Hv. rewrite Forall_forall in Hv |- *. intros a Ha. apply Hv. auto. }
  assert (Hread : must_read_part_names (without_tmp d') = map (path_at (ti_arcs st)) l).
  { unfold must_read_part_names, without_tmp, set_dirs. cbn [d_parts]. by rewrite Hp, Hnames. }
  rewrite Forall_forall in Hfiles. assert (Hpath : forall a, a ∈ l -> exists pw, ti_arcs st !! a = Some pw /\ pw_mp pw = None /\ path_at (ti_arcs st) a = p_path (pw_p pw)).
  { intros a Ha. destruct (Hfiles a Ha) as (pw & Hpw & Hm). exists pw. unfold path_at. by rewrite Hpw. }
  exists ks. split; [split; rewrite Hread|split].
  - apply Forall2_fmap_l. apply Forall2_elem in Hks. eapply Forall2_impl; [exact Hks|]. intros a k [Ha Hk].
    destruct (Hpath a Ha) as (pw & Hpw & Hm & Hpa). destruct (Forall2_lookup_lr _ _ _ _ _ _ (so_arcs _ _ _ _ Hs) Hpw Hk) as [Hst Hkind]. rewrite Hm in Hkind.
    change (part_at d' (path_at (ti_arcs st) a) k). unfold part_at. rewrite Hd, Hpa; [|by apply list_elem_of_fmap_2]. split_and!; try done. by apply (so_disk _ _ _ _ Hs a pw k); auto.
  - apply NoDup_fmap_2_strong; [|done]. intros a b Ha Hb. destruct (Hpath a Ha) as (pw & Hpw & Hm & ->), (Hpath b Hb) as (qw & Hqw & Hm' & ->).
    by apply (so_paths _ _ _ _ Hs).
  - rewrite Hi. apply contents_perm. by symmetry.
  - intros n Hr. rewrite Hread. intros (a & Heq & Ha)%list_elem_of_fmap. destruct (Hpath a Ha) as (pw & Hpw & Hm & Hpa). rewrite Hpa in Heq.
    by apply (so_old _ _ _ _ Hs a pw n Hpw Hm Hr).
Qed.
End Open.
