(* ===== verification/ItemTableClose.v ===== *)
(** * Closing a table

    [must_close] of [esm-mergeset/src/table.rs]: the shutdown signal, the wait
    for the threads, the final flush of the buffers and of the in-memory parts,
    the count of the references to the file parts and the wait for the removal of
    directories.  Whatever the order in which the threads run, each of them ends
    and every item is in a file; the assertions at the end hold unless a search
    still holds a file part, and what is removed is not in the list of parts. *)
From Stdlib Require Import ZArith Lia Bool Sorted Permutation.
From stdpp Require Import gmap.
From S2P Require Import Prelude Heap IntCodec Float64 Compress ItemBlock ItemBlockSpec ItemHeader ItemStream ItemMerge ItemMergeSpec ItemPartMerge BlockCache SearchBase ItemSearch PartSelect RawItems PartWrite PartDisk ItemTableOps ItemTableSteps ItemTableStore ItemTableInv ItemTableSafe.
Local Open Scope Z_scope.

Section Closing.
  Context {Zs : Zstd} (env : Env).

(** Threads run until none is left; [sched] says which one makes the next step. *)
Fixpoint run_threads (fuel : nat) (sched : nat -> nat * Tick) (w : World) : run World :=
  match w_tasks w, fuel with
  | [], _ => Ok w
  | _, O => Err OutOfFuel
  | ts, S fuel =>
      let '(i, tk) := sched fuel in
      w ← exec env (EvStep (i mod length ts) tk) w;
      run_threads fuel sched w
  end.

(** [Arc::strong_count] of the reference [a] to a wrapper, with the other
    references there are. *)
Definition strong_count (others : list nat) (a : nat) : nat := S (length (filter (fun b => b = a) others)).

(** The loop over the file parts taken out of the table: each must be the last
    reference to its wrapper, and is dropped. *)
Fixpoint drop_file_parts (others pws : list nat) : run unit :=
  match pws with
  | [] => Ok tt
  | pw :: pws =>
      _ ← assert_ (strong_count (pws ++ others) pw =? 1)%nat;
      drop_file_parts others pws
  end.

(** [remove_dir_async_drain]: the directories of all wrappers that are marked
    for deletion and not referred to any more are gone. *)
Definition remove_dir_async_drain (held : list nat) (w : World) : World :=
  foldl remove_dir w (filter (fun a => a ∉ held) (seq 0 (length (ti_arcs (w_st w))))).

(** [late] is what the threads do before the last of the workers has seen the
    signal, with the merges that workers still start; [held] are the wrappers
    that searches still refer to, none when the table is not used any more. *)
Definition must_close (fuel : nat) (sched : nat -> nat -> nat * Tick) (late : list event) (now_ms now : Z) (held : list nat) (w : World) : run TableInner :=
  _ ← assert_ (negb (ti_stopped (w_st w)));
  w ← exec env EvStop w;
  w ← exec_all env late w;
  w ← run_threads fuel (sched 0%nat) w;
  w ← exec env (EvFlushPendingItems now_ms true) w;
  w ← run_threads fuel (sched 1%nat) w;
  w ← exec env (EvFlushInmemoryParts now true) w;
  w ← run_threads fuel (sched 2%nat) w;
  let st := w_st w in
  _ ← assert_ (raw_items_len (ti_raw_items st) =? 0)%nat;
  _ ← assert_ (length (ti_inmemory_parts st) =? 0)%nat;
  let file_parts := ti_file_parts st in
  let w := mkWorld (set_parts st (ti_inmemory_parts st) []) (w_tasks w) in
  _ ← drop_file_parts (concat (map task_refs (w_tasks w)) ++ held) file_parts;
  Ok (w_st (remove_dir_async_drain held w)).
End Closing.

(** ** The work that is left *)

(** What [add_items] has still to add. *)
Definition rest_of (t : task) : list (list Z) :=
  match t with
  | TAdd rest | TAddIbs _ rest | TFlush _ rest | TRound _ rest | TPush _ _ rest | TPushed _ _ _ rest => rest
  | _ => []
  end.

Definition weight (shards : nat) (t : task) : nat :=
  match t with
  | TAdd _ => 1
  | TAddIbs ibs _ => 30 * length ibs + 5
  | TTake j dst _ _ => 30 * length dst + (shards + 2 - j) + 5
  | TFlush ibs _ => 30 * length ibs + 4
  | TRound pws _ => 10 * length pws + 2
  | TPush big pws _ => 8 * length big + 10 * length pws + 3
  | TPushed _ big pws _ => 8 * length big + 10 * length pws + 7
  | TMerge pws _ _ => length pws + 8
  | TSwap pws _ _ => length pws + 7
  | TPermits _ n acquire _ => n + Nat.b2n acquire + 2
  | TRelease _ => 1
  end.

Definition shards_of (st : TableInner) : nat := length (ri_shards (ti_raw_items st)).

Definition work (st : TableInner) (ts : list task) : nat :=
  (30 * length (raw_blocks (ti_raw_items st)) + length (ti_inmemory_parts st) + sum_list_with (weight (shards_of st)) ts)%nat.

Section Progress.
  Context `{Zs : Zstd} {Zl : ZstdLaws Zs} (good : list Z -> Prop) `{SameItems same} (f : list (list Z) -> list (list Z)).
  Context (env : Env) (Hcb : callback_ok good same (env_prepare_block env) f).

Abbreviation world_ok := (world_ok good same).
Abbreviation step_ok := (step_ok good (same := same)).

(** A step that brings the end nearer. *)
Record progress (st : TableInner) (t : task) (st' : TableInner) (ts' : list task) : Prop := {
  pr_shutdown : ti_shutdown st' = true;
  pr_rest : Forall (fun t => rest_of t = []) ts';
  pr_shards : shards_of st' = shards_of st;
  pr_work : (work st' ts' < work st [t])%nat;
}.

(** Steps that leave the buffers and the in-memory parts as they are. *)
Lemma quiet_progress st t st' t' : ti_shutdown st = true -> keeps_lists st st' -> rest_of t' = [] ->
  (weight (shards_of st) t' < weight (shards_of st) t)%nat -> progress st t st' [t'].
Proof.
  intros Hsd [[Hraw Hsd'] Hinm] Hr Hw. assert (Hsh : shards_of st' = shards_of st) by (unfold shards_of; by rewrite Hraw).
  split; [congruence|by constructor|done|]. unfold work. rewrite Hsh, Hraw, Hinm. cbn. lia.
Qed.

Lemma take_progress st j dst now fin st' ts' : raw_ok good (ti_raw_items st) -> Forall (raw_block good) dst -> ti_shutdown st = true ->
  step_take st j dst now fin = Ok (st', ts') -> progress st (TTake j dst now fin) st' ts'.
Proof.
  intros Hr Hd Hsd. unfold step_take. destruct j as [|i].
  - destruct (take_pending _ _ _) as [raw out] eqn:Ha. destruct (take_pending_ok good _ _ _ _ _ Hr Ha) as (_ & _ & Hp & Hs & _). intros [= <- <-].
    assert (Hsh : shards_of (set_raw st raw (ti_too_long st)) = shards_of st) by (unfold shards_of; cbn; by rewrite Hs).
    apply Permutation_length in Hp. rewrite length_app in Hp. split; [done|by constructor|done|]. unfold work. rewrite Hsh. cbn. rewrite length_app. lia.
  - destruct (Nat.ltb_spec i (length (ri_shards (ti_raw_items st)))) as [Hlt|Hge].
    + destruct (take_shard_ok (E := out_of_fuel) good _ i dst now fin Hr Hlt Hd) as (raw & dst' & -> & _ & _ & Hp & _ & s' & Hs & _). rewrite bind_Ok. intros [= <- <-].
      assert (Hsh : shards_of (set_raw st raw (ti_too_long st)) = shards_of st) by (unfold shards_of; cbn; by rewrite Hs, length_insert).
      apply Permutation_length in Hp. rewrite !length_app in Hp. split; [done|by constructor|done|]. unfold work. rewrite Hsh. cbn. unfold shards_of. lia.
    + intros [= <- <-]. split; [done|by constructor|done|]. unfold work. cbn. lia.
Qed.

Lemma add_ibs_progress tk st ibs : raw_ok good (ti_raw_items st) -> Forall (raw_block good) ibs -> ti_shutdown st = true ->
  progress st (TAddIbs ibs []) (step_add_ibs env tk st ibs []).1 (step_add_ibs env tk st ibs []).2.
Proof.
  intros Hr Hib Hsd. unfold step_add_ibs. destruct (add_ibs_to_flush _ _ _ _ _) as [raw merge] eqn:Ha. destruct (add_ibs_ok good _ _ _ _ _ _ _ Hr Hib Ha) as (_ & _ & Hp).
  assert (Hs : ri_shards raw = ri_shards (ti_raw_items st)).
  { unfold add_ibs_to_flush in Ha. destruct ibs; [by injection Ha as <- <-|]. by destruct (_ <=? _)%nat; injection Ha as <- <-. }
  assert (Hsh : shards_of (set_raw st raw (ti_too_long st)) = shards_of st) by (unfold shards_of; cbn; by rewrite Hs).
  apply Permutation_length in Hp. rewrite !length_app in Hp. cbn [fst snd]. split; [done|by constructor|done|]. unfold work. rewrite Hsh. cbn. lia.
Qed.

(** After the shutdown signal every step of a thread that is not adding items
    brings the end nearer, whatever the others do. *)
Lemma step_progress tk st t ts g xs : world_ok st (t :: ts) g xs -> few xs -> ti_merge_idx st + 1 < 2 ^ 64 -> ti_shutdown st = true -> rest_of t = [] ->
  exists st' ts' g', step_task env tk st t = Ok (st', ts') /\ step_ok st (t :: ts) g xs st' (ts' ++ ts) g' /\ progress st t st' ts'.
Proof.
  intros Hw Hf Hi Hsd Hrest. pose proof (wk_raw _ _ _ _ _ _ Hw) as Hr. pose proof (wk_tasks _ _ _ _ _ _ Hw) as Ht. apply Forall_cons in Ht as [Ht _].
  destruct t; cbn [step_task rest_of] in *; subst.
  - destruct (step_add_ok good env tk st [] ts g xs Hw) as (st' & ts' & g' & Hrun & Hs). exists st', ts', g'. split_and!; [done|done|]. injection Hrun as <- <-.
    split; try done. unfold work. cbn. lia.
  - destruct (step_add_ibs_ok good env tk st ibs [] ts g xs Hw) as (st' & ts' & g' & Hrun & Hs). exists st', ts', g'. split_and!; [by rewrite Hrun|done|].
    pose proof (add_ibs_progress tk st ibs Hr ltac:(apply Ht) Hsd) as Hp. by rewrite Hrun in Hp.
  - destruct (step_take_ok good st shard dst now_ms is_final ts g xs Hw) as (st' & ts' & g' & Hrun & Hs). exists st', ts', g'. split_and!; [done|done|]. by eapply take_progress.
  - destruct (step_flush_ok good f env Hcb tk st ibs [] ts g xs Hw Hf) as (st' & ts' & g' & Hrun & Hs & Hk & t' & -> & Ht'). exists st', [t'], g'. split_and!; [done|done|].
    apply quiet_progress; try done; destruct Ht' as [->|(pws & -> & Hl)]; try done; cbn; lia.
  - destruct (step_round_ok good f env Hcb tk st pws [] ts g xs Hw Hf) as (st' & ts' & g' & Hrun & Hs & Hk & t' & -> & Ht'). exists st', [t'], g'. split_and!; [done|done|].
    apply quiet_progress; try done; destruct Ht' as [[-> ->]|[(a & -> & ->)|(big & rem & -> & Hl)]]; try done; cbn; lia.
  - destruct (step_push_ok good st big pws [] ts g xs Hw) as (st' & t' & g' & Hrun & Hs & Hk & Ht'). exists st', [t'], g'. split_and!; [by rewrite Hrun|done|].
    apply quiet_progress; try done; destruct Ht' as [[-> ->]|(a & big' & -> & [->|[-> Hn]])]; try done; try congruence; cbn; lia.
  - destruct (step_pushed_ok good f env Hcb st a big pws [] ts g xs Hw) as (st' & g' & Hrun & Hs & Hk). exists st', [TPush big pws []], g'. split_and!; [by rewrite Hrun|done|].
    injection Hrun as <-. split; [done|by constructor|done|]. unfold work. cbn. rewrite length_app. cbn. lia.
  - destruct (step_merge_ok good f env Hcb tk st pws has_stop is_final ts g xs Hw Hf Hi) as (st' & t' & g' & Hrun & Hs & Hk & Ht'). exists st', [t'], g'. split_and!; [done|done|].
    apply quiet_progress; try done; destruct Ht' as [(a & ty & -> & _)|[_ ->]]; try done; cbn; lia.
  - destruct (step_swap_ok good f env Hcb st pws pw_new ty ts g xs Hw) as (st' & n & g' & Hrun & Hs & [Hraw Hsd'] & Hn & Hinm). eexists st', _, g'. split_and!; [done|done|].
    assert (Hsh : shards_of st' = shards_of st) by (unfold shards_of; by rewrite Hraw). split; [congruence|by constructor|done|]. unfold work. rewrite Hsh, Hraw, Hinm, length_app.
    pose proof (length_filter (fun b => b ∉ pws) (ti_inmemory_parts st)). destruct (bool_decide (ty = PtInmemory)), ty; cbn; lia.
  - destruct (step_permits_ok good f env Hcb st pws release acquire removed ts g xs Hw) as (st' & t' & g' & Hrun & Hs & Hk & Ht'). exists st', [t'], g'. split_and!; [done|done|].
    apply quiet_progress; try done; (destruct release as [|n]; [destruct acquire; [destruct Ht' as [->|[-> Hn]]|]|]); subst; try done; try congruence; cbn; lia.
  - destruct (step_release_ok good f env Hcb st pws ts g xs Hw) as (st' & g' & Hrun & Hs & [[Hraw Hsd'] Hinm]). exists st', [], g'. split_and!; [done|done|].
    assert (Hsh : shards_of st' = shards_of st) by (unfold shards_of; by rewrite Hraw). split; [congruence|done|done|]. unfold work. rewrite Hsh, Hraw, Hinm. cbn. lia.
Qed.

(** ** All threads end *)

Record closing (w : World) (g : known) (xs : list (list Z)) : Prop := {
  cl_world : world_ok (w_st w) (w_tasks w) g xs;
  cl_shutdown : ti_shutdown (w_st w) = true;
  cl_rest : Forall (fun t => rest_of t = []) (w_tasks w);
}.

Abbreviation work_of w := (work (w_st w) (w_tasks w)).

Lemma work_perm st ts ts' : ts ≡ₚ ts' -> work st ts = work st ts'.
Proof. intros Hp. unfold work. by rewrite Hp. Qed.

Lemma work_more st st' t ts' ts : shards_of st' = shards_of st -> (work st' ts' < work st [t])%nat -> (work st' (ts' ++ ts) < work st (t :: ts))%nat.
Proof. unfold work. intros ->. rewrite sum_list_with_app. cbn. lia. Qed.

Lemma thread_step i tk w g xs t : closing w g xs -> few xs -> ti_merge_idx (w_st w) + 1 < 2 ^ 64 -> w_tasks w !! i = Some t ->
  exists st' ts' g', step_task env tk (w_st w) t = Ok (st', ts') /\
    let w' := mkWorld st' (take i (w_tasks w) ++ ts' ++ drop (S i) (w_tasks w)) in
    exec env (EvStep i tk) w = Ok w' /\ evolves good (same := same) w g xs 1 w' g' /\ closing w' (g ++ g') xs /\
    shards_of st' = shards_of (w_st w) /\ (work_of w' < work_of w)%nat.
Proof.
  intros [Hw Hsd Hrest] Hf Hi Ht. pose proof (task_turn _ _ _ Ht) as Hp. set (rest := take i (w_tasks w) ++ drop (S i) (w_tasks w)) in *.
  rewrite Hp in Hrest. apply Forall_cons in Hrest as [Hrt Hrest].
  destruct (step_progress tk (w_st w) t rest g xs) as (st' & ts' & g' & Hrun & [S1 S2 S3 S4] & [P1 P2 P3 P4]); [by eapply world_perm|done|done|done|done|].
  exists st', ts', g'. split; [done|]. cbn [exec]. rewrite Ht, Hrun, bind_Ok. set (w' := mkWorld _ _).
  assert (Hp' : w_tasks w' ≡ₚ ts' ++ rest) by (unfold w', rest; cbn [w_tasks]; solve_Permutation).
  assert (Hw' : world_ok (w_st w') (w_tasks w') (g ++ g') xs) by (eapply (world_perm good same _ (ts' ++ rest)); [by symmetry|exact S1]).
  split_and!; try done.
  - split; try done. rewrite Hp'. by apply Forall_app.
  - rewrite (work_perm _ _ _ Hp'), (work_perm _ _ _ Hp). by apply work_more.
Qed.

Lemma run_threads_ok (Inv : World -> Prop)
    (Hinv : forall w g xs i tk t st' ts', closing w g xs -> few xs -> ti_merge_idx (w_st w) + 1 < 2 ^ 64 -> Inv w -> w_tasks w !! i = Some t ->
      step_task env tk (w_st w) t = Ok (st', ts') -> Inv (mkWorld st' (take i (w_tasks w) ++ ts' ++ drop (S i) (w_tasks w)))) sched xs :
  few xs -> forall fuel w g, closing w g xs -> Inv w -> (work_of w <= fuel)%nat -> ti_merge_idx (w_st w) + Z.of_nat fuel < 2 ^ 64 ->
  exists w' g', run_threads env fuel sched w = Ok w' /\ evolves good (same := same) w g xs (Z.of_nat fuel) w' g' /\ closing w' (g ++ g') xs /\
    w_tasks w' = [] /\ Inv w' /\ shards_of (w_st w') = shards_of (w_st w) /\ (work_of w' <= work_of w)%nat.
Proof.
  intros Hf fuel. induction fuel as [|fuel IH]; intros w g Hc Hi Hwk Hidx.
  { exists w, []. destruct (w_tasks w) as [|t ts] eqn:Hts.
    - cbn [run_threads]. rewrite Hts, app_nil_r. split_and!; try done. by apply evolves_refl, cl_world.
    - exfalso. unfold work in Hwk. cbn in Hwk. destruct t; cbn in Hwk; lia. }
  cbn [run_threads]. destruct (w_tasks w) as [|t0 ts] eqn:Hts.
  { exists w, []. rewrite app_nil_r. split_and!; try done; [|by rewrite Hts]. eapply evolves_weaken; [by apply evolves_refl, cl_world|lia]. }
  destruct (sched fuel) as [i tk]. set (k := (i mod length (t0 :: ts))%nat).
  assert (Hk : (k < length (w_tasks w))%nat) by (rewrite Hts; apply Nat.mod_upper_bound; done). destruct (lookup_lt_is_Some_2 _ _ Hk) as [t Ht].
  destruct (thread_step k tk w g xs t Hc Hf ltac:(lia) Ht) as (st' & ts' & g1 & Hrun & Hex & Hev & Hc' & Hsh & Hlt). rewrite Hex, bind_Ok. set (w1 := mkWorld st' _) in *.
  rewrite <-Hts in Hwk. destruct (IH w1 (g ++ g1) Hc') as (w2 & g2 & -> & Hev2 & Hc2 & Ht2 & Hi2 & Hsh2 & Hlt2).
  { eapply Hinv; try done. lia. } { lia. } { pose proof (ev_merge_idx _ _ _ _ _ _ _ Hev). lia. }
  exists w2, (g1 ++ g2). rewrite app_assoc. split_and!; try done; [|by rewrite Hsh2|rewrite <-Hts; lia].
  replace (Z.of_nat (S fuel)) with (1 + Z.of_nat fuel) by lia. by eapply evolves_trans.
Qed.

(** *** Work that starts after the signal *)

Definition late_event (e : event) : Prop := match e with EvAddItems _ => False | _ => True end.

(** No event but the addition of items makes a thread that adds items. *)
Lemma late_quiet e w w' : late_event e -> (forall i tk, e <> EvStep i tk) -> exec env e w = Ok w' -> ti_shutdown (w_st w) = true -> Forall (fun t => rest_of t = []) (w_tasks w) ->
  ti_shutdown (w_st w') = true /\ Forall (fun t => rest_of t = []) (w_tasks w').
Proof.
  intros Hl Hns Hex Hsd Hr. assert (Hspawn : forall st pws, ti_shutdown st = true -> let w1 := spawn_merge st (w_tasks w) pws in
    ti_shutdown (w_st w1) = true /\ Forall (fun t => rest_of t = []) (w_tasks w1)).
  { intros st [|a pws] Hst; cbn; [done|]. split; [done|]. apply Forall_app. split; [done|by constructor]. }
  assert (Hmerge : forall parts max_out, ('(st, pws) ← get_parts_to_merge (E := out_of_fuel) (w_st w) parts max_out; Ok (spawn_merge st (w_tasks w) pws)) = Ok w' ->
    ti_shutdown (w_st w') = true /\ Forall (fun t => rest_of t = []) (w_tasks w')).
  { intros parts mo ([st pws] & Hg & [= <-])%bind_ok. apply Hspawn. unfold get_parts_to_merge in Hg. apply bind_ok in Hg as (ps & _ & Hg). by apply bind_ok in Hg as (arcs & _ & [= <- <-]). }
  destruct e as [items|now_ms fin|mo|mo|now fin|i tk|a|]; cbn [exec] in Hex; try done; try (by eapply Hmerge).
  - injection Hex as <-. split; [done|]. apply Forall_app. split; [done|by constructor].
  - unfold get_inmemory_parts_to_flush in Hex. apply bind_ok in Hex as (groups & _ & [= <-]). split; [done|]. apply Forall_app. split; [done|]. apply Forall_fmap, Forall_forall. done.
  - by destruct (Hns i tk).
  - injection Hex as <-. unfold remove_dir. destruct (ti_arcs (w_st w) !! a); [|done]. by destruct (_ && _ && _).
  - by injection Hex as <-.
Qed.

Lemma late_ok e w g xs : closing w g xs -> late_event e -> few xs -> ti_merge_idx (w_st w) + 1 < 2 ^ 64 ->
  exists w' g', exec env e w = Ok w' /\ evolves good (same := same) w g xs 1 w' g' /\ closing w' (g ++ g') xs.
Proof.
  intros Hc Hl Hf Hi. assert (Hitems : event_items e = []) by (by destruct e). assert (Hok : event_ok good e) by (by destruct e).
  destruct (exec_ok good f env Hcb e w g xs (cl_world _ _ _ Hc) Hok) as (w' & g' & Hex & Hev); [by rewrite Hitems, app_nil_r|done|]. rewrite Hitems, app_nil_r in Hev.
  assert (Hcase : (exists i tk, e = EvStep i tk) \/ forall i tk, e <> EvStep i tk) by (destruct e; eauto; by right).
  destruct Hcase as [(i & tk & ->)|Hns].
  - destruct (w_tasks w !! i) as [t|] eqn:Ht.
    + destruct (thread_step i tk w g xs t Hc Hf Hi Ht) as (st1 & ts1 & g1 & _ & Hex1 & Hev1 & Hc1 & _). by eexists _, g1.
    + cbn [exec] in Hex. rewrite Ht in Hex. injection Hex as <-. exists w, []. cbn [exec]. rewrite Ht, app_nil_r. split_and!; try done.
      eapply evolves_weaken; [by apply evolves_refl, cl_world|lia].
  - destruct (late_quiet e w w' Hl Hns Hex (cl_shutdown _ _ _ Hc) (cl_rest _ _ _ Hc)) as [H1 H2]. exists w', g'. split_and!; try done. split; [apply Hev|done|done].
Qed.

Lemma late_all_ok late : forall w g xs, closing w g xs -> Forall late_event late -> few xs -> ti_merge_idx (w_st w) + Z.of_nat (length late) < 2 ^ 64 ->
  exists w' g', exec_all env late w = Ok w' /\ evolves good (same := same) w g xs (Z.of_nat (length late)) w' g' /\ closing w' (g ++ g') xs.
Proof.
  induction late as [|e late IH]; intros w g xs Hc Hl Hf Hi.
  { exists w, []. rewrite app_nil_r. split_and!; try done. by apply evolves_refl, cl_world. }
  apply Forall_cons in Hl as [He Hl]. cbn [length] in Hi. destruct (late_ok e w g xs Hc He Hf ltac:(lia)) as (w1 & g1 & Hex & Hev & Hc1). cbn [exec_all]. rewrite Hex, bind_Ok.
  destruct (IH w1 (g ++ g1) xs Hc1 Hl Hf) as (w2 & g2 & -> & Hev2 & Hc2); [pose proof (ev_merge_idx _ _ _ _ _ _ _ Hev); lia|].
  exists w2, (g1 ++ g2). split; [done|]. split; [|by rewrite app_assoc]. replace (Z.of_nat (length (e :: late))) with (1 + Z.of_nat (length late)) by (cbn [length]; lia). by eapply evolves_trans.
Qed.

(** ** The final flush of the buffers *)

Definition shards_empty (raw : RawItemsShards) (n : nat) : Prop :=
  ri_ibs_to_flush raw = [] /\ forall i s, (i < n)%nat -> ri_shards raw !! i = Some s -> rs_ibs s = [].

Definition flushed_by (st : TableInner) (t : task) : Prop :=
  match t with
  | TTake O _ _ fin => fin = true
  | TTake (S j) _ _ fin => fin = true /\ shards_empty (ti_raw_items st) j
  | TAdd _ | TFlush _ _ | TRound _ _ | TPush _ _ _ | TPushed _ _ _ _ => raw_blocks (ti_raw_items st) = []
  | _ => False
  end.

Definition flushing (w : World) : Prop :=
  match w_tasks w with
  | [] => raw_blocks (ti_raw_items (w_st w)) = []
  | [t] => flushed_by (w_st w) t
  | _ => False
  end.

Lemma all_shards_empty raw n : shards_empty raw n -> (length (ri_shards raw) <= n)%nat -> raw_blocks raw = [].
Proof.
  intros [Hp Hs] Hn. unfold raw_blocks. rewrite Hp. cbn [app]. apply concat_nil_Forall, Forall_fmap, Forall_lookup. intros i s Hi. cbn. apply (Hs i s); [|done].
  apply lookup_lt_Some in Hi. lia.
Qed.

Lemma take_flushes st j dst now st' ts' : raw_ok good (ti_raw_items st) -> Forall (raw_block good) dst -> flushed_by st (TTake j dst now true) ->
  step_take st j dst now true = Ok (st', ts') -> exists t', ts' = [t'] /\ flushed_by st' t'.
Proof.
  intros Hr Hd Hfl. unfold step_take. destruct j as [|i].
  - destruct (take_pending _ _ _) as [raw out] eqn:Ha. destruct (take_pending_ok good _ _ _ _ _ Hr Ha) as (_ & _ & _ & _ & Hp). intros [= <- <-].
    eexists. split; [done|]. split; [done|]. split; [by apply Hp|]. intros i s Hi. lia.
  - destruct Hfl as [_ [Hp Hs]]. destruct (Nat.ltb_spec i (length (ri_shards (ti_raw_items st)))) as [Hlt|Hge].
    + destruct (take_shard_ok (E := out_of_fuel) good _ i dst now true Hr Hlt Hd) as (raw & dst' & -> & _ & _ & _ & Hpend & s' & Hsh & He). rewrite bind_Ok. intros [= <- <-].
      eexists. split; [done|]. split; [done|]. split; [by cbn; rewrite Hpend|]. cbn [set_raw ti_raw_items]. intros k s Hk. rewrite Hsh. destruct (decide (k = i)) as [->|Hne].
      * rewrite list_lookup_insert_eq by done. intros [= <-]. by apply He.
      * rewrite list_lookup_insert_ne by done. apply Hs. lia.
    + intros [= <- <-]. eexists. split; [done|]. apply (all_shards_empty _ i); [by split|done].
Qed.

Lemma flushed_keeps st st' t' : keeps_buffers st st' -> raw_blocks (ti_raw_items st) = [] ->
  match t' with TAdd _ | TFlush _ _ | TRound _ _ | TPush _ _ _ | TPushed _ _ _ _ => True | _ => False end -> flushed_by st' t'.
Proof. intros [Hraw _] Hb. destruct t'; cbn; try done; by rewrite Hraw. Qed.

Lemma flushing_step w g xs i tk t st' ts' : closing w g xs -> few xs -> ti_merge_idx (w_st w) + 1 < 2 ^ 64 -> flushing w -> w_tasks w !! i = Some t ->
  step_task env tk (w_st w) t = Ok (st', ts') -> flushing (mkWorld st' (take i (w_tasks w) ++ ts' ++ drop (S i) (w_tasks w))).
Proof.
  intros [Hw Hsd Hrest] Hf Hi Hfl Ht Hrun. unfold flushing in Hfl. destruct (w_tasks w) as [|t0 [|? ?]]; [done| |done].
  destruct i as [|i]; [|done]. injection Ht as ->. apply Forall_cons in Hrest as [Hrt _]. cbn [take drop app]. rewrite app_nil_r.
  pose proof (wk_raw _ _ _ _ _ _ Hw) as Hr. pose proof (wk_tasks _ _ _ _ _ _ Hw) as Hto. apply Forall_cons in Hto as [Hto _].
  enough (Hgo : ts' = [] /\ raw_blocks (ti_raw_items st') = [] \/ exists t', ts' = [t'] /\ flushed_by st' t').
  { unfold flushing. cbn [w_tasks w_st]. destruct Hgo as [[-> Hb]|(t' & -> & Hb)]; done. }
  destruct t; try done; cbn [step_task rest_of] in *; subst.
  - injection Hrun as <- <-. by left.
  - right. assert (is_final = true) as -> by (destruct shard; [done|by destruct Hfl]). by eapply take_flushes.
  - right. destruct (step_flush_ok good f env Hcb tk (w_st w) ibs [] [] g xs Hw Hf) as (st1 & ts1 & g' & Hrun1 & _ & [Hk _] & t' & -> & Ht').
    rewrite Hrun in Hrun1. injection Hrun1 as -> ->. exists t'. split; [done|]. apply (flushed_keeps _ _ _ Hk Hfl). by destruct Ht' as [->|(pws & -> & _)].
  - right. destruct (step_round_ok good f env Hcb tk (w_st w) pws [] [] g xs Hw Hf) as (st1 & ts1 & g' & Hrun1 & _ & [Hk _] & t' & -> & Ht').
    rewrite Hrun in Hrun1. injection Hrun1 as -> ->. exists t'. split; [done|]. apply (flushed_keeps _ _ _ Hk Hfl).
    by destruct Ht' as [[_ ->]|[(a & _ & ->)|(big & rem & -> & _)]].
  - right. destruct (step_push_ok good (w_st w) big pws [] [] g xs Hw) as (st1 & t' & g' & Hrun1 & _ & [Hk _] & Ht').
    rewrite Hrun1 in Hrun. injection Hrun as <- <-. exists t'. split; [done|]. apply (flushed_keeps _ _ _ Hk Hfl).
    by destruct Ht' as [[_ ->]|(a & big' & _ & [->|[-> _]])].
  - right. injection Hrun as <- <-. eexists. split; [done|]. by apply (flushed_keeps (w_st w)).
Qed.

(** ** The final merge of the in-memory parts *)

Definition final_merge (t : task) : Prop :=
  match t with
  | TMerge _ has_stop fin => has_stop = false /\ fin = true
  | TSwap _ _ ty => ty = PtFile
  | TPermits _ _ _ _ | TRelease _ => True
  | _ => False
  end.

Definition unswapped (t : task) : list nat := match t with TMerge pws _ _ | TSwap pws _ _ => pws | _ => [] end.

Record merging (w : World) : Prop := {
  mg_raw : raw_blocks (ti_raw_items (w_st w)) = [];
  mg_tasks : Forall final_merge (w_tasks w);
  mg_parts a : a ∈ ti_inmemory_parts (w_st w) -> a ∈ concat (map unswapped (w_tasks w));
}.

Lemma merging_step w g xs i tk t st' ts' : closing w g xs -> few xs -> ti_merge_idx (w_st w) + 1 < 2 ^ 64 -> merging w -> w_tasks w !! i = Some t ->
  step_task env tk (w_st w) t = Ok (st', ts') -> merging (mkWorld st' (take i (w_tasks w) ++ ts' ++ drop (S i) (w_tasks w))).
Proof.
  intros [Hw Hsd Hrest] Hf Hi [Hraw Htasks Hparts] Ht Hrun. pose proof (task_turn _ _ _ Ht) as Hp. set (rest := take i (w_tasks w) ++ drop (S i) (w_tasks w)) in *.
  assert (Hw' : world_ok (w_st w) (t :: rest) g xs) by (by eapply world_perm). rewrite Hp in Htasks. apply Forall_cons in Htasks as [Htf Htasks].
  assert (Hpu : forall a, a ∈ ti_inmemory_parts (w_st w) -> a ∈ unswapped t \/ a ∈ concat (map unswapped rest)).
  { intros a Ha. apply Hparts in Ha. rewrite Hp in Ha. cbn [map concat] in Ha. by apply elem_of_app in Ha. }
  enough (Hgo : keeps_buffers (w_st w) st' /\ Forall final_merge ts' /\
    forall a, a ∈ ti_inmemory_parts st' -> a ∈ ti_inmemory_parts (w_st w) /\ (a ∈ unswapped t -> a ∈ concat (map unswapped ts'))).
  { destruct Hgo as ([Hb _] & Hft & Hin). assert (Hp' : take i (w_tasks w) ++ ts' ++ drop (S i) (w_tasks w) ≡ₚ ts' ++ rest) by (unfold rest; solve_Permutation).
    split; cbn [w_st w_tasks]; [by rewrite Hb|rewrite Hp'; by apply Forall_app|]. intros a Ha. rewrite Hp', map_app, concat_app, elem_of_app. apply Hin in Ha as [Ha Hu].
    apply Hpu in Ha as [Ha|Ha]; auto. }
  destruct t; try done; cbn [step_task final_merge] in *.
  - destruct Htf as [-> ->]. destruct (step_merge_ok good f env Hcb tk (w_st w) pws false true rest g xs Hw' Hf Hi) as (st1 & t' & g' & Hrun1 & _ & [Hk Hinm] & Ht').
    rewrite Hrun in Hrun1. injection Hrun1 as -> ->. destruct Ht' as [(a & ty & -> & Hty)|[? _]]; [|done]. split_and!; [done|constructor; [by apply Hty|done]|].
    intros b. rewrite Hinm. cbn. rewrite app_nil_r. auto.
  - subst ty. destruct (step_swap_ok good f env Hcb (w_st w) pws pw_new PtFile rest g xs Hw') as (st1 & n & g' & Hrun1 & _ & Hk & _ & Hinm). rewrite Hrun in Hrun1. injection Hrun1 as -> ->.
    split_and!; [done|by constructor|]. intros b. rewrite Hinm, app_nil_r, list_elem_of_filter. cbn. tauto.
  - destruct (step_permits_ok good f env Hcb (w_st w) pws release acquire removed rest g xs Hw') as (st1 & t' & g' & Hrun1 & _ & [Hk Hinm] & Ht'). rewrite Hrun in Hrun1. injection Hrun1 as -> ->.
    split_and!; [done| |]; [|intros b; rewrite Hinm; cbn; split; [done|by intros ?%elem_of_nil]]. constructor; [|done].
    destruct release as [|n]; [destruct acquire; [destruct Ht' as [->|[-> _]]|]|]; by subst.
  - destruct (step_release_ok good f env Hcb (w_st w) pws rest g xs Hw') as (st1 & g' & Hrun1 & _ & [Hk Hinm]). rewrite Hrun in Hrun1. injection Hrun1 as -> ->.
    split_and!; [done|done|]. intros b. rewrite Hinm. cbn. split; [done|by intros ?%elem_of_nil].
Qed.

(** ** The whole of closing *)

Lemma raw_empty_len raw : raw_blocks raw = [] -> raw_items_len raw = 0%nat.
Proof.
  intros [_ Hc]%app_eq_nil. unfold raw_items_len. apply concat_nil_Forall, Forall_fmap in Hc. induction Hc as [|s l Hs _ IH]; [done|].
  cbn in Hs |- *. unfold shard_len. by rewrite Hs.
Qed.

Lemma idle_unmarked st g xs a : world_ok st [] g xs -> a ∈ ti_inmemory_parts st -> unmarked (ti_arcs st) a.
Proof.
  intros Hw Ha. pose proof (wk_inmemory _ _ _ _ _ _ Hw) as Hm. rewrite Forall_forall in Hm. destruct (Hm a Ha) as (pw & mp & Hpw & _). exists pw. split; [done|].
  destruct (pw_is_in_merge pw) eqn:Hmk; [|done]. pose proof (wk_free _ _ _ _ _ _ Hw a) as Hfr. cbn in Hfr. by destruct (proj1 (elem_of_nil a) (Hfr ltac:(by exists pw))).
Qed.

Lemma merges_weight shards groups : sum_list_with (weight shards) (map (fun grp => TMerge grp false true) groups) = (length (concat groups) + 8 * length groups)%nat.
Proof. induction groups as [|grp groups IH]; [done|]. cbn. rewrite IH, length_app. lia. Qed.

(** A table that is closed: all that was added is in files. *)
Record closed (w : World) (g : known) (xs : list (list Z)) : Prop := {
  cd_world : world_ok (w_st w) (w_tasks w) g xs;
  cd_tasks : w_tasks w = [];
  cd_raw : raw_blocks (ti_raw_items (w_st w)) = [];
  cd_inmemory : ti_inmemory_parts (w_st w) = [];
}.

Lemma closed_items w g xs : closed w g xs -> shrunk same xs (contents_of g (ti_file_parts (w_st w))).
Proof.
  intros [Hw Ht Hr Hi]. pose proof (wk_items _ _ _ _ _ _ Hw) as Hs. rewrite Ht, Hr in Hs. unfold get_parts in Hs. by rewrite Hi in Hs.
Qed.

Lemma closed_nodup w g xs : closed w g xs -> NoDup (ti_file_parts (w_st w)).
Proof.
  intros [Hw _ _ _]. pose proof (wk_nodup _ _ _ _ _ _ Hw) as Hn. apply NoDup_app in Hn as (Hn & _). unfold get_parts in Hn. by apply NoDup_app in Hn as (_ & _ & Hn).
Qed.

Lemma bind_seq {E A B C} (m : res E A) (h : A -> res E B) (k : B -> res E C) b : m ≫= h = Ok b -> m ≫= (fun a => h a ≫= k) = k b.
Proof. intros (a & -> & Ha)%bind_ok. by rewrite bind_Ok, Ha, bind_Ok. Qed.

Lemma flush_phase fuel sched now_ms w g xs : closing w g xs -> few xs -> w_tasks w = [] -> (work_of w + shards_of (w_st w) + 7 <= fuel)%nat ->
  ti_merge_idx (w_st w) + Z.of_nat fuel < 2 ^ 64 ->
  exists w' g', (w ← exec env (EvFlushPendingItems now_ms true) w; run_threads env fuel sched w) = Ok w' /\
    evolves good (same := same) w g xs (Z.of_nat fuel) w' g' /\ closing w' (g ++ g') xs /\ w_tasks w' = [] /\ raw_blocks (ti_raw_items (w_st w')) = [] /\
    (work_of w' <= work_of w + shards_of (w_st w) + 7)%nat.
Proof.
  intros [Hw Hsd Hr] Hf Ht Hfuel Hidx. cbn [exec]. rewrite bind_Ok, Ht. cbn [app]. rewrite Ht in Hw. set (w0 := mkWorld (w_st w) [_]).
  pose proof (take_items_ok good _ _ _ _ now_ms true Hw) as Hw0.
  assert (Hwork : work_of w0 = (work_of w + shards_of (w_st w) + 7)%nat) by (rewrite Ht; unfold w0, work; cbn; lia).
  destruct (run_threads_ok flushing flushing_step sched xs Hf fuel w0 g) as (w' & g' & -> & Ev & Hc & Ht' & Hi & _ & Hle); [by split; [|done|constructor]|done|lia|done|].
  exists w', g'. rewrite Ht in *. unfold flushing in Hi. rewrite Ht' in Hi. split_and!; try done; [|lia]. destruct Ev as [E1 E2 E3 E4]. by split.
Qed.

Lemma merge_phase fuel sched now w g xs : closing w g xs -> few xs -> w_tasks w = [] -> raw_blocks (ti_raw_items (w_st w)) = [] -> (10 * work_of w <= fuel)%nat ->
  ti_merge_idx (w_st w) + Z.of_nat fuel + 1 < 2 ^ 64 ->
  exists w' g', (w ← exec env (EvFlushInmemoryParts now true) w; run_threads env fuel sched w) = Ok w' /\
    evolves good (same := same) w g xs (Z.of_nat fuel + 1) w' g' /\ closed w' (g ++ g') xs.
Proof.
  intros [Hw Hsd Hr] Hf Ht Hraw Hfuel Hidx. destruct w as [st ts]. cbn [w_st w_tasks] in *. subst ts.
  destruct (flush_parts_started good f env Hcb st [] g xs now true Hw) as (st1 & groups & -> & Hs & [[Hraw1 Hsd1] Hinm] & Hlen & Hall). rewrite bind_Ok. cbn [app] in *.
  specialize (Hall eq_refl (fun a => idle_unmarked _ _ _ a Hw)). set (w1 := mkWorld st1 _). apply (step_evolves good (mkWorld st [])) in Hs.
  assert (Hwork : (work_of w1 <= fuel)%nat).
  { unfold w1, work in *. cbn [w_st w_tasks] in *. rewrite merges_weight, <-Hall, Hraw1, Hraw, Hinm. rewrite Hraw in Hfuel. cbn in *. lia. }
  assert (Hm : merging w1).
  { split; cbn; [by rewrite Hraw1|apply Forall_fmap, Forall_forall; done|]. intros a. rewrite Hinm, Hall, map_map. by rewrite map_id. }
  assert (Hc : closing w1 g xs).
  { split; [|cbn; congruence|apply Forall_fmap, Forall_forall; done]. pose proof (ev_world _ _ _ _ _ _ _ Hs) as Hw1. by rewrite app_nil_r in Hw1. }
  destruct (run_threads_ok merging merging_step sched xs Hf fuel w1 g Hc Hm Hwork) as (w' & g' & -> & Ev & Hc' & Ht' & Hm' & _).
  { pose proof (ev_merge_idx _ _ _ _ _ _ _ Hs). cbn in *. lia. }
  exists w', g'. split; [done|]. split.
  - rewrite Z.add_comm. eapply (evolves_trans good (mkWorld st []) g xs 1 w1 []); [exact Hs|by rewrite app_nil_r].
  - destruct Hm' as [M1 M2 M3]. rewrite Ht' in M3. split; [apply Hc'|done|done|]. destruct (ti_inmemory_parts (w_st w')) as [|a l]; [done|].
    specialize (M3 a ltac:(left)). by apply elem_of_nil in M3.
Qed.

(** File parts that the table alone refers to. *)
Lemma drop_file_parts_ok others pws : NoDup pws -> (forall a, a ∈ pws -> a ∉ others) -> drop_file_parts others pws = Ok tt.
Proof.
  intros Hnd. induction Hnd as [|a pws Ha _ IH]; intros Ho; [done|]. cbn [drop_file_parts]. unfold strong_count.
  assert (filter (fun b => b = a) (pws ++ others) = []) as ->.
  { destruct (filter (fun b => b = a) (pws ++ others)) as [|b l] eqn:Hf; [done|]. assert (Hb : b ∈ filter (fun b => b = a) (pws ++ others)) by (rewrite Hf; left).
    apply list_elem_of_filter in Hb as [-> [Hb|Hb]%elem_of_app]; [done|]. by destruct (Ho a ltac:(left)). }
  cbn [length Nat.eqb assert_]. rewrite bind_Ok. apply IH. intros b Hb. apply Ho. by right.
Qed.

(** A file part that a search refers to stops the closing. *)
Lemma drop_held_panics others pws a : a ∈ pws -> a ∈ others -> drop_file_parts others pws = Panic.
Proof.
  intros Ha Ho. induction pws as [|b pws IH]; [by apply elem_of_nil in Ha|]. cbn [drop_file_parts]. unfold strong_count.
  destruct (decide (a = b)) as [->|Hne].
  - assert (Hin : b ∈ filter (fun c => c = b) (pws ++ others)) by (apply list_elem_of_filter; split; [done|apply elem_of_app; by right]).
    destruct (filter (fun c => c = b) (pws ++ others)); [by apply elem_of_nil in Hin|done].
  - apply elem_of_cons in Ha as [?|Ha]; [done|]. destruct (assert_ _) as [u|[]|] eqn:Hx; cbn; [by apply IH| |done]. unfold assert_ in Hx. by destruct (_ =? _)%nat.
Qed.

(** What removing directories leaves alone: the list of parts and the
    directories of wrappers that are not marked. *)
Record drained (st st' : TableInner) : Prop := {
  dn_arcs : ti_arcs st' = ti_arcs st;
  dn_lists : ti_raw_items st' = ti_raw_items st /\ get_parts st' = get_parts st;
  dn_merge_idx : ti_merge_idx st' = ti_merge_idx st;
  dn_parts : d_parts (ti_disk st') = d_parts (ti_disk st);
  dn_dirs name : (forall a pw, ti_arcs st !! a = Some pw -> p_path (pw_p pw) = name -> pw_must_drop pw = false) ->
    d_dirs (ti_disk st') !! name = d_dirs (ti_disk st) !! name;
}.

Lemma drain_ok l : forall w, drained (w_st w) (w_st (foldl remove_dir w l)) /\ w_tasks (foldl remove_dir w l) = w_tasks w.
Proof.
  induction l as [|a l IH]; intros w; cbn [foldl]; [by repeat split|].
  assert (Hone : drained (w_st w) (w_st (remove_dir w a)) /\ w_tasks (remove_dir w a) = w_tasks w).
  { unfold remove_dir. destruct (ti_arcs (w_st w) !! a) as [pw|] eqn:Ha; [|by repeat split]. destruct (_ && _) eqn:Hc; [|by repeat split].
    split; [|done]. apply andb_true_iff in Hc as [Hc _]. apply andb_true_iff in Hc as [Hc _]. split; try done. intros name Hn. cbn.
    apply lookup_delete_ne. intros Heq. specialize (Hn a pw Ha Heq). congruence. }
  destruct Hone as [[A1 [A2 A3] A4 A5 A6] T1], (IH (remove_dir w a)) as [[B1 [B2 B3] B4 B5 B6] T2]. split; [|congruence].
  split; [congruence|split; congruence|congruence|congruence|]. intros name Hn. rewrite B6; [by apply A6|]. intros b pw. rewrite A1. apply Hn.
Qed.

(** The directory after closing: the parts that the list names are complete. *)
Lemma closed_image w g xs held : closed w g xs ->
  let st' := w_st (remove_dir_async_drain held (mkWorld (set_parts (w_st w) [] []) [])) in
  ti_raw_items st' = ti_raw_items (w_st w) /\ get_parts st' = [] /\ ti_merge_idx st' = ti_merge_idx (w_st w) /\
  d_parts (ti_disk st') = d_parts (ti_disk (w_st w)) /\
  forall name, name ∈ default [] (d_parts (ti_disk (w_st w))) -> d_dirs (ti_disk st') !! name = d_dirs (ti_disk (w_st w)) !! name.
Proof.
  intros [Hw Ht Hr Hi]. unfold remove_dir_async_drain. cbn zeta.
  match goal with |- context [foldl remove_dir ?w0 ?l] => destruct (drain_ok l w0) as [[A1 [A2 A3] A4 A5 A6] _] end. cbn [w_st] in *.
  split_and!; try done. intros name Hin. apply A6. cbn [set_parts ti_arcs]. intros a pw Hpw Hpath. destruct (pw_must_drop pw) eqn:Hmd; [|done]. exfalso.
  destruct (wk_listed _ _ _ _ _ _ Hw) as (names & Hn & Hp). rewrite Hn in Hin. cbn [default] in Hin. rewrite Hp in Hin. apply list_elem_of_fmap in Hin as (b & Hb & Hbin).
  pose proof (wk_files _ _ _ _ _ _ Hw) as Hf. rewrite Forall_forall in Hf. destruct (Hf b Hbin) as (q & Hq & Hqm). unfold path_at in Hb. rewrite Hq in Hb.
  pose proof (wk_store _ _ _ _ _ _ Hw) as Hs. destruct (pw_mp pw) as [mp|] eqn:Hmp.
  - destruct (Forall2_lookup_l _ _ _ _ _ (so_arcs _ _ _ _ Hs) Hpw) as (k & _ & [_ Hk]). rewrite Hmp in Hk.
    destruct (Forall2_lookup_l _ _ _ _ _ (so_arcs _ _ _ _ Hs) Hq) as (k' & _ & [_ Hk']). rewrite Hqm in Hk'. destruct Hk as [_ Hk]. apply Hk'. cbn in Hb. rewrite <-Hb, <-Hpath, Hk. left.
  - assert (a = b) as ->.
    { apply (so_paths _ _ _ _ Hs a b pw q); try done. congruence. }
    apply (wk_kept _ _ _ _ _ _ Hw b); [right; by exists pw|]. unfold places, get_parts. rewrite !elem_of_app. auto.
Qed.

Lemma must_close_ok fuel sched late now_ms now w g xs : world_ok (w_st w) (w_tasks w) g xs -> few xs -> Forall (fun t => rest_of t = []) (w_tasks w) -> Forall late_event late ->
  ti_stopped (w_st w) = false -> (forall w', exec_all env (EvStop :: late) w = Ok w' -> (10 * (work_of w' + shards_of (w_st w') + 7) <= fuel)%nat) ->
  ti_merge_idx (w_st w) + Z.of_nat (length late) + 3 * Z.of_nat fuel + 1 < 2 ^ 64 ->
  exists w' g', (forall held, must_close env fuel sched late now_ms now held w =
      _ ← drop_file_parts held (ti_file_parts (w_st w')); Ok (w_st (remove_dir_async_drain held (mkWorld (set_parts (w_st w') [] []) [])))) /\
    closed w' (g ++ g') xs /\
    evolves good (same := same) w g xs (Z.of_nat (length late) + 3 * Z.of_nat fuel + 1) w' g'.
Proof.
  intros Hw Hf Hrest Hlate Hst Hfuel Hidx.
  cbn [exec_all exec] in Hfuel. rewrite bind_Ok in Hfuel. set (ws := mkWorld (set_stop _) _) in *. assert (Hs : closing ws g xs) by (split; [by apply stop_ok|done|done]).
  assert (Es : evolves good (same := same) w g xs 0 ws []).
  { pose proof (evolves_refl good _ _ _ (cl_world _ _ _ Hs)) as [E1 E2 E3 E4]. by split. }
  change (ti_merge_idx (w_st w)) with (ti_merge_idx (w_st ws)) in Hidx.
  destruct (late_all_ok late ws g xs Hs Hlate Hf ltac:(lia)) as (w0 & g0 & Hex0 & E0 & H0). specialize (Hfuel w0 Hex0). pose proof (ev_merge_idx _ _ _ _ _ _ _ E0) as I0.
  destruct (run_threads_ok (fun _ => True) ltac:(done) (sched 0%nat) xs Hf fuel w0 (g ++ g0) H0) as (w1 & g1 & R1 & Ev1 & C1 & T1 & _ & S1 & W1); [done|lia|lia|].
  pose proof (ev_merge_idx _ _ _ _ _ _ _ Ev1) as I1.
  destruct (flush_phase fuel (sched 1%nat) now_ms w1 ((g ++ g0) ++ g1) xs C1 Hf T1) as (w2 & g2 & R2 & Ev2 & C2 & T2 & B2 & W2); [lia|lia|].
  pose proof (ev_merge_idx _ _ _ _ _ _ _ Ev2) as I2.
  destruct (merge_phase fuel (sched 2%nat) now w2 (((g ++ g0) ++ g1) ++ g2) xs C2 Hf T2 B2) as (w3 & g3 & R3 & Ev3 & C3); [lia|lia|].
  exists w3, (g0 ++ g1 ++ g2 ++ g3). split.
  { intros held. unfold must_close. rewrite Hst. cbn [negb assert_]. rewrite bind_Ok. cbn [exec]. rewrite bind_Ok. fold ws. rewrite Hex0, bind_Ok, R1, bind_Ok.
    rewrite (bind_seq _ _ _ _ R2), (bind_seq _ _ _ _ R3), (raw_empty_len _ (cd_raw _ _ _ C3)), (cd_inmemory _ _ _ C3), (cd_tasks _ _ _ C3). cbn [Nat.eqb length assert_]. by rewrite !bind_Ok. }
  split; [by rewrite !app_assoc|]. eapply evolves_weaken; [|].
  - eapply (evolves_trans good w g xs 0 ws []); [exact Es|]. rewrite app_nil_r. eapply (evolves_trans good ws g xs _ w0 g0); [exact E0|].
    eapply (evolves_trans good w0 _ xs _ w1 g1); [exact Ev1|]. eapply (evolves_trans good w1 _ xs _ w2 g2); [exact Ev2|exact Ev3].
  - lia.
Qed.
End Progress.
