(* ===== verification/ItemTableClaims.v ===== *)
(** * A table keeps its items

    What the users of [esm_mergeset::Table] rely on, for any interleaving of
    its threads: nothing panics, no item is lost, what a search can find it
    finds from then on, a crash loses nothing that was in files, and closing
    ends with everything in files.  Items are read back with the readers of the
    code, so no statement mentions the bookkeeping of the invariant. *)
From Stdlib Require Import ZArith Lia Bool Sorted Permutation.
From stdpp Require Import gmap.
From S2P Require Import Prelude Heap IntCodec Float64 Compress ItemBlock ItemBlockSpec ItemHeader ItemStream ItemMerge ItemMergeSpec ItemPartMerge BlockCache SearchBase ItemSearch PartSelect RawItems PartWrite PartDisk ItemTableOps ItemTableSteps ItemTableStore ItemTableInv ItemTableSafe ItemTableOpen ItemTableClose.
Local Open Scope Z_scope.

(** The items that a sequence of events adds. *)
Definition added_items (es : list event) : list (list Z) := concat (map event_items es).

(** A directory that a table can be opened in: [ks] are its parts, and the
    clock is later than the names of the parts. *)
Record openable `{Zs : Zstd} (good : list Z -> Prop) (d : Disk) (ks : known) (shards : nat) (now_nanos : Z) : Prop := {
  op_parts : recoverable good d ks;
  op_shards : (0 < shards)%nat;
  op_clock : 0 <= now_nanos;
  op_fresh n : now_nanos < n < 2 ^ 64 -> part_name n ∉ must_read_part_names (without_tmp d);
}.

Section Run.
  Context `{Zs : Zstd} {Zl : ZstdLaws Zs} (good : list Z -> Prop) `{SameItems same} (f : list (list Z) -> list (list Z)).
  Context (env : Env) (Hcb : callback_ok good same (env_prepare_block env) f).

(** A state with its invariant, read back. *)
Lemma world_read st ts g xs : world_ok good same st ts g xs -> few xs ->
  visible_items st = Ok (contents_of g (get_parts st)) /\ durable_items st = Ok (contents_of g (ti_file_parts st)).
Proof.
  intros Hw Hf. pose proof (few_app_r _ _ (few_app_r _ _ (few_world _ _ _ _ _ Hw Hf))) as Hc. unfold visible_items, durable_items.
  split; eapply read_parts_ok; try exact (wk_store _ _ _ _ _ _ Hw); try done.
  - intros a Ha. apply elem_of_app. by left.
  - intros a Ha. unfold places, get_parts. rewrite !elem_of_app. auto.
  - unfold get_parts in Hc. rewrite contents_app in Hc. by eapply few_app_r.
Qed.

Lemma opened_run {E} shards now now_nanos id d ks es : openable good d ks shards now_nanos -> Forall (event_ok good) es -> few (known_items ks ++ added_items es) ->
  now_nanos + Z.of_nat (length es) < 2 ^ 64 ->
  exists st w g, must_open (E := E) shards now now_nanos id d = Ok st /\ exec_all env es (mkWorld st []) = Ok w /\ fresh_table good (same := same) st ks shards now_nanos /\
    evolves good (same := same) (mkWorld st []) ks (known_items ks ++ added_items es) (Z.of_nat (length es)) w g.
Proof.
  intros [Hr Hs Hc Hn] He Hf Hi. destruct (must_open_ok (E := E) good (same := same) shards now now_nanos id d ks Hr (few_app_l _ _ Hf) Hs Hc Hn) as (st & Hopen & Ho).
  destruct (exec_all_ok good f env Hcb es (mkWorld st []) ks (known_items ks) (ot_world _ _ _ _ _ Ho) He Hf) as (w & g & Hex & Hev).
  { cbn. by rewrite (ot_merge_idx _ _ _ _ _ Ho). }
  by exists st, w, g.
Qed.

(** Opening again what is on the disk of a table. *)
Lemma reopened {E} st ts g xs d' shards now now_nanos id : world_ok good same st ts g xs -> few xs -> crash_image (ti_disk st) d' -> (0 < shards)%nat -> ti_merge_idx st <= now_nanos ->
  exists st' vis, must_open (E := E) shards now now_nanos id d' = Ok st' /\ visible_items st' = Ok vis /\ vis ≡ₚ contents_of g (ti_file_parts st).
Proof.
  intros Hw Hf Hd Hs Hn. destruct (crash_ok good _ _ _ _ _ Hw Hd) as (ks & Hr & Hp & Hfresh).
  assert (Hfk : few (known_items ks)).
  { pose proof (few_app_r _ _ (few_app_r _ _ (few_world _ _ _ _ _ Hw Hf))) as Hc. unfold get_parts in Hc. rewrite contents_app in Hc. apply few_app_r in Hc.
    unfold few in *. by rewrite (Permutation_length Hp). }
  pose proof (so_merge_idx _ _ _ _ (wk_store _ _ _ _ _ _ Hw)).
  destruct (must_open_ok (E := E) good (same := same) shards now now_nanos id d' ks Hr Hfk Hs) as (st' & Hopen & Ho); [lia|intros n Hr'; apply Hfresh; lia|].
  exists st', (known_items ks). split_and!; [done| |done]. destruct (world_read st' [] ks (known_items ks) (ot_world _ _ _ _ _ Ho) Hfk) as [-> _].
  unfold get_parts. rewrite (ot_inmemory _ _ _ _ _ Ho), (ot_files _ _ _ _ _ Ho). cbn [app]. pose proof (contents_seq [] ks) as Hc. cbn [app length] in Hc. by rewrite Hc.
Qed.

(** Two moments of a run. *)
Lemma two_runs shards now now_nanos id d ks es es' : openable good d ks shards now_nanos -> Forall (event_ok good) (es ++ es') ->
  few (known_items ks ++ added_items (es ++ es')) -> now_nanos + Z.of_nat (length (es ++ es')) < 2 ^ 64 ->
  exists st w w' g g', must_open (E := out_of_fuel) shards now now_nanos id d = Ok st /\ exec_all env es (mkWorld st []) = Ok w /\ exec_all env es' w = Ok w' /\
    world_ok good same (w_st w) (w_tasks w) g (known_items ks ++ added_items es) /\ few (known_items ks ++ added_items es) /\
    evolves good (same := same) w g (known_items ks ++ added_items (es ++ es')) (Z.of_nat (length es')) w' g' /\ few (known_items ks ++ added_items (es ++ es')).
Proof.
  intros Ho [He He']%Forall_app Hf Hi. assert (Hadd : added_items (es ++ es') = added_items es ++ added_items es') by (unfold added_items; by rewrite map_app, concat_app).
  rewrite length_app in Hi. pose proof Hf as Hf1. rewrite Hadd, app_assoc in Hf1. apply few_app_l in Hf1.
  destruct (opened_run (E := out_of_fuel) shards now now_nanos id d ks es Ho He Hf1 ltac:(lia)) as (st & w & g & Hopen & Hex & Hot & Hev).
  pose proof (ev_merge_idx _ _ _ _ _ _ _ Hev) as Hm. cbn in Hm. rewrite (ot_merge_idx _ _ _ _ _ Hot) in Hm.
  destruct (exec_all_ok good f env Hcb es' w _ _ (ev_world _ _ _ _ _ _ _ Hev) He') as (w' & g' & Hex' & Hev'); [by rewrite <-app_assoc; fold (added_items es'); rewrite <-Hadd|lia|].
  fold (added_items es') in Hev'. rewrite <-app_assoc, <-Hadd in Hev'. exists st, w, w', (ks ++ g), g'. split_and!; try done. apply Hev.
Qed.

(** Closing and opening again. *)
Lemma close_run shards now now_nanos id d ks es st w late fuel : openable good d ks shards now_nanos -> Forall (event_ok good) es ->
  few (known_items ks ++ added_items es) -> now_nanos + Z.of_nat (length es) + Z.of_nat (length late) + 3 * Z.of_nat fuel + 1 < 2 ^ 64 ->
  must_open (E := out_of_fuel) shards now now_nanos id d = Ok st -> exec_all env es (mkWorld st []) = Ok w ->
  Forall (fun t => rest_of t = []) (w_tasks w) -> Forall late_event late -> ti_stopped (w_st w) = false ->
  (forall w', exec_all env (EvStop :: late) w = Ok w' -> (10 * (work (w_st w') (w_tasks w') + shards_of (w_st w') + 7) <= fuel)%nat) ->
  forall sched now_ms now', exists files : list nat, forall held,
    (forall a, a ∈ files -> a ∈ held -> must_close env fuel sched late now_ms now' held w = Panic) /\
    ((forall a, a ∈ files -> a ∉ held) ->
      exists st', must_close env fuel sched late now_ms now' held w = Ok st' /\ raw_items_len (ti_raw_items st') = 0%nat /\ get_parts st' = [] /\
        forall shards' now'' now_nanos' id', (0 < shards')%nat -> ti_merge_idx st' <= now_nanos' ->
          exists st'' vis, must_open (E := out_of_fuel) shards' now'' now_nanos' id' (ti_disk st') = Ok st'' /\ visible_items st'' = Ok vis /\
            shrunk same (known_items ks ++ added_items es) vis).
Proof.
  intros Ho He Hf Hi Hopen Hex Hrest Hlate Hst Hfuel sched now_ms now'.
  destruct (opened_run (E := out_of_fuel) shards now now_nanos id d ks es Ho He Hf ltac:(lia)) as (st0 & w0 & g & Hopen0 & Hex0 & Hot & [Hw _ _ Hm]).
  rewrite Hopen in Hopen0. injection Hopen0 as <-. rewrite Hex in Hex0. injection Hex0 as <-. cbn in Hm. rewrite (ot_merge_idx _ _ _ _ _ Hot) in Hm.
  destruct (must_close_ok good f env Hcb fuel sched late now_ms now' w (ks ++ g) _ Hw Hf Hrest Hlate Hst Hfuel ltac:(lia)) as (w' & g' & Hclose & Hc & _).
  exists (ti_file_parts (w_st w')). intros held. rewrite Hclose. split; [intros a Ha Hh; by rewrite (drop_held_panics _ _ a Ha Hh)|]. intros Hfree.
  rewrite (drop_file_parts_ok held _ (closed_nodup _ _ _ _ Hc) Hfree), bind_Ok. destruct (closed_image _ _ _ _ held Hc) as (I1 & I2 & I3 & I4 & I5).
  eexists. split; [done|]. rewrite I1, I3. split; [apply raw_empty_len, (cd_raw _ _ _ _ Hc)|]. split; [done|]. intros sh' now'' nn' id' Hs Hn.
  destruct (reopened (E := out_of_fuel) _ _ _ _ (ti_disk (w_st (remove_dir_async_drain held (mkWorld (set_parts (w_st w') [] []) [])))) sh' now'' nn' id' (cd_world _ _ _ _ Hc) Hf) as (st2 & vis & Hop & Hvis & Hp); try done.
  exists st2, vis. split_and!; try done. etransitivity; [exact (closed_items _ _ _ _ Hc)|]. by apply shrunk_perm.
Qed.
End Run.

(** ** Claims *)

(** C4: a table loses no item and never panics.  A table is opened in a
    directory with complete parts; then any events follow in any order: items
    are added, buffers are flushed, merges of in-memory and file parts start,
    threads make steps one at a time in any interleaving with any stop answers,
    directories of deleted parts are removed, the shutdown is signalled.  Every
    event succeeds, every listed part can be read back, and the items of the
    directory and all added items that fit a block are, up to what the callback
    of the table joins, in the buffers, with a running thread, or in the parts.  The
    callback keeps its contract, empties no block and adds no items; there are
    fewer than 2^46 items, and the names of parts stay below 2^64 (also below). *)
Theorem table_keeps_items `{Zs : Zstd} {Zl : ZstdLaws Zs} (good : list Z -> Prop) `{SameItems same} (f : list (list Z) -> list (list Z)) (env : Env)
    (shards : nat) (now now_nanos id : Z) (d : Disk) (ks : known) (es : list event) :
  callback_ok good same (env_prepare_block env) f -> openable good d ks shards now_nanos -> Forall (event_ok good) es ->
  few (known_items ks ++ added_items es) -> now_nanos + Z.of_nat (length es) < 2 ^ 64 ->
  exists st w inflight vis, must_open (E := out_of_fuel) shards now now_nanos id d = Ok st /\ exec_all env es (mkWorld st []) = Ok w /\
    visible_items (w_st w) = Ok vis /\ (w_tasks w = [] -> inflight = []) /\
    shrunk same (known_items ks ++ added_items es) (buffered_items (w_st w) ++ inflight ++ vis).
Proof.
  intros Hcb Ho He Hf Hi. destruct (opened_run (E := out_of_fuel) good f env Hcb shards now now_nanos id d ks es Ho He Hf Hi) as (st & w & g & Hopen & Hex & _ & [Hw _ _ _]).
  destruct (world_read good _ _ _ _ Hw Hf) as [Hvis _].
  exists st, w, (concat (map (task_items (ks ++ g)) (w_tasks w))), (contents_of (ks ++ g) (get_parts (w_st w))). split_and!; try done; [by intros ->|].
  apply (wk_items _ _ _ _ _ _ Hw).
Qed.

(** C8: what a search can find stays, and so does what is in files.  Between
    any two moments of a run nothing that could be read from the parts of the
    table disappears, and nothing that could be read from its file parts
    disappears from the file parts, whatever was merged, exchanged and deleted
    in between. *)
Theorem table_monotone `{Zs : Zstd} {Zl : ZstdLaws Zs} (good : list Z -> Prop) `{SameItems same} (f : list (list Z) -> list (list Z)) (env : Env)
    (shards : nat) (now now_nanos id : Z) (d : Disk) (ks : known) (es es' : list event) :
  callback_ok good same (env_prepare_block env) f -> openable good d ks shards now_nanos -> Forall (event_ok good) (es ++ es') ->
  few (known_items ks ++ added_items (es ++ es')) -> now_nanos + Z.of_nat (length (es ++ es')) < 2 ^ 64 ->
  exists st w w' vis vis' dur dur', must_open (E := out_of_fuel) shards now now_nanos id d = Ok st /\
    exec_all env es (mkWorld st []) = Ok w /\ exec_all env es' w = Ok w' /\
    visible_items (w_st w) = Ok vis /\ visible_items (w_st w') = Ok vis' /\ durable_items (w_st w) = Ok dur /\ durable_items (w_st w') = Ok dur' /\
    (exists more, shrunk same (vis ++ more) vis') /\ (exists more, shrunk same (dur ++ more) dur').
Proof.
  intros Hcb Ho He Hf Hi. destruct (two_runs good f env Hcb shards now now_nanos id d ks es es' Ho He Hf Hi) as (st & w & w' & g & g' & Hopen & H1 & H2 & Hw & Hf1 & [Hw' Hv Hd _] & Hf2).
  destruct (world_read good _ _ _ _ Hw Hf1) as [V1 D1], (world_read good _ _ _ _ Hw' Hf2) as [V2 D2].
  exists st, w, w'. eexists _, _, _, _. by split_and!.
Qed.

(** C5: a crash loses nothing that was in files.  The process stops at any
    moment; the directory then holds the list of parts as last written and the
    directories it names, and otherwise anything.  The table opens again, and
    what can be read from it is exactly what was in the file parts at the crash,
    which includes all that was in file parts at any earlier moment. *)
Theorem table_crash_recovery `{Zs : Zstd} {Zl : ZstdLaws Zs} (good : list Z -> Prop) `{SameItems same} (f : list (list Z) -> list (list Z)) (env : Env)
    (shards : nat) (now now_nanos id : Z) (d : Disk) (ks : known) (es es' : list event) :
  callback_ok good same (env_prepare_block env) f -> openable good d ks shards now_nanos -> Forall (event_ok good) (es ++ es') ->
  few (known_items ks ++ added_items (es ++ es')) -> now_nanos + Z.of_nat (length (es ++ es')) < 2 ^ 64 ->
  exists st w w' dur dur', must_open (E := out_of_fuel) shards now now_nanos id d = Ok st /\
    exec_all env es (mkWorld st []) = Ok w /\ exec_all env es' w = Ok w' /\ durable_items (w_st w) = Ok dur /\ durable_items (w_st w') = Ok dur' /\
    forall d' shards' now' now_nanos' id', crash_image (ti_disk (w_st w')) d' -> (0 < shards')%nat -> ti_merge_idx (w_st w') <= now_nanos' ->
      exists st' vis, must_open (E := out_of_fuel) shards' now' now_nanos' id' d' = Ok st' /\ visible_items st' = Ok vis /\
        vis ≡ₚ dur' /\ exists more, shrunk same (dur ++ more) vis.
Proof.
  intros Hcb Ho He Hf Hi. destruct (two_runs good f env Hcb shards now now_nanos id d ks es es' Ho He Hf Hi) as (st & w & w' & g & g' & Hopen & H1 & H2 & Hw & Hf1 & [Hw' _ [more Hd] _] & Hf2).
  destruct (world_read good _ _ _ _ Hw Hf1) as [_ D1], (world_read good _ _ _ _ Hw' Hf2) as [_ D2].
  exists st, w, w'. eexists _, _. split_and!; try done. intros d' sh' now' nn' id' Hcr Hs Hn.
  destruct (reopened (E := out_of_fuel) good _ _ _ _ d' sh' now' nn' id' Hw' Hf2 Hcr Hs Hn) as (st' & vis & Hop & Hvis & Hp). exists st', vis. split_and!; try done.
  exists more. etransitivity; [exact Hd|]. by apply shrunk_perm.
Qed.

(** C6: closing ends, with everything in files.  The table has no callback, was
    opened in a directory with complete parts and has run any events; it was not
    closed before, and no thread adds items any more.  For any schedule of
    the threads and whatever work the workers still start before they see the
    shutdown signal there are parts [files], the file parts at the end of the
    closing, such that for any wrappers that searches still hold: if a search holds one of [files], [must_close] panics, as the assertion on
    the reference counts has it; otherwise, and always when no search is left,
    which is what the documentation of [must_close] asks for, it returns: every
    thread ends within a number of steps that the state bounds, all assertions
    hold, the buffers and the in-memory parts are empty, and after the removal of
    the directories of deleted parts a table opened in the directory again holds
    exactly the items that the directory held at the start and those that were
    added and fit a block.  There are fewer than 2^46 items, and the names of parts
    stay below 2^64. *)
Theorem table_close `{Zs : Zstd} {Zl : ZstdLaws Zs} (env : Env) (shards : nat) (now now_nanos id : Z) (d : Disk) (ks : known) (es : list event)
    (st : TableInner) (w : World) (late : list event) (fuel : nat) (sched : nat -> nat -> nat * Tick) (now_ms now' : Z) :
  let good := fun _ => True in
  env_prepare_block env = None -> openable good d ks shards now_nanos -> Forall (event_ok good) es ->
  few (known_items ks ++ added_items es) -> now_nanos + Z.of_nat (length es) + Z.of_nat (length late) + 3 * Z.of_nat fuel + 1 < 2 ^ 64 ->
  must_open (E := out_of_fuel) shards now now_nanos id d = Ok st -> exec_all env es (mkWorld st []) = Ok w ->
  Forall (fun t => rest_of t = []) (w_tasks w) -> Forall late_event late -> ti_stopped (w_st w) = false ->
  (forall w', exec_all env (EvStop :: late) w = Ok w' -> (10 * (work (w_st w') (w_tasks w') + shards_of (w_st w') + 7) <= fuel)%nat) ->
  exists files : list nat, forall held,
    (forall a, a ∈ files -> a ∈ held -> must_close env fuel sched late now_ms now' held w = Panic) /\
    ((forall a, a ∈ files -> a ∉ held) ->
      exists st', must_close env fuel sched late now_ms now' held w = Ok st' /\ raw_items_len (ti_raw_items st') = 0%nat /\ get_parts st' = [] /\
        forall shards' now'' now_nanos' id', (0 < shards')%nat -> ti_merge_idx st' <= now_nanos' ->
          exists st'' vis, must_open (E := out_of_fuel) shards' now'' now_nanos' id' (ti_disk st') = Ok st'' /\ visible_items st'' = Ok vis /\
            vis ≡ₚ known_items ks ++ added_items es).
Proof.
  intros good Hn Ho He Hf Hi Hopen Hex Hrest Hlate Hst Hfuel. pose proof (no_callback_ok good) as Hcb. rewrite <-Hn in Hcb.
  destruct (close_run good _ env Hcb shards now now_nanos id d ks es st w late fuel Ho He Hf Hi Hopen Hex Hrest Hlate Hst Hfuel sched now_ms now') as (files & Hfiles).
  exists files. intros held. destruct (Hfiles held) as [H0 Hok]. split; [done|]. intros Hfree. destruct (Hok Hfree) as (st' & H1 & H2 & H3 & H4).
  exists st'. split_and!; try done. intros sh' now'' nn' id' Hs Hm. destruct (H4 sh' now'' nn' id' Hs Hm) as (st'' & vis & H5 & H6 & [H7 _]). by exists st'', vis.
Qed.

(** ** A small table *)

Section Examples.
Local Existing Instances stored_zstd stored_zstd_laws.

Definition example_env : Env := mkEnv 1 256 1000000000 5 None.
Definition example_tick : Tick := mkTick 0 0 [] (fun _ => false).
Definition example_disk : Disk := mkDisk ∅ None.

(** Items are added, flushed to a part in memory, and merged to a file. *)
Definition example_adding : list event := EvAddItems [[2]; [1; 3]; [2]] :: replicate 4 (EvStep 0 example_tick).
Definition example_flushing : list event := EvFlushPendingItems 10 true :: replicate 12 (EvStep 0 example_tick).
Definition example_merging : list event := EvFlushInmemoryParts 0 true :: replicate 5 (EvStep 0 example_tick).

Definition any_item : list Z -> Prop := fun _ => True.

Lemma example_openable : openable any_item example_disk [] 1 100.
Proof.
  assert (Hn : must_read_part_names (without_tmp example_disk) = []) by (by vm_compute). split; [split; rewrite Hn; constructor|lia|lia|].
  intros n _. rewrite Hn. apply not_elem_of_nil.
Qed.

Lemma example_events_ok : Forall (event_ok any_item) (example_adding ++ example_flushing ++ example_merging).
Proof. repeat (constructor; [first [exact I|repeat (constructor; [by split; [repeat constructor| |]|]); constructor]|]). constructor. Qed.

Lemma example_prefix_ok es es' : es ++ es' = example_adding ++ example_flushing ++ example_merging -> Forall (event_ok any_item) es.
Proof. intros He. pose proof example_events_ok as Hok. rewrite <-He in Hok. by apply Forall_app in Hok as [? _]. Qed.

Lemma table_keeps_items_witness :
  exists st w inflight vis, must_open (E := out_of_fuel) 1 0 100 1 example_disk = Ok st /\ exec_all example_env (example_adding ++ example_flushing) (mkWorld st []) = Ok w /\
    visible_items (w_st w) = Ok vis /\ (w_tasks w = [] -> inflight = []) /\ Permutation (buffered_items (w_st w) ++ inflight ++ vis) [[2]; [1; 3]; [2]].
Proof.
  destruct (table_keeps_items any_item (fun xs => xs) example_env 1 0 100 1 example_disk [] (example_adding ++ example_flushing) (no_callback_ok any_item) example_openable)
    as (st & w & inflight & vis & H1 & H2 & H3 & H4 & [H5 _]).
  - apply (example_prefix_ok _ example_merging). by rewrite <-app_assoc.
  - by vm_compute.
  - by vm_compute.
  - exists st, w, inflight, vis. split_and!; try done.
Defined.

Lemma table_monotone_witness :
  exists st w w' vis vis' dur dur', must_open (E := out_of_fuel) 1 0 100 1 example_disk = Ok st /\
    exec_all example_env (example_adding ++ example_flushing) (mkWorld st []) = Ok w /\ exec_all example_env example_merging w = Ok w' /\
    visible_items (w_st w) = Ok vis /\ visible_items (w_st w') = Ok vis' /\ durable_items (w_st w) = Ok dur /\ durable_items (w_st w') = Ok dur' /\
    (exists more, shrunk (@Permutation (list Z)) (vis ++ more) vis') /\ (exists more, shrunk (@Permutation (list Z)) (dur ++ more) dur').
Proof.
  apply (table_monotone any_item (fun xs => xs) example_env 1 0 100 1 example_disk [] (example_adding ++ example_flushing) example_merging (no_callback_ok any_item) example_openable).
  - rewrite <-app_assoc. apply example_events_ok.
  - by vm_compute.
  - by vm_compute.
Defined.

Lemma table_crash_recovery_witness :
  exists st w w' dur dur', must_open (E := out_of_fuel) 1 0 100 1 example_disk = Ok st /\
    exec_all example_env (example_adding ++ example_flushing) (mkWorld st []) = Ok w /\ exec_all example_env example_merging w = Ok w' /\
    durable_items (w_st w) = Ok dur /\ durable_items (w_st w') = Ok dur' /\
    exists st' vis, must_open (E := out_of_fuel) 1 0 1000 1 (ti_disk (w_st w')) = Ok st' /\ visible_items st' = Ok vis /\ vis ≡ₚ dur'.
Proof.
  destruct (table_crash_recovery any_item (fun xs => xs) example_env 1 0 100 1 example_disk [] (example_adding ++ example_flushing) example_merging (no_callback_ok any_item) example_openable)
    as (st & w & w' & dur & dur' & H1 & H2 & H3 & H4 & H5 & H6).
  - rewrite <-app_assoc. apply example_events_ok.
  - by vm_compute.
  - by vm_compute.
  - exists st, w, w', dur, dur'. split_and!; try done. destruct (H6 (ti_disk (w_st w')) 1%nat 0 1000 1) as (st' & vis & H7 & H8 & H9 & _); [done|lia| |by exists st', vis].
    assert (Hrun : (st ← must_open (E := out_of_fuel) 1 0 100 1 example_disk; w ← exec_all example_env (example_adding ++ example_flushing) (mkWorld st []);
      w ← exec_all example_env example_merging w; Ok (ti_merge_idx (w_st w))) = Ok 101) by (by vm_compute).
    rewrite H1, bind_Ok, H2, bind_Ok, H3, bind_Ok in Hrun. injection Hrun as ->. lia.
Defined.

(** A worker looks for parts to merge once more. *)
Definition example_late : list event := [EvMergeInmemory 1000000; EvMergeFiles 1000000].

(** Any thread may make the next step. *)
Definition example_sched (phase step : nat) : nat * Tick := ((phase + step)%nat, example_tick).

Lemma table_close_witness :
  exists st w st', must_open (E := out_of_fuel) 1 0 100 1 example_disk = Ok st /\ exec_all example_env example_adding (mkWorld st []) = Ok w /\
    must_close example_env 5000 example_sched example_late 10 20 [] w = Ok st' /\ get_parts st' = [] /\
    exists st'' vis, must_open (E := out_of_fuel) 1 0 1000 1 (ti_disk st') = Ok st'' /\ visible_items st'' = Ok vis /\ vis ≡ₚ [[2]; [1; 3]; [2]].
Proof.
  destruct (must_open (E := out_of_fuel) 1 0 100 1 example_disk) as [st| |] eqn:H1; [|by vm_compute in H1..].
  destruct (exec_all example_env example_adding (mkWorld st [])) as [w| |] eqn:H2.
  2,3: exfalso; assert (Hrun : (st ← must_open (E := out_of_fuel) 1 0 100 1 example_disk; _ ← exec_all example_env example_adding (mkWorld st []); Ok 0) = Ok 0) by (by vm_compute);
    by rewrite H1, bind_Ok, H2 in Hrun.
  assert (Hrun : (st ← must_open (E := out_of_fuel) 1 0 100 1 example_disk; w ← exec_all example_env example_adding (mkWorld st []);
      st' ← must_close example_env 5000 example_sched example_late 10 20 [] w;
      w' ← exec_all example_env (EvStop :: example_late) w;
      Ok (w_tasks w, ti_stopped (w_st w), (10 * (work (w_st w') (w_tasks w') + shards_of (w_st w') + 7) <=? 5000)%nat, ti_merge_idx st')) = Ok ([], false, true, 101)) by (by vm_compute).
  rewrite H1, bind_Ok, H2, bind_Ok in Hrun. apply bind_ok in Hrun as (st' & Hc & Hrun). apply bind_ok in Hrun as (w' & Hlate & [= Ht Hs Hw Hm]).
  destruct (table_close example_env 1 0 100 1 example_disk [] example_adding st w example_late 5000 example_sched 10 20 eq_refl example_openable) as (files & Hfiles).
  - by apply (example_prefix_ok _ (example_flushing ++ example_merging)).
  - by vm_compute.
  - by vm_compute.
  - exact H1.
  - exact H2.
  - rewrite Ht. constructor.
  - by repeat constructor.
  - exact Hs.
  - intros w1 Hw1. rewrite Hlate in Hw1. injection Hw1 as <-. by apply Nat.leb_le.
  - destruct (Hfiles []) as [_ Hok]. destruct (Hok ltac:(intros a _; apply not_elem_of_nil)) as (st1 & H3 & _ & H4 & H5). rewrite Hc in H3. injection H3 as <-. exists st, w, st'. split_and!; try done. apply (H5 1%nat 0 1000 1); lia.
Defined.
End Examples.
