(* ===== verification/ItemTableIndex.v ===== *)
(** * The table of the index

    The table that [esm-storage] opens for its index has the callback that
    joins the rows of one tag.  It meets what [PartWrite] asks of a callback, so
    everything [ItemTableClaims] shows of tables holds for it, with the postings
    and the other rows in the place of the items. *)
From Stdlib Require Import ZArith Lia Bool Sorted Permutation.
From stdpp Require Import gmap.
From S2P Require Import Prelude IntCodec Float64 Compress ItemBlock ItemBlockSpec ItemHeader ItemStream ItemMerge ItemMergeSpec ItemPartMerge MetricName IndexRow IndexRowSpec RawItems PartWrite PartDisk ItemTableOps ItemTableSteps ItemTableStore ItemTableInv ItemTableSafe ItemTableOpen ItemTableClose ItemTableClaims.
Local Open Scope Z_scope.

(** The same index: the same postings, and the same rows of other kinds. *)
Definition same_index (xs ys : list (list Z)) : Prop :=
  (forall p, posting_in xs p <-> posting_in ys p) /\ filter plain_item xs ≡ₚ filter plain_item ys.

#[export] Instance same_index_items : SameItems same_index.
Proof.
  split.
  - split; [by intros xs|intros xs ys [H1 H2]; by split|intros xs ys zs [H1 H2] [H3 H4]; split; [intros p; by rewrite H1|by rewrite H2]].
  - intros l l' Hp. split; [intros p; by apply posting_in_perm|by rewrite Hp].
  - intros l1 l1' l2 l2' [H1 H2] [H3 H4]. split; [intros p; by rewrite !posting_in_app, H1, H3|by rewrite !filter_app, H2, H4].
Qed.

Lemma in_total (xs : list (list Z)) x : In x xs -> (length x <= total xs)%nat.
Proof. induction xs as [|y xs IH]; [done|]. intros Hin. cbn [concat]. rewrite length_app. destruct Hin as [->|Hin]; [lia|]. specialize (IH Hin). lia. Qed.

Lemma index_callback_ok : callback_ok good_item same_index (Some merge_tag_to_metric_ids_rows_callback) joined_rows.
Proof.
  split.
  - apply callback_prepares.
  - apply joined_nonempty.
  - intros xs Hck Hok. destruct (joined_rows_ok xs Hck) as [_ Hj]. destruct (joined_chunk _ _ Hck Hj) as [Hst Hg]. apply Forall_In. intros x Hx. split.
    + by apply (proj1 (Forall_In _ _) (sto_bytes _ Hst)).
    + intros ->. assert (Hin : [] ∈ filter plain_item (joined_rows xs)) by (apply list_elem_of_filter; split; [done|by apply list_elem_of_In]).
      rewrite (sh_plain _ _ (jn_shrinks _ _ Hj)) in Hin. apply list_elem_of_filter in Hin as [_ Hin%list_elem_of_In].
      by destruct (io_nonempty _ _ (proj1 (Forall_In _ _) Hok [] Hin)).
    + pose proof (in_total _ _ Hx). pose proof (sto_total _ Hst). lia.
    + by apply (proj1 (Forall_In _ _) Hg).
  - intros xs Hck. destruct (joined_rows_ok xs Hck) as [_ [Hsh _ _ _]]. apply Hsh.
  - intros xs Hck. destruct (joined_rows_ok xs Hck) as [_ [Hsh _ _ _]]. split; [apply Hsh|by rewrite (sh_plain _ _ Hsh)].
Qed.

(** C7: closing the table of the index loses no posting.  Rows of tags and
    other rows are added while the background threads flush and merge them,
    joining the rows of one tag; the rows, and those of the parts in the
    directory, are well formed, as the index writes them.  When no thread adds
    rows any more and the table was not closed before, then for any schedule of
    the threads [must_close] panics if a search still holds one of the file
    parts, and otherwise returns.  The table that is opened in the directory
    again has exactly the postings (namespace, date, tag, metric ID) of the rows
    that were there at the start and that were added, and exactly the other
    rows, in no more rows.  There are fewer than 2^46 rows, and the names of parts
    stay below 2^64. *)
Theorem index_table_close `{Zs : Zstd} {Zl : ZstdLaws Zs} (env : Env) (shards : nat) (now now_nanos id : Z) (d : Disk) (ks : known) (es : list event)
    (st : TableInner) (w : World) (late : list event) (fuel : nat) (sched : nat -> nat -> nat * Tick) (now_ms now' : Z) :
  env_prepare_block env = Some merge_tag_to_metric_ids_rows_callback -> openable good_item d ks shards now_nanos -> Forall (event_ok good_item) es ->
  few (known_items ks ++ added_items es) -> now_nanos + Z.of_nat (length es) + Z.of_nat (length late) + 3 * Z.of_nat fuel + 1 < 2 ^ 64 ->
  must_open (E := out_of_fuel) shards now now_nanos id d = Ok st -> exec_all env es (mkWorld st []) = Ok w ->
  Forall (fun t => rest_of t = []) (w_tasks w) -> Forall late_event late -> ti_stopped (w_st w) = false ->
  (forall w', exec_all env (EvStop :: late) w = Ok w' -> (10 * (work (w_st w') (w_tasks w') + shards_of (w_st w') + 7) <= fuel)%nat) ->
  exists files : list nat, forall held,
    (forall a, a ∈ files -> a ∈ held -> must_close env fuel sched late now_ms now' held w = Panic) /\
    ((forall a, a ∈ files -> a ∉ held) ->
      exists st', must_close env fuel sched late now_ms now' held w = Ok st' /\ raw_items_len (ti_raw_items st') = 0%nat /\ get_parts st' = [] /\
        forall shards' now'' now_nanos' id', (0 < shards')%nat -> ti_merge_idx st' <= now_nanos' ->
          exists st'' vis, must_open (E := out_of_fuel) shards' now'' now_nanos' id' (ti_disk st') = Ok st'' /\ visible_items st'' = Ok vis /\
            (forall p, posting_in vis p <-> posting_in (known_items ks ++ added_items es) p) /\
            filter plain_item vis ≡ₚ filter plain_item (known_items ks ++ added_items es) /\
            (length vis <= length (known_items ks ++ added_items es))%nat).
Proof.
  intros Hn Ho He Hf Hi Hopen Hex Hrest Hlate Hst Hfuel. pose proof index_callback_ok as Hcb. rewrite <-Hn in Hcb.
  destruct (close_run good_item _ env Hcb shards now now_nanos id d ks es st w late fuel Ho He Hf Hi Hopen Hex Hrest Hlate Hst Hfuel sched now_ms now') as (files & Hfiles).
  exists files. intros held. destruct (Hfiles held) as [H0 Hok]. split; [done|]. intros Hfree. destruct (Hok Hfree) as (st' & H1 & H2 & H3 & H4).
  exists st'. split_and!; try done. intros sh' now'' nn' id' Hs Hm. destruct (H4 sh' now'' nn' id' Hs Hm) as (st'' & vis & H5 & H6 & [[H7 H8] H9]).
  exists st'', vis. by split_and!.
Qed.

Section Examples.
Local Existing Instances stored_zstd stored_zstd_laws.

Definition example_index_env : Env := mkEnv 1 256 1000000000 5 (Some merge_tag_to_metric_ids_rows_callback).
Definition example_index_adding : list event := EvAddItems example_rows :: replicate 4 (EvStep 0 example_tick).

Lemma example_index_openable : openable good_item example_disk [] 1 100.
Proof.
  assert (Hn : must_read_part_names (without_tmp example_disk) = []) by (by vm_compute). split; [split; rewrite Hn; constructor|lia|lia|].
  intros n _. rewrite Hn. apply not_elem_of_nil.
Qed.

Lemma example_rows_addable : Forall (addable good_item) example_rows.
Proof.
  destruct example_rows_ok as [Hst Hg]. apply Forall_In. intros x Hx. split.
  - by apply (proj1 (Forall_In _ _) (sto_bytes _ Hst)).
  - intros ->. assert (Hb : existsb (fun x => bool_decide (x = [])) example_rows = true) by (apply existsb_exists; exists []; split; [done|by apply bool_decide_eq_true]).
    by vm_compute in Hb.
  - by apply (proj1 (Forall_In _ _) Hg).
Qed.

Lemma index_table_close_witness :
  exists st w st', must_open (E := out_of_fuel) 1 0 100 1 example_disk = Ok st /\ exec_all example_index_env example_index_adding (mkWorld st []) = Ok w /\
    must_close example_index_env 5000 example_sched example_late 10 20 [] w = Ok st' /\ get_parts st' = [] /\
    exists st'' vis, must_open (E := out_of_fuel) 1 0 1000 1 (ti_disk st') = Ok st'' /\ visible_items st'' = Ok vis /\
      (forall p, posting_in vis p <-> posting_in example_rows p) /\ filter plain_item vis ≡ₚ [[0; 1]; [7]].
Proof.
  destruct (must_open (E := out_of_fuel) 1 0 100 1 example_disk) as [st| |] eqn:H1; [|by vm_compute in H1..].
  assert (Hrun : (st ← must_open (E := out_of_fuel) 1 0 100 1 example_disk; w ← exec_all example_index_env example_index_adding (mkWorld st []);
      st' ← must_close example_index_env 5000 example_sched example_late 10 20 [] w;
      w' ← exec_all example_index_env (EvStop :: example_late) w;
      Ok (w_tasks w, ti_stopped (w_st w), (10 * (work (w_st w') (w_tasks w') + shards_of (w_st w') + 7) <=? 5000)%nat, ti_merge_idx st')) = Ok ([], false, true, 101)) by (by vm_compute).
  rewrite H1, bind_Ok in Hrun. apply bind_ok in Hrun as (w & H2 & Hrun). apply bind_ok in Hrun as (st' & Hc & Hrun). apply bind_ok in Hrun as (w' & Hlate & [= Ht Hs Hw Hm]).
  assert (Hadd : known_items [] ++ added_items example_index_adding = example_rows) by (by vm_compute).
  destruct (index_table_close example_index_env 1 0 100 1 example_disk [] example_index_adding st w example_late 5000 example_sched 10 20 eq_refl example_index_openable) as (files & Hfiles).
  - constructor; [exact example_rows_addable|by repeat constructor].
  - by vm_compute.
  - by vm_compute.
  - exact H1.
  - exact H2.
  - rewrite Ht. constructor.
  - by repeat constructor.
  - exact Hs.
  - intros w1 Hw1. rewrite Hlate in Hw1. injection Hw1 as <-. by apply Nat.leb_le.
  - destruct (Hfiles []) as [_ Hok]. destruct (Hok ltac:(intros a _; apply not_elem_of_nil)) as (st1 & H3 & _ & H4 & H5). rewrite Hc in H3. injection H3 as <-. exists st, w, st'. split_and!; try done. rewrite Hadd in H5.
    destruct (H5 1%nat 0 1000 1) as (st'' & vis & H6 & H7 & H8 & H9 & _); [lia|lia|]. by exists st'', vis.
Defined.
End Examples.
