(* ===== verification/IndexCaches.v ===== *)
(** * Caches of the index

    Model of [esm-storage/src/index/caches.rs]: the cache with two generations
    for byte keys, and the two membership caches of metric IDs, with the proofs
    that they answer only with what was stored. *)
From Stdlib Require Import ZArith Lia Bool.
From stdpp Require Import base gmap.
From S2P Require Import Prelude Uint64Set Uint64SetSpec.
Local Open Scope Z_scope.

(** ** The cache with two generations *)

(** The hash of the [xxhash_rust] crate. *)
Class Xxh64 : Type := xxh64 : list Z -> Z -> Z.

Class EntrySize (V : Type) : Type := entry_size : V -> Z.

#[export] Instance bytes_entry_size : EntrySize (list Z) := fun v => Z.of_nat (length v).

Definition ENTRY_OVERHEAD_BYTES : Z := 48.
Definition WSC_SHARDS : nat := 16.

(** A hash table whose entries carry the hash of their key is a map. *)
Record WscState (V : Type) : Type := mkWsc {
  wsc_curr : gmap (list Z) V;
  wsc_prev : gmap (list Z) V;
  curr_bytes : Z;
  prev_bytes : Z;
}.
Arguments mkWsc {V}.
Arguments wsc_curr {V}.
Arguments wsc_prev {V}.
Arguments curr_bytes {V}.
Arguments prev_bytes {V}.

Definition wsc_default {V} : WscState V := mkWsc ∅ ∅ 0 0.

Record WorkingSetCache (V : Type) : Type := mkWorkingSet {
  wc_shards : list (WscState V);
  max_bytes_per_shard : Z;
  wc_requests : Z;
  wc_misses : Z;
  wc_resets : Z;
}.
Arguments mkWorkingSet {V}.
Arguments wc_shards {V}.
Arguments max_bytes_per_shard {V}.
Arguments wc_requests {V}.
Arguments wc_misses {V}.
Arguments wc_resets {V}.

Section WorkingSet.
  Context {Xx : Xxh64} {V : Type} {Sz : EntrySize V}.

Definition wc_new (max_bytes : Z) : WorkingSetCache V :=
  mkWorkingSet (replicate WSC_SHARDS wsc_default) (Z.max (max_bytes / Z.of_nat WSC_SHARDS) 1) 0 0 0.

Definition insert_locked (state : WscState V) (key : list Z) (value : V) : WscState V :=
  mkWsc (<[key := value]> (wsc_curr state)) (wsc_prev state) (curr_bytes state) (prev_bytes state).

Definition maybe_rotate_locked (max : Z) (state : WscState V) : WscState V :=
  if curr_bytes state <=? max / 2 then state
  else mkWsc ∅ (wsc_curr state) 0 (curr_bytes state).

Definition size_of (key : list Z) (value : V) : Z :=
  as_u64 (as_u64 (Z.of_nat (length key) + entry_size value) + ENTRY_OVERHEAD_BYTES).

(** [(hash as usize) & (WSC_SHARDS - 1)]. *)
Definition wc_shard (key : list Z) : nat := Z.to_nat (Z.land (xxh64 key 0) (Z.of_nat WSC_SHARDS - 1)).

(** The body of [get] under the lock of the shard. *)
Definition get_locked (max : Z) (key : list Z) (state : WscState V) : WscState V * option V :=
  match wsc_curr state !! key with
  | Some v => (state, Some v)
  | None =>
      match wsc_prev state !! key with
      | Some v =>
          let size := size_of key v in
          let state := mkWsc (wsc_curr state) (delete key (wsc_prev state)) (curr_bytes state) (Z.max 0 (prev_bytes state - size)) in
          let state := insert_locked state key v in
          let state := mkWsc (wsc_curr state) (wsc_prev state) (as_u64 (curr_bytes state + size)) (prev_bytes state) in
          (maybe_rotate_locked max state, Some v)
      | None => (state, None)
      end
  end.

Definition set_locked (max : Z) (key : list Z) (value : V) (state : WscState V) : WscState V :=
  let state := mkWsc (wsc_curr state) (wsc_prev state) (as_u64 (curr_bytes state + size_of key value)) (prev_bytes state) in
  maybe_rotate_locked max (insert_locked state key value).

Definition with_shard (c : WorkingSetCache V) (i : nat) (state : WscState V) : WorkingSetCache V :=
  mkWorkingSet (<[i := state]> (wc_shards c)) (max_bytes_per_shard c) (wc_requests c) (wc_misses c) (wc_resets c).

Definition with_requests (c : WorkingSetCache V) (requests misses : Z) : WorkingSetCache V :=
  mkWorkingSet (wc_shards c) (max_bytes_per_shard c) requests misses (wc_resets c).

Definition wc_get {E} (c : WorkingSetCache V) (key : list Z) : res E (WorkingSetCache V * option V) :=
  let c := with_requests c (as_u64 (wc_requests c + 1)) (wc_misses c) in
  state ← idx (wc_shards c) (wc_shard key);
  let '(state, v) := get_locked (max_bytes_per_shard c) key state in
  let c := with_shard c (wc_shard key) state in
  match v with
  | Some _ => Ok (c, v)
  | None => Ok (with_requests c (wc_requests c) (as_u64 (wc_misses c + 1)), None)
  end.

Definition wc_set {E} (c : WorkingSetCache V) (key : list Z) (value : V) : res E (WorkingSetCache V) :=
  state ← idx (wc_shards c) (wc_shard key);
  Ok (with_shard c (wc_shard key) (set_locked (max_bytes_per_shard c) key value state)).

Definition wc_reset (c : WorkingSetCache V) : WorkingSetCache V :=
  mkWorkingSet (map (fun _ => wsc_default) (wc_shards c)) (max_bytes_per_shard c) (wc_requests c) (wc_misses c) (as_u64 (wc_resets c + 1)).

Definition wc_len (c : WorkingSetCache V) : nat :=
  sum_list (map (fun state => (size (wsc_curr state) + size (wsc_prev state))%nat) (wc_shards c)).

Definition wc_is_empty (c : WorkingSetCache V) : bool := (wc_len c =? 0)%nat.

Definition wc_size_bytes (c : WorkingSetCache V) : Z :=
  foldl (fun n state => as_u64 (n + as_u64 (curr_bytes state + prev_bytes state))) 0 (wc_shards c).

Definition wc_size_max_bytes (c : WorkingSetCache V) : Z := as_u64 (max_bytes_per_shard c * Z.of_nat WSC_SHARDS).
End WorkingSet.

(** ** Membership of metric IDs *)

(** The operations of a set do not fail, so they run under any error type. *)
Definition lift_set {E A} (m : run A) : res E A := map_err (fun e : Empty_set => match e with end) m.

Lemma lift_set_Ok {E A} (m : run A) a : m = Ok a -> lift_set (E := E) m = Ok a.
Proof. by intros ->. Qed.

Record MetricIdCache : Type := mkMetricIds {
  mic_curr : USet;
  mic_prev : USet;
  mic_max : nat;
  mic_rotations : Z;
}.

(** [memory] is [esm_common::memory::allowed()]. *)
Definition max_items_for (memory : Z) : nat := Z.to_nat (Z.max (memory / 256 / 16) 1024).

Definition mic_new (memory : Z) : MetricIdCache := mkMetricIds set_default set_default (max_items_for memory) 0.

Definition mic_has {E} (c : MetricIdCache) (metric_id : Z) : res E bool :=
  b ← lift_set (set_has (mic_curr c) metric_id);
  if b : bool then Ok true else lift_set (set_has (mic_prev c) metric_id).

Definition mic_set {E} (c : MetricIdCache) (metric_id : Z) : res E MetricIdCache :=
  curr ← lift_set (set_add (mic_curr c) metric_id);
  if (mic_max c <? set_len curr)%nat then Ok (mkMetricIds set_default curr (mic_max c) (as_u64 (mic_rotations c + 1)))
  else Ok (mkMetricIds curr (mic_prev c) (mic_max c) (mic_rotations c)).

Definition mic_len (c : MetricIdCache) : nat := (set_len (mic_curr c) + set_len (mic_prev c))%nat.

Record DateMetricIdCache : Type := mkDateMetricIds {
  dmc_curr : gmap Z USet;
  dmc_prev : gmap Z USet;
  dmc_items : nat;
  dmc_max : nat;
  dmc_rotations : Z;
}.

Definition dmc_new (memory : Z) : DateMetricIdCache := mkDateMetricIds ∅ ∅ 0 (max_items_for memory) 0.

Definition date_has {E} (m : gmap Z USet) (date metric_id : Z) : res E bool :=
  match m !! date with
  | Some s => lift_set (set_has s metric_id)
  | None => Ok false
  end.

Definition dmc_has {E} (c : DateMetricIdCache) (date metric_id : Z) : res E bool :=
  b ← date_has (dmc_curr c) date metric_id;
  if b : bool then Ok true else date_has (dmc_prev c) date metric_id.

Definition dmc_set {E} (c : DateMetricIdCache) (date metric_id : Z) : res E DateMetricIdCache :=
  s ← lift_set (set_add (default set_default (dmc_curr c !! date)) metric_id);
  let curr := <[date := s]> (dmc_curr c) in
  let curr_items := S (dmc_items c) in
  if (dmc_max c <? curr_items)%nat then Ok (mkDateMetricIds ∅ curr 0 (dmc_max c) (as_u64 (dmc_rotations c + 1)))
  else Ok (mkDateMetricIds curr (dmc_prev c) curr_items (dmc_max c) (dmc_rotations c)).

Definition dmc_len (c : DateMetricIdCache) : nat :=
  let count (m : gmap Z USet) := map_fold (fun _ s n => (set_len s + n)%nat) 0%nat m in
  (count (dmc_curr c) + count (dmc_prev c))%nat.

(** ** What the caches answer *)

Section WorkingSetProof.
  Context {Xx : Xxh64} {V : Type} {Sz : EntrySize V}.
  Implicit Types (P : list Z -> V -> Prop) (c : WorkingSetCache V) (st : WscState V).

(** What a shard answers for a key. *)
Definition visible st (k : list Z) : option V := (wsc_curr st ∪ wsc_prev st) !! k.

Lemma visible_eq st k : visible st k = match wsc_curr st !! k with Some v => Some v | None => wsc_prev st !! k end.
Proof. unfold visible. rewrite lookup_union. destruct (wsc_curr st !! k), (wsc_prev st !! k); done. Qed.

(** Every answer the cache can give satisfies [P]. *)
Definition wc_holds P c : Prop :=
  length (wc_shards c) = WSC_SHARDS /\
  forall i st k v, wc_shards c !! i = Some st -> wc_shard k = i -> visible st k = Some v -> P k v.

Lemma wc_shard_lt k : (wc_shard k < WSC_SHARDS)%nat.
Proof.
  unfold wc_shard. change (Z.of_nat WSC_SHARDS - 1) with (Z.ones 4). rewrite Z.land_ones by lia.
  pose proof (Z.mod_pos_bound (xxh64 k 0) (2 ^ 4)). unfold WSC_SHARDS. lia.
Qed.

Lemma shard_of_key P c k : wc_holds P c -> exists st, wc_shards c !! wc_shard k = Some st.
Proof. intros [Hl _]. apply lookup_lt_is_Some_2. rewrite Hl. apply wc_shard_lt. Qed.

Lemma rotate_visible max st k v : visible (maybe_rotate_locked max st) k = Some v -> visible st k = Some v.
Proof.
  unfold maybe_rotate_locked. destruct (_ <=? _); [done|]. rewrite !visible_eq. cbn. rewrite lookup_empty. by intros ->.
Qed.

(** The key written last stays visible through a rotation. *)
Lemma rotate_curr max st k v : wsc_curr st !! k = Some v -> visible (maybe_rotate_locked max st) k = Some v.
Proof. intros H. unfold maybe_rotate_locked. destruct (_ <=? _); rewrite visible_eq; cbn; [by rewrite H|by rewrite lookup_empty]. Qed.

Lemma set_visible max k v st k' v' :
  visible (set_locked max k v st) k' = Some v' -> k' = k /\ v' = v \/ k' <> k /\ visible st k' = Some v'.
Proof.
  unfold set_locked. intros H%rotate_visible. rewrite visible_eq in H. cbn in H. destruct (decide (k' = k)) as [->|Hne].
  - rewrite lookup_insert_eq in H. left. by simplify_eq.
  - rewrite lookup_insert_ne in H by done. right. by rewrite visible_eq.
Qed.

Lemma get_answer max k st : (get_locked max k st).2 = visible st k.
Proof. unfold get_locked. rewrite visible_eq. destruct (wsc_curr st !! k); [done|]. by destruct (wsc_prev st !! k). Qed.

Lemma get_visible max k st k' v' : visible (get_locked max k st).1 k' = Some v' -> visible st k' = Some v'.
Proof.
  unfold get_locked. destruct (wsc_curr st !! k) as [v|] eqn:Hc; [done|]. destruct (wsc_prev st !! k) as [v|] eqn:Hp; [|done].
  cbn [fst]. intros H%rotate_visible. rewrite visible_eq in *. cbn in *. destruct (decide (k' = k)) as [->|Hne].
  - rewrite lookup_insert_eq in H. by rewrite Hc, Hp.
  - by rewrite lookup_insert_ne, lookup_delete_ne in H by done.
Qed.

Lemma holds_shard P P' c i st st' :
  wc_holds P c -> wc_shards c !! i = Some st ->
  (forall k v, wc_shard k = i -> visible st' k = Some v -> P' k v) -> (forall k v, wc_shard k <> i -> P k v -> P' k v) ->
  wc_holds P' (with_shard c i st').
Proof.
  intros [Hl Hp] Hi Hst Hmon. split; [cbn; by rewrite length_insert|]. cbn. intros j s k v Hj Hk Hv. destruct (decide (j = i)) as [->|Hne].
  - rewrite list_lookup_insert_eq in Hj by (by eapply lookup_lt_Some). simplify_eq. by apply Hst.
  - rewrite list_lookup_insert_ne in Hj by done. apply Hmon; [by subst|]. by eapply Hp.
Qed.

Lemma wc_new_ok P max : wc_holds P (wc_new max).
Proof.
  split; [done|]. intros i st k v Hi _ Hv. cbn [wc_shards wc_new] in Hi. apply lookup_replicate in Hi as [-> _].
  rewrite visible_eq in Hv. cbn in Hv. by rewrite !lookup_empty in Hv.
Qed.

Lemma wc_reset_ok P c : length (wc_shards c) = WSC_SHARDS -> wc_holds P (wc_reset c).
Proof.
  intros Hl. split; [cbn; by rewrite length_map|]. intros i st k v Hi _ Hv. cbn in Hi. apply list_lookup_fmap_Some in Hi as (? & -> & _).
  rewrite visible_eq in Hv. cbn in Hv. by rewrite !lookup_empty in Hv.
Qed.

Lemma wc_get_ok {E} P c k : wc_holds P c -> exists c' r, wc_get (E := E) c k = Ok (c', r) /\ wc_holds P c' /\ forall v, r = Some v -> P k v.
Proof.
  intros Hc. destruct (shard_of_key P c k Hc) as [st Hst]. unfold wc_get. cbn [wc_shards with_requests]. rewrite (idx_Some _ _ _ Hst), bind_Ok.
  pose proof (get_answer (max_bytes_per_shard c) k st) as Ha. pose proof (get_visible (max_bytes_per_shard c) k st) as Hv. cbn [max_bytes_per_shard with_requests].
  destruct (get_locked _ k st) as [st' r]. cbn [fst snd] in *.
  assert (Hc' : wc_holds P (with_shard (with_requests c (as_u64 (wc_requests c + 1)) (wc_misses c)) (wc_shard k) st')).
  { eapply (holds_shard P P); [exact Hc|exact Hst| |by intros]. intros k' v' Hk' H'%Hv. destruct Hc as [_ Hc]. by eapply Hc. }
  assert (Hr : forall v, r = Some v -> P k v) by (intros v ->; destruct Hc as [_ Hc]; eapply Hc; [exact Hst|done|by symmetry]).
  destruct r as [v|]; (eexists _, _; split; [done|split; [exact Hc'|exact Hr]]).
Qed.

Lemma wc_set_ok {E} P P' c k v :
  wc_holds P c -> P' k v -> (forall k' v', k' <> k -> P k' v' -> P' k' v') ->
  exists c', wc_set (E := E) c k v = Ok c' /\ wc_holds P' c' /\ exists c'', wc_get (E := E) c' k = Ok (c'', Some v).
Proof.
  intros Hc Hkv Hmon. destruct (shard_of_key P c k Hc) as [st Hst]. unfold wc_set. rewrite (idx_Some _ _ _ Hst), bind_Ok. eexists. split; [done|]. split.
  - eapply (holds_shard P P'); [exact Hc|exact Hst| |].
    + intros k' v' Hk' [[-> ->]|[Hne H']]%set_visible; [done|]. apply Hmon; [done|]. destruct Hc as [_ Hc]. by eapply Hc.
    + intros k' v' Hk' Hp. apply Hmon; [|done]. by intros ->.
  - unfold wc_get. cbn [wc_shards with_shard with_requests max_bytes_per_shard]. rewrite (idx_Some _ _ (set_locked (max_bytes_per_shard c) k v st)), bind_Ok.
    2:{ rewrite list_lookup_insert_eq; [done|]. by eapply lookup_lt_Some. }
    pose proof (get_answer (max_bytes_per_shard c) k (set_locked (max_bytes_per_shard c) k v st)) as Ha. unfold set_locked in *.
    rewrite (rotate_curr _ _ k v) in Ha by (cbn; by rewrite lookup_insert_eq). destruct (get_locked _ k _) as [st' r]. cbn in Ha. subst r. by eexists.
Qed.

(** A run of the cache. *)
Inductive wc_op : Type :=
| WGet (k : list Z)
| WSet (k : list Z) (v : V)
| WReset.

Fixpoint exec_wc (ops : list wc_op) c : res Empty_set (WorkingSetCache V * list (option V)) :=
  match ops with
  | [] => Ok (c, [])
  | WGet k :: ops => '(c, r) ← wc_get c k; '(c, rs) ← exec_wc ops c; Ok (c, r :: rs)
  | WSet k v :: ops => c ← wc_set c k v; exec_wc ops c
  | WReset :: ops => exec_wc ops (wc_reset c)
  end.

(** Every answer is nothing or the value stored last, [m] being what is stored. *)
Fixpoint answers (m : gmap (list Z) V) (ops : list wc_op) (rs : list (option V)) : Prop :=
  match ops, rs with
  | [], [] => True
  | WGet k :: ops, r :: rs => (r = None \/ r = m !! k) /\ answers m ops rs
  | WSet k v :: ops, rs => answers (<[k := v]> m) ops rs
  | WReset :: ops, rs => answers ∅ ops rs
  | _, _ => False
  end.

Lemma exec_wc_ok ops : forall m c, wc_holds (fun k v => m !! k = Some v) c ->
  exists c' rs (m' : gmap (list Z) V), exec_wc ops c = Ok (c', rs) /\ answers m ops rs /\ wc_holds (fun k v => m' !! k = Some v) c'.
Proof.
  induction ops as [|[k|k v|] ops IH]; intros m c Hc; cbn [exec_wc answers].
  - by exists c, [], m.
  - destruct (wc_get_ok (E := Empty_set) _ c k Hc) as (c1 & r & -> & Hc1 & Hr). rewrite bind_Ok.
    destruct (IH m c1 Hc1) as (c2 & rs & m' & -> & Ha & Hc2). rewrite bind_Ok. exists c2, (r :: rs), m'. split; [done|]. split; [|done]. split; [|done].
    destruct r as [v|]; [right; symmetry; by apply Hr|by left].
  - destruct (wc_set_ok (E := Empty_set) _ (fun k' v' => <[k := v]> m !! k' = Some v') c k v Hc) as (c1 & -> & Hc1 & _).
    { apply lookup_insert_eq. }
    { intros k' v' Hne Hk'. by rewrite lookup_insert_ne by done. }
    rewrite bind_Ok. by apply IH.
  - apply IH, wc_reset_ok, Hc.
Qed.

(** C24: The cache with two generations is a cache: whatever was looked up,
    stored and reset before, and however the hash spreads the keys, no call
    panics; a lookup answers with nothing or with the value stored last under
    exactly that key since the last reset, also after entries moved between
    the generations; and a value just stored is found. *)
Theorem working_set_cache_serves_last (max : Z) (ops : list wc_op) (k : list Z) (v : V) :
  exists c rs c1 c2,
    exec_wc ops (wc_new max) = Ok (c, rs) /\ answers ∅ ops rs /\
    wc_set (E := Empty_set) c k v = Ok c1 /\ wc_get (E := Empty_set) c1 k = Ok (c2, Some v).
Proof.
  destruct (exec_wc_ok ops ∅ (wc_new max) (wc_new_ok _ max)) as (c & rs & m & He & Ha & Hc).
  destruct (wc_set_ok (E := Empty_set) _ (fun _ _ => True) c k v Hc) as (c1 & Hs & _ & c2 & Hg); [done|done|]. by exists c, rs, c1, c2.
Qed.
End WorkingSetProof.

Section MembershipProof.
  Context (P : Z -> Prop) (D : Z -> Z -> Prop).

(** Everything in the set satisfies [Q]. *)
Definition set_all (Q : Z -> Prop) (s : USet) : Prop := wf_set s /\ forall x, x ∈ set_items s -> Q x.

Lemma set_all_default Q : set_all Q set_default.
Proof. split; [by repeat constructor|]. change (set_items set_default) with (@nil Z). by intros x Hx%not_elem_of_nil. Qed.

Lemma set_all_has {E} Q s x : set_all Q s -> is_u64 x -> exists b, lift_set (E := E) (set_has s x) = Ok b /\ (b = true -> Q x).
Proof. intros [Hw Hs] Hx. rewrite (lift_set_Ok _ _ (set_has_spec s x Hw Hx)). eexists. split; [done|]. intros H%bool_decide_eq_true. by apply Hs. Qed.

Lemma set_all_add {E} (Q : Z -> Prop) s x : set_all Q s -> is_u64 x -> Q x ->
  exists s', lift_set (E := E) (set_add s x) = Ok s' /\ set_all Q s' /\ lift_set (E := E) (set_has s' x) = Ok true.
Proof.
  intros [Hw Hs] Hx Hq. destruct (set_add_spec s x Hw Hx) as (s' & Ha & Hw' & Hi). exists s'. rewrite (lift_set_Ok _ _ Ha). split; [done|].
  split; [split; [done|]|].
  - intros y [->|Hy]%Hi; [done|by apply Hs].
  - rewrite (lift_set_Ok _ _ (set_has_spec s' x Hw' Hx)). f_equal. apply bool_decide_eq_true, Hi. by left.
Qed.

Definition mic_ok (c : MetricIdCache) : Prop := set_all P (mic_curr c) /\ set_all P (mic_prev c).

Lemma mic_new_ok memory : mic_ok (mic_new memory).
Proof. split; apply set_all_default. Qed.

Lemma mic_has_ok {E} c x : mic_ok c -> is_u64 x -> exists b, mic_has (E := E) c x = Ok b /\ (b = true -> P x).
Proof.
  intros [H1 H2] Hx. unfold mic_has. destruct (set_all_has (E := E) _ _ _ H1 Hx) as (b & -> & Hb). rewrite bind_Ok.
  destruct b; [by exists true|]. by apply set_all_has.
Qed.

Lemma mic_set_ok {E} c x : mic_ok c -> is_u64 x -> P x ->
  exists c', mic_set (E := E) c x = Ok c' /\ mic_ok c' /\ mic_has (E := E) c' x = Ok true.
Proof.
  intros [H1 H2] Hx Hp. unfold mic_set. destruct (set_all_add (E := E) _ _ _ H1 Hx Hp) as (s & -> & Hs & Hh). rewrite bind_Ok.
  destruct (_ <? _)%nat; (eexists; split; [done|]); (split; [split; cbn; try done; apply set_all_default|]); unfold mic_has; cbn [mic_curr mic_prev].
  - exact Hh.
  - rewrite Hh. done.
Qed.

Definition dates_ok (m : gmap Z USet) : Prop := forall d s, m !! d = Some s -> set_all (D d) s.
Definition dmc_ok (c : DateMetricIdCache) : Prop := dates_ok (dmc_curr c) /\ dates_ok (dmc_prev c).

Lemma dmc_new_ok memory : dmc_ok (dmc_new memory).
Proof. split; intros d s; cbn; by rewrite lookup_empty. Qed.

Lemma date_has_ok {E} m d x : dates_ok m -> is_u64 x -> exists b, date_has (E := E) m d x = Ok b /\ (b = true -> D d x).
Proof.
  intros Hm Hx. unfold date_has. destruct (m !! d) as [s|] eqn:Hd; [|by exists false]. apply set_all_has; [by apply Hm|done].
Qed.

Lemma dmc_has_ok {E} c d x : dmc_ok c -> is_u64 x -> exists b, dmc_has (E := E) c d x = Ok b /\ (b = true -> D d x).
Proof.
  intros [H1 H2] Hx. unfold dmc_has. destruct (date_has_ok (E := E) _ d _ H1 Hx) as (b & -> & Hb). rewrite bind_Ok.
  destruct b; [by exists true|]. by apply date_has_ok.
Qed.

Lemma dmc_set_ok {E} c d x : dmc_ok c -> is_u64 x -> D d x ->
  exists c', dmc_set (E := E) c d x = Ok c' /\ dmc_ok c' /\ dmc_has (E := E) c' d x = Ok true.
Proof.
  intros [H1 H2] Hx Hd. unfold dmc_set. assert (Hs0 : set_all (D d) (default set_default (dmc_curr c !! d))).
  { destruct (dmc_curr c !! d) as [s|] eqn:E0; [by apply H1|apply set_all_default]. }
  destruct (set_all_add (E := E) _ _ _ Hs0 Hx Hd) as (s & -> & Hs & Hh). rewrite bind_Ok.
  assert (Hc : dates_ok (<[d := s]> (dmc_curr c))).
  { intros d' s' H'. destruct (decide (d' = d)) as [->|Hne]; [rewrite lookup_insert_eq in H'; by simplify_eq|].
    rewrite lookup_insert_ne in H' by done. by apply H1. }
  destruct (_ <? _)%nat; (eexists; split; [done|]); (split; [split; cbn; try done; by intros ? ?; rewrite lookup_empty|]);
    unfold dmc_has, date_has; cbn [dmc_curr dmc_prev]; rewrite ?lookup_empty, ?lookup_insert_eq, ?bind_Ok, Hh; done.
Qed.
End MembershipProof.

Lemma set_all_mono (Q Q' : Z -> Prop) s : (forall x, Q x -> Q' x) -> set_all Q s -> set_all Q' s.
Proof. intros H [Hw Hs]. split; [done|]. intros x Hx. by apply H, Hs. Qed.

Lemma mic_ok_mono (P P' : Z -> Prop) c : (forall x, P x -> P' x) -> mic_ok P c -> mic_ok P' c.
Proof. intros H [H1 H2]. split; by eapply set_all_mono. Qed.

Lemma dmc_ok_mono (D D' : Z -> Z -> Prop) c : (forall d x, D d x -> D' d x) -> dmc_ok D c -> dmc_ok D' c.
Proof. intros H [H1 H2]. split; intros d s Hd; (eapply set_all_mono; [apply H|]); [by apply H1|by apply H2]. Qed.
