(* ===== verification/IndexDb.v ===== *)
(** * The index database

    Model of [esm-storage/src/index/create.rs], of the state of
    [esm-storage/src/index/mod.rs] and of the lookups of
    [esm-storage/src/index/search.rs]: the items a new series adds to the index
    and how identifiers and names are found again. *)
From Stdlib Require Import ZArith Lia Bool.
From stdpp Require Import base gmap.
From S2P Require Import Prelude IntCodec TimeRange Tsid MetricName ItemBlock IndexRow Uint64Set IndexCaches ItemTableSearch ItemTable.
Local Open Scope Z_scope.

(** ** New identifiers *)

(** [generate_unique_metric_id]: the counter starts at the time of the first
    call; it is [None] before. *)
Definition generate_unique_metric_id (nanos : Z) (next : option Z) : Z * option Z :=
  let n := default nanos next in
  (as_u64 (n + 1), Some (as_u64 (n + 1))).

Section Generate.
  Context {Xx : Xxh64}.

Definition generate_tsid (dst : Tsid) (mn : MetricName) (nanos : Z) (next : option Z) : Tsid * option Z :=
  let job := match tags mn with t :: _ => as_u32 (xxh64 (t_value t) 0) | [] => job_id dst end in
  let instance := match tags mn with _ :: t :: _ => as_u32 (xxh64 (t_value t) 0) | _ => instance_id dst end in
  let '(id, next) := generate_unique_metric_id nanos next in
  (mkTsid (xxh64 (metric_group mn) 0) job instance id, next).
End Generate.

(** ** Batches of index items *)

Record IndexItems : Type := mkIndexItems {
  ii_b : list Z;
  ii_offsets : list (nat * nat);
  ii_start : nat;
}.

Definition ii_default : IndexItems := mkIndexItems [] [] 0.

(** A call that appends to the buffer. *)
Definition on_b (ii : IndexItems) (f : list Z -> list Z) : IndexItems := mkIndexItems (f (ii_b ii)) (ii_offsets ii) (ii_start ii).

Definition ii_next (ii : IndexItems) : IndexItems :=
  mkIndexItems (ii_b ii) (ii_offsets ii ++ [(ii_start ii, length (ii_b ii))]) (length (ii_b ii)).

(** The items handed to the table: [&self.b[start..end]]. *)
Fixpoint slices {E} (b : list Z) (offsets : list (nat * nat)) : res E (list (list Z)) :=
  match offsets with
  | [] => Ok []
  | (s, e) :: offsets =>
      item ← (if decide (s <= e <= length b)%nat then Ok (take (e - s) (drop s b)) else Panic);
      items ← slices b offsets;
      Ok (item :: items)
  end.

Definition add_reverse_metric_group_if_needed (ii : IndexItems) (prefix : list Z) (mn : MetricName) (metric_id : Z) : IndexItems :=
  if negb (existsb (Z.eqb 46) (metric_group mn)) then ii
  else
    let ii := on_b ii (fun b => b ++ prefix) in
    let ii := on_b ii (fun b => marshal_tag_value b GRAPHITE_REVERSE_TAG_KEY) in
    let rev := reverse_bytes [] (metric_group mn) in
    let ii := on_b ii (fun b => marshal_tag_value b rev) in
    let ii := on_b ii (fun b => marshal_uint64 b metric_id) in
    ii_next ii.

(** One round of the loop over the tags. *)
Definition register_tag (prefix : list Z) (metric_id : Z) (ii : IndexItems) (tag : Tag) : IndexItems :=
  let ii := on_b ii (fun b => b ++ prefix) in
  let ii := on_b ii (tag_marshal tag) in
  let ii := on_b ii (fun b => marshal_uint64 b metric_id) in
  ii_next ii.

(** One round of the loop over the composite tags. *)
Definition register_composite (prefix : list Z) (mn : MetricName) (metric_id : Z) (ii : IndexItems) (tag : Tag) : IndexItems :=
  let composite_key := marshal_composite_tag_key [] (metric_group mn) (t_key tag) in
  let ii := on_b ii (fun b => b ++ prefix) in
  let ii := on_b ii (fun b => marshal_tag_value b composite_key) in
  let ii := on_b ii (fun b => marshal_tag_value b (t_value tag)) in
  let ii := on_b ii (fun b => marshal_uint64 b metric_id) in
  ii_next ii.

Definition register_tag_indexes (ii : IndexItems) (prefix : list Z) (mn : MetricName) (metric_id : Z) : IndexItems :=
  let ii := on_b ii (fun b => b ++ prefix) in
  let ii := on_b ii (fun b => marshal_tag_value b []) in
  let ii := on_b ii (fun b => marshal_tag_value b (metric_group mn)) in
  let ii := on_b ii (fun b => marshal_uint64 b metric_id) in
  let ii := ii_next ii in
  let ii := add_reverse_metric_group_if_needed ii prefix mn metric_id in
  let ii := foldl (register_tag prefix metric_id) ii (tags mn) in
  foldl (register_composite prefix mn metric_id) ii (tags mn).

(** ** The database *)

(** The self-healing state for metric IDs without rows. *)
Record MissingMetricIds : Type := mkMissing { mm_m : gmap Z Z; mm_reset_deadline : Z }.

Record IndexDbContext : Type := mkContext {
  disable_per_day_index : bool;
  min_timestamp_for_composite_index : Z;
  metric_id_to_tsid_cache : WorkingSetCache (list Z);
  metric_name_cache : WorkingSetCache (list Z);
  missing_metric_ids : MissingMetricIds;
}.

(** The counters are left out.  [idb_tb] is the table as the database writes
    it: the items passed to [Table::add_items] so far. *)
Record IndexDb : Type := mkIndexDb {
  idb_name : list Z;
  idb_tb : list (list Z);
  idb_ctx : IndexDbContext;
  no_register_new_series : bool;
  tag_filters_to_metric_ids_cache : WorkingSetCache USet;
  loops_per_date_tag_filter_cache : WorkingSetCache (list Z);
  metric_id_cache : MetricIdCache;
  date_metric_id_cache : DateMetricIdCache;
  deleted_metric_ids : USet;
}.

Definition set_tb (db : IndexDb) (tb : list (list Z)) : IndexDb :=
  mkIndexDb (idb_name db) tb (idb_ctx db) (no_register_new_series db) (tag_filters_to_metric_ids_cache db)
    (loops_per_date_tag_filter_cache db) (metric_id_cache db) (date_metric_id_cache db) (deleted_metric_ids db).
Definition set_ctx (db : IndexDb) (ctx : IndexDbContext) : IndexDb :=
  mkIndexDb (idb_name db) (idb_tb db) ctx (no_register_new_series db) (tag_filters_to_metric_ids_cache db)
    (loops_per_date_tag_filter_cache db) (metric_id_cache db) (date_metric_id_cache db) (deleted_metric_ids db).
Definition set_tag_filters_cache (db : IndexDb) (c : WorkingSetCache USet) : IndexDb :=
  mkIndexDb (idb_name db) (idb_tb db) (idb_ctx db) (no_register_new_series db) c
    (loops_per_date_tag_filter_cache db) (metric_id_cache db) (date_metric_id_cache db) (deleted_metric_ids db).
Definition set_loops_cache (db : IndexDb) (c : WorkingSetCache (list Z)) : IndexDb :=
  mkIndexDb (idb_name db) (idb_tb db) (idb_ctx db) (no_register_new_series db) (tag_filters_to_metric_ids_cache db)
    c (metric_id_cache db) (date_metric_id_cache db) (deleted_metric_ids db).
Definition set_metric_id_cache (db : IndexDb) (c : MetricIdCache) : IndexDb :=
  mkIndexDb (idb_name db) (idb_tb db) (idb_ctx db) (no_register_new_series db) (tag_filters_to_metric_ids_cache db)
    (loops_per_date_tag_filter_cache db) c (date_metric_id_cache db) (deleted_metric_ids db).
Definition set_date_metric_id_cache (db : IndexDb) (c : DateMetricIdCache) : IndexDb :=
  mkIndexDb (idb_name db) (idb_tb db) (idb_ctx db) (no_register_new_series db) (tag_filters_to_metric_ids_cache db)
    (loops_per_date_tag_filter_cache db) (metric_id_cache db) c (deleted_metric_ids db).
Definition set_deleted_metric_ids (db : IndexDb) (dmis : USet) : IndexDb :=
  mkIndexDb (idb_name db) (idb_tb db) (idb_ctx db) (no_register_new_series db) (tag_filters_to_metric_ids_cache db)
    (loops_per_date_tag_filter_cache db) (metric_id_cache db) (date_metric_id_cache db) dmis.

Definition set_tsid_cache (ctx : IndexDbContext) (c : WorkingSetCache (list Z)) : IndexDbContext :=
  mkContext (disable_per_day_index ctx) (min_timestamp_for_composite_index ctx) c (metric_name_cache ctx) (missing_metric_ids ctx).
Definition set_name_cache (ctx : IndexDbContext) (c : WorkingSetCache (list Z)) : IndexDbContext :=
  mkContext (disable_per_day_index ctx) (min_timestamp_for_composite_index ctx) (metric_id_to_tsid_cache ctx) c (missing_metric_ids ctx).
Definition set_missing (ctx : IndexDbContext) (m : MissingMetricIds) : IndexDbContext :=
  mkContext (disable_per_day_index ctx) (min_timestamp_for_composite_index ctx) (metric_id_to_tsid_cache ctx) (metric_name_cache ctx) m.

Definition with_cache_sizes (metric_id_cache_bytes metric_name_cache_bytes : Z) : IndexDbContext :=
  mkContext false 0 (wc_new metric_id_cache_bytes) (wc_new metric_name_cache_bytes) (mkMissing ∅ 0).

(** A database as [IndexDb::must_open] creates it over an empty table; [mem] is
    [esm_common::memory::allowed()], which also sizes the caches of a new context. *)
Definition new_index_db (name : list Z) (disable_per_day : bool) (min_timestamp mem : Z) : IndexDb :=
  mkIndexDb name [] (mkContext disable_per_day min_timestamp (wc_new (mem / 16)) (wc_new (mem / 10)) (mkMissing ∅ 0)) false
    (wc_new (mem / 32)) (wc_new (mem / 128)) (mic_new mem) (dmc_new mem) set_default.

(** [IndexItems::add_to]. *)
Definition add_to {E} (ii : IndexItems) (db : IndexDb) : res E IndexDb :=
  items ← slices (ii_b ii) (ii_offsets ii);
  Ok (set_tb db (idb_tb db ++ items)).

Definition create_global_indexes {E} (db : IndexDb) (tsid : Tsid) (mn : MetricName) : res E IndexDb :=
  _ ← assert_ (negb (no_register_new_series db));
  cache ← mic_set (metric_id_cache db) (metric_id tsid);
  let db := set_metric_id_cache db cache in
  let ii := ii_default in
  let ii :=
    if disable_per_day_index (idb_ctx db) then
      let ii := on_b ii (fun b => marshal_common_prefix b NS_PREFIX_METRIC_NAME_TO_TSID) in
      let ii := on_b ii (mn_marshal mn) in
      let ii := on_b ii (fun b => b ++ [KV_SEPARATOR_CHAR]) in
      let ii := on_b ii (tsid_marshal tsid) in
      ii_next ii
    else ii in
  let ii := on_b ii (fun b => marshal_common_prefix b NS_PREFIX_METRIC_ID_TO_METRIC_NAME) in
  let ii := on_b ii (fun b => marshal_uint64 b (metric_id tsid)) in
  let ii := on_b ii (mn_marshal mn) in
  let ii := ii_next ii in
  let ii := on_b ii (fun b => marshal_common_prefix b NS_PREFIX_METRIC_ID_TO_TSID) in
  let ii := on_b ii (fun b => marshal_uint64 b (metric_id tsid)) in
  let ii := on_b ii (tsid_marshal tsid) in
  let ii := ii_next ii in
  let prefix := marshal_common_prefix [] NS_PREFIX_TAG_TO_METRIC_IDS in
  let ii := register_tag_indexes ii prefix mn (metric_id tsid) in
  add_to ii db.

Definition create_per_day_indexes {E} (db : IndexDb) (date : Z) (tsid : Tsid) (mn : MetricName) : res E IndexDb :=
  _ ← assert_ (negb (no_register_new_series db));
  if disable_per_day_index (idb_ctx db) then Ok db
  else
    cache ← dmc_set (date_metric_id_cache db) date (metric_id tsid);
    let db := set_date_metric_id_cache db cache in
    let ii := ii_default in
    let ii := on_b ii (fun b => marshal_common_prefix b NS_PREFIX_DATE_TO_METRIC_ID) in
    let ii := on_b ii (fun b => marshal_uint64 b date) in
    let ii := on_b ii (fun b => marshal_uint64 b (metric_id tsid)) in
    let ii := ii_next ii in
    let ii := on_b ii (fun b => marshal_common_prefix b NS_PREFIX_DATE_METRIC_NAME_TO_TSID) in
    let ii := on_b ii (fun b => marshal_uint64 b date) in
    let ii := on_b ii (mn_marshal mn) in
    let ii := on_b ii (fun b => b ++ [KV_SEPARATOR_CHAR]) in
    let ii := on_b ii (tsid_marshal tsid) in
    let ii := ii_next ii in
    let prefix := marshal_common_prefix [] NS_PREFIX_DATE_TAG_TO_METRIC_IDS in
    let prefix := marshal_uint64 prefix date in
    let ii := register_tag_indexes ii prefix mn (metric_id tsid) in
    add_to ii db.

(** ** Deleted series *)

Definition update_deleted_metric_ids {E} (db : IndexDb) (metric_ids : USet) : res E IndexDb :=
  dmis_new ← lift_set (set_union (set_clone (deleted_metric_ids db)) metric_ids);
  Ok (set_deleted_metric_ids db dmis_new).

Definition deleted_items (ii : IndexItems) (part : list Z) : IndexItems :=
  foldl (fun ii metric_id => ii_next (on_b (on_b ii (fun b => b ++ [NS_PREFIX_DELETED_METRIC_ID])) (fun b => marshal_uint64 b metric_id))) ii part.

Definition save_deleted_metric_ids {E} (db : IndexDb) (metric_ids : USet) : res E IndexDb :=
  if set_is_empty metric_ids then Ok db
  else
    db ← update_deleted_metric_ids db metric_ids;
    let db := set_tag_filters_cache db (wc_reset (tag_filters_to_metric_ids_cache db)) in
    items ← lift_set (set_for_each (fun ii part => Ok (deleted_items ii part, true)) metric_ids ii_default);
    add_to items db.

(** ** The shared caches *)

Section Caches.
  Context {Xx : Xxh64}.

(** [dst] is only changed by a successful [Tsid::unmarshal]. *)
Definition get_tsid_by_metric_id_from_cache {E} (ctx : IndexDbContext) (dst : Tsid) (metric_id : Z) : res E (IndexDbContext * Tsid * bool) :=
  '(c, v) ← wc_get (metric_id_to_tsid_cache ctx) (to_be_bytes 8 metric_id);
  let ctx := set_tsid_cache ctx c in
  match v with
  | Some v =>
      if (length v =? MARSHALED_TSID_SIZE)%nat then
        match tsid_unmarshal v with
        | Ok (tsid, _) => Ok (ctx, tsid, true)
        | Err _ => Ok (ctx, dst, false)
        | Panic => Panic
        end
      else Ok (ctx, dst, false)
  | None => Ok (ctx, dst, false)
  end.

Definition put_tsid_by_metric_id_to_cache {E} (ctx : IndexDbContext) (metric_id : Z) (tsid : Tsid) : res E IndexDbContext :=
  c ← wc_set (metric_id_to_tsid_cache ctx) (to_be_bytes 8 metric_id) (tsid_marshal tsid []);
  Ok (set_tsid_cache ctx c).

Definition get_metric_name_by_metric_id_from_cache {E} (ctx : IndexDbContext) (dst : list Z) (metric_id : Z) : res E (IndexDbContext * list Z * bool) :=
  '(c, v) ← wc_get (metric_name_cache ctx) (to_be_bytes 8 metric_id);
  let ctx := set_name_cache ctx c in
  match v with
  | Some v => Ok (ctx, dst ++ v, true)
  | None => Ok (ctx, dst, false)
  end.

Definition put_metric_name_by_metric_id_to_cache {E} (ctx : IndexDbContext) (metric_id : Z) (metric_name : list Z) : res E IndexDbContext :=
  c ← wc_set (metric_name_cache ctx) (to_be_bytes 8 metric_id) metric_name;
  Ok (set_name_cache ctx c).

(** [ct] is the time of the call. *)
Definition was_metric_id_missing_before (ctx : IndexDbContext) (ct metric_id : Z) : IndexDbContext * bool :=
  let st := missing_metric_ids ctx in
  let st := if mm_reset_deadline st <? ct then mkMissing ∅ (as_u64 (ct + 2 * 60)) else st in
  let delete_deadline := default (as_u64 (ct + 60)) (mm_m st !! metric_id) in
  let st := mkMissing (<[metric_id := delete_deadline]> (mm_m st)) (mm_reset_deadline st) in
  (set_missing ctx st, delete_deadline <? ct).
End Caches.

(** ** The search cursor and its lookups *)

(** The key buffer, which every lookup clears first, is local to the lookups. *)
Record IndexSearch (T : Type) : Type := mkIndexSearch {
  is_ts : T;
  is_mp : TagToMetricIDsRowParser;
  is_deadline : Z;
}.
Arguments mkIndexSearch {T}.
Arguments is_ts {T}.
Arguments is_mp {T}.
Arguments is_deadline {T}.

Definition set_ts {T} (self : IndexSearch T) (ts : T) : IndexSearch T := mkIndexSearch ts (is_mp self) (is_deadline self).
Definition set_mp {T} (self : IndexSearch T) (mp : TagToMetricIDsRowParser) : IndexSearch T := mkIndexSearch (is_ts self) mp (is_deadline self).

Inductive load_error : Type :=
| UnexpectedItemLen (n : nat)
| LoadFailed (e : ts_other).

Section Lookups.
  Context {Xx : Xxh64} {T W : Type} {Tb : ItemTable T W}.

(** The [while] loop of [get_tsid_by_metric_name]. *)
Fixpoint tsid_by_name_loop {E} (fuel : nat) (dmis : USet) (kb : list Z) (dst : Tsid) (ts : T) (w : W) : res E (T * W * Tsid * bool) :=
  match fuel with
  | O => Panic
  | S fuel =>
      '(ts, w, more) ← tb_next_item ts w;
      if more : bool then
        item ← tb_item ts;
        if negb (starts_with item kb) then Ok (ts, w, dst, false)
        else
          v ← slice_from item (length kb);
          match tsid_unmarshal v with
          | Ok (dst, tail) =>
              _ ← assert_ (length tail =? 0)%nat;
              deleted ← lift_set (set_has dmis (metric_id dst));
              if deleted : bool then tsid_by_name_loop fuel dmis kb dst ts w
              else Ok (ts, w, dst, true)
          | _ => Panic
          end
      else
        match tb_error ts with
        | Some _ => Panic
        | None => Ok (ts, w, dst, false)
        end
  end.

Definition tsid_by_name_key (db : IndexDb) (metric_name : list Z) (date : Z) : list Z :=
  let kb :=
    if disable_per_day_index (idb_ctx db) then marshal_common_prefix [] NS_PREFIX_METRIC_NAME_TO_TSID
    else marshal_uint64 (marshal_common_prefix [] NS_PREFIX_DATE_METRIC_NAME_TO_TSID) date in
  (kb ++ metric_name) ++ [KV_SEPARATOR_CHAR].

Definition get_tsid_by_metric_name {E} (fuel : nat) (db : IndexDb) (self : IndexSearch T) (w : W) (dst : Tsid) (metric_name : list Z) (date : Z)
    : res E (IndexSearch T * W * Tsid * bool) :=
  let dmis := deleted_metric_ids db in
  let kb := tsid_by_name_key db metric_name date in
  '(ts, w) ← tb_seek (is_ts self) kb w;
  '(ts, w, dst, found) ← tsid_by_name_loop fuel dmis kb dst ts w;
  Ok (set_ts self ts, w, dst, found).

Definition search_metric_name {E} (self : IndexSearch T) (w : W) (dst : list Z) (metric_id : Z) : res E (IndexSearch T * W * list Z * bool) :=
  let kb := marshal_uint64 (marshal_common_prefix [] NS_PREFIX_METRIC_ID_TO_METRIC_NAME) metric_id in
  '(ts, w, r) ← tb_first_item_with_prefix (is_ts self) kb w;
  let self := set_ts self ts in
  match r with
  | None =>
      item ← tb_item ts;
      v ← slice_from item (length kb);
      Ok (self, w, dst ++ v, true)
  | Some TsEof => Ok (self, w, dst, false)
  | Some (TsOther _) => Panic
  end.

Definition search_metric_name_with_cache {E} (db : IndexDb) (self : IndexSearch T) (w : W) (dst : list Z) (metric_id : Z)
    : res E (IndexDb * IndexSearch T * W * list Z * bool) :=
  '(ctx, dst, cached) ← get_metric_name_by_metric_id_from_cache (idb_ctx db) dst metric_id;
  let db := set_ctx db ctx in
  if cached : bool then Ok (db, self, w, dst, true)
  else
    '(self, w, dst, ok) ← search_metric_name self w dst metric_id;
    if ok : bool then
      ctx ← put_metric_name_by_metric_id_to_cache (idb_ctx db) metric_id dst;
      Ok (set_ctx db ctx, self, w, dst, true)
    else Ok (db, self, w, dst, false).

Definition get_tsid_by_metric_id {E} (self : IndexSearch T) (w : W) (dst : Tsid) (metric_id : Z) : res E (IndexSearch T * W * Tsid * bool) :=
  let kb := marshal_uint64 (marshal_common_prefix [] NS_PREFIX_METRIC_ID_TO_TSID) metric_id in
  '(ts, w, r) ← tb_first_item_with_prefix (is_ts self) kb w;
  let self := set_ts self ts in
  match r with
  | None =>
      item ← tb_item ts;
      v ← slice_from item (length kb);
      match tsid_unmarshal v with
      | Ok (dst, tail) =>
          _ ← assert_ (length tail =? 0)%nat;
          Ok (self, w, dst, true)
      | _ => Panic
      end
  | Some TsEof => Ok (self, w, dst, false)
  | Some (TsOther _) => Panic
  end.

Definition has_metric_id_slow {E} (self : IndexSearch T) (w : W) (metric_id : Z) : res E (IndexSearch T * W * bool) :=
  let kb := marshal_uint64 (marshal_common_prefix [] NS_PREFIX_METRIC_ID_TO_TSID) metric_id in
  '(ts, w, r) ← tb_first_item_with_prefix (is_ts self) kb w;
  match r with
  | None => Ok (set_ts self ts, w, true)
  | Some TsEof => Ok (set_ts self ts, w, false)
  | Some (TsOther _) => Panic
  end.

Definition has_metric_id {E} (db : IndexDb) (self : IndexSearch T) (w : W) (metric_id : Z) : res E (IndexDb * IndexSearch T * W * bool) :=
  cached ← mic_has (metric_id_cache db) metric_id;
  if cached : bool then Ok (db, self, w, true)
  else
    '(self, w, ok) ← has_metric_id_slow self w metric_id;
    if ok : bool then
      cache ← mic_set (metric_id_cache db) metric_id;
      Ok (set_metric_id_cache db cache, self, w, true)
    else Ok (db, self, w, false).

Definition has_date_metric_id_slow {E} (self : IndexSearch T) (w : W) (date metric_id : Z) : res E (IndexSearch T * W * bool) :=
  let kb := marshal_uint64 (marshal_uint64 (marshal_common_prefix [] NS_PREFIX_DATE_TO_METRIC_ID) date) metric_id in
  '(ts, w, r) ← tb_first_item_with_prefix (is_ts self) kb w;
  match r with
  | None =>
      item ← tb_item ts;
      _ ← assert_ (bool_decide (item = kb));
      Ok (set_ts self ts, w, true)
  | Some TsEof => Ok (set_ts self ts, w, false)
  | Some (TsOther _) => Panic
  end.

Definition has_date_metric_id {E} (db : IndexDb) (self : IndexSearch T) (w : W) (date metric_id : Z) : res E (IndexDb * IndexSearch T * W * bool) :=
  cached ← dmc_has (date_metric_id_cache db) date metric_id;
  if cached : bool then Ok (db, self, w, true)
  else
    '(self, w, ok) ← has_date_metric_id_slow self w date metric_id;
    if ok : bool then
      cache ← dmc_set (date_metric_id_cache db) date metric_id;
      Ok (set_date_metric_id_cache db cache, self, w, true)
    else Ok (db, self, w, false).

(** The [while] loop of [load_deleted_metric_ids]. *)
Fixpoint load_deleted_loop (fuel : nat) (kb : list Z) (dmis : USet) (ts : T) (w : W) : res load_error (T * W * USet) :=
  match fuel with
  | O => Panic
  | S fuel =>
      '(ts, w, more) ← tb_next_item ts w;
      if more : bool then
        item ← tb_item ts;
        if negb (starts_with item kb) then
          match tb_error ts with Some e => Err (LoadFailed e) | None => Ok (ts, w, dmis) end
        else
          item ← slice_from item (length kb);
          _ ← guard_ (negb (length item =? 8)%nat) (UnexpectedItemLen (length item));
          id ← unmarshal_uint64 item;
          dmis ← lift_set (set_add dmis id);
          load_deleted_loop fuel kb dmis ts w
      else match tb_error ts with Some e => Err (LoadFailed e) | None => Ok (ts, w, dmis) end
  end.

Definition load_deleted_metric_ids (fuel : nat) (self : IndexSearch T) (w : W) : res load_error (IndexSearch T * W * USet) :=
  let kb := [NS_PREFIX_DELETED_METRIC_ID] in
  '(ts, w) ← tb_seek (is_ts self) kb w;
  '(ts, w, dmis) ← load_deleted_loop fuel kb set_default ts w;
  Ok (set_ts self ts, w, dmis).

(** [must_load_deleted_metric_ids] with a cursor of its own; it panics on an error. *)
Definition must_load_deleted_metric_ids {E} (fuel : nat) (db : IndexDb) (self : IndexSearch T) (w : W) : res E (IndexDb * W) :=
  match load_deleted_metric_ids fuel self w with
  | Ok (_, w, dmis) => Ok (set_deleted_metric_ids db dmis, w)
  | _ => Panic
  end.
End Lookups.
