(* ===== verification/IndexDbSpec.v ===== *)
(** * What the index holds and finds

    The items a registration adds, as rows, and the proof that the lookups of
    [IndexDb] over any table that shows the written items find exactly what was
    registered, through caches in any state. *)
From Stdlib Require Import ZArith Lia Bool Sorted Permutation.
From stdpp Require Import base gmap.
From S2P Require Import Prelude IntCodec TimeRange Tsid MetricName ItemBlock ItemBlockSpec IndexRow IndexRowSpec Uint64Set Uint64SetSpec IndexCaches ItemTableSearch ItemTable IndexDb.
Local Open Scope Z_scope.

(** ** Batches *)

(** The offsets of consecutive items. *)
Fixpoint offs (n : nat) (xs : list (list Z)) : list (nat * nat) :=
  match xs with
  | [] => []
  | x :: xs => (n, n + length x)%nat :: offs (n + length x) xs
  end.

(** The batch holds the items [xs] and the beginning [cur] of another. *)
Definition ii_is (ii : IndexItems) (xs : list (list Z)) (cur : list Z) : Prop :=
  ii_b ii = concat xs ++ cur /\ ii_offsets ii = offs 0 xs /\ ii_start ii = length (concat xs).

Lemma ii_is_default : ii_is ii_default [] [].
Proof. done. Qed.

Lemma offs_snoc xs x : forall n, offs n (xs ++ [x]) = offs n xs ++ [(n + length (concat xs), n + length (concat xs) + length x)%nat].
Proof.
  induction xs as [|y xs IH]; intros n; cbn [app offs concat]; [by rewrite Nat.add_0_r|]. rewrite IH, length_app. cbn [app]. by rewrite !Nat.add_assoc.
Qed.

Lemma ii_push ii xs cur f y : (forall b, f b = b ++ y) -> ii_is ii xs cur -> ii_is (on_b ii f) xs (cur ++ y).
Proof. intros Hf (H1 & H2 & H3). split_and!; cbn; [|done|done]. by rewrite Hf, H1, <-app_assoc. Qed.

Lemma ii_next_is ii xs cur : ii_is ii xs cur -> ii_is (ii_next ii) (xs ++ [cur]) [].
Proof.
  intros (H1 & H2 & H3). unfold ii_next. split_and!; cbn [ii_b ii_offsets ii_start].
  - by rewrite H1, concat_app, app_nil_r; cbn [concat]; rewrite app_nil_r.
  - rewrite offs_snoc, H2, H3, H1, length_app. done.
  - rewrite H1, concat_app. cbn [concat]. by rewrite app_nil_r.
Qed.

Lemma slices_offs {E} xs : forall pre, slices (E := E) (pre ++ concat xs) (offs (length pre) xs) = Ok xs.
Proof.
  induction xs as [|x xs IH]; intros pre; cbn [offs slices concat]; [done|]. rewrite decide_True by (rewrite !length_app; lia).
  rewrite bind_Ok. rewrite drop_app_length, Nat.add_comm, Nat.add_sub, take_app_length.
  specialize (IH (pre ++ x)). rewrite length_app, <-app_assoc in IH. rewrite Nat.add_comm. by rewrite IH.
Qed.

Lemma ii_slices {E} ii xs : ii_is ii xs [] -> slices (E := E) (ii_b ii) (ii_offsets ii) = Ok xs.
Proof. intros (-> & -> & _). rewrite app_nil_r. exact (slices_offs xs []). Qed.

Lemma add_to_ok {E} ii xs db : ii_is ii xs [] -> add_to (E := E) ii db = Ok (set_tb db (idb_tb db ++ xs)).
Proof. intros H. unfold add_to. by rewrite (ii_slices _ _ H), bind_Ok. Qed.

(** ** Rows of a series *)

Definition composite_tag (mn : MetricName) (t : Tag) : Tag := mkTag (marshal_composite_tag_key [] (metric_group mn) (t_key t)) (t_value t).

(** The tags a series is indexed under. *)
Definition index_tags (mn : MetricName) : list Tag :=
  mkTag [] (metric_group mn) ::
  (if existsb (Z.eqb 46) (metric_group mn) then [mkTag GRAPHITE_REVERSE_TAG_KEY (reverse (metric_group mn))] else []) ++
  tags mn ++ map (composite_tag mn) (tags mn).

Definition tag_row (ns date metric_id : Z) (t : Tag) : list Z := row_bytes (mkRow ns date t [metric_id]).

Definition row_head (ns date : Z) : list Z := ns :: (if ns =? NS_PREFIX_DATE_TAG_TO_METRIC_IDS then to_be_bytes 8 date else []).

Lemma tag_row_bytes ns date id t : tag_row ns date id t = row_head ns date ++ tag_bytes t ++ to_be_bytes 8 id.
Proof. unfold tag_row, row_bytes, prefix_bytes, row_head, ids_bytes. cbn [r_ns r_date r_tag r_ids map concat]. by rewrite app_nil_r, app_comm_cons, <-app_assoc. Qed.

Lemma tag_bytes_marshal k v b : marshal_tag_value (marshal_tag_value b k) v = b ++ tag_bytes (mkTag k v).
Proof. rewrite !marshal_tag_value_escape. unfold tag_bytes. cbn [t_key t_value]. by rewrite <-!app_assoc. Qed.

Ltac push := first [eapply ii_push; [intros; reflexivity|]|eapply ii_push; [intros; apply mn_marshal_bytes|]|eapply ii_push; [intros; apply tag_marshal_bytes|]
  |eapply ii_push; [intros; apply tsid_marshal_app|]|eapply ii_push; [intros; apply marshal_tag_value_escape|]].

(** Registering a tag adds its row. *)
Lemma register_row ii xs prefix id t f :
  (forall b, f b = b ++ tag_bytes t) -> ii_is ii xs [] ->
  ii_is (ii_next (on_b (on_b (on_b ii (fun b => b ++ prefix)) f) (fun b => marshal_uint64 b id))) (xs ++ [prefix ++ tag_bytes t ++ to_be_bytes 8 id]) [].
Proof.
  intros Hf H. replace (prefix ++ tag_bytes t ++ to_be_bytes 8 id) with ((([] ++ prefix) ++ tag_bytes t) ++ to_be_bytes 8 id) by (by rewrite <-app_assoc).
  apply ii_next_is. push. eapply ii_push; [exact Hf|]. by push.
Qed.

Lemma on_b_comp ii f g : on_b (on_b ii f) g = on_b ii (fun b => g (f b)).
Proof. done. Qed.

Lemma register_tags_is prefix id ts : forall ii xs, ii_is ii xs [] ->
  ii_is (foldl (register_tag prefix id) ii ts) (xs ++ map (fun t => prefix ++ tag_bytes t ++ to_be_bytes 8 id) ts) [].
Proof.
  induction ts as [|t ts IH]; intros ii xs H; cbn [foldl map]; [by rewrite app_nil_r|]. rewrite cons_middle, app_assoc. apply IH.
  unfold register_tag. apply register_row; [|done]. intros b. apply tag_marshal_bytes.
Qed.

Lemma register_composites_is prefix mn id ts : forall ii xs, ii_is ii xs [] ->
  ii_is (foldl (register_composite prefix mn id) ii ts) (xs ++ map (fun t => prefix ++ tag_bytes (composite_tag mn t) ++ to_be_bytes 8 id) ts) [].
Proof.
  induction ts as [|t ts IH]; intros ii xs H; cbn [foldl map]; [by rewrite app_nil_r|]. rewrite cons_middle, app_assoc. apply IH.
  unfold register_composite. rewrite (on_b_comp (on_b ii _)). apply register_row; [|done]. intros b. apply tag_bytes_marshal.
Qed.

Lemma register_tag_indexes_is ii xs ns date mn id : ii_is ii xs [] ->
  ii_is (register_tag_indexes ii (row_head ns date) mn id) (xs ++ map (tag_row ns date id) (index_tags mn)) [].
Proof.
  intros H. assert (Hmap : map (tag_row ns date id) (index_tags mn) = map (fun t => row_head ns date ++ tag_bytes t ++ to_be_bytes 8 id) (index_tags mn))
    by (apply map_ext; intros; apply tag_row_bytes). rewrite Hmap. unfold register_tag_indexes, index_tags. set (row := fun t => row_head ns date ++ tag_bytes t ++ to_be_bytes 8 id). cbn [map]. rewrite !map_app, map_map, cons_middle, !app_assoc.
  apply (register_composites_is (row_head ns date)), (register_tags_is (row_head ns date)). rewrite (on_b_comp (on_b ii _)).
  assert (H1 := register_row ii xs (row_head ns date) id (mkTag [] (metric_group mn)) _ (tag_bytes_marshal [] (metric_group mn)) H).
  unfold add_reverse_metric_group_if_needed. destruct (existsb _ _); cbn [negb map]; [|by rewrite app_nil_r]. rewrite (on_b_comp (on_b _ (fun b => b ++ _))).
  apply register_row; [|exact H1]. intros b. apply tag_bytes_marshal.
Qed.

(** ** Registrations *)

Inductive index_op : Type :=
| OpGlobal (tsid : Tsid) (mn : MetricName)
| OpDay (date : Z) (tsid : Tsid) (mn : MetricName)
| OpDelete (ids : list Z).

Definition exec_op {E} (db : IndexDb) (op : index_op) : res E IndexDb :=
  match op with
  | OpGlobal tsid mn => create_global_indexes db tsid mn
  | OpDay date tsid mn => create_per_day_indexes db date tsid mn
  | OpDelete ids => s ← lift_set (set_add_multi set_default ids); save_deleted_metric_ids db s
  end.

Fixpoint exec_ops {E} (db : IndexDb) (ops : list index_op) : res E IndexDb :=
  match ops with
  | [] => Ok db
  | op :: ops => db ← exec_op db op; exec_ops db ops
  end.

Definition tsid_bytes (t : Tsid) : list Z := tsid_marshal t [].

(** The rows other than tag rows. *)
Definition name_tsid_row (mn : MetricName) (t : Tsid) : list Z := NS_PREFIX_METRIC_NAME_TO_TSID :: name_bytes mn ++ KV_SEPARATOR_CHAR :: tsid_bytes t.
Definition id_name_row (t : Tsid) (mn : MetricName) : list Z := NS_PREFIX_METRIC_ID_TO_METRIC_NAME :: to_be_bytes 8 (metric_id t) ++ name_bytes mn.
Definition id_tsid_row (t : Tsid) : list Z := NS_PREFIX_METRIC_ID_TO_TSID :: to_be_bytes 8 (metric_id t) ++ tsid_bytes t.
Definition deleted_row (id : Z) : list Z := NS_PREFIX_DELETED_METRIC_ID :: to_be_bytes 8 id.
Definition date_id_row (date id : Z) : list Z := NS_PREFIX_DATE_TO_METRIC_ID :: to_be_bytes 8 date ++ to_be_bytes 8 id.
Definition date_name_row (date : Z) (mn : MetricName) (t : Tsid) : list Z :=
  NS_PREFIX_DATE_METRIC_NAME_TO_TSID :: to_be_bytes 8 date ++ name_bytes mn ++ KV_SEPARATOR_CHAR :: tsid_bytes t.

Definition global_items (disabled : bool) (t : Tsid) (mn : MetricName) : list (list Z) :=
  (if disabled then [name_tsid_row mn t] else []) ++ [id_name_row t mn; id_tsid_row t] ++
  map (tag_row NS_PREFIX_TAG_TO_METRIC_IDS 0 (metric_id t)) (index_tags mn).

Definition day_items (disabled : bool) (date : Z) (t : Tsid) (mn : MetricName) : list (list Z) :=
  if disabled then []
  else [date_id_row date (metric_id t); date_name_row date mn t] ++
    map (tag_row NS_PREFIX_DATE_TAG_TO_METRIC_IDS date (metric_id t)) (index_tags mn).

Definition op_items (disabled : bool) (op : index_op) : list (list Z) :=
  match op with
  | OpGlobal t mn => global_items disabled t mn
  | OpDay date t mn => day_items disabled date t mn
  | OpDelete ids => map deleted_row ids
  end.

Record name_ok (mn : MetricName) : Prop := {
  no_group : bytes (metric_group mn);
  no_tags : Forall (fun t => bytes (t_key t) /\ bytes (t_value t)) (tags mn);
  no_length : Z.of_nat (length (metric_group mn)) < 2 ^ 64;
}.

Definition op_ok (op : index_op) : Prop :=
  match op with
  | OpGlobal t mn => tsid_wf t /\ name_ok mn
  | OpDay date t mn => is_u64 date /\ tsid_wf t /\ name_ok mn
  | OpDelete ids => Forall is_u64 ids
  end.

Definition deleted_by (ops : list index_op) (id : Z) : Prop := exists ids, In (OpDelete ids) ops /\ In id ids.

(** The state of the database after [ops]; [N] and [I] bound the answers of the
    shared caches of names and identifiers. *)
Record db_inv (disabled : bool) (ops : list index_op) (db : IndexDb) : Prop := {
  di_flags : disable_per_day_index (idb_ctx db) = disabled /\ no_register_new_series db = false;
  di_items : forall x, In x (idb_tb db) <-> exists op, In op ops /\ In x (op_items disabled op);
  di_ids : mic_ok (fun id => exists t mn, In (OpGlobal t mn) ops /\ metric_id t = id) (metric_id_cache db);
  di_dates : dmc_ok (fun d id => disabled = false /\ exists t mn, In (OpDay d t mn) ops /\ metric_id t = id) (date_metric_id_cache db);
  di_deleted : wf_set (deleted_metric_ids db) /\ forall id, id ∈ set_items (deleted_metric_ids db) <-> deleted_by ops id;
}.

(** A finished row. *)
Lemma ii_row ii xs cur y : ii_is ii xs cur -> cur = y -> ii_is (ii_next ii) (xs ++ [y]) [].
Proof. intros H <-. by apply ii_next_is. Qed.

Lemma create_global_items {E} db t mn cache :
  no_register_new_series db = false -> mic_set (E := E) (metric_id_cache db) (metric_id t) = Ok cache ->
  create_global_indexes (E := E) db t mn = Ok (set_tb (set_metric_id_cache db cache) (idb_tb db ++ global_items (disable_per_day_index (idb_ctx db)) t mn)).
Proof.
  intros Hr Hc. unfold create_global_indexes. rewrite Hr. cbn [negb assert_]. rewrite bind_Ok, Hc, bind_Ok. cbn zeta. cbn [idb_ctx set_metric_id_cache].
  refine (add_to_ok (E := E) _ (global_items _ t mn) (set_metric_id_cache db cache) _).
  unfold global_items. rewrite app_assoc. apply (register_tag_indexes_is _ _ NS_PREFIX_TAG_TO_METRIC_IDS 0).
  set (ii := if disable_per_day_index (idb_ctx db) then _ else _). set (xs := if disable_per_day_index (idb_ctx db) then [name_tsid_row mn t] else []).
  assert (H0 : ii_is ii xs []).
  { unfold ii, xs. destruct (disable_per_day_index _); [|exact ii_is_default]. eapply (ii_row _ []); [do 4 push; exact ii_is_default|].
    unfold name_tsid_row, tsid_bytes. rewrite tsid_marshal_app. cbn [app]. by rewrite <-!app_assoc. }
  change [id_name_row t mn; id_tsid_row t] with ([id_name_row t mn] ++ [id_tsid_row t]). rewrite app_assoc.
  eapply ii_row; [do 3 push; eapply ii_row; [do 3 push; exact H0|]|].
  - unfold id_name_row. cbn [app]. by rewrite <-?app_assoc.
  - unfold id_tsid_row, tsid_bytes. rewrite tsid_marshal_app. cbn [app]. by rewrite <-?app_assoc.
Qed.

Lemma create_day_items {E} db date t mn cache :
  no_register_new_series db = false -> disable_per_day_index (idb_ctx db) = false -> dmc_set (E := E) (date_metric_id_cache db) date (metric_id t) = Ok cache ->
  create_per_day_indexes (E := E) db date t mn = Ok (set_tb (set_date_metric_id_cache db cache) (idb_tb db ++ day_items false date t mn)).
Proof.
  intros Hr Hd Hc. unfold create_per_day_indexes. rewrite Hr, Hd. cbn [negb assert_]. rewrite bind_Ok, Hc, bind_Ok. cbn zeta.
  refine (add_to_ok (E := E) _ (day_items false date t mn) (set_date_metric_id_cache db cache) _).
  unfold day_items. apply (register_tag_indexes_is _ _ NS_PREFIX_DATE_TAG_TO_METRIC_IDS date).
  change [date_id_row date (metric_id t); date_name_row date mn t] with ([date_id_row date (metric_id t)] ++ [date_name_row date mn t]).
  eapply ii_row; [do 5 push; eapply (ii_row _ []); [do 3 push; exact ii_is_default|]|].
  - unfold date_id_row. cbn [app]. by rewrite <-?app_assoc.
  - unfold date_name_row, tsid_bytes. rewrite tsid_marshal_app. cbn [app]. by rewrite <-?app_assoc.
Qed.

Lemma deleted_items_is part : forall ii xs, ii_is ii xs [] -> ii_is (deleted_items ii part) (xs ++ map deleted_row part) [].
Proof.
  unfold deleted_items. induction part as [|id part IH]; intros ii xs H; cbn [foldl map]; [by rewrite app_nil_r|]. rewrite cons_middle, app_assoc. apply IH.
  eapply ii_row; [do 2 push; exact H|done].
Qed.

(** Deleting a set of series. *)
Lemma save_deleted_ok {E} db s :
  wf_set (deleted_metric_ids db) -> wf_set s -> Forall is_u64 (set_items s) ->
  exists dmis cache, save_deleted_metric_ids (E := E) db s
    = Ok (set_tb (set_tag_filters_cache (set_deleted_metric_ids db dmis) cache) (idb_tb db ++ map deleted_row (set_items s))) /\
    wf_set dmis /\ forall id, id ∈ set_items dmis <-> id ∈ set_items (deleted_metric_ids db) \/ id ∈ set_items s.
Proof.
  intros Hd Hs Hu. unfold save_deleted_metric_ids. destruct (set_is_empty s) eqn:He.
  { apply set_is_empty_spec in He; [|done]. exists (deleted_metric_ids db), (tag_filters_to_metric_ids_cache db). rewrite He. cbn [map]. rewrite app_nil_r.
    split; [by destruct db|]. split; [done|]. intros id. rewrite elem_of_nil. tauto. }
  destruct (set_clone_spec (deleted_metric_ids db) Hd) as [Hc Hci].
  destruct (set_union_spec _ _ Hc Hs) as (dmis & Hu1 & Hw & Hi). unfold update_deleted_metric_ids. rewrite (lift_set_Ok _ _ Hu1), !bind_Ok.
  set (g := fun (ii : IndexItems) part => Ok (E := Empty_set) (deleted_items ii part)).
  rewrite (lift_set_Ok _ (deleted_items ii_default (set_items s))).
  2:{ rewrite (for_each_fold _ g); try done. intros ii l1 l2. unfold g. rewrite bind_Ok. unfold deleted_items. by rewrite foldl_app. }
  rewrite bind_Ok, (add_to_ok _ (map deleted_row (set_items s))) by exact (deleted_items_is (set_items s) ii_default [] ii_is_default).
  eexists dmis, _. split; [done|]. split; [done|]. intros id. by rewrite Hi, Hci.
Qed.

Lemma in_snoc {A} (x y : A) l : In x (l ++ [y]) <-> In x l \/ x = y.
Proof. rewrite in_app_iff. cbn. naive_solver. Qed.

Lemma deleted_by_snoc ops op id : deleted_by (ops ++ [op]) id <-> deleted_by ops id \/ exists ids, op = OpDelete ids /\ In id ids.
Proof. unfold deleted_by. setoid_rewrite in_snoc. naive_solver. Qed.

(** Every registration keeps the state of the database. *)
Lemma db_exec_op_ok {E} d ops db op : db_inv d ops db -> op_ok op -> exists db', exec_op (E := E) db op = Ok db' /\ db_inv d (ops ++ [op]) db' /\ idb_ctx db' = idb_ctx db.
Proof.
  intros [[Hd Hr] Hi Hm Hc [Hw Hx]] Hok.
  assert (Hids : mic_ok (fun id => exists t mn, In (OpGlobal t mn) (ops ++ [op]) /\ metric_id t = id) (metric_id_cache db)).
  { revert Hm. apply mic_ok_mono. setoid_rewrite in_snoc. naive_solver. }
  assert (Hdates : dmc_ok (fun dt id => d = false /\ exists t mn, In (OpDay dt t mn) (ops ++ [op]) /\ metric_id t = id) (date_metric_id_cache db)).
  { revert Hc. apply dmc_ok_mono. setoid_rewrite in_snoc. naive_solver. }
  assert (Hitems : forall tb, (forall x, In x tb <-> In x (idb_tb db) \/ In x (op_items d op)) -> forall x, In x tb <-> exists o, In o (ops ++ [op]) /\ In x (op_items d o)).
  { intros tb Htb x. rewrite Htb, Hi. setoid_rewrite in_snoc. naive_solver. }
  assert (Hdel : (forall ids, op <> OpDelete ids) -> forall id, id ∈ set_items (deleted_metric_ids db) <-> deleted_by (ops ++ [op]) id).
  { intros Hn id. rewrite Hx, deleted_by_snoc. naive_solver. }
  destruct op as [t mn|date t mn|ids]; cbn [exec_op op_ok] in *.
  - destruct Hok as [Ht _]. destruct (mic_set_ok (E := E) _ _ (metric_id t) Hids) as (cache & Hs & Hcache & _); [apply Ht|exists t, mn; rewrite in_snoc; auto|].
    rewrite (create_global_items _ _ _ _ Hr Hs), Hd. eexists. split; [done|]. split; [|done].
    split; cbn; [done|by apply Hitems; intros x; rewrite in_app_iff|done|done|split; [done|by apply Hdel]].
  - destruct Hok as (Hdt & Ht & _). destruct d.
    + unfold create_per_day_indexes. rewrite Hr, Hd. exists db. split; [done|]. split; [|done]. split; [done| |done|done|split; [done|by apply Hdel]].
      apply Hitems. intros x. cbn. tauto.
    + destruct (dmc_set_ok (E := E) _ _ date (metric_id t) Hdates) as (cache & Hs & Hcache & _); [apply Ht|split; [done|]; exists t, mn; rewrite in_snoc; auto|].
      rewrite (create_day_items _ _ _ _ _ Hr Hd Hs). eexists. split; [done|]. split; [|done].
      split; cbn; [done|by apply Hitems; intros x; rewrite in_app_iff|done|done|split; [done|by apply Hdel]].
  - destruct (set_add_multi_spec set_default ids) as (s & Ha & Hws & Hsi); [by repeat constructor|done|]. rewrite (lift_set_Ok _ _ Ha), bind_Ok.
    assert (Hsi' : forall v, v ∈ set_items s <-> In v ids).
    { intros v. rewrite Hsi, list_elem_of_In. change (set_items set_default) with (@nil Z). rewrite elem_of_nil. tauto. }
    destruct (save_deleted_ok (E := E) db s Hw Hws) as (dmis & cache & -> & Hwd & Hdi); [by apply set_items_u64|]. eexists. split; [done|]. split; [|done].
    split; cbn; [done| |done|done|split; [done|]].
    + apply Hitems. intros x. cbn. rewrite in_app_iff. apply or_iff_compat_l. rewrite !in_map_iff. setoid_rewrite <-list_elem_of_In at 1. setoid_rewrite Hsi'. done.
    + intros id. rewrite Hdi, Hx, Hsi', deleted_by_snoc. naive_solver.
Qed.

Lemma db_exec_ops_ok {E} d rest : forall ops db, db_inv d ops db -> Forall op_ok rest ->
  exists db', exec_ops (E := E) db rest = Ok db' /\ db_inv d (ops ++ rest) db' /\ idb_ctx db' = idb_ctx db.
Proof.
  induction rest as [|op rest IH]; intros ops db Hdb Hok; cbn [exec_ops]; [exists db; by rewrite app_nil_r|]. apply Forall_cons in Hok as [H1 H2].
  destruct (db_exec_op_ok (E := E) d ops db op Hdb H1) as (db1 & -> & Hdb1 & Hc). rewrite bind_Ok.
  destruct (IH _ db1 Hdb1 H2) as (db2 & He & Hdb2 & Hc2). exists db2. rewrite <-app_assoc in Hdb2. by rewrite Hc2.
Qed.

(** ** Which row is which *)

(** A row of an operation: a tag row, or one of the others by its namespace. *)
Lemma op_items_inv d op x : In x (op_items d op) ->
  (exists ns date id t, x = tag_row ns date id t /\ tag_ns ns) \/
  match op with
  | OpGlobal t mn => d = true /\ x = name_tsid_row mn t \/ x = id_name_row t mn \/ x = id_tsid_row t
  | OpDay date t mn => d = false /\ (x = date_id_row date (metric_id t) \/ x = date_name_row date mn t)
  | OpDelete ids => exists id, In id ids /\ x = deleted_row id
  end.
Proof.
  destruct op as [t mn|date t mn|ids]; cbn [op_items].
  - unfold global_items. rewrite !in_app_iff. intros [H|[H|H]].
    + destruct d; [|done]. destruct H as [<-|[]]. auto.
    + destruct H as [<-|[<-|[]]]; auto.
    + apply in_map_iff in H as (tg & <- & _). left. eexists _, _, _, _. split; [done|by left].
  - unfold day_items. destruct d; [done|]. rewrite in_app_iff. intros [[<-|[<-|[]]]|H]; [auto..|].
    apply in_map_iff in H as (tg & <- & _). left. eexists _, _, _, _. split; [done|by right].
  - intros (id & <- & Hid)%in_map_iff. right. eauto.
Qed.

(** The table shows the items [tb]: the same rows other than tag rows, and the
    same postings, joined to rows in any way. *)
Record shows (items tb : list (list Z)) : Prop := {
  sw_good : Forall good_item items;
  sw_postings : forall p, posting_in items p <-> posting_in tb p;
  sw_plain : forall x, plain_item x -> In x items <-> In x tb;
}.

Definition plain_ns (ns : Z) : Prop := ns <> NS_PREFIX_TAG_TO_METRIC_IDS /\ ns <> NS_PREFIX_DATE_TAG_TO_METRIC_IDS.

Lemma plain_head ns l : plain_ns ns -> plain_item (ns :: l).
Proof. intros [H1 H2]. split; intros [= ?]; done. Qed.

(** A shown row of another namespace belongs to an operation. *)
Lemma shown_row d ops db items ns l : db_inv d ops db -> shows items (idb_tb db) -> plain_ns ns ->
  In (ns :: l) items <-> exists op, In op ops /\ In (ns :: l) (op_items d op).
Proof. intros Hdb Hs Hns. rewrite (sw_plain _ _ Hs) by (by apply plain_head). apply (di_items _ _ _ Hdb). Qed.

Ltac row_cases H :=
  apply op_items_inv in H as [(?ns & ?dt & ?id & ?tg & H & [->| ->])|H]; [rewrite tag_row_bytes in H; discriminate H..|].

Lemma shown_deleted d ops db items id : db_inv d ops db -> shows items (idb_tb db) -> In (deleted_row id) items <-> exists id', deleted_by ops id' /\ to_be_bytes 8 id' = to_be_bytes 8 id.
Proof.
  intros Hdb Hs. unfold deleted_row. rewrite (shown_row d ops db) by done. split.
  - intros (op & Hop & Hx). row_cases Hx. destruct op as [t mn|date t mn|ids].
    + destruct Hx as [[_ Hx]|[Hx|Hx]]; discriminate Hx.
    + destruct Hx as [_ [Hx|Hx]]; discriminate Hx.
    + destruct Hx as (id' & Hin & [= He]). exists id'. split; [by exists ids|]. cbn. congruence.
  - intros (id' & (ids & Hop & Hin) & He). exists (OpDelete ids). split; [done|]. cbn [op_items]. apply in_map_iff. exists id'. unfold deleted_row. by rewrite He.
Qed.

Lemma shown_id_name d ops db items l : db_inv d ops db -> shows items (idb_tb db) ->
  In (NS_PREFIX_METRIC_ID_TO_METRIC_NAME :: l) items <-> exists t mn, In (OpGlobal t mn) ops /\ l = to_be_bytes 8 (metric_id t) ++ name_bytes mn.
Proof.
  intros Hdb Hs. rewrite (shown_row d ops db) by done. split.
  - intros (op & Hop & Hx). row_cases Hx. destruct op as [t mn|date t mn|ids].
    + destruct Hx as [[_ Hx]|[Hx|Hx]]; [discriminate Hx| |discriminate Hx]. injection Hx as ->. by exists t, mn.
    + destruct Hx as [_ [Hx|Hx]]; discriminate Hx.
    + destruct Hx as (id' & _ & Hx). discriminate Hx.
  - intros (t & mn & Hop & ->). exists (OpGlobal t mn). split; [done|]. cbn [op_items]. unfold global_items. rewrite !in_app_iff. right. left. by left.
Qed.

Lemma shown_id_tsid d ops db items l : db_inv d ops db -> shows items (idb_tb db) ->
  In (NS_PREFIX_METRIC_ID_TO_TSID :: l) items <-> exists t mn, In (OpGlobal t mn) ops /\ l = to_be_bytes 8 (metric_id t) ++ tsid_bytes t.
Proof.
  intros Hdb Hs. rewrite (shown_row d ops db) by done. split.
  - intros (op & Hop & Hx). row_cases Hx. destruct op as [t mn|date t mn|ids].
    + destruct Hx as [[_ Hx]|[Hx|Hx]]; [discriminate Hx..|]. injection Hx as ->. by exists t, mn.
    + destruct Hx as [_ [Hx|Hx]]; discriminate Hx.
    + destruct Hx as (id' & _ & Hx). discriminate Hx.
  - intros (t & mn & Hop & ->). exists (OpGlobal t mn). split; [done|]. cbn [op_items]. unfold global_items. rewrite !in_app_iff. right. left. right. by left.
Qed.

Lemma shown_date_id d ops db items l : db_inv d ops db -> shows items (idb_tb db) ->
  In (NS_PREFIX_DATE_TO_METRIC_ID :: l) items <-> d = false /\ exists date t mn, In (OpDay date t mn) ops /\ l = to_be_bytes 8 date ++ to_be_bytes 8 (metric_id t).
Proof.
  intros Hdb Hs. rewrite (shown_row d ops db) by done. split.
  - intros (op & Hop & Hx). row_cases Hx. destruct op as [t mn|date t mn|ids].
    + destruct Hx as [[_ Hx]|[Hx|Hx]]; discriminate Hx.
    + destruct Hx as [Hd [Hx|Hx]]; [|discriminate Hx]. injection Hx as ->. split; [done|]. by exists date, t, mn.
    + destruct Hx as (id' & _ & Hx). discriminate Hx.
  - intros (-> & date & t & mn & Hop & ->). exists (OpDay date t mn). split; [done|]. by left.
Qed.

(** The rows that lead from a name to identifiers. *)
Definition named (d : bool) (ops : list index_op) (date : Z) (mn : MetricName) (t : Tsid) : Prop :=
  if d then In (OpGlobal t mn) ops else In (OpDay date t mn) ops.

Definition name_key (d : bool) (date : Z) (name : list Z) : list Z :=
  (if d then [NS_PREFIX_METRIC_NAME_TO_TSID] else NS_PREFIX_DATE_METRIC_NAME_TO_TSID :: to_be_bytes 8 date) ++ name ++ [KV_SEPARATOR_CHAR].

Lemma name_bytes_inj mn mn' : name_bytes mn = name_bytes mn' -> mn = mn'.
Proof. intros H. pose proof (mn_unmarshal_bytes mn) as H1. rewrite H, mn_unmarshal_bytes in H1. by injection H1 as ->. Qed.

Lemma be8_inj a b : is_u64 a -> is_u64 b -> to_be_bytes 8 a = to_be_bytes 8 b -> a = b.
Proof. intros Ha Hb H. rewrite <-(from_to_be_bytes 8 a), <-(from_to_be_bytes 8 b) by done. by rewrite H. Qed.

(** Exactly the identifiers registered under a name are under its key. *)
Lemma shown_named d ops db items date mn x : db_inv d ops db -> shows items (idb_tb db) -> Forall op_ok ops -> is_u64 date ->
  In x items /\ name_key d date (name_bytes mn) `prefix_of` x <-> exists t, named d ops date mn t /\ x = name_key d date (name_bytes mn) ++ tsid_bytes t.
Proof.
  intros Hdb Hs Hok Hdt. assert (Hkey : forall a b tb l, name_bytes a ++ KV_SEPARATOR_CHAR :: tb = (name_bytes b ++ [KV_SEPARATOR_CHAR]) ++ l -> b = a /\ l = tb).
  { intros a b tb l. rewrite <-app_assoc. cbn [app]. intros [H1 H2]%split_at_char; [|apply name_bytes_no_kv..]. by apply name_bytes_inj in H1. }
  unfold name_key, named. destruct d.
  - split.
    + intros [Hx [l ->]]. cbn [app] in Hx |- *. apply (shown_row true ops db) in Hx as (op & Hop & Hx); [|done..]. row_cases Hx. destruct op as [t mn'|date' t mn'|ids].
      * destruct Hx as [[_ Hx]|[Hx|Hx]]; [|discriminate Hx..]. injection Hx as Hx. symmetry in Hx. apply Hkey in Hx as [-> ->]. by exists t.
      * destruct Hx as [Hd _]. done.
      * destruct Hx as (id' & _ & Hx). discriminate Hx.
    + intros (t & Hop & ->). split; [|by eexists]. cbn [app]. apply (shown_row true ops db); [done..|]. exists (OpGlobal t mn). split; [done|]. left.
      unfold name_tsid_row. f_equal. by rewrite <-app_assoc.
  - split.
    + intros [Hx [l ->]]. cbn [app] in Hx |- *. apply (shown_row false ops db) in Hx as (op & Hop & Hx); [|done..]. row_cases Hx. destruct op as [t mn'|date' t mn'|ids].
      * destruct Hx as [[Hd _]|[Hx|Hx]]; [done|discriminate Hx..].
      * destruct Hx as [_ [Hx|Hx]]; [discriminate Hx|]. apply (f_equal tail) in Hx. unfold date_name_row in Hx. cbn [tail] in Hx. rewrite <-app_assoc in Hx. apply app_inj_1 in Hx as [Hd Hx]; [|done].
        symmetry in Hx. apply Hkey in Hx as [-> ->]. exists t. split; [|done]. rewrite Forall_In in Hok. destruct (Hok _ Hop) as [Hu _]. by apply be8_inj in Hd as ->.
      * destruct Hx as (id' & _ & Hx). discriminate Hx.
    + intros (t & Hop & ->). split; [|by eexists]. cbn [app]. apply (shown_row false ops db); [done..|]. exists (OpDay date t mn). split; [done|]. right. left.
      unfold date_name_row. f_equal. by rewrite <-!app_assoc.
Qed.

(** ** Lookups *)

Section Lookups.
  Context {Xx : Xxh64} {T W : Type} {Tb : ItemTable T W} (items : list (list Z)) {L : ItemTableLaws T W items}.
  Context (d : bool) (ops : list index_op) (ops_ok : Forall op_ok ops).

Definition name_entry (key v : list Z) : Prop := exists t mn, In (OpGlobal t mn) ops /\ key = to_be_bytes 8 (metric_id t) /\ v = name_bytes mn.
Definition tsid_entry (key v : list Z) : Prop := exists t mn, In (OpGlobal t mn) ops /\ key = to_be_bytes 8 (metric_id t) /\ v = tsid_bytes t.

(** What holds between lookups, of the database, the cursor and the caches. *)
Record idx_ok (db : IndexDb) (self : IndexSearch T) (w : W) : Prop := {
  ix_db : db_inv d ops db;
  ix_names : wc_holds name_entry (metric_name_cache (idb_ctx db));
  ix_tsids : wc_holds tsid_entry (metric_id_to_tsid_cache (idb_ctx db));
  ix_shows : shows items (idb_tb db);
  ix_cursor : tl_any (is_ts self);
  ix_world : tl_world w;
}.

Lemma idx_ok_cursor db self w ts w' : idx_ok db self w -> tl_any ts -> tl_world w' -> idx_ok db (set_ts self ts) w'.
Proof. by intros [H1 H2 H3 H4 _ _] Ht Hw. Qed.

Lemma op_global_wf t mn : In (OpGlobal t mn) ops -> tsid_wf t.
Proof. intros H. rewrite Forall_In in ops_ok. by destruct (ops_ok _ H). Qed.

Lemma named_wf date mn t : named d ops date mn t -> tsid_wf t.
Proof.
  unfold named. rewrite Forall_In in ops_ok. destruct d; intros H; [by destruct (ops_ok _ H)|by destruct (ops_ok _ H) as (_ & ? & _)].
Qed.

(** The loop over the identifiers registered under a name. *)
Lemma tsid_by_name_loop_ok {E} dmis kb rest : wf_set dmis -> Forall (fun x => ~ kb `prefix_of` x) rest ->
  forall tss fuel dst ts w, Forall tsid_wf tss -> tl_at ts (map (fun t => kb ++ tsid_bytes t) tss ++ rest) -> tl_world w -> (length tss < fuel)%nat ->
  exists ts' w' dst' b, tsid_by_name_loop (E := E) fuel dmis kb dst ts w = Ok (ts', w', dst', b) /\ tl_any ts' /\ tl_world w' /\
    if b : bool then In dst' tss /\ metric_id dst' ∉ set_items dmis else forall t, In t tss -> metric_id t ∈ set_items dmis.
Proof.
  intros Hd Hrest. induction tss as [|t tss IH]; intros fuel dst ts w Hwf Hat Hw Hf; destruct fuel as [|fuel]; try (cbn in Hf; lia); cbn [tsid_by_name_loop map app] in *.
  - destruct (tl_next E ts w rest Hat Hw) as (ts1 & w1 & -> & Hw1 & Hat1 & Hi). rewrite bind_Ok. destruct rest as [|x rest].
    + rewrite (tl_at_error _ _ Hat1). exists ts1, w1, dst, false. split_and!; [done|by eapply tl_at_any|done|done].
    + rewrite (Hi E x eq_refl), bind_Ok. apply Forall_cons in Hrest as [Hx _]. rewrite (starts_with_no _ _ Hx). cbn [negb].
      exists ts1, w1, dst, false. split_and!; [done|by eapply tl_at_any|done|done].
  - apply Forall_cons in Hwf as [Ht Hwf].
    destruct (tl_next E ts w _ Hat Hw) as (ts1 & w1 & -> & Hw1 & Hat1 & Hi). rewrite bind_Ok, (Hi E _ eq_refl), bind_Ok, starts_with_yes by (by eexists).
    cbn [negb]. rewrite slice_from_app, bind_Ok. unfold tsid_bytes at 1. rewrite <-(app_nil_r (tsid_marshal t [])), tsid_unmarshal_app by done. cbn [length Nat.eqb assert_]. rewrite bind_Ok.
    rewrite (lift_set_Ok _ _ (set_has_spec dmis (metric_id t) Hd (proj2 (proj2 (proj2 Ht))))), bind_Ok.
    case_bool_decide as Hdel.
    + destruct (IH fuel t ts1 w1 Hwf Hat1 Hw1) as (ts' & w' & dst' & b & -> & Ha & Hw' & Hb); [cbn in Hf; lia|]. exists ts', w', dst', b. split_and!; [done|done|done|].
      destruct b; [destruct Hb; split; [by right|done]|]. intros t' [<-|Ht']; [done|by apply Hb].
    + exists ts1, w1, t, true. split_and!; [done|by eapply tl_at_any|done|by left|done].
Qed.

(** The items with a prefix as identifiers under it. *)
Lemma as_tsids kb (R : Tsid -> Prop) ps : (forall x, In x ps -> exists t, R t /\ x = kb ++ tsid_bytes t) -> exists tss, ps = map (fun t => kb ++ tsid_bytes t) tss /\ Forall R tss.
Proof.
  induction ps as [|x ps IH]; intros H; [by exists []|]. destruct IH as (tss & -> & Hr); [by intros y Hy; apply H; right|].
  destruct (H x ltac:(by left)) as (t & Ht & ->). exists (t :: tss). split; [done|by constructor].
Qed.

Lemma tsid_bytes_inj t t' : tsid_wf t -> tsid_wf t' -> tsid_bytes t = tsid_bytes t' -> t = t'.
Proof.
  unfold tsid_bytes. intros H H' He. pose proof (tsid_unmarshal_app t [] H) as H1. rewrite He, (tsid_unmarshal_app t' [] H') in H1. by injection H1 as ->.
Qed.

Lemma tsid_key_eq db name date : disable_per_day_index (idb_ctx db) = d -> tsid_by_name_key db name date = name_key d date name.
Proof. intros Hd. unfold tsid_by_name_key, name_key. rewrite Hd. destruct d; by rewrite <-!app_assoc. Qed.

Lemma get_tsid_by_metric_name_ok {E} fuel db self w dst mn date :
  idx_ok db self w -> is_u64 date -> (length items < fuel)%nat ->
  exists self' w' t b, get_tsid_by_metric_name (E := E) fuel db self w dst (name_bytes mn) date = Ok (self', w', t, b) /\ idx_ok db self' w' /\
    if b : bool then named d ops date mn t /\ ~ deleted_by ops (metric_id t) else forall t', named d ops date mn t' -> deleted_by ops (metric_id t').
Proof.
  intros Hx Hdt Hf. pose proof (ix_db _ _ _ Hx) as Hdb. destruct (di_deleted _ _ _ Hdb) as [Hw Hdel]. unfold get_tsid_by_metric_name.
  rewrite tsid_key_eq by apply Hdb. set (kb := name_key d date (name_bytes mn)) in *.
  destruct (tl_seek E _ kb w (ix_cursor _ _ _ Hx) (ix_world _ _ _ Hx)) as (ts1 & w1 & out & -> & Hw1 & Hat & Hfk). rewrite bind_Ok.
  destruct (from_key_split _ _ _ Hfk) as (ps & rest & -> & _ & Hrest & Hlen & _ & Hps).
  destruct (as_tsids kb (named d ops date mn) ps) as (tss & -> & Hnamed).
  { intros x Hin. apply Hps in Hin. by apply (shown_named d ops db items date mn x Hdb (ix_shows _ _ _ Hx) ops_ok Hdt). }
  rewrite length_map in Hlen. assert (Hwf : Forall tsid_wf tss) by (revert Hnamed; apply Forall_weaken; intros t; apply named_wf).
  destruct (tsid_by_name_loop_ok (E := E) _ kb rest Hw Hrest tss fuel dst ts1 w1 Hwf Hat Hw1 ltac:(lia)) as (ts2 & w2 & t & b & -> & Hany & Hw2 & Hb).
  rewrite bind_Ok. exists (set_ts self ts2), w2, t, b. split; [done|]. split; [by eapply idx_ok_cursor|]. rewrite Forall_In in Hnamed, Hwf. destruct b.
  - destruct Hb as [Hin Hnd]. split; [by apply Hnamed|]. intros Hd'. apply Hnd. by apply Hdel.
  - intros t' Ht'. apply Hdel, Hb. assert (Hin : In (kb ++ tsid_bytes t') (map (fun t => kb ++ tsid_bytes t) tss)).
    { apply Hps. apply (shown_named d ops db items date mn _ Hdb (ix_shows _ _ _ Hx) ops_ok Hdt). by exists t'. }
    apply in_map_iff in Hin as (t2 & He & Hin). apply app_inv_head in He. apply tsid_bytes_inj in He; [by subst|by apply Hwf|by eapply named_wf].
Qed.

Lemma id_prefix ns id id' (a b : list Z) : is_u64 id -> is_u64 id' -> (ns :: to_be_bytes 8 id) ++ a = ns :: to_be_bytes 8 id' ++ b -> id = id' /\ a = b.
Proof.
  intros Hi Hi' H. apply (f_equal tail) in H. rewrite <-app_comm_cons in H. cbn [tail] in H. apply app_inj_1 in H as [H ->]; [|done].
  split; [by apply be8_inj|done].
Qed.

(** The rows under a metric ID. *)
Lemma shown_names_of db self w id x : idx_ok db self w -> is_u64 id ->
  In x items /\ (NS_PREFIX_METRIC_ID_TO_METRIC_NAME :: to_be_bytes 8 id) `prefix_of` x <->
  exists t mn, In (OpGlobal t mn) ops /\ metric_id t = id /\ x = (NS_PREFIX_METRIC_ID_TO_METRIC_NAME :: to_be_bytes 8 id) ++ name_bytes mn.
Proof.
  intros Hx Hid. split.
  - intros [Hin [l ->]]. pose proof Hin as Hin'. rewrite <-app_comm_cons in Hin'. apply (shown_id_name d ops db) in Hin' as (t & mn & Hop & He); [|apply Hx..].
    destruct (id_prefix NS_PREFIX_METRIC_ID_TO_METRIC_NAME id (metric_id t) l (name_bytes mn)) as [-> ->]; [done|apply (op_global_wf t mn Hop)|by rewrite <-app_comm_cons, He|].
    by exists t, mn.
  - intros (t & mn & Hop & <- & ->). split; [|by eexists]. rewrite <-app_comm_cons. apply (shown_id_name d ops db); [apply Hx..|]. by exists t, mn.
Qed.

Lemma shown_tsids_of db self w id x : idx_ok db self w -> is_u64 id ->
  In x items /\ (NS_PREFIX_METRIC_ID_TO_TSID :: to_be_bytes 8 id) `prefix_of` x <->
  exists t mn, In (OpGlobal t mn) ops /\ metric_id t = id /\ x = (NS_PREFIX_METRIC_ID_TO_TSID :: to_be_bytes 8 id) ++ tsid_bytes t.
Proof.
  intros Hx Hid. split.
  - intros [Hin [l ->]]. pose proof Hin as Hin'. rewrite <-app_comm_cons in Hin'. apply (shown_id_tsid d ops db) in Hin' as (t & mn & Hop & He); [|apply Hx..].
    destruct (id_prefix NS_PREFIX_METRIC_ID_TO_TSID id (metric_id t) l (tsid_bytes t)) as [-> ->]; [done|apply (op_global_wf t mn Hop)|by rewrite <-app_comm_cons, He|].
    by exists t, mn.
  - intros (t & mn & Hop & <- & ->). split; [|by eexists]. rewrite <-app_comm_cons. apply (shown_id_tsid d ops db); [apply Hx..|]. by exists t, mn.
Qed.

Definition registered (id : Z) (t : Tsid) (mn : MetricName) : Prop := In (OpGlobal t mn) ops /\ metric_id t = id.

Lemma search_metric_name_ok {E} db self w dst id : idx_ok db self w -> is_u64 id ->
  exists self' w' v b, search_metric_name (E := E) self w dst id = Ok (self', w', v, b) /\ idx_ok db self' w' /\
    if b : bool then exists t mn, registered id t mn /\ v = dst ++ name_bytes mn else v = dst /\ forall t mn, ~ registered id t mn.
Proof.
  intros Hx Hid. unfold search_metric_name. change (marshal_uint64 (marshal_common_prefix [] NS_PREFIX_METRIC_ID_TO_METRIC_NAME) id) with (NS_PREFIX_METRIC_ID_TO_METRIC_NAME :: to_be_bytes 8 id).
  set (kb := NS_PREFIX_METRIC_ID_TO_METRIC_NAME :: to_be_bytes 8 id).
  destruct (tl_first E _ kb w (ix_cursor _ _ _ Hx) (ix_world _ _ _ Hx)) as (ts & w1 & r & -> & Hw1 & Hany & Hr & Hi). rewrite bind_Ok.
  destruct r as [y|]; cbn [least_with_prefix] in Hr.
  - destruct Hr as (Hy & Hp & _). destruct (proj1 (shown_names_of db self w id y Hx Hid) (conj Hy Hp)) as (t & mn & Hop & Hm & ->).
    rewrite (Hi E _ eq_refl), bind_Ok, slice_from_app, bind_Ok. eexists _, _, _, true. split; [done|]. split; [by eapply idx_ok_cursor|]. by exists t, mn.
  - eexists _, _, _, false. split; [done|]. split; [by eapply idx_ok_cursor|]. split; [done|]. intros t mn [Hop Hm].
    destruct (proj2 (shown_names_of db self w id (kb ++ name_bytes mn) Hx Hid)) as [Hin Hp]; [by exists t, mn|]. by apply (Hr _ Hin).
Qed.

Lemma get_tsid_by_metric_id_ok {E} db self w dst id : idx_ok db self w -> is_u64 id ->
  exists self' w' t b, get_tsid_by_metric_id (E := E) self w dst id = Ok (self', w', t, b) /\ idx_ok db self' w' /\
    if b : bool then exists mn, registered id t mn else t = dst /\ forall t mn, ~ registered id t mn.
Proof.
  intros Hx Hid. unfold get_tsid_by_metric_id. change (marshal_uint64 (marshal_common_prefix [] NS_PREFIX_METRIC_ID_TO_TSID) id) with (NS_PREFIX_METRIC_ID_TO_TSID :: to_be_bytes 8 id).
  set (kb := NS_PREFIX_METRIC_ID_TO_TSID :: to_be_bytes 8 id).
  destruct (tl_first E _ kb w (ix_cursor _ _ _ Hx) (ix_world _ _ _ Hx)) as (ts & w1 & r & -> & Hw1 & Hany & Hr & Hi). rewrite bind_Ok.
  destruct r as [y|]; cbn [least_with_prefix] in Hr.
  - destruct Hr as (Hy & Hp & _). destruct (proj1 (shown_tsids_of db self w id y Hx Hid) (conj Hy Hp)) as (t & mn & Hop & Hm & ->).
    rewrite (Hi E _ eq_refl), bind_Ok, slice_from_app, bind_Ok. unfold tsid_bytes. rewrite <-(app_nil_r (tsid_marshal t [])), tsid_unmarshal_app by (by eapply op_global_wf).
    eexists _, _, _, true. split; [done|]. split; [by eapply idx_ok_cursor|]. by exists mn.
  - eexists _, _, _, false. split; [done|]. split; [by eapply idx_ok_cursor|]. split; [done|]. intros t mn [Hop Hm].
    destruct (proj2 (shown_tsids_of db self w id (kb ++ tsid_bytes t) Hx Hid)) as [Hin Hp]; [by exists t, mn|]. by apply (Hr _ Hin).
Qed.

Lemma has_metric_id_slow_ok {E} db self w id : idx_ok db self w -> is_u64 id ->
  exists self' w' b, has_metric_id_slow (E := E) self w id = Ok (self', w', b) /\ idx_ok db self' w' /\ (b = true <-> exists t mn, registered id t mn).
Proof.
  intros Hx Hid. unfold has_metric_id_slow. change (marshal_uint64 (marshal_common_prefix [] NS_PREFIX_METRIC_ID_TO_TSID) id) with (NS_PREFIX_METRIC_ID_TO_TSID :: to_be_bytes 8 id).
  set (kb := NS_PREFIX_METRIC_ID_TO_TSID :: to_be_bytes 8 id).
  destruct (tl_first E _ kb w (ix_cursor _ _ _ Hx) (ix_world _ _ _ Hx)) as (ts & w1 & r & -> & Hw1 & Hany & Hr & Hi). rewrite bind_Ok.
  destruct r as [y|]; cbn [least_with_prefix] in Hr.
  - destruct Hr as (Hy & Hp & _). destruct (proj1 (shown_tsids_of db self w id y Hx Hid) (conj Hy Hp)) as (t & mn & Hop & Hm & ->).
    eexists _, _, true. split; [done|]. split; [by eapply idx_ok_cursor|]. split; [|done]. intros _. by exists t, mn.
  - eexists _, _, false. split; [done|]. split; [by eapply idx_ok_cursor|]. split; [done|]. intros (t & mn & Hop & Hm).
    destruct (proj2 (shown_tsids_of db self w id (kb ++ tsid_bytes t) Hx Hid)) as [Hin Hp]; [by exists t, mn|]. by destruct (Hr _ Hin).
Qed.

Lemma has_metric_id_ok {E} db self w id : idx_ok db self w -> is_u64 id ->
  exists db' self' w' b, has_metric_id (E := E) db self w id = Ok (db', self', w', b) /\ idx_ok db' self' w' /\ (b = true <-> exists t mn, registered id t mn).
Proof.
  intros Hx Hid. unfold has_metric_id. destruct Hx as [[Hf Hit Hmi Hdm Hdel] Hn Ht Hs Hc Hw]. destruct (mic_has_ok (E := E) _ _ id Hmi Hid) as (b & -> & Hb). rewrite bind_Ok.
  destruct b; [exists db, self, w, true; split; [done|]; split; [by split|]; by split; [intros _; apply Hb|]|].
  destruct (has_metric_id_slow_ok (E := E) db self w id) as (self1 & w1 & b & -> & Hx1 & Hb1); [by split|done|]. rewrite bind_Ok.
  destruct b; [|by exists db, self1, w1, false]. destruct (mic_set_ok (E := E) _ _ id Hmi Hid) as (c & -> & Hc1 & _); [by apply Hb1|]. rewrite bind_Ok.
  eexists _, self1, w1, true. split; [done|]. split; [|by split; [intros _; apply Hb1|]]. destruct Hx1 as [_ _ _ _ Hc2 Hw2]. by split.
Qed.

Lemma shown_date_key db self w date id x : idx_ok db self w -> is_u64 date -> is_u64 id ->
  In x items /\ date_id_row date id `prefix_of` x <-> d = false /\ x = date_id_row date id /\ exists t mn, In (OpDay date t mn) ops /\ metric_id t = id.
Proof.
  intros Hx Hdt Hid. unfold date_id_row. split.
  - intros [Hin [l ->]]. pose proof Hin as Hin'. rewrite <-app_comm_cons in Hin'. apply (shown_date_id d ops db) in Hin' as (Hd & date' & t & mn & Hop & He); [|apply Hx..].
    rewrite Forall_In in ops_ok. destruct (ops_ok _ Hop) as (Hu & Ht & _). rewrite <-app_assoc in He. apply app_inj_1 in He as [H1 He]; [|done]. apply be8_inj in H1 as ->; [|done..].
    rewrite <-(app_nil_r (to_be_bytes 8 (metric_id t))) in He. apply app_inj_1 in He as [H2 ->]; [|done]. apply be8_inj in H2 as ->; [|done|apply Ht].
    rewrite app_nil_r. split; [done|]. split; [done|]. by exists t, mn.
  - intros (Hd & -> & t & mn & Hop & <-). split; [|done]. apply (shown_date_id d ops db); [apply Hx..|]. split; [done|]. by exists date, t, mn.
Qed.

Lemma has_date_metric_id_ok {E} db self w date id : idx_ok db self w -> is_u64 date -> is_u64 id ->
  exists db' self' w' b, has_date_metric_id (E := E) db self w date id = Ok (db', self', w', b) /\ idx_ok db' self' w' /\
    (b = true <-> d = false /\ exists t mn, In (OpDay date t mn) ops /\ metric_id t = id).
Proof.
  intros Hx Hdt Hid. unfold has_date_metric_id. pose proof Hx as [[Hf Hit Hmi Hdm Hdel] Hn Ht Hs Hc Hw]. destruct (dmc_has_ok (E := E) _ _ date id Hdm Hid) as (b & -> & Hb). rewrite bind_Ok.
  destruct b; [exists db, self, w, true; split; [done|]; split; [done|]; by split; [intros _; apply Hb|]|].
  unfold has_date_metric_id_slow. change (marshal_uint64 (marshal_uint64 (marshal_common_prefix [] NS_PREFIX_DATE_TO_METRIC_ID) date) id) with (date_id_row date id).
  destruct (tl_first E _ (date_id_row date id) w Hc Hw) as (ts & w1 & r & -> & Hw1 & Hany & Hr & Hi). rewrite bind_Ok.
  destruct r as [y|]; cbn [least_with_prefix] in Hr.
  - destruct Hr as (Hy & Hp & _). destruct (proj1 (shown_date_key db self w date id y Hx Hdt Hid) (conj Hy Hp)) as (Hd & -> & Hop).
    rewrite (Hi E _ eq_refl), bind_Ok, bool_decide_true by done. cbn [assert_]. rewrite !bind_Ok.
    destruct (dmc_set_ok (E := E) _ _ date id Hdm Hid) as (c & -> & Hc1 & _); [done|]. rewrite bind_Ok.
    eexists _, _, w1, true. split; [done|]. split; [by split|]. by split.
  - rewrite bind_Ok. eexists db, _, w1, false. split; [done|]. split; [by eapply idx_ok_cursor|]. split; [done|]. intros [Hd Hop].
    destruct (proj2 (shown_date_key db self w date id (date_id_row date id) Hx Hdt Hid)) as [Hin Hp]; [done|]. by destruct (Hr _ Hin).
Qed.

Lemma search_metric_name_with_cache_ok {E} db self w id : idx_ok db self w -> is_u64 id ->
  exists db' self' w' v b, search_metric_name_with_cache (E := E) db self w [] id = Ok (db', self', w', v, b) /\ idx_ok db' self' w' /\
    if b : bool then exists t mn, registered id t mn /\ v = name_bytes mn else v = [] /\ forall t mn, ~ registered id t mn.
Proof.
  intros Hx Hid. unfold search_metric_name_with_cache, get_metric_name_by_metric_id_from_cache. pose proof Hx as [Hdb Hn Ht Hs Hc Hw].
  assert (Hctx : forall c, db_inv d ops (set_ctx db (set_name_cache (idb_ctx db) c))) by (intros c; by destruct Hdb).
  destruct (wc_get_ok (E := E) _ _ (to_be_bytes 8 id) Hn) as (c & r & -> & Hc1 & Hr). rewrite !bind_Ok. destruct r as [v|].
  - rewrite bind_Ok. eexists _, self, w, _, true. split; [done|]. split; [by split|].
    destruct (Hr v eq_refl) as (t & mn & Hop & Hk & ->). exists t, mn. split; [split; [done|]|done]. symmetry. apply be8_inj; [done|by eapply op_global_wf|done].
  - rewrite bind_Ok. set (db1 := set_ctx db (set_name_cache (idb_ctx db) c)). assert (Hx1 : idx_ok db1 self w) by (split; [apply Hctx|exact Hc1|exact Ht|exact Hs|exact Hc|exact Hw]).
    destruct (search_metric_name_ok (E := E) db1 self w [] id Hx1 Hid) as (self2 & w2 & v & b & -> & Hx2 & Hb). rewrite bind_Ok. destruct b.
    + unfold put_metric_name_by_metric_id_to_cache. destruct Hb as (t & mn & [Hop Hm] & ->).
      destruct (wc_set_ok (E := E) name_entry name_entry c (to_be_bytes 8 id) (name_bytes mn) Hc1) as (c2 & Hset & Hc2 & _); [exists t, mn; by rewrite Hm|done|].
      cbn [app]. cbn [idb_ctx db1 set_ctx metric_name_cache set_name_cache]. rewrite Hset, !bind_Ok. eexists _, self2, w2, _, true. split; [done|]. split.
      * destruct Hx2 as [_ _ _ _ Ha Hb]. split; [by destruct Hdb|exact Hc2|exact Ht|exact Hs|exact Ha|exact Hb].
      * by exists t, mn.
    + eexists db1, self2, w2, v, false. split; [done|]. split; [done|]. exact Hb.
Qed.

(** Reading the deleted metric IDs back. *)
Lemma load_deleted_loop_ok kb rest : Forall (fun x => ~ kb `prefix_of` x) rest ->
  forall ids fuel dmis ts w, Forall is_u64 ids -> wf_set dmis -> tl_at ts (map (fun id => kb ++ to_be_bytes 8 id) ids ++ rest) -> tl_world w -> (length ids < fuel)%nat ->
  exists ts' w' dmis', load_deleted_loop fuel kb dmis ts w = Ok (ts', w', dmis') /\ tl_any ts' /\ tl_world w' /\ wf_set dmis' /\
    forall id, id ∈ set_items dmis' <-> In id ids \/ id ∈ set_items dmis.
Proof.
  intros Hrest. induction ids as [|id ids IH]; intros fuel dmis ts w Hu Hwf Hat Hw Hf; destruct fuel as [|fuel]; try (cbn in Hf; lia); cbn [load_deleted_loop map app] in *.
  - destruct (tl_next load_error ts w rest Hat Hw) as (ts1 & w1 & -> & Hw1 & Hat1 & Hi). rewrite bind_Ok. pose proof (tl_at_error _ _ Hat1) as He. destruct rest as [|x rest].
    + rewrite He. exists ts1, w1, dmis. split_and!; [done|by eapply tl_at_any|done|done|]. cbn. tauto.
    + rewrite (Hi load_error x eq_refl), bind_Ok. apply Forall_cons in Hrest as [Hx _]. rewrite (starts_with_no _ _ Hx). cbn [negb]. rewrite He.
      exists ts1, w1, dmis. split_and!; [done|by eapply tl_at_any|done|done|]. cbn. tauto.
  - apply Forall_cons in Hu as [Hid Hu].
    destruct (tl_next load_error ts w _ Hat Hw) as (ts1 & w1 & -> & Hw1 & Hat1 & Hi). rewrite bind_Ok, (Hi load_error _ eq_refl), bind_Ok, starts_with_yes by (by eexists).
    cbn [negb]. rewrite slice_from_app, bind_Ok. rewrite guard_false by (by rewrite length_to_be_bytes). rewrite bind_Ok.
    assert (Hrd : unmarshal_uint64 (E := load_error) (to_be_bytes 8 id) = Ok id).
    { unfold unmarshal_uint64, read_be. rewrite decide_True by (by rewrite length_to_be_bytes). rewrite take_ge by (by rewrite length_to_be_bytes). by rewrite from_to_be_bytes. }
    rewrite Hrd, bind_Ok. destruct (set_add_spec dmis id Hwf Hid) as (dmis1 & Ha & Hwf1 & Hi1). rewrite (lift_set_Ok _ _ Ha), bind_Ok.
    destruct (IH fuel dmis1 ts1 w1 Hu Hwf1 Hat1 Hw1) as (ts' & w' & dmis' & -> & Hany & Hw' & Hwf' & Hi'); [cbn in Hf; lia|].
    exists ts', w', dmis'. split_and!; try done. intros x. rewrite Hi', Hi1. cbn. naive_solver.
Qed.

Lemma load_deleted_metric_ids_ok fuel db self w : idx_ok db self w -> (length items < fuel)%nat ->
  exists self' w' dmis, load_deleted_metric_ids fuel self w = Ok (self', w', dmis) /\ idx_ok db self' w' /\ wf_set dmis /\
    forall id, id ∈ set_items dmis <-> id ∈ set_items (deleted_metric_ids db).
Proof.
  intros Hx Hf. unfold load_deleted_metric_ids. set (kb := [NS_PREFIX_DELETED_METRIC_ID]).
  destruct (tl_seek load_error _ kb w (ix_cursor _ _ _ Hx) (ix_world _ _ _ Hx)) as (ts1 & w1 & out & -> & Hw1 & Hat & Hfk). rewrite bind_Ok.
  destruct (from_key_split _ _ _ Hfk) as (ps & rest & -> & _ & Hrest & Hlen & _ & Hps).
  assert (Hall : forall x, In x ps <-> exists id, deleted_by ops id /\ x = kb ++ to_be_bytes 8 id).
  { intros x. rewrite Hps. split.
    - intros [Hin [l ->]]. pose proof Hin as Hin'. cbn [app kb] in Hin'. apply (shown_row d ops db) in Hin' as (op & Hop & Hr); [|apply Hx..|done].
      row_cases Hr. destruct op as [t mn|date t mn|ids].
      + destruct Hr as [[_ Hr]|[Hr|Hr]]; discriminate Hr.
      + destruct Hr as [_ [Hr|Hr]]; discriminate Hr.
      + destruct Hr as (id & Hid & Hr). exists id. split; [by exists ids|]. apply (f_equal tail) in Hr. cbn [tail deleted_row] in Hr. by rewrite Hr.
    - intros (id & (ids & Hop & Hid) & ->). split; [|by eexists]. apply (shown_row d ops db); [apply Hx..|done|]. exists (OpDelete ids). split; [done|].
      apply in_map_iff. by exists id. }
  assert (Hids : exists ids, ps = map (fun id => kb ++ to_be_bytes 8 id) ids /\ Forall (deleted_by ops) ids).
  { assert (Hsub : forall x, In x ps -> exists id, deleted_by ops id /\ x = kb ++ to_be_bytes 8 id) by (intros x; apply Hall). clear -Hsub.
    induction ps as [|x ps IH]; [by exists []|]. destruct IH as (ids & -> & Hr); [by intros y Hy; apply Hsub; right|].
    destruct (Hsub x ltac:(by left)) as (id & Hid & ->). exists (id :: ids). split; [done|by constructor]. }
  destruct Hids as (ids & -> & Hdel). rewrite length_map in Hlen.
  assert (Hu : forall id, deleted_by ops id -> is_u64 id).
  { intros id (l & Hop & Hid). rewrite Forall_In in ops_ok. specialize (ops_ok _ Hop). cbn in ops_ok. rewrite Forall_In in ops_ok. by apply ops_ok. }
  destruct (load_deleted_loop_ok kb rest Hrest ids fuel set_default ts1 w1) as (ts2 & w2 & dmis & -> & Hany & Hw2 & Hwf & Hi); [by revert Hdel; apply Forall_weaken|by repeat constructor|done|done|lia|].
  rewrite bind_Ok. eexists _, w2, dmis. split; [done|]. split; [by eapply idx_ok_cursor|]. split; [done|]. intros id. rewrite Hi, (proj2 (di_deleted _ _ _ (ix_db _ _ _ Hx))).
  change (set_items set_default) with (@nil Z). rewrite elem_of_nil. rewrite Forall_In in Hdel. split; [intros [H|[]]; by apply Hdel|]. intros Hd. left.
  assert (Hin : In (kb ++ to_be_bytes 8 id) (map (fun id => kb ++ to_be_bytes 8 id) ids)) by (apply Hall; by exists id).
  apply in_map_iff in Hin as (id' & He & Hin). apply app_inv_head, be8_inj in He; [by subst|apply Hu, Hdel, Hin|by apply Hu].
Qed.
End Lookups.

(** ** Written items are good rows *)

Lemma name_index_tags_ok mn t : name_ok mn -> In t (index_tags mn) -> bytes (t_key t) /\ bytes (t_value t).
Proof.
  intros [Hg Ht Hl]. unfold index_tags. rewrite Forall_In in Ht. intros [<-|H]; [split; [constructor|done]|]. rewrite !in_app_iff in H. destruct H as [H|[H|H]].
  - destruct (existsb _ _); [|done]. destruct H as [<-|[]]. split; [by repeat constructor|]. apply Forall_reverse, Hg.
  - by apply Ht.
  - apply in_map_iff in H as (t' & <- & H'). destruct (Ht t' H') as [Hk Hv]. split; [|done]. unfold composite_tag, marshal_composite_tag_key, marshal_var_uint64. cbn [t_key app].
    rewrite append_var_uint64_leb128 by (unfold is_u; lia). cbn [app]. constructor; [done|]. rewrite !bytes_app. split; [split; [apply leb128_bytes; unfold is_u; lia|done]|done].
Qed.

Lemma tag_row_ok ns date id t : tag_ns ns -> is_u64 date -> (ns = NS_PREFIX_TAG_TO_METRIC_IDS -> date = 0) -> is_u64 id -> bytes (t_key t) -> bytes (t_value t) ->
  row_ok (mkRow ns date t [id]).
Proof. intros. split; cbn; try done. by constructor. Qed.

Lemma op_items_good d op x : op_ok op -> In x (op_items d op) -> good_item x.
Proof.
  intros Hok Hx (ns & Hh & Hns). assert (Hno : forall ns' l, x = ns' :: l -> plain_ns ns' -> False).
  { intros ns' l -> [H1 H2]. injection Hh as ->. by destruct Hns. }
  destruct op as [t mn|date t mn|ids]; cbn [op_items op_ok] in *.
  - destruct Hok as [Ht Hm]. unfold global_items in Hx. rewrite !in_app_iff in Hx. destruct Hx as [Hx|[Hx|Hx]].
    + destruct d; [|done]. destruct Hx as [<-|[]]. by destruct (Hno _ _ eq_refl).
    + destruct Hx as [<-|[<-|[]]]; by destruct (Hno _ _ eq_refl).
    + apply in_map_iff in Hx as (tg & <- & Htg). destruct (name_index_tags_ok _ _ Hm Htg). eexists. split; [|done].
      apply tag_row_ok; [by left|done|done|apply Ht|done|done].
  - destruct Hok as (Hd & Ht & Hm). unfold day_items in Hx. destruct d; [done|]. rewrite in_app_iff in Hx. destruct Hx as [[<-|[<-|[]]]|Hx]; [by destruct (Hno _ _ eq_refl)..|].
    apply in_map_iff in Hx as (tg & <- & Htg). destruct (name_index_tags_ok _ _ Hm Htg). eexists. split; [|done].
    apply tag_row_ok; [by right|done|done|apply Ht|done|done].
  - apply in_map_iff in Hx as (id & <- & _). by destruct (Hno _ _ eq_refl).
Qed.

(** A table that holds the written items in any order shows them. *)
Lemma shows_perm d ops db items : db_inv d ops db -> Forall op_ok ops -> items ≡ₚ idb_tb db -> shows items (idb_tb db).
Proof.
  intros Hdb Hok Hp. split.
  - apply Forall_In. intros x Hx. rewrite Hp in Hx. apply (di_items _ _ _ Hdb) in Hx as (op & Hop & Hx). rewrite Forall_In in Hok. by eapply op_items_good; [apply Hok|].
  - intros p. by apply posting_in_perm.
  - intros x _. by rewrite Hp.
Qed.

(** ** Theorems *)

Inductive index_query : Type :=
| QByName (mn : MetricName) (date : Z)
| QName (id : Z)
| QTsid (id : Z)
| QHas (id : Z)
| QHasDate (date id : Z).

Inductive index_answer : Type :=
| ATsid (t : option Tsid)
| AName (v : option (list Z))
| AFound (b : bool).

Definition query_ok (q : index_query) : Prop :=
  match q with
  | QByName _ date => is_u64 date
  | QName id | QTsid id | QHas id => is_u64 id
  | QHasDate date id => is_u64 date /\ is_u64 id
  end.

Section Queries.
  Context {Xx : Xxh64} {T W : Type} {Tb : ItemTable T W}.

Definition exec_query {E} (fuel : nat) (db : IndexDb) (self : IndexSearch T) (w : W) (q : index_query) : res E (IndexDb * IndexSearch T * W * index_answer) :=
  match q with
  | QByName mn date =>
      '(self, w, t, b) ← get_tsid_by_metric_name fuel db self w Tsid_default (mn_marshal mn []) date;
      Ok (db, self, w, ATsid (if b : bool then Some t else None))
  | QName id =>
      '(db, self, w, v, b) ← search_metric_name_with_cache db self w [] id;
      Ok (db, self, w, AName (if b : bool then Some v else None))
  | QTsid id =>
      '(self, w, t, b) ← get_tsid_by_metric_id self w Tsid_default id;
      Ok (db, self, w, ATsid (if b : bool then Some t else None))
  | QHas id => '(db, self, w, b) ← has_metric_id db self w id; Ok (db, self, w, AFound b)
  | QHasDate date id => '(db, self, w, b) ← has_date_metric_id db self w date id; Ok (db, self, w, AFound b)
  end.

Fixpoint exec_queries {E} (fuel : nat) (db : IndexDb) (self : IndexSearch T) (w : W) (qs : list index_query)
    : res E (IndexDb * IndexSearch T * W * list index_answer) :=
  match qs with
  | [] => Ok (db, self, w, [])
  | q :: qs =>
      '(db, self, w, a) ← exec_query fuel db self w q;
      '(db, self, w, l) ← exec_queries fuel db self w qs;
      Ok (db, self, w, a :: l)
  end.
End Queries.

(** The right answers after the operations [ops]. *)
Definition answer_ok (d : bool) (ops : list index_op) (q : index_query) (a : index_answer) : Prop :=
  match q, a with
  | QByName mn date, ATsid (Some t) => named d ops date mn t /\ ~ deleted_by ops (metric_id t)
  | QByName mn date, ATsid None => forall t, named d ops date mn t -> deleted_by ops (metric_id t)
  | QName id, AName (Some v) => exists t mn, registered ops id t mn /\ v = name_bytes mn
  | QName id, AName None => forall t mn, ~ registered ops id t mn
  | QTsid id, ATsid (Some t) => exists mn, registered ops id t mn
  | QTsid id, ATsid None => forall t mn, ~ registered ops id t mn
  | QHas id, AFound b => b = true <-> exists t mn, registered ops id t mn
  | QHasDate date id, AFound b => b = true <-> d = false /\ exists t mn, In (OpDay date t mn) ops /\ metric_id t = id
  | _, _ => False
  end.

Lemma new_index_db_ok name d mints mem : db_inv d [] (new_index_db name d mints mem).
Proof.
  split; [done| |apply mic_new_ok|apply dmc_new_ok|].
  - intros x. cbn. split; [done|]. by intros (? & [] & _).
  - split; [by repeat constructor|]. intros id. cbn. change (set_items set_default) with (@nil Z). rewrite elem_of_nil. split; [done|]. by intros (? & [] & _).
Qed.

Lemma exec_queries_ok {Xx : Xxh64} {T W} {Tb : ItemTable T W} (items : list (list Z)) {L : ItemTableLaws T W items} {E} d ops fuel qs :
  Forall op_ok ops -> (length items < fuel)%nat -> Forall query_ok qs -> forall db (self : IndexSearch T) (w : W), idx_ok items d ops db self w ->
  exists db' self' w' l, exec_queries (E := E) fuel db self w qs = Ok (db', self', w', l) /\ idx_ok items d ops db' self' w' /\ Forall2 (answer_ok d ops) qs l.
Proof.
  intros Hok Hf. induction 1 as [|q qs Hq Hqs IH]; intros db self w Hx; cbn [exec_queries]; [by exists db, self, w, []|].
  assert (Hone : exists db1 self1 w1 a, exec_query (E := E) fuel db self w q = Ok (db1, self1, w1, a) /\ idx_ok items d ops db1 self1 w1 /\ answer_ok d ops q a).
  { destruct q as [mn date|id|id|id|date id]; cbn [exec_query query_ok] in *.
    - rewrite mn_marshal_bytes, app_nil_l. destruct (get_tsid_by_metric_name_ok (E := E) items d ops Hok fuel db self w Tsid_default mn date Hx Hq Hf) as (s1 & w1 & t & b & -> & Hx1 & Hb).
      rewrite bind_Ok. eexists db, s1, w1, _. split; [done|]. split; [done|]. by destruct b.
    - destruct (search_metric_name_with_cache_ok (E := E) items d ops Hok db self w id Hx Hq) as (db1 & s1 & w1 & v & b & -> & Hx1 & Hb). rewrite bind_Ok.
      eexists db1, s1, w1, _. split; [done|]. split; [done|]. destruct b; [done|by destruct Hb].
    - destruct (get_tsid_by_metric_id_ok (E := E) items d ops Hok db self w Tsid_default id Hx Hq) as (s1 & w1 & t & b & -> & Hx1 & Hb). rewrite bind_Ok.
      eexists db, s1, w1, _. split; [done|]. split; [done|]. destruct b; [done|by destruct Hb].
    - destruct (has_metric_id_ok (E := E) items d ops Hok db self w id Hx Hq) as (db1 & s1 & w1 & b & -> & Hx1 & Hb). rewrite bind_Ok. by eexists db1, s1, w1, _.
    - destruct Hq as [Hd Hi]. destruct (has_date_metric_id_ok (E := E) items d ops Hok db self w date id Hx Hd Hi) as (db1 & s1 & w1 & b & -> & Hx1 & Hb). rewrite bind_Ok.
      by eexists db1, s1, w1, _. }
  destruct Hone as (db1 & s1 & w1 & a & -> & Hx1 & Ha). rewrite bind_Ok. destruct (IH db1 s1 w1 Hx1) as (db2 & s2 & w2 & l & -> & Hx2 & Hl). rewrite bind_Ok.
  exists db2, s2, w2, (a :: l). split; [done|]. split; [done|by constructor].
Qed.

Lemma start_ok {Xx : Xxh64} {T W} {Tb : ItemTable T W} (items : list (list Z)) {L : ItemTableLaws T W items} d ops db name mints mem ts (w : W) mp deadline :
  db_inv d ops db -> idb_ctx db = idb_ctx (new_index_db name d mints mem) -> shows items (idb_tb db) -> tl_any ts -> tl_world w ->
  idx_ok items d ops db (mkIndexSearch ts mp deadline) w.
Proof. intros Hdb Hc Hs Ht Hw. split; try done; rewrite Hc; apply wc_new_ok. Qed.

(** The index finds exactly what was registered.  Any sequence of
    registrations (global and per day) and deletions on a new database, with
    or without the per-day index, ends without panic.  Over any table that
    shows the written items, with tag rows joined in any way, any sequence of
    lookups then ends without panic and answers right, whatever the caches
    have picked up on the way: the lookup by name finds an identifier
    registered under exactly that name (and day) that is not deleted, and
    nothing exactly when all are deleted; the lookups by metric ID find the
    name and the identifier registered for it; membership is exact. *)
Lemma queries_exact {Xx : Xxh64} (name : list Z) (d : bool) (mints mem deadline : Z) (ops : list index_op) (qs : list index_query) :
  Forall op_ok ops -> Forall query_ok qs ->
  exists db, exec_ops (E := Empty_set) (new_index_db name d mints mem) ops = Ok db /\
    forall (T W : Type) (Tb : ItemTable T W) (items : list (list Z)) (L : ItemTableLaws T W items) (ts : T) (w : W) (fuel : nat),
      shows items (idb_tb db) -> tl_any ts -> tl_world w -> (length items < fuel)%nat ->
      exists db' self' w' answers,
        exec_queries (E := Empty_set) fuel db (mkIndexSearch ts parser_default deadline) w qs = Ok (db', self', w', answers) /\
        Forall2 (answer_ok d ops) qs answers.
Proof.
  intros Hok Hq. destruct (db_exec_ops_ok (E := Empty_set) d ops [] _ (new_index_db_ok name d mints mem) Hok) as (db & He & Hdb & Hc). exists db. split; [done|].
  intros T W Tb items L ts w fuel Hs Ht Hw Hf.
  destruct (exec_queries_ok items (E := Empty_set) d ops fuel qs Hok Hf Hq db (mkIndexSearch ts parser_default deadline) w) as (db' & s' & w' & l & Hex & _ & Hl);
    [by apply (start_ok _ _ _ _ name mints mem)|]. by exists db', s', w', l.
Qed.

(** C20: Deletions survive a restart: reading the deletion rows of a table that
    shows the written items restores exactly the set of deleted metric IDs
    that the database had in memory. *)
Theorem deleted_ids_reloaded {Xx : Xxh64} (name : list Z) (d : bool) (mints mem deadline : Z) (ops : list index_op) :
  Forall op_ok ops ->
  exists db, exec_ops (E := Empty_set) (new_index_db name d mints mem) ops = Ok db /\
    (forall id, id ∈ set_items (deleted_metric_ids db) <-> deleted_by ops id) /\
    forall (T W : Type) (Tb : ItemTable T W) (items : list (list Z)) (L : ItemTableLaws T W items) (ts : T) (w : W) (fuel : nat) name' mem',
      shows items (idb_tb db) -> tl_any ts -> tl_world w -> (length items < fuel)%nat ->
      exists db' w', must_load_deleted_metric_ids (E := Empty_set) fuel (new_index_db name' d mints mem') (mkIndexSearch ts parser_default deadline) w = Ok (db', w') /\
        forall id, id ∈ set_items (deleted_metric_ids db') <-> id ∈ set_items (deleted_metric_ids db).
Proof.
  intros Hok. destruct (db_exec_ops_ok (E := Empty_set) d ops [] _ (new_index_db_ok name d mints mem) Hok) as (db & He & Hdb & Hc). exists db. split; [done|].
  split; [apply (di_deleted _ _ _ Hdb)|]. intros T W Tb items L ts w fuel name' mem' Hs Ht Hw Hf.
  destruct (load_deleted_metric_ids_ok items d ops Hok fuel db (mkIndexSearch ts parser_default deadline) w) as (s' & w' & dmis & Hl & _ & _ & Hi);
    [by apply (start_ok _ _ _ _ name mints mem)|done|].
  unfold must_load_deleted_metric_ids. rewrite Hl. by eexists _, w'.
Qed.
