(* ===== verification/IndexDbTable.v ===== *)
(** * The index over written parts

    The lookups of [IndexDbSpec] on a real table: the items of registrations
    are in blocks that were written to parts, which are searched with the
    cursors and caches of the merge set. *)
From Stdlib Require Import ZArith Lia Bool Sorted Permutation.
From Stdlib Require Import String.
From stdpp Require Import base list.
From S2P Require Import Prelude IntCodec Compress Tsid MetricName ItemBlock ItemBlockSpec ItemHeader ItemStream BlockCache SearchBase ItemSearch ItemSearchSpec ItemPartSearch ItemTableSearch IndexRow IndexRowSpec Uint64Set Uint64SetSpec IndexCaches ItemTable IndexDb IndexDbSpec.
Local Open Scope Z_scope.

(** The items of the blocks of all parts. *)
Definition parts_items (bss : list (list InmemoryBlock)) : list (list Z) := concat (map (fun bs => concat (map block_items bs)) bss).

Section OverParts.
  Context `{Zs : Zstd} {Zl : ZstdLaws Zs} {Vi : CachedBlock (list BlockHeader)} {Vb : CachedBlock InmemoryBlock}.

(** Written parts are a table for the index. *)
Lemma parts_table bss ps cpus now max sparse :
  Forall good_blocks bss -> Forall2 opened bss ps -> NoDup (map p_id ps) -> 0 <= cpus <= 2 ^ 63 ->
  exists (L : ItemTableLaws TableSearch (Caches (TimedCache (list BlockHeader)) (TimedCache InmemoryBlock)) (parts_items bss)),
    tl_any (ItemTableLaws := L) (ts_new ps sparse) /\ tl_world (ItemTableLaws := L) (fresh_caches cpus now max).
Proof.
  intros Hg Ho Hnd Hc. destruct (opened_table bss ps Hg Ho Hnd) as (all & <- & Hit & Hok & Hids).
  assert (Hpi : parts_items bss = table_items all) by (unfold parts_items, table_items; by rewrite Hit). rewrite Hpi.
  exists (table_search_laws all Hok Hids). split; [apply new_table_pool|by apply fresh_caches_ok].
Qed.

(** C19: The index finds exactly what was registered.  Any sequence of
    registrations (global and per day) and deletions on a new database, with or
    without the per-day index, ends without panic; names are byte strings and
    identifiers are 64-bit numbers.  When blocks that show the written items (tag
    rows joined in any way) are in any number of parts with different ids, each
    written from sorted blocks none of which is full of one item repeated
    ([good_blocks]), any sequence of lookups through the cursors and caches, which
    start fresh and keep what they pick up on the way, ends without panic and
    answers right: the lookup by name finds an identifier registered under exactly
    that name (and day) that is not deleted, and nothing exactly when all are
    deleted.  The lookups by metric ID do not look at deletions: they find the
    name and the identifier registered for the metric ID, deleted or not, and
    nothing exactly when there is none; membership is that of the registered
    metric IDs. *)
Theorem index_finds_registered {Xx : Xxh64} (name : list Z) (d : bool) (mints mem deadline cpus : Z) (now max : nat -> Z) (sparse : bool)
    (ops : list index_op) (qs : list index_query) (bss : list (list InmemoryBlock)) (ps : list Part) :
  Forall op_ok ops -> Forall query_ok qs -> Forall good_blocks bss -> Forall2 opened bss ps -> NoDup (map p_id ps) -> 0 <= cpus <= 2 ^ 63 ->
  exists db, exec_ops (E := Empty_set) (new_index_db name d mints mem) ops = Ok db /\
    (shows (parts_items bss) (idb_tb db) ->
     exists db' self' w' answers,
       exec_queries (E := Empty_set) (S (length (parts_items bss))) db (mkIndexSearch (ts_new ps sparse) parser_default deadline)
         (fresh_caches cpus now max) qs = Ok (db', self', w', answers) /\
       Forall2 (answer_ok d ops) qs answers).
Proof.
  intros Hops Hqs Hg Ho Hnd Hc. destruct (queries_exact name d mints mem deadline ops qs Hops Hqs) as (db & He & Hq). exists db. split; [done|]. intros Hs.
  destruct (parts_table bss ps cpus now max sparse Hg Ho Hnd Hc) as (L & Ht & Hw).
  exact (Hq _ _ _ _ L (ts_new ps sparse) (fresh_caches cpus now max) (S (length (parts_items bss))) Hs Ht Hw ltac:(lia)).
Qed.
End OverParts.

Section Examples.
Local Instance index_size' : CachedBlock (list BlockHeader) := fun _ => 64.
Local Instance items_size' : CachedBlock InmemoryBlock := fun _ => 64.
Local Instance no_hash : Xxh64 := fun _ _ => 0.

Definition job_tag : Tag := tag_of "job"%string "api"%string.
Definition cpu_name : MetricName := mkMetricName (bytes_of_string "cpu.load"%string) [job_tag].
Definition mem_name : MetricName := mkMetricName (bytes_of_string "mem"%string) [job_tag].
Definition cpu_tsid : Tsid := mkTsid 7 8 0 1000.
Definition mem_tsid : Tsid := mkTsid 9 8 0 1001.

Definition example_ops : list index_op :=
  [OpGlobal cpu_tsid cpu_name; OpDay 19000 cpu_tsid cpu_name; OpGlobal mem_tsid mem_name; OpDay 19000 mem_tsid mem_name; OpDelete [1001]].

Definition example_queries : list index_query :=
  [QByName cpu_name 19000; QByName mem_name 19000; QName 1001; QName 1001; QTsid 1000; QHas 5; QHasDate 19000 1000; QHasDate 19001 1000].

Definition example_db : IndexDb := new_index_db [50; 52] false 0 1048576.

Definition example_items : list (list Z) :=
  sort_by lex_leb (match exec_ops (E := Empty_set) example_db example_ops with Ok db => idb_tb db | _ => [] end).

Definition example_block : InmemoryBlock := pack [] example_items.

Lemma example_ops_ok : Forall op_ok example_ops.
Proof.
  assert (Ht : tsid_wf cpu_tsid /\ tsid_wf mem_tsid) by (by apply (bool_decide_unpack _); vm_compute).
  assert (Hn : name_ok cpu_name /\ name_ok mem_name).
  { split; (split; [by apply (bool_decide_unpack _); vm_compute| |cbn; lia]); apply (bool_decide_unpack _); by vm_compute. }
  destruct Ht, Hn. repeat constructor; done.
Qed.

Lemma example_block_good : Forall good_blocks [[example_block]].
Proof.
  assert (Hi : map block_items [example_block] = [example_items]) by (by vm_compute).
  assert (Hs : sorted_items example_items) by (apply chain_sorted_items; by vm_compute).
  assert (Hl : exists x y xs, example_items = x :: y :: xs /\ x <> y) by (eexists _, _, _; split; [by vm_compute|done]).
  constructor; [|constructor]. split.
  - done.
  - constructor; [by apply (bool_decide_unpack _); vm_compute|constructor].
  - rewrite Hi. constructor; [|constructor]. split; [by vm_compute|apply (bool_decide_unpack _); by vm_compute|by vm_compute|by vm_compute|done].
  - rewrite Hi. cbn [concat]. by rewrite app_nil_r.
  - rewrite Hi. constructor; [|constructor]. destruct Hl as (x & y & xs & -> & Hne). right. exists x, y. split_and!; [by left|by right; left|done].
Qed.

Lemma blocks_part id bs :
  match open_blocks id bs with Ok (p, bufs) => small_bufs bufs | _ => False end ->
  exists p bufs, open_blocks id bs = Ok (p, bufs) /\ opened (Zs := stored_zstd) bs p.
Proof. destruct (open_blocks id bs) as [[p bufs]| |] eqn:H; [|done..]. exists p, bufs. split; [done|]. by eapply open_blocks_opened. Qed.

Lemma example_part : exists p bufs, open_blocks 1 [example_block] = Ok (p, bufs) /\ opened (Zs := stored_zstd) [example_block] p.
Proof. apply (blocks_part 1 [example_block]). vm_compute. by split_and!. Qed.

Lemma example_shown db : exec_ops (E := Empty_set) example_db example_ops = Ok db -> shows (parts_items [[example_block]]) (idb_tb db).
Proof.
  intros He. destruct (db_exec_ops_ok (E := Empty_set) false example_ops [] _ (new_index_db_ok [50; 52] false 0 1048576) example_ops_ok) as (db' & He' & Hdb & _).
  fold example_db in He'. rewrite He in He'. injection He' as <-. apply (shows_perm false example_ops); [done|apply example_ops_ok|].
  assert (Hp : parts_items [[example_block]] = example_items) by (by vm_compute). rewrite Hp. unfold example_items. rewrite He. apply sort_by_perm.
Qed.

Lemma index_finds_registered_witness :
  exists p bufs db db' self' w' answers,
    open_blocks 1 [example_block] = Ok (p, bufs) /\ exec_ops (E := Empty_set) example_db example_ops = Ok db /\
    exec_queries (E := Empty_set) (Tb := table_search_ops (Zs := stored_zstd)) (S (length (parts_items [[example_block]]))) db
      (mkIndexSearch (ts_new [p] false) parser_default 5) (fresh_caches 4 (fun _ => 1000) (fun _ => 1048576)) example_queries = Ok (db', self', w', answers) /\
    Forall2 (answer_ok false example_ops) example_queries answers.
Proof.
  destruct example_part as (p & bufs & Hp & Ho).
  destruct (index_finds_registered (Zl := stored_zstd_laws) [50; 52] false 0 1048576 5 4 (fun _ => 1000) (fun _ => 1048576) false example_ops example_queries [[example_block]] [p])
    as (db & He & Hq).
  - exact example_ops_ok.
  - repeat (apply Forall_cons; split; [cbn; unfold is_u; lia|]). constructor.
  - exact example_block_good.
  - repeat constructor. exact Ho.
  - apply NoDup_singleton.
  - lia.
  - destruct (Hq (example_shown db He)) as (db' & s & w & l & Hx & Hl). exists p, bufs, db, db', s, w, l. exact (conj Hp (conj He (conj Hx Hl))).
Defined.

Lemma deleted_ids_reloaded_witness :
  exists p bufs db db' w',
    open_blocks 1 [example_block] = Ok (p, bufs) /\ exec_ops (E := Empty_set) example_db example_ops = Ok db /\
    must_load_deleted_metric_ids (E := Empty_set) (Tb := table_search_ops (Zs := stored_zstd)) 100 example_db (mkIndexSearch (ts_new [p] false) parser_default 5)
      (fresh_caches 4 (fun _ => 1000) (fun _ => 1048576)) = Ok (db', w') /\
    forall id, id ∈ set_items (deleted_metric_ids db') <-> id ∈ set_items (deleted_metric_ids db).
Proof.
  destruct example_part as (p & bufs & Hp & Ho).
  destruct (parts_table (Zl := stored_zstd_laws) [[example_block]] [p] 4 (fun _ => 1000) (fun _ => 1048576) false example_block_good) as (L & Ht & Hw);
    [by repeat constructor|apply NoDup_singleton|lia|].
  destruct (deleted_ids_reloaded [50; 52] false 0 1048576 5 example_ops example_ops_ok) as (db & He & _ & Hl).
  destruct (Hl _ _ _ _ L (ts_new [p] false) (fresh_caches 4 (fun _ => 1000) (fun _ => 1048576)) 100%nat [50; 52] 1048576 (example_shown db He) Ht Hw) as (db' & w' & Hm & Hi).
  - apply Nat.ltb_lt. by vm_compute.
  - exists p, bufs, db, db', w'. exact (conj Hp (conj He (conj Hm Hi))).
Defined.
End Examples.
