(* ===== verification/TagFilter.v ===== *)
(** * Tag filters

    Model of [esm-storage/src/index/tag_filters.rs] and of the filter functions
    of [esm-storage/src/index/search.rs]: filters on the tags of a series, their
    conversion to composite filters and back, and their match against a metric
    name.  The caches of compiled expressions hold results of functions of the
    expression and are left out. *)
From Stdlib Require Import ZArith Lia Bool String.
From stdpp Require Import base list.
From S2P Require Import Prelude IntCodec MetricName ItemBlock IndexRow.
Local Open Scope Z_scope.

(** ** Regular expressions *)

(** The [regex] crate: [regex_new] compiles an expression, or rejects it, to
    [Regex::is_match] on bytes. *)
Class RegexEngine : Type := regex_new : list Z -> option (list Z -> bool).

(** What the filters ask of [esm_common::regexutil]: the literal prefix of an
    expression with the rest, and the plain alternatives of an expression. *)
Class RegexUtil : Type := {
  simplify_prom_regex : list Z -> list Z * list Z;
  get_or_values_prom_regex : list Z -> list (list Z);
}.

Definition FULL_MATCH_COST : Z := 1.
Definition PREFIX_MATCH_COST : Z := 2.
Definition LITERAL_MATCH_COST : Z := 3.
Definition SUFFIX_MATCH_COST : Z := 4.
Definition MIDDLE_MATCH_COST : Z := 6.
Definition RE_MATCH_COST : Z := 100.

Inductive filter_error : Type :=
| NotUtf8 (value : list Z)
| InvalidRegexp (expr : list Z)
| CannotInitFilter (e : filter_error)
| UnexpectedEnd (b : list Z)
| CannotMatch (tag : Tag) (e : filter_error).

(** [\x00], [\x01] and [\x02] with the digit of the escaped value. *)
Definition escaped_char (k : Z) : list Z := [92; 120; 48; 48; 48 + k].

Definition escape_byte (c : Z) : list Z := if (0 <=? c) && (c <=? 2) then escaped_char c else [c].

Fixpoint tag_chars_regexp_escape (src : list Z) : list Z :=
  match src with
  | [] => []
  | c :: src =>
      match src with
      | x :: z :: k :: rest =>
          if (c =? 92) && (x =? 120) && (z =? 48) && ((48 <=? k) && (k <=? 50)) then escaped_char (k - 48) ++ tag_chars_regexp_escape rest
          else escape_byte c ++ tag_chars_regexp_escape src
      | _ => escape_byte c ++ tag_chars_regexp_escape src
      end
  end.

(** [u8::from_str_radix] on two characters, which takes a plus sign. *)
Definition hex_digit (c : Z) : option Z :=
  if (48 <=? c) && (c <=? 57) then Some (c - 48)
  else if (65 <=? c) && (c <=? 70) then Some (c - 55)
  else if (97 <=? c) && (c <=? 102) then Some (c - 87)
  else None.

Definition hex_byte (a b : Z) : option Z :=
  if a =? 43 then hex_digit b
  else match hex_digit a, hex_digit b with
       | Some x, Some y => Some (16 * x + y)
       | _, _ => None
       end.

(** The characters with a meaning in an expression: [. + * ? ( ) | [ ] { } ^ $]. *)
Definition is_meta (c : Z) : bool := existsb (Z.eqb c) [46; 43; 42; 63; 40; 41; 124; 91; 93; 123; 125; 94; 36].

(** The ones that may follow a backslash: the above, the backslash, minus and slash. *)
Definition is_escapable (c : Z) : bool := is_meta c || existsb (Z.eqb c) [92; 45; 47].

Fixpoint parse_literal_loop (out src : list Z) : option (list Z) :=
  match src with
  | [] => Some out
  | c :: src =>
      if c =? 92 then
        match src with
        | [] => None
        | e :: src =>
            if e =? 120 then
              match src with
              | a :: b :: src => match hex_byte a b with Some v => parse_literal_loop (out ++ [v]) src | None => None end
              | _ => None
              end
            else if is_escapable e then parse_literal_loop (out ++ [e]) src
            else None
        end
      else if is_meta c then None
      else parse_literal_loop (out ++ [c]) src
  end.

Definition parse_regexp_literal (s : list Z) : option (list Z) := parse_literal_loop [] s.

Definition ends_with (b lit : list Z) : bool := (length lit <=? length b)%nat && bool_decide (drop (length b - length lit) b = lit).

Definition strip_prefix (b p : list Z) : option (list Z) := if starts_with b p then Some (drop (length p) b) else None.
Definition strip_suffix (b p : list Z) : option (list Z) := if ends_with b p then Some (take (length b - length p) b) else None.

(** [haystack.windows(n).any(|w| w == needle)]. *)
Fixpoint any_window (haystack needle : list Z) : bool :=
  if (length haystack <? length needle)%nat then false
  else starts_with haystack needle || match haystack with [] => false | _ :: haystack => any_window haystack needle end.

Definition contains (haystack needle : list Z) : bool :=
  match needle with
  | [] => true
  | _ => if (length haystack <? length needle)%nat then false else any_window haystack needle
  end.

Inductive Dot : Type := DotNone | DotStar | DotPlus.

Definition dot_star : list Z := [46; 42].
Definition dot_plus : list Z := [46; 43].

Definition get_optimized_re_match_func (re : list Z -> bool) (expr : list Z) : (list Z -> bool) * Z :=
  let '(head, rest) :=
    match strip_prefix expr dot_star with
    | Some rest => (DotStar, rest)
    | None => match strip_prefix expr dot_plus with Some rest => (DotPlus, rest) | None => (DotNone, expr) end
    end in
  let '(tail, middle) :=
    match strip_suffix rest dot_star with
    | Some middle => (DotStar, middle)
    | None => match strip_suffix rest dot_plus with Some middle => (DotPlus, middle) | None => (DotNone, rest) end
    end in
  let fallback := (re, RE_MATCH_COST) in
  let with_literal :=
    match parse_regexp_literal middle with
    | Some [] | None => fallback
    | Some lit =>
        match head, tail with
        | DotNone, DotNone => (fun b => bool_decide (b = lit), LITERAL_MATCH_COST)
        | DotNone, DotStar => (fun b => starts_with b lit, PREFIX_MATCH_COST)
        | DotNone, DotPlus => (fun b => (length lit <? length b)%nat && starts_with b lit, PREFIX_MATCH_COST)
        | DotStar, DotNone => (fun b => ends_with b lit, SUFFIX_MATCH_COST)
        | DotPlus, DotNone => (fun b => (length lit <? length b)%nat && ends_with (drop 1 b) lit, SUFFIX_MATCH_COST)
        | DotStar, DotStar => (fun b => contains b lit, MIDDLE_MATCH_COST)
        | DotStar, DotPlus => (fun b => (length lit <? length b)%nat && contains (take (length b - 1) b) lit, MIDDLE_MATCH_COST)
        | DotPlus, DotStar => (fun b => (length lit <? length b)%nat && contains (drop 1 b) lit, MIDDLE_MATCH_COST)
        | DotPlus, DotPlus => (fun b => (length lit + 1 <? length b)%nat && contains (drop 1 (take (length b - 1) b)) lit, MIDDLE_MATCH_COST)
        end
    end in
  match middle, tail, head with
  | [], DotNone, DotStar => (fun _ => true, FULL_MATCH_COST)
  | [], DotNone, DotPlus => (fun b => negb (length b =? 0)%nat, FULL_MATCH_COST)
  | _, _, _ => with_literal
  end.

Definition new_match_func_for_or_suffixes (or_values : list (list Z)) : (list Z -> bool) * Z :=
  let re_cost := as_u64 (Z.of_nat (length or_values) * LITERAL_MATCH_COST) in
  (fun b => existsb (fun v => bool_decide (b = v)) or_values, re_cost).

Record RegexpCacheValue : Type := mkRegexp { or_values : list (list Z); re_match : list Z -> bool; re_cost : Z }.

(** Valid UTF-8, as [std::str::from_utf8] decides it. *)
Definition cont_byte (b : Z) : bool := (128 <=? b) && (b <=? 191).

Fixpoint valid_utf8 (l : list Z) : bool :=
  match l with
  | [] => true
  | a :: l =>
      if a <=? 127 then valid_utf8 l
      else
        match l with
        | b :: l =>
            if (194 <=? a) && (a <=? 223) then cont_byte b && valid_utf8 l
            else
              match l with
              | c :: l =>
                  let second3 := if a =? 224 then (160 <=? b) && (b <=? 191) else if a =? 237 then (128 <=? b) && (b <=? 159) else cont_byte b in
                  if (224 <=? a) && (a <=? 239) then second3 && cont_byte c && valid_utf8 l
                  else
                    match l with
                    | d :: l =>
                        let second4 := if a =? 240 then (144 <=? b) && (b <=? 191) else if a =? 244 then (128 <=? b) && (b <=? 143) else cont_byte b in
                        (240 <=? a) && (a <=? 244) && second4 && cont_byte c && cont_byte d && valid_utf8 l
                    | [] => false
                    end
              | [] => false
              end
        | [] => false
        end
  end.

(** ** Filters *)

Record TagFilter : Type := mkTagFilter {
  tf_key : list Z;
  tf_value : list Z;
  tf_is_negative : bool;
  tf_is_regexp : bool;
  tf_match_cost : Z;
  tf_regexp_prefix : list Z;
  tf_prefix : list Z;
  tf_or_suffixes : list (list Z);
  tf_re_suffix_match : option (list Z -> bool);
  tf_is_empty_match : bool;
}.

Definition tf_is_composite (tf : TagFilter) : bool :=
  match tf_key tf with [] => false | c :: _ => c =? COMPOSITE_TAG_KEY_PREFIX end.

Definition tf_less (self other : TagFilter) : bool :=
  let is_composite_a := tf_is_composite self in
  let is_composite_b := tf_is_composite other in
  if negb (Bool.eqb is_composite_a is_composite_b) then is_composite_a
  else if negb (tf_match_cost self =? tf_match_cost other) then tf_match_cost self <? tf_match_cost other
  else if negb (Bool.eqb (tf_is_regexp self) (tf_is_regexp other)) then negb (tf_is_regexp self)
  else if negb (length (tf_or_suffixes self) =? length (tf_or_suffixes other))%nat then (length (tf_or_suffixes self) <? length (tf_or_suffixes other))%nat
  else if negb (Bool.eqb (tf_is_negative self) (tf_is_negative other)) then negb (tf_is_negative self)
  else lex_ltb (tf_prefix self) (tf_prefix other).

Definition tf_marshal (self : TagFilter) (dst : list Z) : list Z :=
  let dst := marshal_tag_value dst (tf_key self) in
  let dst := marshal_tag_value dst (tf_value self) in
  let dst := dst ++ [if tf_is_negative self then 1 else 0] in
  dst ++ [if tf_is_regexp self then 1 else 0].

(** [Vec::pop] drops the last item. *)
Definition marshal_tag_value_no_trailing_tag_separator (dst src : list Z) : list Z := removelast (marshal_tag_value dst src).

Section Init.
  Context {Re : RegexEngine} {Ru : RegexUtil}.

Definition get_regexp_from_cache (expr : list Z) : res filter_error RegexpCacheValue :=
  let escaped := tag_chars_regexp_escape expr in
  let expr_anchored := [94; 40; 63; 58] ++ escaped ++ [41; 36] in
  re ← ok_or (regex_new expr_anchored) (InvalidRegexp expr_anchored);
  let or_values := get_or_values_prom_regex escaped in
  let '(re_match, re_cost) :=
    match or_values with
    | [] => get_optimized_re_match_func re escaped
    | _ => new_match_func_for_or_suffixes or_values
    end in
  Ok (mkRegexp or_values re_match re_cost).

Definition tf_init (common_prefix key value : list Z) (is_negative is_regexp : bool) : res filter_error TagFilter :=
  let prefix0 := marshal_tag_value common_prefix key in
  '(value, is_regexp, regexp_prefix, prefix, expr) ←
    (if is_regexp then
       _ ← guard_ (negb (valid_utf8 value)) (NotUtf8 value);
       let '(p, e) := simplify_prom_regex value in
       match e with
       | [] => Ok (p, false, [], p, [])
       | _ => Ok (value, true, p, p, e)
       end
     else Ok (value, false, [], value, []));
  let tf_prefix := marshal_tag_value_no_trailing_tag_separator prefix0 prefix in
  if negb is_regexp then
    Ok (mkTagFilter key value is_negative false FULL_MATCH_COST regexp_prefix tf_prefix [[]] None (length prefix =? 0)%nat)
  else
    rcv ← get_regexp_from_cache expr;
    Ok (mkTagFilter key value is_negative true (re_cost rcv) regexp_prefix tf_prefix (or_values rcv) (Some (re_match rcv))
          ((length prefix =? 0)%nat && re_match rcv [])).
End Init.

Definition tf_match_suffix (self : TagFilter) (b : list Z) : res filter_error bool :=
  _ ← guard_ (match last b with Some c => negb (c =? TAG_SEPARATOR_CHAR) | None => true end) (UnexpectedEnd b);
  let b := removelast b in
  if negb (tf_is_regexp self) then Ok (length b =? 0)%nat
  else match tf_re_suffix_match self with Some re_match => Ok (re_match b) | None => Panic end.

Definition tf_matches (self : TagFilter) (b : list Z) : res filter_error bool :=
  if negb (starts_with b (tf_prefix self)) then Ok (tf_is_negative self)
  else
    suffix ← slice_from b (length (tf_prefix self));
    ok ← tf_match_suffix self suffix;
    if negb ok then Ok (tf_is_negative self) else Ok (negb (tf_is_negative self)).

(** ** Sets of filters *)

Record TagFilters : Type := mkTagFilters { tfs_tfs : list TagFilter; tfs_common_prefix : list Z }.

Definition tfs_new : TagFilters := mkTagFilters [] (marshal_common_prefix [] NS_PREFIX_TAG_TO_METRIC_IDS).

Section Add.
  Context {Re : RegexEngine} {Ru : RegexUtil}.

Definition tfs_add (self : TagFilters) (key value : list Z) (is_negative is_regexp : bool) : res filter_error TagFilters :=
  let '(value, is_negative, is_regexp) :=
    match value with
    | [] => (dot_plus, negb is_negative, true)
    | _ => (value, is_negative, is_regexp)
    end in
  if is_regexp && bool_decide (value = dot_star) && negb is_negative then Ok self
  else
    let value := if is_regexp && bool_decide (value = dot_star) then dot_plus else value in
    tf ← map_err CannotInitFilter (tf_init (tfs_common_prefix self) key value is_negative is_regexp);
    let self := mkTagFilters (tfs_tfs self ++ [tf]) (tfs_common_prefix self) in
    if tf_is_negative tf && tf_is_empty_match tf then
      tf_new ← map_err CannotInitFilter (tf_init (tfs_common_prefix self) key dot_plus false true);
      Ok (mkTagFilters (tfs_tfs self ++ [tf_new]) (tfs_common_prefix self))
    else Ok self.
End Add.

Definition tfs_reset (self : TagFilters) : TagFilters := mkTagFilters [] (marshal_common_prefix [] NS_PREFIX_TAG_TO_METRIC_IDS).

Definition get_metric_name_filter (tfs : TagFilters) : option (list Z) :=
  tf_value <$> find (fun tf => (length (tf_key tf) =? 0)%nat && negb (tf_is_negative tf) && negb (tf_is_regexp tf)) (tfs_tfs tfs).

Definition get_common_metric_name_for_tag_filterss (tfss : list TagFilters) : list Z :=
  match tfss with
  | [] => []
  | first :: rest =>
      let prev_name := get_metric_name_filter first in
      if forallb (fun tfs => bool_decide (get_metric_name_filter tfs = prev_name)) rest then default [] prev_name else []
  end.

(** ** Composite filters *)

(** The first loop of [convert_to_composite_tag_filters]: the metric names, the
    prefix they have in common and whether a filter on a tag is positive. *)
Definition collect_names (st : list (list Z) * list Z * bool) (tf : TagFilter) : list (list Z) * list Z * bool :=
  let '(names, name_prefix, has_positive_filter) := st in
  if (length (tf_key tf) =? 0)%nat then
    if negb (tf_is_negative tf) && negb (tf_is_regexp tf) then ([tf_value tf], name_prefix, has_positive_filter)
    else if negb (tf_is_negative tf) && tf_is_regexp tf && negb (length (tf_or_suffixes tf) =? 0)%nat then (tf_or_suffixes tf, tf_regexp_prefix tf, has_positive_filter)
    else st
  else if negb (tf_is_negative tf) && negb (tf_is_empty_match tf) then (names, name_prefix, true)
  else st.

Definition graphite_key : list Z := bytes_of_string "__graphite__"%string.

Section Composite.
  Context {Re : RegexEngine} {Ru : RegexUtil}.

(** One round of the loop over the filters for [name]: the filters so far and
    the number of composite ones. *)
Definition composite_step {E} (common_prefix name_prefix name : list Z) (st : list TagFilter * nat) (tf : TagFilter) : res E (list TagFilter * nat) :=
  let '(tfs_new, composite_filters) := st in
  if (length (tf_key tf) =? 0)%nat then
    if tf_is_negative tf then Ok (tfs_new ++ [tf], composite_filters)
    else if tf_is_regexp tf then
      if negb (existsb (fun s => bool_decide (s = name)) (tf_or_suffixes tf)) then Ok (tfs_new ++ [tf], composite_filters) else Ok st
    else if negb (bool_decide (tf_value tf = name)) then Ok (tfs_new ++ [tf], composite_filters) else Ok st
  else if bool_decide (tf_key tf = graphite_key) || bool_decide (tf_key tf = GRAPHITE_REVERSE_TAG_KEY) then Ok (tfs_new ++ [tf], composite_filters)
  else
    let name_with_prefix := name_prefix ++ name in
    let composite_key := marshal_composite_tag_key [] name_with_prefix (tf_key tf) in
    match tf_init common_prefix composite_key (tf_value tf) (tf_is_negative tf) (tf_is_regexp tf) with
    | Ok tf_new => Ok (tfs_new ++ [tf_new], S composite_filters)
    | _ => Panic
    end.

Fixpoint composite_steps {E} (common_prefix name_prefix name : list Z) (tfs : list TagFilter) (st : list TagFilter * nat) : res E (list TagFilter * nat) :=
  match tfs with
  | [] => Ok st
  | tf :: tfs => st ← composite_step common_prefix name_prefix name st tf; composite_steps common_prefix name_prefix name tfs st
  end.

(** The loop over the names; [None] when one gives no composite filter. *)
Fixpoint composite_names {E} (tfs : TagFilters) (name_prefix : list Z) (names : list (list Z)) : res E (option (list TagFilters)) :=
  match names with
  | [] => Ok (Some [])
  | name :: names =>
      '(tfs_new', composite_filters) ← composite_steps (tfs_common_prefix tfs) name_prefix name (tfs_tfs tfs) ([], 0%nat);
      if (composite_filters =? 0)%nat then Ok None
      else
        rest ← composite_names tfs name_prefix names;
        Ok (match rest with Some l => Some (mkTagFilters tfs_new' (tfs_common_prefix tfs_new) :: l) | None => None end)
  end.

Definition convert_to_composite_tag_filters {E} (tfs : TagFilters) : res E (list TagFilters) :=
  let '(names, name_prefix, has_positive_filter) := foldl collect_names ([], [], false) (tfs_tfs tfs) in
  if (length names =? 0)%nat || negb has_positive_filter then Ok [tfs]
  else
    compiled ← composite_names tfs name_prefix names;
    Ok (default [tfs] compiled).

Fixpoint convert_to_composite_tag_filterss {E} (tfss : list TagFilters) : res E (list TagFilters) :=
  match tfss with
  | [] => Ok []
  | tfs :: tfss =>
      a ← convert_to_composite_tag_filters tfs;
      b ← convert_to_composite_tag_filterss tfss;
      Ok (a ++ b)
  end.

(** [unmarshal_tag_value] of the key of a filter, which panics on an error. *)
Definition filter_key {E} (tf : TagFilter) (prefix : list Z) : res E (list Z) :=
  suffix ← slice_from (tf_prefix tf) (length prefix);
  match unmarshal_tag_value [] suffix with
  | Ok (tag_key, _) => Ok tag_key
  | _ => Panic
  end.

Fixpoint has_composite_tag_filters {E} (tfs : list TagFilter) (prefix : list Z) : res E bool :=
  match tfs with
  | [] => Ok false
  | tf :: tfs =>
      if negb (starts_with (tf_prefix tf) prefix) then has_composite_tag_filters tfs prefix
      else
        tag_key ← filter_key tf prefix;
        match tag_key with
        | c :: _ => if c =? COMPOSITE_TAG_KEY_PREFIX then Ok true else has_composite_tag_filters tfs prefix
        | [] => has_composite_tag_filters tfs prefix
        end
  end.

(** One round of [remove_composite_tag_filters]: the filters and the name so far. *)
Definition unfold_filter {E} (prefix : list Z) (st : list TagFilter * list Z) (tf : TagFilter) : res E (list TagFilter * list Z) :=
  let '(tfs_new, name) := st in
  if negb (starts_with (tf_prefix tf) prefix) then Ok (tfs_new ++ [tf], name)
  else
    tag_key ← filter_key tf prefix;
    match tag_key with
    | c :: tag_key_tail =>
        if negb (c =? COMPOSITE_TAG_KEY_PREFIX) then Ok (tfs_new ++ [tf], name)
        else
          match unmarshal_var_uint64 tag_key_tail with
          | Some (name_len, n_size) =>
              tag_key_tail ← slice_from tag_key_tail n_size;
              _ ← assert_ (0 <? name_len);
              _ ← assert_ (name_len <=? Z.of_nat (length tag_key_tail));
              let name := take (Z.to_nat name_len) tag_key_tail in
              let plain_key := drop (Z.to_nat name_len) tag_key_tail in
              match tf_init prefix plain_key (tf_value tf) (tf_is_negative tf) (tf_is_regexp tf) with
              | Ok tf_new => Ok (tfs_new ++ [tf_new], name)
              | _ => Panic
              end
          | None => Panic
          end
    | [] => Ok (tfs_new ++ [tf], name)
    end.

Fixpoint unfold_filters {E} (prefix : list Z) (tfs : list TagFilter) (st : list TagFilter * list Z) : res E (list TagFilter * list Z) :=
  match tfs with
  | [] => Ok st
  | tf :: tfs => st ← unfold_filter prefix st tf; unfold_filters prefix tfs st
  end.

Definition remove_composite_tag_filters {E} (tfs : list TagFilter) (prefix : list Z) : res E (list TagFilter) :=
  any ← has_composite_tag_filters tfs prefix;
  if negb any then Ok tfs
  else
    '(tfs_new, name) ← unfold_filters prefix tfs ([], []);
    match name with
    | [] => Ok tfs_new
    | _ =>
        match tf_init prefix [] name false false with
        | Ok tf_new => Ok (tfs_new ++ [tf_new])
        | _ => Panic
        end
    end.
End Composite.

(** ** Matching a metric name *)

(** The match of one filter; [None] when it is skipped. *)
Definition match_filter (mn : MetricName) (tf : TagFilter) : res filter_error (option bool) :=
  let prefix := marshal_common_prefix [] NS_PREFIX_TAG_TO_METRIC_IDS in
  if bool_decide (tf_key tf = GRAPHITE_REVERSE_TAG_KEY) then Ok None
  else if (length (tf_key tf) =? 0)%nat || bool_decide (tf_key tf = graphite_key) then
    ok ← map_err (CannotMatch (mkTag [] (metric_group mn))) (tf_matches tf (marshal_tag_value (marshal_tag_value prefix []) (metric_group mn)));
    Ok (Some ok)
  else
    match find (fun tag => bool_decide (t_key tag = tf_key tf)) (tags mn) with
    | Some tag =>
        ok ← map_err (CannotMatch tag) (tf_matches tf (tag_marshal tag prefix));
        Ok (Some ok)
    | None =>
        Ok (Some ((negb (tf_is_negative tf) && tf_is_empty_match tf) || (tf_is_negative tf && negb (tf_is_empty_match tf))))
    end.

(** The loop of [match_tag_filters] from the filter at index [i] on: whether
    all match, and the index of the filter that failed. *)
Fixpoint match_loop (mn : MetricName) (i : nat) (tfs : list TagFilter) : res filter_error (option nat) :=
  match tfs with
  | [] => Ok None
  | tf :: tfs =>
      r ← match_filter mn tf;
      match r with
      | Some false => Ok (Some i)
      | _ => match_loop mn (S i) tfs
      end
  end.

(** [tfs.swap(0, i)]. *)
Definition swap_first (tfs : list TagFilter) (i : nat) : list TagFilter :=
  match tfs !! 0%nat, tfs !! i with
  | Some a, Some b => <[0%nat := b]> (<[i := a]> tfs)
  | _, _ => tfs
  end.

Definition match_tag_filters (mn : MetricName) (tfs : list TagFilter) : res filter_error (bool * list TagFilter) :=
  r ← match_loop mn 0 tfs;
  match r with
  | None => Ok (true, tfs)
  | Some i => Ok (false, if (0 <? i)%nat then swap_first tfs i else tfs)
  end.
