(* ===== verification/IndexPlanner.v ===== *)
(** * The planner of index searches

    Model of [esm-storage/src/index/planner.rs]: the search for the metric IDs
    that match a set of tag filters on a date.  The filters are run one by one
    against the rows of the index in an order that statistics of earlier
    searches suggest; filters that cost too much are postponed and matched
    against the names of the series found so far. *)
From Stdlib Require Import ZArith Lia Bool.
From stdpp Require Import base list.
From S2P Require Import Prelude IntCodec TimeRange Tsid MetricName ItemBlock IndexRow Uint64Set IndexCaches ItemTableSearch ItemTable IndexDb TagFilter.
Local Open Scope Z_scope.

Definition LOOPS_COUNT_PER_METRIC_NAME_MATCH : Z := 150.
Definition PACE_LIMITER_FAST_ITERATIONS_MASK : Z := 2 ^ 16 - 1.
Definition PACE_LIMITER_MEDIUM_ITERATIONS_MASK : Z := 2 ^ 14 - 1.
Definition PACE_LIMITER_SLOW_ITERATIONS_MASK : Z := 2 ^ 12 - 1.

Definition USIZE_MAX : Z := 2 ^ 64 - 1.
Definition I64_MAX : Z := 2 ^ 63 - 1.

(** The messages of [SearchError::Other]. *)
Inductive search_other : Type :=
| InvalidLine (item : list Z)
| InvalidTail (e : row_error)
| MatchFailed (tf_prefix suffix : list Z) (e : filter_error)
| Corrupted (kb : list Z)
| PrefixSearchFailed (prefix : list Z) (e : ts_other)
| CannotObtainAll (e : search_other)
| CannotMatchName (mn : MetricName) (e : filter_error).

Inductive SearchError : Type :=
| DeadlineExceeded
| TooManyTimeseries (max_metrics : Z)
| TooManyLoops
| SeOther (e : search_other).

(** A [Result] as a value: the state it comes with outlives an error. *)
Definition outcome (A : Type) : Type := A + SearchError.

Definition marshal_common_prefix_for_date (dst : list Z) (date : Z) : list Z :=
  if date =? GLOBAL_INDEX_DATE then marshal_common_prefix dst NS_PREFIX_TAG_TO_METRIC_IDS
  else marshal_uint64 (marshal_common_prefix dst NS_PREFIX_DATE_TAG_TO_METRIC_IDS) date.

Definition append_date_tag_filter_cache_key (dst index_db_name : list Z) (date : Z) (tf : TagFilter) : list Z :=
  tf_marshal tf (marshal_uint64 (dst ++ index_db_name) date).

Record TagFilterWithWeight : Type := mkWeight { tw_tf : TagFilter; tw_loops_count : Z; tw_filter_loops_count : Z }.

Definition get_first_positive (count : TagFilterWithWeight -> Z) (tfws : list TagFilterWithWeight) : Z :=
  match find (fun tfw => 0 <? count tfw) tfws with Some tfw => count tfw | None => I64_MAX end.

(** [slice::sort_by], for a comparison that need not be a total order.  The
    library documents for such a comparison that the slice keeps its elements,
    that their order is unspecified, and that the call may panic ([None]). *)
Class SliceSort : Type := slice_sort_by : forall A : Type, (A -> A -> comparison) -> list A -> option (list A).

Class SliceSortLaws (Ss : SliceSort) : Prop :=
  slice_sort_keeps : forall (A : Type) (cmp : A -> A -> comparison) (l l' : list A), slice_sort_by A cmp l = Some l' -> l' ≡ₚ l.

(** The comparison of the closures: of two filters with equal counts neither of
    which is less than the other, each is greater than the other. *)
Definition compare_weights (count : TagFilterWithWeight -> Z) (a b : TagFilterWithWeight) : comparison :=
  match count a ?= count b with
  | Eq => if tf_less (tw_tf a) (tw_tf b) then Lt else Gt
  | c => c
  end.

Definition sort_weights {Ss : SliceSort} {E} (count : TagFilterWithWeight -> Z) (tfws : list TagFilterWithWeight) : res E (list TagFilterWithWeight) :=
  match slice_sort_by _ (compare_weights count) tfws with Some tfws => Ok tfws | None => Panic end.

(** A filter as [get_metric_ids_for_date_tag_filter] looks it up: positive and
    under the prefix of the date. *)
Definition tf_rebased (tf : TagFilter) (prefix : list Z) : TagFilter :=
  mkTagFilter (tf_key tf) (tf_value tf) false (tf_is_regexp tf) (tf_match_cost tf) (tf_regexp_prefix tf) prefix (tf_or_suffixes tf) (tf_re_suffix_match tf) (tf_is_empty_match tf).

Section Planner.
  Context {Xx : Xxh64} {Re : RegexEngine} {Ru : RegexUtil} {Ss : SliceSort} {T W : Type} {Tb : ItemTable T W}.

(** [clock n] is the [n]-th reading of [fasttime::unix_timestamp]. *)
  Context (clock : nat -> Z).

(** What a search works on: the database and its caches, the cursor, the caches
    of the table and the number of readings of the clock. *)
Record PlanState : Type := mkPlan {
  pl_db : IndexDb;
  pl_is : IndexSearch T;
  pl_w : W;
  pl_ticks : nat;
}.

Definition set_cursor (ps : PlanState) (ts : T) (w : W) : PlanState := mkPlan (pl_db ps) (set_ts (pl_is ps) ts) w (pl_ticks ps).
Definition set_parser (ps : PlanState) (mp : TagToMetricIDsRowParser) : PlanState := mkPlan (pl_db ps) (set_mp (pl_is ps) mp) (pl_w ps) (pl_ticks ps).
Definition set_db (ps : PlanState) (db : IndexDb) : PlanState := mkPlan db (pl_is ps) (pl_w ps) (pl_ticks ps).

Definition unix_timestamp (ps : PlanState) : PlanState * Z := (mkPlan (pl_db ps) (pl_is ps) (pl_w ps) (S (pl_ticks ps)), clock (pl_ticks ps)).

Definition check_search_deadline_and_pace (ps : PlanState) : PlanState * option SearchError :=
  let '(ps, now) := unix_timestamp ps in
  (ps, if is_deadline (pl_is ps) <? now then Some DeadlineExceeded else None).

(** The deadline is looked at once in [mask + 1] iterations. *)
Definition paced (mask limiter : Z) (ps : PlanState) : PlanState * option SearchError :=
  if Z.land limiter mask =? 0 then check_search_deadline_and_pace ps else (ps, None).

Definition seek {E} (ps : PlanState) (key : list Z) : res E PlanState :=
  '(ts, w) ← tb_seek (is_ts (pl_is ps)) key (pl_w ps);
  Ok (set_cursor ps ts w).

Definition next_item {E} (ps : PlanState) : res E (PlanState * bool) :=
  '(ts, w, more) ← tb_next_item (is_ts (pl_is ps)) (pl_w ps);
  Ok (set_cursor ps ts w, more).

(** The end of a scan: the error of the cursor, if any. *)
Definition scan_end (prefix : list Z) (ps : PlanState) : option SearchError :=
  match tb_error (is_ts (pl_is ps)) with
  | Some e => Some (SeOther (PrefixSearchFailed prefix e))
  | None => None
  end.

(** ** Scans *)

Fixpoint or_suffix_loop {E} (fuel : nat) (prefix : list Z) (max_metrics max_loops_count loops_count limiter : Z) (ids : USet) (ps : PlanState)
    : res E (PlanState * USet * Z * option SearchError) :=
  match fuel with
  | O => Panic
  | S fuel =>
      if negb (Z.of_nat (set_len ids) <? max_metrics) then Ok (ps, ids, loops_count, scan_end prefix ps)
      else
        '(ps, more) ← next_item ps;
        if negb more then Ok (ps, ids, loops_count, scan_end prefix ps)
        else
          let '(ps, err) := paced PACE_LIMITER_FAST_ITERATIONS_MASK limiter ps in
          match err with
          | Some err => Ok (ps, ids, loops_count, Some err)
          | None =>
              item ← tb_item (is_ts (pl_is ps));
              if negb (starts_with item prefix) then Ok (ps, ids, loops_count, None)
              else
                tail ← slice_from item (length prefix);
                match init_only_tail (is_mp (pl_is ps)) tail with
                | Panic => Panic
                | Err e => Ok (ps, ids, loops_count, Some (SeOther (InvalidTail e)))
                | Ok mp =>
                    let loops_count := i64_add loops_count (Z.of_nat (metric_ids_len mp)) in
                    if max_loops_count <? loops_count then Ok (set_parser ps mp, ids, loops_count, Some TooManyLoops)
                    else
                      let mp := parse_metric_ids mp in
                      ids ← lift_set (set_add_multi ids (metric_ids mp));
                      or_suffix_loop fuel prefix max_metrics max_loops_count loops_count (as_u64 (limiter + 1)) ids (set_parser ps mp)
                end
          end
  end.

Definition update_metric_ids_for_or_suffix {E} (fuel : nat) (prefix : list Z) (ids : USet) (max_metrics max_loops_count : Z) (ps : PlanState)
    : res E (PlanState * USet * Z * option SearchError) :=
  ps ← seek ps prefix;
  or_suffix_loop fuel prefix max_metrics max_loops_count 0 0 ids ps.

(** The loop over the suffixes. *)
Fixpoint or_suffixes_loop {E} (fuel : nat) (tf : TagFilter) (suffixes : list (list Z)) (max_metrics max_loops_count loops_count : Z) (ids : USet) (ps : PlanState)
    : res E (PlanState * USet * Z * option SearchError) :=
  match suffixes with
  | [] => Ok (ps, ids, loops_count, None)
  | or_suffix :: suffixes =>
      let kb := (tf_prefix tf ++ or_suffix) ++ [TAG_SEPARATOR_CHAR] in
      '(ps, ids, lc, err) ← update_metric_ids_for_or_suffix fuel kb ids max_metrics (i64_sub max_loops_count loops_count) ps;
      let loops_count := i64_add loops_count lc in
      match err with
      | Some err => Ok (ps, ids, loops_count, Some err)
      | None =>
          if max_metrics <=? Z.of_nat (set_len ids) then Ok (ps, ids, loops_count, None)
          else or_suffixes_loop fuel tf suffixes max_metrics max_loops_count loops_count ids ps
      end
  end.

Definition update_metric_ids_for_or_suffixes {E} (fuel : nat) (tf : TagFilter) (ids : USet) (max_metrics max_loops_count : Z) (ps : PlanState)
    : res E (PlanState * USet * Z * option SearchError) :=
  _ ← assert_ (negb (tf_is_negative tf));
  or_suffixes_loop fuel tf (tf_or_suffixes tf) max_metrics max_loops_count 0 ids ps.

(** [kb[last] += 1] on the separator. *)
Definition next_value_key (kb : list Z) : option (list Z) :=
  match last kb with
  | Some c => if c =? TAG_SEPARATOR_CHAR then Some (removelast kb ++ [as_u8 (c + 1)]) else None
  | None => None
  end.

(** The loop of [get_metric_ids_for_tag_filter_slow]; [prev] is the suffix of
    the last row when it matched. *)
Fixpoint slow_loop {E} (fuel : nat) (tf : TagFilter) (max_loops_count loops_count limiter : Z) (prev_match : bool) (prev_suffix : list Z) (ids : USet) (ps : PlanState)
    : res E (PlanState * USet * Z * option SearchError) :=
  match fuel with
  | O => Panic
  | S fuel =>
      '(ps, more) ← next_item ps;
      if negb more then Ok (ps, ids, loops_count, scan_end (tf_prefix tf) ps)
      else
        let '(ps, err) := paced PACE_LIMITER_MEDIUM_ITERATIONS_MASK limiter ps in
        match err with
        | Some err => Ok (ps, ids, loops_count, Some err)
        | None =>
            let limiter := as_u64 (limiter + 1) in
            item ← tb_item (is_ts (pl_is ps));
            if negb (starts_with item (tf_prefix tf)) then Ok (ps, ids, loops_count, None)
            else
              rest ← slice_from item (length (tf_prefix tf));
              match find_tag_separator rest with
              | None => Ok (ps, ids, loops_count, Some (SeOther (InvalidLine item)))
              | Some n =>
                  let suffix := take (S n) rest in
                  let tail := drop (S n) rest in
                  match init_only_tail (is_mp (pl_is ps)) tail with
                  | Panic => Panic
                  | Err e => Ok (ps, ids, loops_count, Some (SeOther (InvalidTail e)))
                  | Ok mp =>
                      let mp := parse_metric_ids mp in
                      let ps := set_parser ps mp in
                      let loops_count := i64_add loops_count (Z.of_nat (metric_ids_len mp)) in
                      if max_loops_count <? loops_count then Ok (ps, ids, loops_count, Some TooManyLoops)
                      else if prev_match && bool_decide (suffix = prev_suffix) then
                        ids ← lift_set (set_add_multi ids (metric_ids mp));
                        slow_loop fuel tf max_loops_count loops_count limiter prev_match prev_suffix ids ps
                      else
                        match tf_match_suffix tf suffix with
                        | Panic => Panic
                        | Err e => Ok (ps, ids, loops_count, Some (SeOther (MatchFailed (tf_prefix tf) suffix e)))
                        | Ok ok =>
                            let loops_count := i64_add loops_count (as_i64 (10 * as_i64 (tf_match_cost tf))) in
                            if negb ok then
                              if (metric_ids_len mp <? MAX_METRIC_IDS_PER_ROW / 2)%nat then
                                slow_loop fuel tf max_loops_count loops_count limiter false prev_suffix ids ps
                              else
                                let kb := take (length item - length tail) item in
                                match next_value_key kb with
                                | None => Ok (ps, ids, loops_count, Some (SeOther (Corrupted kb)))
                                | Some kb =>
                                    ps ← seek ps kb;
                                    slow_loop fuel tf max_loops_count (i64_add loops_count 1000) limiter false prev_suffix ids ps
                                end
                            else
                              ids ← lift_set (set_add_multi ids (metric_ids mp));
                              slow_loop fuel tf max_loops_count loops_count limiter true suffix ids ps
                        end
                  end
              end
        end
  end.

Definition get_metric_ids_for_tag_filter_slow {E} (fuel : nat) (tf : TagFilter) (max_loops_count : Z) (ids : USet) (ps : PlanState)
    : res E (PlanState * USet * Z * option SearchError) :=
  _ ← assert_ (length (tf_or_suffixes tf) =? 0)%nat;
  ps ← seek ps (tf_prefix tf);
  slow_loop fuel tf max_loops_count 0 0 false [] ids ps.

Fixpoint prefix_loop {E} (fuel : nat) (prefix : list Z) (max_metrics limiter : Z) (ids : USet) (ps : PlanState) : res E (PlanState * USet * option SearchError) :=
  match fuel with
  | O => Panic
  | S fuel =>
      '(ps, more) ← next_item ps;
      if negb more then Ok (ps, ids, scan_end prefix ps)
      else
        let '(ps, err) := paced PACE_LIMITER_FAST_ITERATIONS_MASK limiter ps in
        match err with
        | Some err => Ok (ps, ids, Some err)
        | None =>
            item ← tb_item (is_ts (pl_is ps));
            if negb (starts_with item prefix) then Ok (ps, ids, None)
            else
              tail ← slice_from item (length prefix);
              match find_tag_separator tail with
              | None => Ok (ps, ids, Some (SeOther (InvalidLine item)))
              | Some n =>
                  match init_only_tail (is_mp (pl_is ps)) (drop (S n) tail) with
                  | Panic => Panic
                  | Err e => Ok (ps, ids, Some (SeOther (InvalidTail e)))
                  | Ok mp =>
                      let mp := parse_metric_ids mp in
                      ids ← lift_set (set_add_multi ids (metric_ids mp));
                      let ps := set_parser ps mp in
                      if max_metrics <=? Z.of_nat (set_len ids) then Ok (ps, ids, None)
                      else prefix_loop fuel prefix max_metrics (as_u64 (limiter + 1)) ids ps
                  end
              end
        end
  end.

Definition update_metric_ids_for_prefix {E} (fuel : nat) (prefix : list Z) (ids : USet) (max_metrics : Z) (ps : PlanState) : res E (PlanState * USet * option SearchError) :=
  ps ← seek ps prefix;
  prefix_loop fuel prefix max_metrics 0 ids ps.

Definition get_metric_ids_for_date {E} (fuel : nat) (date max_metrics : Z) (ps : PlanState) : res E (PlanState * outcome USet) :=
  let prefix := marshal_tag_value (marshal_common_prefix_for_date [] date) [] in
  '(ps, ids, err) ← update_metric_ids_for_prefix fuel prefix set_default max_metrics ps;
  Ok (ps, match err with Some e => inr e | None => inl ids end).

Definition get_metric_ids_for_tag_filter {E} (fuel : nat) (tf : TagFilter) (max_metrics max_loops_count : Z) (ps : PlanState) : res E (PlanState * Z * outcome USet) :=
  _ ← assert_ (negb (tf_is_negative tf));
  '(ps, ids, loops_count, err) ←
    (if negb (length (tf_or_suffixes tf) =? 0)%nat then update_metric_ids_for_or_suffixes fuel tf set_default max_metrics max_loops_count ps
     else get_metric_ids_for_tag_filter_slow fuel tf max_loops_count set_default ps);
  Ok (ps, loops_count, match err with Some e => inr e | None => inl ids end).

Definition get_metric_ids_for_date_tag_filter {E} (fuel : nat) (tf : TagFilter) (date : Z) (common_prefix : list Z) (max_metrics max_loops_count : Z) (ps : PlanState)
    : res E (PlanState * Z * outcome USet) :=
  _ ← assert_ (starts_with (tf_prefix tf) common_prefix);
  let date_prefix := marshal_common_prefix_for_date [] date in
  rest ← slice_from (tf_prefix tf) (length common_prefix);
  '(ps, loops_count, r) ← get_metric_ids_for_tag_filter fuel (tf_rebased tf (date_prefix ++ rest)) max_metrics max_loops_count ps;
  match r with
  | inr err => Ok (ps, loops_count, inr err)
  | inl ids =>
      if tf_is_negative tf || negb (tf_is_empty_match tf) then Ok (ps, loops_count, inl ids)
      else
        match tf_init date_prefix (tf_key tf) dot_plus false true with
        | Ok tf_gross =>
            '(ps, lc, r) ← get_metric_ids_for_tag_filter fuel tf_gross max_metrics (i64_sub max_loops_count loops_count) ps;
            let loops_count := i64_add loops_count lc in
            match r with
            | inr err => Ok (ps, loops_count, inr err)
            | inl m => m ← lift_set (set_subtract m ids); Ok (ps, loops_count, inl m)
            end
        | _ => Panic
        end
  end.

(** ** Statistics *)

Definition get_loops_count_and_timestamp_for_date_filter {E} (date : Z) (tf : TagFilter) (ps : PlanState) : res E (PlanState * (Z * Z * Z)) :=
  let db := pl_db ps in
  let kb := append_date_tag_filter_cache_key [] (idb_name db) date tf in
  '(c, v) ← wc_get (loops_per_date_tag_filter_cache db) kb;
  let ps := set_db ps (set_loops_cache db c) in
  match v with
  | Some v =>
      if (length v =? 3 * 8)%nat then
        loops_count ← unmarshal_int64 v;
        v8 ← slice_from v 8;
        filter_loops_count ← unmarshal_int64 v8;
        v16 ← slice_from v 16;
        timestamp ← unmarshal_uint64 v16;
        Ok (ps, (loops_count, filter_loops_count, timestamp))
      else Ok (ps, (0, 0, 0))
  | None => Ok (ps, (0, 0, 0))
  end.

Definition store_loops_count_for_date_filter {E} (date : Z) (tf : TagFilter) (loops_count filter_loops_count : Z) (ps : PlanState) : res E PlanState :=
  let '(ps, current_timestamp) := unix_timestamp ps in
  let db := pl_db ps in
  let kb := append_date_tag_filter_cache_key [] (idb_name db) date tf in
  let v := marshal_uint64 (marshal_int64 (marshal_int64 [] loops_count) filter_loops_count) current_timestamp in
  c ← wc_set (loops_per_date_tag_filter_cache db) kb v;
  Ok (set_db ps (set_loops_cache db c)).

(** The filters with what is known about their costs; old statistics of fast
    filters are taken as unknown. *)
Fixpoint weigh {E} (date current_time : Z) (tfs : list TagFilter) (ps : PlanState) : res E (PlanState * list TagFilterWithWeight) :=
  match tfs with
  | [] => Ok (ps, [])
  | tf :: tfs =>
      '(ps, (loops_count, filter_loops_count, timestamp)) ← get_loops_count_and_timestamp_for_date_filter date tf ps;
      let old := as_u64 (timestamp + 3600) <? current_time in
      let loops_count := if old && (loops_count <=? 10000000) then 0 else loops_count in
      let filter_loops_count := if old && (filter_loops_count <=? 10000000) then 0 else filter_loops_count in
      '(ps, tfws) ← weigh date current_time tfs ps;
      Ok (ps, mkWeight tf loops_count filter_loops_count :: tfws)
  end.

(** ** Matching names *)

(** The loop over the sorted metric IDs; [mn] is dead before each round. *)
Fixpoint name_match_loop {E} (i : Z) (sorted_metric_ids : list Z) (tfs : list TagFilter) (ids : USet) (ps : PlanState) : res E (PlanState * USet * option SearchError) :=
  match sorted_metric_ids with
  | [] => Ok (ps, ids, None)
  | metric_id :: sorted_metric_ids =>
      let '(ps, err) := paced PACE_LIMITER_SLOW_ITERATIONS_MASK i ps in
      match err with
      | Some err => Ok (ps, ids, Some err)
      | None =>
          '(db, self, w, metric_name, ok) ← search_metric_name_with_cache (pl_db ps) (pl_is ps) (pl_w ps) [] metric_id;
          let ps := mkPlan db self w (pl_ticks ps) in
          if negb ok then name_match_loop (i + 1) sorted_metric_ids tfs ids ps
          else
            match mn_unmarshal metric_name with
            | Ok mn =>
                match match_tag_filters mn tfs with
                | Panic => Panic
                | Err e => Ok (ps, ids, Some (SeOther (CannotMatchName mn e)))
                | Ok (ok, tfs) =>
                    if negb ok then name_match_loop (i + 1) sorted_metric_ids tfs ids ps
                    else
                      ids ← lift_set (set_add ids metric_id);
                      name_match_loop (i + 1) sorted_metric_ids tfs ids ps
                end
            | _ => Panic
            end
      end
  end.

Definition update_metric_ids_by_metric_name_match {E} (ids src_metric_ids : USet) (tfs : list TagFilter) (ps : PlanState) : res E (PlanState * USet * option SearchError) :=
  '(_, sorted_metric_ids) ← lift_set (set_append_to src_metric_ids []);
  tfs ← remove_composite_tag_filters tfs (marshal_common_prefix [] NS_PREFIX_TAG_TO_METRIC_IDS);
  name_match_loop 0 sorted_metric_ids tfs ids ps.

(** ** The planner *)

Definition max_date_metrics_of (max_metrics : Z) : Z := if max_metrics <? USIZE_MAX / 50 then max_metrics * 50 else USIZE_MAX.

(** The search for a first filter that is positive and cheap enough: the metric
    IDs it gives, if there is one, and the filters that remain. *)
Fixpoint first_filter_loop {E} (fuel : nat) (date : Z) (common_prefix : list Z) (max_date_metrics : Z) (tfws remaining : list TagFilterWithWeight) (ps : PlanState)
    : res E (PlanState * outcome (option USet * list TagFilterWithWeight)) :=
  match tfws with
  | [] => Ok (ps, inl (None, remaining))
  | tfw :: rest =>
      let tf := tw_tf tfw in
      if tf_is_negative tf || tf_is_empty_match tf then first_filter_loop fuel date common_prefix max_date_metrics rest (remaining ++ [tfw]) ps
      else
        let max_loops_count := get_first_positive tw_loops_count rest in
        '(ps, loops_count, r) ← get_metric_ids_for_date_tag_filter fuel tf date common_prefix max_date_metrics max_loops_count ps;
        match r with
        | inr TooManyLoops =>
            let new_loops_count := as_i64 (2 * loops_count) in
            ps ← (if negb (new_loops_count =? tw_loops_count tfw) then store_loops_count_for_date_filter date tf new_loops_count (tw_filter_loops_count tfw) ps else Ok ps);
            first_filter_loop fuel date common_prefix max_date_metrics rest (remaining ++ [mkWeight tf new_loops_count (tw_filter_loops_count tfw)]) ps
        | inr err =>
            ps ← store_loops_count_for_date_filter date tf I64_MAX (tw_filter_loops_count tfw) ps;
            Ok (ps, inr err)
        | inl m =>
            if max_date_metrics <=? Z.of_nat (set_len m) then
              ps ← store_loops_count_for_date_filter date tf (I64_MAX - 1) (tw_filter_loops_count tfw) ps;
              first_filter_loop fuel date common_prefix max_date_metrics rest (remaining ++ [mkWeight tf (I64_MAX - 1) (tw_filter_loops_count tfw)]) ps
            else
              ps ← (if negb (loops_count =? tw_loops_count tfw) then store_loops_count_for_date_filter date tf loops_count (tw_filter_loops_count tfw) ps else Ok ps);
              Ok (ps, inl (Some m, remaining ++ rest))
        end
  end.

(** The rest of the filters: the metric IDs left and the postponed filters. *)
Fixpoint filters_loop {E} (fuel : nat) (date : Z) (common_prefix : list Z) (tfws : list TagFilterWithWeight) (ids : USet) (postponed : list TagFilter) (ps : PlanState)
    : res E (PlanState * outcome (USet * list TagFilter)) :=
  match tfws with
  | [] => Ok (ps, inl (ids, postponed))
  | tfw :: rest =>
      let tf := tw_tf tfw in
      let name_match_cost := as_i64 (Z.of_nat (set_len ids) * LOOPS_COUNT_PER_METRIC_NAME_MATCH) in
      if (set_len ids =? 0)%nat then Ok (ps, inl (ids, postponed))
      else if name_match_cost <? tw_filter_loops_count tfw then Ok (ps, inl (ids, postponed ++ map tw_tf tfws))
      else
        let max_loops_count := get_first_positive tw_filter_loops_count rest in
        let max_loops_count := if max_loops_count =? I64_MAX then name_match_cost else max_loops_count in
        '(ps, filter_loops_count, r) ← get_metric_ids_for_date_tag_filter fuel tf date common_prefix USIZE_MAX max_loops_count ps;
        match r with
        | inr TooManyLoops =>
            let new_flc := as_i64 (2 * filter_loops_count) in
            ps ← (if negb (new_flc =? tw_filter_loops_count tfw) then store_loops_count_for_date_filter date tf (tw_loops_count tfw) new_flc ps else Ok ps);
            filters_loop fuel date common_prefix rest ids (postponed ++ [tf]) ps
        | inr err =>
            ps ← store_loops_count_for_date_filter date tf (tw_loops_count tfw) I64_MAX ps;
            Ok (ps, inr err)
        | inl m =>
            ps ← (if negb (filter_loops_count =? tw_filter_loops_count tfw) then store_loops_count_for_date_filter date tf (tw_loops_count tfw) filter_loops_count ps else Ok ps);
            ids ← lift_set (if tf_is_negative tf || tf_is_empty_match tf then set_subtract ids m else set_intersect ids m);
            filters_loop fuel date common_prefix rest ids postponed ps
        end
  end.

(** All metric IDs of the date, when no filter gave a first set. *)
Definition all_metric_ids {E} (fuel : nat) (date max_date_metrics : Z) (ps : PlanState) : res E (PlanState * outcome USet) :=
  '(ps, r) ← get_metric_ids_for_date fuel date max_date_metrics ps;
  match r with
  | inr (SeOther e) => Ok (ps, inr (SeOther (CannotObtainAll e)))
  | inr e => Ok (ps, inr e)
  | inl m => if max_date_metrics <=? Z.of_nat (set_len m) then Ok (ps, inr (TooManyTimeseries max_date_metrics)) else Ok (ps, inl m)
  end.

Definition get_metric_ids_for_date_and_filters {E} (fuel : nat) (date : Z) (tfs : TagFilters) (max_metrics : Z) (ps : PlanState) : res E (PlanState * outcome USet) :=
  let '(ps, current_time) := unix_timestamp ps in
  '(ps, tfws) ← weigh date current_time (tfs_tfs tfs) ps;
  tfws ← sort_weights tw_loops_count tfws;
  let max_date_metrics := max_date_metrics_of max_metrics in
  '(ps, r) ← first_filter_loop fuel date (tfs_common_prefix tfs) max_date_metrics tfws [] ps;
  match r with
  | inr err => Ok (ps, inr err)
  | inl (first, tfws) =>
      '(ps, r) ← (match first with Some m => Ok (ps, inl m) | None => all_metric_ids fuel date max_date_metrics ps end);
      match r with
      | inr err => Ok (ps, inr err)
      | inl ids =>
          tfws ← sort_weights tw_filter_loops_count tfws;
          '(ps, r) ← filters_loop fuel date (tfs_common_prefix tfs) tfws ids [] ps;
          match r with
          | inr err => Ok (ps, inr err)
          | inl (ids, tfs_postponed) =>
              if set_is_empty ids then Ok (ps, inl set_default)
              else
                match tfs_postponed with
                | [] => Ok (ps, inl ids)
                | _ =>
                    '(ps, m, err) ← update_metric_ids_by_metric_name_match set_default ids tfs_postponed ps;
                    Ok (ps, match err with Some e => inr e | None => inl m end)
                end
          end
      end
  end.
End Planner.
