(* ===== verification/IndexScanSpec.v ===== *)
(** * Scans of the index

    The loops of [IndexPlanner] that read the rows under a prefix, over any
    table that shows the written rows: what they collect, and that they end. *)
From Stdlib Require Import ZArith Lia Bool Sorted.
From stdpp Require Import base gmap list.
From S2P Require Import Prelude IntCodec TimeRange Tsid MetricName ItemBlock ItemBlockSpec IndexRow IndexRowSpec Uint64Set Uint64SetSpec IndexCaches ItemTableSearch ItemTable IndexDb IndexDbSpec TagFilter IndexPlanner.
Local Open Scope Z_scope.

(** ** Bytes *)

Abbreviation sep_free := (Forall (fun c : Z => c <> TAG_SEPARATOR_CHAR)).

Lemma escape_sep_free v : sep_free (escape v).
Proof. pose proof (escape_no_separator v) as H. revert H. apply Forall_weaken. by intros c []. Qed.

Lemma escape_inj a b : escape a = escape b -> a = b.
Proof.
  intros H. pose proof (unescape_escape a (S (length a + length b)) [] ltac:(lia)) as H1.
  rewrite H, unescape_escape in H1 by lia. by injection H1 as ->.
Qed.

(** A prefix without separator ends before the separator. *)
Lemma sep_prefix a b x y : sep_free a -> sep_free b -> a ++ TAG_SEPARATOR_CHAR :: x = b ++ y -> exists s, a = b ++ s /\ y = s ++ TAG_SEPARATOR_CHAR :: x.
Proof.
  intros Ha Hb. revert a Ha. induction Hb as [|c b Hc Hb IH]; intros a Ha H; [by exists a|]. destruct Ha as [|e a He Ha]; cbn [app] in H; injection H as H1 H2; [done|].
  destruct (IH a Ha H2) as (s & -> & ->). exists s. by rewrite H1.
Qed.

Lemma find_sep s x : sep_free s -> find_tag_separator (s ++ TAG_SEPARATOR_CHAR :: x) = Some (length s).
Proof.
  intros Hs. unfold find_tag_separator. rewrite position_app by (revert Hs; apply Forall_weaken; intros c Hc; by apply Z.eqb_neq).
  cbn [MetricName.position]. rewrite Z.eqb_refl. cbn [fmap option_fmap option_map]. by rewrite Nat.add_0_r.
Qed.

(** Between a row under [h] and the first key after the rows under [h]. *)
Lemma between_values h x y : (h ++ [TAG_SEPARATOR_CHAR]) `prefix_of` x -> lex_leb x y -> ~ lex_leb (h ++ [TAG_SEPARATOR_CHAR + 1]) y -> (h ++ [TAG_SEPARATOR_CHAR]) `prefix_of` y.
Proof.
  intros [l ->]. revert y. induction h as [|c h IH]; intros y Hxy Hn; unfold lex_leb in *.
  - destruct y as [|e y]; [done|]. cbn [app lex_compare] in *. assert (e = TAG_SEPARATOR_CHAR) as ->.
    { destruct (Z.compare_spec TAG_SEPARATOR_CHAR e) as [He|He|He]; [done| |done]. destruct (Z.compare_spec (TAG_SEPARATOR_CHAR + 1) e); [by destruct y| |lia]. by destruct Hn. }
    by exists y.
  - destruct y as [|e y]; [done|]. cbn [app lex_compare] in *. destruct (Z.compare_spec c e) as [->|He|He]; [|by destruct Hn|done].
    destruct (IH y Hxy Hn) as [l' ->]. by exists l'.
Qed.

Lemma next_value_key_snoc h : next_value_key (h ++ [TAG_SEPARATOR_CHAR]) = Some (h ++ [TAG_SEPARATOR_CHAR + 1]).
Proof. unfold next_value_key. rewrite last_snoc, Z.eqb_refl. by rewrite removelast_last. Qed.

(** ** Items left to scan *)

(** With an item, all greater items are left too. *)
Definition closed_above (items out : list (list Z)) : Prop :=
  forall x y, In x out -> In y items -> lex_leb x y -> In y out.

Lemma from_key_closed items k out : from_key items k out -> closed_above items out.
Proof. intros (_ & _ & H) x y Hx Hy Hxy. apply H. split; [done|]. apply H in Hx as [_ Hx]. by eapply lex_leb_trans. Qed.

Lemma closed_above_tail items x out : sorted_items (x :: out) -> closed_above items (x :: out) -> closed_above items out.
Proof.
  intros Hs Hc z y Hz Hy Hzy. destruct (Hc z y) as [<-|H]; [by right|done|done| |done].
  apply StronglySorted_inv in Hs as [_ Hx]. rewrite Forall_In in Hx. assert (x = z) as ->; [|done]. apply lex_leb_antisym; [by apply Hx|done].
Qed.

(** Seeking past the rows of a value after an item with it. *)
Lemma skip_value items x out out2 h : sorted_items (x :: out) -> closed_above items (x :: out) -> (h ++ [TAG_SEPARATOR_CHAR]) `prefix_of` x -> In x items ->
  from_key items (h ++ [TAG_SEPARATOR_CHAR + 1]) out2 ->
  forall y, In y items -> In y out2 <-> In y out /\ ~ (h ++ [TAG_SEPARATOR_CHAR]) `prefix_of` y.
Proof.
  intros Hs Hc Hp Hx (_ & _ & Hf) y Hy. pose proof Hs as Hs'. apply StronglySorted_inv in Hs' as [_ Hle]. rewrite Forall_In in Hle.
  assert (Hgt : forall z, (h ++ [TAG_SEPARATOR_CHAR]) `prefix_of` z -> ~ lex_leb (h ++ [TAG_SEPARATOR_CHAR + 1]) z).
  { intros z [l ->]. clear. induction h as [|c h IH]; [by intros []|]. unfold lex_leb in *. cbn [app lex_compare]. by rewrite Z.compare_refl. }
  rewrite Hf. split.
  - intros [_ Hk]. assert (Hxy : lex_leb x y).
    { destruct (lex_leb_total x y) as [H|H]; [done|]. exfalso. apply (Hgt x Hp). by eapply lex_leb_trans. }
    destruct (Hc x y) as [<-|H]; [by left|done|done|by destruct (Hgt x Hp)|]. split; [done|]. intros Hp'. by apply (Hgt y Hp').
  - intros [Hin Hn]. split; [done|]. destruct (decide (lex_leb (h ++ [TAG_SEPARATOR_CHAR + 1]) y)) as [H|H]; [done|]. destruct Hn. eapply between_values; [exact Hp|by apply Hle|done].
Qed.

(** A bound on the rounds left when every seek is past an item. *)
Definition rounds (n : nat) (out : list (list Z)) : nat := (S n * size (list_to_set out : gset (list Z)) + length out)%nat.

Lemma rounds_tail n x out : (rounds n out < rounds n (x :: out))%nat.
Proof.
  unfold rounds. assert (size (list_to_set out : gset (list Z)) <= size (list_to_set (x :: out) : gset (list Z)))%nat by (apply subseteq_size; set_solver). cbn [length]. nia.
Qed.

Lemma rounds_seek n x out out2 : (length out2 <= n)%nat -> (forall y, In y out2 -> In y out /\ y <> x) -> (rounds n out2 < rounds n (x :: out))%nat.
Proof.
  intros Hl Hi. unfold rounds. assert (size (list_to_set out2 : gset (list Z)) < size (list_to_set (x :: out) : gset (list Z)))%nat; [|cbn [length]; nia].
  apply subset_size. split.
  - intros y. rewrite !elem_of_list_to_set, !list_elem_of_In. intros Hy. right. by apply Hi.
  - intros H. specialize (H x). rewrite !elem_of_list_to_set, !list_elem_of_In in H. destruct (Hi x) as [_ Hx]; [|done]. apply H. by left.
Qed.

Lemma rounds_start n out : (length out <= n)%nat -> (rounds n out < S n * S n)%nat.
Proof.
  intros H. unfold rounds. assert (size (list_to_set out : gset (list Z)) <= length out)%nat; [|nia]. clear H. induction out as [|x out IH]; [done|].
  cbn [length]. change (list_to_set (x :: out)) with ({[x]} ∪ list_to_set out : gset (list Z)). rewrite size_union_alt, size_singleton.
  assert (size (list_to_set out ∖ {[x]} : gset (list Z)) <= size (list_to_set out : gset (list Z)))%nat by (apply subseteq_size; set_solver). lia.
Qed.

(** ** The state between steps *)

Section Scans.
  Context {Xx : Xxh64} {Re : RegexEngine} {Ru : RegexUtil} {T W : Type} {Tb : ItemTable T W} (items : list (list Z)) {L : ItemTableLaws T W items}.
  Context (d : bool) (ops : list index_op) (clock : nat -> Z) (deadline : Z) {RC : list Z -> USet -> Prop}.

Abbreviation PlanState := (PlanState (T := T) (W := W)).

(** [RC] is what the cache of results holds. *)
Record pl_ok (ps : PlanState) : Prop := {
  po_idx : idx_ok items d ops (pl_db ps) (pl_is ps) (pl_w ps);
  po_loops : wc_holds (fun _ _ => True) (loops_per_date_tag_filter_cache (pl_db ps));
  po_deadline : is_deadline (pl_is ps) = deadline;
  po_results : wc_holds RC (tag_filters_to_metric_ids_cache (pl_db ps));
}.

(** The cursor yields [out]. *)
Definition pl_at (ps : PlanState) (out : list (list Z)) : Prop := pl_ok ps /\ tl_at (is_ts (pl_is ps)) out.

(** The clock passes the deadline. *)
Definition late : Prop := exists n, deadline < clock n.

Definition scan_err (e : SearchError) : Prop := e = TooManyLoops \/ e = DeadlineExceeded /\ late.

Lemma pl_ok_cursor ps ts w : pl_ok ps -> tl_any ts -> tl_world w -> pl_ok (set_cursor ps ts w).
Proof. intros [H1 H2 H3 H4] Ht Hw. split; [by eapply idx_ok_cursor|done..]. Qed.

Lemma seek_at {E} ps key : pl_ok ps -> exists ps' out, seek (E := E) ps key = Ok ps' /\ pl_at ps' out /\ from_key items key out /\ pl_db ps' = pl_db ps.
Proof.
  intros Hp. unfold seek. destruct (tl_seek E _ key _ (ix_cursor _ _ _ _ _ _ (po_idx _ Hp)) (ix_world _ _ _ _ _ _ (po_idx _ Hp))) as (ts & w & out & -> & Hw & Hat & Hf).
  rewrite bind_Ok. eexists _, out. split; [done|]. split; [|done]. split; [|done]. apply pl_ok_cursor; [done|by eapply tl_at_any|done].
Qed.

Lemma at_parser ps out mp : pl_at ps out -> pl_at (set_parser ps mp) out.
Proof. intros [[H1 H2 H3 H5] H4]. split; [|done]. split; [|done..]. by destruct H1. Qed.

(** The cursor moves on and the deadline may be looked at. *)
Lemma advance {E} ps out mask limiter : pl_at ps out ->
  exists ps1 ps2 e, next_item (E := E) ps = Ok (ps1, match out with [] => false | _ => true end) /\ pl_at ps1 (tail out) /\ pl_db ps1 = pl_db ps /\
    paced clock mask limiter ps1 = (ps2, e) /\ pl_at ps2 (tail out) /\ pl_db ps2 = pl_db ps /\
    (forall E x, head out = Some x -> tb_item (E := E) (is_ts (pl_is ps2)) = Ok x) /\ (e = None \/ e = Some DeadlineExceeded /\ late).
Proof.
  intros [Hp Ha]. unfold next_item. destruct (tl_next E _ _ out Ha (ix_world _ _ _ _ _ _ (po_idx _ Hp))) as (ts & w & -> & Hw & Hat & Hi). rewrite bind_Ok.
  set (ps1 := set_cursor ps ts w). assert (H1 : pl_at ps1 (tail out)) by (split; [apply pl_ok_cursor; [done|by eapply tl_at_any|done]|done]).
  unfold paced, check_search_deadline_and_pace, unix_timestamp. cbn [fst snd pl_is].
  destruct (Z.land limiter mask =? 0); eexists ps1, _, _; (split; [done|]); (split; [done|]); (split; [done|]); (split; [reflexivity|]).
  - split; [destruct H1 as [[? ? ? ?] ?]; by split|]. split; [done|]. split; [exact Hi|]. cbn [pl_is]. rewrite (po_deadline _ (proj1 H1)).
    destruct (Z.ltb_spec deadline (clock (pl_ticks ps1))); [right; split; [done|by eexists]|by left].
  - split; [done|]. split; [done|]. split; [exact Hi|by left].
Qed.

Lemma scan_end_ok prefix ps out : pl_at ps out -> scan_end prefix ps = None.
Proof. intros [_ H]. unfold scan_end. by rewrite (tl_at_error _ _ H). Qed.

(** ** Rows *)

(** The parser on the metric IDs of a row. *)
Lemma parse_tail p l : l <> [] -> Forall is_u64 l ->
  exists mp, init_only_tail p (ids_bytes l) = Ok mp /\ metric_ids_parsed mp = false /\ metric_ids_len mp = length l /\ metric_ids (parse_metric_ids mp) = l /\
    metric_ids_len (parse_metric_ids mp) = length l.
Proof.
  intros Hl Hu. eexists. split; [by apply init_tail_ids|]. unfold metric_ids_len, parse_metric_ids. cbn [metric_ids_parsed rp_tail metric_ids].
  rewrite length_ids_bytes, Nat.mul_comm, Nat.div_mul by done. rewrite parse_ids_app by done. done.
Qed.

Lemma add_multi_ok {E} ids l : wf_set ids -> Forall is_u64 l ->
  exists ids', lift_set (E := E) (set_add_multi ids l) = Ok ids' /\ wf_set ids' /\ forall v, v ∈ set_items ids' <-> In v l \/ v ∈ set_items ids.
Proof. intros Hw Hu. destruct (set_add_multi_spec ids l Hw Hu) as (ids' & H & Hw' & Hi). exists ids'. rewrite (lift_set_Ok _ _ H). split_and!; [done..|]. intros v. rewrite Hi. by rewrite <-(list_elem_of_In l v). Qed.

(** What a scan may end with: an error, or the metric IDs [R] added, all of
    them unless there are [max] then. *)
Definition collects (ids : USet) (R : Z -> Prop) (max : Z) (ids' : USet) (err : option SearchError) : Prop :=
  wf_set ids' /\
  match err with
  | Some e => scan_err e
  | None =>
      (forall v, v ∈ set_items ids -> v ∈ set_items ids') /\ (forall v, v ∈ set_items ids' -> v ∈ set_items ids \/ R v) /\
      (Z.of_nat (set_len ids') < max -> forall v, R v -> v ∈ set_items ids')
  end.

Lemma collects_stop ids (R : Z -> Prop) max : wf_set ids -> (Z.of_nat (set_len ids) < max -> forall v, ~ R v) -> collects ids R max ids None.
Proof. intros Hw Hn. split; [done|]. split_and!; [done|by left|]. intros Hl v Hv. by destruct (Hn Hl v). Qed.

Lemma collects_err ids R max e : wf_set ids -> scan_err e -> collects ids R max ids (Some e).
Proof. done. Qed.

(** One row more. *)
Lemma collects_cons ids l ids1 (R R' : Z -> Prop) max ids' err : (forall v, v ∈ set_items ids1 <-> In v l \/ v ∈ set_items ids) -> (forall v, R' v <-> In v l \/ R v) ->
  collects ids1 R max ids' err -> collects ids R' max ids' err.
Proof.
  intros H1 HR [Hw H]. split; [done|]. destruct err as [e|]; [done|]. destruct H as (Ha & Hb & Hc). split_and!.
  - intros v Hv. apply Ha, H1. by right.
  - intros v Hv. rewrite HR. apply Hb in Hv. rewrite H1 in Hv. tauto.
  - intros Hl v Hv. apply HR in Hv as [Hv|Hv]; [|by apply Hc]. apply Ha, H1. by left.
Qed.

Lemma or_suffix_loop_ok {E} prefix max maxl rest : Forall (fun x => ~ prefix `prefix_of` x) rest ->
  forall rows fuel lc lim ids (ps : PlanState), Forall (fun l => l <> [] /\ Forall is_u64 l) rows -> pl_at ps (map (fun l => prefix ++ ids_bytes l) rows ++ rest) -> wf_set ids ->
  (length rows < fuel)%nat ->
  exists ps' ids' lc' err, or_suffix_loop (E := E) clock fuel prefix max maxl lc lim ids ps = Ok (ps', ids', lc', err) /\ pl_ok ps' /\ pl_db ps' = pl_db ps /\
    collects ids (fun v => In v (concat rows)) max ids' err.
Proof.
  intros Hrest. induction rows as [|l rows IH]; intros fuel lc lim ids ps Hrows Hat Hw Hf; destruct fuel as [|fuel]; try (cbn in Hf; lia); cbn [or_suffix_loop].
  - destruct (Z.ltb_spec (Z.of_nat (set_len ids)) max) as [Hmax|Hmax]; cbn [negb].
    2:{ eexists ps, ids, lc, _. rewrite (scan_end_ok _ _ _ Hat). split; [done|]. split; [by destruct Hat|]. split; [done|]. apply collects_stop; [done|by intros _ v []]. }
    destruct (advance (E := E) ps _ PACE_LIMITER_FAST_ITERATIONS_MASK lim Hat) as (ps1 & ps2 & e & -> & Hat1 & Hdb1 & Hpace & Hat2 & Hdb2 & Hi & He). rewrite bind_Ok. cbn [map app concat] in *.
    destruct rest as [|x rest]; cbn [negb].
    + rewrite (scan_end_ok _ _ _ Hat1). eexists ps1, ids, lc, _. split; [done|]. split; [by destruct Hat1|]. split; [done|]. apply collects_stop; [done|by intros _ v []].
    + rewrite Hpace. destruct He as [->|[-> Hlate]]; [|eexists ps2, ids, lc, _; split; [done|]; split; [by destruct Hat2|]; split; [done|]; apply collects_err; [done|by right]].
      rewrite (Hi E x eq_refl), bind_Ok. apply Forall_cons in Hrest as [Hx _]. rewrite (starts_with_no _ _ Hx). cbn [negb].
      eexists ps2, ids, lc, _. split; [done|]. split; [by destruct Hat2|]. split; [done|]. apply collects_stop; [done|by intros _ v []].
  - destruct (Z.ltb_spec (Z.of_nat (set_len ids)) max) as [Hmax|Hmax]; cbn [negb].
    2:{ eexists ps, ids, lc, _. rewrite (scan_end_ok _ _ _ Hat). split; [done|]. split; [by destruct Hat|]. split; [done|]. apply collects_stop; [done|lia]. }
    destruct (advance (E := E) ps _ PACE_LIMITER_FAST_ITERATIONS_MASK lim Hat) as (ps1 & ps2 & e & -> & Hat1 & Hdb1 & Hpace & Hat2 & Hdb2 & Hi & He). rewrite bind_Ok. cbn [map app concat negb tail] in *.
    rewrite Hpace. destruct He as [->|[-> Hlate]]; [|eexists ps2, ids, lc, _; split; [done|]; split; [by destruct Hat2|]; split; [done|]; apply collects_err; [done|by right]].
    rewrite (Hi E _ eq_refl), bind_Ok, starts_with_yes by (by eexists). cbn [negb]. rewrite slice_from_app, bind_Ok. apply Forall_cons in Hrows as [[Hl Hu] Hrows].
    destruct (parse_tail (is_mp (pl_is ps2)) l Hl Hu) as (mp & -> & _ & -> & Hids & _). cbn zeta.
    destruct (Z.ltb_spec maxl (i64_add lc (Z.of_nat (length l)))); [eexists _, ids, _, _; split; [done|]; split; [by apply (at_parser _ _ mp) in Hat2 as [? _]|]; split; [done|]; apply collects_err; [done|by left]|].
    rewrite Hids. destruct (add_multi_ok (E := E) ids l Hw Hu) as (ids1 & -> & Hw1 & Hi1). rewrite bind_Ok.
    destruct (IH fuel (i64_add lc (Z.of_nat (length l))) (as_u64 (lim + 1)) ids1 (set_parser ps2 (parse_metric_ids mp)) Hrows) as (ps' & ids' & lc' & err & -> & Hp' & Hdb' & Hcol);
      [by apply at_parser|done|cbn in Hf; lia|].
    eexists ps', ids', lc', err. split; [done|]. split; [done|]. split; [by rewrite Hdb'|]. eapply collects_cons; [exact Hi1| |exact Hcol]. intros v. by rewrite in_app_iff.
Qed.

(** A row under a prefix: the rest of the value, then metric IDs. *)
Definition scan_row (p x s l : list Z) : Prop :=
  x = p ++ s ++ TAG_SEPARATOR_CHAR :: ids_bytes l /\ sep_free s /\ l <> [] /\ Forall is_u64 l.

Lemma scan_row_inj p x s l s' l' : scan_row p x s l -> scan_row p x s' l' -> s = s' /\ l = l'.
Proof.
  intros (-> & Hs & _ & Hl) (H & Hs' & _ & Hl'). apply app_inv_head in H. apply split_at_char in H as [-> H]; [|done..]. split; [done|].
  pose proof (parse_ids_app l [] Hl) as H1. rewrite H, parse_ids_app in H1 by done. by symmetry.
Qed.

Lemma prefix_loop_ok {E} prefix max rest : Forall (fun x => ~ prefix `prefix_of` x) rest ->
  forall rows fuel lim ids (ps : PlanState), (forall x, In x rows -> exists s l, scan_row prefix x s l) -> pl_at ps (rows ++ rest) -> wf_set ids -> (length rows < fuel)%nat ->
  exists ps' ids' err, prefix_loop (E := E) clock fuel prefix max lim ids ps = Ok (ps', ids', err) /\ pl_ok ps' /\ pl_db ps' = pl_db ps /\
    collects ids (fun v => exists x s l, In x rows /\ scan_row prefix x s l /\ In v l) max ids' err.
Proof.
  intros Hrest. induction rows as [|x rows IH]; intros fuel lim ids ps Hrows Hat Hw Hf; destruct fuel as [|fuel]; try (cbn in Hf; lia); cbn [prefix_loop];
    destruct (advance (E := E) ps _ PACE_LIMITER_FAST_ITERATIONS_MASK lim Hat) as (ps1 & ps2 & e & -> & Hat1 & Hdb1 & Hpace & Hat2 & Hdb2 & Hi & He); rewrite bind_Ok; cbn [app tail negb] in *.
  - destruct rest as [|x rest]; cbn [negb].
    + rewrite (scan_end_ok _ _ _ Hat1). eexists ps1, ids, _. split; [done|]. split; [by destruct Hat1|]. split; [done|]. apply collects_stop; [done|]. by intros _ v (x & s & l & [] & _).
    + rewrite Hpace. destruct He as [->|[-> Hlate]]; [|eexists ps2, ids, _; split; [done|]; split; [by destruct Hat2|]; split; [done|]; apply collects_err; [done|by right]].
      rewrite (Hi E x eq_refl), bind_Ok. apply Forall_cons in Hrest as [Hx _]. rewrite (starts_with_no _ _ Hx). cbn [negb].
      eexists ps2, ids, _. split; [done|]. split; [by destruct Hat2|]. split; [done|]. apply collects_stop; [done|]. by intros _ v (y & s & l & [] & _).
  - rewrite Hpace. destruct He as [->|[-> Hlate]]; [|eexists ps2, ids, _; split; [done|]; split; [by destruct Hat2|]; split; [done|]; apply collects_err; [done|by right]].
    destruct (Hrows x ltac:(by left)) as (s & l & Hrow). pose proof Hrow as (-> & Hs & Hl & Hu).
    rewrite (Hi E _ eq_refl), bind_Ok, starts_with_yes by (by eexists). cbn [negb]. rewrite slice_from_app, bind_Ok, find_sep by done.
    assert (Hd : drop (S (length s)) (s ++ TAG_SEPARATOR_CHAR :: ids_bytes l) = ids_bytes l) by (rewrite cons_middle, app_assoc; apply drop_app_length'; rewrite length_app; cbn; lia). rewrite Hd.
    destruct (parse_tail (is_mp (pl_is ps2)) l Hl Hu) as (mp & -> & _ & _ & Hids & _). cbn zeta.
    rewrite Hids. destruct (add_multi_ok (E := E) ids l Hw Hu) as (ids1 & -> & Hw1 & Hi1). rewrite bind_Ok.
    assert (HR : forall v (R : list Z -> Prop), (exists x s' l', (prefix ++ s ++ TAG_SEPARATOR_CHAR :: ids_bytes l = x \/ R x) /\ scan_row prefix x s' l' /\ In v l') <-> In v l \/ exists x s' l', R x /\ scan_row prefix x s' l' /\ In v l').
    { intros v R. split.
      - intros (x & s' & l' & [<-|Hx] & Hr & Hv); [|right; by exists x, s', l']. left. by destruct (scan_row_inj _ _ _ _ _ _ Hr Hrow) as [_ ->].
      - intros [Hv|(x & s' & l' & Hx & Hr & Hv)]; [by eexists _, s, l; split; [by left|]|exists x, s', l'; split; [by right|done]]. }
    destruct (Z.leb_spec max (Z.of_nat (set_len ids1))) as [Hmax|Hmax].
    + eexists _, ids1, None. split; [done|]. split; [by apply (at_parser _ _ (parse_metric_ids mp)) in Hat2 as [? _]|]. split; [done|].
      split; [done|]. split_and!; [intros v Hv; apply Hi1; by right| |lia]. intros v Hv. apply Hi1 in Hv as [Hv|Hv]; [right; apply (HR v (fun x => In x rows)); by left|by left].
    + destruct (IH fuel (as_u64 (lim + 1)) ids1 (set_parser ps2 (parse_metric_ids mp))) as (ps' & ids' & err & -> & Hp' & Hdb' & Hcol); [intros x Hx; apply Hrows; by right|by apply at_parser|done|cbn in Hf; lia|].
      eexists ps', ids', err. split; [done|]. split; [done|]. split; [by rewrite Hdb'|]. eapply collects_cons; [exact Hi1| |exact Hcol]. intros v. apply HR.
Qed.

(** ** The scan with a matcher *)

Section Slow.
  Context (tf : TagFilter) (m : list Z -> bool).
  Context (match_suffix : forall s, tf_match_suffix tf (s ++ [TAG_SEPARATOR_CHAR]) = Ok (m s)).
  Context (rows_ok : forall x, In x items -> tf_prefix tf `prefix_of` x -> exists s l, scan_row (tf_prefix tf) x s l).

(** The metric IDs of the matching rows of [out]. *)
Definition matching (out : list (list Z)) (v : Z) : Prop := exists x s l, In x out /\ scan_row (tf_prefix tf) x s l /\ m s = true /\ In v l.

Lemma scan_matching_cons x s l out v : scan_row (tf_prefix tf) x s l -> matching (x :: out) v <-> (m s = true /\ In v l) \/ matching out v.
Proof.
  intros Hr. split.
  - intros (y & s' & l' & [<-|Hy] & Hr' & Hm & Hv); [|right; by exists y, s', l']. left. by destruct (scan_row_inj _ _ _ _ _ _ Hr' Hr) as [-> ->].
  - intros [[Hm Hv]|(y & s' & l' & Hy & Hr' & Hm & Hv)]; [exists x, s, l; split; [by left|done]|exists y, s', l'; split; [by right|done]].
Qed.

Lemma collects_ext ids (R R' : Z -> Prop) max ids' err : (forall v, R v <-> R' v) -> collects ids R max ids' err -> collects ids R' max ids' err.
Proof.
  intros HR [Hw H]. split; [done|]. destruct err; [done|]. destruct H as (Ha & Hb & Hc). split_and!; [done| |].
  - intros v Hv. rewrite <-HR. by apply Hb.
  - intros Hl v Hv. apply Hc; [done|by apply HR].
Qed.

(** What is left when the scan goes on. *)
Record left_over (out : list (list Z)) : Prop := {
  lo_sorted : sorted_items out;
  lo_closed : closed_above items out;
  lo_items : forall x, In x out -> In x items;
  lo_from : forall x, In x out -> lex_leb (tf_prefix tf) x;
  lo_length : (length out <= length items)%nat;
}.

Lemma left_over_tail x out : left_over (x :: out) -> left_over out.
Proof.
  intros [H1 H2 H3 H4 H5]. split.
  - by apply StronglySorted_inv in H1 as [? _].
  - by eapply closed_above_tail.
  - intros y Hy. apply H3. by right.
  - intros y Hy. apply H4. by right.
  - cbn in H5. lia.
Qed.

Lemma left_over_seek key out : from_key items key out -> lex_leb (tf_prefix tf) key -> left_over out.
Proof.
  intros Hf Hk. split; [apply Hf|by eapply from_key_closed|intros x Hx; by apply Hf| |apply Hf]. intros x Hx. apply Hf in Hx as [_ Hx]. by eapply lex_leb_trans.
Qed.

(** Past the last row with the prefix nothing matches. *)
Lemma no_more x out v : left_over (x :: out) -> ~ tf_prefix tf `prefix_of` x -> ~ matching (x :: out) v.
Proof.
  intros Hlo Hx (y & s & l & Hy & (-> & _) & _). apply Hx. eapply (prefix_between _ x); [apply Hlo; by left| |by eexists].
  destruct Hy as [<-|Hy]; [by apply prefix_leb|]. pose proof (lo_sorted _ Hlo) as Hs. apply StronglySorted_inv in Hs as [_ Hs]. rewrite Forall_In in Hs. by apply Hs.
Qed.

(** Seeking past the rows of a value that does not match loses nothing. *)
Lemma skip_matching x s l out out2 : left_over (x :: out) -> scan_row (tf_prefix tf) x s l -> m s = false ->
  from_key items ((tf_prefix tf ++ s) ++ [TAG_SEPARATOR_CHAR + 1]) out2 ->
  left_over out2 /\ (forall v, matching out2 v <-> matching out v) /\ forall y, In y out2 -> In y out /\ y <> x.
Proof.
  intros Hlo Hr Hm Hf. pose proof Hr as (Hx & Hs & _). assert (Hp : ((tf_prefix tf ++ s) ++ [TAG_SEPARATOR_CHAR]) `prefix_of` x) by (exists (ids_bytes l); rewrite Hx, <-!app_assoc; done).
  pose proof (skip_value items x out out2 _ (lo_sorted _ Hlo) (lo_closed _ Hlo) Hp (lo_items _ Hlo x ltac:(by left)) Hf) as Hsk.
  assert (Hlo2 : left_over out2) by (eapply left_over_seek; [exact Hf|apply prefix_leb; rewrite <-app_assoc; by eexists]).
  assert (Hin : forall y, In y out2 -> In y out /\ ~ ((tf_prefix tf ++ s) ++ [TAG_SEPARATOR_CHAR]) `prefix_of` y) by (intros y Hy; apply Hsk; [by apply (lo_items _ Hlo2)|done]).
  split; [done|]. split; [|intros y Hy; destruct (Hin y Hy) as [H1 H2]; split; [done|by intros ->]]. intros v. split.
  - intros (y & s' & l' & Hy & H). exists y, s', l'. split; [by apply Hin|done].
  - intros (y & s' & l' & Hy & Hr' & Hm' & Hv). exists y, s', l'. split; [|done]. apply Hsk; [apply (lo_items _ (left_over_tail _ _ Hlo)), Hy|]. split; [done|]. intros [k Hk].
    destruct Hr' as (Hy' & Hs' & _). rewrite Hy', <-!app_assoc in Hk. apply app_inv_head in Hk. cbn [app] in Hk. apply split_at_char in Hk as [-> _]; [|done..]. by rewrite Hm in Hm'.
Qed.

Lemma slow_loop_ok {E} maxl max fuel : forall out lc lim (pm : bool) psuf ids (ps : PlanState),
  left_over out -> pl_at ps out -> wf_set ids -> (pm = true -> exists s, psuf = s ++ [TAG_SEPARATOR_CHAR] /\ m s = true) -> (rounds (length items) out < fuel)%nat ->
  exists ps' ids' lc' err, slow_loop (E := E) clock fuel tf maxl lc lim pm psuf ids ps = Ok (ps', ids', lc', err) /\ pl_ok ps' /\ pl_db ps' = pl_db ps /\
    collects ids (matching out) max ids' err.
Proof using match_suffix rows_ok.
  induction fuel as [|fuel IH]; intros out lc lim pm psuf ids ps Hlo Hat Hw Hpm Hf; [lia|]. cbn [slow_loop].
  destruct (advance (E := E) ps _ PACE_LIMITER_MEDIUM_ITERATIONS_MASK lim Hat) as (ps1 & ps2 & e & -> & Hat1 & Hdb1 & Hpace & Hat2 & Hdb2 & Hi & He). rewrite bind_Ok.
  destruct out as [|x out]; cbn [negb tail] in *.
  { rewrite (scan_end_ok _ _ _ Hat1). eexists ps1, ids, lc, _. split; [done|]. split; [by destruct Hat1|]. split; [done|]. apply collects_stop; [done|]. by intros _ v (x & s & l & [] & _). }
  rewrite Hpace. destruct He as [->|[-> Hlate]]; [|eexists ps2, ids, lc, _; split; [done|]; split; [by destruct Hat2|]; split; [done|]; apply collects_err; [done|by right]].
  rewrite (Hi E _ eq_refl), bind_Ok. destruct (decide (tf_prefix tf `prefix_of` x)) as [Hpx|Hpx].
  2:{ rewrite (starts_with_no _ _ Hpx). cbn [negb]. eexists ps2, ids, lc, None. split; [done|]. split; [by destruct Hat2|]. split; [done|]. apply collects_stop; [done|]. intros _ v. by apply no_more. }
  rewrite starts_with_yes by done. cbn [negb]. destruct (rows_ok x (lo_items _ Hlo x ltac:(by left)) Hpx) as (s & l & Hrow). pose proof Hrow as (Hx & Hs & Hl & Hu).
  assert (Hsl : slice_from (E := E) x (length (tf_prefix tf)) = Ok (s ++ TAG_SEPARATOR_CHAR :: ids_bytes l)) by (rewrite Hx; apply slice_from_app). rewrite Hsl, bind_Ok, find_sep by done.
  assert (Hsplit : s ++ TAG_SEPARATOR_CHAR :: ids_bytes l = (s ++ [TAG_SEPARATOR_CHAR]) ++ ids_bytes l) by (by rewrite <-app_assoc).
  assert (Hls : S (length s) = length (s ++ [TAG_SEPARATOR_CHAR])) by (rewrite length_app; cbn; lia).
  rewrite Hsplit, Hls, take_app_length, drop_app_length.
  destruct (parse_tail (is_mp (pl_is ps2)) l Hl Hu) as (mp & -> & _ & _ & Hids & Hlen). cbn zeta. rewrite Hlen, Hids. set (lc1 := i64_add lc (Z.of_nat (length l))).
  assert (Hat3 : pl_at (set_parser ps2 (parse_metric_ids mp)) out) by (by apply at_parser). set (ps3 := set_parser ps2 (parse_metric_ids mp)) in *.
  assert (Hdb3 : pl_db ps3 = pl_db ps) by done.
  pose proof (left_over_tail _ _ Hlo) as Hlo'. pose proof (rounds_tail (length items) x out) as Hr'.
  destruct (Z.ltb_spec maxl lc1); [eexists ps3, ids, _, _; split; [done|]; split; [by destruct Hat3|]; split; [done|]; apply collects_err; [done|by left]|].
  assert (Hmatch : m s = true -> forall lc' pm' psuf', (pm' = true -> exists s, psuf' = s ++ [TAG_SEPARATOR_CHAR] /\ m s = true) ->
    exists ps' ids' lc'' err, (ids ← lift_set (set_add_multi ids l); slow_loop (E := E) clock fuel tf maxl lc' (as_u64 (lim + 1)) pm' psuf' ids ps3) = Ok (ps', ids', lc'', err) /\
      pl_ok ps' /\ pl_db ps' = pl_db ps /\ collects ids (matching (x :: out)) max ids' err).
  { intros Hm lc' pm' psuf' Hpm'. destruct (add_multi_ok (E := E) ids l Hw Hu) as (ids1 & -> & Hw1 & Hi1). rewrite bind_Ok.
    destruct (IH out lc' (as_u64 (lim + 1)) pm' psuf' ids1 ps3 Hlo' Hat3 Hw1 Hpm' ltac:(lia)) as (ps' & ids' & lc'' & err & -> & Hp' & Hdb' & Hcol).
    eexists ps', ids', lc'', err. split; [done|]. split; [done|]. split; [by rewrite Hdb'|]. eapply collects_cons; [exact Hi1| |exact Hcol]. intros v. rewrite (scan_matching_cons _ _ _ _ _ Hrow), Hm. tauto. }
  destruct (pm && bool_decide (s ++ [TAG_SEPARATOR_CHAR] = psuf)) eqn:Hfast.
  { apply andb_true_iff in Hfast as [-> Heq%bool_decide_eq_true]. destruct (Hpm eq_refl) as (s' & Hs' & Hm'). rewrite Hs' in Heq. apply app_inj_2 in Heq as [-> _]; [|done].
    destruct (Hmatch Hm' lc1 true psuf Hpm) as (ps' & ids' & lc'' & err & He & Hres). by exists ps', ids', lc'', err. }
  rewrite match_suffix. destruct (m s) eqn:Hm; cbn [negb].
  { destruct (Hmatch eq_refl (i64_add lc1 (as_i64 (10 * as_i64 (tf_match_cost tf)))) true (s ++ [TAG_SEPARATOR_CHAR])) as (ps' & ids' & lc'' & err & He & Hres); [by exists s|].
    by exists ps', ids', lc'', err. }
  assert (Hskip : forall v, matching out v <-> matching (x :: out) v) by (intros v; rewrite (scan_matching_cons _ _ _ _ _ Hrow), Hm; naive_solver).
  destruct (length l <? MAX_METRIC_IDS_PER_ROW / 2)%nat.
  { destruct (IH out (i64_add lc1 (as_i64 (10 * as_i64 (tf_match_cost tf)))) (as_u64 (lim + 1)) false psuf ids ps3 Hlo' Hat3 Hw ltac:(done) ltac:(lia)) as (ps' & ids' & lc'' & err & -> & Hp' & Hdb' & Hcol).
    eexists ps', ids', lc'', err. split; [done|]. split; [done|]. split; [by rewrite Hdb'|]. by eapply collects_ext. }
  assert (Hkb : take (length x - length (ids_bytes l)) x = (tf_prefix tf ++ s) ++ [TAG_SEPARATOR_CHAR])
    by (rewrite Hx, Hsplit, !app_assoc, length_app, Nat.add_sub; apply take_app_length). rewrite Hkb, next_value_key_snoc.
  destruct (seek_at (E := E) ps3 ((tf_prefix tf ++ s) ++ [TAG_SEPARATOR_CHAR + 1]) (proj1 Hat3)) as (ps4 & out2 & -> & Hat4 & Hfk & Hdb4). rewrite bind_Ok.
  destruct (skip_matching x s l out out2 Hlo Hrow Hm Hfk) as (Hlo2 & Hmm & Hin2).
  pose proof (rounds_seek (length items) x out out2 (lo_length _ Hlo2) Hin2) as Hr2.
  destruct (IH out2 (i64_add (i64_add lc1 (as_i64 (10 * as_i64 (tf_match_cost tf)))) 1000) (as_u64 (lim + 1)) false psuf ids ps4 Hlo2 Hat4 Hw ltac:(done) ltac:(lia)) as (ps' & ids' & lc'' & err & -> & Hp' & Hdb' & Hcol).
  eexists ps', ids', lc'', err. split; [done|]. split; [done|]. split; [by rewrite Hdb', Hdb4|]. eapply collects_ext; [|exact Hcol]. intros v. by rewrite Hmm, Hskip.
Qed.
End Slow.
End Scans.
