(* ===== verification/IndexPlannerSpec.v ===== *)
(** * The planner finds exactly the matching series

    What a tag filter selects, in the index and by the name of a series, and
    the proof that the planner of [IndexPlanner] returns exactly the series of
    a date whose name passes all filters, whatever the statistics say. *)
From Stdlib Require Import ZArith Lia Bool Sorted.
From stdpp Require Import base gmap list.
From S2P Require Import Prelude IntCodec TimeRange Tsid MetricName ItemBlock ItemBlockSpec IndexRow IndexRowSpec Uint64Set Uint64SetSpec IndexCaches ItemTableSearch ItemTable IndexDb IndexDbSpec TagFilter IndexPlanner IndexScanSpec.
Local Open Scope Z_scope.

(** ** Well-formed filters *)

(** The prefix of the rows of a key, and the escaped literal that a filter asks
    of a value. *)
Definition key_prefix (head key : list Z) : list Z := head ++ escape key ++ [TAG_SEPARATOR_CHAR].

Definition global_head : list Z := [NS_PREFIX_TAG_TO_METRIC_IDS].

Definition tf_lit (tf : TagFilter) : list Z := drop (length (key_prefix global_head (tf_key tf))) (tf_prefix tf).

Definition suffix_accepts (tf : TagFilter) (s : list Z) : bool :=
  if tf_is_regexp tf then match tf_re_suffix_match tf with Some f => f s | None => false end else bool_decide (s = []).

(** Whether the value passes, leaving the sign aside. *)
Definition accepts_at (lit : list Z) (tf : TagFilter) (v : list Z) : bool :=
  match strip_prefix (escape v) lit with Some s => suffix_accepts tf s | None => false end.

Definition accepts (tf : TagFilter) (v : list Z) : bool := accepts_at (tf_lit tf) tf v.

(** A filter on the rows with [head] before the key. *)
Record filter_at (head lit : list Z) (tf : TagFilter) : Prop := {
  fa_prefix : tf_prefix tf = key_prefix head (tf_key tf) ++ lit;
  fa_lit : sep_free lit;
  fa_suffixes : Forall (fun s => sep_free s) (tf_or_suffixes tf);
  fa_plain : tf_is_regexp tf = false -> tf_or_suffixes tf = [[]];
  fa_regexp : tf_is_regexp tf = true -> exists f, tf_re_suffix_match tf = Some f /\ (tf_or_suffixes tf <> [] -> forall s, f s = true <-> In s (tf_or_suffixes tf));
}.

Record filter_ok (tf : TagFilter) : Prop := {
  fo_at : filter_at global_head (tf_lit tf) tf;
  fo_empty : tf_is_empty_match tf = accepts tf [];
}.

Lemma strip_prefix_app p s : strip_prefix (p ++ s) p = Some s.
Proof. unfold strip_prefix. by rewrite starts_with_yes, drop_app_length by (by eexists). Qed.

Lemma strip_prefix_Some b p s : strip_prefix b p = Some s <-> b = p ++ s.
Proof.
  split; [|intros ->; apply strip_prefix_app]. unfold strip_prefix. destruct (starts_with b p) eqn:H; [|done]. intros [= <-].
  assert (Hp : p `prefix_of` b) by (apply starts_with_spec; by rewrite H). destruct Hp as [k ->]. by rewrite drop_app_length.
Qed.

Lemma accepts_spec lit tf v : accepts_at lit tf v = true <-> exists s, escape v = lit ++ s /\ suffix_accepts tf s = true.
Proof.
  unfold accepts_at. destruct (strip_prefix _ _) as [s|] eqn:H.
  - apply strip_prefix_Some in H. split; [by exists s|]. intros (s' & H' & ?). rewrite H in H'. by apply app_inv_head in H' as ->.
  - split; [done|]. intros (s & Hs & _). by rewrite (proj2 (strip_prefix_Some _ _ _) Hs) in H.
Qed.

(** The alternatives of a filter are the suffixes it accepts. *)
Lemma suffix_in head lit tf s : filter_at head lit tf -> tf_or_suffixes tf <> [] -> In s (tf_or_suffixes tf) <-> suffix_accepts tf s = true.
Proof.
  intros Hok Hne. unfold suffix_accepts. destruct (tf_is_regexp tf) eqn:Hr.
  - destruct (fa_regexp _ _ _ Hok Hr) as (f & -> & Hf). symmetry. by apply Hf.
  - rewrite (fa_plain _ _ _ Hok Hr), bool_decide_eq_true. cbn. naive_solver.
Qed.

Lemma match_suffix_ok head lit tf s : filter_at head lit tf -> tf_match_suffix tf (s ++ [TAG_SEPARATOR_CHAR]) = Ok (suffix_accepts tf s).
Proof.
  intros Hok. unfold tf_match_suffix, suffix_accepts. rewrite last_snoc, Z.eqb_refl. cbn [negb]. rewrite guard_false by done. rewrite bind_Ok, removelast_last.
  destruct (tf_is_regexp tf) eqn:Hr; cbn [negb].
  - by destruct (fa_regexp _ _ _ Hok Hr) as (f & -> & _).
  - f_equal. by destruct s.
Qed.

(** The match of a filter against a tag with its key. *)
Lemma matches_ok tf v : filter_ok tf -> tf_matches tf (key_prefix global_head (tf_key tf) ++ escape v ++ [TAG_SEPARATOR_CHAR]) = Ok (xorb (tf_is_negative tf) (accepts tf v)).
Proof.
  intros [Hok _]. unfold tf_matches. rewrite (fa_prefix _ _ _ Hok). unfold accepts, accepts_at. destruct (strip_prefix (escape v) (tf_lit tf)) as [s|] eqn:Hs.
  - apply strip_prefix_Some in Hs. rewrite Hs, <-app_assoc, app_assoc, starts_with_yes by (by eexists). cbn [negb]. rewrite slice_from_app, bind_Ok, (match_suffix_ok _ _ _ _ Hok). rewrite bind_Ok.
    by destruct (suffix_accepts tf s), (tf_is_negative tf).
  - rewrite starts_with_no; [cbn; by rewrite xorb_false_r|]. intros [k Hk]. rewrite <-app_assoc in Hk. apply app_inv_head in Hk.
    destruct (sep_prefix (escape v) (tf_lit tf) [] k) as (s & Hv & _); [apply escape_sep_free|apply Hok|done|]. by rewrite (proj2 (strip_prefix_Some _ _ _) Hv) in Hs.
Qed.

(** ** Labels *)

(** The value of a tag among those a series is indexed under. *)
Definition ilabel (mn : MetricName) (key : list Z) : option (list Z) := t_value <$> find (fun t => bool_decide (t_key t = key)) (index_tags mn).

(** What a filter says of a series by the rows of the index. *)
Definition isem (mn : MetricName) (tf : TagFilter) : bool :=
  match ilabel mn (tf_key tf) with
  | Some v => xorb (tf_is_negative tf) (accepts tf v)
  | None => tf_is_negative tf || tf_is_empty_match tf
  end.

(** Names whose tags have distinct keys, none of them reserved. *)
Record name_clean (mn : MetricName) : Prop := {
  nc_ok : name_ok mn;
  nc_keys : NoDup (map t_key (tags mn));
  nc_plain : Forall (fun t => t_key t <> [] /\ is_artificial_tag_key (t_key t) = false) (tags mn);
}.

Lemma find_NoDup (l : list Tag) key v : NoDup (map t_key l) -> t_value <$> find (fun t => bool_decide (t_key t = key)) l = Some v <-> In (mkTag key v) l.
Proof.
  intros Hnd. induction l as [|t l IH]; [done|]. cbn [map] in Hnd. apply NoDup_cons in Hnd as [Hn Hnd]. cbn [find]. case_bool_decide as Hk.
  - cbn. split; [intros [= <-]; left; by destruct t, Hk|]. intros [->|Hin]; [done|]. destruct Hn. rewrite Hk, list_elem_of_In. change key with (t_key (mkTag key v)). by apply in_map.
  - rewrite (IH Hnd). cbn. split; [by right|]. intros [->|Hin]; [done|done].
Qed.

Definition short_name (n : list Z) : Prop := Z.of_nat (length n) < 2 ^ 64.

Lemma composite_key_split n k : short_name n -> marshal_composite_tag_key [] n k = COMPOSITE_TAG_KEY_PREFIX :: leb128 (Z.of_nat (length n)) ++ n ++ k.
Proof.
  intros Hn. unfold marshal_composite_tag_key, marshal_var_uint64. rewrite append_var_uint64_leb128 by (unfold short_name, is_u in *; lia). cbn [app]. by rewrite <-!app_assoc.
Qed.

Lemma artificial_composite n k : short_name n -> is_artificial_tag_key (marshal_composite_tag_key [] n k) = true.
Proof. intros Hn. rewrite composite_key_split by done. unfold is_artificial_tag_key. cbn. by rewrite orb_true_r. Qed.

Lemma index_keys_NoDup mn : name_clean mn -> NoDup (map t_key (index_tags mn)).
Proof.
  intros [Hok Hk Hp]. rewrite Forall_In in Hp. pose proof (no_length _ Hok) as Hl. unfold index_tags. cbn [map t_key]. rewrite !map_app, map_map. cbn [composite_tag t_key].
  assert (Hc : forall k, k ∈ map (fun t => t_key (composite_tag mn t)) (tags mn) -> is_artificial_tag_key k = true /\ k <> [255]).
  { intros k (t & -> & _)%list_elem_of_fmap. cbn [composite_tag t_key]. split; [by apply artificial_composite|]. by rewrite composite_key_split. }
  assert (Ht : forall k, k ∈ map t_key (tags mn) -> k <> [] /\ is_artificial_tag_key k = false) by (intros k (t & -> & H)%list_elem_of_fmap; by apply Hp, list_elem_of_In).
  assert (Hg : forall k, k ∈ map t_key (if existsb (Z.eqb 46) (metric_group mn) then [mkTag GRAPHITE_REVERSE_TAG_KEY (reverse (metric_group mn))] else []) -> k = [255])
    by (intros k; destruct (existsb _ _); cbn; [by intros ->%list_elem_of_singleton|by intros ?%elem_of_nil]).
  constructor.
  - rewrite !elem_of_app. intros [H|[H|H]]; [by apply Hg in H|by apply Ht in H as [? _]|by apply Hc in H as [? _]].
  - apply NoDup_app. split; [destruct (existsb _ _); [apply NoDup_singleton|constructor]|]. split.
    + intros k ->%Hg. rewrite elem_of_app. intros [[_ H]%Ht|[_ H]%Hc]; [discriminate H|done].
    + apply NoDup_app. split; [done|]. split; [intros k [_ H1]%Ht [H2 _]%Hc; by rewrite H1 in H2|]. rewrite <-(map_map t_key (marshal_composite_tag_key [] (metric_group mn))).
      apply NoDup_fmap_2; [|done]. intros a b H. unfold marshal_composite_tag_key in H. by apply app_inv_head in H.
Qed.

Lemma ilabel_In mn key v : name_clean mn -> ilabel mn key = Some v <-> In (mkTag key v) (index_tags mn).
Proof. intros H. apply find_NoDup, index_keys_NoDup, H. Qed.

(** ** The filter [.+] *)

(** [(?s:.+)]. *)
Definition dot_plus_expr : list Z := [40; 63; 115; 58; 46; 43; 41].

(** What the two components under the filters do with [.+]: it has no literal
    prefix and no alternatives, and matches the texts that are not empty. *)
Class DotPlusLaws {Re : RegexEngine} {Ru : RegexUtil} : Prop := {
  dp_simplify : simplify_prom_regex dot_plus = ([], dot_plus_expr);
  dp_or_values : get_or_values_prom_regex dot_plus_expr = [];
  dp_regex : exists f, regex_new ([94; 40; 63; 58] ++ dot_plus_expr ++ [41; 36]) = Some f /\ forall s, valid_utf8 s = true -> f s = negb (bool_decide (s = []));
}.

Record dot_plus_filter (head key : list Z) (tf : TagFilter) : Prop := {
  dpf_at : filter_at head [] tf;
  dpf_key : tf_key tf = key;
  dpf_sign : tf_is_negative tf = false /\ tf_is_empty_match tf = false;
  dpf_accepts : forall v, valid_utf8 (escape v) = true -> accepts_at [] tf v = negb (bool_decide (v = []));
}.

Lemma dot_plus_init {Re : RegexEngine} {Ru : RegexUtil} {Dp : DotPlusLaws} head key : exists tf, tf_init head key dot_plus false true = Ok tf /\ dot_plus_filter head key tf.
Proof.
  destruct dp_regex as (f & Hf & Hs). unfold tf_init. change (valid_utf8 dot_plus) with true. cbn [negb]. rewrite guard_false by done. rewrite bind_Ok, dp_simplify. cbv beta iota zeta delta [dot_plus_expr]. fold dot_plus_expr. rewrite bind_Ok. cbn [negb]. unfold get_regexp_from_cache. change (tag_chars_regexp_escape dot_plus_expr) with dot_plus_expr. rewrite Hf. cbn [ok_or]. rewrite bind_Ok, dp_or_values.
  change (get_optimized_re_match_func f dot_plus_expr) with (f, RE_MATCH_COST). cbv beta iota zeta. rewrite bind_Ok. cbn [re_match re_cost or_values length Nat.eqb andb].
  assert (Hp : marshal_tag_value_no_trailing_tag_separator (marshal_tag_value head key) [] = key_prefix head key).
  { unfold marshal_tag_value_no_trailing_tag_separator, key_prefix. rewrite !marshal_tag_value_escape. cbn [escape map concat app]. by rewrite removelast_last. }
  eexists. split; [done|]. rewrite Hp. split; cbn.
  - split; cbn; [by rewrite app_nil_r|constructor|constructor|done|]. intros _. by exists f.
  - done.
  - split; [done|]. by apply Hs.
  - intros v Hv. unfold accepts_at, suffix_accepts. rewrite (proj2 (strip_prefix_Some (escape v) [] (escape v)) eq_refl). cbn. rewrite Hs by done. f_equal. apply bool_decide_ext. split; [|by intros ->].
    intros He. by apply escape_inj.
Qed.

(** ** Rows of a date *)

(** The namespace and date under which the rows of a date are. *)
Definition date_ns (date : Z) : Z * Z := if date =? GLOBAL_INDEX_DATE then (NS_PREFIX_TAG_TO_METRIC_IDS, 0) else (NS_PREFIX_DATE_TAG_TO_METRIC_IDS, date).

Lemma date_head date : marshal_common_prefix_for_date [] date = row_head (date_ns date).1 (date_ns date).2.
Proof. unfold marshal_common_prefix_for_date, date_ns. by destruct (date =? GLOBAL_INDEX_DATE). Qed.

Section Dates.
  Context {Xx : Xxh64} {Re : RegexEngine} {Ru : RegexUtil} {T W : Type} {Tb : ItemTable T W} (items : list (list Z)) {L : ItemTableLaws T W items}.
  Context (d : bool) (ops : list index_op) (ops_ok : Forall op_ok ops).

(** The series of a date; date 0 stands for all series. *)
Definition on_date (date : Z) (t : Tsid) (mn : MetricName) : Prop :=
  if date =? GLOBAL_INDEX_DATE then In (OpGlobal t mn) ops else d = false /\ In (OpDay date t mn) ops.

Lemma tag_rows_inv op r : op_ok op -> row_ok r -> In (row_bytes r) (op_items d op) ->
  match op with
  | OpGlobal t mn => exists tag, In tag (index_tags mn) /\ r = mkRow NS_PREFIX_TAG_TO_METRIC_IDS 0 tag [metric_id t]
  | OpDay date t mn => d = false /\ exists tag, In tag (index_tags mn) /\ r = mkRow NS_PREFIX_DATE_TAG_TO_METRIC_IDS date tag [metric_id t]
  | OpDelete ids => False
  end.
Proof.
  intros Hop Hr Hin. assert (Hplain : forall ns l, row_bytes r = ns :: l -> plain_ns ns -> False).
  { intros ns l He [H1 H2]. apply (f_equal head) in He. rewrite head_row in He. injection He as He. destruct (ok_ns _ Hr); congruence. }
  destruct op as [t mn|date t mn|ids]; cbn [op_items op_ok] in *.
  - destruct Hop as [Ht Hm]. unfold global_items in Hin. rewrite !in_app_iff in Hin. destruct Hin as [H|[H|H]].
    + destruct d; [|done]. destruct H as [H|[]]. by destruct (Hplain _ _ (eq_sym H)).
    + destruct H as [H|[H|[]]]; by destruct (Hplain _ _ (eq_sym H)).
    + apply in_map_iff in H as (tag & H & Htag). exists tag. split; [done|]. apply row_bytes_inj; [done| |done]. destruct (name_index_tags_ok _ _ Hm Htag).
      apply tag_row_ok; [by left|done|done|apply Ht|done|done].
  - destruct Hop as (Hd & Ht & Hm). unfold day_items in Hin. destruct d; [done|]. rewrite in_app_iff in Hin. split; [done|]. destruct Hin as [[H|[H|[]]]|H]; [by destruct (Hplain _ _ (eq_sym H))..|].
    apply in_map_iff in H as (tag & H & Htag). exists tag. split; [done|]. apply row_bytes_inj; [done| |done]. destruct (name_index_tags_ok _ _ Hm Htag).
    apply tag_row_ok; [by right|done|done|apply Ht|done|done].
  - apply in_map_iff in Hin as (id & H & _). by destruct (Hplain _ _ (eq_sym H)).
Qed.

(** The postings of a date are the tags of its series. *)
Lemma shown_posting db self w date tag id : idx_ok items d ops db self w ->
  posting_in items (((date_ns date).1, (date_ns date).2, tag), id) <-> exists t mn, on_date date t mn /\ metric_id t = id /\ In tag (index_tags mn).
Proof using ops_ok.
  intros Hx. rewrite (sw_postings _ _ (ix_shows _ _ _ _ _ _ Hx)). pose proof (di_items _ _ _ (ix_db _ _ _ _ _ _ Hx)) as Hit. rewrite Forall_In in ops_ok. split.
  - intros (r & Hr & Hin & Hp & Hid). apply Hit in Hin as (op & Hop & Hin). pose proof (tag_rows_inv op r (ops_ok _ Hop) Hr Hin) as H. unfold row_prefix in Hp. cbn [fst snd] in *.
    unfold on_date, date_ns in *. destruct op as [t mn|date' t mn|ids]; [| |done].
    + destruct H as (tg & Htg & ->). cbn [r_ns r_date r_tag r_ids] in *. exists t, mn. destruct (date =? GLOBAL_INDEX_DATE); [|done]. injection Hp as ->. destruct Hid as [->|[]]. done.
    + destruct H as (Hd & tg & Htg & ->). cbn [r_ns r_date r_tag r_ids] in *. exists t, mn. destruct (date =? GLOBAL_INDEX_DATE); [done|]. injection Hp as -> ->. destruct Hid as [->|[]]. done.
  - intros (t & mn & Hon & <- & Htag). exists (mkRow (date_ns date).1 (date_ns date).2 tag [metric_id t]). unfold on_date, date_ns in *. destruct (date =? GLOBAL_INDEX_DATE) eqn:Hd0; cbn [fst snd].
    + destruct (ops_ok _ Hon) as [Ht Hm]. destruct (name_index_tags_ok _ _ Hm Htag). split; [apply tag_row_ok; [by left|done|done|apply Ht|done|done]|]. split; [|split; [done|by left]].
      apply Hit. exists (OpGlobal t mn). split; [done|]. cbn [op_items]. unfold global_items. rewrite !in_app_iff. right. right. apply in_map_iff. by exists tag.
    + destruct Hon as [-> Hon]. destruct (ops_ok _ Hon) as (Hd & Ht & Hm). destruct (name_index_tags_ok _ _ Hm Htag). split; [apply tag_row_ok; [by right|done|done|apply Ht|done|done]|].
      split; [|split; [done|by left]]. apply Hit. exists (OpDay date t mn). split; [done|]. cbn [op_items]. unfold day_items. rewrite in_app_iff. right. apply in_map_iff. by exists tag.
Qed.

Lemma row_bytes_head r : row_bytes r = row_head (r_ns r) (r_date r) ++ escape (t_key (r_tag r)) ++ TAG_SEPARATOR_CHAR :: escape (t_value (r_tag r)) ++ TAG_SEPARATOR_CHAR :: ids_bytes (r_ids r).
Proof. unfold row_bytes, prefix_bytes, row_head, tag_bytes. cbn [app]. rewrite <-!app_assoc. cbn [app]. by rewrite <-!app_assoc. Qed.

Lemma row_head_inj ns date ns' date' x y : is_u64 date -> is_u64 date' -> row_head ns date ++ x = row_head ns' date' ++ y ->
  ns = ns' /\ (ns = NS_PREFIX_DATE_TAG_TO_METRIC_IDS -> date = date') /\ x = y.
Proof.
  unfold row_head. rewrite <-!app_comm_cons. intros Hd Hd' [= <- H]. split; [done|]. destruct (Z.eqb_spec ns NS_PREFIX_DATE_TAG_TO_METRIC_IDS) as [->|Hns]; [|done].
  apply app_inj_1 in H as [H ->]; [|done]. by apply be8_inj in H.
Qed.

(** A row under a key and the beginning of a value. *)
Lemma rows_under db self w date key lit x : idx_ok items d ops db self w -> is_u64 date -> sep_free lit -> In x items ->
  (key_prefix (marshal_common_prefix_for_date [] date) key ++ lit) `prefix_of` x ->
  exists value s l, escape value = lit ++ s /\ scan_row (key_prefix (marshal_common_prefix_for_date [] date) key ++ lit) x s l /\
    forall id, In id l -> posting_in items (((date_ns date).1, (date_ns date).2, mkTag key value), id).
Proof.
  intros Hx Hdt Hlit Hin [k Hk]. rewrite date_head in *. unfold key_prefix in *. rewrite <-!app_assoc in Hk. cbn [app] in Hk.
  assert (Hdd : is_u64 (date_ns date).2) by (unfold date_ns; by destruct (_ =? _)).
  pose proof (sw_good _ _ (ix_shows _ _ _ _ _ _ Hx)) as Hg. rewrite Forall_In in Hg. destruct (Hg x Hin) as (r & Hr & Hxr).
  { exists (date_ns date).1. split; [by rewrite Hk|]. unfold date_ns. destruct (_ =? _); [by left|by right]. }
  pose proof Hxr as Hrow. rewrite row_bytes_head, Hk in Hrow. apply row_head_inj in Hrow as (Hns & Hdate & Hrow); [|done|apply Hr].
  symmetry in Hrow. apply split_at_char in Hrow as [Hkey Hrow]; [|apply escape_sep_free..]. apply escape_inj in Hkey.
  destruct (sep_prefix _ lit _ _ (escape_sep_free _) Hlit Hrow) as (s & Hval & Hs).
  exists (t_value (r_tag r)), s, (r_ids r). split; [done|]. split.
  - split; [rewrite <-!app_assoc; cbn [app]; by rewrite Hk, Hs|]. split; [|split; [apply Hr|apply Hr]]. pose proof (escape_sep_free (t_value (r_tag r))) as H. rewrite Hval in H. by apply Forall_app in H as [_ ?].
  - intros id Hid. exists r. split; [done|]. split; [by rewrite <-Hxr|]. split; [|done]. unfold row_prefix. cbn [fst]. rewrite Hns. rewrite <-Hkey. destruct (r_tag r) as [k0 v0]. cbn [t_key t_value].
    f_equal. f_equal. unfold date_ns in *. destruct (date =? GLOBAL_INDEX_DATE); cbn [fst snd] in *; [by apply (ok_global _ Hr)|symmetry; by apply Hdate].
Qed.

(** The row of a posting. *)
Lemma row_under date key value lit s id : escape value = lit ++ s -> sep_free lit ->
  posting_in items (((date_ns date).1, (date_ns date).2, mkTag key value), id) ->
  exists x l, In x items /\ scan_row (key_prefix (marshal_common_prefix_for_date [] date) key ++ lit) x s l /\ In id l.
Proof.
  intros Hv Hlit (r & Hr & Hin & Hp & Hid). exists (row_bytes r), (r_ids r). split; [done|]. split; [|done]. unfold row_prefix in Hp. cbn [fst snd] in *. injection Hp as Hns Hdate Htag.
  rewrite date_head. unfold key_prefix. split; [|split; [|split; apply Hr]].
  - rewrite row_bytes_head, Hns, Hdate, Htag. cbn [t_key t_value]. rewrite Hv, <-!app_assoc. cbn [app]. done.
  - pose proof (escape_sep_free value) as H. rewrite Hv in H. by apply Forall_app in H as [_ ?].
Qed.

(** The metric IDs of the series of the date with a tag whose value passes. *)
Definition with_tag (date : Z) (key : list Z) (A : list Z -> Prop) (id : Z) : Prop :=
  exists t mn v, on_date date t mn /\ metric_id t = id /\ In (mkTag key v) (index_tags mn) /\ A v.

Lemma with_tag_posting db self w date key A id : idx_ok items d ops db self w ->
  with_tag date key A id <-> exists v, posting_in items (((date_ns date).1, (date_ns date).2, mkTag key v), id) /\ A v.
Proof using ops_ok.
  intros Hx. unfold with_tag. split.
  - intros (t & mn & v & Hon & Hid & Hin & Hv). exists v. split; [|done]. apply (shown_posting db self w); [done|]. by exists t, mn.
  - intros (v & Hp & Hv). apply (shown_posting db self w) in Hp as (t & mn & Hon & Hid & Hin); [|done]. by exists t, mn, v.
Qed.

Lemma with_tag_ext date key (A B : list Z -> Prop) id : (forall v, A v <-> B v) -> with_tag date key A id <-> with_tag date key B id.
Proof. intros H. unfold with_tag. split; intros (t & mn & v & H1 & H2 & H3 & H4); exists t, mn, v; split_and!; try done; by apply H. Qed.

Lemma with_tag_or date key (A B : list Z -> Prop) id : with_tag date key (fun v => A v \/ B v) id <-> with_tag date key A id \/ with_tag date key B id.
Proof.
  unfold with_tag. split.
  - intros (t & mn & v & H1 & H2 & H3 & [H4|H4]); [left|right]; by exists t, mn, v.
  - intros [(t & mn & v & H1 & H2 & H3 & H4)|(t & mn & v & H1 & H2 & H3 & H4)]; exists t, mn, v; split_and!; try done; [by left|by right].
Qed.

(** ** One filter *)

Section Filters.
  Context (clock : nat -> Z) (deadline : Z) (fuel : nat) (enough : (S (length items) * S (length items) <= fuel)%nat) {RC : list Z -> USet -> Prop}.
  Context (date : Z) (date_ok : is_u64 date).

Abbreviation PlanState := (PlanState (T := T) (W := W)).
Abbreviation pl_ok := (pl_ok (T := T) (W := W) items d ops deadline (RC := RC)).
Abbreviation date_prefix := (marshal_common_prefix_for_date [] date).

Lemma items_fuel : (length items < fuel)%nat.
Proof using enough. nia. Qed.

(** The metric IDs found for a filter. *)
Definition finds (R : Z -> Prop) (max : Z) (r : outcome USet) : Prop :=
  match r with
  | inr e => scan_err clock deadline e
  | inl ids => wf_set ids /\ (forall v, v ∈ set_items ids -> R v) /\ (Z.of_nat (set_len ids) < max -> forall v, R v -> v ∈ set_items ids)
  end.

Lemma collects_finds R max ids err : collects clock deadline set_default R max ids err -> finds R max (match err with Some e => inr e | None => inl ids end).
Proof.
  intros [Hw H]. destruct err as [e|]; [done|]. destruct H as (_ & Hb & Hc). split; [done|]. split; [|done]. intros v Hv. apply Hb in Hv as [Hv|Hv]; [|done].
  change (set_items set_default) with (@nil Z) in Hv. by apply elem_of_nil in Hv.
Qed.

(** The rows of a value, as lists of metric IDs. *)
Lemma as_rows P ps : (forall x, In x ps -> exists l, x = P ++ ids_bytes l /\ l <> [] /\ Forall is_u64 l) ->
  exists rows, ps = map (fun l => P ++ ids_bytes l) rows /\ Forall (fun l => l <> [] /\ Forall is_u64 l) rows.
Proof.
  induction ps as [|x ps IH]; intros H; [by exists []|]. destruct IH as (rows & -> & Hr); [by intros y Hy; apply H; right|].
  destruct (H x ltac:(by left)) as (l & -> & Hl). exists (l :: rows). split; [done|by constructor].
Qed.

Lemma ids_bytes_inj l l' : Forall is_u64 l -> Forall is_u64 l' -> ids_bytes l = ids_bytes l' -> l = l'.
Proof. intros H H' He. pose proof (parse_ids_app l [] H) as H1. rewrite He, parse_ids_app in H1 by done. by symmetry. Qed.

(** Looking up one alternative. *)
Lemma or_suffix_ok {E} lit key s ids max maxl (ps : PlanState) : pl_ok ps -> sep_free lit -> sep_free s -> wf_set ids ->
  exists ps' ids' lc err,
    update_metric_ids_for_or_suffix (E := E) clock fuel (((key_prefix date_prefix key ++ lit) ++ s) ++ [TAG_SEPARATOR_CHAR]) ids max maxl ps = Ok (ps', ids', lc, err) /\
    pl_ok ps' /\ pl_db ps' = pl_db ps /\ collects clock deadline ids (with_tag date key (fun v => escape v = lit ++ s)) max ids' err.
Proof using enough date_ok ops_ok.
  intros Hp Hlit Hs Hw. unfold update_metric_ids_for_or_suffix. set (P := ((key_prefix date_prefix key ++ lit) ++ s) ++ [TAG_SEPARATOR_CHAR]).
  destruct (seek_at (E := E) items d ops deadline ps P Hp) as (ps1 & out & -> & Hat & Hfk & Hdb). rewrite bind_Ok.
  destruct (from_key_split _ _ _ Hfk) as (xs & rest & -> & _ & Hrest & Hlen & _ & Hxs).
  pose proof (po_idx _ _ _ _ _ Hp) as Hx.
  assert (HP : forall l, P ++ l = (key_prefix date_prefix key ++ lit) ++ s ++ TAG_SEPARATOR_CHAR :: l) by (intros l; unfold P; by rewrite <-!app_assoc).
  assert (Hrow : forall x, In x items /\ P `prefix_of` x <-> exists l, In x items /\ scan_row (key_prefix date_prefix key ++ lit) x s l).
  { intros x. split.
    - intros [Hin [k Hk]]. destruct (rows_under _ _ _ date key lit x Hx date_ok Hlit Hin) as (v & s' & l & _ & Hr & _); [rewrite Hk, HP; by eexists|].
      pose proof Hr as (Hxe & Hs' & _). rewrite Hk, HP in Hxe. apply app_inv_head in Hxe. apply split_at_char in Hxe as [<- _]; [|done..]. by exists l.
    - intros (l & Hin & Hr). split; [done|]. destruct Hr as (-> & _). rewrite <-HP. by eexists. }
  destruct (as_rows P xs) as (rows & -> & Hrows).
  { intros x Hin. apply Hxs, Hrow in Hin as (l & _ & (-> & _ & Hl & Hu)). exists l. by rewrite HP. }
  rewrite length_map in Hlen.
  destruct (or_suffix_loop_ok (E := E) items d ops clock deadline P max maxl rest Hrest rows fuel 0 0 ids ps1 Hrows Hat Hw) as (ps' & ids' & lc & err & He & Hp' & Hdb' & Hcol); [pose proof items_fuel; lia|].
  exists ps', ids', lc, err. split; [done|]. split; [done|]. split; [by rewrite Hdb'|]. eapply collects_ext; [exact eq_refl..| |exact Hcol]. rewrite Forall_In in Hrows.
  intros v. rewrite (with_tag_posting _ _ _ _ _ _ _ Hx), in_concat. split.
  - intros (l & Hl & Hv). assert (Hin : In (P ++ ids_bytes l) items /\ P `prefix_of` (P ++ ids_bytes l)) by (apply Hxs, in_map_iff; by exists l).
    destruct Hin as [Hin _]. destruct (rows_under _ _ _ date key lit (P ++ ids_bytes l) Hx date_ok Hlit Hin) as (val & s' & l' & Hval & Hr & Hpost); [rewrite HP; by eexists|].
    assert (Hr0 : scan_row (key_prefix date_prefix key ++ lit) (P ++ ids_bytes l) s l) by (split; [apply HP|split; [done|by apply Hrows]]).
    destruct (scan_row_inj _ _ _ _ _ _ Hr Hr0) as [-> ->]. exists val. split; [by apply Hpost|done].
  - intros (val & Hpost & Hval). destruct (row_under date key val lit s v Hval Hlit Hpost) as (x & l & Hin & Hr & Hv).
    assert (Hin' : In x (map (fun l => P ++ ids_bytes l) rows)) by (apply Hxs, Hrow; by exists l). apply in_map_iff in Hin' as (l' & <- & Hl').
    exists l'. split; [done|]. destruct Hr as (He' & _ & _ & Hu). rewrite HP in He'. apply app_inv_head, app_inv_head in He'. injection He' as He'.
    apply ids_bytes_inj in He' as ->; [done|by apply Hrows|done].
Qed.

(** All alternatives. *)
Lemma or_suffixes_ok {E} lit tf max maxl : filter_at date_prefix lit tf -> forall sufs lc ids (ps : PlanState), Forall (fun s => sep_free s) sufs -> pl_ok ps -> wf_set ids ->
  exists ps' ids' lc' err, or_suffixes_loop (E := E) clock fuel tf sufs max maxl lc ids ps = Ok (ps', ids', lc', err) /\ pl_ok ps' /\ pl_db ps' = pl_db ps /\
    collects clock deadline ids (with_tag date (tf_key tf) (fun v => exists s, In s sufs /\ escape v = lit ++ s)) max ids' err.
Proof using enough date_ok ops_ok.
  intros Hf. induction sufs as [|s sufs IH]; intros lc ids ps Hs Hp Hw; cbn [or_suffixes_loop].
  { exists ps, ids, lc, None. split; [done|]. split; [done|]. split; [done|]. apply collects_stop; [done|]. by intros _ v (t & mn & v' & _ & _ & _ & s & [] & _). }
  apply Forall_cons in Hs as [Hs Hss]. rewrite (fa_prefix _ _ _ Hf).
  destruct (or_suffix_ok (E := E) lit (tf_key tf) s ids max (i64_sub maxl lc) ps Hp (fa_lit _ _ _ Hf) Hs Hw) as (ps1 & ids1 & lc1 & err & -> & Hp1 & Hdb1 & [Hw1 Hc1]). rewrite bind_Ok.
  destruct err as [e|]; [by eexists ps1, ids1, _, _|]. destruct Hc1 as (Ha & Hb & Hc).
  assert (HR : forall v, with_tag date (tf_key tf) (fun v => exists s0, In s0 (s :: sufs) /\ escape v = lit ++ s0) v <->
    with_tag date (tf_key tf) (fun v => escape v = lit ++ s) v \/ with_tag date (tf_key tf) (fun v => exists s0, In s0 sufs /\ escape v = lit ++ s0) v) 
    by (intros v; rewrite <-with_tag_or; apply with_tag_ext; intros u; split; [intros (s0 & [<-|Hs0] & He); [by left|right; by exists s0]|intros [He|(s0 & Hs0 & He)]; [exists s; split; [by left|done]|exists s0; split; [by right|done]]]).
  destruct (Z.leb_spec max (Z.of_nat (set_len ids1))) as [Hmax|Hmax].
  - eexists ps1, ids1, _, None. split; [done|]. split; [done|]. split; [done|]. split; [done|]. split_and!; [done| |lia]. intros v Hv. apply Hb in Hv as [Hv|Hv]; [by left|right]. apply HR. by left.
  - destruct (IH (i64_add lc lc1) ids1 ps1 Hss Hp1 Hw1) as (ps' & ids' & lc' & err & -> & Hp' & Hdb' & Hw' & Hcol). eexists ps', ids', lc', err. split; [done|]. split; [done|]. split; [by rewrite Hdb'|].
    split; [done|]. destruct err as [e|]; [done|]. destruct Hcol as (Ha' & Hb' & Hc'). split_and!.
    + intros v Hv. by apply Ha', Ha.
    + intros v Hv. rewrite HR. apply Hb' in Hv as [Hv|Hv]; [apply Hb in Hv; tauto|tauto].
    + intros Hl v [Hv|Hv]%HR; [|by apply Hc']. by apply Ha', Hc.
Qed.

(** A filter finds the series with a tag that it accepts. *)
Lemma tag_filter_ok {E} lit tf max maxl (ps : PlanState) : filter_at date_prefix lit tf -> tf_is_negative tf = false -> pl_ok ps ->
  exists ps' lc r, get_metric_ids_for_tag_filter (E := E) clock fuel tf max maxl ps = Ok (ps', lc, r) /\ pl_ok ps' /\ pl_db ps' = pl_db ps /\
    finds (with_tag date (tf_key tf) (fun v => accepts_at lit tf v = true)) max r.
Proof using enough date_ok ops_ok.
  intros Hf Hneg Hp. unfold get_metric_ids_for_tag_filter. rewrite Hneg. cbn [negb assert_]. rewrite bind_Ok. assert (Hw0 : wf_set set_default) by (by repeat constructor).
  destruct (length (tf_or_suffixes tf) =? 0)%nat eqn:Hlen; cbn [negb].
  - apply Nat.eqb_eq in Hlen. unfold get_metric_ids_for_tag_filter_slow. rewrite Hlen. cbn [Nat.eqb assert_]. rewrite bind_Ok.
    destruct (seek_at (E := E) items d ops deadline ps (tf_prefix tf) Hp) as (ps1 & out & -> & Hat & Hfk & Hdb). rewrite bind_Ok. pose proof (po_idx _ _ _ _ _ Hp) as Hx.
    assert (Hrows : forall x, In x items -> tf_prefix tf `prefix_of` x -> exists s l, scan_row (tf_prefix tf) x s l).
    { intros x Hin Hpre. rewrite (fa_prefix _ _ _ Hf) in *. destruct (rows_under _ _ _ date (tf_key tf) lit x Hx date_ok (fa_lit _ _ _ Hf) Hin Hpre) as (v & s & l & _ & Hr & _). by exists s, l. }
    destruct (slow_loop_ok (E := E) (RC := RC) items d ops clock deadline tf (suffix_accepts tf) (fun s => match_suffix_ok _ _ _ s Hf) Hrows maxl max fuel out 0 0 false [] set_default ps1)
      as (ps' & ids' & lc & err & -> & Hp' & Hdb' & Hcol); [eapply left_over_seek; [exact Hfk|by apply prefix_leb]|done|done|done|pose proof (rounds_start (length items) out (proj1 (proj2 Hfk))); lia|].
    rewrite bind_Ok. eexists ps', lc, _. split; [done|]. split; [done|]. split; [by rewrite Hdb'|]. apply collects_finds. eapply collects_ext; [exact eq_refl..| |exact Hcol].
    intros v. rewrite (with_tag_posting _ _ _ _ _ _ _ Hx). unfold matching. setoid_rewrite accepts_spec. rewrite (fa_prefix _ _ _ Hf). split.
    + intros (x & s & l & Hin & Hr & Hm & Hv). apply Hfk in Hin as [Hin _].
      destruct (rows_under _ _ _ date (tf_key tf) lit x Hx date_ok (fa_lit _ _ _ Hf) Hin) as (val & s' & l' & Hval & Hr' & Hpost); [destruct Hr as (-> & _); by eexists|].
      destruct (scan_row_inj _ _ _ _ _ _ Hr' Hr) as [-> ->]. exists val. split; [by apply Hpost|by exists s].
    + intros (val & Hpost & s & Hval & Hm). destruct (row_under date (tf_key tf) val lit s v Hval (fa_lit _ _ _ Hf) Hpost) as (x & l & Hin & Hr & Hv).
      exists x, s, l. split; [|done]. apply Hfk. split; [done|]. apply prefix_leb. rewrite (fa_prefix _ _ _ Hf). destruct Hr as (-> & _). by eexists.
  - apply Nat.eqb_neq in Hlen. assert (Hne : tf_or_suffixes tf <> []) by (by intros H; rewrite H in Hlen). unfold update_metric_ids_for_or_suffixes. rewrite Hneg. cbn [negb assert_]. rewrite bind_Ok.
    destruct (or_suffixes_ok (E := E) lit tf max maxl Hf (tf_or_suffixes tf) 0 set_default ps (fa_suffixes _ _ _ Hf) Hp Hw0) as (ps' & ids' & lc & err & -> & Hp' & Hdb' & Hcol).
    rewrite bind_Ok. eexists ps', lc, _. split; [done|]. split; [done|]. split; [done|]. apply collects_finds. eapply collects_ext; [exact eq_refl..| |exact Hcol].
    intros v. apply with_tag_ext. intros u. rewrite accepts_spec. split; intros (s & H1 & H2); exists s; [split; [done|]|split; [|done]]; by apply (suffix_in _ _ _ _ Hf Hne).
Qed.
End Filters.
End Dates.

(** ** Histories *)

Definition seen (ops : list index_op) (t : Tsid) (mn : MetricName) : Prop := In (OpGlobal t mn) ops \/ exists date, In (OpDay date t mn) ops.

(** A history as the storage makes it: clean names with text in them, one name
    for every metric ID, and series registered before they are on a date. *)
Record history_ok (ops : list index_op) : Prop := {
  h_ops : Forall op_ok ops;
  h_clean : forall t mn, seen ops t mn -> name_clean mn;
  h_utf8 : forall t mn, seen ops t mn -> valid_utf8 (escape (metric_group mn)) = true /\ Forall (fun tg => valid_utf8 (escape (t_value tg)) = true) (tags mn);
  h_unique : forall t mn t' mn', seen ops t mn -> seen ops t' mn' -> metric_id t = metric_id t' -> mn = mn';
  h_global : forall date t mn, In (OpDay date t mn) ops -> In (OpGlobal t mn) ops;
  h_length : Z.of_nat (length ops) < USIZE_MAX;
}.

Lemma on_date_seen d ops date t mn : on_date d ops date t mn -> seen ops t mn.
Proof. unfold on_date, seen. destruct (date =? _); [by left|]. intros [_ H]. right. by exists date. Qed.

Lemma ilabel_utf8 ops t mn key v : history_ok ops -> seen ops t mn -> key <> GRAPHITE_REVERSE_TAG_KEY -> ilabel mn key = Some v -> valid_utf8 (escape v) = true.
Proof.
  intros Hh Hs Hk. rewrite ilabel_In by (by eapply h_clean). destruct (h_utf8 _ Hh _ _ Hs) as [Hg Ht]. rewrite Forall_In in Ht. unfold index_tags. intros [[= _ <-]|Hin]; [done|].
  rewrite !in_app_iff in Hin. destruct Hin as [H|[H|H]].
  - destruct (existsb _ _); [|done]. destruct H as [[= <- _]|[]]. done.
  - by apply (Ht _ H).
  - apply in_map_iff in H as (tg & [= _ <-] & H). by apply Ht.
Qed.

(** Whether the rows of a filter hold the series; for a positive filter that
    accepts a missing tag these are the series it rejects. *)
Definition hit (tf : TagFilter) (mn : MetricName) : bool :=
  match ilabel mn (tf_key tf) with
  | Some v => xorb (negb (tf_is_negative tf) && tf_is_empty_match tf) (accepts tf v)
  | None => false
  end.

Lemma isem_hit tf mn : isem mn tf = if tf_is_negative tf || tf_is_empty_match tf then negb (hit tf mn) else hit tf mn.
Proof. unfold isem, hit. destruct (ilabel mn (tf_key tf)) as [v|], (tf_is_negative tf), (tf_is_empty_match tf); cbn; try done; by destruct (accepts tf v). Qed.

(** The metric ID of an operation. *)
Definition op_id (op : index_op) : Z := match op with OpGlobal t _ | OpDay _ t _ => metric_id t | OpDelete _ => 0 end.

Lemma set_len_bound ops ids : wf_set ids -> (forall v, v ∈ set_items ids -> exists t mn, seen ops t mn /\ metric_id t = v) -> (set_len ids <= length ops)%nat.
Proof.
  intros Hw Hin. assert (He : set_len ids = length (set_items ids)) by apply Hw. rewrite He, <-(length_map op_id).
  apply NoDup_incl_length; [apply NoDup_ListNoDup, (buckets_NoDup _ (wfs_buckets _ Hw))|]. intros v Hv. apply list_elem_of_In, Hin in Hv as (t & mn & Hs & <-). apply in_map_iff.
  destruct Hs as [H|[date H]]; [by exists (OpGlobal t mn)|by exists (OpDay date t mn)].
Qed.

(** ** Matching names *)

(** What a filter says of a series by its name. *)
Definition nsem (mn : MetricName) (tf : TagFilter) : bool :=
  match ilabel mn (tf_key tf) with
  | Some v => xorb (tf_is_negative tf) (accepts tf v)
  | None => xorb (tf_is_negative tf) (tf_is_empty_match tf)
  end.

Definition plain_key (key : list Z) : Prop := is_artificial_tag_key key = false /\ key <> graphite_key.

Lemma ilabel_group mn : ilabel mn [] = Some (metric_group mn).
Proof. done. Qed.

Lemma ilabel_tags mn key : name_clean mn -> plain_key key -> key <> [] -> ilabel mn key = t_value <$> find (fun t => bool_decide (t_key t = key)) (tags mn).
Proof.
  intros Hc [Hk _] Hne. apply option_eq. intros v. rewrite ilabel_In, (find_NoDup (tags mn)) by (done || apply Hc). unfold index_tags. cbn [In]. rewrite !in_app_iff. split; [|by auto].
  intros [[= H _]|[H|[H|H]]]; [done| |done|].
  - destruct (existsb _ _); [|done]. destruct H as [[= <- _]|[]]. discriminate Hk.
  - apply in_map_iff in H as (t & [= <- _] & _). rewrite artificial_composite in Hk; [done|]. apply (no_length _ (nc_ok _ Hc)).
Qed.

Lemma match_filter_ok mn tf : name_clean mn -> filter_ok tf -> plain_key (tf_key tf) -> match_filter mn tf = Ok (Some (nsem mn tf)).
Proof.
  intros Hc Hf Hk. unfold match_filter, nsem. rewrite bool_decide_false by (intros He; destruct Hk as [Hk _]; by rewrite He in Hk).
  destruct (length (tf_key tf) =? 0)%nat eqn:Hl.
  - apply Nat.eqb_eq, nil_length_inv in Hl. cbn [orb]. rewrite Hl, ilabel_group, !marshal_tag_value_escape.
    pose proof (matches_ok tf (metric_group mn) Hf) as Hm. rewrite Hl in Hm. unfold key_prefix, global_head in Hm. cbn [app escape map concat marshal_common_prefix] in Hm |- *. by rewrite Hm.
  - apply Nat.eqb_neq in Hl. assert (Hne : tf_key tf <> []) by (intros He; by rewrite He in Hl). rewrite (bool_decide_false (_ = graphite_key)) by apply Hk. cbn [orb].
    rewrite ilabel_tags by done. destruct (find _ (tags mn)) as [t|] eqn:Ht; cbn.
    + apply find_some in Ht as [_ Ht%bool_decide_eq_true]. pose proof (matches_ok tf (t_value t) Hf) as Hm. rewrite tag_marshal_bytes. unfold tag_bytes. rewrite Ht.
      unfold key_prefix, global_head in Hm. rewrite <-!app_assoc in Hm. cbn [app marshal_common_prefix] in Hm |- *. by rewrite Hm.
    + by destruct (tf_is_negative tf), (tf_is_empty_match tf).
Qed.

Lemma match_loop_ok mn tfs : name_clean mn -> Forall filter_ok tfs -> Forall (fun tf => plain_key (tf_key tf)) tfs -> forall i,
  exists r, match_loop mn i tfs = Ok r /\ forallb (nsem mn) tfs = match r with None => true | Some _ => false end /\ forall k, r = Some k -> (k < i + length tfs)%nat.
Proof.
  intros Hc Hf Hk. induction Hf as [|tf tfs Hf _ IH]; intros i; cbn [match_loop forallb]; [by exists None|]. apply Forall_cons in Hk as [Hk Hks]. rewrite match_filter_ok by done. rewrite bind_Ok.
  destruct (nsem mn tf); cbn [andb].
  - destruct (IH Hks (S i)) as (r & -> & Hr & Hlt). exists r. split; [done|]. split; [done|]. intros k He. apply Hlt in He. cbn [length]. lia.
  - exists (Some i). split; [done|]. split; [done|]. intros k [= <-]. cbn [length]. lia.
Qed.

Lemma swap_first_perm tfs i : swap_first tfs i ≡ₚ tfs.
Proof.
  unfold swap_first. destruct (tfs !! 0%nat) as [a|] eqn:Ha; [|done]. destruct (tfs !! i) as [b|] eqn:Hb; [|done]. destruct i as [|i].
  - rewrite Ha in Hb. injection Hb as <-. by rewrite list_insert_insert_eq, list_insert_id.
  - destruct tfs as [|c tfs]; [done|]. cbn in Ha, Hb. injection Ha as ->. change (b :: <[i := a]> tfs ≡ₚ a :: tfs). rewrite <-(take_drop_middle tfs i b Hb) at 2.
    rewrite insert_take_drop by (by eapply lookup_lt_Some). rewrite <-!Permutation_middle. constructor.
Qed.

(** The match against a name is the conjunction of the filters; a filter that
    failed moves to the front. *)
Lemma match_tag_filters_ok mn tfs : name_clean mn -> Forall filter_ok tfs -> Forall (fun tf => plain_key (tf_key tf)) tfs ->
  exists tfs', match_tag_filters mn tfs = Ok (forallb (nsem mn) tfs, tfs') /\ tfs' ≡ₚ tfs.
Proof.
  intros Hc Hf Hk. unfold match_tag_filters. destruct (match_loop_ok mn tfs Hc Hf Hk 0) as (r & -> & Hr & _). rewrite bind_Ok, Hr. destruct r as [i|]; [|by exists tfs].
  destruct (0 <? i)%nat; [|by exists tfs]. eexists. split; [done|]. apply swap_first_perm.
Qed.

Lemma forallb_perm {A} (f : A -> bool) l l' : l ≡ₚ l' -> forallb f l = forallb f l'.
Proof. induction 1; cbn; [done|congruence|by rewrite !andb_assoc, (andb_comm (f y))|congruence]. Qed.

(** ** Filters as they are made *)

Section Made.
  Context {Re : RegexEngine} {Ru : RegexUtil}.

Lemma filter_prefix head key p : marshal_tag_value_no_trailing_tag_separator (marshal_tag_value head key) p = key_prefix head key ++ escape p.
Proof. unfold marshal_tag_value_no_trailing_tag_separator, key_prefix. rewrite !marshal_tag_value_escape, app_assoc, removelast_last. done. Qed.

Lemma get_regexp_alternatives e rcv : get_regexp_from_cache e = Ok rcv -> or_values rcv <> [] -> forall s, re_match rcv s = true <-> In s (or_values rcv).
Proof.
  unfold get_regexp_from_cache. destruct (regex_new _) as [f|]; [|done]. cbn [ok_or]. rewrite bind_Ok. destruct (get_or_values_prom_regex _) as [|v vs].
  - destruct (get_optimized_re_match_func f _) as [g c]. intros [= <-]. done.
  - unfold new_match_func_for_or_suffixes. intros [= <-] _ s. cbn [re_match or_values]. change (existsb (fun v => bool_decide (s = v)) (v :: vs) = true <-> In s (v :: vs)).
    rewrite existsb_exists. setoid_rewrite bool_decide_eq_true. split; [by intros (x & Hx & ->)|by exists s].
Qed.

(** A made filter is well formed. *)
Lemma tf_init_at head key value neg re tf : tf_init head key value neg re = Ok tf -> Forall (fun s => sep_free s) (tf_or_suffixes tf) ->
  exists p, filter_at head (escape p) tf /\ tf_is_empty_match tf = accepts_at (escape p) tf [] /\ tf_key tf = key /\ tf_is_negative tf = neg.
Proof.
  unfold tf_init. intros H Hs. assert (Hem : forall p q, (length p =? 0)%nat && q = match strip_prefix [] (escape p) with Some _ => q | None => false end).
  { intros p q. destruct (strip_prefix [] (escape p)) as [s|] eqn:Hp.
    - apply strip_prefix_Some, eq_sym, app_eq_nil in Hp as [Hp _]. change [] with (escape []) in Hp. by apply escape_inj in Hp as ->.
    - destruct p; [by rewrite (proj2 (strip_prefix_Some [] (escape []) []) eq_refl) in Hp|done]. }
  assert (Hnil : forall p s, strip_prefix [] (escape p) = Some s -> s = []) by (intros p s Hp; by apply strip_prefix_Some, eq_sym, app_eq_nil in Hp as [_ ?]).
  assert (Hplain : forall v rp p, Ok (E := filter_error) (mkTagFilter key v neg false FULL_MATCH_COST rp (marshal_tag_value_no_trailing_tag_separator (marshal_tag_value head key) p) [[]] None (length p =? 0)%nat) = Ok tf ->
    exists p, filter_at head (escape p) tf /\ tf_is_empty_match tf = accepts_at (escape p) tf [] /\ tf_key tf = key /\ tf_is_negative tf = neg).
  { intros v rp p [= <-]. exists p. split_and!; [|cbn|done|done].
    - split; cbn; [apply filter_prefix|apply escape_sep_free|repeat constructor|done|done].
    - unfold accepts_at, suffix_accepts. cbn. rewrite <-(andb_true_r (_ =? _)%nat), (Hem p true). destruct (strip_prefix [] (escape p)) eqn:Hp; [|done]. by rewrite (Hnil _ _ Hp). }
  destruct re; [|rewrite bind_Ok in H; cbn [negb] in H; by eapply Hplain]. destruct (valid_utf8 value); cbn [negb guard_] in H; [|done]. rewrite bind_Ok in H.
  destruct (simplify_prom_regex value) as [p [|c e]]; rewrite bind_Ok in H; cbn [negb] in H; [by eapply Hplain|].
  destruct (get_regexp_from_cache (c :: e)) as [rcv| |] eqn:Hg; [|done..]. rewrite bind_Ok in H. injection H as <-. exists p. split_and!; [|cbn|done|done].
  - split; cbn in *; [apply filter_prefix|apply escape_sep_free|done|done|]. intros _. exists (re_match rcv). split; [done|]. by apply (get_regexp_alternatives (c :: e)).
  - unfold accepts_at, suffix_accepts. cbn. rewrite Hem. destruct (strip_prefix [] (escape p)) eqn:Hp; [|done]. by rewrite (Hnil _ _ Hp).
Qed.

Lemma filter_at_lit lit tf : filter_at global_head lit tf -> tf_lit tf = lit.
Proof. intros H. unfold tf_lit. rewrite (fa_prefix _ _ _ H). apply drop_app_length. Qed.

Lemma tf_init_filter_ok key value neg re tf : tf_init global_head key value neg re = Ok tf -> Forall (fun s => sep_free s) (tf_or_suffixes tf) ->
  filter_ok tf /\ tf_key tf = key /\ tf_is_negative tf = neg.
Proof.
  intros H Hs. destruct (tf_init_at _ _ _ _ _ _ H Hs) as (p & Hat & Hem & Hk & Hn). split; [|done]. split; [by rewrite (filter_at_lit _ _ Hat)|]. unfold accepts. by rewrite (filter_at_lit _ _ Hat).
Qed.

(** Every filter on a tag that rejects series without the tag comes with one that
    asks for the tag; all series have a name. *)
Definition companions (tfs : list TagFilter) : Prop :=
  forall tf, In tf tfs -> tf_key tf <> [] -> tf_is_negative tf = true -> tf_is_empty_match tf = true ->
  exists c, In c tfs /\ tf_key c = tf_key tf /\ tf_is_negative c = false /\ tf_is_empty_match c = false.

Lemma nsem_isem mn tf : nsem mn tf = true -> isem mn tf = true.
Proof. unfold nsem, isem. destruct (ilabel mn (tf_key tf)); [done|]. by destruct (tf_is_negative tf), (tf_is_empty_match tf). Qed.

Lemma isem_nsem mn tfs : companions tfs -> forallb (isem mn) tfs = true -> forall tf, In tf tfs -> nsem mn tf = true.
Proof.
  intros Hc Hall tf Hin. rewrite forallb_forall in Hall. pose proof (Hall tf Hin) as Ht. unfold nsem, isem in *. destruct (ilabel mn (tf_key tf)) eqn:Hl; [done|].
  destruct (tf_is_negative tf) eqn:Hn, (tf_is_empty_match tf) eqn:He; try done. assert (Hne : tf_key tf <> []) by (intros H0; by rewrite H0, ilabel_group in Hl). destruct (Hc tf Hin Hne Hn He) as (c & Hcin & Hk & Hcn & Hce). specialize (Hall c Hcin). unfold isem in Hall.
  by rewrite Hk, Hl, Hcn, Hce in Hall.
Qed.

Lemma mixed_sem mn A B tfs : companions tfs -> A ++ B ≡ₚ tfs -> forallb (isem mn) A && forallb (nsem mn) B = forallb (isem mn) tfs.
Proof.
  intros Hc Hp. apply eq_true_iff_eq. rewrite andb_true_iff. split.
  - intros [HA HB]. rewrite <-(forallb_perm _ _ _ Hp), forallb_app, HA. cbn. rewrite forallb_forall in HB |- *. intros tf Ht. by apply nsem_isem, HB.
  - intros Hall. pose proof (isem_nsem mn tfs Hc Hall) as Hn. rewrite <-(forallb_perm _ _ _ Hp), forallb_app in Hall. apply andb_true_iff in Hall as [HA _]. split; [done|].
    apply forallb_forall. intros tf Ht. apply Hn. rewrite <-Hp. apply in_or_app. by right.
Qed.

(** ** Plain filters *)

Lemma filter_key_ok {E} tf : filter_ok tf -> filter_key (E := E) tf global_head = Ok (tf_key tf).
Proof.
  intros [Hat _]. unfold filter_key. rewrite (fa_prefix _ _ _ Hat). unfold key_prefix. rewrite <-!app_assoc, slice_from_app, bind_Ok. cbn [app]. by rewrite unmarshal_tag_value_app.
Qed.

Lemma filter_head tf : filter_ok tf -> starts_with (tf_prefix tf) global_head = true.
Proof. intros [Hat _]. rewrite (fa_prefix _ _ _ Hat). unfold key_prefix. rewrite <-!app_assoc. apply starts_with_yes. by eexists. Qed.

Lemma plain_not_composite c k : plain_key (c :: k) -> c =? COMPOSITE_TAG_KEY_PREFIX = false.
Proof. intros [H _]. unfold is_artificial_tag_key in H. by apply orb_false_iff in H as [_ ?]. Qed.

Lemma has_composite_plain {E} tfs : Forall filter_ok tfs -> Forall (fun tf => plain_key (tf_key tf)) tfs -> has_composite_tag_filters (E := E) tfs global_head = Ok false.
Proof.
  induction 1 as [|tf tfs Hf _ IH]; intros Hk; cbn [has_composite_tag_filters]; [done|]. apply Forall_cons in Hk as [Hk Hks]. rewrite filter_head, filter_key_ok by done. cbn [negb]. rewrite bind_Ok.
  destruct (tf_key tf) as [|c k]; [by apply IH|]. rewrite (plain_not_composite _ _ Hk). by apply IH.
Qed.

Lemma remove_composite_plain {E} tfs : Forall filter_ok tfs -> Forall (fun tf => plain_key (tf_key tf)) tfs -> remove_composite_tag_filters (E := E) tfs global_head = Ok tfs.
Proof. intros Hf Hk. unfold remove_composite_tag_filters. by rewrite has_composite_plain, bind_Ok. Qed.
End Made.
