(* ===== verification/IndexPlannerExact.v ===== *)
(** * The planner is exact

    The proof that [get_metric_ids_for_date_and_filters] returns exactly the
    series of a date that pass all filters: in whatever order the statistics
    put the filters, whichever of them are looked up in the index and whichever
    are matched against names, and whatever was postponed. *)
From Stdlib Require Import ZArith Lia Bool Sorted Permutation.
From stdpp Require Import base gmap list.
From S2P Require Import Prelude IntCodec TimeRange Tsid MetricName ItemBlock ItemBlockSpec IndexRow IndexRowSpec Uint64Set Uint64SetSpec IndexCaches ItemTableSearch ItemTable IndexDb IndexDbSpec TagFilter IndexPlanner IndexScanSpec IndexPlannerSpec.
Local Open Scope Z_scope.

(** The sort of the filters returns, with the same filters. *)
Class SortReturns (Ss : SliceSort) : Prop :=
  sort_returns : forall count tfws, exists l, slice_sort_by _ (compare_weights count) tfws = Some l /\ l ≡ₚ tfws.

Section Exact.
  Context {Xx : Xxh64} {Re : RegexEngine} {Ru : RegexUtil} {Dp : DotPlusLaws} {Ss : SliceSort} {Sr : SortReturns Ss} {T W : Type} {Tb : ItemTable T W} (items : list (list Z)) {L : ItemTableLaws T W items}.
  Context (d : bool) (ops : list index_op) (hist : history_ok ops).
  Context (clock : nat -> Z) (deadline : Z) (fuel : nat) (enough : (S (length items) * S (length items) <= fuel)%nat) {RC : list Z -> USet -> Prop}.
  Context (date : Z) (date_ok : is_u64 date).

Abbreviation PlanState := (PlanState (T := T) (W := W)).
Abbreviation pl_ok := (pl_ok (T := T) (W := W) items d ops deadline (RC := RC)).
Abbreviation on_date := (on_date d ops date).
Abbreviation finds := (finds clock deadline).

(** ** One filter *)

(** The metric IDs of the series of the date with a property. *)
Definition ids_with (Q : MetricName -> bool) (id : Z) : Prop := exists t mn, on_date t mn /\ metric_id t = id /\ Q mn = true.

Lemma ids_with_name Q t mn : on_date t mn -> ids_with Q (metric_id t) <-> Q mn = true.
Proof using hist.
  intros Hon. split; [|by exists t, mn]. intros (t' & mn' & Hon' & He & HQ). assert (mn' = mn) as -> by (eapply (h_unique _ hist); [by eapply on_date_seen..|done]). done.
Qed.

Lemma with_tag_ids key (A : list Z -> bool) id : with_tag d ops date key (fun v => A v = true) id <-> ids_with (fun mn => match ilabel mn key with Some v => A v | None => false end) id.
Proof using hist.
  split.
  - intros (t & mn & v & Hon & Hid & Hin & Hv). exists t, mn. split_and!; [done..|]. apply ilabel_In in Hin; [by rewrite Hin|]. by eapply (h_clean _ hist), on_date_seen.
  - intros (t & mn & Hon & Hid & Hv). destruct (ilabel mn key) as [v|] eqn:Hl; [|done]. exists t, mn, v. split_and!; [done..| |done].
    apply ilabel_In; [|done]. by eapply (h_clean _ hist), on_date_seen.
Qed.

(** Every set of such metric IDs is below the limit of a search without limit. *)
Lemma ids_with_small Q ids : wf_set ids -> (forall v, v ∈ set_items ids -> ids_with Q v) -> Z.of_nat (set_len ids) < USIZE_MAX.
Proof using hist.
  intros Hw Hin. pose proof (h_length _ hist) as Hl. assert (set_len ids <= length ops)%nat; [|clear enough; lia]. apply set_len_bound; [done|]. intros v (t & mn & Hon & Hid & _)%Hin.
  exists t, mn. split; [by eapply on_date_seen|done].
Qed.

Lemma finds_ext (R R' : Z -> Prop) max r : (forall v, R v <-> R' v) -> finds R max r -> finds R' max r.
Proof.
  intros H. destruct r as [ids|e]; [|done]. intros (Hw & H1 & H2). split; [done|]. split; [intros v Hv; by apply H, H1|]. intros Hl v Hv. apply H2; [done|by apply H].
Qed.

Lemma date_filter_ok {E} tf max maxl (ps : PlanState) : filter_ok tf -> tf_key tf <> GRAPHITE_REVERSE_TAG_KEY -> (tf_is_negative tf = false -> tf_is_empty_match tf = true -> max = USIZE_MAX) -> pl_ok ps ->
  exists ps' lc r, get_metric_ids_for_date_tag_filter (E := E) clock fuel tf date global_head max maxl ps = Ok (ps', lc, r) /\ pl_ok ps' /\ pl_db ps' = pl_db ps /\ finds (ids_with (hit tf)) max r.
Proof using hist enough date_ok Dp.
  intros [Hat Hem] Hkey Hmax Hp. unfold get_metric_ids_for_date_tag_filter. pose proof (fa_prefix _ _ _ Hat) as Hpre. unfold key_prefix in Hpre. rewrite <-!app_assoc in Hpre.
  rewrite Hpre, starts_with_yes by (by eexists). cbn [assert_]. rewrite bind_Ok, slice_from_app, bind_Ok.
  set (tf' := tf_rebased tf (marshal_common_prefix_for_date [] date ++ escape (tf_key tf) ++ [TAG_SEPARATOR_CHAR] ++ tf_lit tf)).
  assert (Hat' : filter_at (marshal_common_prefix_for_date [] date) (tf_lit tf) tf') by (destruct Hat; split; [cbn; unfold key_prefix; by rewrite <-!app_assoc|done..]).
  destruct (tag_filter_ok (E := E) items d ops (h_ops _ hist) clock deadline fuel enough date date_ok (tf_lit tf) tf' max maxl ps Hat' eq_refl Hp) as (ps1 & lc & r & -> & Hp1 & Hdb1 & Hr). rewrite bind_Ok.
  apply (finds_ext _ (ids_with (fun mn => match ilabel mn (tf_key tf) with Some v => accepts tf v | None => false end))) in Hr; [|apply with_tag_ids].
  destruct r as [ids|e]; [|by eexists ps1, lc, _]. destruct (tf_is_negative tf || negb (tf_is_empty_match tf)) eqn:Hs.
  { eexists ps1, lc, _. split; [done|]. split; [done|]. split; [done|]. eapply finds_ext; [|exact Hr]. intros v. unfold ids_with, hit.
    assert (negb (tf_is_negative tf) && tf_is_empty_match tf = false) as -> by (by destruct (tf_is_negative tf), (tf_is_empty_match tf)). cbn. done. }
  apply orb_false_iff in Hs as [Hneg Hemp]. apply negb_false_iff in Hemp. rewrite (Hmax Hneg Hemp) in *. destruct (dot_plus_init (marshal_common_prefix_for_date [] date) (tf_key tf)) as (tg & -> & [Ha Hk [Hn He] Hacc]).
  destruct (tag_filter_ok (E := E) items d ops (h_ops _ hist) clock deadline fuel enough date date_ok [] tg USIZE_MAX (i64_sub maxl lc) ps1 Ha Hn Hp1) as (ps2 & lc2 & r & -> & Hp2 & Hdb2 & Hr2). rewrite bind_Ok, Hk in *.
  apply (finds_ext _ (ids_with (fun mn => match ilabel mn (tf_key tf) with Some v => accepts_at [] tg v | None => false end))) in Hr2; [|apply with_tag_ids].
  assert (Hdb : pl_db ps2 = pl_db ps) by (by rewrite Hdb2).
  destruct r as [m|e]; [|by eexists ps2, _, _]. destruct Hr as (Hw & H1 & H2), Hr2 as (Hw2 & H3 & H4).
  destruct (set_subtract_spec m ids Hw2 Hw) as (m' & Hsub & Hw' & Hi). rewrite (lift_set_Ok _ _ Hsub), bind_Ok. eexists ps2, _, _. split; [done|]. split; [done|]. split; [done|].
  assert (Hall : forall v, v ∈ set_items m' <-> ids_with (hit tf) v).
  { intros v. rewrite Hi. split.
    - intros [(t & mn & Hon & <- & Hv)%H3 Hn2]. exists t, mn. split_and!; [done..|]. unfold hit. destruct (ilabel mn (tf_key tf)) as [u|] eqn:Hl; [|done]. rewrite Hneg, Hemp. cbn.
      apply negb_true_iff, not_true_iff_false. intros Hac. apply Hn2, H2; [by eapply ids_with_small|]. apply ids_with_name with mn; [done|]. by rewrite Hl.
    - intros (t & mn & Hon & <- & Hv). unfold hit in Hv. destruct (ilabel mn (tf_key tf)) as [u|] eqn:Hl; [|done]. rewrite Hneg, Hemp in Hv. cbn in Hv. apply negb_true_iff in Hv. split.
      + apply H4; [by eapply ids_with_small|]. apply ids_with_name with mn; [done|]. rewrite Hl, Hacc; [|by eapply ilabel_utf8; [done|by eapply on_date_seen|done|exact Hl]].
        apply negb_true_iff, bool_decide_eq_false. intros ->. by rewrite Hem, Hv in Hemp.
      + intros Hin%H1. apply (ids_with_name _ _ mn Hon) in Hin. cbv beta in Hin. by rewrite Hl, Hv in Hin. }
  split; [done|]. split; [intros v Hv; by apply Hall|]. intros _ v Hv. by apply Hall.
Qed.

(** ** All series of the date *)

Lemma all_ids_ok {E} max (ps : PlanState) : pl_ok ps ->
  exists ps' r, get_metric_ids_for_date (E := E) clock fuel date max ps = Ok (ps', r) /\ pl_ok ps' /\ finds (ids_with (fun _ => true)) max r.
Proof using hist enough date_ok.
  intros Hp. unfold get_metric_ids_for_date, update_metric_ids_for_prefix. rewrite marshal_tag_value_escape. change (escape []) with (@nil Z). cbn [app].
  set (P := marshal_common_prefix_for_date [] date ++ [TAG_SEPARATOR_CHAR]). assert (HP : P = key_prefix (marshal_common_prefix_for_date [] date) [] ++ []) by (unfold P, key_prefix; by rewrite app_nil_r).
  destruct (seek_at (E := E) items d ops deadline ps P Hp) as (ps1 & out & -> & Hat & Hfk & Hdb). rewrite bind_Ok. pose proof (po_idx _ _ _ _ _ Hp) as Hx.
  destruct (from_key_split _ _ _ Hfk) as (xs & rest & -> & _ & Hrest & Hlen & _ & Hxs).
  assert (Hrows : forall x, In x xs -> exists s l, scan_row P x s l).
  { intros x [Hin Hpre]%Hxs. rewrite HP in *. destruct (rows_under items d ops _ _ _ date [] [] x Hx date_ok ltac:(constructor) Hin Hpre) as (v & s & l & _ & Hr & _). by exists s, l. }
  destruct (prefix_loop_ok (E := E) items d ops clock deadline P max rest Hrest xs fuel 0 set_default ps1 Hrows Hat) as (ps' & ids' & err & -> & Hp' & Hdb' & Hcol); [by repeat constructor|nia|].
  rewrite bind_Ok. eexists ps', _. split; [done|]. split; [done|]. eapply finds_ext; [|by apply collects_finds]. intros v. split.
  - intros (x & s & l & Hin & Hr & Hv). apply Hxs in Hin as [Hin Hpre]. rewrite HP in *.
    destruct (rows_under items d ops _ _ _ date [] [] x Hx date_ok ltac:(constructor) Hin Hpre) as (val & s' & l' & _ & Hr' & Hpost).
    destruct (scan_row_inj _ _ _ _ _ _ Hr' Hr) as [-> ->]. destruct (proj1 (shown_posting items d ops (h_ops _ hist) _ _ _ date _ _ Hx) (Hpost v Hv)) as (t & mn & Hon & Hid & _). by exists t, mn.
  - intros (t & mn & Hon & Hid & _). destruct (row_under items date [] (metric_group mn) [] (escape (metric_group mn)) v eq_refl ltac:(constructor)) as (x & l & Hin & Hr & Hv).
    { apply (shown_posting items d ops (h_ops _ hist) _ _ _ date _ _ Hx). exists t, mn. split_and!; [done..|]. by left. }
    rewrite <-HP in Hr. exists x, (escape (metric_group mn)), l. split; [|done]. apply Hxs. split; [done|]. destruct Hr as (-> & _). by eexists.
Qed.

(** ** Statistics *)

Lemma set_loops_ok (ps : PlanState) c : pl_ok ps -> wc_holds (fun _ _ => True) c -> pl_ok (set_db ps (set_loops_cache (pl_db ps) c)).
Proof. intros [H1 H2 H3 H4] Hc. split; [|done..]. destruct H1 as [[? ? ? ? ?] ? ? ? ? ?]. by split. Qed.

Lemma tick_ok (ps : PlanState) : pl_ok ps -> pl_ok (mkPlan (pl_db ps) (pl_is ps) (pl_w ps) (S (pl_ticks ps))).
Proof. intros [H1 H2 H3 H4]. by split. Qed.

Lemma get_loops_ok {E} tf (ps : PlanState) : pl_ok ps -> exists ps' r, get_loops_count_and_timestamp_for_date_filter (E := E) date tf ps = Ok (ps', r) /\ pl_ok ps'.
Proof.
  intros Hp. unfold get_loops_count_and_timestamp_for_date_filter. destruct (wc_get_ok (E := E) _ _ (append_date_tag_filter_cache_key [] (idb_name (pl_db ps)) date tf) (po_loops _ _ _ _ _ Hp)) as (c & r & -> & Hc & _).
  rewrite bind_Ok. pose proof (set_loops_ok ps c Hp Hc) as Hp'. destruct r as [v|]; [|by eexists _, _]. destruct (length v =? 3 * 8)%nat eqn:Hl; [|by eexists _, _]. apply Nat.eqb_eq in Hl.
  unfold unmarshal_int64, unmarshal_uint64, read_be, slice_from. rewrite !decide_True by lia. rewrite !bind_Ok. rewrite !decide_True by (rewrite ?length_drop; lia).
  rewrite !bind_Ok. rewrite !decide_True by (rewrite ?length_drop; lia). rewrite !bind_Ok. by eexists _, _.
Qed.

Lemma store_loops_ok {E} tf a b (ps : PlanState) : pl_ok ps -> exists ps', store_loops_count_for_date_filter (E := E) clock date tf a b ps = Ok ps' /\ pl_ok ps'.
Proof.
  intros Hp. unfold store_loops_count_for_date_filter, unix_timestamp. cbn [pl_db].
  destruct (wc_set_ok (E := E) (fun _ _ => True) (fun _ _ => True) _ (append_date_tag_filter_cache_key [] (idb_name (pl_db ps)) date tf)
    (marshal_uint64 (marshal_int64 (marshal_int64 [] a) b) (clock (pl_ticks ps))) (po_loops _ _ _ _ _ Hp)) as (c & -> & Hc & _); [done|done|].
  rewrite bind_Ok. eexists. split; [done|]. apply (set_loops_ok (mkPlan (pl_db ps) (pl_is ps) (pl_w ps) (S (pl_ticks ps)))); [by apply tick_ok|done].
Qed.

(** A store that may be skipped. *)
Lemma maybe_store_ok {E} (b : bool) tf x y (ps : PlanState) : pl_ok ps ->
  exists ps', (if b then store_loops_count_for_date_filter (E := E) clock date tf x y ps else Ok ps) = Ok ps' /\ pl_ok ps'.
Proof. intros Hp. destruct b; [by apply store_loops_ok|by exists ps]. Qed.

Lemma weigh_ok {E} now tfs : forall (ps : PlanState), pl_ok ps -> exists ps' tfws, weigh (E := E) date now tfs ps = Ok (ps', tfws) /\ pl_ok ps' /\ map tw_tf tfws = tfs.
Proof.
  induction tfs as [|tf tfs IH]; intros ps Hp; cbn [weigh]; [by exists ps, []|]. destruct (get_loops_ok (E := E) tf ps Hp) as (ps1 & [[lc flc] ts] & -> & Hp1). rewrite bind_Ok.
  destruct (IH ps1 Hp1) as (ps2 & tfws & -> & Hp2 & <-). rewrite bind_Ok. eexists ps2, _. split; [done|]. by split.
Qed.

Lemma sort_weights_tf {E} count tfws : exists tfws', sort_weights (E := E) count tfws = Ok tfws' /\ map tw_tf tfws' ≡ₚ map tw_tf tfws.
Proof using Sr. destruct (sort_returns count tfws) as (l & Hl & Hp). exists l. unfold sort_weights. rewrite Hl. split; [done|]. by apply Permutation_map. Qed.

(** ** Postponed filters *)

Lemma search_name_db {E} db self w dst id db' self' w' v b : search_metric_name_with_cache (E := E) (T := T) (W := W) db self w dst id = Ok (db', self', w', v, b) -> exists ctx, db' = set_ctx db ctx.
Proof.
  unfold search_metric_name_with_cache, get_metric_name_by_metric_id_from_cache. destruct (wc_get _ _) as [[c r]| |]; [|done..]. rewrite !bind_Ok.
  assert (Hrest : forall ctx dst1, (
    '(self, w, dst, ok) ← search_metric_name self w dst1 id;
    if ok : bool then ctx ← put_metric_name_by_metric_id_to_cache (idb_ctx (set_ctx db ctx)) id dst; Ok (set_ctx (set_ctx db ctx) ctx, self, w, dst, true)
    else Ok (set_ctx db ctx, self, w, dst, false)) = Ok (E := E) (db', self', w', v, b) -> exists ctx, db' = set_ctx db ctx).
  { intros ctx dst1. destruct (search_metric_name _ _ _ _) as [[[[s1 w1] d1] ok]| |]; [|done..]. rewrite bind_Ok. destruct ok; [|intros [= <- _ _ _ _]; by eexists].
    destruct (put_metric_name_by_metric_id_to_cache _ _ _) as [ctx2| |]; [|done..]. rewrite bind_Ok. intros [= <- _ _ _ _]. by eexists. }
  destruct r; rewrite bind_Ok; [|apply Hrest]. intros [= <- _ _ _ _]. by eexists.
Qed.

(** The name of a series of the date is found. *)
Lemma name_found {E} (ps : PlanState) t mn : pl_ok ps -> on_date t mn ->
  exists db self w, search_metric_name_with_cache (E := E) (pl_db ps) (pl_is ps) (pl_w ps) [] (metric_id t) = Ok (db, self, w, name_bytes mn, true) /\ pl_ok (mkPlan db self w (pl_ticks ps)).
Proof using hist.
  intros [Hx Hl Hd Hrc] Hon. assert (Hs : seen ops t mn) by (by eapply on_date_seen). assert (Hg : In (OpGlobal t mn) ops) by (destruct Hs as [H|[dt H]]; [done|by eapply (h_global _ hist)]).
  assert (Hu : is_u64 (metric_id t)). { pose proof (h_ops _ hist) as Hok. rewrite Forall_In in Hok. destruct (Hok _ Hg) as [Ht _]. apply Ht. }
  destruct (search_metric_name_with_cache_ok (E := E) items d ops (h_ops _ hist) _ _ _ (metric_id t) Hx Hu) as (db & self & w & v & b & He & Hx' & Hb).
  destruct (search_name_db _ _ _ _ _ _ _ _ _ _ He) as [ctx Hdb].
  assert (Hdl : is_deadline self = deadline).
  { revert He. unfold search_metric_name_with_cache. destruct (get_metric_name_by_metric_id_from_cache _ _ _) as [[[c1 d1] b1]| |]; [|done..]. rewrite bind_Ok. destruct b1; [by intros [= _ <- _ _ _]|].
    unfold search_metric_name. destruct (tb_first_item_with_prefix _ _ _) as [[[ts w1] r]| |]; [|done..]. rewrite bind_Ok. destruct r as [[|o]|]; [rewrite bind_Ok; by intros [= _ <- _ _ _]|done|].
    destruct (tb_item ts) as [x| |]; [|done..]. rewrite bind_Ok. destruct (slice_from x _); [|done..]. rewrite !bind_Ok. destruct (put_metric_name_by_metric_id_to_cache _ _ _); [|done..]. rewrite bind_Ok. by intros [= _ <- _ _ _]. }
  destruct b.
  - destruct Hb as (t' & mn' & [Hop Hid] & ->). assert (mn' = mn) as -> by (eapply (h_unique _ hist); [by left|exact Hs|done]). exists db, self, w. split; [done|]. split; [done| |done|]; cbn [pl_db]; by rewrite Hdb.
  - destruct Hb as [_ Hb]. by destruct (Hb t mn).
Qed.

Definition plan_err (e : SearchError) : Prop := e = DeadlineExceeded /\ late clock deadline.

Lemma name_match_loop_ok {E} tfs : Forall filter_ok tfs -> Forall (fun tf => plain_key (tf_key tf)) tfs -> forall l i tfs' ids (ps : PlanState),
  tfs' ≡ₚ tfs -> Forall (ids_with (fun _ => true)) l -> wf_set ids -> pl_ok ps ->
  exists ps' ids' err, name_match_loop (E := E) clock i l tfs' ids ps = Ok (ps', ids', err) /\ pl_ok ps' /\ wf_set ids' /\
    match err with
    | Some e => plan_err e
    | None => forall v, v ∈ set_items ids' <-> v ∈ set_items ids \/ (In v l /\ ids_with (fun mn => forallb (nsem mn) tfs) v)
    end.
Proof using hist fuel.
  intros Hf Hk. induction l as [|id l IH]; intros i tfs' ids ps Hperm Hl Hw Hp; cbn [name_match_loop].
  { exists ps, ids, None. split_and!; [done..|]. intros v. cbn. tauto. }
  apply Forall_cons in Hl as [(t & mn & Hon & Hid & _) Hl]. unfold paced, check_search_deadline_and_pace, unix_timestamp.
  set (ps0 := mkPlan (pl_db ps) (pl_is ps) (pl_w ps) (S (pl_ticks ps))). assert (Hp0 : pl_ok ps0) by (by apply tick_ok).
  assert (Hgo : forall ps1, pl_ok ps1 -> exists ps' ids' err,
    ('(db, self, w, metric_name, ok) ← search_metric_name_with_cache (pl_db ps1) (pl_is ps1) (pl_w ps1) [] id;
     let ps := mkPlan db self w (pl_ticks ps1) in
     if negb ok then name_match_loop clock (i + 1) l tfs' ids ps
     else match mn_unmarshal metric_name with
          | Ok mn => match match_tag_filters mn tfs' with
                     | Panic => Panic
                     | Err e => Ok (ps, ids, Some (SeOther (CannotMatchName mn e)))
                     | Ok (ok, tfs) =>
                         if negb ok then name_match_loop clock (i + 1) l tfs ids ps
                         else ids ← lift_set (set_add ids id); name_match_loop clock (i + 1) l tfs ids ps
                     end
          | _ => Panic
          end) = Ok (E := E) (ps', ids', err) /\ pl_ok ps' /\ wf_set ids' /\
    match err with
    | Some e => plan_err e
    | None => forall v, v ∈ set_items ids' <-> v ∈ set_items ids \/ (In v (id :: l) /\ ids_with (fun mn => forallb (nsem mn) tfs) v)
    end).
  { intros ps1 Hp1. destruct (name_found (E := E) ps1 t mn Hp1 Hon) as (db & self & w & Hs & Hp2). rewrite Hid in Hs. rewrite Hs, bind_Ok. cbn [negb]. rewrite mn_unmarshal_bytes.
    assert (Hf' : Forall filter_ok tfs') by (by rewrite Hperm). assert (Hk' : Forall (fun tf => plain_key (tf_key tf)) tfs') by (by rewrite Hperm).
    destruct (match_tag_filters_ok mn tfs') as (tfs2 & -> & Hperm2); [by eapply (h_clean _ hist), on_date_seen|done|done|]. rewrite (forallb_perm _ _ _ Hperm). rewrite Hperm in Hperm2.
    assert (Hmem : ids_with (fun mn => forallb (nsem mn) tfs) id <-> forallb (nsem mn) tfs = true) by (rewrite <-Hid; exact (ids_with_name (fun mn => forallb (nsem mn) tfs) t mn Hon)).
    destruct (forallb (nsem mn) tfs); cbn [negb].
    - destruct (set_add_spec ids id Hw) as (ids1 & Ha & Hw1 & Hi1). { pose proof (h_ops _ hist) as Hok. rewrite Forall_In in Hok. destruct (on_date_seen _ _ _ _ _ Hon) as [H|[dt H]]; apply Hok in H; rewrite <-Hid; [by apply H|by apply H]. }
      rewrite (lift_set_Ok _ _ Ha), bind_Ok. destruct (IH (i + 1) tfs2 ids1 _ Hperm2 Hl Hw1 Hp2) as (ps' & ids' & err & -> & Hp' & Hw' & Hr). exists ps', ids', err. split_and!; [done..|].
      destruct err; [done|]. intros v. rewrite Hr, Hi1. cbn [In]. split; [|naive_solver]. intros [[->|Hv]|Hv]; [right; split; [by left|by apply Hmem]|by left|right; naive_solver].
    - destruct (IH (i + 1) tfs2 ids _ Hperm2 Hl Hw Hp2) as (ps' & ids' & err & -> & Hp' & Hw' & Hr). exists ps', ids', err. split_and!; [done..|].
      destruct err; [done|]. intros v. rewrite Hr. cbn [In]. split; [naive_solver|]. intros [Hv|[[<-|Hv] Hq]]; [by left| |by right]. by apply Hmem in Hq. }
  destruct (Z.land i PACE_LIMITER_SLOW_ITERATIONS_MASK =? 0); [|exact (Hgo ps Hp)]. cbn [pl_is ps0]. rewrite (po_deadline _ _ _ _ _ Hp).
  destruct (Z.ltb_spec deadline (clock (pl_ticks ps))); [|exact (Hgo ps0 Hp0)]. exists ps0, ids, (Some DeadlineExceeded). split_and!; [done..|]. split; [done|by eexists].
Qed.

(** ** The order of the filters *)

Definition good_filter (tf : TagFilter) : Prop := filter_ok tf /\ tf_key tf <> GRAPHITE_REVERSE_TAG_KEY.

(** The set holds the metric IDs of the date with the property. *)
Definition exact (Q : MetricName -> bool) (ids : USet) : Prop := wf_set ids /\ forall v, v ∈ set_items ids <-> ids_with Q v.

Lemma exact_ext Q Q' ids : (forall t mn, on_date t mn -> Q mn = Q' mn) -> exact Q ids -> exact Q' ids.
Proof. intros H [Hw Hi]. split; [done|]. intros v. rewrite Hi. split; intros (t & mn & Hon & Hid & HQ); exists t, mn; split_and!; try done; [by rewrite <-(H t)|by rewrite (H t)]. Qed.

Lemma finds_exact Q max ids : finds (ids_with Q) max (inl ids) -> Z.of_nat (set_len ids) < max -> exact Q ids.
Proof. intros (Hw & H1 & H2) Hl. split; [done|]. intros v. split; [apply H1|by apply H2]. Qed.

Lemma finds_all Q ids : finds (ids_with Q) USIZE_MAX (inl ids) -> exact Q ids.
Proof using hist. intros H. eapply finds_exact; [exact H|]. destruct H as (Hw & H1 & _). by eapply ids_with_small. Qed.

Lemma scan_plan_err e : scan_err clock deadline e -> e = TooManyLoops \/ plan_err e.
Proof. done. Qed.

Lemma positive_isem tf mn : tf_is_negative tf || tf_is_empty_match tf = false -> isem mn tf = hit tf mn.
Proof. intros H. by rewrite isem_hit, H. Qed.

Lemma first_filter_loop_ok {E} max tfws : forall remaining (ps : PlanState), Forall (fun w => good_filter (tw_tf w)) tfws -> pl_ok ps ->
  exists ps' r, first_filter_loop (E := E) clock fuel date global_head max tfws remaining ps = Ok (ps', r) /\ pl_ok ps' /\
    match r with
    | inr e => plan_err e
    | inl (None, rest) => map tw_tf rest ≡ₚ map tw_tf (remaining ++ tfws)
    | inl (Some m, rest) => exists tf, tf :: map tw_tf rest ≡ₚ map tw_tf (remaining ++ tfws) /\ exact (fun mn => isem mn tf) m
    end.
Proof using hist enough date_ok Dp.
  induction tfws as [|tfw tfws IH]; intros remaining ps Hg Hp; cbn [first_filter_loop]; [eexists ps, _; split; [done|]; split; [done|]; by rewrite app_nil_r|].
  apply Forall_cons in Hg as [[Hf Hk] Hg].
  assert (Hnext : forall w' ps1, tw_tf w' = tw_tf tfw -> pl_ok ps1 -> exists ps' r, first_filter_loop (E := E) clock fuel date global_head max tfws (remaining ++ [w']) ps1 = Ok (ps', r) /\ pl_ok ps' /\
    match r with
    | inr e => plan_err e
    | inl (None, rest) => map tw_tf rest ≡ₚ map tw_tf (remaining ++ tfw :: tfws)
    | inl (Some m, rest) => exists tf, tf :: map tw_tf rest ≡ₚ map tw_tf (remaining ++ tfw :: tfws) /\ exact (fun mn => isem mn tf) m
    end).
  { intros w' ps1 Hw' Hp1. destruct (IH (remaining ++ [w']) ps1 Hg Hp1) as (ps' & r & -> & Hp' & Hr). eexists ps', r. split; [done|]. split; [done|].
    assert (He : map tw_tf ((remaining ++ [w']) ++ tfws) = map tw_tf (remaining ++ tfw :: tfws)) by (rewrite <-app_assoc, !map_app; cbn; by rewrite Hw'). by rewrite He in Hr. }
  destruct (tf_is_negative (tw_tf tfw) || tf_is_empty_match (tw_tf tfw)) eqn:Hs; [by apply Hnext|].
  destruct (date_filter_ok (E := E) (tw_tf tfw) max (get_first_positive tw_loops_count tfws) ps Hf Hk) as (ps1 & lc & r & -> & Hp1 & _ & Hr).
  { intros H1 H2. by rewrite H1, H2 in Hs. }
  { done. }
  rewrite bind_Ok. destruct r as [m|e].
  - destruct (Z.leb_spec max (Z.of_nat (set_len m))) as [Hmax|Hmax].
    + destruct (store_loops_ok (E := E) (tw_tf tfw) (I64_MAX - 1) (tw_filter_loops_count tfw) ps1 Hp1) as (ps2 & -> & Hp2). rewrite bind_Ok. by apply Hnext.
    + destruct (maybe_store_ok (E := E) (negb (lc =? tw_loops_count tfw)) (tw_tf tfw) lc (tw_filter_loops_count tfw) ps1 Hp1) as (ps2 & -> & Hp2). rewrite bind_Ok.
      eexists ps2, _. split; [done|]. split; [done|]. exists (tw_tf tfw). split; [rewrite !map_app; cbn; by rewrite Permutation_middle|].
      eapply exact_ext; [|by eapply finds_exact]. intros t mn _. symmetry. by apply positive_isem.
  - apply scan_plan_err in Hr as [->|Hr].
    + destruct (maybe_store_ok (E := E) (negb (as_i64 (2 * lc) =? tw_loops_count tfw)) (tw_tf tfw) (as_i64 (2 * lc)) (tw_filter_loops_count tfw) ps1 Hp1) as (ps2 & -> & Hp2). rewrite bind_Ok. by apply Hnext.
    + destruct Hr as [-> Hl]. destruct (store_loops_ok (E := E) (tw_tf tfw) I64_MAX (tw_filter_loops_count tfw) ps1 Hp1) as (ps2 & -> & Hp2). rewrite bind_Ok. by eexists ps2, _.
Qed.

(** Applying one filter to the set. *)
Lemma apply_filter {E} tf A ids m : exact (fun mn => forallb (isem mn) A) ids -> exact (hit tf) m ->
  exists ids', lift_set (E := E) (if tf_is_negative tf || tf_is_empty_match tf then set_subtract ids m else set_intersect ids m) = Ok ids' /\ exact (fun mn => forallb (isem mn) (tf :: A)) ids'.
Proof using hist.
  intros [Hw Hi] [Hwm Him].
  assert (Hc : exists ids', (if tf_is_negative tf || tf_is_empty_match tf then set_subtract ids m else set_intersect ids m) = Ok ids' /\ wf_set ids' /\
    forall v, v ∈ set_items ids' <-> v ∈ set_items ids /\ (if tf_is_negative tf || tf_is_empty_match tf then v ∉ set_items m else v ∈ set_items m)).
  { destruct (tf_is_negative tf || tf_is_empty_match tf); [by apply set_subtract_spec|by apply set_intersect_spec]. }
  destruct Hc as (ids' & He & Hw' & Hi'). exists ids'. split; [by rewrite (lift_set_Ok _ _ He)|]. split; [done|]. intros v. rewrite Hi', Hi.
  assert (Hname : forall t mn, on_date t mn -> (if tf_is_negative tf || tf_is_empty_match tf then metric_id t ∉ set_items m else metric_id t ∈ set_items m) <-> isem mn tf = true).
  { intros t mn Hon. pose proof (Him (metric_id t)) as H. rewrite (ids_with_name (hit tf) t mn Hon) in H. rewrite isem_hit. destruct (_ || _); [|done]. rewrite H, negb_true_iff. by destruct (hit tf mn). }
  cbn [forallb]. split.
  - intros [(t & mn & Hon & <- & HA) Hv]. exists t, mn. split_and!; [done..|]. apply andb_true_iff. split; [by apply (Hname t mn Hon)|done].
  - intros (t & mn & Hon & <- & [HA1 HA2]%andb_true_iff). split; [by exists t, mn|by apply (Hname t mn Hon)].
Qed.

Lemma filters_loop_ok {E} tfws : forall A postponed ids (ps : PlanState), Forall (fun w => good_filter (tw_tf w)) tfws -> pl_ok ps -> exact (fun mn => forallb (isem mn) A) ids ->
  exists ps' r, filters_loop (E := E) clock fuel date global_head tfws ids postponed ps = Ok (ps', r) /\ pl_ok ps' /\
    match r with
    | inr e => plan_err e
    | inl (ids', B) => exists A' rest, A' ++ B ++ rest ≡ₚ A ++ postponed ++ map tw_tf tfws /\ exact (fun mn => forallb (isem mn) A') ids' /\ (rest = [] \/ set_is_empty ids' = true)
    end.
Proof using hist enough date_ok Dp.
  induction tfws as [|tfw tfws IH]; intros A postponed ids ps Hg Hp Hex; cbn [filters_loop].
  { eexists ps, _. split; [done|]. split; [done|]. exists A, []. cbn. split; [done|]. by split; [|left]. }
  apply Forall_cons in Hg as [[Hf Hk] Hg].
  destruct (set_len ids =? 0)%nat eqn:Hlen. { eexists ps, _. split; [done|]. split; [done|]. exists A, (map tw_tf (tfw :: tfws)). split; [done|]. split; [done|by right]. }
  destruct (as_i64 (Z.of_nat (set_len ids) * LOOPS_COUNT_PER_METRIC_NAME_MATCH) <? tw_filter_loops_count tfw).
  { eexists ps, _. split; [done|]. split; [done|]. exists A, []. rewrite app_nil_r. split; [done|]. by split; [|left]. }
  set (maxl := if get_first_positive tw_filter_loops_count tfws =? I64_MAX then _ else _).
  destruct (date_filter_ok (E := E) (tw_tf tfw) USIZE_MAX maxl ps Hf Hk ltac:(done) Hp) as (ps1 & lc & r & -> & Hp1 & _ & Hr). rewrite bind_Ok. destruct r as [m|e].
  - destruct (maybe_store_ok (E := E) (negb (lc =? tw_filter_loops_count tfw)) (tw_tf tfw) (tw_loops_count tfw) lc ps1 Hp1) as (ps2 & -> & Hp2). rewrite bind_Ok.
    destruct (apply_filter (E := E) (tw_tf tfw) A ids m Hex (finds_all _ _ Hr)) as (ids1 & -> & Hex1). rewrite bind_Ok.
    destruct (IH (tw_tf tfw :: A) postponed ids1 ps2 Hg Hp2 Hex1) as (ps' & r & -> & Hp' & Hr'). eexists ps', r. split; [done|]. split; [done|]. destruct r as [[ids' B]|e]; [|done].
    destruct Hr' as (A' & rest & HP & H). exists A', rest. split; [|done]. rewrite HP. cbn [map app]. rewrite (app_assoc A postponed (_ :: _)), <-Permutation_middle, <-app_assoc. done.
  - apply scan_plan_err in Hr as [->|Hr].
    + destruct (maybe_store_ok (E := E) (negb (as_i64 (2 * lc) =? tw_filter_loops_count tfw)) (tw_tf tfw) (tw_loops_count tfw) (as_i64 (2 * lc)) ps1 Hp1) as (ps2 & -> & Hp2). rewrite bind_Ok.
      destruct (IH A (postponed ++ [tw_tf tfw]) ids ps2 Hg Hp2 Hex) as (ps' & r & -> & Hp' & Hr'). eexists ps', r. split; [done|]. split; [done|]. by rewrite <-app_assoc in Hr'.
    + destruct Hr as [-> Hl]. destruct (store_loops_ok (E := E) (tw_tf tfw) (tw_loops_count tfw) I64_MAX ps1 Hp1) as (ps2 & -> & Hp2). rewrite bind_Ok. by eexists ps2, _.
Qed.

(** ** The planner *)

(** Filters may be looked up in the index or matched against names, in any mix. *)
Definition hybrid (tfs : list TagFilter) : Prop :=
  forall A B, A ++ B ≡ₚ tfs -> B <> [] ->
  exists B', (forall E, remove_composite_tag_filters (E := E) B global_head = Ok B') /\ Forall filter_ok B' /\ Forall (fun tf => plain_key (tf_key tf)) B' /\
    forall t mn, seen ops t mn -> forallb (isem mn) A && forallb (nsem mn) B' = forallb (isem mn) tfs.

(** There are at least [n] series on the date. *)
Definition crowded (n : Z) : Prop := exists l, NoDup l /\ n <= Z.of_nat (length l) /\ Forall (ids_with (fun _ => true)) l.

Lemma all_metric_ids_ok {E} max (ps : PlanState) : pl_ok ps ->
  exists ps' r, all_metric_ids (E := E) clock fuel date max ps = Ok (ps', r) /\ pl_ok ps' /\
    match r with inl m => exact (fun _ => true) m | inr e => plan_err e \/ e = TooManyLoops \/ (e = TooManyTimeseries max /\ crowded max) end.
Proof using hist enough date_ok.
  intros Hp. unfold all_metric_ids. destruct (all_ids_ok (E := E) max ps Hp) as (ps1 & r & -> & Hp1 & Hr). rewrite bind_Ok. destruct r as [m|e].
  - destruct (Z.leb_spec max (Z.of_nat (set_len m))) as [Hmax|Hmax].
    + eexists ps1, _. split; [done|]. split; [done|]. right. right. split; [done|]. destruct Hr as (Hw & H1 & _). exists (set_items m). split_and!.
      * apply (buckets_NoDup _ (wfs_buckets _ Hw)).
      * by rewrite <-(wfs_count _ Hw).
      * apply Forall_forall. apply H1.
    + eexists ps1, _. split; [done|]. split; [done|]. by eapply finds_exact.
  - apply scan_plan_err in Hr as [->|[-> Hl]]; eexists ps1, _; (split; [done|]); (split; [done|]); [by right; left|by left].
Qed.

(** The scan for all series counts no loops. *)
Lemma prefix_loop_loops {E} n prefix max lim ids (ps ps' : PlanState) ids' : prefix_loop (E := E) clock n prefix max lim ids ps <> Ok (ps', ids', Some TooManyLoops).
Proof.
  revert lim ids ps. induction n as [|n IH]; intros lim ids ps; cbn [prefix_loop]; [done|]. destruct (next_item ps) as [[ps1 more]| |]; [|done..]. rewrite bind_Ok. destruct more; cbn [negb].
  2:{ unfold scan_end. by destruct (tb_error _). }
  unfold paced, check_search_deadline_and_pace, unix_timestamp. assert (Hgo : forall ps2,
    (item ← tb_item (is_ts (pl_is ps2));
     if negb (starts_with item prefix) then Ok (ps2, ids, None)
     else tail ← slice_from item (length prefix);
       match find_tag_separator tail with
       | None => Ok (ps2, ids, Some (SeOther (InvalidLine item)))
       | Some n0 =>
           match init_only_tail (is_mp (pl_is ps2)) (drop (S n0) tail) with
           | Panic => Panic
           | Err e => Ok (ps2, ids, Some (SeOther (InvalidTail e)))
           | Ok mp =>
               let mp := parse_metric_ids mp in
               ids ← lift_set (set_add_multi ids (metric_ids mp));
               let ps := set_parser ps2 mp in
               if max <=? Z.of_nat (set_len ids) then Ok (ps, ids, None) else prefix_loop clock n prefix max (as_u64 (lim + 1)) ids ps
           end
       end) <> Ok (E := E) (ps', ids', Some TooManyLoops)).
  { intros ps2. destruct (tb_item _) as [item| |]; [|done..]. rewrite bind_Ok. destruct (starts_with item prefix); cbn [negb]; [|done]. destruct (slice_from item _) as [tl| |]; [|done..]. rewrite bind_Ok.
    destruct (find_tag_separator tl); [|done]. destruct (init_only_tail _ _) as [mp| |]; [|done..]. cbn zeta. destruct (lift_set _) as [ids1| |]; [|done..]. rewrite bind_Ok. destruct (max <=? _); [done|apply IH]. }
  destruct (Z.land lim _ =? 0); [|apply Hgo]. destruct (_ <? _); [done|apply Hgo].
Qed.

Lemma all_metric_ids_loops {E} max (ps ps' : PlanState) : all_metric_ids (E := E) clock fuel date max ps <> Ok (ps', inr TooManyLoops).
Proof.
  unfold all_metric_ids, get_metric_ids_for_date, update_metric_ids_for_prefix. destruct (seek ps _) as [ps1| |]; [|done..]. rewrite !bind_Ok.
  destruct (prefix_loop _ _ _ _ _ _ _) as [[[ps2 ids] err]| |] eqn:H; [|done..]. rewrite bind_Ok, bind_Ok. destruct err as [e|]; [|by destruct (max <=? _)].
  destruct e as [| | |o]; try done. by apply prefix_loop_loops in H.
Qed.

Lemma planner_ok {E} tfs max (ps : PlanState) : tfs_common_prefix tfs = global_head -> Forall good_filter (tfs_tfs tfs) -> hybrid (tfs_tfs tfs) -> pl_ok ps ->
  exists ps' r, get_metric_ids_for_date_and_filters (E := E) clock fuel date tfs max ps = Ok (ps', r) /\ pl_ok ps' /\
    match r with
    | inl ids => exact (fun mn => forallb (isem mn) (tfs_tfs tfs)) ids
    | inr e => plan_err e \/ (e = TooManyTimeseries (max_date_metrics_of max) /\ crowded (max_date_metrics_of max))
    end.
Proof using hist enough date_ok Dp Sr.
  intros Hcp Hg Hyb Hp. unfold get_metric_ids_for_date_and_filters, unix_timestamp. rewrite Hcp.
  destruct (weigh_ok (E := E) (clock (pl_ticks ps)) (tfs_tfs tfs) _ (tick_ok ps Hp)) as (ps1 & tfws & -> & Hp1 & Htf). rewrite bind_Ok.
  assert (Hgood : forall l, map tw_tf l ⊆+ tfs_tfs tfs -> Forall (fun w => good_filter (tw_tf w)) l).
  { intros l Hl. rewrite Forall_forall in Hg. apply Forall_forall. intros w Hw. apply Hg. eapply elem_of_submseteq; [by apply list_elem_of_fmap_2|done]. }
  destruct (sort_weights_tf (E := E) tw_loops_count tfws) as (tfws1 & -> & Hsort). rewrite Htf in Hsort. rewrite bind_Ok. cbn zeta.
  destruct (first_filter_loop_ok (E := E) (max_date_metrics_of max) tfws1 [] ps1) as (ps2 & r & -> & Hp2 & Hr); [apply Hgood; by rewrite Hsort|done|].
  rewrite bind_Ok. destruct r as [[first tfws2]|e]; [|eexists ps2, _; split; [done|]; split; [done|by left]]. cbn [app] in Hr.
  assert (Hfirst : exists ps3 r, (match first with Some m => Ok (ps2, inl m) | None => all_metric_ids clock fuel date (max_date_metrics_of max) ps2 end) = Ok (E := E) (ps3, r) /\ pl_ok ps3 /\
    match r with
    | inr e => plan_err e \/ (e = TooManyTimeseries (max_date_metrics_of max) /\ crowded (max_date_metrics_of max))
    | inl m => exists A, A ++ map tw_tf tfws2 ≡ₚ tfs_tfs tfs /\ exact (fun mn => forallb (isem mn) A) m
    end).
  { destruct first as [m|].
    - destruct Hr as (tf & HP & Hex). eexists ps2, _. split; [done|]. split; [done|]. exists [tf]. split; [cbn; by rewrite HP, Hsort|]. eapply exact_ext; [|exact Hex]. intros t mn _. cbn. by rewrite andb_true_r.
    - destruct (all_metric_ids_ok (E := E) (max_date_metrics_of max) ps2 Hp2) as (ps3 & r & Heq & Hp3 & Hr3). rewrite Heq. exists ps3, r. split; [done|]. split; [done|]. destruct r as [m|e].
      + exists []. split; [cbn; by rewrite Hr, Hsort|]. by eapply exact_ext.
      + destruct Hr3 as [H|[->|H]]; [by left|by apply all_metric_ids_loops in Heq|by right]. }
  destruct Hfirst as (ps3 & r & -> & Hp3 & Hr3). rewrite bind_Ok. destruct r as [ids|e]; [|by eexists ps3, _]. destruct Hr3 as (A & HA & Hex).
  destruct (sort_weights_tf (E := E) tw_filter_loops_count tfws2) as (tfws3 & -> & Hsort2). rewrite bind_Ok.
  destruct (filters_loop_ok (E := E) tfws3 A [] ids ps3) as (ps4 & r & -> & Hp4 & Hr4); [apply Hgood; rewrite Hsort2, <-HA; by apply submseteq_inserts_l|done|done|].
  rewrite bind_Ok. destruct r as [[ids' B]|e]; [|eexists ps4, _; split; [done|]; split; [done|by left]]. destruct Hr4 as (A' & rest & HP & Hex' & Hrest). cbn [app] in HP. rewrite Hsort2, HA in HP.
  destruct (set_is_empty ids') eqn:Hemp.
  { eexists ps4, _. split; [done|]. split; [done|]. destruct Hex' as [Hw' Hi']. split; [by repeat constructor|]. intros v. change (set_items set_default) with (@nil Z). split; [by intros ?%elem_of_nil|].
    intros (t & mn & Hon & Hid & HQ). apply set_is_empty_spec in Hemp; [|done]. rewrite <-Hemp. apply Hi'. exists t, mn. split_and!; [done..|]. rewrite <-(forallb_perm _ _ _ HP), forallb_app in HQ. by apply andb_true_iff in HQ as [? _]. }
  assert (rest = []) as -> by (by destruct Hrest). rewrite app_nil_r in HP. destruct B as [|b B].
  { eexists ps4, _. split; [done|]. split; [done|]. rewrite app_nil_r in HP. eapply exact_ext; [|exact Hex']. intros t mn _. by apply forallb_perm. }
  destruct (Hyb A' (b :: B) HP ltac:(done)) as (B' & Hrem & Hf' & Hk' & Hmix). unfold update_metric_ids_by_metric_name_match. destruct Hex' as [Hw' Hi'].
  destruct (set_append_to_spec ids' [] Hw') as (s' & l & Happ & _ & _ & Hl & _). rewrite (lift_set_Ok _ _ Happ), bind_Ok. change (marshal_common_prefix [] NS_PREFIX_TAG_TO_METRIC_IDS) with global_head. rewrite Hrem, bind_Ok. cbn [app].
  destruct (name_match_loop_ok (E := E) B' Hf' Hk' l 0 B' set_default ps4) as (ps5 & m & err & -> & Hp5 & Hwm & Hm); [done| |by repeat constructor|done|].
  { apply Forall_forall. intros v Hv. apply Hl, Hi' in Hv as (t & mn & Hon & Hid & _). by exists t, mn. }
  rewrite bind_Ok. eexists ps5, _. split; [done|]. split; [done|]. destruct err as [e|]; [by left|]. split; [done|]. intros v. rewrite Hm. change (set_items set_default) with (@nil Z). rewrite elem_of_nil, <-list_elem_of_In, Hl, Hi'. split.
  - intros [[]|[(t & mn & Hon & <- & HA') HB]]. exists t, mn. split_and!; [done..|]. apply (ids_with_name (fun mn => forallb (nsem mn) B') t mn Hon) in HB.
    rewrite <-(Hmix t mn) by (by eapply on_date_seen). by rewrite HA', HB.
  - intros (t & mn & Hon & <- & HQ). rewrite <-(Hmix t mn) in HQ by (by eapply on_date_seen). apply andb_true_iff in HQ as [HA' HB]. right. split; by exists t, mn.
Qed.
End Exact.
