(* ===== verification/IndexComposite.v ===== *)
(** * Composite filters

    The conversion of tag filters to filters on composite keys, and back: the
    composite filters select the same series, in the index and by name, when
    the filters name the metric in one way. *)
From Stdlib Require Import ZArith Lia Bool Sorted Permutation.
From stdpp Require Import base gmap list.
From S2P Require Import Prelude IntCodec TimeRange Tsid MetricName ItemBlock ItemBlockSpec IndexRow IndexRowSpec Uint64Set IndexCaches ItemTableSearch ItemTable IndexDb IndexDbSpec TagFilter IndexPlanner IndexScanSpec IndexPlannerSpec IndexPlannerExact.
Local Open Scope Z_scope.

(** ** Composite keys *)

Abbreviation composite_key := (marshal_composite_tag_key []).

Lemma composite_key_inj n k n' k' : short_name n -> short_name n' -> composite_key n k = composite_key n' k' -> n = n' /\ k = k'.
Proof.
  intros Hn Hn' H. rewrite !composite_key_split in H by done. injection H as H.
  assert (Hu : forall m : list Z, short_name m -> is_u64 (Z.of_nat (length m))) by (intros m Hm; unfold short_name, is_u in Hm |- *; lia).
  pose proof (uvarint_leb128 (Z.of_nat (length n)) (n ++ k) (Hu n Hn)) as H1. rewrite H, (uvarint_leb128 _ _ (Hu n' Hn')) in H1. injection H1 as H1 _. apply Nat2Z.inj in H1.
  rewrite H1 in H. apply app_inv_head, app_inj_1 in H; [done|done].
Qed.

(** The index has the tag under the composite key exactly for the series with
    the name. *)
Lemma ilabel_composite mn n k : name_clean mn -> short_name n -> plain_key k -> k <> [] -> ilabel mn (composite_key n k) = if bool_decide (metric_group mn = n) then ilabel mn k else None.
Proof.
  intros Hc Hn Hk Hne. apply option_eq. intros v. rewrite ilabel_In by done. pose proof (no_length _ (nc_ok _ Hc)) as Hl. rewrite (ilabel_tags mn k) by done.
  assert (Hin : In (mkTag (composite_key n k) v) (index_tags mn) <-> metric_group mn = n /\ In (mkTag k v) (tags mn)).
  { unfold index_tags. cbn [In]. rewrite !in_app_iff. split.
    - intros [[= H]|[H|[H|H]]].
      + by rewrite composite_key_split in H.
      + destruct (existsb _ _); [|done]. destruct H as [[= H _]|[]]. by rewrite composite_key_split in H.
      + pose proof (nc_plain _ Hc) as Hp. rewrite Forall_In in Hp. destruct (Hp _ H) as [_ Ha]. cbn [t_key] in Ha. by rewrite artificial_composite in Ha.
      + apply in_map_iff in H as (t & [= H <-] & Ht). apply composite_key_inj in H as [Hg Hkt]; [|done..]. split; [done|]. rewrite <-Hkt. by destruct t.
    - intros [<- H]. right. right. right. apply in_map_iff. by exists (mkTag k v). }
  rewrite Hin. case_bool_decide as Hg.
  - rewrite (find_NoDup (tags mn)) by apply Hc. tauto.
  - split; [by intros []|done].
Qed.

(** ** Made filters *)

Section Made.
  Context {Re : RegexEngine} {Ru : RegexUtil}.

(** The filter on another key. *)
Definition rekey (tf : TagFilter) (head key : list Z) (neg : bool) : TagFilter :=
  mkTagFilter key (tf_value tf) neg (tf_is_regexp tf) (tf_match_cost tf) (tf_regexp_prefix tf) (key_prefix head key ++ tf_lit tf) (tf_or_suffixes tf) (tf_re_suffix_match tf) (tf_is_empty_match tf).

(** A filter as [TagFilter::init] makes it. *)
Definition made (tf : TagFilter) : Prop :=
  (exists key value neg re, tf_init global_head key value neg re = Ok tf) /\ Forall (fun s => sep_free s) (tf_or_suffixes tf).

Lemma made_ok tf : made tf -> filter_ok tf.
Proof. intros [(key & v & n & r & H) Hs]. by eapply tf_init_filter_ok. Qed.

(** A made filter is made again for another key. *)
Lemma init_rekey tf : made tf -> (forall head key neg, tf_init head key (tf_value tf) neg (tf_is_regexp tf) = Ok (rekey tf head key neg)) /\
  tf_lit tf = escape (if tf_is_regexp tf then tf_regexp_prefix tf else tf_value tf).
Proof.
  intros Hm. pose proof (made_ok tf Hm) as Hf. destruct Hm as [(key & v & n & r & H) Hs]. unfold tf_init in H.
  assert (Hlit : forall p tf0, tf_prefix tf0 = marshal_tag_value_no_trailing_tag_separator (marshal_tag_value global_head (tf_key tf0)) p -> tf_lit tf0 = escape p).
  { intros p tf0 Hp. unfold tf_lit. rewrite Hp, filter_prefix. apply drop_app_length. }
  assert (Hplain : forall v p, v = p -> Ok (E := filter_error) (mkTagFilter key v n false FULL_MATCH_COST [] (marshal_tag_value_no_trailing_tag_separator (marshal_tag_value global_head key) p) [[]] None (length p =? 0)%nat) = Ok tf ->
    (forall head key neg, tf_init head key (tf_value tf) neg (tf_is_regexp tf) = Ok (rekey tf head key neg)) /\ tf_lit tf = escape (if tf_is_regexp tf then tf_regexp_prefix tf else tf_value tf)).
  { intros v' p -> [= <-]. rewrite (Hlit p) by done. split; [|done]. intros head' key' neg'. unfold tf_init, rekey. cbn [tf_value tf_is_regexp tf_match_cost tf_regexp_prefix tf_or_suffixes tf_re_suffix_match tf_is_empty_match].
    rewrite bind_Ok, (Hlit p) by done. by rewrite filter_prefix. }
  destruct r; [|rewrite bind_Ok in H; cbn [negb] in H; by eapply Hplain]. destruct (valid_utf8 v) eqn:Hu; cbn [negb guard_] in H; [|done]. rewrite bind_Ok in H.
  destruct (simplify_prom_regex v) as [p [|c e]] eqn:Hsimp; rewrite bind_Ok in H; cbn [negb] in H; [by eapply Hplain|].
  destruct (get_regexp_from_cache (c :: e)) as [rcv| |] eqn:Hg; [|done..]. rewrite bind_Ok in H. injection H as <-. rewrite (Hlit p) by done. split; [|done].
  intros head' key' neg'. unfold tf_init, rekey. cbn [tf_value tf_is_regexp tf_match_cost tf_regexp_prefix tf_or_suffixes tf_re_suffix_match tf_is_empty_match]. rewrite Hu. cbn [negb guard_]. rewrite bind_Ok, Hsimp, bind_Ok. cbn [negb]. rewrite Hg, bind_Ok, (Hlit p) by done. by rewrite filter_prefix.
Qed.

Lemma rekey_lit tf key neg : tf_lit (rekey tf global_head key neg) = tf_lit tf.
Proof. unfold tf_lit at 1. cbn [tf_key tf_prefix rekey]. apply drop_app_length. Qed.

Lemma rekey_accepts tf key neg v : accepts (rekey tf global_head key neg) v = accepts tf v.
Proof. unfold accepts, accepts_at. by rewrite rekey_lit. Qed.

Lemma rekey_made tf key neg : made tf -> made (rekey tf global_head key neg).
Proof. intros Hm. split; [|by apply Hm]. destruct (init_rekey tf Hm) as [H _]. by eexists _, _, _, _. Qed.
End Made.

(** ** Unfolding *)

(** The key of a composite filter for the name [n]. *)
Definition composite_of (n : list Z) (tf : TagFilter) (k : list Z) : Prop := tf_key tf = composite_key n k /\ plain_key k /\ k <> [] /\ bytes k.

Record name_good (n : list Z) : Prop := { ng_some : n <> []; ng_short : short_name n; ng_bytes : bytes n }.

(** A filter without composite key and the one it stands for. *)
Definition unfolds (n : list Z) (tf tf' : TagFilter) : Prop :=
  (plain_key (tf_key tf) /\ tf' = tf) \/ (exists k, composite_of n tf k /\ tf' = rekey tf global_head k (tf_is_negative tf)).

Definition has_composite (tfs : list TagFilter) : bool := existsb tf_is_composite tfs.

Lemma composite_not_plain n k : short_name n -> ~ plain_key (composite_key n k).
Proof. intros Hn [H _]. by rewrite artificial_composite in H. Qed.

Lemma composite_of_composite n tf k : short_name n -> composite_of n tf k -> tf_is_composite tf = true.
Proof. intros Hn [H _]. unfold tf_is_composite. by rewrite H, composite_key_split. Qed.

Lemma plain_is_composite tf : plain_key (tf_key tf) -> tf_is_composite tf = false.
Proof. intros H. unfold tf_is_composite. destruct (tf_key tf) as [|c k]; [done|]. by eapply plain_not_composite. Qed.

Section Unfold.
  Context {Re : RegexEngine} {Ru : RegexUtil} (n : list Z) (n_good : name_good n).

Abbreviation keys_ok := (Forall (fun tf => plain_key (tf_key tf) \/ exists k, composite_of n tf k)).

Lemma has_composite_ok {E} tfs : Forall made tfs -> keys_ok tfs -> has_composite_tag_filters (E := E) tfs global_head = Ok (has_composite tfs).
Proof using n_good.
  induction 1 as [|tf tfs Hm _ IH]; intros Hk; cbn [has_composite_tag_filters has_composite existsb]; [done|]. apply Forall_cons in Hk as [Hk Hks]. pose proof (made_ok _ Hm) as Hf.
  rewrite filter_head, filter_key_ok by done. cbn [negb]. rewrite bind_Ok. unfold tf_is_composite. destruct (tf_key tf) as [|c k]; [by apply IH|]. destruct (c =? COMPOSITE_TAG_KEY_PREFIX); [done|by apply IH].
Qed.

Lemma unfold_filter_ok tf : made tf -> plain_key (tf_key tf) \/ (exists k, composite_of n tf k) ->
  exists tf', (forall E acc name, unfold_filter (E := E) global_head (acc, name) tf = Ok (acc ++ [tf'], if tf_is_composite tf then n else name)) /\ unfolds n tf tf'.
Proof using n_good.
  intros Hm Hk. pose proof (made_ok _ Hm) as Hf. destruct n_good as [Hne Hs Hb]. destruct Hk as [Hk|(k & Hk)].
  - exists tf. rewrite plain_is_composite by done. split; [|by left]. intros E acc name. unfold unfold_filter. rewrite filter_head, filter_key_ok by done. cbn [negb]. rewrite bind_Ok.
    destruct (tf_key tf) as [|c k]; [done|]. by rewrite (plain_not_composite _ _ Hk).
  - exists (rekey tf global_head k (tf_is_negative tf)). split; [|right; by exists k]. intros E acc name. unfold unfold_filter. rewrite filter_head, filter_key_ok by done. cbn [negb]. rewrite bind_Ok.
    rewrite (composite_of_composite _ _ _ Hs Hk). pose proof Hk as (Hkey & _ & _ & Hbk). rewrite Hkey, composite_key_split by done. cbn [negb].
    rewrite Z.eqb_refl. cbn [negb]. rewrite unmarshal_var_uint64_leb128; [|unfold short_name, is_u in *; lia|by apply bytes_app]. rewrite slice_from_app, bind_Ok.
    assert (0 <? Z.of_nat (length n) = true) as -> by (apply Z.ltb_lt; destruct n; [done|cbn; lia]). cbn [assert_]. rewrite bind_Ok.
    assert (Z.of_nat (length n) <=? Z.of_nat (length (n ++ k)) = true) as -> by (apply Z.leb_le; rewrite length_app; lia). cbn [assert_]. rewrite bind_Ok, Nat2Z.id, take_app_length, drop_app_length.
    by rewrite (proj1 (init_rekey tf Hm)).
Qed.

Lemma unfold_filters_ok tfs : Forall made tfs -> keys_ok tfs ->
  exists tfs', (forall E acc name, unfold_filters (E := E) global_head tfs (acc, name) = Ok (acc ++ tfs', if has_composite tfs then n else name)) /\ Forall2 (unfolds n) tfs tfs'.
Proof using n_good.
  induction 1 as [|tf tfs Hm _ IH]; intros Hk; cbn [unfold_filters has_composite existsb]; [exists []; split; [intros; by rewrite app_nil_r|done]|]. apply Forall_cons in Hk as [Hk Hks].
  destruct (unfold_filter_ok tf Hm Hk) as (tf' & Hone & Hu). destruct (IH Hks) as (tfs' & Hall & Hus). exists (tf' :: tfs'). split; [|by constructor]. intros E acc name. rewrite Hone, bind_Ok, Hall, <-app_assoc.
  cbn [app]. unfold has_composite. destruct (tf_is_composite tf), (existsb _ tfs); done.
Qed.

(** The filter on the metric name. *)
Lemma name_filter : exists nf, tf_init global_head [] n false false = Ok nf /\ filter_ok nf /\ tf_key nf = [] /\ forall mn, nsem mn nf = bool_decide (metric_group mn = n).
Proof.
  eexists. split; [done|]. split.
  - eapply (tf_init_filter_ok [] n false false); [done|]. repeat constructor.
  - split; [done|]. intros mn. unfold nsem. cbn [tf_key tf_is_negative]. rewrite ilabel_group. rewrite ?xorb_false_l, ?xorb_false_r. unfold accepts, accepts_at, suffix_accepts. cbn [tf_is_regexp].
    assert (Hl : forall v b c o r e, tf_lit (mkTagFilter [] v b c FULL_MATCH_COST o (marshal_tag_value_no_trailing_tag_separator (marshal_tag_value global_head []) n) r None e) = escape n).
    { intros. unfold tf_lit. cbn [tf_key tf_prefix]. rewrite filter_prefix. apply drop_app_length. }
    rewrite Hl. destruct (strip_prefix _ _) as [s|] eqn:Hst.
    + apply strip_prefix_Some in Hst. apply bool_decide_ext. split; [intros ->; rewrite app_nil_r in Hst; by apply escape_inj|]. intros Hg. rewrite Hg in Hst. by rewrite <-(app_nil_r (escape n)) in Hst at 1; apply app_inv_head in Hst.
    + symmetry. apply bool_decide_eq_false. intros Hg. rewrite Hg in Hst. by rewrite (proj2 (strip_prefix_Some (escape n) (escape n) [])) in Hst by (by rewrite app_nil_r).
Qed.
End Unfold.

(** ** Mixed plans *)

Section Mixed.
  Context {Re : RegexEngine} {Ru : RegexUtil} (n : list Z) (n_good : name_good n).

Lemma rekey_isem mn tf k : name_clean mn -> composite_of n tf k -> metric_group mn = n -> isem mn tf = isem mn (rekey tf global_head k (tf_is_negative tf)).
Proof using n_good.
  intros Hc (Hkey & Hp & Hne & _) Hg. unfold isem. rewrite Hkey, ilabel_composite by (done || apply n_good). rewrite bool_decide_true by done. cbn [rekey tf_key tf_is_negative tf_is_empty_match].
  destruct (ilabel mn k); [|done]. by rewrite rekey_accepts.
Qed.

(** A set of filters whose composite keys are for the name [n]: the name is
    asked for, and every filter that rejects series without its tag has its
    companion. *)
Record composed (tfs : list TagFilter) : Prop := {
  cd_made : Forall made tfs;
  cd_keys : Forall (fun tf => plain_key (tf_key tf) \/ exists k, composite_of n tf k) tfs;
  cd_companions : companions tfs;
  cd_asks : has_composite tfs = true -> exists tf k, In tf tfs /\ composite_of n tf k /\ tf_is_negative tf = false /\ tf_is_empty_match tf = false;
}.

Lemma unfolds_key tf tf' : unfolds n tf tf' -> plain_key (tf_key tf').
Proof. intros [[Hk ->]|(k & (_ & Hk & _) & ->)]; done. Qed.

Lemma unfolds_ok tf tf' : made tf -> unfolds n tf tf' -> filter_ok tf'.
Proof. intros Hm [[_ ->]|(k & _ & ->)]; [by apply made_ok|]. by apply made_ok, rekey_made. Qed.

Lemma unfolds_isem mn tf tf' : name_clean mn -> metric_group mn = n -> unfolds n tf tf' -> isem mn tf = isem mn tf'.
Proof using n_good. intros Hc Hg [[_ ->]|(k & Hk & ->)]; [done|]. by apply rekey_isem. Qed.

Lemma unfolds_nsem mn tf tf' : name_clean mn -> metric_group mn = n -> unfolds n tf tf' -> nsem mn tf = nsem mn tf'.
Proof using n_good.
  intros Hc Hg [[_ ->]|(k & (Hkey & Hp & Hne & _) & ->)]; [done|]. unfold nsem. rewrite Hkey, ilabel_composite by (done || apply n_good). rewrite bool_decide_true by done. cbn [rekey tf_key tf_is_negative tf_is_empty_match].
  destruct (ilabel mn k); [|done]. by rewrite rekey_accepts.
Qed.

Lemma unfolds_plain B B0 : has_composite B = false -> Forall2 (unfolds n) B B0 -> B0 = B.
Proof using n_good.
  intros Hh Hu. induction Hu as [|tf tf' B B0 Hu _ IH]; [done|]. cbn in Hh. apply orb_false_iff in Hh as [Hc Hh]. rewrite IH by done. destruct Hu as [[_ ->]|(k & Hk & _)]; [done|].
  by rewrite (composite_of_composite _ _ _ (ng_short _ n_good) Hk) in Hc.
Qed.

Lemma forallb_Forall2 {A B} (P : A -> B -> Prop) f g l l' : (forall x y, P x y -> f x = g y) -> Forall2 P l l' -> forallb f l = forallb g l'.
Proof. intros H. induction 1 as [|x y l l' Hxy _ IH]; cbn; [done|]. by rewrite IH, (H _ _ Hxy). Qed.

(** The name is in question: a series with another name fails in the index and
    by name alike. *)
Lemma composed_other mn tfs A B : name_clean mn -> metric_group mn <> n -> composed tfs -> has_composite tfs = true -> A ++ B ≡ₚ tfs ->
  forallb (isem mn) tfs = false /\ (has_composite B = false -> forallb (isem mn) A = false).
Proof using n_good.
  intros Hc Hg Hd Hh Hp. destruct (cd_asks _ Hd Hh) as (tf & k & Hin & Hk & Hn & He).
  assert (Hno : isem mn tf = false). { destruct Hk as (Hkey & Hpk & Hne & _). unfold isem. rewrite Hkey, ilabel_composite by (done || apply n_good). rewrite bool_decide_false by done. by rewrite Hn, He. }
  assert (Hall : forall l, In tf l -> forallb (isem mn) l = false). { intros l Hl. apply not_true_iff_false. intros Hf. rewrite forallb_forall in Hf. specialize (Hf _ Hl). congruence. }
  split; [by apply Hall|]. intros HB. apply Hall. rewrite <-Hp in Hin. apply in_app_iff in Hin as [?|Hin]; [done|]. exfalso. apply not_true_iff_false in HB. apply HB.
  apply existsb_exists. exists tf. split; [done|]. by eapply composite_of_composite; [apply n_good|].
Qed.

Lemma Forall_half {A} (P : A -> Prop) l1 l2 l : l1 ++ l2 ≡ₚ l -> Forall P l -> Forall P l2.
Proof. intros Hp H. rewrite <-Hp in H. by apply Forall_app in H as [_ ?]. Qed.

Lemma removed_ok B : Forall made B -> Forall (fun tf => plain_key (tf_key tf) \/ exists k, composite_of n tf k) B ->
  exists B0 N, (forall E, remove_composite_tag_filters (E := E) B global_head = Ok (B0 ++ N)) /\ Forall2 (unfolds n) B B0 /\ Forall filter_ok N /\ Forall (fun tf => plain_key (tf_key tf)) N /\
    forall mn, forallb (nsem mn) N = negb (has_composite B) || bool_decide (metric_group mn = n).
Proof using n_good.
  intros Hm Hk. destruct (has_composite B) eqn:Hh; cbn [negb].
  - destruct (unfold_filters_ok n n_good B Hm Hk) as (B0 & Hun & Hu). destruct (name_filter n) as (nf & Hi & Hf & Hkn & Hs). exists B0, [nf]. split_and!; [|done|by apply Forall_singleton| |].
    + intros E. unfold remove_composite_tag_filters. rewrite (has_composite_ok n n_good), Hh by done. rewrite bind_Ok, Hun, Hh, bind_Ok. cbn [app negb]. pose proof (ng_some _ n_good) as Hne. rewrite Hi. by destruct n.
    + constructor; [|done]. by rewrite Hkn.
    + intros mn. cbn [forallb orb]. by rewrite Hs, andb_true_r.
  - exists B, []. rewrite app_nil_r. split_and!; [| |done|done|done].
    + intros E. unfold remove_composite_tag_filters. by rewrite (has_composite_ok n n_good), Hh by done.
    + apply Forall2_same_length_lookup. split; [done|]. intros i tf tf' H1 H2. rewrite H1 in H2. injection H2 as <-. left.
      rewrite Forall_lookup in Hk. destruct (Hk _ _ H1) as [?|(k & Hc)]; [done|]. exfalso. apply not_true_iff_false in Hh. apply Hh, existsb_exists. exists tf. split; [by eapply list_elem_of_In, list_elem_of_lookup_2|].
      by eapply composite_of_composite; [apply n_good|].
Qed.
End Mixed.

Section Hybrid.
  Context {Re : RegexEngine} {Ru : RegexUtil} (ops : list index_op) (clean : forall t mn, seen ops t mn -> name_clean mn).

Lemma hybrid_plain tfs : Forall filter_ok tfs -> Forall (fun tf => plain_key (tf_key tf)) tfs -> companions tfs -> hybrid ops tfs.
Proof using.
  intros Hf Hk Hc A B Hp Hne. exists B. split; [intros E; apply remove_composite_plain; by eapply Forall_half|]. split_and!; [by eapply Forall_half..|]. intros t mn _. by apply mixed_sem.
Qed.

Lemma hybrid_composed n tfs : name_good n -> composed n tfs -> hybrid ops tfs.
Proof using clean.
  intros Hn Hd A B Hp Hne. pose proof (Forall_half _ _ _ _ Hp (cd_made _ _ Hd)) as Hm. pose proof (Forall_half _ _ _ _ Hp (cd_keys _ _ Hd)) as Hk.
  destruct (removed_ok n Hn B Hm Hk) as (B0 & N & Hr & Hu & HNf & HNk & HN). exists (B0 ++ N). split; [done|]. split_and!.
  - apply Forall_app. split; [|done]. clear -Hu Hm. induction Hu; inversion Hm; constructor; eauto using unfolds_ok.
  - apply Forall_app. split; [|done]. clear -Hu. induction Hu; constructor; eauto using unfolds_key.
  - intros t mn Hs%clean. rewrite forallb_app, HN. case_bool_decide as Hg.
    + rewrite orb_true_r, andb_true_r, <-(forallb_Forall2 (unfolds n) (nsem mn) (nsem mn) B B0) by (done || by intros; apply (unfolds_nsem n)). apply mixed_sem; [apply Hd|done].
    + rewrite orb_false_r. destruct (has_composite tfs) eqn:Hh.
      * destruct (composed_other n Hn mn tfs A B Hs Hg Hd Hh Hp) as [-> HA]. destruct (has_composite B); [cbn; by rewrite !andb_false_r|]. by rewrite HA.
      * assert (HB : has_composite B = false).
        { clear -Hh Hp. apply not_true_iff_false. intros (tf & Hin & Ht)%existsb_exists. apply not_true_iff_false in Hh. apply Hh, existsb_exists. exists tf. split; [|done]. rewrite <-Hp. apply in_or_app. by right. }
        rewrite (unfolds_plain n Hn B B0), HB by done. cbn [negb]. rewrite andb_true_r. apply mixed_sem; [apply Hd|done].
Qed.
End Hybrid.

(** ** Conversion *)

(** A filter that lists the metric names it selects, and the names as the loop
    over them has them, without the prefix. *)
Definition naming (tf : TagFilter) : bool :=
  (length (tf_key tf) =? 0)%nat && negb (tf_is_negative tf) && (negb (tf_is_regexp tf) || negb (length (tf_or_suffixes tf) =? 0)%nat).

Definition raw_names (tf : TagFilter) : list (list Z) := if tf_is_regexp tf then tf_or_suffixes tf else [tf_value tf].
Definition names_prefix (tf : TagFilter) : list Z := if tf_is_regexp tf then tf_regexp_prefix tf else [].
Definition names_of (tf : TagFilter) : list (list Z) := map (fun s => names_prefix tf ++ s) (raw_names tf).

Definition on_tag (tf : TagFilter) : bool := negb (length (tf_key tf) =? 0)%nat.
Definition asks_tag (tf : TagFilter) : bool := on_tag tf && negb (tf_is_negative tf) && negb (tf_is_empty_match tf).

(** The filters for the series with the name [n]. *)
Definition converted_one (n : list Z) (tf : TagFilter) : list TagFilter :=
  if on_tag tf then [rekey tf global_head (composite_key n (tf_key tf)) (tf_is_negative tf)] else if naming tf then [] else [tf].
Definition converted (n : list Z) (tfs : list TagFilter) : list TagFilter := flat_map (converted_one n) tfs.

Lemma collect_names_ok tfs : forall ns p h, foldl collect_names (ns, p, h) tfs =
  (foldl (fun st tf => (raw_names tf, if tf_is_regexp tf then tf_regexp_prefix tf else snd st)) (ns, p) (List.filter naming tfs), h || existsb asks_tag tfs).
Proof.
  induction tfs as [|tf tfs IH]; intros ns p h; [cbn; by rewrite orb_false_r|]. cbn [foldl List.filter existsb]. unfold collect_names at 2, asks_tag at 1, on_tag, naming at 1, raw_names at 1.
  destruct (length (tf_key tf) =? 0)%nat, (tf_is_negative tf), (tf_is_regexp tf) eqn:Hr, (length (tf_or_suffixes tf) =? 0)%nat, (tf_is_empty_match tf); cbn [negb andb orb foldl snd]; rewrite IH; unfold raw_names; rewrite ?Hr, ?orb_true_r; done.
Qed.

Section Convert.
  Context {Re : RegexEngine} {Ru : RegexUtil}.

(** Sets of filters the conversion is for: one filter at most lists the names,
    and the names are not empty and without separators. *)
Record convertible (tfs : list TagFilter) : Prop := {
  cv_made : Forall made tfs;
  cv_plain : Forall (fun tf => plain_key (tf_key tf) /\ bytes (tf_key tf)) tfs;
  cv_companions : companions tfs;
  cv_once : (length (List.filter naming tfs) <= 1)%nat;
  cv_names : forall tf, In tf tfs -> naming tf = true -> Forall name_good (names_of tf);
  cv_clear : forall tf s, In tf tfs -> naming tf = true -> tf_is_regexp tf = true -> In s (tf_or_suffixes tf) -> escape s = s;
}.

Lemma naming_isem mn tf : made tf -> naming tf = true -> (forall s, tf_is_regexp tf = true -> In s (tf_or_suffixes tf) -> escape s = s) ->
  isem mn tf = existsb (fun n => bool_decide (metric_group mn = n)) (names_of tf).
Proof.
  intros Hm Hn Hc. pose proof (made_ok _ Hm) as [Hat _]. destruct (init_rekey tf Hm) as [_ Hlit]. unfold naming in Hn. apply andb_true_iff in Hn as [[Hk Hneg]%andb_true_iff Hs].
  apply Nat.eqb_eq, nil_length_inv in Hk. apply negb_true_iff in Hneg. unfold isem. rewrite Hk, ilabel_group, Hneg. cbn [xorb]. unfold accepts, accepts_at, suffix_accepts. rewrite Hlit.
  apply eq_true_iff_eq. rewrite existsb_exists. setoid_rewrite bool_decide_eq_true. unfold names_of, names_prefix, raw_names. destruct (tf_is_regexp tf) eqn:Hr.
  - destruct (fa_regexp _ _ _ Hat Hr) as (f & Hf & Hor). rewrite Hf. cbn [negb orb] in Hs. assert (Hne : tf_or_suffixes tf <> []) by (destruct (tf_or_suffixes tf); done).
    assert (Hesc : forall s, In s (tf_or_suffixes tf) -> escape (tf_regexp_prefix tf ++ s) = escape (tf_regexp_prefix tf) ++ s) by (intros s Hin; rewrite escape_app, (Hc s eq_refl Hin); done).
    split.
    + destruct (strip_prefix _ _) as [s|] eqn:Hst; [|done]. apply strip_prefix_Some in Hst. intros Hin%(Hor Hne). exists (tf_regexp_prefix tf ++ s). split; [by apply in_map|]. apply escape_inj. by rewrite Hesc.
    + intros (n & (s & <- & Hin)%in_map_iff & ->). rewrite Hesc by done. rewrite (proj2 (strip_prefix_Some _ _ s) eq_refl). by apply Hor.
  - cbn [app map In]. split.
    + destruct (strip_prefix _ _) as [s|] eqn:Hst; [|done]. apply strip_prefix_Some in Hst. intros ->%bool_decide_eq_true. rewrite app_nil_r in Hst. exists (tf_value tf). split; [by left|]. by apply escape_inj.
    + intros (n & [<-|[]] & ->). rewrite (proj2 (strip_prefix_Some (escape (tf_value tf)) (escape (tf_value tf)) []) (eq_sym (app_nil_r _))). done.
Qed.

Lemma composite_steps_ok {E} p name tfs : Forall made tfs -> Forall (fun tf => plain_key (tf_key tf) /\ bytes (tf_key tf)) tfs -> (forall tf, In tf tfs -> naming tf = true -> In name (raw_names tf)) -> forall acc c,
  composite_steps (E := E) global_head p name tfs (acc, c) = Ok (acc ++ converted (p ++ name) tfs, (c + length (List.filter on_tag tfs))%nat).
Proof.
  induction 1 as [|tf tfs Hm _ IH]; intros Hk Hn acc c; [cbn; by rewrite app_nil_r, Nat.add_0_r|]. apply Forall_cons in Hk as [[Hk _] Hks].
  assert (Hrest : forall tf', In tf' tfs -> naming tf' = true -> In name (raw_names tf')) by (intros; apply Hn; [by right|done]). specialize (Hn tf (or_introl eq_refl)).
  cbn [composite_steps converted flat_map List.filter]. fold (converted (p ++ name) tfs). unfold composite_step, converted_one, on_tag at 1. destruct (length (tf_key tf) =? 0)%nat eqn:Hl; cbn [negb].
  - assert (Ho : on_tag tf = false) by (unfold on_tag; by rewrite Hl). rewrite Ho. unfold naming, raw_names in Hn. rewrite Hl in Hn. cbn [andb] in Hn.
    destruct (tf_is_negative tf) eqn:Hneg.
    { rewrite bind_Ok, IH, <-app_assoc by done. unfold naming. rewrite Hneg, andb_false_r. cbn [andb]. done. }
    cbn [negb andb] in Hn. destruct (tf_is_regexp tf) eqn:Hr; cbn [negb orb] in Hn.
    + destruct (length (tf_or_suffixes tf) =? 0)%nat eqn:Hz.
      * assert (Hnil : tf_or_suffixes tf = []) by (by apply Nat.eqb_eq, nil_length_inv in Hz). rewrite Hnil. cbn [existsb negb]. rewrite bind_Ok, IH, <-app_assoc by done. unfold naming. by rewrite Hl, Hneg, Hr, Hz.
      * assert (existsb (fun s => bool_decide (s = name)) (tf_or_suffixes tf) = true) as ->. { apply existsb_exists. exists name. split; [by apply Hn|by apply bool_decide_eq_true]. }
        cbn [negb]. rewrite bind_Ok, IH by done. unfold naming. by rewrite Hl, Hneg, Hr, Hz.
    + destruct (Hn eq_refl) as [->|[]]. rewrite bool_decide_true by done. cbn [negb]. rewrite bind_Ok, IH by done. unfold naming. by rewrite Hl, Hneg, Hr.
  - assert (Ho : on_tag tf = true) by (unfold on_tag; by rewrite Hl). rewrite Ho. rewrite (bool_decide_false (_ = graphite_key)) by apply Hk. rewrite bool_decide_false by (intros He; destruct Hk as [Hk _]; by rewrite He in Hk). cbn [orb].
    rewrite (proj1 (init_rekey tf Hm)), bind_Ok, IH, <-app_assoc by done. cbn [app length]. f_equal. f_equal. lia.
Qed.
End Convert.

Section Converted.
  Context {Re : RegexEngine} {Ru : RegexUtil}.

Lemma composite_names_ok {E} tfs p names : tfs_common_prefix tfs = global_head -> convertible (tfs_tfs tfs) -> List.filter on_tag (tfs_tfs tfs) <> [] ->
  (forall tf name, In tf (tfs_tfs tfs) -> naming tf = true -> In name names -> In name (raw_names tf)) ->
  composite_names (E := E) tfs p names = Ok (Some (map (fun name => mkTagFilters (converted (p ++ name) (tfs_tfs tfs)) global_head) names)).
Proof.
  intros Hh Hc Ht. induction names as [|name names IH]; intros Hn; cbn [composite_names map]; [done|]. rewrite Hh, composite_steps_ok; [|apply Hc|apply Hc|intros tf Hin Hnm; apply (Hn tf); [done..|by left]].
  rewrite bind_Ok. destruct (List.filter on_tag (tfs_tfs tfs)) eqn:Hf; [done|]. cbn [app length Nat.add Nat.eqb]. rewrite IH; [|intros tf nm Hin Hnm Hl; apply (Hn tf); [done..|by right]]. by rewrite bind_Ok.
Qed.

Lemma In_converted n tf' tfs : In tf' (converted n tfs) -> exists tf, In tf tfs /\ ((on_tag tf = true /\ tf' = rekey tf global_head (composite_key n (tf_key tf)) (tf_is_negative tf)) \/ (on_tag tf = false /\ naming tf = false /\ tf' = tf)).
Proof.
  intros (tf & Hin & H)%in_flat_map. exists tf. split; [done|]. unfold converted_one in H. destruct (on_tag tf); [destruct H as [<-|[]]; by left|]. destruct (naming tf); [done|]. destruct H as [<-|[]]. by right.
Qed.

Lemma In_converted_tag n tf tfs : In tf tfs -> on_tag tf = true -> In (rekey tf global_head (composite_key n (tf_key tf)) (tf_is_negative tf)) (converted n tfs).
Proof. intros Hin Ho. apply in_flat_map. exists tf. split; [done|]. unfold converted_one. rewrite Ho. by left. Qed.

Lemma on_tag_ne tf : on_tag tf = true <-> tf_key tf <> [].
Proof. unfold on_tag. destruct (tf_key tf); cbn; split; done. Qed.

Lemma convertible_plain tfs tf : convertible tfs -> In tf tfs -> plain_key (tf_key tf) /\ bytes (tf_key tf).
Proof. intros Hc. pose proof (cv_plain _ Hc) as H. rewrite Forall_In in H. apply H. Qed.

Lemma convertible_made tfs tf : convertible tfs -> In tf tfs -> made tf.
Proof. intros Hc. pose proof (cv_made _ Hc) as H. rewrite Forall_In in H. apply H. Qed.

Lemma converted_composite n tfs tf : convertible tfs -> In tf tfs -> on_tag tf = true -> composite_of n (rekey tf global_head (composite_key n (tf_key tf)) (tf_is_negative tf)) (tf_key tf).
Proof. intros Hc Hin Ho%on_tag_ne. destruct (convertible_plain _ _ Hc Hin). split; [done|]. by split_and!. Qed.

Lemma converted_some n tfs : existsb asks_tag tfs = true -> converted n tfs <> [].
Proof.
  intros (a & Ha & Has)%existsb_exists Hn. unfold asks_tag in Has. apply andb_true_iff in Has as [[Hao _]%andb_true_iff _]. pose proof (In_converted_tag n a tfs Ha Hao) as H. by rewrite Hn in H.
Qed.

(** The converted filters are a plan for one name. *)
Lemma converted_composed n tfs : convertible tfs -> existsb asks_tag tfs = true -> composed n (converted n tfs).
Proof.
  intros Hc (a & Ha & Has)%existsb_exists. unfold asks_tag in Has. apply andb_true_iff in Has as [[Hao Han]%andb_true_iff Hae]. apply negb_true_iff in Han, Hae. split.
  - apply Forall_In. intros tf' (tf & Hin & [[_ ->]|(_ & _ & ->)])%In_converted; [apply rekey_made|]; by eapply convertible_made.
  - apply Forall_In. intros tf' (tf & Hin & [[Ho ->]|(_ & _ & ->)])%In_converted; [right; eexists; by eapply converted_composite|]. left. by eapply convertible_plain.
  - intros tf' (tf & Hin & [[Ho ->]|(Ho & _ & ->)])%In_converted Hne Hneg Hem; [|by apply on_tag_ne in Hne; rewrite Ho in Hne]. cbn [rekey tf_is_negative tf_is_empty_match tf_key] in *.
    destruct (cv_companions _ Hc tf Hin (proj1 (on_tag_ne tf) Ho) Hneg Hem) as (c & Hcin & Hk & Hcn & Hce). eexists. split; [apply (In_converted_tag n c); [done|]; by rewrite on_tag_ne, Hk, <-on_tag_ne|]. cbn. by rewrite Hk.
  - intros _. eexists _, _. split; [by apply (In_converted_tag n a)|]. split; [by eapply converted_composite|]. done.
Qed.

(** The series of one name that pass. *)
Lemma converted_isem mn n tfs : name_clean mn -> short_name n -> convertible tfs -> existsb asks_tag tfs = true ->
  forallb (isem mn) (converted n tfs) = bool_decide (metric_group mn = n) && forallb (fun tf => naming tf || isem mn tf) tfs.
Proof.
  intros Hm Hn Hc Ha. case_bool_decide as Hg; cbn [andb].
  - assert (Hp : Forall (fun tf => plain_key (tf_key tf)) tfs) by (apply Forall_In; intros tf Hin; by eapply convertible_plain). clear Ha Hc. induction Hp as [|tf tfs Hk _ IH]; [done|]. cbn [converted flat_map forallb].
    rewrite forallb_app. fold (converted n tfs). rewrite IH. f_equal. unfold converted_one. destruct (on_tag tf) eqn:Ho.
    + cbn [forallb]. rewrite andb_true_r. assert (naming tf = false) as -> by (unfold naming; by rewrite <-(negb_involutive (length (tf_key tf) =? 0)%nat); fold (on_tag tf); rewrite Ho).
      cbn [orb]. unfold isem. cbn [rekey tf_key tf_is_negative tf_is_empty_match]. rewrite ilabel_composite by (done || by apply on_tag_ne). rewrite bool_decide_true by done. destruct (ilabel mn (tf_key tf)); [|done]. by rewrite rekey_accepts.
    + destruct (naming tf); cbn [forallb orb]; [done|by rewrite andb_true_r].
  - apply existsb_exists in Ha as (a & Hin & Has). unfold asks_tag in Has. apply andb_true_iff in Has as [[Hao Han]%andb_true_iff Hae]. apply negb_true_iff in Han, Hae.
    apply not_true_iff_false. intros H. rewrite forallb_forall in H. specialize (H _ (In_converted_tag n a tfs Hin Hao)). destruct (convertible_plain _ _ Hc Hin) as [Hk _].
    unfold isem in H. cbn [rekey tf_key tf_is_negative tf_is_empty_match] in H. rewrite ilabel_composite in H by (done || by apply on_tag_ne). rewrite bool_decide_false in H by done. by rewrite Han, Hae in H.
Qed.

Lemma naming_sem mn tfs f : convertible tfs -> List.filter naming tfs = [f] -> forallb (isem mn) tfs = existsb (fun n => bool_decide (metric_group mn = n)) (names_of f) && forallb (fun tf => naming tf || isem mn tf) tfs.
Proof.
  intros Hc Hf. assert (Hin : In f (List.filter naming tfs)) by (rewrite Hf; by left). apply filter_In in Hin as [Hin Hn]. rewrite <-naming_isem; [|by eapply convertible_made|done|intros s; by apply (cv_clear _ Hc f)].
  apply eq_true_iff_eq. rewrite andb_true_iff, !forallb_forall. split.
  - intros H. split; [by apply H|]. intros tf Ht. by rewrite (H _ Ht), orb_true_r.
  - intros [H1 H2] tf Ht. specialize (H2 _ Ht). destruct (naming tf) eqn:Hnt; [|done]. assert (Ht' : In tf (List.filter naming tfs)) by (by apply filter_In). rewrite Hf in Ht'. by destruct Ht' as [<-|[]].
Qed.

(** The conversion: what the index selects stays the same, and every set is a
    plan for one name. *)
Lemma convert_ok {E} tfs : tfs_common_prefix tfs = global_head -> convertible (tfs_tfs tfs) ->
  exists tfss, convert_to_composite_tag_filters (E := E) tfs = Ok tfss /\
    (forall mn, name_clean mn -> existsb (fun t => forallb (isem mn) (tfs_tfs t)) tfss = forallb (isem mn) (tfs_tfs tfs)) /\
    Forall (fun t => t = tfs \/ (tfs_common_prefix t = global_head /\ tfs_tfs t <> [] /\ exists n, name_good n /\ composed n (tfs_tfs t))) tfss.
Proof.
  intros Hh Hc. unfold convert_to_composite_tag_filters. rewrite collect_names_ok. cbn [orb]. assert (Hsame : exists tfss, Ok (E := E) [tfs] = Ok tfss /\
    (forall mn, name_clean mn -> existsb (fun t => forallb (isem mn) (tfs_tfs t)) tfss = forallb (isem mn) (tfs_tfs tfs)) /\
    Forall (fun t => t = tfs \/ (tfs_common_prefix t = global_head /\ tfs_tfs t <> [] /\ exists n, name_good n /\ composed n (tfs_tfs t))) tfss).
  { exists [tfs]. split; [done|]. split; [intros mn _; cbn; by rewrite orb_false_r|]. apply Forall_singleton. by left. }
  pose proof (cv_once _ Hc) as Honce. destruct (List.filter naming (tfs_tfs tfs)) as [|f [|]] eqn:Hf; [done| |cbn in Honce; lia]. cbn [foldl snd]. fold (names_prefix f).
  destruct ((length (raw_names f) =? 0)%nat || negb (existsb asks_tag (tfs_tfs tfs))) eqn:Hgo; [done|]. apply orb_false_iff in Hgo as [_ Ha%negb_false_iff].
  assert (Hin : In f (List.filter naming (tfs_tfs tfs))) by (rewrite Hf; by left). apply filter_In in Hin as [Hin Hn]. pose proof (cv_names _ Hc f Hin Hn) as Hgood.
  rewrite composite_names_ok; [|done|done| |].
  - rewrite bind_Ok. cbn [default from_option id]. eexists. split; [done|]. split.
    + intros mn Hm. rewrite (naming_sem mn _ f) by done. unfold names_of in *. clear Hsame Hf. induction (raw_names f) as [|s names IH]; [done|]. cbn [map existsb] in *. apply Forall_cons in Hgood as [Hg Hgood].
      rewrite IH by done. cbn [tfs_tfs]. rewrite converted_isem by (done || apply Hg). by rewrite <-andb_orb_distrib_l.
    + apply Forall_In. intros t (s & <- & Hs)%in_map_iff. right. split; [done|]. split; [by apply converted_some|]. exists (names_prefix f ++ s). split; [|by apply converted_composed]. rewrite Forall_In in Hgood. apply Hgood. by apply in_map.
  - apply existsb_exists in Ha as (a & Hain & Has). unfold asks_tag in Has. apply andb_true_iff in Has as [[Hao _]%andb_true_iff _]. intros Hnil. by assert (In a (List.filter on_tag (tfs_tfs tfs))) as Hx by (by apply filter_In); rewrite Hnil in Hx.
  - intros tf name Ht Hnt Hname. assert (Ht' : In tf (List.filter naming (tfs_tfs tfs))) by (by apply filter_In). rewrite Hf in Ht'. by destruct Ht' as [<-|[]].
Qed.
End Converted.
