(* ===== verification/IndexQuery.v ===== *)
(** * Queries of the index

    Model of the searches of [esm-storage/src/index/search.rs] for metric IDs in
    a time range, and of the queries of [esm-storage/src/index/mod.rs] on top of
    them: identifiers and names of the series that match filters, through the
    cache of results, and the deletion of series. *)
From Stdlib Require Import ZArith Lia Bool.
From stdpp Require Import base gmap list.
From S2P Require Import Prelude IntCodec TimeRange Tsid MetricName ItemBlock IndexRow Uint64Set IndexCaches ItemTableSearch ItemTable IndexDb TagFilter IndexPlanner.
Local Open Scope Z_scope.

Definition MAX_SEQUENTIAL_DAYS : Z := 4.
Definition NO_DEADLINE : Z := 2 ^ 64 - 1.

(** [min_date..=max_date]. *)
Definition date_list (min_date max_date : Z) : list Z := map (fun i => min_date + Z.of_nat i) (seq 0 (Z.to_nat (max_date - min_date + 1))).

Definition marshal_tag_filters (dst : list Z) (tfs : TagFilters) : list Z := foldl (fun dst tf => tf_marshal tf dst) (dst ++ [0]) (tfs_tfs tfs).

Definition marshal_tag_filters_key (dst : list Z) (tfss : list TagFilters) (tr : TimeRange) : list Z :=
  let '(start_date, end_date) := date_range tr in
  foldl marshal_tag_filters (marshal_uint64 (marshal_uint64 dst start_date) end_date) tfss.

(** The size of a cached set decides when the cache forgets it. *)
Class SetSize : Type := set_entry_size :: EntrySize USet.

Section Query.
  Context {Xx : Xxh64} {Re : RegexEngine} {Ru : RegexUtil} {Ss : SliceSort} {Sz : SetSize} {T W : Type} {Tb : ItemTable T W}.
  Context (clock : nat -> Z) (fuel : nat).

(** [fresh] is a new cursor over the table; [sched] the order in which the
    threads of a search over many days finish. *)
  Context (fresh : T) (sched : list Z -> list Z).

Abbreviation PlanState := (PlanState (T := T) (W := W)).

(** ** Dates *)

(** The loop over few days. *)
Fixpoint days_loop {E} (tfs : TagFilters) (max_metrics : Z) (dates : list Z) (m : USet) (ps : PlanState) : res E (PlanState * outcome USet) :=
  match dates with
  | [] => Ok (ps, inl m)
  | date :: dates =>
      '(ps, r) ← get_metric_ids_for_date_and_filters clock fuel date tfs max_metrics ps;
      match r with
      | inr err => Ok (ps, inr err)
      | inl day =>
          m ← (if Z.of_nat (set_len m) <? max_metrics then lift_set (set_union m day) else Ok m);
          days_loop tfs max_metrics dates m ps
      end
  end.

(** The threads of a search over many days, each with a cursor of its own, in
    the order they take the lock: all of them run, the first error stays. *)
Fixpoint threads_loop {E} (deadline : Z) (tfs : TagFilters) (max_metrics : Z) (dates : list Z) (m : USet) (err : option SearchError) (db : IndexDb) (w : W) (ticks : nat)
    : res E (IndexDb * W * nat * USet * option SearchError) :=
  match dates with
  | [] => Ok (db, w, ticks, m, err)
  | date :: dates =>
      '(ps, r) ← get_metric_ids_for_date_and_filters clock fuel date tfs max_metrics (mkPlan db (mkIndexSearch fresh parser_default deadline) w ticks);
      '(m, err) ←
        (match err with
         | Some _ => Ok (m, err)
         | None =>
             match r with
             | inl day => m ← (if Z.of_nat (set_len m) <? max_metrics then lift_set (set_union m day) else Ok m); Ok (m, None)
             | inr e => Ok (m, Some e)
             end
         end);
      threads_loop deadline tfs max_metrics dates m err (pl_db ps) (pl_w ps) (pl_ticks ps)
  end.

Definition update_metric_ids_for_date_range {E} (ids : USet) (tfs : TagFilters) (min_date max_date max_metrics : Z) (ps : PlanState) : res E (PlanState * outcome USet) :=
  if min_date =? max_date then
    '(ps, r) ← get_metric_ids_for_date_and_filters clock fuel min_date tfs max_metrics ps;
    match r with
    | inr err => Ok (ps, inr err)
    | inl m => ids ← lift_set (set_union ids m); Ok (ps, inl ids)
    end
  else if as_u64 (max_date - min_date) <? MAX_SEQUENTIAL_DAYS then
    '(ps, r) ← days_loop tfs max_metrics (date_list min_date max_date) set_default ps;
    match r with
    | inr err => Ok (ps, inr err)
    | inl m => ids ← lift_set (set_union ids m); Ok (ps, inl ids)
    end
  else
    '(db, w, ticks, m, err) ← threads_loop (is_deadline (pl_is ps)) tfs max_metrics (sched (date_list min_date max_date)) set_default None (pl_db ps) (pl_w ps) (pl_ticks ps);
    let ps := mkPlan db (pl_is ps) w ticks in
    match err with
    | Some err => Ok (ps, inr err)
    | None => ids ← lift_set (set_union ids m); Ok (ps, inl ids)
    end.

Definition update_metric_ids_for_tag_filters {E} (ids : USet) (tfs : TagFilters) (tr : TimeRange) (max_metrics : Z) (ps : PlanState) : res E (PlanState * outcome USet) :=
  if negb ((tr_min_timestamp tr =? tr_min_timestamp GLOBAL_INDEX_TIME_RANGE) && (tr_max_timestamp tr =? tr_max_timestamp GLOBAL_INDEX_TIME_RANGE)) then
    let '(min_date, max_date) := date_range tr in
    update_metric_ids_for_date_range ids tfs min_date max_date max_metrics ps
  else
    '(ps, r) ← get_metric_ids_for_date_and_filters clock fuel GLOBAL_INDEX_DATE tfs max_metrics ps;
    match r with
    | inr err => Ok (ps, inr err)
    | inl m => ids ← lift_set (set_union ids m); Ok (ps, inl ids)
    end.

(** An empty set of filters is [{__name__!=""}]. *)
Definition or_any_name {E} (tfs : TagFilters) : res E TagFilters :=
  match tfs_tfs tfs with
  | [] => match tfs_add tfs_new [] [] true false with Ok tfs => Ok tfs | _ => Panic end
  | _ => Ok tfs
  end.

(** The loop over the sets of filters; [max_metrics + 1] panics or wraps for
    the greatest limit, here it wraps. *)
Fixpoint tfss_loop {E} (tfss : list TagFilters) (tr : TimeRange) (max_metrics : Z) (ids : USet) (ps : PlanState) : res E (PlanState * outcome USet) :=
  match tfss with
  | [] => Ok (ps, inl ids)
  | tfs :: tfss =>
      tfs ← or_any_name tfs;
      '(ps, r) ← update_metric_ids_for_tag_filters ids tfs tr (as_u64 (max_metrics + 1)) ps;
      match r with
      | inr err => Ok (ps, inr err)
      | inl ids =>
          if max_metrics <? Z.of_nat (set_len ids) then Ok (ps, inr (TooManyTimeseries max_metrics))
          else tfss_loop tfss tr max_metrics ids ps
      end
  end.

Definition search_metric_ids_internal {E} (tfss : list TagFilters) (tr : TimeRange) (max_metrics : Z) (ps : PlanState) : res E (PlanState * outcome USet) :=
  tfss ← (if min_timestamp_for_composite_index (idb_ctx (pl_db ps)) <=? tr_min_timestamp tr then convert_to_composite_tag_filterss tfss else Ok tfss);
  tfss_loop tfss tr max_metrics set_default ps.

(** [IndexSearch::search_metric_ids]. *)
Definition is_search_metric_ids {E} (tfss : list TagFilters) (tr : TimeRange) (max_metrics : Z) (ps : PlanState) : res E (PlanState * outcome USet) :=
  '(ps, r) ← search_metric_ids_internal tfss tr max_metrics ps;
  match r with
  | inr err => Ok (ps, inr err)
  | inl ids =>
      if set_is_empty ids then Ok (ps, inl ids)
      else ids ← lift_set (set_subtract ids (deleted_metric_ids (pl_db ps))); Ok (ps, inl ids)
  end.

(** ** The database *)

(** [IndexDb::search_metric_ids], through the cache of results. *)
Definition search_metric_ids {E} (tfss : list TagFilters) (tr : TimeRange) (max_metrics deadline : Z) (db : IndexDb) (w : W) (ticks : nat)
    : res E (IndexDb * W * nat * outcome USet) :=
  match tfss with
  | [] => Ok (db, w, ticks, inl set_default)
  | _ =>
      let tf_key := marshal_tag_filters_key [] tfss tr in
      '(c, cached) ← wc_get (tag_filters_to_metric_ids_cache db) tf_key;
      let db := set_tag_filters_cache db c in
      match cached with
      | Some ids =>
          if max_metrics <? Z.of_nat (set_len ids) then Ok (db, w, ticks, inr (TooManyTimeseries max_metrics))
          else Ok (db, w, ticks, inl ids)
      | None =>
          '(ps, r) ← is_search_metric_ids tfss tr max_metrics (mkPlan db (mkIndexSearch fresh parser_default deadline) w ticks);
          match r with
          | inr err => Ok (pl_db ps, pl_w ps, pl_ticks ps, inr err)
          | inl ids =>
              c ← wc_set (tag_filters_to_metric_ids_cache (pl_db ps)) tf_key ids;
              Ok (set_tag_filters_cache (pl_db ps) c, pl_w ps, pl_ticks ps, inl ids)
          end
      end
  end.

(** What the closure of [search_tsids] works on. *)
Record TsidsState : Type := mkTsids {
  ts_ps : PlanState;
  ts_tsids : list Tsid;
  ts_delete : USet;
  ts_limiter : Z;
  ts_err : option SearchError;
}.

(** One metric ID; [false] stops the walk. *)
Definition tsid_step {E} (st : TsidsState) (metric_id : Z) : res E (TsidsState * bool) :=
  let '(ps, err) := paced clock PACE_LIMITER_SLOW_ITERATIONS_MASK (ts_limiter st) (ts_ps st) in
  match err with
  | Some e => Ok (mkTsids ps (ts_tsids st) (ts_delete st) (ts_limiter st) (Some e), false)
  | None =>
      let limiter := as_u64 (ts_limiter st + 1) in
      let db := pl_db ps in
      '(ctx, tsid, cached) ← get_tsid_by_metric_id_from_cache (idb_ctx db) Tsid_default metric_id;
      let db := set_ctx db ctx in
      if cached : bool then Ok (mkTsids (set_db ps db) (ts_tsids st ++ [tsid]) (ts_delete st) limiter None, true)
      else
        '(self, w, tsid, found) ← get_tsid_by_metric_id (pl_is ps) (pl_w ps) tsid metric_id;
        if negb found then
          let '(ctx, missing) := was_metric_id_missing_before (idb_ctx db) (clock (pl_ticks ps)) metric_id in
          let ps := mkPlan (set_ctx db ctx) self w (S (pl_ticks ps)) in
          if missing : bool then
            del ← lift_set (set_add (ts_delete st) metric_id);
            Ok (mkTsids ps (ts_tsids st) del limiter None, true)
          else Ok (mkTsids ps (ts_tsids st) (ts_delete st) limiter None, true)
        else
          ctx ← put_tsid_by_metric_id_to_cache (idb_ctx db) metric_id tsid;
          Ok (mkTsids (mkPlan (set_ctx db ctx) self w (pl_ticks ps)) (ts_tsids st ++ [tsid]) (ts_delete st) limiter None, true)
  end.

Fixpoint tsid_part {E} (st : TsidsState) (part : list Z) : res E (TsidsState * bool) :=
  match part with
  | [] => Ok (st, true)
  | id :: part =>
      '(st, go) ← tsid_step st id;
      if go : bool then tsid_part st part else Ok (st, false)
  end.

Definition search_tsids {E} (tfss : list TagFilters) (tr : TimeRange) (max_metrics deadline : Z) (db : IndexDb) (w : W) (ticks : nat)
    : res E (IndexDb * W * nat * outcome (list Tsid)) :=
  '(db, w, ticks, r) ← search_metric_ids tfss tr max_metrics deadline db w ticks;
  match r with
  | inr err => Ok (db, w, ticks, inr err)
  | inl ids =>
      if set_is_empty ids then Ok (db, w, ticks, inl [])
      else
        st ← lift_set (set_for_each (fun st part => tsid_part st part) ids
               (mkTsids (mkPlan db (mkIndexSearch fresh parser_default deadline) w ticks) [] set_default 0 None));
        let ps := ts_ps st in
        match ts_err st with
        | Some e => Ok (pl_db ps, pl_w ps, pl_ticks ps, inr e)
        | None =>
            let tsids := sort_by (fun a b => negb (tsid_less b a)) (ts_tsids st) in
            db ← (if set_is_empty (ts_delete st) then Ok (pl_db ps) else save_deleted_metric_ids (pl_db ps) (ts_delete st));
            Ok (db, pl_w ps, pl_ticks ps, inl tsids)
        end
  end.

(** What the closure of [search_metric_names] works on. *)
Record NamesState : Type := mkNames {
  ns_ps : PlanState;
  ns_names : list (list Z);
  ns_delete : USet;
  ns_limiter : Z;
  ns_err : option SearchError;
}.

Definition name_step {E} (st : NamesState) (metric_id : Z) : res E (NamesState * bool) :=
  let '(ps, err) := paced clock PACE_LIMITER_SLOW_ITERATIONS_MASK (ns_limiter st) (ns_ps st) in
  match err with
  | Some e => Ok (mkNames ps (ns_names st) (ns_delete st) (ns_limiter st) (Some e), false)
  | None =>
      let limiter := as_u64 (ns_limiter st + 1) in
      '(db, self, w, metric_name, ok) ← search_metric_name_with_cache (pl_db ps) (pl_is ps) (pl_w ps) [] metric_id;
      let ps := mkPlan db self w (pl_ticks ps) in
      if negb ok then
        let '(ctx, missing) := was_metric_id_missing_before (idb_ctx db) (clock (pl_ticks ps)) metric_id in
        let ps := mkPlan (set_ctx db ctx) self w (S (pl_ticks ps)) in
        if missing : bool then
          del ← lift_set (set_add (ns_delete st) metric_id);
          Ok (mkNames ps (ns_names st) del limiter None, true)
        else Ok (mkNames ps (ns_names st) (ns_delete st) limiter None, true)
      else Ok (mkNames ps (ns_names st ++ [metric_name]) (ns_delete st) limiter None, true)
  end.

Fixpoint name_part {E} (st : NamesState) (part : list Z) : res E (NamesState * bool) :=
  match part with
  | [] => Ok (st, true)
  | id :: part =>
      '(st, go) ← name_step st id;
      if go : bool then name_part st part else Ok (st, false)
  end.

Definition search_metric_names {E} (tfss : list TagFilters) (tr : TimeRange) (max_metrics deadline : Z) (db : IndexDb) (w : W) (ticks : nat)
    : res E (IndexDb * W * nat * outcome (list (list Z))) :=
  '(db, w, ticks, r) ← search_metric_ids tfss tr max_metrics deadline db w ticks;
  match r with
  | inr err => Ok (db, w, ticks, inr err)
  | inl ids =>
      if set_is_empty ids then Ok (db, w, ticks, inl [])
      else
        st ← lift_set (set_for_each (fun st part => name_part st part) ids
               (mkNames (mkPlan db (mkIndexSearch fresh parser_default deadline) w ticks) [] set_default 0 None));
        let ps := ns_ps st in
        match ns_err st with
        | Some e => Ok (pl_db ps, pl_w ps, pl_ticks ps, inr e)
        | None =>
            db ← (if set_is_empty (ns_delete st) then Ok (pl_db ps) else save_deleted_metric_ids (pl_db ps) (ns_delete st));
            Ok (db, pl_w ps, pl_ticks ps, inl (ns_names st))
        end
  end.

Definition delete_series {E} (tfss : list TagFilters) (max_metrics : Z) (db : IndexDb) (w : W) (ticks : nat) : res E (IndexDb * W * nat * outcome USet) :=
  '(ps, r) ← is_search_metric_ids tfss GLOBAL_INDEX_TIME_RANGE max_metrics (mkPlan db (mkIndexSearch fresh parser_default NO_DEADLINE) w ticks);
  match r with
  | inr err => Ok (pl_db ps, pl_w ps, pl_ticks ps, inr err)
  | inl ids =>
      db ← save_deleted_metric_ids (pl_db ps) ids;
      Ok (db, pl_w ps, pl_ticks ps, inl ids)
  end.
End Query.
