(* ===== verification/IndexQuerySpec.v ===== *)
(** * The queries of the index are exact

    The searches for metric IDs in a time range: over one day, a few days one
    after the other or many days at once, for any number of sets of filters,
    through composite filters or not.  They return the series of the range that
    pass the filters by name, less the deleted ones. *)
From Stdlib Require Import ZArith Lia Bool Sorted Permutation.
From stdpp Require Import base gmap list.
From S2P Require Import Prelude IntCodec TimeRange Tsid MetricName ItemBlock ItemBlockSpec IndexRow IndexRowSpec Uint64Set Uint64SetSpec IndexCaches ItemTableSearch ItemTable IndexDb IndexDbSpec TagFilter IndexPlanner IndexScanSpec IndexPlannerSpec IndexPlannerExact IndexComposite IndexQuery.
Local Open Scope Z_scope.

(** ** Sets *)

Lemma set_len_mono s s' : wf_set s -> wf_set s' -> (forall v, v ∈ set_items s -> v ∈ set_items s') -> (set_len s <= set_len s')%nat.
Proof.
  intros H1 H2 H. rewrite (represents_size s (list_to_set (set_items s))), (represents_size s' (list_to_set (set_items s'))) by (by split). apply subseteq_size. intros v. rewrite !elem_of_list_to_set. apply H.
Qed.

Lemma set_len_items s : wf_set s -> set_len s = length (set_items s) /\ NoDup (set_items s).
Proof.
  intros Hw. assert (Hnd : NoDup (set_items s)) by (apply buckets_NoDup; by destruct Hw). split; [|done]. rewrite (represents_size s (list_to_set (set_items s))) by (by split). by apply size_list_to_set.
Qed.

Lemma set_union_ok {E} s a : wf_set s -> wf_set a -> exists s', lift_set (E := E) (set_union s a) = Ok s' /\ wf_set s' /\ forall v, v ∈ set_items s' <-> v ∈ set_items s \/ v ∈ set_items a.
Proof. intros Hs Ha. destruct (set_union_spec s a Hs Ha) as (s' & H & Hw & Hi). exists s'. by rewrite (lift_set_Ok _ _ H). Qed.

Lemma default_items v : v ∈ set_items set_default <-> False.
Proof. change (set_items set_default) with (@nil Z). by rewrite elem_of_nil. Qed.

Lemma wf_default : wf_set set_default.
Proof. by repeat constructor. Qed.

Section Queries.
  Context {Xx : Xxh64} {Re : RegexEngine} {Ru : RegexUtil} {Dp : DotPlusLaws} {Ss : SliceSort} {Sr : SortReturns Ss} {T W : Type} {Tb : ItemTable T W} (items : list (list Z)) {L : ItemTableLaws T W items}.
  Context (d : bool) (ops : list index_op) (hist : history_ok ops).
  Context (clock : nat -> Z) (deadline : Z) (fuel : nat) (enough : (S (length items) * S (length items) <= fuel)%nat) {RC : list Z -> USet -> Prop}.
  Context (fresh : T) (fresh_ok : tl_any fresh) (sched : list Z -> list Z) (sched_ok : forall l, sched l ≡ₚ l).

Abbreviation PlanState := (PlanState (T := T) (W := W)).
Abbreviation pl_ok := (pl_ok (T := T) (W := W) items d ops deadline (RC := RC)).
Abbreviation plan_err := (plan_err clock deadline).

(** ** Days *)

(** The filters can be planned, and select by [Q]. *)
Definition plannable (Q : MetricName -> bool) (tfs : TagFilters) : Prop :=
  tfs_common_prefix tfs = global_head /\ Forall good_filter (tfs_tfs tfs) /\ hybrid ops (tfs_tfs tfs) /\ forall t mn, seen ops t mn -> forallb (isem mn) (tfs_tfs tfs) = Q mn.

Definition ids_on (dates : list Z) (Q : MetricName -> bool) (id : Z) : Prop := exists date, In date dates /\ ids_with d ops date Q id.

(** A date of [dates] has more series than the planner looks at. *)
Definition day_crowded (dates : list Z) (max : Z) (e : SearchError) : Prop :=
  e = TooManyTimeseries (max_date_metrics_of max) /\ exists date, In date dates /\ crowded d ops date (max_date_metrics_of max).

Definition day_err (dates : list Z) (max : Z) (e : SearchError) : Prop := plan_err e \/ day_crowded dates max e.

(** The metric IDs so far: all of them when the limit is not reached. *)
Definition gathers (R : Z -> Prop) (max : Z) (ids : USet) : Prop :=
  wf_set ids /\ (forall v, v ∈ set_items ids -> R v) /\ (Z.of_nat (set_len ids) < max -> forall v, R v -> v ∈ set_items ids).

Lemma gathers_ext R R' max ids : (forall v, R v <-> R' v) -> gathers R max ids -> gathers R' max ids.
Proof. intros H (Hw & H1 & H2). split; [done|]. split; [intros v Hv; by apply H, H1|]. intros Hl v Hv. apply H2; [done|by apply H]. Qed.

Lemma day_err_mono dates dates' max e : (forall x, In x dates -> In x dates') -> day_err dates max e -> day_err dates' max e.
Proof. intros H [He|(He & date & Hin & Hc)]; [by left|]. right. split; [done|]. exists date. auto. Qed.

Lemma plan_day {E} date Q tfs max (ps : PlanState) : is_u64 date -> plannable Q tfs -> pl_ok ps ->
  exists ps' r, get_metric_ids_for_date_and_filters (E := E) clock fuel date tfs max ps = Ok (ps', r) /\ pl_ok ps' /\
    match r with inl ids => wf_set ids /\ forall v, v ∈ set_items ids <-> ids_on [date] Q v | inr e => day_err [date] max e end.
Proof using hist enough Dp Sr.
  intros Hd (Hcp & Hg & Hyb & HQ) Hp. destruct (planner_ok (E := E) items d ops hist clock deadline fuel enough date Hd tfs max ps Hcp Hg Hyb Hp) as (ps' & r & -> & Hp' & Hr). exists ps', r. split_and!; [done..|].
  destruct r as [ids|e].
  - apply (exact_ext d ops date _ Q) in Hr as [Hw Hi]; [|intros t mn Hon; eapply HQ, on_date_seen, Hon]. split; [done|]. intros v. rewrite Hi. split; [intros H; exists date; by split; [left|]|by intros (? & [<-|[]] & H)].
  - destruct Hr as [He|[He Hc]]; [by left|]. right. split; [done|]. exists date. by split; [left|].
Qed.

(** The union when there is room. *)
Lemma gather_day {E} (R S : Z -> Prop) max m day : gathers R max m -> wf_set day -> (forall v, v ∈ set_items day <-> S v) ->
  exists m', (if Z.of_nat (set_len m) <? max then lift_set (E := E) (set_union m day) else Ok m) = Ok m' /\ gathers (fun v => R v \/ S v) max m'.
Proof.
  intros (Hw & H1 & H2) Hd Hs. destruct (Z.ltb_spec (Z.of_nat (set_len m)) max) as [Hlt|Hge].
  - destruct (set_union_ok (E := E) m day Hw Hd) as (m' & -> & Hw' & Hi). exists m'. split; [done|]. split; [done|]. split.
    + intros v. rewrite Hi, Hs. intros [Hv|Hv]; [left; by apply H1|by right].
    + intros _ v. rewrite Hi, Hs. intros [Hv|Hv]; [left; by apply H2|by right].
  - exists m. split; [done|]. split; [done|]. split; [intros v Hv; left; by apply H1|lia].
Qed.

Lemma days_loop_ok {E} Q tfs max dates : Forall is_u64 dates -> plannable Q tfs -> forall R m (ps : PlanState), gathers R max m -> pl_ok ps ->
  exists ps' r, days_loop (E := E) clock fuel tfs max dates m ps = Ok (ps', r) /\ pl_ok ps' /\
    match r with inl m' => gathers (fun v => R v \/ ids_on dates Q v) max m' | inr e => day_err dates max e end.
Proof using hist enough Dp Sr.
  intros Hd Hq. induction Hd as [|date dates Hdt _ IH]; intros R m ps Hm Hp; cbn [days_loop].
  { exists ps, (inl m). split_and!; [done..|]. eapply gathers_ext; [|done]. intros v. split; [by left|]. by intros [?|(? & [] & _)]. }
  destruct (plan_day (E := E) date Q tfs max ps Hdt Hq Hp) as (ps1 & r & -> & Hp1 & Hr). rewrite bind_Ok. destruct r as [day|e].
  - destruct Hr as [Hwd Hid]. destruct (gather_day (E := E) R _ max m day Hm Hwd Hid) as (m' & -> & Hm'). rewrite bind_Ok. destruct (IH _ m' ps1 Hm' Hp1) as (ps' & r & -> & Hp' & Hr). exists ps', r. split_and!; [done..|].
    destruct r as [m2|e].
    + eapply gathers_ext; [|done]. intros v. unfold ids_on. cbn [In]. naive_solver.
    + eapply day_err_mono; [|done]. by right.
  - exists ps1, (inr e). split_and!; [done..|]. eapply day_err_mono; [|done]. intros x [<-|[]]. by left.
Qed.

Lemma fresh_plan (ps : PlanState) db w ticks : pl_ok ps -> pl_db ps = db -> pl_w ps = w -> pl_ok (mkPlan db (mkIndexSearch fresh parser_default deadline) w ticks).
Proof using fresh_ok. intros [[H1 H2 H3 H4 H5 H6] Hl Hd Hrc] <- <-. split; [|done..]. by split. Qed.

(** Many days at once. *)
Lemma threads_loop_ok {E} Q tfs max dates : Forall is_u64 dates -> plannable Q tfs -> forall R m err (ps : PlanState), gathers R max m -> pl_ok ps ->
  exists ps' m' err', threads_loop (E := E) clock fuel fresh deadline tfs max dates m err (pl_db ps) (pl_w ps) (pl_ticks ps) = Ok (pl_db ps', pl_w ps', pl_ticks ps', m', err') /\ pl_ok ps' /\
    match err' with None => err = None /\ gathers (fun v => R v \/ ids_on dates Q v) max m' | Some e => err = Some e \/ day_err dates max e end.
Proof using hist enough Dp Sr fresh_ok.
  intros Hd Hq. induction Hd as [|date dates Hdt _ IH]; intros R m err ps Hm Hp; cbn [threads_loop].
  { exists ps, m, err. split_and!; [done..|]. destruct err; [by left|]. split; [done|]. eapply gathers_ext; [|done]. intros v. split; [by left|]. by intros [?|(? & [] & _)]. }
  destruct (plan_day (E := E) date Q tfs max _ Hdt Hq (fresh_plan ps _ _ (pl_ticks ps) Hp eq_refl eq_refl)) as (ps1 & r & -> & Hp1 & Hr). rewrite bind_Ok.
  assert (Hgo : exists m1 err1, (match err with Some _ => Ok (m, err) | None => match r with inl day => m ← (if Z.of_nat (set_len m) <? max then lift_set (set_union m day) else Ok m); Ok (m, None) | inr e => Ok (m, Some e) end end) = Ok (E := E) (m1, err1) /\
    exists R1, gathers R1 max m1 /\ match err1 with None => err = None /\ forall v, R1 v <-> R v \/ ids_on [date] Q v | Some e => err = Some e \/ day_err [date] max e end).
  { destruct err as [e|]; [exists m, (Some e); split; [done|]; exists R; split; [done|by left]|]. destruct r as [day|e].
    - destruct Hr as [Hwd Hid]. destruct (gather_day (E := E) R _ max m day Hm Hwd Hid) as (m1 & -> & Hm1). exists m1, None. split; [done|]. by eexists.
    - exists m, (Some e). split; [done|]. exists R. split; [done|by right]. }
  destruct Hgo as (m1 & err1 & -> & R1 & Hm1 & He1). rewrite bind_Ok. destruct (IH R1 m1 err1 ps1 Hm1 Hp1) as (ps' & m' & err' & -> & Hp' & Hr'). exists ps', m', err'. split_and!; [done..|].
  destruct err' as [e|].
  - destruct Hr' as [->|He]; [|right; eapply day_err_mono; [|done]; by right]. destruct He1 as [->|He]; [by left|]. right. eapply day_err_mono; [|done]. intros x [<-|[]]. by left.
  - destruct Hr' as [-> Hg]. destruct He1 as [-> HR]. split; [done|]. eapply gathers_ext; [|done]. intros v. cbn beta. rewrite HR. unfold ids_on. cbn [In]. naive_solver.
Qed.

(** ** Ranges *)

Lemma date_list_In lo hi x : In x (date_list lo hi) <-> lo <= x <= hi.
Proof using.
  clear enough. unfold date_list. rewrite in_map_iff. setoid_rewrite in_seq. split; [intros (i & <- & Hi); lia|]. intros H. exists (Z.to_nat (x - lo)). lia.
Qed.

(** What a search adds to the metric IDs so far. *)
Definition extends (R : Z -> Prop) (ids : USet) (max : Z) (ids' : USet) : Prop :=
  wf_set ids' /\ (forall v, v ∈ set_items ids' -> v ∈ set_items ids \/ R v) /\ (Z.of_nat (set_len ids') < max -> forall v, v ∈ set_items ids \/ R v -> v ∈ set_items ids').

Lemma extend_ok {E} R max ids m : wf_set ids -> gathers R max m -> exists ids', lift_set (E := E) (set_union ids m) = Ok ids' /\ extends R ids max ids'.
Proof.
  intros Hw (Hwm & H1 & H2). destruct (set_union_ok (E := E) ids m Hw Hwm) as (ids' & -> & Hw' & Hi). exists ids'. split; [done|]. split; [done|]. split.
  - intros v. rewrite Hi. intros [?|?]; [by left|right; by apply H1].
  - intros Hl v. rewrite Hi. intros [?|?]; [by left|]. right. apply H2; [|done]. pose proof (set_len_mono m ids' Hwm Hw') as Hmono. specialize (Hmono ltac:(intros u Hu; apply Hi; by right)). lia.
Qed.

Lemma exact_gathers R max m : wf_set m -> (forall v, v ∈ set_items m <-> R v) -> gathers R max m.
Proof. intros Hw Hi. split; [done|]. split; [intros v; apply Hi|]. intros _ v. apply Hi. Qed.

Lemma range_u64 lo hi : is_u64 lo -> is_u64 hi -> Forall is_u64 (date_list lo hi).
Proof using. clear enough. intros H1 H2. apply Forall_In. intros x Hx%date_list_In. unfold is_u in *. lia. Qed.

Lemma date_range_ok {E} Q tfs lo hi max ids (ps : PlanState) : is_u64 lo -> is_u64 hi -> plannable Q tfs -> wf_set ids -> pl_ok ps ->
  exists ps' r, update_metric_ids_for_date_range (E := E) clock fuel fresh sched ids tfs lo hi max ps = Ok (ps', r) /\ pl_ok ps' /\
    match r with inl ids' => extends (ids_on (date_list lo hi) Q) ids max ids' | inr e => day_err (date_list lo hi) max e end.
Proof using hist enough Dp Sr fresh_ok sched_ok.
  intros Hlo Hhi Hq Hw Hp. unfold update_metric_ids_for_date_range. pose proof (range_u64 lo hi Hlo Hhi) as Hall. assert (Hstart : gathers (fun _ => False) max set_default).
  { split; [exact wf_default|]. split; [intros v; by rewrite default_items|done]. }
  destruct (Z.eqb_spec lo hi) as [->|Hne]; [|destruct (as_u64 (hi - lo) <? MAX_SEQUENTIAL_DAYS)].
  - destruct (plan_day (E := E) hi Q tfs max ps Hhi Hq Hp) as (ps1 & r & -> & Hp1 & Hr). rewrite bind_Ok. assert (Hone : forall x, In x [hi] <-> In x (date_list hi hi)) by (intros x; rewrite date_list_In; cbn; lia).
    destruct r as [m|e]; [|eexists ps1, _; split_and!; [done..|]; eapply day_err_mono; [|done]; intros x; apply Hone].
    destruct Hr as [Hwm Hi]. destruct (extend_ok (E := E) (ids_on (date_list hi hi) Q) max ids m Hw) as (ids' & -> & Hx); [|by eexists ps1, (inl ids')].
    apply exact_gathers; [done|]. intros v. rewrite Hi. unfold ids_on. by setoid_rewrite Hone.
  - destruct (days_loop_ok (E := E) Q tfs max _ Hall Hq _ _ ps Hstart Hp) as (ps1 & r & -> & Hp1 & Hr). rewrite bind_Ok. destruct r as [m|e]; [|by eexists ps1, _].
    destruct (extend_ok (E := E) (ids_on (date_list lo hi) Q) max ids m Hw) as (ids' & -> & Hx); [|by eexists ps1, (inl ids')]. eapply gathers_ext; [|done]. intros v. cbn. tauto.
  - assert (Hsame : forall x, In x (sched (date_list lo hi)) <-> In x (date_list lo hi)) by (intros x; by rewrite (sched_ok (date_list lo hi))).
    rewrite (po_deadline _ _ _ _ _ Hp). destruct (threads_loop_ok (E := E) Q tfs max (sched (date_list lo hi)) ltac:(by rewrite sched_ok) Hq _ _ None ps Hstart Hp) as (ps1 & m & err & -> & Hp1 & Hr). rewrite bind_Ok.
    assert (Hp2 : pl_ok (mkPlan (pl_db ps1) (pl_is ps) (pl_w ps1) (pl_ticks ps1))) by (destruct Hp as [[_ _ _ _ Hc _] _ Hdl _], Hp1 as [[? ? ? ? _ ?] ? _ ?]; split; [by split|done..]).
    destruct err as [e|].
    + destruct Hr as [?|He]; [done|]. eexists _, (inr e). split_and!; [done..|]. eapply day_err_mono; [|done]. intros x. apply Hsame.
    + destruct Hr as [_ Hg]. destruct (extend_ok (E := E) (ids_on (date_list lo hi) Q) max ids m Hw) as (ids' & -> & Hx); [|by eexists _, (inl ids')]. eapply gathers_ext; [|done]. intros v. cbn. unfold ids_on. setoid_rewrite Hsame. tauto.
Qed.

(** ** Sets of filters *)

(** The dates a search looks at. *)
Definition range_dates (tr : TimeRange) : list Z :=
  if negb ((tr_min_timestamp tr =? tr_min_timestamp GLOBAL_INDEX_TIME_RANGE) && (tr_max_timestamp tr =? tr_max_timestamp GLOBAL_INDEX_TIME_RANGE)) then date_list (fst (date_range tr)) (snd (date_range tr)) else [GLOBAL_INDEX_DATE].

Lemma date_range_u64 tr : is_u64 (fst (date_range tr)) /\ is_u64 (snd (date_range tr)).
Proof using.
  clear enough. unfold date_range. cbn [fst snd]. assert (H : forall x, 0 <= as_u64 x / MSEC_PER_DAY < 2 ^ 64).
  { intros x. unfold as_u64, wrap_u. pose proof (Z.mod_pos_bound x (2 ^ 64)) as Hb. split; [apply Z.div_pos; [lia|done]|]. apply Z.div_lt_upper_bound; [done|]. unfold MSEC_PER_DAY. lia. }
  pose proof (H (tr_min_timestamp tr)). pose proof (H (tr_max_timestamp tr)). unfold is_u. lia.
Qed.

Lemma tag_filters_ok {E} Q tfs tr max ids (ps : PlanState) : plannable Q tfs -> wf_set ids -> pl_ok ps ->
  exists ps' r, update_metric_ids_for_tag_filters (E := E) clock fuel fresh sched ids tfs tr max ps = Ok (ps', r) /\ pl_ok ps' /\
    match r with inl ids' => extends (ids_on (range_dates tr) Q) ids max ids' | inr e => day_err (range_dates tr) max e end.
Proof using hist enough Dp Sr fresh_ok sched_ok.
  intros Hq Hw Hp. unfold update_metric_ids_for_tag_filters, range_dates. destruct (negb _).
  - destruct (date_range_u64 tr) as [H1 H2]. destruct (date_range tr) as [lo hi]. by apply date_range_ok.
  - destruct (plan_day (E := E) GLOBAL_INDEX_DATE Q tfs max ps ltac:(done) Hq Hp) as (ps1 & r & -> & Hp1 & Hr). rewrite bind_Ok. destruct r as [m|e]; [|by eexists ps1, _].
    destruct Hr as [Hwm Hi]. destruct (extend_ok (E := E) (ids_on [GLOBAL_INDEX_DATE] Q) max ids m Hw) as (ids' & -> & Hx); [|by eexists ps1, (inl ids')]. by apply exact_gathers.
Qed.

(** What a set of filters selects in the index; an empty one asks for a name. *)
Definition selects (tfs : TagFilters) (mn : MetricName) : bool :=
  match tfs_tfs tfs with [] => negb (bool_decide (metric_group mn = [])) | l => forallb (isem mn) l end.

Lemma any_name_ok {E} tfs : tfs_tfs tfs = [] \/ plannable (fun mn => forallb (isem mn) (tfs_tfs tfs)) tfs ->
  exists tfs', or_any_name (E := E) tfs = Ok tfs' /\ plannable (selects tfs) tfs'.
Proof using hist Dp.
  intros H. unfold or_any_name, selects. destruct (tfs_tfs tfs) as [|tf l] eqn:Hl.
  - unfold tfs_add. cbn [negb andb]. rewrite bool_decide_false by done. cbn [andb]. destruct (dot_plus_init (tfs_common_prefix tfs_new) []) as (tf & -> & [Hat Hk [Hn He] Ha]). cbn [map_err]. rewrite bind_Ok, Hn. cbn [andb].
    eexists. split; [done|]. change (tfs_common_prefix tfs_new) with global_head in *. pose proof (filter_at_lit _ _ Hat) as Hlit.
    assert (Hf : filter_ok tf). { split; [by rewrite Hlit|]. rewrite He. unfold accepts. rewrite Hlit. by rewrite Ha. }
    assert (Hpk : plain_key (tf_key tf)) by (rewrite Hk; by split). split_and!; [done| | |].
    + apply Forall_singleton. split; [done|]. by rewrite Hk.
    + apply hybrid_plain; [by apply Forall_singleton|by apply Forall_singleton|]. intros tf' [<-|[]] Hne. done.
    + intros t mn Hs. change (isem mn tf && true = negb (bool_decide (metric_group mn = []))). rewrite andb_true_r. unfold isem. rewrite Hk, ilabel_group, Hn. cbn [xorb]. unfold accepts. rewrite Hlit, Ha by (by eapply h_utf8). by destruct (bool_decide _).
  - destruct H as [?|H]; [done|]. exists tfs. split; [done|]. exact H.
Qed.

(** The limit of a query is passed. *)
Definition too_many (R : Z -> Prop) (max : Z) (e : SearchError) : Prop :=
  e = TooManyTimeseries max /\ exists l, NoDup l /\ max < Z.of_nat (length l) /\ Forall R l.

Lemma tfss_loop_ok {E} tr max tfss : is_u64 (max + 1) -> Forall (fun tfs => tfs_tfs tfs = [] \/ plannable (fun mn => forallb (isem mn) (tfs_tfs tfs)) tfs) tfss -> forall R ids (ps : PlanState),
  wf_set ids -> (forall v, v ∈ set_items ids <-> R v) -> pl_ok ps ->
  exists ps' r, tfss_loop (E := E) clock fuel fresh sched tfss tr max ids ps = Ok (ps', r) /\ pl_ok ps' /\
    let R' v := R v \/ ids_on (range_dates tr) (fun mn => existsb (fun tfs => selects tfs mn) tfss) v in
    match r with inl ids' => wf_set ids' /\ forall v, v ∈ set_items ids' <-> R' v | inr e => day_err (range_dates tr) (max + 1) e \/ too_many R' max e end.
Proof using hist enough Dp Sr fresh_ok sched_ok.
  intros Hmax Hall. induction Hall as [|tfs tfss Htfs _ IH]; intros R ids ps Hw Hi Hp; cbn [tfss_loop].
  { exists ps, (inl ids). split_and!; [done..|]. intros v. rewrite Hi. split; [by left|]. intros [?|(date & _ & t & mn & _ & _ & ?)]; [done|done]. }
  destruct (any_name_ok (E := E) tfs Htfs) as (tfs' & -> & Hq). rewrite bind_Ok, wrap_u_id by done. destruct (tag_filters_ok (E := E) _ tfs' tr (max + 1) ids ps Hq Hw Hp) as (ps1 & r & -> & Hp1 & Hr). rewrite bind_Ok.
  assert (Hone : forall v, ids_on (range_dates tr) (selects tfs) v -> ids_on (range_dates tr) (fun mn => existsb (fun tfs => selects tfs mn) (tfs :: tfss)) v).
  { intros v (date & Hd & t & mn & Hon & Hid & HQ). exists date. split; [done|]. exists t, mn. split_and!; [done..|]. cbn. by rewrite HQ. }
  destruct r as [ids1|e]; [|exists ps1, (inr e); split_and!; [done..|]; by left]. destruct Hr as (Hw1 & H1 & H2). destruct (Z.ltb_spec max (Z.of_nat (set_len ids1))) as [Hbig|Hfit].
  - exists ps1, (inr (TooManyTimeseries max)). split_and!; [done..|]. right. split; [done|]. destruct (set_len_items ids1 Hw1) as [Hlen Hnd]. exists (set_items ids1). split_and!; [done|lia|]. apply Forall_forall. intros v Hv.
    destruct (H1 v Hv) as [?|?]; [left; by apply Hi|right; by apply Hone].
  - assert (Hsplit : forall v, ids_on (range_dates tr) (fun mn => existsb (fun tfs => selects tfs mn) (tfs :: tfss)) v <-> ids_on (range_dates tr) (selects tfs) v \/ ids_on (range_dates tr) (fun mn => existsb (fun tfs => selects tfs mn) tfss) v).
    { intros v. split; [|intros [?|(date & Hd & t & mn & Hon & Hid & HQ)]; [by apply Hone|]; exists date; split; [done|]; exists t, mn; split_and!; [done..|]; cbn; by rewrite HQ, orb_true_r].
      intros (date & Hd & t & mn & Hon & Hid & HQ). cbn in HQ. apply orb_true_iff in HQ as [HQ|HQ]; [left|right]; exists date; (split; [done|]); by exists t, mn. }
    destruct (IH (fun v => R v \/ ids_on (range_dates tr) (selects tfs) v) ids1 ps1 Hw1) as (ps' & r & -> & Hp' & Hr); [|done|].
    { intros v. split; [intros Hv; apply H1 in Hv; by rewrite Hi in Hv|]. intros Hv. apply H2; [lia|]. by rewrite Hi. }
    exists ps', r. split_and!; [done..|]. cbn zeta in Hr |- *. destruct r as [ids'|e].
    + destruct Hr as [Hw' Hi']. split; [done|]. intros v. rewrite Hi', Hsplit. tauto.
    + destruct Hr as [?|(He & l & Hnd & Hlen & Hl)]; [by left|]. right. split; [done|]. exists l. split_and!; [done..|]. eapply Forall_impl; [done|]. intros v. cbn beta. rewrite Hsplit. tauto.
Qed.
End Queries.

(** ** Filters as they are added *)

Section Built.
  Context {Re : RegexEngine} {Ru : RegexUtil} {Dp : DotPlusLaws}.

(** Sets of filters made by [TagFilters::add]. *)
Inductive built : TagFilters -> Prop :=
| built_new : built tfs_new
| built_add tfs key value neg re tfs' : built tfs -> tfs_add tfs key value neg re = Ok tfs' -> built tfs'.

Definition initialised (tf : TagFilter) : Prop := exists key value neg re, tf_init global_head key value neg re = Ok tf.

Lemma companions_app l l' : companions l -> companions l' -> companions (l ++ l').
Proof.
  intros H H' tf [Hin|Hin]%in_app_iff Hk Hn He; [destruct (H tf Hin Hk Hn He) as (c & Hc & ?)|destruct (H' tf Hin Hk Hn He) as (c & Hc & ?)]; exists c; (split; [|done]); apply in_or_app; auto.
Qed.

Lemma built_ok tfs : built tfs -> tfs_common_prefix tfs = global_head /\ Forall initialised (tfs_tfs tfs) /\ companions (tfs_tfs tfs).
Proof using Dp.
  induction 1 as [|tfs key value neg re tfs' _ (Hcp & Hi & Hc) Ha]; [split_and!; [done|constructor|by intros ? []]|]. unfold tfs_add in Ha.
  destruct (match value with [] => (dot_plus, negb neg, true) | _ => (value, neg, re) end) as [[v n] r]. destruct (r && bool_decide (v = dot_star) && negb n); [by injection Ha as <-|].
  set (v' := if r && bool_decide (v = dot_star) then dot_plus else v) in Ha. rewrite Hcp in Ha. destruct (tf_init global_head key v' n r) as [tf| |] eqn:Ht; [|done..]. cbn [map_err] in Ha. rewrite bind_Ok in Ha. cbn [tfs_tfs tfs_common_prefix] in Ha.
  assert (Hkey : tf_key tf = key). { revert Ht. unfold tf_init. clear. destruct r; [destruct (guard_ _ _) as [[]| |]; [|done..]; rewrite bind_Ok; destruct (simplify_prom_regex v') as [p [|c e]]|]; rewrite bind_Ok; cbn [negb]; [by intros [= <-]|destruct (get_regexp_from_cache _) as [rcv| |]; [|done..]; rewrite bind_Ok; by intros [= <-]|by intros [= <-]]. }
  assert (Hin : initialised tf) by (by eexists _, _, _, _). destruct (tf_is_negative tf && tf_is_empty_match tf) eqn:Hne.
  - destruct (dot_plus_init global_head key) as (tfn & Htn & Hd). rewrite Htn in Ha. cbn [map_err] in Ha. rewrite bind_Ok in Ha. injection Ha as <-. cbn [tfs_tfs tfs_common_prefix]. split; [done|]. rewrite <-app_assoc. cbn [app]. split.
    + apply Forall_app. split; [done|]. constructor; [done|]. constructor; [by eexists _, _, _, _|done].
    + apply companions_app; [done|]. destruct (dpf_sign _ _ _ Hd) as [Hs1 Hs2]. intros tf' [<-|[<-|[]]] Hk Hn He; [|by rewrite Hs1 in Hn]. exists tfn. split; [by right; left|]. by rewrite (dpf_key _ _ _ Hd).
  - injection Ha as <-. cbn [tfs_tfs tfs_common_prefix]. split; [done|]. split; [apply Forall_app; by split; [|apply Forall_singleton]|]. apply companions_app; [done|]. intros tf' [<-|[]] _ Hn He. by rewrite Hn, He in Hne.
Qed.

(** A query of a user: filters on labels, with alternatives without separators. *)
Record user_query (tfs : TagFilters) : Prop := {
  qo_built : built tfs;
  qo_keys : Forall (fun tf => plain_key (tf_key tf) /\ bytes (tf_key tf)) (tfs_tfs tfs);
  qo_alternatives : Forall (fun tf => Forall (fun s => sep_free s) (tf_or_suffixes tf)) (tfs_tfs tfs);
}.

(** The metric names it lists, if any, are listed once and are not empty. *)
Record names_ok (tfs : TagFilters) : Prop := {
  na_once : (length (List.filter naming (tfs_tfs tfs)) <= 1)%nat;
  na_names : forall tf, In tf (tfs_tfs tfs) -> naming tf = true -> Forall name_good (names_of tf);
  na_clear : forall tf s, In tf (tfs_tfs tfs) -> naming tf = true -> tf_is_regexp tf = true -> In s (tf_or_suffixes tf) -> escape s = s;
}.

Lemma query_made tfs : user_query tfs -> Forall made (tfs_tfs tfs).
Proof using Dp.
  intros Hq. destruct (built_ok _ (qo_built _ Hq)) as (_ & Hi & _). pose proof (qo_alternatives _ Hq) as Ha. rewrite Forall_In in Hi, Ha |- *. intros tf Ht. split; [by apply Hi|by apply Ha].
Qed.

Lemma query_convertible tfs : user_query tfs -> names_ok tfs -> convertible (tfs_tfs tfs).
Proof using Dp. intros Hq [H1 H2 H3]. split; [by apply query_made|apply Hq|by apply built_ok, Hq|done|done|done]. Qed.

Lemma plain_good tf : filter_ok tf -> plain_key (tf_key tf) -> good_filter tf.
Proof. intros Hf [Hk _]. split; [done|]. intros He. by rewrite He in Hk. Qed.

Lemma query_plain tfs : user_query tfs -> Forall filter_ok (tfs_tfs tfs) /\ Forall (fun tf => plain_key (tf_key tf)) (tfs_tfs tfs).
Proof using Dp. intros Hq. split; [eapply Forall_impl; [by apply query_made|intros; by apply made_ok]|]. eapply Forall_impl; [apply Hq|]. by intros tf []. Qed.

Lemma query_plannable ops tfs : user_query tfs -> plannable ops (fun mn => forallb (isem mn) (tfs_tfs tfs)) tfs.
Proof using Dp.
  intros Hq. destruct (built_ok _ (qo_built _ Hq)) as (Hcp & _ & Hc). destruct (query_plain _ Hq) as [Hf Hk]. split_and!; [done| |by apply hybrid_plain|done].
  rewrite Forall_In in Hf, Hk |- *. intros tf Ht. apply plain_good; [by apply Hf|by apply Hk].
Qed.

Lemma composed_plannable ops n t : (forall t mn, seen ops t mn -> name_clean mn) -> tfs_common_prefix t = global_head -> name_good n -> composed n (tfs_tfs t) -> plannable ops (fun mn => forallb (isem mn) (tfs_tfs t)) t.
Proof.
  intros Hcl Hcp Hn Hd. split_and!; [done| |by eapply hybrid_composed|done]. pose proof (cd_made _ _ Hd) as Hm. pose proof (cd_keys _ _ Hd) as Hk. rewrite Forall_In in Hm, Hk |- *. intros tf Ht. destruct (Hk _ Ht) as [Hp|(k & Hp & _)]; [by apply plain_good; [apply made_ok, Hm|]|].
  split; [apply made_ok; by apply Hm|]. rewrite Hp, composite_key_split by apply Hn. done.
Qed.

(** The series a query asks for, by their names alone. *)
Definition asked (tfs : TagFilters) (mn : MetricName) : Prop :=
  match tfs_tfs tfs with [] => metric_group mn <> [] | l => exists l', match_tag_filters mn l = Ok (true, l') end.

Lemma asked_selects tfs mn : user_query tfs -> name_clean mn -> selects tfs mn = true <-> asked tfs mn.
Proof using Dp.
  intros Hq Hm. destruct (query_plain _ Hq) as [Hf Hk]. destruct (built_ok _ (qo_built _ Hq)) as (_ & _ & Hc). destruct (match_tag_filters_ok mn _ Hm Hf Hk) as (l' & Hl & _).
  pose proof (mixed_sem mn [] (tfs_tfs tfs) _ Hc (Permutation_refl _)) as Hs. cbn [forallb andb] in Hs. rewrite Hs in Hl. unfold selects, asked. destruct (tfs_tfs tfs); [by rewrite negb_true_iff, bool_decide_eq_false|]. split; [intros H; exists l'; by rewrite Hl, H|]. intros (x & Hx). rewrite Hl in Hx. by injection Hx.
Qed.
End Built.

(** ** The search *)

Section Search.
  Context {Xx : Xxh64} {Re : RegexEngine} {Ru : RegexUtil} {Dp : DotPlusLaws} {Ss : SliceSort} {Sr : SortReturns Ss} {Sz : SetSize} {T W : Type} {Tb : ItemTable T W} (items : list (list Z)) {L : ItemTableLaws T W items}.
  Context (d : bool) (ops : list index_op) (hist : history_ok ops).
  Context (clock : nat -> Z) (deadline : Z) (fuel : nat) (enough : (S (length items) * S (length items) <= fuel)%nat) {RC : list Z -> USet -> Prop}.
  Context (fresh : T) (fresh_ok : tl_any fresh) (sched : list Z -> list Z) (sched_ok : forall l, sched l ≡ₚ l).

Abbreviation PlanState := (PlanState (T := T) (W := W)).
Abbreviation pl_ok := (pl_ok (T := T) (W := W) items d ops deadline (RC := RC)).

Lemma selects_some tfs mn : tfs_tfs tfs <> [] -> selects tfs mn = forallb (isem mn) (tfs_tfs tfs).
Proof. unfold selects. by destruct (tfs_tfs tfs). Qed.

Lemma filterss_ok {E} tfss : Forall (fun tfs => user_query tfs /\ names_ok tfs) tfss ->
  exists tfss', convert_to_composite_tag_filterss (E := E) tfss = Ok tfss' /\ (forall mn, name_clean mn -> existsb (fun t => selects t mn) tfss' = existsb (fun t => selects t mn) tfss) /\
    Forall (fun t => tfs_tfs t = [] \/ plannable ops (fun mn => forallb (isem mn) (tfs_tfs t)) t) tfss'.
Proof using hist Dp.
  induction 1 as [|tfs tfss [Hq Hn] _ (tfss' & IHc & IHs & IHp)]; [by exists []|]. cbn [convert_to_composite_tag_filterss]. destruct (built_ok _ (qo_built _ Hq)) as (Hcp & _ & _).
  destruct (convert_ok (E := E) tfs Hcp (query_convertible _ Hq Hn)) as (l & Hl & Hs & Hp). rewrite Hl, bind_Ok, IHc, bind_Ok. eexists. split; [done|]. split.
  - intros mn Hm. rewrite existsb_app, IHs by done. cbn [existsb]. f_equal. destruct (tfs_tfs tfs) as [|tf0 l0] eqn:Htfs.
    + unfold convert_to_composite_tag_filters in Hl. rewrite Htfs in Hl. injection Hl as <-. cbn. by rewrite orb_false_r.
    + rewrite selects_some, Htfs by (by rewrite Htfs). rewrite <-Hs by done. clear Hs Hl. induction Hp as [|t l Ht _ IHl]; [done|]. cbn [existsb]. rewrite IHl, selects_some; [done|]. destruct Ht as [->|(_ & H & _)]; [by rewrite Htfs|done].
  - apply Forall_app. split; [|done]. eapply Forall_impl; [done|]. intros t [->|(Hcpt & Hne & n & Hg & Hd)]; right; [by apply query_plannable|]. eapply composed_plannable; [apply hist|done..].
Qed.

(** The series of a time range, and the metric IDs a query is to return. *)
Definition in_range (tr : TimeRange) (t : Tsid) (mn : MetricName) : Prop := exists date, In date (range_dates tr) /\ on_date d ops date t mn.

Definition query_matches (tfss : list TagFilters) (tr : TimeRange) (id : Z) : Prop := exists t mn, in_range tr t mn /\ metric_id t = id /\ Exists (fun tfs => asked tfs mn) tfss.

(** When a query fails. *)
Definition query_err (tfss : list TagFilters) (tr : TimeRange) (max : Z) (e : SearchError) : Prop :=
  (e = DeadlineExceeded /\ late clock deadline) \/ day_crowded d ops (range_dates tr) (max + 1) e \/ too_many (query_matches tfss tr) max e.

Lemma matches_selects tfss tr id : Forall (fun tfs => user_query tfs) tfss -> ids_on d ops (range_dates tr) (fun mn => existsb (fun tfs => selects tfs mn) tfss) id <-> query_matches tfss tr id.
Proof using hist Dp.
  intros Hq. assert (Hsel : forall t mn, seen ops t mn -> existsb (fun tfs => selects tfs mn) tfss = true <-> Exists (fun tfs => asked tfs mn) tfss).
  { intros t mn Hs. rewrite existsb_exists, List.Exists_exists. rewrite Forall_In in Hq. split; intros (tfs & Hin & H); exists tfs; (split; [done|]); by apply asked_selects; [apply Hq|eapply h_clean|]. }
  split.
  - intros (date & Hin & t & mn & Hon & Hid & HQ). exists t, mn. split_and!; [by exists date|done|]. by apply (Hsel t); [eapply on_date_seen|].
  - intros (t & mn & (date & Hin & Hon) & Hid & HQ). exists date. split; [done|]. exists t, mn. split_and!; [done..|]. by apply (Hsel t); [eapply on_date_seen|].
Qed.

Lemma ids_on_ext dates Q Q' id : (forall t mn, seen ops t mn -> Q mn = Q' mn) -> ids_on d ops dates Q id <-> ids_on d ops dates Q' id.
Proof. intros H. split; intros (date & Hin & t & mn & Hon & Hid & HQ); exists date; (split; [done|]); exists t, mn; (split_and!; [done..|]); [rewrite <-(H t) by (by eapply on_date_seen)|rewrite (H t) by (by eapply on_date_seen)]; done. Qed.

Lemma internal_ok {E} tfss tr max (ps : PlanState) : is_u64 (max + 1) -> Forall (fun tfs => user_query tfs) tfss -> (min_timestamp_for_composite_index (idb_ctx (pl_db ps)) <= tr_min_timestamp tr -> Forall (fun tfs => names_ok tfs) tfss) -> pl_ok ps ->
  exists ps' r, search_metric_ids_internal (E := E) clock fuel fresh sched tfss tr max ps = Ok (ps', r) /\ pl_ok ps' /\
    match r with inl ids => wf_set ids /\ forall v, v ∈ set_items ids <-> query_matches tfss tr v | inr e => query_err tfss tr max e end.
Proof using hist enough Dp Sr fresh_ok sched_ok.
  intros Hmax Hq Hn Hp. unfold search_metric_ids_internal. assert (Hpre : exists tfss', (if min_timestamp_for_composite_index (idb_ctx (pl_db ps)) <=? tr_min_timestamp tr then convert_to_composite_tag_filterss tfss else Ok tfss) = Ok (E := E) tfss' /\
    (forall mn, name_clean mn -> existsb (fun t => selects t mn) tfss' = existsb (fun t => selects t mn) tfss) /\ Forall (fun t => tfs_tfs t = [] \/ plannable ops (fun mn => forallb (isem mn) (tfs_tfs t)) t) tfss').
  { destruct (Z.leb_spec (min_timestamp_for_composite_index (idb_ctx (pl_db ps))) (tr_min_timestamp tr)) as [Hle|Hgt].
    - apply filterss_ok. specialize (Hn Hle). rewrite Forall_In in Hq, Hn |- *. auto.
    - exists tfss. split; [done|]. split; [done|]. eapply Forall_impl; [done|]. intros t Ht. right. by apply query_plannable. }
  destruct Hpre as (tfss' & -> & Hs & Hpl). rewrite bind_Ok.
  destruct (tfss_loop_ok (E := E) items d ops hist clock deadline fuel enough fresh fresh_ok sched sched_ok tr max tfss' Hmax Hpl (fun _ => False) set_default ps wf_default default_items Hp) as (ps' & r & -> & Hp' & Hr).
  assert (Hm : forall v, (False \/ ids_on d ops (range_dates tr) (fun mn => existsb (fun tfs => selects tfs mn) tfss') v) <-> query_matches tfss tr v).
  { intros v. rewrite <-matches_selects by done. rewrite (ids_on_ext _ _ (fun mn => existsb (fun tfs => selects tfs mn) tfss)); [tauto|]. intros t mn Hseen. apply Hs. by eapply h_clean. }
  exists ps', r. split_and!; [done..|]. cbn zeta in Hr. destruct r as [ids|e].
  - destruct Hr as [Hw Hi]. split; [done|]. intros v. by rewrite Hi.
  - unfold query_err. destruct Hr as [[?|?]|(He & l & Hnd & Hlen & Hl)]; [by left|by right; left|]. right. right. split; [done|]. exists l. split_and!; [done..|]. eapply Forall_impl; [done|]. intros v. by apply Hm.
Qed.

Lemma is_search_ok {E} tfss tr max (ps : PlanState) : is_u64 (max + 1) -> Forall (fun tfs => user_query tfs) tfss -> (min_timestamp_for_composite_index (idb_ctx (pl_db ps)) <= tr_min_timestamp tr -> Forall (fun tfs => names_ok tfs) tfss) -> pl_ok ps ->
  exists ps' r, is_search_metric_ids (E := E) clock fuel fresh sched tfss tr max ps = Ok (ps', r) /\ pl_ok ps' /\
    match r with inl ids => wf_set ids /\ forall v, v ∈ set_items ids <-> query_matches tfss tr v /\ ~ deleted_by ops v | inr e => query_err tfss tr max e end.
Proof using hist enough Dp Sr fresh_ok sched_ok.
  intros Hmax Hq Hn Hp. unfold is_search_metric_ids. destruct (internal_ok (E := E) tfss tr max ps Hmax Hq Hn Hp) as (ps' & r & -> & Hp' & Hr). rewrite bind_Ok. destruct r as [ids|e]; [|by eexists ps', _].
  destruct Hr as [Hw Hi]. destruct (di_deleted _ _ _ (ix_db _ _ _ _ _ _ (po_idx _ _ _ _ _ Hp'))) as [Hwd Hdi]. destruct (set_is_empty ids) eqn:He.
  - eexists ps', (inl ids). split_and!; [done..|]. intros v. rewrite <-Hi. apply set_is_empty_spec in He; [|done]. rewrite He, elem_of_nil. tauto.
  - destruct (set_subtract_spec ids _ Hw Hwd) as (ids' & Hsub & Hw' & Hi'). rewrite (lift_set_Ok _ _ Hsub), bind_Ok. eexists ps', (inl ids'). split_and!; [done..|]. intros v. by rewrite Hi', Hi, Hdi.
Qed.
End Search.
