(* ===== verification/IndexResults.v ===== *)
(** * Results of queries

    The queries of the database through the cache of results: the key of a
    query determines its answer, so a cached answer is the answer of the search
    as long as no series is added or deleted.  The identifiers and the names of
    the series found, and their deletion. *)
From Stdlib Require Import ZArith Lia Bool Sorted Permutation.
From stdpp Require Import base gmap list.
From S2P Require Import Prelude IntCodec TimeRange Tsid MetricName ItemBlock ItemBlockSpec IndexRow IndexRowSpec Uint64Set Uint64SetOps Uint64SetSpec IndexCaches ItemTableSearch ItemTable IndexDb IndexDbSpec TagFilter IndexPlanner IndexScanSpec IndexPlannerSpec IndexPlannerExact IndexComposite IndexQuery IndexQuerySpec.
Local Open Scope Z_scope.

(** ** Keys *)

Definition filter_bytes (tf : TagFilter) : list Z :=
  escape (tf_key tf) ++ TAG_SEPARATOR_CHAR :: escape (tf_value tf) ++ TAG_SEPARATOR_CHAR :: [if tf_is_negative tf then 1 else 0; if tf_is_regexp tf then 1 else 0].

Definition filters_bytes (l : list TagFilter) : list Z := concat (map filter_bytes l).

Definition groups_bytes (tfss : list TagFilters) : list Z := concat (map (fun tfs => 0 :: filters_bytes (tfs_tfs tfs)) tfss).

Lemma tf_marshal_bytes tf dst : tf_marshal tf dst = dst ++ filter_bytes tf.
Proof. unfold tf_marshal, filter_bytes. rewrite !marshal_tag_value_escape. repeat (rewrite <-!app_assoc; cbn [app]). done. Qed.

Lemma marshal_group_bytes dst tfs : marshal_tag_filters dst tfs = dst ++ 0 :: filters_bytes (tfs_tfs tfs).
Proof.
  unfold marshal_tag_filters, filters_bytes. change (0 :: concat (map filter_bytes (tfs_tfs tfs))) with ([0] ++ concat (map filter_bytes (tfs_tfs tfs))). rewrite app_assoc. generalize (dst ++ [0]). induction (tfs_tfs tfs) as [|tf l IH]; intros b; cbn [foldl map concat]; [by rewrite app_nil_r|].
  by rewrite tf_marshal_bytes, IH, <-app_assoc.
Qed.

Lemma marshal_key_bytes tfss tr : marshal_tag_filters_key [] tfss tr = to_be_bytes 8 (fst (date_range tr)) ++ to_be_bytes 8 (snd (date_range tr)) ++ groups_bytes tfss.
Proof.
  unfold marshal_tag_filters_key, groups_bytes, marshal_uint64. destruct (date_range tr) as [lo hi]. cbn [app fst snd]. rewrite app_assoc. generalize (to_be_bytes 8 lo ++ to_be_bytes 8 hi). induction tfss as [|tfs tfss IH]; intros b; cbn [foldl map concat]; [by rewrite app_nil_r|].
  by rewrite marshal_group_bytes, IH, <-app_assoc.
Qed.

(** What the key says of a filter. *)
Definition same_filter (a b : TagFilter) : Prop := tf_key a = tf_key b /\ tf_value a = tf_value b /\ tf_is_negative a = tf_is_negative b /\ tf_is_regexp a = tf_is_regexp b.

(** A label that does not start with a control character. *)
Definition label_key (k : list Z) : Prop := match k with c :: _ => 2 < c | [] => True end.

Lemma value_prefix_inj u v x y : escape u ++ TAG_SEPARATOR_CHAR :: x = escape v ++ TAG_SEPARATOR_CHAR :: y -> u = v /\ x = y.
Proof.
  intros H. pose proof (unmarshal_tag_value_app [] u x) as H1. rewrite H, unmarshal_tag_value_app in H1. by injection H1.
Qed.

Lemma filter_bytes_inj a b x y : filter_bytes a ++ x = filter_bytes b ++ y -> same_filter a b /\ x = y.
Proof.
  unfold filter_bytes. rewrite <-!app_assoc. cbn [app]. rewrite <-!app_assoc. intros H. apply value_prefix_inj in H as [Hk H]. cbn [app] in H. apply value_prefix_inj in H as [Hv H]. cbn [app] in H. injection H as Hn Hr ->.
  split; [|done]. split_and!; [done|done|by destruct (tf_is_negative a), (tf_is_negative b)|by destruct (tf_is_regexp a), (tf_is_regexp b)].
Qed.

Lemma filter_bytes_head tf : label_key (tf_key tf) -> exists c l, filter_bytes tf = c :: l /\ c <> 0.
Proof.
  unfold filter_bytes. destruct (tf_key tf) as [|c k]; intros H; [by eexists _, _|]. cbn in H. change (escape (c :: k)) with (escape_char c ++ escape k). rewrite escape_plain by lia. cbn [app]. eexists _, _. split; [done|lia].
Qed.

(** The bytes after a group: nothing or another group. *)
Definition group_end (x : list Z) : Prop := match x with c :: _ => c = 0 | [] => True end.

Lemma filters_bytes_inj l : forall l' x y, Forall (fun tf => label_key (tf_key tf)) l -> Forall (fun tf => label_key (tf_key tf)) l' -> group_end x -> group_end y ->
  filters_bytes l ++ x = filters_bytes l' ++ y -> Forall2 same_filter l l' /\ x = y.
Proof.
  unfold filters_bytes. induction l as [|a l IH]; intros [|b l'] x y Hl Hl' Hx Hy H; cbn [map concat app] in H.
  - by split.
  - apply Forall_cons in Hl' as [Hb _]. destruct (filter_bytes_head b Hb) as (c & k & Hk & Hc). rewrite Hk in H. cbn [app] in H. by rewrite H in Hx.
  - apply Forall_cons in Hl as [Ha _]. destruct (filter_bytes_head a Ha) as (c & k & Hk & Hc). rewrite Hk in H. cbn [app] in H. by rewrite <-H in Hy.
  - apply Forall_cons in Hl as [_ Hl]. apply Forall_cons in Hl' as [_ Hl']. rewrite <-!app_assoc in H. apply filter_bytes_inj in H as [Hab H]. destruct (IH l' x y) as [? ?]; [done..|]. split; [by constructor|done].
Qed.

Lemma groups_bytes_end tfss : group_end (groups_bytes tfss).
Proof. by destruct tfss. Qed.

Lemma groups_bytes_inj tfss : forall tfss', Forall (fun tfs => Forall (fun tf => label_key (tf_key tf)) (tfs_tfs tfs)) tfss -> Forall (fun tfs => Forall (fun tf => label_key (tf_key tf)) (tfs_tfs tfs)) tfss' ->
  groups_bytes tfss = groups_bytes tfss' -> Forall2 (fun a b => Forall2 same_filter (tfs_tfs a) (tfs_tfs b)) tfss tfss'.
Proof.
  induction tfss as [|a tfss IH]; intros [|b tfss'] Ha Hb H; [constructor|done|done|]. apply Forall_cons in Ha as [Ha Has]. apply Forall_cons in Hb as [Hb Hbs]. unfold groups_bytes in H. cbn [map concat app] in H. injection H as H.
  apply filters_bytes_inj in H as [H1 H2]; [|done|done|apply groups_bytes_end..]. constructor; [done|by apply IH].
Qed.

Section Keys.
  Context {Re : RegexEngine} {Ru : RegexUtil} {Dp : DotPlusLaws}.

Lemma made_rekey tf : made tf -> rekey tf global_head (tf_key tf) (tf_is_negative tf) = tf.
Proof. intros Hm. destruct (made_ok _ Hm) as [Hat _]. pose proof (fa_prefix _ _ _ Hat) as Hp. unfold rekey. rewrite <-Hp. by destruct tf. Qed.

Lemma same_made a b : made a -> made b -> same_filter a b -> a = b.
Proof.
  intros Ha Hb (Hk & Hv & Hn & Hr). destruct (init_rekey a Ha) as [H1 _]. destruct (init_rekey b Hb) as [H2 _]. specialize (H1 global_head (tf_key a) (tf_is_negative a)). specialize (H2 global_head (tf_key b) (tf_is_negative b)).
  rewrite made_rekey in H1, H2 by done. rewrite Hk, Hv, Hn, Hr, H2 in H1. by injection H1.
Qed.

(** A query with the labels of its filters. *)
Definition keyed_query (tfs : TagFilters) : Prop := user_query tfs /\ Forall (fun tf => label_key (tf_key tf)) (tfs_tfs tfs).

(** The key of a query determines the filters and the dates. *)
Lemma query_key_inj tfss tfss' tr tr' : Forall keyed_query tfss -> Forall keyed_query tfss' -> marshal_tag_filters_key [] tfss tr = marshal_tag_filters_key [] tfss' tr' -> tfss = tfss' /\ date_range tr = date_range tr'.
Proof using Dp.
  intros Hq Hq' H. rewrite !marshal_key_bytes in H. destruct (date_range_u64 tr) as [U1 U2]. destruct (date_range_u64 tr') as [U1' U2']. apply app_inj_1 in H as [H1 H]; [|done]. apply app_inj_1 in H as [H2 H]; [|done].
  apply be8_inj in H1, H2; [|done..]. split; [|destruct (date_range tr), (date_range tr'); cbn in *; by subst]. apply groups_bytes_inj in H; [|eapply Forall_impl; [done|]; by intros ? []..].
  induction H as [|a b l l' Hab _ IH]; [done|]. apply Forall_cons in Hq as [[Ha _] Hq]. apply Forall_cons in Hq' as [[Hb _] Hq']. rewrite IH by done. f_equal. destruct (built_ok _ (qo_built _ Ha)) as (Hca & _ & _). destruct (built_ok _ (qo_built _ Hb)) as (Hcb & _ & _).
  assert (tfs_tfs a = tfs_tfs b); [|destruct a, b; cbn in *; by subst]. pose proof (query_made _ Ha) as Ma. pose proof (query_made _ Hb) as Mb. clear -Hab Ma Mb. induction Hab as [|x y u v Hxy _ IH]; [done|].
  apply Forall_cons in Ma as [? ?]. apply Forall_cons in Mb as [? ?]. rewrite IH by done. f_equal. by apply same_made.
Qed.

Lemma range_dates_eq tr : range_dates tr = date_list (fst (date_range tr)) (snd (date_range tr)).
Proof.
  unfold range_dates. destruct (negb _) eqn:He; [done|]. apply negb_false_iff, andb_true_iff in He as [H1 H2]. apply Z.eqb_eq in H1, H2. unfold date_range. by rewrite H1, H2.
Qed.
End Keys.

(** ** The cache of results *)

Section Cached.
  Context {Xx : Xxh64} {Re : RegexEngine} {Ru : RegexUtil} {Dp : DotPlusLaws} {Ss : SliceSort} {Sr : SortReturns Ss} {Sz : SetSize} {T W : Type} {Tb : ItemTable T W} (items : list (list Z)) {L : ItemTableLaws T W items}.
  Context (d : bool) (ops : list index_op) (hist : history_ok ops).
  Context (clock : nat -> Z) (deadline : Z) (fuel : nat) (enough : (S (length items) * S (length items) <= fuel)%nat).
  Context (fresh : T) (fresh_ok : tl_any fresh) (sched : list Z -> list Z) (sched_ok : forall l, sched l ≡ₚ l).

(** The answer to a query: the series of the range that match and are not deleted. *)
Definition answers (tfss : list TagFilters) (tr : TimeRange) (ids : USet) : Prop :=
  wf_set ids /\ forall v, v ∈ set_items ids <-> query_matches d ops tfss tr v /\ ~ deleted_by ops v.

(** What the cache of results holds. *)
Definition answer_entry (k : list Z) (ids : USet) : Prop :=
  wf_set ids /\ forall tfss tr, Forall keyed_query tfss -> marshal_tag_filters_key [] tfss tr = k -> answers tfss tr ids.

Abbreviation PlanState := (PlanState (T := T) (W := W)).
Abbreviation pl_ok := (pl_ok (T := T) (W := W) items d ops deadline (RC := answer_entry)).

(** The state of the database between queries. *)
Definition db_ok (db : IndexDb) (w : W) : Prop := pl_ok (mkPlan db (mkIndexSearch fresh parser_default deadline) w 0).

Lemma db_ok_plan db w ticks : db_ok db w -> pl_ok (mkPlan db (mkIndexSearch fresh parser_default deadline) w ticks).
Proof. by intros [H1 H2 H3 H4]. Qed.

Lemma plan_db_ok (ps : PlanState) : pl_ok ps -> db_ok (pl_db ps) (pl_w ps).
Proof using fresh_ok. intros [[H1 H2 H3 H4 H5 H6] H7 H8 H9]. split; [by split|done..]. Qed.

Lemma db_ok_results db w c : db_ok db w -> wc_holds answer_entry c -> db_ok (set_tag_filters_cache db c) w.
Proof. intros [[[? ? ? ? ?] ? ? ? ? ?] ? ? ?] Hc. split; [|done..]. split; [by split|done..]. Qed.

Lemma matches_dates tfss tr tr' v : date_range tr = date_range tr' -> query_matches d ops tfss tr v <-> query_matches d ops tfss tr' v.
Proof. intros H. unfold query_matches, in_range. by rewrite !range_dates_eq, H. Qed.

Lemma answers_entry tfss tr ids : Forall keyed_query tfss -> answers tfss tr ids -> answer_entry (marshal_tag_filters_key [] tfss tr) ids.
Proof using Dp.
  intros Hq [Hw Hi]. split; [done|]. intros tfss' tr' Hq' He. destruct (query_key_inj _ _ _ _ Hq' Hq He) as [-> Hd]. split; [done|]. intros v. by rewrite Hi, (matches_dates tfss tr tr').
Qed.

(** A query the database is asked. *)
Record question (db : IndexDb) (tfss : list TagFilters) (tr : TimeRange) (max : Z) : Prop := {
  qn_filters : Forall keyed_query tfss;
  qn_names : min_timestamp_for_composite_index (idb_ctx db) <= tr_min_timestamp tr -> Forall names_ok tfss;
  qn_max : is_u64 (max + 1);
}.

Definition limit_err (tfss : list TagFilters) (tr : TimeRange) (max : Z) (e : SearchError) : Prop := query_err d ops clock deadline tfss tr max e.

Lemma search_metric_ids_ok {E} tfss tr max db w ticks : question db tfss tr max -> db_ok db w ->
  exists db' w' ticks' r, search_metric_ids (E := E) clock fuel fresh sched tfss tr max deadline db w ticks = Ok (db', w', ticks', r) /\ db_ok db' w' /\
    match r with inl ids => answers tfss tr ids | inr e => limit_err tfss tr max e end.
Proof using hist enough Dp Sr fresh_ok sched_ok.
  intros [Hq Hn Hmax] Hdb. unfold search_metric_ids. destruct tfss as [|tfs0 l]; [exists db, w, ticks, (inl set_default); split_and!; [done|done|split; [exact wf_default|]]|].
  { intros v. rewrite default_items. split; [done|]. intros [(t & mn & _ & _ & H) _]. by inversion H. }
  set (tfss := tfs0 :: l) in *. destruct (wc_get_ok (E := E) _ _ (marshal_tag_filters_key [] tfss tr) (po_results _ _ _ _ _ Hdb)) as (c & r & Hget & Hc & Hr). cbn [pl_db] in Hget. rewrite Hget, bind_Ok.
  pose proof (db_ok_results db w c Hdb Hc) as Hdb1. destruct r as [ids|].
  - destruct (Hr ids eq_refl) as [Hw Ha]. specialize (Ha tfss tr Hq eq_refl). destruct (Z.ltb_spec max (Z.of_nat (set_len ids))) as [Hbig|_]; [|by eexists _, _, _, (inl ids)].
    eexists _, _, _, (inr _). split_and!; [done..|]. right. right. split; [done|]. destruct (set_len_items ids Hw) as [Hlen Hnd]. exists (set_items ids). split_and!; [done|lia|]. apply Forall_forall. intros v Hv. by apply Ha.
  - destruct (is_search_ok (E := E) items d ops hist clock deadline fuel enough fresh fresh_ok sched sched_ok tfss tr max (mkPlan (set_tag_filters_cache db c) (mkIndexSearch fresh parser_default deadline) w ticks) Hmax ltac:(eapply Forall_impl; [exact Hq|by intros ? []]) Hn (db_ok_plan _ _ ticks Hdb1)) as (ps & r & -> & Hp & Hans). rewrite bind_Ok.
    destruct r as [ids|e]; [|eexists _, _, _, (inr e); split_and!; [done|by apply plan_db_ok|done]].
    destruct (wc_set_ok (E := E) answer_entry answer_entry _ (marshal_tag_filters_key [] tfss tr) ids (po_results _ _ _ _ _ Hp)) as (c2 & -> & Hc2 & _); [by apply answers_entry|done|]. rewrite bind_Ok.
    eexists _, _, _, (inl ids). split_and!; [done|apply db_ok_results; [by apply plan_db_ok|done]|done].
Qed.
End Cached.

(** ** Walks over a set *)

Lemma run_parts_walk {St} (f : St -> list Z -> run (St * bool)) (ok : Z -> Prop) (Inv : St -> list Z -> Prop) (Stop : St -> Prop) :
  (forall st pre l, Inv st pre -> Forall ok l -> exists st' go, f st l = Ok (st', go) /\ if go : bool then Inv st' (pre ++ l) else Stop st') ->
  forall parts st pre, Inv st pre -> Forall ok (concat parts) -> exists st' go, run_parts f st parts = Ok (st', go) /\ if go : bool then Inv st' (pre ++ concat parts) else Stop st'.
Proof.
  intros Hf. induction parts as [|l parts IH]; intros st pre Hi Hok; cbn [run_parts concat]; [exists st, true; by rewrite app_nil_r|]. cbn [concat] in Hok. apply Forall_app in Hok as [Hl Hok].
  destruct (Hf st pre l Hi Hl) as (st' & go & -> & Hgo). rewrite bind_Ok. destruct go; cbn [negb]; [|by exists st', false]. rewrite app_assoc. by apply IH.
Qed.

Lemma for_each_walk {St} (f : St -> list Z -> run (St * bool)) (ok : Z -> Prop) (Inv : St -> list Z -> Prop) (Stop : St -> Prop) s st : wf_set s ->
  (forall st pre l, Inv st pre -> Forall ok l -> exists st' go, f st l = Ok (st', go) /\ if go : bool then Inv st' (pre ++ l) else Stop st') ->
  Inv st [] -> Forall ok (set_items s) -> exists st', set_for_each f s st = Ok st' /\ (Inv st' (set_items s) \/ Stop st').
Proof.
  intros Hw Hf Hi Hok. rewrite set_for_each_spec by done. destruct (run_parts_walk f ok Inv Stop Hf (set_parts s) st [] Hi) as (st' & go & -> & Hgo); [by rewrite concat_set_parts|]. rewrite bind_Ok. exists st'. split; [done|].
  rewrite concat_set_parts in Hgo. destruct go; [by left|by right].
Qed.

Section Walks.
  Context {Xx : Xxh64} {Re : RegexEngine} {Ru : RegexUtil} {T W : Type} {Tb : ItemTable T W} (items : list (list Z)) {L : ItemTableLaws T W items}.
  Context (d : bool) (ops : list index_op) (hist : history_ok ops) (clock : nat -> Z) (deadline : Z) {RC : list Z -> USet -> Prop}.

Abbreviation PlanState := (PlanState (T := T) (W := W)).
Abbreviation pl_ok := (pl_ok (T := T) (W := W) items d ops deadline (RC := RC)).

Definition known (id : Z) : Prop := exists t mn, registered ops id t mn.

Lemma known_u64 id : known id -> is_u64 id.
Proof using hist. intros (t & mn & Hop & <-). pose proof (h_ops _ hist) as Hok. rewrite Forall_In in Hok. destruct (Hok _ Hop) as [Ht _]. apply Ht. Qed.

Lemma paced_ok mask limiter (ps : PlanState) : pl_ok ps -> exists ps' e, paced clock mask limiter ps = (ps', e) /\ pl_ok ps' /\ (e = None \/ e = Some DeadlineExceeded /\ late clock deadline).
Proof.
  intros Hp. unfold paced, check_search_deadline_and_pace, unix_timestamp. destruct (Z.land limiter mask =? 0); [|by exists ps, None; split_and!; [..|left]]. eexists _, _. split; [done|]. split; [by destruct Hp|].
  cbn [pl_is]. rewrite (po_deadline _ _ _ _ _ Hp). destruct (Z.ltb_spec deadline (clock (pl_ticks ps))); [right; split; [done|by eexists]|by left].
Qed.

Lemma pl_ok_ctx (ps : PlanState) ctx : pl_ok ps -> disable_per_day_index ctx = disable_per_day_index (idb_ctx (pl_db ps)) -> metric_name_cache ctx = metric_name_cache (idb_ctx (pl_db ps)) -> wc_holds (tsid_entry ops) (metric_id_to_tsid_cache ctx) -> pl_ok (set_db ps (set_ctx (pl_db ps) ctx)).
Proof.
  intros [[[Hf ? ? ? ?] Hn ? ? ? ?] ? ? ?] Hd Hm Ht. split; [|done..]. split; [|by cbn; rewrite Hm|done..]. split; [|done..]. cbn. by rewrite Hd.
Qed.

(** The identifier of a metric ID from the cache, when it is there. *)
Lemma cached_tsid_ok {E} (ps : PlanState) id : pl_ok ps -> is_u64 id ->
  exists ctx t b, get_tsid_by_metric_id_from_cache (E := E) (idb_ctx (pl_db ps)) Tsid_default id = Ok (ctx, t, b) /\ pl_ok (set_db ps (set_ctx (pl_db ps) ctx)) /\ if b : bool then exists mn, registered ops id t mn else True.
Proof using hist.
  intros Hp Hid. unfold get_tsid_by_metric_id_from_cache. destruct (wc_get_ok (E := E) _ _ (to_be_bytes 8 id) (ix_tsids _ _ _ _ _ _ (po_idx _ _ _ _ _ Hp))) as (c & r & -> & Hc & Hr). rewrite bind_Ok.
  assert (Hp1 : pl_ok (set_db ps (set_ctx (pl_db ps) (set_tsid_cache (idb_ctx (pl_db ps)) c)))) by (by apply pl_ok_ctx). destruct r as [v|]; [|by eexists _, _, false].
  destruct (Hr v eq_refl) as (t & mn & Hop & Hk & ->). assert (Hwf : tsid_wf t) by (pose proof (h_ops _ hist) as Hok; rewrite Forall_In in Hok; by destruct (Hok _ Hop)).
  change (length (tsid_bytes t) =? MARSHALED_TSID_SIZE)%nat with true. cbn iota. pose proof (tsid_unmarshal_app t [] Hwf) as Hu. rewrite app_nil_r in Hu. unfold tsid_bytes. rewrite Hu. eexists _, t, true. split; [done|]. split; [done|]. exists mn. split; [done|]. symmetry. apply be8_inj; [done|apply Hwf|done].
Qed.

(** One identifier. *)
Lemma tsid_step_ok {E} (st : TsidsState (T := T) (W := W)) id : pl_ok (ts_ps st) -> known id ->
  exists st' go, tsid_step (E := E) clock st id = Ok (st', go) /\ pl_ok (ts_ps st') /\ ts_delete st' = ts_delete st /\
    if go : bool then ts_err st' = None /\ exists t mn, registered ops id t mn /\ ts_tsids st' = ts_tsids st ++ [t] else ts_err st' = Some DeadlineExceeded /\ late clock deadline.
Proof using hist.
  intros Hp Hk. pose proof (known_u64 _ Hk) as Hid. unfold tsid_step. destruct (paced_ok PACE_LIMITER_SLOW_ITERATIONS_MASK (ts_limiter st) _ Hp) as (ps & e & -> & Hp1 & [->|[-> Hl]]); [|by eexists _, false].
  destruct (cached_tsid_ok (E := E) ps id Hp1 Hid) as (ctx & t & b & -> & Hp2 & Hb). rewrite bind_Ok. destruct b; [destruct Hb as (mn & Hr); eexists _, true; split_and!; [done..|]; by exists t, mn|].
  destruct (get_tsid_by_metric_id_ok (E := E) items d ops (h_ops _ hist) (set_ctx (pl_db ps) ctx) (pl_is ps) (pl_w ps) t id (po_idx _ _ _ _ _ Hp2) Hid) as (self & w & t' & b & He & Hx & Hb'). rewrite He, bind_Ok.
  destruct b; cbn [negb]; [|destruct Hk as (t0 & mn0 & Hr); by destruct Hb' as [_ Hb']; destruct (Hb' t0 mn0)]. destruct Hb' as (mn & Hr).
  unfold put_tsid_by_metric_id_to_cache. destruct (wc_set_ok (E := E) (tsid_entry ops) (tsid_entry ops) (metric_id_to_tsid_cache ctx) (to_be_bytes 8 id) (tsid_marshal t' []) (ix_tsids _ _ _ _ _ _ Hx)) as (c & Hset & Hc & _); [destruct Hr as [Hop <-]; by exists t', mn|done|].
  cbn [set_ctx idb_ctx]. rewrite Hset, !bind_Ok. assert (Hdl : is_deadline self = deadline).
  { revert He. unfold get_tsid_by_metric_id. destruct (tb_first_item_with_prefix _ _ _) as [[[ts w1] r]| |]; [|done..]. rewrite bind_Ok. rewrite <-(po_deadline _ _ _ _ _ Hp1). destruct r as [[|o]|]; [by intros [= <- _ _ _]|done|].
    destruct (tb_item ts) as [x| |]; [|done..]. rewrite bind_Ok. destruct (slice_from x _) as [v| |]; [|done..]. rewrite bind_Ok. destruct (tsid_unmarshal v) as [[t1 tl]| |]; [|done..]. destruct (assert_ _) as [[]| |]; [|done..]. rewrite bind_Ok. by intros [= <- _ _]. }
  eexists _, true. split; [done|]. split; [|split; [done|]; split; [done|]; by exists t', mn]. cbn [ts_ps]. destruct Hx as [[Hf ? ? ? ?] Hn ? ? ? ?], Hp2 as [_ Hl2 _ Hrc]. split; [|done..]. split; [by split|done..].
Qed.

Lemma tsid_part_ok {E} l : Forall known l -> forall st : TsidsState (T := T) (W := W), pl_ok (ts_ps st) -> ts_err st = None ->
  exists st' go, tsid_part (E := E) clock st l = Ok (st', go) /\ pl_ok (ts_ps st') /\ ts_delete st' = ts_delete st /\
    if go : bool then ts_err st' = None /\ exists new, ts_tsids st' = ts_tsids st ++ new /\ Forall2 (fun id t => exists mn, registered ops id t mn) l new else ts_err st' = Some DeadlineExceeded /\ late clock deadline.
Proof using hist.
  induction 1 as [|id l Hk _ IH]; intros st Hp He; cbn [tsid_part]; [exists st, true; split_and!; [done..|]; exists []; by rewrite app_nil_r|].
  destruct (tsid_step_ok (E := E) st id Hp Hk) as (st1 & go & -> & Hp1 & Hd1 & Hgo). rewrite bind_Ok. destruct go; [|by exists st1, false]. destruct Hgo as (He1 & t & mn & Hr & Ht).
  destruct (IH st1 Hp1 He1) as (st' & go & -> & Hp' & Hd' & Hgo). exists st', go. split_and!; [done..|by rewrite Hd'|]. destruct go; [|done]. destruct Hgo as (He' & new & Hn & Hall). split; [done|]. exists (t :: new). rewrite Hn, Ht, <-app_assoc. split; [done|]. constructor; [by exists mn|done].
Qed.

Lemma name_step_ok {E} (st : NamesState (T := T) (W := W)) id : pl_ok (ns_ps st) -> known id ->
  exists st' go, name_step (E := E) clock st id = Ok (st', go) /\ pl_ok (ns_ps st') /\ ns_delete st' = ns_delete st /\
    if go : bool then ns_err st' = None /\ exists t mn, registered ops id t mn /\ ns_names st' = ns_names st ++ [name_bytes mn] else ns_err st' = Some DeadlineExceeded /\ late clock deadline.
Proof using hist.
  intros Hp Hk. unfold name_step. destruct (paced_ok PACE_LIMITER_SLOW_ITERATIONS_MASK (ns_limiter st) _ Hp) as (ps & e & -> & Hp1 & [->|[-> Hl]]); [|by eexists _, false]. destruct Hk as (t & mn & Hop & Hid).
  destruct (name_found (E := E) items d ops hist deadline GLOBAL_INDEX_DATE ps t mn Hp1 Hop) as (db & self & w & Hs & Hp2). rewrite Hid in Hs. rewrite Hs, bind_Ok. cbn [negb]. eexists _, true. split_and!; [done..|]. by exists t, mn.
Qed.

Lemma name_part_ok {E} l : Forall known l -> forall st : NamesState (T := T) (W := W), pl_ok (ns_ps st) -> ns_err st = None ->
  exists st' go, name_part (E := E) clock st l = Ok (st', go) /\ pl_ok (ns_ps st') /\ ns_delete st' = ns_delete st /\
    if go : bool then ns_err st' = None /\ exists new, ns_names st' = ns_names st ++ new /\ Forall2 (fun id n => exists t mn, registered ops id t mn /\ n = name_bytes mn) l new else ns_err st' = Some DeadlineExceeded /\ late clock deadline.
Proof using hist.
  induction 1 as [|id l Hk _ IH]; intros st Hp He; cbn [name_part]; [exists st, true; split_and!; [done..|]; exists []; by rewrite app_nil_r|].
  destruct (name_step_ok (E := E) st id Hp Hk) as (st1 & go & -> & Hp1 & Hd1 & Hgo). rewrite bind_Ok. destruct go; [|by exists st1, false]. destruct Hgo as (He1 & t & mn & Hr & Ht).
  destruct (IH st1 Hp1 He1) as (st' & go & -> & Hp' & Hd' & Hgo). exists st', go. split_and!; [done..|by rewrite Hd'|]. destruct go; [|done]. destruct Hgo as (He' & new & Hn & Hall). split; [done|]. exists (name_bytes mn :: new). rewrite Hn, Ht, <-app_assoc. split; [done|]. constructor; [by exists t, mn|done].
Qed.
End Walks.

(** ** The queries *)

Section Answers.
  Context {Xx : Xxh64} {Re : RegexEngine} {Ru : RegexUtil} {Dp : DotPlusLaws} {Ss : SliceSort} {Sr : SortReturns Ss} {Sz : SetSize} {T W : Type} {Tb : ItemTable T W} (items : list (list Z)) {L : ItemTableLaws T W items}.
  Context (d : bool) (ops : list index_op) (hist : history_ok ops).
  Context (clock : nat -> Z) (deadline : Z) (fuel : nat) (enough : (S (length items) * S (length items) <= fuel)%nat).
  Context (fresh : T) (fresh_ok : tl_any fresh) (sched : list Z -> list Z) (sched_ok : forall l, sched l ≡ₚ l).

Abbreviation db_ok := (db_ok (W := W) items d ops deadline fresh).
Abbreviation pl_ok := (pl_ok (T := T) (W := W) items d ops deadline (RC := answer_entry d ops)).

Lemma matches_known tfss tr id : query_matches d ops tfss tr id -> known ops id.
Proof using hist.
  intros (t & mn & (date & _ & Hon) & Hid & _). exists t, mn. split; [|done]. apply on_date_seen in Hon as [?|[dt H]]; [done|by eapply (h_global _ hist)].
Qed.

Lemma answers_known tfss tr ids : answers d ops tfss tr ids -> Forall (known ops) (set_items ids).
Proof using hist. intros [_ Hi]. apply Forall_forall. intros v Hv. apply Hi in Hv as [Hm _]. by eapply matches_known. Qed.

(** The series found, in the order of their metric IDs in the set. *)
Definition found (ids : USet) (tsids : list Tsid) : Prop := Forall2 (fun id t => exists mn, registered ops id t mn) (set_items ids) tsids.

Lemma walk_tsids db w ticks tfss tr ids : answers d ops tfss tr ids -> db_ok db w ->
  exists st, set_for_each (fun st part => tsid_part clock st part) ids (mkTsids (mkPlan db (mkIndexSearch fresh parser_default deadline) w ticks) [] set_default 0 None) = Ok st /\ pl_ok (ts_ps st) /\ ts_delete st = set_default /\
    match ts_err st with None => found ids (ts_tsids st) | Some e => e = DeadlineExceeded /\ late clock deadline end.
Proof using hist.
  intros Ha Hdb. destruct (for_each_walk (fun st part => tsid_part clock st part) (known ops)
    (fun st pre => pl_ok (ts_ps st) /\ ts_delete st = set_default /\ ts_err st = None /\ Forall2 (fun id t => exists mn, registered ops id t mn) pre (ts_tsids st))
    (fun st => pl_ok (ts_ps st) /\ ts_delete st = set_default /\ ts_err st = Some DeadlineExceeded /\ late clock deadline) ids (mkTsids (mkPlan db (mkIndexSearch fresh parser_default deadline) w ticks) [] set_default 0 None) (proj1 Ha)) as (st & Hst & Hor).
  - intros st pre l (Hp & Hd & He & Hf) Hl. destruct (tsid_part_ok (E := Empty_set) items d ops hist clock deadline l Hl st Hp He) as (st' & go & Hpart & Hp' & Hd' & Hgo). exists st', go. split; [done|]. destruct go; [|by rewrite Hd', Hd].
    destruct Hgo as (He' & new & Hn & Hall). rewrite Hd', Hd, Hn. split_and!; [done..|]. by apply Forall2_app.
  - split_and!; [by eapply db_ok_plan|done|done|constructor].
  - by eapply answers_known.
  - exists st. split; [done|]. destruct Hor as [(Hp & Hd & He & Hf)|(Hp & Hd & He & Hl)]; by rewrite He.
Qed.

Lemma walk_names db w ticks tfss tr ids : answers d ops tfss tr ids -> db_ok db w ->
  exists st, set_for_each (fun st part => name_part clock st part) ids (mkNames (mkPlan db (mkIndexSearch fresh parser_default deadline) w ticks) [] set_default 0 None) = Ok st /\ pl_ok (ns_ps st) /\ ns_delete st = set_default /\
    match ns_err st with None => Forall2 (fun id n => exists t mn, registered ops id t mn /\ n = name_bytes mn) (set_items ids) (ns_names st) | Some e => e = DeadlineExceeded /\ late clock deadline end.
Proof using hist.
  intros Ha Hdb. destruct (for_each_walk (fun st part => name_part clock st part) (known ops)
    (fun st pre => pl_ok (ns_ps st) /\ ns_delete st = set_default /\ ns_err st = None /\ Forall2 (fun id n => exists t mn, registered ops id t mn /\ n = name_bytes mn) pre (ns_names st))
    (fun st => pl_ok (ns_ps st) /\ ns_delete st = set_default /\ ns_err st = Some DeadlineExceeded /\ late clock deadline) ids (mkNames (mkPlan db (mkIndexSearch fresh parser_default deadline) w ticks) [] set_default 0 None) (proj1 Ha)) as (st & Hst & Hor).
  - intros st pre l (Hp & Hd & He & Hf) Hl. destruct (name_part_ok (E := Empty_set) items d ops hist clock deadline l Hl st Hp He) as (st' & go & Hpart & Hp' & Hd' & Hgo). exists st', go. split; [done|]. destruct go; [|by rewrite Hd', Hd].
    destruct Hgo as (He' & new & Hn & Hall). rewrite Hd', Hd, Hn. split_and!; [done..|]. by apply Forall2_app.
  - split_and!; [by eapply db_ok_plan|done|done|constructor].
  - by eapply answers_known.
  - exists st. split; [done|]. destruct Hor as [(Hp & Hd & He & Hf)|(Hp & Hd & He & Hl)]; by rewrite He.
Qed.

Lemma found_ids l tsids : Forall2 (fun id t => exists mn, registered ops id t mn) l tsids -> map metric_id tsids = l /\ Forall (fun t => exists mn, In (OpGlobal t mn) ops) tsids.
Proof.
  induction 1 as [|id t l tsids (mn & Hop & Hid) _ [IH1 IH2]]; [by split|]. cbn [map]. rewrite IH1, Hid. split; [done|]. constructor; [by exists mn|done].
Qed.

(** What [search_tsids] returns: the identifiers of the series, in order. *)
Definition tsids_answer (tfss : list TagFilters) (tr : TimeRange) (tsids : list Tsid) : Prop :=
  StronglySorted (fun a b => tsid_le a b) tsids /\ NoDup (map metric_id tsids) /\ Forall (fun t => exists mn, In (OpGlobal t mn) ops) tsids /\
  forall id, In id (map metric_id tsids) <-> query_matches d ops tfss tr id /\ ~ deleted_by ops id.

Lemma sorted_tsids l : StronglySorted (fun a b => tsid_le a b) (sort_by (fun a b => negb (tsid_less b a)) l).
Proof.
  assert (Hle : forall a b, negb (tsid_less b a) = tsid_le a b) by (intros a b; by rewrite tsid_less_le, negb_involutive).
  assert (Hs : StronglySorted (fun a b => Is_true (negb (tsid_less b a))) (sort_by (fun a b => negb (tsid_less b a)) l)).
  { apply sort_by_sorted; [intros x y|intros x y z]; rewrite !Hle; [|apply tsid_le_trans]. apply lex_leb_total. }
  revert Hs. generalize (sort_by (fun a b => negb (tsid_less b a)) l). induction 1 as [|a l' _ IH Ha]; constructor; [done|]. eapply Forall_impl; [exact Ha|]. intros b. cbn beta. by rewrite Hle.
Qed.

Lemma tsids_sorted tfss tr ids tsids : answers d ops tfss tr ids -> found ids tsids -> tsids_answer tfss tr (sort_by (fun a b => negb (tsid_less b a)) tsids).
Proof.
  intros [Hw Hi] Hf. destruct (found_ids _ _ Hf) as [Hm Hr]. pose proof (sort_by_perm (fun a b => negb (tsid_less b a)) tsids) as Hp. split; [apply sorted_tsids|]. split_and!.
  - rewrite Hp, Hm. by apply set_len_items.
  - by rewrite Hp.
  - intros id. rewrite Hp, Hm, <-list_elem_of_In. apply Hi.
Qed.
End Answers.
