(* ===== verification/IndexSort.v ===== *)
(** * The sort of the filters

    The planner sorts the filters of a search with a comparison that is not a
    total order, so that the library's sort may panic.  This file shows that
    this is all such a sort changes: a query runs as with a sort that always
    returns, or it panics and the sort panicked on filters of the query. *)
From Stdlib Require Import ZArith Lia Bool.
From stdpp Require Import base gmap list.
From S2P Require Import Prelude IntCodec TimeRange Tsid MetricName ItemBlock IndexRow Uint64Set IndexCaches ItemTableSearch ItemTable IndexDb TagFilter IndexPlanner IndexPlannerExact IndexQuery.
Local Open Scope Z_scope.

(** The sort that leaves the slice as it is where [Ss] panics. *)
Definition total_sort (Ss : SliceSort) : SliceSort := fun A cmp l => Some (default l (@slice_sort_by Ss A cmp l)).

Lemma total_sort_eq (Ss : SliceSort) A cmp (l : list A) : @slice_sort_by (total_sort Ss) A cmp l = Some (default l (@slice_sort_by Ss A cmp l)).
Proof. done. Qed.

#[export] Instance total_sort_returns (Ss : SliceSort) {Sl : SliceSortLaws Ss} : SortReturns (total_sort Ss).
Proof.
  intros count tfws. eexists. split; [apply total_sort_eq|].
  destruct (@slice_sort_by Ss _ (compare_weights count) tfws) as [l|] eqn:He; cbn; [|done]. by eapply slice_sort_keeps.
Qed.

(** The sort panics on some of the filters [l], in some order. *)
Definition sort_panics {Ss : SliceSort} (l : list TagFilter) : Prop :=
  exists count tfws, map tw_tf tfws ⊆+ l /\ slice_sort_by _ (compare_weights count) tfws = None.

(** The sets of filters a query searches with: its own or their composite
    sets, an empty set as [{__name__!=""}]. *)
Definition searched {Re : RegexEngine} {Ru : RegexUtil} (tfss : list TagFilters) (t : TagFilters) : Prop :=
  exists t0, (In t0 tfss \/ exists l, convert_to_composite_tag_filterss (E := Empty_set) tfss = Ok l /\ In t0 l) /\
    or_any_name (E := Empty_set) t0 = Ok t.

Definition query_sort_panics {Ss : SliceSort} {Re : RegexEngine} {Ru : RegexUtil} (tfss : list TagFilters) : Prop :=
  exists t, searched tfss t /\ sort_panics (tfs_tfs t).

(** ** Runs that agree *)

(** The first run is the second, or it panics, and then [P]. *)
Definition agrees {E A : Type} (P : Prop) (m1 m2 : res E A) : Prop := m1 = m2 \/ (m1 = Panic /\ P).

Lemma agrees_refl {E A : Type} P (m : res E A) : agrees P m m.
Proof. by left. Qed.

Lemma agrees_mono {E A : Type} (P P' : Prop) (m1 m2 : res E A) : (P -> P') -> agrees P m1 m2 -> agrees P' m1 m2.
Proof. intros H [->|[-> HP]]; [by left|right; auto]. Qed.

Lemma agrees_bind {E A B : Type} P (m1 m2 : res E A) (k1 k2 : A -> res E B) :
  agrees P m1 m2 -> (forall a, m2 = Ok a -> agrees P (k1 a) (k2 a)) -> agrees P (m1 ≫= k1) (m2 ≫= k2).
Proof. intros [->|[-> HP]] Hk; [|by right]. destruct m2 as [a| |]; cbn; [by apply Hk|by left..]. Qed.

(** Two runs of the same code step by step; the calls that differ are left. *)
Ltac agree :=
  repeat first
    [ apply agrees_refl
    | match goal with
      | |- agrees _ (_ ≫= _) _ => apply agrees_bind; [|let H := fresh "Heq" in intros ? H]
      | |- agrees _ (match ?x with _ => _ end) _ => destruct x eqn:?
      | |- agrees _ (let '(_, _) := ?x in _) _ => destruct x eqn:?
      end ].

(** ** The planner *)

Section Sorts.
  Context {Xx : Xxh64} {Re : RegexEngine} {Ru : RegexUtil} {Ss : SliceSort} {Sl : SliceSortLaws Ss} {Sz : SetSize} {T W : Type} {Tb : ItemTable T W}.
  Context (clock : nat -> Z) (fuel : nat) (fresh : T) (sched : list Z -> list Z).
  Abbreviation Ts := (total_sort Ss).
  Abbreviation PlanState := (PlanState (T := T) (W := W)).

Lemma sort_weights_agrees {E} (l : list TagFilter) count tfws : map tw_tf tfws ⊆+ l ->
  agrees (sort_panics l) (sort_weights (Ss := Ss) (E := E) count tfws) (sort_weights (Ss := Ts) count tfws).
Proof.
  intros Hl. unfold sort_weights. rewrite total_sort_eq. destruct (@slice_sort_by Ss _ (compare_weights count) tfws) as [x|] eqn:He; cbn; [by left|].
  right. split; [done|]. by exists count, tfws.
Qed.

Lemma sort_weights_perm {E} count tfws tfws' : sort_weights (Ss := Ts) (E := E) count tfws = Ok tfws' -> tfws' ≡ₚ tfws.
Proof using Sl.
  unfold sort_weights. destruct (total_sort_returns Ss count tfws) as (l & -> & Hl). by intros [= <-].
Qed.

Lemma weigh_tf {E} date now tfs : forall (ps ps' : PlanState) tfws, weigh (E := E) date now tfs ps = Ok (ps', tfws) -> map tw_tf tfws = tfs.
Proof.
  induction tfs as [|tf tfs IH]; intros ps ps' tfws; cbn [weigh]; [by intros [= _ <-]|].
  intros ([ps1 [[lc flc] ts]] & _ & H)%bind_ok. apply bind_ok in H as ([ps2 tfws2] & H2 & H). injection H as _ <-. cbn [map tw_tf]. f_equal. by eapply IH.
Qed.

Lemma first_filter_tf {E} date cp max tfws : forall rem (ps ps' : PlanState) first rest,
  first_filter_loop (E := E) clock fuel date cp max tfws rem ps = Ok (ps', inl (first, rest)) -> map tw_tf rest ⊆+ map tw_tf (rem ++ tfws).
Proof.
  induction tfws as [|tfw tfws IH]; intros rem ps ps' first rest; cbn [first_filter_loop]; [intros [= _ _ <-]; by rewrite app_nil_r|].
  assert (Hsnoc : forall w, tw_tf w = tw_tf tfw -> map tw_tf ((rem ++ [w]) ++ tfws) = map tw_tf (rem ++ tfw :: tfws)).
  { intros w Hw. rewrite <-app_assoc, !map_app. cbn [app map]. by rewrite Hw. }
  destruct (_ || _); [intros H; apply IH in H; by rewrite Hsnoc in H|].
  intros ([[ps1 lc] r] & _ & H)%bind_ok. destruct r as [m|e].
  - destruct (max <=? _).
    + apply bind_ok in H as (ps2 & _ & H). apply IH in H. by rewrite Hsnoc in H.
    + apply bind_ok in H as (ps2 & _ & [= _ _ <-]). rewrite !map_app. apply submseteq_skips_l. cbn [map]. by apply submseteq_cons.
  - destruct e as [| | |o]; apply bind_ok in H as (ps2 & _ & H); try done. apply IH in H. by rewrite Hsnoc in H.
Qed.

Lemma planner_agrees {E} date tfs max (ps : PlanState) :
  agrees (sort_panics (tfs_tfs tfs)) (get_metric_ids_for_date_and_filters (Ss := Ss) (E := E) clock fuel date tfs max ps)
    (get_metric_ids_for_date_and_filters (Ss := Ts) clock fuel date tfs max ps).
Proof using Sl.
  unfold get_metric_ids_for_date_and_filters, unix_timestamp. cbn [pl_db pl_is pl_w pl_ticks].
  apply agrees_bind; [apply agrees_refl|]. intros [ps1 tfws] Hw. apply weigh_tf in Hw.
  apply agrees_bind; [apply sort_weights_agrees; by rewrite Hw|]. intros tfws1 Hs.
  apply agrees_bind; [apply agrees_refl|]. intros [ps2 [[first tfws2]|e]] Hf; [|apply agrees_refl].
  apply agrees_bind; [apply agrees_refl|]. intros [ps3 [ids|e]] _; [|apply agrees_refl].
  apply agrees_bind; [|intros; agree]. apply sort_weights_agrees.
  apply first_filter_tf in Hf. cbn [app] in Hf. rewrite Hf, <-Hw. apply Permutation_submseteq, Permutation_map.
  by apply sort_weights_perm in Hs.
Qed.

(** ** The queries *)

Lemma days_loop_agrees {E} tfs max dates : forall m (ps : PlanState),
  agrees (sort_panics (tfs_tfs tfs)) (days_loop (Ss := Ss) (E := E) clock fuel tfs max dates m ps) (days_loop (Ss := Ts) clock fuel tfs max dates m ps).
Proof using Sl.
  induction dates as [|date dates IH]; intros m ps; cbn [days_loop]; [apply agrees_refl|]. agree; [apply planner_agrees|apply IH].
Qed.

Lemma threads_loop_agrees {E} deadline tfs max dates : forall m err db w ticks,
  agrees (sort_panics (tfs_tfs tfs)) (threads_loop (Ss := Ss) (E := E) clock fuel fresh deadline tfs max dates m err db w ticks) (threads_loop (Ss := Ts) clock fuel fresh deadline tfs max dates m err db w ticks).
Proof using Sl.
  induction dates as [|date dates IH]; intros m err db w ticks; cbn [threads_loop]; [apply agrees_refl|]. agree; [apply planner_agrees|apply IH].
Qed.

Lemma date_range_agrees {E} ids tfs lo hi max (ps : PlanState) :
  agrees (sort_panics (tfs_tfs tfs)) (update_metric_ids_for_date_range (Ss := Ss) (E := E) clock fuel fresh sched ids tfs lo hi max ps) (update_metric_ids_for_date_range (Ss := Ts) clock fuel fresh sched ids tfs lo hi max ps).
Proof using Sl.
  unfold update_metric_ids_for_date_range. agree; [apply planner_agrees|apply days_loop_agrees|apply threads_loop_agrees].
Qed.

Lemma tag_filters_agrees {E} ids tfs tr max (ps : PlanState) :
  agrees (sort_panics (tfs_tfs tfs)) (update_metric_ids_for_tag_filters (Ss := Ss) (E := E) clock fuel fresh sched ids tfs tr max ps) (update_metric_ids_for_tag_filters (Ss := Ts) clock fuel fresh sched ids tfs tr max ps).
Proof using Sl.
  unfold update_metric_ids_for_tag_filters. agree; [apply date_range_agrees|apply planner_agrees].
Qed.

Lemma tfss_loop_agrees (P : Prop) tfss tr max : forall ids (ps : PlanState),
  (forall t0 t, In t0 tfss -> or_any_name (E := Empty_set) t0 = Ok t -> sort_panics (tfs_tfs t) -> P) ->
  agrees P (tfss_loop (Ss := Ss) (E := Empty_set) clock fuel fresh sched tfss tr max ids ps) (tfss_loop (Ss := Ts) clock fuel fresh sched tfss tr max ids ps).
Proof using Sl.
  induction tfss as [|tfs tfss IH]; intros ids ps HP; cbn [tfss_loop]; [apply agrees_refl|]. agree.
  - eapply agrees_mono; [|apply tag_filters_agrees]. eapply HP; [by left|done].
  - apply IH. intros t0 t Ht0. apply HP. by right.
Qed.

Lemma is_search_agrees tfss tr max (ps : PlanState) :
  agrees (query_sort_panics tfss) (is_search_metric_ids (Ss := Ss) (E := Empty_set) clock fuel fresh sched tfss tr max ps) (is_search_metric_ids (Ss := Ts) clock fuel fresh sched tfss tr max ps).
Proof using Sl.
  unfold is_search_metric_ids, search_metric_ids_internal. apply agrees_bind; [|intros; agree]. apply agrees_bind; [apply agrees_refl|].
  intros tfss' He. apply tfss_loop_agrees. intros t0 t Ht0 Ht Hs. exists t. split; [|done]. exists t0. split; [|done].
  destruct (_ <=? _); [right; exists tfss'; by split|]. injection He as ->. by left.
Qed.

Lemma search_ids_agrees tfss tr max deadline db w ticks :
  agrees (query_sort_panics tfss) (search_metric_ids (Ss := Ss) (E := Empty_set) clock fuel fresh sched tfss tr max deadline db w ticks) (search_metric_ids (Ss := Ts) clock fuel fresh sched tfss tr max deadline db w ticks).
Proof using Sl Sz. unfold search_metric_ids. agree; apply is_search_agrees. Qed.

Lemma search_tsids_agrees tfss tr max deadline db w ticks :
  agrees (query_sort_panics tfss) (search_tsids (Ss := Ss) (E := Empty_set) clock fuel fresh sched tfss tr max deadline db w ticks) (search_tsids (Ss := Ts) clock fuel fresh sched tfss tr max deadline db w ticks).
Proof using Sl Sz. unfold search_tsids. apply agrees_bind; [apply search_ids_agrees|intros; agree]. Qed.

Lemma search_names_agrees tfss tr max deadline db w ticks :
  agrees (query_sort_panics tfss) (search_metric_names (Ss := Ss) (E := Empty_set) clock fuel fresh sched tfss tr max deadline db w ticks) (search_metric_names (Ss := Ts) clock fuel fresh sched tfss tr max deadline db w ticks).
Proof using Sl Sz. unfold search_metric_names. apply agrees_bind; [apply search_ids_agrees|intros; agree]. Qed.

Lemma delete_series_agrees tfss max db w ticks :
  agrees (query_sort_panics tfss) (delete_series (Ss := Ss) (E := Empty_set) clock fuel fresh sched tfss max db w ticks) (delete_series (Ss := Ts) clock fuel fresh sched tfss max db w ticks).
Proof using Sl Sz. unfold delete_series. apply agrees_bind; [apply is_search_agrees|intros; agree]. Qed.
End Sorts.
