(* ===== verification/IndexAnswers.v ===== *)
(** * What the index answers

    The theorems on the queries of the index: the planner against the match of
    names, composite filters, the keys of cached results, sequences of queries
    on a database over written parts, and the deletion of series. *)
From Stdlib Require Import ZArith Lia Bool Sorted Permutation.
From Stdlib Require Import String.
From stdpp Require Import base gmap list.
From S2P Require Import Prelude IntCodec Compress TimeRange Tsid MetricName ItemBlock ItemBlockSpec ItemHeader BlockCache SearchBase ItemSearch ItemSearchSpec ItemPartSearch ItemTableSearch IndexRow IndexRowSpec Uint64Set Uint64SetSpec IndexCaches ItemTable IndexDb IndexDbSpec IndexDbTable TagFilter IndexPlanner IndexScanSpec IndexPlannerSpec IndexPlannerExact IndexComposite IndexQuery IndexQuerySpec IndexResults IndexSort.
Local Open Scope Z_scope.

(** ** Filters *)

Section Filters.
  Context {Re : RegexEngine} {Ru : RegexUtil} {Dp : DotPlusLaws}.

(** The series passes all filters, by its name. *)
Definition passes (mn : MetricName) (tfs : list TagFilter) : Prop := exists rest, match_tag_filters mn tfs = Ok (true, rest).

Lemma passes_nsem mn tfs : name_clean mn -> Forall filter_ok tfs -> Forall (fun tf => plain_key (tf_key tf)) tfs -> passes mn tfs <-> forallb (nsem mn) tfs = true.
Proof.
  intros Hm Hf Hk. destruct (match_tag_filters_ok mn tfs Hm Hf Hk) as (l & Hl & _). unfold passes. rewrite Hl. split; [by intros (? & [= ? _])|]. intros ->. by exists l.
Qed.

Lemma passes_isem mn tfs : name_clean mn -> user_query tfs -> passes mn (tfs_tfs tfs) <-> forallb (isem mn) (tfs_tfs tfs) = true.
Proof using Dp.
  intros Hm Hq. destruct (query_plain _ Hq) as [Hf Hk]. rewrite passes_nsem by done. destruct (built_ok _ (qo_built _ Hq)) as (_ & _ & Hc). by rewrite <-(mixed_sem mn [] (tfs_tfs tfs) _ Hc (Permutation_refl _)).
Qed.

Lemma hybrid_all ops t mn tfs : hybrid ops tfs -> tfs <> [] -> seen ops t mn -> exists B, (forall E, remove_composite_tag_filters (E := E) tfs global_head = Ok B) /\ Forall filter_ok B /\ Forall (fun tf => plain_key (tf_key tf)) B /\ forallb (nsem mn) B = forallb (isem mn) tfs.
Proof. intros H Hne Hs. destruct (H [] tfs (Permutation_refl _) Hne) as (B & Hr & Hf & Hk & Hall). exists B. split_and!; [done..|]. by apply (Hall t). Qed.

(** The filters a search runs with, unfolded again. *)
Definition unfolded_pass (mn : MetricName) (t : TagFilters) : Prop := exists B, remove_composite_tag_filters (E := filter_error) (tfs_tfs t) (tfs_common_prefix t) = Ok B /\ passes mn B.

Lemma composed_pass mn n t : name_clean mn -> tfs_common_prefix t = global_head -> name_good n -> composed n (tfs_tfs t) -> tfs_tfs t <> [] -> unfolded_pass mn t <-> forallb (isem mn) (tfs_tfs t) = true.
Proof.
  intros Hm Hcp Hn Hd Hne. assert (Hs : seen [OpGlobal Tsid_default mn] Tsid_default mn) by (by left; left).
  assert (Hcl : forall t' mn', seen [OpGlobal Tsid_default mn] t' mn' -> name_clean mn') by (intros t' mn' [[[= _ <-]|[]]|(? & [?|[]])]; done).
  destruct (hybrid_all _ _ mn _ (hybrid_composed _ Hcl n _ Hn Hd) Hne Hs) as (B & Hr & Hf & Hk & Hall). unfold unfolded_pass. rewrite Hcp, Hr, <-Hall, <-passes_nsem by done. split; [by intros (? & [= <-] & ?)|]. by exists B.
Qed.

Lemma plain_pass mn tfs : user_query tfs -> unfolded_pass mn tfs <-> passes mn (tfs_tfs tfs).
Proof using Dp.
  intros Hq. destruct (query_plain _ Hq) as [Hf Hk]. destruct (built_ok _ (qo_built _ Hq)) as (Hcp & _ & _). unfold unfolded_pass. rewrite Hcp, remove_composite_plain by done. split; [by intros (? & [= <-] & ?)|]. by eexists.
Qed.

(** C17: Composite filters stand for the filters they are made from.  For a set
    of filters made by [TagFilters::add], whose keys are not reserved and whose
    alternatives are free of separator bytes ([user_query]), with at most one
    positive filter that lists metric names, none of them empty or with bytes to
    escape ([names_ok]): the conversion to composite filters does not panic, and a
    series with distinct tag keys that are not empty or reserved ([name_clean])
    passes the original filters exactly when it passes the unfolded filters of
    one of the sets.  Without [names_ok] this fails ([composite_drops_name_filter],
    [empty_name_panics]). *)
Theorem composite_filters_equivalent (tfs : TagFilters) :
  user_query tfs -> names_ok tfs ->
  exists tfss, convert_to_composite_tag_filters (E := filter_error) tfs = Ok tfss /\
    forall mn, name_clean mn -> (passes mn (tfs_tfs tfs) <-> exists t, In t tfss /\ unfolded_pass mn t).
Proof using Dp.
  intros Hq Hn. destruct (built_ok _ (qo_built _ Hq)) as (Hcp & _ & _). destruct (convert_ok (E := filter_error) tfs Hcp (query_convertible _ Hq Hn)) as (tfss & Hc & Hs & Hp). exists tfss. split; [done|].
  intros mn Hm. rewrite passes_isem, <-Hs, existsb_exists by done. rewrite Forall_In in Hp. split; intros (t & Hin & Ht); exists t; (split; [done|]); destruct (Hp t Hin) as [->|(Hcpt & Hne & n & Hg & Hd)].
  - by apply plain_pass, passes_isem.
  - by eapply composed_pass.
  - by apply passes_isem, plain_pass.
  - by eapply composed_pass in Ht.
Qed.

(** C18: The key of a query in the cache of results determines its answer: two
    queries with the same key have the same sets of filters and look at the same
    dates, for sets of filters made by [TagFilters::add] whose keys are not
    reserved and do not start with a byte below 3, and whose alternatives are free
    of separator bytes ([keyed_query]; keys that start with a separator byte
    collide). *)
Theorem result_key_injective (tfss tfss' : list TagFilters) (tr tr' : TimeRange) :
  Forall keyed_query tfss -> Forall keyed_query tfss' ->
  marshal_tag_filters_key [] tfss tr = marshal_tag_filters_key [] tfss' tr' -> tfss = tfss' /\ range_dates tr = range_dates tr'.
Proof using Dp. intros Hq Hq' He. destruct (query_key_inj _ _ _ _ Hq Hq' He) as [-> Hd]. split; [done|]. by rewrite !range_dates_eq, Hd. Qed.
End Filters.

(** ** A database and its caches *)

(** The caches of a database without queries. *)
Definition idle {Xx : Xxh64} (db : IndexDb) : Prop :=
  wc_holds (fun _ _ => False) (tag_filters_to_metric_ids_cache db) /\ wc_holds (fun _ _ => True) (loops_per_date_tag_filter_cache db).

Lemma wc_holds_weaken {Xx : Xxh64} {V} (P P' : list Z -> V -> Prop) c : (forall k v, P k v -> P' k v) -> wc_holds P c -> wc_holds P' c.
Proof. intros H [Hl Hc]. split; [done|]. intros i st k v H1 H2 H3. eapply H, Hc; done. Qed.

Lemma save_deleted_caches {Xx : Xxh64} {E} db s db' : wf_set s -> save_deleted_metric_ids (E := E) db s = Ok db' ->
  loops_per_date_tag_filter_cache db' = loops_per_date_tag_filter_cache db /\ tag_filters_to_metric_ids_cache db' = if set_is_empty s then tag_filters_to_metric_ids_cache db else wc_reset (tag_filters_to_metric_ids_cache db).
Proof.
  intros Hw. unfold save_deleted_metric_ids. destruct (set_is_empty s); [by intros [= <-]|]. unfold update_deleted_metric_ids. destruct (lift_set (set_union _ s)) as [dm| |]; [|done..]. rewrite !bind_Ok.
  destruct (lift_set (set_for_each _ _ _)) as [ii| |]; [|done..]. rewrite bind_Ok. unfold add_to. destruct (slices _ _); [|done..]. rewrite bind_Ok. by intros [= <-].
Qed.

Lemma exec_op_idle {Xx : Xxh64} {E} db op db' : op_ok op -> idle db -> exec_op (E := E) db op = Ok db' -> idle db'.
Proof.
  intros Hok Hi. destruct op as [t mn|date t mn|ids]; cbn [exec_op].
  - unfold create_global_indexes. destruct (assert_ _); [|done..]. rewrite bind_Ok. destruct (mic_set _ _); [|done..]. rewrite bind_Ok. unfold add_to. destruct (slices _ _); [|done..]. rewrite bind_Ok. by intros [= <-].
  - unfold create_per_day_indexes. destruct (assert_ _); [|done..]. rewrite bind_Ok. destruct (disable_per_day_index _); [by intros [= <-]|]. destruct (dmc_set _ _ _); [|done..]. rewrite bind_Ok. unfold add_to. destruct (slices _ _); [|done..]. rewrite bind_Ok. by intros [= <-].
  - destruct (set_add_multi_spec set_default ids wf_default Hok) as (s & Hs & Hw & _). rewrite (lift_set_Ok _ _ Hs), bind_Ok. intros He. destruct (save_deleted_caches _ _ _ Hw He) as [Hl Ht]. split; [|by rewrite Hl; apply Hi]. rewrite Ht. destruct (set_is_empty s); [apply Hi|]. apply wc_reset_ok, Hi.
Qed.

Lemma exec_ops_idle {Xx : Xxh64} {E} ops : Forall op_ok ops -> forall db db', idle db -> exec_ops (E := E) db ops = Ok db' -> idle db'.
Proof.
  induction 1 as [|op ops Hop _ IH]; intros db db' Hi; cbn [exec_ops]; [by intros [= <-]|]. destruct (exec_op db op) as [db1| |] eqn:H1; [|done..]. rewrite bind_Ok. apply IH. by eapply exec_op_idle.
Qed.

Lemma new_db_idle {Xx : Xxh64} name d mints mem : idle (new_index_db name d mints mem).
Proof. split; apply wc_new_ok. Qed.

(** The state of a database after its history, over a table that shows it. *)
Lemma history_db_ok {Xx : Xxh64} {Re : RegexEngine} {Ru : RegexUtil} {T W} {Tb : ItemTable T W} (items : list (list Z)) {L : ItemTableLaws T W items} name d mints mem deadline ops (fresh : T) (w : W) :
  Forall op_ok ops -> exists db, exec_ops (E := Empty_set) (new_index_db name d mints mem) ops = Ok db /\
    (shows items (idb_tb db) -> tl_any fresh -> tl_world w -> db_ok items d ops deadline fresh db w).
Proof.
  intros Hok. destruct (db_exec_ops_ok (E := Empty_set) d ops [] _ (new_index_db_ok name d mints mem) Hok) as (db & He & Hdb & Hc). exists db. split; [done|]. intros Hs Hf Hw.
  destruct (exec_ops_idle _ Hok _ _ (new_db_idle name d mints mem) He) as [H1 H2]. split; [by apply (start_ok _ _ _ _ name mints mem)|done|done|]. by eapply wc_holds_weaken; [|exact H1].
Qed.

(** ** The planner *)

(** With a sort that returns. *)
Lemma planner_total {Xx : Xxh64} {Re : RegexEngine} {Ru : RegexUtil} {Dp : DotPlusLaws} {Ss : SliceSort} {Sr : SortReturns Ss} {T W : Type} {Tb : ItemTable T W} (items : list (list Z)) {L : ItemTableLaws T W items}
    (d : bool) (ops : list index_op) (clock : nat -> Z) (deadline : Z) (fuel : nat) (RC : list Z -> USet -> Prop) (date : Z) (tfs : TagFilters) (max : Z) (ps : PlanState (T := T) (W := W)) :
  history_ok ops -> (S (length items) * S (length items) <= fuel)%nat -> is_u64 date -> user_query tfs -> pl_ok items d ops deadline (RC := RC) ps ->
  exists ps' r, get_metric_ids_for_date_and_filters (E := Empty_set) clock fuel date tfs max ps = Ok (ps', r) /\ pl_ok items d ops deadline (RC := RC) ps' /\
    match r with
    | inl ids => forall id, id ∈ set_items ids <-> exists t mn, on_date d ops date t mn /\ metric_id t = id /\ passes mn (tfs_tfs tfs)
    | inr e => (e = DeadlineExceeded /\ exists n, deadline < clock n) \/
               (e = TooManyTimeseries (max_date_metrics_of max) /\ exists l, NoDup l /\ max_date_metrics_of max <= Z.of_nat (length l) /\ Forall (fun id => exists t mn, on_date d ops date t mn /\ metric_id t = id) l)
    end.
Proof.
  intros Hh Hf Hd Hq Hp. destruct (plan_day (E := Empty_set) items d ops Hh clock deadline fuel Hf date _ tfs max ps Hd (query_plannable ops tfs Hq) Hp) as (ps' & r & He & Hp' & Hr). exists ps', r. split; [done|]. split; [done|]. destruct r as [ids|e].
  - destruct Hr as [_ Hi]. intros id. rewrite Hi. split.
    + intros (dt & [<-|[]] & t & mn & Hon & Hid & HQ). exists t, mn. split_and!; [done..|]. apply passes_isem; [|done..]. by eapply (h_clean _ Hh), on_date_seen.
    + intros (t & mn & Hon & Hid & HQ). exists date. split; [by left|]. exists t, mn. split_and!; [done..|]. apply passes_isem; [|done..]. by eapply (h_clean _ Hh), on_date_seen.
  - destruct Hr as [?|(He' & dt & [<-|[]] & l & Hnd & Hlen & Hl)]; [by left|]. right. split; [done|]. exists l. split_and!; [done..|]. eapply Forall_impl; [exact Hl|]. intros id (t & mn & Hon & Hid & _). by exists t, mn.
Qed.

(** C3: The plan of a query is exact.  The history is one of registrations and
    deletions of fewer than 2^64-1 operations whose names have UTF-8 text and
    distinct tag keys that are not empty or reserved, with one name per metric
    ID, and whose per-day registrations are registered globally too
    ([history_ok]); the set of filters is made by [TagFilters::add] with keys that
    are not reserved and alternatives free of separator bytes ([user_query]).  On
    any state of the database, its caches and the cursor that fits the history,
    with any statistics of earlier searches and however the library orders
    filters that tie, the planner returns exactly the metric IDs of the series of
    the date whose names pass the filters, or one of two errors: the clock is past
    the deadline, or the date has as many series as the planner's limit.  The
    only other outcome is a panic of [slice::sort_by] on filters of the set,
    which the library allows because the comparison is not a total order. *)
Theorem planner_exact {Xx : Xxh64} {Re : RegexEngine} {Ru : RegexUtil} {Dp : DotPlusLaws} {Ss : SliceSort} {Sl : SliceSortLaws Ss} {T W : Type} {Tb : ItemTable T W} (items : list (list Z)) {L : ItemTableLaws T W items}
    (d : bool) (ops : list index_op) (clock : nat -> Z) (deadline : Z) (fuel : nat) (RC : list Z -> USet -> Prop) (date : Z) (tfs : TagFilters) (max : Z) (ps : PlanState (T := T) (W := W)) :
  history_ok ops -> (S (length items) * S (length items) <= fuel)%nat -> is_u64 date -> user_query tfs -> pl_ok items d ops deadline (RC := RC) ps ->
  (exists ps' r, get_metric_ids_for_date_and_filters (E := Empty_set) clock fuel date tfs max ps = Ok (ps', r) /\ pl_ok items d ops deadline (RC := RC) ps' /\
    match r with
    | inl ids => forall id, id ∈ set_items ids <-> exists t mn, on_date d ops date t mn /\ metric_id t = id /\ passes mn (tfs_tfs tfs)
    | inr e => (e = DeadlineExceeded /\ exists n, deadline < clock n) \/
               (e = TooManyTimeseries (max_date_metrics_of max) /\ exists l, NoDup l /\ max_date_metrics_of max <= Z.of_nat (length l) /\ Forall (fun id => exists t mn, on_date d ops date t mn /\ metric_id t = id) l)
    end) \/
  (get_metric_ids_for_date_and_filters (E := Empty_set) clock fuel date tfs max ps = Panic /\ sort_panics (tfs_tfs tfs)).
Proof.
  intros Hh Hf Hd Hq Hp. destruct (planner_agrees (E := Empty_set) clock fuel date tfs max ps) as [->|[-> Hs]]; [left|by right].
  by apply (planner_total items d ops clock deadline fuel RC date tfs max ps Hh Hf Hd Hq Hp).
Qed.

(** ** Sequences of queries *)

Inductive series_query : Type :=
| AskTsids (tfss : list TagFilters) (tr : TimeRange) (max : Z)
| AskNames (tfss : list TagFilters) (tr : TimeRange) (max : Z).

Inductive series_answer : Type :=
| GotTsids (r : outcome (list Tsid))
| GotNames (r : outcome (list (list Z))).

Section Ask.
  Context {Xx : Xxh64} {Re : RegexEngine} {Ru : RegexUtil} {Ss : SliceSort} {Sz : SetSize} {T W : Type} {Tb : ItemTable T W} (clock : nat -> Z) (fuel : nat) (fresh : T) (sched : list Z -> list Z) (deadline : Z).

Definition ask {E} (q : series_query) (db : IndexDb) (w : W) (ticks : nat) : res E (IndexDb * W * nat * series_answer) :=
  match q with
  | AskTsids tfss tr max => '(db, w, ticks, r) ← search_tsids clock fuel fresh sched tfss tr max deadline db w ticks; Ok (db, w, ticks, GotTsids r)
  | AskNames tfss tr max => '(db, w, ticks, r) ← search_metric_names clock fuel fresh sched tfss tr max deadline db w ticks; Ok (db, w, ticks, GotNames r)
  end.

Fixpoint ask_all {E} (qs : list series_query) (db : IndexDb) (w : W) (ticks : nat) : res E (IndexDb * W * nat * list series_answer) :=
  match qs with
  | [] => Ok (db, w, ticks, [])
  | q :: qs =>
      '(db, w, ticks, a) ← ask q db w ticks;
      '(db, w, ticks, l) ← ask_all qs db w ticks;
      Ok (db, w, ticks, a :: l)
  end.
End Ask.

Definition query_filters (q : series_query) : list TagFilters := match q with AskTsids tfss _ _ | AskNames tfss _ _ => tfss end.

Section AskSorts.
  Context {Xx : Xxh64} {Re : RegexEngine} {Ru : RegexUtil} {Ss : SliceSort} {Sl : SliceSortLaws Ss} {Sz : SetSize} {T W : Type} {Tb : ItemTable T W} (clock : nat -> Z) (fuel : nat) (fresh : T) (sched : list Z -> list Z) (deadline : Z).

Lemma ask_agrees q db (w : W) ticks : agrees (query_sort_panics (query_filters q)) (ask (Ss := Ss) (E := Empty_set) clock fuel fresh sched deadline q db w ticks) (ask (Ss := total_sort Ss) clock fuel fresh sched deadline q db w ticks).
Proof using Sl. destruct q as [tfss tr max|tfss tr max]; cbn [ask query_filters]; (apply agrees_bind; [|intros; apply agrees_refl]); [apply search_tsids_agrees|apply search_names_agrees]. Qed.

Lemma ask_all_agrees qs : forall db (w : W) ticks, agrees (Exists (fun q => query_sort_panics (query_filters q)) qs) (ask_all (Ss := Ss) (E := Empty_set) clock fuel fresh sched deadline qs db w ticks) (ask_all (Ss := total_sort Ss) clock fuel fresh sched deadline qs db w ticks).
Proof using Sl.
  induction qs as [|q qs IH]; intros db w ticks; cbn [ask_all]; [apply agrees_refl|]. apply agrees_bind.
  - eapply agrees_mono; [|apply ask_agrees]. by left.
  - intros [[[db1 w1] t1] a] _. apply agrees_bind; [|intros; apply agrees_refl]. eapply agrees_mono; [|apply IH]. by right.
Qed.
End AskSorts.

(** The names of the series, in the order of their metric IDs. *)
Definition names_answer {Re : RegexEngine} {Ru : RegexUtil} (d : bool) (ops : list index_op) (tfss : list TagFilters) (tr : TimeRange) (names : list (list Z)) : Prop :=
  exists ids, NoDup ids /\ (forall id, In id ids <-> query_matches d ops tfss tr id /\ ~ deleted_by ops id) /\
    Forall2 (fun id n => exists t mn, In (OpGlobal t mn) ops /\ metric_id t = id /\ n = mn_marshal mn []) ids names.

(** The right answers after the history [ops]. *)
Definition series_answer_ok {Re : RegexEngine} {Ru : RegexUtil} (d : bool) (ops : list index_op) (clock : nat -> Z) (deadline : Z) (q : series_query) (a : series_answer) : Prop :=
  match q, a with
  | AskTsids tfss tr max, GotTsids (inl tsids) => tsids_answer d ops tfss tr tsids
  | AskNames tfss tr max, GotNames (inl names) => names_answer d ops tfss tr names
  | AskTsids tfss tr max, GotTsids (inr e) | AskNames tfss tr max, GotNames (inr e) => query_err d ops clock deadline tfss tr max e
  | _, _ => False
  end.

Definition series_query_ok {Re : RegexEngine} {Ru : RegexUtil} (q : series_query) : Prop :=
  match q with AskTsids tfss tr max | AskNames tfss tr max => Forall keyed_query tfss /\ Forall names_ok tfss /\ 0 <= max < 2 ^ 64 - 1 end.

Section Asked.
  Context {Xx : Xxh64} {Re : RegexEngine} {Ru : RegexUtil} {Dp : DotPlusLaws} {Ss : SliceSort} {Sr : SortReturns Ss} {Sz : SetSize} {T W : Type} {Tb : ItemTable T W} (items : list (list Z)) {L : ItemTableLaws T W items}.
  Context (d : bool) (ops : list index_op) (hist : history_ok ops).
  Context (clock : nat -> Z) (deadline : Z) (fuel : nat) (enough : (S (length items) * S (length items) <= fuel)%nat).
  Context (fresh : T) (fresh_ok : tl_any fresh) (sched : list Z -> list Z) (sched_ok : forall l, sched l ≡ₚ l).

Abbreviation db_ok := (db_ok (W := W) items d ops deadline fresh).

Lemma empty_default {E} db : (if set_is_empty set_default then Ok db else save_deleted_metric_ids (E := E) db set_default) = Ok db.
Proof. done. Qed.

Lemma tsids_none tfss tr ids : answers d ops tfss tr ids -> set_is_empty ids = true -> tsids_answer d ops tfss tr [].
Proof.
  intros [Hw Hi] He. apply set_is_empty_spec in He; [|done]. split_and!; [constructor|constructor|constructor|]. intros id. rewrite <-Hi, He, elem_of_nil. done.
Qed.

Lemma search_tsids_ok {E} tfss tr max db w ticks : question db tfss tr max -> db_ok db w ->
  exists db' w' ticks' r, search_tsids (E := E) clock fuel fresh sched tfss tr max deadline db w ticks = Ok (db', w', ticks', r) /\ db_ok db' w' /\
    match r with inl tsids => tsids_answer d ops tfss tr tsids | inr e => query_err d ops clock deadline tfss tr max e end.
Proof using hist enough Dp Sr fresh_ok sched_ok.
  intros Hq Hdb. unfold search_tsids. destruct (search_metric_ids_ok (E := E) items d ops hist clock deadline fuel enough fresh fresh_ok sched sched_ok tfss tr max db w ticks Hq Hdb) as (db1 & w1 & ticks1 & r & -> & Hdb1 & Hr). rewrite bind_Ok.
  destruct r as [ids|e]; [|by eexists db1, w1, ticks1, (inr e)]. destruct (set_is_empty ids) eqn:He; [eexists db1, w1, ticks1, (inl []); split_and!; [done..|by eapply tsids_none]|].
  destruct (walk_tsids items d ops hist clock deadline fresh db1 w1 ticks1 tfss tr ids Hr Hdb1) as (st & Hst & Hp & Hd & Ht). rewrite (lift_set_Ok _ _ Hst), bind_Ok. destruct (ts_err st) as [e|].
  - destruct Ht as [-> Hl]. eexists _, _, _, (inr _). split_and!; [done|by apply plan_db_ok|]. by left.
  - rewrite Hd, empty_default, bind_Ok. eexists _, _, _, (inl _). split_and!; [done|by apply plan_db_ok|]. by eapply tsids_sorted.
Qed.

Lemma search_names_ok {E} tfss tr max db w ticks : question db tfss tr max -> db_ok db w ->
  exists db' w' ticks' r, search_metric_names (E := E) clock fuel fresh sched tfss tr max deadline db w ticks = Ok (db', w', ticks', r) /\ db_ok db' w' /\
    match r with inl names => names_answer d ops tfss tr names | inr e => query_err d ops clock deadline tfss tr max e end.
Proof using hist enough Dp Sr fresh_ok sched_ok.
  intros Hq Hdb. unfold search_metric_names. destruct (search_metric_ids_ok (E := E) items d ops hist clock deadline fuel enough fresh fresh_ok sched sched_ok tfss tr max db w ticks Hq Hdb) as (db1 & w1 & ticks1 & r & -> & Hdb1 & Hr). rewrite bind_Ok.
  destruct r as [ids|e]; [|by eexists db1, w1, ticks1, (inr e)]. assert (Hids : NoDup (set_items ids) /\ forall id, In id (set_items ids) <-> query_matches d ops tfss tr id /\ ~ deleted_by ops id).
  { destruct Hr as [Hw Hi]. split; [by apply set_len_items|]. intros id. by rewrite <-list_elem_of_In. }
  destruct (set_is_empty ids) eqn:He.
  - eexists db1, w1, ticks1, (inl []). split_and!; [done..|]. exists (set_items ids). split; [apply Hids|]. split; [apply Hids|]. destruct Hr as [Hw _]. apply set_is_empty_spec in He as ->; [constructor|done].
  - destruct (walk_names items d ops hist clock deadline fresh db1 w1 ticks1 tfss tr ids Hr Hdb1) as (st & Hst & Hp & Hd & Ht). rewrite (lift_set_Ok _ _ Hst), bind_Ok. destruct (ns_err st) as [e|].
    + destruct Ht as [-> Hl]. eexists _, _, _, (inr _). split_and!; [done|by apply plan_db_ok|]. by left.
    + rewrite Hd, empty_default, bind_Ok. eexists _, _, _, (inl _). split_and!; [done|by apply plan_db_ok|]. exists (set_items ids). split; [apply Hids|]. split; [apply Hids|].
      eapply Forall2_impl; [exact Ht|]. intros id n (t & mn & [Hop Hid] & ->). exists t, mn. by rewrite mn_marshal_bytes.
Qed.

Lemma ask_ok {E} q db w ticks : series_query_ok q -> db_ok db w ->
  exists db' w' ticks' a, ask (E := E) clock fuel fresh sched deadline q db w ticks = Ok (db', w', ticks', a) /\ db_ok db' w' /\ series_answer_ok d ops clock deadline q a.
Proof using hist enough Dp Sr fresh_ok sched_ok.
  destruct q as [tfss tr max|tfss tr max]; intros (Hk & Hn & Hm) Hdb; cbn [ask].
  - destruct (search_tsids_ok (E := E) tfss tr max db w ticks) as (db' & w' & ticks' & r & -> & Hdb' & Hr); [split; [done|done|unfold is_u; lia]|done|]. rewrite bind_Ok. eexists db', w', ticks', _. split_and!; [done..|]. by destruct r.
  - destruct (search_names_ok (E := E) tfss tr max db w ticks) as (db' & w' & ticks' & r & -> & Hdb' & Hr); [split; [done|done|unfold is_u; lia]|done|]. rewrite bind_Ok. eexists db', w', ticks', _. split_and!; [done..|]. by destruct r.
Qed.

Lemma ask_all_ok {E} qs : Forall series_query_ok qs -> forall db w ticks, db_ok db w ->
  exists db' w' ticks' l, ask_all (E := E) clock fuel fresh sched deadline qs db w ticks = Ok (db', w', ticks', l) /\ db_ok db' w' /\ Forall2 (series_answer_ok d ops clock deadline) qs l.
Proof using hist enough Dp Sr fresh_ok sched_ok.
  induction 1 as [|q qs Hq _ IH]; intros db w ticks Hdb; cbn [ask_all]; [by eexists db, w, ticks, []|]. destruct (ask_ok (E := E) q db w ticks Hq Hdb) as (db1 & w1 & ticks1 & a & -> & Hdb1 & Ha). rewrite bind_Ok.
  destruct (IH db1 w1 ticks1 Hdb1) as (db' & w' & ticks' & l & -> & Hdb' & Hl). rewrite bind_Ok. eexists db', w', ticks', (a :: l). split_and!; [done..|]. by constructor.
Qed.
End Asked.

Section OverParts.
  Context `{Zs : Zstd} {Zl : ZstdLaws Zs} {Vi : CachedBlock (list BlockHeader)} {Vb : CachedBlock InmemoryBlock}.

(** C2: Queries find exactly the series they ask for.  A history as in
    [history_ok] (names of UTF-8 text with distinct tag keys that are not empty or
    reserved, one name per metric ID, per-day registrations registered globally
    too) on a new database; its items shown by any number of parts with different
    ids, each written from sorted blocks none of which is full of one item
    ([good_blocks]); fresh block caches.  Queries for identifiers or names with
    sets of filters made by [TagFilters::add], whose keys are not reserved and do
    not start with a separator byte and whose alternatives are free of separator
    bytes ([keyed_query]), with at most one positive filter that lists metric
    names, none of them empty or with bytes to escape ([names_ok]: other sets are
    converted wrongly, see [composite_drops_name_filter] and [empty_name_panics]
    below), and a limit below
    2^64-1.  Any sequence of them, over one day, a few days in turn or many days
    at once in any order of the threads, through composite filters, the search
    cursors and all caches, runs to its end: every answer has exactly the series
    registered on a day of the range that pass one of the sets of filters by name
    and are not deleted, identifiers in order; a query fails only when the clock is
    past the deadline, when more series match than allowed, or when a day has more
    series than the planner looks at.  The only other outcome is a panic of
    [slice::sort_by] on filters of a query, which the library allows because the
    comparison of the planner is not a total order. *)
Theorem series_queries_exact {Xx : Xxh64} {Re : RegexEngine} {Ru : RegexUtil} {Dp : DotPlusLaws} {Ss : SliceSort} {Sl : SliceSortLaws Ss} {Sz : SetSize} (name : list Z) (d : bool) (mints mem deadline cpus : Z) (now max clock : nat -> Z) (sparse : bool) (sched : list Z -> list Z)
    (ops : list index_op) (qs : list series_query) (bss : list (list InmemoryBlock)) (ps : list Part) :
  history_ok ops -> Forall series_query_ok qs -> (forall l, sched l ≡ₚ l) -> Forall good_blocks bss -> Forall2 opened bss ps -> NoDup (map p_id ps) -> 0 <= cpus <= 2 ^ 63 ->
  exists db, exec_ops (E := Empty_set) (new_index_db name d mints mem) ops = Ok db /\
    let run := ask_all (E := Empty_set) clock (S (length (parts_items bss)) * S (length (parts_items bss))) (ts_new ps sparse) sched deadline qs db (fresh_caches cpus now max) 0 in
    (shows (parts_items bss) (idb_tb db) ->
     (exists db' w' ticks' answers, run = Ok (db', w', ticks', answers) /\ Forall2 (series_answer_ok d ops clock deadline) qs answers) \/
     (run = Panic /\ Exists (fun q => query_sort_panics (query_filters q)) qs)).
Proof.
  intros Hh Hqs Hs Hg Ho Hnd Hc. destruct (parts_table bss ps cpus now max sparse Hg Ho Hnd Hc) as (L & Ht & Hw).
  destruct (history_db_ok (parts_items bss) name d mints mem deadline ops (ts_new ps sparse) (fresh_caches cpus now max) (h_ops _ Hh)) as (db & He & Hdb). exists db. split; [done|]. intros run Hsh. subst run.
  match goal with |- context [ask_all ?c ?f ?t ?s ?dl ?q ?b ?w ?n = Panic] => destruct (ask_all_agrees c f t s dl q b w n) as [->|[-> Hp]] end; [left|by right].
  destruct (ask_all_ok (Ss := total_sort Ss) (E := Empty_set) (parts_items bss) d ops Hh clock deadline _ (Nat.le_refl _) (ts_new ps sparse) Ht sched Hs qs Hqs db (fresh_caches cpus now max) 0 (Hdb Hsh Ht Hw)) as (db' & w' & ticks' & l & Ha & _ & Hl).
  by exists db', w', ticks', l.
Qed.
End OverParts.

(** ** Deletion *)

Section Delete.
  Context {Xx : Xxh64} {Re : RegexEngine} {Ru : RegexUtil} {Dp : DotPlusLaws} {Sz : SetSize}.

Lemma seen_delete ops l t mn : seen (ops ++ [OpDelete l]) t mn <-> seen ops t mn.
Proof. unfold seen. setoid_rewrite in_snoc. naive_solver. Qed.

Lemma on_date_delete d ops l date t mn : on_date d (ops ++ [OpDelete l]) date t mn <-> on_date d ops date t mn.
Proof. unfold on_date. destruct (date =? _); rewrite in_snoc; naive_solver. Qed.

Lemma matches_delete d ops l tfss tr id : query_matches d (ops ++ [OpDelete l]) tfss tr id <-> query_matches d ops tfss tr id.
Proof. unfold query_matches, in_range. by setoid_rewrite on_date_delete. Qed.

Lemma history_delete ops l : history_ok ops -> Z.of_nat (length ops) + 1 < USIZE_MAX -> Forall is_u64 l -> history_ok (ops ++ [OpDelete l]).
Proof.
  intros [H1 H2 H3 H4 H5 H6] Hlen Hl. split.
  - apply Forall_app. by split; [|constructor].
  - intros t mn. rewrite seen_delete. apply H2.
  - intros t mn. rewrite seen_delete. apply H3.
  - intros t mn t' mn'. rewrite !seen_delete. apply H4.
  - intros date t mn. rewrite !in_snoc. intros [?|?]; [left; by eapply H5|done].
  - rewrite length_app. cbn [length]. lia.
Qed.

(** Deleting a set of series. *)
Lemma save_deleted_inv {E} d ops db s : db_inv d ops db -> wf_set s -> exists db', save_deleted_metric_ids (E := E) db s = Ok db' /\ db_inv d (ops ++ [OpDelete (set_items s)]) db' /\ idb_ctx db' = idb_ctx db.
Proof.
  intros [Hf Hi Hm Hc [Hw Hx]] Hs. destruct (save_deleted_ok (E := E) db s Hw Hs) as (dmis & cache & -> & Hwd & Hdi); [by apply set_items_u64|]. eexists. split; [done|]. split; [|done]. split; cbn.
  - done.
  - intros x. rewrite in_app_iff, Hi. setoid_rewrite in_snoc. cbn. naive_solver.
  - revert Hm. apply mic_ok_mono. setoid_rewrite in_snoc. naive_solver.
  - revert Hc. apply dmc_ok_mono. setoid_rewrite in_snoc. naive_solver.
  - split; [done|]. intros id. rewrite Hdi, Hx, deleted_by_snoc, list_elem_of_In. naive_solver.
Qed.

(** The cache of results after a deletion. *)
Lemma deleted_results d ops db s : wf_set s -> wc_holds (answer_entry d ops) (tag_filters_to_metric_ids_cache db) ->
  wc_holds (answer_entry d (ops ++ [OpDelete (set_items s)])) (if set_is_empty s then tag_filters_to_metric_ids_cache db else wc_reset (tag_filters_to_metric_ids_cache db)).
Proof.
  intros Hs Hc. destruct (set_is_empty s) eqn:He; [|apply wc_reset_ok, Hc]. apply set_is_empty_spec in He; [|done]. rewrite He. eapply wc_holds_weaken; [|exact Hc]. intros k ids [Hw Ha]. split; [done|].
  intros tfss tr Hq Hk. destruct (Ha tfss tr Hq Hk) as [_ Hi]. split; [done|]. intros v. rewrite Hi, matches_delete, deleted_by_snoc. cbn. naive_solver.
Qed.

(** The state after a deletion, over a table that shows it. *)
Lemma deleted_db_ok {T W} {Tb : ItemTable T W} (items : list (list Z)) {L : ItemTableLaws T W items} {T' W'} {Tb' : ItemTable T' W'} (items' : list (list Z)) {L' : ItemTableLaws T' W' items'} d ops deadline deadline' fresh fresh' (w : W) (w' : W') db s :
  db_ok items d ops deadline fresh db w -> wf_set s ->
  exists db', save_deleted_metric_ids (E := Empty_set) db s = Ok db' /\ (shows items' (idb_tb db') -> tl_any fresh' -> tl_world w' -> db_ok items' d (ops ++ [OpDelete (set_items s)]) deadline' fresh' db' w').
Proof.
  intros [[Hdb Hn Ht Hs Hc Hw] Hl _ Hrc] Hws. cbn [pl_db pl_is pl_w] in *. destruct (save_deleted_inv (E := Empty_set) d ops db s Hdb Hws) as (db' & He & Hdb' & Hctx). exists db'. split; [done|]. intros Hs' Hf' Hw'.
  destruct (save_deleted_caches _ _ _ Hws He) as [Hl' Ht']. split; cbn [pl_db pl_is pl_w]; [|by rewrite Hl'|done|rewrite Ht'; by apply deleted_results]. split; [done| | |done|done|done]; rewrite Hctx.
  - eapply wc_holds_weaken; [|exact Hn]. intros k v (t & mn & Hop & ?). exists t, mn. rewrite in_snoc. by split; [left|].
  - eapply wc_holds_weaken; [|exact Ht]. intros k v (t & mn & Hop & ?). exists t, mn. rewrite in_snoc. by split; [left|].
Qed.

(** With a sort that returns. *)
Lemma delete_series_total {Ss : SliceSort} {Sr : SortReturns Ss} {T W : Type} {Tb : ItemTable T W} (items : list (list Z)) {L : ItemTableLaws T W items} (d : bool) (ops : list index_op)
    (clock : nat -> Z) (fuel : nat) (fresh : T) (sched : list Z -> list Z) (tfss : list TagFilters) (max : Z) (db : IndexDb) (w : W) (ticks : nat) :
  history_ok ops -> Z.of_nat (length ops) + 1 < USIZE_MAX -> (S (length items) * S (length items) <= fuel)%nat -> tl_any fresh -> (forall l, sched l ≡ₚ l) ->
  Forall keyed_query tfss -> Forall names_ok tfss -> 0 <= max < 2 ^ 64 - 1 -> db_ok items d ops NO_DEADLINE fresh db w ->
  exists db' w' ticks' r, delete_series (E := Empty_set) clock fuel fresh sched tfss max db w ticks = Ok (db', w', ticks', r) /\
    match r with
    | inr e => query_err d ops clock NO_DEADLINE tfss GLOBAL_INDEX_TIME_RANGE max e
    | inl ids =>
        (forall id, id ∈ set_items ids <-> query_matches d ops tfss GLOBAL_INDEX_TIME_RANGE id /\ ~ deleted_by ops id) /\
        forall (T' W' : Type) (Tb' : ItemTable T' W') (items' : list (list Z)) (L' : ItemTableLaws T' W' items') (clock' : nat -> Z) (deadline' : Z) (fuel' : nat) (fresh' : T') (sched' : list Z -> list Z) (w1 : W') tfss' tr' max',
          shows items' (idb_tb db') -> tl_any fresh' -> tl_world w1 -> (S (length items') * S (length items') <= fuel')%nat -> (forall l, sched' l ≡ₚ l) ->
          Forall keyed_query tfss' -> Forall names_ok tfss' -> 0 <= max' < 2 ^ 64 - 1 ->
          exists db2 w2 ticks2 r2, search_tsids (E := Empty_set) clock' fuel' fresh' sched' tfss' tr' max' deadline' db' w1 0 = Ok (db2, w2, ticks2, r2) /\
            match r2 with
            | inl tsids => forall id, In id (map metric_id tsids) <-> query_matches d ops tfss' tr' id /\ ~ deleted_by ops id /\ ~ query_matches d ops tfss GLOBAL_INDEX_TIME_RANGE id
            | inr e => e = DeadlineExceeded \/ exists n, e = TooManyTimeseries n
            end
    end.
Proof using Dp.
  intros Hh Hlen Hfuel Hf Hs Hk Hn Hmax Hdb. unfold delete_series.
  destruct (is_search_ok (E := Empty_set) (RC := answer_entry d ops) items d ops Hh clock NO_DEADLINE fuel Hfuel fresh Hf sched Hs tfss GLOBAL_INDEX_TIME_RANGE max (mkPlan db (mkIndexSearch fresh parser_default NO_DEADLINE) w ticks)) as (ps & r & -> & Hp & Hr);
    [unfold is_u; lia|eapply Forall_impl; [exact Hk|by intros ? []]|done|by apply (db_ok_plan items d ops)|]. rewrite bind_Ok. destruct r as [ids|e]; [|by eexists _, _, _, (inr e)]. destruct Hr as [Hw Hi].
  pose proof (plan_db_ok items d ops NO_DEADLINE fresh Hf ps Hp) as Hdb1. destruct (save_deleted_inv (E := Empty_set) d ops (pl_db ps) ids) as (db' & He & _ & _); [apply Hdb1|done|]. rewrite He, bind_Ok. eexists _, _, _, (inl ids). split; [done|]. split; [done|].
  intros T' W' Tb' items' L' clock' deadline' fuel' fresh' sched' w1 tfss' tr' max' Hsh Hf' Hw1 Hfu' Hs' Hk' Hn' Hm'.
  destruct (deleted_db_ok items items' d ops NO_DEADLINE deadline' fresh fresh' (pl_w ps) w1 (pl_db ps) ids Hdb1 Hw) as (db'' & He' & Hok). rewrite He in He'. injection He' as <-.
  destruct (search_tsids_ok (E := Empty_set) items' d _ (history_delete ops (set_items ids) Hh Hlen (set_items_u64 _ Hw)) clock' deadline' fuel' Hfu' fresh' Hf' sched' Hs' tfss' tr' max' db' w1 0) as (db2 & w2 & ticks2 & r2 & Hr2 & _ & Ha);
    [split; [done|done|unfold is_u; lia]|by apply Hok|]. exists db2, w2, ticks2, r2. split; [done|]. destruct r2 as [tsids|e].
  - destruct Ha as (_ & _ & _ & Ha). intros id. rewrite Ha, matches_delete, deleted_by_snoc. split.
    + intros [Hmt Hnd]. split_and!; [done|tauto|]. intros Hg. apply Hnd. right. eexists. split; [done|]. apply list_elem_of_In, Hi. tauto.
    + intros (Hmt & Hnd & Hng). split; [done|]. intros [?|(l & [= <-] & Hin)]; [done|]. apply list_elem_of_In, Hi in Hin. tauto.
  - destruct Ha as [[-> _]|[[-> _]|[-> _]]]; [by left|right; by eexists..].
Qed.
(** C16: Deleted series are gone.  For a history as in [history_ok] (names of UTF-8
    text with distinct tag keys that are not empty or reserved, one name per metric
    ID, per-day registrations registered globally too), a database, caches and
    cursor that fit it, and sets of filters made by [TagFilters::add] with
    [keyed_query] (keys not reserved and not starting with a separator byte) and
    [names_ok] (at most one positive filter that lists metric names, none of them
    empty or with bytes to escape): [delete_series] deletes exactly the series of the whole index that
    match its filters and were not deleted before, or returns an error of the
    search.  Afterwards every such query, over any table that shows the items of
    the database, returns the series that match it and neither were deleted before
    nor match the filters of the deletion, although earlier results were cached,
    or an error of the deadline or a limit.  The only other outcome of either call
    is a panic of [slice::sort_by] on its filters, which the library allows because
    the comparison of the planner is not a total order. *)
Theorem delete_series_exact {Ss : SliceSort} {Sl : SliceSortLaws Ss} {T W : Type} {Tb : ItemTable T W} (items : list (list Z)) {L : ItemTableLaws T W items} (d : bool) (ops : list index_op)
    (clock : nat -> Z) (fuel : nat) (fresh : T) (sched : list Z -> list Z) (tfss : list TagFilters) (max : Z) (db : IndexDb) (w : W) (ticks : nat) :
  history_ok ops -> Z.of_nat (length ops) + 1 < USIZE_MAX -> (S (length items) * S (length items) <= fuel)%nat -> tl_any fresh -> (forall l, sched l ≡ₚ l) ->
  Forall keyed_query tfss -> Forall names_ok tfss -> 0 <= max < 2 ^ 64 - 1 -> db_ok items d ops NO_DEADLINE fresh db w ->
  (delete_series (E := Empty_set) clock fuel fresh sched tfss max db w ticks = Panic /\ query_sort_panics tfss) \/
  exists db' w' ticks' r, delete_series (E := Empty_set) clock fuel fresh sched tfss max db w ticks = Ok (db', w', ticks', r) /\
    match r with
    | inr e => query_err d ops clock NO_DEADLINE tfss GLOBAL_INDEX_TIME_RANGE max e
    | inl ids =>
        (forall id, id ∈ set_items ids <-> query_matches d ops tfss GLOBAL_INDEX_TIME_RANGE id /\ ~ deleted_by ops id) /\
        forall (T' W' : Type) (Tb' : ItemTable T' W') (items' : list (list Z)) (L' : ItemTableLaws T' W' items') (clock' : nat -> Z) (deadline' : Z) (fuel' : nat) (fresh' : T') (sched' : list Z -> list Z) (w1 : W') tfss' tr' max',
          shows items' (idb_tb db') -> tl_any fresh' -> tl_world w1 -> (S (length items') * S (length items') <= fuel')%nat -> (forall l, sched' l ≡ₚ l) ->
          Forall keyed_query tfss' -> Forall names_ok tfss' -> 0 <= max' < 2 ^ 64 - 1 ->
          let later := search_tsids (E := Empty_set) clock' fuel' fresh' sched' tfss' tr' max' deadline' db' w1 0 in
          (later = Panic /\ query_sort_panics tfss') \/
          exists db2 w2 ticks2 r2, later = Ok (db2, w2, ticks2, r2) /\
            match r2 with
            | inl tsids => forall id, In id (map metric_id tsids) <-> query_matches d ops tfss' tr' id /\ ~ deleted_by ops id /\ ~ query_matches d ops tfss GLOBAL_INDEX_TIME_RANGE id
            | inr e => e = DeadlineExceeded \/ exists n, e = TooManyTimeseries n
            end
    end.
Proof using Dp.
  intros Hh Hlen Hfuel Hf Hs Hk Hn Hmax Hdb. destruct (delete_series_agrees clock fuel fresh sched tfss max db w ticks) as [->|[-> Hp]]; [right|by left].
  destruct (delete_series_total (Ss := total_sort Ss) items d ops clock fuel fresh sched tfss max db w ticks Hh Hlen Hfuel Hf Hs Hk Hn Hmax Hdb) as (db' & w' & ticks' & r & He & Hr).
  exists db', w', ticks', r. split; [done|]. destruct r as [ids|e]; [|done]. destruct Hr as [Hi Hq]. split; [done|].
  intros T' W' Tb' items' L' clock' deadline' fuel' fresh' sched' w1 tfss' tr' max' H1 H2 H3 H4 H5 H6 H7 H8 later. subst later.
  destruct (search_tsids_agrees clock' fuel' fresh' sched' tfss' tr' max' deadline' db' w1 0) as [->|[-> Hp]]; [right|by left].
  by apply (Hq T' W' Tb' items' L' clock' deadline' fuel' fresh' sched' w1 tfss' tr' max').
Qed.
End Delete.

(** ** Examples *)

Section Examples.
Local Existing Instances index_size' items_size' no_hash.
Local Instance set_size' : SetSize := fun _ => 64.

(** A sort that returns for every comparison. *)
Local Instance insertion_sort : SliceSort := fun A cmp l => Some (sort_by (fun a b => match cmp a b with Gt => false | _ => true end) l).
Local Instance insertion_sort_laws : SliceSortLaws insertion_sort.
Proof. intros A cmp l l' [= <-]. apply sort_by_perm. Qed.

Lemma insertion_sort_returns l : ~ sort_panics l.
Proof. by intros (count & tfws & _ & H). Qed.

(** An engine that knows the one expression the filters use by themselves. *)
Local Instance dot_engine : RegexEngine := fun e =>
  if bool_decide (e = [94; 40; 63; 58] ++ dot_plus_expr ++ [41; 36]) then Some (fun s => negb (bool_decide (s = []))) else None.
Local Instance dot_util : RegexUtil := {|
  simplify_prom_regex v := if bool_decide (v = dot_plus) then ([], dot_plus_expr) else (v, []);
  get_or_values_prom_regex _ := [];
|}.
Local Instance dot_laws : DotPlusLaws.
Proof. split; [done|done|]. eexists. by split. Qed.

(** [{__name__="cpu.load"}] and [{__name__="cpu.load", job="api"}]. *)
Definition name_filters : TagFilters := match tfs_add tfs_new [] (bytes_of_string "cpu.load"%string) false false with Ok tfs => tfs | _ => tfs_new end.
Definition example_filters : TagFilters :=
  match tfs_add name_filters (bytes_of_string "job"%string) (bytes_of_string "api"%string) false false with Ok tfs => tfs | _ => tfs_new end.

Definition day_range : TimeRange := mkTimeRange 1641600000000 1641600001000.

Lemma example_query : keyed_query example_filters.
Proof.
  split; [split|].
  - apply (built_add name_filters (bytes_of_string "job"%string) (bytes_of_string "api"%string) false false); [|by vm_compute]. apply (built_add tfs_new [] (bytes_of_string "cpu.load"%string) false false); [exact built_new|by vm_compute].
  - repeat (apply Forall_cons; split; [split; [split|]; [by vm_compute|by apply (bool_decide_unpack _); vm_compute|apply (bool_decide_unpack _); by vm_compute]|]). constructor.
  - repeat (apply Forall_cons; split; [by repeat constructor|]). constructor.
  - repeat (apply Forall_cons; split; [by vm_compute|]). constructor.
Qed.

Lemma example_names : names_ok example_filters.
Proof.
  split.
  - apply Nat.leb_le. by vm_compute.
  - intros tf [<-|[<-|[]]] H; [|by vm_compute in H]. apply Forall_cons. split; [|constructor]. split; [done|unfold short_name; cbn; lia|apply (bool_decide_unpack _); by vm_compute].
  - intros tf s [<-|[<-|[]]] H Hr; by vm_compute in Hr.
Qed.

Lemma example_clean : name_clean cpu_name /\ name_clean mem_name.
Proof.
  assert (Hn : name_ok cpu_name /\ name_ok mem_name).
  { pose proof example_ops_ok as H. rewrite Forall_In in H. split; [apply (H (OpGlobal cpu_tsid cpu_name))|apply (H (OpGlobal mem_tsid mem_name))]; cbn; tauto. }
  destruct Hn. split; (split; [done|apply (bool_decide_unpack _); by vm_compute|]); apply (bool_decide_unpack _); by vm_compute.
Qed.

Lemma example_seen t mn : seen example_ops t mn -> (t = cpu_tsid /\ mn = cpu_name) \/ (t = mem_tsid /\ mn = mem_name).
Proof. unfold seen, example_ops. cbn [In]. naive_solver. Qed.

Lemma example_history : history_ok example_ops.
Proof.
  split.
  - exact example_ops_ok.
  - intros t mn [[_ ->]|[_ ->]]%example_seen; apply example_clean.
  - intros t mn [[_ ->]|[_ ->]]%example_seen; (split; [by vm_compute|]); apply (bool_decide_unpack _); by vm_compute.
  - intros t mn t' mn' [[-> ->]|[-> ->]]%example_seen [[-> ->]|[-> ->]]%example_seen; done.
  - intros date t mn. unfold example_ops. cbn [In]. naive_solver.
  - done.
Qed.

Lemma composite_filters_equivalent_witness :
  exists tfss, convert_to_composite_tag_filters (E := filter_error) example_filters = Ok tfss /\
    forall mn, name_clean mn -> (passes mn (tfs_tfs example_filters) <-> exists t, In t tfss /\ unfolded_pass mn t).
Proof. exact (composite_filters_equivalent example_filters (proj1 example_query) example_names). Defined.

Lemma result_key_injective_witness :
  [example_filters] = [example_filters] /\ range_dates (mkTimeRange 0 0) = range_dates (mkTimeRange 0 1000).
Proof.
  apply (result_key_injective [example_filters] [example_filters] (mkTimeRange 0 0) (mkTimeRange 0 1000)).
  - apply Forall_singleton. exact example_query.
  - apply Forall_singleton. exact example_query.
  - by vm_compute.
Defined.

Definition example_caches : Caches (TimedCache (list BlockHeader)) (TimedCache InmemoryBlock) := fresh_caches 4 (fun _ => 1000) (fun _ => 1048576).

(** The database and its part, as a table. *)
Lemma example_table : exists p bufs (L : ItemTableLaws (Tb := table_search_ops (Zs := stored_zstd)) TableSearch (Caches (TimedCache (list BlockHeader)) (TimedCache InmemoryBlock)) (parts_items [[example_block]])),
  open_blocks 1 [example_block] = Ok (p, bufs) /\ opened (Zs := stored_zstd) [example_block] p /\ tl_any (ItemTableLaws := L) (ts_new [p] false) /\ tl_world (ItemTableLaws := L) example_caches.
Proof.
  destruct example_part as (p & bufs & Hp & Ho). destruct (parts_table (Zl := stored_zstd_laws) [[example_block]] [p] 4 (fun _ => 1000) (fun _ => 1048576) false example_block_good) as (L & Ht & Hw);
    [by repeat constructor|apply NoDup_singleton|lia|]. exists p, bufs, L. exact (conj Hp (conj Ho (conj Ht Hw))).
Qed.

Lemma example_db_ok deadline p (L : ItemTableLaws (Tb := table_search_ops (Zs := stored_zstd)) TableSearch (Caches (TimedCache (list BlockHeader)) (TimedCache InmemoryBlock)) (parts_items [[example_block]])) :
  tl_any (ItemTableLaws := L) (ts_new [p] false) -> tl_world (ItemTableLaws := L) example_caches ->
  exists db, exec_ops (E := Empty_set) example_db example_ops = Ok db /\ db_ok (L := L) (parts_items [[example_block]]) false example_ops deadline (ts_new [p] false) db example_caches.
Proof.
  intros Ht Hw. destruct (history_db_ok (L := L) (parts_items [[example_block]]) [50; 52] false 0 1048576 deadline example_ops (ts_new [p] false) example_caches example_ops_ok) as (db & He & Hok).
  exists db. split; [exact He|]. exact (Hok (example_shown db He) Ht Hw).
Qed.

Lemma planner_exact_witness :
  exists p bufs db ps' r, open_blocks 1 [example_block] = Ok (p, bufs) /\ exec_ops (E := Empty_set) example_db example_ops = Ok db /\
    get_metric_ids_for_date_and_filters (E := Empty_set) (Tb := table_search_ops (Zs := stored_zstd)) (fun _ => 0) 10000 19000 example_filters 100 (mkPlan db (mkIndexSearch (ts_new [p] false) parser_default 5) example_caches 0) = Ok (ps', r) /\
    match r with
    | inl ids => forall id, id ∈ set_items ids <-> exists t mn, on_date false example_ops 19000 t mn /\ metric_id t = id /\ passes mn (tfs_tfs example_filters)
    | inr _ => True
    end.
Proof.
  destruct example_table as (p & bufs & L & Hp & _ & Ht & Hw). destruct (example_db_ok 5 p L Ht Hw) as (db & He & Hdb).
  destruct (planner_exact (L := L) (parts_items [[example_block]]) false example_ops (fun _ => 0) 5 10000 (answer_entry false example_ops) 19000 example_filters 100 (mkPlan db (mkIndexSearch (ts_new [p] false) parser_default 5) example_caches 0)) as [(ps' & r & Hg & _ & Hr)|[_ Hs]].
  - exact example_history.
  - apply Nat.leb_le. by vm_compute.
  - unfold is_u. lia.
  - exact (proj1 example_query).
  - exact Hdb.
  - exists p, bufs, db, ps', r. split; [exact Hp|]. split; [exact He|]. split; [exact Hg|]. destruct r; [exact Hr|exact I].
  - destruct (insertion_sort_returns _ Hs).
Defined.

Definition example_asks : list series_query := [AskTsids [example_filters] day_range 10; AskNames [example_filters; tfs_new] GLOBAL_INDEX_TIME_RANGE 10; AskTsids [example_filters] day_range 10].

Lemma example_asks_ok : Forall series_query_ok example_asks.
Proof.
  assert (Hnew : keyed_query tfs_new /\ names_ok tfs_new) by (split; [split; [split; [exact built_new|constructor..]|constructor]|split; [cbn; lia|by intros ? []..]]).
  pose proof example_query. pose proof example_names. destruct Hnew. repeat (apply Forall_cons; split; [cbn; split_and!; [repeat (apply Forall_cons; split; [done|]); constructor|repeat (apply Forall_cons; split; [done|]); constructor|lia|lia]|]). constructor.
Qed.

Lemma series_queries_exact_witness :
  exists p bufs db db' w' ticks' l, open_blocks 1 [example_block] = Ok (p, bufs) /\ exec_ops (E := Empty_set) example_db example_ops = Ok db /\
    ask_all (E := Empty_set) (Tb := table_search_ops (Zs := stored_zstd)) (fun _ => 0) (S (length (parts_items [[example_block]])) * S (length (parts_items [[example_block]]))) (ts_new [p] false) (fun l => l) 5 example_asks db example_caches 0 = Ok (db', w', ticks', l) /\
    Forall2 (series_answer_ok false example_ops (fun _ => 0) 5) example_asks l.
Proof.
  destruct example_part as (p & bufs & Hp & Ho).
  destruct (series_queries_exact (Zl := stored_zstd_laws) [50; 52] false 0 1048576 5 4 (fun _ => 1000) (fun _ => 1048576) (fun _ => 0) false (fun l => l) example_ops example_asks [[example_block]] [p]) as (db & He & Hq).
  - exact example_history.
  - exact example_asks_ok.
  - done.
  - exact example_block_good.
  - repeat constructor. exact Ho.
  - apply NoDup_singleton.
  - lia.
  - destruct (Hq (example_shown db He)) as [(db' & w' & t & l & Ha & Hl)|[_ Hs]].
    + exists p, bufs, db, db', w', t, l. exact (conj Hp (conj He (conj Ha Hl))).
    + apply List.Exists_exists in Hs as (q & _ & tfs & _ & Hs). destruct (insertion_sort_returns _ Hs).
Defined.

Lemma delete_series_exact_witness :
  exists p bufs db db' w' ticks' r, open_blocks 1 [example_block] = Ok (p, bufs) /\ exec_ops (E := Empty_set) example_db example_ops = Ok db /\
    delete_series (E := Empty_set) (Tb := table_search_ops (Zs := stored_zstd)) (fun _ => 0) 10000 (ts_new [p] false) (fun l => l) [example_filters] 10 db example_caches 0 = Ok (db', w', ticks', r) /\
    match r with
    | inl ids => forall id, id ∈ set_items ids <-> query_matches false example_ops [example_filters] GLOBAL_INDEX_TIME_RANGE id /\ ~ deleted_by example_ops id
    | inr _ => True
    end.
Proof.
  destruct example_table as (p & bufs & L & Hp & _ & Ht & Hw). destruct (example_db_ok NO_DEADLINE p L Ht Hw) as (db & He & Hdb).
  destruct (delete_series_exact (L := L) (parts_items [[example_block]]) false example_ops (fun _ => 0) 10000 (ts_new [p] false) (fun l => l) [example_filters] 10 db example_caches 0) as [[_ (tfs & _ & Hs)]|(db' & w' & t & r & Hd & Hr)].
  - exact example_history.
  - done.
  - apply Nat.leb_le. by vm_compute.
  - exact Ht.
  - done.
  - apply Forall_singleton. exact example_query.
  - apply Forall_singleton. exact example_names.
  - lia.
  - exact Hdb.
  - destruct (insertion_sort_returns _ Hs).
  - exists p, bufs, db, db', w', t, r. split; [exact Hp|]. split; [exact He|]. split; [exact Hd|]. destruct r; [exact (proj1 Hr)|exact I].
Defined.
End Examples.

(** ** Where composite filters differ *)

Section Differences.
(** The answers of the expression library for [foo(bar|qux)] and [|foo], as its
    tests have them. *)
Local Instance names_engine : RegexEngine := fun _ => Some (fun _ => false).
Local Instance names_util : RegexUtil := {|
  simplify_prom_regex v :=
    if bool_decide (v = bytes_of_string "foo(bar|qux)"%string) then (bytes_of_string "foo"%string, bytes_of_string "bar|qux"%string)
    else if bool_decide (v = bytes_of_string "|foo"%string) then ([], v)
    else (v, []);
  get_or_values_prom_regex e :=
    if bool_decide (e = bytes_of_string "bar|qux"%string) then [bytes_of_string "bar"%string; bytes_of_string "qux"%string]
    else if bool_decide (e = bytes_of_string "|foo"%string) then [[]; bytes_of_string "foo"%string]
    else [];
|}.

Definition add_filters (l : list (string * string * bool)) : res filter_error TagFilters :=
  foldl (fun m f => tfs ← m; tfs_add tfs (bytes_of_string f.1.1) (bytes_of_string f.1.2) false f.2) (Ok tfs_new) l.

(** Whether the name passes the filters, before and after the conversion. *)
Definition passes_plain (mn : MetricName) (m : res filter_error TagFilters) : res filter_error bool :=
  tfs ← m; '(ok, _) ← match_tag_filters mn (tfs_tfs tfs); Ok ok.
Definition passes_converted (mn : MetricName) (m : res filter_error TagFilters) : res filter_error (list bool) :=
  tfs ← m;
  tfss ← convert_to_composite_tag_filters tfs;
  foldr (fun t r => l ← r; B ← remove_composite_tag_filters (tfs_tfs t) (tfs_common_prefix t); '(ok, _) ← match_tag_filters mn B; Ok (ok :: l)) (Ok []) tfss.

Definition foobar_name : MetricName := mkMetricName (bytes_of_string "foobar"%string) [tag_of "job"%string "x"%string].

(** With two filters on the name, [{__name__="bar", __name__=~"foo(bar|qux)",
    job="x"}], the conversion compares the plain name with the alternatives
    without their prefix and drops both filters: [foobar] passes, although it is
    not [bar]. *)
Example composite_drops_name_filter :
  passes_plain foobar_name (add_filters [(""%string, "bar"%string, false); (""%string, "foo(bar|qux)"%string, true); ("job"%string, "x"%string, false)]) = Ok false /\
  passes_converted foobar_name (add_filters [(""%string, "bar"%string, false); (""%string, "foo(bar|qux)"%string, true); ("job"%string, "x"%string, false)]) = Ok [true; false].
Proof. by vm_compute. Qed.

(** An empty alternative, [{__name__=~"|foo", job="x"}], gives composite filters
    for the empty name, which cannot be unfolded. *)
Example empty_name_panics : passes_converted foobar_name (add_filters [(""%string, "|foo"%string, true); ("job"%string, "x"%string, false)]) = Panic.
Proof. by vm_compute. Qed.
End Differences.
