(* ===== verification/PoolSearch.v ===== *)
(** * Merging searches with a heap

    [esm-storage/src/partition/search.rs] and [table_search.rs] search several
    sources at once in the same way: a pool of cursors, a heap of indices into
    the pool ordered by the current blocks of the cursors, and a step that
    advances the cursor at the root.  The pool is modelled once, over the
    interface [Cursor] of what it merges; it is a cursor itself, so that a
    table merges partitions that merge parts.  The laws of cursors are proved
    for the pool from the laws of its members. *)
From Stdlib Require Import ZArith Lia Bool Permutation.
From S2P Require Import Prelude Heap.
Local Open Scope Z_scope.

(** ** The interface *)

(** A cursor [C] over blocks [A] that reads through a world [W] (the caches)
    and fails with messages [X]: [next_block], [block_ref] ([None] where it
    panics) and [error]. *)
Class Cursor (C W A X : Type) : Type := {
  cur_next : forall {E}, C -> W -> res E (C * W * bool);
  cur_ref : C -> option A;
  cur_err : C -> option X;
}.

Inductive pool_error (X : Type) : Type :=
| PoolEof
| PoolOther (x : X).
Arguments PoolEof {X}.
Arguments PoolOther {X}.

Inductive pool_msg (X : Type) : Type :=
| CannotInit (e : X)
| CannotNext (e : X).
Arguments CannotInit {X}.
Arguments CannotNext {X}.

Record Pool (C X : Type) : Type := mkPool {
  pl_pool : list C;
  pl_heap : list nat;
  pl_err : option (pool_error (pool_msg X));
  pl_next_block_noop : bool;
}.
Arguments mkPool {C X}.
Arguments pl_pool {C X}.
Arguments pl_heap {C X}.
Arguments pl_err {C X}.
Arguments pl_next_block_noop {C X}.

Section PoolOps.
  Context {C W A X : Type} {Cu : Cursor C W A X} (less : A -> A -> bool).

(** The block at which a cursor of the pool stands. *)
Definition pool_cur (pool : list C) (i : nat) : option A := pool !! i ≫= cur_ref.

(** The order of the heap.  Only cursors with a current block are in it. *)
Definition pool_before (pool : list C) (a b : nat) : bool :=
  match pool_cur pool a, pool_cur pool b with
  | Some x, Some y => less x y
  | _, _ => false
  end.

(** The cursors from index [i] on after their first step, the indices of those
    with a block, and the first error, which ends the loop. *)
Fixpoint start_loop {E} (i : nat) (pool : list C) (w : W) : res E (list C * list nat * option X * W) :=
  match pool with
  | [] => Ok ([], [], None, w)
  | c :: pool =>
      '(c, w, more) ← cur_next c w;
      if more : bool then
        '(pool, heap, err, w) ← start_loop (S i) pool w;
        Ok (c :: pool, i :: heap, err, w)
      else
        match cur_err c with
        | Some e => Ok (c :: pool, [], Some e, w)
        | None =>
            '(pool, heap, err, w) ← start_loop (S i) pool w;
            Ok (c :: pool, heap, err, w)
        end
  end.

(** The second half of the constructors, from the pool on. *)
Definition pool_start {E} (pool : list C) (w : W) : res E (Pool C X * W) :=
  '(pool, heap, err, w) ← start_loop 0 pool w;
  match err with
  | Some e => Ok (mkPool pool heap (Some (PoolOther (CannotInit e))) false, w)
  | None =>
      match heap with
      | [] => Ok (mkPool pool heap (Some PoolEof) false, w)
      | _ => Ok (mkPool pool (heap_init (pool_before pool) heap) None true, w)
      end
  end.

Definition pool_ref (self : Pool C X) : option A := head (pl_heap self) ≫= pool_cur (pl_pool self).

Definition pool_next {E} (self : Pool C X) (w : W) : res E (Pool C X * W * bool) :=
  match pl_err self with
  | Some _ => Ok (self, w, false)
  | None =>
      if pl_next_block_noop self then Ok (mkPool (pl_pool self) (pl_heap self) (pl_err self) false, w, true)
      else
        i ← idx (pl_heap self) 0;
        c ← idx (pl_pool self) i;
        '(c, w, more) ← cur_next c w;
        let pool := <[i := c]> (pl_pool self) in
        if more : bool then
          let heap := sift_down (pool_before pool) (length (pl_heap self)) (pl_heap self) 0 in
          Ok (mkPool pool heap (pl_err self) (pl_next_block_noop self), w, true)
        else
          match cur_err c with
          | Some e => Ok (mkPool pool (pl_heap self) (Some (PoolOther (CannotNext e))) (pl_next_block_noop self), w, false)
          | None =>
              let n := length (pl_heap self) in
              let heap := take (n - 1) (swap (pl_heap self) 0 (n - 1)) in
              match heap with
              | [] => Ok (mkPool pool heap (Some PoolEof) (pl_next_block_noop self), w, false)
              | _ => Ok (mkPool pool (sift_down (pool_before pool) (length heap) heap 0) (pl_err self) (pl_next_block_noop self), w, true)
              end
          end
  end.

Definition pool_error_msg (self : Pool C X) : option (pool_msg X) :=
  match pl_err self with
  | Some (PoolOther e) => Some e
  | _ => None
  end.
End PoolOps.

(** A pool is a cursor. *)
Definition pool_cursor {C W A X} {Cu : Cursor C W A X} (less : A -> A -> bool) : Cursor (Pool C X) W A (pool_msg X) := {|
  cur_next E := pool_next less;
  cur_ref := pool_ref;
  cur_err := pool_error_msg;
|}.

(** ** The laws *)

(** A cursor that has the blocks [R] left, in any order, yields a least one of
    them first; [cl_key] is the order of good blocks. *)
Class CursorLaws (C W A X : Type) {Cu : Cursor C W A X} (good : A -> Prop) (key : A -> list Z) : Type := {
  cl_world : W -> Prop;
  cl_left : C -> list A -> Prop;
  cl_good c R : cl_left c R -> Forall good R;
  cl_next E c w R : cl_left c R -> cl_world w ->
    exists c' w', cl_world w' /\
      ((R = [] /\ cur_next (E := E) c w = Ok (c', w', false) /\ cl_left c' [] /\ cur_err c' = None) \/
       (exists x R', cur_next (E := E) c w = Ok (c', w', true) /\ cl_left c' R' /\ cur_ref c' = Some x /\
          R ≡ₚ x :: R' /\ Forall (fun y => lex_leb (key x) (key y)) R'));
}.

Section PoolProof.
  Context {C W A X : Type} {Cu : Cursor C W A X} (less : A -> A -> bool) (good : A -> Prop) (key : A -> list Z).
  Context (less_key : forall x y, good x -> good y -> less x y = lex_ltb (key x) (key y)).
  Context {Cl : CursorLaws C W A X good key}.

Definition cur_key (pool : list C) (i : nat) : list Z :=
  match pool_cur pool i with
  | Some x => key x
  | None => []
  end.

(** The order of the heap by keys, which is an order on all indices. *)
Definition key_before (pool : list C) (a b : nat) : bool := lex_ltb (cur_key pool a) (cur_key pool b).

Lemma key_before_total pool a b : key_before pool a b = true -> key_before pool b a = false.
Proof.
  unfold key_before. rewrite !lex_ltb_leb, negb_true_iff, negb_false_iff. intros H.
  destruct (lex_leb_total (cur_key pool a) (cur_key pool b)) as [Hl|Hl]; [by apply Is_true_true|by rewrite H in Hl].
Qed.

Lemma key_before_trans pool a b c : key_before pool b a = false -> key_before pool c b = false -> key_before pool c a = false.
Proof.
  unfold key_before. rewrite !lex_ltb_leb, !negb_false_iff. intros H1%Is_true_true H2%Is_true_true. apply Is_true_true.
  by eapply lex_leb_trans.
Qed.

(** Cursor [i] stands at a block and has [rest i] left. *)
Definition stands (pool : list C) (rest : nat -> list A) (i : nat) : Prop :=
  exists c x, pool !! i = Some c /\ cur_ref c = Some x /\ good x /\ cl_left c (rest i) /\
    Forall (fun y => lex_leb (key x) (key y)) (rest i).

Definition offer (pool : list C) (rest : nat -> list A) (i : nat) : list A :=
  match pool_cur pool i with
  | Some x => x :: rest i
  | None => []
  end.

Definition offers (pool : list C) (rest : nat -> list A) (heap : list nat) : list A := concat (map (offer pool rest) heap).

Record heap_ok (pool : list C) (rest : nat -> list A) (heap : list nat) : Prop := {
  ho_nodup : NoDup heap;
  ho_stands : Forall (stands pool rest) heap;
  ho_order : heap_except (key_before pool) 0 None heap;
}.

(** The pool has the blocks [R] left. *)
Definition pool_left (self : Pool C X) (R : list A) : Prop :=
  (exists rest top, pl_err self = None /\ head (pl_heap self) = Some top /\ heap_ok (pl_pool self) rest (pl_heap self) /\
     (if pl_next_block_noop self then R
      else match pool_cur (pl_pool self) top with Some x => x :: R | None => R end) ≡ₚ offers (pl_pool self) rest (pl_heap self))
  \/ (pl_err self = Some PoolEof /\ R = []).

Lemma stands_cur pool rest i : stands pool rest i -> exists x, pool_cur pool i = Some x /\ good x /\ offer pool rest i = x :: rest i /\
  Forall good (rest i) /\ Forall (fun y => lex_leb (key x) (key y)) (rest i).
Proof.
  intros (c & x & Hi & Hx & Hg & Hl & Hle). assert (Hc : pool_cur pool i = Some x) by (unfold pool_cur; by rewrite Hi).
  exists x. unfold offer. rewrite Hc. split_and!; try done. by eapply cl_good.
Qed.

Lemma before_key pool rest heap a b : Forall (stands pool rest) heap -> In a heap -> In b heap -> pool_before less pool a b = key_before pool a b.
Proof.
  intros Hs Ha Hb. rewrite Forall_In in Hs. destruct (stands_cur _ _ _ (Hs a Ha)) as (x & Hx & Hgx & _).
  destruct (stands_cur _ _ _ (Hs b Hb)) as (y & Hy & Hgy & _). unfold pool_before, key_before, cur_key. rewrite Hx, Hy. by apply less_key.
Qed.

Lemma offers_perm pool rest heap heap' : heap ≡ₚ heap' -> offers pool rest heap ≡ₚ offers pool rest heap'.
Proof. intros H. unfold offers. rewrite <-!flat_map_concat_map. by apply Permutation_flat_map. Qed.

Lemma offers_good pool rest heap : Forall (stands pool rest) heap -> Forall good (offers pool rest heap).
Proof.
  intros Hs. apply Forall_In. intros y (l & (i & <- & Hi)%in_map_iff & Hy)%in_concat. rewrite Forall_In in Hs.
  destruct (stands_cur _ _ _ (Hs i Hi)) as (x & _ & Hgx & Hof & Hgr & _). rewrite Hof in Hy. destruct Hy as [<-|Hy]; [done|].
  by apply (proj1 (Forall_In _ _) Hgr).
Qed.

(** The block of the root is a least one. *)
Lemma root_offers pool rest heap top x :
  heap_ok pool rest heap -> head heap = Some top -> pool_cur pool top = Some x ->
  Forall (fun y => lex_leb (key x) (key y)) (offers pool rest heap).
Proof.
  intros Hh Htop Hx. apply Forall_In. intros y (l & (i & <- & Hi)%in_map_iff & Hy)%in_concat. assert (H0 : heap !! 0%nat = Some top) by (by destruct heap).
  pose proof (heap_root_min (key_before pool) (key_before_total pool) (fun a b c => key_before_trans pool a b c) heap top (ho_order _ _ _ Hh) H0 i Hi) as Hmin.
  destruct (stands_cur _ _ _ (proj1 (Forall_In _ _) (ho_stands _ _ _ Hh) i Hi)) as (z & Hz & _ & Hof & _ & Hle).
  unfold key_before, cur_key in Hmin. rewrite Hx, Hz, lex_ltb_leb, negb_false_iff in Hmin. apply Is_true_true in Hmin.
  rewrite Hof in Hy. destruct Hy as [<-|Hy]; [done|]. eapply lex_leb_trans; [exact Hmin|]. by apply (proj1 (Forall_In _ _) Hle).
Qed.

(** *** Steps *)

Definition set_left (rest : nat -> list A) (i : nat) (r : list A) : nat -> list A := fun j => if decide (j = i) then r else rest j.

Lemma pool_cur_insert pool i c j : j <> i -> pool_cur (<[i := c]> pool) j = pool_cur pool j.
Proof. intros Hne. unfold pool_cur. by rewrite list_lookup_insert_ne. Qed.

Lemma stands_insert pool rest i c r j : j <> i -> stands pool rest j -> stands (<[i := c]> pool) (set_left rest i r) j.
Proof.
  intros Hne (c' & x & Hi & Hx). exists c', x. rewrite list_lookup_insert_ne by done. unfold set_left. by rewrite decide_False.
Qed.

Lemma offers_insert pool rest heap i c r : i ∉ heap -> offers (<[i := c]> pool) (set_left rest i r) heap = offers pool rest heap.
Proof.
  intros Hni. unfold offers. f_equal. apply map_ext_in. intros j Hj. assert (j <> i) by (intros ->; by apply Hni, list_elem_of_In).
  unfold offer. rewrite pool_cur_insert by done. unfold set_left. by rewrite decide_False.
Qed.

(** Restoring the heap when only the cursor at the root has changed. *)
Lemma resift_ok pool pool' rest' heap h top :
  heap_except (key_before pool) 0 None heap -> head heap = Some top -> NoDup heap ->
  (forall i, i <> top -> pool_cur pool' i = pool_cur pool i) ->
  (forall p, (0 < p)%nat -> h !! p = heap !! p \/ h !! p = None) -> NoDup h -> Forall (stands pool' rest') h ->
  heap_ok pool' rest' (sift_down (pool_before less pool') (length h) h 0).
Proof.
  intros Ho Htop Hnd Hcur Hlk Hndh Hst. rewrite (sift_down_ext _ (key_before pool')) by (intros x y Hx Hy; by eapply before_key).
  assert (Hperm := sift_down_perm (key_before pool') (length h) h 0). split.
  - by rewrite Hperm.
  - by rewrite Hperm.
  - apply sift_down_heap; [apply key_before_total|apply key_before_trans|lia|lia| |].
    + apply (heap_below_root (key_before pool) _ heap); [done|done|]. intros p c a b Hp0 Hc0 Ha Hb.
      assert (Hne : forall q v, (0 < q)%nat -> heap !! q = Some v -> v <> top).
      { intros q v Hq Hv ->. destruct heap as [|t tl]; [done|]. injection Htop as ->. apply NoDup_cons in Hnd as [Hni _].
        destruct q as [|q]; [lia|]. apply Hni. by eapply list_elem_of_lookup_2. }
      unfold key_before, cur_key. rewrite (Hcur a), (Hcur b); [done|by apply (Hne c)|by apply (Hne p)].
    + intros q c a b Hq. unfold child in Hq. lia.
Qed.

(** A pool whose heap offers [R], with the block of the root current. *)
Lemma at_top (self : Pool C X) rest top R :
  pl_err self = None -> pl_next_block_noop self = false -> head (pl_heap self) = Some top ->
  heap_ok (pl_pool self) rest (pl_heap self) -> R ≡ₚ offers (pl_pool self) rest (pl_heap self) ->
  exists x R', pool_ref self = Some x /\ pool_left self R' /\ R ≡ₚ x :: R' /\ Forall (fun y => lex_leb (key x) (key y)) R'.
Proof.
  intros He Hn Htop Hh HR. destruct (pl_heap self) as [|t tl] eqn:Hheap; [done|]. injection Htop as ->.
  pose proof (ho_stands _ _ _ Hh) as Hst. apply Forall_cons in Hst as [Ht _]. destruct (stands_cur _ _ _ Ht) as (x & Hx & _ & Hof & _).
  pose proof (root_offers _ _ _ _ _ Hh eq_refl Hx) as Hmin.
  assert (Hoff : offers (pl_pool self) rest (top :: tl) = x :: rest top ++ offers (pl_pool self) rest tl) by (unfold offers; cbn; by rewrite Hof).
  exists x, (rest top ++ offers (pl_pool self) rest tl). split_and!.
  - unfold pool_ref. by rewrite Hheap.
  - left. exists rest, top. rewrite Hheap. split_and!; [done|done|done|]. by rewrite Hn, Hx, Hoff.
  - by rewrite HR, Hoff.
  - rewrite Hoff in Hmin. by apply Forall_cons in Hmin as [_ Hmin].
Qed.

Lemma pool_next_ok E self w R :
  pool_left self R -> cl_world w ->
  exists self' w', cl_world w' /\
    ((R = [] /\ pool_next less (E := E) self w = Ok (self', w', false) /\ pool_left self' [] /\ pool_error_msg self' = None) \/
     (exists x R', pool_next less (E := E) self w = Ok (self', w', true) /\ pool_left self' R' /\ pool_ref self' = Some x /\
        R ≡ₚ x :: R' /\ Forall (fun y => lex_leb (key x) (key y)) R')).
Proof.
  intros Hp Hw. pose proof Hp as [(rest & top & He & Htop & Hh & HR)|[He ->]]; unfold pool_next; rewrite He.
  2:{ exists self, w. split; [done|]. left. split_and!; [done|done|done|]. unfold pool_error_msg. by rewrite He. }
  destruct (pl_next_block_noop self) eqn:Hn.
  { set (s := mkPool _ _ _ _). destruct (at_top s rest top R eq_refl eq_refl Htop Hh HR) as (x & R' & H). exists s, w. split; [done|]. right. exists x, R'. tauto. }
  destruct (pl_heap self) as [|t tl] eqn:Hheap; [done|]. injection Htop as ->.
  pose proof (ho_stands _ _ _ Hh) as Hst. apply Forall_cons in Hst as [Ht Hst]. pose proof Ht as (c & x0 & Hc & Hx0 & _ & Hleft & _).
  destruct (stands_cur _ _ _ Ht) as (x & Hx & Hgx & Hof & _). rewrite Hx in HR.
  assert (HR' : R ≡ₚ rest top ++ offers (pl_pool self) rest tl).
  { apply (Permutation_cons_inv (a := x)). rewrite HR. unfold offers. cbn. by rewrite Hof. }
  pose proof (ho_nodup _ _ _ Hh) as Hnd. pose proof (proj1 (NoDup_cons _ _) Hnd) as [Hni Hndt].
  rewrite (idx_Some (top :: tl) 0 top), bind_Ok, (idx_Some _ _ _ Hc), bind_Ok by done.
  destruct (cl_next E c w (rest top) Hleft Hw) as (c' & w' & Hw' & Hcase). set (pool' := <[top := c']> (pl_pool self)).
  assert (Hcur : forall i, i <> top -> pool_cur pool' i = pool_cur (pl_pool self) i) by (intros i Hi; by apply pool_cur_insert).
  assert (Htl : forall r, Forall (stands pool' (set_left rest top r)) tl).
  { intros r. rewrite Forall_forall in Hst |- *. intros j Hj. apply stands_insert; [by intros ->|by apply Hst]. }
  destruct Hcase as [(Hr & -> & Hl' & Hce)|(y & r' & -> & Hl' & Hy & Hperm & Hle)]; rewrite bind_Ok; cbn zeta; fold pool'.
  - rewrite Hr in HR'. cbn [app] in HR'. rewrite Hce. destruct (pop_root top tl) as [Hph Hlk]. cbn zeta in Hph, Hlk.
    set (h := take _ _) in *. clearbody h. destruct h as [|t0 h0].
    + apply Permutation_nil_l in Hph as <-. apply Permutation_nil_r in HR'. eexists _, w'. split; [done|]. left. split_and!; [done|done|by right|done].
    + cbv iota. set (h := t0 :: h0) in *. set (s := mkPool pool' _ _ _). exists s, w'. split; [done|]. right.
      set (h' := sift_down _ _ h 0) in s. assert (Hp' : h' ≡ₚ tl) by (unfold h'; by rewrite sift_down_perm).
      assert (Hhead : exists t, head h' = Some t) by (destruct h' as [|t' ?]; [apply Permutation_nil_l in Hp' as <-; by apply Permutation_nil_r in Hph|by exists t']).
      destruct Hhead as [t Hhd]. destruct (at_top s (set_left rest top []) t R eq_refl eq_refl Hhd) as (z & R' & H).
      * apply (resift_ok (pl_pool self) pool' _ (top :: tl) h top); [apply Hh|done|done|done|done|by rewrite Hph|by rewrite Hph].
      * cbn [pl_pool pl_heap s]. rewrite (offers_perm _ _ _ _ Hp'). unfold pool'. by rewrite offers_insert.
      * exists z, R'. tauto.
  - set (s := mkPool pool' _ _ _). exists s, w'. split; [done|]. right. set (h' := sift_down _ _ (top :: tl) 0) in s.
    assert (Hp' : h' ≡ₚ top :: tl) by apply sift_down_perm.
    assert (Hhead : exists t, head h' = Some t) by (destruct h' as [|t' ?]; [by apply Permutation_nil_cons in Hp'|by exists t']).
    assert (Hlk : pool' !! top = Some c') by (apply list_lookup_insert_eq; by eapply lookup_lt_Some).
    assert (Hpc : pool_cur pool' top = Some y) by (unfold pool_cur; by rewrite Hlk).
    destruct Hhead as [t Hhd]. destruct (at_top s (set_left rest top r') t R eq_refl eq_refl Hhd) as (z & R' & H).
    * apply (resift_ok (pl_pool self) pool' _ (top :: tl) (top :: tl) top); [apply Hh|done|done|done|by left|done|]. constructor; [|apply Htl].
      assert (Hgy : Forall good (rest top)) by (by eapply cl_good). rewrite Hperm in Hgy. apply Forall_cons in Hgy as [Hgy _].
      exists c', y. unfold set_left. rewrite decide_True by done. done.
    * cbn [pl_pool pl_heap s]. rewrite (offers_perm _ _ _ _ Hp'). unfold offers. cbn [map concat]. fold (offers pool' (set_left rest top r') tl).
      unfold pool' at 2. rewrite offers_insert by done. unfold offer. rewrite Hpc. unfold set_left. rewrite decide_True by done. by rewrite HR', Hperm.
    * exists z, R'. tauto.
Qed.

(** *** The start *)

Lemma start_loop_ok E cs : forall i w Rs,
  Forall2 cl_left cs Rs -> cl_world w ->
  exists pool heap rest w', start_loop (E := E) i cs w = Ok (pool, heap, None, w') /\ cl_world w' /\
    NoDup heap /\ Forall (fun j => (i <= j)%nat /\ forall pre, length pre = i -> stands (pre ++ pool) rest j) heap /\
    (forall pre, length pre = i -> offers (pre ++ pool) rest heap ≡ₚ concat Rs).
Proof.
  induction cs as [|c cs IH]; intros i w Rs HR Hw; inversion HR as [|? R ? Rs0 Hc Hcs]; subst; cbn [start_loop].
  { exists [], [], (fun _ => []), w. split_and!; [done|done|constructor|constructor|done]. }
  destruct (cl_next E c w R Hc Hw) as (c' & w1 & Hw1 & Hcase).
  destruct (IH (S i) w1 Rs0 Hcs Hw1) as (pool & heap & rest & w' & Hl & Hw' & Hnd & Hst & Hof).
  assert (Hpre : forall pre, length pre = i -> length (pre ++ [c']) = S i) by (intros pre Hl'; rewrite length_app; cbn; lia).
  destruct Hcase as [(-> & -> & _ & He)|(x & R' & -> & Hleft & Hx & Hperm & Hle)]; rewrite bind_Ok.
  - rewrite He, Hl, bind_Ok. exists (c' :: pool), heap, rest, w'. split_and!; [done|done|done| |].
    + revert Hst. apply Forall_weaken. intros j [Hij Hs]. split; [lia|]. intros pre Hpl. specialize (Hs _ (Hpre pre Hpl)). by rewrite <-app_assoc in Hs.
    + intros pre Hpl. specialize (Hof _ (Hpre pre Hpl)). by rewrite <-app_assoc in Hof.
  - rewrite Hl, bind_Ok. exists (c' :: pool), (i :: heap), (set_left rest i R'), w'.
    assert (Hni : i ∉ heap) by (intros Hi%list_elem_of_In; apply (proj1 (Forall_In _ _) Hst) in Hi as [Hle' _]; lia).
    assert (Hlk : forall pre, length pre = i -> (pre ++ c' :: pool) !! i = Some c') by (intros pre <-; by rewrite list_lookup_middle).
    assert (Hsame : forall j, j <> i -> set_left rest i R' j = rest j) by (intros j Hj; unfold set_left; by rewrite decide_False).
    assert (Hi : set_left rest i R' i = R') by (unfold set_left; by rewrite decide_True).
    split_and!; [done|done|by constructor| |].
    + constructor.
      * split; [lia|]. intros pre Hpl. assert (Hg : Forall good R) by (by eapply cl_good). rewrite Hperm in Hg. apply Forall_cons in Hg as [Hg _].
        exists c', x. rewrite Hi. split_and!; try done. by apply Hlk.
      * rewrite Forall_forall in Hst |- *. intros j Hj. destruct (Hst j Hj) as [Hij Hs]. split; [lia|]. intros pre Hpl.
        destruct (Hs _ (Hpre pre Hpl)) as (cj & xj & Hcj & Hxj). rewrite <-app_assoc in Hcj. exists cj, xj. rewrite Hsame by lia. done.
    + intros pre Hpl. cbn [concat]. rewrite <-(Hof _ (Hpre pre Hpl)), <-app_assoc. cbn [app]. unfold offers at 1. cbn [map concat].
      assert (Heq : offers (pre ++ c' :: pool) (set_left rest i R') heap = offers (pre ++ c' :: pool) rest heap).
      { unfold offers. f_equal. apply map_ext_in. intros j Hj. unfold offer. rewrite Hsame; [done|]. intros ->. by apply Hni, list_elem_of_In. }
      fold (offers (pre ++ c' :: pool) (set_left rest i R') heap). rewrite Heq. unfold offer, pool_cur. rewrite Hlk by done. cbn. rewrite Hx, Hi. by rewrite Hperm.
Qed.

Lemma pool_start_ok E cs w Rs :
  Forall2 cl_left cs Rs -> cl_world w ->
  exists self w', pool_start less (E := E) cs w = Ok (self, w') /\ cl_world w' /\ pool_left self (concat Rs) /\ pool_error_msg self = None.
Proof.
  intros HR Hw. unfold pool_start. destruct (start_loop_ok E cs 0 w Rs HR Hw) as (pool & heap & rest & w' & -> & Hw' & Hnd & Hst & Hof). rewrite bind_Ok.
  specialize (Hof [] eq_refl). cbn [app] in Hof. assert (Hs : Forall (stands pool rest) heap) by (revert Hst; apply Forall_weaken; intros j [_ H]; by apply (H [])).
  destruct heap as [|t tl].
  - eexists _, w'. split_and!; [done|done| |done]. right. split; [done|]. by apply Permutation_nil_l in Hof.
  - cbv iota. set (h := t :: tl) in *. eexists _, w'. split_and!; [done|done| |done]. left.
    rewrite (heap_init_ext _ (key_before pool)) by (intros a b Ha Hb; by eapply before_key).
    destruct (heap_init_heap (key_before pool) (key_before_total pool) (fun a b c => key_before_trans pool a b c) h) as [Hord Hperm].
    set (h' := heap_init _ h) in *. clearbody h'. destruct h' as [|t' tl']; [by apply Permutation_nil_cons in Hperm|].
    exists rest, t'. cbn [pl_err pl_heap pl_pool pl_next_block_noop]. split_and!; [done|done| |].
    + split; [by rewrite Hperm|by rewrite Hperm|done].
    + by rewrite (offers_perm _ _ _ _ Hperm), Hof.
Qed.

Lemma pool_left_good self R : pool_left self R -> Forall good R.
Proof.
  intros [(rest & top & He & Htop & Hh & HR)|[_ ->]]; [|constructor]. pose proof (offers_good _ _ _ (ho_stands _ _ _ Hh)) as Hg. rewrite <-HR in Hg.
  destruct (pl_next_block_noop self); [done|]. destruct (pool_cur _ _); [by apply Forall_cons in Hg as [_ Hg]|done].
Qed.

(** The pool keeps the laws of its members. *)
Definition pool_laws : @CursorLaws (Pool C X) W A (pool_msg X) (pool_cursor less) good key :=
  Build_CursorLaws _ _ _ _ (pool_cursor less) good key cl_world pool_left pool_left_good pool_next_ok.
End PoolProof.
