(* ===== verification/DataSearch.v ===== *)
(** * Search in the data parts

    Model of [esm-storage/src/part/mod.rs], [part/inmemory.rs] and
    [part/search.rs]: parts of samples with random access to their streams,
    references to blocks, and the search that yields the blocks of a sorted
    list of series that may have samples in a time range; and of
    [partition/search.rs] and [table_search.rs], which merge such searches. *)
From Stdlib Require Import ZArith Lia Bool.
From S2P Require Import Prelude IntCodec Compress ArrayCodec Heap TimeRange BlockCache SearchBase PoolSearch Tsid BlockHeader Block BlockStream.
Local Open Scope Z_scope.

(** ** Parts *)

(** An in-memory part: its header and its four streams. *)
Record InmemoryPart : Type := mkInmemoryPart {
  mp_ph : PartHeader;
  mp_timestamps_data : list Z;
  mp_values_data : list Z;
  mp_index_data : list Z;
  mp_metaindex_data : list Z;
  mp_creation_time : Z;
}.

Definition from_buffers (now : Z) (ph : PartHeader) (bufs : list Z * list Z * list Z * list Z) : InmemoryPart :=
  let '(timestamps_data, values_data, index_data, metaindex_data) := bufs in
  mkInmemoryPart ph timestamps_data values_data index_data metaindex_data now.

Definition mp_size (mp : InmemoryPart) : Z :=
  as_u64 (Z.of_nat (length (mp_timestamps_data mp) + length (mp_values_data mp) + length (mp_index_data mp) + length (mp_metaindex_data mp))).

Record Part : Type := mkPart {
  p_id : Z;
  p_ph : PartHeader;
  p_path : list Z;
  p_size : Z;
  p_timestamps_file : PartFile;
  p_values_file : PartFile;
  p_index_file : PartFile;
  p_metaindex : list MetaindexRow;
  p_must_drop_on_release : bool;
}.

Section NewPart.
  Context {Zs : Zstd}.

(** The part and the next value of [NEXT_PART_ID]. *)
Definition part_new {E} (next_id : Z) (ph : PartHeader) (path : list Z) (size : Z) (metaindex_data : list Z)
    (timestamps_file values_file index_file : PartFile) : res E (Part * Z) :=
  metaindex ← match unmarshal_metaindex_rows metaindex_data with Ok mrs => Ok mrs | _ => Panic end;
  Ok (mkPart next_id ph path size timestamps_file values_file index_file metaindex false, as_u64 (next_id + 1)).

Definition new_part {E} (next_id : Z) (mp : InmemoryPart) : res E (Part * Z) :=
  part_new next_id (mp_ph mp) [] (mp_size mp) (mp_metaindex_data mp) (PfMem (mp_timestamps_data mp)) (PfMem (mp_values_data mp))
    (PfMem (mp_index_data mp)).
End NewPart.

(** ** References to blocks *)

Record BlockRef : Type := mkBlockRef { br_p : Part; br_bh : BlockHeader }.

Definition block_ref_new (p : Part) : BlockRef := mkBlockRef p BlockHeader_default.

Definition br_rows_count (r : BlockRef) : Z := bh_rows_count (br_bh r).

(** [read_block]: the block it leaves in [dst]. *)
Definition br_read_block {Zs : Zstd} (r : BlockRef) : res block_error Block :=
  let bh := br_bh r in
  timestamps_data ← pf_must_read_at (p_timestamps_file (br_p r)) (Z.to_nat (bh_timestamps_block_size bh)) (bh_timestamps_block_offset bh);
  values_data ← pf_must_read_at (p_values_file (br_p r)) (Z.to_nat (bh_values_block_size bh)) (bh_values_block_offset bh);
  unmarshal_block_data bh timestamps_data values_data.

(** ** The search in a part *)

Inductive ps_other : Type :=
| PsCannotDecompress (ph : PartHeader) (offset size : Z) (e : zstd_error)
| PsCannotUnmarshal (ph : PartHeader) (offset size : Z) (e : headers_error).

Inductive ps_error : Type :=
| PsEof
| PsOther (e : ps_other).

(** The buffers for reading index blocks are cleared before every use, so they
    are not part of the state. *)
Record PartSearch : Type := mkPS {
  ps_block_ref : BlockRef;
  ps_p : Part;
  ps_tsids : list Tsid;
  ps_tsid_idx : nat;
  ps_cur_tsid : Tsid;
  ps_tr : TimeRange;
  ps_metaindex_idx : nat;
  ps_bhs : option (list BlockHeader);
  ps_bh_idx : nat;
  ps_err : option ps_error;
}.

(** Updates of the fields. *)
Definition set_err (s : PartSearch) (e : option ps_error) : PartSearch :=
  mkPS (ps_block_ref s) (ps_p s) (ps_tsids s) (ps_tsid_idx s) (ps_cur_tsid s) (ps_tr s) (ps_metaindex_idx s) (ps_bhs s) (ps_bh_idx s) e.
Definition set_tsid (s : PartSearch) (i : nat) (t : Tsid) : PartSearch :=
  mkPS (ps_block_ref s) (ps_p s) (ps_tsids s) i t (ps_tr s) (ps_metaindex_idx s) (ps_bhs s) (ps_bh_idx s) (ps_err s).
Definition set_metaindex_idx (s : PartSearch) (i : nat) : PartSearch :=
  mkPS (ps_block_ref s) (ps_p s) (ps_tsids s) (ps_tsid_idx s) (ps_cur_tsid s) (ps_tr s) i (ps_bhs s) (ps_bh_idx s) (ps_err s).
Definition set_bhs (s : PartSearch) (bhs : option (list BlockHeader)) (i : nat) : PartSearch :=
  mkPS (ps_block_ref s) (ps_p s) (ps_tsids s) (ps_tsid_idx s) (ps_cur_tsid s) (ps_tr s) (ps_metaindex_idx s) bhs i (ps_err s).
Definition set_found (s : PartSearch) (bh : BlockHeader) (i : nat) : PartSearch :=
  mkPS (mkBlockRef (br_p (ps_block_ref s)) bh) (ps_p s) (ps_tsids s) (ps_tsid_idx s) (ps_cur_tsid s) (ps_tr s) (ps_metaindex_idx s)
    (ps_bhs s) i (ps_err s).

Definition bhs_of (s : PartSearch) : list BlockHeader := match ps_bhs s with Some bhs => bhs | None => [] end.

Definition ps_error_msg (s : PartSearch) : option ps_other :=
  match ps_err s with
  | Some (PsOther msg) => Some msg
  | _ => None
  end.

Definition next_tsid (s : PartSearch) : PartSearch * bool :=
  match ps_tsids s !! ps_tsid_idx s with
  | None => (set_err s (Some PsEof), false)
  | Some t => (set_tsid s (S (ps_tsid_idx s)) t, true)
  end.

Definition skip_tsids_smaller_than {E} (s : PartSearch) (tsid : Tsid) : res E (PartSearch * bool) :=
  if tsid_le tsid (ps_cur_tsid s) then Ok (s, true)
  else
    let '(s, more) := next_tsid s in
    if negb more then Ok (s, false)
    else if tsid_le tsid (ps_cur_tsid s) then Ok (s, true)
    else
      tail ← slice_from (ps_tsids s) (ps_tsid_idx s);
      n ← partition_point (fun t => Ok (tsid_less t tsid)) tail;
      let i := (ps_tsid_idx s + n)%nat in
      match ps_tsids s !! i with
      | None => Ok (set_err (set_tsid s (length (ps_tsids s)) (ps_cur_tsid s)) (Some PsEof), false)
      | Some t => Ok (set_tsid s (S i) t, true)
      end.

Definition skip_small_metaindex_rows {E} (metaindex : list MetaindexRow) (start : nat) (tsid : Tsid) : res E nat :=
  mr ← idx metaindex start;
  _ ← assert_ (tsid_le (mr_tsid mr) tsid);
  if metric_id tsid =? metric_id (mr_tsid mr) then Ok start
  else
    tail ← slice_from metaindex start;
    n ← partition_point (fun mr => Ok (tsid_less (mr_tsid mr) tsid)) tail;
    _ ← assert_ (0 <? n)%nat;
    Ok (start + n - 1)%nat.

(** [partSearch::new]. *)
Definition ps_new (p : Part) (tsids : list Tsid) (tr : TimeRange) : PartSearch :=
  let use_tsids := (ph_min_timestamp (p_ph p) <=? tr_max_timestamp tr) && (tr_min_timestamp tr <=? ph_max_timestamp (p_ph p)) in
  fst (next_tsid (mkPS (block_ref_new p) p (if use_tsids then tsids else []) 0 Tsid_default tr 0 None 0 None)).

(** [unmarshal_block_headers] into an empty vector. *)
Definition read_headers_of (index_buf : list Z) (n : nat) : res headers_error (list BlockHeader) :=
  let '(bhs, r) := unmarshal_block_headers [] index_buf n in
  _ ← r; Ok bhs.

Section Search.
  Context {Zs : Zstd} {C : Type} {Co : BlockCacheOps C (list BlockHeader)}.

Definition read_index_block (p : Part) (mr : MetaindexRow) : res ps_error (list BlockHeader) :=
  let offset := mr_index_block_offset mr in
  let size := mr_index_block_size mr in
  compressed ← pf_must_read_at (p_index_file p) (Z.to_nat size) offset;
  index_buf ← map_err (fun e => PsOther (PsCannotDecompress (p_ph p) offset size e)) (decompress_zstd [] compressed);
  map_err (fun e => PsOther (PsCannotUnmarshal (p_ph p) offset size e)) (read_headers_of index_buf (Z.to_nat (mr_block_headers_count mr))).

(** The [while] loop of [next_bhs]: every round moves past a metaindex row, so
    one round per row and one more are enough. *)
Fixpoint next_bhs_loop {E} (fuel : nat) (s : PartSearch) (w : C) : res E (PartSearch * C * bool) :=
  match fuel with
  | O => Panic
  | S fuel =>
      match p_metaindex (ps_p s) !! ps_metaindex_idx s with
      | None => Ok (set_err s (Some PsEof), w, false)
      | Some mr0 =>
          '(s, more) ← skip_tsids_smaller_than s (mr_tsid mr0);
          if negb more then Ok (s, w, false)
          else
            i ← skip_small_metaindex_rows (p_metaindex (ps_p s)) (ps_metaindex_idx s) (ps_cur_tsid s);
            mr ← idx (p_metaindex (ps_p s)) i;
            let s := set_metaindex_idx s (S i) in
            _ ← assert_ (tsid_le (mr_tsid mr) (ps_cur_tsid s));
            if mr_max_timestamp mr <? tr_min_timestamp (ps_tr s) then next_bhs_loop fuel s w
            else if tr_max_timestamp (ps_tr s) <? mr_min_timestamp mr then next_bhs_loop fuel s w
            else
              '(w, r) ← get_or_read (mkKey (p_id (ps_p s)) (mr_index_block_offset mr)) (read_index_block (ps_p s) mr) w;
              match r with
              | inl bhs => Ok (set_bhs s (Some bhs) 0, w, true)
              | inr e => Ok (set_err s (Some e), w, false)
              end
      end
  end.

Definition next_bhs {E} (s : PartSearch) (w : C) : res E (PartSearch * C * bool) :=
  next_bhs_loop (S (length (p_metaindex (ps_p s)) - ps_metaindex_idx s)) s w.

(** The [while] loop of [search_bhs]: every round moves past a header or past
    an identifier of the list. *)
Fixpoint search_bhs_loop {E} (fuel : nat) (s : PartSearch) : res E (PartSearch * bool) :=
  match fuel with
  | O => Panic
  | S fuel =>
      match bhs_of s !! ps_bh_idx s with
      | None => Ok (set_bhs s None 0, false)
      | Some bh0 =>
          skip ← (if tsid_less (bh_tsid bh0) (ps_cur_tsid s) then
                    tail ← slice_from (bhs_of s) (ps_bh_idx s);
                    partition_point (fun bh => Ok (tsid_less (bh_tsid bh) (ps_cur_tsid s))) tail
                  else Ok 0%nat);
          if negb (skip =? 0)%nat && (ps_bh_idx s + skip =? length (bhs_of s))%nat then Ok (set_bhs s None 0, false)
          else
            let s := set_bhs s (ps_bhs s) (ps_bh_idx s + skip) in
            bh ← idx (bhs_of s) (ps_bh_idx s);
            if negb (metric_id (bh_tsid bh) =? metric_id (ps_cur_tsid s)) then
              '(s, more) ← skip_tsids_smaller_than s (bh_tsid bh);
              if negb more then Ok (s, false) else search_bhs_loop fuel s
            else if bh_max_timestamp bh <? tr_min_timestamp (ps_tr s) then
              search_bhs_loop fuel (set_bhs s (ps_bhs s) (S (ps_bh_idx s)))
            else if tr_max_timestamp (ps_tr s) <? bh_min_timestamp bh then
              let '(s, more) := next_tsid s in
              if negb more then Ok (s, false) else search_bhs_loop fuel s
            else Ok (set_found s bh (S (ps_bh_idx s)), true)
      end
  end.

Definition search_bhs {E} (s : PartSearch) : res E (PartSearch * bool) :=
  search_bhs_loop (S ((length (bhs_of s) - ps_bh_idx s) + (length (ps_tsids s) - ps_tsid_idx s))) s.

(** The loop of [next_block]: a round that goes on has used up an index block. *)
Fixpoint next_block_loop {E} (fuel : nat) (s : PartSearch) (w : C) : res E (PartSearch * C * bool) :=
  match fuel with
  | O => Panic
  | S fuel =>
      match ps_err s with
      | Some _ => Ok (s, w, false)
      | None =>
          '(s, w, more) ← (if (length (bhs_of s) <=? ps_bh_idx s)%nat then next_bhs s w else Ok (s, w, true));
          if negb more then Ok (s, w, false)
          else
            '(s, found) ← search_bhs s;
            if found : bool then Ok (s, w, true) else next_block_loop fuel s w
      end
  end.

Definition ps_next_block {E} (s : PartSearch) (w : C) : res E (PartSearch * C * bool) :=
  next_block_loop (S (S (length (p_metaindex (ps_p s)) - ps_metaindex_idx s))) s w.

(** The search in a part is a cursor over block references. *)
#[export] Instance part_cursor : Cursor PartSearch C BlockRef ps_other := {|
  cur_next E := ps_next_block;
  cur_ref s := Some (ps_block_ref s);
  cur_err := ps_error_msg;
|}.
End Search.

(** ** Partitions and tables *)

Definition ref_less (a b : BlockRef) : bool := bh_less (br_bh a) (br_bh b).

(** What a search reads of a partition: its time range, the deleted metric ids
    of its index (an empty set deletes nothing, so the test whether it is empty
    is left out), and the snapshot of its parts. *)
Record PartitionView : Type := mkPartitionView {
  pt_time_range : TimeRange;
  pt_deleted : Z -> bool;
  pt_parts : list Part;
}.

Definition PartitionSearch : Type := Pool PartSearch ps_other.
Definition TableSearch : Type := Pool PartitionSearch (pool_msg ps_other).

Section Pools.
  Context {Zs : Zstd} {C : Type} {Co : BlockCacheOps C (list BlockHeader)}.

Definition filtered_tsids (pt : PartitionView) (tsids : list Tsid) : list Tsid :=
  filter (fun t => pt_deleted pt (metric_id t) = false) tsids.

Definition partition_search_new {E} (pt : PartitionView) (tsids : list Tsid) (tr : TimeRange) (w : C) : res E (PartitionSearch * C) :=
  let eof := mkPool [] [] (Some PoolEof) false in
  if (length tsids =? 0)%nat || negb (overlaps_with (pt_time_range pt) tr) then Ok (eof, w)
  else
    let filtered := filtered_tsids pt tsids in
    if (length filtered =? 0)%nat then Ok (eof, w)
    else pool_start ref_less (map (fun p => ps_new p filtered tr) (pt_parts pt)) w.

Definition pts_next_block {E} (self : PartitionSearch) (w : C) : res E (PartitionSearch * C * bool) := pool_next ref_less self w.
Definition pts_block_ref (self : PartitionSearch) : option BlockRef := pool_ref self.
Definition pts_error (self : PartitionSearch) : option (pool_msg ps_other) := pool_error_msg self.

(** [PartitionSearch] as a member of the table's pool. *)
#[local] Instance partition_cursor : Cursor PartitionSearch C BlockRef (pool_msg ps_other) := pool_cursor ref_less.

Fixpoint partition_searches {E} (pts : list PartitionView) (tsids : list Tsid) (tr : TimeRange) (w : C) : res E (list PartitionSearch * C) :=
  match pts with
  | [] => Ok ([], w)
  | pt :: pts =>
      '(s, w) ← partition_search_new pt tsids tr w;
      '(ss, w) ← partition_searches pts tsids tr w;
      Ok (s :: ss, w)
  end.

(** [now] is the clock, [retention_msecs] the retention of the table. *)
Definition clamp_time_range (now retention_msecs : Z) (tr : TimeRange) : TimeRange :=
  let min_timestamp := i64_sub now retention_msecs in
  if tr_min_timestamp tr <? min_timestamp then mkTimeRange min_timestamp (tr_max_timestamp tr) else tr.

Definition table_search_new {E} (now retention_msecs : Z) (pts : list PartitionView) (tsids : list Tsid) (tr : TimeRange) (w : C)
    : res E (TableSearch * C) :=
  let tr := clamp_time_range now retention_msecs tr in
  if (length tsids =? 0)%nat then Ok (mkPool [] [] (Some PoolEof) false, w)
  else
    '(pool, w) ← partition_searches pts tsids tr w;
    pool_start ref_less pool w.

Definition ts_next_block {E} (self : TableSearch) (w : C) : res E (TableSearch * C * bool) := pool_next ref_less self w.
Definition ts_block_ref (self : TableSearch) : option BlockRef := pool_ref self.
Definition ts_error (self : TableSearch) : option (pool_msg (pool_msg ps_other)) := pool_error_msg self.
End Pools.
