(* ===== verification/DataSearchSpec.v ===== *)
(** * Search in the data parts: correctness

    The search of [DataSearch] yields exactly the blocks of the part that
    belong to one of the given series and whose time range meets the given
    one, in the order of the part. *)
From Stdlib Require Import ZArith Lia Bool Sorted Permutation.
From S2P Require Import Prelude IntCodec Compress ArrayCodec Heap TimeRange BlockCache SearchBase PoolSearch Tsid BlockHeader Block BlockStream DataSearch.
Local Open Scope Z_scope.

(** ** Wanted blocks *)

Definition header_key (bh : BlockHeader) : list Z := tsid_key (bh_tsid bh) ++ [bh_min_timestamp bh].

Definition sorted_by_key (hs : list BlockHeader) : Prop := StronglySorted (fun a b => Is_true (lex_leb (header_key a) (header_key b))) hs.

Definition in_range (tr : TimeRange) (h : BlockHeader) : bool :=
  (tr_min_timestamp tr <=? bh_max_timestamp h) && (bh_min_timestamp h <=? tr_max_timestamp tr).

(** The blocks a search for the series [ts] in the range [tr] is after. *)
Definition wanted (ts : list Tsid) (tr : TimeRange) (h : BlockHeader) : Prop := In (bh_tsid h) ts /\ in_range tr h = true.
#[export] Instance wanted_dec ts tr h : Decision (wanted ts tr h).
Proof.
  destruct (decide (bh_tsid h ∈ ts)) as [H|H]; rewrite list_elem_of_In in H; [|right; by intros [? _]].
  destruct (decide (in_range tr h = true)); [by left|right; by intros [_ ?]].
Defined.

Definition matching (ts : list Tsid) (tr : TimeRange) (hs : list BlockHeader) : list BlockHeader := filter (wanted ts tr) hs.

Lemma matching_app ts tr a b : matching ts tr (a ++ b) = matching ts tr a ++ matching ts tr b.
Proof. apply filter_app. Qed.

Lemma matching_none ts tr hs : (forall h, In h hs -> ~ wanted ts tr h) -> matching ts tr hs = [].
Proof.
  intros H. induction hs as [|h hs IH]; [done|]. unfold matching. rewrite filter_cons, decide_False by (apply H; by left).
  apply IH. intros h' Hh'. apply H. by right.
Qed.

Lemma matching_ext ts ts' tr hs : (forall h, In h hs -> wanted ts tr h <-> wanted ts' tr h) -> matching ts tr hs = matching ts' tr hs.
Proof.
  intros H. unfold matching. induction hs as [|h hs IH]; [done|]. rewrite !filter_cons, IH by (intros h' Hh'; apply H; by right).
  destruct (decide (wanted ts tr h)) as [Hw|Hw], (decide (wanted ts' tr h)) as [Hw'|Hw']; rewrite (H h) in Hw by (by left); tauto.
Qed.

Lemma matching_cons ts tr h hs :
  matching ts tr (h :: hs) = if decide (wanted ts tr h) then h :: matching ts tr hs else matching ts tr hs.
Proof. unfold matching. apply filter_cons. Qed.

Lemma less_le_false a b : tsid_less a b = true -> Is_true (tsid_le b a) -> False.
Proof. rewrite tsid_less_le, negb_true_iff. intros ->. done. Qed.

(** Series below all blocks do not matter. *)
Lemma matching_skip l1 l2 tr hs t :
  Forall (fun x => tsid_less x t = true) l1 -> Forall (fun h => Is_true (tsid_le t (bh_tsid h))) hs -> matching (l1 ++ l2) tr hs = matching l2 tr hs.
Proof.
  intros H1 H2. apply matching_ext. intros h Hh. unfold wanted. rewrite in_app_iff. split; [|tauto]. intros [[Hin|Hin] Hr]; [|done].
  exfalso. exact (less_le_false _ _ (proj1 (Forall_In _ _) H1 _ Hin) (proj1 (Forall_In _ _) H2 _ Hh)).
Qed.

Lemma not_le_less a b : tsid_le a b = false -> tsid_less b a = true.
Proof. rewrite tsid_less_le. by intros ->. Qed.

Lemma less_le a b : tsid_less a b = true -> Is_true (tsid_le a b).
Proof.
  rewrite tsid_less_le, negb_true_iff. intros H. destruct (lex_leb_total (tsid_key a) (tsid_key b)) as [Hl|Hl]; [done|]. unfold tsid_le in H. by rewrite H in Hl.
Qed.

Lemma less_le_trans a b c : tsid_less a b = true -> Is_true (tsid_le b c) -> tsid_less a c = true.
Proof.
  intros Hab Hbc. destruct (tsid_less a c) eqn:H; [done|]. rewrite tsid_less_le, negb_false_iff in H. exfalso. apply (less_le_false a b Hab).
  eapply tsid_le_trans; [exact Hbc|]. by rewrite H.
Qed.

Lemma key_tsid_le a b : lex_leb (header_key a) (header_key b) -> tsid_le (bh_tsid a) (bh_tsid b).
Proof.
  unfold header_key, tsid_le, tsid_key, lex_leb. cbn [app lex_compare].
  repeat match goal with |- context [?x ?= ?y] => destruct (x ?= y); try done end.
Qed.

Lemma key_min_le a b : lex_leb (header_key a) (header_key b) -> bh_tsid a = bh_tsid b -> bh_min_timestamp a <= bh_min_timestamp b.
Proof.
  intros H He. unfold header_key, tsid_key, lex_leb in H. rewrite He in H. cbn [app lex_compare] in H. rewrite !Z.compare_refl in H.
  destruct (Z.compare_spec (bh_min_timestamp a) (bh_min_timestamp b)); [lia|lia|done].
Qed.

Lemma matching_skip_all l tr hs t :
  Forall (fun x => tsid_less x t = true) l -> Forall (fun h => Is_true (tsid_le t (bh_tsid h))) hs -> matching l tr hs = [].
Proof.
  intros H1 H2. rewrite <-(app_nil_r l), (matching_skip l [] tr hs t) by done. apply matching_none. by intros h _ [].
Qed.

(** ** The walk over the index *)

(** A metaindex row and its index block. *)
Definition row_covers (r : MetaindexRow) (g : list BlockHeader) : Prop :=
  (exists h t, g = h :: t /\ mr_tsid r = bh_tsid h) /\
  forall x, In x g -> mr_min_timestamp r <= bh_min_timestamp x /\ bh_max_timestamp x <= mr_max_timestamp r.

(** Metric ids determine identifiers. *)
Definition known (tsid_for : Z -> Tsid) (t : Tsid) : Prop := tsid_for (metric_id t) = t.

Lemma known_eq f a b : known f a -> known f b -> metric_id a = metric_id b -> a = b.
Proof. unfold known. intros Ha Hb He. by rewrite <-Ha, <-Hb, He. Qed.

Section Walk.
  Context (p : Part) (groups : list (list BlockHeader)) (tr : TimeRange) (tsid_for : Z -> Tsid).
  Context (rows_ok : Forall2 row_covers (p_metaindex p) groups).
  Context (sorted : sorted_by_key (concat groups)).
  Context (known_headers : Forall (fun h => known tsid_for (bh_tsid h)) (concat groups)).

(** The series not given up yet, and the blocks not passed yet. *)
Definition series_left (s : PartSearch) : list Tsid := ps_cur_tsid s :: drop (ps_tsid_idx s) (ps_tsids s).
Definition blocks_left (s : PartSearch) : list BlockHeader := drop (ps_bh_idx s) (bhs_of s) ++ concat (drop (ps_metaindex_idx s) groups).

Record walking (s : PartSearch) (R : list BlockHeader) : Prop := {
  wk_part : ps_p s = p;
  wk_ref : br_p (ps_block_ref s) = p;
  wk_range : ps_tr s = tr;
  wk_err : ps_err s = None;
  wk_sorted : StronglySorted (fun a b => Is_true (tsid_le a b)) (series_left s);
  wk_known : Forall (known tsid_for) (series_left s);
  wk_block : (length (bhs_of s) <= ps_bh_idx s)%nat \/ exists i, ps_metaindex_idx s = S i /\ groups !! i = Some (bhs_of s);
  wk_left : R = matching (series_left s) tr (blocks_left s);
}.

(** The part search has the blocks [R] left. *)
Definition search_left (s : PartSearch) (R : list BlockHeader) : Prop := walking s R \/ (ps_err s = Some PsEof /\ R = []).

Lemma blocks_left_suffix s R : walking s R -> exists pre, concat groups = pre ++ blocks_left s.
Proof.
  intros H. unfold blocks_left. destruct (wk_block _ _ H) as [Hb|(i & Hi & Hg)].
  - rewrite (drop_ge (bhs_of s)) by done. exists (concat (take (ps_metaindex_idx s) groups)). by rewrite app_nil_l, <-concat_app, take_drop.
  - exists (concat (take i groups) ++ take (ps_bh_idx s) (bhs_of s)). rewrite Hi, <-app_assoc, (app_assoc (take _ (bhs_of s))), take_drop.
    rewrite <-(take_drop_middle _ _ _ Hg) at 1. by rewrite concat_app.
Qed.

Lemma blocks_left_ok s R :
  walking s R -> sorted_by_key (blocks_left s) /\ Forall (fun h => known tsid_for (bh_tsid h)) (blocks_left s).
Proof.
  intros H. destruct (blocks_left_suffix s R H) as [pre Hpre]. pose proof sorted as Hs. pose proof known_headers as Hk.
  rewrite Hpre in Hs, Hk. apply StronglySorted_app in Hs as (_ & _ & Hs). apply Forall_app in Hk as [_ Hk]. done.
Qed.

(** All blocks from the first one on have at least its series. *)
Lemma sorted_head_le h hs : sorted_by_key (h :: hs) -> Forall (fun x => Is_true (tsid_le (bh_tsid h) (bh_tsid x))) (h :: hs).
Proof.
  intros H. apply StronglySorted_inv in H as [_ H]. constructor; [apply tsid_le_refl|]. revert H. apply Forall_weaken. intros x. apply key_tsid_le.
Qed.

(** Giving up the series [l1] that no block left has. *)
Lemma walking_series s s' R l1 t :
  walking s R -> Forall (fun h => Is_true (tsid_le t (bh_tsid h))) (blocks_left s) ->
  Forall (fun x => tsid_less x t = true) l1 -> series_left s = l1 ++ series_left s' -> blocks_left s' = blocks_left s ->
  ps_p s' = ps_p s -> ps_block_ref s' = ps_block_ref s -> ps_tr s' = ps_tr s -> ps_err s' = ps_err s -> bhs_of s' = bhs_of s ->
  ps_bh_idx s' = ps_bh_idx s -> ps_metaindex_idx s' = ps_metaindex_idx s -> walking s' R.
Proof.
  intros [H1 H2 H3 H4 H5 H6 H7 H8] Hge Hl1 Hs Hb Hp Hr Htr He Hbh Hbi Hm. rewrite Hs in H5, H6. apply StronglySorted_app in H5 as (_ & _ & H5).
  apply Forall_app in H6 as [_ H6]. split; try congruence.
  - rewrite Hbh, Hbi, Hm. done.
  - rewrite H8, Hs, Hb. by apply (matching_skip _ _ _ _ t).
Qed.

(** [skip_tsids_smaller_than] when no block left is below [t]. *)
Lemma skip_tsids_ok {E} s R t :
  walking s R -> Forall (fun h => Is_true (tsid_le t (bh_tsid h))) (blocks_left s) ->
  exists s' more, skip_tsids_smaller_than (E := E) s t = Ok (s', more) /\
    ps_metaindex_idx s' = ps_metaindex_idx s /\ bhs_of s' = bhs_of s /\ ps_bh_idx s' = ps_bh_idx s /\ ps_tsids s' = ps_tsids s /\
    (if more then walking s' R /\ Is_true (tsid_le t (ps_cur_tsid s')) /\
       (ps_tsid_idx s <= ps_tsid_idx s' <= length (ps_tsids s) \/ s' = s)%nat /\ (tsid_le t (ps_cur_tsid s) = false -> (ps_tsid_idx s < ps_tsid_idx s' <= length (ps_tsids s))%nat)
     else ps_err s' = Some PsEof /\ R = []).
Proof.
  intros Hw Hge. unfold skip_tsids_smaller_than. destruct (tsid_le t (ps_cur_tsid s)) eqn:Hle.
  { exists s, true. do 5 (split; [done|]). split_and!; [done|by rewrite Hle|by right|done]. }
  apply not_le_less in Hle as Hlt. unfold next_tsid. destruct (ps_tsids s !! ps_tsid_idx s) as [t1|] eqn:Ht1; cbn [negb].
  2:{ eexists _, false. do 5 (split; [done|]). split; [done|]. rewrite (wk_left _ _ Hw). unfold series_left.
      rewrite drop_ge by (by apply lookup_ge_None). apply (matching_skip_all [ps_cur_tsid s] _ _ t); [by constructor|done]. }
  set (s1 := set_tsid s (S (ps_tsid_idx s)) t1). pose proof (lookup_lt_Some _ _ _ Ht1) as Hlt1.
  assert (Hs1 : series_left s = [ps_cur_tsid s] ++ series_left s1).
  { unfold series_left, s1. cbn. f_equal. by rewrite (drop_S _ _ _ Ht1). }
  cbn [ps_cur_tsid set_tsid ps_tsid_idx ps_tsids]. change (ps_cur_tsid s1) with t1. destruct (tsid_le t t1) eqn:Hle1.
  { exists s1, true. do 5 (split; [done|]). split_and!; [|cbn; by rewrite Hle1|left; cbn; lia|cbn; lia].
    eapply (walking_series s s1 R [ps_cur_tsid s] t); try done. by constructor. }
  apply not_le_less in Hle1 as Hlt1'. cbn [s1 set_tsid ps_tsids ps_tsid_idx ps_cur_tsid]. unfold slice_from. rewrite decide_True, bind_Ok by lia.
  rewrite (partition_point_ok (fun x => tsid_less x t)), bind_Ok by (by apply Forall_In). set (tail := drop _ (ps_tsids s)).
  set (n := prefix_len _ tail). pose proof (prefix_len_take (fun x => tsid_less x t) tail) as Hpre. fold n in Hpre.
  destruct (ps_tsids s !! (S (ps_tsid_idx s) + n)%nat) as [t2|] eqn:Ht2.
  - set (s2 := set_tsid s1 _ t2). exists s2, true. do 5 (split; [done|]). pose proof (lookup_lt_Some _ _ _ Ht2) as Hlt2.
    assert (Htail : tail !! n = Some t2) by (unfold tail; by rewrite lookup_drop).
    split_and!.
    + eapply (walking_series s s2 R ([ps_cur_tsid s; t1] ++ take n tail) t); try done.
      * apply Forall_app. split; [by repeat constructor|done].
      * rewrite Hs1. unfold series_left at 1, s1. cbn [set_tsid ps_cur_tsid ps_tsid_idx ps_tsids]. fold tail. rewrite <-(take_drop n tail) at 1.
        rewrite (drop_S _ _ _ Htail). unfold series_left, s2. cbn [set_tsid ps_cur_tsid ps_tsid_idx ps_tsids s1]. unfold tail at 2. rewrite drop_drop.
        replace (S (ps_tsid_idx s) + S n)%nat with (S (S (ps_tsid_idx s) + n)) by lia. by rewrite <-app_assoc.
    + pose proof (prefix_len_head _ _ _ Htail) as Hh. cbn beta in Hh. rewrite tsid_less_le, negb_false_iff in Hh. cbn. by rewrite Hh.
    + left. cbn. lia.
    + cbn. lia.
  - eexists _, false. do 5 (split; [done|]). split; [done|]. rewrite (wk_left _ _ Hw), Hs1. unfold series_left, s1. cbn [set_tsid ps_cur_tsid ps_tsid_idx ps_tsids]. fold tail.
    assert (Hall : take n tail = tail).
    { apply take_ge. unfold tail. rewrite length_drop. apply lookup_ge_None in Ht2. lia. }
    rewrite Hall in Hpre. apply (matching_skip_all _ _ _ t); [|done]. cbn [app]. by repeat constructor.
Qed.

(** Passing blocks that are not wanted. *)
Lemma walking_blocks s s' R pre :
  walking s R -> blocks_left s = pre ++ blocks_left s' -> matching (series_left s) tr pre = [] -> series_left s' = series_left s ->
  ps_p s' = ps_p s -> ps_block_ref s' = ps_block_ref s -> ps_tr s' = ps_tr s -> ps_err s' = ps_err s ->
  ((length (bhs_of s') <= ps_bh_idx s')%nat \/ exists i, ps_metaindex_idx s' = S i /\ groups !! i = Some (bhs_of s')) -> walking s' R.
Proof.
  intros [H1 H2 H3 H4 H5 H6 H7 H8] Hb Hpre Hser Hp Hr Htr He Hblk. split; rewrite ?Hser; [congruence..|done|done|done|]. by rewrite H8, Hb, matching_app, Hpre.
Qed.

(** Blocks of series below the current one are not wanted. *)
Lemma below_current s R pre :
  walking s R -> Forall (fun h => tsid_less (bh_tsid h) (ps_cur_tsid s) = true) pre -> matching (series_left s) tr pre = [].
Proof.
  intros Hw Hpre. apply matching_none. intros h Hh [Hin _]. pose proof (proj1 (Forall_In _ _) Hpre h Hh) as Hlt.
  pose proof (wk_sorted _ _ Hw) as Hs. unfold series_left in Hin, Hs. apply StronglySorted_inv in Hs as [_ Hs].
  apply (less_le_false _ _ Hlt). destruct Hin as [<-|Hin]; [apply tsid_le_refl|]. exact (proj1 (Forall_In _ _) Hs _ Hin).
Qed.

Lemma current_known s R : walking s R -> known tsid_for (ps_cur_tsid s).
Proof. intros Hw. pose proof (wk_known _ _ Hw) as Hk. by apply Forall_cons in Hk as [Hk _]. Qed.

Lemma bhs_set s i : bhs_of (set_bhs s (ps_bhs s) i) = bhs_of s.
Proof. done. Qed.
Lemma bhs_tsid s i t : bhs_of (set_tsid s i t) = bhs_of s.
Proof. done. Qed.
Lemma bhs_found s bh i : bhs_of (set_found s bh i) = bhs_of s.
Proof. done. Qed.

Lemma series_found s bh i : series_left (set_found s bh i) = series_left s.
Proof. done. Qed.

(** What is left of [search_bhs] after a round: the measure. *)
Definition work (s : PartSearch) : nat := (length (bhs_of s) - ps_bh_idx s) + (length (ps_tsids s) - ps_tsid_idx s).

(** The result of the search in an index block. *)
Definition searched (s s' : PartSearch) (found : bool) (R : list BlockHeader) : Prop :=
  ps_metaindex_idx s' = ps_metaindex_idx s /\
  if found then exists h R', R = h :: R' /\ ps_block_ref s' = mkBlockRef p h /\ walking s' R'
  else (ps_err s' = Some PsEof /\ R = []) \/ (walking s' R /\ bhs_of s' = []).

Lemma search_done s R : walking s R -> (length (bhs_of s) <= ps_bh_idx s)%nat -> searched s (set_bhs s None 0) false R.
Proof.
  intros Hw Hge. split; [done|]. right. split; [|done]. apply (walking_blocks s _ R []); try done; [|by left].
  unfold blocks_left. by rewrite (drop_ge (bhs_of s)) by done.
Qed.

(** Skipping the headers below the current series. *)
Lemma skip_headers s R bh0 :
  walking s R -> bhs_of s !! ps_bh_idx s = Some bh0 ->
  let n := if tsid_less (bh_tsid bh0) (ps_cur_tsid s)
           then prefix_len (fun bh => tsid_less (bh_tsid bh) (ps_cur_tsid s)) (drop (ps_bh_idx s) (bhs_of s)) else 0%nat in
  let s1 := set_bhs s (ps_bhs s) (ps_bh_idx s + n) in
  walking s1 R /\ (ps_bh_idx s + n <= length (bhs_of s))%nat /\ (n = 0%nat -> (ps_bh_idx s + n < length (bhs_of s))%nat) /\
  forall bh, bhs_of s !! (ps_bh_idx s + n)%nat = Some bh -> tsid_le (ps_cur_tsid s) (bh_tsid bh).
Proof.
  intros Hw Hbh n s1. set (f := fun bh => tsid_less (bh_tsid bh) (ps_cur_tsid s)) in *. set (l := drop (ps_bh_idx s) (bhs_of s)) in *.
  pose proof (lookup_lt_Some _ _ _ Hbh) as Hlt. assert (Hl0 : l !! 0%nat = Some bh0) by (unfold l; by rewrite lookup_drop, Nat.add_0_r).
  assert (Hn : n = prefix_len f l).
  { unfold n. destruct (tsid_less (bh_tsid bh0) (ps_cur_tsid s)) eqn:Hb; [done|]. destruct l as [|x l']; [done|]. injection Hl0 as ->. cbn. unfold f. by rewrite Hb. }
  pose proof (prefix_len_le f l) as Hle. assert (Hll : length l = (length (bhs_of s) - ps_bh_idx s)%nat) by (unfold l; by rewrite length_drop).
  split_and!.
  - apply (walking_blocks s s1 R (take n l)); try done.
    + unfold blocks_left. cbn [s1 set_bhs ps_bh_idx ps_metaindex_idx]. change (bhs_of s1) with (bhs_of s). fold l. rewrite app_assoc. f_equal.
      rewrite <-(take_drop n l) at 1. f_equal. unfold l. by rewrite drop_drop.
    + eapply below_current; [done|]. rewrite Hn. apply prefix_len_take.
    + destruct (wk_block _ _ Hw) as [?|Hg]; [lia|by right].
  - lia.
  - intros H0. lia.
  - intros bh Hb. assert (Hlb : l !! prefix_len f l = Some bh) by (unfold l; rewrite lookup_drop; fold l; by rewrite <-Hn).
    apply prefix_len_head in Hlb. unfold f in Hlb. rewrite tsid_less_le, negb_false_iff in Hlb. by rewrite Hlb.
Qed.

(** Nothing left of the current series is in the range. *)
Lemma past_range s R bh :
  walking s R -> bhs_of s !! ps_bh_idx s = Some bh -> bh_tsid bh = ps_cur_tsid s -> tr_max_timestamp tr < bh_min_timestamp bh ->
  matching (series_left s) tr (blocks_left s) = matching (drop (ps_tsid_idx s) (ps_tsids s)) tr (blocks_left s).
Proof.
  intros Hw Hbh He Hmin. destruct (blocks_left_ok s R Hw) as [Hs _]. apply matching_ext. intros h Hh. unfold wanted, series_left. cbn [In].
  split; [|tauto]. intros [[Heq|Hin] Hr]; [|done]. exfalso.
  assert (Hb : exists rest, blocks_left s = bh :: rest) by (unfold blocks_left; rewrite (drop_S _ _ _ Hbh); by eexists).
  destruct Hb as [rest Hb]. rewrite Hb in Hh, Hs. assert (Hle : lex_leb (header_key bh) (header_key h)).
  { destruct Hh as [<-|Hh]; [by rewrite lex_leb_refl|]. apply StronglySorted_inv in Hs as [_ Hs]. exact (proj1 (Forall_In _ _) Hs _ Hh). }
  apply key_min_le in Hle; [|congruence]. unfold in_range in Hr. apply andb_true_iff in Hr as [_ Hr]. lia.
Qed.

Lemma search_bhs_ok {E} fuel : forall s R,
  walking s R -> (work s < fuel)%nat -> exists s' found, search_bhs_loop (E := E) fuel s = Ok (s', found) /\ searched s s' found R.
Proof.
  induction fuel as [|fuel IH]; intros s R Hw Hf; [lia|]. cbn [search_bhs_loop]. destruct (bhs_of s !! ps_bh_idx s) as [bh0|] eqn:Hbh0.
  2:{ eexists _, false. split; [done|]. apply search_done; [done|]. by apply lookup_ge_None. }
  pose proof (lookup_lt_Some _ _ _ Hbh0) as Hlt0. destruct (skip_headers s R bh0 Hw Hbh0) as (Hw1 & Hle1 & Hz1 & Hge1).
  set (n := if tsid_less (bh_tsid bh0) (ps_cur_tsid s)
    then prefix_len (fun bh => tsid_less (bh_tsid bh) (ps_cur_tsid s)) (drop (ps_bh_idx s) (bhs_of s)) else 0%nat) in *.
  assert (Hskip : (if tsid_less (bh_tsid bh0) (ps_cur_tsid s) then
      tail ← slice_from (bhs_of s) (ps_bh_idx s); partition_point (fun bh => Ok (tsid_less (bh_tsid bh) (ps_cur_tsid s))) tail
      else Ok 0%nat) = Ok (E := E) n).
  { unfold n. destruct (tsid_less _ _); [|done]. unfold slice_from. rewrite decide_True, bind_Ok by lia.
    by rewrite (partition_point_ok (fun bh => tsid_less (bh_tsid bh) (ps_cur_tsid s))) by (by apply Forall_In). }
  rewrite Hskip, bind_Ok. clearbody n. set (s1 := set_bhs s (ps_bhs s) (ps_bh_idx s + n)) in *.
  assert (Hsame : forall s' found, searched s1 s' found R -> searched s s' found R) by done.
  destruct (decide (ps_bh_idx s + n = length (bhs_of s))%nat) as [Hend|Hend].
  { assert (n <> 0%nat) by lia. rewrite (proj2 (Nat.eqb_neq _ _)), (proj2 (Nat.eqb_eq _ _)) by done. cbn [negb andb].
    eexists _, false. split; [done|]. apply Hsame. apply (search_done s1 R Hw1). change (length (bhs_of s) <= ps_bh_idx s + n)%nat. lia. }
  rewrite (proj2 (Nat.eqb_neq (ps_bh_idx s + n) _)), andb_false_r by done. fold s1. change (bhs_of s1) with (bhs_of s). cbn [s1 set_bhs ps_bh_idx]. fold s1.
  destruct (lookup_lt_is_Some_2 (bhs_of s) (ps_bh_idx s + n)%nat) as [bh Hbh]; [lia|]. rewrite (idx_Some _ _ _ Hbh), bind_Ok.
  specialize (Hge1 bh Hbh). destruct (blocks_left_ok s1 R Hw1) as [Hs1 Hk1].
  assert (Hb1 : exists rest, blocks_left s1 = bh :: rest) by (unfold blocks_left; cbn [s1 set_bhs ps_bh_idx]; change (bhs_of s1) with (bhs_of s); rewrite (drop_S _ _ _ Hbh); by eexists).
  destruct Hb1 as [rest Hb1]. change (ps_cur_tsid s1) with (ps_cur_tsid s). change (ps_tr s1) with (ps_tr s). rewrite (wk_range _ _ Hw).
  assert (Hwork1 : (work s1 <= work s)%nat) by (unfold work; change (bhs_of s1) with (bhs_of s); cbn [s1 set_bhs ps_bh_idx ps_tsids ps_tsid_idx]; lia).
  assert (Hkb : known tsid_for (bh_tsid bh)) by (rewrite Hb1 in Hk1; by apply Forall_cons in Hk1 as [Hk1 _]).
  destruct (Z.eqb_spec (metric_id (bh_tsid bh)) (metric_id (ps_cur_tsid s))) as [Heq|Hne]; cbn [negb].
  2:{ assert (Hall : Forall (fun h => Is_true (tsid_le (bh_tsid bh) (bh_tsid h))) (blocks_left s1)) by (rewrite Hb1 in Hs1 |- *; by apply sorted_head_le).
      destruct (skip_tsids_ok (E := E) s1 R (bh_tsid bh) Hw1 Hall) as (s2 & more & -> & Hm & Hbhs & Hidx & Hts & Hmore). rewrite bind_Ok. destruct more; cbn [negb].
      - destruct Hmore as (Hw2 & _ & _ & Hprog). destruct (IH s2 R Hw2) as (s' & found & -> & Hsd).
        + assert (Hlt : tsid_le (bh_tsid bh) (ps_cur_tsid s1) = false).
          { apply negb_true_iff. rewrite <-tsid_less_le. apply Is_true_true. apply tsid_le_less; [done|]. intros He. apply Hne. by rewrite <-He. }
          specialize (Hprog Hlt). unfold work in *. rewrite Hbhs, Hidx, Hts. change (bhs_of s1) with (bhs_of s) in *. lia.
        + exists s', found. split; [done|]. destruct Hsd as [Hmi Hsd]. split; [by rewrite Hmi, Hm|done].
      - exists s2, false. split; [done|]. split; [by rewrite Hm|]. by left. }
  assert (Hcur : bh_tsid bh = ps_cur_tsid s) by (eapply known_eq; [done|by eapply current_known|done]).
  assert (Hpass : forall s2, walking s2 R -> ps_metaindex_idx s2 = ps_metaindex_idx s -> (work s2 < work s1)%nat ->
    exists s' found, search_bhs_loop (E := E) fuel s2 = Ok (s', found) /\ searched s s' found R).
  { intros s2 Hw2 Hm2 Hwk. destruct (IH s2 R Hw2 ltac:(lia)) as (s' & found & -> & [Hmi Hsd]). exists s', found. split; [done|]. split; [by rewrite Hmi|done]. }
  assert (Hlb : (ps_bh_idx s + n < length (bhs_of s))%nat) by lia.
  destruct (Z.ltb_spec (bh_max_timestamp bh) (tr_min_timestamp tr)) as [Hmax|Hmax].
  { apply Hpass; [|done|unfold work; rewrite bhs_set; cbn [s1 set_bhs ps_bh_idx ps_tsids ps_tsid_idx]; fold s1; change (bhs_of s1) with (bhs_of s); lia]. apply (walking_blocks s1 _ R [bh]); try done; [| |destruct (wk_block _ _ Hw) as [?|Hg]; [lia|by right]].
    - unfold blocks_left. rewrite bhs_set. cbn [s1 set_bhs ps_bh_idx ps_metaindex_idx]. fold s1. change (bhs_of s1) with (bhs_of s). by rewrite (drop_S _ _ _ Hbh).
    - apply matching_none. intros h [<-|[]] [_ Hr]. unfold in_range in Hr. apply andb_true_iff in Hr as [Hr _]. lia. }
  destruct (Z.ltb_spec (tr_max_timestamp tr) (bh_min_timestamp bh)) as [Hmin|Hmin].
  - pose proof (past_range s1 R bh Hw1 Hbh Hcur Hmin) as Hpast. unfold next_tsid. destruct (ps_tsids s1 !! ps_tsid_idx s1) as [t|] eqn:Ht; cbn [negb].
    + pose proof (lookup_lt_Some _ _ _ Ht) as Hltt. apply Hpass; [|done|unfold work; rewrite bhs_tsid; cbn [set_tsid ps_bh_idx ps_tsids ps_tsid_idx]; cbn in Hltt |- *; lia].
      assert (Hser : series_left (set_tsid s1 (S (ps_tsid_idx s1)) t) = drop (ps_tsid_idx s1) (ps_tsids s1)) by (unfold series_left; cbn [set_tsid ps_cur_tsid ps_tsid_idx ps_tsids]; by rewrite (drop_S _ _ _ Ht)).
      destruct Hw1 as [H1 H2 H3 H4 H5 H6 H7 H8]. unfold series_left in H5, H6. apply StronglySorted_inv in H5 as [H5 _]. apply Forall_cons in H6 as [_ H6].
      split; try done; rewrite Hser; [done|done|]. by rewrite H8, Hpast.
    + eexists _, false. split; [done|]. split; [done|]. left. split; [done|]. rewrite (wk_left _ _ Hw1), Hpast. rewrite drop_ge by (by apply lookup_ge_None).
      apply matching_none. by intros h _ [].
  - eexists _, true. split; [done|]. split; [done|]. exists bh, (matching (series_left s) tr rest).
    assert (Hwant : wanted (series_left s) tr bh) by (split; [by left|]; unfold in_range; apply andb_true_iff; lia).
    split_and!.
    + rewrite (wk_left _ _ Hw1), Hb1, matching_cons. change (series_left s1) with (series_left s). by rewrite decide_True.
    + cbn. by rewrite (wk_ref _ _ Hw).
    + destruct Hw1 as [H1 H2 H3 H4 H5 H6 H7 H8]. split; try done; [destruct (wk_block _ _ Hw) as [?|Hg]; [lia|by right]|]. rewrite series_found. change (series_left s1) with (series_left s). f_equal.
      unfold blocks_left in Hb1 |- *. rewrite bhs_found. change (bhs_of s1) with (bhs_of s) in Hb1 |- *. cbn [set_found set_bhs ps_bh_idx ps_metaindex_idx s1] in Hb1 |- *.
      rewrite (drop_S _ _ _ Hbh) in Hb1. by injection Hb1 as <-.
Qed.

(** *** The next index block *)

  Context {Zs : Zstd} {C : Type} {Co : BlockCacheOps C (list BlockHeader)} (world : C -> Prop).
  Context (load : forall E w i mr g, world w -> p_metaindex p !! i = Some mr -> groups !! i = Some g ->
    exists w', get_or_read (E := E) (mkKey (p_id p) (mr_index_block_offset mr)) (read_index_block p mr) w = Ok (w', inl g) /\ world w').

Lemma row_at i mr : p_metaindex p !! i = Some mr -> exists g, groups !! i = Some g /\ row_covers mr g.
Proof. intros Hi. exact (Forall2_lookup_l _ _ _ _ _ rows_ok Hi). Qed.

(** The blocks from index block [i] on are not below its row. *)
Lemma row_first i mr : p_metaindex p !! i = Some mr -> Forall (fun h => Is_true (tsid_le (mr_tsid mr) (bh_tsid h))) (concat (drop i groups)).
Proof.
  intros Hi. destruct (row_at i mr Hi) as (g & Hg & (h & t & -> & ->) & _). rewrite (drop_S _ _ _ Hg). cbn [concat app]. apply sorted_head_le.
  pose proof sorted as Hs. rewrite <-(take_drop i groups), concat_app in Hs. apply StronglySorted_app in Hs as (_ & _ & Hs). by rewrite (drop_S _ _ _ Hg) in Hs.
Qed.

(** Index blocks before a row below [t] hold no block of [t] or a later series. *)
Lemma rows_before i j mr t :
  (i <= j)%nat -> p_metaindex p !! j = Some mr -> tsid_less (mr_tsid mr) t = true ->
  Forall (fun h => tsid_less (bh_tsid h) t = true) (concat (take (j - i) (drop i groups))).
Proof.
  intros Hij Hj Hlt. destruct (row_at j mr Hj) as (g & Hg & (h & tl & -> & He) & _). apply Forall_In. intros x Hx.
  assert (Hs : concat (drop i groups) = concat (take (j - i) (drop i groups)) ++ concat (drop j groups)).
  { rewrite <-concat_app. f_equal. replace j with (i + (j - i))%nat at 2 by lia. rewrite <-drop_drop. by rewrite take_drop. }
  pose proof sorted as Hsort. rewrite <-(take_drop i groups), concat_app in Hsort. apply StronglySorted_app in Hsort as (_ & _ & Hsort).
  rewrite Hs in Hsort. apply StronglySorted_app in Hsort as (Hrel & _ & _). rewrite (drop_S _ _ _ Hg) in Hrel.
  specialize (Hrel x h ltac:(by apply list_elem_of_In) ltac:(by left)). apply key_tsid_le in Hrel. rewrite <-He in Hrel.
  destruct (tsid_less (bh_tsid x) t) eqn:H; [done|]. exfalso. rewrite tsid_less_le, negb_false_iff in H. apply (less_le_false _ _ Hlt).
  eapply tsid_le_trans; [|exact Hrel]. by rewrite H.
Qed.

(** The row the search starts at for the current series. *)
Lemma skip_rows_ok {E} i mr0 t :
  p_metaindex p !! i = Some mr0 -> tsid_le (mr_tsid mr0) t -> known tsid_for t ->
  exists j mr, skip_small_metaindex_rows (E := E) (p_metaindex p) i t = Ok j /\ (i <= j)%nat /\ p_metaindex p !! j = Some mr /\
    tsid_le (mr_tsid mr) t /\ Forall (fun h => tsid_less (bh_tsid h) t = true) (concat (take (j - i) (drop i groups))).
Proof.
  intros Hi Hle Hk. unfold skip_small_metaindex_rows. rewrite (idx_Some _ _ _ Hi), bind_Ok, assert_true, bind_Ok by (by apply Is_true_true).
  destruct (Z.eqb_spec (metric_id t) (metric_id (mr_tsid mr0))) as [Heq|Hne].
  { exists i, mr0. rewrite Nat.sub_diag. by split_and!; [..|constructor]. }
  pose proof (lookup_lt_Some _ _ _ Hi) as Hlt. unfold slice_from. rewrite decide_True, bind_Ok by lia.
  rewrite (partition_point_ok (fun mr => tsid_less (mr_tsid mr) t)), bind_Ok by (by apply Forall_In).
  set (f := fun mr => tsid_less (mr_tsid mr) t). set (l := drop i (p_metaindex p)). set (n := prefix_len f l).
  assert (Hl0 : f mr0 = true) by (unfold f; apply Is_true_true, tsid_le_less; [done|]; intros He; by rewrite He in Hne).
  assert (Hn : (0 < n <= length l)%nat).
  { pose proof (prefix_len_le f l). fold n in H. split; [|done]. unfold n, l. rewrite (drop_S _ _ _ Hi). cbn [prefix_len]. rewrite Hl0. lia. }
  rewrite assert_true, bind_Ok by (apply Nat.ltb_lt; lia). unfold l in Hn. rewrite length_drop in Hn.
  destruct (lookup_lt_is_Some_2 (p_metaindex p) (i + n - 1)%nat) as [mr Hmr]; [lia|].
  assert (Hf : f mr = true).
  { pose proof (prefix_len_take f l) as Ht. fold n in Ht. apply (proj1 (Forall_lookup _ _) Ht (n - 1)%nat).
    rewrite lookup_take_lt by lia. unfold l. rewrite lookup_drop. by replace (i + (n - 1))%nat with (i + n - 1)%nat by lia. }
  exists (i + n - 1)%nat, mr. split_and!; [done|lia|done|by apply less_le|]. eapply rows_before; [lia|done|done].
Qed.

Definition exhausted (s : PartSearch) : Prop := (length (bhs_of s) <= ps_bh_idx s)%nat.

Lemma exhausted_left s : exhausted s -> blocks_left s = concat (drop (ps_metaindex_idx s) groups).
Proof. intros H. unfold blocks_left. by rewrite (drop_ge (bhs_of s)). Qed.

(** One round of the loop up to the choice of a row. *)
Lemma choose_row {E} s R mr0 :
  walking s R -> exhausted s -> p_metaindex p !! ps_metaindex_idx s = Some mr0 ->
  exists s1 more, skip_tsids_smaller_than (E := E) s (mr_tsid mr0) = Ok (s1, more) /\
    if more then exists j mr g, skip_small_metaindex_rows (E := E) (p_metaindex (ps_p s1)) (ps_metaindex_idx s1) (ps_cur_tsid s1) = Ok j /\
      (ps_metaindex_idx s <= j)%nat /\ p_metaindex p !! j = Some mr /\ groups !! j = Some g /\ row_covers mr g /\ tsid_le (mr_tsid mr) (ps_cur_tsid s1) /\
      walking (set_bhs (set_metaindex_idx s1 (S j)) (Some g) 0) R /\
      (matching (series_left s1) tr g = [] -> walking (set_metaindex_idx s1 (S j)) R /\ exhausted (set_metaindex_idx s1 (S j))) /\ ps_p s1 = p /\ ps_tr s1 = tr
    else ps_err s1 = Some PsEof /\ R = [].
Proof.
  intros Hw Hex Hmr0. pose proof (row_first _ _ Hmr0) as Hfirst. rewrite <-(exhausted_left s Hex) in Hfirst.
  destruct (skip_tsids_ok (E := E) s R (mr_tsid mr0) Hw Hfirst) as (s1 & more & Hskip & Hm1 & Hb1 & Hi1 & _ & Hmore). exists s1, more. split; [done|].
  destruct more; [|done]. destruct Hmore as (Hw1 & Hge & _). rewrite (wk_part _ _ Hw1), Hm1.
  destruct (skip_rows_ok (E := E) _ mr0 (ps_cur_tsid s1) Hmr0 Hge (current_known _ _ Hw1)) as (j & mr & Hj & Hij & Hmr & Hle & Hskipped).
  destruct (row_at j mr Hmr) as (g & Hg & Hcov). exists j, mr, g. rewrite Hj. do 6 (split; [done|]).
  assert (Hex1 : exhausted s1) by (unfold exhausted; by rewrite Hb1, Hi1). assert (Hlen : (length (bhs_of s1) <= ps_bh_idx s1)%nat) by exact Hex1.
  assert (Hcat : concat (drop (ps_metaindex_idx s) groups) = concat (take (j - ps_metaindex_idx s) (drop (ps_metaindex_idx s) groups)) ++ g ++ concat (drop (S j) groups)).
  { rewrite <-(take_drop (j - ps_metaindex_idx s) (drop (ps_metaindex_idx s) groups)) at 1. rewrite concat_app. f_equal. rewrite drop_drop.
    replace (ps_metaindex_idx s + (j - ps_metaindex_idx s))%nat with j by lia. by rewrite (drop_S _ _ _ Hg). }
  pose proof (below_current _ _ _ Hw1 Hskipped) as Hnone. split_and!; [| |done|apply Hw1].
  - apply (walking_blocks s1 _ R (concat (take (j - ps_metaindex_idx s) (drop (ps_metaindex_idx s) groups)))); try done; [|by right; exists j].
    by rewrite (exhausted_left s1 Hex1), Hm1, Hcat.
  - intros Hg0. split; [|done].
    apply (walking_blocks s1 _ R (concat (take (j - ps_metaindex_idx s) (drop (ps_metaindex_idx s) groups)) ++ g)); try done.
    + rewrite (exhausted_left s1 Hex1), Hm1, Hcat. unfold blocks_left. change (bhs_of (set_metaindex_idx s1 (S j))) with (bhs_of s1).
      cbn [set_metaindex_idx ps_bh_idx ps_metaindex_idx]. rewrite (drop_ge (bhs_of s1)) by done. by rewrite <-app_assoc.
    + by rewrite matching_app, Hnone, Hg0.
    + by left.
Qed.

(** A row outside the range has no wanted block. *)
Lemma row_outside mr g ts :
  row_covers mr g -> mr_max_timestamp mr < tr_min_timestamp tr \/ tr_max_timestamp tr < mr_min_timestamp mr -> matching ts tr g = [].
Proof.
  intros [_ Hc] Ho. apply matching_none. intros h Hh [_ Hr]. specialize (Hc h Hh). unfold in_range in Hr. apply andb_true_iff in Hr as [Hr1 Hr2]. lia.
Qed.

(** The result of [next_bhs]. *)
Lemma next_bhs_ok {E} fuel : forall s R w,
  walking s R -> exhausted s -> world w -> (length (p_metaindex p) - ps_metaindex_idx s < fuel)%nat ->
  exists s' w' more, next_bhs_loop (E := E) fuel s w = Ok (s', w', more) /\ world w' /\
    if more then walking s' R /\ (ps_metaindex_idx s < ps_metaindex_idx s' <= length (p_metaindex p))%nat
    else ps_err s' = Some PsEof /\ R = [].
Proof.
  induction fuel as [|fuel IH]; intros s R w Hw Hex Hwd Hf; [lia|]. cbn [next_bhs_loop]. rewrite (wk_part _ _ Hw).
  destruct (p_metaindex p !! ps_metaindex_idx s) as [mr0|] eqn:Hmr0.
  2:{ eexists _, w, false. split; [done|]. split; [done|]. split; [done|]. rewrite (wk_left _ _ Hw), (exhausted_left s Hex).
      apply lookup_ge_None in Hmr0. rewrite (Forall2_length _ _ _ rows_ok) in Hmr0. by rewrite drop_ge. }
  destruct (choose_row (E := E) s R mr0 Hw Hex Hmr0) as (s1 & more & -> & Hmore). rewrite bind_Ok. destruct more; cbn [negb].
  2:{ exists s1, w, false. done. }
  destruct Hmore as (j & mr & g & -> & Hij & Hmr & Hg & Hcov & Hle & Hload & Hskip & Hp1 & Htr1). rewrite bind_Ok, Hp1, (idx_Some _ _ _ Hmr), bind_Ok.
  cbn [set_metaindex_idx ps_cur_tsid ps_tr ps_p]. rewrite assert_true, bind_Ok by (by apply Is_true_true). pose proof (lookup_lt_Some _ _ _ Hmr) as Hlt.
  assert (Hpass : matching (series_left s1) tr g = [] ->
    exists s' w' more, next_bhs_loop (E := E) fuel (set_metaindex_idx s1 (S j)) w = Ok (s', w', more) /\ world w' /\
      if more then walking s' R /\ (ps_metaindex_idx s < ps_metaindex_idx s' <= length (p_metaindex p))%nat else ps_err s' = Some PsEof /\ R = []).
  { intros Hg0. destruct (Hskip Hg0) as [Hw2 Hex2]. destruct (IH _ R w Hw2 Hex2 Hwd) as (s' & w' & more & Hr & Hwd' & Hres); [cbn; lia|].
    exists s', w', more. split; [done|]. split; [done|]. destruct more; [|done]. cbn in Hres. split; [apply Hres|lia]. }
  rewrite Htr1. destruct (Z.ltb_spec (mr_max_timestamp mr) (tr_min_timestamp tr)); [apply Hpass; eapply row_outside; [done|by left]|].
  destruct (Z.ltb_spec (tr_max_timestamp tr) (mr_min_timestamp mr)); [apply Hpass; eapply row_outside; [done|by right]|].
  rewrite Hp1. destruct (load E w j mr g Hwd Hmr Hg) as (w' & -> & Hwd'). rewrite bind_Ok. eexists _, w', true. split; [done|]. split; [done|]. split; [done|]. cbn. lia.
Qed.

Lemma part_next_ok {E} fuel : forall s R w,
  search_left s R -> world w ->
  (match ps_err s with Some _ => 1 | None => length (p_metaindex p) - ps_metaindex_idx s + (if decide (exhausted s) then 1 else 2) end <= fuel)%nat ->
  exists s' w', world w' /\
    ((R = [] /\ next_block_loop (E := E) fuel s w = Ok (s', w', false) /\ ps_err s' = Some PsEof) \/
     (exists h R', next_block_loop (E := E) fuel s w = Ok (s', w', true) /\ search_left s' R' /\ ps_block_ref s' = mkBlockRef p h /\ R = h :: R')).
Proof.
  induction fuel as [|fuel IH]; intros s R w Hl Hwd Hf; [destruct (ps_err s); [lia|case_decide; lia]|]. cbn [next_block_loop]. destruct Hl as [Hw|[He ->]].
  2:{ exists s, w. split; [done|]. left. rewrite He. done. }
  rewrite (wk_err _ _ Hw) in Hf |- *.
  assert (Hnext : exists s1 w1 more, (if (length (bhs_of s) <=? ps_bh_idx s)%nat then next_bhs s w else Ok (s, w, true)) = Ok (E := E) (s1, w1, more) /\ world w1 /\
    if more then walking s1 R /\ (length (p_metaindex p) - ps_metaindex_idx s1 < fuel)%nat else ps_err s1 = Some PsEof /\ R = []).
  { destruct (Nat.leb_spec (length (bhs_of s)) (ps_bh_idx s)) as [Hex|Hex].
    - rewrite decide_True in Hf by done. unfold next_bhs. rewrite (wk_part _ _ Hw).
      destruct (next_bhs_ok (E := E) (S (length (p_metaindex p) - ps_metaindex_idx s)) s R w Hw Hex Hwd ltac:(lia)) as (s1 & w1 & more & -> & Hwd1 & Hr).
      exists s1, w1, more. split; [done|]. split; [done|]. destruct more; [|done]. split; [apply Hr|]. lia.
    - rewrite decide_False in Hf by (unfold exhausted; lia). exists s, w, true. split; [done|]. split; [done|]. split; [done|]. lia. }
  destruct Hnext as (s1 & w1 & more & -> & Hwd1 & Hmore). rewrite bind_Ok. destruct more; cbn [negb].
  2:{ exists s1, w1. split; [done|]. left. tauto. }
  destruct Hmore as [Hw1 Hm1]. destruct (search_bhs_ok (E := E) (S (work s1)) s1 R Hw1 ltac:(lia)) as (s2 & found & Hs & Hmi & Hres).
  unfold search_bhs. fold (work s1). rewrite Hs, bind_Ok. destruct found.
  - destruct Hres as (h & R' & -> & Href & Hw2). exists s2, w1. split; [done|]. right. exists h, R'. split_and!; [done|by left|done|done].
  - destruct (IH s2 R w1) as (s' & w' & Hwd' & Hr).
    + destruct Hres as [[He ->]|[Hw2 _]]; [by right|by left].
    + done.
    + destruct Hres as [[He _]|[Hw2 Hb]].
      * rewrite He. lia.
      * rewrite (wk_err _ _ Hw2), decide_True by (unfold exhausted; rewrite Hb; cbn; lia). rewrite Hmi. lia.
    + exists s', w'. done.
Qed.

(** A search as it is created. *)
Lemma new_left ts :
  StronglySorted (fun a b => Is_true (tsid_le a b)) ts -> Forall (known tsid_for) ts ->
  (forall h, In h (concat groups) -> ph_min_timestamp (p_ph p) <= bh_min_timestamp h /\ bh_max_timestamp h <= ph_max_timestamp (p_ph p)) ->
  search_left (ps_new p ts tr) (matching ts tr (concat groups)).
Proof.
  intros Hs Hk Hph. unfold ps_new. destruct (_ && _) eqn:Huse.
  - destruct ts as [|t ts]; [right; split; [done|]; apply matching_none; by intros h _ []|]. left. by split; try done; left.
  - right. split; [done|]. apply matching_none. intros h Hh [_ Hr]. specialize (Hph h Hh). unfold in_range in Hr. lia.
Qed.
End Walk.

(** ** Stored parts *)

Definition group_headers (cs : list (list entry)) : list (list BlockHeader) := map headers cs.

Lemma concat_headers cs : concat (group_headers cs) = headers (concat cs).
Proof. unfold group_headers, headers. by rewrite concat_map. Qed.

(** [p] stores the blocks [cs], grouped by index block. *)
Record part_ok {Zs : Zstd} (tsid_for : Z -> Tsid) (p : Part) (cs : list (list entry)) : Prop := {
  po_chain : chain pos0 (concat cs);
  po_chunks : Forall chunk_ok cs;
  po_rows : exists lvl, p_metaindex p = rows_from lvl 0 cs /\ contents (p_index_file p) (index_bytes lvl cs);
  po_timestamps : contents (p_timestamps_file p) (ts_bytes pos0 (concat cs));
  po_values : contents (p_values_file p) (vs_bytes (concat cs));
  po_size : Z.of_nat (length (concat cs)) < 2 ^ 32;
  po_header : forall e, In e (concat cs) -> ph_min_timestamp (p_ph p) <= bh_min_timestamp (e_bh e) /\ bh_max_timestamp (e_bh e) <= ph_max_timestamp (p_ph p);
  po_sorted : sorted_by_key (headers (concat cs));
  po_known : Forall (fun h => known tsid_for (bh_tsid h)) (headers (concat cs));
}.

Section Parts.
  Context {Zs : Zstd} {Zl : ZstdLaws Zs} (tsid_for : Z -> Tsid).

Lemma row_of_covers lvl off c : chunk_ok c -> row_covers (row_of lvl off c) (headers c).
Proof.
  intros Hc. pose proof (chunk_count c Hc) as Hcnt. destruct Hc as [Hne _]. destruct c as [|e c]; [done|].
  destruct (register_all_spec (e_bh e) (headers c)) as (_ & H2 & H3 & H4); [cbn [length] in *; rewrite length_headers; lia|].
  split; [by exists (e_bh e), (headers c)|]. unfold row_of, mr_set_index_block. cbn [headers map mr_min_timestamp mr_max_timestamp]. fold (headers c).
  rewrite H3, H4. intros x Hx. split; [apply foldr_min_le|apply foldr_max_ge]; (destruct Hx as [<-|Hx]; [by left|right; by apply in_map]).
Qed.

Lemma rows_cover lvl cs : forall off, Forall chunk_ok cs -> Forall2 row_covers (rows_from lvl off cs) (group_headers cs).
Proof.
  induction cs as [|c cs IH]; intros off Hc; cbn [rows_from group_headers map]; [constructor|]. apply Forall_cons in Hc as [Hc Hcs].
  constructor; [by apply row_of_covers|by apply IH].
Qed.

(** The row of an index block and its place in the index stream. *)
Lemma rows_lookup lvl cs : forall off i mr, rows_from lvl off cs !! i = Some mr ->
  exists c, cs !! i = Some c /\ mr = row_of lvl (off + Z.of_nat (length (index_bytes lvl (take i cs)))) c.
Proof.
  induction cs as [|c cs IH]; intros off i mr Hi; [by destruct i|]. destruct i as [|i]; cbn [rows_from take] in *.
  - injection Hi as <-. exists c. split; [done|]. cbn. by rewrite Z.add_0_r.
  - destruct (IH _ i mr Hi) as (c' & Hc' & ->). exists c'. split; [done|]. f_equal. unfold index_bytes. cbn [map concat]. rewrite length_app. lia.
Qed.

Lemma index_split lvl cs i c : cs !! i = Some c ->
  index_bytes lvl cs = index_bytes lvl (take i cs) ++ index_block lvl c ++ index_bytes lvl (drop (S i) cs).
Proof. intros Hi. rewrite <-(take_drop_middle _ _ _ Hi) at 1. rewrite index_bytes_app. by unfold index_bytes at 2. Qed.

Lemma sorted_headers_of cs i c : cs !! i = Some c -> sorted_by_key (headers (concat cs)) -> sorted_headers (headers c).
Proof.
  intros Hi Hs. rewrite <-(take_drop_middle _ _ _ Hi), concat_app in Hs. unfold headers in Hs. rewrite map_app in Hs. apply StronglySorted_app in Hs as (_ & _ & Hs).
  cbn [concat] in Hs. rewrite map_app in Hs. apply StronglySorted_app in Hs as (_ & Hs & _). unfold sorted_headers. revert Hs. unfold sorted_by_key. fold (headers c).
  induction 1 as [|x l Hl IH Hx]; constructor; [done|]. revert Hx. apply Forall_weaken. intros y. apply key_tsid_le.
Qed.

Lemma data_read_index_ok p cs i mr :
  part_ok tsid_for p cs -> p_metaindex p !! i = Some mr -> exists c, cs !! i = Some c /\ read_index_block p mr = Ok (headers c).
Proof.
  intros Hp Hi. destruct (po_rows _ _ _ Hp) as (lvl & Hrows & Hfile). rewrite Hrows in Hi. destruct (rows_lookup _ _ _ _ _ Hi) as (c & Hc & ->). exists c. split; [done|].
  pose proof (proj1 (Forall_lookup _ _) (po_chunks _ _ _ Hp) _ _ Hc) as Hco. pose proof (index_block_size lvl c Hco) as Hsz. pose proof (chunk_count c Hco) as Hcnt.
  unfold read_index_block, row_of, mr_set_index_block. cbn [mr_index_block_offset mr_index_block_size mr_block_headers_count]. rewrite Nat2Z.id.
  rewrite (contents_read _ (index_bytes lvl (take i cs)) (index_block lvl c) (index_bytes lvl (drop (S i) cs))), bind_Ok by (rewrite <-?index_split by done; done).
  pose proof Hco as (Hne & _ & Hwf). assert (Hdec : decompress_zstd [] (index_block lvl c) = Ok (marshal_headers (headers c))) by (by apply decompress_compress, marshal_headers_bytes).
  rewrite Hdec, map_err_Ok, bind_Ok.
  destruct c as [|e c]; [done|]. destruct (register_all_spec (e_bh e) (headers c)) as (Hn & _); [cbn [length] in *; rewrite length_headers; lia|].
  cbn [headers map] in Hn |- *. fold (headers c) in Hn |- *. rewrite Hn, Nat2Z.id. unfold read_headers_of. change (e_bh e :: headers c) with (headers (e :: c)) in *.
  rewrite (proj2 (proj2 (block_headers_exact [] (marshal_headers (headers (e :: c))) (length (headers (e :: c))) ltac:(by apply marshal_headers_bytes) ltac:(cbn; lia)) (headers (e :: c)))).
  - done.
  - assert (Hw : Forall bh_wf (headers (e :: c)) /\ Forall bh_valid (headers (e :: c))).
    { split; apply Forall_map; revert Hwf; apply Forall_weaken; naive_solver. }
    split_and!; [done|done|apply Hw|apply Hw|]. by eapply sorted_headers_of; [exact Hc|apply Hp].
Qed.
End Parts.

(** ** The search as a cursor *)

Lemma matching_sorted ts tr hs : sorted_by_key hs -> sorted_by_key (matching ts tr hs).
Proof.
  unfold sorted_by_key. induction 1 as [|h hs Hs IH Hh]; [constructor|]. rewrite matching_cons. case_decide; [|done]. constructor; [done|].
  apply Forall_In. intros x Hx. apply list_elem_of_In, list_elem_of_filter in Hx as [_ Hx]. rewrite Forall_forall in Hh. by apply Hh.
Qed.

Section Cursors.
  Context {Zs : Zstd} {Zl : ZstdLaws Zs} {C : Type} `{!BlockCacheOps C (list BlockHeader)} {L : BlockCacheLaws C (list BlockHeader)}.
  Context (tsid_for : Z -> Tsid).
  (** The parts that share the cache. *)
  Context (all : list (Part * list (list entry))).
  Context (all_ok : forall p cs, In (p, cs) all -> part_ok tsid_for p cs).
  Context (ids : forall p cs p' cs', In (p, cs) all -> In (p', cs') all -> p_id p = p_id p' -> p = p' /\ cs = cs').

Definition good_block (k : Key) (v : list BlockHeader) : Prop :=
  exists p cs i mr c, In (p, cs) all /\ part_id k = p_id p /\ p_metaindex p !! i = Some mr /\ offset k = mr_index_block_offset mr /\
    cs !! i = Some c /\ v = headers c.

Definition cache_good (w : C) : Prop := all_good good_block w.

(** Index blocks have different places. *)
Lemma index_offset_lt lvl cs i j c : Forall chunk_ok cs -> cs !! i = Some c -> (i < j)%nat ->
  (length (index_bytes lvl (take i cs)) < length (index_bytes lvl (take j cs)))%nat.
Proof.
  intros Hc Hi Hij. pose proof (index_block_size lvl c (proj1 (Forall_lookup _ _) Hc _ _ Hi)) as Hsz.
  assert (Hl : take j cs !! i = Some c) by (rewrite lookup_take_lt; done). rewrite (index_split lvl (take j cs) i c Hl), !length_app, take_take, Nat.min_l by lia. lia.
Qed.

Lemma good_block_iff p cs i mr c v :
  In (p, cs) all -> p_metaindex p !! i = Some mr -> cs !! i = Some c ->
  good_block (mkKey (p_id p) (mr_index_block_offset mr)) v <-> v = headers c.
Proof.
  intros Hin Hmr Hc. split; [|intros ->; by exists p, cs, i, mr, c]. intros (p' & cs' & j & mr' & c' & Hin' & Hid & Hmr' & Hoff & Hc' & ->). cbn in Hid, Hoff.
  destruct (ids _ _ _ _ Hin Hin' Hid) as [-> ->]. destruct (po_rows _ _ _ (all_ok _ _ Hin')) as (lvl & Hrows & _). rewrite Hrows in Hmr, Hmr'.
  destruct (rows_lookup _ _ _ _ _ Hmr) as (c0 & Hc0 & ->). destruct (rows_lookup _ _ _ _ _ Hmr') as (c1 & Hc1 & ->). cbn in Hoff.
  pose proof (po_chunks _ _ _ (all_ok _ _ Hin')) as Hch.
  assert (i = j) as ->; [|congruence]. destruct (Nat.lt_trichotomy i j) as [Hlt|[->|Hlt]]; [|done|].
  - pose proof (index_offset_lt lvl cs' i j c Hch Hc Hlt). lia.
  - pose proof (index_offset_lt lvl cs' j i c' Hch Hc' Hlt). lia.
Qed.

Lemma load_ok p cs (Hin : In (p, cs) all) E w i mr g :
  cache_good w -> p_metaindex p !! i = Some mr -> group_headers cs !! i = Some g ->
  exists w', get_or_read (E := E) (mkKey (p_id p) (mr_index_block_offset mr)) (read_index_block p mr) w = Ok (w', inl g) /\ cache_good w'.
Proof.
  intros Hw Hmr Hg. destruct (data_read_index_ok tsid_for p cs i mr (all_ok _ _ Hin) Hmr) as (c & Hc & Hread).
  apply list_lookup_fmap_Some in Hg as (c' & -> & Hc'). assert (c' = c) as -> by congruence.
  apply get_or_read_ok; [done|done|]. intros v. by eapply good_block_iff.
Qed.

Definition part_left (s : PartSearch) (R : list BlockRef) : Prop :=
  exists p cs tr hs, In (p, cs) all /\ search_left p (group_headers cs) tr tsid_for s hs /\ R = map (mkBlockRef p) hs.

Definition good_ref (r : BlockRef) : Prop := known tsid_for (bh_tsid (br_bh r)).
Definition ref_key (r : BlockRef) : list Z := header_key (br_bh r).

Lemma left_headers p cs tr s hs :
  In (p, cs) all -> search_left p (group_headers cs) tr tsid_for s hs -> sorted_by_key hs /\ Forall (fun h => known tsid_for (bh_tsid h)) hs.
Proof.
  intros Hin [Hw|[_ ->]]; [|split; constructor]. pose proof (all_ok _ _ Hin) as Hp.
  destruct (blocks_left_ok p (group_headers cs) tr tsid_for) with (s := s) (R := hs) as [Hs Hk];
    [rewrite concat_headers; apply Hp|rewrite concat_headers; apply Hp|done|].
  rewrite (wk_left _ _ _ _ _ _ Hw). split; [by apply matching_sorted|]. apply Forall_In. intros x Hx. apply list_elem_of_In, list_elem_of_filter in Hx as [_ Hx].
  rewrite Forall_forall in Hk. by apply Hk.
Qed.

Lemma part_left_good s R : part_left s R -> Forall good_ref R.
Proof. intros (p & cs & tr & hs & Hin & Hl & ->). apply Forall_map. exact (proj2 (left_headers _ _ _ _ _ Hin Hl)). Qed.

Lemma part_cursor_next E s w R :
  part_left s R -> cache_good w ->
  exists s' w', cache_good w' /\
    ((R = [] /\ ps_next_block (E := E) s w = Ok (s', w', false) /\ part_left s' [] /\ ps_error_msg s' = None) \/
     (exists x R', ps_next_block (E := E) s w = Ok (s', w', true) /\ part_left s' R' /\ Some (ps_block_ref s') = Some x /\
        R ≡ₚ x :: R' /\ Forall (fun y => Is_true (lex_leb (ref_key x) (ref_key y))) R')).
Proof.
  intros (p & cs & tr & hs & Hin & Hl & ->) Hw. pose proof (all_ok _ _ Hin) as Hp. destruct (po_rows _ _ _ Hp) as (lvl & Hrows & _).
  assert (Hcov : Forall2 row_covers (p_metaindex p) (group_headers cs)) by (rewrite Hrows; apply rows_cover, Hp).
  unfold ps_next_block.
  assert (Hsort : sorted_by_key (concat (group_headers cs))) by (rewrite concat_headers; apply Hp).
  assert (Hknown : Forall (fun h => known tsid_for (bh_tsid h)) (concat (group_headers cs))) by (rewrite concat_headers; apply Hp).
  destruct (part_next_ok p (group_headers cs) tr tsid_for Hcov Hsort Hknown cache_good (load_ok p cs Hin)
    (E := E) (S (S (length (p_metaindex (ps_p s)) - ps_metaindex_idx s))) s hs w Hl Hw) as (s' & w' & Hw' & Hcase).
  - destruct Hl as [Hwk|[He _]]; [rewrite (wk_err _ _ _ _ _ _ Hwk), (wk_part _ _ _ _ _ _ Hwk); case_decide; lia|rewrite He; lia].
  - exists s', w'. split; [done|]. destruct Hcase as [(-> & Hn & He)|(h & hs' & Hn & Hl' & Href & ->)].
    + left. split_and!; [done|done| |unfold ps_error_msg; by rewrite He]. exists p, cs, tr, []. split_and!; [done|by right|done].
    + right. exists (mkBlockRef p h), (map (mkBlockRef p) hs'). split_and!; [done|by exists p, cs, tr, hs'|by rewrite Href|done|].
      destruct (left_headers _ _ _ _ _ Hin Hl) as [Hs _]. apply StronglySorted_inv in Hs as [_ Hs]. by apply Forall_map.
Qed.

Definition part_cursor_laws : CursorLaws PartSearch C BlockRef ps_other good_ref ref_key :=
  Build_CursorLaws _ _ _ _ part_cursor good_ref ref_key cache_good part_left part_left_good part_cursor_next.
End Cursors.
