(* ===== verification/DataTableSearch.v ===== *)
(** * Search in the data tables

    From blocks written to parts to the blocks a search reads back: a written
    part is one the search is correct on, the references it yields read their
    blocks, and the searches of parts, partitions and tables together yield
    exactly the wanted blocks in order. *)
From Stdlib Require Import ZArith Lia Bool Sorted Permutation.
From S2P Require Import Prelude IntCodec Compress ArrayCodec Heap TimeRange BlockCache BlockCacheSpec SearchBase PoolSearch Tsid BlockHeader Block BlockStream DataSearch DataSearchSpec.
Local Open Scope Z_scope.

(** ** Reading a block by reference *)

Section Reads.
  Context {Zs : Zstd} {Zl : ZstdLaws Zs}.

(** The position after a log, in terms of the streams. *)
Lemma position_after log :
  let p := foldl advance pos0 log in
  p_ts p = Z.of_nat (length (ts_bytes pos0 log)) /\ p_vs p = Z.of_nat (length (vs_bytes log)) /\
  (p_prev p <> [] -> exists a c, ts_bytes pos0 log = a ++ p_prev p ++ c /\ p_prev_off p = Z.of_nat (length a)).
Proof.
  induction log as [|e log IH] using rev_ind; [by split_and!|]. cbn zeta in *. destruct IH as (H1 & H2 & H3). rewrite foldl_app. cbn [foldl].
  set (p := foldl advance pos0 log) in *. rewrite ts_bytes_snoc, vs_bytes_app. unfold ts_chunk. fold p. unfold vs_bytes at 2. cbn [map concat]. rewrite app_nil_r, !length_app.
  unfold advance. destruct (shared p e) eqn:Hs; cbn [p_ts p_vs p_prev p_prev_off]; split_and!; try lia.
  - cbn. lia.
  - intros Hne. destruct (H3 Hne) as (a & c & -> & Ho). exists a, c. by rewrite app_nil_r.
  - intros _. exists (ts_bytes pos0 log), []. by rewrite app_nil_r.
Qed.

Lemma stored_at log : forall k e, chain pos0 log -> log !! k = Some e -> stored (foldl advance pos0 (take k log)) e.
Proof.
  intros k e Hc Hk. rewrite <-(take_drop_middle _ _ _ Hk) in Hc. rewrite cons_middle, app_assoc in Hc.
  assert (Hpre : forall l1 l2, chain pos0 (l1 ++ l2) -> chain pos0 l1).
  { intros l1 l2. generalize pos0. induction l1 as [|x l1 IH]; intros q; cbn; [done|]. intros [? ?]. split; [done|by eapply IH]. }
  apply Hpre in Hc. by apply chain_snoc in Hc as [_ Hc].
Qed.

Lemma ts_bytes_split log k e : log !! k = Some e ->
  exists rest, ts_bytes pos0 log = ts_bytes pos0 (take k log) ++ ts_chunk (foldl advance pos0 (take k log)) e ++ rest.
Proof.
  intros Hk. assert (Hgen : forall l1 q l2, exists rest, ts_bytes q (l1 ++ e :: l2) = ts_bytes q l1 ++ ts_chunk (foldl advance q l1) e ++ rest).
  { induction l1 as [|x l1 IH]; intros q l2; cbn [app ts_bytes foldl]; [by eexists|]. destruct (IH (advance q x) l2) as [rest ->]. exists rest. by rewrite <-app_assoc. }
  destruct (Hgen (take k log) pos0 (drop (S k) log)) as [rest Hr]. rewrite take_drop_middle in Hr by done. by exists rest.
Qed.

(** A reference to a block of a stored part reads the block. *)
Lemma data_read_block_ok f p cs e :
  part_ok f p cs -> In e (concat cs) -> exists b, br_read_block (mkBlockRef p (e_bh e)) = Ok b /\ block_of e b.
Proof.
  intros Hp He. apply list_elem_of_In, list_elem_of_lookup in He as [k Hk]. set (log := concat cs) in *.
  pose proof (stored_at log k e (po_chain _ _ _ Hp) Hk) as (Hpk & Hto & Hvo). set (q := foldl advance pos0 (take k log)) in *.
  destruct (position_after (take k log)) as (H1 & H2 & H3). fold q in H1, H2, H3.
  destruct (unmarshal_data_packed (e_bh e) [] _ _ _ _ Hpk) as (tss' & vss' & Hcol & _ & Hub & _).
  exists (mkBlock (e_bh e) 0 tss' vss' [] [] []). split; [|by exists tss', vss'].
  unfold br_read_block. cbn [br_bh br_p]. rewrite (pk_tsd_size _ _ _ _ _ Hpk), (pk_vd_size _ _ _ _ _ Hpk), !Nat2Z.id.
  assert (Hts : exists a c, ts_bytes pos0 log = a ++ e_tsd e ++ c /\ bh_timestamps_block_offset (e_bh e) = Z.of_nat (length a)).
  { destruct (ts_bytes_split log k e Hk) as [rest Hsp]. fold q in Hsp. rewrite Hto. unfold ts_chunk in Hsp. destruct (shared q e) eqn:Hs.
    - pose proof (shared_data _ _ Hs) as Hd. unfold shared in Hs. apply andb_true_iff in Hs as [Hne _].
      destruct H3 as (a & c & Ha & Hoff); [by intros Hn; rewrite Hn in Hne|]. exists a, (c ++ rest). split; [|done]. by rewrite Hsp, Ha, Hd, app_nil_l, <-!app_assoc.
    - by exists (ts_bytes pos0 (take k log)), rest. }
  destruct Hts as (a & c & Hts & Hoff). rewrite (contents_read _ a (e_tsd e) c) by (rewrite <-?Hts; first [apply Hp|done]). rewrite bind_Ok.
  rewrite (contents_read _ (vs_bytes (take k log)) (e_vd e) (vs_bytes (drop (S k) log))), bind_Ok; [done| |by rewrite Hvo, H2].
  replace (vs_bytes (take k log) ++ e_vd e ++ vs_bytes (drop (S k) log)) with (vs_bytes log); [apply Hp|].
  assert (Hl : log = take k log ++ e :: drop (S k) log) by (by rewrite take_drop_middle). rewrite Hl at 1. by rewrite vs_bytes_app.
Qed.
End Reads.

(** ** Written parts *)

(** The rows of a block that are still to be read, as the writer sees them. *)
Definition rows_left (b : Block) : list Z := drop (b_next_idx b) (b_timestamps b).

(** The order of blocks in a part: by series and first timestamp. *)
Definition block_key (b : Block) : list Z := tsid_key (bh_tsid (b_bh b)) ++ [default 0 (head (rows_left b))].

(** The blocks of a part. *)
Record part_blocks (tsid_for : Z -> Tsid) (bs : list Block) : Prop := {
  pb_nonempty : bs <> [];
  pb_count : Z.of_nat (length bs) < 2 ^ 32;
  pb_ok : Forall unpacked_ok bs;
  pb_sorted : StronglySorted (fun a b => Is_true (lex_leb (block_key a) (block_key b))) bs;
  pb_known : Forall (fun b => known tsid_for (bh_tsid (b_bh b))) bs;
}.

(** The range of the timestamps of a block. *)
Definition block_in_range (tr : TimeRange) (b : Block) : Prop :=
  tr_min_timestamp tr <= default 0 (last (rows_left b)) /\ default 0 (head (rows_left b)) <= tr_max_timestamp tr.

Definition wanted_block (ts : list Tsid) (tr : TimeRange) (b : Block) : Prop := In (bh_tsid (b_bh b)) ts /\ block_in_range tr b.
#[export] Instance wanted_block_dec ts tr b : Decision (wanted_block ts tr b).
Proof.
  destruct (decide (bh_tsid (b_bh b) ∈ ts)) as [H|H]; rewrite list_elem_of_In in H; [|right; by intros [? _]].
  unfold wanted_block, block_in_range. destruct (decide (tr_min_timestamp tr <= default 0 (last (rows_left b)) /\ default 0 (head (rows_left b)) <= tr_max_timestamp tr)); [by left|right; tauto].
Defined.

Section Written.
  Context {Zs : Zstd} {Zl : ZstdLaws Zs} (tsid_for : Z -> Tsid).

(** The header of a stored block describes the block. *)
Definition describes (b : Block) (e : entry) : Prop :=
  entry_of b e /\ bh_tsid (e_bh e) = bh_tsid (b_bh b) /\ head (rows_left b) = Some (bh_min_timestamp (e_bh e)) /\ last (rows_left b) = Some (bh_max_timestamp (e_bh e)).

Lemma entries_describe p bs log : chain p log -> Forall2 entry_of bs log -> Forall2 describes bs log.
Proof.
  intros Hc Hall. revert p Hc. induction Hall as [|b e bs log Hbe Hall IH]; intros p Hc; constructor.
  - destruct Hc as [(Hpk & _) _]. pose proof Hbe as (H1 & _ & _ & H4 & _). split_and!; [done|done| |].
    + unfold rows_left. rewrite <-H4. apply Hpk.
    + unfold rows_left. rewrite <-H4. apply Hpk.
  - destruct Hc as [_ Hc]. by eapply IH.
Qed.

Lemma describes_key b e : describes b e -> header_key (e_bh e) = block_key b.
Proof. intros (_ & H1 & H2 & _). unfold header_key, block_key. by rewrite H1, H2. Qed.

Lemma describes_wanted ts tr b e : describes b e -> wanted ts tr (e_bh e) <-> wanted_block ts tr b.
Proof.
  intros (_ & H1 & H2 & H3). unfold wanted, wanted_block, in_range, block_in_range. rewrite H1, H2, H3. cbn. by rewrite andb_true_iff, !Z.leb_le.
Qed.

Lemma describes_sorted bs log : Forall2 describes bs log ->
  StronglySorted (fun a b => Is_true (lex_leb (block_key a) (block_key b))) bs -> sorted_by_key (headers log).
Proof.
  unfold sorted_by_key. induction 1 as [|b e bs log Hbe Hall IH]; intros Hs; cbn [headers map]; [constructor|]. apply StronglySorted_inv in Hs as [Hs Hb].
  constructor; [by apply IH|]. clear IH Hs. apply Forall_map. induction Hall as [|b' e' bs log Hbe' _ IH]; constructor; apply Forall_cons in Hb as [Hb1 Hb2].
  - by rewrite (describes_key _ _ Hbe), (describes_key _ _ Hbe').
  - by apply IH.
Qed.

(** [p] is the part the blocks give when they are written and opened. *)
Definition opened_part (bs : list Block) (p : Part) : Prop :=
  exists lvl w ph rm bufs now id id',
    write_blocks 0 (new_inmemory_part lvl) bs PartHeader_default 0 = Ok (w, ph, rm) /\
    must_close (E := Empty_set) w = Ok bufs /\
    new_part (E := Empty_set) id (from_buffers now ph bufs) = Ok (p, id').

Lemma written_part lvl bs :
  part_blocks tsid_for bs ->
  exists w ph rm bufs cs,
    write_blocks 0 (new_inmemory_part lvl) bs PartHeader_default 0 = Ok (w, ph, rm) /\ must_close (E := Empty_set) w = Ok bufs /\
    Forall2 describes bs (concat cs) /\
    forall now id, exists p, new_part (E := Empty_set) id (from_buffers now ph bufs) = Ok (p, as_u64 (id + 1)) /\ p_id p = id /\ part_ok tsid_for p cs.
Proof.
  intros [Hne Hlen Hok Hs Hk].
  destruct (write_blocks_at lvl bs [] [] 0) as (log & closed & cur & rm & Hw & Hlo & Hlog & Hall); [split; try done; constructor|done|cbn; lia|]. cbn [concat app] in Hlog.
  rewrite Hlog in Hw. pose proof (Forall2_length _ _ _ Hall) as Hl. assert (Hlne : log <> []) by (destruct bs, log; done).
  destruct (must_close_at (E := Empty_set) lvl closed cur Hlo) as (cs & Hcs & Hcat & Hclose); [by rewrite Hlog|].
  rewrite Hlog in Hcat. pose proof (lo_chain _ _ Hlo) as Hch. rewrite Hlog in Hch. rewrite <-Hcat in Hch, Hall, Hw.
  pose proof (entries_describe _ _ _ Hch Hall) as Hd. pose proof (describes_sorted _ _ Hd Hs) as Hsort.
  assert (Hts : StronglySorted (fun a b => Is_true (tsid_le a b)) (map tsid_of (concat cs))).
  { revert Hsort. unfold sorted_by_key, headers. generalize (concat cs). induction l as [|e l IH]; intros H; cbn [map] in *; [constructor|].
    apply StronglySorted_inv in H as [H He]. constructor; [by apply IH|]. apply (proj1 (Forall_map _ _ _)) in He. apply Forall_map. revert He. apply Forall_weaken. intros x. apply key_tsid_le. }
  destruct (rows_from_ok lvl cs 0 Hcs) as [Hrw Hrv]; [lia|rewrite Hcat, <-Hl; lia|].
  assert (Hrows : unmarshal_metaindex_rows (compress_zstd_level [] (marshal_rows (rows_from lvl 0 cs)) lvl) = Ok (rows_from lvl 0 cs)).
  { eapply metaindex_decode_inv; [apply decompress_compress, marshal_rows_bytes|apply marshal_rows_bytes|].
    split_and!; [done| |done|done|by apply rows_from_sorted]. intros Hr. destruct cs; [by rewrite <-Hcat in Hlne|done]. }
  eexists _, _, rm, _, cs. split; [exact Hw|]. split; [exact Hclose|]. split; [done|]. intros now id. unfold new_part, part_new, from_buffers. cbn [mp_metaindex_data].
  rewrite Hrows, bind_Ok. eexists. split; [done|]. split; [done|]. destruct (ph_of_covers (concat cs)) as [_ _ Hrange]; [by eapply chain_valid|rewrite Hcat, <-Hl; lia|].
  split; cbn [p_metaindex p_index_file p_timestamps_file p_values_file p_ph mp_ph mp_index_data mp_timestamps_data mp_values_data]; try done.
  - exists lvl. split; [done|by right].
  - by right.
  - by right.
  - rewrite Hcat, <-Hl. lia.
  - clear -Hd Hk. revert Hk. induction Hd as [|b e bs log (_ & Ht & _) _ IH]; intros Hk; cbn; [constructor|]. apply Forall_cons in Hk as [Hk1 Hk2]. constructor; [by rewrite Ht|by apply IH].
Qed.

Lemma opened_part_ok bs p : part_blocks tsid_for bs -> opened_part bs p -> exists cs, part_ok tsid_for p cs /\ Forall2 describes bs (concat cs).
Proof.
  intros Hb (lvl & w & ph & rm & bufs & now & id & id' & Hw & Hc & Hn). destruct (written_part lvl bs Hb) as (w0 & ph0 & rm0 & bufs0 & cs & Hw0 & Hc0 & Hd & Hp).
  rewrite Hw in Hw0. injection Hw0 as <- <- <-. rewrite Hc in Hc0. injection Hc0 as <-. destruct (Hp now id) as (p0 & Hn0 & _ & Hok). rewrite Hn in Hn0. injection Hn0 as <- _.
  by exists cs.
Qed.
End Written.

(** ** Partitions and tables *)

(** All blocks a table search yields: [while ts.next_block() { .. ts.block_ref() .. }]. *)
Fixpoint ts_collect {Zs : Zstd} {C : Type} `{!BlockCacheOps C (list BlockHeader)} {E} (fuel : nat) (self : TableSearch) (w : C)
    : res E (list BlockRef * TableSearch * C) :=
  match fuel with
  | O => Panic
  | S fuel =>
      '(self, w, more) ← ts_next_block self w;
      if more : bool then
        match ts_block_ref (C := C) self with
        | None => Panic
        | Some r =>
            '(rs, self, w) ← ts_collect fuel self w;
            Ok (r :: rs, self, w)
        end
      else Ok ([], self, w)
  end.

Lemma filtered_sorted pt ts : StronglySorted (fun a b => Is_true (tsid_le a b)) ts -> StronglySorted (fun a b => Is_true (tsid_le a b)) (filtered_tsids pt ts).
Proof.
  unfold filtered_tsids. induction 1 as [|t ts Hs IH Ht]; [constructor|]. rewrite filter_cons. case_decide; [|done]. constructor; [done|].
  apply Forall_In. intros x Hx. apply list_elem_of_In, list_elem_of_filter in Hx as [_ Hx]. rewrite Forall_forall in Ht. by apply Ht.
Qed.

Section Tables.
  Context {Zs : Zstd} {Zl : ZstdLaws Zs} {C : Type} `{!BlockCacheOps C (list BlockHeader)} {L : BlockCacheLaws C (list BlockHeader)}.
  Context (tsid_for : Z -> Tsid) (all : list (Part * list (list entry))).
  Context (all_ok : forall p cs, In (p, cs) all -> part_ok tsid_for p cs).
  Context (ids : forall p cs p' cs', In (p, cs) all -> In (p', cs') all -> p_id p = p_id p' -> p = p' /\ cs = cs').

(** A partition whose parts store [css], within its time range. *)
Definition view_ok (pt : PartitionView) (css : list (list (list entry))) : Prop :=
  Forall2 (fun p cs => In (p, cs) all /\ forall e, In e (concat cs) ->
    tr_min_timestamp (pt_time_range pt) <= bh_min_timestamp (e_bh e) /\ bh_max_timestamp (e_bh e) <= tr_max_timestamp (pt_time_range pt)) (pt_parts pt) css.

Definition part_selected (ts : list Tsid) (tr : TimeRange) (p : Part) (cs : list (list entry)) : list BlockRef :=
  map (mkBlockRef p) (matching ts tr (headers (concat cs))).

(** The blocks of a partition a search is after. *)
Definition selected (pt : PartitionView) (css : list (list (list entry))) (ts : list Tsid) (tr : TimeRange) : list BlockRef :=
  concat (zip_with (part_selected (filtered_tsids pt ts) tr) (pt_parts pt) css).

Lemma ref_less_key x y : good_ref tsid_for x -> good_ref tsid_for y -> ref_less x y = lex_ltb (ref_key x) (ref_key y).
Proof. intros Hx Hy. unfold ref_less. apply bh_less_lex. intros He. by eapply known_eq. Qed.

Local Abbreviation part_laws := (part_cursor_laws tsid_for all all_ok ids).
Definition partition_laws : @CursorLaws PartitionSearch C BlockRef (pool_msg ps_other) partition_cursor (good_ref tsid_for) ref_key :=
  pool_laws ref_less (good_ref tsid_for) ref_key ref_less_key (Cl := part_laws).
Definition table_laws : @CursorLaws TableSearch C BlockRef (pool_msg (pool_msg ps_other)) (pool_cursor (Cu := partition_cursor) ref_less) (good_ref tsid_for) ref_key :=
  pool_laws (Cu := partition_cursor) ref_less (good_ref tsid_for) ref_key ref_less_key (Cl := partition_laws).

(** Nothing is selected when the partition is outside the range or has no series left. *)
Lemma selected_none pt css ts tr :
  view_ok pt css -> filtered_tsids pt ts = [] \/ overlaps_with (pt_time_range pt) tr = false -> selected pt css ts tr = [].
Proof.
  intros Hv Hn. unfold selected. apply concat_nil_Forall, Forall_In. intros l Hl. apply list_elem_of_In, elem_of_lookup_zip_with_1 in Hl as (i & p & cs & -> & Hp & Hcs).
  destruct (Forall2_lookup_lr _ _ _ _ _ _ Hv Hp Hcs) as [_ Hr]. unfold part_selected. rewrite matching_none; [done|]. intros h Hh [Hin Hrg].
  apply in_map_iff in Hh as (e & <- & He). specialize (Hr e He). destruct Hn as [Hn|Hn]; [by rewrite Hn in Hin|].
  unfold in_range in Hrg. unfold overlaps_with in Hn. lia.
Qed.

Lemma new_searches ts tr pt css :
  StronglySorted (fun a b => Is_true (tsid_le a b)) ts -> Forall (known tsid_for) ts -> view_ok pt css ->
  Forall2 (cl_left (CursorLaws := part_laws)) (map (fun p => ps_new p ts tr) (pt_parts pt)) (zip_with (part_selected ts tr) (pt_parts pt) css).
Proof.
  intros Hs Hk Hv. unfold view_ok in Hv. induction Hv as [|p cs ps css [Hin _] _ IH]; cbn [map zip_with]; constructor; [|done].
  exists p, cs, tr, (matching ts tr (headers (concat cs))). split; [done|]. split; [|done]. pose proof (all_ok _ _ Hin) as Hp. rewrite <-concat_headers.
  apply new_left; [done|done|]. rewrite concat_headers. intros h Hh. apply in_map_iff in Hh as (e & <- & He). by apply Hp.
Qed.

Lemma partition_new_ok E pt css ts tr (w : C) :
  StronglySorted (fun a b => Is_true (tsid_le a b)) ts -> Forall (known tsid_for) ts -> view_ok pt css -> cache_good all w ->
  exists self w', partition_search_new (E := E) pt ts tr w = Ok (self, w') /\ cache_good all w' /\
    cl_left (CursorLaws := partition_laws) self (selected pt css ts tr).
Proof.
  intros Hs Hk Hv Hw. unfold partition_search_new.
  assert (Hend : forall s : PartitionSearch, pl_err s = Some PoolEof -> cl_left (CursorLaws := partition_laws) s []) by (intros s Hs'; by right).
  destruct ((length ts =? 0)%nat || negb (overlaps_with (pt_time_range pt) tr)) eqn:Hfast.
  { eexists _, w. split; [done|]. split; [done|]. rewrite selected_none; [by apply Hend|done|]. apply orb_true_iff in Hfast as [Hz|Hz]; [left|right].
    - apply Nat.eqb_eq in Hz. destruct ts; [done|]. cbn in Hz. lia.
    - by apply negb_true_iff in Hz. }
  destruct (Nat.eqb_spec (length (filtered_tsids pt ts)) 0) as [Hz|Hz].
  { eexists _, w. split; [done|]. split; [done|]. rewrite selected_none; [by apply Hend|done|]. left. by apply length_zero_iff_nil. }
  assert (Hk' : Forall (known tsid_for) (filtered_tsids pt ts)).
  { apply Forall_In. intros x Hx. apply list_elem_of_In, list_elem_of_filter in Hx as [_ Hx]. rewrite Forall_forall in Hk. by apply Hk. }
  destruct (pool_start_ok ref_less (good_ref tsid_for) ref_key ref_less_key (Cl := part_laws) E _ w _ (new_searches _ tr pt css (filtered_sorted pt ts Hs) Hk' Hv) Hw)
    as (self & w' & Hst & Hw' & Hl & _).
  exists self, w'. split; [done|]. split; [done|]. exact Hl.
Qed.

Lemma partition_searches_ok E pts csss ts tr : forall (w : C),
  StronglySorted (fun a b => Is_true (tsid_le a b)) ts -> Forall (known tsid_for) ts -> Forall2 view_ok pts csss -> cache_good all w ->
  exists ss w', partition_searches (E := E) pts ts tr w = Ok (ss, w') /\ cache_good all w' /\
    Forall2 (cl_left (CursorLaws := partition_laws)) ss (zip_with (fun pt css => selected pt css ts tr) pts csss).
Proof.
  intros w Hs Hk Hv. revert w. induction Hv as [|pt css pts csss Hv1 _ IH]; intros w Hw; cbn [partition_searches zip_with].
  { exists [], w. split; [done|]. split; [done|constructor]. }
  destruct (partition_new_ok E pt css ts tr w Hs Hk Hv1 Hw) as (s & w1 & -> & Hw1 & Hl). rewrite bind_Ok.
  destruct (IH w1 Hw1) as (ss & w2 & -> & Hw2 & Hls). rewrite bind_Ok. exists (s :: ss), w2. split; [done|]. split; [done|]. by constructor.
Qed.

Lemma collect_ok E fuel : forall (self : TableSearch) (w : C) R,
  cl_left (CursorLaws := table_laws) self R -> cache_good all w -> (length R < fuel)%nat ->
  exists rs self' w', ts_collect (E := E) fuel self w = Ok (rs, self', w') /\ rs ≡ₚ R /\
    StronglySorted (fun a b => Is_true (lex_leb (ref_key a) (ref_key b))) rs /\ ts_error self' = None.
Proof.
  induction fuel as [|fuel IH]; intros self w R Hl Hw Hf; [lia|]. cbn [ts_collect].
  destruct (cl_next (CursorLaws := table_laws) E self w R Hl Hw) as (s1 & w1 & Hw1 & [(-> & Hn & _ & He)|(x & R' & Hn & Hl1 & Hx & HR & Hle)]); cbn in Hn.
  - unfold ts_next_block. rewrite Hn, bind_Ok. exists [], s1, w1. split_and!; [done|done|constructor|exact He].
  - unfold ts_next_block. rewrite Hn, bind_Ok. cbn in Hx. unfold ts_block_ref. rewrite Hx.
    destruct (IH s1 w1 R' Hl1 Hw1) as (rs & s2 & w2 & -> & Hp & Hs & He); [apply Permutation_length in HR; cbn in HR; lia|]. rewrite bind_Ok.
    exists (x :: rs), s2, w2. split_and!; [done|by rewrite HR, Hp| |done]. constructor; [done|]. by rewrite Hp.
Qed.

(** The search in a table yields the selected blocks of all partitions. *)
Lemma table_search_ok E now ret pts csss ts tr (w : C) :
  StronglySorted (fun a b => Is_true (tsid_le a b)) ts -> Forall (known tsid_for) ts -> Forall2 view_ok pts csss -> cache_good all w ->
  let R := concat (zip_with (fun pt css => selected pt css ts (clamp_time_range now ret tr)) pts csss) in
  exists self w' rs self' w'', table_search_new (E := E) now ret pts ts tr w = Ok (self, w') /\
    ts_collect (E := E) (S (length R)) self w' = Ok (rs, self', w'') /\ rs ≡ₚ R /\
    StronglySorted (fun a b => Is_true (lex_leb (ref_key a) (ref_key b))) rs /\ ts_error self' = None.
Proof.
  intros Hs Hk Hv Hw R. unfold table_search_new. set (tr' := clamp_time_range now ret tr) in *.
  destruct (Nat.eqb_spec (length ts) 0) as [Hz|Hz].
  - apply length_zero_iff_nil in Hz as ->. assert (HR : R = []).
    { unfold R. apply concat_nil_Forall, Forall_In. intros l Hl. apply list_elem_of_In, elem_of_lookup_zip_with_1 in Hl as (i & pt & css & -> & Hpt & Hcs).
      apply selected_none; [exact (Forall2_lookup_lr _ _ _ _ _ _ Hv Hpt Hcs)|by left]. }
    eexists _, w. destruct (collect_ok E (S (length R)) (mkPool [] [] (Some PoolEof) false) w []) as (rs & s' & w' & H); [by right|done|cbn; lia|]. rewrite HR in *.
    exists rs, s', w'. split; [done|]. exact H.
  - destruct (partition_searches_ok E pts csss ts tr' w Hs Hk Hv Hw) as (ss & w1 & -> & Hw1 & Hls). rewrite bind_Ok.
    destruct (pool_start_ok (Cu := partition_cursor) ref_less (good_ref tsid_for) ref_key ref_less_key (Cl := partition_laws) E ss w1 _ Hls Hw1) as (self & w2 & -> & Hw2 & Hl & _).
    destruct (collect_ok E (S (length R)) self w2 R Hl Hw2 ltac:(lia)) as (rs & s' & w' & H). exists self, w2, rs, s', w'. split; [done|]. exact H.
Qed.
End Tables.

(** ** From source blocks to the blocks read *)

Section Exact.
  Context {Zs : Zstd} {Zl : ZstdLaws Zs} (tsid_for : Z -> Tsid).

(** A reference that reads the source block [b]. *)
Definition refers (b : Block) (r : BlockRef) : Prop := exists b', br_read_block r = Ok b' /\ same_rows b b'.

Lemma entry_refers p cs b e : part_ok tsid_for p cs -> In e (concat cs) -> entry_of b e -> refers b (mkBlockRef p (e_bh e)).
Proof.
  intros Hp He Hbe. destruct (data_read_block_ok tsid_for p cs e Hp He) as (b' & Hr & Hb'). exists b'. split; [done|].
  apply list_elem_of_In, list_elem_of_lookup in He as [k Hk]. eapply same_rows_intro; [by eapply stored_at; [apply Hp|exact Hk]|done|done].
Qed.

Lemma selected_refers ts tr p cs bs :
  part_ok tsid_for p cs -> Forall2 describes bs (concat cs) -> Forall2 refers (filter (wanted_block ts tr) bs) (part_selected ts tr p cs).
Proof.
  intros Hp Hd. assert (Hin : forall e, In e (concat cs) -> In e (concat cs)) by done. unfold part_selected, headers. revert Hd Hin. generalize (concat cs) at 1 2 4.
  intros log Hd. induction Hd as [|b e bs log Hbe _ IH]; intros Hin; cbn [map]; [constructor|]. rewrite filter_cons, matching_cons.
  pose proof (describes_wanted ts tr b e Hbe) as Hw. specialize (IH ltac:(intros x Hx; apply Hin; by right)).
  destruct (decide (wanted_block ts tr b)) as [H1|H1], (decide (wanted ts tr (e_bh e))) as [H2|H2]; try tauto. cbn [map]. constructor; [|done].
  eapply entry_refers; [done|apply Hin; by left|apply Hbe].
Qed.

(** A partition of parts written from the blocks [bss], within its range. *)
Definition partition_written (pt : PartitionView) (bss : list (list Block)) : Prop :=
  Forall2 (fun p bs => part_blocks tsid_for bs /\ opened_part bs p /\ forall b, In b bs -> forall t, In t (rows_left b) ->
    tr_min_timestamp (pt_time_range pt) <= t <= tr_max_timestamp (pt_time_range pt)) (pt_parts pt) bss.

Lemma described_range pt bs log :
  Forall2 describes bs log -> (forall b, In b bs -> forall t, In t (rows_left b) -> tr_min_timestamp (pt_time_range pt) <= t <= tr_max_timestamp (pt_time_range pt)) ->
  forall e, In e log -> tr_min_timestamp (pt_time_range pt) <= bh_min_timestamp (e_bh e) /\ bh_max_timestamp (e_bh e) <= tr_max_timestamp (pt_time_range pt).
Proof.
  intros Hd Hr e He. apply list_elem_of_In, list_elem_of_lookup in He as [k Hk]. destruct (Forall2_lookup_r _ _ _ _ _ Hd Hk) as (b & Hb & _ & _ & Hh & Hl).
  apply list_elem_of_lookup_2, list_elem_of_In in Hb. split; [apply (Hr b Hb)|apply (Hr b Hb)].
  - destruct (rows_left b); [done|]. injection Hh as ->. by left.
  - apply last_Some in Hl as [l ->]. apply in_or_app. right. by left.
Qed.

(** The parts of the partitions, with what they store. *)
Lemma partitions_open pts bsss :
  Forall2 partition_written pts bsss ->
  exists csss, Forall2 (fun pt css => Forall2 (fun p cs => part_ok tsid_for p cs /\ forall e, In e (concat cs) ->
      tr_min_timestamp (pt_time_range pt) <= bh_min_timestamp (e_bh e) /\ bh_max_timestamp (e_bh e) <= tr_max_timestamp (pt_time_range pt)) (pt_parts pt) css) pts csss /\
    Forall2 (Forall2 (fun bs cs => Forall2 describes bs (concat cs))) bsss csss.
Proof.
  induction 1 as [|pt bss pts bsss Hpt _ (csss & IH1 & IH2)]; [by exists []|].
  assert (Hcss : exists css, Forall2 (fun p cs => part_ok tsid_for p cs /\ forall e, In e (concat cs) ->
      tr_min_timestamp (pt_time_range pt) <= bh_min_timestamp (e_bh e) /\ bh_max_timestamp (e_bh e) <= tr_max_timestamp (pt_time_range pt)) (pt_parts pt) css /\
      Forall2 (fun bs cs => Forall2 describes bs (concat cs)) bss css).
  { unfold partition_written in Hpt. induction Hpt as [|p bs ps bss (Hb & Ho & Hr) _ (css & I1 & I2)]; [by exists []|].
    destruct (opened_part_ok tsid_for bs p Hb Ho) as (cs & Hp & Hd). exists (cs :: css). split; constructor; try done. split; [done|]. by apply (described_range pt bs). }
  destruct Hcss as (css & H1 & H2). exists (css :: csss). split; by constructor.
Qed.

(** The table of all parts. *)
Definition all_parts (pts : list PartitionView) (csss : list (list (list (list entry)))) : list (Part * list (list entry)) :=
  concat (zip_with (fun pt css => zip (pt_parts pt) css) pts csss).

Lemma zip_fst_NoDup {A B} (f : A -> Z) (ps : list A) (css : list B) p cs p' cs' :
  NoDup (map f ps) -> In (p, cs) (zip ps css) -> In (p', cs') (zip ps css) -> f p = f p' -> p = p' /\ cs = cs'.
Proof.
  intros Hnd Hin Hin' He. apply list_elem_of_In, list_elem_of_lookup in Hin as [i Hi], Hin' as [j Hj].
  apply lookup_zip_with_Some in Hi as (? & ? & [= <- <-] & Hpi & Hci), Hj as (? & ? & [= <- <-] & Hpj & Hcj).
  assert (i = j) as <-; [|by simplify_eq]. eapply NoDup_lookup; [exact Hnd| |].
  - apply list_lookup_fmap_Some. by exists p.
  - apply list_lookup_fmap_Some. exists p'. by rewrite <-He.
Qed.

Lemma all_parts_zip pts csss :
  Forall2 (fun pt css => length (pt_parts pt) = length css) pts csss -> all_parts pts csss = zip (concat (map pt_parts pts)) (concat csss).
Proof.
  unfold all_parts. induction 1 as [|pt css pts csss Hl _ IH]; [done|]. cbn [zip_with concat map]. rewrite IH. symmetry. by apply (zip_with_app pair).
Qed.

Lemma selected_all ts tr pts bsss csss :
  Forall2 (fun pt css => Forall2 (fun p cs => part_ok tsid_for p cs) (pt_parts pt) css) pts csss ->
  Forall2 (Forall2 (fun bs cs => Forall2 describes bs (concat cs))) bsss csss ->
  Forall2 refers (concat (zip_with (fun pt bss => filter (wanted_block (filtered_tsids pt ts) tr) (concat bss)) pts bsss))
    (concat (zip_with (fun pt css => selected pt css ts tr) pts csss)).
Proof.
  intros Hp. revert bsss. induction Hp as [|pt css pts csss Hp1 _ IH]; intros bsss Hd; inversion Hd as [|bss ? bsss' ? Hd1 Hd2]; subst; cbn [zip_with concat]; [constructor|].
  apply Forall2_app; [|by apply IH]. unfold selected. clear -Hp1 Hd1 Zl. generalize (filtered_tsids pt ts). intros ts'. revert bss Hd1.
  induction Hp1 as [|p cs ps css Hp _ IH]; intros bss Hd1; inversion Hd1; subst; cbn [zip_with concat]; [constructor|]. rewrite filter_app.
  apply Forall2_app; [by apply selected_refers|by apply IH].
Qed.
End Exact.

Section Claims.
  Context {Zs : Zstd} {Zl : ZstdLaws Zs} {Vs : CachedBlock (list BlockHeader)}.

(** C15: a query reads exactly the blocks it is after.  Well-formed blocks of
    any number of series, with one identifier per metric id, are written, with
    deduplication off, to the parts of any number of partitions, each part sorted
    by series and first timestamp and within the range of its partition; the parts
    have different ids.  The search in the table for a sorted list of series and a
    time range, over a fresh cache of index blocks and whatever the clock and the
    size limits are, ends without panic or error; it yields references in the
    order of series and first timestamp, and reading them gives, each once,
    exactly the written blocks whose series is in the list and not deleted in the
    partition and whose timestamps meet the range cut to the retention
    ([clamp_time_range]): a block older than the retention is not yielded. *)
Theorem data_search_exact (tsid_for : Z -> Tsid) (pts : list PartitionView) (bsss : list (list (list Block)))
    (tsids : list Tsid) (tr : TimeRange) (now retention cpus : Z) (clock limit : nat -> Z) :
  Forall2 (partition_written tsid_for) pts bsss -> NoDup (map p_id (concat (map pt_parts pts))) ->
  StronglySorted (fun a b => Is_true (tsid_le a b)) tsids -> Forall (known tsid_for) tsids -> 0 <= cpus <= 2 ^ 63 ->
  exists self w rs self' w' found bs,
    table_search_new (E := Empty_set) now retention pts tsids tr (fresh_cache cpus clock limit) = Ok (self, w) /\
    ts_collect (E := Empty_set) (S (length rs)) self w = Ok (rs, self', w') /\ ts_error self' = None /\
    StronglySorted (fun a b => Is_true (lex_leb (ref_key a) (ref_key b))) rs /\
    Forall2 (fun r b => br_read_block r = Ok b) rs bs /\ Forall2 same_rows found bs /\
    found ≡ₚ concat (zip_with (fun pt bss => filter (wanted_block (filtered_tsids pt tsids) (clamp_time_range now retention tr)) (concat bss)) pts bsss).
Proof.
  intros Hpts Hnd Hs Hk Hc. destruct (partitions_open tsid_for pts bsss Hpts) as (csss & Hok & Hd).
  assert (Hlen : Forall2 (fun pt css => length (pt_parts pt) = length css) pts csss) by (eapply Forall2_impl; [exact Hok|]; intros pt css H; exact (Forall2_length _ _ _ H)).
  pose proof (all_parts_zip pts csss Hlen) as Hall. set (all := all_parts pts csss) in *.
  assert (Hin : forall i j pt css p cs, pts !! i = Some pt -> csss !! i = Some css -> pt_parts pt !! j = Some p -> css !! j = Some cs -> In (p, cs) all).
  { intros i j pt css p cs Hi1 Hi2 Hj1 Hj2. unfold all, all_parts. apply in_concat. exists (zip (pt_parts pt) css). split.
    - eapply list_elem_of_In, list_elem_of_lookup_2. apply lookup_zip_with_Some. by exists pt, css.
    - eapply list_elem_of_In, list_elem_of_lookup_2. apply lookup_zip_with_Some. by exists p, cs. }
  assert (Hparts : forall p cs, In (p, cs) all -> part_ok tsid_for p cs).
  { intros p cs (l & Hl & Hp)%in_concat. apply list_elem_of_In, elem_of_lookup_zip_with_1 in Hl as (i & pt & css & -> & Hi1 & Hi2).
    apply list_elem_of_In, elem_of_lookup_zip_with_1 in Hp as (j & p' & cs' & [= -> ->] & Hj1 & Hj2).
    pose proof (Forall2_lookup_lr _ _ _ _ _ _ Hok Hi1 Hi2) as Hf. by destruct (Forall2_lookup_lr _ _ _ _ _ _ Hf Hj1 Hj2). }
  assert (Hids : forall p cs p' cs', In (p, cs) all -> In (p', cs') all -> p_id p = p_id p' -> p = p' /\ cs = cs').
  { intros p cs p' cs' H1 H2. rewrite Hall in H1, H2. by apply (zip_fst_NoDup p_id (concat (map pt_parts pts)) (concat csss)). }
  assert (Hview : Forall2 (view_ok all) pts csss).
  { apply Forall2_same_length_lookup. split; [exact (Forall2_length _ _ _ Hok)|]. intros i pt css Hi1 Hi2. pose proof (Forall2_lookup_lr _ _ _ _ _ _ Hok Hi1 Hi2) as Hf.
    apply Forall2_same_length_lookup. split; [exact (Forall2_length _ _ _ Hf)|]. intros j p cs Hj1 Hj2. split; [by eapply Hin|]. by destruct (Forall2_lookup_lr _ _ _ _ _ _ Hf Hj1 Hj2). }
  destruct (table_search_ok tsid_for all Hparts Hids Empty_set now retention pts csss tsids tr (fresh_cache cpus clock limit) Hs Hk Hview) as
    (self & w & rs & self' & w' & Hnew & Hcol & Hperm & Hsort & Herr); [by apply fresh_good|]. rewrite <-(Permutation_length Hperm) in Hcol.
  assert (Href : Forall2 refers (concat (zip_with (fun pt bss => filter (wanted_block (filtered_tsids pt tsids) (clamp_time_range now retention tr)) (concat bss)) pts bsss))
    (concat (zip_with (fun pt css => selected pt css tsids (clamp_time_range now retention tr)) pts csss))).
  { apply (selected_all tsid_for); [|done]. eapply Forall2_impl; [exact Hok|]. intros pt css H. eapply Forall2_impl; [exact H|]. by intros p cs [? _]. }
  apply Forall2_flip in Href. destruct (Permutation_Forall2 (Permutation_sym Hperm) Href) as (found & Hf & Href').
  assert (Hread : exists bs, Forall2 (fun r b => br_read_block r = Ok b) rs bs /\ Forall2 same_rows found bs).
  { clear -Href'. induction Href' as [|r b rs found (b' & Hr & Hb) _ (bs & I1 & I2)]; [by exists []|]. exists (b' :: bs). split; by constructor. }
  destruct Hread as (bs & Hr & Hsame). exists self, w, rs, self', w', found, bs. split_and!; try done. 
Qed.
End Claims.

Section Examples.
Local Existing Instances stored_zstd stored_zstd_laws.
Local Instance headers_size : CachedBlock (list BlockHeader) := fun _ => 64.

(** The part of the blocks [bs]. *)
Definition open_part (id : Z) (bs : list Block) : res block_error Part :=
  '(w, ph, _) ← write_blocks 0 (new_inmemory_part 3) bs PartHeader_default 0;
  match must_close (E := Empty_set) w with
  | Ok bufs => match new_part (E := Empty_set) id (from_buffers 7 ph bufs) with Ok (p, _) => Ok p | _ => Panic end
  | _ => Panic
  end.

Lemma open_part_opened id bs p : open_part id bs = Ok p -> opened_part bs p.
Proof.
  unfold open_part. intros H. destruct (write_blocks _ _ _ _ _) as [[[w ph] rm]| |] eqn:Hw; [|done..]. rewrite bind_Ok in H.
  destruct (must_close w) as [bufs| |] eqn:Hc; [|done..]. destruct (new_part id _) as [[p' id']| |] eqn:Hn; [|done..]. injection H as ->.
  by exists 3, w, ph, rm, bufs, 7, id, id'.
Qed.

Definition series (m : Z) : Tsid := mkTsid 1 2 3 m.
Definition series_block (m shift : Z) : Block :=
  mkBlock (mkBlockHeader (series m) 0 0 0 0 0 0 0 0 (-2) 0 0 64) 0 (map (Z.add shift) [3; 10; 25; 25; 70]) [5; -7; 12; 1000; 4] [] [] [].
Definition part1 : list Block := [series_block 4 0; series_block 4 70; series_block 5 0].
Definition part2 : list Block := [series_block 4 1000; series_block 6 1000].

Lemma series_blocks_ok : part_blocks series part1 /\ part_blocks series part2.
Proof.
  assert (Hb : Forall unpacked_ok (part1 ++ part2)) by (repeat constructor; try (apply (bool_decide_unpack _); vm_compute; done); cbn; lia).
  apply Forall_app in Hb as [H1 H2]. split; (split; [done|cbn; lia|done| |repeat constructor]); repeat constructor.
Qed.

Lemma rows_within lo hi bs :
  forallb (fun b => forallb (fun t => (lo <=? t) && (t <=? hi)) (rows_left b)) bs = true ->
  forall b, In b bs -> forall t, In t (rows_left b) -> lo <= t <= hi.
Proof. rewrite forallb_forall. intros H b Hb t Ht. specialize (H b Hb). rewrite forallb_forall in H. specialize (H t Ht). lia. Qed.

Lemma data_search_exact_witness :
  exists p1 p2 self w rs self' w' found bs,
    open_part 1 part1 = Ok p1 /\ open_part 2 part2 = Ok p2 /\
    let pts := [mkPartitionView (mkTimeRange 0 999) (fun _ => false) [p1]; mkPartitionView (mkTimeRange 1000 1999) (Z.eqb 6) [p2]] in
    table_search_new (E := Empty_set) 2000 2000 pts [series 4; series 6] (mkTimeRange 50 1500) (fresh_cache 4 (fun _ => 1000) (fun _ => 1048576)) = Ok (self, w) /\
    ts_collect (E := Empty_set) (S (length rs)) self w = Ok (rs, self', w') /\
    Forall2 (fun r b => br_read_block r = Ok b) rs bs /\ Forall2 same_rows found bs /\
    found ≡ₚ [series_block 4 0; series_block 4 70; series_block 4 1000].
Proof.
  assert (H1 : exists p, open_part 1 part1 = Ok p /\ p_id p = 1) by (eexists; split; by vm_compute).
  assert (H2 : exists p, open_part 2 part2 = Ok p /\ p_id p = 2) by (eexists; split; by vm_compute).
  destruct H1 as (p1 & H1 & I1), H2 as (p2 & H2 & I2), series_blocks_ok as [B1 B2].
  set (pts := [mkPartitionView (mkTimeRange 0 999) (fun _ => false) [p1]; mkPartitionView (mkTimeRange 1000 1999) (Z.eqb 6) [p2]]).
  destruct (data_search_exact series pts [[part1]; [part2]] [series 4; series 6] (mkTimeRange 50 1500) 2000 2000 4 (fun _ => 1000) (fun _ => 1048576))
    as (self & w & rs & self' & w' & found & bs & Hn & Hc & _ & _ & Hr & Hs & Hp).
  - constructor; [constructor; [|constructor]|constructor; [constructor; [|constructor]|constructor]].
    + exact (conj B1 (conj (open_part_opened _ _ _ H1) (rows_within 0 999 part1 eq_refl))).
    + exact (conj B2 (conj (open_part_opened _ _ _ H2) (rows_within 1000 1999 part2 eq_refl))).
  - cbn. rewrite I1, I2. by apply (bool_decide_unpack _); vm_compute.
  - repeat constructor.
  - repeat constructor.
  - lia.
  - exists p1, p2, self, w, rs, self', w', found, bs. exact (conj H1 (conj H2 (conj Hn (conj Hc (conj Hr (conj Hs Hp)))))).
Defined.
End Examples.
